(* ===== verification/_CoqProject ===== *)
-Q . S2P
Prelude.v
Traces.v
Varint.v
CloseCodec.v
QmuxError.v
QmuxTypes.v
QmuxConn.v
QmuxWrite.v
RecordFramer.v
QmuxScheduling.v
QmuxIo.v
QmuxIoFacts.v
QmuxIoSafety.v
QmuxIoTotal.v
H3Types.v
H3Body.v
H3Conn.v
H3Safety.v
H2Types.v
H2State.v
H2Session.v
H2Safety.v
QuicTypes.v
QuicWire.v
QuicRetain.v
QuicConn.v
QuicSafety.v
QuicMailbox.v
QuicMailboxFacts.v
QuicEndpoint.v
QuicToys.v
QuicEndpointFacts.v
QuicRoutes.v
QuicFlush.v
UtilPool.v
UtilPoolFacts.v
HttpCrate.v
H3Head.v
H2Head.v
QmuxLower.v
QmuxLowerFacts.v
H3Qmux.v
H3QmuxFacts.v
H3QmuxSend.v
H3QmuxWake.v
H3QmuxToy.v
H2Drain.v
H2DrainFacts.v
HeadFacts.v
H3Shared.v
H3Driver.v
H3Roles.v
H3Keeps.v
H3Worlds.v
H3Runs.v
H3HttpToys.v
H3ClientFacts.v
H3ServerFacts.v
H3DriverFacts.v
H3ReadFacts.v
QmuxH3.v
QmuxH3Laws.v
QmuxH3Facts.v
QmuxH3Waits.v
QmuxH3Driver.v
QmuxH3Toy.v
QmuxStack.v
