(* ===== verification/Prelude.v ===== *)
(** * ngnet: verification library

    ngnet is a family of Rust crates that put safe, and then asynchronous, interfaces over C
    protocol libraries: nghttp2 (HTTP/2), nghttp3 (HTTP/3), ngtcp2 (QUIC) and dwnx (QMux, a
    QUIC-like multiplexing over an ordinary byte stream), with a connection pool on top.  Each
    protocol crate has the same shape.  A sans-I/O wrapper owns one C connection; an entry
    point installs a bridge, calls C, and C calls back through trampolines into the caller's
    handlers; what C only borrows (bodies, sent bytes, buffers) the wrapper keeps alive.
    Above the wrapper an asynchronous layer owns the transport, the wakers and the queues
    that tasks share.  This library models those layers from the Rust source and proves what
    they promise; the C libraries, sockets, clocks, wakers and the like are type classes whose
    laws state their documented behaviour.

    ** Parts, files and sources

    Shared:
    - Prelude: results, polls, u64 arithmetic, fuel-driven loops, list lemmas, tactics.
    - Traces: a list of callbacks answered by a handler function, and its recording.

    QMux (crates/ngnet-qmux/src):
    - Varint, CloseCodec, RecordFramer: io/framing.rs, ccerr.rs, io/close.rs.  Variable-length
      integers, CONNECTION_CLOSE records, the inbound framer.
    - QmuxError, QmuxTypes: error.rs, io/error.rs, time.rs, stream.rs, params.rs, settings.rs,
      io/event.rs.
    - QmuxConn: handlers.rs, callbacks.rs, conn.rs, stream_io.rs.  The wrapper over class
      [Dwnx]; handler state is the Rust side [B] the C library threads through callbacks.
    - QmuxWrite: write.rs.  The record writer that borrows the connection.
    - QmuxScheduling: io/scheduling.rs.  Waker slots and read-ahead.
    - QmuxIo: io/conn.rs.  The asynchronous connection, over classes [ByteStream], [Clock],
      [Wakers].  QmuxIoFacts, QmuxIoSafety, QmuxIoTotal hold its theorems.

    HTTP/3 (crates/ngnet-h3/src):
    - H3Types: stream.rs, error.rs, header.rs, settings.rs, handlers.rs.
    - H3Body: body.rs, state.rs and the filling loop of callbacks.rs.
    - H3Conn: conn.rs, callbacks.rs, send.rs, over class [Nghttp3].
    - H3Safety: the theorems about all of it.

    HTTP/2 (crates/ngnet-h2/src):
    - H2Types: error.rs, stream.rs, header.rs, settings.rs, body.rs, handlers.rs.
    - H2State: state.rs.  Body entries behind raw addresses, response guard, frame tracker.
    - H2Session: session.rs, callbacks.rs, over class [Nghttp2].
    - H2Safety: the theorems about all of it.

    QUIC (crates/ngnet-quic/src):
    - QuicTypes: error.rs, time.rs, stream.rs, cid.rs, rand.rs, validate.rs, settings.rs,
      params.rs.
    - QuicWire: path.rs, token.rs, accept.rs.
    - QuicRetain: retain.rs.  Sent bytes kept until acknowledged.
    - QuicConn: conn.rs, callbacks.rs, handlers.rs, packet.rs, stream_io.rs, and the transport
      parameters of tls_bridge.rs, over class [Ngtcp2].  QuicSafety holds its theorems.
    - QuicMailbox: endpoint/{error,shared,connection}.rs.  Mailboxes at addresses in a
      [World], with the log of wakers woken.  QuicMailboxFacts holds its theorems.
    - QuicEndpoint: endpoint/{config,validate,driver,handle}.rs.  The driver is a state monad;
      one poll is one step, between two of which handles and the owners of detached
      connections act.  QuicToys is a runnable instance of every class it uses;
      QuicEndpointFacts, QuicRoutes and QuicFlush hold its theorems.

    HTTP layer of HTTP/3 (crates/ngnet-h3/src/http), and the heads of HTTP/2
    (crates/ngnet-h2/src/http/{head,error}.rs):
    - HttpCrate: the http crate as class [Http] with its laws [HttpLaws], and a toy of both.
    - H3Head, H2Head: error.rs and head.rs of the two crates.  HeadFacts: a reference decoder
      that looks at a section as a whole, and the theorems about heads.
    - H3Shared: events.rs, shared.rs, tasks.rs and the handles of client.rs, server.rs and
      body/.  Arcs are addresses in a [World]; [Handle.act] is all a holder of handles can do.
    - H3Driver: config.rs, quic.rs, driver.rs, body/outgoing.rs, over class [QuicBackends] and
      the interface [Roles].  [Drive.segment] runs from one suspension point to the next,
      [Drive.turn] is one poll's worth of it, and between turns anything may act.
    - H3Roles: client.rs, server.rs, tasks.rs, connection.rs.  The two instances of [Roles].
    - H3Keeps, H3Worlds, H3Runs: what wrapper calls, world steps and the driver preserve;
      [role_keeps] is what a role must promise for the driver to keep an invariant.
    - H3HttpToys: runnable instances.  H3ClientFacts, H3ServerFacts, H3DriverFacts and
      H3ReadFacts hold the theorems.

    Draining HTTP/2 (crates/ngnet-h2/src/http/{driver,transport/mod}.rs):
    - H2Drain: the four drains of a pass, over classes for the session and the transport.
      H2DrainFacts holds its theorems.

    HTTP/3 over QMux:
    - QmuxLower: the connection as what stands on it sees it, class [QmuxLower] with its laws
      [LowerLaws].  QmuxLowerFacts: the connection of QmuxIo, each operation run to its end, is
      an instance that obeys them.
    - H3Qmux (crates/h3-ngnet-qmux/src): the traits of the h3 crate over a QMux connection, a
      string of sections of one mutex per method.  H3QmuxFacts, H3QmuxSend, H3QmuxWake hold its
      theorems, H3QmuxToy a connection to run it on.
    - QmuxH3 (crates/ngnet-qmux-h3/src): the transport this workspace's own HTTP/3 driver runs
      over.  QmuxH3Laws makes it an instance of [QuicBackends] with its laws, so that the
      theorems about the driver hold over it; QmuxH3Facts, QmuxH3Waits and QmuxH3Driver hold the
      theorems about the transport and about the driver over it, QmuxH3Toy runs both.
    - QmuxStack: both adapters over the connection of QmuxIo.

    Pool (crates/ngnet-util/src):
    - UtilPool: pool.rs, error.rs, the data of origin.rs.  Tasks are program counters, one
      [step] per lock acquisition or await.  UtilPoolFacts holds its theorems.

    ** How operations correspond to the code

    A Rust function is the Definition of the same name.  A method that mutates [self] returns
    the new record.  A callback is a constructor of the request or callback type and is
    answered by the trampoline's definition.  [Result] is [result], [Option] is [option],
    [Poll] is [Poll]; a panic, or a loop that ran past its fuel, is [None] of an outer
    [option].  Integers of the C interface are [Z] at their width.  State reached by several
    owners (mailboxes, waker slots, shared cells) lives at addresses in a store and every
    critical section is one step; what other tasks do between two steps is an argument or a
    constructor of the step relation, so that theorems hold in every interleaving.

    ** What the theorems show

    - Memory: a buffer or entry the C library may still use is alive, whatever the caller does
      ([buffers_outlive_use], [bodies_memory_safe], [pointers_outlive_use],
      [no_record_left_open]); calls the library only asserts against are never made
      ([calls_permitted]); parameters it would abort on are refused ([params_exact]).
    - Byte accounting: what is reported written is what was taken, in order, across any
      fragment, record, packet or segment boundary ([try_write_accounts], [write_accounts],
      [body_in_order], [owned_write_exact], [vectored_write_exact], [flush_in_order],
      [reads_in_order], [output_only_grows], [close_is_last]).
    - Framing and codecs: agreement with a specification over whole streams however they are
      cut ([framer_refines_spec], [mid_frame_exact], [at_boundary_iff_whole]) and round trips
      ([write_read_varint], [encoded_close_recovered], [decode_behind_frames]).
    - Errors: an error is fatal exactly when the connection is unusable ([fatal_is_final]).
    - Liveness and termination: parked tasks are woken ([parked_task_woken],
      [parked_producer_owed], [parked_request_is_owed_a_wakeup], [read_ahead_resumes]), every
      operation returns ([every_operation_returns]), nor does anything above the connection
      panic or loop ([stack_never_panics]), a shutdown ends ([shutdown_terminates],
      [shutdown_never_stuck], [finished_leaves_nothing]).
    - Endpoint: routes lead to live connections ([routes_live]); strangers cost nothing but
      one answer, pinned to the octet ([strangers_cost_nothing]), at a bounded rate
      ([resets_bounded]); a stream's bytes reach its reader whole and in order wherever the
      driver stands with what it took from the mailbox ([reads_in_order], and
      [absorb_at_mailbox] that the driver's [absorb] is such steps).
    - Heads: the decoders accept the well-formed sections, and of the others only those whose
      contradicting host comes before another one, and deliver what a whole-section reference
      says ([request_head_exact], [decoders_agree], [no_smuggling]), and heads survive a round
      trip ([request_survives], [response_survives]).
    - HTTP/3 driver: when the driver has ended, no request's future is left without an answer
      but those whose sending it cut in two ([no_request_forgotten]); a parked driver is owed
      a wakeup for all it would act on but the last handle's going ([parked_driver_owed]);
      handlers are bounded ([handlers_bounded]), a GOAWAY ends exactly the exchanges above it
      ([goaway_exact]), bodies and their credit are conserved ([reading_conserves]), and the
      record of closed streams is its specification ([closed_streams_exact]).
    - Draining HTTP/2: whichever way a pass is drained, the transport accepts exactly what the
      session produced ([drains_exact]).
    - h3 over QMux: no method panics ([adapter_never_panics]), windows are conserved
      ([window_conserved]), what a stream is given reaches the connection whole and in order
      ([sent_in_order]), and no wake is lost, while it runs ([driver_forgets_nobody];
      [no_wake_lost], access by access, up to the store that weak ordering lets a section
      overlook) or when it ends ([nobody_parked_at_the_end]).
    - The HTTP/3 driver over QMux: summed credit is conserved ([credit_balanced]), no batch of
      events has an ending behind anything else ([batches_never_mix]), a task parked to open is
      woken when there may be room ([parked_open_owed]), exactly the octets taken are released
      ([releases_exact]), a driver told to wait is owed a wakeup ([waiting_driver_owed]).

    ** Outside code

    Every class names one piece of code not under src/: the C libraries ([Dwnx], [Nghttp2],
    [Nghttp3], [Ngtcp2] and their code and wire classes), the byte stream, clock and wakers
    ([ByteStream], [Clock], [Wakers], [Clocks], [UdpSockets]), the http crate ([Http]), boxed
    errors ([Boxing]), TLS and entropy ([TlsSessions],
    [TlsBackends], [EntropySources], [EntropyFactories]), the order a hash map is walked in
    ([HashOrder]), and caller-supplied bodies and buffers ([BodySource], [BodySources],
    [Owners]).  What a theorem needs of one is a class of laws ([DwnxLaws], [DwnxWriteLaws],
    [DwnxIdleLaws], [DwnxProgress], [DwnxStreams], [StreamLaws], [StreamProgress], [FiniteBursts]) or a
    predicate on a recording of the library's calls ([Recorded] with the [library_ok] of
    H3Safety, H2Safety and QuicSafety).  Each theorem with such a hypothesis has a witness
    over a concrete toy library.

    ** Fuel

    A loop that is not structural takes fuel and is [None] without it.  Loops bounded by
    their data get that bound from the caller: a round per byte offered ([write_accounts]), the
    length of a queue, the bytes of a read ([framer_refines_spec]).  Loops bounded only by the
    environment take fuel as a parameter, and a theorem gives enough of it from the
    environment's own bound, with the same outcome for any larger fuel
    ([every_operation_returns], [flush_in_order]).  Where a client needs an operation without
    fuel, it is run with as much as it takes ([run_total], [run_total_outcome]).

    ** Not modelled

    TLS (ngnet-quic tls_ossl.rs and the FFI half of tls_bridge.rs): raw calls into OpenSSL.
    Diagnostics, logging and metrics: they read the state and change none of it.  Testing
    support and allocation counting.  The tokio, compio and axum adapters, and the -sys
    crates: glue over code that is not here.  The run loop, roles and shared state of the HTTP/2
    driver: the twin of the HTTP/3 driver, which is modelled; of HTTP/2 only the drains are.  The
    adapters over QUIC (ngnet-quic-h3, h3-ngnet-quic, ngnet-h3-quinn): the driver meets them as
    the class [QuicBackends].  The client of ngnet-util and its dialling: URI parsing and
    sockets.
*)

From Stdlib Require Import ZArith Lia Strings.Byte.
From stdpp Require Import base list gmap strings numbers.

#[global] Open Scope Z_scope.

(** ** Results

    Rust's [Result<T, E>].  The bind notation lives in a scope of its own. *)

Inductive result (A E : Type) : Type :=
| Ok (a : A)
| Err (e : E).
Arguments Ok {A E} a.
Arguments Err {A E} e.

Declare Scope rust_scope.
Delimit Scope rust_scope with rust.

(** The question-mark operator on [Result]. *)
Notation "'let?' x ':=' c 'in' k" :=
  (match c with Ok x => k | Err e => Err e end)
  (at level 10, x pattern, c at level 100, k at level 200) : rust_scope.

(** The question-mark operator on [Option]. *)
Notation "'let!' x ':=' c 'in' k" :=
  (match c with Some x => k | None => None end)
  (at level 10, x pattern, c at level 100, k at level 200) : rust_scope.

#[global] Open Scope rust_scope.

(** [core::task::Poll]. *)
Inductive Poll (A : Type) := Pending | Ready (a : A).
Arguments Pending {A}.
Arguments Ready {A} a.

Definition is_ok {A E} (r : result A E) : bool :=
  match r with Ok _ => true | Err _ => false end.

Definition map_err {A E F} (f : E → F) (r : result A E) : result A F :=
  match r with Ok a => Ok a | Err e => Err (f e) end.

Lemma is_ok_true {A E} (r : result A E) : is_ok r = true ↔ ∃ a, r = Ok a.
Proof. destruct r; simpl; split; [eauto | done | done | by intros [? [=]]]. Qed.

(** ** Machine integers

    A [u64] (or [usize] on the 64-bit targets the crates support) is a [Z] in
    [[0, 2^64)]; the saturating, checked and wrapping operations are the ones of the
    Rust standard library.  Indices and lengths of in-memory sequences are [nat]. *)

Definition U64_MAX : Z := 2 ^ 64 - 1.

Definition is_u64 (z : Z) : Prop := 0 ≤ z ≤ U64_MAX.

Definition saturating_add (a b : Z) : Z := Z.min (a + b) U64_MAX.
Definition saturating_sub (a b : Z) : Z := Z.max (a - b) 0.
Definition saturating_mul (a b : Z) : Z := Z.min (a * b) U64_MAX.

Definition checked_add (a b : Z) : option Z :=
  if a + b <=? U64_MAX then Some (a + b) else None.
Definition checked_sub (a b : Z) : option Z :=
  if b <=? a then Some (a - b) else None.
Definition checked_mul (a b : Z) : option Z :=
  if a * b <=? U64_MAX then Some (a * b) else None.

Definition wrapping_add (a b : Z) : Z := (a + b) mod 2 ^ 64.

(** [a << n] on a [u64]: the bits shifted out are lost. *)
Definition shl64 (a n : Z) : Z := Z.shiftl a n mod 2 ^ 64.

#[global] Instance is_u64_dec z : Decision (is_u64 z).
Proof. unfold is_u64. apply _. Defined.

Create HintDb ngnet.
Create Rewrite HintDb ngnet.

Lemma saturating_add_u64 a b : is_u64 a → is_u64 b → is_u64 (saturating_add a b).
Proof. unfold is_u64, saturating_add, U64_MAX. lia. Qed.

Lemma saturating_sub_u64 a b : is_u64 a → is_u64 b → is_u64 (saturating_sub a b).
Proof. unfold is_u64, saturating_sub, U64_MAX. lia. Qed.

Lemma saturating_add_exact a b : a + b ≤ U64_MAX → saturating_add a b = a + b.
Proof. unfold saturating_add. lia. Qed.

Lemma saturating_sub_0 a b : a ≤ b → saturating_sub a b = 0.
Proof. unfold saturating_sub. lia. Qed.

Lemma checked_add_Some a b c :
  checked_add a b = Some c ↔ c = a + b ∧ a + b ≤ U64_MAX.
Proof.
  unfold checked_add. destruct (Z.leb_spec (a + b) U64_MAX);
    (split; [intros; simplify_eq; lia | intros [-> ?]; done || lia]).
Qed.

Lemma checked_add_None a b : checked_add a b = None ↔ U64_MAX < a + b.
Proof.
  unfold checked_add. destruct (Z.leb_spec (a + b) U64_MAX);
    (split; [intros; done || lia | intros ?; done || lia]).
Qed.

Lemma checked_sub_Some a b c : checked_sub a b = Some c ↔ c = a - b ∧ b ≤ a.
Proof.
  unfold checked_sub. destruct (Z.leb_spec b a);
    (split; [intros; simplify_eq; lia | intros [-> ?]; done || lia]).
Qed.

#[export] Hint Resolve saturating_add_u64 saturating_sub_u64 : ngnet.

(** ** Bytes *)

Abbreviation byte := Byte.byte.
Abbreviation bytes := (list Byte.byte).

#[global] Instance byte_eq_decision : EqDecision byte := Byte.byte_eq_dec.

(** The value of a [u8]. *)
Definition bZ (b : byte) : Z := Z.of_N (Byte.to_N b).

(** The truncating cast [z as u8]. *)
Definition Zb (z : Z) : byte :=
  match Byte.of_N (Z.to_N (z mod 256)) with Some b => b | None => Byte.x00 end.

Lemma bZ_bound b : 0 ≤ bZ b < 256.
Proof. unfold bZ. pose proof (Byte.to_N_bounded b). lia. Qed.

Lemma Zb_bZ b : Zb (bZ b) = b.
Proof.
  unfold Zb. rewrite Z.mod_small by apply bZ_bound.
  unfold bZ. by rewrite N2Z.id, Byte.of_to_N.
Qed.

Lemma bZ_Zb z : bZ (Zb z) = z mod 256.
Proof.
  unfold Zb. pose proof (Z.mod_pos_bound z 256 ltac:(lia)) as Hb.
  destruct (Byte.of_N (Z.to_N (z mod 256))) as [b|] eqn:E.
  - unfold bZ. apply Byte.to_of_N in E. lia.
  - apply Byte.of_N_None_iff in E. lia.
Qed.

Lemma bZ_Zb_small z : 0 ≤ z < 256 → bZ (Zb z) = z.
Proof. intros. rewrite bZ_Zb. by apply Z.mod_small. Qed.

Lemma bZ_inj a b : bZ a = bZ b → a = b.
Proof. intros E. by rewrite <-(Zb_bZ a), E, Zb_bZ. Qed.

#[export] Hint Rewrite bZ_Zb_small using lia : ngnet.

(** [u8::is_ascii_lowercase] and its like. *)
Definition in_range (lo hi : Z) (b : byte) : bool := (lo <=? bZ b) && (bZ b <=? hi).

Definition is_ascii_lowercase : byte → bool := in_range 0x61 0x7a.
Definition is_ascii_uppercase : byte → bool := in_range 0x41 0x5a.
Definition is_ascii_digit : byte → bool := in_range 0x30 0x39.

(** The bytes of an ASCII literal, as Rust's [b"..."]. *)
Fixpoint ascii_bytes (s : string) : bytes :=
  match s with
  | EmptyString => []
  | String c s' => Zb (Z.of_N (Ascii.N_of_ascii c)) :: ascii_bytes s'
  end.

(** ** Lists *)

Lemma take_drop_split {A} n (l : list A) : take n l ++ drop n l = l.
Proof. apply take_drop. Qed.

Lemma drop_app_exact {A} (a b : list A) n : n = length a → drop n (a ++ b) = b.
Proof. intros ->. apply drop_app_length. Qed.

Lemma take_app_exact {A} (a b : list A) n : n = length a → take n (a ++ b) = a.
Proof. intros ->. apply take_app_length. Qed.

Lemma list_sum_app a b : sum_list_with id (a ++ b) = (sum_list_with id a + sum_list_with id b)%nat.
Proof. apply sum_list_with_app. Qed.

(** ** Hash maps

    A hash map is walked in any order.  *)
Class HashOrder := {
  keys : ∀ {A : Type}, gmap Z A → list Z;
  keys_perm : ∀ A (m : gmap Z A), keys m ≡ₚ (map_to_list m).*1
}.

(** ** Tactics *)

(** Case analysis on the boolean comparisons of the goal and the context. *)
Ltac zbool :=
  repeat match goal with
  | H : (_ <=? _) = true |- _ => apply Z.leb_le in H
  | H : (_ <=? _) = false |- _ => apply Z.leb_gt in H
  | H : (_ <? _) = true |- _ => apply Z.ltb_lt in H
  | H : (_ <? _) = false |- _ => apply Z.ltb_ge in H
  | H : (_ =? _) = true |- _ => apply Z.eqb_eq in H
  | H : (_ =? _) = false |- _ => apply Z.eqb_neq in H
  | H : (_ && _)%bool = true |- _ => apply andb_true_iff in H as [? ?]
  | H : (_ || _)%bool = false |- _ => apply orb_false_iff in H as [? ?]
  | H : negb _ = true |- _ => apply negb_true_iff in H
  | H : negb _ = false |- _ => apply negb_false_iff in H
  end.

(** Destruct the discriminee of the first [match] or [if] of the goal. *)
Ltac case_goal :=
  match goal with
  | |- context [match ?x with _ => _ end] => destruct x eqn:?
  end.

(** Destruct the discriminee of a [match] in hypothesis [H]. *)
Ltac case_hyp H :=
  match type of H with
  | context [match ?x with _ => _ end] => destruct x eqn:?
  end.

(** Resolve every [decide] on a closed proposition of the goal by computation. *)
Ltac decide_const :=
  repeat match goal with
  | |- context [@decide ?P ?d] =>
      first
        [ rewrite (@decide_True P d) by
            (apply (bool_decide_eq_true_1 P); vm_compute; reflexivity)
        | rewrite (@decide_False P d) by
            (apply (bool_decide_eq_false_1 P); vm_compute; reflexivity) ]
  end.
