(* ===== verification/Traces.v ===== *)
(** * Calls made back into Rust

    A foreign library is handed a function [cb] that answers its callbacks and threads the
    Rust-side state [B].  [runs] is what a list of callbacks, answered as written, does to
    that state; [traced] is the state together with the list that led to it, so that a
    library run on it writes down what it does. *)

From stdpp Require Import base list.
From S2P Require Import Prelude.

Section Runs.
Context {Cb Ans B : Type}.
Variable cb : B → Cb → B * Ans.

Inductive runs (b : B) : list (Cb * Ans) → B → Prop :=
| runs_nil : runs b [] b
| runs_snoc tr b1 c b2 a :
    runs b tr b1 → cb b1 c = (b2, a) → runs b (tr ++ [(c, a)]) b2.

Definition traced (b : B) : Type := {p : B * list (Cb * Ans) | runs b p.2 p.1}.

Definition traced_start (b : B) : traced b := exist _ (b, []) (runs_nil b).

Definition traced_step (b : B) (st : traced b) (c : Cb) : traced b * Ans :=
  (exist (λ p, runs b p.2 p.1)
     ((cb (`st).1 c).1, (`st).2 ++ [(c, (cb (`st).1 c).2)])
     (runs_snoc b _ _ c _ _ (proj2_sig st) (surjective_pairing _)),
   (cb (`st).1 c).2).

(** A property of the state and of what happened so far, kept by every callback. *)
Lemma runs_ind_inv (P : list (Cb * Ans) → B → Prop) b tr b' :
  P [] b →
  (∀ tr b1 c b2 a, P tr b1 → cb b1 c = (b2, a) → P (tr ++ [(c, a)]) b2) →
  runs b tr b' → P tr b'.
Proof. intros H0 Hs. induction 1; eauto. Qed.
End Runs.

(** * Programs that keep a log

    A program takes a state to a state and a [result].  [triple P m Q]: whatever [m] does to
    the log is to append to it, and if what the log then says of the library is as documented
    ([ok]), [P] before gives [Q] after. *)

Section LogTriples.
Context {St E Call : Type} (log : St → list Call) (ok : list Call → Prop).
Hypothesis ok_app : ∀ cs cs', ok (cs ++ cs') → ok cs.

Definition bind_log {A B} (m : St → St * result A E) (k : A → St → St * result B E)
  : St → St * result B E := λ st,
  match m st with
  | (st, Ok a) => k a st
  | (st, Err e) => (st, Err e)
  end.

Definition log_triple {A} (P : St → Prop) (m : St → St * result A E)
    (Q : result A E → St → Prop) : Prop :=
  ∀ st st' r, m st = (st', r) →
    (∃ more, log st' = log st ++ more) ∧ (ok (log st') → P st → Q r st').

(** A program that changes what is not logged. *)
Lemma log_triple_local {A} (P : St → Prop) (f : St → St) (g : St → result A E)
    (Q : result A E → St → Prop) :
  (∀ st, log (f st) = log st) → (∀ st, P st → Q (g st) (f st)) →
  log_triple P (λ st, (f st, g st)) Q.
Proof.
  intros Hf HQ st st' r [= <- <-]. rewrite Hf.
  split; [exists []; by rewrite app_nil_r|intros _; apply HQ].
Qed.

Lemma log_triple_bind {A B} (P : St → Prop) (m : St → St * result A E)
    (k : A → St → St * result B E) (R : result A E → St → Prop) (Q : result B E → St → Prop) :
  log_triple P m R → (∀ a, log_triple (R (Ok a)) (k a) Q) →
  (∀ e st, R (Err e) st → Q (Err e) st) → log_triple P (bind_log m k) Q.
Proof.
  intros Hm Hk He st st' r Hr. unfold bind_log in Hr.
  destruct (m st) as [st1 [a|e]] eqn:Hm1; destruct (Hm _ _ _ Hm1) as [[more1 Hl1] H1].
  - destruct (Hk _ _ _ _ Hr) as [[more2 Hl2] H2]. split.
    + exists (more1 ++ more2). by rewrite Hl2, Hl1, (assoc_L (++)).
    + intros Hok HP. apply H2; [done|]. apply H1; [|done]. rewrite Hl2 in Hok. eauto.
  - injection Hr as <- <-. split; [eauto|]. intros Hok HP. apply He. auto.
Qed.

Lemma log_triple_weaken {A} (P P' : St → Prop) (m : St → St * result A E)
    (Q Q' : result A E → St → Prop) :
  log_triple P m Q → (∀ st, P' st → P st) → (∀ r st, Q r st → Q' r st) → log_triple P' m Q'.
Proof. intros Hm HP HQ st st' r Hr. destruct (Hm _ _ _ Hr) as [Hl Hs]. split; [done|auto]. Qed.
End LogTriples.
