(* ===== verification/Varint.v ===== *)
(** * QUIC variable-length integers (crates/ngnet-qmux/src/io/framing.rs)

    The decoder [read_varint], the encoder [write_varint] and the size function
    [varint_len], with the round trip between them. *)

From Stdlib Require Import ZArith Lia Strings.Byte.
From stdpp Require Import base list numbers.
From S2P Require Import Prelude.

Definition MAX_VARINT : Z := 2 ^ 62 - 1.

(** [slice::get(..len)]. *)
Definition get_to (len : nat) (input : bytes) : option bytes :=
  if decide (len ≤ length input)%nat then Some (take len input) else None.

(** One step of the accumulation [value = (value << 8) | byte]. *)
Definition push_byte (value : Z) (b : byte) : Z := Z.lor (shl64 value 8) (bZ b).

Definition read_varint (input : bytes) : option (Z * nat) :=
  let! first := head input in
  let len := Z.to_nat (Z.shiftl 1 (Z.shiftr (bZ first) 6)) in
  let! bs := get_to len input in
  let value := foldl push_byte (Z.land (bZ first) 0x3f) (drop 1 bs) in
  Some (value, len).

(** [uN::to_be_bytes] of an integer of [n] bytes. *)
Fixpoint to_be_bytes (n : nat) (z : Z) : bytes :=
  match n with
  | O => []
  | S n' => Zb (Z.shiftr z (8 * Z.of_nat n')) :: to_be_bytes n' z
  end.

Definition write_varint (out : bytes) (value : Z) : bytes :=
  let value := Z.min value MAX_VARINT in
  if value <=? 0x3f then out ++ [Zb value]
  else if value <=? 0x3fff then out ++ to_be_bytes 2 (Z.lor (value mod 2 ^ 16) 0x4000)
  else if value <=? 0x3fff_ffff then
    out ++ to_be_bytes 4 (Z.lor (value mod 2 ^ 32) 0x8000_0000)
  else out ++ to_be_bytes 8 (Z.lor value 0xc000_0000_0000_0000).

Definition varint_len (value : Z) : nat :=
  if value <=? 0x3f then 1%nat
  else if value <=? 0x3fff then 2%nat
  else if value <=? 0x3fff_ffff then 4%nat
  else 8%nat.

(** ** Arithmetic of the encoding *)

Lemma lor_disjoint v c n :
  0 ≤ n → 0 ≤ v < 2 ^ n → Z.lor v (c * 2 ^ n) = v + c * 2 ^ n.
Proof.
  intros Hn Hv.
  assert (Z.land v (c * 2 ^ n) = 0) as E.
  { apply Z.bits_inj'. intros i Hi. rewrite Z.land_spec, Z.bits_0.
    destruct (decide (i < n)).
    - rewrite Z.mul_pow2_bits_low by lia. by rewrite andb_false_r.
    - rewrite <-(Z.mod_small v (2 ^ n)) by lia.
      by rewrite Z.mod_pow2_bits_high by lia. }
  rewrite <-Z.lxor_lor by done. by rewrite Z.add_nocarry_lxor.
Qed.

Lemma push_byte_arith v b :
  0 ≤ v < 2 ^ 54 → push_byte v b = v * 256 + bZ b.
Proof.
  intros Hv. pose proof (bZ_bound b).
  unfold push_byte, shl64. rewrite Z.shiftl_mul_pow2 by lia.
  rewrite Z.mod_small by (split; [lia|]; change (2 ^ 64) with (2 ^ 54 * 2 ^ 10); nia).
  rewrite Z.lor_comm.
  rewrite (lor_disjoint (bZ b) v 8) by lia. lia.
Qed.

(** The big-endian value of a byte string, on top of [v]. *)
Definition be_acc (v : Z) (bs : bytes) : Z := foldl (λ v b, v * 256 + bZ b) v bs.

Lemma be_acc_bound v bs :
  0 ≤ v → 0 ≤ be_acc v bs < (v + 1) * 256 ^ Z.of_nat (length bs).
Proof.
  revert v. induction bs as [|b bs IH]; intros v Hv; cbn [be_acc foldl length].
  - change (256 ^ Z.of_nat 0) with 1. lia.
  - pose proof (bZ_bound b). specialize (IH (v * 256 + bZ b) ltac:(lia)).
    unfold be_acc in IH. rewrite Nat2Z.inj_succ, Z.pow_succ_r by lia.
    pose proof (Z.pow_pos_nonneg 256 (Z.of_nat (length bs)) ltac:(lia) ltac:(lia)). nia.
Qed.

Lemma foldl_push_byte v bs k :
  0 ≤ v < 2 ^ k → 0 ≤ k → k + 8 * Z.of_nat (length bs) ≤ 62 →
  foldl push_byte v bs = be_acc v bs.
Proof.
  revert v k. induction bs as [|b bs IH]; intros v k Hv Hk Hl; [done|].
  cbn [foldl be_acc]. cbn [length] in Hl.
  assert (2 ^ k ≤ 2 ^ 54) by (apply Z.pow_le_mono_r; lia).
  rewrite push_byte_arith by lia.
  pose proof (bZ_bound b).
  apply (IH _ (k + 8)); [|lia|lia].
  rewrite Z.pow_add_r by lia. change (2 ^ 8) with 256. lia.
Qed.

Lemma be_acc_to_be_bytes n z v :
  0 ≤ z → be_acc v (to_be_bytes n z) = v * 256 ^ Z.of_nat n + z mod 256 ^ Z.of_nat n.
Proof.
  intros Hz. revert v. induction n as [|n IH]; intros v.
  - cbn. rewrite Z.mod_1_r. lia.
  - cbn [to_be_bytes be_acc foldl]. fold (be_acc (v * 256 + bZ (Zb (Z.shiftr z (8 * Z.of_nat n)))) (to_be_bytes n z)).
    rewrite IH, bZ_Zb, Z.shiftr_div_pow2 by lia.
    rewrite Z.pow_mul_r by lia. change (2 ^ 8) with 256.
    rewrite Nat2Z.inj_succ, Z.pow_succ_r by lia.
    pose proof (Z.pow_pos_nonneg 256 (Z.of_nat n) ltac:(lia) ltac:(lia)) as Hp.
    rewrite (Z.mul_comm 256 (256 ^ _)), Z.rem_mul_r by lia. nia.
Qed.

Lemma length_to_be_bytes n z : length (to_be_bytes n z) = n.
Proof. induction n; cbn; congruence. Qed.

(** ** The declared width *)

(** The width a first byte announces, one of 1, 2, 4 and 8. *)
Definition width_of (first : byte) : nat := Z.to_nat (Z.shiftl 1 (Z.shiftr (bZ first) 6)).

Lemma prefix_class first : Z.shiftr (bZ first) 6 = bZ first / 64 ∧ 0 ≤ bZ first / 64 < 4.
Proof.
  pose proof (bZ_bound first). rewrite Z.shiftr_div_pow2 by lia.
  split; [done|]. change (2 ^ 6) with 64.
  split; [apply Z.div_pos; lia | apply Z.div_lt_upper_bound; lia].
Qed.

Lemma width_of_cases first :
  (bZ first / 64 = 0 ∧ width_of first = 1%nat) ∨ (bZ first / 64 = 1 ∧ width_of first = 2%nat) ∨
  (bZ first / 64 = 2 ∧ width_of first = 4%nat) ∨ (bZ first / 64 = 3 ∧ width_of first = 8%nat).
Proof.
  destruct (prefix_class first) as [E Hb]. unfold width_of. rewrite E.
  assert (bZ first / 64 = 0 ∨ bZ first / 64 = 1 ∨ bZ first / 64 = 2 ∨ bZ first / 64 = 3)
    as [->|[->|[->| ->]]] by lia; auto 6.
Qed.

Lemma width_of_bound first : (1 ≤ width_of first ≤ 8)%nat.
Proof. destruct (width_of_cases first) as [[_ ->]|[[_ ->]|[[_ ->]|[_ ->]]]]; lia. Qed.

(** [read_varint] as arithmetic: the first byte's class fixes the width, and the value
    is the big-endian number without the class bits. *)
Lemma read_varint_unfold first rest :
  read_varint (first :: rest) =
    if decide (width_of first ≤ S (length rest))%nat
    then Some (be_acc (bZ first mod 64) (take (width_of first - 1) rest), width_of first)
    else None.
Proof.
  unfold read_varint, get_to. cbn [head length]. fold (width_of first).
  destruct (decide _) as [Hle|]; [|done].
  pose proof (width_of_bound first) as Hw.
  destruct (width_of first) as [|w] eqn:E; [lia|].
  cbn [take drop]. rewrite drop_0. replace (S w - 1)%nat with w by lia.
  change 0x3f with (Z.ones 6). rewrite Z.land_ones by lia. change (2 ^ 6) with 64.
  rewrite (foldl_push_byte _ _ 6); [done| |lia|].
  - apply Z.mod_pos_bound. lia.
  - rewrite length_take. lia.
Qed.

Lemma read_varint_nil : read_varint [] = None.
Proof. done. Qed.

(** The encoder's bytes, for each of the four classes. *)
Lemma read_varint_class k n z rest :
  (k = 0 ∧ n = 1%nat) ∨ (k = 1 ∧ n = 2%nat) ∨ (k = 2 ∧ n = 4%nat) ∨ (k = 3 ∧ n = 8%nat) →
  0 ≤ z < 64 * 256 ^ (Z.of_nat n - 1) →
  read_varint (to_be_bytes n (z + k * (64 * 256 ^ (Z.of_nat n - 1))) ++ rest) = Some (z, n).
Proof.
  intros Hk Hz. set (P := 256 ^ (Z.of_nat n - 1)) in *.
  assert (0 < P) as HP by (apply Z.pow_pos_nonneg; destruct Hk as [[_ ->]|[[_ ->]|[[_ ->]|[_ ->]]]]; lia).
  assert (0 ≤ k < 4) as Hk4 by lia.
  destruct n as [|m]; [lia|].
  assert (P = 256 ^ Z.of_nat m) as EP by (unfold P; f_equal; lia).
  cbn [to_be_bytes]. set (F := Zb _).
  assert (bZ F = z / P + k * 64) as EF.
  { unfold F. rewrite bZ_Zb, Z.shiftr_div_pow2, Z.pow_mul_r by lia.
    change (2 ^ 8) with 256. rewrite <-EP.
    rewrite Z.mul_assoc, Z.div_add by lia.
    apply Z.mod_small. split; [pose proof (Z.div_pos z P); lia|].
    assert (z / P < 64) by (apply Z.div_lt_upper_bound; lia). lia. }
  assert (0 ≤ z / P < 64) as Hq
    by (split; [apply Z.div_pos; lia | apply Z.div_lt_upper_bound; lia]).
  assert (bZ F / 64 = k ∧ bZ F mod 64 = z / P) as [Ec Em].
  { rewrite EF, Z.div_add, Z.mod_add by lia.
    rewrite Z.div_small, Z.mod_small by lia. lia. }
  assert (width_of F = S m) as Ew.
  { destruct (width_of_cases F) as [[? ->]|[[? ->]|[[? ->]|[? ->]]]]; lia. }
  rewrite <-app_comm_cons, read_varint_unfold, Ew, decide_True
    by (rewrite length_app, length_to_be_bytes; lia).
  rewrite take_app_exact by (rewrite length_to_be_bytes; lia).
  rewrite be_acc_to_be_bytes by nia. rewrite Em, <-EP.
  f_equal. f_equal. rewrite Z.mul_assoc, Z.mod_add by lia.
  pose proof (Z.div_mod z P). lia.
Qed.

(** ** Shape of the encoding *)

(** [write_varint] appends; what it appends depends on the value alone. *)
Definition varint_bytes (value : Z) : bytes := write_varint [] value.

Lemma write_varint_app out value : write_varint out value = out ++ varint_bytes value.
Proof. unfold varint_bytes, write_varint. repeat case_match; done. Qed.

Lemma varint_bytes_class value :
  0 ≤ value →
  ∃ k n, ((k = 0 ∧ n = 1%nat) ∨ (k = 1 ∧ n = 2%nat) ∨ (k = 2 ∧ n = 4%nat) ∨ (k = 3 ∧ n = 8%nat)) ∧
    0 ≤ Z.min value MAX_VARINT < 64 * 256 ^ (Z.of_nat n - 1) ∧
    varint_bytes value =
      to_be_bytes n (Z.min value MAX_VARINT + k * (64 * 256 ^ (Z.of_nat n - 1))) ∧
    n = varint_len value.
Proof.
  intros Hv. unfold varint_bytes, write_varint, varint_len.
  set (v := Z.min value MAX_VARINT).
  assert (0 ≤ v ≤ MAX_VARINT) as Hb by (unfold v, MAX_VARINT; lia).
  unfold MAX_VARINT in Hb.
  destruct (Z.leb_spec v 0x3f).
  { exists 0, 1%nat. rewrite (proj2 (Z.leb_le value _)) by (unfold v, MAX_VARINT in *; lia).
    split_and!; [tauto|lia|lia| |done].
    cbn [to_be_bytes app]. rewrite Z.shiftr_0_r. do 2 f_equal. lia. }
  rewrite (proj2 (Z.leb_gt value 0x3f)) by (unfold v, MAX_VARINT in *; lia).
  destruct (Z.leb_spec v 0x3fff).
  { exists 1, 2%nat. rewrite (proj2 (Z.leb_le value _)) by (unfold v, MAX_VARINT in *; lia).
    rewrite Z.mod_small by lia. change 0x4000 with (1 * 2 ^ 14).
    rewrite lor_disjoint by lia. split_and!; [tauto|lia|lia|done|done]. }
  rewrite (proj2 (Z.leb_gt value 0x3fff)) by (unfold v, MAX_VARINT in *; lia).
  destruct (Z.leb_spec v 0x3fff_ffff).
  { exists 2, 4%nat. rewrite (proj2 (Z.leb_le value _)) by (unfold v, MAX_VARINT in *; lia).
    rewrite Z.mod_small by lia. change 0x8000_0000 with (2 * 2 ^ 30).
    rewrite lor_disjoint by lia. split_and!; [tauto|lia|lia|done|done]. }
  rewrite (proj2 (Z.leb_gt value 0x3fff_ffff)) by (unfold v, MAX_VARINT in *; lia).
  exists 3, 8%nat. change 0xc000_0000_0000_0000 with (3 * 2 ^ 62).
  rewrite lor_disjoint by lia. split_and!; [tauto|lia|lia|done|done].
Qed.

Lemma read_varint_bytes value rest :
  0 ≤ value →
  read_varint (varint_bytes value ++ rest) = Some (Z.min value MAX_VARINT, varint_len value).
Proof.
  intros Hv. destruct (varint_bytes_class value Hv) as (k & n & Hk & Hb & -> & <-).
  by apply read_varint_class.
Qed.

Lemma length_varint_bytes value : 0 ≤ value → length (varint_bytes value) = varint_len value.
Proof.
  intros Hv. destruct (varint_bytes_class value Hv) as (k & n & _ & _ & -> & <-).
  apply length_to_be_bytes.
Qed.

Lemma varint_len_bound value : (1 ≤ varint_len value ≤ 8)%nat.
Proof. unfold varint_len. repeat case_match; lia. Qed.

(** What a successful read says about its input. *)
Lemma read_varint_Some input v n :
  read_varint input = Some (v, n) →
  (1 ≤ n ≤ 8)%nat ∧ (n ≤ length input)%nat ∧ 0 ≤ v ≤ MAX_VARINT ∧
  ∀ rest, read_varint (take n input ++ rest) = Some (v, n).
Proof.
  destruct input as [|first tl]; [done|]. rewrite read_varint_unfold.
  case_decide as Hd; [|done]. intros [= <- <-].
  pose proof (width_of_bound first) as Hw.
  set (w := width_of first) in *.
  split_and!; [lia|lia|cbn; lia| |..].
  - apply be_acc_bound. apply Z.mod_pos_bound. lia.
  - pose proof (Z.mod_pos_bound (bZ first) 64 ltac:(lia)) as Hm.
    pose proof (be_acc_bound (bZ first mod 64) (take (w - 1) tl) ltac:(lia)) as [_ Hb].
    rewrite length_take_le in Hb by lia.
    assert ((bZ first mod 64 + 1) * 256 ^ Z.of_nat (w - 1) ≤ 64 * 256 ^ 7); [|unfold MAX_VARINT; lia].
    apply Z.mul_le_mono_nonneg; [lia|lia|apply Z.pow_nonneg; lia|].
    apply Z.pow_le_mono_r; lia.
  - intros rest. destruct w as [|w'] eqn:E; [lia|]. cbn [take].
    rewrite <-app_comm_cons, read_varint_unfold. fold w. subst w. rewrite E.
    rewrite decide_True by (rewrite length_app, length_take; lia).
    replace (S w' - 1)%nat with w' by lia. rewrite take_app_exact; [done|].
    rewrite length_take. lia.
Qed.

Lemma read_varint_app input v n rest :
  read_varint input = Some (v, n) → read_varint (input ++ rest) = Some (v, n).
Proof.
  intros H. apply read_varint_Some in H as (? & ? & _ & Hr).
  by rewrite <-(take_drop n input), <-app_assoc.
Qed.

#[export] Hint Rewrite read_varint_bytes length_varint_bytes using lia : ngnet.

(** ** Properties *)

(** Every [u64] written by [write_varint] is read back by [read_varint], saturated at
    [2^62 - 1], whatever follows it in the buffer, and occupies exactly
    [varint_len] bytes. *)
Theorem write_read_varint out value rest :
  is_u64 value →
  write_varint out value = out ++ varint_bytes value ∧
  length (varint_bytes value) = varint_len value ∧
  read_varint (varint_bytes value ++ rest) = Some (Z.min value MAX_VARINT, varint_len value).
Proof.
  intros [Hv _]. split_and!;
    [apply write_varint_app | by apply length_varint_bytes | by apply read_varint_bytes].
Qed.

Lemma write_read_varint_witness :
  is_u64 15293 ∧ read_varint (varint_bytes 15293 ++ [Byte.xff]) = Some (15293, 2%nat).
Proof.
  split; [vm_compute; split; discriminate|].
  exact (proj2 (proj2 (write_read_varint [] 15293 [Byte.xff] ltac:(vm_compute; split; discriminate)))).
Defined.
