(* ===== verification/CloseCodec.v ===== *)
(** * Connection-close records (crates/ngnet-qmux/src/ccerr.rs, io/close.rs)

    Why a connection is closing ([CloseReason], with the conversion from the C
    library's [dwnx_ccerr]), the encoder of a CONNECTION_CLOSE record and the decoder
    that scans one record's payload for a close frame. *)

From Stdlib Require Import ZArith Lia Strings.Byte.
From stdpp Require Import base list strings numbers.
From S2P Require Import Prelude Varint.

Inductive CloseKind := Transport | Application | IdleClose | Unknown.

#[global] Instance CloseKind_eq_dec : EqDecision CloseKind.
Proof. solve_decision. Defined.

Record CloseReason := mkCloseReason {
  kind : CloseKind;
  error_code : Z;
  frame_type : Z;
  reason : bytes
}.

#[global] Instance CloseReason_eq_dec : EqDecision CloseReason.
Proof. solve_decision. Defined.

Definition from_parts (k : CloseKind) (code ft : Z) (r : bytes) : CloseReason :=
  mkCloseReason k code ft r.

(** ** The native close structure

    [dwnx_ccerr] belongs to the C library; its setters and its type constants are
    parameters.  [cc_reason = None] is the null pointer. *)
Module Native.

Record dwnx_ccerr := mkCcerr {
  cc_type : Z;
  cc_error_code : Z;
  cc_frame_type : Z;
  cc_reason : option bytes
}.

Section FromNative.
Context (DWNX_CCERR_TYPE_TRANSPORT DWNX_CCERR_TYPE_APPLICATION
         DWNX_CCERR_TYPE_IDLE_CLOSE : Z).
Context (dwnx_ccerr_default : dwnx_ccerr).
Context (dwnx_ccerr_set_transport_error dwnx_ccerr_set_application_error
         dwnx_ccerr_set_liberr : Z → bytes → dwnx_ccerr).

Definition from_native (ccerr : dwnx_ccerr) : CloseReason :=
  let r := match cc_reason ccerr with
           | None => []
           | Some bs => if decide (length bs = 0%nat) then [] else bs
           end in
  mkCloseReason
    (if decide (cc_type ccerr = DWNX_CCERR_TYPE_TRANSPORT) then Transport
     else if decide (cc_type ccerr = DWNX_CCERR_TYPE_APPLICATION) then Application
     else if decide (cc_type ccerr = DWNX_CCERR_TYPE_IDLE_CLOSE) then IdleClose
     else Unknown)
    (cc_error_code ccerr) (cc_frame_type ccerr) r.

Definition build (r : bytes) (set : bytes → dwnx_ccerr) : CloseReason :=
  from_native (set r).

Definition no_error : CloseReason := from_native dwnx_ccerr_default.

Definition transport (code : Z) (r : bytes) : CloseReason :=
  build r (λ r, dwnx_ccerr_set_transport_error code r).

Definition application (code : Z) (r : bytes) : CloseReason :=
  build r (λ r, dwnx_ccerr_set_application_error code r).

Definition from_native_error (code : Z) (r : bytes) : CloseReason :=
  build r (λ r, dwnx_ccerr_set_liberr code r).
End FromNative.

End Native.

(** ** Frame types *)

Definition FRAME_CONNECTION_CLOSE : Z := 0x1c.
Definition FRAME_CONNECTION_CLOSE_APP : Z := 0x1d.
Definition FRAME_PADDING : Z := 0x00.
Definition FRAME_RESET_STREAM : Z := 0x04.
Definition FRAME_STOP_SENDING : Z := 0x05.
Definition FRAME_STREAM : Z := 0x08.
Definition FRAME_MAX_DATA : Z := 0x10.
Definition FRAME_MAX_STREAM_DATA : Z := 0x11.
Definition FRAME_MAX_STREAMS_BIDI : Z := 0x12.
Definition FRAME_MAX_STREAMS_UNI : Z := 0x13.
Definition FRAME_DATA_BLOCKED : Z := 0x14.
Definition FRAME_STREAM_DATA_BLOCKED : Z := 0x15.
Definition FRAME_STREAMS_BLOCKED_BIDI : Z := 0x16.
Definition FRAME_STREAMS_BLOCKED_UNI : Z := 0x17.
Definition FRAME_QX_TRANSPORT_PARAMETERS : Z := 0x3F5153300D0A0D0A.
Definition FRAME_QX_PING_REQUEST : Z := 0x348C67529EF8C7BD.
Definition FRAME_QX_PING_RESPONSE : Z := 0x348C67529EF8C7BE.
Definition STREAM_LEN_BIT : Z := 0x02.
Definition STREAM_OFF_BIT : Z := 0x04.

(** [crate::DEFAULT_MAX_RECORD_SIZE], 16382 as the framing module records it. *)
Definition MAX_RECORD_SIZE : Z := 16382.

(** ** Encoding *)

Definition is_application (r : CloseReason) : bool :=
  match kind r with Application => true | _ => false end.

(** The length of every field of the close frame but the reason phrase and its length. *)
Definition close_fixed_len (r : CloseReason) : nat :=
  let application := is_application r in
  let ft := if application then FRAME_CONNECTION_CLOSE_APP else FRAME_CONNECTION_CLOSE in
  (varint_len ft + varint_len (error_code r) +
   (if application then 0 else varint_len (frame_type r)))%nat.

Definition reason_budget (r : CloseReason) : nat :=
  Z.to_nat (saturating_sub MAX_RECORD_SIZE (Z.of_nat (close_fixed_len r + 2))).

Definition encode_close_frame (r : CloseReason) : bytes :=
  let application := is_application r in
  let ft := if application then FRAME_CONNECTION_CLOSE_APP else FRAME_CONNECTION_CLOSE in
  let reason_bytes := take (Nat.min (length (reason r)) (reason_budget r)) (reason r) in
  let frame := write_varint [] ft in
  let frame := write_varint frame (error_code r) in
  let frame := if application then frame else write_varint frame (frame_type r) in
  let frame := write_varint frame (Z.of_nat (length reason_bytes)) in
  frame ++ reason_bytes.

Definition encode_close_record (r : CloseReason) : bytes :=
  let frame := encode_close_frame r in
  write_varint [] (Z.of_nat (length frame)) ++ frame.

(** ** Decoding *)

(** [usize::try_from(u64).ok()] on a 64-bit target. *)
Definition usize_try_from (z : Z) : option Z := if z <=? U64_MAX then Some z else None.

(** [read.checked_add(len)], kept when the end lies inside [fields]. *)
Definition field_end (at_ : nat) (len : Z) (fields : bytes) : option nat :=
  let! end_ := checked_add (Z.of_nat at_) len in
  if end_ <=? Z.of_nat (length fields) then Some (Z.to_nat end_) else None.

Definition decode_fields (ft : Z) (fields : bytes) : option CloseReason :=
  let at_ := 0%nat in
  let! (code, read) := read_varint (drop at_ fields) in
  let at_ := (at_ + read)%nat in
  let! (triggering_frame, at_) :=
    (if decide (ft = FRAME_CONNECTION_CLOSE) then
       let! (value, read) := read_varint (drop at_ fields) in
       Some (value, (at_ + read)%nat)
     else Some (0, at_)) in
  let! (reason_len, read) := read_varint (drop at_ fields) in
  let at_ := (at_ + read)%nat in
  let! reason_len := usize_try_from reason_len in
  let! end_ := field_end at_ reason_len fields in
  let r := take (end_ - at_) (drop at_ fields) in
  let k := if decide (ft = FRAME_CONNECTION_CLOSE) then Transport else Application in
  Some (from_parts k code triggering_frame r).

(** The closure [varints(count)] of [skip_frame], from position [at_]. *)
Fixpoint varints (fields : bytes) (at_ count : nat) : option nat :=
  match count with
  | O => Some at_
  | S count' =>
      let! (_, read) := read_varint (drop at_ fields) in
      varints fields (at_ + read)%nat count'
  end.

Definition skip_stream (ft : Z) (fields : bytes) : option nat :=
  let! (_, read) := read_varint fields in
  let at_ := read in
  let! at_ :=
    (if decide (Z.land ft STREAM_OFF_BIT ≠ 0) then
       let! (_, read) := read_varint (drop at_ fields) in Some (at_ + read)%nat
     else Some at_) in
  if decide (Z.land ft STREAM_LEN_BIT = 0) then Some (length fields)
  else
    let! (len, read) := read_varint (drop at_ fields) in
    let at_ := (at_ + read)%nat in
    let! len := usize_try_from len in
    field_end at_ len fields.

Definition skip_frame (ft : Z) (fields : bytes) : option nat :=
  if decide (ft = FRAME_PADDING) then Some 0%nat
  else if decide (ft ∈ [FRAME_MAX_DATA; FRAME_MAX_STREAMS_BIDI; FRAME_MAX_STREAMS_UNI;
                        FRAME_DATA_BLOCKED; FRAME_STREAMS_BLOCKED_BIDI;
                        FRAME_STREAMS_BLOCKED_UNI; FRAME_QX_PING_REQUEST;
                        FRAME_QX_PING_RESPONSE]) then varints fields 0 1
  else if decide (ft ∈ [FRAME_STOP_SENDING; FRAME_MAX_STREAM_DATA;
                        FRAME_STREAM_DATA_BLOCKED]) then varints fields 0 2
  else if decide (ft = FRAME_RESET_STREAM) then varints fields 0 3
  else if decide (ft = FRAME_QX_TRANSPORT_PARAMETERS) then
    let! (len, read) := read_varint fields in
    let! len := usize_try_from len in
    field_end read len fields
  else if decide (Z.land ft (Z.lnot 0x07) = FRAME_STREAM) then skip_stream ft fields
  else None.

Definition is_close_frame (ft : Z) : bool :=
  bool_decide (ft = FRAME_CONNECTION_CLOSE ∨ ft = FRAME_CONNECTION_CLOSE_APP).

(** The scan loop.  [fuel] bounds the number of frames; every iteration consumes at
    least the frame's type byte, so the payload's length is enough ([scan_fuel]). *)
Fixpoint scan (fuel : nat) (payload : bytes) (at_ : nat) : option CloseReason :=
  match fuel with
  | O => None
  | S fuel' =>
      if decide (at_ < length payload)%nat then
        let! (ft, read) := read_varint (drop at_ payload) in
        let at_ := (at_ + read)%nat in
        if is_close_frame ft then decode_fields ft (drop at_ payload)
        else
          let! n := skip_frame ft (drop at_ payload) in
          scan fuel' payload (at_ + n)%nat
      else None
  end.

Definition decode_close_frame (payload : bytes) : option CloseReason :=
  scan (S (length payload)) payload 0.

(** ** Positions and fuel *)

(** A slice's length is a [usize]. *)
Definition is_slice (bs : bytes) : Prop := Z.of_nat (length bs) ≤ U64_MAX.

Lemma is_slice_drop n bs : is_slice bs → is_slice (drop n bs).
Proof. unfold is_slice. rewrite length_drop. lia. Qed.

Lemma field_end_suffix at_ len fields :
  0 ≤ len → is_slice fields →
  field_end at_ len fields =
    if decide (Z.of_nat at_ + len ≤ Z.of_nat (length fields))
    then Some (at_ + Z.to_nat len)%nat else None.
Proof.
  intros Hl Hs. unfold field_end, checked_add, is_slice in *.
  destruct (Z.leb_spec (Z.of_nat at_ + len) U64_MAX);
    [|by rewrite decide_False by lia].
  destruct (Z.leb_spec (Z.of_nat at_ + len) (Z.of_nat (length fields))).
  - rewrite decide_True by lia. f_equal. lia.
  - by rewrite decide_False by lia.
Qed.

Lemma field_end_bound at_ len fields n :
  field_end at_ len fields = Some n → (n ≤ length fields)%nat.
Proof.
  unfold field_end. destruct (checked_add _ _) as [e|] eqn:E; [|done].
  destruct (Z.leb_spec e (Z.of_nat (length fields))); [|done].
  intros [= <-]. lia.
Qed.

Lemma varints_bound fields at_ count n :
  (at_ ≤ length fields)%nat → varints fields at_ count = Some n → (n ≤ length fields)%nat.
Proof.
  revert at_. induction count as [|c IH]; intros at_ Hat; cbn; [by intros [= <-]|].
  destruct (read_varint _) as [[v read]|] eqn:E; [|done].
  apply read_varint_Some in E as (_ & Hr & _). rewrite length_drop in Hr.
  apply IH. lia.
Qed.

Lemma skip_stream_bound ft fields n : skip_stream ft fields = Some n → (n ≤ length fields)%nat.
Proof.
  unfold skip_stream. intros H.
  repeat case_match; simplify_eq; eauto using field_end_bound.
Qed.

Lemma skip_frame_bound ft fields n : skip_frame ft fields = Some n → (n ≤ length fields)%nat.
Proof.
  unfold skip_frame. intros H.
  case_decide; [by simplify_eq; lia|].
  do 3 (case_decide; [by eapply varints_bound, H; lia|]).
  case_decide; [|case_decide; [by eapply skip_stream_bound|done]].
  destruct (read_varint fields) as [[len read]|]; [|done].
  destruct (usize_try_from len); [|done]. by eapply field_end_bound.
Qed.

Lemma scan_drop fuel payload at_ : scan fuel payload at_ = scan fuel (drop at_ payload) 0.
Proof.
  revert payload at_. induction fuel as [|fuel IH]; intros payload at_; cbn [scan]; [done|].
  rewrite length_drop, drop_0.
  destruct (decide (at_ < length payload)%nat);
    [rewrite decide_True by lia | rewrite decide_False by lia; done].
  destruct (read_varint (drop at_ payload)) as [[ft read]|]; [|done].
  rewrite !drop_drop. cbn [Nat.add].
  destruct (is_close_frame ft); [done|].
  destruct (skip_frame ft _) as [n|]; [|done].
  rewrite (IH payload), (IH (drop at_ payload)), drop_drop. do 2 f_equal. lia.
Qed.

Lemma scan_fuel fuel fuel' payload :
  (length payload < fuel)%nat → (length payload < fuel')%nat →
  scan fuel payload 0 = scan fuel' payload 0.
Proof.
  revert fuel' payload. induction fuel as [|fuel IH]; intros fuel' payload Hf Hf'; [lia|].
  destruct fuel' as [|fuel']; [lia|]. cbn [scan].
  case_decide as Hlen; [|done]. rewrite drop_0.
  destruct (read_varint payload) as [[ft read]|] eqn:E; [|done].
  apply read_varint_Some in E as (Hr & Hr' & _). cbn [Nat.add].
  destruct (is_close_frame ft); [done|].
  destruct (skip_frame ft _) as [n|]; [|done].
  rewrite (scan_drop fuel), (scan_drop fuel'). apply IH; rewrite length_drop; lia.
Qed.

(** The scan satisfies the recursion equation of the loop: its fuel never runs out. *)
Lemma decode_unfold payload :
  decode_close_frame payload =
    if decide (payload = []) then None
    else
      let! (ft, read) := read_varint payload in
      if is_close_frame ft then decode_fields ft (drop read payload)
      else
        let! n := skip_frame ft (drop read payload) in
        decode_close_frame (drop (read + n) payload).
Proof.
  unfold decode_close_frame at 1. cbn [scan].
  destruct (decide (payload = [])) as [->|Hne]; [done|].
  rewrite decide_True by (destruct payload; cbn; [done|lia]). rewrite drop_0.
  destruct (read_varint payload) as [[ft read]|] eqn:E; [|done].
  apply read_varint_Some in E as (Hr & Hr' & _). cbn [Nat.add].
  destruct (is_close_frame ft); [done|].
  destruct (skip_frame ft _) as [n|]; [|done].
  rewrite scan_drop. apply scan_fuel; rewrite length_drop; lia.
Qed.

(** ** Reading back what was written *)

Lemma drop_varint_bytes v rest :
  0 ≤ v → drop (varint_len v) (varint_bytes v ++ rest) = rest.
Proof. intros. apply drop_app_exact. by rewrite length_varint_bytes. Qed.

Lemma is_close_frame_types b :
  is_close_frame (if b : bool then FRAME_CONNECTION_CLOSE_APP else FRAME_CONNECTION_CLOSE) = true.
Proof. by destruct b. Qed.

(** What a close frame says once encoded: the codes saturate at the varint bound, kinds
    other than [Application] become transport closes, an application close has no
    frame type and the reason is cut to its budget. *)
Definition normalise (r : CloseReason) : CloseReason :=
  from_parts (if is_application r then Application else Transport)
    (Z.min (error_code r) MAX_VARINT)
    (if is_application r then 0 else Z.min (frame_type r) MAX_VARINT)
    (take (reason_budget r) (reason r)).

Definition close_ok (r : CloseReason) : Prop := is_u64 (error_code r) ∧ is_u64 (frame_type r).

Lemma close_fixed_len_bound r : (close_fixed_len r ≤ 17)%nat.
Proof.
  unfold close_fixed_len.
  pose proof (varint_len_bound (error_code r)). pose proof (varint_len_bound (frame_type r)).
  destruct (is_application r); [change (varint_len FRAME_CONNECTION_CLOSE_APP) with 1%nat|
    change (varint_len FRAME_CONNECTION_CLOSE) with 1%nat]; lia.
Qed.

Lemma reason_budget_bound r :
  Z.of_nat (reason_budget r) = MAX_RECORD_SIZE - Z.of_nat (close_fixed_len r + 2).
Proof.
  pose proof (close_fixed_len_bound r).
  unfold reason_budget, saturating_sub, MAX_RECORD_SIZE. lia.
Qed.

Lemma encoded_reason r :
  take (Nat.min (length (reason r)) (reason_budget r)) (reason r) = take (reason_budget r) (reason r).
Proof.
  destruct (decide (reason_budget r ≤ length (reason r))%nat).
  - by rewrite Nat.min_r.
  - rewrite Nat.min_l by lia. by rewrite !take_ge by lia.
Qed.

(** The encoded frame, flattened. *)
Lemma encode_close_frame_eq r :
  encode_close_frame r =
    varint_bytes (if is_application r then FRAME_CONNECTION_CLOSE_APP else FRAME_CONNECTION_CLOSE)
    ++ varint_bytes (error_code r)
    ++ (if is_application r then [] else varint_bytes (frame_type r))
    ++ varint_bytes (Z.of_nat (length (take (reason_budget r) (reason r))))
    ++ take (reason_budget r) (reason r).
Proof.
  unfold encode_close_frame. rewrite encoded_reason.
  destruct (is_application r); rewrite !write_varint_app; by rewrite <-!app_assoc.
Qed.

Lemma encoded_len_small r :
  0 ≤ Z.of_nat (length (take (reason_budget r) (reason r))) ≤ MAX_RECORD_SIZE.
Proof. rewrite length_take. pose proof (reason_budget_bound r). lia. Qed.

(** [len] bytes of [bs], if there are that many. *)
Definition take_exactly (len : Z) (bs : bytes) : option bytes :=
  if decide (len ≤ Z.of_nat (length bs)) then Some (take (Z.to_nat len) bs) else None.

(** [decode_fields] as a reader of successive suffixes. *)
Lemma decode_fields_suffix ft fields :
  is_slice fields →
  decode_fields ft fields =
    let! (code, n1) := read_varint fields in
    let! (trig, tl) :=
      (if decide (ft = FRAME_CONNECTION_CLOSE) then
         let! (v, n2) := read_varint (drop n1 fields) in
         Some (v, drop n2 (drop n1 fields))
       else Some (0, drop n1 fields)) in
    let! (len, n3) := read_varint tl in
    let! r := take_exactly len (drop n3 tl) in
    Some (from_parts (if decide (ft = FRAME_CONNECTION_CLOSE) then Transport else Application)
            code trig r).
Proof.
  intros Hs. unfold decode_fields. rewrite drop_0.
  destruct (read_varint fields) as [[code n1]|] eqn:E1; [|done]. cbn [Nat.add].
  apply read_varint_Some in E1 as (_ & Hn1 & _).
  assert (∀ trig at_ k, (at_ ≤ length fields)%nat →
    (let! (reason_len, read) := read_varint (drop at_ fields) in
     let! reason_len := usize_try_from reason_len in
     let! end_ := field_end (at_ + read) reason_len fields in
     Some (from_parts k code trig (take (end_ - (at_ + read)) (drop (at_ + read) fields)))) =
    (let! (len, n3) := read_varint (drop at_ fields) in
     let! r := take_exactly len (drop n3 (drop at_ fields)) in
     Some (from_parts k code trig r))) as Htail.
  { intros trig at_ k Hat. destruct (read_varint _) as [[len n3]|] eqn:E3; [|done].
    apply read_varint_Some in E3 as (_ & Hn3 & Hlen & _). rewrite length_drop in Hn3.
    unfold usize_try_from.
    rewrite (proj2 (Z.leb_le _ _)) by (unfold MAX_VARINT, U64_MAX in *; lia).
    rewrite field_end_suffix by (lia || done).
    unfold take_exactly. rewrite drop_drop, length_drop.
    case_decide; [rewrite decide_True by lia | by rewrite decide_False by lia].
    do 3 f_equal. lia. }
  destruct (decide (ft = FRAME_CONNECTION_CLOSE)); [|by apply Htail].
  destruct (read_varint (drop n1 fields)) as [[v n2]|] eqn:E2; [|done].
  apply read_varint_Some in E2 as (_ & Hn2 & _). rewrite length_drop in Hn2.
  rewrite Htail by lia. by rewrite drop_drop.
Qed.

Lemma take_exactly_app bs rest : take_exactly (Z.of_nat (length bs)) (bs ++ rest) = Some bs.
Proof.
  unfold take_exactly. rewrite decide_True by (rewrite length_app; lia).
  rewrite Nat2Z.id. f_equal. apply take_app_length.
Qed.

Lemma decode_fields_encoded r rest :
  close_ok r →
  let fields := varint_bytes (error_code r)
     ++ (if is_application r then [] else varint_bytes (frame_type r))
     ++ varint_bytes (Z.of_nat (length (take (reason_budget r) (reason r))))
     ++ take (reason_budget r) (reason r) ++ rest in
  is_slice fields →
  decode_fields (if is_application r then FRAME_CONNECTION_CLOSE_APP else FRAME_CONNECTION_CLOSE)
    fields = Some (normalise r).
Proof.
  intros [[Hc _] [Hf _]] fields Hs. pose proof (encoded_len_small r) as Hlen.
  rewrite decode_fields_suffix by done. unfold fields. clear fields Hs.
  set (R := take (reason_budget r) (reason r)) in *.
  assert (Z.min (Z.of_nat (length R)) MAX_VARINT = Z.of_nat (length R)) as Emin
    by (unfold MAX_RECORD_SIZE, MAX_VARINT in *; lia).
  rewrite read_varint_bytes, drop_varint_bytes by done. unfold normalise. fold R.
  destruct (is_application r) eqn:Ea.
  - rewrite decide_False by done. rewrite app_nil_l.
    by rewrite read_varint_bytes, drop_varint_bytes, Emin, take_exactly_app by lia.
  - rewrite decide_True by done.
    rewrite read_varint_bytes, drop_varint_bytes by done.
    by rewrite read_varint_bytes, drop_varint_bytes, Emin, take_exactly_app by lia.
Qed.

(** A close frame at the front of a payload is the one reported. *)
Lemma decode_close_front r rest :
  close_ok r → is_slice (encode_close_frame r ++ rest) →
  decode_close_frame (encode_close_frame r ++ rest) = Some (normalise r).
Proof.
  intros Hok Hs. rewrite decode_unfold.
  set (ft := if is_application r then FRAME_CONNECTION_CLOSE_APP else FRAME_CONNECTION_CLOSE).
  assert (0 ≤ ft ∧ Z.min ft MAX_VARINT = ft) as [Hft Emin]
    by (unfold ft; destruct (is_application r); split; [vm_compute; discriminate|done|vm_compute; discriminate|done]).
  rewrite encode_close_frame_eq in *. fold ft in Hs |- *. rewrite <-!app_assoc in *.
  destruct (decide _) as [E|_].
  { apply (f_equal length) in E. rewrite length_app, length_varint_bytes in E by done.
    pose proof (varint_len_bound ft). cbn in E. lia. }
  rewrite read_varint_bytes, drop_varint_bytes, Emin by done.
  unfold ft at 1. rewrite is_close_frame_types.
  apply decode_fields_encoded; [done|].
  apply (is_slice_drop (varint_len ft)) in Hs. by rewrite drop_varint_bytes in Hs.
Qed.

(** ** The other frames of a record *)

(** The frames the QMux draft defines besides the two closes, as the layouts [skip_frame]
    carries: one, two or three varints, a length-prefixed block, or a STREAM frame with
    an explicit length. *)
Inductive frame :=
| FPadding
| FOne (ft v : Z)
| FTwo (ft a b : Z)
| FResetStream (a b c : Z)
| FParams (body : bytes)
| FStream (fin : bool) (id : Z) (off : option Z) (data : bytes).

Definition stream_type (fin : bool) (off : option Z) : Z :=
  FRAME_STREAM + (if fin then 1 else 0) + STREAM_LEN_BIT +
  (match off with Some _ => STREAM_OFF_BIT | None => 0 end).

Definition frame_bytes (f : frame) : bytes :=
  match f with
  | FPadding => varint_bytes FRAME_PADDING
  | FOne ft v => varint_bytes ft ++ varint_bytes v
  | FTwo ft a b => varint_bytes ft ++ varint_bytes a ++ varint_bytes b
  | FResetStream a b c =>
      varint_bytes FRAME_RESET_STREAM ++ varint_bytes a ++ varint_bytes b ++ varint_bytes c
  | FParams body =>
      varint_bytes FRAME_QX_TRANSPORT_PARAMETERS ++
      varint_bytes (Z.of_nat (length body)) ++ body
  | FStream fin id off data =>
      varint_bytes (stream_type fin off) ++ varint_bytes id ++
      (match off with Some o => varint_bytes o | None => [] end) ++
      varint_bytes (Z.of_nat (length data)) ++ data
  end.

Definition one_varint_types : list Z :=
  [FRAME_MAX_DATA; FRAME_MAX_STREAMS_BIDI; FRAME_MAX_STREAMS_UNI; FRAME_DATA_BLOCKED;
   FRAME_STREAMS_BLOCKED_BIDI; FRAME_STREAMS_BLOCKED_UNI; FRAME_QX_PING_REQUEST;
   FRAME_QX_PING_RESPONSE].

Definition two_varint_types : list Z :=
  [FRAME_STOP_SENDING; FRAME_MAX_STREAM_DATA; FRAME_STREAM_DATA_BLOCKED].

Definition small (bs : bytes) : Prop := Z.of_nat (length bs) ≤ MAX_VARINT.

Definition frame_ok (f : frame) : Prop :=
  match f with
  | FPadding => True
  | FOne ft v => ft ∈ one_varint_types ∧ 0 ≤ v
  | FTwo ft a b => ft ∈ two_varint_types ∧ 0 ≤ a ∧ 0 ≤ b
  | FResetStream a b c => 0 ≤ a ∧ 0 ≤ b ∧ 0 ≤ c
  | FParams body => small body
  | FStream _ id off data => 0 ≤ id ∧ (∀ o, off = Some o → 0 ≤ o) ∧ small data
  end.

Definition frame_type_of (f : frame) : Z :=
  match f with
  | FPadding => FRAME_PADDING
  | FOne ft _ => ft
  | FTwo ft _ _ => ft
  | FResetStream _ _ _ => FRAME_RESET_STREAM
  | FParams _ => FRAME_QX_TRANSPORT_PARAMETERS
  | FStream fin _ off _ => stream_type fin off
  end.

(** The bytes of a frame after its type. *)
Definition frame_body (f : frame) : bytes := drop (varint_len (frame_type_of f)) (frame_bytes f).

Lemma frame_type_range f :
  frame_ok f → 0 ≤ frame_type_of f ∧ Z.min (frame_type_of f) MAX_VARINT = frame_type_of f ∧
  is_close_frame (frame_type_of f) = false.
Proof.
  destruct f as [|ft v|ft a b| | |fin id off data]; cbn; intros H.
  1,4,5: vm_compute; intuition discriminate.
  1,2: destruct H as [H _]; unfold one_varint_types, two_varint_types in H;
    repeat (apply elem_of_cons in H as [->|H]; [vm_compute; intuition discriminate|]);
    by apply elem_of_nil in H.
  destruct fin, off; vm_compute; intuition discriminate.
Qed.

Lemma frame_bytes_split f :
  frame_ok f → frame_bytes f = varint_bytes (frame_type_of f) ++ frame_body f.
Proof.
  intros H. destruct (frame_type_range f H) as (H0 & _).
  unfold frame_body. destruct f; cbn in *; rewrite ?drop_varint_bytes by done; try done.
Qed.

Lemma varints_read fields at_ v rest c :
  0 ≤ v → drop at_ fields = varint_bytes v ++ rest →
  varints fields at_ (S c) = varints fields (at_ + varint_len v) c ∧
  drop (at_ + varint_len v) fields = rest.
Proof.
  intros Hv E. cbn [varints]. rewrite E, read_varint_bytes by done. split; [done|].
  rewrite <-drop_drop, E. by apply drop_varint_bytes.
Qed.

Lemma field_end_block fields at_ data rest :
  is_slice fields → small data →
  drop at_ fields = varint_bytes (Z.of_nat (length data)) ++ data ++ rest →
  (let! (len, read) := read_varint (drop at_ fields) in
   let at_ := (at_ + read)%nat in
   let! len := usize_try_from len in
   field_end at_ len fields) =
  Some (at_ + varint_len (Z.of_nat (length data)) + length data)%nat.
Proof.
  intros Hs Hsm E. unfold small, MAX_VARINT in Hsm.
  rewrite E, read_varint_bytes by lia.
  rewrite Z.min_l by (unfold MAX_VARINT; lia). unfold usize_try_from.
  rewrite (proj2 (Z.leb_le _ _)) by (unfold U64_MAX; lia).
  rewrite field_end_suffix, Nat2Z.id by (done || lia). apply (f_equal length) in E.
  rewrite length_drop, !length_app, length_varint_bytes in E by lia.
  by rewrite decide_True by (pose proof (varint_len_bound (Z.of_nat (length data))); lia).
Qed.

(** Membership in a literal list of frame types, case by case. *)
Ltac by_frame_type H :=
  repeat (apply elem_of_cons in H as [->|H]; [unfold skip_frame; by decide_const|]);
  by apply elem_of_nil in H.

Lemma skip_one ft : ft ∈ one_varint_types → ∀ fields, skip_frame ft fields = varints fields 0 1.
Proof. unfold one_varint_types. intros H fields. by_frame_type H. Qed.

Lemma skip_two ft : ft ∈ two_varint_types → ∀ fields, skip_frame ft fields = varints fields 0 2.
Proof. unfold two_varint_types. intros H fields. by_frame_type H. Qed.

Lemma skip_reset fields : skip_frame FRAME_RESET_STREAM fields = varints fields 0 3.
Proof. unfold skip_frame. by decide_const. Qed.

Lemma skip_params fields :
  skip_frame FRAME_QX_TRANSPORT_PARAMETERS fields =
    let! (len, read) := read_varint fields in
    let! len := usize_try_from len in field_end read len fields.
Proof. unfold skip_frame. by decide_const. Qed.

Lemma skip_stream_type fin off fields :
  skip_frame (stream_type fin off) fields = skip_stream (stream_type fin off) fields.
Proof. unfold skip_frame. destruct fin, off; unfold stream_type; by decide_const. Qed.

Lemma frame_body_eq f :
  frame_ok f →
  frame_body f = match f with
  | FPadding => []
  | FOne _ v => varint_bytes v
  | FTwo _ a b => varint_bytes a ++ varint_bytes b
  | FResetStream a b c => varint_bytes a ++ varint_bytes b ++ varint_bytes c
  | FParams body => varint_bytes (Z.of_nat (length body)) ++ body
  | FStream _ id off data =>
      varint_bytes id ++ (match off with Some o => varint_bytes o | None => [] end) ++
      varint_bytes (Z.of_nat (length data)) ++ data
  end.
Proof.
  intros H. destruct (frame_type_range f H) as (H0 & _).
  unfold frame_body. destruct f; cbn in *; rewrite ?drop_varint_bytes by done; done.
Qed.

Lemma skip_frame_body f rest :
  frame_ok f → is_slice (frame_body f ++ rest) →
  skip_frame (frame_type_of f) (frame_body f ++ rest) = Some (length (frame_body f)).
Proof.
  intros Hok. rewrite (frame_body_eq f Hok).
  destruct f as [|ft v|ft a b|a b c|body|fin id off data]; cbn [frame_type_of]; intros Hs.
  - done.
  - destruct Hok as [Hft Hv]. rewrite (skip_one _ Hft).
    destruct (varints_read (varint_bytes v ++ rest) 0 v rest 0) as [-> _]; [done..|].
    cbn. by rewrite length_varint_bytes.
  - destruct Hok as (Hft & Ha & Hb). rewrite (skip_two _ Hft), <-app_assoc.
    destruct (varints_read (varint_bytes a ++ varint_bytes b ++ rest) 0 a
                (varint_bytes b ++ rest) 1) as [-> E]; [done..|].
    destruct (varints_read _ _ b rest 0 Hb E) as [-> _].
    cbn. by rewrite length_app, !length_varint_bytes.
  - destruct Hok as (Ha & Hb & Hc).
    rewrite skip_reset, <-!app_assoc.
    destruct (varints_read (varint_bytes a ++ varint_bytes b ++ varint_bytes c ++ rest) 0 a
                (varint_bytes b ++ varint_bytes c ++ rest) 2) as [-> E]; [done..|].
    destruct (varints_read _ _ b _ 1 Hb E) as [-> E'].
    destruct (varints_read _ _ c _ 0 Hc E') as [-> _].
    cbn. rewrite !length_app, !length_varint_bytes by done. f_equal. lia.
  - rewrite skip_params. rewrite <-app_assoc in *.
    pose proof (field_end_block _ 0 body rest Hs Hok eq_refl) as E.
    rewrite drop_0 in E. cbn [Nat.add] in E. rewrite E.
    by rewrite length_app, length_varint_bytes by lia.
  - destruct Hok as (Hid & Hoff & Hd). rewrite skip_stream_type. unfold skip_stream.
    rewrite <-!app_assoc in *. set (fields := varint_bytes id ++ _) in *.
    assert (read_varint fields = Some (Z.min id MAX_VARINT, varint_len id)) as ->
      by (by apply read_varint_bytes).
    assert (Z.land (stream_type fin off) STREAM_LEN_BIT ≠ 0) as Hlen by (by destruct fin, off).
    assert (drop (varint_len id) fields =
      (match off with Some o => varint_bytes o | None => [] end) ++
      varint_bytes (Z.of_nat (length data)) ++ data ++ rest) as E
      by (by apply drop_varint_bytes).
    destruct off as [o|].
    + rewrite decide_True by (by destruct fin).
      rewrite E, read_varint_bytes by (by apply Hoff). rewrite decide_False by done.
      rewrite (field_end_block fields _ data rest); [|done|done|].
      * rewrite !length_app, !length_varint_bytes by (lia || by apply Hoff). f_equal. lia.
      * rewrite <-drop_drop, E. by apply drop_varint_bytes, Hoff.
    + rewrite decide_False by (destruct fin; by vm_compute). rewrite decide_False by done.
      rewrite (field_end_block fields _ data rest) by done.
      rewrite !length_app, !length_varint_bytes by lia. f_equal. cbn. lia.
Qed.

(** One frame is walked over, and the scan goes on behind it. *)
Lemma decode_skip_frame f rest :
  frame_ok f → is_slice (frame_bytes f ++ rest) →
  decode_close_frame (frame_bytes f ++ rest) = decode_close_frame rest.
Proof.
  intros Hok Hs. destruct (frame_type_range f Hok) as (H0 & Hmin & Hclose).
  rewrite decode_unfold. rewrite (frame_bytes_split f Hok), <-app_assoc in *.
  destruct (decide _) as [E|_].
  { apply (f_equal length) in E. rewrite length_app, length_varint_bytes in E by done.
    pose proof (varint_len_bound (frame_type_of f)). cbn in E. lia. }
  rewrite read_varint_bytes, Hmin, Hclose, drop_varint_bytes by done.
  rewrite skip_frame_body; [|done|].
  - f_equal. rewrite <-drop_drop, drop_varint_bytes by done. by apply drop_app_exact.
  - apply (is_slice_drop (varint_len (frame_type_of f))) in Hs.
    by rewrite drop_varint_bytes in Hs.
Qed.

Lemma is_slice_app_r a b : is_slice (a ++ b) → is_slice b.
Proof. unfold is_slice. rewrite length_app. lia. Qed.

(** The encoded record and its payload. *)
Lemma encode_close_record_facts r :
close_ok r →
  let frame := encode_close_frame r in
  encode_close_record r = varint_bytes (Z.of_nat (length frame)) ++ frame ∧
  (0 < length frame)%nat ∧ Z.of_nat (length frame) ≤ MAX_RECORD_SIZE ∧
  decode_close_frame frame = Some (normalise r).
Proof.
  intros Hok frame.
  assert (Z.of_nat (length frame) ≤ MAX_RECORD_SIZE ∧ (0 < length frame)%nat) as [Hb Hpos].
  { unfold frame. rewrite encode_close_frame_eq. destruct Hok as [[Hc _] [Hf _]].
    pose proof (encoded_len_small r) as Hl. pose proof (reason_budget_bound r) as Hbud.
    set (R := take (reason_budget r) (reason r)) in *.
    assert (length R ≤ reason_budget r)%nat as HR by (unfold R; rewrite length_take; lia).
    assert (varint_len (Z.of_nat (length R)) ≤ 2)%nat as H2.
    { unfold varint_len, MAX_RECORD_SIZE in *. repeat case_match; zbool; lia. }
    rewrite !length_app, !length_varint_bytes by (lia || by destruct (is_application r)).
    pose proof (varint_len_bound (error_code r)).
    unfold close_fixed_len in Hbud. cbv zeta in Hbud.
    destruct (is_application r); rewrite ?length_varint_bytes by done; cbn [length]; lia. }
  split_and!; [|done|done|].
  - unfold encode_close_record. by rewrite write_varint_app.
  - rewrite <-(app_nil_r frame). apply decode_close_front; [done|].
    rewrite app_nil_r. fold frame. unfold is_slice, MAX_RECORD_SIZE, U64_MAX in *. lia.
Qed.

(** ** Properties *)

(** A close is found behind any sequence of frames the draft defines, whatever
    follows it in the record, and it is reported with the fields that were encoded
    (saturated and truncated as the encoder does). *)
Theorem decode_behind_frames fs r rest :
  Forall frame_ok fs → close_ok r →
  is_slice (concat (frame_bytes <$> fs) ++ encode_close_frame r ++ rest) →
  decode_close_frame (concat (frame_bytes <$> fs) ++ encode_close_frame r ++ rest)
    = Some (normalise r).
Proof.
  intros Hfs Hok. induction Hfs as [|f fs Hf Hfs IH];
    rewrite ?fmap_nil, ?fmap_cons; cbn [concat]; intros Hs.
  - by apply decode_close_front.
  - rewrite <-app_assoc in *. rewrite decode_skip_frame by done.
    apply IH. by eapply is_slice_app_r.
Qed.

Definition example_frames : list frame :=
  [FPadding; FOne FRAME_MAX_DATA 1024; FStream true 4 (Some 7) [Byte.x01; Byte.x02]].
Definition example_close : CloseReason := mkCloseReason Application 7 0 (ascii_bytes "bye"%string).

Lemma decode_behind_frames_witness :
  decode_close_frame (concat (frame_bytes <$> example_frames) ++
    encode_close_frame example_close ++ [Byte.xff]) = Some (normalise example_close).
Proof.
  apply decode_behind_frames.
  - repeat constructor; try (by vm_compute); try (intros ? [= <-]; by vm_compute).
  - by vm_compute.
  - by vm_compute.
Defined.

(** [encode_close_record] frames its close correctly: the length prefix announces
    exactly the bytes that follow, the payload is at most [MAX_RECORD_SIZE], and
    decoding it gives back the close. *)
Theorem encode_close_record_wf r :
  close_ok r →
  let frame := encode_close_frame r in
  encode_close_record r = varint_bytes (Z.of_nat (length frame)) ++ frame ∧
  read_varint (encode_close_record r) =
    Some (Z.of_nat (length frame), varint_len (Z.of_nat (length frame))) ∧
  Z.of_nat (length frame) ≤ MAX_RECORD_SIZE ∧
  decode_close_frame frame = Some (normalise r).
Proof.
  intros Hok frame. destruct (encode_close_record_facts r Hok) as (E & Hpos & Hmax & Hdec).
  split_and!; [done| |done|done]. rewrite E, read_varint_bytes by lia.
  f_equal. f_equal. unfold MAX_RECORD_SIZE, MAX_VARINT in *. fold frame in Hmax. fold frame. lia.
Qed.

Lemma encode_close_record_wf_witness :
  decode_close_frame (encode_close_frame example_close) = Some example_close ∧
  encode_close_record example_close = Byte.x06 :: encode_close_frame example_close.
Proof.
  assert (close_ok example_close) as Hok by (by vm_compute).
  pose proof (encode_close_record_wf example_close Hok) as (E & _ & _ & D).
  split; [exact D|]. rewrite E. by vm_compute.
Defined.
