(* ===== verification/QmuxError.v ===== *)
(** * Errors of the QMux crates (crates/ngnet-qmux/src/error.rs, io/error.rs)

    The state machine's error with the classification of the C library's codes, and the
    asynchronous layer's error with the conversion between the two.  The numeric values
    of the codes belong to the C header and are the fields of the class [DwnxCodes]. *)

From Stdlib Require Import ZArith Lia.
From stdpp Require Import base list strings.
From S2P Require Import Prelude Varint CloseCodec.

(** ** The native codes *)

Class DwnxCodes := {
  DWNX_ERR_INVALID_ARGUMENT : Z;
  DWNX_ERR_NOBUF : Z;
  DWNX_ERR_PROTO : Z;
  DWNX_ERR_INVALID_STATE : Z;
  DWNX_ERR_STREAM_ID_BLOCKED : Z;
  DWNX_ERR_STREAM_IN_USE : Z;
  DWNX_ERR_STREAM_DATA_BLOCKED : Z;
  DWNX_ERR_FLOW_CONTROL : Z;
  DWNX_ERR_STREAM_LIMIT : Z;
  DWNX_ERR_FINAL_SIZE : Z;
  DWNX_ERR_REQUIRED_TRANSPORT_PARAM : Z;
  DWNX_ERR_MALFORMED_TRANSPORT_PARAM : Z;
  DWNX_ERR_TRANSPORT_PARAM : Z;
  DWNX_ERR_FRAME_ENCODING : Z;
  DWNX_ERR_STREAM_SHUT_WR : Z;
  DWNX_ERR_STREAM_NOT_FOUND : Z;
  DWNX_ERR_STREAM_STATE : Z;
  DWNX_ERR_CLOSING : Z;
  DWNX_ERR_DRAINING : Z;
  DWNX_ERR_IDLE_CLOSE : Z;
  DWNX_ERR_INTERNAL : Z;
  DWNX_ERR_WRITE_MORE : Z;
  DWNX_ERR_NOMEM : Z;
  DWNX_ERR_CALLBACK_FAILURE : Z
}.

(** ** The state machine's error *)
Module Conn.

Inductive ErrorKind :=
| InvalidArgument | Protocol | InvalidState | LimitExceeded | Stream
| TransportParameter | Closed | Handler | Memory | Internal.

#[global] Instance ErrorKind_eq_dec : EqDecision ErrorKind.
Proof. solve_decision. Defined.

Record Error := mkError {
  kind : ErrorKind;
  native : option Z;
  context : string;
  usable : bool
}.

#[global] Instance Error_eq_dec : EqDecision Error.
Proof. solve_decision. Defined.

Section Codes.
Context `{DwnxCodes}.

Definition classify (code : Z) : ErrorKind :=
  if decide (code = DWNX_ERR_INVALID_ARGUMENT) then InvalidArgument
  else if decide (code = DWNX_ERR_NOBUF) then Memory
  else if decide (code = DWNX_ERR_PROTO) then Protocol
  else if decide (code = DWNX_ERR_INVALID_STATE) then InvalidState
  else if decide (code = DWNX_ERR_STREAM_ID_BLOCKED) then Stream
  else if decide (code = DWNX_ERR_STREAM_IN_USE) then Stream
  else if decide (code = DWNX_ERR_STREAM_DATA_BLOCKED) then Stream
  else if decide (code = DWNX_ERR_FLOW_CONTROL) then LimitExceeded
  else if decide (code = DWNX_ERR_STREAM_LIMIT) then LimitExceeded
  else if decide (code = DWNX_ERR_FINAL_SIZE) then Protocol
  else if decide (code ∈ [DWNX_ERR_REQUIRED_TRANSPORT_PARAM;
                          DWNX_ERR_MALFORMED_TRANSPORT_PARAM;
                          DWNX_ERR_TRANSPORT_PARAM]) then TransportParameter
  else if decide (code = DWNX_ERR_FRAME_ENCODING) then Protocol
  else if decide (code = DWNX_ERR_STREAM_SHUT_WR) then Stream
  else if decide (code = DWNX_ERR_STREAM_NOT_FOUND) then Stream
  else if decide (code = DWNX_ERR_STREAM_STATE) then Stream
  else if decide (code ∈ [DWNX_ERR_CLOSING; DWNX_ERR_DRAINING; DWNX_ERR_IDLE_CLOSE])
    then Closed
  else if decide (code = DWNX_ERR_INTERNAL) then Internal
  else if decide (code = DWNX_ERR_WRITE_MORE) then InvalidState
  else if decide (code = DWNX_ERR_NOMEM) then Memory
  else if decide (code = DWNX_ERR_CALLBACK_FAILURE) then Handler
  else Internal.

Definition leaves_connection_usable (code : Z) : bool :=
  bool_decide (code ∈ [DWNX_ERR_WRITE_MORE; DWNX_ERR_STREAM_DATA_BLOCKED;
                       DWNX_ERR_STREAM_SHUT_WR; DWNX_ERR_STREAM_ID_BLOCKED;
                       DWNX_ERR_STREAM_IN_USE]).

Definition from_native (code : Z) (ctx : string) : Error :=
  mkError (classify code) (Some code) ctx (leaves_connection_usable code).
End Codes.

Definition validation (k : ErrorKind) (ctx : string) : Error := mkError k None ctx true.

End Conn.

(** ** The asynchronous layer's error *)
Module Io.

Inductive ErrorKind :=
| ByteStream | EndOfStream | TruncatedRecord | Protocol | PeerClosed | LocallyClosed
| Internal.

#[global] Instance ErrorKind_eq_dec : EqDecision ErrorKind.
Proof. solve_decision. Defined.

Definition is_orderly (k : ErrorKind) : bool :=
  match k with EndOfStream | PeerClosed | LocallyClosed => true | _ => false end.

(** A boxed source: the state machine's error, or a byte stream's, of which only the
    text is observable. *)
Inductive Source :=
| FromConn (e : Conn.Error)
| Boxed (text : string).

Record Error := mkError {
  kind : ErrorKind;
  context : string;
  close : option CloseReason;
  source : option Source
}.

Definition new (k : ErrorKind) (ctx : string) : Error := mkError k ctx None None.

Definition with_close (e : Error) (c : CloseReason) : Error :=
  mkError (kind e) (context e) (Some c) (source e).

Definition with_source (e : Error) (s : Source) : Error :=
  mkError (kind e) (context e) (close e) (Some s).

Definition with_boxed_source (e : Error) (s : Source) : Error :=
  mkError (kind e) (context e) (close e) (Some s).

Definition with_context (e : Error) (ctx : string) : Error :=
  mkError (kind e) ctx (close e) (source e).

Definition close_reason (e : Error) : option CloseReason := close e.

(** [impl From<crate::error::Error> for Error]. *)
Definition from_conn (err : Conn.Error) : Error :=
  let k := match Conn.kind err with
           | Conn.Closed => LocallyClosed
           | Conn.Protocol | Conn.LimitExceeded | Conn.TransportParameter | Conn.Stream =>
               Protocol
           | _ => Internal
           end in
  with_source (new k "the connection failed") (FromConn err).

End Io.
