(* ===== verification/QmuxTypes.v ===== *)
(** * Data of the QMux state machine

    The value types of crates/ngnet-qmux: time.rs ([Time]), stream.rs ([Stream]),
    params.rs ([Params]), settings.rs ([Settings]), the event and outcome types of
    handlers.rs, conn.rs, stream_io.rs and write.rs, and the events and their queue of
    io/event.rs ([Event]).  The constants [NGNET_QMUX_*] are those of
    crates/ngnet-qmux-sys/wrapper.h; the defaults that the C library fills in are
    parameters. *)

From Stdlib Require Import ZArith Lia.
From stdpp Require Import base list strings.
From S2P Require Import Prelude Varint CloseCodec QmuxError.

(** ** time.rs *)
Module Time.

Definition NGNET_QMUX_NANOSECONDS : Z := 1.
Definition NGNET_QMUX_MICROSECONDS : Z := 1000.
Definition NGNET_QMUX_MILLISECONDS : Z := 1000000.
Definition NGNET_QMUX_SECONDS : Z := 1000000000.
Definition NGNET_QMUX_MINUTES : Z := 60000000000.

(** Both are newtypes of a [u64] count of nanoseconds. *)
Record Timestamp := mkTimestamp { ts_nanos : Z }.
Record Duration := mkDuration { dur_nanos : Z }.

Definition ts_from_nanos (nanos : Z) : Timestamp := mkTimestamp nanos.
Definition ts_as_nanos (t : Timestamp) : Z := ts_nanos t.

Definition NANOSECOND : Duration := mkDuration NGNET_QMUX_NANOSECONDS.
Definition MICROSECOND : Duration := mkDuration NGNET_QMUX_MICROSECONDS.
Definition MILLISECOND : Duration := mkDuration NGNET_QMUX_MILLISECONDS.
Definition SECOND : Duration := mkDuration NGNET_QMUX_SECONDS.
Definition MINUTE : Duration := mkDuration NGNET_QMUX_MINUTES.

Definition dur_from_nanos (nanos : Z) : Duration := mkDuration nanos.
Definition from_millis (millis : Z) : Duration :=
  mkDuration (saturating_mul millis NGNET_QMUX_MILLISECONDS).
Definition from_secs (secs : Z) : Duration :=
  mkDuration (saturating_mul secs NGNET_QMUX_SECONDS).
Definition dur_as_nanos (d : Duration) : Z := dur_nanos d.

End Time.

(** ** stream.rs *)
Module Stream.

Inductive Initiator := Client | Server.
Inductive Directionality := Bidirectional | Unidirectional.

(** A newtype of an [i64]; the constructor is private in the source. *)
Record StreamId := mkStreamId { get : Z }.

#[global] Instance StreamId_eq_dec : EqDecision StreamId.
Proof. solve_decision. Defined.
#[global] Instance Directionality_eq_dec : EqDecision Directionality.
Proof. solve_decision. Defined.

Definition MAX : Z := MAX_VARINT.

Definition new (id : Z) : result StreamId Conn.Error :=
  if id <? 0 then Err (Conn.validation Conn.InvalidArgument "stream id is negative")
  else if MAX <? id then
    Err (Conn.validation Conn.InvalidArgument "stream id exceeds the varint bound")
  else Ok (mkStreamId id).

Definition initiator (s : StreamId) : Initiator :=
  if Z.land (get s) 0x1 =? 0 then Client else Server.

Definition directionality (s : StreamId) : Directionality :=
  if Z.land (get s) 0x2 =? 0 then Bidirectional else Unidirectional.

Definition is_bidirectional (s : StreamId) : bool :=
  match directionality s with Bidirectional => true | Unidirectional => false end.

End Stream.

Export Stream(StreamId).

(** ** params.rs *)
Module Params.

Definition MAX_VARINT : Z := 2 ^ 62 - 1.
Definition MAX_STREAMS : Z := Z.shiftl 1 60.
Definition DWNX_DEFAULT_MAX_RECORD_SIZE : Z := 16382.

(** The eight fields of [dwnx_transport_params]. *)
Record TransportParams := mkParams {
  initial_max_stream_data_bidi_local : Z;
  initial_max_stream_data_bidi_remote : Z;
  initial_max_stream_data_uni : Z;
  initial_max_data : Z;
  initial_max_streams_bidi : Z;
  initial_max_streams_uni : Z;
  max_idle_timeout_nanos : Z;
  max_record_size : Z
}.

#[global] Instance TransportParams_eq_dec : EqDecision TransportParams.
Proof. solve_decision. Defined.

(** [impl PartialEq]: the comparison field by field. *)
Definition eq (a b : TransportParams) : bool :=
  (initial_max_stream_data_bidi_local a =? initial_max_stream_data_bidi_local b)
  && (initial_max_stream_data_bidi_remote a =? initial_max_stream_data_bidi_remote b)
  && (initial_max_stream_data_uni a =? initial_max_stream_data_uni b)
  && (initial_max_data a =? initial_max_data b)
  && (initial_max_streams_bidi a =? initial_max_streams_bidi b)
  && (initial_max_streams_uni a =? initial_max_streams_uni b)
  && (max_idle_timeout_nanos a =? max_idle_timeout_nanos b)
  && (max_record_size a =? max_record_size b).

(** The builder methods. *)
Definition with_initial_max_stream_data_bidi_local (v : Z) (p : TransportParams) :=
  mkParams v (initial_max_stream_data_bidi_remote p) (initial_max_stream_data_uni p)
    (initial_max_data p) (initial_max_streams_bidi p) (initial_max_streams_uni p)
    (max_idle_timeout_nanos p) (max_record_size p).
Definition with_initial_max_stream_data_bidi_remote (v : Z) (p : TransportParams) :=
  mkParams (initial_max_stream_data_bidi_local p) v (initial_max_stream_data_uni p)
    (initial_max_data p) (initial_max_streams_bidi p) (initial_max_streams_uni p)
    (max_idle_timeout_nanos p) (max_record_size p).
Definition with_initial_max_stream_data_uni (v : Z) (p : TransportParams) :=
  mkParams (initial_max_stream_data_bidi_local p) (initial_max_stream_data_bidi_remote p) v
    (initial_max_data p) (initial_max_streams_bidi p) (initial_max_streams_uni p)
    (max_idle_timeout_nanos p) (max_record_size p).
Definition with_initial_max_data (v : Z) (p : TransportParams) :=
  mkParams (initial_max_stream_data_bidi_local p) (initial_max_stream_data_bidi_remote p)
    (initial_max_stream_data_uni p) v (initial_max_streams_bidi p)
    (initial_max_streams_uni p) (max_idle_timeout_nanos p) (max_record_size p).
Definition with_initial_max_streams_bidi (v : Z) (p : TransportParams) :=
  mkParams (initial_max_stream_data_bidi_local p) (initial_max_stream_data_bidi_remote p)
    (initial_max_stream_data_uni p) (initial_max_data p) v (initial_max_streams_uni p)
    (max_idle_timeout_nanos p) (max_record_size p).
Definition with_initial_max_streams_uni (v : Z) (p : TransportParams) :=
  mkParams (initial_max_stream_data_bidi_local p) (initial_max_stream_data_bidi_remote p)
    (initial_max_stream_data_uni p) (initial_max_data p) (initial_max_streams_bidi p) v
    (max_idle_timeout_nanos p) (max_record_size p).
Definition with_max_idle_timeout (t : Time.Duration) (p : TransportParams) :=
  mkParams (initial_max_stream_data_bidi_local p) (initial_max_stream_data_bidi_remote p)
    (initial_max_stream_data_uni p) (initial_max_data p) (initial_max_streams_bidi p)
    (initial_max_streams_uni p) (Time.dur_as_nanos t) (max_record_size p).

Definition with_all_limits (data streams : Z) (p : TransportParams) : TransportParams :=
  with_initial_max_streams_uni streams (with_initial_max_streams_bidi streams
    (with_initial_max_data data (with_initial_max_stream_data_uni data
      (with_initial_max_stream_data_bidi_remote data
        (with_initial_max_stream_data_bidi_local data p))))).

Definition max_idle_timeout (p : TransportParams) : Time.Duration :=
  Time.dur_from_nanos (max_idle_timeout_nanos p).

(** The two [for] loops of [validate]: the first value over its bound is refused. *)
Fixpoint check_bounds (bound : Z) (values : list (Z * string)) : result unit Conn.Error :=
  match values with
  | [] => Ok ()
  | (value, what) :: rest =>
      if bound <? value then Err (Conn.validation Conn.InvalidArgument what)
      else check_bounds bound rest
  end.

Definition validate (p : TransportParams) : result unit Conn.Error :=
  let? _ := check_bounds MAX_VARINT
    [(initial_max_stream_data_bidi_local p,
      "initial_max_stream_data_bidi_local exceeds the varint bound"%string);
     (initial_max_stream_data_bidi_remote p,
      "initial_max_stream_data_bidi_remote exceeds the varint bound"%string);
     (initial_max_data p, "initial_max_data exceeds the varint bound"%string);
     (initial_max_stream_data_uni p,
      "initial_max_stream_data_uni exceeds the varint bound"%string)] in
  let? _ := check_bounds MAX_STREAMS
    [(initial_max_streams_bidi p,
      "initial_max_streams_bidi exceeds the stream count bound"%string);
     (initial_max_streams_uni p,
      "initial_max_streams_uni exceeds the stream count bound"%string)] in
  if max_idle_timeout_nanos p =? U64_MAX then
    Err (Conn.validation Conn.InvalidArgument "max_idle_timeout must not be u64::MAX")
  else if MAX_VARINT <? max_idle_timeout_nanos p / Time.NGNET_QMUX_MILLISECONDS then
    Err (Conn.validation Conn.InvalidArgument
           "max_idle_timeout in milliseconds exceeds the varint bound")
  else if MAX_VARINT <? max_record_size p then
    Err (Conn.validation Conn.InvalidArgument "max_record_size exceeds the varint bound")
  else if max_record_size p <? DWNX_DEFAULT_MAX_RECORD_SIZE then
    Err (Conn.validation Conn.InvalidArgument "max_record_size is below the protocol minimum")
  else Ok ().

End Params.

Export Params(TransportParams).

(** ** settings.rs *)
Module Settings.

(** The fields of [dwnx_settings] the crate sets. *)
Record Settings := mkSettings { conn_id : Z; initial_ts : Z }.

Definition with_conn_id (id : Z) (s : Settings) : Settings := mkSettings id (initial_ts s).
Definition with_initial_timestamp (ts : Time.Timestamp) (s : Settings) : Settings :=
  mkSettings (conn_id s) (Time.ts_as_nanos ts).
Definition initial_timestamp (s : Settings) : Time.Timestamp :=
  Time.ts_from_nanos (initial_ts s).

End Settings.

(** ** conn.rs, stream_io.rs, write.rs, handlers.rs: the small types *)

Inductive Role := Client | Server.

Inductive ReadOutcome := Processed | PeerClosed.

Inductive OpenOutcome := Opened (id : StreamId) | OpenBlocked.

Definition opened (o : OpenOutcome) : option StreamId :=
  match o with Opened id => Some id | OpenBlocked => None end.

Inductive Shutdown := ShutRead | ShutWrite | ShutBoth.

(** [HandlerError] carries only its message. *)
Record HandlerError := mkHandlerError { message : string }.

Definition HandlerResult := result unit HandlerError.

Record StreamDataEvent := mkStreamData {
  sd_stream_id : StreamId; sd_offset : Z; sd_data : bytes; sd_fin : bool
}.

Record StreamCloseEvent := mkStreamClose {
  sc_stream_id : StreamId; sc_rx : option Z; sc_tx : option Z
}.

Inductive StreamLimitKind := LocalBidi | LocalUni | RemoteBidi | RemoteUni.

Inductive Written := Accepted (n : nat) | NotNow.

(** ** io/event.rs *)

Module Event.

Inductive Event :=
| StreamData (stream_id : StreamId) (offset : Z) (data : bytes) (fin : bool)
| StreamOpened (stream_id : StreamId)
| StreamClosed (stream_id : StreamId) (rx_app_error_code tx_app_error_code : option Z)
| StreamReset (stream_id : StreamId) (final_size app_error_code : Z)
| StopSending (stream_id : StreamId) (app_error_code : Z)
| StreamDataCredit (stream_id : StreamId) (max_data : Z)
| ConnectionDataCredit (available : Z)
| StreamLimit (kind : StreamLimitKind) (max_streams : Z)
| PeerTransportParams (params : TransportParams).

(** The queue, front first.  The mutex is not modelled: every access is one push or one
    pop under the lock. *)
Definition EventQueue := list Event.

Definition new : EventQueue := [].
Definition push (q : EventQueue) (e : Event) : EventQueue := q ++ [e].
Definition pop (q : EventQueue) : option (Event * EventQueue) :=
  match q with [] => None | e :: q' => Some (e, q') end.

End Event.

(** ** Theorems *)

Section Validate.
Import Params.

Definition params_in_range (p : TransportParams) : Prop :=
  initial_max_stream_data_bidi_local p ≤ MAX_VARINT ∧
  initial_max_stream_data_bidi_remote p ≤ MAX_VARINT ∧
  initial_max_data p ≤ MAX_VARINT ∧
  initial_max_stream_data_uni p ≤ MAX_VARINT ∧
  initial_max_streams_bidi p ≤ 2 ^ 60 ∧
  initial_max_streams_uni p ≤ 2 ^ 60 ∧
  max_idle_timeout_nanos p < U64_MAX ∧
  DWNX_DEFAULT_MAX_RECORD_SIZE ≤ max_record_size p ≤ MAX_VARINT.

Definition params_u64 (p : TransportParams) : Prop :=
  is_u64 (initial_max_stream_data_bidi_local p) ∧
  is_u64 (initial_max_stream_data_bidi_remote p) ∧
  is_u64 (initial_max_stream_data_uni p) ∧ is_u64 (initial_max_data p) ∧
  is_u64 (initial_max_streams_bidi p) ∧ is_u64 (initial_max_streams_uni p) ∧
  is_u64 (max_idle_timeout_nanos p) ∧ is_u64 (max_record_size p).

Lemma check_bounds_spec bound values :
  match check_bounds bound values with
  | Ok _ => Forall (λ v, v.1 ≤ bound) values
  | Err e => ∃ pre v what post, values = pre ++ (v, what) :: post ∧
      Forall (λ v, v.1 ≤ bound) pre ∧ bound < v ∧
      e = Conn.validation Conn.InvalidArgument what
  end.
Proof.
  induction values as [|[v what] values IH]; simpl; [constructor|].
  destruct (Z.ltb_spec bound v).
  - exists [], v, what, values. auto using Forall_nil_2.
  - destruct (check_bounds bound values) as [|e]; [by constructor|].
    destruct IH as (pre & v' & w' & post & -> & ? & ? & ->).
    exists ((v, what) :: pre), v', w', post. repeat split; auto.
Qed.

Lemma idle_millis_fit p :
  is_u64 (max_idle_timeout_nanos p) →
  max_idle_timeout_nanos p / Time.NGNET_QMUX_MILLISECONDS ≤ MAX_VARINT.
Proof.
  unfold is_u64, U64_MAX, Time.NGNET_QMUX_MILLISECONDS, MAX_VARINT. intros.
  pose proof (Z.div_le_mono (max_idle_timeout_nanos p) (2 ^ 64) 1000000 ltac:(lia)
                ltac:(lia)). 
  change (2 ^ 64 / 1000000) with 18446744073709 in *. lia.
Qed.

Lemma validate_err_kind p e :
  validate p = Err e →
  Conn.kind e = Conn.InvalidArgument ∧ Conn.native e = None ∧ Conn.usable e = true.
Proof.
  unfold validate. intros E.
  match type of E with context [check_bounds ?b ?l] =>
    pose proof (check_bounds_spec b l) as H; destruct (check_bounds b l) as [|e1] end;
    [|destruct H as (?&?&?&?&_&_&_&->); by simplify_eq].
  clear H.
  match type of E with context [check_bounds ?b ?l] =>
    pose proof (check_bounds_spec b l) as H; destruct (check_bounds b l) as [|e1] end;
    [|destruct H as (?&?&?&?&_&_&_&->); by simplify_eq].
  repeat case_match; by simplify_eq.
Qed.

(** Parameter validation is exact: for parameters made of [u64] values it accepts
    exactly the ones the C library can encode without asserting (the four data limits and
    the record size within the varint bound, the two stream counts within 2^60, a record
    size no smaller than the protocol's minimum, an idle timeout other than [u64::MAX]),
    and a refusal is always an [InvalidArgument] that carries no native code and leaves the
    connection usable.  (The check of the idle timeout in milliseconds never refuses.) *)
Theorem validate_exact p :
  params_u64 p →
  (validate p = Ok () ↔ params_in_range p) ∧
  (∀ e, validate p = Err e →
     Conn.kind e = Conn.InvalidArgument ∧ Conn.native e = None ∧ Conn.usable e = true).
Proof.
  intros (?&?&?&?&?&?&Hidle&?). split; [|by apply validate_err_kind].
  pose proof (idle_millis_fit p Hidle) as Hms.
  unfold validate, params_in_range, check_bounds.
  change MAX_STREAMS with (2 ^ 60). unfold is_u64, U64_MAX in *.
  repeat match goal with
  | |- context [if ?a <? ?b then _ else _] => destruct (Z.ltb_spec a b)
  | |- context [if ?a =? ?b then _ else _] => destruct (Z.eqb_spec a b)
  end; (split; [try discriminate; intros _; lia | try done; lia]).
Qed.

Definition example_params : TransportParams :=
  mkParams 262144 262144 262144 1048576 100 (2 ^ 60) 0 16382.

Lemma validate_exact_witness :
  params_u64 example_params ∧ validate example_params = Ok () ∧
  ∃ e, validate (with_max_idle_timeout (Time.mkDuration U64_MAX) example_params) = Err e ∧
       Conn.kind e = Conn.InvalidArgument.
Proof.
  assert (Hu : params_u64 example_params) by (repeat split; vm_compute; discriminate).
  split; [exact Hu|]. split.
  - apply (proj1 (validate_exact example_params Hu)). repeat split; vm_compute; discriminate || reflexivity.
  - eexists. split; [reflexivity|].
    apply (proj2 (validate_exact (with_max_idle_timeout (Time.mkDuration U64_MAX)
      example_params) ltac:(repeat split; vm_compute; discriminate)) _ eq_refl).
Defined.

End Validate.
