(* ===== verification/QmuxConn.v ===== *)
(** * The QMux state machine (handlers.rs, callbacks.rs, conn.rs, stream_io.rs)

    The safe wrapper around the C connection.  The C library itself is the class [Dwnx]:
    its state type, its constants and its entry points.  An entry point may call back into
    Rust at any moment, so each one takes the callback (a function on the Rust-side state,
    returning the C result code) and threads that state, polymorphically in its type. *)

From Stdlib Require Import ZArith Lia.
From stdpp Require Import base list strings.
From S2P Require Import Prelude Varint CloseCodec QmuxError QmuxTypes.

(** ** Handlers (handlers.rs) *)

(** A handler is a closure over caller state; [U] is the state of all of them, which they
    may share. *)
Definition Handler (U A : Type) : Type := option (A → U → U * HandlerResult).

Record Handlers (U : Type) := mkHandlers {
  recv_transport_params : Handler U TransportParams;
  recv_stream_data : Handler U StreamDataEvent;
  stream_open : Handler U StreamId;
  stream_close : Handler U StreamCloseEvent;
  stream_reset : Handler U (StreamId * Z * Z);
  stream_stop_sending : Handler U (StreamId * Z);
  recv_stop_sending : Handler U (StreamId * Z);
  extend_max_stream_data : Handler U (StreamId * Z);
  extend_max_streams : Handler U (StreamLimitKind * Z)
}.
Arguments mkHandlers {U}.
Arguments recv_transport_params {U}.
Arguments recv_stream_data {U}.
Arguments stream_open {U}.
Arguments stream_close {U}.
Arguments stream_reset {U}.
Arguments stream_stop_sending {U}.
Arguments recv_stop_sending {U}.
Arguments extend_max_stream_data {U}.
Arguments extend_max_streams {U}.

Module Handlers.
Section Builders.
Context {U : Type}.

Definition new : Handlers U :=
  mkHandlers None None None None None None None None None.

Definition on_transport_params f (h : Handlers U) : Handlers U :=
  mkHandlers (Some f) (recv_stream_data h) (stream_open h) (stream_close h)
    (stream_reset h) (stream_stop_sending h) (recv_stop_sending h)
    (extend_max_stream_data h) (extend_max_streams h).
Definition on_stream_data f (h : Handlers U) : Handlers U :=
  mkHandlers (recv_transport_params h) (Some f) (stream_open h) (stream_close h)
    (stream_reset h) (stream_stop_sending h) (recv_stop_sending h)
    (extend_max_stream_data h) (extend_max_streams h).
Definition on_stream_open f (h : Handlers U) : Handlers U :=
  mkHandlers (recv_transport_params h) (recv_stream_data h) (Some f) (stream_close h)
    (stream_reset h) (stream_stop_sending h) (recv_stop_sending h)
    (extend_max_stream_data h) (extend_max_streams h).
Definition on_stream_close f (h : Handlers U) : Handlers U :=
  mkHandlers (recv_transport_params h) (recv_stream_data h) (stream_open h) (Some f)
    (stream_reset h) (stream_stop_sending h) (recv_stop_sending h)
    (extend_max_stream_data h) (extend_max_streams h).
Definition on_stream_reset f (h : Handlers U) : Handlers U :=
  mkHandlers (recv_transport_params h) (recv_stream_data h) (stream_open h)
    (stream_close h) (Some f) (stream_stop_sending h) (recv_stop_sending h)
    (extend_max_stream_data h) (extend_max_streams h).
Definition on_stream_stop_sending f (h : Handlers U) : Handlers U :=
  mkHandlers (recv_transport_params h) (recv_stream_data h) (stream_open h)
    (stream_close h) (stream_reset h) (Some f) (recv_stop_sending h)
    (extend_max_stream_data h) (extend_max_streams h).
Definition on_recv_stop_sending f (h : Handlers U) : Handlers U :=
  mkHandlers (recv_transport_params h) (recv_stream_data h) (stream_open h)
    (stream_close h) (stream_reset h) (stream_stop_sending h) (Some f)
    (extend_max_stream_data h) (extend_max_streams h).
Definition on_extend_max_stream_data f (h : Handlers U) : Handlers U :=
  mkHandlers (recv_transport_params h) (recv_stream_data h) (stream_open h)
    (stream_close h) (stream_reset h) (stream_stop_sending h) (recv_stop_sending h)
    (Some f) (extend_max_streams h).
Definition on_extend_max_streams f (h : Handlers U) : Handlers U :=
  mkHandlers (recv_transport_params h) (recv_stream_data h) (stream_open h)
    (stream_close h) (stream_reset h) (stream_stop_sending h) (recv_stop_sending h)
    (extend_max_stream_data h) (Some f).
End Builders.
End Handlers.

(** ** The C library *)

(** The calls the C library makes into Rust.  Pointers that may be null are options. *)
Inductive native_callback :=
| CbRecvTransportParams (params : option TransportParams)
| CbRecvStreamData (flags stream_id offset : Z) (data : option bytes)
| CbStreamOpen (stream_id : Z)
| CbStreamClose (flags stream_id rx_app_error_code tx_app_error_code : Z)
| CbStreamReset (stream_id final_size app_error_code : Z)
| CbStreamStopSending (stream_id app_error_code : Z)
| CbRecvStopSending (stream_id app_error_code : Z)
| CbExtendMaxStreamData (stream_id max_data : Z)
| CbExtendMaxLocalStreamsBidi (max_streams : Z)
| CbExtendMaxLocalStreamsUni (max_streams : Z)
| CbExtendMaxRemoteStreamsBidi (max_streams : Z)
| CbExtendMaxRemoteStreamsUni (max_streams : Z).

(** An entry point run on the C state [C]: it may call back any number of times, threading
    the Rust-side state [B], and returns an [R]. *)
Definition native_call (C R : Type) : Type :=
  ∀ B : Type, (B → native_callback → B * Z) → C → B → C * B * R.

(** What [dwnx_conn_writev_stream] hands back: its return value, the count it stored
    through the [pdatalen] pointer, and the buffer. *)
Record writev_result := mkWritev { wr_rv : Z; wr_pdatalen : Z; wr_buf : bytes }.

Class Dwnx := {
  dwnx_codes : DwnxCodes;
  dwnx_conn : Type;
  DWNX_STREAM_DATA_FLAG_FIN : Z;
  DWNX_STREAM_CLOSE_FLAG_RX_APP_ERROR_CODE_SET : Z;
  DWNX_STREAM_CLOSE_FLAG_TX_APP_ERROR_CODE_SET : Z;
  DWNX_WRITE_STREAM_FLAG_NONE : Z;
  DWNX_WRITE_STREAM_FLAG_FIN : Z;
  dwnx_transport_params_default : TransportParams;
  dwnx_settings_default : Settings.Settings;
  (** The constructors: the return code and, through the out-pointer, the connection. *)
  dwnx_conn_new : Role → Settings.Settings → TransportParams → Z * option dwnx_conn;
  dwnx_conn_read : bytes → Z → native_call dwnx_conn Z;
  dwnx_conn_writev_stream :
    bytes → Z → Z → list bytes → Z → native_call dwnx_conn writev_result;
  dwnx_conn_write_stream :
    bytes → Z → Z → bytes → Z → native_call dwnx_conn writev_result;
  (** The stream id through the out-pointer, initially -1. *)
  dwnx_conn_open_bidi_stream : native_call dwnx_conn (Z * Z);
  dwnx_conn_open_uni_stream : native_call dwnx_conn (Z * Z);
  dwnx_conn_shutdown_stream_read : Z → Z → Z → native_call dwnx_conn Z;
  dwnx_conn_shutdown_stream_write : Z → Z → Z → native_call dwnx_conn Z;
  dwnx_conn_shutdown_stream : Z → Z → Z → native_call dwnx_conn Z;
  dwnx_conn_extend_max_stream_offset : Z → Z → native_call dwnx_conn Z;
  dwnx_conn_extend_max_offset : Z → native_call dwnx_conn unit;
  dwnx_conn_extend_max_streams_bidi : Z → native_call dwnx_conn unit;
  dwnx_conn_extend_max_streams_uni : Z → native_call dwnx_conn unit;
  dwnx_conn_get_streams_bidi_left : dwnx_conn → Z;
  dwnx_conn_get_streams_uni_left : dwnx_conn → Z;
  dwnx_conn_get_max_data_left : dwnx_conn → Z;
  dwnx_conn_get_timestamp : dwnx_conn → Z;
  dwnx_conn_is_server : dwnx_conn → Z;
  dwnx_conn_is_local_stream : dwnx_conn → Z → Z;
  dwnx_conn_get_local_transport_params : dwnx_conn → TransportParams
}.
#[global] Existing Instance dwnx_codes.

(** ** callbacks.rs *)

Record Scratch := mkScratch {
  peer_params : option TransportParams;
  handler_error : option HandlerError
}.

Definition scratch_default : Scratch := mkScratch None None.

(** What the C library's [user_data] leads to.  [slot] says whether a bridge is installed;
    the bridge itself is two pointers, to the handlers (whose code does not change and
    whose state is [user]) and to the scratch. *)
Record Bridge (U : Type) := mkBridge { slot : bool; user : U; scratch : Scratch }.
Arguments mkBridge {U}.
Arguments slot {U}.
Arguments user {U}.
Arguments scratch {U}.

Module Callbacks.
Section Trampolines.
Context `{Dwnx} {U : Type}.
Variable handlers : Handlers U.

(** [dispatch]: [null] says whether [user_data] is a null pointer. *)
Definition dispatch (null : bool) (b : Bridge U)
    (f : U → Scratch → U * Scratch * HandlerResult) : Bridge U * Z :=
  if null then (b, 0)
  else if slot b then
    let '(u, s, r) := f (user b) (scratch b) in
    match r with
    | Ok _ => (mkBridge true u s, 0)
    | Err error =>
        (mkBridge true u (mkScratch (peer_params s) (Some error)), DWNX_ERR_CALLBACK_FAILURE)
    end
  else (b, 0).

Definition stream_id (raw : Z) : result StreamId HandlerError :=
  map_err (λ _, mkHandlerError "dwnx supplied an invalid stream id") (Stream.new raw).

(** A handler, if there is one, on arguments whose construction may fail. *)
Definition invoke {A} (h : Handler U A) (arg : result A HandlerError) (u : U) (s : Scratch)
  : U * Scratch * HandlerResult :=
  match h with
  | None => (u, s, Ok ())
  | Some handler =>
      match arg with
      | Err e => (u, s, Err e)
      | Ok a => let '(u', r) := handler a u in (u', s, r)
      end
  end.

Definition on_recv_transport_params null (params : option TransportParams) b :=
  dispatch null b (λ u s,
    match params with
    | None => (u, s, Err (mkHandlerError "dwnx supplied null transport parameters"))
    | Some params =>
        invoke (recv_transport_params handlers) (Ok params) u
          (mkScratch (Some params) (handler_error s))
    end).

Definition on_recv_stream_data null (flags sid offset : Z) (data : option bytes) b :=
  dispatch null b (invoke (recv_stream_data handlers)
    (let? id := stream_id sid in
     Ok (mkStreamData id offset (default [] data)
           (negb (Z.land flags DWNX_STREAM_DATA_FLAG_FIN =? 0))))).

Definition on_stream_open null (sid : Z) b :=
  dispatch null b (invoke (stream_open handlers) (stream_id sid)).

Definition on_stream_close null (flags sid rx tx : Z) b :=
  let rx_set := negb (Z.land flags DWNX_STREAM_CLOSE_FLAG_RX_APP_ERROR_CODE_SET =? 0) in
  let tx_set := negb (Z.land flags DWNX_STREAM_CLOSE_FLAG_TX_APP_ERROR_CODE_SET =? 0) in
  dispatch null b (invoke (stream_close handlers)
    (let? id := stream_id sid in
     Ok (mkStreamClose id (if rx_set then Some rx else None)
           (if tx_set then Some tx else None)))).

Definition on_stream_reset null (sid final_size code : Z) b :=
  dispatch null b (invoke (stream_reset handlers)
    (let? id := stream_id sid in Ok (id, final_size, code))).

Definition on_stream_stop_sending null (sid code : Z) b :=
  dispatch null b (invoke (stream_stop_sending handlers)
    (let? id := stream_id sid in Ok (id, code))).

Definition on_recv_stop_sending null (sid code : Z) b :=
  dispatch null b (invoke (recv_stop_sending handlers)
    (let? id := stream_id sid in Ok (id, code))).

Definition on_extend_max_stream_data null (sid max_data : Z) b :=
  dispatch null b (invoke (extend_max_stream_data handlers)
    (let? id := stream_id sid in Ok (id, max_data))).

Definition extend_max_streams (kind : StreamLimitKind) (max_streams : Z) null b :=
  dispatch null b (invoke (QmuxConn.extend_max_streams handlers) (Ok (kind, max_streams))).

Definition on_extend_max_local_streams_bidi null n b := extend_max_streams LocalBidi n null b.
Definition on_extend_max_local_streams_uni null n b := extend_max_streams LocalUni n null b.
Definition on_extend_max_remote_streams_bidi null n b :=
  extend_max_streams RemoteBidi n null b.
Definition on_extend_max_remote_streams_uni null n b := extend_max_streams RemoteUni n null b.

(** The table [callbacks()], given the [user_data] pointer the constructor was handed,
    which is never null. *)
Definition callbacks (b : Bridge U) (c : native_callback) : Bridge U * Z :=
  match c with
  | CbRecvTransportParams p => on_recv_transport_params false p b
  | CbRecvStreamData flags sid offset data =>
      on_recv_stream_data false flags sid offset data b
  | CbStreamOpen sid => on_stream_open false sid b
  | CbStreamClose flags sid rx tx => on_stream_close false flags sid rx tx b
  | CbStreamReset sid size code => on_stream_reset false sid size code b
  | CbStreamStopSending sid code => on_stream_stop_sending false sid code b
  | CbRecvStopSending sid code => on_recv_stop_sending false sid code b
  | CbExtendMaxStreamData sid n => on_extend_max_stream_data false sid n b
  | CbExtendMaxLocalStreamsBidi n => on_extend_max_local_streams_bidi false n b
  | CbExtendMaxLocalStreamsUni n => on_extend_max_local_streams_uni false n b
  | CbExtendMaxRemoteStreamsBidi n => on_extend_max_remote_streams_bidi false n b
  | CbExtendMaxRemoteStreamsUni n => on_extend_max_remote_streams_uni false n b
  end.
End Trampolines.
End Callbacks.

(** ** conn.rs and stream_io.rs *)

Record Conn (N U : Type) := mkConn {
  raw : N;
  role : Role;
  bridge : Bridge U;
  handlers : Handlers U
}.
Arguments mkConn {N U}.
Arguments raw {N U}.
Arguments role {N U}.
Arguments bridge {N U}.
Arguments handlers {N U}.

Module ConnOps.
Section Ops.
Context `{Dwnx} {U : Type}.
Abbreviation Conn := (Conn dwnx_conn U).

(** [ConnBuilder::build]; the handlers' closures come with their initial state. *)
Definition build (role : Role) (settings : Settings.Settings) (params : TransportParams)
    (handlers : Handlers U) (u : U) : result Conn QmuxError.Conn.Error :=
  let? _ := Params.validate params in
  let '(rv, raw) := dwnx_conn_new role settings params in
  if negb (rv =? 0) then Err (QmuxError.Conn.from_native rv "constructing a connection")
  else
    match raw with
    | None =>
        Err (QmuxError.Conn.validation QmuxError.Conn.Internal
               "dwnx reported success but returned no connection")
    | Some raw => Ok (mkConn raw role (mkBridge false u scratch_default) handlers)
    end.

(** The guard installs the bridge for the call and removes it afterwards. *)
Definition with_bridge {R} (f : native_call dwnx_conn R) (c : Conn) : Conn * R :=
  let b := bridge c in
  let installed := mkBridge true (user b) (mkScratch (peer_params (scratch b)) None) in
  let '(raw', b', r) := f (Bridge U) (Callbacks.callbacks (handlers c)) (raw c) installed in
  (mkConn raw' (role c) (mkBridge false (user b') (scratch b')) (handlers c), r).

Definition set_handler_error (e : option HandlerError) (c : Conn) : Conn :=
  let b := bridge c in
  mkConn (raw c) (role c)
    (mkBridge (slot b) (user b) (mkScratch (peer_params (scratch b)) e)) (handlers c).

Definition error_from (rv : Z) (context : string) (c : Conn) :
    Conn * QmuxError.Conn.Error :=
  match handler_error (scratch (bridge c)) with
  | Some e =>
      if rv =? DWNX_ERR_CALLBACK_FAILURE then
        (set_handler_error None c, QmuxError.Conn.from_native rv (message e))
      else (c, QmuxError.Conn.from_native rv context)
  | None => (c, QmuxError.Conn.from_native rv context)
  end.

Definition fail_with {A} (rv : Z) (context : string) (c : Conn) :
    Conn * result A QmuxError.Conn.Error :=
  let '(c, e) := error_from rv context c in (c, Err e).

Definition is_server (c : Conn) : bool := negb (dwnx_conn_is_server (raw c) =? 0).
Definition peer_transport_params (c : Conn) : option TransportParams :=
  peer_params (scratch (bridge c)).
Definition local_transport_params (c : Conn) : TransportParams :=
  dwnx_conn_get_local_transport_params (raw c).
Definition timestamp (c : Conn) : Time.Timestamp :=
  Time.ts_from_nanos (dwnx_conn_get_timestamp (raw c)).

Definition read (data : bytes) (now : Time.Timestamp) (c : Conn) :
    Conn * result ReadOutcome QmuxError.Conn.Error :=
  let '(c, rv) := with_bridge (dwnx_conn_read data (Time.ts_as_nanos now)) c in
  if rv =? 0 then (c, Ok Processed)
  else if rv =? DWNX_ERR_DRAINING then (c, Ok PeerClosed)
  else fail_with rv "reading inbound bytes" c.

Definition open_stream (open : native_call dwnx_conn (Z * Z)) (context : string) (c : Conn) :
    Conn * result OpenOutcome QmuxError.Conn.Error :=
  let '(c, (rv, sid)) := with_bridge open c in
  if rv =? 0 then
    (c, let? id := Stream.new sid in Ok (Opened id))
  else if rv =? DWNX_ERR_STREAM_ID_BLOCKED then (c, Ok OpenBlocked)
  else fail_with rv context c.

Definition open_bidi_stream (c : Conn) :=
  open_stream dwnx_conn_open_bidi_stream "opening a bidi stream" c.
Definition open_uni_stream (c : Conn) :=
  open_stream dwnx_conn_open_uni_stream "opening a uni stream" c.

Definition unit_result (context : string) (r : Conn * Z) :
    Conn * result unit QmuxError.Conn.Error :=
  let '(c, rv) := r in
  if rv =? 0 then (c, Ok ()) else fail_with rv context c.

Definition shutdown_stream (s : StreamId) (half : Shutdown) (code : Z) (c : Conn) :=
  let id := Stream.get s in
  unit_result "shutting down a stream"
    (with_bridge
      match half with
      | ShutRead => dwnx_conn_shutdown_stream_read 0 id code
      | ShutWrite => dwnx_conn_shutdown_stream_write 0 id code
      | ShutBoth => dwnx_conn_shutdown_stream 0 id code
      end c).

Definition extend_max_stream_data (s : StreamId) (n : Z) (c : Conn) :=
  unit_result "extending a stream window"
    (with_bridge (dwnx_conn_extend_max_stream_offset (Stream.get s) n) c).

Definition extend_max_data (n : Z) (c : Conn) : Conn :=
  (with_bridge (dwnx_conn_extend_max_offset n) c).1.
Definition extend_max_streams_bidi (n : Z) (c : Conn) : Conn :=
  (with_bridge (dwnx_conn_extend_max_streams_bidi n) c).1.
Definition extend_max_streams_uni (n : Z) (c : Conn) : Conn :=
  (with_bridge (dwnx_conn_extend_max_streams_uni n) c).1.

Definition streams_bidi_left (c : Conn) : Z := dwnx_conn_get_streams_bidi_left (raw c).
Definition streams_uni_left (c : Conn) : Z := dwnx_conn_get_streams_uni_left (raw c).
Definition max_data_left (c : Conn) : Z := dwnx_conn_get_max_data_left (raw c).
Definition is_local_stream (s : StreamId) (c : Conn) : bool :=
  negb (dwnx_conn_is_local_stream (raw c) (Stream.get s) =? 0).
End Ops.
End ConnOps.

(** ** What the C library documents: an entry point touches Rust state only by calling back *)

Definition calls_back_only {C R} (f : native_call C R) : Prop :=
  ∀ (B : Type) (cb : B → native_callback → B * Z) (P : B → Prop),
    (∀ b k, P b → P (cb b k).1) → ∀ c b, P b → P (f B cb c b).1.2.

Class DwnxLaws `{Dwnx} := {
  read_calls : ∀ d n, calls_back_only (dwnx_conn_read d n);
  writev_calls : ∀ b fl s v n, calls_back_only (dwnx_conn_writev_stream b fl s v n);
  write_calls : ∀ b fl s d n, calls_back_only (dwnx_conn_write_stream b fl s d n);
  open_bidi_calls : calls_back_only dwnx_conn_open_bidi_stream;
  open_uni_calls : calls_back_only dwnx_conn_open_uni_stream;
  shutdown_read_calls : ∀ f i e, calls_back_only (dwnx_conn_shutdown_stream_read f i e);
  shutdown_write_calls : ∀ f i e, calls_back_only (dwnx_conn_shutdown_stream_write f i e);
  shutdown_calls : ∀ f i e, calls_back_only (dwnx_conn_shutdown_stream f i e);
  extend_stream_calls : ∀ i n, calls_back_only (dwnx_conn_extend_max_stream_offset i n);
  extend_data_calls : ∀ n, calls_back_only (dwnx_conn_extend_max_offset n);
  extend_bidi_calls : ∀ n, calls_back_only (dwnx_conn_extend_max_streams_bidi n);
  extend_uni_calls : ∀ n, calls_back_only (dwnx_conn_extend_max_streams_uni n)
}.
#[export] Hint Resolve read_calls writev_calls write_calls open_bidi_calls open_uni_calls
  shutdown_read_calls shutdown_write_calls shutdown_calls extend_stream_calls
  extend_data_calls extend_bidi_calls extend_uni_calls : ngnet.

Section CallbackFacts.
Context `{Dwnx} {U : Type}.
Implicit Type h : Handlers U.

(** A predicate on the caller's state that every handler preserves. *)
Definition handler_preserves {A} (P : U → Prop) (f : Handler U A) : Prop :=
  ∀ g a u, f = Some g → P u → P (g a u).1.

Definition handlers_preserve (P : U → Prop) h : Prop :=
  handler_preserves P (recv_transport_params h) ∧
  handler_preserves P (recv_stream_data h) ∧
  handler_preserves P (stream_open h) ∧ handler_preserves P (stream_close h) ∧
  handler_preserves P (stream_reset h) ∧ handler_preserves P (stream_stop_sending h) ∧
  handler_preserves P (recv_stop_sending h) ∧
  handler_preserves P (extend_max_stream_data h) ∧
  handler_preserves P (extend_max_streams h).

(** What [dispatch] does with an invocation, whatever the handler. *)
Definition dispatched (P : U → Prop) (b b' : Bridge U) (code : Z) : Prop :=
  slot b' = slot b ∧ (P (user b) → P (user b')) ∧
  (slot b = false → b' = b ∧ code = 0) ∧
  (code = 0 ∧ handler_error (scratch b') = handler_error (scratch b) ∨
   code = DWNX_ERR_CALLBACK_FAILURE ∧ is_Some (handler_error (scratch b'))).

Lemma dispatch_spec (P : U → Prop) b f :
  (∀ u s, P u → P (f u s).1.1) →
  (∀ u s, handler_error (f u s).1.2 = handler_error s) →
  dispatched P b (Callbacks.dispatch false b f).1 (Callbacks.dispatch false b f).2.
Proof.
  intros HP Hs. unfold Callbacks.dispatch, dispatched.
  destruct b as [[] u s]; simpl.
  - specialize (HP u s). specialize (Hs u s).
    destruct (f u s) as [[u' s'] [[]|e]]; simpl in *;
      (split; [done|]); (split; [done|]); (split; [done|]); eauto.
  - split; [done|]. split; [done|]. split; [done|]. by left.
Qed.

Lemma invoke_user {A} (P : U → Prop) (f : Handler U A) arg u s :
  handler_preserves P f → P u → P (Callbacks.invoke f arg u s).1.1.
Proof.
  intros Hf Hu. unfold Callbacks.invoke. destruct f as [g|]; [|done].
  destruct arg as [a|e]; [|done]. specialize (Hf g a u eq_refl Hu).
  by destruct (g a u).
Qed.

Lemma invoke_scratch {A} (f : Handler U A) arg u s :
  (Callbacks.invoke f arg u s).1.2 = s.
Proof.
  unfold Callbacks.invoke. destruct f; [|done]. destruct arg; [|done]. by case_match.
Qed.

Lemma callbacks_dispatched (P : U → Prop) h b k :
  handlers_preserve P h →
  dispatched P b (Callbacks.callbacks h b k).1 (Callbacks.callbacks h b k).2.
Proof.
  intros (?&?&?&?&?&?&?&?&?).
  destruct k as [[params|]| | | | | | | | | | |]; apply dispatch_spec; intros; simpl;
    first [ by apply invoke_user | by rewrite invoke_scratch | done | idtac ].
Qed.

Lemma with_bridge_user (P : U → Prop) {R} (f : native_call dwnx_conn R) c :
  calls_back_only f → handlers_preserve P (handlers c) →
  P (user (bridge c)) → P (user (bridge (ConnOps.with_bridge f c).1)).
Proof.
  intros Hf Hh Hu. unfold ConnOps.with_bridge.
  set (b0 := mkBridge _ _ _).
  pose proof (Hf _ (Callbacks.callbacks (handlers c)) (λ b, P (user b))
    (λ b k Hb, proj1 (proj2 (callbacks_dispatched P (handlers c) b k Hh)) Hb)
    (raw c) b0 Hu) as HP.
  by destruct (f _ _ _ b0) as [[raw' b'] r'].
Qed.

Lemma with_bridge_slot {R} (f : native_call dwnx_conn R) (c : Conn dwnx_conn U) :
  let c' := (ConnOps.with_bridge f c).1 in
  slot (bridge c') = false ∧ role c' = role c ∧ handlers c' = handlers c.
Proof. unfold ConnOps.with_bridge. by repeat case_match. Qed.

Lemma with_bridge_fresh {R} (f : native_call dwnx_conn R) (c : Conn dwnx_conn U) e :
  ConnOps.with_bridge f (ConnOps.set_handler_error e c) = ConnOps.with_bridge f c.
Proof. done. Qed.

Lemma error_from_conn rv ctx (c : Conn dwnx_conn U) :
  let c' := (ConnOps.error_from rv ctx c).1 in
  raw c' = raw c ∧ role c' = role c ∧ handlers c' = handlers c ∧
  slot (bridge c') = slot (bridge c) ∧ user (bridge c') = user (bridge c) ∧
  peer_params (scratch (bridge c')) = peer_params (scratch (bridge c)).
Proof. unfold ConnOps.error_from, ConnOps.set_handler_error. by repeat case_match. Qed.

Lemma error_from_native rv ctx (c : Conn dwnx_conn U) :
  let e := (ConnOps.error_from rv ctx c).2 in
  QmuxError.Conn.native e = Some rv ∧
  QmuxError.Conn.kind e = QmuxError.Conn.classify rv ∧
  QmuxError.Conn.usable e = QmuxError.Conn.leaves_connection_usable rv.
Proof. unfold ConnOps.error_from, QmuxError.Conn.from_native. by repeat case_match. Qed.
End CallbackFacts.

(** ** Theorems *)

Section Theorems.
Context `{Dwnx} {U : Type}.

(** The stream id a callback names, when it names one. *)
Definition callback_stream (k : native_callback) : option Z :=
  match k with
  | CbRecvStreamData _ sid _ _ | CbStreamOpen sid | CbStreamClose _ sid _ _
  | CbStreamReset sid _ _ | CbStreamStopSending sid _ | CbRecvStopSending sid _
  | CbExtendMaxStreamData sid _ => Some sid
  | _ => None
  end.

Lemma stream_id_refused sid : is_ok (Callbacks.stream_id sid) = false ↔ ¬ 0 ≤ sid ≤ Stream.MAX.
Proof.
  unfold Callbacks.stream_id, Stream.new.
  destruct (Z.ltb_spec sid 0), (Z.ltb_spec Stream.MAX sid); simpl; split; done || lia.
Qed.

Lemma dispatch_refused {A} (f : Handler U A) e (b : Bridge U) :
  user (Callbacks.dispatch false b (Callbacks.invoke f (Err e))).1 = user b.
Proof.
  unfold Callbacks.dispatch, Callbacks.invoke. destruct b as [[] u s], f; done.
Qed.

Lemma peer_params_dispatch {A} (f : Handler U A) arg (b : Bridge U) :
  peer_params (scratch (Callbacks.dispatch false b (Callbacks.invoke f arg)).1)
  = peer_params (scratch b).
Proof.
  unfold Callbacks.dispatch, Callbacks.invoke. destruct b as [[] u s]; [|done].
  simpl. destruct f as [g|]; [|done]. destruct arg as [a|]; [|done].
  by destruct (g a u) as [u' []].
Qed.

(** What every trampoline promises the C library and the caller.  With no entry
    point active it reports success and touches nothing.  Otherwise it never uninstalls
    the bridge; it answers 0 and leaves the stashed error alone, or answers
    [DWNX_ERR_CALLBACK_FAILURE] with an error stashed, and nothing else; a callback that
    names a stream id outside [0, 2^62) never reaches a handler; and the peer's transport
    parameters are recorded by their own callback, handler or not, and by no other. *)
Theorem callback_contract (h : Handlers U) (b : Bridge U) k :
  let b' := (Callbacks.callbacks h b k).1 in
  let code := (Callbacks.callbacks h b k).2 in
  (slot b = false → b' = b ∧ code = 0) ∧
  slot b' = slot b ∧
  (code = 0 ∧ handler_error (scratch b') = handler_error (scratch b) ∨
   code = DWNX_ERR_CALLBACK_FAILURE ∧ is_Some (handler_error (scratch b'))) ∧
  (∀ sid, callback_stream k = Some sid → ¬ 0 ≤ sid ≤ Stream.MAX → user b' = user b) ∧
  peer_params (scratch b') =
    match k with
    | CbRecvTransportParams (Some p) =>
        if slot b then Some p else peer_params (scratch b)
    | _ => peer_params (scratch b)
    end.
Proof.
  intros b' code.
  assert (Hh : handlers_preserve (λ _ : U, True) h)
    by (repeat split; by intros ????).
  destruct (callbacks_dispatched _ h b k Hh) as (Hs & _ & Hi & Hc).
  split; [exact Hi|]. split; [exact Hs|]. split; [exact Hc|]. split.
  - intros sid Hk Hsid. apply stream_id_refused in Hsid.
    destruct k; simplify_eq/=;
      unfold b'; simpl;
      unfold Callbacks.on_recv_stream_data, Callbacks.on_stream_open,
        Callbacks.on_stream_close, Callbacks.on_stream_reset,
        Callbacks.on_stream_stop_sending, Callbacks.on_recv_stop_sending,
        Callbacks.on_extend_max_stream_data;
      destruct (Callbacks.stream_id sid); try done; apply dispatch_refused.
  - unfold b'. destruct k as [[p|]| | | | | | | | | | |]; try apply peer_params_dispatch.
    + destruct b as [[] u s]; [|done]. simpl.
      unfold Callbacks.on_recv_transport_params, Callbacks.dispatch, Callbacks.invoke.
      simpl. destruct (recv_transport_params h) as [g|]; [|done].
      by destruct (g p u) as [u' []].
    + by destruct b as [[] u s].
Qed.

(** The entry points that change the connection, with their outcome reduced to success
    or error. *)
Inductive entry :=
| EnRead (data : bytes) (now : Time.Timestamp)
| EnOpenBidi | EnOpenUni
| EnShutdown (s : StreamId) (half : Shutdown) (code : Z)
| EnExtendStream (s : StreamId) (n : Z)
| EnExtendData (n : Z) | EnExtendBidi (n : Z) | EnExtendUni (n : Z).

Definition forget {A} (r : Conn dwnx_conn U * result A QmuxError.Conn.Error) :
    Conn dwnx_conn U * result unit QmuxError.Conn.Error :=
  (r.1, match r.2 with Ok _ => Ok () | Err e => Err e end).

Definition run_entry (e : entry) (c : Conn dwnx_conn U) :
    Conn dwnx_conn U * result unit QmuxError.Conn.Error :=
  match e with
  | EnRead d n => forget (ConnOps.read d n c)
  | EnOpenBidi => forget (ConnOps.open_bidi_stream c)
  | EnOpenUni => forget (ConnOps.open_uni_stream c)
  | EnShutdown s h code => ConnOps.shutdown_stream s h code c
  | EnExtendStream s n => ConnOps.extend_max_stream_data s n c
  | EnExtendData n => (ConnOps.extend_max_data n c, Ok ())
  | EnExtendBidi n => (ConnOps.extend_max_streams_bidi n c, Ok ())
  | EnExtendUni n => (ConnOps.extend_max_streams_uni n c, Ok ())
  end.

(** The state a connection keeps outside the C library, as an entry point leaves it. *)
Definition settled (P : U → Prop) (c c' : Conn dwnx_conn U) : Prop :=
  slot (bridge c') = false ∧ role c' = role c ∧ handlers c' = handlers c ∧
  (P (user (bridge c)) → P (user (bridge c'))).

Lemma settled_bridge (P : U → Prop) {R} (f : native_call dwnx_conn R) c :
  calls_back_only f → handlers_preserve P (handlers c) →
  settled P c (ConnOps.with_bridge f c).1.
Proof.
  intros Hf Hh. destruct (with_bridge_slot f c) as (?&?&?).
  repeat split; try done. by apply with_bridge_user.
Qed.

Lemma settled_fail {A} (P : U → Prop) (c c1 : Conn dwnx_conn U) rv ctx :
  settled P c c1 → settled P c (ConnOps.fail_with (A:=A) rv ctx c1).1.
Proof.
  intros (Hs & Hr & Hh & HP). unfold ConnOps.fail_with.
  pose proof (error_from_conn rv ctx c1) as (_ & Hr' & Hh' & Hs' & Hu' & _).
  destruct (ConnOps.error_from rv ctx c1) as [c2 e]. simpl in *.
  unfold settled. rewrite Hs', Hr', Hh', Hu'. done.
Qed.

Lemma fail_with_native {A} rv ctx (c : Conn dwnx_conn U) e :
  (ConnOps.fail_with (A:=A) rv ctx c).2 = Err e →
  QmuxError.Conn.native e = Some rv ∧
  QmuxError.Conn.kind e = QmuxError.Conn.classify rv ∧
  QmuxError.Conn.usable e = QmuxError.Conn.leaves_connection_usable rv.
Proof.
  unfold ConnOps.fail_with. pose proof (error_from_native rv ctx c) as He.
  destruct (ConnOps.error_from rv ctx c) as [c2 e2]. simpl in *. by intros [= <-].
Qed.

Lemma settled_read (P : U → Prop) `{!DwnxLaws} d n c :
  handlers_preserve P (handlers c) → settled P c (ConnOps.read d n c).1.
Proof.
  intros Hh. unfold ConnOps.read.
  pose proof (settled_bridge P (dwnx_conn_read d (Time.ts_as_nanos n)) c
                ltac:(auto with ngnet) Hh) as Hb.
  destruct (ConnOps.with_bridge _ c) as [c1 rv]; simpl in Hb.
  repeat case_match; try done. by apply settled_fail.
Qed.

Lemma settled_open (P : U → Prop) open ctx c :
  calls_back_only open → handlers_preserve P (handlers c) →
  settled P c (ConnOps.open_stream open ctx c).1.
Proof.
  intros Ho Hh. unfold ConnOps.open_stream.
  pose proof (settled_bridge P open c Ho Hh) as Hb.
  destruct (ConnOps.with_bridge _ c) as [c1 [rv sid]]; simpl in Hb.
  destruct (rv =? 0); [done|]. destruct (rv =? _); [done|]. by apply settled_fail.
Qed.

Lemma settled_unit (P : U → Prop) ctx f c :
  calls_back_only f → handlers_preserve P (handlers c) →
  settled P c (ConnOps.unit_result ctx (ConnOps.with_bridge f c)).1.
Proof.
  intros Hf Hh. unfold ConnOps.unit_result.
  pose proof (settled_bridge P f c Hf Hh) as Hb.
  destruct (ConnOps.with_bridge _ c) as [c1 rv]; simpl in Hb.
  destruct (rv =? 0); [done|]. by apply settled_fail.
Qed.

Lemma settled_shutdown (P : U → Prop) `{!DwnxLaws} s half code c :
  handlers_preserve P (handlers c) → settled P c (ConnOps.shutdown_stream s half code c).1.
Proof.
  intros Hh. unfold ConnOps.shutdown_stream. apply settled_unit; [|done].
  destruct half; auto with ngnet.
Qed.

Lemma run_entry_settled (P : U → Prop) `{!DwnxLaws} e c :
  handlers_preserve P (handlers c) → settled P c (run_entry e c).1.
Proof.
  intros Hh. destruct e; simpl;
    first [ by apply settled_read | apply settled_open; auto with ngnet
          | by apply settled_shutdown | apply settled_unit; auto with ngnet
          | apply settled_bridge; auto with ngnet ].
Qed.

Lemma run_entry_fresh stale e c :
  run_entry e (ConnOps.set_handler_error stale c) = run_entry e c.
Proof. by destruct e. Qed.

(** Every entry point of the state machine, whatever the C library calls back:
    the bridge is gone when it returns (so nothing can reach the handlers between calls),
    the role and the handlers are the connection's own, an invariant of the caller's
    state that each handler preserves is preserved by the whole call, and a handler error
    left over from an earlier call changes nothing, neither the outcome nor the state. *)
Theorem entry_points_settle (P : U → Prop) `{!DwnxLaws} e c :
  handlers_preserve P (handlers c) →
  settled P c (run_entry e c).1 ∧
  ∀ stale, run_entry e (ConnOps.set_handler_error stale c) = run_entry e c.
Proof.
  intros Hh. split; [by apply run_entry_settled | intros stale; apply run_entry_fresh].
Qed.
End Theorems.

(** ** A concrete C library

    It echoes: every entry point reports the stream opening, and a handler failure ends the
    call.  It serves as the witness that the laws can hold. *)
Section Echo.
Definition echo_codes : DwnxCodes := {|
  DWNX_ERR_INVALID_ARGUMENT := -201; DWNX_ERR_NOBUF := -202; DWNX_ERR_PROTO := -203;
  DWNX_ERR_INVALID_STATE := -204; DWNX_ERR_STREAM_ID_BLOCKED := -206;
  DWNX_ERR_STREAM_IN_USE := -207; DWNX_ERR_STREAM_DATA_BLOCKED := -208;
  DWNX_ERR_FLOW_CONTROL := -209; DWNX_ERR_STREAM_LIMIT := -213;
  DWNX_ERR_FINAL_SIZE := -214; DWNX_ERR_REQUIRED_TRANSPORT_PARAM := -217;
  DWNX_ERR_MALFORMED_TRANSPORT_PARAM := -218; DWNX_ERR_TRANSPORT_PARAM := -234;
  DWNX_ERR_FRAME_ENCODING := -219; DWNX_ERR_STREAM_SHUT_WR := -221;
  DWNX_ERR_STREAM_NOT_FOUND := -222; DWNX_ERR_STREAM_STATE := -226;
  DWNX_ERR_CLOSING := -229; DWNX_ERR_DRAINING := -231; DWNX_ERR_IDLE_CLOSE := -241;
  DWNX_ERR_INTERNAL := -501; DWNX_ERR_WRITE_MORE := -240; DWNX_ERR_NOMEM := -502;
  DWNX_ERR_CALLBACK_FAILURE := -503
|}.

Definition echo {R} (ok : R) (fail : Z → R) : native_call nat R :=
  λ B cb n b, let '(b', rv) := cb b (CbStreamOpen (Z.of_nat n)) in
    (S n, b', if rv =? 0 then ok else fail rv).

Definition echo_dwnx : Dwnx := {|
  dwnx_codes := echo_codes;
  dwnx_conn := nat;
  DWNX_STREAM_DATA_FLAG_FIN := 1;
  DWNX_STREAM_CLOSE_FLAG_RX_APP_ERROR_CODE_SET := 1;
  DWNX_STREAM_CLOSE_FLAG_TX_APP_ERROR_CODE_SET := 2;
  DWNX_WRITE_STREAM_FLAG_NONE := 0;
  DWNX_WRITE_STREAM_FLAG_FIN := 2;
  dwnx_transport_params_default := Params.mkParams 0 0 0 0 0 0 0 16382;
  dwnx_settings_default := Settings.mkSettings 0 0;
  dwnx_conn_new := λ _ _ _, (0, Some O);
  dwnx_conn_read := λ d n, echo 0 id;
  dwnx_conn_writev_stream := λ buf fl s v n,
    echo (mkWritev 0 (-1) buf) (λ rv, mkWritev rv (-1) buf);
  dwnx_conn_write_stream := λ buf fl s v n,
    echo (mkWritev 0 (-1) buf) (λ rv, mkWritev rv (-1) buf);
  dwnx_conn_open_bidi_stream := echo (0, 0) (λ rv, (rv, -1));
  dwnx_conn_open_uni_stream := echo (0, 2) (λ rv, (rv, -1));
  dwnx_conn_shutdown_stream_read := λ _ _ _, echo 0 id;
  dwnx_conn_shutdown_stream_write := λ _ _ _, echo 0 id;
  dwnx_conn_shutdown_stream := λ _ _ _, echo 0 id;
  dwnx_conn_extend_max_stream_offset := λ _ _, echo 0 id;
  dwnx_conn_extend_max_offset := λ _, echo () (λ _, ());
  dwnx_conn_extend_max_streams_bidi := λ _, echo () (λ _, ());
  dwnx_conn_extend_max_streams_uni := λ _, echo () (λ _, ());
  dwnx_conn_get_streams_bidi_left := λ _, 100;
  dwnx_conn_get_streams_uni_left := λ _, 100;
  dwnx_conn_get_max_data_left := λ n, Z.of_nat n;
  dwnx_conn_get_timestamp := λ n, Z.of_nat n;
  dwnx_conn_is_server := λ _, 0;
  dwnx_conn_is_local_stream := λ _ s, Z.land s 1;
  dwnx_conn_get_local_transport_params := λ _, Params.mkParams 0 0 0 0 0 0 0 16382
|}.

Lemma echo_calls {R} (ok : R) fail : calls_back_only (echo ok fail).
Proof.
  intros B cb P HP c b Hb. unfold echo.
  specialize (HP b (CbStreamOpen (Z.of_nat c)) Hb). by destruct (cb b _).
Qed.

Lemma echo_laws : @DwnxLaws echo_dwnx.
Proof. constructor; intros; apply echo_calls. Qed.

(** A handler that counts the streams opened and refuses the third. *)
Definition counting : Handlers nat :=
  Handlers.on_stream_open
    (λ _ n, (S n, if decide (n < 2)%nat then Ok () else Err (mkHandlerError "enough")))
    Handlers.new.

Definition counting_conn : Conn nat nat :=
  mkConn O Client (mkBridge false O scratch_default) counting.

Lemma entry_points_settle_witness :
  handlers_preserve (λ n : nat, (0 ≤ n)%nat) (handlers counting_conn) ∧
  @settled echo_dwnx nat (λ n, (0 ≤ n)%nat) counting_conn
    (@run_entry echo_dwnx nat EnOpenBidi counting_conn).1.
Proof.
  assert (Hh : handlers_preserve (λ n : nat, (0 ≤ n)%nat) (handlers counting_conn)).
  { repeat split; intros g a u [= <-] ?; simpl; lia. }
  split; [exact Hh|].
  apply (proj1 (@entry_points_settle echo_dwnx nat (λ n, (0 ≤ n)%nat) echo_laws EnOpenBidi
    counting_conn Hh)).
Defined.
End Echo.
