(* ===== verification/QmuxWrite.v ===== *)
(** * Writing records (crates/ngnet-qmux/src/write.rs)

    The record writer: it borrows the connection and the destination buffer while one
    record is built, one native call per push, and finalises the record when it is finished
    or dropped.  The borrow is explicit here: a writer holds the connection, and
    finishing or dropping it gives the connection back. *)

From Stdlib Require Import ZArith Lia.
From stdpp Require Import base list strings.
From S2P Require Import Prelude Varint CloseCodec QmuxError QmuxTypes QmuxConn.

Definition MIN_USABLE_BUFFER : nat := 3.
Definition MAX_VECTORS : nat := 16.

Record WriteRequest := mkWriteRequest {
  wr_stream : option StreamId; wr_data : bytes; wr_fin : bool
}.

Definition control_only : WriteRequest := mkWriteRequest None [] false.
Definition stream (s : StreamId) (data : bytes) : WriteRequest :=
  mkWriteRequest (Some s) data false.
Definition with_fin (fin : bool) (r : WriteRequest) : WriteRequest :=
  mkWriteRequest (wr_stream r) (wr_data r) fin.

Record VectoredWriteRequest := mkVectored {
  vw_stream : option StreamId; vw_data : list bytes; vw_fin : bool
}.

Module Vectored.
Definition stream (s : StreamId) (data : list bytes) : VectoredWriteRequest :=
  mkVectored (Some s) data false.
Definition with_fin (fin : bool) (r : VectoredWriteRequest) : VectoredWriteRequest :=
  mkVectored (vw_stream r) (vw_data r) fin.
End Vectored.

Inductive Push :=
| PushAccepted (consumed : option nat)
| PushComplete (consumed : option nat)
| StreamBlocked
| StreamClosed.

Inductive Record_ := RecordBytes (bs : bytes) | RecordEmpty | BufferTooSmall.

(** [Record::bytes]. *)
Definition record_bytes (r : Record_) : option bytes :=
  match r with RecordBytes bs => Some bs | RecordEmpty | BufferTooSmall => None end.

Section Writer.
Context `{Dwnx} {U : Type}.
Abbreviation Conn := (QmuxConn.Conn dwnx_conn U).

Record RecordWriter := mkWriter {
  conn : Conn;
  buf : option bytes;
  now : Time.Timestamp;
  len : option nat;
  started : bool;
  too_small : bool
}.

Definition new (c : Conn) (b : bytes) (t : Time.Timestamp) : RecordWriter :=
  mkWriter c (Some b) t None false (bool_decide (length b < MIN_USABLE_BUFFER)%nat).

(** The loop that fills the vector array: empty fragments are dropped, and the walk stops
    at the first fragment past the sixteenth, which makes the list not [whole]. *)
Fixpoint gather (data : list bytes) (count : nat) : list bytes * bool :=
  match data with
  | [] => ([], true)
  | [] :: rest => gather rest count
  | fragment :: rest =>
      if decide (count = MAX_VECTORS) then ([], false)
      else let '(vs, whole) := gather rest (S count) in (fragment :: vs, whole)
  end.

(** [i32::try_from(rv).unwrap_or(DWNX_ERR_INTERNAL)]. *)
Definition narrow (rv : Z) : Z :=
  if (- 2 ^ 31 <=? rv) && (rv <=? 2 ^ 31 - 1) then rv else DWNX_ERR_INTERNAL.

(** [usize::try_from(n).ok()] on a [dwnx_ssize]. *)
Definition usize_of (n : Z) : option nat := if 0 <=? n then Some (Z.to_nat n) else None.

(** What the writer makes of the native call's return value. *)
Definition interpret (rv : Z) (consumed : option nat) (w : RecordWriter)
  : RecordWriter * result Push QmuxError.Conn.Error :=
  let w :=
    if (rv =? DWNX_ERR_STREAM_DATA_BLOCKED) || (rv =? DWNX_ERR_STREAM_SHUT_WR) then w
    else mkWriter (conn w) (buf w) (now w) (len w) true (too_small w) in
  if 0 <? rv then
    match usize_of rv with
    | None =>
        (w, Err (QmuxError.Conn.validation QmuxError.Conn.Internal
                   "dwnx reported an unrepresentable record length"))
    | Some n =>
        (mkWriter (conn w) (buf w) (now w) (Some n) false (too_small w),
         Ok (PushComplete consumed))
    end
  else
    let rv := narrow rv in
    if rv =? 0 then
      (mkWriter (conn w) (buf w) (now w) (Some O) false (too_small w),
       Ok (PushComplete consumed))
    else if rv =? DWNX_ERR_WRITE_MORE then (w, Ok (PushAccepted consumed))
    else if rv =? DWNX_ERR_STREAM_DATA_BLOCKED then (w, Ok StreamBlocked)
    else if rv =? DWNX_ERR_STREAM_SHUT_WR then (w, Ok StreamClosed)
    else
      let '(c, e) := ConnOps.error_from rv "serialising a record" (conn w) in
      (mkWriter c (buf w) (now w) (len w) (started w) (too_small w), Err e).

(** [None] is the panic of [expect] on a buffer that has been taken. *)
Definition push_vectored (request : VectoredWriteRequest) (w : RecordWriter)
  : option (RecordWriter * result Push QmuxError.Conn.Error) :=
  if too_small w || bool_decide (is_Some (len w)) then Some (w, Ok (PushComplete None))
  else
    let '(vectors, whole) := gather (vw_data request) 0 in
    let sid := match vw_stream request with Some s => Stream.get s | None => -1 end in
    let flags := if vw_fin request && whole then DWNX_WRITE_STREAM_FLAG_FIN
                 else DWNX_WRITE_STREAM_FLAG_NONE in
    let! b := buf w in
    let '(c, r) := ConnOps.with_bridge
      (dwnx_conn_writev_stream b flags sid vectors (Time.ts_as_nanos (now w))) (conn w) in
    Some (interpret (wr_rv r) (usize_of (wr_pdatalen r))
            (mkWriter c (Some (wr_buf r)) (now w) (len w) (started w) (too_small w))).

Definition push (request : WriteRequest) (w : RecordWriter)
  : option (RecordWriter * result Push QmuxError.Conn.Error) :=
  push_vectored (mkVectored (wr_stream request) [wr_data request] (wr_fin request)) w.

(** [impl Drop]: an open record is closed with a call that adds nothing.  The borrows of
    the connection and of the buffer end here, so both are given back. *)
Definition drop_writer (w : RecordWriter) : Conn * option bytes :=
  match buf w with
  | None => (conn w, None)
  | Some b =>
      if negb (started w) then (conn w, Some b)
      else
        let '(c, r) := ConnOps.with_bridge
          (dwnx_conn_write_stream b DWNX_WRITE_STREAM_FLAG_NONE (-1) []
             (Time.ts_as_nanos (now w))) (conn w) in
        (c, Some (wr_buf r))
  end.

(** [&buf[..len]]: [None] is the panic of an end past the buffer. *)
Definition slice_to (b : bytes) (n : nat) : option bytes :=
  if decide (n ≤ length b)%nat then Some (take n b) else None.

(** The second component is the destination buffer as the record leaves it. *)
Definition finish (w : RecordWriter)
  : option (Conn * bytes * result Record_ QmuxError.Conn.Error) :=
  if too_small w then
    let '(c, b) := drop_writer w in
    let! b := b in Some (c, b, Ok BufferTooSmall)
  else
    let! (w, r) :=
      match len w with
      | None => push control_only w
      | Some _ => Some (w, Ok (PushComplete None))
      end in
    match r with
    | Err e =>
        let '(c, b) := drop_writer w in
        let! b := b in Some (c, b, Err e)
    | Ok _ =>
        let! b := buf w in
        match len w with
        | Some O | None => Some (conn w, b, Ok RecordEmpty)
        | Some n => let! bs := slice_to b n in Some (conn w, b, Ok (RecordBytes bs))
        end
    end.

Definition record (b : bytes) (t : Time.Timestamp) (c : Conn) : RecordWriter := new c b t.

(** [&remaining[consumed..]]: [None] is the panic of a start past the end. *)
Definition slice_from (b : bytes) (n : nat) : option bytes :=
  if decide (n ≤ length b)%nat then Some (drop n b) else None.

(** The loop of [Conn::write]; [None] is a panic or a loop longer than the fuel.  An
    error drops the writer. *)
Fixpoint write_loop (fuel : nat) (request : WriteRequest) (remaining : bytes)
    (total : nat) (w : RecordWriter)
  : option (RecordWriter * result nat QmuxError.Conn.Error) :=
  match fuel with
  | O => None
  | S fuel =>
      let! (w, r) := push (mkWriteRequest (wr_stream request) remaining (wr_fin request)) w in
      match r with
      | Err e => Some (w, Err e)
      | Ok (PushAccepted consumed) =>
          let consumed := default 0%nat consumed in
          let! remaining := slice_from remaining consumed in
          if decide (remaining = [] ∨ consumed = 0%nat) then Some (w, Ok (total + consumed)%nat)
          else write_loop fuel request remaining (total + consumed) w
      | Ok (PushComplete consumed) => Some (w, Ok (total + default 0 consumed)%nat)
      | Ok StreamBlocked | Ok StreamClosed => Some (w, Ok total)
      end
  end.

Definition write (b : bytes) (request : WriteRequest) (t : Time.Timestamp) (c : Conn)
  : option (Conn * result (Record_ * nat) QmuxError.Conn.Error) :=
  let! (w, r) := write_loop (S (length (wr_data request))) request (wr_data request) 0
                   (record b t c) in
  match r with
  | Err e => Some ((drop_writer w).1, Err e)
  | Ok total =>
      let! (c, _, r) := finish w in
      Some (c, let? rec := r in Ok (rec, total))
  end.
End Writer.
Arguments RecordWriter {_} _.

(** ** What the C library documents about writing *)

(** [accepted c s] is the data of stream [s] the library has packed into records so far;
    [holds c] says that it keeps a pointer into the buffer of an unfinished record. *)
Class DwnxWriteLaws `{Dwnx} := {
  accepted : dwnx_conn → Z → bytes;
  holds : dwnx_conn → bool;
  internal_not_zero : DWNX_ERR_INTERNAL ≠ 0;
  internal_not_blocked : DWNX_ERR_INTERNAL ≠ DWNX_ERR_STREAM_DATA_BLOCKED;
  internal_not_shut : DWNX_ERR_INTERNAL ≠ DWNX_ERR_STREAM_SHUT_WR;
  internal_not_more : DWNX_ERR_INTERNAL ≠ DWNX_ERR_WRITE_MORE;
  (** The record stays inside the buffer. *)
  writev_bounds : ∀ b fl sid vecs now B cb c st,
    let r := (dwnx_conn_writev_stream b fl sid vecs now B cb c st).2 in
    length (wr_buf r) = length b ∧ wr_rv r ≤ Z.of_nat (length b) ∧
    wr_pdatalen r ≤ Z.of_nat (length (concat vecs));
  internal_class : QmuxError.Conn.classify DWNX_ERR_INTERNAL = QmuxError.Conn.Internal;
  (** The count reported is the data taken from the front of the vectors, and a refusal
      that concerns the stream takes none. *)
  writev_accepted : ∀ b fl sid vecs now B cb c st s,
    let '(c', _, r) := dwnx_conn_writev_stream b fl sid vecs now B cb c st in
    accepted c' s = accepted c s ++
      (if decide (s = sid) then take (Z.to_nat (wr_pdatalen r)) (concat vecs) else []);
  writev_refused : ∀ b fl sid vecs now B cb c st,
    let r := (dwnx_conn_writev_stream b fl sid vecs now B cb c st).2 in
    wr_rv r = DWNX_ERR_STREAM_DATA_BLOCKED ∨ wr_rv r = DWNX_ERR_STREAM_SHUT_WR ∨
    wr_rv r < 0 ∧ wr_rv r ≠ DWNX_ERR_WRITE_MORE ∧
      QmuxError.Conn.classify (wr_rv r) = QmuxError.Conn.Stream →
    wr_pdatalen r ≤ 0;
  (** A record is closed by a length, by an empty result or by a call that names no stream;
      a refusal neither opens nor closes one. *)
  writev_closes : ∀ b fl sid vecs now B cb c st,
    let '(c', _, r) := dwnx_conn_writev_stream b fl sid vecs now B cb c st in
    0 ≤ wr_rv r ∨ sid = -1 → holds c' = false;
  writev_refusal_keeps : ∀ b fl sid vecs now B cb c st,
    let '(c', _, r) := dwnx_conn_writev_stream b fl sid vecs now B cb c st in
    wr_rv r = DWNX_ERR_STREAM_DATA_BLOCKED ∨ wr_rv r = DWNX_ERR_STREAM_SHUT_WR →
    holds c' = holds c;
  write_closes : ∀ b now B cb c st,
    let '(c', _, r) := dwnx_conn_write_stream b DWNX_WRITE_STREAM_FLAG_NONE (-1) [] now
                         B cb c st in
    holds c' = false ∧ length (wr_buf r) = length b ∧ ∀ s, accepted c' s = accepted c s
}.

(** The other entry points neither open a record nor leave one open. *)
Definition keeps_closed `{DwnxWriteLaws} {R} (f : native_call dwnx_conn R) : Prop :=
  ∀ B cb c (b : B), holds c = false → holds (f B cb c b).1.1 = false.

Class DwnxIdleLaws `{DwnxWriteLaws} := {
  read_closed : ∀ d n, keeps_closed (dwnx_conn_read d n);
  open_bidi_closed : keeps_closed dwnx_conn_open_bidi_stream;
  open_uni_closed : keeps_closed dwnx_conn_open_uni_stream;
  shutdown_read_closed : ∀ f i e, keeps_closed (dwnx_conn_shutdown_stream_read f i e);
  shutdown_write_closed : ∀ f i e, keeps_closed (dwnx_conn_shutdown_stream_write f i e);
  shutdown_closed : ∀ f i e, keeps_closed (dwnx_conn_shutdown_stream f i e);
  extend_stream_closed : ∀ i n, keeps_closed (dwnx_conn_extend_max_stream_offset i n);
  extend_data_closed : ∀ n, keeps_closed (dwnx_conn_extend_max_offset n);
  extend_bidi_closed : ∀ n, keeps_closed (dwnx_conn_extend_max_streams_bidi n);
  extend_uni_closed : ∀ n, keeps_closed (dwnx_conn_extend_max_streams_uni n);
  (** A new connection has no record open. *)
  new_closed : ∀ r s p rv c, dwnx_conn_new r s p = (rv, Some c) → holds c = false
}.
#[export] Hint Resolve read_closed open_bidi_closed open_uni_closed shutdown_read_closed
  shutdown_write_closed shutdown_closed extend_stream_closed extend_data_closed
  extend_bidi_closed extend_uni_closed : ngnet.

(** ** Gathering fragments *)

Lemma gather_spec data count :
  (count ≤ MAX_VECTORS)%nat →
  let vs := (gather data count).1 in
  let whole := (gather data count).2 in
  (∃ rest, concat data = concat vs ++ rest ∧ (whole = true → rest = []) ∧
           (whole = false → rest ≠ [])) ∧
  (count + length vs ≤ MAX_VECTORS)%nat ∧ Forall (λ v, v ≠ []) vs.
Proof.
  revert count. induction data as [|[|x f] data IH]; intros count Hc; simpl.
  - split; [by exists [] | split; [lia|constructor]].
  - apply IH, Hc.
  - destruct (decide (count = MAX_VECTORS)) as [->|Hne]; simpl.
    + split; [|split; [unfold MAX_VECTORS; lia|constructor]].
      eexists. split; [reflexivity|]. split; [done|]. intros _ [=].
    + specialize (IH (S count) ltac:(lia)).
      destruct (gather data (S count)) as [vs whole]. simpl in *.
      destruct IH as ((rest & Hr & Ht & Hf) & Hl & Hn).
      split; [|split; [lia | by constructor]].
      exists rest. split; [|done]. simpl. by rewrite Hr, (assoc_L (++)).
Qed.

Section WriterFacts.
Context `{DwnxWriteLaws} {U : Type}.
Implicit Type w : RecordWriter U.

Abbreviation native w := (raw (conn w)).

Definition sid_of (s : option StreamId) : Z :=
  match s with Some s => Stream.get s | None => -1 end.

(** A live writer: the library holds the buffer only if [started] says so, and a closed
    record has a length inside the buffer. *)
Definition live w : Prop :=
  ∃ b, buf w = Some b ∧ (holds (native w) = true → started w = true) ∧
    (∀ n, len w = Some n → (n ≤ length b)%nat ∧ holds (native w) = false) ∧
    (too_small w = true → holds (native w) = false ∧ started w = false).

(** The data count an outcome reports. *)
Definition count (r : result Push QmuxError.Conn.Error) : nat :=
  match r with
  | Ok (PushAccepted c) | Ok (PushComplete c) => default 0%nat c
  | _ => 0%nat
  end.

(** The outcomes whose count is known to be what the library took. *)
Definition tallied (r : result Push QmuxError.Conn.Error) : bool :=
  match r with
  | Ok _ => true
  | Err e => bool_decide (QmuxError.Conn.kind e = QmuxError.Conn.Stream)
  end.

Lemma with_bridge_unfold {R} (f : native_call dwnx_conn R) (c : Conn dwnx_conn U) :
  let b := mkBridge true (user (bridge c)) (mkScratch (peer_params (scratch (bridge c))) None) in
  let out := f (Bridge U) (Callbacks.callbacks (handlers c)) (raw c) b in
  raw (ConnOps.with_bridge f c).1 = out.1.1 ∧ (ConnOps.with_bridge f c).2 = out.2.
Proof. unfold ConnOps.with_bridge. by case_match; case_match. Qed.

Lemma narrow_blocked rv k :
  k ≠ DWNX_ERR_INTERNAL → narrow rv = k → rv = k.
Proof. unfold narrow. intros Hk. case_match; congruence. Qed.

(** What one native call does to a writer with room. *)
Lemma interpret_spec w c0 rv pdatalen n :
  pdatalen ≤ Z.of_nat n →
  (rv = DWNX_ERR_STREAM_DATA_BLOCKED ∨ rv = DWNX_ERR_STREAM_SHUT_WR ∨
   rv < 0 ∧ rv ≠ DWNX_ERR_WRITE_MORE ∧
     QmuxError.Conn.classify rv = QmuxError.Conn.Stream → pdatalen ≤ 0) →
  (0 ≤ rv → holds (native w) = false) →
  (rv = DWNX_ERR_STREAM_DATA_BLOCKED ∨ rv = DWNX_ERR_STREAM_SHUT_WR →
     holds (native w) = holds c0) →
  (holds c0 = true → started w = true) →
  (∀ b, buf w = Some b → rv ≤ Z.of_nat (length b)) →
  len w = None → too_small w = false →
  let w' := (interpret rv (usize_of pdatalen) w).1 in
  let r := (interpret rv (usize_of pdatalen) w).2 in
  native w' = native w ∧ buf w' = buf w ∧ now w' = now w ∧ too_small w' = false ∧
  (is_Some (buf w) → live w') ∧
  (tallied r = true → count r = Z.to_nat pdatalen) ∧ (count r ≤ n)%nat.
Proof.
  intros Hp Href Hclose Hkeep Hst Hbuf Hlen Hts.
  assert (Hcount : default 0%nat (usize_of pdatalen) = Z.to_nat pdatalen).
  { unfold usize_of. destruct (Z.leb_spec 0 pdatalen); simpl; lia. }
  unfold interpret.
  set (w1 := if _ || _ then _ else _).
  assert (Hw1 : conn w1 = conn w ∧ buf w1 = buf w ∧ now w1 = now w ∧ len w1 = None ∧
                too_small w1 = false ∧ (holds (native w) = true → started w1 = true)).
  { unfold w1. destruct (Z.eqb_spec rv DWNX_ERR_STREAM_DATA_BLOCKED) as [E|E]; simpl.
    { repeat split; try done. rewrite Hkeep by auto. exact Hst. }
    destruct (Z.eqb_spec rv DWNX_ERR_STREAM_SHUT_WR) as [E'|E']; simpl.
    { repeat split; try done. rewrite Hkeep by auto. exact Hst. }
    by repeat split. }
  clearbody w1. destruct w1 as [c1 b1 n1 l1 st1 ts1]; simpl in *.
  destruct Hw1 as (-> & -> & -> & -> & -> & Es).
  assert (Hlive : ∀ n0 st, (n0 ≠ None → holds (native w) = false) →
    (holds (native w) = true → st = true) →
    (∀ b k, buf w = Some b → n0 = Some k → (k ≤ length b)%nat) →
    is_Some (buf w) → live (mkWriter (conn w) (buf w) (now w) n0 st false)).
  { intros n0 st Hn Hs Hl [b Hb]. exists b. simpl. rewrite Hb.
    split; [done|]. split; [done|]. split; [|done].
    intros k ->. split; [by eapply Hl|]. by apply Hn. }
  destruct (Z.ltb_spec 0 rv) as [Hpos|Hneg].
  { assert (usize_of rv = Some (Z.to_nat rv)) as ->.
    { unfold usize_of. destruct (Z.leb_spec 0 rv); [done|lia]. }
    simpl. rewrite Hcount. repeat split; try done; [|lia].
    apply Hlive; [intros _; apply Hclose; lia| |].
    - rewrite Hclose by lia. done.
    - intros b k Hb [= <-]. specialize (Hbuf b Hb). lia. }
  destruct (Z.eqb_spec (narrow rv) 0) as [E0|E0].
  { assert (rv = 0) as ->.
    { apply narrow_blocked; [|done]. pose proof internal_not_zero. congruence. }
    simpl. rewrite Hcount. repeat split; try done; [|lia].
    apply Hlive; [intros _; apply Hclose; lia| |].
    - rewrite Hclose by lia. done.
    - intros b k Hb [= <-]. lia. }
  destruct (Z.eqb_spec (narrow rv) DWNX_ERR_WRITE_MORE) as [E1|E1].
  { simpl. rewrite Hcount. repeat split; try done; [|lia].
    by apply Hlive. }
  destruct (Z.eqb_spec (narrow rv) DWNX_ERR_STREAM_DATA_BLOCKED) as [E2|E2].
  { apply narrow_blocked in E2; [|pose proof internal_not_blocked; congruence].
    simpl. repeat split; try done; [by apply Hlive| |lia].
    intros _. specialize (Href (or_introl E2)). lia. }
  destruct (Z.eqb_spec (narrow rv) DWNX_ERR_STREAM_SHUT_WR) as [E3|E3].
  { apply narrow_blocked in E3; [|pose proof internal_not_shut; congruence].
    simpl. repeat split; try done; [by apply Hlive| |lia].
    intros _. specialize (Href (or_intror (or_introl E3))). lia. }
  pose proof (error_from_conn (narrow rv) "serialising a record" (conn w)) as (Er & _).
  pose proof (error_from_native (narrow rv) "serialising a record" (conn w)) as (_ & Ek & _).
  destruct (ConnOps.error_from _ _ (conn w)) as [c1 e1]. simpl in *.
  repeat split; try done; [| |lia].
  2:{ rewrite bool_decide_eq_true, Ek. intros Hc.
    assert (narrow rv = rv) as En.
    { symmetry. apply narrow_blocked; [|done]. intros Hi. rewrite Hi, internal_class in Hc.
      done. }
    rewrite En in *. specialize (Href ltac:(right; right; split; [lia|done])). lia. }
  intros Hb. destruct (Hlive None st1) as (b & Hb1 & Hh & Hl & Ht); try done.
  exists b. simpl in *. by rewrite Er.
Qed.
(** The accounting of one outcome: the bytes of stream [sid] taken so far grew by the
    front of [data] that the outcome counts, and no other stream's did. *)
Definition accounts (n n' : dwnx_conn) (sid : Z) (data : bytes) (k : nat) : Prop :=
  ∀ s, accepted n' s = accepted n s ++ (if decide (s = sid) then take k data else []).

Lemma accounts_0 n sid data : accounts n n sid data 0.
Proof. intros s. case_decide; by rewrite ?app_nil_r. Qed.

Lemma accounts_trans n1 n2 n3 sid data k1 k2 :
  accounts n1 n2 sid data k1 → accounts n2 n3 sid (drop k1 data) k2 →
  accounts n1 n3 sid data (k1 + k2).
Proof.
  intros H1 H2 s. rewrite H2, H1. case_decide; [|by rewrite !app_nil_r].
  by rewrite <-(assoc_L (++)), take_take_drop.
Qed.

Definition same_frame w w' : Prop :=
  now w' = now w ∧ too_small w' = too_small w ∧ length <$> buf w' = length <$> buf w.

(** One push on a live writer. *)
Lemma push_vectored_spec rq w :
  live w →
  ∃ w' r, push_vectored rq w = Some (w', r) ∧ live w' ∧ same_frame w w' ∧
    (count r ≤ length (concat (vw_data rq)))%nat ∧
    (tallied r = true →
       accounts (native w) (native w') (sid_of (vw_stream rq)) (concat (vw_data rq)) (count r)) ∧
    (too_small w = true ∨ is_Some (len w) → w' = w ∧ r = Ok (PushComplete None)) ∧
    (too_small w = false → len w = None → sid_of (vw_stream rq) = -1 →
       holds (native w') = false).
Proof.
  intros Hlive. unfold push_vectored.
  destruct (decide (too_small w = true ∨ is_Some (len w))) as [Hc|Hc].
  { rewrite (proj2 (orb_true_iff _ _)) by (rewrite bool_decide_eq_true; exact Hc).
    exists w, (Ok (PushComplete None)). repeat split; try done; simpl; [lia| |].
    - intros _. apply accounts_0.
    - intros Ht Hl. destruct Hc as [Hc|[? Hc]]; congruence. }
  rewrite (proj2 (orb_false_iff _ _)).
  2:{ rewrite bool_decide_eq_false. split; [|tauto]. destruct (too_small w); tauto. }
  pose proof (gather_spec (vw_data rq) 0 ltac:(unfold MAX_VECTORS; lia)) as Hg.
  destruct (gather (vw_data rq) 0) as [vs whole]. simpl in Hg.
  destruct Hg as ((rest & Hrest & _) & _). 
  destruct Hlive as (b & Hb & Hst & _). rewrite Hb.
  set (fl := if vw_fin rq && whole then _ else _).
  fold (sid_of (vw_stream rq)). set (sid := sid_of (vw_stream rq)).
  pose proof (with_bridge_unfold
    (dwnx_conn_writev_stream b fl sid vs (Time.ts_as_nanos (now w))) (conn w)) as [E1 E2].
  set (b0 := mkBridge _ _ _) in *. set (cb := Callbacks.callbacks (handlers (conn w))) in *.
  pose proof (writev_bounds b fl sid vs (Time.ts_as_nanos (now w)) _ cb (native w) b0)
    as (Hb1 & Hb2 & Hb3).
  pose proof (λ s, writev_accepted b fl sid vs (Time.ts_as_nanos (now w)) _ cb (native w) b0 s)
    as Ha.
  pose proof (writev_refused b fl sid vs (Time.ts_as_nanos (now w)) _ cb (native w) b0) as Hr.
  pose proof (writev_closes b fl sid vs (Time.ts_as_nanos (now w)) _ cb (native w) b0) as Hcl.
  pose proof (writev_refusal_keeps b fl sid vs (Time.ts_as_nanos (now w)) _ cb (native w) b0)
    as Hk.
  destruct (ConnOps.with_bridge _ (conn w)) as [c1 r1].
  destruct (dwnx_conn_writev_stream _ _ _ _ _ _ _ _ _) as [[n1 st1] r1'].
  cbn [fst snd] in *. subst r1'.
  assert (Hts : too_small w = false) by (destruct (too_small w); tauto).
  assert (Hlen : len w = None) by (destruct (len w); [exfalso; eauto|done]).
  set (w0 := mkWriter c1 (Some (wr_buf r1)) (now w) (len w) (started w) (too_small w)).
  destruct (interpret_spec w0 (native w) (wr_rv r1) (wr_pdatalen r1) (length (concat vs)))
    as (I1 & I2 & I3 & I4 & I5 & I6 & I7); simpl; try done.
  { rewrite E1. auto. }
  { by rewrite E1. }
  { intros b' [= <-]. by rewrite Hb1. }
  destruct (interpret (wr_rv r1) (usize_of (wr_pdatalen r1)) w0) as [w' r].
  simpl in *. exists w', r. split; [done|]. split; [eauto|].
  split; [repeat split; [done|congruence|by rewrite I2, Hb; simpl; rewrite Hb1]|].
  split; [rewrite Hrest, length_app; lia|]. split.
  - intros Hok s. specialize (Ha s). rewrite I1, E1, Ha, I6 by done.
    case_decide; [|done]. rewrite Hrest, take_app_le by lia. done.
  - split; [intros [?|?]; [congruence|tauto]|]. intros _ _ Hsid.
    rewrite I1, E1. apply Hcl. by right.
Qed.

Lemma live_new c b t : holds (raw c) = false → live (new c b t).
Proof.
  intros Hc. exists b. simpl. rewrite Hc. by repeat split.
Qed.

(** Dropping a live writer closes the record and takes no data. *)
Lemma drop_writer_spec w :
  live w →
  ∃ c b, drop_writer w = (c, Some b) ∧ holds (raw c) = false ∧
    length <$> buf w = Some (length b) ∧
    (∀ s, accepted (raw c) s = accepted (native w) s).
Proof.
  intros (b & Hb & Hst & _). unfold drop_writer. rewrite Hb.
  destruct (started w) eqn:Es; simpl.
  - set (f := dwnx_conn_write_stream _ _ _ _ _).
    destruct (with_bridge_unfold f (conn w)) as [E1 E2].
    set (b0 := mkBridge _ _ _) in *. set (cb := Callbacks.callbacks _) in *.
    pose proof (write_closes b (Time.ts_as_nanos (now w)) _ cb (native w) b0) as Hl.
    fold f in Hl. destruct (f _ cb (native w) b0) as [[n1 st1] r1].
    destruct (ConnOps.with_bridge f (conn w)) as [c r]. simpl in *. subst r.
    exists c, (wr_buf r1). rewrite E1. destruct Hl as (?&?&?). repeat split; congruence.
  - exists (conn w), b. repeat split; try done.
    destruct (holds (native w)); [by specialize (Hst eq_refl)|done].
Qed.

Lemma finish_spec w :
  live w →
  ∃ c b r, finish w = Some (c, b, r) ∧ holds (raw c) = false ∧
    length <$> buf w = Some (length b) ∧
    (is_ok r = true → ∀ s, accepted (raw c) s = accepted (native w) s) ∧
    (∀ bs, r = Ok (RecordBytes bs) →
       (0 < length bs ≤ length b)%nat ∧ bs = take (length bs) b).
Proof.
  intros Hlive. unfold finish. destruct (too_small w) eqn:Ets.
  { destruct (drop_writer_spec w Hlive) as (c & b & -> & ? & ? & ?). by eexists _, _, _. }
  set (pushed := match len w with None => _ | Some _ => _ end).
  assert (∃ w' r, pushed = Some (w', r) ∧ live w' ∧ length <$> buf w' = length <$> buf w ∧
            (∀ s, is_ok r = true → accepted (native w') s = accepted (native w) s) ∧
            holds (native w') = false) as (w' & r & -> & Hlive' & Hlen & Hacc & Hh).
  { unfold pushed. destruct (len w) as [n|] eqn:El.
    - exists w, (Ok (PushComplete None)). repeat split; try done.
      destruct Hlive as (b & _ & _ & Hn & _). by apply (Hn n).
    - destruct (push_vectored_spec (mkVectored None [[]] false) w Hlive)
        as (w' & r & Hp & Hl & (_ & _ & Hb) & _ & Ha & _ & Hh).
      exists w', r. split; [exact Hp|]. split; [done|]. split; [done|].
      split; [|by apply Hh]. intros s Hok. rewrite (Ha ltac:(by destruct r) s). simpl.
      rewrite take_nil. case_decide; by rewrite app_nil_r. }
  destruct r as [p|e].
  2:{ destruct (drop_writer_spec w' Hlive') as (c & b & -> & ? & ? & _).
      eexists _, _, _. split; [done|]. split; [done|]. split; [congruence|done]. }
  destruct Hlive' as (b & Hb & _ & Hn & _). rewrite Hb in *. rewrite <-Hlen.
  destruct (len w') as [[|n]|] eqn:El; [| |].
  - eexists _, _, _. do 3 (split; [done|]). split; [intros _ s; by apply Hacc|done].
  - destruct (Hn (S n) eq_refl) as [Hle _]. unfold slice_to.
    destruct (decide (S n ≤ length b)%nat); [|done].
    eexists _, _, _. do 3 (split; [done|]). split; [intros _ s; by apply Hacc|].
    intros bs [= <-]. rewrite length_take, Nat.min_l by lia. split; [lia|done].
  - eexists _, _, _. do 3 (split; [done|]). split; [intros _ s; by apply Hacc|done].
Qed.

(** Any sequence of pushes; the caller may go on after an error or a refusal. *)
Fixpoint push_all (rqs : list VectoredWriteRequest) w : option (RecordWriter U) :=
  match rqs with
  | [] => Some w
  | rq :: rqs => let! (w, _) := push_vectored rq w in push_all rqs w
  end.

Lemma push_all_live rqs w :
  live w → ∃ w', push_all rqs w = Some w' ∧ live w' ∧ same_frame w w'.
Proof.
  revert w. induction rqs as [|rq rqs IH]; intros w Hw; simpl.
  { exists w. by repeat split. }
  destruct (push_vectored_spec rq w Hw) as (w1 & r & -> & Hw1 & (Hn1 & Ht1 & Hb1) & _).
  destruct (IH w1 Hw1) as (w2 & -> & Hw2 & (Hn2 & Ht2 & Hb2)).
  exists w2. split; [done|]. split; [done|]. repeat split; congruence.
Qed.

(** C6.  The C library never keeps a pointer into a buffer the caller has got back.
    Whatever pushes are made on a record, in whatever order and with whatever outcomes,
    no push panics; finishing the record, and dropping it instead, both leave the library
    without an open record; and a finished record is a non-empty slice that fits the
    buffer it was built in. *)
Theorem no_record_left_open (c : Conn dwnx_conn U) b t rqs :
  holds (raw c) = false →
  ∃ w, push_all rqs (record b t c) = Some w ∧
    holds (raw (drop_writer w).1) = false ∧
    ∃ c' b' r, finish w = Some (c', b', r) ∧ holds (raw c') = false ∧
      length b' = length b ∧
      ∀ bs, r = Ok (RecordBytes bs) →
        (0 < length bs ≤ length b)%nat ∧ bs = take (length bs) b'.
Proof.
  intros Hc. destruct (push_all_live rqs _ (live_new c b t Hc)) as (w & Hw & Hl & _ & _ & Hb).
  exists w. split; [exact Hw|].
  split; [destruct (drop_writer_spec w Hl) as (? & ? & -> & ? & _); done|].
  destruct (finish_spec w Hl) as (c' & b' & r & Hf & Hh & Hb' & _ & Hlen).
  rewrite Hb in Hb'. simplify_eq/=.
  exists c', b', r. split; [done|]. split; [done|]. split; [done|]. intros bs Hr.
  destruct (Hlen bs Hr) as (? & ?). split; [lia|done].
Qed.

(** The loop of [write]: with fuel for every byte still to offer it ends, without a
    panic, and counts exactly the bytes the library took. *)
Lemma write_loop_spec fuel rq remaining total w :
  live w → (length remaining < fuel)%nat →
  ∃ w' r, write_loop fuel rq remaining total w = Some (w', r) ∧ live w' ∧ same_frame w w' ∧
    ∀ n, r = Ok n →
      (total ≤ n ≤ total + length remaining)%nat ∧
      accounts (native w) (native w') (sid_of (wr_stream rq)) remaining (n - total).
Proof.
  revert remaining total w. induction fuel as [|fuel IH]; intros remaining total w Hw Hf;
    [lia|]. simpl.
  destruct (push_vectored_spec (mkVectored (wr_stream rq) [remaining] (wr_fin rq)) w Hw)
    as (w1 & r & Hp & Hw1 & Hs1 & Hc & Ha & _). unfold push. simpl in *. rewrite Hp.
  rewrite app_nil_r in *.
  destruct r as [p|e]; [|by exists w1, (Err e)].
  specialize (Ha eq_refl).
  destruct p as [k|k| |]; simpl in *.
  - unfold slice_from. destruct (decide (default 0 k ≤ length remaining)%nat); [|lia].
    case_decide as Hd.
    { exists w1, (Ok (total + default 0 k)%nat). split; [done|]. split; [done|].
      split; [done|]. intros n [= <-]. split; [lia|].
      by replace (total + default 0 k - total)%nat with (default 0%nat k) by lia. }
    assert (Hk : default 0%nat k ≠ 0%nat) by tauto.
    destruct (IH (drop (default 0%nat k) remaining) (total + default 0 k)%nat w1 Hw1)
      as (w2 & r2 & -> & Hw2 & Hs2 & Hn2); [rewrite length_drop; lia|].
    exists w2, r2. split; [done|]. split; [done|]. split.
    { destruct Hs1 as (?&?&?), Hs2 as (?&?&?). repeat split; congruence. }
    intros n Hn. destruct (Hn2 n Hn) as [Hb Hacc]. rewrite length_drop in Hb.
    split; [lia|].
    replace (n - total)%nat with (default 0 k + (n - (total + default 0 k)))%nat by lia.
    by eapply accounts_trans.
  - exists w1, (Ok (total + default 0 k)%nat). split; [done|]. split; [done|].
    split; [done|]. intros n [= <-]. split; [lia|].
    by replace (total + default 0 k - total)%nat with (default 0%nat k) by lia.
  - exists w1, (Ok total). do 3 (split; [done|]). intros n [= <-]. split; [lia|].
    by rewrite Nat.sub_diag.
  - exists w1, (Ok total). do 3 (split; [done|]). intros n [= <-]. split; [lia|].
    by rewrite Nat.sub_diag.
Qed.

(**  [Conn::write] always returns: its loop ends within one round per byte offered
    and no slice it takes is out of range.  On success the count it reports is at most the
    payload and is exactly the prefix of the payload that the library put on the named
    stream (nothing skipped, nothing offered twice, no other stream touched), the record
    fits the caller's buffer, and no record is left open; on an error none is left open
    either. *)
Theorem write_accounts b rq t (c : Conn dwnx_conn U) :
  holds (raw c) = false →
  ∃ c' r, write b rq t c = Some (c', r) ∧ holds (raw c') = false ∧
    ∀ rec n, r = Ok (rec, n) →
      (n ≤ length (wr_data rq))%nat ∧
      accounts (raw c) (raw c') (sid_of (wr_stream rq)) (wr_data rq) n ∧
      ∀ bs, record_bytes rec = Some bs → (0 < length bs ≤ length b)%nat.
Proof.
  intros Hc. unfold write.
  destruct (write_loop_spec (S (length (wr_data rq))) rq (wr_data rq) 0 (record b t c)
              (live_new c b t Hc) ltac:(lia)) as (w & r & -> & Hw & (_ & _ & Hb) & Hn).
  destruct r as [n|e].
  2:{ destruct (drop_writer_spec w Hw) as (c' & b' & -> & Hh & _). by eexists _, _. }
  destruct (finish_spec w Hw) as (c' & b' & r & -> & Hh & Hb' & Ha & Hlen).
  rewrite Hb in Hb'. apply (inj Some) in Hb'. cbn in Hb'.
  eexists _, _. split; [done|]. split; [done|]. intros rec m Hr.
  destruct r as [rec'|]; simplify_eq. destruct (Hn _ eq_refl) as [Hle Hacc].
  split; [simpl in *; lia|]. split.
  - intros s. rewrite (Ha eq_refl s), (Hacc s). by rewrite Nat.sub_0_r.
  - intros bs Hbs. destruct rec; simplify_eq/=.
    destruct (Hlen bs eq_refl) as (? & _). lia.
Qed.
End WriterFacts.

(** ** A concrete C library

    Each call packs at most four bytes of stream data, as far as the buffer goes, and asks
    for more; a call with nothing to add closes the record.  It makes no callbacks. *)
Section Toy.
Record toy := mkToy {
  toy_acc : list (Z * byte); toy_cur : nat; toy_role : Role; toy_next : nat
}.

Definition quiet {R} (f : toy → toy * R) : native_call toy R :=
  λ B cb c b, let '(c', r) := f c in (c', b, r).

Definition toy_close (b : bytes) (c : toy) (pd : Z) : toy * writev_result :=
  (mkToy (toy_acc c) 0 (toy_role c) (toy_next c), mkWritev (Z.of_nat (min (toy_cur c) (length b))) pd b).

Definition toy_writev (b : bytes) (fl sid : Z) (vs : list bytes) (now : Z) (c : toy)
  : toy * writev_result :=
  let data := concat vs in
  let k := min 4 (min (length b - toy_cur c) (length data)) in
  if sid =? -1 then toy_close b c (-1)
  else match k with
       | O => toy_close b c 0
       | _ => (mkToy (toy_acc c ++ ((sid,.) <$> take k data)) (toy_cur c + k)
                 (toy_role c) (toy_next c),
               mkWritev (-240) (Z.of_nat k) b)
       end.

Definition toy_bit (c : toy) : Z := match toy_role c with Client => 0 | Server => 1 end.

(** The next id of the kind with this bit. *)
Definition toy_open (kind : Z) (c : toy) : toy * (Z * Z) :=
  (mkToy (toy_acc c) (toy_cur c) (toy_role c) (S (toy_next c)),
   (0, 4 * Z.of_nat (toy_next c) + kind + toy_bit c)).

Definition toy_dwnx : Dwnx := {|
  dwnx_codes := echo_codes;
  dwnx_conn := toy;
  DWNX_STREAM_DATA_FLAG_FIN := 1;
  DWNX_STREAM_CLOSE_FLAG_RX_APP_ERROR_CODE_SET := 1;
  DWNX_STREAM_CLOSE_FLAG_TX_APP_ERROR_CODE_SET := 2;
  DWNX_WRITE_STREAM_FLAG_NONE := 0;
  DWNX_WRITE_STREAM_FLAG_FIN := 2;
  dwnx_transport_params_default := Params.mkParams 0 0 0 0 0 0 0 16382;
  dwnx_settings_default := Settings.mkSettings 0 0;
  dwnx_conn_new := λ r _ _, (0, Some (mkToy [] 0 r 0));
  dwnx_conn_read := λ d n, quiet (λ c, (c, 0));
  dwnx_conn_writev_stream := λ b fl s v n, quiet (toy_writev b fl s v n);
  dwnx_conn_write_stream := λ b fl s d n, quiet (λ c, toy_close b c (-1));
  dwnx_conn_open_bidi_stream := quiet (toy_open 0);
  dwnx_conn_open_uni_stream := quiet (toy_open 2);
  dwnx_conn_shutdown_stream_read := λ _ _ _, quiet (λ c, (c, 0));
  dwnx_conn_shutdown_stream_write := λ _ _ _, quiet (λ c, (c, 0));
  dwnx_conn_shutdown_stream := λ _ _ _, quiet (λ c, (c, 0));
  dwnx_conn_extend_max_stream_offset := λ _ _, quiet (λ c, (c, 0));
  dwnx_conn_extend_max_offset := λ _, quiet (λ c, (c, ()));
  dwnx_conn_extend_max_streams_bidi := λ _, quiet (λ c, (c, ()));
  dwnx_conn_extend_max_streams_uni := λ _, quiet (λ c, (c, ()));
  dwnx_conn_get_streams_bidi_left := λ _, 100;
  dwnx_conn_get_streams_uni_left := λ _, 100;
  dwnx_conn_get_max_data_left := λ _, 1000;
  dwnx_conn_get_timestamp := λ _, 0;
  dwnx_conn_is_server := toy_bit;
  dwnx_conn_is_local_stream := λ _ s, Z.land s 1;
  dwnx_conn_get_local_transport_params := λ _, Params.mkParams 0 0 0 0 0 0 0 16382
|}.

Lemma toy_dwnx_laws : @DwnxLaws toy_dwnx.
Proof.
  constructor; intros; intros B cb P HP c0 b0 Hb; simpl; unfold quiet; try done.
  by destruct (toy_writev _ _ _ _ _ _).
Qed.

Definition toy_accepted (c : toy) (s : Z) : bytes :=
  snd <$> filter (λ p, p.1 = s) (toy_acc c).

Lemma filter_tagged (s sid : Z) (data : bytes) :
  snd <$> filter (λ p : Z * byte, p.1 = s) ((sid,.) <$> data)
  = if decide (s = sid) then data else [].
Proof.
  induction data as [|x data IH]; [by case_decide|].
  rewrite fmap_cons, filter_cons. cbn [fst].
  destruct (decide (sid = s)) as [->|Hn].
  - rewrite fmap_cons, IH. by rewrite !decide_True by done.
  - rewrite IH. by rewrite !decide_False by congruence.
Qed.

Definition toy_write_laws : @DwnxWriteLaws toy_dwnx.
Proof.
  refine {| accepted := toy_accepted : @dwnx_conn toy_dwnx → _;
            holds := (λ c : toy, bool_decide (toy_cur c ≠ 0%nat))
                     : @dwnx_conn toy_dwnx → bool |};
    try discriminate; try reflexivity; cbn [dwnx_conn_writev_stream dwnx_conn_write_stream toy_dwnx];
    unfold quiet; intros.
  - unfold toy_writev, toy_close. destruct (Z.eqb_spec sid (-1)).
    + cbn -[concat]. lia.
    + destruct (min 4 _) eqn:E; cbn -[concat]; lia.
  - unfold toy_writev, toy_close, toy_accepted. destruct (Z.eqb_spec sid (-1)).
    + cbn. case_decide; by rewrite ?take_0, app_nil_r.
    + destruct (min 4 _) as [|k]; [cbn; case_decide; by rewrite ?take_0, app_nil_r|].
      cbn -[take concat]. rewrite filter_app, fmap_app, filter_tagged. f_equal.
      case_decide; [|done]. f_equal. lia.
  - unfold toy_writev, toy_close in *. destruct (Z.eqb_spec sid (-1)).
    + cbn. lia.
    + destruct (min 4 _) eqn:E; cbn in *; lia.
  - unfold toy_writev, toy_close in *. destruct (Z.eqb_spec sid (-1)).
    + done.
    + destruct (min 4 _); cbn; [done|lia].
  - unfold toy_writev, toy_close in *. destruct (Z.eqb_spec sid (-1)).
    + cbn. lia.
    + destruct (min 4 _); cbn; lia.
  - by split.
Defined.

Definition toy_idle_laws : @DwnxIdleLaws toy_dwnx toy_write_laws.
Proof.
  constructor; try (intros; intros B cb c0 b0 Hb; exact Hb).
  by intros r s p rv c [= _ <-].
Defined.

Definition toy_conn : Conn toy unit :=
  mkConn (mkToy [] 0 Client 0) Client (mkBridge false () scratch_default) Handlers.new.

Definition ten_bytes : bytes := Zb <$> seqZ 0 10.

Lemma write_accounts_witness :
  @holds toy_dwnx toy_write_laws (raw toy_conn) = false ∧
  ∃ c' r, @write toy_dwnx unit (replicate 32 Byte.x00)
            (stream (Stream.mkStreamId 0) ten_bytes) (Time.mkTimestamp 0) toy_conn
          = Some (c', r) ∧ @holds toy_dwnx toy_write_laws (raw c') = false.
Proof.
  split; [reflexivity|].
  destruct (@write_accounts toy_dwnx toy_write_laws unit (replicate 32 Byte.x00)
    (stream (Stream.mkStreamId 0) ten_bytes) (Time.mkTimestamp 0) toy_conn eq_refl)
    as (c' & r & Hw & Hh & _).
  exists c', r. split; [exact Hw | exact Hh].
Defined.

Lemma no_record_left_open_witness :
  @holds toy_dwnx toy_write_laws (raw toy_conn) = false ∧
  ∃ w, @push_all toy_dwnx unit
         [Vectored.stream (Stream.mkStreamId 0) [ten_bytes; []; ten_bytes]]
         (record (H:=toy_dwnx) (replicate 32 Byte.x00) (Time.mkTimestamp 0) toy_conn) = Some w ∧
       @holds toy_dwnx toy_write_laws (raw (conn w)) = true ∧
       @holds toy_dwnx toy_write_laws (raw (drop_writer w).1) = false.
Proof.
  split; [reflexivity|].
  destruct (@no_record_left_open toy_dwnx toy_write_laws unit toy_conn
    (replicate 32 Byte.x00) (Time.mkTimestamp 0)
    [Vectored.stream (Stream.mkStreamId 0) [ten_bytes; []; ten_bytes]] eq_refl)
    as (w & Hw & Hd & _).
  exists w. split; [exact Hw|]. split; [|exact Hd].
  vm_compute in Hw. by injection Hw as <-.
Defined.
End Toy.
