(* ===== verification/RecordFramer.v ===== *)
(** * Record framing (crates/ngnet-qmux/src/io/framing.rs)

    The framer that counts record boundaries in a QMux byte stream and latches the
    peer's close, with its specification: cutting the whole stream into records. *)

From Stdlib Require Import ZArith Lia Strings.Byte.
From stdpp Require Import base list strings numbers.
From S2P Require Import Prelude Varint CloseCodec QmuxError.

(** ** The length prefix *)

Definition MAX_VARINT_BYTES : nat := 8.

Record LengthPrefix := mkPrefix { lp_bytes : bytes; lp_len : nat }.

Definition prefix_default : LengthPrefix :=
  mkPrefix (replicate MAX_VARINT_BYTES Byte.x00) 0.

Definition is_empty (p : LengthPrefix) : bool := bool_decide (lp_len p = 0%nat).

Definition width (p : LengthPrefix) : option nat :=
  let! first := head (lp_bytes p) in
  if decide (0 < lp_len p)%nat then Some (width_of first) else None.

(** [feed] consumes what the prefix needs and reports how much that was.  [None] is a
    panic: an index out of the array, or the [expect] on the completed prefix. *)
Fixpoint feed (p : LengthPrefix) (input : bytes) (taken : nat)
  : option (LengthPrefix * option Z * nat) :=
  match input with
  | [] => Some (p, None, taken)
  | b :: rest =>
      if decide (lp_len p < length (lp_bytes p))%nat then
        let p := mkPrefix (<[lp_len p := b]> (lp_bytes p)) (S (lp_len p)) in
        let taken := S taken in
        if decide (width p = Some (lp_len p)) then
          let! (value, _) := read_varint (take (lp_len p) (lp_bytes p)) in
          Some (mkPrefix (lp_bytes p) 0, Some value, taken)
        else feed p rest taken
      else None
  end.

(** ** The framer *)

Inductive State :=
| Length (prefix : LengthPrefix)
| Payload (remaining : nat).

Record RecordFramer := mkFramer {
  state : State;
  record : bytes;
  close : option bytes;
  copied : nat
}.

Definition new : RecordFramer := mkFramer (Length prefix_default) [] None 0.

Definition set_state (f : RecordFramer) (s : State) : RecordFramer :=
  mkFramer s (record f) (close f) (copied f).

Definition zero_length : Io.Error :=
  Io.new Io.Protocol "the peer declared a record of zero length".
Definition too_large : Io.Error :=
  Io.new Io.Protocol "the peer declared a record larger than the maximum record size".

(** [begin_record]; the reservation of buffer capacity has no observable effect.  The
    framer is returned in both cases, as the method mutates it in place. *)
Definition begin_record (f : RecordFramer) (length_ : Z) : RecordFramer * result unit Io.Error :=
  if decide (length_ = 0) then (f, Err zero_length)
  else if decide (MAX_RECORD_SIZE < length_) then (f, Err too_large)
  else (mkFramer (Payload (Z.to_nat length_)) [] (close f) (copied f), Ok tt).

Definition finish_record (f : RecordFramer) (in_place : option bytes) : RecordFramer :=
  let f := set_state f (Length prefix_default) in
  match close f with
  | Some _ => f
  | None =>
      match in_place with
      | Some payload =>
          match decode_close_frame payload with
          | Some _ => mkFramer (state f) (record f) (Some payload) (copied f + length payload)
          | None => f
          end
      | None =>
          match decode_close_frame (record f) with
          | Some _ => mkFramer (state f) [] (Some (record f)) (copied f)
          | None => mkFramer (state f) [] (close f) (copied f)
          end
      end
  end.

(** One iteration of the loop of [consume]: the framer, what is left of the slice, and
    the result so far.  [None] is a panic. *)
Definition consume_step (f : RecordFramer) (rest : bytes)
  : option (RecordFramer * bytes * result unit Io.Error) :=
  match state f with
  | Length prefix =>
      let! (prefix, complete, taken) := feed prefix rest 0 in
      let f := set_state f (Length prefix) in
      let rest := drop taken rest in
      match complete with
      | Some length_ => let '(f, r) := begin_record f length_ in Some (f, rest, r)
      | None => Some (f, rest, Ok tt)
      end
  | Payload remaining =>
      let take_ := Nat.min remaining (length rest) in
      let in_place :=
        bool_decide (record f = []) && bool_decide (take_ = remaining)
        && bool_decide (close f = None) in
      let remaining := (remaining - take_)%nat in
      let complete := bool_decide (remaining = 0%nat) in
      let payload := take take_ rest in
      let tail := drop take_ rest in
      let f := set_state f (Payload remaining) in
      let f := if negb in_place && bool_decide (close f = None)
               then mkFramer (state f) (record f ++ payload) (close f) (copied f + take_)
               else f in
      let f := if complete then finish_record f (if in_place then Some payload else None)
               else f in
      Some (f, tail, Ok tt)
  end.

(** The loop.  Every iteration consumes at least one byte of a non-empty slice except a
    payload of zero bytes, which [begin_record] never declares, so the slice's length
    is enough fuel ([consume_total]). *)
Fixpoint consume_loop (fuel : nat) (f : RecordFramer) (rest : bytes)
  : option (RecordFramer * result unit Io.Error) :=
  match rest with
  | [] => Some (f, Ok tt)
  | _ =>
      match fuel with
      | O => None
      | S fuel =>
          let! (f, rest, r) := consume_step f rest in
          match r with
          | Ok _ => consume_loop fuel f rest
          | Err e => Some (f, Err e)
          end
      end
  end.

Definition consume (f : RecordFramer) (bs : bytes) : option (RecordFramer * result unit Io.Error) :=
  consume_loop (length bs) f bs.

Definition at_boundary (f : RecordFramer) : bool :=
  match state f with Length prefix => is_empty prefix | Payload _ => false end.

Definition latched_close (f : RecordFramer) : option bytes := close f.

Definition close_reason (f : RecordFramer) : option CloseReason :=
  let! c := close f in decode_close_frame c.

Definition retained_bytes (f : RecordFramer) : nat :=
  (length (record f) + match close f with Some c => length c | None => 0 end)%nat.

Definition copied_bytes (f : RecordFramer) : nat := copied f.

(** ** Specification: cutting a stream into records *)

Inductive cut_result :=
| Incomplete
| Refused (n : nat) (e : Io.Error)
| Whole (payload rest : bytes).

(** The first record of [s]: its varint length prefix and that many bytes. *)
Definition next_record (s : bytes) : cut_result :=
  match read_varint s with
  | None => Incomplete
  | Some (len, n) =>
      if decide (len = 0) then Refused n zero_length
      else if decide (MAX_RECORD_SIZE < len) then Refused n too_large
      else if decide (Z.to_nat len ≤ length (drop n s))%nat
           then Whole (take (Z.to_nat len) (drop n s)) (drop (n + Z.to_nat len) s)
           else Incomplete
  end.

(** The close kept by the framer after one more record: the first one found. *)
Definition latch (c : option bytes) (payload : bytes) : option bytes :=
  match c with
  | Some _ => c
  | None => match decode_close_frame payload with Some _ => Some payload | None => None end
  end.

(** The prefix array after the bytes [p] arrived, zero beyond them. *)
Definition pad (p : bytes) : bytes := p ++ replicate (MAX_VARINT_BYTES - length p) Byte.x00.

(** The framer that has latched [c] and holds the bytes [p] of a record in progress. *)
Definition framer_of (c : option bytes) (p : bytes) : RecordFramer :=
  match read_varint p with
  | None => mkFramer (Length (mkPrefix (pad p) (length p))) [] c 0
  | Some (len, n) =>
      mkFramer (Payload (Z.to_nat len - length (drop n p)))
        (match c with None => drop n p | Some _ => [] end) c 0
  end.

(** The framer that refused a record whose prefix is [p]. *)
Definition refused_framer (c : option bytes) (p : bytes) : RecordFramer :=
  mkFramer (Length (mkPrefix (pad p) 0)) [] c 0.

Fixpoint spec_loop (fuel : nat) (c : option bytes) (s : bytes)
  : RecordFramer * result unit Io.Error :=
  match fuel with
  | O => (framer_of c s, Ok tt)
  | S fuel =>
      match next_record s with
      | Incomplete => (framer_of c s, Ok tt)
      | Refused n e => (refused_framer c (take n s), Err e)
      | Whole payload rest => spec_loop fuel (latch c payload) rest
      end
  end.

Definition spec (c : option bytes) (s : bytes) : RecordFramer * result unit Io.Error :=
  spec_loop (length s) c s.

(** The framer's state without its debug counter, the state the specification speaks of. *)
Definition erase (f : RecordFramer) : RecordFramer := mkFramer (state f) (record f) (close f) 0.

Definition erase_out (o : option (RecordFramer * result unit Io.Error)) :=
  (λ '(f, r), (erase f, r)) <$> o.

(** Feeding a stream chunk by chunk, stopping at an error as the connection does. *)
Fixpoint consume_all (f : RecordFramer) (chunks : list bytes)
  : option (RecordFramer * result unit Io.Error) :=
  match chunks with
  | [] => Some (f, Ok tt)
  | chunk :: chunks =>
      let! (f, r) := consume f chunk in
      match r with
      | Ok _ => consume_all f chunks
      | Err e => Some (f, Err e)
      end
  end.

(** ** The specification's recursion *)

Lemma next_record_Whole s payload rest :
  next_record s = Whole payload rest →
  (length rest < length s)%nat ∧ (length payload + length rest < length s)%nat ∧
  (0 < length payload)%nat ∧ Z.of_nat (length payload) ≤ MAX_RECORD_SIZE ∧
  ∃ len n, read_varint s = Some (len, n) ∧ Z.of_nat (length payload) = len ∧
           drop n s = payload ++ rest.
Proof.
  unfold next_record. destruct (read_varint s) as [[len n]|] eqn:E; [|done].
  pose proof (read_varint_Some _ _ _ E) as (Hn & Hn' & Hlen & _).
  repeat case_decide; [done..| |done]. intros [= <- <-].
  rewrite length_take, !length_drop in *.
  split_and!; try lia. exists len, n. split_and!; [done|lia|].
  by rewrite <-drop_drop, take_drop.
Qed.

Lemma spec_loop_fuel fuel fuel' c s :
  (length s ≤ fuel)%nat → (length s ≤ fuel')%nat → spec_loop fuel c s = spec_loop fuel' c s.
Proof.
  revert fuel' c s. induction fuel as [|fuel IH]; intros fuel' c s Hf Hf'.
  - destruct s; [|cbn in Hf; lia]. by destruct fuel'.
  - destruct fuel' as [|fuel'].
    { destruct s; [done|cbn in Hf'; lia]. }
    cbn. destruct (next_record s) eqn:E; [done|done|].
    apply next_record_Whole in E as (? & _). apply IH; lia.
Qed.

Lemma spec_unfold c s :
  spec c s = match next_record s with
             | Incomplete => (framer_of c s, Ok tt)
             | Refused n e => (refused_framer c (take n s), Err e)
             | Whole payload rest => spec (latch c payload) rest
             end.
Proof.
  unfold spec at 1. destruct s as [|b s]; [done|]. cbn [spec_loop length].
  destruct (next_record _) eqn:E; [done|done|].
  apply next_record_Whole in E as (Hl & _). cbn in Hl. apply spec_loop_fuel; lia.
Qed.

(** ** The prefix reader *)

(** [p] is the beginning of a length prefix. *)
Definition prefix_part (p : bytes) : Prop := read_varint p = None.

Lemma prefix_part_length p : prefix_part p → (length p < MAX_VARINT_BYTES)%nat.
Proof.
  unfold prefix_part. destruct p as [|first tl]; [cbn; unfold MAX_VARINT_BYTES; lia|].
  rewrite read_varint_unfold. case_decide as Hd; [done|]. intros _.
  pose proof (width_of_bound first). cbn. unfold MAX_VARINT_BYTES. lia.
Qed.

Lemma length_pad p : (length p ≤ MAX_VARINT_BYTES)%nat → length (pad p) = MAX_VARINT_BYTES.
Proof. intros. unfold pad. rewrite length_app, length_replicate. lia. Qed.

Lemma take_pad p : take (length p) (pad p) = p.
Proof. apply take_app_length. Qed.

Lemma pad_insert p b :
  (length p < MAX_VARINT_BYTES)%nat → <[length p := b]> (pad p) = pad (p ++ [b]).
Proof.
  intros. unfold pad. rewrite <-(Nat.add_0_r (length p)), insert_app_r, <-app_assoc.
  rewrite length_app. cbn [length].
  replace (MAX_VARINT_BYTES - (length p + 0))%nat
    with (S (MAX_VARINT_BYTES - (length p + 1))) by lia.
  by replace (MAX_VARINT_BYTES - (length p + 1))%nat with (MAX_VARINT_BYTES - (length p + 1))%nat by lia.
Qed.

(** A prefix is complete exactly when its declared width has arrived. *)
Lemma width_pad p b :
  width (mkPrefix (pad (p ++ [b])) (S (length p))) =
    match head (p ++ [b]) with Some first => Some (width_of first) | None => None end.
Proof.
  unfold width, pad. destruct p; cbn [lp_bytes lp_len app head];
    by rewrite decide_True by (cbn; lia).
Qed.

Lemma prefix_part_snoc p b :
  prefix_part p →
  (width (mkPrefix (pad (p ++ [b])) (S (length p))) = Some (S (length p)) ↔
   ¬ prefix_part (p ++ [b])).
Proof.
  intros Hp. rewrite width_pad. unfold prefix_part in *.
  destruct p as [|first tl]; cbn [app head length] in *.
  - rewrite read_varint_unfold. cbn. pose proof (width_of_bound b).
    case_decide; split; try done; [intros _; f_equal; lia|intros [= E]; lia].
  - rewrite read_varint_unfold in Hp |- *. rewrite length_app. cbn [length].
    case_decide as H1; [done|]. case_decide as H2; split; try done.
    + intros _. f_equal. lia.
    + intros [= E]. lia.
Qed.

Lemma read_varint_beyond p x v n :
  prefix_part p → read_varint (p ++ x) = Some (v, n) → (length p < n)%nat.
Proof.
  intros Hp E. pose proof (read_varint_Some _ _ _ E) as (_ & _ & _ & Hr).
  destruct (decide (n ≤ length p)%nat); [|lia].
  specialize (Hr (drop n p)). rewrite take_app_le, take_drop in Hr by done.
  unfold prefix_part in Hp. congruence.
Qed.

(** What [feed] does, in terms of the bytes seen so far: it stops with the first
    complete varint of [p ++ input]. *)
Lemma feed_spec p input taken :
  prefix_part p →
  feed (mkPrefix (pad p) (length p)) input taken =
    match read_varint (p ++ input) with
    | Some (v, n) => Some (mkPrefix (pad (take n (p ++ input))) 0, Some v, taken + (n - length p))%nat
    | None => Some (mkPrefix (pad (p ++ input)) (length (p ++ input)), None, taken + length input)%nat
    end.
Proof.
  revert p taken. induction input as [|b input IH]; intros p taken Hp.
  { rewrite app_nil_r. unfold prefix_part in Hp. rewrite Hp. cbn. by rewrite Nat.add_0_r. }
  pose proof (prefix_part_length _ Hp) as Hlen.
  cbn [feed lp_len lp_bytes]. rewrite length_pad, decide_True by lia.
  rewrite pad_insert by done.
  replace (p ++ b :: input) with ((p ++ [b]) ++ input) by (by rewrite <-app_assoc).
  case_decide as Hw.
  - apply prefix_part_snoc in Hw; [|done]. unfold prefix_part in Hw.
    destruct (read_varint (p ++ [b])) as [[v n]|] eqn:E; [|done].
    pose proof (read_varint_beyond _ _ _ _ Hp E) as Hn.
    pose proof (read_varint_Some _ _ _ E) as (_ & Hn' & _).
    rewrite length_app in Hn'. cbn in Hn'.
    assert (n = S (length p)) as -> by lia.
    replace (S (length p)) with (length (p ++ [b])) at 1 by (rewrite length_app; cbn; lia).
    rewrite take_pad, E, (read_varint_app _ _ _ input E).
    rewrite take_app_exact by (rewrite length_app; cbn; lia).
    replace (S (length p) - length p)%nat with 1%nat by lia. by rewrite Nat.add_1_r.
  - assert (prefix_part (p ++ [b])) as Hp'.
    { destruct (read_varint (p ++ [b])) eqn:E; [|done]. exfalso. apply Hw.
      apply prefix_part_snoc; [done|]. unfold prefix_part. by rewrite E. }
    specialize (IH (p ++ [b]) (S taken) Hp').
    rewrite length_app in IH. cbn [length] in IH. rewrite Nat.add_1_r in IH. rewrite IH.
    destruct (read_varint ((p ++ [b]) ++ input)) as [[v n]|] eqn:E.
    + apply read_varint_beyond in E; [|done]. rewrite length_app in E. cbn in E.
      do 2 f_equal. lia.
    + cbn [length]. do 2 f_equal. lia.
Qed.

(** ** One iteration against the specification *)

(** [f] has latched [c] and holds the bytes [p] of a record in progress. *)
Definition represents (f : RecordFramer) (c : option bytes) (p : bytes) : Prop :=
  erase f = framer_of c p ∧ next_record p = Incomplete.

Lemma represents_new : represents new None [].
Proof. done. Qed.

Lemma erase_idem f : erase (erase f) = erase f.
Proof. done. Qed.

(** A record in progress: its prefix [n], its length and what is missing. *)
Lemma incomplete_payload p len n :
  next_record p = Incomplete → read_varint p = Some (len, n) →
  0 < len ≤ MAX_RECORD_SIZE ∧ (length (drop n p) < Z.to_nat len)%nat ∧
  Z.of_nat (Z.to_nat len) = len.
Proof.
  intros Hp E. pose proof (read_varint_Some _ _ _ E) as (_ & _ & Hlen & _).
  unfold next_record in Hp. rewrite E in Hp. repeat case_decide; try done. lia.
Qed.

Lemma next_record_app p q len n :
  next_record p = Incomplete → read_varint p = Some (len, n) →
  next_record (p ++ q) =
    if decide (Z.to_nat len ≤ length (drop n p) + length q)%nat
    then Whole (drop n p ++ take (Z.to_nat len - length (drop n p)) q)
               (drop (Z.to_nat len - length (drop n p)) q)
    else Incomplete.
Proof.
  intros Hp E. destruct (incomplete_payload _ _ _ Hp E) as (Hl & Hd & _).
  pose proof (read_varint_Some _ _ _ E) as (_ & Hn & _).
  unfold next_record. rewrite (read_varint_app _ _ _ q E).
  rewrite !decide_False by lia.
  rewrite drop_app_le by done. rewrite length_app.
  case_decide; [|done]. f_equal.
  - by rewrite take_app_ge by lia.
  - rewrite <-drop_drop, drop_app_le by done. by rewrite drop_app_ge by lia.
Qed.

(** The step over a (possibly partial) length prefix. *)
Lemma step_prefix f c p q :
  represents f c p → prefix_part p → q ≠ [] →
  match read_varint (p ++ q) with
  | None => ∃ f', consume_step f q = Some (f', [], Ok tt) ∧ represents f' c (p ++ q)
  | Some (len, n) =>
      (length p < n)%nat ∧
      if decide (len = 0) then
        ∃ f', consume_step f q = Some (f', drop (n - length p) q, Err zero_length) ∧
              erase f' = refused_framer c (take n (p ++ q))
      else if decide (MAX_RECORD_SIZE < len) then
        ∃ f', consume_step f q = Some (f', drop (n - length p) q, Err too_large) ∧
              erase f' = refused_framer c (take n (p ++ q))
      else ∃ f', consume_step f q = Some (f', drop (n - length p) q, Ok tt) ∧
              represents f' c (take n (p ++ q))
  end.
Proof.
  intros [Hf Hinc] Hp Hq. unfold framer_of in Hf. unfold prefix_part in Hp.
  rewrite Hp in Hf. destruct f as [st rec cl k]. injection Hf as -> -> ->.
  unfold consume_step; cbn [state].
  rewrite feed_spec by done.
  destruct (read_varint (p ++ q)) as [[len n]|] eqn:E.
  - pose proof (read_varint_beyond p q len n Hp E) as Hn. split; [done|].
    pose proof (read_varint_Some _ _ _ E) as (_ & Hn' & Hlen & Hr).
    unfold begin_record. cbn [set_state state record close copied Nat.add].
    destruct (decide (len = 0)); [by eexists|].
    destruct (decide (MAX_RECORD_SIZE < len)); [by eexists|].
    eexists. split; [done|].
    specialize (Hr []). rewrite app_nil_r in Hr.
    assert (drop n (take n (p ++ q)) = []) as Ed by (apply drop_ge; rewrite length_take; lia).
    split.
    + unfold framer_of, erase. rewrite Hr, Ed. cbn [state record close length].
      rewrite Nat.sub_0_r. by destruct c.
    + unfold next_record. rewrite Hr, !decide_False by done.
      rewrite Ed. cbn. rewrite decide_False by lia. done.
  - eexists. rewrite drop_ge by (cbn; lia). split; [done|].
    split; [|unfold next_record; by rewrite E].
    unfold framer_of, erase. rewrite E. done.
Qed.

(** The step over payload bytes. *)
Lemma step_payload f c p q len n :
  represents f c p → read_varint p = Some (len, n) → q ≠ [] →
  let missing := (Z.to_nat len - length (drop n p))%nat in
  if decide (missing ≤ length q)%nat then
    ∃ f', consume_step f q = Some (f', drop missing q, Ok tt) ∧
          represents f' (latch c (drop n p ++ take missing q)) []
  else ∃ f', consume_step f q = Some (f', [], Ok tt) ∧ represents f' c (p ++ q).
Proof.
  intros [Hf Hinc] E Hq missing. pose proof (incomplete_payload _ _ _ Hinc E) as (Hl & Hd & _).
  assert (0 < missing)%nat as Hm by (unfold missing; lia).
  unfold framer_of in Hf. rewrite E in Hf. fold missing in Hf.
  destruct f as [st rec cl k]. injection Hf as -> -> ->.
  unfold consume_step. cbn [state record close copied].
  case_decide as Hle.
  - rewrite Nat.min_l, Nat.sub_diag by done. rewrite (bool_decide_eq_true_2 (0%nat = 0%nat)) by done.
    rewrite (bool_decide_eq_true_2 (missing = missing)) by done.
    eexists. split; [done|]. split; [|done].
    unfold latch, finish_record, framer_of, erase, set_state.
    destruct c as [c|]; cbn [negb andb]; rewrite ?andb_false_r; [done|].
    destruct (drop n p) as [|x body] eqn:Eb.
    { rewrite !bool_decide_eq_true_2 by done. cbn [negb andb state record close copied app].
      destruct (decode_close_frame (take missing q)); done. }
    rewrite (bool_decide_eq_false_2 (x :: body = [])) by done. cbn [negb andb].
    rewrite bool_decide_eq_true_2 by done. cbn [state record close copied].
    destruct (decode_close_frame ((x :: body) ++ take missing q)); done.
  - rewrite Nat.min_r by lia.
    rewrite (bool_decide_eq_false_2 (length q = missing)) by lia.
    rewrite (bool_decide_eq_false_2 ((missing - length q)%nat = 0%nat)) by lia.
    rewrite drop_all, firstn_all. eexists. split; [done|].
    split.
    + unfold framer_of, erase, set_state. rewrite (read_varint_app _ _ _ q E).
      pose proof (read_varint_Some _ _ _ E) as (_ & Hn & _).
      rewrite drop_app_le, length_app by done.
      rewrite andb_false_r. cbn [negb andb].
      destruct c; cbn; [f_equal; f_equal; unfold missing; lia|].
      f_equal; f_equal; unfold missing; lia.
    + rewrite (next_record_app p q len n Hinc E).
      unfold missing in Hle. by rewrite decide_False by lia.
Qed.

(** ** The loop against the specification *)

Lemma next_record_Refused_app s x n e :
  next_record s = Refused n e → next_record (s ++ x) = Refused n e ∧ take n (s ++ x) = take n s.
Proof.
  unfold next_record. destruct (read_varint s) as [[len m]|] eqn:E; [|done].
  pose proof (read_varint_Some _ _ _ E) as (_ & Hm & _).
  rewrite (read_varint_app _ _ _ x E).
  repeat case_decide; intros [= <- <-]; by rewrite take_app_le.
Qed.

Lemma next_record_Whole_app s x payload rest :
  next_record s = Whole payload rest → next_record (s ++ x) = Whole payload (rest ++ x).
Proof.
  unfold next_record. destruct (read_varint s) as [[len m]|] eqn:E; [|done].
  pose proof (read_varint_Some _ _ _ E) as (_ & Hm & _).
  rewrite (read_varint_app _ _ _ x E), drop_app_le by done.
  case_decide; [done|]. case_decide; [done|]. case_decide as Hle; [|done].
  intros [= <- <-]. rewrite length_app, decide_True by lia.
  rewrite take_app_le by done. f_equal.
  rewrite <-!drop_drop. rewrite drop_app_le by done. by rewrite drop_app_le.
Qed.

(** What consuming [q] on top of [p] leaves: either a framer representing the rest of
    the stream, or the refusal the specification gives on every extension. *)
Definition consumed (c : option bytes) (s : bytes) (f : RecordFramer) (r : result unit Io.Error) :=
  match r with
  | Ok _ => ∃ c' p', represents f c' p' ∧ ∀ x, spec c (s ++ x) = spec c' (p' ++ x)
  | Err e => ∀ x, spec c (s ++ x) = (erase f, Err e)
  end.

Lemma spec_represents f c p : represents f c p → spec c p = (erase f, Ok tt).
Proof. intros [-> E]. by rewrite spec_unfold, E. Qed.

Lemma consume_loop_spec fuel : ∀ f c p q,
  represents f c p → (length q ≤ fuel)%nat →
  ∃ f' r, consume_loop fuel f q = Some (f', r) ∧ consumed c (p ++ q) f' r.
Proof.
  induction fuel as [|fuel IH]; intros f c p q Hf Hl.
  { destruct q; [|cbn in Hl; lia]. rewrite app_nil_r. do 2 eexists. split; [done|].
    exists c, p. done. }
  destruct q as [|b q']; [rewrite app_nil_r; do 2 eexists; split; [done|]; by exists c, p|].
  set (q := b :: q') in *. assert (q ≠ []) as Hq by done.
  assert (consume_loop (S fuel) f q =
    let! (f, rest, r) := consume_step f q in
    match r with Ok _ => consume_loop fuel f rest | Err e => Some (f, Err e) end) as -> by done.
  assert (∀ f', consume_loop fuel f' [] = Some (f', Ok tt)) as Hnil by (by destruct fuel).
  destruct (read_varint p) as [[len n]|] eqn:Ep.
  - destruct Hf as [Hf Hinc].
    pose proof (step_payload f c p q len n (conj Hf Hinc) Ep Hq) as Hstep. cbv zeta in Hstep.
    pose proof (next_record_app p q len n Hinc Ep) as Hnr.
    destruct (incomplete_payload _ _ _ Hinc Ep) as (_ & Hd & _).
    destruct (decide (Z.to_nat len - length (drop n p) ≤ length q)%nat) as [Hle|Hle].
    + destruct Hstep as (f1 & -> & Hf1).
      destruct (IH f1 _ [] (drop (Z.to_nat len - length (drop n p)) q) Hf1)
        as (f' & r & -> & Hc); [rewrite (length_drop q); lia|].
      do 2 eexists. split; [done|]. rewrite decide_True in Hnr by lia.
      set (rest := drop (Z.to_nat len - length (drop n p)) q) in *.
      set (pl := drop n p ++ take (Z.to_nat len - length (drop n p)) q) in *.
      assert (∀ x, spec c ((p ++ q) ++ x) = spec (latch c pl) (rest ++ x)) as Hsp.
      { intros x. rewrite spec_unfold. by rewrite (next_record_Whole_app _ x _ _ Hnr). }
      unfold consumed in *. destruct r as [u|e]; [|intros x; rewrite Hsp; apply Hc].
      destruct Hc as (c' & p' & ? & Hx). exists c', p'. split; [done|].
      intros x. rewrite Hsp. apply Hx.
    + destruct Hstep as (f1 & -> & Hf1). rewrite Hnil. do 2 eexists. split; [done|].
      rewrite decide_False in Hnr by lia. by exists c, (p ++ q).
  - pose proof (step_prefix f c p q Hf Ep Hq) as Hstep.
    destruct (read_varint (p ++ q)) as [[len n]|] eqn:E.
    + destruct Hstep as [Hn Hstep].
      assert (Hrefuse : ∀ f1 e,
        next_record (p ++ q) = Refused n e →
        consume_step f q = Some (f1, drop (n - length p) q, Err e) →
        erase f1 = refused_framer c (take n (p ++ q)) →
        ∃ f' r, (let! (f, rest, r) := consume_step f q in
                 match r with Ok _ => consume_loop fuel f rest | Err e => Some (f, Err e) end)
                = Some (f', r) ∧ consumed c (p ++ q) f' r).
      { intros f1 e Hnr -> Hf1. do 2 eexists. split; [done|]. intros x.
        destruct (next_record_Refused_app _ x _ _ Hnr) as [Hnr' Ht].
        rewrite spec_unfold, Hnr', Ht, Hf1. done. }
      destruct (decide (len = 0)) as [H0|H0].
      { destruct Hstep as (f1 & Hs & Hf1). eapply Hrefuse; [|done|done].
        unfold next_record. by rewrite E, decide_True. }
      destruct (decide (MAX_RECORD_SIZE < len)) as [Hm|Hm].
      { destruct Hstep as (f1 & Hs & Hf1). eapply Hrefuse; [|done|done].
        unfold next_record. by rewrite E, decide_False, decide_True. }
      destruct Hstep as (f1 & -> & Hf1).
      assert (take n (p ++ q) ++ drop (n - length p) q = p ++ q) as Es.
      { rewrite take_app_ge by lia. by rewrite <-app_assoc, take_drop. }
      destruct (IH f1 _ _ (drop (n - length p) q) Hf1) as (f' & r & Hr & Hc);
        [rewrite length_drop; cbn in *; lia|].
      rewrite Es in Hc. by exists f', r.
    + destruct Hstep as (f1 & -> & Hf1). rewrite Hnil. do 2 eexists. split; [done|].
      by exists c, (p ++ q).
Qed.

Lemma consume_spec f c p q :
  represents f c p → ∃ f' r, consume f q = Some (f', r) ∧ consumed c (p ++ q) f' r.
Proof. intros Hf. by apply consume_loop_spec. Qed.

Lemma consumed_erase c s f r : consumed c s f r → spec c s = (erase f, r).
Proof.
  destruct r as [[]|e]; cbn.
  - intros (c' & p' & Hf & Hx). specialize (Hx []). rewrite !app_nil_r in Hx.
    rewrite Hx. by apply spec_represents.
  - intros Hx. specialize (Hx []). by rewrite app_nil_r in Hx.
Qed.

Lemma consume_all_spec chunks : ∀ f c p,
  represents f c p →
  ∃ f' r, consume_all f chunks = Some (f', r) ∧ consumed c (p ++ concat chunks) f' r.
Proof.
  induction chunks as [|chunk chunks IH]; intros f c p Hf.
  - cbn [concat consume_all]. rewrite app_nil_r. do 2 eexists. split; [done|]. by exists c, p.
  - cbn [concat consume_all].
    destruct (consume_spec f c p chunk Hf) as (f1 & r1 & -> & Hc).
    destruct r1 as [[]|e]; cbn [consumed] in Hc.
    + destruct Hc as (c1 & p1 & Hf1 & Hx).
      destruct (IH f1 c1 p1 Hf1) as (f' & r & -> & Hc'). do 2 eexists. split; [done|].
      unfold consumed in *. destruct r.
      * destruct Hc' as (c' & p' & ? & Hx'). exists c', p'. split; [done|]. intros x.
        rewrite <-Hx', <-!app_assoc, <-Hx. by rewrite <-!app_assoc.
      * intros x. rewrite <-(Hc' x), <-!app_assoc, <-Hx. by rewrite <-!app_assoc.
    + do 2 eexists. split; [done|]. intros x. rewrite <-Hc with (x := concat chunks ++ x).
      by rewrite <-!app_assoc.
Qed.

(** ** Streams of records *)

(** A record on the wire: a length prefix in any of the four widths, and the payload it
    announces. *)
Abbreviation wire_record := (bytes * bytes)%type.

Definition wire_ok (r : wire_record) : Prop :=
  read_varint r.1 = Some (Z.of_nat (length r.2), length r.1) ∧
  (0 < length r.2)%nat ∧ Z.of_nat (length r.2) ≤ MAX_RECORD_SIZE.

Definition wire_bytes (rs : list wire_record) : bytes := concat ((λ r, r.1 ++ r.2) <$> rs).

(** The close latched after a sequence of records. *)
Definition latch_all (c : option bytes) (rs : list wire_record) : option bytes :=
  foldl latch c (snd <$> rs).

Lemma next_record_wire r s : wire_ok r → next_record (r.1 ++ r.2 ++ s) = Whole r.2 s.
Proof.
  intros (E & Hpos & Hmax). unfold next_record.
  rewrite (read_varint_app _ _ _ _ E), !decide_False by lia.
  rewrite drop_app_length, Nat2Z.id, length_app, decide_True by lia.
  f_equal; [apply take_app_length|]. rewrite <-drop_drop, drop_app_length. apply drop_app_length.
Qed.

Lemma spec_wire rs : ∀ c s,
  Forall wire_ok rs → spec c (wire_bytes rs ++ s) = spec (latch_all c rs) s.
Proof.
  induction rs as [|r rs IH]; intros c s Hrs; [done|].
  inversion Hrs as [|? ? Hr Hrs']; subst. unfold wire_bytes. rewrite fmap_cons. cbn [concat].
  rewrite <-!app_assoc, spec_unfold, next_record_wire by done.
  fold (wire_bytes rs). by rewrite IH.
Qed.

(** Every stream is a sequence of records and a remainder that is not yet one. *)
Lemma stream_split s :
  ∃ rs p, s = wire_bytes rs ++ p ∧ Forall wire_ok rs ∧
    ∀ payload rest, next_record p ≠ Whole payload rest.
Proof.
  induction s as [s IH] using (induction_ltof1 _ length). unfold ltof in IH.
  destruct (next_record s) as [| |payload rest] eqn:E.
  1,2: exists [], s; split_and!; [done|constructor|]; intros ?? ?; congruence.
  pose proof (next_record_Whole _ _ _ E) as (Hl & _ & Hpos & Hmax & len & n & Ev & Hlen & Hd).
  destruct (IH rest Hl) as (rs & p & -> & Hrs & Hp).
  pose proof (read_varint_Some _ _ _ Ev) as (_ & Hn & _ & Hr).
  exists ((take n s, payload) :: rs), p. split_and!; [|constructor; [|done]|done].
  - unfold wire_bytes. rewrite fmap_cons. cbn [concat fst snd].
    rewrite <-!app_assoc. fold (wire_bytes rs). by rewrite <-Hd, take_drop.
  - split_and!; cbn; [|done|lia]. specialize (Hr []). rewrite app_nil_r in Hr.
    rewrite Hr, length_take_le by done. congruence.
Qed.

Lemma framer_of_boundary c p : at_boundary (framer_of c p) = bool_decide (p = []).
Proof.
  unfold framer_of, at_boundary, is_empty. destruct (read_varint p) as [[len n]|] eqn:E.
  - symmetry. apply bool_decide_eq_false_2. by intros ->.
  - cbn. destruct p; done.
Qed.

Lemma at_boundary_erase f : at_boundary (erase f) = at_boundary f.
Proof. done. Qed.

(** The outcome of a whole stream, by cases on its remainder. *)
Lemma spec_remainder c p :
  (∀ payload rest, next_record p ≠ Whole payload rest) →
  spec c p = match next_record p with
             | Refused n e => (refused_framer c (take n p), Err e)
             | _ => (framer_of c p, Ok tt)
             end.
Proof. intros Hp. rewrite spec_unfold. destruct (next_record p) eqn:E; [done..|]. by exfalso; eapply Hp. Qed.

Lemma close_of_remainder c p :
  (∀ payload rest, next_record p ≠ Whole payload rest) → close (spec c p).1 = c.
Proof.
  intros Hp. rewrite spec_remainder by done. unfold framer_of.
  destruct (next_record p); [| |]; repeat case_match; done.
Qed.

(** ** Properties *)

(** C5.  However a byte stream is cut into reads, the framer neither panics nor loops,
    and ends in the state (and with the error) the specification gives for the whole
    stream: cutting it into records, keeping the first close. *)
Theorem framer_refines_spec chunks :
  ∃ f r, consume_all new chunks = Some (f, r) ∧ (erase f, r) = spec None (concat chunks).
Proof.
  destruct (consume_all_spec chunks new None [] represents_new) as (f & r & E & Hc).
  exists f, r. split; [done|]. symmetry. by apply consumed_erase.
Qed.

Lemma consume_all_new chunks f r :
  consume_all new chunks = Some (f, r) → spec None (concat chunks) = (erase f, r).
Proof.
  intros E. destruct (consume_all_spec chunks new None [] represents_new) as (f' & r' & E' & Hc).
  rewrite E in E'. injection E' as <- <-. by apply consumed_erase.
Qed.

(** At the end of the stream, [at_boundary] holds exactly when everything the peer
    sent was whole records: a truncated record is never taken for a clean ending. *)
Theorem at_boundary_iff_whole chunks f :
  consume_all new chunks = Some (f, Ok tt) →
  at_boundary f = true ↔ ∃ rs, Forall wire_ok rs ∧ concat chunks = wire_bytes rs.
Proof.
  intros E. apply consume_all_new in E. rewrite <-at_boundary_erase. split.
  - destruct (stream_split (concat chunks)) as (rs & p & Es & Hrs & Hp).
    rewrite Es, spec_wire, spec_remainder in E by done. intros Hb.
    assert (erase f = framer_of (latch_all None rs) p) as Hf by (destruct (next_record p); congruence).
    rewrite Hf, framer_of_boundary in Hb. apply bool_decide_eq_true in Hb as ->.
    exists rs. split; [done|]. by rewrite app_nil_r in Es.
  - intros (rs & Hrs & Es). rewrite Es, <-(app_nil_r (wire_bytes rs)), spec_wire in E by done.
    apply (f_equal fst) in E. cbn [fst] in E. by rewrite <-E.
Qed.

Definition two_records : list wire_record :=
  [([Byte.x02], [Byte.x10; Byte.x40]); ([Byte.x80; Byte.x00; Byte.x00; Byte.x01], [Byte.x00])].

Lemma at_boundary_iff_whole_witness :
  ∃ f, consume_all new [[Byte.x02; Byte.x10]; [Byte.x40; Byte.x80; Byte.x00; Byte.x00; Byte.x01; Byte.x00]]
       = Some (f, Ok tt) ∧ at_boundary f = true.
Proof.
  eexists. split; [by vm_compute|].
  eapply (at_boundary_iff_whole
    [[Byte.x02; Byte.x10]; [Byte.x40; Byte.x80; Byte.x00; Byte.x00; Byte.x01; Byte.x00]]);
    [by vm_compute|].
  exists two_records. split; [|done].
  repeat constructor; vm_compute; done.
Defined.

Lemma latch_all_none rs :
  Forall (λ r, decode_close_frame r.2 = None) rs → latch_all None rs = None.
Proof.
  intros H. unfold latch_all. induction H as [|r rs Hr Hrs IH]; [done|].
  rewrite fmap_cons. cbn [foldl latch]. by rewrite Hr.
Qed.

Lemma latch_all_some c rs : latch_all (Some c) rs = Some c.
Proof. unfold latch_all. induction (snd <$> rs); done. Qed.

(** The first close of the stream is the one latched, whatever arrives with it. *)
Lemma first_close_latched before r tail chunks f out reason :
  Forall wire_ok before → Forall (λ r, decode_close_frame r.2 = None) before →
  wire_ok r → decode_close_frame r.2 = Some reason →
  concat chunks = wire_bytes before ++ (r.1 ++ r.2) ++ tail →
  consume_all new chunks = Some (f, out) →
  latched_close f = Some r.2 ∧ close_reason f = Some reason.
Proof.
  intros Hb Hnone Hr Hreason Es E. apply consume_all_new in E.
  destruct (stream_split tail) as (rs & p & -> & Hrs & Hp).
  rewrite Es in E.
  replace (wire_bytes before ++ (r.1 ++ r.2) ++ wire_bytes rs ++ p)
    with (wire_bytes (before ++ r :: rs) ++ p) in E.
  2: { unfold wire_bytes. rewrite fmap_app, concat_app, fmap_cons. cbn [concat].
       by rewrite <-!app_assoc. }
  rewrite spec_wire in E by (by apply Forall_app_2; [|constructor]).
  assert (latch_all None (before ++ r :: rs) = Some r.2) as Hl.
  { unfold latch_all. rewrite fmap_app, foldl_app. fold (latch_all None before).
    rewrite latch_all_none by done. rewrite fmap_cons. cbn [foldl latch]. rewrite Hreason.
    apply latch_all_some. }
  rewrite Hl in E. pose proof (close_of_remainder (Some r.2) p Hp) as Hc.
  rewrite E in Hc. cbn in Hc.
  unfold latched_close, close_reason. rewrite Hc. done.
Qed.

(** C18.  A close written by [encode_close_record] is recovered by the framer with the
    fields it was written with, behind any records without a close: neither the bytes
    delivered after it, nor an error they cause, nor the cut into reads changes it. *)
Theorem encoded_close_recovered before cr tail chunks f out :
  Forall wire_ok before → Forall (λ r, decode_close_frame r.2 = None) before →
  close_ok cr →
  concat chunks = wire_bytes before ++ encode_close_record cr ++ tail →
  consume_all new chunks = Some (f, out) →
  latched_close f = Some (encode_close_frame cr) ∧ close_reason f = Some (normalise cr).
Proof.
  intros Hb Hnone Hcr Es E.
  destruct (encode_close_record_facts cr Hcr) as (Hrec & Hpos & Hmax & Hdec).
  apply (first_close_latched before
           (varint_bytes (Z.of_nat (length (encode_close_frame cr))), encode_close_frame cr)
           tail chunks f out); try done.
  split_and!; cbn [fst snd]; [|done|done].
  rewrite length_varint_bytes by lia.
  rewrite <-(app_nil_r (varint_bytes _)), read_varint_bytes by lia.
  f_equal. f_equal. unfold MAX_RECORD_SIZE, MAX_VARINT in *. lia.
Qed.

Lemma encoded_close_recovered_witness :
  ∃ f, consume_all new [[Byte.x01]; Byte.x00 :: encode_close_record example_close ++ [Byte.x00]]
       = Some (f, Err zero_length) ∧ close_reason f = Some example_close.
Proof.
  eexists. split; [by vm_compute|].
  eapply (encoded_close_recovered [([Byte.x01], [Byte.x00])] example_close [Byte.x00]
    [[Byte.x01]; Byte.x00 :: encode_close_record example_close ++ [Byte.x00]]).
  - repeat constructor; vm_compute; done.
  - repeat constructor.
  - by vm_compute.
  - by vm_compute.
  - by vm_compute.
Defined.

(** Retention is bounded by two records, whatever the peer sends and however it
    arrives. *)
Theorem retention_bound chunks f out :
  consume_all new chunks = Some (f, out) →
  Z.of_nat (retained_bytes f) ≤ 2 * MAX_RECORD_SIZE.
Proof.
  intros E. apply consume_all_new in E.
  assert (Z.of_nat (retained_bytes (erase f)) ≤ 2 * MAX_RECORD_SIZE) as H; [|done].
  destruct (stream_split (concat chunks)) as (rs & p & Es & Hrs & Hp).
  rewrite Es, spec_wire, spec_remainder in E by done.
  assert (∀ c, latch_all None rs = Some c → Z.of_nat (length c) ≤ MAX_RECORD_SIZE) as Hc.
  { clear E Es. intros c Hc. unfold latch_all in Hc.
    assert (∀ o, foldl latch o (snd <$> rs) = Some c →
      (∀ d, o = Some d → Z.of_nat (length d) ≤ MAX_RECORD_SIZE) →
      Z.of_nat (length c) ≤ MAX_RECORD_SIZE) as Hgen; [|by eapply Hgen].
    clear Hc. induction Hrs as [|r rs (_ & _ & Hr) Hrs IH]; intros o Ho Hd; [by apply Hd|].
    rewrite fmap_cons in Ho. cbn [foldl] in Ho. apply (IH _ Ho).
    intros d. destruct o as [d'|]; unfold latch; [apply Hd|].
    destruct (decode_close_frame r.2); [intros Ed; injection Ed as <-; exact Hr|done]. }
  unfold MAX_RECORD_SIZE in *.
  destruct (next_record p) as [|n e|] eqn:En; [| |by exfalso; eapply Hp].
  - apply (f_equal fst) in E. cbn [fst] in E. rewrite <-E. unfold retained_bytes, framer_of.
    destruct (read_varint p) as [[len n]|] eqn:Ev; cbn [record close length].
    + destruct (incomplete_payload _ _ _ En Ev) as (Hl & Hd & _). unfold MAX_RECORD_SIZE in Hl.
      destruct (latch_all None rs) as [c|]; cbn [length]; [specialize (Hc c eq_refl)|]; lia.
    + destruct (latch_all None rs) as [c|]; [specialize (Hc c eq_refl)|]; lia.
  - apply (f_equal fst) in E. cbn [fst] in E. rewrite <-E. unfold retained_bytes, refused_framer.
    cbn [record close length].
    destruct (latch_all None rs) as [c|]; [specialize (Hc c eq_refl)|]; lia.
Qed.

Lemma retention_bound_witness :
  ∃ f, consume_all new [[Byte.x05; Byte.x01; Byte.x02]] = Some (f, Ok tt) ∧
       retained_bytes f = 2%nat ∧ Z.of_nat (retained_bytes f) ≤ 2 * MAX_RECORD_SIZE.
Proof.
  eexists. split_and!; [by vm_compute|by vm_compute|].
  eapply (retention_bound [[Byte.x05; Byte.x01; Byte.x02]]). by vm_compute.
Defined.

(** A whole record without a close, delivered in one slice, is scanned where it lies. *)
Lemma consume_loop_whole fuel : ∀ rs,
  Forall wire_ok rs → Forall (λ r, decode_close_frame r.2 = None) rs →
  (length (wire_bytes rs) ≤ fuel)%nat → consume_loop fuel new (wire_bytes rs) = Some (new, Ok tt).
Proof.
  induction fuel as [fuel IH] using lt_wf_ind. intros rs Hrs Hnone Hl.
  destruct rs as [|[pre pl] rs]; [by destruct fuel|].
  inversion Hrs as [|? ? Hr Hrs']; subst. inversion Hnone as [|? ? Hd Hnone']; subst.
  destruct Hr as (Ev & Hpos & Hmax). cbn [fst snd] in *.
  pose proof (read_varint_Some _ _ _ Ev) as (Hpre & _).
  assert (wire_bytes ((pre, pl) :: rs) = pre ++ pl ++ wire_bytes rs) as Ew
    by (unfold wire_bytes; rewrite fmap_cons; cbn [concat fst snd]; by rewrite <-!app_assoc).
  rewrite Ew in Hl |- *. rewrite !length_app in Hl.
  destruct fuel as [|[|fuel]]; [lia|lia|].
  assert (consume_step new (pre ++ pl ++ wire_bytes rs) =
    Some (mkFramer (Payload (length pl)) [] None 0, pl ++ wire_bytes rs, Ok tt)) as Hs1.
  { unfold consume_step. cbn [new state].
    change prefix_default with (mkPrefix (pad []) (length (@nil byte))).
    rewrite feed_spec by done. rewrite app_nil_l, (read_varint_app _ _ _ _ Ev).
    cbn [Nat.add length]. rewrite Nat.sub_0_r, drop_app_length. unfold begin_record.
    rewrite !decide_False, Nat2Z.id by lia. done. }
  assert (consume_step (mkFramer (Payload (length pl)) [] None 0) (pl ++ wire_bytes rs) =
    Some (new, wire_bytes rs, Ok tt)) as Hs2.
  { unfold consume_step. cbn [state record close copied].
    rewrite length_app, Nat.min_l, Nat.sub_diag by lia.
    rewrite !bool_decide_eq_true_2 by done. cbn [negb andb].
    rewrite take_app_length, drop_app_length. unfold finish_record, set_state.
    cbn [state record close copied]. by rewrite Hd. }
  destruct (pre ++ pl ++ wire_bytes rs) as [|b q] eqn:Eq; [destruct pre; cbn in *; [lia|done]|].
  cbn [consume_loop]. rewrite Hs1.
  destruct (pl ++ wire_bytes rs) as [|b' q'] eqn:Eq'; [destruct pl; cbn in *; [lia|done]|].
  rewrite Hs2. apply IH; try done; lia.
Qed.

(** A run of records that arrive whole, however many to a read, is never copied:
    the framer ends as it began, having retained nothing. *)
Theorem whole_records_copy_nothing (reads : list (list wire_record)) :
  Forall (Forall wire_ok) reads →
  Forall (Forall (λ r, decode_close_frame r.2 = None)) reads →
  ∃ f, consume_all new (wire_bytes <$> reads) = Some (f, Ok tt) ∧
       copied_bytes f = 0%nat ∧ retained_bytes f = 0%nat ∧ at_boundary f = true.
Proof.
  intros Hok Hnone. exists new. split; [|done].
  induction Hok as [|rs reads Hrs Hok IH]; [done|].
  inversion Hnone; subst. rewrite fmap_cons. cbn [consume_all]. unfold consume.
  rewrite consume_loop_whole by done. by apply IH.
Qed.

Lemma whole_records_copy_nothing_witness :
  ∃ f, consume_all new (wire_bytes <$> [two_records; two_records]) = Some (f, Ok tt) ∧
       copied_bytes f = 0%nat ∧ retained_bytes f = 0%nat ∧ at_boundary f = true.
Proof.
  apply whole_records_copy_nothing; repeat constructor; vm_compute; done.
Defined.
