(* ===== verification/QmuxScheduling.v ===== *)
(** * Parking, waking and read-ahead (crates/ngnet-qmux/src/io/scheduling.rs)

    [Signals] is the pair of waker slots behind the mutex; an operation returns the new
    slots and the wakers it woke, in order.  [ReadAhead] is the delivered-but-uncredited
    count.  A waker is caller-supplied code: the model takes its type, the comparison
    [Waker::will_wake] and the task a waker stands for as the class [Wakers], whose law is
    the documented meaning of [will_wake]. *)

From Stdlib Require Import ZArith Lia.
From stdpp Require Import base list sets.
From S2P Require Import Prelude.

Class Wakers := {
  Waker : Type;
  Task : Type;
  will_wake : Waker → Waker → bool;
  task : Waker → Task;
  will_wake_task : ∀ a b, will_wake a b = true → task a = task b
}.

(** ** Signals *)
Module Signals.

Inductive Slot := Credit | ReadAheadSlot.

#[global] Instance Slot_eq_dec : EqDecision Slot.
Proof. solve_decision. Defined.

Section WithWakers.
Context `{Wakers}.

Record Parked := mkParked { credit : option Waker; read_ahead : option Waker }.

Definition slot (p : Parked) (s : Slot) : option Waker :=
  match s with Credit => credit p | ReadAheadSlot => read_ahead p end.

Definition set_slot (p : Parked) (s : Slot) (w : option Waker) : Parked :=
  match s with
  | Credit => mkParked w (read_ahead p)
  | ReadAheadSlot => mkParked (credit p) w
  end.

Definition new : Parked := mkParked None None.

(** The wakers woken are the second component. *)
Definition park (p : Parked) (s : Slot) (cx : Waker) : Parked * list Waker :=
  match slot p s with
  | Some existing =>
      if will_wake existing cx then (p, []) else (set_slot p s (Some cx), [existing])
  | None => (set_slot p s (Some cx), [])
  end.

Definition wake (p : Parked) (s : Slot) : Parked * list Waker :=
  (set_slot p s None, match slot p s with Some w => [w] | None => [] end).

Definition park_credit p cx := park p Credit cx.
Definition wake_credit p := wake p Credit.
Definition park_read_ahead p cx := park p ReadAheadSlot cx.
Definition wake_read_ahead p := wake p ReadAheadSlot.

(** *** Any interleaving of the operations *)

Inductive op := Park (s : Slot) (cx : Waker) | Wake (s : Slot).

Definition step (p : Parked) (o : op) : Parked * list Waker :=
  match o with Park s cx => park p s cx | Wake s => wake p s end.

Fixpoint run (p : Parked) (os : list op) : Parked * list Waker :=
  match os with
  | [] => (p, [])
  | o :: os =>
      let '(p1, w1) := step p o in
      let '(p2, w2) := run p1 os in
      (p2, w1 ++ w2)
  end.

Definition op_slot (o : op) : Slot := match o with Park s _ => s | Wake s => s end.

Lemma slot_set_same p s w : slot (set_slot p s w) s = w.
Proof. by destruct s. Qed.

Lemma slot_set_other p s s' w : s ≠ s' → slot (set_slot p s w) s' = slot p s'.
Proof. by destruct s, s'. Qed.

Lemma step_other p o s : op_slot o ≠ s → slot (step p o).1 s = slot p s.
Proof.
  intros Hs. destruct o as [s' cx|s']; simpl in *.
  - unfold park. repeat case_match; simpl; auto using slot_set_other.
  - by apply slot_set_other.
Qed.

Lemma run_app p os os' :
  run p (os ++ os') =
    let '(p1, w1) := run p os in let '(p2, w2) := run p1 os' in (p2, w1 ++ w2).
Proof.
  revert p. induction os as [|o os IH]; intros p; simpl.
  - by destruct (run p os').
  - destruct (step p o) as [p1 w1]. rewrite IH.
    destruct (run p1 os) as [p2 w2]. destruct (run p2 os') as [p3 w3].
    by rewrite (assoc_L (++)).
Qed.

(** A waker in a slot stays there, standing for the same task, until it is woken. *)
Lemma step_held p o s w :
  slot p s = Some w →
  w ∈ (step p o).2 ∨ (∃ w', slot (step p o).1 s = Some w' ∧ task w' = task w ∧ o ≠ Wake s).
Proof.
  intros Hw. destruct (decide (op_slot o = s)) as [Hs|Hs].
  - destruct o as [s' cx|s']; simpl in Hs; subst s'; simpl.
    + unfold park. rewrite Hw. destruct (will_wake w cx); simpl; [right; eauto|].
      left. set_solver.
    + unfold wake. rewrite Hw. simpl. left. set_solver.
  - right. exists w. rewrite (step_other _ _ _ Hs). split; [done|]. split; [done|].
    by intros ->.
Qed.

Lemma run_held p os s w :
  slot p s = Some w →
  (∃ w', w' ∈ (run p os).2 ∧ task w' = task w) ∨
  (∃ w', slot (run p os).1 s = Some w' ∧ task w' = task w ∧ Wake s ∉ os).
Proof.
  revert p w. induction os as [|o os IH]; intros p w Hw; simpl.
  { right. exists w. set_solver. }
  pose proof (step_held p o s w Hw) as Ho.
  destruct (step p o) as [p1 w1]. simpl in Ho.
  destruct Ho as [Ho|(w' & Hw' & Ht & Hne)].
  - left. destruct (run p1 os). exists w. set_solver.
  - destruct (IH p1 w' Hw') as [(v & Hv & Hvt)|(v & Hv & Hvt & Hn)];
      destruct (run p1 os) as [p2 w2]; cbn [fst snd] in *.
    + left. exists v. split; [set_solver|congruence].
    + right. exists v. split; [done|]. split; [congruence|].
      by apply not_elem_of_cons.
Qed.

Lemma park_holds p s cx : ∃ w, slot (park p s cx).1 s = Some w ∧ task w = task cx.
Proof.
  unfold park. destruct (slot p s) as [e|] eqn:E; [destruct (will_wake e cx) eqn:Ew|];
    simpl; rewrite ?slot_set_same; eauto using will_wake_task.
Qed.

(** Wakers cloned into a slot over a run. *)
Definition stored (p : Parked) (o : op) : list Waker :=
  match o with
  | Wake _ => []
  | Park s cx =>
      match slot p s with
      | Some e => if will_wake e cx then [] else [cx]
      | None => [cx]
      end
  end.

Fixpoint all_stored (p : Parked) (os : list op) : list Waker :=
  match os with [] => [] | o :: os => stored p o ++ all_stored (step p o).1 os end.

Definition held (p : Parked) : list Waker :=
  option_list (credit p) ++ option_list (read_ahead p).

Lemma step_conserves p o :
  (step p o).2 ++ held (step p o).1 ≡ₚ stored p o ++ held p.
Proof.
  destruct p as [c r], o as [[] cx|[]]; simpl; unfold park, wake, held; simpl;
    repeat case_match; simplify_eq/=; rewrite ?app_nil_r; try done; try solve_Permutation.
Qed.

Lemma run_conserves p os :
  (run p os).2 ++ held (run p os).1 ≡ₚ all_stored p os ++ held p.
Proof.
  revert p. induction os as [|o os IH]; intros p; simpl; [done|].
  pose proof (step_conserves p o) as Ho. destruct (step p o) as [p1 w1]; simpl in *.
  specialize (IH p1). destruct (run p1 os) as [p2 w2]; simpl in *.
  rewrite <-!(assoc_L (++)), IH, (Permutation_app_swap_app w1), Ho.
  by rewrite Permutation_app_swap_app.
Qed.
(** No wakeup is lost and none is invented, whatever the interleaving of the four
    operations.  (a) A task parked in a slot is woken between its parking and the end of
    any later run that contains that slot's event: either a later task displaced it (and
    woke it) or the event fired it.  (b) Over any run from the initial state, the wakers
    woken together with the ones still parked are exactly the wakers that were cloned into
    a slot, each once; and an operation on one slot never touches the other. *)
Theorem parked_task_woken p s cx os :
  (Wake s ∈ os →
     ∃ w, w ∈ (run (park p s cx).1 os).2 ∧ task w = task cx) ∧
  (run new os).2 ++ held (run new os).1 ≡ₚ all_stored new os ∧
  (∀ o, op_slot o ≠ s → slot (step p o).1 s = slot p s).
Proof.
  split; [|split; [|intros o; apply step_other]].
  - intros Hin. destruct (park_holds p s cx) as (w & Hw & Ht).
    destruct (run_held _ os s w Hw) as [(v & Hv & Hvt)|(v & _ & _ & Hn)]; [|done].
    exists v. split; [done|congruence].
  - rewrite (run_conserves new os). by rewrite app_nil_r.
Qed.
End WithWakers.
Arguments Parked {_}.
Arguments op {_}.

End Signals.

(** Concrete wakers: a number names the task. *)
Definition nat_wakers : Wakers := {|
  Waker := nat; Task := nat; will_wake := Nat.eqb; task := id;
  will_wake_task := λ a b, proj1 (Nat.eqb_eq a b)
|}.
#[local] Canonical Structure nat_wakers.

Lemma parked_task_woken_witness :
  let os := [Signals.Park Signals.ReadAheadSlot 2; Signals.Park Signals.Credit 3;
             Signals.Wake Signals.Credit]%nat in
  Signals.Wake Signals.Credit ∈ os ∧
  ∃ w, w ∈ (Signals.run (Signals.park Signals.new Signals.Credit 1%nat).1 os).2 ∧ w = 1%nat.
Proof.
  split; [set_solver|].
  apply (proj1 (Signals.parked_task_woken Signals.new Signals.Credit 1%nat
    [Signals.Park Signals.ReadAheadSlot 2; Signals.Park Signals.Credit 3;
     Signals.Wake Signals.Credit]%nat)).
  set_solver.
Defined.

(** ** Read-ahead *)
Module ReadAhead.

Record ReadAhead := mkReadAhead { allowance : Z; delivered_bytes : Z; credited_bytes : Z }.

Definition new (allowance : Z) : ReadAhead := mkReadAhead allowance 0 0.

Definition delivered (r : ReadAhead) (bytes : Z) : ReadAhead :=
  mkReadAhead (allowance r) (saturating_add (delivered_bytes r) bytes) (credited_bytes r).

Definition credited (r : ReadAhead) (bytes : Z) : ReadAhead :=
  mkReadAhead (allowance r) (delivered_bytes r) (saturating_add (credited_bytes r) bytes).

Definition outstanding (r : ReadAhead) : Z :=
  saturating_sub (delivered_bytes r) (credited_bytes r).

Definition is_exhausted (r : ReadAhead) : bool := allowance r <=? outstanding r.

Definition wf (r : ReadAhead) : Prop :=
  is_u64 (allowance r) ∧ is_u64 (delivered_bytes r) ∧ is_u64 (credited_bytes r).

(** A run: deliveries and credits in any order. *)
Inductive move := Deliver (n : Z) | CreditBack (n : Z).

Definition move_step (r : ReadAhead) (m : move) : ReadAhead :=
  match m with Deliver n => delivered r n | CreditBack n => credited r n end.

Definition moves (r : ReadAhead) (ms : list move) : ReadAhead := foldl move_step r ms.

Definition sum_delivered (ms : list move) : Z :=
  foldr (λ m a, match m with Deliver n => n + a | _ => a end) 0 ms.
Definition sum_credited (ms : list move) : Z :=
  foldr (λ m a, match m with CreditBack n => n + a | _ => a end) 0 ms.

Definition move_ok (m : move) : Prop :=
  match m with Deliver n | CreditBack n => is_u64 n end.

Lemma moves_exact r ms :
  wf r → Forall move_ok ms →
  allowance (moves r ms) = allowance r ∧
  delivered_bytes (moves r ms) = Z.min (delivered_bytes r + sum_delivered ms) U64_MAX ∧
  credited_bytes (moves r ms) = Z.min (credited_bytes r + sum_credited ms) U64_MAX ∧
  0 ≤ sum_delivered ms ∧ 0 ≤ sum_credited ms.
Proof.
  unfold moves. revert r. induction ms as [|m ms IH]; intros r Hwf Hms; simpl.
  - unfold wf, is_u64 in Hwf. lia.
  - apply Forall_cons in Hms as [Hm Hms].
    assert (Hwf' : wf (move_step r m)).
    { destruct Hwf as (?&?&?), m; simpl in *; unfold wf; simpl; auto with ngnet. }
    destruct (IH _ Hwf' Hms) as (-> & -> & -> & ? & ?).
    unfold wf, move_ok, is_u64 in *. destruct m; simpl; unfold saturating_add; lia.
Qed.

End ReadAhead.
