(* ===== verification/QmuxIo.v ===== *)
(** * The asynchronous QMux connection (crates/ngnet-qmux/src/io/conn.rs)

    A connection couples the state machine with a byte stream, the inbound framer, the
    outbound buffer, the event queue and the waker slots.  Its operations are written in a
    small state-and-error monad: [None] is a panic (or a loop that ran past its fuel),
    [Some (c, r)] the connection afterwards and the [Result].  A [Poll<Result<A>>] is a
    result of [Poll A].  The byte stream and the clock are the caller's and are the classes
    [ByteStream] and [Clock]; the queue and the slots are shared with the handlers the C
    library calls back, so they live in the state machine's handler state. *)

From Stdlib Require Import ZArith Lia.
From stdpp Require Import base list strings.
From S2P Require Import Prelude Varint CloseCodec QmuxError QmuxTypes QmuxConn QmuxWrite RecordFramer QmuxScheduling.

(** A byte stream's errors are only ever boxed: their text stands for them. *)
Class ByteStream `{Wakers} := {
  bstream : Type;
  poll_read : Waker → bytes → bstream → bstream * bytes * Poll (result nat string);
  poll_write : Waker → bytes → bstream → bstream * Poll (result Written string);
  poll_shutdown : Waker → bstream → bstream * Poll (result unit string)
}.

Class Clock := { clock_state : Type; clock_now : clock_state → clock_state * Time.Timestamp }.

Definition DEFAULT_STREAM_DATA : Z := 256 * 1024.
Definition DEFAULT_CONNECTION_DATA : Z := 1024 * 1024.
Definition DEFAULT_MAX_STREAMS : Z := 100.
Definition DEFAULT_READ_AHEAD : Z := DEFAULT_CONNECTION_DATA.
Definition MAX_RECORD : nat := Z.to_nat MAX_RECORD_SIZE.
Definition READ_BUFFER : nat := MAX_RECORD.
Definition OUTBOUND_CARRY : nat := Z.to_nat (64 * 1024).
Definition OUTBOUND_CEILING : nat := OUTBOUND_CARRY + MAX_RECORD.

(** ** Configuration *)
Module Config.

Record Config := mkConfig {
  initial_max_stream_data : Z;
  initial_max_data : Z;
  max_streams_bidi : Z;
  max_streams_uni : Z;
  max_idle_timeout : Time.Duration;
  read_ahead : Z
}.

Definition default : Config :=
  mkConfig DEFAULT_STREAM_DATA DEFAULT_CONNECTION_DATA DEFAULT_MAX_STREAMS
    DEFAULT_MAX_STREAMS (Time.dur_from_nanos 0) DEFAULT_READ_AHEAD.

Definition new : Config := default.

Definition with_initial_max_stream_data (n : Z) (c : Config) : Config :=
  mkConfig n (initial_max_data c) (max_streams_bidi c) (max_streams_uni c)
    (max_idle_timeout c) (read_ahead c).
Definition with_initial_max_data (n : Z) (c : Config) : Config :=
  mkConfig (initial_max_stream_data c) n (max_streams_bidi c) (max_streams_uni c)
    (max_idle_timeout c) (read_ahead c).
Definition with_max_streams_bidi (n : Z) (c : Config) : Config :=
  mkConfig (initial_max_stream_data c) (initial_max_data c) n (max_streams_uni c)
    (max_idle_timeout c) (read_ahead c).
Definition with_max_streams_uni (n : Z) (c : Config) : Config :=
  mkConfig (initial_max_stream_data c) (initial_max_data c) (max_streams_bidi c) n
    (max_idle_timeout c) (read_ahead c).
Definition with_max_idle_timeout (t : Time.Duration) (c : Config) : Config :=
  mkConfig (initial_max_stream_data c) (initial_max_data c) (max_streams_bidi c)
    (max_streams_uni c) t (read_ahead c).
Definition with_read_ahead (n : Z) (c : Config) : Config :=
  mkConfig (initial_max_stream_data c) (initial_max_data c) (max_streams_bidi c)
    (max_streams_uni c) (max_idle_timeout c) n.

Definition transport_params `{Dwnx} (c : Config) : TransportParams :=
  Params.with_max_idle_timeout (max_idle_timeout c)
    (Params.with_initial_max_streams_uni (max_streams_uni c)
      (Params.with_initial_max_streams_bidi (max_streams_bidi c)
        (Params.with_initial_max_data (initial_max_data c)
          (Params.with_initial_max_stream_data_uni (initial_max_stream_data c)
            (Params.with_initial_max_stream_data_bidi_remote (initial_max_stream_data c)
              (Params.with_initial_max_stream_data_bidi_local (initial_max_stream_data c)
                dwnx_transport_params_default)))))).

End Config.

Inductive StreamWrite := WAccepted (n : nat) | WBlocked | WClosed.
Inductive StreamOpen := SOpened (s : StreamId) | SBlocked.
Inductive Closing := Queued | ClosingWritten | Complete.
Inductive Verdict := Packed | VBlocked | VClosed.
Inductive Flush := WhenFull | Everything.
Inductive OpenKind := Bidi | Uni.

#[global] Instance Closing_eq_dec : EqDecision Closing.
Proof. solve_decision. Defined.
#[global] Instance Verdict_eq_dec : EqDecision Verdict.
Proof. solve_decision. Defined.
#[global] Instance Flush_eq_dec : EqDecision Flush.
Proof. solve_decision. Defined.

Record Produced := mkProduced { p_consumed : nat; p_bytes : nat; p_verdict : Verdict }.

(** The latched ending. *)
Record Terminal := mkTerminal {
  t_kind : Io.ErrorKind; t_context : string; t_close : option CloseReason
}.

Definition terminal_error (t : Terminal) : Io.Error :=
  let error := Io.new (t_kind t) (t_context t) in
  match t_close t with Some close => Io.with_close error close | None => error end.

Definition accepted_or (taken : nat) (refusal : StreamWrite) : StreamWrite :=
  if decide (0 < taken)%nat then WAccepted taken else refusal.

(** ** The cursor over a fragment list *)
Module Fragments.

Record Fragments := mkFragments { slices : list bytes; index : nat; offset : nat }.

Definition new (slices : list bytes) : Fragments := mkFragments slices 0 0.

(** The fragments from [index] on, the first of them from [offset] on. *)
Definition rest (f : Fragments) : list bytes :=
  match drop (index f) (slices f) with
  | [] => []
  | s :: ss => drop (offset f) s :: ss
  end.

Definition remaining (f : Fragments) : nat := sum_list_with length (rest f).

Definition is_empty (f : Fragments) : bool := bool_decide (remaining f = 0%nat).

(** Non-empty fragments into an array of [MAX_VECTORS] slots; [false] when a non-empty one
    had to be left behind. *)
Fixpoint fill (fs : list bytes) (count : nat) : list bytes * bool :=
  match fs with
  | [] => ([], true)
  | [] :: fs => fill fs count
  | fragment :: fs =>
      if decide (count = MAX_VECTORS) then ([], false)
      else let '(into, whole) := fill fs (S count) in (fragment :: into, whole)
  end.

Definition chunk (f : Fragments) : list bytes * bool := fill (rest f) 0.

Fixpoint advance_loop (after : list bytes) (index offset bytes_ : nat) : nat * nat :=
  match bytes_, after with
  | O, _ => (index, offset)
  | _, [] => (index, offset)
  | _, slice :: after =>
      let left := (length slice - offset)%nat in
      if decide (bytes_ < left)%nat then (index, offset + bytes_)%nat
      else advance_loop after (S index) 0 (bytes_ - left)
  end.

Definition advance (f : Fragments) (bytes_ : nat) : Fragments :=
  let '(i, o) := advance_loop (drop (index f) (slices f)) (index f) (offset f) bytes_ in
  mkFragments (slices f) i o.

End Fragments.
Export Fragments(Fragments).

(** ** Producing one record *)

Section Pack.
Context `{Dwnx} {U : Type}.
Abbreviation CoreResult A := (result A QmuxError.Conn.Error).
Abbreviation NConn := (QmuxConn.Conn dwnx_conn U).

(** The loop of [pack_vectored]; the fuel bounds the bytes left to offer. *)
Fixpoint pack_loop (fuel : nat) (s : option StreamId) (fin : bool) (fragments : Fragments)
    (consumed : nat) (w : RecordWriter U)
  : option (RecordWriter U * CoreResult (Fragments * nat * Verdict)) :=
  match fuel with
  | O => None
  | S fuel =>
      let '(vectors, whole) := Fragments.chunk fragments in
      let! (w, pushed) := push_vectored (mkVectored s vectors (fin && whole)) w in
      match pushed with
      | Err error =>
          if decide (consumed = 0%nat ∧ QmuxError.Conn.kind error = QmuxError.Conn.Stream)
          then Some (w, Ok (fragments, consumed, VClosed))
          else Some (w, Err error)
      | Ok (PushAccepted taken) =>
          let taken := default 0%nat taken in
          let consumed := (consumed + taken)%nat in
          let fragments := Fragments.advance fragments taken in
          if Fragments.is_empty fragments then Some (w, Ok (fragments, consumed, Packed))
          else if decide (taken = 0%nat) then Some (w, Ok (fragments, consumed, VBlocked))
          else pack_loop fuel s fin fragments consumed w
      | Ok (PushComplete taken) =>
          let taken := default 0%nat taken in
          Some (w, Ok (Fragments.advance fragments taken, (consumed + taken)%nat, Packed))
      | Ok StreamBlocked => Some (w, Ok (fragments, consumed, VBlocked))
      | Ok StreamClosed => Some (w, Ok (fragments, consumed, VClosed))
      end
  end.

(** The connection and the destination come back, on every path; the fragments' new
    position comes back on success. *)
Definition pack_vectored (c : NConn) (dest : bytes) (s : option StreamId)
    (fragments : Fragments) (fin : bool) (now : Time.Timestamp)
  : option (NConn * bytes * CoreResult (Fragments * Produced)) :=
  let! (w, r) := pack_loop (S (Fragments.remaining fragments)) s fin fragments 0
                   (QmuxWrite.record dest now c) in
  match r with
  | Err error =>
      let '(c, b) := drop_writer w in
      let! b := b in Some (c, b, Err error)
  | Ok (fragments, consumed, verdict) =>
      let! (c, b, r) := finish w in
      Some (c, b,
        let? rec := r in
        let bytes_ := match record_bytes rec with Some bs => length bs | None => 0%nat end in
        Ok (fragments, mkProduced consumed bytes_ verdict))
  end.

Definition pack (c : NConn) (dest : bytes) (request : WriteRequest) (now : Time.Timestamp)
  : option (NConn * bytes * CoreResult Produced) :=
  let! (c, b, r) :=
    pack_vectored c dest (wr_stream request) (Fragments.new [wr_data request])
      (wr_fin request) now in
  Some (c, b, let? (_, produced) := r in Ok produced).
End Pack.

(** ** The connection *)

Section Connection.
Context `{Dwnx} `{Wakers} `{!ByteStream} `{!Clock}.

(** What the handlers share with the connection: the event queue and the parked wakers.
    [woken] records the wakers woken so far, in order. *)
Record Shared := mkShared {
  events : Event.EventQueue;
  signals : Signals.Parked;
  woken : list Waker
}.

Definition push_event (e : Event.Event) (s : Shared) : Shared :=
  mkShared (Event.push (events s) e) (signals s) (woken s).

(** An operation on the slots, waking what it wakes. *)
Definition on_signals (f : Signals.Parked → Signals.Parked * list Waker) (s : Shared)
  : Shared :=
  let '(p, ws) := f (signals s) in mkShared (events s) p (woken s ++ ws).

Definition wake_by_ref (cx : Waker) (s : Shared) : Shared :=
  mkShared (events s) (signals s) (woken s ++ [cx]).

(** [handlers]: every callback becomes an event; the stream window's also wakes the
    writer parked on it. *)
Definition handlers : QmuxConn.Handlers Shared :=
  Handlers.on_transport_params
    (λ p s, (push_event (Event.PeerTransportParams p) s, Ok ()))
  (Handlers.on_extend_max_streams
    (λ '(kind, n) s, (push_event (Event.StreamLimit kind n) s, Ok ()))
  (Handlers.on_extend_max_stream_data
    (λ '(sid, n) s,
      (on_signals Signals.wake_credit (push_event (Event.StreamDataCredit sid n) s), Ok ()))
  (Handlers.on_recv_stop_sending
    (λ '(sid, code) s, (push_event (Event.StopSending sid code) s, Ok ()))
  (Handlers.on_stream_reset
    (λ '(sid, size, code) s, (push_event (Event.StreamReset sid size code) s, Ok ()))
  (Handlers.on_stream_close
    (λ e s, (push_event (Event.StreamClosed (sc_stream_id e) (sc_rx e) (sc_tx e)) s, Ok ()))
  (Handlers.on_stream_open
    (λ sid s, (push_event (Event.StreamOpened sid) s, Ok ()))
  (Handlers.on_stream_data
    (λ e s, (push_event (Event.StreamData (sd_stream_id e) (sd_offset e) (sd_data e)
                           (sd_fin e)) s, Ok ()))
    Handlers.new))))))).

Abbreviation NConn := (QmuxConn.Conn dwnx_conn Shared).

Record Connection := mkConnection {
  stream : bstream;
  clock : clock_state;
  conn : NConn;
  framer : RecordFramer;
  inbound : bytes;
  outbound : bytes;
  filled : nat;
  written : nat;
  produce_pending : bool;
  read_ahead : ReadAhead.ReadAhead;
  closing : option Closing;
  terminal : option Terminal
}.

Definition set_stream v c := mkConnection v (clock c) (conn c) (framer c) (inbound c)
  (outbound c) (filled c) (written c) (produce_pending c) (read_ahead c) (closing c) (terminal c).
Definition set_clock v c := mkConnection (stream c) v (conn c) (framer c) (inbound c)
  (outbound c) (filled c) (written c) (produce_pending c) (read_ahead c) (closing c) (terminal c).
Definition set_conn v c := mkConnection (stream c) (clock c) v (framer c) (inbound c)
  (outbound c) (filled c) (written c) (produce_pending c) (read_ahead c) (closing c) (terminal c).
Definition set_framer v c := mkConnection (stream c) (clock c) (conn c) v (inbound c)
  (outbound c) (filled c) (written c) (produce_pending c) (read_ahead c) (closing c) (terminal c).
Definition set_inbound v c := mkConnection (stream c) (clock c) (conn c) (framer c) v
  (outbound c) (filled c) (written c) (produce_pending c) (read_ahead c) (closing c) (terminal c).
Definition set_outbound v c := mkConnection (stream c) (clock c) (conn c) (framer c) (inbound c)
  v (filled c) (written c) (produce_pending c) (read_ahead c) (closing c) (terminal c).
Definition set_filled v c := mkConnection (stream c) (clock c) (conn c) (framer c) (inbound c)
  (outbound c) v (written c) (produce_pending c) (read_ahead c) (closing c) (terminal c).
Definition set_written v c := mkConnection (stream c) (clock c) (conn c) (framer c) (inbound c)
  (outbound c) (filled c) v (produce_pending c) (read_ahead c) (closing c) (terminal c).
Definition set_produce_pending v c := mkConnection (stream c) (clock c) (conn c) (framer c)
  (inbound c) (outbound c) (filled c) (written c) v (read_ahead c) (closing c) (terminal c).
Definition set_read_ahead v c := mkConnection (stream c) (clock c) (conn c) (framer c)
  (inbound c) (outbound c) (filled c) (written c) (produce_pending c) v (closing c) (terminal c).
Definition set_closing v c := mkConnection (stream c) (clock c) (conn c) (framer c) (inbound c)
  (outbound c) (filled c) (written c) (produce_pending c) (read_ahead c) v (terminal c).
Definition set_terminal v c := mkConnection (stream c) (clock c) (conn c) (framer c) (inbound c)
  (outbound c) (filled c) (written c) (produce_pending c) (read_ahead c) (closing c) v.

Definition shared (c : Connection) : Shared := user (bridge (conn c)).

Definition map_shared (f : Shared → Shared) (c : Connection) : Connection :=
  let n := conn c in
  let b := bridge n in
  set_conn (QmuxConn.mkConn (raw n) (QmuxConn.role n)
              (mkBridge (slot b) (f (user b)) (scratch b)) (QmuxConn.handlers n)) c.

(** *** The monad *)

Definition M (A : Type) : Type := Connection → option (Connection * result A Io.Error).

Definition ret {A} (a : A) : M A := λ c, Some (c, Ok a).
Definition throw {A} (e : Io.Error) : M A := λ c, Some (c, Err e).
Definition bind {A B} (m : M A) (k : A → M B) : M B := λ c,
  match m c with
  | Some (c, Ok a) => k a c
  | Some (c, Err e) => Some (c, Err e)
  | None => None
  end.
(** Run [m] and look at its result instead of returning early. *)
Definition attempt {A} (m : M A) : M (result A Io.Error) := λ c,
  match m c with Some (c, r) => Some (c, Ok r) | None => None end.
Definition gets {A} (f : Connection → A) : M A := λ c, Some (c, Ok (f c)).
Definition modify (f : Connection → Connection) : M unit := λ c, Some (f c, Ok ()).
(** A state-machine operation, its error converted by [From]. *)
Definition core {A} (f : NConn → NConn * result A QmuxError.Conn.Error) : M A := λ c,
  let '(n, r) := f (conn c) in Some (set_conn n c, map_err Io.from_conn r).
End Connection.

Notation "'let*' x ':=' m 'in' k" := (bind m (λ x, k))
  (at level 10, x pattern, m at level 100, k at level 200) : rust_scope.

Section Methods.
Context `{Dwnx} `{Wakers} `{!ByteStream} `{!Clock}.

(** *** Endings *)

Definition latch_terminal (error : Io.Error) (c : Connection) : Connection :=
  match terminal c with
  | Some _ => c
  | None =>
      set_terminal (Some (mkTerminal (Io.kind error) (Io.context error)
                            (Io.close_reason error))) c
  end.

(** [Err(self.fail(error))]. *)
Definition fail {A} (error : Io.Error) : M A := λ c, Some (latch_terminal error c, Err error).

Definition fail_stream {A} (source : string) (context : string) : M A :=
  fail (Io.with_boxed_source (Io.new Io.ByteStream context) (Io.Boxed source)).

Definition ended {A} : M A :=
  let* f := gets framer in
  match RecordFramer.close_reason f with
  | Some close =>
      fail (Io.with_close (Io.new Io.PeerClosed "the peer closed the connection") close)
  | None =>
      if at_boundary f then
        fail (Io.new Io.EndOfStream "the byte stream ended between records")
      else
        fail (Io.new Io.TruncatedRecord "the byte stream ended partway through a record")
  end.

Definition peer_closed {A} : M A :=
  let* f := gets framer in
  let error := Io.new Io.PeerClosed "the peer closed the connection" in
  fail match RecordFramer.close_reason f with
       | Some close => Io.with_close error close
       | None => error
       end.

(** [if let Some(terminal) = &self.terminal { return Err(terminal.error()) }]. *)
Definition check_terminal : M unit := λ c,
  match terminal c with
  | Some t => Some (c, Err (terminal_error t))
  | None => Some (c, Ok ())
  end.

Definition now : M Time.Timestamp := λ c,
  let '(k, t) := clock_now (clock c) in Some (set_clock k c, Ok t).

(** *** The outbound buffer *)

Definition room_for_record (c : Connection) : bool :=
  bool_decide (filled c + MAX_RECORD ≤ OUTBOUND_CEILING)%nat.

Definition room_for (remaining : nat) (continuing : bool) (c : Connection) : option nat :=
  let space := (OUTBOUND_CEILING - filled c)%nat in
  if decide (MAX_RECORD ≤ space)%nat then Some MAX_RECORD
  else if continuing && bool_decide (remaining < space)%nat then Some space
  else None.

(** [&b[from..to]]. *)
Definition slice_range (b : bytes) (from to : nat) : option bytes :=
  if decide (from ≤ to ∧ to ≤ length b)%nat then Some (take (to - from) (drop from b))
  else None.

(** The bytes [b[at_..at_ + length bs]] replaced by [bs]. *)
Definition splice (b : bytes) (at_ : nat) (bs : bytes) : bytes :=
  take at_ b ++ bs ++ drop (at_ + length bs) b.

Definition make_room (room : nat) (c : Connection) : Connection :=
  let needed := (filled c + room)%nat in
  if decide (length (outbound c) < needed)%nat then
    set_outbound (outbound c ++ replicate (needed - length (outbound c)) Byte.x00) c
  else c.

Definition append (bs : bytes) (c : Connection) : Connection :=
  let c := make_room (length bs) c in
  set_filled (filled c + length bs)%nat (set_outbound (splice (outbound c) (filled c) bs) c).

Fixpoint flush_loop (fuel : nat) (cx : Waker) (c : Connection)
  : option (Connection * result bool Io.Error) :=
  if decide (written c < filled c)%nat then
    match fuel with
    | O => None
    | S fuel =>
        let! bs := slice_range (outbound c) (written c) (filled c) in
        let '(s, r) := poll_write cx bs (stream c) in
        let c := set_stream s c in
        match r with
        | Pending | Ready (Ok NotNow) => Some (c, Ok false)
        | Ready (Err error) => fail_stream error "the byte stream failed while writing" c
        | Ready (Ok (Accepted O)) => Some (map_shared (wake_by_ref cx) c, Ok false)
        | Ready (Ok (Accepted taken)) =>
            flush_loop fuel cx (set_written (min (filled c) (written c + taken)) c)
        end
    end
  else Some (set_written 0 (set_filled 0 c), Ok true).

(** Every accepting write moves [written] towards [filled]: that distance is fuel enough. *)
Definition flush (cx : Waker) : M bool := λ c,
  flush_loop (filled c - written c) cx c.

(** *** Producing records *)

(** [serialise]: the record is built in the tail of the buffer.  [build] gives back the
    connection, the destination and its answer. *)
Definition serialise {F} (room : nat)
    (build : QmuxConn.Conn dwnx_conn Shared → bytes →
       option (QmuxConn.Conn dwnx_conn Shared * bytes *
               result (F * Produced) QmuxError.Conn.Error)) : M (F * Produced) := λ c,
  let room := min room MAX_RECORD in
  let c := make_room room c in
  let at_ := filled c in
  let! dest := slice_range (outbound c) at_ (at_ + room) in
  let! (n, dest, r) := build (conn c) dest in
  let c := set_outbound (splice (outbound c) at_ dest) (set_conn n c) in
  match r with
  | Ok (f, produced) =>
      Some (set_filled (filled c + p_bytes produced)%nat c, Ok (f, produced))
  | Err error =>
      fail (Io.with_context (Io.from_conn error)
              "serialising a record failed, which loses whatever it had already packed") c
  end.

Definition produce_within (request : WriteRequest) (room : nat) : M Produced :=
  let* t := now in
  let* (_, produced) := serialise (F:=unit) room (λ n dest,
    let! (n, dest, r) := pack n dest request t in
    Some (n, dest, let? produced := r in Ok ((), produced))) in
  ret produced.

Definition produce (request : WriteRequest) : M Produced := produce_within request MAX_RECORD.

Definition produce_vectored_within (s : StreamId) (fragments : Fragments) (fin : bool)
    (room : nat) : M (Fragments * Produced) :=
  let* t := now in
  serialise room (λ n dest, pack_vectored n dest (Some s) fragments fin t).

(** The loop of [write_side] that packs what the state machine has queued. *)
Fixpoint write_side_loop (fuel : nat) (cx : Waker) (fl : Flush) : M unit :=
  match fuel with
  | O => λ _, None
  | S fuel =>
      let* room := gets room_for_record in
      let* flushed := if room then ret true else flush cx in
      if negb flushed then ret ()
      else
        let* pending := gets produce_pending in
        let* is_closing := gets closing in
        if negb pending || bool_decide (is_Some is_closing) then
          if decide (fl = Everything) then let* _ := flush cx in ret () else ret ()
        else
          let* produced := produce control_only in
          if decide (p_bytes produced = 0%nat ∨ p_verdict produced ≠ Packed) then
            let* _ := modify (set_produce_pending false) in
            if decide (fl = Everything) then let* _ := flush cx in ret () else ret ()
          else write_side_loop fuel cx fl
  end.
End Methods.

Section Entry.
Context `{Dwnx} `{Wakers} `{!ByteStream} `{!Clock}.

(** Fuel for the two loops whose length the environment decides: how many records the
    state machine has queued, and how long the byte stream stays readable. *)
Variable fuel : nat.

Definition write_side (cx : Waker) (fl : Flush) : M unit := write_side_loop fuel cx fl.

Definition drain_pending (cx : Waker) : M bool :=
  let* _ := write_side cx Everything in
  gets (λ c, bool_decide (filled c ≤ written c)%nat).

(** *** Reading *)

Definition take_event (c : Connection) : Connection * option Event.Event :=
  match Event.pop (events (shared c)) with
  | None => (c, None)
  | Some (event, queue) =>
      let c := map_shared (λ s, mkShared queue (signals s) (woken s)) c in
      match event with
      | Event.StreamData _ _ data _ =>
          (set_read_ahead (ReadAhead.delivered (read_ahead c) (Z.of_nat (length data))) c,
           Some event)
      | _ => (c, Some event)
      end
  end.

Definition read_once (cx : Waker) : M bool := λ c,
  if ReadAhead.is_exhausted (read_ahead c) then
    Some (map_shared (on_signals (λ p, Signals.park_read_ahead p cx)) c, Ok false)
  else
    let '(s, buffer, r) := poll_read cx (inbound c) (stream c) in
    let c := set_inbound buffer (set_stream s c) in
    match r with
    | Pending => Some (c, Ok false)
    | Ready (Err error) => fail_stream error "the byte stream failed while reading" c
    | Ready (Ok O) => ended c
    | Ready (Ok n) =>
        let chunk := take (min n (length (inbound c))) (inbound c) in
        let! (f, consumed) := consume (framer c) chunk in
        let c := set_framer f c in
        match consumed with
        | Err error => fail error c
        | Ok _ =>
            let '(k, t) := clock_now (clock c) in
            let c := set_clock k c in
            let credit_before := ConnOps.max_data_left (conn c) in
            let '(n, outcome) := ConnOps.read chunk t (conn c) in
            let c := set_conn n c in
            let credit_after := ConnOps.max_data_left (conn c) in
            let c :=
              if credit_before <? credit_after then
                map_shared (push_event (Event.ConnectionDataCredit credit_after))
                  (map_shared (on_signals Signals.wake_credit) c)
              else c in
            let c := set_produce_pending true c in
            match outcome with
            | Ok Processed => Some (c, Ok true)
            | Ok PeerClosed => peer_closed c
            | Err error => fail (Io.from_conn error) c
            end
        end
    end.

Fixpoint read_side_loop (n : nat) (cx : Waker) : M unit :=
  match n with
  | O => λ _, None
  | S n => let* more := read_once cx in if more then read_side_loop n cx else ret ()
  end.

Definition read_side (cx : Waker) : M unit := read_side_loop fuel cx.

Definition pump (cx : Waker) (fl : Flush) : M unit :=
  let* _ := check_terminal in
  let* _ := write_side cx fl in
  let* _ := read_side cx in
  let* pending := gets produce_pending in
  if pending then write_side cx fl else ret ().

Definition pump_bounded (cx : Waker) (fl : Flush) : M bool :=
  let* _ := check_terminal in
  let* _ := write_side cx fl in
  let* read := read_once cx in
  let* pending := gets produce_pending in
  let* _ := if pending then write_side cx fl else ret () in
  ret read.

Definition poll_pump (cx : Waker) : M (Poll unit) :=
  let* _ := check_terminal in
  let* _ := write_side cx Everything in
  gets (λ c, if decide (filled c = 0%nat) then Ready () else Pending).

Definition poll_pump_buffered (cx : Waker) : M (Poll unit) :=
  let* read := pump_bounded cx WhenFull in
  let* _ := if read then modify (map_shared (wake_by_ref cx)) else ret () in
  gets (λ c, if room_for_record c then Ready () else Pending).

Definition queued_output (c : Connection) : nat := filled c.

Definition try_next_event (c : Connection) : Connection * option Event.Event := take_event c.

(** [take_event] in the monad. *)
Definition taken : M (option Event.Event) := λ c, let '(c, e) := take_event c in Some (c, Ok e).

Definition poll_next_event (cx : Waker) : M (Poll Event.Event) :=
  let* event := taken in
  match event with
  | Some event => ret (Ready event)
  | None =>
      let* pumped := attempt (pump_bounded cx WhenFull) in
      let* event := taken in
      match event with
      | Some event => ret (Ready event)
      | None =>
          match pumped with
          | Ok true => let* _ := modify (map_shared (wake_by_ref cx)) in ret Pending
          | Ok false => ret Pending
          | Err error => throw error
          end
      end
  end.

(** *** Streams and credit *)

Definition try_open (kind : OpenKind) : M StreamOpen :=
  let* _ := check_terminal in
  let* opened := core match kind with
                      | Bidi => ConnOps.open_bidi_stream
                      | Uni => ConnOps.open_uni_stream
                      end in
  match opened with
  | Opened s => let* _ := modify (set_produce_pending true) in ret (SOpened s)
  | OpenBlocked => ret SBlocked
  end.

Definition try_open_bidi : M StreamOpen := try_open Bidi.
Definition try_open_uni : M StreamOpen := try_open Uni.

Definition shutdown_stream (s : StreamId) (half : Shutdown) (code : Z) : M unit :=
  let* _ := check_terminal in
  let* _ := core (ConnOps.shutdown_stream s half code) in
  modify (set_produce_pending true).

Definition extend_stream_credit (s : StreamId) (n : Z) : M unit :=
  let* _ := check_terminal in
  let* _ := core (ConnOps.extend_max_stream_data s n) in
  modify (set_produce_pending true).

Definition extend_connection_credit (n : Z) : M unit :=
  let* _ := check_terminal in
  let* _ := modify (λ c, set_conn (ConnOps.extend_max_data n (conn c)) c) in
  let* _ := modify (λ c, set_read_ahead (ReadAhead.credited (read_ahead c) n) c) in
  let* _ := modify (λ c,
    if negb (ReadAhead.is_exhausted (read_ahead c)) then
      map_shared (on_signals Signals.wake_read_ahead) c
    else c) in
  modify (set_produce_pending true).

Definition extend_stream_limit (kind : Stream.Directionality) (count : Z) : M unit :=
  let* _ := check_terminal in
  let* _ := modify (λ c, set_conn
    match kind with
    | Stream.Bidirectional => ConnOps.extend_max_streams_bidi count (conn c)
    | Stream.Unidirectional => ConnOps.extend_max_streams_uni count (conn c)
    end c) in
  modify (set_produce_pending true).

(** *** Writing *)

Definition write_record (cx : Waker) (s : StreamId) (data : bytes) (fin : bool)
  : M (option Produced) :=
  let* room := gets room_for_record in
  let* flushed := if room then ret true else flush cx in
  if negb flushed then ret None
  else
    let* produced := produce (with_fin fin (QmuxWrite.stream s data)) in
    ret (Some produced).

Definition park_write (cx : Waker) (written_ : nat) : M (Poll nat) := λ c,
  if decide (0 < written_)%nat then Some (c, Ok (Ready written_))
  else Some (map_shared (on_signals (λ p, Signals.park_credit p cx)) c, Ok Pending).

Definition closed_error : Io.Error := Io.new Io.Internal "the stream's write side is closed".

(** Each round that continues takes at least a byte: the payload's length is fuel enough.
    [None] also stands for the panic of the slice [data[written..]]. *)
Fixpoint write_stream_loop (n : nat) (cx : Waker) (s : StreamId) (data : bytes) (fin : bool)
    (written_ : nat) : M (Poll nat) :=
  match n with
  | O => λ _, None
  | S n => λ c,
      let! rest := slice_from data written_ in
      (let* produced := write_record cx s rest fin in
       match produced with
       | None => if decide (0 < written_)%nat then ret (Ready written_) else ret Pending
       | Some produced =>
           let written_ := (written_ + p_consumed produced)%nat in
           match p_verdict produced with
           | VClosed =>
               if decide (written_ = 0%nat) then throw closed_error
               else ret (Ready written_)
           | VBlocked => park_write cx written_
           | Packed =>
               if decide (written_ = length data) then ret (Ready written_)
               else if decide (p_consumed produced = 0%nat) then park_write cx written_
               else write_stream_loop n cx s data fin written_
           end
       end) c
  end.

Definition write_stream_records (cx : Waker) (s : StreamId) (data : bytes) (fin : bool)
  : M (Poll nat) :=
  write_stream_loop (S (length data)) cx s data fin 0.

Definition poll_write_stream (cx : Waker) (s : StreamId) (data : bytes) (fin : bool)
  : M (Poll nat) :=
  let* _ := pump cx WhenFull in
  let* outcome := write_stream_records cx s data fin in
  let* _ := flush cx in
  ret outcome.

Fixpoint try_write_loop (n : nat) (s : StreamId) (fragments : Fragments) (fin : bool)
    (offered taken : nat) : M StreamWrite :=
  match n with
  | O => λ _, None
  | S n =>
      let* room := gets (room_for (offered - taken) (bool_decide (0 < taken)%nat)) in
      match room with
      | None => ret (accepted_or taken WBlocked)
      | Some room =>
          let* (fragments, produced) := produce_vectored_within s fragments fin room in
          let taken := (taken + p_consumed produced)%nat in
          match p_verdict produced with
          | VClosed => ret (accepted_or taken WClosed)
          | VBlocked => ret (accepted_or taken WBlocked)
          | Packed =>
              if decide (taken = offered) then ret (WAccepted taken)
              else if decide (p_consumed produced = 0%nat) then
                ret (accepted_or taken WBlocked)
              else try_write_loop n s fragments fin offered taken
          end
      end
  end.

Definition try_write_stream_vectored (s : StreamId) (slices : list bytes) (fin : bool)
  : M StreamWrite :=
  let* _ := check_terminal in
  let fragments := Fragments.new slices in
  let offered := Fragments.remaining fragments in
  try_write_loop (S offered) s fragments fin offered 0.

Definition try_write_stream (s : StreamId) (data : bytes) (fin : bool) : M StreamWrite :=
  try_write_stream_vectored s [data] fin.

(** *** Closing *)

Definition shutdown_byte_stream (cx : Waker) : M (Poll unit) := λ c,
  let '(s, r) := poll_shutdown cx (stream c) in
  let c := set_stream s c in
  match r with
  | Pending => Some (c, Ok Pending)
  | Ready (Ok _) => Some (set_closing (Some Complete) c, Ok (Ready ()))
  | Ready (Err error) => fail_stream error "the byte stream failed while shutting down" c
  end.

(** The first part of [poll_close]: [false] is the early [Poll::Pending]. *)
Definition queue_close (cx : Waker) (reason : CloseReason) : M bool :=
  let* drained := drain_pending cx in
  if negb drained then ret false
  else
    let* _ := modify (append (encode_close_record reason)) in
    let* _ := modify (set_closing (Some Queued)) in
    let* _ := modify (latch_terminal
      (Io.with_close (Io.new Io.LocallyClosed "the connection was closed locally") reason)) in
    ret true.

Definition poll_close (cx : Waker) (reason : CloseReason) : M (Poll unit) :=
  let* before := gets closing in
  if decide (before = Some Complete) then ret (Ready ())
  else
    let* go := if decide (before = None) then queue_close cx reason else ret true in
    if negb go then ret Pending
    else
      let* now_closing := gets closing in
      let* flushed :=
        if decide (now_closing = Some Queued) then
          let* done := flush cx in
          let* _ := if done then modify (set_closing (Some ClosingWritten)) else ret () in
          ret done
        else ret true in
      if negb flushed then ret Pending else shutdown_byte_stream cx.

Definition poll_finish (cx : Waker) : M (Poll unit) :=
  let* before := gets closing in
  if decide (before = Some Complete) then ret (Ready ())
  else
    let* drained := drain_pending cx in
    if negb drained then ret Pending else shutdown_byte_stream cx.

(** *** Construction *)

Definition new (role : Role) (s : bstream) (k : clock_state) (config : Config.Config)
  : result Connection Io.Error :=
  let '(k, t) := clock_now k in
  let? n := map_err Io.from_conn (ConnOps.build role
    (Settings.with_initial_timestamp t dwnx_settings_default)
    (Config.transport_params config) handlers (mkShared Event.new Signals.new [])) in
  Ok (mkConnection s k n RecordFramer.new (replicate READ_BUFFER Byte.x00) [] 0 0 true
        (ReadAhead.new (Config.read_ahead config)) None None).

Definition client := new Client.
Definition server := new Server.

Definition peer_transport_params (c : Connection) : option TransportParams :=
  ConnOps.peer_transport_params (conn c).
Definition outstanding_read_ahead (c : Connection) : Z :=
  ReadAhead.outstanding (read_ahead c).
End Entry.
