(* ===== verification/QmuxIoFacts.v ===== *)
(** * The asynchronous QMux connection: its invariants and theorems

    Facts about the operations of QmuxIo.v: the outbound buffer, the fragment cursor, one
    record's production, the offers of [try_write_stream], endings and closing. *)

From Stdlib Require Import ZArith Lia.
From stdpp Require Import base list strings.
From S2P Require Import Prelude Varint CloseCodec QmuxError QmuxTypes QmuxConn QmuxWrite RecordFramer QmuxScheduling QmuxIo.

(** ** The fragment cursor *)

Definition left_of (f : Fragments) : bytes := concat (Fragments.rest f).

Lemma length_concat_sum {A} (ls : list (list A)) : length (concat ls) = sum_list_with length ls.
Proof. induction ls as [|l ls IH]; simpl; [done|]. by rewrite length_app, IH. Qed.

Lemma remaining_left f : Fragments.remaining f = length (left_of f).
Proof. symmetry. apply length_concat_sum. Qed.

Lemma is_empty_left f : Fragments.is_empty f = true ↔ left_of f = [].
Proof.
  unfold Fragments.is_empty. rewrite bool_decide_eq_true, remaining_left.
  apply length_zero_iff_nil.
Qed.

Lemma left_new slices : left_of (Fragments.new slices) = concat slices.
Proof. unfold left_of, Fragments.rest. simpl. by destruct slices. Qed.

(** The chunk is what a vectored push would gather: a prefix of what is left, the whole of
    it exactly when the flag says so. *)
Lemma chunk_spec f :
  let vs := (Fragments.chunk f).1 in
  let whole := (Fragments.chunk f).2 in
  ∃ rest, left_of f = concat vs ++ rest ∧ (whole = true ↔ rest = []) ∧
    (length vs ≤ MAX_VECTORS)%nat.
Proof.
  assert (Hfill : ∀ fs count, Fragments.fill fs count = gather fs count).
  { induction fs as [|[|x fr] fs IH]; intros count; simpl; [done|by apply IH|].
    case_decide; [done|]. by rewrite IH. }
  unfold Fragments.chunk. rewrite Hfill.
  destruct (gather_spec (Fragments.rest f) 0 ltac:(unfold MAX_VECTORS; lia))
    as ((rest & Hr & Ht & Hf) & Hl & _).
  exists rest. split; [exact Hr|]. split; [|lia].
  destruct (gather _ _) as [vs []]; simpl in *; [by intuition|].
  split; [done|]. intros ->. by destruct Hf.
Qed.

Lemma advance_left f k :
  (k ≤ length (left_of f))%nat →
  left_of (Fragments.advance f k) = drop k (left_of f).
Proof.
  destruct f as [sl i o]. unfold Fragments.advance. simpl.
  assert (∀ after i o k, drop i sl = after →
    (k ≤ length (left_of (Fragments.mkFragments sl i o)))%nat →
    let '(i', o') := Fragments.advance_loop after i o k in
    left_of (Fragments.mkFragments sl i' o')
    = drop k (left_of (Fragments.mkFragments sl i o))) as Hloop.
  { clear. unfold left_of, Fragments.rest. simpl.
    induction after as [|s after IH]; intros i o k Ha Hk.
    { rewrite Ha in Hk |- *. simpl in Hk. destruct k; [|lia]. simpl. by rewrite Ha. }
    rewrite Ha in Hk |- *. destruct k as [|k]; [simpl; by rewrite Ha|].
    cbn [Fragments.advance_loop].
    assert (Hnext : drop (S i) sl = after) by (by rewrite <-Nat.add_1_r, <-drop_drop, Ha).
    cbn [concat] in Hk. rewrite length_app, length_drop in Hk.
    case_decide as Hd.
    - rewrite Ha. cbn [concat]. rewrite drop_app_le by (rewrite length_drop; lia).
      by rewrite drop_drop.
    - specialize (IH (S i) 0%nat (S k - (length s - o))%nat Hnext).
      rewrite Hnext in IH. 
      assert (Hz : concat match after with [] => [] | s :: ss => drop 0 s :: ss end
                   = concat after) by by destruct after.
      rewrite Hz in IH. specialize (IH ltac:(lia)).
      destruct (Fragments.advance_loop after (S i) 0 _) as [i' o'].
      rewrite IH. cbn [concat]. rewrite drop_app_ge by (rewrite length_drop; lia).
      by rewrite length_drop. }
  intros Hk. specialize (Hloop _ i o k eq_refl Hk).
  by destruct (Fragments.advance_loop _ _ _ _).
Qed.

(** ** One record *)

Section PackFacts.
Context `{DwnxWriteLaws} {U : Type}.
Implicit Type w : RecordWriter U.
Abbreviation wconn := QmuxWrite.conn.

(** The native connection's role and handlers are never changed by a push. *)
Definition same_code (c c' : Conn dwnx_conn U) : Prop :=
  role c' = role c ∧ QmuxConn.handlers c' = QmuxConn.handlers c.

Lemma same_code_bridge {R} (f : native_call dwnx_conn R) c :
  same_code c (ConnOps.with_bridge f c).1.
Proof. by destruct (with_bridge_slot f c) as (_ & ? & ?). Qed.

Lemma interpret_code rv k w : same_code (wconn w) (wconn (interpret rv k w).1).
Proof.
  unfold interpret.
  set (w1 := if _ || _ then _ else _).
  assert (Hw : wconn w1 = wconn w) by (unfold w1; by repeat case_match).
  destruct (0 <? rv).
  { destruct (usize_of rv); simpl; rewrite Hw; done. }
  repeat (case_match; [simpl; rewrite ?Hw; done|]).
  pose proof (error_from_conn (narrow rv) "serialising a record" (wconn w1)) as (_&?&?&_).
  destruct (ConnOps.error_from _ _ _). simpl in *. split; congruence.
Qed.

Lemma push_vectored_code rq w w' r :
  push_vectored rq w = Some (w', r) → same_code (wconn w) (wconn w').
Proof.
  unfold push_vectored. case_match; [by intros [= <- <-]|].
  destruct (gather _ _) as [vs whole]. destruct (buf w) as [b|]; [|done].
  set (f := dwnx_conn_writev_stream _ _ _ _ _).
  pose proof (same_code_bridge f (wconn w)) as Hb.
  destruct (ConnOps.with_bridge f (wconn w)) as [c1 r1]. intros E.
  apply (inj Some) in E. apply (f_equal fst) in E. simpl in E. rewrite <-E.
  match goal with |- context [interpret ?rv ?k ?w0] =>
    pose proof (interpret_code rv k w0) as Hi end.
  simpl in *. destruct Hb, Hi. split; congruence.
Qed.

Lemma drop_writer_code w : same_code (wconn w) (drop_writer w).1.
Proof.
  unfold drop_writer. destruct (buf w); [|done]. case_match; [done|].
  set (f := dwnx_conn_write_stream _ _ _ _ _).
  pose proof (same_code_bridge f (wconn w)) as Hb.
  by destruct (ConnOps.with_bridge f (wconn w)).
Qed.

Lemma finish_code w c b r : finish w = Some (c, b, r) → same_code (wconn w) c.
Proof.
  unfold finish. case_match.
  { pose proof (drop_writer_code w). destruct (drop_writer w) as [c1 [b1|]]; [|done].
    by intros [= <- <- <-]. }
  set (pushed := match len w with None => _ | Some _ => _ end).
  destruct pushed as [[w' r']|] eqn:Ep; [|done].
  assert (Hw : same_code (wconn w) (wconn w')).
  { unfold pushed in Ep. destruct (len w); [by injection Ep as <- <-|].
    by eapply push_vectored_code. }
  destruct r' as [p|e].
  - destruct (buf w'); [|done]. destruct (len w') as [[|n]|]; simpl.
    1,3: by intros [= <- <- <-].
    destruct (slice_to _ _); [|done]. by intros [= <- <- <-].
  - pose proof (drop_writer_code w') as [? ?]. destruct (drop_writer w') as [c1 [b1|]]; [|done].
    intros [= <- <- <-]. destruct Hw. split; simpl in *; congruence.
Qed.

Lemma same_code_trans (c1 c2 c3 : Conn dwnx_conn U) :
  same_code c1 c2 → same_code c2 c3 → same_code c1 c3.
Proof. intros [] []. split; congruence. Qed.

Lemma same_frame_trans w1 w2 w3 : same_frame w1 w2 → same_frame w2 w3 → same_frame w1 w3.
Proof. intros (?&?&?) (?&?&?). repeat split; congruence. Qed.

(** What a production that started with [consumed] bytes counted and the cursor at [f0]
    reports when it succeeds. *)
Definition pack_outcome (s : option StreamId) (f0 : Fragments) (consumed : nat) w w'
    (r : result (Fragments * nat * Verdict) QmuxError.Conn.Error) : Prop :=
  live w' ∧ same_frame w w' ∧ same_code (wconn w) (wconn w') ∧
  ∀ f k v, r = Ok (f, k, v) →
    (consumed ≤ k ≤ consumed + length (left_of f0))%nat ∧
    left_of f = drop (k - consumed) (left_of f0) ∧
    accounts (raw (wconn w)) (raw (wconn w')) (sid_of s) (left_of f0) (k - consumed).

(** The loop ends within a round per byte left; it moves the cursor past exactly the
    bytes the library took, which are the front of what was left. *)
Lemma pack_loop_spec fuel s fin f0 consumed w :
  live w → (length (left_of f0) < fuel)%nat →
  ∃ w' r, pack_loop fuel s fin f0 consumed w = Some (w', r) ∧
    pack_outcome s f0 consumed w w' r.
Proof.
  revert f0 consumed w. induction fuel as [|fuel IH]; intros f0 consumed w Hw Hf; [lia|].
  simpl. pose proof (chunk_spec f0) as (rest & Hleft & _ & _).
  destruct (Fragments.chunk f0) as [vs whole]. simpl in Hleft.
  destruct (push_vectored_spec (mkVectored s vs (fin && whole)) w Hw)
    as (w1 & r & Hp & Hw1 & Hs1 & Hc & Ha & _).
  pose proof (push_vectored_code _ _ _ _ Hp) as Hcode. simpl in *. rewrite Hp.
  assert (Hlen : (count r ≤ length (left_of f0))%nat)
    by (rewrite Hleft, length_app; lia).
  assert (Hacc : tallied r = true →
    accounts (raw (wconn w)) (raw (wconn w1)) (sid_of s) (left_of f0) (count r)).
  { intros Hok x. rewrite (Ha Hok x), Hleft. case_decide; [|done].
    by rewrite take_app_le. }
  assert (Hdone : ∀ f k v, left_of f = drop (count r) (left_of f0) →
    k = (consumed + count r)%nat → tallied r = true →
    ∃ w' r', Some (w1, Ok (f, k, v) : result (Fragments * nat * Verdict) QmuxError.Conn.Error)
             = Some (w', r') ∧ pack_outcome s f0 consumed w w' r').
  { intros f k v Hf' -> Hok. eexists _, _. do 4 (split; [done|]).
    intros f' k' v' [= <- <- <-]. split; [lia|].
    replace (consumed + count r - consumed)%nat with (count r) by lia. auto. }
  destruct r as [[k|k| |]|e].
  - simpl in *. set (k' := default 0%nat k) in *.
    destruct (Fragments.is_empty _); [apply Hdone; [by apply advance_left|done|done]|].
    case_decide as Hk; [apply Hdone; [by apply advance_left|done|done]|].
    destruct (IH (Fragments.advance f0 k') (consumed + k')%nat w1 Hw1)
      as (w2 & r2 & -> & Hw2 & Hs2 & Hcode2 & Hr2).
    { rewrite advance_left, length_drop by done. lia. }
    exists w2, r2. split; [done|]. split; [done|].
    split; [by eapply same_frame_trans|]. split; [by eapply same_code_trans|].
    intros f k2 v Hr. destruct (Hr2 f k2 v Hr) as (Hb & Hl & Hac).
    rewrite advance_left in Hb, Hl, Hac by done. rewrite length_drop in Hb.
    split; [lia|]. rewrite Hl, drop_drop. split; [f_equal; lia|].
    replace (k2 - consumed)%nat with (k' + (k2 - (consumed + k')))%nat by lia.
    by eapply accounts_trans; [apply Hacc|].
  - apply Hdone; [by apply advance_left|done|done].
  - apply Hdone; [done|simpl; lia|done].
  - apply Hdone; [done|simpl; lia|done].
  - case_decide as Hd; [|by exists w1, (Err e)].
    apply Hdone; [done|simpl; lia|]. simpl. rewrite bool_decide_eq_true. apply Hd.
Qed.
(** What one production leaves behind. *)
Definition produced_ok (s : option StreamId) (f0 f : Fragments) (p : Produced)
    (c c' : Conn dwnx_conn U) (room : nat) : Prop :=
  (p_bytes p ≤ room)%nat ∧ (p_consumed p ≤ length (left_of f0))%nat ∧
  left_of f = drop (p_consumed p) (left_of f0) ∧
  accounts (raw c) (raw c') (sid_of s) (left_of f0) (p_consumed p).

Lemma pack_vectored_spec c dest s f0 fin t :
  holds (raw c) = false →
  ∃ c' dest' r, pack_vectored (U:=U) c dest s f0 fin t = Some (c', dest', r) ∧
    holds (raw c') = false ∧ length dest' = length dest ∧ same_code c c' ∧
    ∀ f p, r = Ok (f, p) → produced_ok s f0 f p c c' (length dest).
Proof.
  intros Hc. unfold pack_vectored. rewrite remaining_left.
  destruct (pack_loop_spec (S (length (left_of f0))) s fin f0 0
              (QmuxWrite.record dest t c) (live_new c dest t Hc) ltac:(lia))
    as (w & r & -> & Hw & (_ & _ & Hb) & Hcode & Hr).
  destruct r as [[[f k] v]|e].
  - destruct (finish_spec w Hw) as (c' & b' & r & Hf & Hh & Hb' & Ha & Hlen).
    pose proof (finish_code _ _ _ _ Hf) as Hcode'. rewrite Hf.
    rewrite Hb in Hb'. apply (inj Some) in Hb'. cbn in Hb'.
    eexists _, _, _. split; [done|]. split; [done|]. split; [done|].
    split; [by eapply same_code_trans|].
    intros f' p Hr'. destruct r as [rec|]; [|done]. simplify_eq.
    destruct (Hr _ _ _ eq_refl) as (Hk & Hl & Hacc). rewrite Nat.sub_0_r in *.
    split; [|split; [simpl; lia|split; [done|]]].
    + destruct rec; simpl; [|lia|lia]. destruct (Hlen bs eq_refl) as [? _]. lia.
    + intros x. rewrite (Ha eq_refl x). apply Hacc.
  - destruct (drop_writer_spec w Hw) as (c' & b' & Hd & Hh & Hb' & _).
    pose proof (drop_writer_code w) as Hcode'. rewrite Hd in Hcode' |- *.
    rewrite Hb in Hb'. apply (inj Some) in Hb'. cbn in Hb'.
    eexists _, _, _. split; [done|]. split; [done|]. split; [done|].
    split; [by eapply same_code_trans|done].
Qed.
End PackFacts.

(** ** The connection *)

(** What a byte stream's contract says: [sent] is what it has accepted for writing so far,
    in order; a write that accepts takes a prefix of what it is offered; reading and
    shutting down send nothing, and a read fills the buffer it is lent. *)
Class StreamLaws `{ByteStream} := {
  sent : bstream → bytes;
  poll_write_sent : ∀ cx bs s,
    let '(s', r) := poll_write cx bs s in
    sent s' = sent s ++ match r with Ready (Ok (Accepted n)) => take n bs | _ => [] end;
  poll_read_sent : ∀ cx buffer s,
    let '(s', buffer', _) := poll_read cx buffer s in
    sent s' = sent s ∧ length buffer' = length buffer;
  poll_shutdown_sent : ∀ cx s, sent (poll_shutdown cx s).1 = sent s
}.

Section Invariant.
Context `{HD : Dwnx} {HL : DwnxWriteLaws}.
Context `{HW : Wakers} {HB : ByteStream} `{HS : !StreamLaws} {HC : Clock}.
Implicit Type c : Connection.

(** Queued for the byte stream and not yet accepted by it. *)
Definition pending c : bytes := take (filled c - written c) (drop (written c) (outbound c)).

(** Everything this side has produced: accepted by the byte stream, then queued. *)
Definition output c : bytes := sent (stream c) ++ pending c.

Definition wf c : Prop :=
  (written c ≤ filled c ≤ OUTBOUND_CEILING)%nat ∧ (filled c ≤ length (outbound c))%nat ∧
  holds (raw (conn c)) = false ∧
  (terminal c = None → ∃ cl p, represents (framer c) cl p).

(** How an operation may change a connection: its output only grows, and an ending, once
    latched, stays. *)
Definition grows c c' : Prop :=
  wf c' ∧ (∃ more, output c' = output c ++ more) ∧
  (∀ t, terminal c = Some t → terminal c' = Some t).

Lemma grows_refl c : wf c → grows c c.
Proof. intros. split; [done|]. split; [exists []; by rewrite app_nil_r|done]. Qed.

Lemma grows_trans c1 c2 c3 : grows c1 c2 → grows c2 c3 → grows c1 c3.
Proof.
  intros (_ & [m1 E1] & T1) (W & [m2 E2] & T2). split; [done|]. split; [|auto].
  exists (m1 ++ m2). by rewrite E2, E1, (assoc_L (++)).
Qed.

(** The parts of a connection the buffer's operations leave alone. *)
Definition same_core c c' : Prop :=
  raw (conn c') = raw (conn c) ∧ framer c' = framer c ∧ closing c' = closing c ∧
  produce_pending c' = produce_pending c ∧ read_ahead c' = read_ahead c.

Lemma latch_terminal_grows e c : wf c → grows c (latch_terminal e c).
Proof.
  intros Hwf. unfold latch_terminal.
  destruct (terminal c) eqn:Et; [by apply grows_refl|].
  split; [destruct Hwf as (?&?&?&?); by split|]. split; [exists []; by rewrite app_nil_r|].
  intros t. by rewrite Et.
Qed.

Lemma latch_terminal_core e c : same_core c (latch_terminal e c).
Proof. unfold latch_terminal. by destruct (terminal c). Qed.

(** *** The buffer *)

Lemma slice_range_ok b i j :
  (i ≤ j)%nat → (j ≤ length b)%nat → slice_range b i j = Some (take (j - i) (drop i b)).
Proof. intros. unfold slice_range. by rewrite decide_True. Qed.

Lemma flush_loop_spec fuel cx c :
  wf c → (filled c - written c ≤ fuel)%nat →
  ∃ c' r, flush_loop fuel cx c = Some (c', r) ∧ grows c c' ∧ output c' = output c ∧
    same_core c c' ∧
    (r = Ok true → filled c' = 0%nat ∧ written c' = 0%nat ∧ sent (stream c') = output c) ∧
    (is_ok r = true → terminal c' = terminal c ∧ (r = Ok false → written c' < filled c')%nat).
Proof.
  revert c. induction fuel as [|fuel IH]; intros c Hwf Hf; simpl;
    pose proof Hwf as ((Hwl & Hwc) & Hol & Hh & Hrep); case_decide as Hlt; try lia.
  1,3: eexists _, _; split; [done|]; assert (Hnil : pending c = [])
         by (unfold pending; by replace (filled c - written c)%nat with 0%nat by lia);
       (split; [split; [split; simpl; [lia|split; [lia|done]]|split; [|done]]|]);
       [exists []|]; unfold output, pending; simpl; rewrite ?take_0, ?app_nil_r;
       fold (pending c); rewrite ?Hnil, ?app_nil_r; done.
  rewrite slice_range_ok by lia. fold (pending c).
  pose proof (poll_write_sent cx (pending c) (stream c)) as Hsent.
  destruct (poll_write cx (pending c) (stream c)) as [s r].
  assert (Hkeep : sent s = sent (stream c) → ∀ c',
    c' = set_stream s c ∨ (∃ f, c' = map_shared f (set_stream s c)) →
    grows c c' ∧ output c' = output c ∧ same_core c c' ∧ terminal c' = terminal c ∧
    (written c' < filled c')%nat).
  { intros Hs c' Hc'.
    assert (Ho : output c' = output c)
      by (destruct Hc' as [->|[f ->]]; unfold output; simpl; by rewrite Hs).
    destruct Hc' as [->|[f ->]]; (split; [|done]); (split; [by split|]); (split; [|done]);
      exists []; by rewrite app_nil_r. }
  destruct r as [|[[[|n]|]|e]]; rewrite ?take_0, ?app_nil_r in Hsent.
  - destruct (Hkeep Hsent (set_stream s c)) as (?&?&?&?&?); [by left|].
    by eexists _, _.
  - destruct (Hkeep Hsent (map_shared (wake_by_ref cx) (set_stream s c))) as (?&?&?&?&?);
      [by right; eexists|]. by eexists _, _.
  - set (c1 := set_written (min (filled c) (written c + S n)) (set_stream s c)).
    assert (Hlp : length (pending c) = (filled c - written c)%nat)
      by (unfold pending; rewrite length_take, length_drop; lia).
    assert (Ho1 : output c1 = output c).
    { unfold output. simpl. rewrite Hsent, <-(assoc_L (++)). f_equal.
      unfold pending at 2. simpl.
      destruct (decide (written c + S n ≤ filled c)%nat) as [Hd|Hd].
      - rewrite Nat.min_r by lia. rewrite <-(take_drop (S n) (pending c)) at 2. f_equal.
        unfold pending. rewrite drop_take_drop' || idtac.
        rewrite <-drop_drop, skipn_firstn_comm. f_equal. lia.
      - rewrite Nat.min_l, Nat.sub_diag, take_0, app_nil_r by lia.
        apply take_ge. lia. }
    assert (Hw1 : wf c1) by (split; simpl; [lia|by split]).
    assert (Hg1 : grows c c1) by (split; [done|split; [exists []; by rewrite app_nil_r|done]]).
    destruct (IH c1 Hw1) as (c' & r & -> & Hg & Ho & Hcore & Hr & Ht); [simpl; lia|].
    eexists _, _. split; [done|]. split; [by eapply grows_trans|].
    rewrite <-Ho1. done.
  - destruct (Hkeep Hsent (set_stream s c)) as (?&?&?&?&?); [by left|]. by eexists _, _.
  - destruct (Hkeep Hsent (set_stream s c)) as (Hg&Ho&Hc&_&_); [by left|].
    pose proof (latch_terminal_grows (Io.with_boxed_source
      (Io.new Io.ByteStream "the byte stream failed while writing") (Io.Boxed e))
      (set_stream s c) (proj1 Hg)) as Hg'.
    eexists _, _. split; [reflexivity|]. split; [by eapply grows_trans|].
    unfold latch_terminal. by destruct (terminal _).
Qed.

Lemma flush_spec cx c :
  wf c →
  ∃ c' r, flush cx c = Some (c', r) ∧ grows c c' ∧ output c' = output c ∧
    same_core c c' ∧
    (r = Ok true → filled c' = 0%nat ∧ written c' = 0%nat ∧ sent (stream c') = output c) ∧
    (is_ok r = true → terminal c' = terminal c ∧ (r = Ok false → written c' < filled c')%nat).
Proof. intros. by apply flush_loop_spec. Qed.
(** *** Production *)

Lemma splice_length b i bs :
  (i + length bs ≤ length b)%nat → length (splice b i bs) = length b.
Proof. intros. unfold splice. rewrite !length_app, length_take, length_drop. lia. Qed.

Lemma take_splice b i bs k :
  (i + length bs ≤ length b)%nat → (k ≤ length bs)%nat →
  take (i + k) (splice b i bs) = take i b ++ take k bs.
Proof.
  intros. unfold splice. rewrite take_app_ge by (rewrite length_take; lia).
  rewrite length_take, Nat.min_l by lia. rewrite take_app_le by lia.
  f_equal. f_equal. lia.
Qed.

(** Queuing [k] bytes written after the queued ones. *)
Lemma pending_splice c b bs k :
  (written c ≤ filled c)%nat → (filled c + length bs ≤ length b)%nat →
  (k ≤ length bs)%nat → (filled c ≤ length (outbound c))%nat →
  take (filled c) b = take (filled c) (outbound c) →
  take (filled c + k - written c) (drop (written c) (splice b (filled c) bs))
  = pending c ++ take k bs.
Proof.
  intros Hw Hl Hk Ho Hb. unfold pending.
  rewrite <-!skipn_firstn_comm.
  replace (written c + (filled c + k - written c))%nat with (filled c + k)%nat by lia.
  replace (written c + (filled c - written c))%nat with (filled c) by lia.
  rewrite take_splice by lia. rewrite drop_app_le by (rewrite length_take; lia).
  by rewrite Hb.
Qed.

Lemma make_room_spec room c :
  let c1 := make_room room c in
  c1 = set_outbound (outbound c1) c ∧
  (filled c + room ≤ length (outbound c1))%nat ∧
  (filled c ≤ length (outbound c) → 
     take (filled c) (outbound c1) = take (filled c) (outbound c))%nat.
Proof.
  unfold make_room. case_decide as Hd; simpl.
  - split; [done|]. rewrite length_app, length_replicate. split; [lia|].
    intros. by rewrite take_app_le.
  - split; [by destruct c|]. split; [lia|done].
Qed.

Lemma serialise_spec {F} (Q : Conn dwnx_conn Shared → F → Produced → Prop) room build c :
  (∀ dest, length dest = min room MAX_RECORD →
     ∃ n' dest' r, build (conn c) dest = Some (n', dest', r) ∧ holds (raw n') = false ∧
       length dest' = length dest ∧
       ∀ f p, r = Ok (f, p) → (p_bytes p ≤ length dest)%nat ∧ Q n' f p) →
  wf c → (filled c + min room MAX_RECORD ≤ OUTBOUND_CEILING)%nat →
  ∃ c' r, serialise room build c = Some (c', r) ∧ grows c c' ∧ stream c' = stream c ∧
    closing c' = closing c ∧
    ∀ f p, r = Ok (f, p) →
      Q (conn c') f p ∧ filled c' = (filled c + p_bytes p)%nat ∧
      written c' = written c ∧ terminal c' = terminal c ∧ framer c' = framer c ∧
      produce_pending c' = produce_pending c ∧ read_ahead c' = read_ahead c ∧
      ∃ rec, output c' = output c ++ rec ∧ length rec = p_bytes p.
Proof.
  intros Hbuild Hwf Hroom. unfold serialise. set (room' := min room MAX_RECORD) in *.
  pose proof Hwf as ((Hwl & Hwc) & Hol & Hh & Hrep).
  pose proof (make_room_spec room' c) as Hm. cbv zeta in Hm.
  destruct Hm as (E1 & Hlen & Hpre). specialize (Hpre Hol).
  set (b1 := outbound (make_room room' c)) in *. rewrite E1. simpl.
  rewrite slice_range_ok by lia. replace (filled c + room' - filled c)%nat with room' by lia.
  set (dest := take room' (drop (filled c) b1)).
  assert (Hd : length dest = room') by (unfold dest; rewrite length_take, length_drop; lia).
  destruct (Hbuild dest Hd) as (n' & dest' & r & -> & Hh' & Hd' & Hr).
  rewrite Hd in Hd'.
  assert (Hw2 : ∀ k t, (k ≤ room')%nat → (t = None → terminal c = None) →
    wf (set_terminal t (set_filled (filled c + k)%nat (set_outbound (splice b1 (filled c) dest')
          (set_conn n' (set_outbound b1 c)))))).
  { intros k t Hk Ht. split; [simpl; lia|]. split; [simpl; rewrite splice_length; lia|].
    split; [done|]. simpl. auto. }
  assert (Hout : ∀ k t, (k ≤ room')%nat → 
    output (set_terminal t (set_filled (filled c + k)%nat (set_outbound (splice b1 (filled c) dest')
          (set_conn n' (set_outbound b1 c))))) = output c ++ take k dest').
  { intros k t Hk. unfold output. rewrite <-(assoc_L (++)). f_equal. unfold pending at 1. simpl.
    apply pending_splice; lia || done. }
  destruct r as [[f p]|e].
  - destruct (Hr f p eq_refl) as [Hp HQ]. rewrite Hd in Hp.
    specialize (Hw2 (p_bytes p) (terminal c) Hp ltac:(done)).
    specialize (Hout (p_bytes p) (terminal c) Hp).
    eexists _, _. split; [reflexivity|]. split; [|split; [done|split; [done|]]].
    { split; [exact Hw2|]. split; [eexists; exact Hout|done]. }
    intros f' p' [= <- <-]. do 7 (split; [done|]).
    eexists. split; [exact Hout|]. rewrite length_take. lia.
  - set (c1 := set_outbound _ _).
    assert (Hg1 : grows c c1).
    { specialize (Hw2 0%nat (terminal c) ltac:(lia) ltac:(done)).
      specialize (Hout 0%nat (terminal c) ltac:(lia)).
      rewrite Nat.add_0_r, ?take_0, ?app_nil_r in *.
      split; [exact Hw2|]. split; [|done]. exists []. rewrite app_nil_r. exact Hout. }
    eexists _, _. split; [reflexivity|].
    split; [eapply grows_trans; [exact Hg1|]; apply latch_terminal_grows, Hg1|].
    unfold latch_terminal. by destruct (terminal c1).
Qed.
(** The effect of a production that succeeded. *)
Definition produced_step c c' (p : Produced) : Prop :=
  filled c' = (filled c + p_bytes p)%nat ∧
  written c' = written c ∧ terminal c' = terminal c ∧ framer c' = framer c ∧
  produce_pending c' = produce_pending c ∧ read_ahead c' = read_ahead c ∧
  ∃ rec, output c' = output c ++ rec ∧ length rec = p_bytes p.

Lemma produce_vectored_spec s f0 fin room c :
  wf c → (filled c + min room MAX_RECORD ≤ OUTBOUND_CEILING)%nat →
  ∃ c' r, produce_vectored_within s f0 fin room c = Some (c', r) ∧ grows c c' ∧
    stream c' = stream c ∧ closing c' = closing c ∧
    ∀ f p, r = Ok (f, p) →
      produced_ok (Some s) f0 f p (conn c) (conn c') (min room MAX_RECORD) ∧
      same_code (conn c) (conn c') ∧ produced_step c c' p.
Proof.
  intros Hwf Hroom. unfold produce_vectored_within, bind, now.
  destruct (clock_now (clock c)) as [k t]. set (c0 := set_clock k c).
  destruct (serialise_spec (λ n f p,
    produced_ok (Some s) f0 f p (conn c) n (min room MAX_RECORD) ∧ same_code (conn c) n)
    room (λ n dest, pack_vectored n dest (Some s) f0 fin t) c0)
    as (c' & r & E & Hg & Hs & Hc & Hr); [|exact Hwf|exact Hroom|].
  - intros dest Hd. destruct (pack_vectored_spec (conn c) dest (Some s) f0 fin t)
      as (n' & dest' & r & Hp & Hh & Hl & Hcode & Hr); [apply Hwf|].
    exists n', dest', r. do 3 (split; [done|]). intros f p Hfp.
    specialize (Hr f p Hfp). rewrite Hd in *. split; [apply Hr|done].
  - exists c', r. split; [exact E|]. split; [exact Hg|]. split; [exact Hs|].
    split; [exact Hc|]. intros f p Hfp.
    destruct (Hr f p Hfp) as ([HQ1 HQ2] & Hstep). split; [done|]. split; [done|].
    exact Hstep.
Qed.

Lemma produce_spec request c :
  wf c → (filled c + MAX_RECORD ≤ OUTBOUND_CEILING)%nat →
  ∃ c' r, produce request c = Some (c', r) ∧ grows c c' ∧
    stream c' = stream c ∧ closing c' = closing c ∧
    ∀ p, r = Ok p →
      (∃ f, produced_ok (wr_stream request) (Fragments.new [wr_data request]) f p
              (conn c) (conn c') MAX_RECORD) ∧ produced_step c c' p.
Proof.
  intros Hwf Hroom. unfold produce, produce_within, bind, now.
  destruct (clock_now (clock c)) as [k t]. set (c0 := set_clock k c).
  destruct (serialise_spec (F:=unit) (λ n _ p,
    ∃ f, produced_ok (wr_stream request) (Fragments.new [wr_data request]) f p (conn c) n
           MAX_RECORD)
    MAX_RECORD (λ n dest, let! (n, dest, r) := pack n dest request t in
                 Some (n, dest, let? produced := r in Ok ((), produced))) c0)
    as (c' & r & -> & Hg & Hs & Hc & Hr);
    [|exact Hwf|by rewrite Nat.min_id|].
  - intros dest Hd. rewrite Nat.min_id in Hd. unfold pack.
    destruct (pack_vectored_spec (conn c) dest (wr_stream request)
      (Fragments.new [wr_data request]) (wr_fin request) t)
      as (n' & dest' & r & Hp & Hh & Hl & Hcode & Hr); [apply Hwf|].
    simpl. rewrite Hp. eexists _, _, _. split; [done|]. split; [done|]. split; [done|].
    intros f p Hfp. destruct r as [[f' p']|]; simplify_eq.
    specialize (Hr f' p eq_refl). rewrite Hd in *. split; [apply Hr|by eexists].
  - destruct r as [[[] p]|e].
    + exists c', (Ok p). split; [done|]. split; [exact Hg|]. split; [exact Hs|].
      split; [exact Hc|]. intros p' [= <-].
      destruct (Hr () p eq_refl) as (HQ & Hstep). split; [done|]. exact Hstep.
    + exists c', (Err e). split; [done|]. split; [exact Hg|]. split; [exact Hs|].
      split; [exact Hc|]. done.
Qed.

(** *** Offering data without writing *)

Definition write_count (w : StreamWrite) : nat :=
  match w with WAccepted k => k | WBlocked | WClosed => 0%nat end.

Lemma accepted_or_count k w : write_count w = 0%nat → write_count (accepted_or k w) = k.
Proof. intros Hw. unfold accepted_or. case_decide; simpl; lia. Qed.

Lemma room_for_spec rem cont c room :
  wf c → room_for rem cont c = Some room →
  (filled c + min room MAX_RECORD ≤ OUTBOUND_CEILING)%nat.
Proof.
  intros ((? & ?) & _). unfold room_for. repeat case_match; intros [= <-]; lia.
Qed.

Lemma try_write_loop_spec n s f0 fin offered taken c :
  wf c → (taken + length (left_of f0) = offered)%nat → (length (left_of f0) < n)%nat →
  ∃ c' r, try_write_loop n s f0 fin offered taken c = Some (c', r) ∧ grows c c' ∧
    stream c' = stream c ∧ closing c' = closing c ∧
    ∀ sw, r = Ok sw → terminal c' = terminal c ∧
      (taken ≤ write_count sw ≤ offered)%nat ∧
      accounts (raw (conn c)) (raw (conn c')) (Stream.get s) (left_of f0)
        (write_count sw - taken).
Proof.
  revert f0 taken c. induction n as [|n IH]; intros f0 taken c Hwf Hsum Hn; [lia|].
  cbn [try_write_loop]. unfold bind at 1, gets at 1.
  destruct (room_for _ _ c) as [room|] eqn:Er.
  2:{ eexists _, _. split; [reflexivity|]. split; [by apply grows_refl|].
      do 2 (split; [done|]). intros sw [= <-]. rewrite accepted_or_count by done.
      split; [done|]. split; [lia|]. rewrite Nat.sub_diag. apply accounts_0. }
  apply room_for_spec in Er; [|done]. unfold bind.
  destruct (produce_vectored_spec s f0 fin room c Hwf Er)
    as (c1 & r1 & -> & Hg & Hs & Hc & Hr).
  destruct r1 as [[f1 p]|e]; [|by exists c1, (Err e)].
  destruct (Hr f1 p eq_refl) as ((_ & Hk & Hl & Hacc) & _ & (_ & _ & Ht & _)).
  assert (Hfin : ∀ w, write_count w = 0%nat →
    ∃ c' r, ret (accepted_or (taken + p_consumed p) w) c1 = Some (c', r) ∧ grows c c' ∧
    stream c' = stream c ∧ closing c' = closing c ∧
    ∀ sw, r = Ok sw → terminal c' = terminal c ∧
      (taken ≤ write_count sw ≤ offered)%nat ∧
      accounts (raw (conn c)) (raw (conn c')) (Stream.get s) (left_of f0)
        (write_count sw - taken)).
  { intros w Hw. eexists _, _. split; [reflexivity|]. do 3 (split; [done|]).
    intros sw [= <-]. rewrite accepted_or_count by done. split; [done|]. split; [lia|].
    by replace (taken + p_consumed p - taken)%nat with (p_consumed p) by lia. }
  destruct (p_verdict p); [|by apply Hfin|by apply Hfin].
  case_decide as Hd.
  { eexists _, _. split; [reflexivity|]. do 3 (split; [done|]). intros sw [= <-].
    split; [done|]. split; [simpl; lia|]. simpl.
    by replace (taken + p_consumed p - taken)%nat with (p_consumed p) by lia. }
  case_decide as Hz; [by apply Hfin|].
  destruct (IH f1 (taken + p_consumed p)%nat c1 (proj1 Hg))
    as (c2 & r2 & -> & Hg2 & Hs2 & Hc2 & Hr2); [rewrite Hl, length_drop; lia..|].
  exists c2, r2. split; [done|]. split; [by eapply grows_trans|].
  split; [congruence|]. split; [congruence|]. intros sw Hsw.
  destruct (Hr2 sw Hsw) as (Ht2 & Hb & Hacc2). split; [congruence|]. split; [lia|].
  replace (write_count sw - taken)%nat
    with (p_consumed p + (write_count sw - (taken + p_consumed p)))%nat by lia.
  rewrite Hl in Hacc2. by eapply accounts_trans.
Qed.

(** C3.  [try_write_stream_vectored] on a connection that has not ended always returns,
    without a panic and without touching the byte stream.  What it reports is what
    happened: [Accepted n] means the state machine took exactly the first [n] bytes of the
    concatenated fragments onto the named stream, whatever the cuts between fragments and
    records, and [Blocked] or [Closed] that it took none; no other stream's data moved,
    the queued output only grew, and the buffer stayed under its ceiling. *)
Theorem try_write_accounts s slices fin c :
  wf c → terminal c = None →
  ∃ c' r, try_write_stream_vectored s slices fin c = Some (c', r) ∧
    stream c' = stream c ∧ wf c' ∧ (∃ more, output c' = output c ++ more) ∧
    ∀ sw, r = Ok sw →
      (write_count sw ≤ length (concat slices))%nat ∧
      accounts (raw (conn c)) (raw (conn c')) (Stream.get s) (concat slices)
        (write_count sw).
Proof.
  intros Hwf Ht. unfold try_write_stream_vectored, bind, check_terminal. rewrite Ht.
  rewrite remaining_left, left_new.
  destruct (try_write_loop_spec (S (length (concat slices))) s (Fragments.new slices) fin
    (length (concat slices)) 0 c Hwf) as (c' & r & -> & (Hw & Ho & _) & Hs & _ & Hr);
    [rewrite left_new; lia..|].
  exists c', r. do 4 (split; [done|]). intros sw Hsw.
  destruct (Hr sw Hsw) as (_ & Hb & Hacc). rewrite left_new, Nat.sub_0_r in Hacc.
  split; [lia|done].
Qed.
End Invariant.
