(* ===== verification/QmuxIoSafety.v ===== *)
(** * The asynchronous QMux connection: every operation

    The public operations of QmuxIo.v as one type, and what any of them may do: the output
    only grows, an ending stays, a queued close is the last thing sent, and an ended
    connection refuses. *)

From Stdlib Require Import ZArith Lia.
From stdpp Require Import base list sets strings.
From S2P Require Import Prelude Varint CloseCodec QmuxError QmuxTypes QmuxConn QmuxWrite RecordFramer QmuxScheduling QmuxIo QmuxIoFacts.

Section Safety.
Context `{HD : Dwnx} {HL : DwnxWriteLaws} {HI : DwnxIdleLaws}.
Context `{HW : Wakers} {HB : ByteStream} `{HS : !StreamLaws} {HC : Clock}.
Implicit Type c : Connection.

(** A close has been queued, or the byte stream shut down, on an ended connection. *)
Definition sealed c : Prop := is_Some (terminal c) ∧ is_Some (closing c).

(** [grows], and more: nothing is added to the output of a sealed connection. *)
Definition steps c c' : Prop :=
  grows c c' ∧ (sealed c → output c' = output c ∧ sealed c').

Lemma steps_refl c : wf c → steps c c.
Proof. intros. split; [by apply grows_refl|done]. Qed.

Lemma steps_trans c1 c2 c3 : steps c1 c2 → steps c2 c3 → steps c1 c3.
Proof.
  intros (G1 & S1) (G2 & S2). split; [by eapply grows_trans|].
  intros H. destruct (S1 H) as [O1 H1]. destruct (S2 H1) as [O2 H2].
  split; [congruence|done].
Qed.

Lemma steps_unsealed c c' : grows c c' → ¬ sealed c → steps c c'.
Proof. intros. by split. Qed.

Lemma steps_same c c' :
  grows c c' → output c' = output c → closing c' = closing c → steps c c'.
Proof.
  intros Hg Ho Hcl. split; [done|]. intros [[t Ht] Hc]. split; [done|].
  split; [|by rewrite Hcl]. destruct Hg as (_ & _ & Hg). exists t. by apply Hg.
Qed.

(** An action whose every outcome is such a step. *)
Definition safe {A} (m : M A) : Prop :=
  ∀ c c' r, wf c → m c = Some (c', r) → steps c c'.

Lemma safe_ret {A} (a : A) : safe (ret a).
Proof. intros c c' r Hc [= <- <-]. by apply steps_refl. Qed.

Lemma safe_throw {A} e : safe (throw (A:=A) e).
Proof. intros c c' r Hc [= <- <-]. by apply steps_refl. Qed.

Lemma safe_gets {A} (f : Connection → A) : safe (gets f).
Proof. intros c c' r Hc [= <- <-]. by apply steps_refl. Qed.

Lemma safe_bind {A B} (m : M A) (k : A → M B) :
  safe m → (∀ a, safe (k a)) → safe (bind m k).
Proof.
  intros Hm Hk c c' r Hc E. unfold bind in E.
  destruct (m c) as [[c1 [a|e]]|] eqn:Em; [| |done].
  - pose proof (Hm c c1 _ Hc Em) as H1. eapply steps_trans; [exact H1|].
    eapply Hk; [apply H1|exact E].
  - injection E as <- <-. by eapply Hm.
Qed.

Lemma safe_attempt {A} (m : M A) : safe m → safe (attempt m).
Proof.
  intros Hm c c' r Hc E. unfold attempt in E.
  destruct (m c) as [[c1 r1]|] eqn:Em; [|done]. injection E as <- <-. by eapply Hm.
Qed.

Lemma safe_modify f : (∀ c, wf c → steps c (f c)) → safe (modify f).
Proof. intros Hf c c' r Hc [= <- <-]. auto. Qed.

(** A change outside the buffer, the byte stream, the framer and the closing. *)
Definition aside (f : Connection → Connection) : Prop :=
  ∀ c, wf c → wf (f c) ∧ output (f c) = output c ∧ terminal (f c) = terminal c ∧
    closing (f c) = closing c.

Lemma aside_steps f c : aside f → wf c → steps c (f c).
Proof.
  intros Hf Hc. destruct (Hf c Hc) as (Hw & Ho & Ht & Hcl). apply steps_same; [|done..].
  split; [done|]. split; [exists []; by rewrite app_nil_r|]. intros t. by rewrite Ht.
Qed.

Lemma aside_map_shared f : aside (map_shared f).
Proof. intros c Hc. split; [exact Hc|done]. Qed.

Lemma steps_shared f c : wf c → steps c (map_shared f c).
Proof. apply aside_steps, aside_map_shared. Qed.

Lemma aside_produce_pending b : aside (set_produce_pending b).
Proof. intros c Hc. split; [exact Hc|done]. Qed.

Lemma aside_read_ahead r : aside (set_read_ahead r).
Proof. intros c Hc. split; [exact Hc|done]. Qed.

Lemma aside_conn (f : Conn dwnx_conn Shared → Conn dwnx_conn Shared) :
  (∀ n, holds (raw n) = false → holds (raw (f n)) = false) →
  aside (λ c, set_conn (f (conn c)) c).
Proof.
  intros Hf c (?&?&Hh&?). split; [|done]. split; [done|]. split; [done|].
  split; [by apply Hf|done].
Qed.

Lemma safe_check_terminal : safe check_terminal.
Proof.
  intros c c' r Hc. unfold check_terminal.
  destruct (terminal c); intros [= <- <-]; by apply steps_refl.
Qed.

Lemma latch_terminal_steps e c : wf c → steps c (latch_terminal e c).
Proof.
  intros Hc. apply steps_same; [by apply latch_terminal_grows|..];
    unfold latch_terminal; by destruct (terminal c).
Qed.

Lemma safe_fail {A} e : safe (fail (A:=A) e).
Proof. intros c c' r Hc [= <- <-]. by apply latch_terminal_steps. Qed.

Lemma safe_fail_stream {A} e ctx : safe (fail_stream (A:=A) e ctx).
Proof. apply safe_fail. Qed.

Lemma safe_ended {A} : safe (ended (A:=A)).
Proof.
  apply safe_bind; [apply safe_gets|]. intros f. repeat case_match; apply safe_fail.
Qed.

Lemma safe_peer_closed {A} : safe (peer_closed (A:=A)).
Proof. apply safe_bind; [apply safe_gets|]. intros f. apply safe_fail. Qed.

Lemma safe_flush cx : safe (flush cx).
Proof.
  intros c c' r Hc E. destruct (flush_spec cx c Hc) as (c1 & r1 & E1 & Hg & Ho & Hcore & _).
  rewrite E in E1. injection E1 as <- <-. destruct Hcore as (_ & _ & Hcl & _).
  by apply steps_same.
Qed.

Lemma with_bridge_closed {R} (f : native_call dwnx_conn R) (n : Conn dwnx_conn Shared) :
  keeps_closed f → holds (raw n) = false →
  holds (raw (ConnOps.with_bridge f n).1) = false.
Proof.
  intros Hf Hn. destruct (with_bridge_unfold f n) as [-> _]. by apply Hf.
Qed.

Lemma fail_with_closed {A} rv ctx (n : Conn dwnx_conn Shared) :
  holds (raw n) = false → holds (raw (ConnOps.fail_with (A:=A) rv ctx n).1) = false.
Proof.
  intros Hn. unfold ConnOps.fail_with. pose proof (error_from_conn rv ctx n) as (E & _).
  destruct (ConnOps.error_from rv ctx n). simpl in *. by rewrite E.
Qed.

(** A state-machine operation keeps no record open. *)
Definition core_closed {A} (f : Conn dwnx_conn Shared →
    Conn dwnx_conn Shared * result A QmuxError.Conn.Error) : Prop :=
  ∀ n, holds (raw n) = false → holds (raw (f n).1) = false.

Lemma read_core_closed d t : core_closed (ConnOps.read d t).
Proof.
  intros n Hn. unfold ConnOps.read.
  pose proof (with_bridge_closed (dwnx_conn_read d (Time.ts_as_nanos t)) n
                ltac:(auto with ngnet) Hn) as Hb.
  destruct (ConnOps.with_bridge _ n) as [n1 rv]. simpl in Hb.
  repeat case_match; try done. by apply fail_with_closed.
Qed.

Lemma open_core_closed kind :
  core_closed match kind with
              | Bidi => ConnOps.open_bidi_stream
              | Uni => ConnOps.open_uni_stream
              end.
Proof.
  destruct kind; intros n Hn; unfold ConnOps.open_bidi_stream, ConnOps.open_uni_stream,
    ConnOps.open_stream;
    (match goal with |- context [ConnOps.with_bridge ?f n] =>
      pose proof (with_bridge_closed f n ltac:(auto with ngnet) Hn) as Hb end);
    destruct (ConnOps.with_bridge _ n) as [n1 [rv sid]]; simpl in Hb;
    (destruct (rv =? 0); [done|]); (destruct (rv =? _); [done|]);
    by apply fail_with_closed.
Qed.

Lemma unit_core_closed ctx (f : native_call dwnx_conn Z) :
  keeps_closed f → core_closed (λ n, ConnOps.unit_result ctx (ConnOps.with_bridge f n)).
Proof.
  intros Hf n Hn. unfold ConnOps.unit_result.
  pose proof (with_bridge_closed f n Hf Hn) as Hb.
  destruct (ConnOps.with_bridge f n) as [n1 rv]. simpl in Hb.
  destruct (rv =? 0); [done|]. by apply fail_with_closed.
Qed.

Lemma safe_core {A} (f : Conn dwnx_conn Shared →
    Conn dwnx_conn Shared * result A QmuxError.Conn.Error) :
  core_closed f → safe (core f).
Proof.
  intros Hf c c' r Hc. unfold core. specialize (Hf (conn c) ltac:(apply Hc)).
  destruct (f (conn c)) as [n r1] eqn:E. intros [= <- <-].
  apply (aside_steps (λ c, set_conn n c)); [|done].
  intros c1 (?&?&?&?). split; [by split|done].
Qed.

Lemma safe_taken : safe taken.
Proof.
  intros c c' r Hc. unfold taken, take_event.
  destruct (Event.pop (events (shared c))) as [[e q]|].
  - set (f := map_shared (λ s, mkShared q (signals s) (woken s))).
    assert (Hf : steps c (f c)) by (apply (aside_steps f); [apply aside_map_shared|done]).
    destruct e; intros [= <- <-]; exact Hf.
  - intros [= <- <-]. by apply steps_refl.
Qed.

Lemma safe_produce request c c' r :
  wf c → closing c = None → room_for_record c = true →
  produce request c = Some (c', r) → steps c c'.
Proof.
  intros Hc Hcl Hroom E. unfold room_for_record in Hroom. apply bool_decide_eq_true in Hroom.
  destruct (produce_spec request c Hc Hroom) as (c1 & r1 & E1 & Hg & _ & Hcl1 & _).
  rewrite E in E1. injection E1 as <- <-. apply steps_unsealed; [done|].
  intros [_ [? Hs]]. congruence.
Qed.

(** Making room before a record: afterwards there is room, or the flush was refused. *)
Definition ensure_room (cx : Waker) : M bool :=
  let* room := gets room_for_record in if room then ret true else flush cx.

Lemma ensure_room_spec cx c c' r :
  wf c → ensure_room cx c = Some (c', r) →
  steps c c' ∧ closing c' = closing c ∧ (r = Ok true → room_for_record c' = true) ∧
  (r = Ok false → written c' < filled c')%nat.
Proof.
  intros Hc. unfold ensure_room, bind, gets. destruct (room_for_record c) eqn:Er.
  - intros [= <- <-]. split; [by apply steps_refl|]. done.
  - intros E. pose proof (safe_flush cx c c' r Hc E) as Hs.
    destruct (flush_spec cx c Hc) as (c1 & r1 & E1 & _ & _ & (_&_&Hcl&_) & Hr & Hf).
    rewrite E in E1. injection E1 as <- <-. split; [done|]. split; [done|].
    split; [|intros ->; by apply Hf]. intros Hok.
    destruct (Hr Hok) as (Hfill & _). unfold room_for_record. rewrite Hfill.
    apply bool_decide_eq_true. unfold OUTBOUND_CEILING. lia.
Qed.

Lemma safe_flush_unit cx : safe (let* _ := flush cx in ret ()).
Proof. apply safe_bind; [apply safe_flush|intros; apply safe_ret]. Qed.

(** [write_side], in terms of [ensure_room]. *)
Lemma write_side_unfold n cx fl c :
  write_side_loop (S n) cx fl c =
  (let* flushed := ensure_room cx in
   if negb flushed then ret ()
   else
     let* pending := gets produce_pending in
     let* is_closing := gets closing in
     if negb pending || bool_decide (is_Some is_closing) then
       if decide (fl = Everything) then let* _ := flush cx in ret () else ret ()
     else
       let* produced := produce control_only in
       if decide (p_bytes produced = 0%nat ∨ p_verdict produced ≠ Packed) then
         let* _ := modify (set_produce_pending false) in
         if decide (fl = Everything) then let* _ := flush cx in ret () else ret ()
       else write_side_loop n cx fl) c.
Proof.
  cbn [write_side_loop]. unfold ensure_room, bind, gets.
  destruct (room_for_record c); [done|]. by destruct (flush cx c) as [[? []]|].
Qed.

Lemma safe_write_side n cx fl : safe (write_side_loop n cx fl).
Proof.
  induction n as [|n IH]; intros c c' r Hc E; [done|].
  rewrite write_side_unfold in E. unfold bind at 1 in E.
  destruct (ensure_room cx c) as [[c1 [flushed|e]]|] eqn:Er; [| |done].
  2:{ injection E as <- <-. by eapply ensure_room_spec. }
  destruct (ensure_room_spec _ _ _ _ Hc Er) as (Hs & Hcl & Hroom & _).
  eapply steps_trans; [exact Hs|]. pose proof (proj1 (proj1 Hs)) as Hc1.
  destruct flushed; simpl in E; [|by eapply safe_ret].
  unfold bind at 1, gets at 1 in E. unfold bind at 1, gets at 1 in E.
  destruct (negb (produce_pending c1) || bool_decide (is_Some (closing c1))) eqn:Eb.
  { case_decide; [by eapply safe_flush_unit | by eapply safe_ret]. }
  apply orb_false_iff in Eb as [_ Ecl]. apply bool_decide_eq_false in Ecl.
  assert (Hnone : closing c1 = None) by (destruct (closing c1); [exfalso; eauto|done]).
  unfold bind at 1 in E.
  destruct (produce control_only c1) as [[c2 r2]|] eqn:Ep; [|done].
  pose proof (safe_produce _ _ _ _ Hc1 Hnone (Hroom eq_refl) Ep) as Hp.
  pose proof (proj1 (proj1 Hp)) as Hc2. eapply steps_trans; [exact Hp|].
  destruct r2 as [p|e]; [|injection E as <- <-; by apply steps_refl].
  revert E. case_decide; intros E; [|by eapply IH].
  unfold bind at 1, modify in E.
  eapply steps_trans; [by apply (aside_steps (set_produce_pending false));
    [apply aside_produce_pending|]|].
  assert (wf (set_produce_pending false c2)) by exact Hc2.
  revert E. case_decide; intros E; [by eapply safe_flush_unit | by eapply safe_ret].
Qed.

(** After a forced pass the buffer is empty, or the byte stream refused some of it. *)
Lemma write_side_everything n cx c c' :
  wf c → write_side_loop n cx Everything c = Some (c', Ok ()) →
  (filled c' = 0 ∨ written c' < filled c')%nat.
Proof.
  revert c. induction n as [|n IH]; intros c Hc E; [done|].
  assert (Hflush : ∀ c1, wf c1 → (let* _ := flush cx in ret ()) c1 = Some (c', Ok ()) →
    (filled c' = 0 ∨ written c' < filled c')%nat).
  { intros c1 Hc1. unfold bind.
    destruct (flush_spec cx c1 Hc1) as (c2 & r2 & -> & _ & _ & _ & Ht & Hf).
    destruct r2 as [[]|]; intros [= <-].
    - left. by apply Ht.
    - right. by apply Hf. }
  rewrite write_side_unfold in E. unfold bind at 1 in E.
  destruct (ensure_room cx c) as [[c1 [flushed|e]]|] eqn:Er; [|done|done].
  destruct (ensure_room_spec _ _ _ _ Hc Er) as (Hs & Hcl & Hroom & Hfull).
  pose proof (proj1 (proj1 Hs)) as Hc1.
  destruct flushed; simpl in E; [|injection E as <-; right; by apply Hfull].
  unfold bind at 1, gets at 1 in E. unfold bind at 1, gets at 1 in E.
  destruct (negb (produce_pending c1) || bool_decide (is_Some (closing c1))) eqn:Eb.
  { by apply (Hflush c1). }
  apply orb_false_iff in Eb as [_ Ecl]. apply bool_decide_eq_false in Ecl.
  assert (Hnone : closing c1 = None) by (destruct (closing c1); [exfalso; eauto|done]).
  unfold bind at 1 in E.
  destruct (produce control_only c1) as [[c2 [p|e]]|] eqn:Ep; [|done|done].
  pose proof (safe_produce _ _ _ _ Hc1 Hnone (Hroom eq_refl) Ep) as Hp.
  pose proof (proj1 (proj1 Hp)) as Hc2.
  destruct (decide (p_bytes p = 0%nat ∨ p_verdict p ≠ Packed)) as [|]; [|by eapply IH].
  by apply (Hflush (set_produce_pending false c2)).
Qed.
(** *** Reading and pumping *)

Lemma safe_read_once cx : safe (read_once cx).
Proof.
  intros c c' r Hc E. unfold read_once in E.
  destruct (ReadAhead.is_exhausted (read_ahead c)).
  { injection E as <- <-. by apply (aside_steps (map_shared _)); [apply aside_map_shared|]. }
  pose proof (poll_read_sent cx (inbound c) (stream c)) as Hsent.
  destruct (poll_read cx (inbound c) (stream c)) as [[s buffer] res].
  destruct Hsent as [Hsent _].
  set (c1 := set_inbound buffer (set_stream s c)) in *.
  assert (Ho1 : output c1 = output c) by (unfold output, c1; simpl; by rewrite Hsent).
  assert (Hs1 : steps c c1).
  { apply steps_same; [|done..]. split; [exact Hc|].
    split; [exists []; by rewrite app_nil_r|done]. }
  eapply steps_trans; [exact Hs1|]. assert (Hc1 : wf c1) by apply Hs1.
  clearbody c1. clear Hs1 Ho1.
  destruct res as [|[[|n]|e]].
  - injection E as <- <-. by apply steps_refl.
  - by eapply safe_ended.
  - set (chunk := take _ _) in E.
    destruct (consume (framer c1) chunk) as [[f res]|] eqn:Ef; [|done].
    assert (Hset : (res ≠ Ok () → is_Some (terminal c1)) → wf (set_framer f c1)).
    { intros Hres. destruct Hc1 as (?&?&?&Hrep). do 3 (split; [done|]).
      simpl. intros Ht. destruct (Hrep Ht) as (cl & p & Hp).
      destruct (consume_spec _ cl p chunk Hp) as (f' & r' & E' & Hcons).
      rewrite Ef in E'. injection E' as <- <-. destruct res as [[]|e].
      - destruct Hcons as (cl' & p' & ? & _). eauto.
      - destruct (Hres ltac:(done)) as [? ?]. congruence. }
    assert (Hstep : wf (set_framer f c1) → steps c1 (set_framer f c1)).
    { intros Hw. apply steps_same; [|done..]. split; [done|].
      split; [exists []; by rewrite app_nil_r|done]. }
    destruct res as [[]|e].
    + assert (Hw2 : wf (set_framer f c1)) by (apply Hset; done).
      eapply steps_trans; [by apply Hstep|].
      destruct (clock_now _) as [k t].
      set (c2 := set_clock k (set_framer f c1)) in *.
      assert (Hc2 : wf c2) by exact Hw2.
      assert (steps (set_framer f c1) c2) as Hs2
        by (apply (aside_steps (set_clock k)); [intros c0 H0; split; [exact H0|done]|done]).
      eapply steps_trans; [exact Hs2|]. clear Hs2. clearbody c2.
      pose proof (read_core_closed chunk t (conn c2) ltac:(apply Hc2)) as Hn.
      destruct (ConnOps.read chunk t (conn c2)) as [n2 outcome]. simpl in Hn.
      set (c3 := set_conn n2 c2) in *.
      assert (Hs3 : steps c2 c3).
      { apply (aside_steps (set_conn n2)); [|done]. intros c0 (?&?&?&?).
        split; [by split|done]. }
      eapply steps_trans; [exact Hs3|]. assert (Hc3 : wf c3) by apply Hs3.
      set (c4 := if _ <? _ then _ else c3) in E.
      assert (Hs4 : steps c3 c4).
      { unfold c4. destruct (_ <? _); [|by apply steps_refl].
        eapply steps_trans; by apply steps_shared. }
      eapply steps_trans; [exact Hs4|]. assert (Hc4 : wf c4) by apply Hs4.
      clearbody c4. set (c5 := set_produce_pending true c4) in *.
      assert (Hs5 : steps c4 c5)
        by (apply (aside_steps (set_produce_pending true));
            [apply aside_produce_pending|done]).
      eapply steps_trans; [exact Hs5|]. assert (Hc5 : wf c5) by apply Hs5.
      destruct outcome as [[]|e].
      * injection E as <- <-. by apply steps_refl.
      * by eapply safe_peer_closed.
      * by eapply safe_fail.
    + (* the framer refused: the ending is latched with it *)
      injection E as <- <-.
      destruct (terminal c1) as [t|] eqn:Et.
      * assert (Hw : wf (set_framer f c1)) by (apply Hset; eauto).
        eapply steps_trans; [by apply Hstep|]. by apply latch_terminal_steps.
      * assert (El : latch_terminal e (set_framer f c1)
                     = set_terminal (Some (mkTerminal (Io.kind e) (Io.context e)
                         (Io.close_reason e))) (set_framer f c1))
          by (unfold latch_terminal; cbn [terminal set_framer]; by rewrite Et).
        rewrite El. destruct Hc1 as (?&?&?&?). apply steps_same; [|done..].
        split; [by split|]. split; [exists []; by rewrite app_nil_r|].
        intros t. by rewrite Et.
  - by eapply safe_fail_stream.
Qed.

Lemma safe_read_side n cx : safe (read_side_loop n cx).
Proof.
  induction n as [|n IH]; [intros ????; done|]. cbn [read_side_loop].
  apply safe_bind; [apply safe_read_once|]. intros []; [exact IH|apply safe_ret].
Qed.
(** *** Operations guarded by the ending *)

(** Behind [check_terminal] only growth matters: a sealed connection has ended. *)
Definition growing {A} (m : M A) : Prop :=
  ∀ c c' r, wf c → m c = Some (c', r) → grows c c'.

Lemma safe_growing {A} (m : M A) : safe m → growing m.
Proof. intros Hm c c' r Hc E. by eapply Hm. Qed.

Lemma growing_bind {A B} (m : M A) (k : A → M B) :
  growing m → (∀ a, growing (k a)) → growing (bind m k).
Proof.
  intros Hm Hk c c' r Hc E. unfold bind in E.
  destruct (m c) as [[c1 [a|e]]|] eqn:Em; [| |done].
  - pose proof (Hm c c1 _ Hc Em) as H1. eapply grows_trans; [exact H1|].
    eapply Hk; [apply H1|exact E].
  - injection E as <- <-. by eapply Hm.
Qed.

Lemma safe_guarded {A} (m : M A) : growing m → safe (let* _ := check_terminal in m).
Proof.
  intros Hm c c' r Hc E. unfold bind, check_terminal in E.
  destruct (terminal c) eqn:Et.
  - injection E as <- <-. by apply steps_refl.
  - apply steps_unsealed; [by eapply Hm|]. intros [[? Hs] _]. congruence.
Qed.

Variable fuel : nat.

Lemma safe_pump cx fl : safe (pump fuel cx fl).
Proof.
  apply safe_bind; [apply safe_check_terminal|intros _].
  apply safe_bind; [apply safe_write_side|intros _].
  apply safe_bind; [apply safe_read_side|intros _].
  apply safe_bind; [apply safe_gets|intros []]; [apply safe_write_side|apply safe_ret].
Qed.

Lemma safe_pump_bounded cx fl : safe (pump_bounded fuel cx fl).
Proof.
  apply safe_bind; [apply safe_check_terminal|intros _].
  apply safe_bind; [apply safe_write_side|intros _].
  apply safe_bind; [apply safe_read_once|intros rd].
  apply safe_bind; [apply safe_gets|intros pend].
  apply safe_bind; [|intros _; apply safe_ret].
  destruct pend; [apply safe_write_side|apply safe_ret].
Qed.

Lemma safe_wake cx : safe (modify (map_shared (wake_by_ref cx))).
Proof. apply safe_modify. intros c Hc. by apply steps_shared. Qed.

Lemma safe_next_event cx : safe (poll_next_event fuel cx).
Proof.
  apply safe_bind; [apply safe_taken|intros [e|]]; [apply safe_ret|].
  apply safe_bind; [apply safe_attempt, safe_pump_bounded|intros pumped].
  apply safe_bind; [apply safe_taken|intros [e|]]; [apply safe_ret|].
  destruct pumped as [[]|]; [|apply safe_ret|apply safe_throw].
  apply safe_bind; [apply safe_wake|intros; apply safe_ret].
Qed.

Lemma growing_write_record cx s data fin : growing (write_record cx s data fin).
Proof.
  intros c c' r Hc E.
  assert (E' : (let* flushed := ensure_room cx in
    if negb flushed then ret None
    else let* produced := produce (with_fin fin (QmuxWrite.stream s data)) in
         ret (Some produced)) c = Some (c', r)).
  { rewrite <-E. unfold write_record, ensure_room, bind, gets.
    destruct (room_for_record c); [done|]. by destruct (flush cx c) as [[? []]|]. }
  clear E. unfold bind at 1 in E'.
  destruct (ensure_room cx c) as [[c1 [flushed|e]]|] eqn:Er; [| |done].
  2:{ injection E' as <- <-. by eapply ensure_room_spec. }
  destruct (ensure_room_spec _ _ _ _ Hc Er) as (Hs & _ & Hroom & _).
  eapply grows_trans; [apply Hs|]. assert (Hc1 : wf c1) by apply Hs.
  destruct flushed; simpl in E'; [|injection E' as <- <-; by apply grows_refl].
  specialize (Hroom eq_refl). unfold room_for_record in Hroom.
  apply bool_decide_eq_true in Hroom. unfold bind in E'.
  destruct (produce_spec (with_fin fin (QmuxWrite.stream s data)) c1 Hc1 Hroom)
    as (c2 & r2 & E2 & Hg & _). rewrite E2 in E'.
  destruct r2; by injection E' as <- <-.
Qed.

Lemma safe_park_write cx k : safe (park_write cx k).
Proof.
  intros c c' r Hc. unfold park_write. case_decide; intros [= <- <-];
    [by apply steps_refl|by apply steps_shared].
Qed.

Lemma growing_write_stream n cx s data fin k : growing (write_stream_loop n cx s data fin k).
Proof.
  revert k. induction n as [|n IH]; intros k c c' r Hc E; [done|].
  cbn [write_stream_loop] in E. destruct (slice_from data k) as [rest|]; [|done].
  revert c c' r Hc E. apply growing_bind; [apply growing_write_record|].
  intros [p|]; [|case_decide; apply safe_growing, safe_ret].
  destruct (p_verdict p).
  - case_decide; [apply safe_growing, safe_ret|].
    case_decide; [apply safe_growing, safe_park_write|apply IH].
  - apply safe_growing, safe_park_write.
  - case_decide; apply safe_growing; [apply safe_throw|apply safe_ret].
Qed.

Lemma growing_write cx s data fin :
  growing (let* outcome := write_stream_records cx s data fin in
           let* _ := flush cx in ret outcome).
Proof.
  apply growing_bind; [apply growing_write_stream|intros o].
  apply growing_bind; [apply safe_growing, safe_flush|intros; apply safe_growing, safe_ret].
Qed.

Lemma safe_poll_write cx s data fin : safe (poll_write_stream fuel cx s data fin).
Proof.
  intros c c' r Hc E. unfold poll_write_stream in E.
  destruct (terminal c) as [t|] eqn:Et.
  - unfold bind at 1, pump, bind at 1, check_terminal in E. rewrite Et in E.
    injection E as <- <-. by apply steps_refl.
  - apply steps_unsealed; [|intros [[? Hs] _]; congruence].
    revert E. apply growing_bind; [apply safe_growing, safe_pump| |done].
    intros _. apply growing_write.
Qed.

Lemma safe_try_write s slices fin : safe (try_write_stream_vectored s slices fin).
Proof.
  apply safe_guarded. intros c c' r Hc E.
  cbv zeta in E. set (f0 := Fragments.new slices) in *. rewrite remaining_left in E.
  destruct (try_write_loop_spec (S (length (left_of f0))) s f0 fin (length (left_of f0)) 0 c
    Hc ltac:(lia) ltac:(lia)) as (c1 & r1 & E1 & Hg & _).
  rewrite E in E1. by injection E1 as <- <-.
Qed.

Lemma safe_set_pending : safe (modify (set_produce_pending true)).
Proof. apply safe_modify. intros c Hc. by apply aside_steps; [apply aside_produce_pending|]. Qed.
(** *** Closing *)

Lemma safe_drain cx : safe (drain_pending fuel cx).
Proof. apply safe_bind; [apply safe_write_side|intros; apply safe_gets]. Qed.

Lemma drained_empty cx c c' :
  wf c → drain_pending fuel cx c = Some (c', Ok true) → filled c' = 0%nat ∧ written c' = 0%nat.
Proof.
  intros Hc. unfold drain_pending, bind, gets.
  destruct (write_side fuel cx Everything c) as [[c1 [[]|e]]|] eqn:E; [|done|done].
  intros [= <- Hd]. apply bool_decide_eq_true in Hd.
  pose proof (write_side_everything _ _ _ _ Hc E).
  pose proof (safe_write_side _ _ _ _ _ _ Hc E) as [[((?&?)&_) _] _]. lia.
Qed.

Lemma close_record_length reason :
  (length (encode_close_record reason) ≤ OUTBOUND_CEILING)%nat.
Proof.
  assert (Hv : ∀ z, (length (varint_bytes z) ≤ 8)%nat).
  { intros z. unfold varint_bytes, write_varint.
    repeat case_match; rewrite ?length_app; simpl; rewrite ?length_to_be_bytes; lia. }
  unfold encode_close_record. cbv zeta. rewrite write_varint_app, app_nil_l, length_app.
  pose proof (Hv (Z.of_nat (length (encode_close_frame reason)))).
  set (announced := length (varint_bytes _)) in *. clearbody announced.
  rewrite encode_close_frame_eq, !length_app.
  pose proof (encoded_len_small reason). set (R := take _ _) in *.
  set (ft := if is_application reason then FRAME_CONNECTION_CLOSE_APP else _).
  pose proof (Hv ft). pose proof (Hv (error_code reason)). pose proof (Hv (frame_type reason)).
  pose proof (Hv (Z.of_nat (length R))).
  destruct (is_application reason); cbn [length];
    unfold OUTBOUND_CEILING, OUTBOUND_CARRY, MAX_RECORD, MAX_RECORD_SIZE in *; lia.
Qed.

(** Queuing a close on an empty buffer: the close record is all that is pending. *)
Lemma append_spec bs c :
  wf c → filled c = 0%nat → written c = 0%nat → (length bs ≤ OUTBOUND_CEILING)%nat →
  let c' := append bs c in
  wf c' ∧ pending c' = bs ∧ stream c' = stream c ∧ terminal c' = terminal c ∧
  closing c' = closing c.
Proof.
  intros (_ & _ & Hh & Hrep) Hf Hw Hlen c'. unfold append in c'.
  pose proof (make_room_spec (length bs) c) as Hm. cbv zeta in Hm.
  destruct Hm as (E & Hl & _). unfold c'. rewrite E. clear c'. cbn [outbound set_outbound filled].
  set (b := outbound (make_room (length bs) c)) in *. rewrite Hf in *. simpl in *.
  split; [|split; [|done]].
  - split; [simpl; lia|]. split; [simpl; rewrite splice_length; simpl; lia|]. done.
  - unfold pending. simpl. rewrite Hw, Nat.sub_0_r, drop_0.
    pose proof (take_splice b 0 bs (length bs) ltac:(simpl; lia) ltac:(lia)) as Ht.
    simpl in Ht. rewrite Ht. by rewrite take_ge.
Qed.

Lemma pending_empty c : filled c = 0%nat → pending c = [].
Proof. intros Hf. unfold pending. rewrite Hf. done. Qed.

(** [queue_close] either leaves the buffer refused by the byte stream, fails, or leaves
    the close record as the only queued bytes, with the ending latched. *)
Lemma queue_close_spec cx reason c c' r :
  wf c → closing c = None → queue_close fuel cx reason c = Some (c', r) →
  grows c c' ∧
  (r = Ok true → closing c' = Some Queued ∧ is_Some (terminal c') ∧
     ∃ more, output c' = output c ++ more ++ encode_close_record reason).
Proof.
  intros Hc Hcl E. unfold queue_close, bind at 1 in E.
  destruct (drain_pending fuel cx c) as [[c1 [[]|e]]|] eqn:Ed; [| | |done].
  2,3: injection E as <- <-; split; [by eapply safe_drain|done].
  pose proof (safe_drain _ _ _ _ Hc Ed) as [(Hc1 & [more Ho1] & Ht1) _].
  destruct (drained_empty _ _ _ Hc Ed) as [Hf Hw].
  destruct (append_spec (encode_close_record reason) c1 Hc1 Hf Hw
    (close_record_length reason)) as (Hc2 & Hp2 & Hs2 & Ht2 & Hcl2).
  cbn [negb] in E. unfold bind, modify in E.
  set (c2 := append (encode_close_record reason) c1) in *. clearbody c2.
  set (c3 := set_closing (Some Queued) c2) in *.
  assert (Hc3 : wf c3) by exact Hc2.
  assert (Ho3 : output c3 = output c ++ more ++ encode_close_record reason).
  { change (output c3) with (output c2). unfold output at 1. rewrite Hp2, Hs2.
    rewrite (assoc_L (++)), <-Ho1. unfold output. by rewrite (pending_empty c1 Hf), app_nil_r. }
  injection E as <- <-.
  set (e := Io.with_close _ reason).
  destruct (latch_terminal_grows e c3 Hc3) as (Hc4 & _ & Ht4).
  assert (Ho4 : output (latch_terminal e c3) = output c3)
    by (unfold latch_terminal; by destruct (terminal c3)).
  split.
  - split; [done|]. split; [eexists; by rewrite Ho4, Ho3|].
    intros t Ht. apply Ht4. change (terminal c3) with (terminal c2). rewrite Ht2. auto.
  - intros _. split; [unfold latch_terminal; by destruct (terminal c3)|].
    split; [unfold latch_terminal; destruct (terminal c3) eqn:Et; simpl; rewrite ?Et; eauto|].
    exists more. by rewrite Ho4, Ho3.
Qed.

Lemma safe_shutdown_stream cx : safe (shutdown_byte_stream cx).
Proof.
  intros c c' r Hc E. unfold shutdown_byte_stream in E.
  pose proof (poll_shutdown_sent cx (stream c)) as Hsent.
  destruct (poll_shutdown cx (stream c)) as [s res]. simpl in Hsent.
  set (c1 := set_stream s c) in *.
  assert (Hs : steps c c1).
  { apply steps_same; [|unfold output; simpl; by rewrite Hsent|done].
    split; [exact Hc|]. split; [exists []; unfold output; simpl; by rewrite Hsent, app_nil_r|done]. }
  eapply steps_trans; [exact Hs|]. assert (Hc1 : wf c1) by apply Hs.
  destruct res as [|[[]|e]].
  - injection E as <- <-. by apply steps_refl.
  - injection E as <- <-. split.
    + split; [exact Hc1|]. split; [exists []; by rewrite app_nil_r|done].
    + intros [? _]. split; [done|]. split; [done|by eexists].
  - by eapply safe_fail_stream.
Qed.

(** The part of [poll_close] after the record is queued. *)
Definition finish_close (cx : Waker) : M (Poll unit) :=
  let* now_closing := gets closing in
  let* flushed :=
    if decide (now_closing = Some Queued) then
      let* done := flush cx in
      let* _ := if done then modify (set_closing (Some ClosingWritten)) else ret () in
      ret done
    else ret true in
  if negb flushed then ret Pending else shutdown_byte_stream cx.

Lemma safe_set_written : safe (modify (set_closing (Some ClosingWritten))).
Proof.
  apply safe_modify. intros c Hc. split.
  - split; [exact Hc|]. split; [exists []; by rewrite app_nil_r|done].
  - intros [? _]. split; [done|]. split; [done|by eexists].
Qed.

Lemma safe_finish_close cx : safe (finish_close cx).
Proof.
  apply safe_bind; [apply safe_gets|intros cl].
  apply safe_bind; [|intros []; [apply safe_shutdown_stream|apply safe_ret]].
  case_decide; [|apply safe_ret].
  apply safe_bind; [apply safe_flush|intros d].
  apply safe_bind; [|intros _; apply safe_ret].
  destruct d; [apply safe_set_written|apply safe_ret].
Qed.

Lemma poll_close_unfold cx reason c :
  poll_close fuel cx reason c =
  if decide (closing c = Some Complete) then Some (c, Ok (Ready ()))
  else if decide (closing c = None) then
    (let* go := queue_close fuel cx reason in
     if negb go then ret Pending else finish_close cx) c
  else finish_close cx c.
Proof.
  unfold poll_close. unfold bind at 1, gets at 1. case_decide as H1; [done|].
  case_decide as H2; [done|]. done.
Qed.

Lemma safe_poll_close cx reason : safe (poll_close fuel cx reason).
Proof.
  intros c c' r Hc E. rewrite poll_close_unfold in E. revert E.
  case_decide as H1; [intros [= <- <-]; by apply steps_refl|].
  case_decide as H2; [|by apply safe_finish_close].
  intros E. apply steps_unsealed; [|intros [_ [? ?]]; congruence].
  unfold bind in E. destruct (queue_close fuel cx reason c) as [[c1 [go|e]]|] eqn:Eq; [| |done].
  - destruct (queue_close_spec _ _ _ _ _ Hc H2 Eq) as [Hg _].
    eapply grows_trans; [exact Hg|]. destruct go; simpl in E.
    + eapply safe_growing; [apply safe_finish_close|apply Hg|exact E].
    + injection E as <- <-. apply grows_refl, Hg.
  - injection E as <- <-. by eapply queue_close_spec.
Qed.

Lemma safe_poll_finish cx : safe (poll_finish fuel cx).
Proof.
  apply safe_bind; [apply safe_gets|intros cl]. case_decide; [apply safe_ret|].
  apply safe_bind; [apply safe_drain|intros []]; [apply safe_shutdown_stream|apply safe_ret].
Qed.
(** *** Every public operation *)

Inductive op :=
| OpPump (cx : Waker) | OpPumpBuffered (cx : Waker)
| OpNextEvent (cx : Waker) | OpTryNextEvent
| OpOpen (kind : OpenKind)
| OpWrite (cx : Waker) (s : StreamId) (data : bytes) (fin : bool)
| OpTryWrite (s : StreamId) (slices : list bytes) (fin : bool)
| OpShutdown (s : StreamId) (half : Shutdown) (code : Z)
| OpStreamCredit (s : StreamId) (n : Z) | OpConnectionCredit (n : Z)
| OpStreamLimit (kind : Stream.Directionality) (n : Z)
| OpClose (cx : Waker) (reason : CloseReason) | OpFinish (cx : Waker).

(** An operation with its value forgotten. *)
Definition forget {A} (m : M A) : M unit := let* _ := m in ret ().

Definition run_op (o : op) : M unit :=
  match o with
  | OpPump cx => forget (poll_pump fuel cx)
  | OpPumpBuffered cx => forget (poll_pump_buffered fuel cx)
  | OpNextEvent cx => forget (poll_next_event fuel cx)
  | OpTryNextEvent => forget taken
  | OpOpen kind => forget (try_open kind)
  | OpWrite cx s data fin => forget (poll_write_stream fuel cx s data fin)
  | OpTryWrite s slices fin => forget (try_write_stream_vectored s slices fin)
  | OpShutdown s half code => shutdown_stream s half code
  | OpStreamCredit s n => extend_stream_credit s n
  | OpConnectionCredit n => extend_connection_credit n
  | OpStreamLimit kind n => extend_stream_limit kind n
  | OpClose cx reason => forget (poll_close fuel cx reason)
  | OpFinish cx => forget (poll_finish fuel cx)
  end.

(** A caller's use of a connection: it may go on whatever an operation answers. *)
Fixpoint run_ops (os : list op) (c : Connection) : option Connection :=
  match os with
  | [] => Some c
  | o :: os => let! (c, _) := run_op o c in run_ops os c
  end.

Lemma safe_forget {A} (m : M A) : safe m → safe (forget m).
Proof. intros Hm. apply safe_bind; [done|intros; apply safe_ret]. Qed.

Lemma safe_core_then {A} (f : Conn dwnx_conn Shared →
    Conn dwnx_conn Shared * result A QmuxError.Conn.Error) :
  core_closed f → safe (let* _ := check_terminal in let* _ := core f in
                        modify (set_produce_pending true)).
Proof.
  intros Hf. apply safe_bind; [apply safe_check_terminal|intros _].
  apply safe_bind; [by apply safe_core|intros _]. apply safe_set_pending.
Qed.

Lemma safe_set_conn (f : Conn dwnx_conn Shared → Conn dwnx_conn Shared) :
  (∀ n, holds (raw n) = false → holds (raw (f n)) = false) →
  safe (modify (λ c, set_conn (f (conn c)) c)).
Proof.
  intros Hf. apply safe_modify. intros c Hc.
  by apply (aside_steps (λ c, set_conn (f (conn c)) c)); [apply aside_conn|].
Qed.

Lemma run_op_safe o : safe (run_op o).
Proof.
  destruct o; simpl; try apply safe_forget.
  - apply safe_bind; [apply safe_check_terminal|intros _].
    apply safe_bind; [apply safe_write_side|intros _]. apply safe_gets.
  - apply safe_bind; [apply safe_pump_bounded|intros rd].
    apply safe_bind; [destruct rd; [apply safe_wake|apply safe_ret]|intros _].
    apply safe_gets.
  - apply safe_next_event.
  - apply safe_taken.
  - apply safe_bind; [apply safe_check_terminal|intros _].
    apply safe_bind; [apply safe_core, open_core_closed|intros [s|]]; [|apply safe_ret].
    apply safe_bind; [apply safe_set_pending|intros; apply safe_ret].
  - apply safe_poll_write.
  - apply safe_try_write.
  - apply safe_core_then. apply unit_core_closed. destruct half; auto with ngnet.
  - apply safe_core_then. apply unit_core_closed. auto with ngnet.
  - apply safe_bind; [apply safe_check_terminal|intros _].
    apply safe_bind; [|intros _].
    { apply safe_set_conn. intros m Hm. apply with_bridge_closed; auto with ngnet. }
    apply safe_bind; [|intros _].
    { apply safe_modify. intros c Hc. apply (aside_steps (set_read_ahead _)); [|done].
      apply aside_read_ahead. }
    apply safe_bind; [|intros _; apply safe_set_pending].
    apply safe_modify. intros c Hc. case_match; [by apply steps_shared|by apply steps_refl].
  - apply safe_bind; [apply safe_check_terminal|intros _].
    apply safe_bind; [|intros _; apply safe_set_pending].
    destruct kind; apply safe_set_conn; intros m Hm; apply with_bridge_closed; auto with ngnet.
  - apply safe_poll_close.
  - apply safe_poll_finish.
Qed.

Lemma run_ops_steps os c c' :
  wf c → run_ops os c = Some c' → steps c c'.
Proof.
  revert c. induction os as [|o os IH]; intros c Hc E.
  - injection E as <-. by apply steps_refl.
  - cbn [run_ops] in E.
    destruct (run_op o c) as [[c1 r]|] eqn:Eo; [|done].
    pose proof (run_op_safe o c c1 r Hc Eo) as Hs.
    eapply steps_trans; [exact Hs|]. apply IH; [apply Hs|done].
Qed.

Lemma wf_new role s k config c :
  QmuxIo.new role s k config = Ok c → wf c ∧ output c = sent s ∧
  QmuxConn.handlers (conn c) = handlers ∧ terminal c = None ∧ closing c = None.
Proof.
  unfold QmuxIo.new. generalize (replicate READ_BUFFER Byte.x00) as inb. intros inb.
  destruct (clock_now k) as [k' t].
  destruct (ConnOps.build _ _ _ _ _) as [n|e] eqn:E; [|done]. simpl. intros [= <-].
  unfold ConnOps.build in E. destruct (Params.validate _); [|done].
  destruct (dwnx_conn_new _ _ _) as [rv [raw|]] eqn:En; destruct (negb _) eqn:Erv; try done.
  injection E as <-.
  split; [|unfold output, pending; simpl; rewrite app_nil_r; done].
  split; [simpl; lia|]. split; [simpl; lia|].
  split; [simpl; by eapply new_closed|]. intros _. exists None, []. apply represents_new.
Qed.

(** C1.  The life of a connection, from its construction, under any sequence of its
    operations and whatever their outcomes.  What this side has produced (the bytes the
    byte stream accepted, followed by the ones still queued) is only ever extended:
    nothing queued is lost, overwritten, reordered or sent twice, and what the byte stream
    accepted is a prefix of it.  The queue never exceeds its ceiling, the library never
    keeps a pointer into the outbound buffer between operations, an ending once reported
    never changes, and after a close has been queued nothing more is produced. *)
Theorem output_only_grows role s k config c0 os1 os2 c1 c2 :
  QmuxIo.new role s k config = Ok c0 →
  run_ops os1 c0 = Some c1 → run_ops os2 c1 = Some c2 →
  (∃ more, output c2 = output c1 ++ more) ∧
  (∃ queued, output c2 = sent (stream c2) ++ queued ∧
             length queued = (filled c2 - written c2)%nat) ∧
  (filled c2 ≤ OUTBOUND_CEILING)%nat ∧ holds (raw (conn c2)) = false ∧
  (∀ t, terminal c1 = Some t → terminal c2 = Some t) ∧
  (sealed c1 → output c2 = output c1).
Proof.
  intros Hnew E1 E2.
  destruct (wf_new _ _ _ _ _ Hnew) as (Hc0 & _).
  pose proof (run_ops_steps os1 c0 c1 Hc0 E1) as [[Hc1 _] _].
  pose proof (run_ops_steps os2 c1 c2 Hc1 E2) as [[Hc2 [Ho Ht]] Hs].
  destruct Hc2 as ((? & ?) & ? & ? & _).
  split; [done|]. split.
  { exists (pending c2). split; [done|]. unfold pending.
    rewrite length_take, length_drop. lia. }
  do 3 (split; [done|]). intros Hsl. by apply Hs.
Qed.

(** An ended connection refuses.  Once an ending is latched, every operation that
    would use the connection answers with exactly that error and changes nothing at all;
    events decoded before it are still handed out, oldest first, and only when the queue
    is empty does asking for the next one answer with the error. *)
Theorem ended_refuses c t o :
  terminal c = Some t →
  match o with
  | OpTryNextEvent | OpClose _ _ | OpFinish _ => True
  | OpNextEvent cx =>
      poll_next_event fuel cx c =
        match events (shared c) with
        | e :: _ => Some ((take_event c).1, Ok (Ready e))
        | [] => Some (c, Err (terminal_error t))
        end
  | _ => run_op o c = Some (c, Err (terminal_error t))
  end.
Proof.
  intros Ht.
  assert (Hg : ∀ A (m : M A), (let* _ := check_terminal in m) c
                              = Some (c, Err (terminal_error t)))
    by (intros A m; unfold bind, check_terminal; by rewrite Ht).
  assert (Hf : ∀ A B (m : M A) (m' : M B) k, m c = Some (c, Err k) →
    bind m (λ _, m') c = Some (c, Err k)) by (intros A B m m' k E; unfold bind; by rewrite E).
  destruct o; try done; simpl run_op; unfold forget; try (by apply Hf, Hg); try by apply Hg.
  - apply Hf. unfold poll_pump_buffered, bind at 1, pump_bounded. by rewrite Hg.
  - unfold poll_next_event. unfold bind at 1, taken at 1.
    unfold take_event, Event.pop. destruct (events (shared c)) as [|e q] eqn:Eq.
    + unfold bind at 1, attempt, pump_bounded. rewrite Hg. unfold bind, taken, take_event.
      rewrite Eq. done.
    + by destruct e.
  - apply Hf. unfold poll_write_stream, bind at 1, pump. by rewrite Hg.
Qed.
(** *** A close in progress

    Its record is queued, or everything queued has reached the byte stream.  Every
    operation keeps that. *)
Definition winding_down c : Prop :=
  wf c ∧ is_Some (closing c) ∧ (closing c = Some Queued ∨ filled c ≤ written c)%nat.

Definition winds {A} (m : M A) : Prop :=
  ∀ c c' r, winding_down c → m c = Some (c', r) → winding_down c'.

Lemma winds_ret {A} (a : A) : winds (ret a).
Proof. by intros c c' r Hc [= <- <-]. Qed.

Lemma winds_gets {A} (f : Connection → A) : winds (gets f).
Proof. by intros c c' r Hc [= <- <-]. Qed.

Lemma winds_bind {A B} (m : M A) (k : A → M B) :
  winds m → (∀ a, winds (k a)) → winds (bind m k).
Proof.
  intros Hm Hk c c' r Hc E. unfold bind in E.
  destruct (m c) as [[c1 [a|e]]|] eqn:Em; [| |done].
  - eapply Hk; [|exact E]. by eapply Hm.
  - injection E as <- <-. by eapply Hm.
Qed.

Lemma winds_aside f : (∀ c, wf c → wf (f c)) →
  (∀ c, closing (f c) = closing c ∧ filled (f c) = filled c ∧ written (f c) = written c) →
  winds (modify f).
Proof.
  intros Hw Hf c c' r (Hc & Hs & Hd) [= <- <-]. destruct (Hf c) as (H1 & H2 & H3).
  split; [by apply Hw|]. by rewrite H1, H2, H3.
Qed.

Lemma winds_shared f : winds (modify (map_shared f)).
Proof. apply winds_aside; [intros c Hc; exact Hc|done]. Qed.

Lemma flush_winds cx c c' r :
  winding_down c → flush cx c = Some (c', r) →
  winding_down c' ∧ closing c' = closing c ∧
  (r = Ok true → filled c' ≤ written c')%nat.
Proof.
  intros (Hc & Hs & Hd) E.
  destruct (flush_spec cx c Hc) as (c1 & r1 & E1 & (Hc1 & _) & _ & (_ & _ & Hcl & _) & Ht & _).
  rewrite E in E1. injection E1 as <- <-.
  split; [|split; [done|intros Hr; destruct (Ht Hr) as (-> & -> & _); lia]].
  split; [done|]. rewrite Hcl. split; [done|]. destruct Hd as [Hd|Hd]; [by left|right].
  unfold flush in E. destruct (filled c - written c)%nat as [|n] eqn:En; [|lia].
  cbn [flush_loop] in E. rewrite decide_False in E by lia. by injection E as <- _.
Qed.

Lemma winds_flush cx : winds (flush cx).
Proof. intros c c' r Hc E. by eapply flush_winds. Qed.

Lemma winds_write_side n cx fl : winds (write_side_loop n cx fl).
Proof.
  destruct n as [|n]; intros c c' r Hc E; [done|].
  rewrite write_side_unfold in E. unfold bind at 1 in E.
  destruct (ensure_room cx c) as [[c1 [flushed|e]]|] eqn:Er; [| |done].
  all: assert (Hc1 : winding_down c1)
    by (unfold ensure_room, bind, gets in Er; destruct (room_for_record c);
        [by injection Er as <- _|by eapply winds_flush]).
  2:{ by injection E as <- <-. }
  destruct flushed; cbn [negb] in E; [|by injection E as <- _].
  unfold bind at 1, gets at 1 in E. unfold bind at 1, gets at 1 in E.
  rewrite (bool_decide_eq_true_2 (is_Some (closing c1))), orb_true_r in E by apply Hc1.
  revert E. case_decide; intros E; [|by injection E as <- _].
  revert E. apply (winds_bind (flush cx)); [apply winds_flush|intros; apply winds_ret|done].
Qed.

(** A shutdown of the byte stream completes the connection, when nothing is queued. *)
Lemma shutdown_winds cx c c' r :
  winding_down c → (filled c ≤ written c)%nat → shutdown_byte_stream cx c = Some (c', r) →
  winding_down c' ∧
  (r = Ok (Ready ()) → closing c' = Some Complete) ∧
  (filled c' ≤ written c')%nat.
Proof.
  intros (Hc & Hs & _) Hd E. pose proof (safe_shutdown_stream cx _ _ _ Hc E) as [[Hc' _] _].
  unfold shutdown_byte_stream in E. destruct (poll_shutdown cx (stream c)) as [s [|[[]|e]]].
  - injection E as <- <-. split; [by split; [|split; [|right]]|by split].
  - injection E as <- <-. split; [by split; [|split; [|right]]|by split].
  - unfold fail_stream, fail, latch_terminal in E. simpl in E.
    destruct (terminal c); injection E as <- <-;
      (split; [by split; [|split; [|right]]|by split]).
Qed.

Lemma finish_close_winds cx c c' r :
  winding_down c → finish_close cx c = Some (c', r) →
  winding_down c' ∧
  (r = Ok (Ready ()) → closing c' = Some Complete ∧ (filled c' ≤ written c')%nat).
Proof.
  intros Hc E. unfold finish_close in E. unfold bind at 1, gets at 1 in E.
  unfold bind at 1 in E. case_decide as Hq.
  - unfold bind at 1 in E. destruct (flush cx c) as [[c1 [[]|e]]|] eqn:Ef; [| | |done].
    all: destruct (flush_winds _ _ _ _ Hc Ef) as (Hc1 & Hcl1 & Hd1).
    + unfold bind, modify, ret in E. cbn [negb] in E.
      set (c2 := set_closing (Some ClosingWritten) c1) in E.
      assert (Hd2 : (filled c2 ≤ written c2)%nat) by (by apply Hd1).
      assert (Hc2 : winding_down c2) by (split; [apply Hc1|split; [done|by right]]).
      destruct (shutdown_winds _ _ _ _ Hc2 Hd2 E) as (H1 & H2 & H3). by auto.
    + unfold bind, ret in E. cbn [negb] in E. by injection E as <- <-.
    + by injection E as <- <-.
  - unfold ret at 1 in E. cbn [negb] in E.
    assert (Hd : (filled c ≤ written c)%nat) by (by destruct Hc as (_ & _ & [?|?])).
    destruct (shutdown_winds _ _ _ _ Hc Hd E) as (H1 & H2 & H3). by auto.
Qed.

(** A close in progress that is polled again, with any reason. *)
Lemma poll_close_winds cx reason c c' r :
  winding_down c → poll_close fuel cx reason c = Some (c', r) →
  winding_down c' ∧
  (r = Ok (Ready ()) → closing c' = Some Complete ∧ (filled c' ≤ written c')%nat).
Proof.
  intros Hc E. rewrite poll_close_unfold in E. revert E. case_decide as H1.
  { intros [= <- <-]. split; [done|]. intros _. split; [done|]. destruct Hc as (_ & _ & [Hq|Hd]); [congruence|done]. }
  rewrite decide_False by (destruct Hc as (_ & [? ->] & _); done).
  by apply finish_close_winds.
Qed.

Lemma winds_poll_finish cx : winds (poll_finish fuel cx).
Proof.
  intros c c' r Hc E. unfold poll_finish, bind at 1, gets in E.
  case_decide; [by injection E as <- _|]. unfold bind at 1 in E.
  destruct (drain_pending fuel cx c) as [[c1 [[]|e]]|] eqn:Ed; [| | |done].
  all: assert (Hc1 : winding_down c1)
    by (revert Ed; apply (winds_bind (write_side fuel cx Everything));
        [apply winds_write_side|intros; apply winds_gets|done]).
  - cbn [negb] in E. destruct (drained_empty _ _ _ (proj1 Hc) Ed) as [Hf Hw].
    eapply shutdown_winds; [exact Hc1|lia|exact E].
  - by injection E as <- _.
  - by injection E as <- _.
Qed.

(** Packing and flushing do not decide the closing. *)
Lemma write_side_closing n cx fl c c' r :
  wf c → write_side_loop n cx fl c = Some (c', r) → closing c' = closing c.
Proof.
  revert c. induction n as [|n IH]; intros c Hc E; [done|].
  assert (Hflush : ∀ c1, wf c1 → (let* _ := flush cx in ret ()) c1 = Some (c', r) →
    closing c' = closing c1).
  { intros c1 Hc1. unfold bind.
    destruct (flush_spec cx c1 Hc1) as (c2 & r2 & -> & _ & _ & (_&_&Hcl&_) & _).
    by destruct r2; intros [= <- _]. }
  rewrite write_side_unfold in E. unfold bind at 1 in E.
  destruct (ensure_room cx c) as [[c1 [flushed|e]]|] eqn:Er; [| |done].
  all: destruct (ensure_room_spec _ _ _ _ Hc Er) as (Hs & Hcl & Hroom & _); rewrite <-Hcl.
  2:{ by injection E as <- _. }
  pose proof (proj1 (proj1 Hs)) as Hc1.
  destruct flushed; cbn [negb] in E; [|by injection E as <- _].
  unfold bind at 1, gets at 1 in E. unfold bind at 1, gets at 1 in E.
  revert E. case_match; intros E.
  { case_decide; [by apply Hflush|by injection E as <- _]. }
  unfold bind at 1 in E.
  specialize (Hroom eq_refl). apply bool_decide_eq_true in Hroom.
  destruct (produce_spec control_only c1 Hc1 Hroom) as (c2 & r2 & E2 & [Hc2 _] & _ & Hcl2 & _).
  rewrite E2 in E. rewrite <-Hcl2.
  destruct r2 as [p|e]; [|by injection E as <- _].
  revert E. case_decide; intros E; [|by eapply IH].
  unfold bind at 1, modify in E. revert E. case_decide; intros E; [|by injection E as <- _].
  by apply (Hflush (set_produce_pending false c2)).
Qed.

(** [poll_close] on a connection not closing yet: it is refused and nothing has begun, or
    the record is queued behind everything produced before. *)
Lemma poll_close_begins cx reason c c1 r :
  wf c → closing c = None → poll_close fuel cx reason c = Some (c1, r) →
  (closing c1 = None ∧ r ≠ Ok (Ready ())) ∨
  (winding_down c1 ∧ sealed c1 ∧
   (∃ more, output c1 = output c ++ more ++ encode_close_record reason) ∧
   (r = Ok (Ready ()) → closing c1 = Some Complete)).
Proof.
  intros Hc Hcl E. rewrite poll_close_unfold in E.
  rewrite decide_False, decide_True in E by (rewrite Hcl; done).
  unfold bind at 1 in E.
  destruct (queue_close fuel cx reason c) as [[cq [go|e]]|] eqn:Eq; [| |done].
  2:{ injection E as <- <-. left. split; [|done]. rewrite <-Hcl.
      unfold queue_close, bind at 1 in Eq.
      destruct (drain_pending fuel cx c) as [[cd [[]|e']]|] eqn:Ed; try done.
      injection Eq as <- _. unfold drain_pending, bind in Ed.
      destruct (write_side fuel cx Everything c) as [[cw [[]|?]]|] eqn:Ew; try done.
      injection Ed as <- _. by eapply write_side_closing. }
  destruct (queue_close_spec _ _ _ _ _ Hc Hcl Eq) as [Hg Hq].
  destruct go; cbn [negb] in E.
  - right. destruct (Hq eq_refl) as (Hclq & Htq & more & Hoq).
    assert (Hwq : winding_down cq)
      by (split; [apply Hg|]; split; [rewrite Hclq; by eexists|by left]).
    destruct (finish_close_winds _ _ _ _ Hwq E) as (H1 & H2).
    pose proof (safe_finish_close cx _ _ _ (proj1 Hg) E) as [_ Hseal].
    destruct Hseal as [Ho Hs]; [split; [done|rewrite Hclq; by eexists]|].
    split; [done|]. split; [done|]. split; [exists more; congruence|].
    intros Hr. by apply H2.
  - injection E as <- <-. left. split; [|done]. rewrite <-Hcl.
    unfold queue_close, bind at 1 in Eq.
    destruct (drain_pending fuel cx c) as [[cd [[]|e']]|] eqn:Ed; try done.
    injection Eq as <-. unfold drain_pending, bind in Ed.
    destruct (write_side fuel cx Everything c) as [[cw [[]|?]]|] eqn:Ew; try done.
    injection Ed as <- _. by eapply write_side_closing.
Qed.

(** Winding down is kept by every operation. *)
Lemma winds_run_op o c c' r :
  sealed c → winding_down c → run_op o c = Some (c', r) → winding_down c'.
Proof.
  intros [[t Ht] _] Hc E. pose proof (ended_refuses c t o Ht) as He.
  destruct o; cbv beta iota in He; try (rewrite He in E; by injection E as <- _).
  - unfold run_op, forget, bind in E. rewrite He in E.
    destruct (events (shared c)) as [|e q] eqn:Eq; injection E as <- _; [done|].
    unfold take_event, Event.pop. rewrite Eq. by destruct e.
  - unfold run_op, forget, bind, taken, take_event in E.
    destruct (Event.pop (events (shared c))) as [[e q]|]; [|by injection E as <- _].
    by destruct e; injection E as <- _.
  - unfold run_op, forget, bind in E.
    destruct (poll_close fuel cx reason c) as [[c1 r1]|] eqn:E1; [|done].
    destruct r1; injection E as <- _; by eapply poll_close_winds.
  - revert E. unfold run_op. apply (winds_bind (poll_finish fuel cx));
      [apply winds_poll_finish|intros; apply winds_ret|done].
Qed.

Lemma winds_run_ops os c c' :
  sealed c → winding_down c → run_ops os c = Some c' → winding_down c' ∧ sealed c'.
Proof.
  revert c. induction os as [|o os IH]; intros c Hs Hc E; [by injection E as <-|].
  cbn [run_ops] in E. destruct (run_op o c) as [[c1 r]|] eqn:Eo; [|done].
  pose proof (run_op_safe o c c1 r (proj1 Hc) Eo) as [_ Hseal].
  apply (IH c1); [by apply Hseal|by eapply winds_run_op|done].
Qed.

Lemma wound_down c : winding_down c → closing c ≠ Some Queued → sent (stream c) = output c.
Proof.
  intros (_ & _ & [?|Hd]) Hq; [done|]. unfold output, pending.
  replace (filled c - written c)%nat with O by lia. by rewrite app_nil_r.
Qed.

(** C13.  A close that completes is the last thing the peer receives, over however many
    polls it takes.  [poll_close], called on a connection not closing yet, either does not
    begin the close, and then does not answer [Ready(Ok)]; or the encoded close record is
    queued right behind everything produced before, and from then on, whatever operations
    follow, other polls included, with any answers of the byte stream (one that refuses
    half of a flush, say): nothing is added behind the record; until the record counts as
    written it is still in the queue or sent, and once it counts as written the byte
    stream has accepted everything with nothing queued; and any poll, the first or a later
    one, that answers [Ready(Ok)] leaves the connection complete, with everything
    produced and then the record accepted by the byte stream. *)
Theorem close_is_last cx reason c c1 r1 :
  wf c → closing c = None → poll_close fuel cx reason c = Some (c1, r1) →
  (closing c1 = None ∧ r1 ≠ Ok (Ready ())) ∨
  ∃ before, output c `prefix_of` before ∧
    (r1 = Ok (Ready ()) → closing c1 = Some Complete) ∧
    ∀ os c2, run_ops os c1 = Some c2 →
      output c2 = before ++ encode_close_record reason ∧
      is_Some (closing c2) ∧
      (closing c2 ≠ Some Queued → sent (stream c2) = output c2) ∧
      ∀ cx' reason' c3, poll_close fuel cx' reason' c2 = Some (c3, Ok (Ready ())) →
        closing c3 = Some Complete ∧
        sent (stream c3) = before ++ encode_close_record reason ∧
        output c3 = sent (stream c3).
Proof.
  intros Hc Hcl E.
  destruct (poll_close_begins _ _ _ _ _ Hc Hcl E) as [?|(Hw & Hs & [more Ho] & Hr)]; [by left|].
  right. exists (output c ++ more). split; [by eexists|]. split; [done|].
  intros os c2 Eos.
  pose proof (run_ops_steps os c1 c2 (proj1 Hw) Eos) as [_ Hseal].
  destruct (Hseal Hs) as [Ho2 Hs2].
  destruct (winds_run_ops os c1 c2 Hs Hw Eos) as [Hw2 _].
  assert (Hout : output c2 = (output c ++ more) ++ encode_close_record reason)
    by (rewrite <-(assoc_L (++)); congruence).
  split; [done|]. split; [apply Hs2|]. split; [by apply wound_down|].
  intros cx' reason' c3 E3.
  destruct (poll_close_winds _ _ _ _ _ Hw2 E3) as [Hw3 Hr3].
  destruct (Hr3 eq_refl) as [Hcl3 Hd3].
  pose proof (safe_poll_close cx' reason' _ _ _ (proj1 Hw2) E3) as [_ Hseal3].
  destruct (Hseal3 Hs2) as [Ho3 _].
  assert (Hs3 : sent (stream c3) = output c3) by (apply wound_down; [done|by rewrite Hcl3]).
  split; [done|]. split; [congruence|done].
Qed.
End Safety.

(** ** Reading ahead *)

Section ReadingAhead.
Context `{HD : Dwnx} {HDL : DwnxLaws}.
Context `{HW : Wakers} {HB : ByteStream} {HC : Clock}.

(** Handlers push events and wake credit waiters: the waker parked for read-ahead stays,
    and no wakeup is unrecorded. *)
Definition parked_at (w : Waker) (before : list Waker) (s : Shared) : Prop :=
  Signals.slot (signals s) Signals.ReadAheadSlot = Some w ∧ before `prefix_of` woken s.

Lemma handlers_keep_parked w before : handlers_preserve (parked_at w before) handlers.
Proof.
  unfold handlers_preserve. split_and!; intros g a u [= <-] Hp; try exact Hp.
  - destruct a as [[? ?] ?]. exact Hp.
  - destruct a. exact Hp.
  - destruct a. destruct Hp as [Hs Hw]. split; [exact Hs|].
    etrans; [exact Hw|]. by eexists.
  - destruct a. exact Hp.
Qed.

Lemma wake_parked w before s :
  parked_at w before s → woken (on_signals Signals.wake_read_ahead s) = woken s ++ [w].
Proof.
  intros [Hs _]. unfold on_signals, Signals.wake_read_ahead, Signals.wake. by rewrite Hs.
Qed.

(** Read-ahead backpressure stops reading and is released.  When the caller holds as
    many uncredited bytes as its allowance, a read pass does not touch the byte stream and
    reports nothing read; and if the caller then credits enough bytes to fall below the
    allowance, the crediting call itself wakes the task that was stopped, whatever
    callbacks the state machine makes meanwhile, and schedules a write pass. *)
Theorem read_ahead_resumes cx n c :
  terminal c = None → QmuxConn.handlers (conn c) = handlers →
  ReadAhead.is_exhausted (read_ahead c) = true →
  ReadAhead.is_exhausted (ReadAhead.credited (read_ahead c) n) = false →
  ∃ c1 c2, read_once cx c = Some (c1, Ok false) ∧ stream c1 = stream c ∧
    extend_connection_credit n c1 = Some (c2, Ok ()) ∧ produce_pending c2 = true ∧
    ∃ w ws, woken (shared c2) = woken (shared c1) ++ ws ∧ w ∈ ws ∧ task w = task cx.
Proof.
  intros Ht Hh Hex Hfree. unfold read_once. rewrite Hex.
  set (c1 := map_shared _ c). exists c1.
  destruct (Signals.park_holds (signals (shared c)) Signals.ReadAheadSlot cx) as (w & Hw & Hcx).
  assert (Hp : parked_at w (woken (shared c1)) (shared c1)).
  { split; [|done]. unfold c1. cbn. unfold on_signals, Signals.park_read_ahead.
    unfold shared in Hw. by destruct (Signals.park _ _ _). }
  assert (Hp2 : parked_at w (woken (shared c1))
                  (user (bridge (ConnOps.extend_max_data n (conn c1))))).
  { apply (with_bridge_user (parked_at w (woken (shared c1))));
      [auto with ngnet| |exact Hp].
    change (QmuxConn.handlers (conn c1)) with (QmuxConn.handlers (conn c)).
    rewrite Hh. apply handlers_keep_parked. }
  unfold extend_connection_credit, bind, check_terminal, modify.
  change (terminal c1) with (terminal c). rewrite Ht.
  cbn [read_ahead set_conn set_read_ahead].
  change (read_ahead c1) with (read_ahead c). rewrite Hfree. cbn [negb].
  eexists. split; [done|]. split; [done|]. split; [reflexivity|]. split; [done|].
  pose proof Hp2 as [_ [more Hmore]].
  exists w, (more ++ [w]). split; [|split; [set_solver|exact Hcx]].
  etrans; [by apply (wake_parked w (woken (shared c1)))|].
  rewrite (assoc_L (++)). f_equal. exact Hmore.
Qed.
End ReadingAhead.

(** ** A concrete byte stream and clock

    The stream takes at most five bytes a write, never has anything to read and shuts down
    at once; the clock counts its readings. *)
Section Toy.
Definition toy_stream : @ByteStream nat_wakers := {|
  bstream := bytes;
  poll_read := λ _ buffer s, (s, buffer, Pending);
  poll_write := λ _ bs s, (s ++ take 5 bs, Ready (Ok (Accepted (min 5 (length bs)))));
  poll_shutdown := λ _ s, (s, Ready (Ok ()))
|}.

Definition toy_stream_laws : @StreamLaws nat_wakers toy_stream.
Proof.
  refine {| sent := (λ s, s) : @bstream nat_wakers toy_stream → bytes |}; simpl.
  - intros cx bs s. f_equal.
    change (take 5 bs = take (min 5 (length bs)) bs).
    destruct (decide (length bs ≤ 5)%nat).
    + rewrite Nat.min_r by done. by rewrite !take_ge.
    + by rewrite Nat.min_l by lia.
  - done.
  - done.
Defined.

Definition toy_clock : Clock :=
  {| clock_state := nat; clock_now := λ n, (S n, Time.mkTimestamp (Z.of_nat n)) |}.

#[local] Existing Instance toy_dwnx.
#[local] Existing Instance toy_write_laws.
#[local] Existing Instance toy_idle_laws.
#[local] Existing Instance nat_wakers.
#[local] Existing Instance toy_stream.
#[local] Existing Instance toy_stream_laws.
#[local] Existing Instance toy_clock.

Definition toy_connection : result Connection Io.Error :=
  QmuxIo.new Client ([] : bytes) O Config.default.

Definition sid0 : StreamId := Stream.mkStreamId 0.
Definition toy_slices : list bytes := [ten_bytes; []; take 3 ten_bytes].

Definition toy_ops1 : list op := [OpPump 1%nat; OpTryWrite sid0 toy_slices false].
Definition toy_ops2 : list op :=
  [OpPump 1%nat; OpClose 1%nat example_close; OpTryWrite sid0 toy_slices true].

Lemma toy_runs :
  match toy_connection with
  | Ok c0 =>
      match run_ops 5 toy_ops1 c0 with
      | Some c1 => bool_decide (is_Some (run_ops 5 toy_ops2 c1))
      | None => false
      end
  | Err _ => false
  end = true.
Proof. vm_compute. reflexivity. Qed.

Lemma output_only_grows_witness :
  ∃ c0 c1 c2, toy_connection = Ok c0 ∧
    run_ops 5 toy_ops1 c0 = Some c1 ∧ run_ops 5 toy_ops2 c1 = Some c2 ∧
    ∃ more, output c2 = output c1 ++ more.
Proof.
  pose proof toy_runs as H. destruct toy_connection as [c0|] eqn:E0; [|done].
  destruct (run_ops 5 toy_ops1 c0) as [c1|] eqn:E1; [|done].
  apply bool_decide_eq_true in H as [c2 E2].
  exists c0, c1, c2. do 3 (split; [done|]).
  apply (proj1 (output_only_grows 5 _ _ _ _ _ _ _ _ _ E0 E1 E2)).
Defined.

Lemma try_write_accounts_witness :
  ∃ c0, toy_connection = Ok c0 ∧ wf c0 ∧ terminal c0 = None ∧
  ∃ c' r, try_write_stream_vectored sid0 toy_slices false c0 = Some (c', r) ∧
    stream c' = stream c0.
Proof.
  destruct toy_connection as [c0|e] eqn:E0; [|vm_compute in E0; discriminate].
  destruct (wf_new _ _ _ _ _ E0) as (Hwf & _ & _ & Ht & _).
  exists c0. do 3 (split; [done|]).
  destruct (try_write_accounts sid0 toy_slices false c0 Hwf Ht) as (c' & r & E & Hs & _).
  by exists c', r.
Defined.

Lemma ended_refuses_witness :
  ∃ c0 c1, toy_connection = Ok c0 ∧ c1 = latch_terminal (Io.new Io.EndOfStream "gone") c0 ∧
    run_op 5 (OpPump 1%nat) c1 =
      Some (c1, Err (terminal_error (mkTerminal Io.EndOfStream "gone" None))).
Proof.
  destruct toy_connection as [c0|e] eqn:E0; [|vm_compute in E0; discriminate].
  destruct (wf_new _ _ _ _ _ E0) as (_ & _ & _ & Ht & _).
  exists c0, (latch_terminal (Io.new Io.EndOfStream "gone") c0). do 2 (split; [done|]).
  apply (ended_refuses 5 (latch_terminal (Io.new Io.EndOfStream "gone") c0)
    (mkTerminal Io.EndOfStream "gone" None) (OpPump 1%nat)).
  unfold latch_terminal. by rewrite Ht.
Defined.
#[local] Existing Instance toy_dwnx_laws.

(** A caller that has been handed its whole allowance. *)
Definition behind (c : Connection) : Connection :=
  set_read_ahead (ReadAhead.delivered (read_ahead c) DEFAULT_READ_AHEAD) c.

Lemma read_ahead_resumes_witness :
  ∃ c0, toy_connection = Ok c0 ∧
    ReadAhead.is_exhausted (read_ahead (behind c0)) = true ∧
    ∃ c1 c2, read_once 7%nat (behind c0) = Some (c1, Ok false) ∧
      extend_connection_credit 1 c1 = Some (c2, Ok ()) ∧
      ∃ w ws, woken (shared c2) = woken (shared c1) ++ ws ∧ w ∈ ws ∧ w = 7%nat.
Proof.
  assert (H : match toy_connection with
    | Ok c0 => ReadAhead.is_exhausted (read_ahead (behind c0)) &&
        negb (ReadAhead.is_exhausted (ReadAhead.credited (read_ahead (behind c0)) 1))
    | Err _ => false end = true) by (vm_compute; reflexivity).
  destruct toy_connection as [c0|e] eqn:E0; [|done].
  destruct (wf_new _ _ _ _ _ E0) as (_ & _ & Hh & Ht & _).
  apply andb_true_iff in H as [Hex Hfree]. apply negb_true_iff in Hfree.
  exists c0. split; [done|]. split; [done|].
  destruct (read_ahead_resumes 7%nat 1 (behind c0) Ht Hh Hex Hfree)
    as (c1 & c2 & E1 & _ & E2 & _ & w & ws & Hw).
  exists c1, c2. split; [done|]. split; [done|]. by exists w, ws.
Defined.
End Toy.

(** ** A byte stream that refuses every other write

    It takes at most five bytes when it takes any. *)
Section Reluctant.
Definition reluctant_stream : @ByteStream nat_wakers := {|
  bstream := bytes * bool;
  poll_read := λ _ buffer s, (s, buffer, Pending);
  poll_write := λ _ bs s,
    if s.2 then ((s.1, false), Pending)
    else ((s.1 ++ take 5 bs, true), Ready (Ok (Accepted (min 5 (length bs)))));
  poll_shutdown := λ _ s, (s, Ready (Ok ()))
|}.

Definition reluctant_laws : @StreamLaws nat_wakers reluctant_stream.
Proof.
  refine {| sent := fst : @bstream nat_wakers reluctant_stream → bytes |}; simpl.
  - intros cx bs [s []]; simpl; [by rewrite app_nil_r|]. f_equal.
    change (take 5 bs = take (min 5 (length bs)) bs).
    destruct (decide (length bs ≤ 5)%nat).
    + rewrite Nat.min_r by done. by rewrite !take_ge.
    + by rewrite Nat.min_l by lia.
  - done.
  - done.
Defined.

#[local] Existing Instance toy_dwnx.
#[local] Existing Instance toy_write_laws.
#[local] Existing Instance toy_idle_laws.
#[local] Existing Instance nat_wakers.
#[local] Existing Instance reluctant_stream.
#[local] Existing Instance reluctant_laws.
#[local] Existing Instance toy_clock.

Definition reluctant_connection : result Connection Io.Error :=
  QmuxIo.new Client (([], false) : bytes * bool) O Config.default.

(** Fragments queued, two polls that find the queue refused, the poll that queues the
    record, and what comes between it and the poll that completes. *)
Definition before_close : list op :=
  [OpTryWrite sid0 toy_slices false; OpClose 1%nat example_close; OpClose 1%nat example_close].
Definition while_closing : list op := [OpPump 1%nat; OpClose 2%nat example_close].


Lemma close_is_last_witness :
  ∃ c0 c c1 c2 c3, reluctant_connection = Ok c0 ∧ run_ops 5 before_close c0 = Some c ∧
    poll_close 5 1%nat example_close c = Some (c1, Ok Pending) ∧
    run_ops 5 while_closing c1 = Some c2 ∧ closing c2 = Some Queued ∧
    poll_close 5 1%nat example_close c2 = Some (c3, Ok (Ready ())) ∧
    ∃ before, output c `prefix_of` before ∧
      sent (stream c3) = before ++ encode_close_record example_close.
Proof.
  assert (H : match reluctant_connection with
    | Ok c0 => match run_ops 5 before_close c0 with
      | Some c => match poll_close 5 1%nat example_close c with
        | Some (c1, Ok Pending) => match run_ops 5 while_closing c1 with
          | Some c2 => match poll_close 5 1%nat example_close c2 with
            | Some (_, Ok (Ready _)) => bool_decide (closing c = None ∧ closing c1 = Some Queued
                                          ∧ closing c2 = Some Queued)
            | _ => false end
          | None => false end
        | _ => false end
      | None => false end
    | Err _ => false end = true) by (vm_compute; reflexivity).
  destruct reluctant_connection as [c0|e] eqn:E0; [|done].
  destruct (run_ops 5 before_close c0) as [c|] eqn:Ec; [|done].
  destruct (poll_close 5 1%nat example_close c) as [[c1 [[|[]]|]]|] eqn:E1; try done.
  destruct (run_ops 5 while_closing c1) as [c2|] eqn:E2; [|done].
  destruct (poll_close 5 1%nat example_close c2) as [[c3 [[|[]]|]]|] eqn:E3; try done.
  apply bool_decide_eq_true in H as (Hcl & Hq1 & Hq2).
  destruct (wf_new _ _ _ _ _ E0) as (Hwf & _).
  pose proof (proj1 (proj1 (run_ops_steps 5 _ _ _ Hwf Ec))) as Hc.
  destruct (close_is_last 5 1%nat example_close c c1 (Ok Pending) Hc Hcl E1)
    as [[Hn _]|(before & Hb & _ & Hall)]; [congruence|].
  destruct (Hall while_closing c2 E2) as (_ & _ & _ & Hready).
  destruct (Hready 1%nat example_close c3 E3) as (_ & Hs & _).
  exists c0, c, c1, c2, c3. do 6 (split; [done|]). by exists before.
Defined.
End Reluctant.
