(* ===== verification/QmuxIoTotal.v ===== *)
(** * The asynchronous QMux connection: every operation returns

    Two loops of QmuxIo.v run for as long as the environment lets them: the one that packs
    what the state machine has queued, and the one that reads an eager byte stream.  With
    the environment's own bounds as measures, enough fuel makes every operation return, with
    the same outcome for any larger fuel, and no operation panics. *)

From Stdlib Require Import ZArith Lia.
From stdpp Require Import base list sets strings.
From S2P Require Import Prelude Varint CloseCodec QmuxError QmuxTypes QmuxConn QmuxWrite RecordFramer QmuxScheduling QmuxIo QmuxIoFacts QmuxIoSafety.

(** The state machine has finitely many control records queued: [queued] bounds them, and a
    call that names no stream and completes a record takes one off.  *)
Class DwnxProgress `{Dwnx} := {
  queued : dwnx_conn → nat;
  control_progress : ∀ b fl now B cb c st,
    let '(c', _, r) := dwnx_conn_writev_stream b fl (-1) [] now B cb c st in
    (queued c' ≤ queued c)%nat ∧ (0 < wr_rv r → (queued c' < queued c)%nat);
  drop_progress : ∀ b fl now B cb c st,
    let '(c', _, _) := dwnx_conn_write_stream b fl (-1) [] now B cb c st in
    (queued c' ≤ queued c)%nat
}.

(** The byte stream has finitely many reads ready: a read that yields bytes uses one. *)
Class StreamProgress `{ByteStream} := {
  readable : bstream → nat;
  read_progress : ∀ cx buffer s,
    let '(s', _, r) := poll_read cx buffer s in
    match r with
    | Ready (Ok (S _)) => (readable s' < readable s)%nat
    | _ => True
    end
}.

Section ControlRecords.
Context `{HD : Dwnx} {HL : DwnxWriteLaws} {HP : DwnxProgress} {U : Type}.
Implicit Type w : RecordWriter U.
Abbreviation wconn := QmuxWrite.conn.

(** [q] is the count before the record was begun: if it is closed with a length, a
    control record has been taken off. *)
Definition progressed (q : nat) w : Prop :=
  (queued (raw (wconn w)) ≤ q)%nat ∧
  (∀ n, len w = Some n → n ≠ 0%nat → (queued (raw (wconn w)) < q)%nat).

Lemma interpret_len rv k w :
  len w = None →
  let w' := (interpret rv k w).1 in
  raw (wconn w') = raw (wconn w) ∧
  (∀ n, len w' = Some n → n ≠ 0%nat → 0 < rv).
Proof.
  intros Hl. unfold interpret.
  set (w1 := if _ || _ then w else _).
  assert (Hw1 : wconn w1 = wconn w ∧ len w1 = len w) by (unfold w1; by repeat case_match).
  destruct Hw1 as [Ec El]. clearbody w1.
  destruct (Z.ltb_spec 0 rv).
  { destruct (usize_of rv); simpl; by rewrite Ec. }
  destruct (narrow rv =? 0); [simpl; rewrite Ec; split; [done|]; by intros n [= <-]|].
  repeat (case_match; [simpl; rewrite Ec, El, Hl; done|]).
  pose proof (error_from_conn (narrow rv) "serialising a record" (wconn w1)) as (Er & _).
  destruct (ConnOps.error_from _ _ _). simpl in *. rewrite Er, Ec, El, Hl. done.
Qed.

Lemma push_control_progress q w w' r data :
  progressed q w → concat data = [] → 
  push_vectored (mkVectored None data false) w = Some (w', r) → progressed q w'.
Proof.
  intros [Hq Hn] Hdata. unfold push_vectored.
  destruct (too_small w || bool_decide (is_Some (len w))) eqn:Ec.
  { intros [= <- <-]. by split. }
  apply orb_false_iff in Ec as [_ Hlen]. apply bool_decide_eq_false in Hlen.
  assert (Hl : len w = None) by (destruct (len w); [exfalso; eauto|done]).
  assert (Hg : gather data 0 = ([], true)).
  { clear -Hdata. generalize 0%nat. induction data as [|[|x d] data IH]; intros k; simpl;
      [done|by apply IH|done]. }
  simpl. rewrite Hg. destruct (buf w) as [b|]; [|done].
  set (f := dwnx_conn_writev_stream _ _ _ _ _).
  destruct (with_bridge_unfold f (wconn w)) as [E1 E2].
  set (b0 := mkBridge _ _ _) in *. set (cb := Callbacks.callbacks _) in *.
  pose proof (control_progress b DWNX_WRITE_STREAM_FLAG_NONE (Time.ts_as_nanos (QmuxWrite.now w)) _ cb
    (raw (wconn w)) b0) as Hp. fold f in Hp.
  destruct (f _ cb (raw (wconn w)) b0) as [[n1 st1] r1].
  destruct (ConnOps.with_bridge f (wconn w)) as [c1 r1']. simpl in *. subst r1'.
  intros E. apply (inj Some) in E. apply (f_equal fst) in E. simpl in E. subst w'.
  match goal with |- context [interpret ?rv ?k ?w0] =>
    destruct (interpret_len rv k w0 Hl) as [Er Hrv] end.
  simpl in *. destruct Hp as [Hp1 Hp2]. rewrite E1 in Er. unfold progressed.
  rewrite Er. split; [lia|]. intros n Hn' Hz. specialize (Hp2 (Hrv n Hn' Hz)). lia.
Qed.

Lemma drop_writer_progress q w :
  progressed q w → (queued (raw (drop_writer w).1) ≤ q)%nat.
Proof.
  intros [Hq _]. unfold drop_writer. destruct (buf w) as [b|]; [|done].
  case_match; [done|].
  set (f := dwnx_conn_write_stream _ _ _ _ _).
  destruct (with_bridge_unfold f (wconn w)) as [E1 _].
  set (b0 := mkBridge _ _ _) in *. set (cb := Callbacks.callbacks _) in *.
  pose proof (drop_progress b DWNX_WRITE_STREAM_FLAG_NONE (Time.ts_as_nanos (QmuxWrite.now w)) _ cb
    (raw (wconn w)) b0) as Hp. fold f in Hp.
  destruct (f _ cb (raw (wconn w)) b0) as [[n1 st1] r1].
  destruct (ConnOps.with_bridge f (wconn w)) as [c1 r1']. simpl in *. rewrite E1. lia.
Qed.

Lemma finish_progress q w c b r :
  progressed q w → finish w = Some (c, b, r) →
  (queued (raw c) ≤ q)%nat ∧
  ∀ bs, r = Ok (RecordBytes bs) → (queued (raw c) < q)%nat.
Proof.
  intros Hw. unfold finish. destruct (too_small w).
  { pose proof (drop_writer_progress q w Hw). destruct (drop_writer w) as [c1 [b1|]]; [|done].
    by intros [= <- <- <-]. }
  set (pushed := match len w with None => _ | Some _ => _ end).
  destruct pushed as [[w' r']|] eqn:Ep; [|done].
  assert (Hw' : progressed q w').
  { unfold pushed in Ep. destruct (len w); [by injection Ep as <- <-|].
    by eapply (push_control_progress q w w' r' [[]]). }
  destruct r' as [p|e].
  - destruct (buf w') as [b'|]; [|done]. destruct Hw' as [Hq Hn].
    destruct (len w') as [[|n]|] eqn:El; simpl.
    1,3: by intros [= <- <- <-].
    destruct (slice_to _ _); [|done]. intros [= <- <- <-].
    split; [done|]. intros bs' _. by apply (Hn (S n)).
  - pose proof (drop_writer_progress q w' Hw'). destruct (drop_writer w') as [c1 [b1|]]; [|done].
    by intros [= <- <- <-].
Qed.

(** A control-only production that yields bytes takes a queued record off. *)
Lemma pack_control_progress (c : Conn dwnx_conn U) dest t c' dest' r :
  pack c dest control_only t = Some (c', dest', r) →
  (queued (raw c') ≤ queued (raw c))%nat ∧
  ∀ p, r = Ok p → p_bytes p ≠ 0%nat → (queued (raw c') < queued (raw c))%nat.
Proof.
  unfold pack. destruct (pack_vectored _ _ _ _ _ _) as [[[c1 b1] r1]|] eqn:E; [|done].
  intros [= <- <- <-]. revert E. unfold pack_vectored. simpl.
  set (w0 := QmuxWrite.record dest t c).
  assert (Hw0 : progressed (queued (raw c)) w0) by (split; [done|by intros n [=]]).
  clearbody w0.
  destruct (push_vectored _ w0) as [[w r]|] eqn:Ep; [|done].
  apply push_control_progress with (q := queued (raw c)) in Ep; [|done|done].
  assert (Hfin : ∀ f k v,
    (let! (c, b, r) := finish w in
     Some (c, b, let? rec := r in
       Ok (f, mkProduced k match record_bytes rec with Some bs => length bs
                            | None => 0%nat end v))) = Some (c1, b1, r1) →
    (queued (raw c1) ≤ queued (raw c))%nat ∧
    ∀ p, (let? (_, produced) := r1 in Ok produced) = Ok (E:=QmuxError.Conn.Error) p →
      p_bytes p ≠ 0%nat → (queued (raw c1) < queued (raw c))%nat).
  { intros f k v. destruct (finish w) as [[[c2 b2] r2]|] eqn:Ef; [|done].
    intros [= <- <- <-]. destruct (finish_progress _ _ _ _ _ Ep Ef) as [Hle Hlt].
    split; [done|]. intros p Hp Hb. destruct r2 as [rec|]; [|done]. simpl in Hp.
    injection Hp as <-. destruct rec; simpl in *; try done. by eapply Hlt. }
  destruct r as [[k|k| |]|e]; simpl; try apply Hfin.
  - destruct (Fragments.is_empty _) eqn:Ee; [apply Hfin|].
    case_decide; [apply Hfin|]. done.
  - case_decide; [apply Hfin|].
    pose proof (drop_writer_progress _ w Ep). destruct (drop_writer w) as [c2 [b2|]]; [|done].
    by intros [= <- <- <-].
Qed.
End ControlRecords.

Section Totality.
Context `{HD : Dwnx} {HL : DwnxWriteLaws} {HI : DwnxIdleLaws} {HP : DwnxProgress}.
Context `{HW : Wakers} {HB : ByteStream} `{HS : !StreamLaws} `{HSP : !StreamProgress}
  {HC : Clock}.
Implicit Type c : Connection.

Lemma produce_control_progress c c' p :
  produce control_only c = Some (c', Ok p) → p_bytes p ≠ 0%nat →
  (queued (raw (conn c')) < queued (raw (conn c)))%nat.
Proof.
  unfold produce, produce_within, bind at 1, now at 1.
  destruct (clock_now (clock c)) as [k t]. unfold bind, serialise.
  set (c0 := make_room _ (set_clock k c)).
  assert (Hc0 : conn c0 = conn c) by (unfold c0, make_room; by case_decide).
  destruct (slice_range _ _ _) as [dest|]; [|done]. rewrite Hc0.
  destruct (pack (conn c) dest control_only t) as [[[n d] r]|] eqn:Ep; [|done].
  destruct (pack_control_progress _ _ _ _ _ _ Ep) as [_ Hlt].
  destruct r as [p'|e]; [|done]. intros [= <- <-] Hb. by apply (Hlt p').
Qed.

(** Settles: for all fuel from some point on, the same outcome. *)
Definition settles {A} (m : nat → M A) c : Prop :=
  ∃ n0 out, ∀ n, (n0 ≤ n)%nat → m n c = Some out.

Lemma settles_const {A} (m : M A) c : is_Some (m c) → settles (λ _, m) c.
Proof. intros [out E]. exists 0%nat, out. done. Qed.

Lemma settles_bind {A B} (m : nat → M A) (k : nat → A → M B) c :
  settles m c → (∀ n c' a, m n c = Some (c', Ok a) → settles (λ n, k n a) c') →
  settles (λ n, bind (m n) (k n)) c.
Proof.
  intros (n1 & [c1 [a|e]] & E1) Hk.
  - destruct (Hk n1 c1 a (E1 n1 ltac:(done))) as (n2 & out & E2).
    exists (max n1 n2), out. intros n Hn. unfold bind. rewrite E1 by lia. apply E2. lia.
  - exists n1, (c1, Err e). intros n Hn. unfold bind. by rewrite E1.
Qed.

Lemma ensure_room_total cx c :
  wf c → ∃ c' r, ensure_room cx c = Some (c', r) ∧ wf c' ∧
    raw (conn c') = raw (conn c) ∧ closing c' = closing c.
Proof.
  intros Hc. unfold ensure_room, bind, gets. destruct (room_for_record c).
  - by eexists _, _.
  - destruct (flush_spec cx c Hc) as (c1 & r1 & -> & Hg & _ & (Er & _ & Ecl & _) & _).
    eexists _, _. split; [done|]. split; [apply Hg|done].
Qed.

Lemma flush_total cx c : wf c → is_Some (flush cx c).
Proof. intros Hc. destruct (flush_spec cx c Hc) as (c1 & r1 & -> & _). eauto. Qed.

Lemma flush_unit_total cx c : wf c → is_Some ((let* _ := flush cx in ret ()) c).
Proof. intros Hc. unfold bind. destruct (flush_total cx c Hc) as [[? []] ->]; eauto. Qed.

Lemma write_side_settles cx fl c :
  wf c → settles (λ n, write_side_loop n cx fl) c.
Proof.
  intros Hc. exists (S (queued (raw (conn c)))).
  enough (∀ k c, (queued (raw (conn c)) ≤ k)%nat → wf c →
    ∃ out, ∀ n, (S k ≤ n)%nat → write_side_loop n cx fl c = Some out) as Hk by by apply Hk.
  clear c Hc. intros k. induction k as [k IH] using lt_wf_ind. intros c Hq Hc.
  assert (Hflush : ∀ c1, wf c1 →
    ∃ out, (if decide (fl = Everything) then let* _ := flush cx in ret () else ret ()) c1
           = Some out).
  { intros c1 Hc1. case_decide; [|by eexists].
    destruct (flush_unit_total cx c1 Hc1) as [out ->]. eauto. }
  destruct (ensure_room_total cx c Hc) as (c1 & r & Er & Hc1 & Eraw & _).
  destruct (ensure_room_spec cx c c1 r Hc Er) as (_ & _ & Hroom & _).
  destruct r as [[]|e].
  2,3: (eexists; intros [|n] Hn; [lia|]; rewrite write_side_unfold; unfold bind at 1;
        rewrite Er; reflexivity).
  destruct (negb (produce_pending c1) || bool_decide (is_Some (closing c1))) eqn:Eb.
  { destruct (Hflush c1 Hc1) as [out Hout]. exists out. intros [|n] Hn; [lia|].
    rewrite write_side_unfold. unfold bind at 1. rewrite Er. cbn [negb].
    unfold bind at 1, gets at 1. unfold bind at 1, gets at 1. by rewrite Eb. }
  specialize (Hroom eq_refl). unfold room_for_record in Hroom.
  apply bool_decide_eq_true in Hroom.
  destruct (produce_spec control_only c1 Hc1 Hroom) as (c2 & r2 & Ep & Hg & _).
  assert (Hc2 : wf c2) by apply Hg.
  assert (Hstep : ∀ n, write_side_loop (S n) cx fl c =
    (let* produced := λ _, Some (c2, r2) in
     if decide (p_bytes produced = 0%nat ∨ p_verdict produced ≠ Packed) then
       let* _ := modify (set_produce_pending false) in
       if decide (fl = Everything) then let* _ := flush cx in ret () else ret ()
     else write_side_loop n cx fl) c1).
  { intros n. rewrite write_side_unfold. unfold bind at 1. rewrite Er. cbn [negb].
    unfold bind at 1, gets at 1. unfold bind at 1, gets at 1. rewrite Eb.
    unfold bind at 1 3. by rewrite Ep. }
  destruct r2 as [p|e].
  2:{ eexists. intros [|n] Hn; [lia|]. rewrite Hstep. reflexivity. }
  destruct (decide (p_bytes p = 0%nat ∨ p_verdict p ≠ Packed)) as [Hd|Hd].
  - destruct (Hflush (set_produce_pending false c2) Hc2) as [out Hout].
    exists out. intros [|n] Hn; [lia|]. rewrite Hstep. unfold bind at 1.
    rewrite decide_True by done. unfold bind at 1, modify. exact Hout.
  - assert (Hlt : (queued (raw (conn c2)) < queued (raw (conn c)))%nat).
    { rewrite <-Eraw. apply (produce_control_progress c1 c2 p Ep). tauto. }
    destruct (IH (queued (raw (conn c2))) ltac:(lia) c2 ltac:(lia) Hc2) as [out Hout].
    exists out. intros [|n] Hn; [lia|]. rewrite Hstep. unfold bind at 1.
    rewrite decide_False by done. apply Hout. lia.
Qed.

(** *** Reading, on a connection that has not ended *)

(** A successful step does not end the connection. *)
Definition opens {A} (m : M A) : Prop :=
  ∀ c c' a, wf c → m c = Some (c', Ok a) → terminal c' = terminal c.

Lemma opens_bind {A B} (m : M A) (k : A → M B) :
  safe m → opens m → (∀ a, opens (k a)) → opens (bind m k).
Proof.
  intros Hs Hm Hk c c' b Hc E. unfold bind in E.
  destruct (m c) as [[c1 [a|]]|] eqn:Em; [|done|done].
  rewrite <-(Hm _ _ _ Hc Em). eapply Hk; [|exact E]. by eapply Hs.
Qed.

Lemma opens_gets {A} (f : Connection → A) : opens (gets f).
Proof. by intros c c' a _ [= <- _]. Qed.

Lemma opens_ret {A} (a : A) : opens (ret a).
Proof. by intros c c' b _ [= <- _]. Qed.

Lemma opens_flush cx : opens (flush cx).
Proof.
  intros c c' a Hc E. destruct (flush_spec cx c Hc) as (c1 & r1 & E1 & _ & _ & _ & _ & Ht).
  rewrite E in E1. injection E1 as <- <-. by apply Ht.
Qed.

Lemma opens_flush_if cx fl :
  opens (if decide (fl = Everything) then let* _ := flush cx in ret () else ret ()).
Proof.
  case_decide; [|apply opens_ret].
  apply opens_bind; [apply safe_flush|apply opens_flush|intros; apply opens_ret].
Qed.

Lemma opens_write_side n cx fl : opens (write_side_loop n cx fl).
Proof.
  induction n as [|n IH]; intros c c' a Hc E; [done|].
  rewrite write_side_unfold in E. unfold bind at 1 in E.
  destruct (ensure_room cx c) as [[c1 [flushed|e]]|] eqn:Er; [|done|done].
  destruct (ensure_room_spec _ _ _ _ Hc Er) as (Hs & _ & Hroom & _).
  assert (Ht : terminal c1 = terminal c).
  { revert Er. unfold ensure_room, bind, gets. destruct (room_for_record c).
    - by intros [= <- <-].
    - by apply opens_flush. }
  pose proof (proj1 (proj1 Hs)) as Hc1. rewrite <-Ht.
  destruct flushed; simpl in E; [|by injection E as <- _].
  unfold bind at 1, gets at 1 in E. unfold bind at 1, gets at 1 in E.
  destruct (negb (produce_pending c1) || bool_decide (is_Some (closing c1))).
  { by eapply opens_flush_if. }
  specialize (Hroom eq_refl). unfold room_for_record in Hroom.
  apply bool_decide_eq_true in Hroom. unfold bind at 1 in E.
  destruct (produce_spec control_only c1 Hc1 Hroom) as (c2 & r2 & Ep & Hg & _ & _ & Hr).
  rewrite Ep in E. destruct r2 as [p|]; [|done].
  destruct (Hr p eq_refl) as (_ & _ & _ & Ht2 & _). rewrite <-Ht2.
  revert E. case_decide; intros E.
  - unfold bind at 1, modify in E.
    by eapply (opens_flush_if cx fl (set_produce_pending false c2)); [apply Hg|].
  - eapply IH; [apply Hg|exact E].
Qed.

(** One read pass on an open connection: it returns, it stays open if it succeeds, and a
    pass that asks for another has used up a read. *)
Lemma read_once_open cx c :
  wf c → terminal c = None →
  ∃ c' r, read_once cx c = Some (c', r) ∧
    (is_ok r = true → terminal c' = None) ∧
    (r = Ok true → (readable (stream c') < readable (stream c))%nat).
Proof.
  intros Hc Ht. unfold read_once. case_match; [by eexists _, _|].
  pose proof (read_progress cx (inbound c) (stream c)) as Hp.
  destruct (poll_read cx (inbound c) (stream c)) as [[s buffer] res].
  set (c1 := set_inbound buffer (set_stream s c)).
  destruct res as [|[[|n]|e]].
  - by eexists _, _.
  - unfold ended, bind, gets. by repeat case_match; eexists _, _.
  - set (chunk := take _ _).
    destruct Hc as (_ & _ & _ & Hrep). destruct (Hrep Ht) as (cl & p & Hrepr).
    destruct (consume_spec (framer c1) cl p chunk Hrepr) as (f & r & -> & _).
    destruct r as [[]|e]; [|by eexists _, _].
    destruct (clock_now _) as [k t].
    destruct (ConnOps.read _ _ _) as [n2 outcome].
    set (c2 := set_conn n2 _).
    set (c3 := if _ <? _ then _ else c2).
    assert (H3 : terminal c3 = None ∧ stream c3 = s)
      by (unfold c3; by destruct (_ <? _)).
    clearbody c3. destruct H3 as [Ht3 Hs3].
    destruct outcome as [[]|e].
    + eexists _, _. split; [reflexivity|]. split; [done|]. intros _. simpl. by rewrite Hs3.
    + unfold peer_closed, bind, gets. by eexists _, _.
    + by eexists _, _.
  - by eexists _, _.
Qed.

Lemma read_side_settles cx c :
  wf c → terminal c = None → settles (λ n, read_side_loop n cx) c.
Proof.
  intros Hc Ht. exists (S (readable (stream c))).
  enough (∀ k c, (readable (stream c) ≤ k)%nat → wf c → terminal c = None →
    ∃ out, ∀ n, (S k ≤ n)%nat → read_side_loop n cx c = Some out) as Hk by by apply Hk.
  clear c Hc Ht. intros k. induction k as [k IH] using lt_wf_ind. intros c Hr Hc Ht.
  destruct (read_once_open cx c Hc Ht) as (c1 & r & E & Hopen & Hdec).
  destruct r as [[]|e].
  - assert (Hc1 : wf c1) by (by eapply safe_read_once).
    specialize (Hdec eq_refl). 
    destruct (IH (readable (stream c1)) ltac:(lia) c1 ltac:(lia) Hc1 (Hopen eq_refl))
      as [out Hout].
    exists out. intros [|n] Hn; [lia|]. cbn [read_side_loop]. unfold bind. rewrite E.
    apply Hout. lia.
  - eexists. intros [|n] Hn; [lia|]. cbn [read_side_loop]. unfold bind. by rewrite E.
  - eexists. intros [|n] Hn; [lia|]. cbn [read_side_loop]. unfold bind. by rewrite E.
Qed.

Lemma opens_read_side n cx c c' :
  wf c → terminal c = None → read_side_loop n cx c = Some (c', Ok ()) → terminal c' = None.
Proof.
  revert c. induction n as [|n IH]; intros c Hc Ht E; [done|].
  cbn [read_side_loop] in E. unfold bind in E.
  destruct (read_once_open cx c Hc Ht) as (c1 & r & E1 & Hopen & _). rewrite E1 in E.
  destruct r as [[]|e]; [|by injection E as <-; apply Hopen|done].
  eapply IH; [|by apply Hopen|exact E]. by eapply safe_read_once.
Qed.
(** *** The operations *)

Lemma settles_guard {A} (m : nat → M A) c :
  (terminal c = None → settles m c) →
  settles (λ n, let* _ := check_terminal in m n) c.
Proof.
  intros Hm. destruct (terminal c) as [t|] eqn:Ht.
  - exists 0%nat, (c, Err (terminal_error t)). intros n _.
    unfold bind, check_terminal. by rewrite Ht.
  - destruct (Hm eq_refl) as (n0 & out & E). exists n0, out. intros n Hn.
    unfold bind, check_terminal. rewrite Ht. by apply E.
Qed.

Lemma settles_forget {A} (m : nat → M A) c : settles m c → settles (λ n, forget (m n)) c.
Proof.
  intros Hm. apply settles_bind; [done|]. intros n c' a _. apply settles_const. by eexists.
Qed.

Lemma settles_ret {A} (a : A) c : settles (λ _, ret a) c.
Proof. apply settles_const. by eexists. Qed.

Lemma pump_settles cx fl c : wf c → settles (λ n, pump n cx fl) c.
Proof.
  intros Hc. apply settles_guard. intros Ht.
  apply settles_bind; [by apply write_side_settles|]. intros n1 c1 [] E1.
  assert (Hc1 : wf c1) by (by eapply safe_write_side).
  assert (Ht1 : terminal c1 = None) by (by rewrite (opens_write_side _ _ _ _ _ _ Hc E1)).
  apply settles_bind; [by apply read_side_settles|]. intros n2 c2 [] E2.
  assert (Hc2 : wf c2) by (by eapply safe_read_side).
  apply settles_bind; [apply settles_const; by eexists|].
  intros _ c3 pend [= <- <-]. destruct (produce_pending c2);
    [by apply write_side_settles|apply settles_ret].
Qed.

Lemma pump_bounded_settles cx fl c : wf c → settles (λ n, pump_bounded n cx fl) c.
Proof.
  intros Hc. apply settles_guard. intros Ht.
  apply settles_bind; [by apply write_side_settles|]. intros n1 c1 [] E1.
  assert (Hc1 : wf c1) by (by eapply safe_write_side).
  assert (Ht1 : terminal c1 = None) by (by rewrite (opens_write_side _ _ _ _ _ _ Hc E1)).
  destruct (read_once_open cx c1 Hc1 Ht1) as (c2 & r & E2 & _).
  apply settles_bind; [apply settles_const; rewrite E2; by eexists|].
  intros n2 c2' rd E2'. rewrite E2 in E2'. injection E2' as <- ->.
  assert (Hc2 : wf c2) by (by eapply safe_read_once).
  apply settles_bind; [apply settles_const; by eexists|].
  intros _ c3 pend [= <- <-]. 
  apply settles_bind; [|intros; apply settles_ret].
  destruct (produce_pending c2); [by apply write_side_settles|apply settles_ret].
Qed.

Lemma settles_attempt {A} (m : nat → M A) c :
  settles m c → settles (λ n, attempt (m n)) c.
Proof.
  intros (n0 & [c1 r] & E). exists n0, (c1, Ok r). intros n Hn. unfold attempt.
  by rewrite E.
Qed.

Lemma taken_total c : is_Some (taken c).
Proof. unfold taken. destruct (take_event c). by eexists. Qed.

Lemma next_event_settles cx c : wf c → settles (λ n, poll_next_event n cx) c.
Proof.
  intros Hc. apply settles_bind; [apply settles_const, taken_total|].
  intros n1 c1 [e|] E1; [apply settles_ret|].
  assert (Hc1 : wf c1) by (by eapply safe_taken).
  apply settles_bind; [by apply settles_attempt, pump_bounded_settles|].
  intros n2 c2 pumped E2.
  apply settles_bind; [apply settles_const, taken_total|].
  intros n3 c3 [e|] E3; [apply settles_ret|].
  apply settles_const. destruct pumped as [[]|]; by eexists.
Qed.

(** The writing loops carry their own fuel. *)
Lemma write_record_total cx s data fin c :
  wf c → ∃ c' r, write_record cx s data fin c = Some (c', r) ∧
    ∀ p, r = Ok (Some p) → (p_consumed p ≤ length data)%nat.
Proof.
  intros Hc.
  assert (E : write_record cx s data fin c = (let* flushed := ensure_room cx in
    if negb flushed then ret None
    else let* produced := produce (with_fin fin (QmuxWrite.stream s data)) in
         ret (Some produced)) c).
  { unfold write_record, ensure_room, bind, gets.
    destruct (room_for_record c); [done|]. by destruct (flush cx c) as [[? []]|]. }
  rewrite E. unfold bind at 1.
  destruct (ensure_room_total cx c Hc) as (c1 & r & Er & Hc1 & _). rewrite Er.
  destruct (ensure_room_spec cx c c1 r Hc Er) as (_ & _ & Hroom & _).
  destruct r as [[]|e]; [|by eexists _, _|by eexists _, _]. cbn [negb].
  specialize (Hroom eq_refl). unfold room_for_record in Hroom.
  apply bool_decide_eq_true in Hroom. unfold bind.
  destruct (produce_spec (with_fin fin (QmuxWrite.stream s data)) c1 Hc1 Hroom)
    as (c2 & r2 & -> & _ & _ & _ & Hr).
  destruct r2 as [p|e]; [|by eexists _, _]. eexists _, _. split; [reflexivity|].
  intros p' [= <-]. destruct (Hr p eq_refl) as [(f & _ & Hle & _) _].
  rewrite left_new in Hle. simpl in Hle. by rewrite app_nil_r in Hle.
Qed.

Lemma write_stream_total n cx s data fin k c :
  wf c → (k ≤ length data)%nat → (length data - k < n)%nat →
  is_Some (write_stream_loop n cx s data fin k c).
Proof.
  revert k c. induction n as [|n IH]; intros k c Hc Hk Hn; [lia|].
  cbn [write_stream_loop]. unfold slice_from. rewrite decide_True by done.
  unfold bind. destruct (write_record_total cx s (drop k data) fin c Hc) as (c1 & r & E & Hp).
  rewrite E. assert (Hc1 : wf c1) by (by eapply growing_write_record).
  destruct r as [[p|]|e]; [| |by eexists].
  - specialize (Hp p eq_refl). rewrite length_drop in Hp.
    destruct (p_verdict p).
    + case_decide; [by eexists|]. case_decide.
      * unfold park_write. case_decide; by eexists.
      * apply IH; [done|lia|lia].
    + unfold park_write. case_decide; by eexists.
    + case_decide; by eexists.
  - case_decide; by eexists.
Qed.

Lemma poll_write_settles cx s data fin c :
  wf c → settles (λ n, poll_write_stream n cx s data fin) c.
Proof.
  intros Hc. apply settles_bind; [by apply pump_settles|]. intros n1 c1 [] E1.
  assert (Hc1 : wf c1) by (by eapply safe_pump).
  apply settles_bind.
  { apply settles_const. apply write_stream_total; [done|lia|lia]. }
  intros n2 c2 o E2. apply settles_const.
  assert (Hc2 : wf c2) by (by eapply growing_write_stream).
  unfold bind. destruct (flush_total cx c2 Hc2) as [[? []] ->]; by eexists.
Qed.

Lemma try_write_total s slices fin c :
  wf c → is_Some (try_write_stream_vectored s slices fin c).
Proof.
  intros Hc. unfold try_write_stream_vectored, bind, check_terminal.
  destruct (terminal c); [by eexists|]. cbv zeta. rewrite remaining_left.
  destruct (try_write_loop_spec (S (length (left_of (Fragments.new slices)))) s
    (Fragments.new slices) fin (length (left_of (Fragments.new slices))) 0 c
    Hc ltac:(lia) ltac:(lia)) as (c1 & r1 & -> & _). by eexists.
Qed.

Lemma shutdown_byte_stream_total cx c : is_Some (shutdown_byte_stream cx c).
Proof.
  unfold shutdown_byte_stream. destruct (poll_shutdown cx (stream c)) as [s [|[[]|]]];
    by eexists.
Qed.

Lemma drain_settles cx c : wf c → settles (λ n, drain_pending n cx) c.
Proof.
  intros Hc. apply settles_bind; [by apply write_side_settles|]. intros n1 c1 [] E1.
  apply settles_const. by eexists.
Qed.

Lemma finish_close_total cx c : wf c → is_Some (finish_close cx c).
Proof.
  intros Hc. unfold finish_close, bind, gets, modify, ret.
  case_decide.
  - destruct (flush_total cx c Hc) as [[c1 [[]|e]] E]; rewrite E; cbn [negb];
      [apply shutdown_byte_stream_total|by eexists|by eexists].
  - apply shutdown_byte_stream_total.
Qed.

Lemma poll_close_settles cx reason c :
  wf c → settles (λ n, poll_close n cx reason) c.
Proof.
  intros Hc.
  destruct (decide (closing c = Some Complete)) as [H1|H1].
  { exists 0%nat, (c, Ok (Ready ())). intros n _. rewrite poll_close_unfold.
    by rewrite decide_True. }
  destruct (decide (closing c = None)) as [H2|H2].
  - assert (Hq : settles (λ n, queue_close n cx reason) c).
    { apply settles_bind; [by apply drain_settles|]. intros n1 c1 [] E1.
      - apply settles_const. by eexists.
      - apply settles_ret. }
    assert (settles (λ n, let* go := queue_close n cx reason in
               if negb go then ret Pending else finish_close cx) c) as (n0 & out & E).
    { apply settles_bind; [exact Hq|]. intros n1 c1 [] E1; [|apply settles_ret].
      apply settles_const, finish_close_total. by eapply queue_close_spec. }
    exists n0, out. intros n Hn. rewrite poll_close_unfold, decide_False, decide_True by done.
    by apply E.
  - destruct (finish_close_total cx c Hc) as [out E]. exists 0%nat, out. intros n _.
    by rewrite poll_close_unfold, !decide_False by done.
Qed.

Lemma poll_finish_settles cx c : wf c → settles (λ n, poll_finish n cx) c.
Proof.
  intros Hc. apply settles_bind; [apply settles_const; by eexists|].
  intros _ c1 cl [= <- <-]. destruct (decide (closing c = Some Complete)) as [H1|H1].
  { apply settles_ret. }
  apply settles_bind; [by apply drain_settles|]. intros n1 c1 [] E1; [|apply settles_ret].
  apply settles_const, shutdown_byte_stream_total.
Qed.

Lemma core_then_total {A} (f : Conn dwnx_conn Shared →
    Conn dwnx_conn Shared * result A QmuxError.Conn.Error) c :
  is_Some ((let* _ := check_terminal in let* _ := core f in
            modify (set_produce_pending true)) c).
Proof.
  unfold bind, check_terminal, core. destruct (terminal c); [by eexists|].
  destruct (f (conn c)) as [n [a|e]]; by eexists.
Qed.

Lemma connection_credit_total n c : is_Some (extend_connection_credit n c).
Proof.
  unfold extend_connection_credit, bind, check_terminal. destruct (terminal c); by eexists.
Qed.

Lemma open_total kind c : is_Some (try_open kind c).
Proof.
  unfold try_open, bind, check_terminal, core. destruct (terminal c); [by eexists|].
  destruct (match kind with Bidi => _ | Uni => _ end (conn c)) as [n [[]|]]; by eexists.
Qed.

Lemma poll_pump_settles cx c : wf c → settles (λ n, poll_pump n cx) c.
Proof.
  intros Hc. apply settles_guard. intros _.
  apply settles_bind; [by apply write_side_settles|]. intros n c1 [] _.
  apply settles_const. by eexists.
Qed.

Lemma pump_buffered_settles cx c : wf c → settles (λ n, poll_pump_buffered n cx) c.
Proof.
  intros Hc. apply settles_bind; [by apply pump_bounded_settles|]. intros n c1 rd _.
  apply settles_const. destruct rd; by eexists.
Qed.

(** C15.  Every operation returns.  On a well-formed connection, over a state machine with
    finitely many control records queued and a byte stream with finitely many reads ready,
    each public operation neither panics nor runs for ever: from some amount of fuel on it
    has an outcome, and more fuel does not change it. *)
Theorem every_operation_returns o c :
  wf c →
  ∃ n0 c' r, ∀ n, (n0 ≤ n)%nat → run_op n o c = Some (c', r).
Proof.
  intros Hc.
  enough (settles (λ n, run_op n o) c) as (n0 & [c' r] & E) by (by exists n0, c', r).
  destruct o; simpl; try apply settles_forget.
  - by apply poll_pump_settles.
  - by apply pump_buffered_settles.
  - by apply next_event_settles.
  - apply settles_const, taken_total.
  - apply settles_const, open_total.
  - by apply poll_write_settles.
  - by apply settles_const, try_write_total.
  - apply settles_const, core_then_total.
  - apply settles_const, core_then_total.
  - apply settles_const, connection_credit_total.
  - apply settles_const. unfold extend_stream_limit, bind, check_terminal.
    destruct (terminal c); by eexists.
  - by apply poll_close_settles.
  - by apply poll_finish_settles.
Qed.
End Totality.

(** The concrete environment of QmuxIoSafety.v makes progress. *)
Section Toy.
#[local] Existing Instance toy_dwnx.
#[local] Existing Instance toy_write_laws.
#[local] Existing Instance toy_idle_laws.
#[local] Existing Instance nat_wakers.
#[local] Existing Instance toy_stream.
#[local] Existing Instance toy_stream_laws.
#[local] Existing Instance toy_clock.

Definition toy_progress : @DwnxProgress toy_dwnx.
Proof.
  refine {| queued := (λ c : toy, toy_cur c) : @dwnx_conn toy_dwnx → nat |}; simpl; intros.
  - unfold toy_writev, toy_close. simpl. destruct (toy_cur c); lia.
  - lia.
Defined.

Definition toy_stream_progress : @StreamProgress nat_wakers toy_stream.
Proof. by refine {| readable := (λ _, O) : @bstream nat_wakers toy_stream → nat |}. Defined.

#[local] Existing Instance toy_progress.
#[local] Existing Instance toy_stream_progress.

Lemma every_operation_returns_witness :
  ∃ c0, toy_connection = Ok c0 ∧ wf c0 ∧
  ∃ n0 c' r, ∀ n, (n0 ≤ n)%nat →
    run_op n (OpWrite 3%nat sid0 ten_bytes true) c0 = Some (c', r).
Proof.
  destruct toy_connection as [c0|e] eqn:E0; [|vm_compute in E0; discriminate].
  destruct (wf_new _ _ _ _ _ E0) as (Hwf & _).
  exists c0. do 2 (split; [done|]).
  apply (every_operation_returns (OpWrite 3%nat sid0 ten_bytes true) c0 Hwf).
Defined.
End Toy.
