(* ===== verification/H3Types.v ===== *)
(** * HTTP/3 value types (crates/ngnet-h3/src/stream.rs, error.rs, header.rs, settings.rs,
    handlers.rs)

    Stream identifiers and their bits, errors and the classification of nghttp3's codes,
    header fields and what may be submitted, settings, and the data handlers are given.
    The codes themselves belong to nghttp3's header and are the class [Nghttp3Codes]. *)

From Stdlib Require Import ZArith Lia Strings.Byte.
From stdpp Require Import base list strings.
From S2P Require Import Prelude.

(** ** error.rs *)

Class Nghttp3Codes := {
  NGHTTP3_ERR_INVALID_ARGUMENT : Z;
  NGHTTP3_ERR_INVALID_STATE : Z;
  NGHTTP3_ERR_WOULDBLOCK : Z;
  NGHTTP3_ERR_STREAM_IN_USE : Z;
  NGHTTP3_ERR_MALFORMED_HTTP_HEADER : Z;
  NGHTTP3_ERR_REMOVE_HTTP_HEADER : Z;
  NGHTTP3_ERR_MALFORMED_HTTP_MESSAGING : Z;
  NGHTTP3_ERR_QPACK_FATAL : Z;
  NGHTTP3_ERR_QPACK_HEADER_TOO_LARGE : Z;
  NGHTTP3_ERR_STREAM_NOT_FOUND : Z;
  NGHTTP3_ERR_CONN_CLOSING : Z;
  NGHTTP3_ERR_STREAM_DATA_OVERFLOW : Z;
  NGHTTP3_ERR_QPACK_DECOMPRESSION_FAILED : Z;
  NGHTTP3_ERR_QPACK_ENCODER_STREAM_ERROR : Z;
  NGHTTP3_ERR_QPACK_DECODER_STREAM_ERROR : Z;
  NGHTTP3_ERR_H3_FRAME_UNEXPECTED : Z;
  NGHTTP3_ERR_H3_FRAME_ERROR : Z;
  NGHTTP3_ERR_H3_MISSING_SETTINGS : Z;
  NGHTTP3_ERR_H3_INTERNAL_ERROR : Z;
  NGHTTP3_ERR_H3_CLOSED_CRITICAL_STREAM : Z;
  NGHTTP3_ERR_H3_GENERAL_PROTOCOL_ERROR : Z;
  NGHTTP3_ERR_H3_ID_ERROR : Z;
  NGHTTP3_ERR_H3_SETTINGS_ERROR : Z;
  NGHTTP3_ERR_H3_STREAM_CREATION_ERROR : Z;
  NGHTTP3_ERR_H3_EXCESSIVE_LOAD : Z;
  NGHTTP3_ERR_FATAL : Z;
  NGHTTP3_ERR_NOMEM : Z;
  NGHTTP3_ERR_CALLBACK_FAILURE : Z;
  NGHTTP3_SHUTDOWN_NOTICE_STREAM_ID : Z;
  NGHTTP3_SHUTDOWN_NOTICE_PUSH_ID : Z;
  NGHTTP3_STREAM_CLOSE_FLAG_RX_APP_ERROR_CODE_SET : Z;
  NGHTTP3_STREAM_CLOSE_FLAG_TX_APP_ERROR_CODE_SET : Z;
  NGHTTP3_DATA_FLAG_NONE : Z;
  NGHTTP3_DATA_FLAG_EOF : Z;
  NGHTTP3_DATA_FLAG_NO_END_STREAM : Z;
  NGHTTP3_NV_FLAG_NONE : Z;
  NGHTTP3_NV_FLAG_NEVER_INDEX : Z;
  (** [nghttp3_err_is_fatal(code) != 0]. *)
  nghttp3_err_is_fatal : Z → bool;
  nghttp3_err_infer_quic_app_error_code : Z → Z
}.

Inductive ErrorKind :=
| Protocol | Exhausted | InvalidInput | ConnectionUnusable | Internal | ClosedCriticalStream.

#[global] Instance ErrorKind_eq_dec : EqDecision ErrorKind.
Proof. solve_decision. Defined.

Record Error := mkError {
  kind : ErrorKind;
  native_code : option Z;
  context : string;
  unusable : bool
}.

Module H3Error.
Section Codes.
Context `{Nghttp3Codes}.

Definition classify (code : Z) : ErrorKind :=
  if decide (code = NGHTTP3_ERR_NOMEM) then Exhausted
  else if nghttp3_err_is_fatal code then Internal
  else if decide (code = NGHTTP3_ERR_H3_CLOSED_CRITICAL_STREAM) then ClosedCriticalStream
  else if decide (code ∈ [NGHTTP3_ERR_INVALID_ARGUMENT; NGHTTP3_ERR_INVALID_STATE;
                          NGHTTP3_ERR_STREAM_IN_USE; NGHTTP3_ERR_STREAM_NOT_FOUND;
                          NGHTTP3_ERR_CONN_CLOSING]) then InvalidInput
  else if decide (code ∈ [NGHTTP3_ERR_MALFORMED_HTTP_HEADER;
                          NGHTTP3_ERR_MALFORMED_HTTP_MESSAGING;
                          NGHTTP3_ERR_QPACK_FATAL;
                          NGHTTP3_ERR_QPACK_HEADER_TOO_LARGE;
                          NGHTTP3_ERR_QPACK_DECOMPRESSION_FAILED;
                          NGHTTP3_ERR_QPACK_ENCODER_STREAM_ERROR;
                          NGHTTP3_ERR_QPACK_DECODER_STREAM_ERROR;
                          NGHTTP3_ERR_STREAM_DATA_OVERFLOW;
                          NGHTTP3_ERR_H3_FRAME_UNEXPECTED;
                          NGHTTP3_ERR_H3_FRAME_ERROR;
                          NGHTTP3_ERR_H3_MISSING_SETTINGS;
                          NGHTTP3_ERR_H3_INTERNAL_ERROR;
                          NGHTTP3_ERR_H3_GENERAL_PROTOCOL_ERROR;
                          NGHTTP3_ERR_H3_ID_ERROR;
                          NGHTTP3_ERR_H3_SETTINGS_ERROR;
                          NGHTTP3_ERR_H3_STREAM_CREATION_ERROR;
                          NGHTTP3_ERR_H3_EXCESSIVE_LOAD]) then Protocol
  else Internal.

Definition native (code : Z) (ctx : string) : Error :=
  mkError (classify code) (Some code) ctx false.

Definition into_unusable (e : Error) : Error :=
  mkError (kind e) (native_code e) (context e) true.

Definition is_fatal (e : Error) : bool :=
  unusable e || bool_decide (kind e = ConnectionUnusable) ||
  match native_code e with Some code => nghttp3_err_is_fatal code | None => false end.

Definition app_error_code (e : Error) : option Z :=
  let! native := native_code e in Some (nghttp3_err_infer_quic_app_error_code native).
End Codes.

Definition invalid_input (ctx : string) : Error := mkError InvalidInput None ctx false.

(** [Error::unusable]. *)
Definition refused : Error :=
  mkError ConnectionUnusable None
    "the connection encountered an unrecoverable error and cannot be used" true.
End H3Error.

Abbreviation Result A := (result A Error).

(** ** stream.rs *)

Inductive Role := Client | Server.
Inductive Initiator := ByClient | ByServer.
Inductive Directionality := Bidirectional | Unidirectional.

#[global] Instance Role_eq_dec : EqDecision Role.
Proof. solve_decision. Defined.
#[global] Instance Initiator_eq_dec : EqDecision Initiator.
Proof. solve_decision. Defined.
#[global] Instance Directionality_eq_dec : EqDecision Directionality.
Proof. solve_decision. Defined.

(** [StreamId] is a private [i64]: every value comes from [new], so it is a [Z] that
    passed its check. *)
Abbreviation StreamId := Z.

Module H3Stream.
Definition MAX_VARINT : Z := Z.shiftl 1 62 - 1.

Definition new (id : Z) : Result StreamId :=
  if id <? 0 then Err (H3Error.invalid_input "stream id is negative")
  else if MAX_VARINT <? id then
    Err (H3Error.invalid_input "stream id exceeds the QUIC varint maximum of 2^62 - 1")
  else Ok id.

(** [as i64] on a [u64]. *)
Definition as_i64 (z : Z) : Z :=
  let z := z mod 2 ^ 64 in if z <? 2 ^ 63 then z else z - 2 ^ 64.

Definition compose (initiator : Initiator) (directionality : Directionality) (index : Z)
  : Result StreamId :=
  let initiator_bit := match initiator with ByClient => 0 | ByServer => 1 end in
  let direction_bit := match directionality with Bidirectional => 0 | Unidirectional => 1 end in
  if Z.shiftr MAX_VARINT 2 <? index then
    Err (H3Error.invalid_input "stream index is too large")
  else
    new (as_i64 (Z.lor (Z.lor (shl64 index 2) (shl64 direction_bit 1)) initiator_bit)).

Definition get (s : StreamId) : Z := s.

Definition initiator (s : StreamId) : Initiator :=
  if Z.land s 1 =? 0 then ByClient else ByServer.

Definition directionality (s : StreamId) : Directionality :=
  if Z.land s 2 =? 0 then Bidirectional else Unidirectional.

Definition is_local_unidirectional (s : StreamId) (role : Initiator) : bool :=
  bool_decide (directionality s = Unidirectional) && bool_decide (initiator s = role).

Definition is_client_bidirectional (s : StreamId) : bool :=
  bool_decide (directionality s = Bidirectional) && bool_decide (initiator s = ByClient).
End H3Stream.

(** [Role::initiator] of conn.rs. *)
Definition role_initiator (r : Role) : Initiator :=
  match r with Client => ByClient | Server => ByServer end.

(** ** header.rs *)
Module Header.

Record Header := mkHeader { name : bytes; value : bytes; is_sensitive : bool }.

(** [nghttp3_nv]. *)
Record nv := mkNv { nv_name : bytes; nv_value : bytes; nv_flags : Z }.

Definition name_byte_ok (b : byte) : bool :=
  is_ascii_lowercase b || is_ascii_digit b ||
  bool_decide (b ∈ ascii_bytes "!#$%&'*+-.^_`|~").

(** The loop over the bytes after the colon. *)
Fixpoint name_loop (body : bytes) : Result unit :=
  match body with
  | [] => Ok ()
  | b :: body =>
      if negb (name_byte_ok b) then
        Err (if is_ascii_uppercase b
             then H3Error.invalid_input "HTTP/3 field names must be lowercase"
             else H3Error.invalid_input "that byte is not allowed in an HTTP/3 field name")
      else name_loop body
  end.

Definition validate_name (name : bytes) : Result unit :=
  match name with
  | [] => Err (H3Error.invalid_input "a field name cannot be empty")
  | first :: tail =>
      let body := if decide (first = Zb 0x3a) then tail else name in
      match body with
      | [] => Err (H3Error.invalid_input "a pseudo-header name needs more than its colon")
      | _ => name_loop body
      end
  end.

Definition value_byte_ok (b : byte) : bool :=
  (bZ b =? 9) || (bZ b =? 0x20) || in_range 0x21 0x7e b || (0x80 <=? bZ b).

Fixpoint value_loop (value : bytes) : Result unit :=
  match value with
  | [] => Ok ()
  | b :: value =>
      if negb (value_byte_ok b) then
        Err (if bZ b =? 0 then H3Error.invalid_input "a field value cannot contain NUL"
             else if (bZ b =? 13) || (bZ b =? 10) then
               H3Error.invalid_input "a field value cannot contain CR or LF, which would let it inject a second field"
             else H3Error.invalid_input "that control byte is not allowed in a field value")
      else value_loop value
  end.

Definition is_space_or_tab (b : option byte) : bool :=
  match b with Some b => (bZ b =? 0x20) || (bZ b =? 9) | None => false end.

Definition validate_value (value : bytes) : Result unit :=
  let? _ := value_loop value in
  if is_space_or_tab (head value) || is_space_or_tab (last value) then
    Err (H3Error.invalid_input "a field value cannot begin or end with a space or tab")
  else Ok ().

Definition new (name value : bytes) : Result Header :=
  let? _ := validate_name name in
  let? _ := validate_value value in
  Ok (mkHeader name value false).

Definition sensitive (h : Header) : Header := mkHeader (name h) (value h) true.

Definition as_nv `{Nghttp3Codes} (h : Header) : nv :=
  mkNv (name h) (value h)
    (if is_sensitive h then NGHTTP3_NV_FLAG_NEVER_INDEX else NGHTTP3_NV_FLAG_NONE).
End Header.

(** ** settings.rs *)
Module H3Settings.
Section WithRest.
(** The fields of the C struct this crate never sets. *)
Context {Rest : Type}.

Record Settings := mkSettings {
  s_max_field_section_size : Z;
  s_qpack_max_dtable_capacity : Z;
  s_qpack_blocked_streams : Z;
  s_enable_connect_protocol : Z;
  s_rest : Rest
}.

Definition MAX_VARINT : Z := Z.shiftl 1 62 - 1.

(** On a 64-bit target. *)
Definition clamp_varint (value : Z) : Z := Z.min value MAX_VARINT.

Definition max_field_section_size (size : Z) (s : Settings) : Settings :=
  mkSettings (Z.min size MAX_VARINT) (s_qpack_max_dtable_capacity s)
    (s_qpack_blocked_streams s) (s_enable_connect_protocol s) (s_rest s).
Definition qpack_max_dtable_capacity (capacity : Z) (s : Settings) : Settings :=
  mkSettings (s_max_field_section_size s) (clamp_varint capacity)
    (s_qpack_blocked_streams s) (s_enable_connect_protocol s) (s_rest s).
Definition qpack_blocked_streams (streams : Z) (s : Settings) : Settings :=
  mkSettings (s_max_field_section_size s) (s_qpack_max_dtable_capacity s)
    (clamp_varint streams) (s_enable_connect_protocol s) (s_rest s).
Definition enable_connect_protocol (enabled : bool) (s : Settings) : Settings :=
  mkSettings (s_max_field_section_size s) (s_qpack_max_dtable_capacity s)
    (s_qpack_blocked_streams s) (if enabled then 1 else 0) (s_rest s).
End WithRest.
Arguments Settings : clear implicits.
End H3Settings.

(** ** handlers.rs *)

Inductive FieldSection := Headers | Trailers.
Inductive FieldAction := Continue | Stop.

#[global] Instance FieldSection_eq_dec : EqDecision FieldSection.
Proof. solve_decision. Defined.
#[global] Instance FieldAction_eq_dec : EqDecision FieldAction.
Proof. solve_decision. Defined.

(** [FieldToken::from_raw]. *)
Definition token_from_raw (token : Z) : option Z := if 0 <=? token then Some token else None.

Record StreamClosed := mkStreamClosed { receiving : option Z; sending : option Z }.

Definition clean : StreamClosed := mkStreamClosed None None.
Definition reset_by_peer (code : Z) : StreamClosed := mkStreamClosed (Some code) None.
Definition stopped_by_peer (code : Z) : StreamClosed := mkStreamClosed None (Some code).
Definition is_clean (c : StreamClosed) : bool :=
  match receiving c, sending c with None, None => true | _, _ => false end.

Inductive Shutdown := Notice | NoStreamsFrom (s : StreamId) | NoPushesFrom (id : Z).

Record PeerSettings := mkPeerSettings {
  ps_max_field_section_size : Z;
  ps_qpack_max_dtable_capacity : Z;
  ps_qpack_blocked_streams : Z;
  ps_enable_connect_protocol : bool;
  ps_h3_datagram : bool
}.

(** A handler is a closure over the caller's state; [C] is that state together with what
    the closures capture. *)
Record Handlers (C : Type) := mkHandlers {
  deferred_consume : option (StreamId → Z → C → C);
  section_begin : option (StreamId → FieldSection → C → C);
  field : option (StreamId → FieldSection → option Z → bytes → bytes → C → C * FieldAction);
  section_end : option (StreamId → FieldSection → C → C);
  data : option (StreamId → bytes → C → C);
  end_stream : option (StreamId → C → C);
  stream_close : option (StreamId → StreamClosed → C → C);
  stop_sending : option (StreamId → Z → C → C);
  reset_stream : option (StreamId → Z → C → C);
  shutdown : option (Shutdown → C → C);
  peer_settings : option (PeerSettings → C → C)
}.
Arguments mkHandlers {C}.
Arguments deferred_consume {C}.
Arguments section_begin {C}.
Arguments field {C}.
Arguments section_end {C}.
Arguments data {C}.
Arguments end_stream {C}.
Arguments stream_close {C}.
Arguments stop_sending {C}.
Arguments reset_stream {C}.
Arguments shutdown {C}.
Arguments peer_settings {C}.

Definition handlers_default {C} : Handlers C :=
  mkHandlers None None None None None None None None None None None.

(** ** Stream identifiers *)

Lemma new_exact z s : H3Stream.new z = Ok s ↔ s = z ∧ 0 ≤ z < 2 ^ 62.
Proof.
  unfold H3Stream.new. change H3Stream.MAX_VARINT with (2 ^ 62 - 1).
  destruct (Z.ltb_spec z 0); [split; [done|lia]|].
  destruct (Z.ltb_spec (2 ^ 62 - 1) z); split; intros E; try done; try lia.
  - simplify_eq. lia.
  - by destruct E as [-> ?].
Qed.

Definition initiator_bit (i : Initiator) : Z := match i with ByClient => 0 | ByServer => 1 end.
Definition direction_bit (d : Directionality) : Z :=
  match d with Bidirectional => 0 | Unidirectional => 1 end.

Lemma lor_low n d i :
  0 ≤ n → Z.lor (Z.lor (Z.shiftl n 2) (Z.shiftl (direction_bit d) 1)) (initiator_bit i) =
    4 * n + 2 * direction_bit d + initiator_bit i.
Proof.
  intros Hn. rewrite <-Z.lor_assoc.
  replace (Z.lor (Z.shiftl (direction_bit d) 1) (initiator_bit i))
    with (2 * direction_bit d + initiator_bit i) by by destruct d, i.
  rewrite <-Z.add_nocarry_lor.
  - rewrite Z.shiftl_mul_pow2 by lia. lia.
  - apply Z.bits_inj'. intros k Hk. rewrite Z.land_spec, Z.bits_0.
    destruct (Z.ltb_spec k 2).
    + by rewrite Z.shiftl_spec_low by lia.
    + rewrite (Z.bits_above_log2 (2 * _ + _)); [apply andb_false_r|by destruct d, i|].
      assert (Z.log2 (2 * direction_bit d + initiator_bit i) ≤ 1) by by destruct d, i.
      lia.
Qed.

Lemma compose_value i d n :
  is_u64 n →
  H3Stream.compose i d n =
    if n <? 2 ^ 60 then Ok (4 * n + 2 * direction_bit d + initiator_bit i)
    else Err (H3Error.invalid_input "stream index is too large").
Proof.
  intros Hn. unfold H3Stream.compose. change (Z.shiftr H3Stream.MAX_VARINT 2) with (2 ^ 60 - 1).
  destruct (Z.ltb_spec (2 ^ 60 - 1) n), (Z.ltb_spec n (2 ^ 60)); try lia; [done|].
  fold (initiator_bit i) (direction_bit d). unfold is_u64 in Hn.
  assert (shl64 n 2 = Z.shiftl n 2) as ->.
  { unfold shl64. rewrite Z.shiftl_mul_pow2, Z.mod_small by lia. done. }
  assert (shl64 (direction_bit d) 1 = Z.shiftl (direction_bit d) 1) as -> by by destruct d.
  rewrite lor_low by lia.
  set (z := 4 * n + 2 * direction_bit d + initiator_bit i).
  assert (Hz : 0 ≤ z < 2 ^ 62) by (subst z; destruct d, i; simpl; lia).
  unfold H3Stream.as_i64. rewrite Z.mod_small by lia.
  destruct (Z.ltb_spec z (2 ^ 63)); [|lia]. by apply new_exact.
Qed.

Lemma land_1 z : Z.land z 1 = z mod 2.
Proof. change 1 with (Z.ones 1). by rewrite Z.land_ones by lia. Qed.

Lemma land_2 z : Z.land z 2 = 2 * ((z / 2) mod 2).
Proof.
  change (z / 2) with (z / 2 ^ 1). rewrite <-Z.testbit_spec' by lia.
  apply Z.bits_inj'. intros k Hk. rewrite Z.land_spec.
  change 2 with (2 ^ 1) at 1. rewrite Z.pow2_bits_eqb by lia.
  destruct (Z.eqb_spec 1 k) as [<-|].
  - rewrite andb_true_r. by destruct (Z.testbit z 1).
  - rewrite andb_false_r. destruct (Z.testbit z 1); simpl Z.b2z; [|by rewrite Z.bits_0].
    change (2 * 1) with (2 ^ 1). rewrite Z.pow2_bits_eqb by lia.
    by destruct (Z.eqb_spec 1 k).
Qed.

Lemma parts_of i d n :
  let s := 4 * n + 2 * direction_bit d + initiator_bit i in
  H3Stream.initiator s = i ∧ H3Stream.directionality s = d ∧ s / 4 = n.
Proof.
  intros s. unfold H3Stream.initiator, H3Stream.directionality. rewrite land_1, land_2.
  assert (s mod 2 = initiator_bit i) as ->.
  { symmetry. apply (Z.mod_unique _ _ (2 * n + direction_bit d)); subst s; [|lia].
    destruct i; simpl; lia. }
  assert (s / 2 = 2 * n + direction_bit d) as ->.
  { symmetry. apply (Z.div_unique _ _ _ (initiator_bit i)); subst s; [|lia].
    destruct i; simpl; lia. }
  assert ((2 * n + direction_bit d) mod 2 = direction_bit d) as ->.
  { symmetry. apply (Z.mod_unique _ _ n); [destruct d; simpl; lia|lia]. }
  split; [by destruct i|]. split; [by destruct d|].
  symmetry. apply (Z.div_unique _ _ _ (2 * direction_bit d + initiator_bit i)); subst s; [|lia].
  destruct d, i; simpl; lia.
Qed.

Lemma of_parts z :
  0 ≤ z →
  z = 4 * (z / 4) + 2 * direction_bit (H3Stream.directionality z) +
        initiator_bit (H3Stream.initiator z).
Proof.
  intros Hz. unfold H3Stream.initiator, H3Stream.directionality. rewrite land_1, land_2.
  pose proof (Z.mod_pos_bound z 2 ltac:(lia)).
  pose proof (Z.mod_pos_bound (z / 2) 2 ltac:(lia)).
  pose proof (Z.div_mod z 2 ltac:(lia)). pose proof (Z.div_mod (z / 2) 2 ltac:(lia)).
  assert (z / 2 / 2 = z / 4) by (rewrite Z.div_div by lia; done).
  destruct (Z.eqb_spec (z mod 2) 0), (Z.eqb_spec (2 * ((z / 2) mod 2)) 0);
    cbn [direction_bit initiator_bit]; lia.
Qed.

(** A stream identifier is built from its parts and taken apart again without loss:
    [new] accepts exactly the 62-bit values, [compose] exactly the 60-bit indices, the
    parts of what [compose] builds are its arguments, and every accepted identifier is
    composed of its own parts. *)
Theorem stream_id_parts :
  (∀ z s, H3Stream.new z = Ok s ↔ s = z ∧ 0 ≤ z < 2 ^ 62) ∧
  (∀ i d n, is_u64 n → is_ok (H3Stream.compose i d n) = (n <? 2 ^ 60)) ∧
  (∀ i d n s, is_u64 n → H3Stream.compose i d n = Ok s →
     H3Stream.new s = Ok s ∧ H3Stream.initiator s = i ∧ H3Stream.directionality s = d ∧
     H3Stream.get s / 4 = n) ∧
  (∀ z s, H3Stream.new z = Ok s →
     H3Stream.compose (H3Stream.initiator s) (H3Stream.directionality s) (z / 4) = Ok s).
Proof.
  split; [exact new_exact|]. split; [|split].
  - intros i d n Hn. rewrite compose_value by done. by destruct (n <? 2 ^ 60).
  - intros i d n s Hn. rewrite compose_value by done.
    destruct (Z.ltb_spec n (2 ^ 60)) as [Hlt|]; [|done]. intros [= <-].
    split; [|apply parts_of]. apply new_exact. unfold is_u64 in Hn.
    destruct d, i; simpl; lia.
  - intros z s [-> Hz]%new_exact.
    pose proof (Z.div_pos z 4 ltac:(lia) ltac:(lia)).
    pose proof (Z.div_lt_upper_bound z 4 (2 ^ 60) ltac:(lia) ltac:(lia)).
    rewrite compose_value by (unfold is_u64, U64_MAX; lia).
    destruct (Z.ltb_spec (z / 4) (2 ^ 60)); [|lia]. by rewrite <-of_parts by lia.
Qed.

(** ** Header fields *)

(** The characters of a field name: [tchar] of RFC 9110 without the upper case. *)
Definition field_name_chars : bytes :=
  ascii_bytes "!#$%&'*+-.^_`|~0123456789abcdefghijklmnopqrstuvwxyz".

Lemma name_byte_ok_spec b : Header.name_byte_ok b = bool_decide (b ∈ field_name_chars).
Proof. by destruct b. Qed.

(** The bytes of a field value: a tab, printable ASCII and the high range. *)
Lemma value_byte_ok_spec b :
  Header.value_byte_ok b = true ↔ bZ b = 9 ∨ (32 ≤ bZ b ∧ bZ b ≠ 127).
Proof.
  pose proof (bZ_bound b). unfold Header.value_byte_ok, in_range.
  rewrite !orb_true_iff, andb_true_iff, !Z.eqb_eq, !Z.leb_le. lia.
Qed.

Lemma name_loop_ok body :
  Header.name_loop body = Ok () ↔ Forall (λ b, b ∈ field_name_chars) body.
Proof.
  induction body as [|b body IH]; simpl; [by split|].
  rewrite name_byte_ok_spec, Forall_cons, <-IH.
  destruct (bool_decide_reflect (b ∈ field_name_chars)); simpl.
  - split; [by split|by intros []].
  - split; [|by intros []]. by destruct (is_ascii_uppercase b).
Qed.

Lemma value_loop_ok value :
  Header.value_loop value = Ok () ↔ Forall (λ b, bZ b = 9 ∨ (32 ≤ bZ b ∧ bZ b ≠ 127)) value.
Proof.
  induction value as [|b value IH]; simpl; [by split|].
  rewrite Forall_cons, <-IH, <-value_byte_ok_spec.
  destruct (Header.value_byte_ok b); simpl; [split; [by split|by intros []]|].
  split; [|by intros []]. by repeat case_match.
Qed.

Lemma refusal_kind {A B} (r : Result A) (k : A → Result B) (P : Error → Prop) :
  (∀ e, r = Err e → P e) → (∀ a e, k a = Err e → P e) →
  ∀ e, (let? a := r in k a) = Err e → P e.
Proof.
  intros Hr Hk e. destruct r as [a|e']; [apply Hk|].
  intros [= ->]. by apply Hr.
Qed.

Lemma name_loop_err body e :
  Header.name_loop body = Err e → kind e = InvalidInput ∧ unusable e = false.
Proof.
  induction body as [|b body IH]; simpl; [done|].
  destruct (negb _); [|done]. intros [= <-]. by case_match.
Qed.

Lemma value_loop_err value e :
  Header.value_loop value = Err e → kind e = InvalidInput ∧ unusable e = false.
Proof.
  induction value as [|b value IH]; simpl; [done|].
  destruct (negb _); [|done]. intros [= <-]. by repeat case_match.
Qed.

Lemma colon_not_in_name : Zb 0x3a ∉ field_name_chars.
Proof. by apply (bool_decide_eq_false_1 (Zb 0x3a ∈ field_name_chars)). Qed.

Lemma validate_name_exact n :
  Header.validate_name n = Ok () ↔
  ∃ body, (n = body ∨ n = Zb 0x3a :: body) ∧ body ≠ [] ∧
    Forall (λ b, b ∈ field_name_chars) body.
Proof.
  destruct n as [|f tl]; simpl.
  { split; [done|]. intros (body & [E|E] & Hne & _); congruence. }
  destruct (decide (f = Zb 0x3a)) as [->|Hf].
  - assert ((match tl with [] => Err (H3Error.invalid_input "a pseudo-header name needs more than its colon") | _ => Header.name_loop tl end) = Ok () ↔ tl ≠ [] ∧ Forall (λ b, b ∈ field_name_chars) tl) as ->.
    { destruct tl; [by split; [|intros []]|]. rewrite name_loop_ok. split; [by split|by intros []]. }
    split; [intros []; eauto|]. intros (body & [E|E] & Hne & Hall); simplify_eq; [|done].
    apply Forall_cons in Hall as [Hc _]. by apply colon_not_in_name in Hc.
  - rewrite name_loop_ok. split.
    + intros Hall. exists (f :: tl). split; [by left|]. by split.
    + intros (body & [E|E] & Hne & Hall); simplify_eq; done.
Qed.

Lemma validate_value_exact v :
  Header.validate_value v = Ok () ↔
  Forall (λ b, bZ b = 9 ∨ (32 ≤ bZ b ∧ bZ b ≠ 127)) v ∧
  (∀ b, head v = Some b ∨ last v = Some b → bZ b ≠ 9 ∧ bZ b ≠ 32).
Proof.
  unfold Header.validate_value. rewrite <-value_loop_ok.
  destruct (Header.value_loop v) as [[]|e]; [|by split; [|intros []]].
  assert (∀ o, Header.is_space_or_tab o = false ↔ ∀ b, o = Some b → bZ b ≠ 9 ∧ bZ b ≠ 32)
    as Hsp.
  { intros [b|]; simpl; [|by split]. rewrite orb_false_iff, !Z.eqb_neq. split; [by intros [? ?] ? [= <-]|]. intros Hb. destruct (Hb b eq_refl). done. }
  destruct (Header.is_space_or_tab (head v) || Header.is_space_or_tab (last v)) eqn:E.
  - split; [done|]. intros [_ Hb]. exfalso.
    assert (Header.is_space_or_tab (head v) = false) as E1 by (apply Hsp; eauto).
    assert (Header.is_space_or_tab (last v) = false) as E2 by (apply Hsp; eauto).
    by rewrite E1, E2 in E.
  - apply orb_false_iff in E as [E1 E2].
    pose proof (proj1 (Hsp _) E1). pose proof (proj1 (Hsp _) E2).
    split; [|done]. intros _. split; [done|]. intros b [Hb|Hb]; eauto.
Qed.

(** A header field is accepted exactly when its name is a non-empty lower-case token,
    behind at most one colon, and its value is visible text (tabs and spaces inside it
    allowed) with no whitespace at either end; so no accepted value holds a NUL, a CR or
    an LF.  A refusal blames the caller and leaves the connection usable. *)
Theorem header_new_exact n v :
  (∀ h, Header.new n v = Ok h ↔
     h = Header.mkHeader n v false ∧
     (∃ body, (n = body ∨ n = Zb 0x3a :: body) ∧ body ≠ [] ∧
        Forall (λ b, b ∈ field_name_chars) body) ∧
     Forall (λ b, bZ b = 9 ∨ (32 ≤ bZ b ∧ bZ b ≠ 127)) v ∧
     (∀ b, head v = Some b ∨ last v = Some b → bZ b ≠ 9 ∧ bZ b ≠ 32)) ∧
  (is_ok (Header.new n v) = true → (Zb 0 ∉ v) ∧ (Zb 10 ∉ v) ∧ (Zb 13 ∉ v)) ∧
  (∀ e, Header.new n v = Err e → kind e = InvalidInput ∧ unusable e = false).
Proof.
  assert (Hnew : ∀ h, Header.new n v = Ok h ↔ h = Header.mkHeader n v false ∧
            Header.validate_name n = Ok () ∧ Header.validate_value v = Ok ()).
  { intros h. unfold Header.new.
    destruct (Header.validate_name n) as [[]|]; [|by split; [|intros (_ & ? & _)]].
    destruct (Header.validate_value v) as [[]|]; [|by split; [|intros (_ & _ & ?)]].
    split; [by intros [= <-]|by intros [-> _]]. }
  split; [|split].
  - intros h. by rewrite Hnew, validate_name_exact, validate_value_exact.
  - intros [h (_ & _ & [Hv _]%validate_value_exact)%Hnew]%is_ok_true.
    rewrite Forall_forall in Hv.
    split_and!; intros Hin%Hv; rewrite bZ_Zb_small in Hin by lia; lia.
  - apply refusal_kind; [|intros _; apply refusal_kind; [|done]].
    + intros e. unfold Header.validate_name. repeat case_match; try done; intros He;
        first [by simplify_eq | by apply name_loop_err in He].
    + intros e. unfold Header.validate_value. destruct (Header.value_loop v) eqn:E.
      * case_match; [|done]. by intros [= <-].
      * intros [= <-]. by apply value_loop_err in E.
Qed.

(** ** Worked inputs *)

Example stream_id_parts_witness :
  H3Stream.compose ByServer Unidirectional 3 = Ok 15 ∧
  H3Stream.initiator 15 = ByServer ∧ H3Stream.directionality 15 = Unidirectional ∧
  H3Stream.get 15 / 4 = 3.
Proof.
  split; [reflexivity|].
  destruct stream_id_parts as (_ & _ & Hparts & _).
  apply (Hparts ByServer Unidirectional 3 15); [|reflexivity].
  unfold is_u64, U64_MAX. lia.
Defined.

Example header_new_exact_witness :
  Header.new (ascii_bytes ":path") (ascii_bytes "/a b") =
    Ok (Header.mkHeader (ascii_bytes ":path") (ascii_bytes "/a b") false) ∧
  Zb 10 ∉ ascii_bytes "/a b".
Proof.
  split; [reflexivity|].
  destruct (header_new_exact (ascii_bytes ":path") (ascii_bytes "/a b")) as (_ & Hnl & _).
  apply (Hnl eq_refl).
Defined.
