(* ===== verification/H3Body.v ===== *)
(** * Outgoing bodies and their accounting (crates/ngnet-h3/src/body.rs, state.rs, and the
    filling loop of callbacks.rs)

    [RetainedBytes] is a window on a shared buffer whose owner is caller-supplied code: what
    it answers may differ each time it is asked, so every access takes a time, [nat], and
    the operations thread it.  [BodyEntry] is one stream's outgoing body: the pieces not yet
    handed to nghttp3, the pieces handed over and not yet acknowledged.  [BodyRegistry]
    holds the entries and the offsets, [Deliveries] the credit and the silenced sections. *)

From Stdlib Require Import ZArith Lia.
From stdpp Require Import base list gmap strings sorting.
From S2P Require Import Prelude H3Types.

(** ** body.rs *)
Module Bytes.

(** [Store]: an owned buffer, or an erased owner, which answers [owner t] when asked at
    time [t]. *)
Inductive Store := Owned (buffer : bytes) | Erased (owner : nat → bytes).

Definition store_bytes (t : nat) (s : Store) : bytes :=
  match s with Owned buffer => buffer | Erased owner => owner t end.

Record RetainedBytes := mkRetained { store : Store; start : nat; end_ : nat }.

Definition new (buffer : bytes) : RetainedBytes :=
  mkRetained (Owned buffer) 0 (length buffer).

Definition from_owner (t : nat) (owner : nat → bytes) : RetainedBytes :=
  mkRetained (Erased owner) 0 (length (owner t)).

Definition as_slice (t : nat) (r : RetainedBytes) : bytes :=
  let all := store_bytes t (store r) in
  let e := min (end_ r) (length all) in
  let s := min (start r) e in
  take (e - s) (drop s all).

Definition len (t : nat) (r : RetainedBytes) : nat := length (as_slice t r).

Definition is_empty (t : nat) (r : RetainedBytes) : bool := bool_decide (len t r = 0%nat).

(** The head that is returned, and what is left. *)
Definition split_to (t : nat) (n : nat) (r : RetainedBytes) : RetainedBytes * RetainedBytes :=
  let n := min n (len t r) in
  (mkRetained (store r) (start r) (start r + n), mkRetained (store r) (start r + n) (end_ r)).
End Bytes.
Export Bytes(RetainedBytes).

Inductive BodyOutcome :=
| Wrote (pieces : list RetainedBytes)
| Eof (pieces : list RetainedBytes)
| EofWithTrailers (pieces : list RetainedBytes)
| Defer
| BFail.

(** [trait BodySource]: asked at a time for more, it takes some time over its answer, and may
    change the caller's state [C] that it shares. *)
Class BodySource (S C : Type) := source_next : nat * C → S → (nat * C) * S * BodyOutcome.

(** [FixedBody]. *)
Definition FixedBody : Type := option RetainedBytes.
Definition fixed_new (b : RetainedBytes) : FixedBody := Some b.

#[global] Instance fixed_next {C} : BodySource FixedBody C := λ '(t, c) s,
  match s with
  | Some b =>
      if negb (Bytes.is_empty t b) then ((S t, c), None, Eof [b]) else ((S t, c), None, Eof [])
  | None => ((t, c), None, Eof [])
  end.

(** ** state.rs *)

Inductive BodyEnd := EndStream | EndTrailers.
Inductive Handover := HDefer | HFail | HReady.

#[global] Instance BodyEnd_eq_dec : EqDecision BodyEnd.
Proof. solve_decision. Defined.
#[global] Instance Handover_eq_dec : EqDecision Handover.
Proof. solve_decision. Defined.

Record BodyEntry (S : Type) := mkEntry {
  source : S;
  pending : list RetainedBytes;
  end_ : option BodyEnd;
  retained : list (RetainedBytes * Z);
  carry : Z
}.
Arguments mkEntry {S}.
Arguments source {S}.
Arguments pending {S}.
Arguments end_ {S}.
Arguments retained {S}.
Arguments carry {S}.

Module Entry.
Section WithSource.
Context {S C : Type} `{!BodySource S C}.

Definition new (s : S) : BodyEntry S := mkEntry s [] None [] 0.

(** The pieces that are not empty when they are asked, in turn. *)
Fixpoint keep_nonempty (t : nat) (pieces : list RetainedBytes) : nat * list RetainedBytes :=
  match pieces with
  | [] => (t, [])
  | p :: pieces =>
      let '(t', kept) := keep_nonempty (t + 1) pieces in
      (t', if Bytes.is_empty t p then kept else p :: kept)
  end.

Definition begin_round (t : nat * C) (e : BodyEntry S) : (nat * C) * BodyEntry S * Handover :=
  if negb (bool_decide (pending e = [])) || bool_decide (is_Some (end_ e)) then (t, e, HReady)
  else
    let '(t, s, outcome) := source_next t (source e) in
    let e := mkEntry s (pending e) (end_ e) (retained e) (carry e) in
    let queue pieces end_ :=
      let '(n, kept) := keep_nonempty t.1 pieces in
      ((n, t.2), mkEntry s (pending e ++ kept) end_ (retained e) (carry e), HReady) in
    match outcome with
    | Defer => (t, e, HDefer)
    | BFail => (t, e, HFail)
    | Wrote pieces => queue pieces None
    | Eof pieces => queue pieces (Some EndStream)
    | EofWithTrailers pieces => queue pieces (Some EndTrailers)
    end.

Definition take_piece (e : BodyEntry S) : BodyEntry S * option RetainedBytes :=
  match pending e with
  | [] => (e, None)
  | p :: ps => (mkEntry (source e) ps (end_ e) (retained e) (carry e), Some p)
  end.

Definition retain (piece : RetainedBytes) (handed : nat) (e : BodyEntry S) : BodyEntry S :=
  mkEntry (source e) (pending e) (end_ e) (retained e ++ [(piece, Z.of_nat handed)]) (carry e).

Definition end_reached (e : BodyEntry S) : option BodyEnd :=
  if decide (pending e = []) then end_ e else None.

(** The loop of [on_acked]. *)
Fixpoint release (carry : Z) (retained : list (RetainedBytes * Z))
  : Z * list (RetainedBytes * Z) :=
  match retained with
  | [] => (carry, [])
  | (piece, handed) :: rest =>
      if carry <? handed then (carry, (piece, handed) :: rest)
      else release (carry - handed) rest
  end.

Definition on_acked (n : Z) (e : BodyEntry S) : BodyEntry S :=
  let '(c, r) := release (saturating_add (carry e) n) (retained e) in
  mkEntry (source e) (pending e) (end_ e) r c.

Definition retained_buffers (e : BodyEntry S) : nat := length (retained e).

(** What [read_data_cb] answers nghttp3 with: its two error codes, or vectors and the end
    they reach. *)
Inductive answer :=
| AWouldBlock
| AFailure
| AVectors (vectors : list (RetainedBytes * bytes)) (reached : option BodyEnd).

(** The filling loop of [read_data_cb].  Every iteration takes a piece, so the number of
    pieces pending is fuel enough ([fill_spec]: it ends full or with nothing pending). *)
Fixpoint fill (fuel : nat) (t : nat) (veccnt : nat) (vectors : list (RetainedBytes * bytes))
    (e : BodyEntry S) : nat * BodyEntry S * list (RetainedBytes * bytes) :=
  if decide (length vectors < veccnt)%nat then
    match fuel with
    | O => (t, e, vectors)
    | Datatypes.S fuel =>
        let '(e, piece) := take_piece e in
        match piece with
        | None => (t, e, vectors)
        | Some piece =>
            let bs := Bytes.as_slice t piece in
            let handed := length bs in
            if decide (handed = 0%nat) then fill fuel (t + 1) veccnt vectors e
            else
              fill fuel (t + 1) veccnt (vectors ++ [(piece, bs)]) (retain piece handed e)
        end
    end
  else (t, e, vectors).

(** [read_data_cb] on the stream's entry. *)
Definition read_data (t : nat * C) (veccnt : nat) (e : BodyEntry S)
  : (nat * C) * BodyEntry S * answer :=
  let '(t, e, handover) := begin_round t e in
  match handover with
  | HDefer => (t, e, AWouldBlock)
  | HFail => (t, e, AFailure)
  | HReady =>
      let '(n, e, vectors) := fill (length (pending e) + 1) t.1 veccnt [] e in
      let t := (n, t.2) in
      let reached := end_reached e in
      match vectors, reached with
      | [], None => (t, e, AWouldBlock)
      | _, _ => (t, e, AVectors vectors reached)
      end
  end.
End WithSource.
End Entry.

(** [Offsets]. *)
Record Offsets := mkOffsets { committed : Z; acked : Z }.
Definition offsets_default : Offsets := mkOffsets 0 0.

Record Deliveries := mkDeliveries {
  unclaimed_credit : gmap Z Z;
  silenced : gmap Z Z
}.

Module Deliveries.
Definition initial : Deliveries := mkDeliveries ∅ ∅.

Definition hold_credit (stream : StreamId) (consumed : Z) (d : Deliveries) : Deliveries :=
  let held := default 0 (unclaimed_credit d !! stream) in
  mkDeliveries (<[stream := saturating_add held consumed]> (unclaimed_credit d)) (silenced d).

Definition by_stream (a b : StreamId * Z) : Prop := a.1 ≤ b.1.
#[global] Instance by_stream_dec a b : Decision (by_stream a b).
Proof. unfold by_stream. apply _. Defined.

(** The map drained, and sorted by stream. *)
Definition take_credit (d : Deliveries) : Deliveries * list (StreamId * Z) :=
  (mkDeliveries ∅ (silenced d), merge_sort by_stream (map_to_list (unclaimed_credit d))).

Definition has_credit (d : Deliveries) : bool :=
  negb (bool_decide (unclaimed_credit d = ∅)).

Definition silence (stream : StreamId) (section : Z) (d : Deliveries) : Deliveries :=
  let mask := default 0 (silenced d !! stream) in
  mkDeliveries (unclaimed_credit d) (<[stream := Z.lor mask section]> (silenced d)).

Definition is_silenced (stream : StreamId) (section : Z) (d : Deliveries) : bool :=
  match silenced d !! stream with
  | Some mask => negb (Z.land mask section =? 0)
  | None => false
  end.

(** [!section] on a [u8]. *)
Definition not8 (z : Z) : Z := Z.lxor 255 z.

Definition unsilence (stream : StreamId) (section : Z) (d : Deliveries) : Deliveries :=
  match silenced d !! stream with
  | Some mask =>
      let mask := Z.land mask (not8 section) in
      mkDeliveries (unclaimed_credit d)
        (if mask =? 0 then delete stream (silenced d) else <[stream := mask]> (silenced d))
  | None => d
  end.

Definition forget (stream : StreamId) (d : Deliveries) : Deliveries :=
  mkDeliveries (delete stream (unclaimed_credit d)) (delete stream (silenced d)).
End Deliveries.

Record BodyRegistry (S : Type) := mkRegistry {
  bodies : gmap Z (BodyEntry S);
  offsets : gmap Z Offsets
}.
Arguments mkRegistry {S}.
Arguments bodies {S}.
Arguments offsets {S}.

Module Registry.
Section WithSource.
Context {S : Type}.

Definition initial : BodyRegistry S := mkRegistry ∅ ∅.

Definition attach (stream : StreamId) (source : S) (r : BodyRegistry S)
  : BodyRegistry S * Result unit :=
  match bodies r !! stream with
  | Some _ =>
      (r, Err (H3Error.invalid_input "that stream already carries an outgoing body"))
  | None => (mkRegistry (<[stream := Entry.new source]> (bodies r)) (offsets r), Ok ())
  end.

Definition detach (stream : StreamId) (r : BodyRegistry S) : BodyRegistry S :=
  mkRegistry (delete stream (bodies r)) (offsets r).

Definition entry_mut (stream : StreamId) (r : BodyRegistry S) : option (BodyEntry S) :=
  bodies r !! stream.

(** Writing through the reference [entry_mut] gave. *)
Definition set_entry (stream : StreamId) (e : BodyEntry S) (r : BodyRegistry S) :=
  mkRegistry (<[stream := e]> (bodies r)) (offsets r).

Definition forget (stream : StreamId) (r : BodyRegistry S) : BodyRegistry S :=
  mkRegistry (delete stream (bodies r)) (delete stream (offsets r)).

Definition clear (r : BodyRegistry S) : BodyRegistry S := mkRegistry ∅ ∅.

Definition retained_buffers (r : BodyRegistry S) : nat :=
  sum_list_with (λ kv, Entry.retained_buffers kv.2) (map_to_list (bodies r)).

Definition record_committed (stream : StreamId) (n : nat) (r : BodyRegistry S) : BodyRegistry S :=
  if decide (n = 0%nat) then r
  else
    let o := default offsets_default (offsets r !! stream) in
    mkRegistry (bodies r)
      (<[stream := mkOffsets (saturating_add (committed o) (Z.of_nat n)) (acked o)]>
         (offsets r)).

Definition OVER : string :=
  "more bytes were reported acknowledged than were ever written to that stream".

Definition record_acked (stream : StreamId) (n : Z) (r : BodyRegistry S)
  : BodyRegistry S * Result unit :=
  if decide (n = 0) then (r, Ok ())
  else
    match offsets r !! stream with
    | None => (r, Err (H3Error.invalid_input "that stream has nothing outstanding to acknowledge; it was never written to, or it has already closed"))
    | Some o =>
        match checked_add (acked o) n with
        | None => (r, Err (H3Error.invalid_input OVER))
        | Some a =>
            if committed o <? a then (r, Err (H3Error.invalid_input OVER))
            else (mkRegistry (bodies r)
                    (<[stream := mkOffsets (committed o) a]> (offsets r)), Ok ())
        end
    end.
End WithSource.
End Registry.

(** ** Retained bytes *)

Lemma as_slice_length t r :
  length (Bytes.as_slice t r) =
    (min (Bytes.end_ r) (length (Bytes.store_bytes t (Bytes.store r))) -
     min (Bytes.start r) (min (Bytes.end_ r) (length (Bytes.store_bytes t (Bytes.store r)))))%nat.
Proof. unfold Bytes.as_slice. rewrite length_take, length_drop. lia. Qed.

(** [as_slice] as one window: what the owner answers, cut at [end], from [start] on. *)
Lemma as_slice_window t r :
  Bytes.as_slice t r =
    drop (Bytes.start r) (take (Bytes.end_ r) (Bytes.store_bytes t (Bytes.store r))).
Proof.
  unfold Bytes.as_slice. set (all := Bytes.store_bytes t (Bytes.store r)).
  rewrite skipn_firstn_comm.
  destruct (decide (Bytes.start r ≤ min (Bytes.end_ r) (length all))%nat) as [Hle|Hgt].
  - rewrite (Nat.min_l (Bytes.start r)) by lia.
    destruct (decide (Bytes.end_ r ≤ length all)%nat).
    + by rewrite Nat.min_l by lia.
    + rewrite Nat.min_r by lia.
      rewrite !take_ge; [done| |]; rewrite length_drop; lia.
  - rewrite (Nat.min_r (Bytes.start r)), Nat.sub_diag by lia. simpl.
    destruct (decide (Bytes.end_ r ≤ Bytes.start r)%nat).
    + by replace (Bytes.end_ r - Bytes.start r)%nat with 0%nat by lia.
    + rewrite (drop_ge all (Bytes.start r)) by lia. by rewrite firstn_nil.
Qed.

(** Splitting retained bytes loses and duplicates nothing, and lengths are fixed once:
    whatever an owner answers later, a window never shows more than it was split to. *)
Theorem split_to_accounts t n r h rest :
  Bytes.split_to t n r = (h, rest) →
  Bytes.as_slice t h ++ Bytes.as_slice t rest = Bytes.as_slice t r ∧
  Bytes.len t h = min n (Bytes.len t r) ∧
  (∀ t', (Bytes.len t' h ≤ min n (Bytes.len t r))%nat) ∧
  (∀ t', (Bytes.len t' rest ≤ (Bytes.end_ r - Bytes.start r) - min n (Bytes.len t r))%nat).
Proof.
  unfold Bytes.split_to. intros [= <- <-].
  assert (Hn : (min n (Bytes.len t r) ≤ Bytes.end_ r - Bytes.start r)%nat).
  { unfold Bytes.len. rewrite as_slice_length. lia. }
  set (m := min n (Bytes.len t r)) in *.
  assert (Hm : (m ≤ length (Bytes.as_slice t r))%nat) by (subst m; unfold Bytes.len; lia).
  assert (Hh : Bytes.as_slice t (Bytes.mkRetained (Bytes.store r) (Bytes.start r)
                 (Bytes.start r + m)) = take m (Bytes.as_slice t r)).
  { rewrite !as_slice_window. cbn [Bytes.store Bytes.start Bytes.end_].
    rewrite !skipn_firstn_comm, take_take. f_equal. lia. }
  split; [|split; [|split]].
  - rewrite Hh. transitivity (take m (Bytes.as_slice t r) ++ drop m (Bytes.as_slice t r));
      [f_equal|apply take_drop].
    rewrite !as_slice_window. cbn [Bytes.store Bytes.start Bytes.end_]. by rewrite drop_drop.
  - unfold Bytes.len at 1. rewrite Hh, length_take. lia.
  - intros t'. unfold Bytes.len at 1. rewrite as_slice_length.
    cbn [Bytes.store Bytes.start Bytes.end_]. lia.
  - intros t'. unfold Bytes.len at 1. rewrite as_slice_length.
    cbn [Bytes.store Bytes.start Bytes.end_]. lia.
Qed.

(** ** One stream's body *)

Section EntryFacts.
Context {S C : Type} `{!BodySource S C}.
Implicit Types (e : BodyEntry S).

(** The outcome a round asks of the source, if it asks. *)
Definition pulled (t : nat * C) e : option BodyOutcome :=
  if negb (bool_decide (pending e = [])) || bool_decide (is_Some (end_ e)) then None
  else Some (source_next t (source e)).2.

Definition pieces_of (o : BodyOutcome) : list RetainedBytes :=
  match o with Wrote ps | Eof ps | EofWithTrailers ps => ps | Defer | BFail => [] end.

Definition end_of (o : BodyOutcome) : option BodyEnd :=
  match o with
  | Eof _ => Some EndStream
  | EofWithTrailers _ => Some EndTrailers
  | _ => None
  end.

Definition vectors_of (a : Entry.answer) : list (RetainedBytes * bytes) :=
  match a with Entry.AVectors vs _ => vs | _ => [] end.

Definition told_length (v : RetainedBytes * bytes) : RetainedBytes * Z :=
  (v.1, Z.of_nat (length v.2)).

(** An owner that answers the same whenever it is asked. *)
Definition steady (p : RetainedBytes) : Prop :=
  ∀ t t', Bytes.as_slice t p = Bytes.as_slice t' p.

(** [ext] is what [ps] said of themselves, asked once each in turn, empty answers left
    out. *)
Inductive told : list RetainedBytes → list (RetainedBytes * bytes) → Prop :=
| told_nil : told [] []
| told_skip p ps t ext : Bytes.as_slice t p = [] → told ps ext → told (p :: ps) ext
| told_take p ps t ext :
    Bytes.as_slice t p ≠ [] → told ps ext →
    told (p :: ps) ((p, Bytes.as_slice t p) :: ext).

Lemma told_app ps ps' ext ext' : told ps ext → told ps' ext' → told (ps ++ ps') (ext ++ ext').
Proof. intros H1 H2. induction H1; simpl; eauto using told_skip, told_take. Qed.

Lemma told_steady ps ext :
  told ps ext → Forall steady ps →
  concat ext.*2 = concat (Bytes.as_slice 0 <$> ps).
Proof.
  induction 1 as [|p ps t ext E ? IH|p ps t ext E ? IH]; intros Hs; [done| |];
    apply Forall_cons in Hs as [Hp Hs]; specialize (IH Hs); csimpl; rewrite IH.
  - by rewrite (Hp 0%nat t), E.
  - by rewrite (Hp 0%nat t).
Qed.

Lemma told_nonempty ps ext : told ps ext → Forall (λ v, v.2 ≠ []) ext.
Proof. induction 1; [constructor|done|by constructor]. Qed.

Lemma keep_nonempty_told t ps t' kept :
  Entry.keep_nonempty t ps = (t', kept) →
  sublist kept ps ∧
  (Forall steady ps →
   concat (Bytes.as_slice 0 <$> kept) = concat (Bytes.as_slice 0 <$> ps)).
Proof.
  revert t t' kept. induction ps as [|p ps IH]; intros t t' kept; simpl.
  { intros [= <- <-]. by split. }
  destruct (Entry.keep_nonempty (t + 1) ps) as [t1 k1] eqn:E. intros [= <- <-].
  destruct (IH _ _ _ E) as [Hsub Hst].
  unfold Bytes.is_empty, Bytes.len. case_bool_decide as Hl.
  - split; [by constructor|]. intros [Hp Hs]%Forall_cons. csimpl.
    apply nil_length_inv in Hl. by rewrite (Hp 0%nat t), Hl, Hst.
  - split; [by constructor|]. intros [Hp Hs]%Forall_cons. csimpl. by rewrite Hst.
Qed.

Lemma begin_round_spec (t : nat * C) e t1 e1 h :
  Entry.begin_round t e = (t1, e1, h) →
  retained e1 = retained e ∧ carry e1 = carry e ∧
  match pulled t e with
  | None => e1 = e ∧ h = HReady ∧ (pending e ≠ [] ∨ is_Some (end_ e))
  | Some o =>
      pending e = [] ∧ end_ e = None ∧ end_ e1 = end_of o ∧
      sublist (pending e1) (pieces_of o) ∧
      (Forall steady (pieces_of o) →
       concat (Bytes.as_slice 0 <$> pending e1) = concat (Bytes.as_slice 0 <$> pieces_of o)) ∧
      h = match o with Defer => HDefer | BFail => HFail | _ => HReady end
  end.
Proof.
  unfold Entry.begin_round, pulled.
  destruct (negb (bool_decide (pending e = [])) || bool_decide (is_Some (end_ e))) eqn:E.
  { intros [= <- <- <-]. split_and!; try done.
    apply orb_true_iff in E as [E|E%bool_decide_eq_true]; [left|by right].
    by apply negb_true_iff, bool_decide_eq_false in E. }
  apply orb_false_iff in E as [E1%negb_false_iff%bool_decide_eq_true
    E2%bool_decide_eq_false%eq_None_not_Some].
  destruct (source_next t (source e)) as [[t2 s] o] eqn:Hn. cbn [snd retained carry].
  rewrite E1, E2.
  destruct o as [ps|ps|ps| |]; cbn [pieces_of end_of];
    try (destruct (Entry.keep_nonempty t2.1 ps) as [t3 kept] eqn:Hk;
         apply keep_nonempty_told in Hk as [Hsub Hst]);
    intros [= <- <- <-]; simpl; rewrite ?E1; split_and!; done.
Qed.

Lemma fill_spec fuel t n vs e :
  (length (pending e) < fuel)%nat → (length vs ≤ n)%nat →
  ∃ t' e' popped ext,
    Entry.fill fuel t n vs e = (t', e', vs ++ ext) ∧
    pending e = popped ++ pending e' ∧ told popped ext ∧
    retained e' = retained e ++ (told_length <$> ext) ∧
    end_ e' = end_ e ∧ carry e' = carry e ∧ source e' = source e ∧
    (length (vs ++ ext) ≤ n)%nat ∧ (length (vs ++ ext) = n ∨ pending e' = []).
Proof.
  revert t vs e. induction fuel as [|fuel IH]; intros t vs e Hf Hn; [lia|].
  cbn [Entry.fill]. destruct (decide (length vs < n)%nat) as [Hlt|].
  2: { exists t, e, [], []. rewrite !app_nil_r. split_and!; try done; [constructor|].
       left. lia. }
  destruct e as [src [|p ps] en ret ca]; unfold Entry.take_piece; cbn [pending].
  { exists t, (mkEntry src [] en ret ca), [], []. rewrite !app_nil_r. simpl.
    split_and!; try done; [exact told_nil|by right]. }
  cbn [pending length] in Hf.
  destruct (decide (length (Bytes.as_slice t p) = 0%nat)) as [Hz|Hz].
  - destruct (IH (t + 1)%nat vs (mkEntry src ps en ret ca)) as (t' & e' & popped & ext & IHs);
      [simpl; lia|done|]. cbn [pending end_ carry source retained] in IHs |- *.
    destruct IHs as (? & -> & ? & ? & ? & ? & ? & ? & ?).
    exists t', e', (p :: popped), ext. split_and!; try done.
    by apply told_skip with t; [apply nil_length_inv|].
  - destruct (IH (t + 1)%nat (vs ++ [(p, Bytes.as_slice t p)])
      (Entry.retain p (length (Bytes.as_slice t p)) (mkEntry src ps en ret ca)))
      as (t' & e' & popped & ext & IHs); [simpl; lia|rewrite length_app; simpl; lia|].
    unfold Entry.retain in IHs. cbn [pending end_ carry source retained] in IHs |- *.
    rewrite <-!(assoc_L (++)) in IHs. simpl in IHs.
    destruct IHs as (? & -> & ? & ? & ? & ? & ? & ? & ?).
    exists t', e', (p :: popped), ((p, Bytes.as_slice t p) :: ext). split_and!; try done.
    apply told_take; [|done]. intros E. by rewrite E in Hz.
Qed.

(** *** Any sequence of rounds and acknowledgements *)

(** A round finds the caller's state as whatever ran meanwhile left it. *)
Inductive entry_op := ORound (veccnt : nat) (meanwhile : C → C) | OAck (n : Z).

Inductive event :=
| EvRound (veccnt : nat) (asked : option BodyOutcome) (a : Entry.answer)
| EvAck (n : Z).

Definition step (t : nat * C) e (o : entry_op) : (nat * C) * BodyEntry S * event :=
  match o with
  | ORound n meanwhile =>
      let t := (t.1, meanwhile t.2) in
      let '(t1, e1, a) := Entry.read_data t n e in (t1, e1, EvRound n (pulled t e) a)
  | OAck n => (t, Entry.on_acked n e, EvAck n)
  end.

Fixpoint run (t : nat * C) e (os : list entry_op) : (nat * C) * BodyEntry S * list event :=
  match os with
  | [] => (t, e, [])
  | o :: os =>
      let '(t, e, ev) := step t e o in
      let '(t, e, evs) := run t e os in
      (t, e, ev :: evs)
  end.

Definition asked (evs : list event) : list BodyOutcome :=
  omap (λ ev, match ev with EvRound _ o _ => o | EvAck _ => None end) evs.
Definition offered (evs : list event) : list RetainedBytes := concat (pieces_of <$> asked evs).
Definition handed (evs : list event) : list (RetainedBytes * bytes) :=
  concat ((λ ev, match ev with EvRound _ _ a => vectors_of a | EvAck _ => [] end) <$> evs).
Definition acks (evs : list event) : list Z :=
  omap (λ ev, match ev with EvAck n => Some n | _ => None end) evs.
Definition sumZ (l : list Z) : Z := foldr Z.add 0 l.

(** What nghttp3 requires of an answer: no more vectors than it asked for, none empty, and
    something in it. *)
Definition answer_ok (ev : event) : Prop :=
  match ev with
  | EvRound n _ (Entry.AVectors vs reached) =>
      (length vs ≤ n)%nat ∧ Forall (λ v, v.2 ≠ []) vs ∧ (vs ≠ [] ∨ is_Some reached)
  | _ => True
  end.

Lemma sumZ_app a b : sumZ (a ++ b) = sumZ a + sumZ b.
Proof. induction a; simpl; [done|]. rewrite IHa. lia. Qed.

Lemma sumZ_nonneg l : Forall (λ z, 0 ≤ z) l → 0 ≤ sumZ l.
Proof. induction 1; simpl; lia. Qed.

Lemma asked_app a b : asked (a ++ b) = asked a ++ asked b.
Proof. apply omap_app. Qed.
Lemma acks_app a b : acks (a ++ b) = acks a ++ acks b.
Proof. apply omap_app. Qed.
Lemma handed_app a b : handed (a ++ b) = handed a ++ handed b.
Proof. unfold handed. by rewrite fmap_app, concat_app. Qed.
Lemma offered_app a b : offered (a ++ b) = offered a ++ offered b.
Proof. unfold offered. by rewrite asked_app, fmap_app, concat_app. Qed.

Lemma release_spec c l c' l' :
  Entry.release c l = (c', l') →
  ∃ k, l' = drop k l ∧ sumZ (take k l.*2) + c' = c ∧
    (∀ p, head l' = Some p → c' < p.2) ∧ (0 ≤ c → 0 ≤ c').
Proof.
  revert c. induction l as [|[p n] l IH]; intros c; simpl.
  { intros [= <- <-]. exists 0%nat. by split_and!. }
  destruct (Z.ltb_spec c n).
  - intros [= <- <-]. exists 0%nat. split_and!; try done. by intros ? [= <-].
  - intros (k & -> & Hs & Hh & Hp)%IH. exists (Datatypes.S k). csimpl.
    split_and!; try done; [lia|]. intros. apply Hp. lia.
Qed.

(** What a step does, seen through its event. *)
(** What a round answered, by what it left: the end is reported by exactly the rounds that
    leave nothing pending of a source that ended, a failure by exactly those whose source
    failed, and only a round whose vectors are all used leaves anything pending. *)
Definition round_answer n (o : option BodyOutcome) (a : Entry.answer) e : Prop :=
  (∀ x, (∃ vs, a = Entry.AVectors vs (Some x)) ↔ pending e = [] ∧ end_ e = Some x) ∧
  (a = Entry.AFailure ↔ o = Some BFail) ∧
  (pending e ≠ [] → length (vectors_of a) = n).

Record advances (ev : event) e e' : Prop := {
  adv_ok : answer_ok ev;
  adv_bytes :
    Forall steady (pending e) → Forall steady (offered [ev]) →
    Forall steady (pending e') ∧
    concat (handed [ev]).*2 ++ concat (Bytes.as_slice 0 <$> pending e') =
      concat (Bytes.as_slice 0 <$> pending e) ++ concat (Bytes.as_slice 0 <$> offered [ev]);
  adv_end : end_ e' = match asked [ev] with o :: _ => end_of o | [] => end_ e end;
  adv_asked : asked [ev] ≠ [] → end_ e = None;
  adv_reached : ∀ n o a, ev = EvRound n o a → round_answer n o a e';
  adv_round :
    acks [ev] = [] → retained e' = retained e ++ (told_length <$> handed [ev]) ∧ carry e' = carry e;
  adv_ack :
    ∀ n, ev = EvAck n → e' = Entry.on_acked n e
}.

Lemma asked_round n o a : asked [EvRound n o a] = match o with Some o => [o] | None => [] end.
Proof. unfold asked. simpl. by destruct o. Qed.

Lemma offered_round n o a :
  offered [EvRound n o a] = match o with Some o => pieces_of o | None => [] end.
Proof. unfold offered. rewrite asked_round. destruct o; simpl; by rewrite ?app_nil_r. Qed.

Lemma handed_round n o a : handed [EvRound n o a] = vectors_of a.
Proof. unfold handed. simpl. by rewrite app_nil_r. Qed.

(** The start of a round: what is pending afterwards is what was, and what the source
    offered. *)
Lemma begin_round_pending (t : nat * C) e t1 e1 h n a :
  Entry.begin_round t e = (t1, e1, h) →
  Forall steady (pending e) → Forall steady (offered [EvRound n (pulled t e) a]) →
  Forall steady (pending e1) ∧
  concat (Bytes.as_slice 0 <$> pending e1) =
    concat (Bytes.as_slice 0 <$> pending e) ++
    concat (Bytes.as_slice 0 <$> offered [EvRound n (pulled t e) a]).
Proof.
  intros (_ & _ & Hb)%begin_round_spec Hp. rewrite offered_round.
  destruct (pulled t e) as [o|].
  - destruct Hb as (-> & _ & _ & Hsub & Hs & _). intros Ho. simpl. split; [|by apply Hs].
    rewrite Forall_forall in *. intros p Hin. apply Ho. by eapply elem_of_sublist.
  - destruct Hb as (-> & _). intros _. simpl. by rewrite app_nil_r.
Qed.

Lemma begin_round_end (t : nat * C) e t1 e1 h :
  Entry.begin_round t e = (t1, e1, h) →
  end_ e1 = match pulled t e with Some o => end_of o | None => end_ e end ∧
  (pulled t e ≠ None → end_ e = None) ∧ retained e1 = retained e ∧ carry e1 = carry e.
Proof.
  intros (Hr & Hc & Hb)%begin_round_spec. destruct (pulled t e).
  - by destruct Hb as (_ & ? & ? & _).
  - by destruct Hb as (-> & _).
Qed.

(** A round that started as [begin_round] does and handed [ext] over. *)
Lemma round_advances (t : nat * C) e t1 e1 h e2 popped ext n a :
  Entry.begin_round t e = (t1, e1, h) →
  pending e1 = popped ++ pending e2 → told popped ext →
  retained e2 = retained e1 ++ (told_length <$> ext) →
  end_ e2 = end_ e1 → carry e2 = carry e1 → vectors_of a = ext →
  (∀ vs r, a = Entry.AVectors vs r → (length ext ≤ n)%nat ∧ (ext ≠ [] ∨ is_Some r)) →
  round_answer n (pulled t e) a e2 →
  advances (EvRound n (pulled t e) a) e e2.
Proof.
  intros Hb Hpop Htold Hr2 He2 Hc2 Ha Hav Hans.
  destruct (begin_round_end _ _ _ _ _ Hb) as (Hend & Hask & Hret & Hcar).
  split; rewrite ?asked_round, ?handed_round, ?Ha.
  - destruct a as [| |vs r]; try done. destruct (Hav vs r eq_refl) as (? & ?).
    simpl in Ha. subst vs. split_and!; try done. by eapply told_nonempty.
  - intros Hp Ho. destruct (begin_round_pending _ _ _ _ _ n a Hb Hp Ho) as [Hp1 <-].
    rewrite Hpop in Hp1 |- *. apply Forall_app in Hp1 as [Hp1 Hp2].
    split; [done|]. by rewrite fmap_app, concat_app, (told_steady popped ext).
  - rewrite He2, Hend. by destruct (pulled t e).
  - intros Hne. apply Hask. by destruct (pulled t e).
  - by intros ? ? ? [= <- <- <-].
  - intros _. by rewrite Hr2, Hc2, Hret.
  - done.
Qed.

Lemma read_data_advances (t : nat * C) n e :
  ∃ t' e' a, Entry.read_data t n e = (t', e', a) ∧ advances (EvRound n (pulled t e) a) e e'.
Proof.
  unfold Entry.read_data.
  destruct (Entry.begin_round t e) as [[t1 e1] h] eqn:Hb.
  destruct (begin_round_spec _ _ _ _ _ Hb) as (_ & _ & Hspec). destruct h.
  1-2: destruct (pulled t e) as [o|] eqn:Ho; [|by destruct Hspec as (_ & ? & _)].
  1-2: destruct Hspec as (Hp & He & He1 & Hsub & _ & Hh).
  1-2: destruct o; try done; apply sublist_nil_r in Hsub; simpl in He1; rewrite <-Ho in *.
  1-2: eexists _, _, _; split; [done|];
    apply (round_advances _ _ _ _ _ e1 [] [] n _ Hb); try done;
    [exact told_nil|by rewrite app_nil_r|].
  1-2: split_and!; [|rewrite Ho; naive_solver|done];
    intros x; rewrite He1; naive_solver.
  assert (Hnf : pulled t e ≠ Some BFail)
    by (intros E; rewrite E in Hspec; by destruct Hspec as (_ & _ & _ & _ & _ & ?)).
  clear Hspec.
  destruct (fill_spec (length (pending e1) + 1) t1.1 n [] e1) as
    (t2 & e2 & popped & ext & -> & Hpop & Htold & Hr2 & He2 & Hc2 & _ & Hle & Hfull);
    [lia|simpl; lia|].
  simpl in Hle, Hfull |- *.
  assert (∃ a, (match ext, Entry.end_reached e2 with
            | [], None => ((t2, t1.2), e2, Entry.AWouldBlock)
            | _, _ => ((t2, t1.2), e2, Entry.AVectors ext (Entry.end_reached e2)) end) =
            ((t2, t1.2), e2, a) ∧ vectors_of a = ext ∧
          (∀ vs r, a = Entry.AVectors vs r → (length ext ≤ n)%nat ∧ (ext ≠ [] ∨ is_Some r)) ∧
          (∀ x, (∃ vs, a = Entry.AVectors vs (Some x)) ↔ Entry.end_reached e2 = Some x) ∧
          a ≠ Entry.AFailure)
    as (a & Heq & Ha & Hav & Hend & Hfail).
  { destruct ext as [|v ext], (Entry.end_reached e2) as [x|] eqn:Hx; eexists;
      (split; [done|]; split; [done|]; split; [intros ? ? [=]; simplify_eq; eauto|]);
      (split; [naive_solver|done]). }
  exists (t2, t1.2), e2, a. split; [exact Heq|]. eapply round_advances; try done.
  split_and!; [|naive_solver|].
  - intros x. rewrite Hend. unfold Entry.end_reached. case_decide; naive_solver.
  - intros Hne. rewrite Ha. by destruct Hfull.
Qed.

Lemma step_advances (t : nat * C) e o : ∃ t' e' ev, step t e o = (t', e', ev) ∧ advances ev e e'.
Proof.
  destruct o as [n f|n]; simpl.
  - destruct (read_data_advances (t.1, f t.2) n e) as (t' & e' & a & -> & Hadv). simpl. eauto.
  - eexists _, _, _. split; [done|].
    unfold Entry.on_acked. destruct (Entry.release _ _) as [c r] eqn:Hr.
    split; try done; simpl; intros; rewrite ?app_nil_r; simplify_eq; try done.
    unfold Entry.on_acked. by rewrite Hr.
Qed.

(** *** What holds after any run *)

Record body_inv (evs : list event) e : Prop := {
  inv_ok : Forall answer_ok evs;
  inv_bytes :
    Forall steady (offered evs) →
    Forall steady (pending e) ∧
    concat (handed evs).*2 ++ concat (Bytes.as_slice 0 <$> pending e) =
      concat (Bytes.as_slice 0 <$> offered evs);
  inv_end : end_ e = last (asked evs) ≫= end_of;
  inv_asked :
    ∀ i o, asked evs !! i = Some o → (Datatypes.S i < length (asked evs))%nat → end_of o = None;
  inv_reached :
    ∀ n o a, last evs = Some (EvRound n o a) → round_answer n o a e
}.

(** The accounting, for acknowledgements that fit a [u64]: [released] is what has been
    let go of. *)
Record release_inv (evs : list event) e (released : list (RetainedBytes * Z)) : Prop := {
  rel_split : told_length <$> handed evs = released ++ retained e;
  rel_carry : sumZ released.*2 + carry e = sumZ (acks evs);
  rel_nonneg : 0 ≤ carry e;
  rel_exact :
    ∀ n, last evs = Some (EvAck n) →
      ∀ p, head (retained e) = Some p → sumZ (acks evs) < sumZ released.*2 + p.2
}.

Lemma body_inv_step evs e ev e' :
  body_inv evs e → advances ev e e' → body_inv (evs ++ [ev]) e'.
Proof.
  intros I A. split.
  - apply Forall_app. split; [apply I|]. by apply Forall_singleton, (adv_ok _ _ _ A).
  - rewrite offered_app. intros [Hs1 Hs2]%Forall_app.
    destruct (inv_bytes _ _ I Hs1) as [Hp Hb].
    destruct (adv_bytes _ _ _ A Hp Hs2) as [Hp' Hb']. split; [done|].
    rewrite handed_app, !fmap_app, !concat_app, <-Hb.
    by rewrite <-!(assoc_L (++)), Hb'.
  - rewrite asked_app, (adv_end _ _ _ A). pose proof (asked [ev]) as q.
    destruct ev as [n [o|] a|n]; rewrite ?asked_round; simpl.
    + by rewrite last_snoc.
    + rewrite app_nil_r. apply I.
    + rewrite app_nil_r. apply I.
  - intros i o Hi. rewrite asked_app in Hi |- *. rewrite length_app.
    destruct (decide (asked [ev] = [])) as [E|E].
    { rewrite E, app_nil_r in *. simpl. rewrite Nat.add_0_r. by apply I. }
    pose proof (adv_asked _ _ _ A E) as Hnone. rewrite (inv_end _ _ I) in Hnone.
    assert (Hone : length (asked [ev]) = 1%nat)
      by (destruct ev as [n [o'|] a|n]; rewrite ?asked_round in E |- *; done).
    rewrite Hone. intros Hlt. rewrite lookup_app_l in Hi by lia.
    destruct (decide (Datatypes.S i < length (asked evs))%nat); [by eapply (inv_asked _ _ I)|].
    rewrite last_lookup in Hnone. replace (pred _) with i in Hnone by lia.
    by rewrite Hi in Hnone.
  - intros n o a. rewrite last_snoc. intros [= ->]. by eapply (adv_reached _ _ _ A).
Qed.

Lemma told_length_nonneg vs : Forall (λ p : RetainedBytes * Z, 0 ≤ p.2) (told_length <$> vs).
Proof. apply Forall_fmap, Forall_true. intros. simpl. lia. Qed.

Lemma release_inv_step evs e ev e' released :
  release_inv evs e released → advances ev e e' →
  Forall (λ z, 0 ≤ z) (acks (evs ++ [ev])) → sumZ (acks (evs ++ [ev])) ≤ U64_MAX →
  ∃ released', release_inv (evs ++ [ev]) e' released'.
Proof.
  intros I A. rewrite acks_app, sumZ_app. intros [_ Hpos]%Forall_app Hmax.
  destruct ev as [n o a|n].
  - destruct (adv_round _ _ _ A eq_refl) as [Hr Hc]. exists released. split.
    + by rewrite Hr, handed_app, fmap_app, (rel_split _ _ _ I), (assoc_L (++)).
    + rewrite acks_app, sumZ_app, Hc. simpl. pose proof (rel_carry _ _ _ I). lia.
    + rewrite Hc. apply I.
    + intros n'. by rewrite last_snoc.
  - apply Forall_cons in Hpos as [Hpos _]. simpl in Hmax, Hpos.
    rewrite (adv_ack _ _ _ A n eq_refl). unfold Entry.on_acked.
    pose proof (rel_nonneg _ _ _ I). pose proof (rel_carry _ _ _ I) as Hcar.
    assert (0 ≤ sumZ released.*2).
    { apply sumZ_nonneg, Forall_fmap.
      pose proof (told_length_nonneg (handed evs)) as Hnn.
      rewrite (rel_split _ _ _ I) in Hnn. by apply Forall_app in Hnn as [? _]. }
    rewrite saturating_add_exact by lia.
    destruct (Entry.release (carry e + n) (retained e)) as [c r] eqn:Hrel.
    apply release_spec in Hrel as (j & -> & Hsum & Hhead & Hc).
    exists (released ++ take j (retained e)).
    assert (Hsum' : sumZ (released ++ take j (retained e)).*2 + c = sumZ (acks evs) + n).
    { rewrite fmap_app, sumZ_app, fmap_take. lia. }
    split; cbn [retained carry]; rewrite ?acks_app, ?sumZ_app; simpl.
    + rewrite handed_app, fmap_app, (rel_split _ _ _ I). simpl.
      by rewrite app_nil_r, <-(assoc_L (++)), take_drop.
    + lia.
    + apply Hc. lia.
    + intros n' _ p Hp. specialize (Hhead p Hp). lia.
Qed.

Lemma run_inv os : ∀ (t : nat * C) e evs0,
  body_inv evs0 e →
  ∃ t' e' evs, run t e os = (t', e', evs) ∧ body_inv (evs0 ++ evs) e' ∧
    (∀ released, release_inv evs0 e released → Forall (λ z, 0 ≤ z) (acks (evs0 ++ evs)) →
       sumZ (acks (evs0 ++ evs)) ≤ U64_MAX →
       ∃ released', release_inv (evs0 ++ evs) e' released').
Proof.
  induction os as [|o os IH]; intros t e evs0 I; simpl.
  { exists t, e, []. rewrite app_nil_r. eauto. }
  destruct (step_advances t e o) as (t1 & e1 & ev & -> & A). simpl.
  destruct (IH t1 e1 (evs0 ++ [ev]) (body_inv_step _ _ _ _ I A)) as
    (t2 & e2 & evs & -> & I2 & R2). simpl.
  exists t2, e2, (ev :: evs). rewrite <-(assoc_L (++)) in *. simpl in *.
  split; [done|]. split; [done|]. intros released R Hpos Hmax.
  assert (Hsp : acks (evs0 ++ ev :: evs) = acks (evs0 ++ [ev]) ++ acks evs)
    by by rewrite <-acks_app, <-(assoc_L (++)).
  pose proof Hpos as Hpos'. rewrite Hsp in Hpos'. apply Forall_app in Hpos' as [Hp1 Hp2].
  pose proof Hmax as Hmax'. rewrite Hsp, sumZ_app in Hmax'. apply sumZ_nonneg in Hp2.
  destruct (release_inv_step _ _ _ _ _ R A) as [released1 R1]; [done|lia|].
  by apply (R2 released1).
Qed.

Lemma entry_new_inv s : body_inv [] (Entry.new s) ∧ release_inv [] (Entry.new s) [].
Proof. split; split; try done; try by constructor. Qed.

(** C17. However rounds and acknowledgements of one body are interleaved, and however the
    source behaves, every round answers, with what nghttp3 requires (no more vectors than
    asked for, none empty, never nothing without an end); the source is not asked again
    after it ended; what has been handed over plus what is still pending is exactly what
    the source offered, in order, when buffers keep their contents.  A round reports the
    end exactly when the source has ended and the round leaves nothing pending, so the end
    is neither reported early nor forgotten; it fails exactly when the source failed; and
    it leaves something pending only when it filled every vector it was given. *)
Theorem body_in_order (t : nat * C) (s : S) os :
  let '(_, e, evs) := run t (Entry.new s) os in
  Forall answer_ok evs ∧
  (∀ i o, asked evs !! i = Some o → (Datatypes.S i < length (asked evs))%nat →
     end_of o = None) ∧
  (Forall steady (offered evs) →
   concat (handed evs).*2 ++ concat (Bytes.as_slice 0 <$> pending e) =
     concat (Bytes.as_slice 0 <$> offered evs)) ∧
  (∀ n o a, last evs = Some (EvRound n o a) →
     (∀ x, (∃ vs, a = Entry.AVectors vs (Some x)) ↔
           pending e = [] ∧ last (asked evs) ≫= end_of = Some x) ∧
     (a = Entry.AFailure ↔ o = Some BFail) ∧
     (pending e ≠ [] → length (vectors_of a) = n)).
Proof.
  destruct (run_inv os t (Entry.new s) [] (proj1 (entry_new_inv s))) as (t' & e & evs & Hr & I & _).
  rewrite Hr. split; [apply I|]. split; [apply I|]. split.
  - intros Hs. by apply I.
  - intros n o a Hl. pose proof (inv_end _ _ I) as He. simpl in He. rewrite <-He.
    by apply (inv_reached _ _ I).
Qed.

(** C16. A buffer handed to nghttp3 is let go of exactly when every byte of it has been
    acknowledged: at any time what is retained is what was handed over less a prefix
    wholly acknowledged, and right after an acknowledgement nothing wholly acknowledged
    is retained. *)
Theorem release_exact (t : nat * C) (s : S) os t' e evs :
  run t (Entry.new s) os = (t', e, evs) →
  Forall (λ z, 0 ≤ z) (acks evs) → sumZ (acks evs) ≤ U64_MAX →
  ∃ released, told_length <$> handed evs = released ++ retained e ∧
    sumZ released.*2 ≤ sumZ (acks evs) ∧
    (∀ n, last evs = Some (EvAck n) →
       ∀ p, head (retained e) = Some p → sumZ (acks evs) < sumZ released.*2 + p.2).
Proof.
  intros Hr Hpos Hmax.
  destruct (run_inv os t (Entry.new s) [] (proj1 (entry_new_inv s))) as (t1 & e1 & evs1 & Hr1 & _ & R).
  rewrite Hr in Hr1. simplify_eq.
  destruct (R [] (proj2 (entry_new_inv s)) Hpos Hmax) as [released I]. exists released.
  split; [apply I|]. split; [|apply I].
  pose proof (rel_carry _ _ _ I). pose proof (rel_nonneg _ _ _ I). simpl in *. lia.
Qed.
End EntryFacts.

(** ** Credit and silence *)

(** [section_bit] of callbacks.rs. *)
Definition SECTION_HEADERS : Z := 1.
Definition SECTION_TRAILERS : Z := 2.
Definition section_bit (s : FieldSection) : Z :=
  match s with Headers => SECTION_HEADERS | Trailers => SECTION_TRAILERS end.

Section DeliveryFacts.
Implicit Types (d : Deliveries) (s : StreamId).

Inductive credit_op := Hold s (n : Z) | Take | Forget s.

#[global] Instance credit_op_eq_dec : EqDecision credit_op.
Proof. solve_decision. Defined.

Definition credit_step d (o : credit_op) : Deliveries * list (StreamId * Z) :=
  match o with
  | Hold s n => (Deliveries.hold_credit s n d, [])
  | Take => Deliveries.take_credit d
  | Forget s => (Deliveries.forget s d, [])
  end.

Fixpoint credit_run d (os : list credit_op) : Deliveries * list (list (StreamId * Z)) :=
  match os with
  | [] => (d, [])
  | o :: os =>
      let '(d, t) := credit_step d o in
      let '(d, ts) := credit_run d os in (d, t :: ts)
  end.

(** A stream's share of what was reported, taken, or let go with the stream. *)
Definition share s (l : list (StreamId * Z)) : Z :=
  sumZ (omap (λ p, if decide (p.1 = s) then Some p.2 else None) l).
Definition reported s (os : list credit_op) : Z :=
  share s (omap (λ o, match o with Hold s n => Some (s, n) | _ => None end) os).
Definition held s d : Z := default 0 (unclaimed_credit d !! s).

Lemma share_app s a b : share s (a ++ b) = share s a + share s b.
Proof. unfold share. by rewrite omap_app, sumZ_app. Qed.

Lemma share_cons s p l :
  share s (p :: l) = (if decide (p.1 = s) then p.2 else 0) + share s l.
Proof. unfold share. simpl. by case_decide. Qed.

Lemma share_absent s l : s ∉ l.*1 → share s l = 0.
Proof.
  induction l as [|[k v] l IH]; csimpl; [done|]. intros [Hk Hl]%not_elem_of_cons.
  rewrite share_cons, decide_False by (simpl; congruence). by apply IH.
Qed.

Lemma share_lookup s (m : gmap Z Z) l :
  NoDup l.*1 → (∀ k v, (k, v) ∈ l ↔ m !! k = Some v) → share s l = default 0 (m !! s).
Proof.
  intros Hnd Hm. destruct (m !! s) as [v|] eqn:Hs; simpl.
  - apply Hm in Hs. apply list_elem_of_split in Hs as (l1 & l2 & ->).
    rewrite fmap_app, fmap_cons in Hnd. apply NoDup_app in Hnd as (_ & H1 & H2).
    apply NoDup_cons in H2 as [H2 _].
    rewrite share_app, share_absent by (intros Hin; by apply (H1 s Hin), elem_of_cons; left).
    rewrite share_cons, decide_True by done. simpl.
    rewrite share_absent by done. lia.
  - apply share_absent. intros ([k v] & -> & Hin)%list_elem_of_fmap. simpl in Hs.
    apply Hm in Hin. by rewrite Hin in Hs.
Qed.

Lemma take_credit_spec d d' l :
  Deliveries.take_credit d = (d', l) →
  StronglySorted (λ a b, a.1 < b.1) l ∧ (∀ s, share s l = held s d) ∧
  unclaimed_credit d' = ∅ ∧ silenced d' = silenced d.
Proof.
  unfold Deliveries.take_credit. intros [= <- <-].
  set (l := merge_sort Deliveries.by_stream (map_to_list (unclaimed_credit d))).
  assert (Hperm : l ≡ₚ map_to_list (unclaimed_credit d)) by apply merge_sort_Permutation.
  assert (Hnd : NoDup l.*1) by (rewrite Hperm; apply NoDup_fst_map_to_list).
  split; [|split; [|done]].
  - assert (Hs : StronglySorted Deliveries.by_stream l).
    { apply StronglySorted_merge_sort.
      - intros a b c. unfold Deliveries.by_stream. lia.
      - intros a b. unfold Deliveries.by_stream. lia. }
    clear Hperm. induction Hs as [|a l' Hs IH Ha]; constructor.
    + apply IH. by apply NoDup_cons in Hnd as [_ ?].
    + csimpl in Hnd. apply NoDup_cons in Hnd as [Hn _].
      rewrite Forall_forall in Ha |- *. intros b Hb. specialize (Ha b Hb).
      unfold Deliveries.by_stream in Ha. destruct (Z.eq_dec a.1 b.1) as [E|]; [|lia].
      exfalso. apply Hn. rewrite E. by apply list_elem_of_fmap_2.
  - intros s. apply share_lookup; [done|]. intros k v. rewrite Hperm.
    apply elem_of_map_to_list.
Qed.

Definition op_credit s (o : credit_op) : Z :=
  match o with Hold s' n => if decide (s' = s) then n else 0 | _ => 0 end.

Lemma reported_cons s o os : reported s (o :: os) = op_credit s o + reported s os.
Proof.
  unfold reported. destruct o as [s' n| |s']; simpl; [|done|done]. by rewrite share_cons.
Qed.

Definition credit_nonneg (o : credit_op) : Prop :=
  match o with Hold _ n => 0 ≤ n | _ => True end.

Lemma reported_nonneg s os : Forall credit_nonneg os → 0 ≤ reported s os.
Proof.
  induction 1 as [|o os Ho _ IH]; [done|]. rewrite reported_cons.
  destruct o; simpl in *; try case_decide; lia.
Qed.

Lemma credit_step_share s d o d' l :
  credit_step d o = (d', l) → o ≠ Forget s → 0 ≤ held s d →
  held s d + op_credit s o ≤ U64_MAX →
  share s l + held s d' = held s d + op_credit s o.
Proof.
  intros Hst Hne Hd Hmax. destruct o as [s' n| |s']; simpl in *.
  - simplify_eq. unfold held, Deliveries.hold_credit in *. simpl.
    destruct (decide (s' = s)) as [->|].
    + rewrite lookup_insert_eq. simpl. change (share s []) with 0.
      rewrite saturating_add_exact; lia.
    + rewrite lookup_insert_ne by done. change (share s []) with 0. lia.
  - apply take_credit_spec in Hst as (_ & Hsh & He & _).
    rewrite Hsh. unfold held at 2. rewrite He, lookup_empty. simpl. lia.
  - simplify_eq. unfold held, Deliveries.forget in *. simpl.
    rewrite lookup_delete_ne by congruence. change (share s []) with 0. lia.
Qed.

Lemma credit_step_nonneg s d o d' l :
  credit_step d o = (d', l) → credit_nonneg o → 0 ≤ held s d →
  0 ≤ held s d' ∧ 0 ≤ share s l ∧ StronglySorted (λ a b, a.1 < b.1) l.
Proof.
  intros Hst Ho Hd. destruct o as [s' n| |s']; simpl in *.
  - simplify_eq. split_and!; [|done|constructor].
    unfold held, Deliveries.hold_credit in *. simpl.
    destruct (decide (s' = s)) as [->|].
    + rewrite lookup_insert_eq. simpl. unfold saturating_add, U64_MAX. lia.
    + by rewrite lookup_insert_ne.
  - apply take_credit_spec in Hst as (? & Hsh & He & _).
    rewrite Hsh. unfold held at 1. by rewrite He.
  - simplify_eq. split_and!; [|done|constructor].
    unfold held, Deliveries.forget in *. simpl. destruct (decide (s' = s)) as [->|].
    + by rewrite lookup_delete_eq.
    + by rewrite lookup_delete_ne.
Qed.

Lemma credit_run_share s os : ∀ d0 d ts,
  credit_run d0 os = (d, ts) → Forall credit_nonneg os → Forget s ∉ os →
  0 ≤ held s d0 → held s d0 + reported s os ≤ U64_MAX →
  share s (concat ts) + held s d = held s d0 + reported s os.
Proof.
  induction os as [|o os IH]; intros d0 d ts; simpl.
  { intros [= <- <-] _ _ _ _. simpl. change (share s []) with 0.
    change (reported s []) with 0. lia. }
  destruct (credit_step d0 o) as [d1 l] eqn:Hst.
  destruct (credit_run d1 os) as [d2 ts2] eqn:Hr. intros [= <- <-].
  intros [Ho Hos]%Forall_cons [Hne Hno]%not_elem_of_cons Hd Hmax.
  rewrite reported_cons in *. pose proof (reported_nonneg s os Hos).
  destruct (credit_step_nonneg s d0 o d1 l Hst Ho Hd) as (Hd1 & Hl & _).
  pose proof (credit_step_share s d0 o d1 l Hst ltac:(congruence) Hd ltac:(lia)) as E.
  simpl. rewrite share_app. specialize (IH d1 d2 ts2 Hr Hos Hno Hd1). lia.
Qed.

Lemma credit_run_sorted os : ∀ d0 d ts i l,
  credit_run d0 os = (d, ts) → ts !! i = Some l → StronglySorted (λ a b, a.1 < b.1) l.
Proof.
  induction os as [|o os IH]; intros d0 d ts i l; simpl; [by intros [= <- <-]|].
  destruct (credit_step d0 o) as [d1 l1] eqn:Hst.
  destruct (credit_run d1 os) as [d2 ts2] eqn:Hr. intros [= <- <-]. destruct i; simpl.
  - intros [= <-]. destruct o; simpl in Hst; try (simplify_eq; constructor).
    by apply take_credit_spec in Hst as (? & _).
  - by apply (IH d1 d2 ts2).
Qed.

(** Flow-control credit reported for a stream is neither lost nor invented while the
    stream is known: what taking hands out plus what is still held is what was reported,
    through any interleaving with other streams.  Each taking is ordered by stream, names
    a stream once, and leaves nothing behind. *)
Theorem credit_conserved os d ts :
  credit_run Deliveries.initial os = (d, ts) →
  Forall credit_nonneg os →
  (∀ s, Forget s ∉ os → reported s os ≤ U64_MAX →
     share s (concat ts) + held s d = reported s os) ∧
  (∀ i l, ts !! i = Some l → StronglySorted (λ a b, a.1 < b.1) l) ∧
  (∀ d' l, Deliveries.take_credit d = (d', l) → Deliveries.has_credit d' = false).
Proof.
  intros Hrun Hnn. split_and!.
  - intros s Hno Hmax. by apply (credit_run_share s os Deliveries.initial).
  - intros i l. by apply (credit_run_sorted os Deliveries.initial d).
  - intros d' l (_ & _ & He & _)%take_credit_spec. unfold Deliveries.has_credit.
    by rewrite bool_decide_eq_true_2.
Qed.

Example credit_conserved_witness :
  credit_run Deliveries.initial [Hold 8 5; Hold 0 7; Hold 8 2; Take; Hold 0 1] =
    (mkDeliveries {[ 0 := 1 ]} ∅, [[]; []; []; [(0, 7); (8, 7)]; []]) ∧
  share 8 [(0, 7); (8, 7)] + held 8 (mkDeliveries {[ 0 := 1 ]} ∅) = 7.
Proof.
  assert (Hrun : credit_run Deliveries.initial [Hold 8 5; Hold 0 7; Hold 8 2; Take; Hold 0 1] =
    (mkDeliveries {[ 0 := 1 ]} ∅, [[]; []; []; [(0, 7); (8, 7)]; []])) by reflexivity.
  split; [exact Hrun|].
  assert (Hnn : Forall credit_nonneg [Hold 8 5; Hold 0 7; Hold 8 2; Take; Hold 0 1])
    by (repeat constructor; simpl; lia).
  destruct (credit_conserved _ _ _ Hrun Hnn) as (Hc & _ & _).
  apply (Hc 8); [by apply (bool_decide_eq_true_1 (Forget 8 ∉ _))|by vm_compute].
Defined.

(** *** Silenced sections *)

Inductive silence_op :=
| Silence s (sec : FieldSection)
| Unsilence s (sec : FieldSection)
| ForgetSilence s.

Definition silence_step d (o : silence_op) : Deliveries :=
  match o with
  | Silence s sec => Deliveries.silence s (section_bit sec) d
  | Unsilence s sec => Deliveries.unsilence s (section_bit sec) d
  | ForgetSilence s => Deliveries.forget s d
  end.

(** The specification: whether one section of one stream is silenced. *)
Definition silence_spec s (sec : FieldSection) (b : bool) (o : silence_op) : bool :=
  match o with
  | Silence s' sec' => b || (bool_decide (s' = s) && bool_decide (sec' = sec))
  | Unsilence s' sec' => b && negb (bool_decide (s' = s) && bool_decide (sec' = sec))
  | ForgetSilence s' => b && negb (bool_decide (s' = s))
  end.

(** The masks that occur: never zero. *)
Definition masks_ok d : Prop := map_Forall (λ _ m, m = 1 ∨ m = 2 ∨ m = 3) (silenced d).

Lemma masks_silence s sec d :
  masks_ok d →
  masks_ok (Deliveries.silence s (section_bit sec) d) ∧
  ∀ s' sec', Deliveries.is_silenced s' (section_bit sec') (Deliveries.silence s (section_bit sec) d) =
    silence_spec s' sec' (Deliveries.is_silenced s' (section_bit sec') d) (Silence s sec).
Proof.
  intros Hok. unfold Deliveries.silence, Deliveries.is_silenced, masks_ok. simpl.
  assert (Hm : let m := default 0 (silenced d !! s) in m = 0 ∨ m = 1 ∨ m = 2 ∨ m = 3).
  { destruct (silenced d !! s) as [m|] eqn:E; simpl; [|by left].
    right. by apply Hok in E. }
  split.
  - apply map_Forall_insert_2; [|done].
    destruct Hm as [->|[->|[->| ->]]], sec; simpl; auto.
  - intros s' sec'. destruct (decide (s = s')) as [->|Hne].
    + rewrite lookup_insert_eq, (bool_decide_eq_true_2 (s' = s')) by done. simpl.
      destruct (silenced d !! s') as [m|] eqn:E; simpl in Hm |- *.
      * by destruct Hm as [->|[->|[->| ->]]], sec, sec'.
      * by destruct sec, sec'.
    + rewrite lookup_insert_ne, (bool_decide_eq_false_2 (s = s')) by done. simpl.
      by rewrite orb_false_r.
Qed.

Lemma masks_unsilence s sec d :
  masks_ok d →
  masks_ok (Deliveries.unsilence s (section_bit sec) d) ∧
  ∀ s' sec', Deliveries.is_silenced s' (section_bit sec') (Deliveries.unsilence s (section_bit sec) d) =
    silence_spec s' sec' (Deliveries.is_silenced s' (section_bit sec') d) (Unsilence s sec).
Proof.
  intros Hok. unfold Deliveries.unsilence, Deliveries.is_silenced.
  destruct (silenced d !! s) as [m|] eqn:E.
  - pose proof (Hok _ _ E) as Hm. cbn beta in Hm. unfold masks_ok. cbn [silenced].
    split.
    + destruct (Z.eqb_spec (Z.land m (Deliveries.not8 (section_bit sec))) 0);
        [by apply map_Forall_delete|].
      apply map_Forall_insert_2; [|done].
      destruct Hm as [->|[->| ->]], sec; simpl in *; auto; done.
    + intros s' sec'. destruct (decide (s = s')) as [->|Hne]; simpl.
      * rewrite E, (bool_decide_eq_true_2 (s' = s')) by done.
        destruct Hm as [->|[->| ->]], sec, sec'; simpl;
          by rewrite ?lookup_delete_eq, ?lookup_insert_eq.
      * rewrite (bool_decide_eq_false_2 (s = s')) by done. simpl. rewrite andb_true_r.
        destruct (Z.land m _ =? 0); by rewrite ?lookup_delete_ne, ?lookup_insert_ne by done.
  - split; [done|]. intros s' sec'. simpl.
    destruct (bool_decide_reflect (s = s')) as [->|]; simpl; [by rewrite E|].
    by rewrite andb_true_r.
Qed.

Lemma masks_forget s d :
  masks_ok d →
  masks_ok (Deliveries.forget s d) ∧
  ∀ s' sec', Deliveries.is_silenced s' (section_bit sec') (Deliveries.forget s d) =
    silence_spec s' sec' (Deliveries.is_silenced s' (section_bit sec') d) (ForgetSilence s).
Proof.
  intros Hok. unfold Deliveries.forget, Deliveries.is_silenced, masks_ok. simpl.
  split; [by apply map_Forall_delete|]. intros s' sec'.
  destruct (decide (s = s')) as [->|Hne].
  - rewrite lookup_delete_eq, bool_decide_eq_true_2 by done. by rewrite andb_false_r.
  - rewrite lookup_delete_ne, bool_decide_eq_false_2 by done. by rewrite andb_true_r.
Qed.

Lemma silence_step_spec d o :
  masks_ok d →
  masks_ok (silence_step d o) ∧
  ∀ s sec, Deliveries.is_silenced s (section_bit sec) (silence_step d o) =
    silence_spec s sec (Deliveries.is_silenced s (section_bit sec) d) o.
Proof.
  destruct o; [apply masks_silence|apply masks_unsilence|apply masks_forget].
Qed.

(** After any sequence of operations a section of a stream is silenced exactly when a
    stop was recorded for it since the section or the stream last ended: the two sections
    of a stream, and different streams, never affect one another, and no entry is kept for
    a stream with nothing silenced. *)
Theorem silence_refines os s sec :
  Deliveries.is_silenced s (section_bit sec) (foldl silence_step Deliveries.initial os) =
    foldl (silence_spec s sec) false os ∧
  map_Forall (λ _ m, m ≠ 0) (silenced (foldl silence_step Deliveries.initial os)).
Proof.
  assert (Hgen : ∀ os d, masks_ok d →
    masks_ok (foldl silence_step d os) ∧
    Deliveries.is_silenced s (section_bit sec) (foldl silence_step d os) =
      foldl (silence_spec s sec) (Deliveries.is_silenced s (section_bit sec) d) os).
  { clear os. induction os as [|o os IH]; intros d Hd; simpl; [done|].
    destruct (silence_step_spec d o Hd) as [Hd' Hs]. rewrite <-Hs. by apply IH. }
  destruct (Hgen os Deliveries.initial) as [Hok Heq]; [by apply map_Forall_empty|].
  split; [exact Heq|]. intros s' m Hm. apply Hok in Hm. lia.
Qed.
End DeliveryFacts.

(** ** Worked inputs *)

Definition three_bytes : bytes := Zb <$> [7; 8; 9].

Example split_to_accounts_witness :
  Bytes.split_to 0 2 (Bytes.new three_bytes) =
    (Bytes.mkRetained (Bytes.Owned three_bytes) 0 2,
     Bytes.mkRetained (Bytes.Owned three_bytes) 2 3) ∧
  Bytes.as_slice 0 (Bytes.mkRetained (Bytes.Owned three_bytes) 0 2) ++
    Bytes.as_slice 0 (Bytes.mkRetained (Bytes.Owned three_bytes) 2 3) =
    Bytes.as_slice 0 (Bytes.new three_bytes).
Proof.
  assert (Hs : Bytes.split_to 0 2 (Bytes.new three_bytes) =
    (Bytes.mkRetained (Bytes.Owned three_bytes) 0 2,
     Bytes.mkRetained (Bytes.Owned three_bytes) 2 3)) by reflexivity.
  split; [exact Hs|]. exact (proj1 (split_to_accounts _ _ _ _ _ Hs)).
Defined.

(** A fixed body handed over in one round and acknowledged in two parts. *)
Definition fixed_run :=
  run (0%nat, ()) (Entry.new (fixed_new (Bytes.new three_bytes))) [ORound 16 id; OAck 2; OAck 1].

Example release_exact_witness :
  retained fixed_run.1.2 = [] ∧
  ∃ released, told_length <$> handed fixed_run.2 = released ++ retained fixed_run.1.2 ∧
    sumZ released.*2 ≤ sumZ (acks fixed_run.2).
Proof.
  split; [reflexivity|].
  destruct (release_exact (0%nat, ()) (fixed_new (Bytes.new three_bytes)) [ORound 16 id; OAck 2; OAck 1]
    fixed_run.1.1 fixed_run.1.2 fixed_run.2) as (rel & H1 & H2 & _).
  - reflexivity.
  - vm_compute. repeat constructor; discriminate.
  - vm_compute. discriminate.
  - exists rel. by split.
Defined.

Example body_in_order_witness :
  concat (handed fixed_run.2).*2 = three_bytes ∧
  pending fixed_run.1.2 = [] ∧ last (asked fixed_run.2) ≫= end_of = Some EndStream.
Proof.
  pose proof (body_in_order (0%nat, ()) (fixed_new (Bytes.new three_bytes)) [ORound 16 id]) as H.
  split; [reflexivity|]. destruct H as (_ & _ & _ & Hend).
  destruct (Hend 16%nat (Some (Eof [Bytes.new three_bytes]))
    (Entry.AVectors [(Bytes.new three_bytes, three_bytes)] (Some EndStream)) eq_refl) as [H1 _].
  apply (H1 EndStream). by eexists.
Defined.
