(* ===== verification/H3Conn.v ===== *)
(** * The HTTP/3 state machine wrapper (crates/ngnet-h3/src/conn.rs, callbacks.rs, send.rs)

    The safe wrapper around nghttp3.  The C library is the class [Nghttp3]: one entry point
    that takes a [request] (one constructor per C function), may call back into Rust any
    number of times, and gives a [response].  The callbacks are the ones the source
    installs, on the bridge the source installs for the length of a call. *)

From Stdlib Require Import ZArith Lia.
From stdpp Require Import base list gmap strings.
From S2P Require Import Prelude H3Types H3Body.

(** ** nghttp3 *)

(** [nghttp3_proto_settings]. *)
Record proto_settings := mkProto {
  pr_max_field_section_size : Z;
  pr_qpack_max_dtable_capacity : Z;
  pr_qpack_blocked_streams : Z;
  pr_enable_connect_protocol : Z;
  pr_h3_datagram : Z
}.

(** The calls nghttp3 makes into Rust; a pointer that may be null is an option. *)
Inductive callback :=
| CbDeferredConsume (stream_id consumed : Z)
| CbBeginHeaders (stream_id : Z)
| CbRecvHeader (stream_id token : Z) (name value : option bytes)
| CbEndHeaders (stream_id : Z)
| CbBeginTrailers (stream_id : Z)
| CbRecvTrailer (stream_id token : Z) (name value : option bytes)
| CbEndTrailers (stream_id : Z)
| CbRecvData (stream_id : Z) (data : option bytes)
| CbAckedStreamData (stream_id datalen : Z)
| CbEndStream (stream_id : Z)
| CbStreamClose (flags stream_id rx_app_error_code tx_app_error_code : Z)
| CbStopSending (stream_id app_error_code : Z)
| CbResetStream (stream_id app_error_code : Z)
| CbShutdown (id : Z)
| CbRecvSettings (settings : option proto_settings)
| CbReadData (stream_id : Z) (veccnt : nat).

(** What a callback answers: its return value and, for [read_data], the vectors it stored
    (the buffer a vector points into and the bytes it spans) and the flags. *)
Record cb_answer := mkAnswer {
  a_rv : Z;
  a_vectors : list (RetainedBytes * bytes);
  a_flags : option Z
}.

Definition code (rv : Z) : cb_answer := mkAnswer rv [] None.

Inductive request :=
| ReqBindControlStream (stream_id : Z)
| ReqBindQpackStreams (encoder decoder : Z)
| ReqReadStream (stream_id : Z) (src : bytes) (fin : bool) (ts : Z)
| ReqSubmitRequest (stream_id : Z) (nva : list Header.nv) (reader : bool)
| ReqSubmitResponse (stream_id : Z) (nva : list Header.nv) (reader : bool)
| ReqSubmitTrailers (stream_id : Z) (nva : list Header.nv)
| ReqSubmitInfo (stream_id : Z) (nva : list Header.nv)
| ReqCloseStream (flags stream_id rx tx : Z)
| ReqWritevStream (veccnt : nat)
| ReqAddWriteOffset (stream_id : Z) (n : nat)
| ReqAddAckOffset (stream_id n : Z)
| ReqBlockStream (stream_id : Z)
| ReqUnblockStream (stream_id : Z)
| ReqResumeStream (stream_id : Z)
| ReqIsStreamWritable (stream_id : Z)
| ReqSubmitShutdownNotice
| ReqShutdown
| ReqIsDrained
| ReqShutdownStreamRead (stream_id : Z)
| ReqShutdownStreamWrite (stream_id : Z)
| ReqSetMaxClientStreamsBidi (n : Z)
| ReqSetMaxConcurrentStreams (n : Z).

(** The return value and the out-parameters of [writev_stream]: the stream id, the fin flag
    and the vectors stored, a null base being [None]. *)
Record response := mkResponse {
  rs_rv : Z;
  rs_stream_id : Z;
  rs_fin : Z;
  rs_vectors : list (option bytes)
}.

Class Nghttp3 := {
  nghttp3_codes : Nghttp3Codes;
  nghttp3_settings_rest : Type;
  nghttp3_settings_default : H3Settings.Settings nghttp3_settings_rest;
  nghttp3_conn : Type;
  (** The constructors: a connection, or a code other than 0. *)
  nghttp3_conn_new :
    Role → H3Settings.Settings nghttp3_settings_rest → result nghttp3_conn Z;
  nghttp3_call :
    request → ∀ B : Type, (B → callback → B * cb_answer) → nghttp3_conn → B →
    nghttp3_conn * B * response
}.
#[global] Existing Instance nghttp3_codes.

(** ** callbacks.rs *)

(** What the callbacks reach through the slot while a bridge is installed.  [time] counts
    the questions asked of buffer owners. *)
Record Bridge (S C : Type) := mkBridge {
  b_bodies : BodyRegistry S;
  b_deliveries : Deliveries;
  b_context : C;
  b_time : nat
}.
Arguments mkBridge {S C}.
Arguments b_bodies {S C}.
Arguments b_deliveries {S C}.
Arguments b_context {S C}.
Arguments b_time {S C}.

Module Callbacks.
Section Trampolines.
Context `{Nghttp3} {S C : Type} `{!BodySource S C}.
Variable handlers : Handlers C.
Variable role : Role.
Abbreviation Bridge := (H3Conn.Bridge S C).

Definition set_context (c : C) (b : Bridge) : Bridge :=
  mkBridge (b_bodies b) (b_deliveries b) c (b_time b).
Definition set_deliveries (d : Deliveries) (b : Bridge) : Bridge :=
  mkBridge (b_bodies b) d (b_context b) (b_time b).
Definition set_bodies (r : BodyRegistry S) (b : Bridge) : Bridge :=
  mkBridge r (b_deliveries b) (b_context b) (b_time b).

(** [rcbuf_bytes]. *)
Definition rcbuf_bytes (buf : option bytes) : bytes := default [] buf.

(** The start the trampolines share: no bridge answers 0, a stream id out of range answers 0. *)
Definition on_stream (b : option Bridge) (stream_id : Z) (f : StreamId → Bridge → Bridge)
  : option Bridge * cb_answer :=
  match b with
  | None => (b, code 0)
  | Some br =>
      match H3Stream.new stream_id with
      | Err _ => (b, code 0)
      | Ok stream => (Some (f stream br), code 0)
      end
  end.

(** A handler, if there is one, run on the context. *)
Definition with_handler {F} (h : option F) (f : F → C → C) (b : Bridge) : Bridge :=
  match h with Some h => set_context (f h (b_context b)) b | None => b end.

Definition deferred_consume_cb b stream_id (consumed : Z) :=
  on_stream b stream_id (λ stream b,
    match deferred_consume handlers with
    | Some handler => set_context (handler stream consumed (b_context b)) b
    | None => set_deliveries (Deliveries.hold_credit stream consumed (b_deliveries b)) b
    end).

Definition section_boundary_cb (kind : FieldSection) b stream_id :=
  on_stream b stream_id (λ stream,
    with_handler (section_begin handlers) (λ h, h stream kind)).

Definition section_end_cb (kind : FieldSection) b stream_id :=
  on_stream b stream_id (λ stream b,
    with_handler (section_end handlers) (λ h, h stream kind)
      (set_deliveries (Deliveries.unsilence stream (section_bit kind) (b_deliveries b)) b)).

Definition field_cb (kind : FieldSection) b stream_id token name value :=
  on_stream b stream_id (λ stream b,
    if Deliveries.is_silenced stream (section_bit kind) (b_deliveries b) then b
    else
      match field handlers with
      | None => b
      | Some handler =>
          let '(c, action) :=
            handler stream kind (token_from_raw token) (rcbuf_bytes name) (rcbuf_bytes value)
              (b_context b) in
          let b := set_context c b in
          if decide (action = Stop) then
            set_deliveries (Deliveries.silence stream (section_bit kind) (b_deliveries b)) b
          else b
      end).

Definition recv_data_cb b stream_id (data_ : option bytes) :=
  on_stream b stream_id (λ stream,
    with_handler (data handlers) (λ h, h stream (default [] data_))).

Definition end_stream_cb b stream_id :=
  on_stream b stream_id (λ stream, with_handler (end_stream handlers) (λ h, h stream)).

Definition stream_close_cb b (flags stream_id rx tx : Z) :=
  on_stream b stream_id (λ stream b,
    with_handler (stream_close handlers) (λ h,
      h stream (mkStreamClosed
        (if negb (Z.land flags NGHTTP3_STREAM_CLOSE_FLAG_RX_APP_ERROR_CODE_SET =? 0)
         then Some rx else None)
        (if negb (Z.land flags NGHTTP3_STREAM_CLOSE_FLAG_TX_APP_ERROR_CODE_SET =? 0)
         then Some tx else None)))
      (set_deliveries (Deliveries.forget stream (b_deliveries b))
         (set_bodies (Registry.forget stream (b_bodies b)) b))).

Definition data_flags (reached : option BodyEnd) : Z :=
  match reached with
  | None => NGHTTP3_DATA_FLAG_NONE
  | Some EndStream => NGHTTP3_DATA_FLAG_EOF
  | Some EndTrailers => Z.lor NGHTTP3_DATA_FLAG_EOF NGHTTP3_DATA_FLAG_NO_END_STREAM
  end.

Definition read_data_cb (b : option Bridge) (stream_id : Z) (veccnt : nat)
  : option Bridge * cb_answer :=
  match b with
  | None => (b, code NGHTTP3_ERR_CALLBACK_FAILURE)
  | Some br =>
      match H3Stream.new stream_id with
      | Err _ => (b, code NGHTTP3_ERR_CALLBACK_FAILURE)
      | Ok stream =>
          match Registry.entry_mut stream (b_bodies br) with
          | None => (b, code NGHTTP3_ERR_CALLBACK_FAILURE)
          | Some entry =>
              let '((t, c), entry, a) := Entry.read_data (b_time br, b_context br) veccnt entry in
              let br := mkBridge (Registry.set_entry stream entry (b_bodies br))
                          (b_deliveries br) c t in
              (Some br,
               match a with
               | Entry.AWouldBlock => code NGHTTP3_ERR_WOULDBLOCK
               | Entry.AFailure => code NGHTTP3_ERR_CALLBACK_FAILURE
               | Entry.AVectors vectors reached =>
                   mkAnswer (Z.of_nat (length vectors)) vectors (Some (data_flags reached))
               end)
          end
      end
  end.

Definition acked_stream_data_cb b stream_id (datalen : Z) :=
  on_stream b stream_id (λ stream b,
    match Registry.entry_mut stream (b_bodies b) with
    | Some entry =>
        set_bodies (Registry.set_entry stream (Entry.on_acked datalen entry) (b_bodies b)) b
    | None => b
    end).

Definition stop_sending_cb b stream_id (app_error_code : Z) :=
  on_stream b stream_id (λ stream,
    with_handler (stop_sending handlers) (λ h, h stream app_error_code)).

Definition reset_stream_cb b stream_id (app_error_code : Z) :=
  on_stream b stream_id (λ stream,
    with_handler (reset_stream handlers) (λ h, h stream app_error_code)).

(** [id as u64]. *)
Definition as_u64 (id : Z) : Z := id mod 2 ^ 64.

Definition classify_shutdown (role : Role) (id : Z) : Shutdown :=
  let raw := as_u64 id in
  match role with
  | Client =>
      if raw =? NGHTTP3_SHUTDOWN_NOTICE_STREAM_ID then Notice
      else match H3Stream.new id with
           | Ok stream => NoStreamsFrom stream
           | Err _ => NoPushesFrom raw
           end
  | Server =>
      if raw =? NGHTTP3_SHUTDOWN_NOTICE_PUSH_ID then Notice else NoPushesFrom raw
  end.

Definition shutdown_cb (b : option Bridge) (id : Z) : option Bridge * cb_answer :=
  match b with
  | None => (b, code 0)
  | Some br =>
      (Some (with_handler (shutdown handlers) (λ h, h (classify_shutdown role id)) br), code 0)
  end.

Definition recv_settings_cb (b : option Bridge) (settings : option proto_settings)
  : option Bridge * cb_answer :=
  match b, settings with
  | Some br, Some raw =>
      (Some (with_handler (peer_settings handlers) (λ h,
         h (mkPeerSettings (pr_max_field_section_size raw) (pr_qpack_max_dtable_capacity raw)
              (pr_qpack_blocked_streams raw) (negb (pr_enable_connect_protocol raw =? 0))
              (negb (pr_h3_datagram raw =? 0)))) br), code 0)
  | _, _ => (b, code 0)
  end.

(** The table [Conn::new] fills in; [read_data] is installed with each body. *)
Definition callbacks (b : option Bridge) (c : callback) : option Bridge * cb_answer :=
  match c with
  | CbDeferredConsume s n => deferred_consume_cb b s n
  | CbBeginHeaders s => section_boundary_cb Headers b s
  | CbRecvHeader s token name value => field_cb Headers b s token name value
  | CbEndHeaders s => section_end_cb Headers b s
  | CbBeginTrailers s => section_boundary_cb Trailers b s
  | CbRecvTrailer s token name value => field_cb Trailers b s token name value
  | CbEndTrailers s => section_end_cb Trailers b s
  | CbRecvData s d => recv_data_cb b s d
  | CbAckedStreamData s n => acked_stream_data_cb b s n
  | CbEndStream s => end_stream_cb b s
  | CbStreamClose flags s rx tx => stream_close_cb b flags s rx tx
  | CbStopSending s c => stop_sending_cb b s c
  | CbResetStream s c => reset_stream_cb b s c
  | CbShutdown id => shutdown_cb b id
  | CbRecvSettings s => recv_settings_cb b s
  | CbReadData s n => read_data_cb b s n
  end.
End Trampolines.
End Callbacks.

(** ** conn.rs *)

Record Conn (N S C : Type) := mkConn {
  raw : N;
  role : Role;
  handlers : Handlers C;
  bodies : BodyRegistry S;
  deliveries : Deliveries;
  control : option StreamId;
  qpack : option (StreamId * StreamId);
  last_timestamp : option Z;
  max_client_streams_bidi : Z;
  shutdown_started : bool;
  poison : option string;
  time : nat
}.
Arguments mkConn {N S C}.
Arguments raw {N S C}.
Arguments role {N S C}.
Arguments handlers {N S C}.
Arguments bodies {N S C}.
Arguments deliveries {N S C}.
Arguments control {N S C}.
Arguments qpack {N S C}.
Arguments last_timestamp {N S C}.
Arguments max_client_streams_bidi {N S C}.
Arguments shutdown_started {N S C}.
Arguments poison {N S C}.
Arguments time {N S C}.

Module ConnOps.
Section Ops.
Context `{Nghttp3} {S C : Type} `{!BodySource S C}.
Abbreviation Conn := (H3Conn.Conn nghttp3_conn S C).
Implicit Types (c : Conn).

(** *** Updates *)
Definition set_raw v c : Conn := mkConn v (role c) (handlers c) (bodies c) (deliveries c)
  (control c) (qpack c) (last_timestamp c) (max_client_streams_bidi c) (shutdown_started c)
  (poison c) (time c).
Definition set_bodies v c : Conn := mkConn (raw c) (role c) (handlers c) v (deliveries c)
  (control c) (qpack c) (last_timestamp c) (max_client_streams_bidi c) (shutdown_started c)
  (poison c) (time c).
Definition set_deliveries v c : Conn := mkConn (raw c) (role c) (handlers c) (bodies c) v
  (control c) (qpack c) (last_timestamp c) (max_client_streams_bidi c) (shutdown_started c)
  (poison c) (time c).
Definition set_control v c : Conn := mkConn (raw c) (role c) (handlers c) (bodies c)
  (deliveries c) v (qpack c) (last_timestamp c) (max_client_streams_bidi c)
  (shutdown_started c) (poison c) (time c).
Definition set_qpack v c : Conn := mkConn (raw c) (role c) (handlers c) (bodies c)
  (deliveries c) (control c) v (last_timestamp c) (max_client_streams_bidi c)
  (shutdown_started c) (poison c) (time c).
Definition set_last_timestamp v c : Conn := mkConn (raw c) (role c) (handlers c) (bodies c)
  (deliveries c) (control c) (qpack c) v (max_client_streams_bidi c) (shutdown_started c)
  (poison c) (time c).
Definition set_max v c : Conn := mkConn (raw c) (role c) (handlers c) (bodies c)
  (deliveries c) (control c) (qpack c) (last_timestamp c) v (shutdown_started c) (poison c)
  (time c).
Definition set_shutdown_started v c : Conn := mkConn (raw c) (role c) (handlers c) (bodies c)
  (deliveries c) (control c) (qpack c) (last_timestamp c) (max_client_streams_bidi c) v
  (poison c) (time c).
Definition set_poison v c : Conn := mkConn (raw c) (role c) (handlers c) (bodies c)
  (deliveries c) (control c) (qpack c) (last_timestamp c) (max_client_streams_bidi c)
  (shutdown_started c) v (time c).

(** *** The monad: the connection, and the caller's state that is lent to it *)
Definition St : Type := Conn * C.
Definition M (A : Type) : Type := St → St * Result A.

Definition ret {A} (a : A) : M A := λ s, (s, Ok a).
Definition throw {A} (e : Error) : M A := λ s, (s, Err e).
Definition invalid {A} (ctx : string) : M A := throw (H3Error.invalid_input ctx).
Definition bind {A B} (m : M A) (k : A → M B) : M B := λ s,
  match m s with
  | (s, Ok a) => k a s
  | (s, Err e) => (s, Err e)
  end.
Definition gets {A} (f : Conn → A) : M A := λ s, (s, Ok (f s.1)).
Definition modify (f : Conn → Conn) : M unit := λ s, ((f s.1, s.2), Ok ()).

Notation "'do' x ':=' m 'in' k" := (bind m (λ x, k))
  (at level 10, x pattern, m at level 100, k at level 200).

(** A check: [if negb cond then return Err(invalid_input(ctx))]. *)
Definition require (cond : Conn → bool) (ctx : string) : M unit := λ s,
  if cond s.1 then (s, Ok ()) else (s, Err (H3Error.invalid_input ctx)).

(** A call made without a bridge: the slot is empty, so a callback would find nothing. *)
Definition native (rq : request) : M response := λ '(c, u),
  let '(raw', _, r) :=
    nghttp3_call rq (option (Bridge S C)) (Callbacks.callbacks (handlers c) (role c))
      (raw c) None in
  ((set_raw raw' c, u), Ok r).

(** [with_context]: the bridge is installed for the call, and removed after it. *)
Definition with_context (rq : request) : M response := λ '(c, u),
  let bridge := mkBridge (bodies c) (deliveries c) u (time c) in
  let '(raw', b, r) :=
    nghttp3_call rq (option (Bridge S C)) (Callbacks.callbacks (handlers c) (role c))
      (raw c) (Some bridge) in
  let b := default bridge b in
  ((mkConn raw' (role c) (handlers c) (b_bodies b) (b_deliveries b) (control c) (qpack c)
      (last_timestamp c) (max_client_streams_bidi c) (shutdown_started c) (poison c)
      (b_time b), b_context b), Ok r).

(** [ConnBuilder::build] and [Conn::new]. *)
Definition new (role : Role) (settings : H3Settings.Settings nghttp3_settings_rest)
    (handlers : Handlers C) : Result Conn :=
  match nghttp3_conn_new role settings with
  | Err rv => Err (H3Error.native rv "could not create the connection")
  | Ok raw =>
      Ok (mkConn raw role handlers Registry.initial Deliveries.initial None None None 0 false
            None 0)
  end.

Definition is_usable c : bool := bool_decide (poison c = None).

Definition check_usable : M unit := λ s,
  match poison s.1 with
  | Some _ => (s, Err H3Error.refused)
  | None => (s, Ok ())
  end.

(** [record], and the early return of the error it gives. *)
Definition record {A} (rv : Z) (ctx : string) (path_is_fatal : bool) : M A := λ '(c, u),
  let error := H3Error.native rv ctx in
  if path_is_fatal || H3Error.is_fatal error then
    let c := set_poison (Some (default ctx (poison c))) c in
    let c := set_bodies (Registry.clear (bodies c)) c in
    ((c, u), Err (H3Error.into_unusable error))
  else ((c, u), Err error).

(** [if rv != 0 { return Err(self.record(rv, ctx, false)) }]. *)
Definition checked (ctx : string) (r : response) : M unit :=
  if rs_rv r =? 0 then ret () else record (rs_rv r) ctx false.

Definition is_bound c : bool := bool_decide (is_Some (control c)) && bool_decide (is_Some (qpack c)).

Definition require_bound : M unit :=
  do _ := require (λ c, bool_decide (is_Some (control c)))
    "the control stream has not been bound; HTTP/3 requires one before an exchange" in
  require (λ c, bool_decide (is_Some (qpack c)))
    "the QPACK streams have not been bound; HTTP/3 requires them before an exchange".

Definition require_control_bound : M unit :=
  require (λ c, bool_decide (is_Some (control c)))
    "the control stream has not been bound; connection-level frames have nowhere to go".

Definition require_local_unidirectional (stream : StreamId) : M unit :=
  require (λ c, H3Stream.is_local_unidirectional stream (role_initiator (role c)))
    match H3Stream.directionality stream with
    | Bidirectional => "a connection-level stream must be unidirectional, not bidirectional"
    | Unidirectional =>
        "a connection-level stream must be opened by this endpoint, not the peer"
    end.

Definition in_use (stream : StreamId) c : bool :=
  bool_decide (control c = Some stream) ||
  match qpack c with
  | Some (encoder, decoder) => bool_decide (encoder = stream) || bool_decide (decoder = stream)
  | None => false
  end.

Definition require_unused (stream : StreamId) : M unit :=
  require (λ c, negb (in_use stream c))
    "that stream has already been declared for another connection-level role".

Definition bind_control_stream (stream : StreamId) : M unit :=
  do _ := check_usable in
  do _ := require_local_unidirectional stream in
  do existing := gets control in
  match existing with
  | Some existing =>
      if decide (existing = stream)
      then invalid "the control stream has already been bound to this stream"
      else invalid "the control stream has already been bound"
  | None =>
      do _ := require_unused stream in
      do r := native (ReqBindControlStream (H3Stream.get stream)) in
      do _ := checked "could not bind the control stream" r in
      modify (set_control (Some stream))
  end.

Definition bind_qpack_streams (encoder decoder : StreamId) : M unit :=
  do _ := check_usable in
  do _ := require_local_unidirectional encoder in
  do _ := require_local_unidirectional decoder in
  do _ := require (λ _, negb (bool_decide (encoder = decoder)))
    "the QPACK encoder and decoder cannot share one stream" in
  do _ := require (λ c, negb (bool_decide (is_Some (qpack c))))
    "the QPACK streams have already been bound" in
  do _ := require_unused encoder in
  do _ := require_unused decoder in
  do r := native (ReqBindQpackStreams (H3Stream.get encoder) (H3Stream.get decoder)) in
  do _ := checked "could not bind the QPACK streams" r in
  modify (set_qpack (Some (encoder, decoder))).

Definition is_peer_readable (stream : StreamId) c : bool :=
  if H3Stream.is_client_bidirectional stream then true
  else
    match role c, H3Stream.initiator stream, H3Stream.directionality stream with
    | Server, ByClient, Unidirectional => true
    | Client, ByServer, Unidirectional => true
    | _, _, _ => false
    end.

(** [i32::try_from(rv).unwrap_or(NGHTTP3_ERR_FATAL)]. *)
Definition narrow (rv : Z) : Z :=
  if (- 2 ^ 31 <=? rv) && (rv <=? 2 ^ 31 - 1) then rv else NGHTTP3_ERR_FATAL.

(** The credit that is returned is the bytes consumed. *)
Definition read_stream (stream : StreamId) (src : bytes) (fin : bool) (now : Z) : M Z :=
  do _ := check_usable in
  do _ := require (is_peer_readable stream)
    "that stream cannot carry data from the peer; a locally-initiated unidirectional stream is written to, never read from" in
  do _ := require (λ c, match last_timestamp c with Some last => negb (now <? last) | None => true end)
    "the timestamp went backwards; nghttp3 requires a non-decreasing clock" in
  do _ := modify (set_last_timestamp (Some now)) in
  do r := with_context (ReqReadStream (H3Stream.get stream) src fin now) in
  if rs_rv r <? 0 then record (narrow (rs_rv r)) "could not read stream data" true
  else ret (rs_rv r).

(** [true] when a body was attached. *)
Definition attach_body (stream : StreamId) (body : option S) : M bool := λ s,
  match body with
  | None => (s, Ok false)
  | Some body =>
      let '(r, res) := Registry.attach stream body (bodies s.1) in
      ((set_bodies r s.1, s.2), let? _ := res in Ok true)
  end.

Definition detach_attached (stream : StreamId) (attached : bool) : M unit :=
  if attached then modify (λ c, set_bodies (Registry.detach stream (bodies c)) c) else ret ().

Definition submit_request (stream : StreamId) (fields : list Header.Header) (body : option S)
  : M unit :=
  do _ := check_usable in
  do _ := require (λ c, bool_decide (role c = Client))
    "only a client submits requests; a server submits responses" in
  do _ := require (λ _, H3Stream.is_client_bidirectional stream)
    "a request needs a client-initiated bidirectional stream" in
  do _ := require_bound in
  do reader := attach_body stream body in
  do r := native (ReqSubmitRequest (H3Stream.get stream) (Header.as_nv <$> fields) reader) in
  if rs_rv r =? 0 then ret ()
  else
    do _ := detach_attached stream reader in
    record (rs_rv r) "could not submit the request" false.

Definition submit_response (stream : StreamId) (fields : list Header.Header) (body : option S)
  : M unit :=
  do _ := check_usable in
  do _ := require (λ c, bool_decide (role c = Server))
    "only a server submits responses; a client submits requests" in
  do _ := require (λ _, H3Stream.is_client_bidirectional stream)
    "a response belongs on the client-initiated stream its request arrived on" in
  do _ := require_bound in
  do reader := attach_body stream body in
  do r := native (ReqSubmitResponse (H3Stream.get stream) (Header.as_nv <$> fields) reader) in
  if rs_rv r =? 0 then ret ()
  else
    do _ := detach_attached stream reader in
    record (rs_rv r) "could not submit the response" false.

Definition submit_trailers (stream : StreamId) (fields : list Header.Header) : M unit :=
  do _ := check_usable in
  do _ := require (λ _, H3Stream.is_client_bidirectional stream)
    "trailers belong on a client-initiated bidirectional stream, not a connection-level one" in
  do _ := require_bound in
  do r := native (ReqSubmitTrailers (H3Stream.get stream) (Header.as_nv <$> fields)) in
  checked "could not submit the trailers" r.

Definition submit_info (stream : StreamId) (fields : list Header.Header) : M unit :=
  do _ := check_usable in
  do _ := require (λ c, bool_decide (role c = Server))
    "only a server sends informational responses" in
  do _ := require (λ _, H3Stream.is_client_bidirectional stream)
    "an informational response belongs on the request's own stream" in
  do _ := require_bound in
  do r := native (ReqSubmitInfo (H3Stream.get stream) (Header.as_nv <$> fields)) in
  checked "could not submit the informational response" r.

Definition close_stream_with (stream : StreamId) (closed : StreamClosed) : M unit :=
  do _ := check_usable in
  let rx_flag := match receiving closed with
                 | Some _ => NGHTTP3_STREAM_CLOSE_FLAG_RX_APP_ERROR_CODE_SET
                 | None => 0 end in
  let tx_flag := match sending closed with
                 | Some _ => NGHTTP3_STREAM_CLOSE_FLAG_TX_APP_ERROR_CODE_SET
                 | None => 0 end in
  do r := with_context (ReqCloseStream (Z.lor rx_flag tx_flag) (H3Stream.get stream)
                          (default 0 (receiving closed)) (default 0 (sending closed))) in
  checked "could not close the stream" r.

Definition close_stream (stream : StreamId) : M unit := close_stream_with stream clean.

Definition add_ack_offset (stream : StreamId) (n : Z) : M unit :=
  do _ := check_usable in
  do _ := (λ s, let '(r, res) := Registry.record_acked stream n (bodies s.1) in
                ((set_bodies r s.1, s.2), res)) in
  do r := with_context (ReqAddAckOffset (H3Stream.get stream) n) in
  checked "could not record acknowledged bytes" r.

Definition block_stream (stream : StreamId) : M unit :=
  do _ := check_usable in
  do _ := native (ReqBlockStream (H3Stream.get stream)) in ret ().

Definition unblock_stream (stream : StreamId) : M unit :=
  do _ := check_usable in
  do r := native (ReqUnblockStream (H3Stream.get stream)) in
  checked "could not unblock the stream" r.

Definition resume_stream (stream : StreamId) : M unit :=
  do _ := check_usable in
  do r := native (ReqResumeStream (H3Stream.get stream)) in
  checked "could not resume the stream" r.

Definition is_stream_writable (stream : StreamId) : M bool :=
  do _ := check_usable in
  do r := native (ReqIsStreamWritable (H3Stream.get stream)) in
  ret (negb (rs_rv r =? 0)).

Definition submit_shutdown_notice : M unit :=
  do _ := check_usable in
  do _ := require_control_bound in
  do _ := require (λ c, negb (shutdown_started c))
    "the graceful shutdown has already fixed its cut-off; a notice now would raise it again" in
  do r := native ReqSubmitShutdownNotice in
  checked "could not submit the shutdown notice" r.

Definition shutdown : M unit :=
  do _ := check_usable in
  do _ := require_control_bound in
  do _ := require (λ c, negb (shutdown_started c))
    "the graceful shutdown has already been started, and its cut-off may not be raised" in
  do r := native ReqShutdown in
  do _ := checked "could not start the graceful shutdown" r in
  modify (set_shutdown_started true).

Definition is_drained : M bool :=
  do _ := check_usable in
  do _ := require (λ c, bool_decide (role c = Server))
    "only a server drains; a client has no peer-initiated streams to wait for" in
  do r := native ReqIsDrained in
  ret (negb (rs_rv r =? 0)).

Definition shutdown_stream_read (stream : StreamId) : M unit :=
  do _ := check_usable in
  do r := native (ReqShutdownStreamRead (H3Stream.get stream)) in
  checked "could not shut down the stream's read side" r.

Definition shutdown_stream_write (stream : StreamId) : M unit :=
  do _ := check_usable in
  do _ := native (ReqShutdownStreamWrite (H3Stream.get stream)) in ret ().

Definition set_max_client_streams_bidi (max_streams : Z) : M unit :=
  do _ := check_usable in
  do _ := require (λ c, bool_decide (role c = Server))
    "only a server sets the client's stream limit" in
  do _ := require (λ c, negb (max_streams <? max_client_streams_bidi c))
    "the client's stream limit may only ever increase" in
  do _ := modify (set_max max_streams) in
  do _ := native (ReqSetMaxClientStreamsBidi max_streams) in ret ().

Definition set_max_concurrent_streams (max_concurrent : Z) : M unit :=
  do _ := check_usable in
  do _ := native (ReqSetMaxConcurrentStreams max_concurrent) in ret ().

Definition take_deferred_credit : M (list (StreamId * Z)) := λ s,
  let '(d, l) := Deliveries.take_credit (deliveries s.1) in ((set_deliveries d s.1, s.2), Ok l).

Definition has_deferred_credit c : bool := Deliveries.has_credit (deliveries c).
Definition retained_body_buffers c : nat := Registry.retained_buffers (bodies c).

(** *** send.rs *)

Definition MAX_VECTORS : nat := 16.

(** [SendGuard]: it borrows the connection, so nothing else happens to the connection until
    it is committed or abandoned. *)
Record SendGuard := mkGuard {
  g_slices : list bytes;
  g_count : nat;
  g_stream : StreamId;
  g_fin : bool;
  g_total : nat
}.

(** The array of [MAX_VECTORS] vectors, null where nghttp3 stored nothing. *)
Definition vector_array (stored : list (option bytes)) : list (option bytes) :=
  take MAX_VECTORS (stored ++ replicate MAX_VECTORS None).

Definition guard_of (count : nat) (stream : StreamId) (r : response) : SendGuard :=
  let slices := default [] <$> take count (vector_array (rs_vectors r)) in
  mkGuard slices count stream (negb (rs_fin r =? 0)) (length (concat slices)).

(** [SendGuard::acquire]; [None] is the panic of a slice past the array. *)
Definition acquire : St → option (St * Result (option SendGuard)) := λ s,
  match require_bound s with
  | (s, Err e) => Some (s, Err e)
  | (s, Ok _) =>
      match with_context (ReqWritevStream MAX_VECTORS) s with
      | (s, Err e) => Some (s, Err e)
      | (s, Ok r) =>
          if rs_rv r <? 0 then
            Some (record (narrow (rs_rv r)) "could not collect data to send" true s)
          else if rs_stream_id r <? 0 then Some (s, Ok None)
          else
            match H3Stream.new (rs_stream_id r) with
            | Err e => Some (s, Err e)
            | Ok stream =>
                if decide (Z.to_nat (rs_rv r) ≤ MAX_VECTORS)%nat
                then Some (s, Ok (Some (guard_of (Z.to_nat (rs_rv r)) stream r)))
                else None
            end
      end
  end.

Definition writev_stream : St → option (St * Result (option SendGuard)) := λ s,
  match check_usable s with
  | (s, Err e) => Some (s, Err e)
  | (s, Ok _) => acquire s
  end.

Definition is_empty (g : SendGuard) : bool := bool_decide (g_total g = 0%nat).

Definition commit (g : SendGuard) (accepted : nat) : M unit :=
  do _ := require (λ _, negb (bool_decide (g_total g < accepted)%nat))
    "committed more bytes than were offered" in
  do r := native (ReqAddWriteOffset (H3Stream.get (g_stream g)) accepted) in
  if negb (rs_rv r =? 0) then record (rs_rv r) "could not record the bytes written" false
  else
    modify (λ c, set_bodies (Registry.record_committed (g_stream g) accepted (bodies c)) c).
End Ops.
End ConnOps.

(** ** The builder *)
Module ConnBuilder.
Section Builder.
Context `{Nghttp3} {S C : Type}.

Record ConnBuilder := mkBuilder {
  cb_role : Role;
  cb_settings : H3Settings.Settings nghttp3_settings_rest;
  cb_handlers : Handlers C
}.

Definition new (role : Role) : ConnBuilder :=
  mkBuilder role nghttp3_settings_default handlers_default.
Definition settings s (b : ConnBuilder) : ConnBuilder := mkBuilder (cb_role b) s (cb_handlers b).
Definition map_handlers f (b : ConnBuilder) : ConnBuilder :=
  mkBuilder (cb_role b) (cb_settings b) (f (cb_handlers b)).
Definition on_deferred_consume h : ConnBuilder → ConnBuilder := map_handlers (λ hs,
  mkHandlers (Some h) (H3Types.section_begin hs) (H3Types.field hs)
    (H3Types.section_end hs) (H3Types.data hs) (H3Types.end_stream hs)
    (H3Types.stream_close hs) (H3Types.stop_sending hs) (H3Types.reset_stream hs)
    (H3Types.shutdown hs) (H3Types.peer_settings hs)).
Definition on_section_begin h : ConnBuilder → ConnBuilder := map_handlers (λ hs,
  mkHandlers (H3Types.deferred_consume hs) (Some h) (H3Types.field hs)
    (H3Types.section_end hs) (H3Types.data hs) (H3Types.end_stream hs)
    (H3Types.stream_close hs) (H3Types.stop_sending hs) (H3Types.reset_stream hs)
    (H3Types.shutdown hs) (H3Types.peer_settings hs)).
Definition on_field h : ConnBuilder → ConnBuilder := map_handlers (λ hs,
  mkHandlers (H3Types.deferred_consume hs) (H3Types.section_begin hs) (Some h)
    (H3Types.section_end hs) (H3Types.data hs) (H3Types.end_stream hs)
    (H3Types.stream_close hs) (H3Types.stop_sending hs) (H3Types.reset_stream hs)
    (H3Types.shutdown hs) (H3Types.peer_settings hs)).
Definition on_section_end h : ConnBuilder → ConnBuilder := map_handlers (λ hs,
  mkHandlers (H3Types.deferred_consume hs) (H3Types.section_begin hs)
    (H3Types.field hs) (Some h) (H3Types.data hs) (H3Types.end_stream hs)
    (H3Types.stream_close hs) (H3Types.stop_sending hs) (H3Types.reset_stream hs)
    (H3Types.shutdown hs) (H3Types.peer_settings hs)).
Definition on_data h : ConnBuilder → ConnBuilder := map_handlers (λ hs,
  mkHandlers (H3Types.deferred_consume hs) (H3Types.section_begin hs)
    (H3Types.field hs) (H3Types.section_end hs) (Some h) (H3Types.end_stream hs)
    (H3Types.stream_close hs) (H3Types.stop_sending hs) (H3Types.reset_stream hs)
    (H3Types.shutdown hs) (H3Types.peer_settings hs)).
Definition on_end_stream h : ConnBuilder → ConnBuilder := map_handlers (λ hs,
  mkHandlers (H3Types.deferred_consume hs) (H3Types.section_begin hs)
    (H3Types.field hs) (H3Types.section_end hs) (H3Types.data hs) (Some h)
    (H3Types.stream_close hs) (H3Types.stop_sending hs) (H3Types.reset_stream hs)
    (H3Types.shutdown hs) (H3Types.peer_settings hs)).
Definition on_stream_close h : ConnBuilder → ConnBuilder := map_handlers (λ hs,
  mkHandlers (H3Types.deferred_consume hs) (H3Types.section_begin hs)
    (H3Types.field hs) (H3Types.section_end hs) (H3Types.data hs)
    (H3Types.end_stream hs) (Some h) (H3Types.stop_sending hs) (H3Types.reset_stream
    hs) (H3Types.shutdown hs) (H3Types.peer_settings hs)).
Definition on_stop_sending h : ConnBuilder → ConnBuilder := map_handlers (λ hs,
  mkHandlers (H3Types.deferred_consume hs) (H3Types.section_begin hs)
    (H3Types.field hs) (H3Types.section_end hs) (H3Types.data hs)
    (H3Types.end_stream hs) (H3Types.stream_close hs) (Some h) (H3Types.reset_stream
    hs) (H3Types.shutdown hs) (H3Types.peer_settings hs)).
Definition on_reset_stream h : ConnBuilder → ConnBuilder := map_handlers (λ hs,
  mkHandlers (H3Types.deferred_consume hs) (H3Types.section_begin hs)
    (H3Types.field hs) (H3Types.section_end hs) (H3Types.data hs)
    (H3Types.end_stream hs) (H3Types.stream_close hs) (H3Types.stop_sending hs)
    (Some h) (H3Types.shutdown hs) (H3Types.peer_settings hs)).
Definition on_shutdown h : ConnBuilder → ConnBuilder := map_handlers (λ hs,
  mkHandlers (H3Types.deferred_consume hs) (H3Types.section_begin hs)
    (H3Types.field hs) (H3Types.section_end hs) (H3Types.data hs)
    (H3Types.end_stream hs) (H3Types.stream_close hs) (H3Types.stop_sending hs)
    (H3Types.reset_stream hs) (Some h) (H3Types.peer_settings hs)).
Definition on_peer_settings h : ConnBuilder → ConnBuilder := map_handlers (λ hs,
  mkHandlers (H3Types.deferred_consume hs) (H3Types.section_begin hs)
    (H3Types.field hs) (H3Types.section_end hs) (H3Types.data hs)
    (H3Types.end_stream hs) (H3Types.stream_close hs) (H3Types.stop_sending hs)
    (H3Types.reset_stream hs) (H3Types.shutdown hs) (Some h)).

Definition build (b : ConnBuilder) : Result (Conn nghttp3_conn S C) :=
  ConnOps.new (cb_role b) (cb_settings b) (cb_handlers b).
End Builder.
End ConnBuilder.
