(* ===== verification/H3Safety.v ===== *)
(** * What the HTTP/3 wrapper guarantees about nghttp3

    [logged] wraps any [Nghttp3] so that it writes down every call, the callbacks made
    during it and the response.  Over any sequence of public operations, with any
    implementation of the C library: the calls respect the conditions nghttp3 only
    asserts ([calls_permitted]), a buffer the library may still read is still retained
    ([buffers_outlive_use]), and an error is fatal exactly when the connection is of no
    further use ([fatal_is_final]). *)

From Stdlib Require Import ZArith Lia.
From stdpp Require Import base list gmap strings.
From S2P Require Import Prelude Traces H3Types H3Body H3Conn.

(** ** Writing down what happens *)

Definition trace : Type := list (callback * cb_answer).

Record call := mkCall { c_request : request; c_trace : trace; c_response : response }.

Section Logged.
Context {N : Nghttp3}.

Record logged_conn := mkLogged { inner : nghttp3_conn; calls : list call }.

Definition logged_call (rq : request) (B : Type) (cb : B → callback → B * cb_answer)
    (n : logged_conn) (b : B) : logged_conn * B * response :=
  let '(n', st, r) :=
    nghttp3_call rq (traced cb b) (traced_step cb b) (inner n) (traced_start cb b) in
  (mkLogged n' (calls n ++ [mkCall rq (`st).2 r]), (`st).1, r).

Definition logged : Nghttp3 := {|
  nghttp3_codes := nghttp3_codes;
  nghttp3_settings_rest := nghttp3_settings_rest;
  nghttp3_settings_default := nghttp3_settings_default;
  nghttp3_conn := logged_conn;
  nghttp3_conn_new role settings :=
    match nghttp3_conn_new role settings with
    | Ok n => Ok (mkLogged n [])
    | Err e => Err e
    end;
  nghttp3_call := logged_call
|}.

Lemma logged_call_runs rq B cb n (b : B) n' b' r :
  logged_call rq B cb n b = (n', b', r) →
  ∃ tr, calls n' = calls n ++ [mkCall rq tr r] ∧ runs cb b tr b'.
Proof.
  unfold logged_call.
  destruct (nghttp3_call _ _ _ _ _) as [[n1 [[b1 tr] Hst]] r1]. simpl.
  intros [= <- <- <-]. exists tr. by split.
Qed.
End Logged.

(** A library whose calls can be read back. *)
Class Recorded `{L : Nghttp3} := {
  calls_of : nghttp3_conn → list call;
  calls_of_new : ∀ role settings n, nghttp3_conn_new role settings = Ok n → calls_of n = [];
  calls_of_call : ∀ rq B cb n (b : B) n' b' r,
    nghttp3_call rq B cb n b = (n', b', r) →
    ∃ tr, calls_of n' = calls_of n ++ [mkCall rq tr r] ∧ runs cb b tr b'
}.

(** Any library can be recorded. *)
Definition logged_recorded {N : Nghttp3} : @Recorded logged.
Proof.
  refine (@Build_Recorded logged (@calls N) _ (@logged_call_runs N)).
  intros role settings n. change (@nghttp3_conn_new logged role settings) with
    (match @nghttp3_conn_new N role settings with
     | Ok n => Ok (mkLogged n [])
     | Err e => Err e
     end).
  destruct (@nghttp3_conn_new N role settings); [|done]. by intros [= <-].
Defined.

(** ** The public operations *)

Section Operations.
Context `{Nghttp3} {S C : Type} `{!BodySource S C}.

Inductive op :=
| OBindControl (s : StreamId)
| OBindQpack (encoder decoder : StreamId)
| ORead (s : StreamId) (src : bytes) (fin : bool) (now : Z)
| OSubmitRequest (s : StreamId) (fields : list Header.Header) (body : option S)
| OSubmitResponse (s : StreamId) (fields : list Header.Header) (body : option S)
| OSubmitTrailers (s : StreamId) (fields : list Header.Header)
| OSubmitInfo (s : StreamId) (fields : list Header.Header)
| OClose (s : StreamId) (closed : StreamClosed)
(** A guard is committed with a count the caller chooses, or abandoned. *)
| OSend (choose : ConnOps.SendGuard → option nat)
| OAddAck (s : StreamId) (n : Z)
| OBlock (s : StreamId)
| OUnblock (s : StreamId)
| OResume (s : StreamId)
| OIsWritable (s : StreamId)
| ONotice
| OShutdown
| OIsDrained
| OShutdownRead (s : StreamId)
| OShutdownWrite (s : StreamId)
| OSetMax (n : Z)
| OSetMaxConcurrent (n : Z)
| OTakeCredit.

Definition discard {A} (m : ConnOps.M (S:=S) (C:=C) A) (s : ConnOps.St)
  : ConnOps.St * Result unit :=
  let '(s, r) := m s in (s, let? _ := r in Ok ()).

(** [None] is a panic. *)
Definition run_op (o : op) (s : ConnOps.St (S:=S) (C:=C)) : option (ConnOps.St * Result unit) :=
  match o with
  | OBindControl x => Some (ConnOps.bind_control_stream x s)
  | OBindQpack e d => Some (ConnOps.bind_qpack_streams e d s)
  | ORead x src fin now => Some (discard (ConnOps.read_stream x src fin now) s)
  | OSubmitRequest x fields body => Some (ConnOps.submit_request x fields body s)
  | OSubmitResponse x fields body => Some (ConnOps.submit_response x fields body s)
  | OSubmitTrailers x fields => Some (ConnOps.submit_trailers x fields s)
  | OSubmitInfo x fields => Some (ConnOps.submit_info x fields s)
  | OClose x closed => Some (ConnOps.close_stream_with x closed s)
  | OSend choose =>
      let! (s, r) := ConnOps.writev_stream s in
      match r with
      | Ok (Some g) =>
          match choose g with
          | Some n => Some (ConnOps.commit g n s)
          | None => Some (s, Ok ())
          end
      | Ok None => Some (s, Ok ())
      | Err e => Some (s, Err e)
      end
  | OAddAck x n => Some (ConnOps.add_ack_offset x n s)
  | OBlock x => Some (ConnOps.block_stream x s)
  | OUnblock x => Some (ConnOps.unblock_stream x s)
  | OResume x => Some (ConnOps.resume_stream x s)
  | OIsWritable x => Some (discard (ConnOps.is_stream_writable x) s)
  | ONotice => Some (ConnOps.submit_shutdown_notice s)
  | OShutdown => Some (ConnOps.shutdown s)
  | OIsDrained => Some (discard ConnOps.is_drained s)
  | OShutdownRead x => Some (ConnOps.shutdown_stream_read x s)
  | OShutdownWrite x => Some (ConnOps.shutdown_stream_write x s)
  | OSetMax n => Some (ConnOps.set_max_client_streams_bidi n s)
  | OSetMaxConcurrent n => Some (ConnOps.set_max_concurrent_streams n s)
  | OTakeCredit => Some (discard ConnOps.take_deferred_credit s)
  end.

Fixpoint run_ops (os : list op) (s : ConnOps.St (S:=S) (C:=C))
  : option (ConnOps.St (S:=S) (C:=C)) :=
  match os with
  | [] => Some s
  | o :: os => let! (s, _) := run_op o s in run_ops os s
  end.

(** Counts are unsigned. *)
Definition op_ok (o : op) : Prop :=
  match o with OAddAck _ n => 0 ≤ n | _ => True end.
End Operations.
Arguments op S : clear implicits.

(** ** What nghttp3 asserts of its caller *)

(** What the calls made so far have established. *)
Record ghost := mkGhost {
  g_control : option Z;
  g_qpack : option (Z * Z);
  g_last : option Z;
  g_max : Z;
  g_shutdown : bool;
  g_dead : bool;
  g_offer : option (Z * nat);
  g_written : Z → Z;
  g_acked : Z → Z
}.

Definition ghost0 : ghost :=
  mkGhost None None None 0 false false None (λ _, 0) (λ _, 0).

Section Permitted.
Context `{Nghttp3}.

(** After these nothing but the destructor may be called: a failed read or write, and any
    code the library calls fatal. *)
Definition kills (rq : request) (rv : Z) : bool :=
  match rq with
  | ReqReadStream _ _ _ _ | ReqWritevStream _ => rv <? 0
  | ReqBlockStream _ | ReqIsStreamWritable _ | ReqIsDrained | ReqShutdownStreamWrite _
  | ReqSetMaxClientStreamsBidi _ | ReqSetMaxConcurrentStreams _ => false
  | _ => negb (rv =? 0) && nghttp3_err_is_fatal rv
  end.

Definition bump (f : Z → Z) (k n : Z) : Z → Z := λ x, if decide (x = k) then f x + n else f x.

Definition offered_bytes (r : response) : nat :=
  length (concat (default [] <$>
    take (Z.to_nat (rs_rv r)) (ConnOps.vector_array (rs_vectors r)))).

Definition ghost_step (g : ghost) (c : call) : ghost :=
  let rq := c_request c in
  let r := c_response c in
  let ok := rs_rv r =? 0 in
  mkGhost
    match rq with ReqBindControlStream s => if ok then Some s else g_control g | _ => g_control g end
    match rq with ReqBindQpackStreams e d => if ok then Some (e, d) else g_qpack g | _ => g_qpack g end
    match rq with ReqReadStream _ _ _ ts => Some ts | _ => g_last g end
    match rq with ReqSetMaxClientStreamsBidi n => n | _ => g_max g end
    match rq with ReqShutdown => ok || g_shutdown g | _ => g_shutdown g end
    (g_dead g || kills rq (rs_rv r))
    match rq with
    | ReqWritevStream _ =>
        if (rs_rv r <? 0) || (rs_stream_id r <? 0) then None
        else Some (rs_stream_id r, offered_bytes r)
    | _ => None
    end
    match rq with
    | ReqAddWriteOffset s n => if ok then bump (g_written g) s (Z.of_nat n) else g_written g
    | _ => g_written g
    end
    match rq with ReqAddAckOffset s n => bump (g_acked g) s n | _ => g_acked g end.

Definition ghost_of (cs : list call) : ghost := foldl ghost_step ghost0 cs.

Definition bound (g : ghost) : Prop := is_Some (g_control g) ∧ is_Some (g_qpack g).

Definition local_uni (role : Role) (s : Z) : Prop :=
  H3Stream.is_local_unidirectional s (role_initiator role) = true.

(** The conditions that nghttp3 asserts, or leaves undefined, rather than checks. *)
Definition permitted (role : Role) (g : ghost) (rq : request) : Prop :=
  g_dead g = false ∧
  match rq with
  | ReqBindControlStream s =>
      local_uni role s ∧ g_control g = None ∧
      (∀ e d, g_qpack g = Some (e, d) → e ≠ s ∧ d ≠ s)
  | ReqBindQpackStreams e d =>
      local_uni role e ∧ local_uni role d ∧ e ≠ d ∧ g_qpack g = None ∧
      g_control g ≠ Some e ∧ g_control g ≠ Some d
  | ReqReadStream s _ _ ts =>
      (H3Stream.is_client_bidirectional s = true ∨
       H3Stream.directionality s = Unidirectional ∧
       H3Stream.initiator s ≠ role_initiator role) ∧
      (∀ last, g_last g = Some last → last ≤ ts)
  | ReqSubmitRequest s _ _ =>
      role = Client ∧ H3Stream.is_client_bidirectional s = true ∧ bound g
  | ReqSubmitResponse s _ _ | ReqSubmitInfo s _ =>
      role = Server ∧ H3Stream.is_client_bidirectional s = true ∧ bound g
  | ReqSubmitTrailers s _ => H3Stream.is_client_bidirectional s = true ∧ bound g
  | ReqWritevStream n => bound g ∧ n = ConnOps.MAX_VECTORS
  | ReqAddWriteOffset s n => ∃ total, g_offer g = Some (s, total) ∧ (n ≤ total)%nat
  | ReqAddAckOffset s n => n = 0 ∨ g_acked g s + n ≤ g_written g s
  | ReqSubmitShutdownNotice | ReqShutdown => is_Some (g_control g) ∧ g_shutdown g = false
  | ReqIsDrained => role = Server
  | ReqSetMaxClientStreamsBidi n => role = Server ∧ g_max g ≤ n
  | _ => True
  end.

(** Every call was permitted by the ones before it. *)
Definition log_ok (role : Role) (cs : list call) : Prop :=
  ∀ cs1 c cs2, cs = cs1 ++ c :: cs2 → permitted role (ghost_of cs1) (c_request c).
End Permitted.

(** ** The buffers nghttp3 may still read *)

(** The vectors stream [s] was handed and the bytes of it reported acknowledged, since it was
    last closed. *)
Definition use_step (s : Z) (st : list (RetainedBytes * bytes) * Z) (ev : callback * cb_answer)
  : list (RetainedBytes * bytes) * Z :=
  match ev.1 with
  | CbReadData s' _ => if decide (s' = s) then (st.1 ++ a_vectors ev.2, st.2) else st
  | CbAckedStreamData s' n => if decide (s' = s) then (st.1, st.2 + n) else st
  | CbStreamClose _ s' _ _ => if decide (s' = s) then ([], 0) else st
  | _ => st
  end.

Definition in_use (s : Z) (tr : trace) : list (RetainedBytes * bytes) * Z :=
  foldl (use_step s) ([], 0) tr.

Definition trace_of (cs : list call) : trace := concat (c_trace <$> cs).

(** nghttp3 reports as acknowledged only bytes it was handed. *)
Definition acks_within (tr : trace) : Prop :=
  Forall (λ ev, match ev.1 with CbAckedStreamData _ n => 0 ≤ n | _ => True end) tr ∧
  ∀ tr1 tr2 s, tr = tr1 ++ tr2 →
    (in_use s tr1).2 ≤ sumZ (told_length <$> (in_use s tr1).1).*2.

Section Buffers.
Context `{Nghttp3} {S C : Type} `{!BodySource S C}.
Variable hs : Handlers C.
Variable role : Role.
Abbreviation Bridge := (H3Conn.Bridge S C).
Abbreviation cb := (Callbacks.callbacks hs role).

(** One stream: nothing it was handed is gone without an entry; with one, what was handed
    before the stream was last closed ([older]) and since splits into what was released
    and what is retained, and no more was released than was acknowledged. *)
Definition stream_kept (e : option (BodyEntry S)) (use : list (RetainedBytes * bytes) * Z) : Prop :=
  match e with
  | None => use.1 = []
  | Some e =>
      0 ≤ carry e ∧
      ∃ older released,
        Forall (λ p, 0 ≤ p.2) older ∧
        older ++ (told_length <$> use.1) = released ++ retained e ∧
        sumZ released.*2 + carry e ≤ sumZ older.*2 + use.2
  end.

Definition buffers_kept (r : BodyRegistry S) (tr : trace) : Prop :=
  ∀ s, stream_kept (H3Body.bodies r !! s) (in_use s tr).

(** The offsets of a stream stay or go, never change. *)
Definition offsets_shrink (r r' : BodyRegistry S) : Prop :=
  ∀ s, H3Body.offsets r' !! s = H3Body.offsets r !! s ∨ H3Body.offsets r' !! s = None.

Lemma in_use_snoc s tr ev : in_use s (tr ++ [ev]) = use_step s (in_use s tr) ev.
Proof. unfold in_use. by rewrite foldl_app. Qed.

Lemma acks_within_prefix tr1 tr2 : acks_within (tr1 ++ tr2) → acks_within tr1.
Proof.
  intros [Hp Ha]. split; [by apply Forall_app in Hp as [? _]|].
  intros a b s ->. apply (Ha a (b ++ tr2)). by rewrite (assoc_L (++)).
Qed.

Lemma in_use_nonneg s tr :
  Forall (λ ev, match ev.1 with CbAckedStreamData _ n => 0 ≤ n | _ => True end) tr →
  0 ≤ (in_use s tr).2.
Proof.
  induction tr as [|ev tr IH] using rev_ind; [done|]. intros [Hp Hev]%Forall_app.
  apply Forall_cons in Hev as [Hev _]. specialize (IH Hp). rewrite in_use_snoc.
  destruct ev as [[] a]; unfold use_step; simpl in *; try case_decide; simpl; lia.
Qed.

Lemma acks_within_now tr s :
  acks_within tr → 0 ≤ (in_use s tr).2 ≤ sumZ (told_length <$> (in_use s tr).1).*2.
Proof.
  intros [Hp Ha]. split; [by apply in_use_nonneg|]. apply (Ha tr []). by rewrite app_nil_r.
Qed.

(** What a vector kept means: anything not wholly acknowledged is retained. *)
Lemma kept_retains e use i v :
  stream_kept e use →
  use.1 !! i = Some v →
  use.2 < sumZ (take (Datatypes.S i) (told_length <$> use.1)).*2 →
  ∃ en, e = Some en ∧ told_length v ∈ retained en.
Proof.
  intros Hk Hi Hlt. destruct e as [en|]; simpl in Hk; [|by rewrite Hk in Hi].
  exists en. split; [done|]. destruct Hk as (Hc & older & released & Hnn & Hsplit & Hsum).
  set (h := told_length <$> use.1) in *.
  assert (Hh : h !! i = Some (told_length v)) by (subst h; by rewrite list_lookup_fmap, Hi).
  assert (Hat : (released ++ retained en) !! (length older + i)%nat = Some (told_length v)).
  { rewrite <-Hsplit, lookup_app_r by lia. by rewrite Nat.add_comm, Nat.add_sub. }
  destruct (decide (length released ≤ length older + i)%nat) as [Hle|Hgt].
  - rewrite lookup_app_r in Hat by done. by eapply list_elem_of_lookup_2.
  - exfalso.
    assert (Htk : take (length older + Datatypes.S i) (older ++ h) =
                  take (length older + Datatypes.S i) (released ++ retained en))
      by by rewrite Hsplit.
    rewrite take_app_add, take_app_le in Htk by lia.
    assert (Hrel : Forall (λ p, 0 ≤ p.2) released).
    { assert (Hall : Forall (λ p, 0 ≤ p.2) (released ++ retained en))
        by (rewrite <-Hsplit; apply Forall_app; split; [done|apply told_length_nonneg]).
      by apply Forall_app in Hall as [? _]. }
    assert (Hle : sumZ (take (length older + Datatypes.S i) released).*2 ≤ sumZ released.*2).
    { rewrite <-(take_drop (length older + Datatypes.S i) released) at 2.
      rewrite fmap_app, sumZ_app.
      assert (0 ≤ sumZ (drop (length older + Datatypes.S i) released).*2); [|lia].
      apply sumZ_nonneg, Forall_fmap. by apply Forall_drop. }
    rewrite <-Htk, fmap_app, sumZ_app in Hle. lia.
Qed.

(** A round of an entry, seen through its stream's use. *)
Lemma kept_read t n e use t' e' a :
  Entry.read_data t n e = (t', e', a) →
  stream_kept (Some e) use →
  stream_kept (Some e') (use.1 ++ vectors_of a, use.2).
Proof.
  intros Hr (Hc & older & released & Hnn & Hsplit & Hsum).
  destruct (read_data_advances t n e) as (t1 & e1 & a1 & Hr1 & A).
  rewrite Hr in Hr1. simplify_eq.
  destruct (adv_round _ _ _ A eq_refl) as [Hret Hcar]. rewrite handed_round in Hret.
  simpl. rewrite Hcar. split; [done|]. exists older, released. split; [done|]. split; [|done].
  by rewrite fmap_app, (assoc_L (++)), Hsplit, Hret, (assoc_L (++)).
Qed.

(** An acknowledgement. *)
Lemma kept_ack e use n :
  0 ≤ n →
  stream_kept (Some e) use → stream_kept (Some (Entry.on_acked n e)) (use.1, use.2 + n).
Proof.
  intros Hn (Hc & older & released & Hnn & Hsplit & Hsum). unfold Entry.on_acked.
  destruct (Entry.release _ _) as [c r] eqn:Hr.
  apply release_spec in Hr as (k & -> & Hs & _ & Hpos). simpl.
  assert (Hsat : saturating_add (carry e) n ≤ carry e + n) by (unfold saturating_add; lia).
  assert (0 ≤ saturating_add (carry e) n) by (unfold saturating_add, U64_MAX; lia).
  split; [by apply Hpos|].
  exists older, (released ++ take k (retained e)). split; [done|]. split.
  - by rewrite <-(assoc_L (++)), take_drop.
  - rewrite fmap_app, sumZ_app, fmap_take. lia.
Qed.

(** The stream closing while its entry stays: what was in use becomes old. *)
Lemma kept_close e use :
  0 ≤ use.2 ≤ sumZ (told_length <$> use.1).*2 → stream_kept e use → stream_kept e ([], 0).
Proof.
  destruct e as [e|]; simpl; [|done].
  intros Huse (Hc & older & released & Hnn & Hsplit & Hsum). split; [done|].
  exists (older ++ (told_length <$> use.1)), released. split; [|split].
  - apply Forall_app. split; [done|]. apply told_length_nonneg.
  - by rewrite app_nil_r.
  - rewrite fmap_app, sumZ_app. lia.
Qed.

(** Without a change to the entry, an event without vectors. *)
Lemma kept_event e tr s ev :
  acks_within (tr ++ [ev]) → a_vectors ev.2 = [] →
  stream_kept e (in_use s tr) → stream_kept e (in_use s (tr ++ [ev])).
Proof.
  intros Ha Hv Hk. pose proof (acks_within_now _ s (acks_within_prefix _ _ Ha)) as Hpre.
  destruct Ha as [Hp _]. apply Forall_app in Hp as [_ Hn]. apply Forall_cons in Hn as [Hn _].
  rewrite in_use_snoc. destruct ev as [c a]. unfold use_step. cbn [fst snd] in *.
  destruct c; try done; case_decide; try done.
  - destruct e as [e|]; [|done].
    destruct Hk as (Hc & older & released & ? & ? & Hsum). split; [done|].
    exists older, released. split_and!; try done. simpl. lia.
  - by eapply kept_close.
  - rewrite Hv, app_nil_r. by destruct (in_use s tr).
Qed.

(** No bridge: nothing happens and nothing is handed over. *)
Lemma cb_absent c : ∃ a, cb None c = (None, a) ∧ a_vectors a = [].
Proof. destruct c; simpl; eauto. Qed.

(** The callbacks that leave the registry alone and answer without vectors. *)
Definition plain (c : callback) : bool :=
  match c with
  | CbReadData _ _ | CbAckedStreamData _ _ | CbStreamClose _ _ _ _ => false
  | _ => true
  end.

Lemma on_stream_spec br z f b' a :
  Callbacks.on_stream (S:=S) (C:=C) (Some br) z f = (b', a) →
  (∃ br', b' = Some br' ∧ a_vectors a = [] ∧
     ((br' = br ∧ ¬ 0 ≤ z < 2 ^ 62) ∨ br' = f z br)).
Proof.
  unfold Callbacks.on_stream. destruct (H3Stream.new z) as [s|] eqn:E; intros [= <- <-].
  - apply new_exact in E as [-> _]. eauto 6.
  - exists br. split_and!; try done. left. split; [done|]. intros Hz.
    by rewrite (proj2 (new_exact z z) (conj eq_refl Hz)) in E.
Qed.

Lemma with_handler_bodies {F} (h : option F) f br :
  b_bodies (Callbacks.with_handler (S:=S) (C:=C) h f br) = b_bodies br.
Proof. by destruct h. Qed.

Lemma on_stream_bodies br z f b' a :
  b_bodies (f z br) = b_bodies br →
  Callbacks.on_stream (S:=S) (C:=C) (Some br) z f = (b', a) →
  ∃ br', b' = Some br' ∧ b_bodies br' = b_bodies br ∧ a_vectors a = [].
Proof.
  intros Hf (br' & -> & Ha & Hbr)%on_stream_spec. exists br'. split; [done|].
  split; [|done]. by destruct Hbr as [[-> _]| ->].
Qed.

Lemma cb_plain br c b' a :
  plain c = true → cb (Some br) c = (b', a) →
  ∃ br', b' = Some br' ∧ b_bodies br' = b_bodies br ∧ a_vectors a = [].
Proof.
  destruct c; try done; intros _; cbn [Callbacks.callbacks].
  all: try (apply on_stream_bodies; rewrite ?with_handler_bodies; by repeat case_match).
  - unfold Callbacks.shutdown_cb. intros [= <- <-]. eexists. split; [done|].
    by rewrite with_handler_bodies.
  - unfold Callbacks.recv_settings_cb. destruct settings; intros [= <- <-]; eexists;
      split; try done; by rewrite ?with_handler_bodies.
Qed.

Lemma kept_unchanged r tr ev :
  acks_within (tr ++ [ev]) → a_vectors ev.2 = [] → buffers_kept r tr →
  buffers_kept r (tr ++ [ev]).
Proof. intros Ha Hv Hk s. by apply kept_event. Qed.

Lemma offsets_shrink_refl r : offsets_shrink r r.
Proof. intros s. by left. Qed.
#[local] Hint Resolve offsets_shrink_refl kept_unchanged : ngnet.

Lemma read_cb_kept br z n b' a :
  Callbacks.read_data_cb (C:=C) (Some br) z n = (b', a) →
  ∃ br', b' = Some br' ∧ offsets_shrink (b_bodies br) (b_bodies br') ∧
    ∀ tr, acks_within (tr ++ [(CbReadData z n, a)]) → buffers_kept (b_bodies br) tr →
      buffers_kept (b_bodies br') (tr ++ [(CbReadData z n, a)]).
Proof.
  unfold Callbacks.read_data_cb, Registry.entry_mut. intros Hcb.
  destruct (H3Stream.new z) as [s|] eqn:Hz.
  2: { simplify_eq. exists br. auto with ngnet. }
  apply new_exact in Hz as [-> _].
  destruct (H3Body.bodies (b_bodies br) !! z) as [e|] eqn:He.
  2: { simplify_eq. exists br. auto with ngnet. }
  destruct (Entry.read_data (b_time br, b_context br) n e) as [[[t1 c1] e1] an] eqn:Hr.
  injection Hcb as <- <-. eexists. split; [done|]. split; [intros s; by left|].
  intros tr Ha Hk s. cbn [b_bodies Registry.set_entry H3Body.bodies].
  rewrite in_use_snoc. unfold use_step. cbn [fst snd].
  destruct (decide (z = s)) as [<-|Hne].
  - rewrite lookup_insert_eq. pose proof (Hk z) as Hz. rewrite He in Hz.
    replace (a_vectors _) with (vectors_of an) by by destruct an.
    by eapply kept_read.
  - rewrite lookup_insert_ne by done. apply Hk.
Qed.

Lemma acked_cb_kept br z n b' a :
  Callbacks.acked_stream_data_cb (C:=C) (Some br) z n = (b', a) →
  ∃ br', b' = Some br' ∧ offsets_shrink (b_bodies br) (b_bodies br') ∧
    ∀ tr, acks_within (tr ++ [(CbAckedStreamData z n, a)]) → buffers_kept (b_bodies br) tr →
      buffers_kept (b_bodies br') (tr ++ [(CbAckedStreamData z n, a)]).
Proof.
  intros (br' & -> & Hv & Hbr)%on_stream_spec. exists br'. split; [done|].
  destruct Hbr as [[-> _]| ->]; [auto with ngnet|].
  unfold Registry.entry_mut.
  destruct (H3Body.bodies (b_bodies br) !! z) as [e|] eqn:He; [|auto with ngnet].
  cbn [Callbacks.set_bodies b_bodies]. split; [intros s; by left|].
  intros tr Ha Hk s. cbn [Registry.set_entry H3Body.bodies].
  destruct (decide (z = s)) as [<-|Hne].
  - rewrite lookup_insert_eq, in_use_snoc. unfold use_step. cbn [fst snd].
    rewrite decide_True by done. destruct Ha as [Hp _].
    apply Forall_app in Hp as [_ Hn]. apply Forall_cons in Hn as [Hn _].
    apply kept_ack; [done|]. pose proof (Hk z) as Hz. by rewrite He in Hz.
  - rewrite lookup_insert_ne by done. by apply kept_event.
Qed.

Lemma close_cb_kept br f z rx tx b' a :
  Callbacks.stream_close_cb hs (Some br) f z rx tx = (b', a) →
  ∃ br', b' = Some br' ∧ offsets_shrink (b_bodies br) (b_bodies br') ∧
    ∀ tr, acks_within (tr ++ [(CbStreamClose f z rx tx, a)]) → buffers_kept (b_bodies br) tr →
      buffers_kept (b_bodies br') (tr ++ [(CbStreamClose f z rx tx, a)]).
Proof.
  intros (br' & -> & Hv & Hbr)%on_stream_spec. exists br'. split; [done|].
  destruct Hbr as [[-> _]| ->]; [auto with ngnet|].
  rewrite with_handler_bodies. cbn [Callbacks.set_deliveries Callbacks.set_bodies b_bodies].
  split; [intros s|intros tr Ha Hk s]; cbn [Registry.forget H3Body.bodies H3Body.offsets];
    destruct (decide (z = s)) as [<-|Hne].
  - right. apply lookup_delete_eq.
  - left. by rewrite lookup_delete_ne.
  - rewrite lookup_delete_eq, in_use_snoc. unfold use_step. cbn [fst snd].
    by rewrite decide_True.
  - rewrite lookup_delete_ne by done. by apply kept_event.
Qed.

(** One callback with the bridge installed. *)
Lemma cb_step br c b' a :
  cb (Some br) c = (b', a) →
  ∃ br', b' = Some br' ∧ offsets_shrink (b_bodies br) (b_bodies br') ∧
    ∀ tr, acks_within (tr ++ [(c, a)]) → buffers_kept (b_bodies br) tr →
      buffers_kept (b_bodies br') (tr ++ [(c, a)]).
Proof.
  intros Hcb. destruct (plain c) eqn:Hp.
  - destruct (cb_plain _ _ _ _ Hp Hcb) as (br' & -> & Hb & Hv). exists br'. rewrite Hb.
    split; [done|]. split; [by intros s; left|]. intros tr Ha Hk. by apply kept_unchanged.
  - destruct c; try done; cbn [Callbacks.callbacks] in Hcb.
    + by apply (acked_cb_kept br stream_id datalen).
    + by apply (close_cb_kept br flags stream_id rx_app_error_code tx_app_error_code).
    + by apply (read_cb_kept br stream_id veccnt).
Qed.

Lemma offsets_shrink_trans r1 r2 r3 :
  offsets_shrink r1 r2 → offsets_shrink r2 r3 → offsets_shrink r1 r3.
Proof.
  intros H1 H2 s. destruct (H2 s) as [->|]; [|by right]. apply H1.
Qed.

(** A whole call's callbacks, with the bridge installed and without. *)
Lemma runs_bridged br tr b' :
  runs cb (Some br) tr b' →
  ∃ br', b' = Some br' ∧ offsets_shrink (b_bodies br) (b_bodies br') ∧
    ∀ tr0, acks_within (tr0 ++ tr) → buffers_kept (b_bodies br) tr0 →
      buffers_kept (b_bodies br') (tr0 ++ tr).
Proof.
  induction 1 as [|tr b1 c b2 a Hr (br1 & -> & Hs & IH) Hcb].
  - exists br. split; [done|]. split; [by intros s; left|]. intros tr0. by rewrite app_nil_r.
  - destruct (cb_step br1 c b2 a Hcb) as (br2 & -> & Hs2 & Hk2). exists br2.
    split; [done|]. split; [by eapply offsets_shrink_trans|].
    intros tr0. rewrite (assoc_L (++)). intros Hac Hk. apply Hk2; [done|].
    apply IH; [|done]. by eapply acks_within_prefix.
Qed.

Lemma runs_absent tr b' :
  runs cb None tr b' →
  b' = None ∧ ∀ r tr0, acks_within (tr0 ++ tr) → buffers_kept r tr0 → buffers_kept r (tr0 ++ tr).
Proof.
  induction 1 as [|tr b1 c b2 a Hr [-> IH] Hcb].
  - split; [done|]. intros r tr0. by rewrite app_nil_r.
  - destruct (cb_absent c) as (a' & Ha & Hv). rewrite Hcb in Ha. simplify_eq.
    split; [done|]. intros r tr0. rewrite (assoc_L (++)). intros Hac Hk.
    apply kept_unchanged; [done|done|]. apply IH; [|done]. by eapply acks_within_prefix.
Qed.
End Buffers.

(** ** The invariant of the public operations *)

Section Invariant.
Context `{Recorded} {S C : Type} `{!BodySource S C}.
Abbreviation Conn := (H3Conn.Conn nghttp3_conn S C).
Abbreviation St := (ConnOps.St (S:=S) (C:=C)).
Implicit Types (c : Conn) (s : St).

Definition log c : list call := calls_of (raw c).

(** The connection's own fields are what the calls it made established. *)
Record linked c (g : ghost) : Prop := {
  lk_control : control c = g_control g;
  lk_qpack : qpack c = g_qpack g;
  lk_last : ∀ t, g_last g = Some t → ∃ t', last_timestamp c = Some t' ∧ t ≤ t';
  lk_max : g_max g ≤ max_client_streams_bidi c;
  lk_shutdown : shutdown_started c = g_shutdown g
}.

(** What a stream may still be acknowledged is what was written and not acknowledged. *)
Definition offsets_ok (r : BodyRegistry S) (g : ghost) : Prop :=
  ∀ x, let o := default offsets_default (H3Body.offsets r !! x) in
    0 ≤ acked o ≤ committed o ∧ committed o ≤ U64_MAX ∧
    committed o - acked o ≤ g_written g x - g_acked g x.

Definition kept c : Prop :=
  poison c = None → acks_within (trace_of (log c)) →
  buffers_kept (bodies c) (trace_of (log c)).

Record Inv s : Prop := {
  inv_log : log_ok (role s.1) (log s.1);
  inv_linked : linked s.1 (ghost_of (log s.1));
  inv_dead : is_Some (poison s.1) ↔ g_dead (ghost_of (log s.1)) = true;
  inv_offsets : offsets_ok (bodies s.1) (ghost_of (log s.1));
  inv_kept : kept s.1
}.

(** An error says it is fatal exactly when the connection is of no further use. *)
Definition honest (e : Error) s : Prop := H3Error.is_fatal e = negb (ConnOps.is_usable s.1).

Definition triple {A} (P : St → Prop) (m : ConnOps.M A) (Q : A → St → Prop) : Prop :=
  ∀ s s' r, P s → m s = (s', r) →
    match r with Ok a => Q a s' | Err e => Inv s' ∧ honest e s' end.

Definition ready s : Prop := Inv s ∧ poison s.1 = None.

Lemma triple_bind {A B} P Q R (m : ConnOps.M A) (k : A → ConnOps.M B) :
  triple P m Q → (∀ a, triple (Q a) (k a) R) → triple P (ConnOps.bind m k) R.
Proof.
  intros Hm Hk s s' r Hp. unfold ConnOps.bind.
  destruct (m s) as [s1 [a|e]] eqn:E; specialize (Hm _ _ _ Hp E).
  - intros Hr. by apply (Hk a s1).
  - by intros [= <- <-].
Qed.

Lemma triple_pre {A} (P P' : St → Prop) (m : ConnOps.M A) Q :
  (∀ s, P s → P' s) → triple P' m Q → triple P m Q.
Proof. intros Hp Hm s s' r Hs. by apply Hm, Hp. Qed.

Lemma triple_post {A} P (m : ConnOps.M A) (Q Q' : A → St → Prop) :
  triple P m Q' → (∀ a s, Q' a s → Q a s) → triple P m Q.
Proof.
  intros Hm Hq s s' r Hp E. specialize (Hm _ _ _ Hp E). destruct r; [by apply Hq|done].
Qed.

Lemma triple_ret {A} (P : St → Prop) (a : A) : triple P (ConnOps.ret a) (λ _, P).
Proof. by intros s s' r Hp [= <- <-]. Qed.

Lemma honest_invalid ctx s : poison s.1 = None → honest (H3Error.invalid_input ctx) s.
Proof. intros Hp. unfold honest, ConnOps.is_usable. by rewrite Hp. Qed.

Lemma triple_check_usable : triple Inv ConnOps.check_usable (λ _, ready).
Proof.
  intros s s' r Hi. unfold ConnOps.check_usable.
  destruct (poison s.1) eqn:E; intros [= <- <-]; [|by split]. split; [done|].
  unfold honest, ConnOps.is_usable. by rewrite E.
Qed.

Lemma triple_require P cond ctx :
  (∀ s, P s → ready s) → triple P (ConnOps.require cond ctx) (λ _ s, P s ∧ cond s.1 = true).
Proof.
  intros Hp s s' r Hs. unfold ConnOps.require.
  destruct (cond s.1) eqn:E; intros [= <- <-]; [done|].
  destruct (Hp s Hs). split; [done|]. by apply honest_invalid.
Qed.

Lemma triple_invalid {A} P ctx (Q : A → St → Prop) :
  (∀ s, P s → ready s) → triple P (ConnOps.invalid ctx) Q.
Proof.
  intros Hp s s' r Hs [= <- <-]. destruct (Hp s Hs). split; [done|]. by apply honest_invalid.
Qed.

Lemma triple_gets {A} P (f : Conn → A) : triple P (ConnOps.gets f) (λ a s, P s ∧ f s.1 = a).
Proof. by intros s s' r Hp [= <- <-]. Qed.

(** *** Around a native call *)

(** A response that is not a success; what a call establishes depends on its response only
    through its success. *)
Definition failing : response := mkResponse 1 0 0 [].

Definition failed (g : ghost) (rq : request) : ghost := ghost_step g (mkCall rq [] failing).

(** Ready to make the call [rq]. *)
Record poised (rq : request) s : Prop := {
  po_log : log_ok (role s.1) (log s.1);
  po_permitted : permitted (role s.1) (ghost_of (log s.1)) rq;
  po_poison : poison s.1 = None;
  po_kept : kept s.1;
  po_linked : linked s.1 (failed (ghost_of (log s.1)) rq);
  po_offsets : offsets_ok (bodies s.1) (failed (ghost_of (log s.1)) rq)
}.

(** The call [rq] was just answered with [r]. *)
Record called (rq : request) (r : response) s (cs : list call) (tr : trace) : Prop := {
  ca_calls : log s.1 = cs ++ [mkCall rq tr r];
  ca_log : log_ok (role s.1) (log s.1);
  ca_dead : g_dead (ghost_of cs) = false;
  ca_poison : poison s.1 = None;
  ca_kept : kept s.1;
  ca_linked : linked s.1 (failed (ghost_of cs) rq);
  ca_offsets : offsets_ok (bodies s.1) (failed (ghost_of cs) rq)
}.

Lemma ghost_of_snoc cs k : ghost_of (cs ++ [k]) = ghost_step (ghost_of cs) k.
Proof. unfold ghost_of. by rewrite foldl_app. Qed.

Lemma trace_of_snoc cs k : trace_of (cs ++ [k]) = trace_of cs ++ c_trace k.
Proof. unfold trace_of. rewrite fmap_app, concat_app. simpl. by rewrite app_nil_r. Qed.

Lemma log_ok_snoc role cs k :
  log_ok role cs → permitted role (ghost_of cs) (c_request k) → log_ok role (cs ++ [k]).
Proof.
  intros Hok Hk cs1 k1 cs2 E.
  destruct cs2 as [|k2 cs2 _] using rev_ind.
  - apply app_inj_tail in E as [<- <-]. done.
  - rewrite app_comm_cons, (assoc_L (++)) in E. apply app_inj_tail in E as [-> _].
    by eapply Hok.
Qed.

Lemma offsets_ok_shrink r r' g : offsets_ok r g → offsets_shrink r r' → offsets_ok r' g.
Proof.
  intros Ho Hs x. specialize (Ho x). destruct (Hs x) as [->|E]; [done|].
  rewrite E. simpl in *. lia.
Qed.

Lemma native_spec rq :
  triple (poised rq) (ConnOps.native rq) (λ r s, ∃ cs tr, called rq r s cs tr).
Proof.
  intros [c u] s' r [Hlog Hperm Hpo Hkept Hlk Hoff]. unfold ConnOps.native.
  destruct (nghttp3_call _ _ _ _ _) as [[raw' b] r'] eqn:E. intros [= <- <-].
  apply calls_of_call in E as (tr & Hcs & Hrun).
  apply runs_absent in Hrun as [_ Hk]. cbn [fst] in *.
  exists (log c), tr. split; cbn [fst]; unfold log in *; cbn [ConnOps.set_raw raw]; try done.
  - rewrite Hcs. by apply log_ok_snoc.
  - apply Hperm.
  - intros _ Ha. unfold log in Ha |- *. cbn [ConnOps.set_raw raw bodies] in *. rewrite Hcs in Ha |- *.
    rewrite trace_of_snoc in Ha |- *. apply Hk; [done|].
    apply Hkept; [done|]. by eapply acks_within_prefix.
  - destruct Hlk. by split.
Qed.

Lemma with_context_spec rq :
  triple (poised rq) (ConnOps.with_context rq) (λ r s, ∃ cs tr, called rq r s cs tr).
Proof.
  intros [c u] s' r [Hlog Hperm Hpo Hkept Hlk Hoff]. unfold ConnOps.with_context.
  destruct (nghttp3_call _ _ _ _ _) as [[raw' b] r'] eqn:E. intros [= <- <-].
  apply calls_of_call in E as (tr & Hcs & Hrun).
  apply runs_bridged in Hrun as (br & -> & Hshrink & Hk). cbn [fst default] in *.
  exists (log c), tr. split; cbn [fst]; unfold log in *; cbn [raw]; try done.
  - rewrite Hcs. by apply log_ok_snoc.
  - apply Hperm.
  - intros _ Ha. unfold log in Ha |- *. cbn [raw bodies] in *. rewrite Hcs in Ha |- *.
    rewrite trace_of_snoc in Ha |- *. apply Hk; [done|].
    apply Hkept; [done|]. by eapply acks_within_prefix.
  - destruct Hlk. by split.
  - by eapply offsets_ok_shrink.
Qed.

(** The connection as it is, once what the call established is on its fields. *)
Lemma settled rq r s cs tr :
  called rq r s cs tr → kills rq (rs_rv r) = false →
  ∀ f, raw (f s.1) = raw s.1 → role (f s.1) = role s.1 → poison (f s.1) = poison s.1 →
    H3Body.bodies (bodies (f s.1)) = H3Body.bodies (bodies s.1) →
    linked (f s.1) (ghost_step (ghost_of cs) (mkCall rq tr r)) →
    offsets_ok (bodies (f s.1)) (ghost_step (ghost_of cs) (mkCall rq tr r)) →
    Inv (f s.1, s.2).
Proof.
  intros [Hcs Hlog Hdead Hpo Hkept Hlk Hoff] Hk f Hraw Hrole Hpf Hb Hl Ho.
  split; cbn [fst]; unfold log, kept, buffers_kept in *; rewrite ?Hraw, ?Hrole, ?Hpf, ?Hb, ?Hpo.
  - done.
  - unfold log in Hcs. by rewrite Hcs, ghost_of_snoc.
  - unfold log in Hcs. rewrite Hcs, ghost_of_snoc. simpl. rewrite Hdead, Hk. simpl.
    split; [by intros []|done].
  - unfold log in Hcs. by rewrite Hcs, ghost_of_snoc.
  - unfold log. rewrite Hraw. auto.
Qed.

Lemma linked_failed c g rq tr r :
  (rs_rv r =? 0) = false → linked c (failed g rq) → linked c (ghost_step g (mkCall rq tr r)).
Proof. intros E []. split; simpl in *; rewrite ?E in *; by destruct rq. Qed.

Lemma offsets_failed b g rq tr r :
  (rs_rv r =? 0) = false → offsets_ok b (failed g rq) → offsets_ok b (ghost_step g (mkCall rq tr r)).
Proof.
  intros E Ho x. specialize (Ho x). simpl in *. rewrite E. by destruct rq.
Qed.

Lemma classify_usable rv : H3Error.classify rv ≠ ConnectionUnusable.
Proof. unfold H3Error.classify. by repeat case_match. Qed.

Lemma native_is_fatal rv ctx : H3Error.is_fatal (H3Error.native rv ctx) = nghttp3_err_is_fatal rv.
Proof.
  unfold H3Error.is_fatal, H3Error.native. simpl.
  by rewrite bool_decide_eq_false_2 by apply classify_usable.
Qed.

Lemma record_spec {A} rq r s cs tr rv ctx path s' (res : Result A) :
  called rq r s cs tr → (rs_rv r =? 0) = false →
  kills rq (rs_rv r) = path || nghttp3_err_is_fatal rv →
  ConnOps.record rv ctx path s = (s', res) →
  match res with Ok _ => False | Err e => Inv s' ∧ honest e s' end.
Proof.
  intros Hca Hne Hk. destruct s as [c u]. unfold ConnOps.record. rewrite native_is_fatal, <-Hk.
  destruct (kills rq (rs_rv r)) eqn:E; intros [= <- <-].
  - destruct Hca as [Hcs Hlog Hdead Hpo Hkept Hlk Hoff]. cbn [fst] in *. split.
    + split; cbn [fst]; unfold log, kept in *; simpl; try done.
      * rewrite Hcs, ghost_of_snoc. apply linked_failed; [done|]. by destruct Hlk.
      * rewrite Hcs, ghost_of_snoc. simpl. rewrite E, orb_true_r. split; [done|eauto].
      * rewrite Hcs, ghost_of_snoc. apply offsets_failed; [done|].
        eapply offsets_ok_shrink; [done|]. intros x. by right.
    + done.
  - split.
    + apply (settled _ _ _ _ _ Hca E (λ c, c)); try done.
      * apply linked_failed; [done|]. apply Hca.
      * apply offsets_failed; [done|]. apply Hca.
    + unfold honest, ConnOps.is_usable. cbn [fst].
      rewrite native_is_fatal. pose proof (ca_poison _ _ _ _ _ Hca) as Hpo. cbn [fst] in Hpo.
      rewrite Hpo. simpl. symmetry in Hk. by apply orb_false_iff in Hk as [_ ?].
Qed.

(** *** The shapes the operations share *)

(** Requests that establish nothing unless they succeed with 0, and then only in
    connection fields the operation sets afterwards. *)
Definition unremarkable (rq : request) : Prop :=
  match rq with
  | ReqReadStream _ _ _ _ | ReqSetMaxClientStreamsBidi _ | ReqAddAckOffset _ _ => False
  | _ => True
  end.

Definition neutral (rq : request) : Prop :=
  match rq with
  | ReqBindControlStream _ | ReqBindQpackStreams _ _ | ReqShutdown | ReqAddWriteOffset _ _ =>
      False
  | _ => True
  end.

(** Requests whose non-zero answers are failures. *)
Definition checkable (rq : request) : Prop :=
  ∀ rv, kills rq rv = negb (rv =? 0) && nghttp3_err_is_fatal rv.

Lemma ready_poised s rq :
  ready s → permitted (role s.1) (ghost_of (log s.1)) rq → unremarkable rq → poised rq s.
Proof.
  intros [[Hlog Hlk Hdead Hoff Hkept] Hpo] Hperm Hun. split; try done.
  - destruct Hlk. split; simpl; by destruct rq.
  - intros x. specialize (Hoff x). simpl in *. by destruct rq.
Qed.

Lemma called_linked rq r s cs tr :
  called rq r s cs tr → neutral rq → linked s.1 (ghost_step (ghost_of cs) (mkCall rq tr r)).
Proof. intros [_ _ _ _ _ [] _] Hn. split; simpl in *; by destruct rq. Qed.

Lemma called_offsets rq r s cs tr :
  called rq r s cs tr → neutral rq →
  offsets_ok (bodies s.1) (ghost_step (ghost_of cs) (mkCall rq tr r)).
Proof.
  intros [_ _ _ _ _ _ Ho] Hn x. specialize (Ho x). simpl in *. by destruct rq.
Qed.

Lemma called_inv rq r s cs tr :
  called rq r s cs tr → neutral rq → kills rq (rs_rv r) = false → Inv s.
Proof.
  intros Hc Hn Hk. destruct s as [c u].
  apply (settled _ _ _ _ _ Hc Hk (λ c, c)); try done;
    [by eapply called_linked in Hc|by eapply called_offsets in Hc].
Qed.

Definition was_called (rq : request) (r : response) s : Prop := ∃ cs tr, called rq r s cs tr.

Lemma checked_spec rq r ctx :
  checkable rq →
  triple (was_called rq r) (ConnOps.checked ctx r) (λ _ s, was_called rq r s ∧ rs_rv r = 0).
Proof.
  intros Hch s s' res (cs & tr & Hc). unfold ConnOps.checked.
  destruct (rs_rv r =? 0) eqn:E.
  - intros [= <- <-]. apply Z.eqb_eq in E. split; [|done]. by exists cs, tr.
  - intros Hr. eapply record_spec in Hr; [|done|done|by rewrite Hch, E].
    by destruct res.
Qed.

(** A native call checked for 0, with nothing to set afterwards. *)
Lemma checked_call P (call : ConnOps.M response) rq ctx :
  triple (poised rq) call (λ r s, ∃ cs tr, called rq r s cs tr) →
  (∀ s, P s → poised rq s) → checkable rq → neutral rq →
  triple P (ConnOps.bind call (λ r, ConnOps.checked ctx r)) (λ _, Inv).
Proof.
  intros Hcall HP Hch Hn. eapply triple_bind; [by eapply triple_pre|].
  intros r. eapply triple_post; [by eapply (checked_spec rq)|].
  intros _ s [(cs & tr & Hc) Hz]. eapply called_inv; [done..|]. by rewrite Hch, Hz.
Qed.

(** A native call whose answer is not an error. *)
Lemma plain_call {A} P rq (k : response → A) :
  (∀ s, P s → poised rq s) → (∀ rv, kills rq rv = false) → neutral rq →
  triple P (ConnOps.bind (ConnOps.native rq) (λ r, ConnOps.ret (k r))) (λ _, Inv).
Proof.
  intros HP Hk Hn. eapply triple_bind; [eapply triple_pre; [done|apply native_spec]|].
  intros r. eapply triple_pre; [|apply triple_ret].
  intros s (cs & tr & Hc). by eapply called_inv.
Qed.

(** A native call checked for 0 whose success is then recorded on a field. *)
Lemma recorded_call P rq ctx f :
  (∀ s, P s → poised rq s) → checkable rq →
  (∀ c, raw (f c) = raw c ∧ role (f c) = role c ∧ poison (f c) = poison c ∧
        bodies (f c) = bodies c) →
  (∀ c g tr r, rs_rv r = 0 → linked c (failed g rq) →
     linked (f c) (ghost_step g (mkCall rq tr r))) →
  (∀ b g tr r, offsets_ok b (failed g rq) → offsets_ok b (ghost_step g (mkCall rq tr r))) →
  triple P
    (ConnOps.bind (ConnOps.native rq) (λ r,
       ConnOps.bind (ConnOps.checked ctx r) (λ _, ConnOps.modify f)))
    (λ _, Inv).
Proof.
  intros HP Hch Hf Hl Ho. eapply triple_bind; [eapply triple_pre; [done|apply native_spec]|].
  intros r. eapply triple_bind; [by eapply (checked_spec rq)|].
  intros _ s s' res [(cs & tr & Hc) Hz] [= <- <-].
  destruct (Hf s.1) as (H1 & H2 & H3 & H4).
  eapply settled; [done|by rewrite Hch, Hz|done|done|done|by rewrite H4| |].
  - apply Hl; [done|]. apply Hc.
  - rewrite H4. apply Ho, Hc.
Qed.

Lemma failed_offsets_neutral rq b g tr r :
  match rq with ReqAddWriteOffset _ _ => False | _ => True end →
  offsets_ok b (failed g rq) → offsets_ok b (ghost_step g (mkCall rq tr r)).
Proof. intros Hrq Ho x. specialize (Ho x). simpl in *. by destruct rq. Qed.

Lemma triple_require_bound P :
  (∀ s, P s → ready s) →
  triple P ConnOps.require_bound (λ _ s, P s ∧ is_Some (control s.1) ∧ is_Some (qpack s.1)).
Proof.
  intros HP. unfold ConnOps.require_bound. eapply triple_bind; [by apply triple_require|].
  intros []. eapply triple_post; [apply triple_require; by intros s [? _]; apply HP|].
  intros _ s [[? H1] H2]. apply bool_decide_eq_true in H1, H2. done.
Qed.

Lemma bound_linked s : ready s → is_Some (control s.1) ∧ is_Some (qpack s.1) →
  bound (ghost_of (log s.1)).
Proof. intros [I _]. destruct (inv_linked _ I) as [Hc Hq _ _ _]. by rewrite Hc, Hq. Qed.

Lemma ready_alive s : ready s → g_dead (ghost_of (log s.1)) = false.
Proof.
  intros [I Hp]. pose proof (inv_dead _ I) as Hd. rewrite Hp in Hd.
  destruct (g_dead _); [|done]. by destruct (proj2 Hd eq_refl).
Qed.

(** *** Operation by operation *)

Ltac op_check :=
  eapply triple_bind;
  [first [apply triple_check_usable
         |apply triple_require; intros; tauto
         |apply triple_require_bound; intros; tauto
         |apply triple_gets]
  |intros ?; cbv beta].

Ltac alive := first [by apply ready_alive; tauto | done].

(** The premise of a call: [ready], and the conditions the checks left in [Hs]. *)
Ltac poise :=
  let s := fresh "s" in let Hs := fresh "Hs" in
  intros s Hs; cbv beta in Hs; apply ready_poised; [tauto|split; [alive|]|done].

Lemma block_spec x : triple Inv (ConnOps.block_stream x) (λ _, Inv).
Proof. op_check. apply plain_call; [poise; done|done|done]. Qed.

Lemma unblock_spec x : triple Inv (ConnOps.unblock_stream x) (λ _, Inv).
Proof. op_check. eapply checked_call; [apply native_spec|poise; done|done|done]. Qed.

Lemma resume_spec x : triple Inv (ConnOps.resume_stream x) (λ _, Inv).
Proof. op_check. eapply checked_call; [apply native_spec|poise; done|done|done]. Qed.

Lemma is_writable_spec x : triple Inv (ConnOps.is_stream_writable x) (λ _, Inv).
Proof. op_check. apply plain_call; [poise; done|done|done]. Qed.

Lemma shutdown_read_spec x : triple Inv (ConnOps.shutdown_stream_read x) (λ _, Inv).
Proof. op_check. eapply checked_call; [apply native_spec|poise; done|done|done]. Qed.

Lemma shutdown_write_spec x : triple Inv (ConnOps.shutdown_stream_write x) (λ _, Inv).
Proof. op_check. apply plain_call; [poise; done|done|done]. Qed.

Lemma set_concurrent_spec n : triple Inv (ConnOps.set_max_concurrent_streams n) (λ _, Inv).
Proof. op_check. apply plain_call; [poise; done|done|done]. Qed.

Lemma is_drained_spec : triple Inv ConnOps.is_drained (λ _, Inv).
Proof.
  do 2 op_check. apply plain_call; [poise|done|done].
  by destruct Hs as [_ Hr%bool_decide_eq_true].
Qed.

Lemma close_spec x closed : triple Inv (ConnOps.close_stream_with x closed) (λ _, Inv).
Proof. op_check. eapply checked_call; [apply with_context_spec|poise; done|done|done]. Qed.

Lemma submit_trailers_spec x fields : triple Inv (ConnOps.submit_trailers x fields) (λ _, Inv).
Proof.
  do 3 op_check. eapply checked_call; [apply native_spec|poise|done|done].
  destruct Hs as [[Hr Hx] Hb]. split; [done|]. by apply bound_linked.
Qed.

Lemma submit_info_spec x fields : triple Inv (ConnOps.submit_info x fields) (λ _, Inv).
Proof.
  do 4 op_check. eapply checked_call; [apply native_spec|poise|done|done].
  destruct Hs as [[[Hr Hx%bool_decide_eq_true] Hy] Hb]. split_and!; [done|done|..];
    by apply bound_linked.
Qed.

Lemma require_control_bound_spec P :
  (∀ s, P s → ready s) →
  triple P ConnOps.require_control_bound (λ _ s, P s ∧ is_Some (g_control (ghost_of (log s.1)))).
Proof.
  intros HP. eapply triple_post; [by apply triple_require|].
  intros [] s [Hp Hb%bool_decide_eq_true]. split; [done|].
  destruct (HP s Hp) as [I _]. by rewrite <-(lk_control _ _ (inv_linked _ I)).
Qed.

Lemma ready_shutdown s : ready s → shutdown_started s.1 = g_shutdown (ghost_of (log s.1)).
Proof. intros [I _]. apply I. Qed.

Lemma notice_spec : triple Inv ConnOps.submit_shutdown_notice (λ _, Inv).
Proof.
  op_check. eapply triple_bind; [apply require_control_bound_spec; tauto|intros []].
  op_check. eapply checked_call; [apply native_spec|poise|done|done].
  destruct Hs as [[Hr Hc] Hn%negb_true_iff]. split; [done|]. by rewrite <-ready_shutdown.
Qed.

Lemma shutdown_spec : triple Inv ConnOps.shutdown (λ _, Inv).
Proof.
  op_check. eapply triple_bind; [apply require_control_bound_spec; tauto|intros []].
  op_check. apply recorded_call.
  - poise. destruct Hs as [[Hr Hc] Hn%negb_true_iff]. split; [done|].
    by rewrite <-ready_shutdown.
  - done.
  - done.
  - intros c g tr r Hz []. split; simpl in *; rewrite ?Hz; done.
  - intros b g tr r. by apply failed_offsets_neutral.
Qed.

Lemma in_use_linked x s :
  ready s → negb (ConnOps.in_use x s.1) = true →
  g_control (ghost_of (log s.1)) ≠ Some x ∧
  ∀ e d, g_qpack (ghost_of (log s.1)) = Some (e, d) → e ≠ x ∧ d ≠ x.
Proof.
  intros [I _] Hu%negb_true_iff. destruct (inv_linked _ I) as [<- <- _ _ _].
  apply orb_false_iff in Hu as [H1%bool_decide_eq_false H2]. split; [done|].
  intros e d E. rewrite E in H2.
  by apply orb_false_iff in H2 as [?%bool_decide_eq_false ?%bool_decide_eq_false].
Qed.

Lemma bind_control_spec x : triple Inv (ConnOps.bind_control_stream x) (λ _, Inv).
Proof.
  do 3 op_check. destruct a1 as [existing|].
  - case_decide; apply triple_invalid; tauto.
  - op_check. apply recorded_call.
    + poise. destruct Hs as [[[Hr Hx] Hn] Hu].
      destruct (in_use_linked x s Hr Hu) as [_ Hq]. split_and!; [done| |done].
      by rewrite <-(lk_control _ _ (inv_linked _ (proj1 Hr))).
    + done.
    + done.
    + intros c g tr r Hz []. split; simpl in *; rewrite ?Hz; done.
    + intros b g tr r. by apply failed_offsets_neutral.
Qed.

Lemma bind_qpack_spec e d : triple Inv (ConnOps.bind_qpack_streams e d) (λ _, Inv).
Proof.
  do 7 op_check. apply recorded_call.
  - poise. destruct Hs as [[[[[[Hr He] Hd] Hne] Hq] Hue] Hud].
    apply negb_true_iff, bool_decide_eq_false in Hne, Hq.
    destruct (in_use_linked e s Hr Hue) as [Hce _].
    destruct (in_use_linked d s Hr Hud) as [Hcd _]. split_and!; try done.
    rewrite <-(lk_qpack _ _ (inv_linked _ (proj1 Hr))). by apply eq_None_not_Some.
  - done.
  - done.
  - intros c g tr r Hz []. split; simpl in *; rewrite ?Hz; done.
  - intros b g tr r. by apply failed_offsets_neutral.
Qed.

Lemma take_credit_inv s :
  Inv s → Inv (ConnOps.set_deliveries (Deliveries.take_credit (deliveries s.1)).1 s.1, s.2).
Proof. intros [? [] ? ? ?]. by split. Qed.

Lemma set_max_spec n : triple Inv (ConnOps.set_max_client_streams_bidi n) (λ _, Inv).
Proof.
  do 3 op_check.
  apply (triple_bind _ (λ _, poised (ReqSetMaxClientStreamsBidi n))).
  - intros s s' r [[Hr Hrole%bool_decide_eq_true] Hn] [= <- <-].
    apply negb_true_iff, Z.ltb_ge in Hn.
    pose proof (ready_alive s Hr) as Hal. destruct Hr as [[Hlog Hlk Hd Ho Hk] Hpo].
    split; try done; cbn [fst].
    + split; [done|]. split; [done|]. destruct Hlk. simpl. unfold log in *. simpl. lia.
    + destruct Hlk. split; simpl; try done.
  - intros []. by apply plain_call.
Qed.

Lemma peer_readable_spec x c :
  ConnOps.is_peer_readable x c = true →
  H3Stream.is_client_bidirectional x = true ∨
  H3Stream.directionality x = Unidirectional ∧ H3Stream.initiator x ≠ role_initiator (role c).
Proof.
  unfold ConnOps.is_peer_readable.
  destruct (H3Stream.is_client_bidirectional x); [by left|right].
  by destruct (role c), (H3Stream.initiator x), (H3Stream.directionality x).
Qed.

Lemma read_spec x src fin now : triple Inv (ConnOps.read_stream x src fin now) (λ _, Inv).
Proof.
  do 3 op_check.
  apply (triple_bind _ (λ _, poised (ReqReadStream x src fin now))).
  - intros s s' r [[Hr Hx] Hlast] [= <- <-].
    pose proof (ready_alive s Hr) as Hal. destruct Hr as [[Hlog Hlk Hd Ho Hk] Hpo].
    assert (Hle : ∀ t, g_last (ghost_of (log s.1)) = Some t → t ≤ now).
    { intros t (t' & E & Ht)%(lk_last _ _ Hlk). rewrite E in Hlast.
      apply negb_true_iff, Z.ltb_ge in Hlast. lia. }
    split; try done; cbn [fst].
    + split; [done|]. split; [|done]. by apply peer_readable_spec.
    + destruct Hlk. split; simpl; try done. intros t [= <-]. by exists now.
  - intros []. eapply triple_bind; [apply with_context_spec|].
    intros r s s' res (cs & tr & Hc). destruct (Z.ltb_spec (rs_rv r) 0) as [Hneg|Hpos].
    + intros Hrec. eapply record_spec in Hrec; [|done|by apply Z.eqb_neq; lia|].
      * by destruct res.
      * simpl. by apply Z.ltb_lt.
    + intros [= <- <-]. eapply called_inv; [done..|]. by apply Z.ltb_ge.
Qed.

Lemma add_ack_spec x n : 0 ≤ n → triple Inv (ConnOps.add_ack_offset x n) (λ _, Inv).
Proof.
  intros Hn. op_check.
  apply (triple_bind _ (λ _, poised (ReqAddAckOffset x n))).
  - intros [c u] s' r Hr. pose proof (ready_alive _ Hr) as Hal.
    destruct Hr as [[Hlog Hlk Hd Ho Hk] Hpo]. cbn [fst] in *.
    unfold Registry.record_acked.
    assert (Hinv : Inv (c, u)) by by split.
    assert (Hsame : c = ConnOps.set_bodies (bodies c) c) by by destruct c.
    destruct (decide (n = 0)) as [->|Hnz].
    { intros [= <- <-]. cbn [fst snd]. rewrite <-Hsame. split; try done; cbn [fst].
      - split; [done|]. by left.
      - destruct Hlk. by split.
      - intros y. specialize (Ho y). simpl in *. unfold bump. case_decide; lia. }
    specialize (Ho x) as Hox.
    destruct (H3Body.offsets (bodies c) !! x) as [o|] eqn:Eo.
    2: { intros [= <- <-]. cbn [fst snd]. rewrite <-Hsame. split; [done|]. by apply honest_invalid. }
    simpl in Hox.
    destruct (checked_add (acked o) n) as [sum|] eqn:Ea.
    2: { intros [= <- <-]. cbn [fst snd]. rewrite <-Hsame. split; [done|]. by apply honest_invalid. }
    apply checked_add_Some in Ea as [-> _].
    destruct (Z.ltb_spec (committed o) (acked o + n)).
    { intros [= <- <-]. cbn [fst snd]. rewrite <-Hsame. split; [done|]. by apply honest_invalid. }
    intros [= <- <-]. cbn [fst snd]. split; cbn [fst]; try done.
    + split; [done|]. right. unfold log in *. simpl. lia.
    + destruct Hlk. by split.
    + intros y. specialize (Ho y). unfold log in *. simpl in *. unfold bump.
      destruct (decide (y = x)) as [->|].
      * rewrite lookup_insert_eq. simpl. lia.
      * by rewrite lookup_insert_ne.
  - intros []. eapply checked_call; [apply with_context_spec|done|done|done].
Qed.

(** A call made without a bridge leaves the registry alone, and whatever registry was
    enough before it is enough after it. *)
Lemma native_keeps rq s s' r :
  ConnOps.native rq s = (s', Ok r) →
  bodies s'.1 = bodies s.1 ∧
  ∀ b : BodyRegistry S, (acks_within (trace_of (log s.1)) → buffers_kept b (trace_of (log s.1))) →
    acks_within (trace_of (log s'.1)) → buffers_kept b (trace_of (log s'.1)).
Proof.
  destruct s as [c u]. unfold ConnOps.native.
  destruct (nghttp3_call _ _ _ _ _) as [[raw' b'] r'] eqn:E. intros [= <- <-].
  apply calls_of_call in E as (tr & Hcs & Hrun). apply runs_absent in Hrun as [_ Hk].
  split; [done|]. intros b Hb Ha. cbn [fst] in *. unfold log in *.
  cbn [ConnOps.set_raw raw] in *. rewrite Hcs, trace_of_snoc in *.
  apply Hk; [done|]. apply Hb. by eapply acks_within_prefix.
Qed.

(** The state with the registry it had before, after a call that failed. *)
Lemma called_detach rq r c u cs tr (b : BodyRegistry S) :
  called rq r (c, u) cs tr → H3Body.offsets b = H3Body.offsets (bodies c) →
  (acks_within (trace_of (log c)) → buffers_kept b (trace_of (log c))) →
  called rq r (ConnOps.set_bodies b c, u) cs tr.
Proof.
  intros [Hcs Hlog Hd Hp Hk Hl Ho] Hoff Hkb. split; try done; cbn [fst] in *.
  - by intros _.
  - destruct Hl. by split.
  - intros y. specialize (Ho y). simpl in *. by rewrite Hoff.
Qed.

Lemma submit_spec P x body (mk : bool → request) ctx :
  (∀ s, P s → ready s ∧ ∀ reader, permitted (role s.1) (ghost_of (log s.1)) (mk reader)) →
  (∀ reader, unremarkable (mk reader) ∧ neutral (mk reader) ∧ checkable (mk reader)) →
  triple P
    (ConnOps.bind (ConnOps.attach_body x body) (λ reader,
       ConnOps.bind (ConnOps.native (mk reader)) (λ r,
         if rs_rv r =? 0 then ConnOps.ret ()
         else ConnOps.bind (ConnOps.detach_attached x reader) (λ _,
                ConnOps.record (rs_rv r) ctx false))))
    (λ _, Inv).
Proof.
  intros HP Hmk [c u] s' res Hs. destruct (HP _ Hs) as [Hr Hperm]. clear HP Hs.
  (* What follows a call that was made with [reader], [b] being the registry to go back to. *)
  assert (Hcall : ∀ reader c1 (b : BodyRegistry S),
    poised (mk reader) (c1, u) →
    H3Body.offsets b = H3Body.offsets (bodies c1) →
    (acks_within (trace_of (log c1)) → buffers_kept b (trace_of (log c1))) →
    (if reader then Registry.detach x (bodies c1) = b else bodies c1 = b) →
    ConnOps.bind (ConnOps.native (mk reader)) (λ r,
       if rs_rv r =? 0 then ConnOps.ret ()
       else ConnOps.bind (ConnOps.detach_attached x reader) (λ _,
              ConnOps.record (rs_rv r) ctx false)) (c1, u) = (s', res) →
    match res with Ok _ => Inv s' | Err e => Inv s' ∧ honest e s' end).
  { intros reader c1 b Hpo Hoff Hkb Hback. unfold ConnOps.bind at 1.
    destruct (ConnOps.native (mk reader) (c1, u)) as [[c2 u2] [r|e]] eqn:En;
      [|by unfold ConnOps.native in En; destruct (nghttp3_call _ _ _ _ _) as [[? ?] ?]].
    destruct (native_spec _ _ _ _ Hpo En) as (cs & tr & Hc).
    destruct (native_keeps _ _ _ _ En) as [Hb Hany]. cbn [fst] in *.
    destruct (Hmk reader) as (_ & Hn & Hch).
    destruct (rs_rv r =? 0) eqn:Ez.
    { intros [= <- <-]. eapply called_inv; [done..|]. by rewrite Hch, Ez. }
    intros Hrec.
    assert (Hd : called (mk reader) r (ConnOps.set_bodies b c2, u2) cs tr).
    { eapply called_detach; [done|by rewrite Hb|]. by apply Hany. }
    assert (ConnOps.record (rs_rv r) ctx false (ConnOps.set_bodies b c2, u2) = (s', res)) as Hrec'.
    { rewrite <-Hrec. destruct reader; simpl.
      - unfold ConnOps.bind, ConnOps.modify. simpl. by rewrite Hb, Hback.
      - unfold ConnOps.bind, ConnOps.ret. rewrite <-Hback, <-Hb. by destruct c2. }
    eapply record_spec in Hrec'; [|done|done|by rewrite Hch, Ez]. by destruct res. }
  destruct body as [body|].
  - unfold ConnOps.bind at 1. unfold ConnOps.attach_body, Registry.attach. cbn [fst].
    destruct (H3Body.bodies (bodies c) !! x) as [e|] eqn:Ex.
    { intros [= <- <-]. cbn [fst snd]. replace (ConnOps.set_bodies (bodies c) c) with c by by destruct c.
      destruct Hr. split; [done|]. by apply honest_invalid. }
    pose proof Hr as [[Hlog Hlk Hd Ho Hk] Hpo]. cbn [fst snd] in *.
    set (b1 := mkRegistry _ _).
    intros Hrun. apply (Hcall true (ConnOps.set_bodies b1 c) (bodies c)) in Hrun; [done|..].
    + destruct (Hmk true) as (Hun & _ & _). eapply ready_poised; [|apply Hperm|done].
      split; [|done]. split; try done; [by destruct Hlk; split|].
      intros _ Ha. specialize (Hk Hpo Ha). intros y. subst b1. simpl.
      destruct (decide (x = y)) as [<-|Hne].
      * rewrite lookup_insert_eq. specialize (Hk x). rewrite Ex in Hk. simpl in Hk |- *.
        split; [done|]. exists [], []. unfold log in *. simpl. rewrite Hk.
        split_and!; try done. simpl in Ha |- *.
        pose proof (proj1 (acks_within_now _ x Ha)). lia.
      * rewrite lookup_insert_ne by done. apply Hk.
    + done.
    + by apply Hk.
    + subst b1. unfold Registry.detach. simpl. rewrite delete_insert_id by done.
      by destruct (bodies c).
  - intros Hrun. apply (Hcall false c (bodies c)) in Hrun; try done.
    + destruct (Hmk false) as (Hun & _ & _). by apply ready_poised.
    + apply (inv_kept _ (proj1 Hr)), Hr.
Qed.

Lemma submit_request_spec x fields body :
  triple Inv (ConnOps.submit_request x fields body) (λ _, Inv).
Proof.
  do 4 op_check. apply (submit_spec _ x body (ReqSubmitRequest _ _)); [|done].
  intros s [[[Hr Hrole%bool_decide_eq_true] Hx] Hb]. split; [done|]. intros reader.
  split; [by apply ready_alive|]. split_and!; try done; by apply bound_linked.
Qed.

Lemma submit_response_spec x fields body :
  triple Inv (ConnOps.submit_response x fields body) (λ _, Inv).
Proof.
  do 4 op_check. apply (submit_spec _ x body (ReqSubmitResponse _ _)); [|done].
  intros s [[[Hr Hrole%bool_decide_eq_true] Hx] Hb]. split; [done|]. intros reader.
  split; [by apply ready_alive|]. split_and!; try done; by apply bound_linked.
Qed.

(** *** Collecting and committing *)

Definition offered_now (g : ConnOps.SendGuard) s : Prop :=
  ready s ∧ g_offer (ghost_of (log s.1)) = Some (ConnOps.g_stream g, ConnOps.g_total g).

Lemma acquire_spec s :
  ready s →
  match ConnOps.acquire s with
  | Some (s', Ok (Some g)) => offered_now g s'
  | Some (s', Ok None) => Inv s'
  | Some (s', Err e) => Inv s' ∧ honest e s'
  | None => ∃ s' r cs tr, called (ReqWritevStream ConnOps.MAX_VECTORS) r s' cs tr ∧
                Z.of_nat ConnOps.MAX_VECTORS < rs_rv r
  end.
Proof.
  intros Hr. unfold ConnOps.acquire.
  destruct (ConnOps.require_bound s) as [s1 [[]|e]] eqn:Eb.
  2: { by apply (triple_require_bound ready (λ _ H, H) s s1 (Err e)). }
  apply (triple_require_bound ready (λ _ H, H) s s1 (Ok ())) in Eb as [Hr1 Hb]; [|done].
  destruct (ConnOps.with_context _ s1) as [s2 [r|e]] eqn:Ec.
  2: { unfold ConnOps.with_context in Ec. destruct s1.
       by destruct (nghttp3_call _ _ _ _ _) as [[? ?] ?]. }
  eapply with_context_spec in Ec as (cs & tr & Hc).
  2: { eapply ready_poised; [done| |done]. split; [by apply ready_alive|].
       split; [by apply bound_linked|done]. }
  destruct (Z.ltb_spec (rs_rv r) 0) as [Hneg|Hpos].
  { destruct (ConnOps.record _ _ _ s2) as [s3 res] eqn:Hrec.
    eapply (record_spec (A:=option ConnOps.SendGuard)) in Hrec; [|done|by apply Z.eqb_neq; lia|].
    - by destruct res.
    - simpl. by apply Z.ltb_lt. }
  assert (Hk : kills (ReqWritevStream ConnOps.MAX_VECTORS) (rs_rv r) = false)
    by by apply Z.ltb_ge.
  pose proof (called_inv _ _ _ _ _ Hc I Hk) as Hi.
  destruct (Z.ltb_spec (rs_stream_id r) 0) as [Hs|Hs]; [done|].
  destruct (H3Stream.new (rs_stream_id r)) as [x|e] eqn:Ex.
  - apply new_exact in Ex as [-> Hx]. case_decide as Hle.
    + split; [split; [done|apply Hc]|]. rewrite (ca_calls _ _ _ _ _ Hc), ghost_of_snoc. simpl.
      apply Z.ltb_ge in Hpos, Hs. by rewrite Hpos, Hs.
    + exists s2, r, cs, tr. split; [done|]. lia.
  - split; [done|].
    assert (∃ ctx, e = H3Error.invalid_input ctx) as [ctx ->]
      by (unfold H3Stream.new in Ex; repeat case_match; simplify_eq; eauto).
    apply honest_invalid, Hc.
Qed.

Lemma offsets_committed (r : BodyRegistry S) g x n :
  offsets_ok r g →
  ∀ g', g_acked g' = g_acked g → g_written g' = bump (g_written g) x (Z.of_nat n) →
  offsets_ok (Registry.record_committed x n r) g'.
Proof.
  intros Ho g' Ha Hw y. specialize (Ho y). rewrite Ha, Hw. unfold Registry.record_committed, bump.
  case_decide as Hn; [subst n; simpl in *; case_decide; lia|]. simpl.
  destruct (decide (y = x)) as [->|].
  - rewrite lookup_insert_eq. simpl in *. unfold saturating_add. lia.
  - by rewrite lookup_insert_ne.
Qed.

Lemma commit_spec g n : triple (offered_now g) (ConnOps.commit g n) (λ _, Inv).
Proof.
  unfold ConnOps.commit. eapply triple_bind; [apply triple_require; by intros s []|intros []].
  eapply triple_bind; [eapply triple_pre; [|apply native_spec]|].
  { intros s [[Hr Ho] Hn%negb_true_iff%bool_decide_eq_false]. apply ready_poised; [done| |done].
    split; [by apply ready_alive|]. exists (ConnOps.g_total g). split; [done|lia]. }
  intros r s s' res (cs & tr & Hc). destruct (rs_rv r =? 0) eqn:Ez; simpl.
  - intros [= <- <-]. apply Z.eqb_eq in Ez.
    eapply (settled _ _ _ _ _ Hc); try done.
    + simpl. by rewrite Ez.
    + unfold Registry.record_committed. by case_decide.
    + pose proof (ca_linked _ _ _ _ _ Hc) as []. split; simpl in *; done.
    + eapply offsets_committed; [apply Hc|done|]. simpl. by rewrite Ez.
  - intros Hrec. eapply record_spec in Hrec; [|done|done|]; [by destruct res|].
    simpl. by rewrite Ez.
Qed.

(** *** Any operation *)

Lemma triple_run {A} P (m : ConnOps.M A) Q s s' r :
  triple P m Q → P s → m s = (s', r) →
  (∀ a, r = Ok a → Q a s') ∧ (∀ e, r = Err e → Inv s' ∧ honest e s').
Proof.
  intros Ht Hp E. specialize (Ht _ _ _ Hp E). split; intros ? ->; done.
Qed.

Definition lawful (s : St) (r : Result unit) : Prop :=
  Inv s ∧ ∀ e, r = Err e → honest e s.

Lemma lawful_triple m s s' r :
  triple Inv m (λ _ : unit, Inv) → Inv s → m s = (s', r) → lawful s' r.
Proof.
  intros Ht Hi E. destruct (triple_run _ _ _ _ _ _ Ht Hi E) as [Hok Herr].
  destruct r as [[]|e].
  - split; [by apply (Hok ())|done].
  - destruct (Herr e eq_refl). split; [done|]. by intros ? [= <-].
Qed.

Lemma lawful_discard {A} (m : ConnOps.M A) s s' r :
  triple Inv m (λ _, Inv) → Inv s → discard m s = (s', r) → lawful s' r.
Proof.
  intros Ht Hi. unfold discard. destruct (m s) as [s1 res] eqn:E.
  destruct (triple_run _ _ _ _ _ _ Ht Hi E) as [Hok Herr]. destruct res as [x|e]; intros [= <- <-].
  - split; [by apply (Hok x)|done].
  - destruct (Herr e eq_refl). split; [done|]. by intros ? [= <-].
Qed.

Lemma send_lawful choose s s' r :
  Inv s → run_op (OSend choose) s = Some (s', r) → lawful s' r.
Proof.
  intros Hi. cbn [run_op]. unfold ConnOps.writev_stream.
  destruct (ConnOps.check_usable s) as [s1 [[]|e]] eqn:Eu.
  2: { intros [= <- <-].
       destruct (triple_run _ _ _ _ _ _ triple_check_usable Hi Eu) as [_ He].
       destruct (He e eq_refl). split; [done|]. by intros ? [= <-]. }
  apply (triple_run _ _ _ _ _ _ triple_check_usable Hi) in Eu as [Hr _].
  specialize (Hr () eq_refl). pose proof (acquire_spec s1 Hr) as Ha.
  destruct (ConnOps.acquire s1) as [[s2 [[g|]|e]]|]; simpl; [| | |done].
  - destruct (choose g) as [n|].
    + intros [= Hcm]. destruct (ConnOps.commit g n s2) as [s3 r3] eqn:Ec. simplify_eq.
      destruct (triple_run _ _ _ _ _ _ (commit_spec g n) Ha Ec) as [Hok Herr].
      destruct r as [[]|e]; [by split; [apply (Hok ())|]|].
      destruct (Herr e eq_refl). split; [done|]. by intros ? [= <-].
    + intros [= <- <-]. split; [apply Ha|done].
  - intros [= <- <-]. by split.
  - intros [= <- <-]. destruct Ha. split; [done|]. by intros ? [= <-].
Qed.

Lemma op_lawful o s s' r : op_ok o → Inv s → run_op o s = Some (s', r) → lawful s' r.
Proof.
  intros Ho Hi. destruct o; simpl in Ho;
    try (intros [= E]; eapply lawful_discard; [|done|exact E]);
    try (intros [= E]; eapply lawful_triple; [|done|exact E]);
    auto using bind_control_spec, bind_qpack_spec, read_spec, submit_request_spec,
      submit_response_spec, submit_trailers_spec, submit_info_spec, close_spec, add_ack_spec,
      block_spec, unblock_spec, resume_spec, is_writable_spec, notice_spec, shutdown_spec,
      is_drained_spec, shutdown_read_spec, shutdown_write_spec, set_max_spec,
      set_concurrent_spec.
  - by apply send_lawful.
  - cbn [run_op]. intros Hrun. apply (inj Some) in Hrun.
    eapply (lawful_discard ConnOps.take_deferred_credit); [|done|done].
    intros s1 s2 res Hi1. unfold ConnOps.take_deferred_credit.
    pose proof (take_credit_inv s1 Hi1) as Hi2.
    destruct (Deliveries.take_credit (deliveries s1.1)) as [d l]. by intros [= <- <-].
Qed.

Lemma run_ops_inv os : ∀ s s', Forall op_ok os → Inv s → run_ops os s = Some s' → Inv s'.
Proof.
  induction os as [|o os IH]; intros s s' Hok Hi; simpl; [by intros [= <-]|].
  apply Forall_cons in Hok as [Ho Hok].
  destruct (run_op o s) as [[s1 r]|] eqn:E; simpl; [|done].
  apply IH; [done|]. by eapply op_lawful in E as [? _].
Qed.

Lemma conn_new_inv ro settings hs c u : ConnOps.new ro settings hs = Ok c → Inv (c, u).
Proof.
  unfold ConnOps.new. destruct (nghttp3_conn_new ro settings) as [n|] eqn:E; [|done].
  intros [= <-]. apply calls_of_new in E.
  split; cbn [fst]; unfold log, kept; simpl; unfold log; simpl; rewrite E.
  - intros cs1 k cs2 Heq. by destruct cs1.
  - by split.
  - simpl. split; [by intros []|done].
  - intros x. unfold Registry.initial. cbn [H3Body.offsets]. rewrite lookup_empty. simpl.
    unfold U64_MAX. lia.
  - intros _ _ x. unfold Registry.initial. cbn [H3Body.bodies]. by rewrite lookup_empty.
Qed.

(** *** The role never changes *)

Create HintDb keeps.

Definition keeps_role {A} (m : ConnOps.M (S:=S) (C:=C) A) : Prop :=
  ∀ s, role (m s).1.1 = role s.1.

Lemma keeps_bind {A B} (m : ConnOps.M A) (k : A → ConnOps.M B) :
  keeps_role m → (∀ a, keeps_role (k a)) → keeps_role (ConnOps.bind m k).
Proof.
  intros Hm Hk s. unfold ConnOps.bind. specialize (Hm s).
  destruct (m s) as [s1 [a|e]]; simpl in *; [|done]. by rewrite Hk.
Qed.

Lemma keeps_ret {A} (a : A) : keeps_role (ConnOps.ret a).
Proof. by intros s. Qed.
Lemma keeps_throw {A} e : keeps_role (ConnOps.throw (A:=A) e).
Proof. by intros s. Qed.
Lemma keeps_gets {A} (f : Conn → A) : keeps_role (ConnOps.gets f).
Proof. by intros s. Qed.
Lemma keeps_modify f : (∀ c, role (f c) = role c) → keeps_role (ConnOps.modify f).
Proof. intros Hf s. apply Hf. Qed.
Lemma keeps_require cond ctx : keeps_role (ConnOps.require cond ctx).
Proof. intros s. unfold ConnOps.require. by case_match. Qed.
Lemma keeps_check_usable : keeps_role ConnOps.check_usable.
Proof. intros s. unfold ConnOps.check_usable. by case_match. Qed.
Lemma keeps_native rq : keeps_role (ConnOps.native rq).
Proof.
  intros [c u]. unfold ConnOps.native. by destruct (nghttp3_call _ _ _ _ _) as [[? ?] ?].
Qed.
Lemma keeps_with_context rq : keeps_role (ConnOps.with_context rq).
Proof.
  intros [c u]. unfold ConnOps.with_context.
  by destruct (nghttp3_call _ _ _ _ _) as [[? ?] ?].
Qed.
Lemma keeps_record {A} rv ctx path : keeps_role (ConnOps.record (A:=A) rv ctx path).
Proof. intros [c u]. unfold ConnOps.record. by case_match. Qed.
Lemma keeps_attach x body : keeps_role (ConnOps.attach_body x body).
Proof.
  intros s. unfold ConnOps.attach_body. destruct body; [|done].
  by destruct (Registry.attach _ _ _).
Qed.
Lemma keeps_acked x n :
  keeps_role (λ s : St, let '(r, res) := Registry.record_acked x n (bodies s.1) in
                        ((ConnOps.set_bodies r s.1, s.2), res)).
Proof. intros s. by destruct (Registry.record_acked _ _ _). Qed.
Lemma keeps_take : keeps_role ConnOps.take_deferred_credit.
Proof. intros s. unfold ConnOps.take_deferred_credit. by destruct (Deliveries.take_credit _). Qed.

#[local] Hint Resolve keeps_ret keeps_throw keeps_gets keeps_require keeps_check_usable
  keeps_native keeps_with_context keeps_record keeps_attach keeps_acked keeps_take : keeps.

Ltac keeps :=
  repeat first
    [ solve [eauto with keeps]
    | apply keeps_bind; [|intros ?]
    | apply keeps_modify; by intros []
    | progress unfold ConnOps.require_bound, ConnOps.require_control_bound,
        ConnOps.require_local_unidirectional, ConnOps.require_unused, ConnOps.checked,
        ConnOps.invalid, ConnOps.detach_attached
    | case_match ].

Lemma keeps_discard {A} (m : ConnOps.M A) : keeps_role m → keeps_role (discard m).
Proof. intros Hm s. unfold discard. specialize (Hm s). by destruct (m s). Qed.

Lemma keeps_acquire s s' r : ConnOps.acquire s = Some (s', r) → role s'.1 = role s.1.
Proof.
  unfold ConnOps.acquire.
  assert (Hb : keeps_role ConnOps.require_bound) by keeps.
  specialize (Hb s). destruct (ConnOps.require_bound s) as [s1 [[]|e]]; simpl in Hb;
    [|by intros [= <- <-]].
  pose proof (keeps_with_context (ReqWritevStream ConnOps.MAX_VECTORS) s1) as Hc.
  destruct (ConnOps.with_context _ s1) as [s2 [rs|e]]; simpl in Hc;
    [|intros [= <- <-]; congruence].
  destruct (rs_rv rs <? 0).
  { intros [= E]. pose proof (keeps_record (A:=option ConnOps.SendGuard)
      (ConnOps.narrow (rs_rv rs)) "could not collect data to send" true s2) as Hr.
    rewrite E in Hr. simpl in Hr. congruence. }
  repeat case_match; intros; simplify_eq; congruence.
Qed.

Lemma run_op_role o s s' r : run_op o s = Some (s', r) → role s'.1 = role s.1.
Proof.
  assert (Hk : ∀ m : ConnOps.M unit, keeps_role m → Some (m s) = Some (s', r) →
            role s'.1 = role s.1).
  { intros m Hm [= E]. specialize (Hm s). by rewrite E in Hm. }
  destruct o; cbn [run_op]; try (apply Hk; try apply keeps_discard;
    unfold ConnOps.bind_control_stream, ConnOps.bind_qpack_streams, ConnOps.read_stream,
      ConnOps.submit_request, ConnOps.submit_response, ConnOps.submit_trailers,
      ConnOps.submit_info, ConnOps.close_stream_with, ConnOps.add_ack_offset,
      ConnOps.block_stream, ConnOps.unblock_stream, ConnOps.resume_stream,
      ConnOps.is_stream_writable, ConnOps.submit_shutdown_notice, ConnOps.shutdown,
      ConnOps.is_drained, ConnOps.shutdown_stream_read, ConnOps.shutdown_stream_write,
      ConnOps.set_max_client_streams_bidi, ConnOps.set_max_concurrent_streams; by keeps).
  unfold ConnOps.writev_stream. pose proof (keeps_check_usable s) as Hu.
  destruct (ConnOps.check_usable s) as [s1 [[]|e]]; simpl in Hu; [|by intros [= <- <-]].
  destruct (ConnOps.acquire s1) as [[s2 res]|] eqn:Ea; simpl; [|done].
  apply keeps_acquire in Ea. destruct res as [[g|]|e]; [|intros [= <- <-]; congruence..].
  destruct (choose g) as [n|]; [|intros [= <- <-]; congruence]. intros [= E].
  assert (Hcm : keeps_role (ConnOps.commit g n)) by (unfold ConnOps.commit; keeps).
  specialize (Hcm s2). rewrite E in Hcm. simpl in Hcm. congruence.
Qed.

Lemma run_ops_role os : ∀ s s', run_ops os s = Some s' → role s'.1 = role s.1.
Proof.
  induction os as [|o os IH]; intros s s'; simpl; [by intros [= <-]|].
  destruct (run_op o s) as [[s1 r]|] eqn:E; simpl; [|done].
  intros Hr. apply run_op_role in E. rewrite <-E. by apply IH.
Qed.
End Invariant.

(** ** The guarantees *)

Section Guarantees.
Context `{Recorded} {S C : Type} `{!BodySource S C}.
Abbreviation St := (ConnOps.St (S:=S) (C:=C)).
Implicit Types (s : St).

(** nghttp3 never reports more vectors than it was given room for. *)
Definition writev_bounded : Prop :=
  ∀ k B cb n (b : B) n' b' r,
    nghttp3_call (ReqWritevStream k) B cb n b = (n', b', r) → rs_rv r ≤ Z.of_nat k.

Lemma run_op_total o s : writev_bounded → Inv s → run_op o s ≠ None.
Proof.
  intros Hw Hi. destruct o; try done. cbn [run_op]. unfold ConnOps.writev_stream.
  destruct (ConnOps.check_usable s) as [s1 [[]|e]] eqn:Eu; [|done].
  apply (triple_run _ _ _ _ _ _ triple_check_usable Hi) in Eu as [Hr _].
  specialize (Hr () eq_refl).
  destruct (ConnOps.acquire s1) as [[s2 [[g|]|e]]|] eqn:Ea; simpl; try done.
  - by destruct (choose g).
  - unfold ConnOps.acquire in Ea.
    destruct (ConnOps.require_bound s1) as [s2 [[]|e]]; [|done].
    unfold ConnOps.with_context in Ea. destruct s2 as [c u].
    destruct (nghttp3_call _ _ _ _ _) as [[n b] r] eqn:Ec. apply Hw in Ec.
    repeat case_match; simplify_eq. lia.
Qed.

Lemma run_ops_total os : ∀ s, writev_bounded → Forall op_ok os → Inv s → is_Some (run_ops os s).
Proof.
  induction os as [|o os IH]; intros s Hw Hok Hi; simpl; [eauto|].
  apply Forall_cons in Hok as [Ho Hok]. pose proof (run_op_total o s Hw Hi) as Ht.
  destruct (run_op o s) as [[s1 r]|] eqn:E; [|done]. simpl. apply IH; [done..|].
  by eapply op_lawful in E as [? _].
Qed.

(** C4. Whatever public operations are called, in whatever order and with whatever outcomes,
    the wrapper never makes a call that nghttp3 only asserts against or leaves undefined:
    not on the wrong role or kind of stream, not before the control and QPACK streams are
    bound or binding them twice, not with a clock or a limit going backwards, not
    committing more than was just offered, not acknowledging more than was written, and
    nothing at all after a failure that only the destructor may follow.  No operation
    panics while nghttp3 fills no more vectors than it was given. *)
Theorem calls_permitted ro settings hs c (u : C) os :
  ConnOps.new (S:=S) ro settings hs = Ok c → Forall op_ok os →
  (∀ s', run_ops os (c, u) = Some s' → log_ok ro (log s'.1)) ∧
  (writev_bounded → is_Some (run_ops os (c, u))).
Proof.
  intros Hn Hok. pose proof (conn_new_inv _ _ _ _ u Hn) as Hi. split.
  - intros s' Hr.
    assert (Hro : role s'.1 = ro).
    { apply run_ops_role in Hr as ->. unfold ConnOps.new in Hn.
      destruct (nghttp3_conn_new ro settings); by simplify_eq. }
    rewrite <-Hro. by eapply inv_log, run_ops_inv.
  - intros Hw. by apply run_ops_total.
Qed.

(** C2. While the connection is usable, a buffer nghttp3 was handed is still retained until
    every byte of it has been acknowledged or its stream closed, whatever operations were
    called and whatever failed on the way, provided nghttp3 acknowledges only bytes it
    was handed. *)
Theorem buffers_outlive_use ro settings hs c (u : C) os s' :
  ConnOps.new ro settings hs = Ok c → Forall op_ok os → run_ops os (c, u) = Some s' →
  ConnOps.is_usable s'.1 = true → acks_within (trace_of (log s'.1)) →
  ∀ x i v, let use := in_use x (trace_of (log s'.1)) in
    use.1 !! i = Some v →
    use.2 < sumZ (take (Datatypes.S i) (told_length <$> use.1)).*2 →
    ∃ e : BodyEntry S, H3Body.bodies (bodies s'.1) !! x = Some e ∧ told_length v ∈ retained e.
Proof.
  intros Hn Hok Hr Hu%bool_decide_eq_true Ha x i v use Hv Hlt.
  pose proof (run_ops_inv _ _ _ Hok (conn_new_inv _ _ _ _ u Hn) Hr) as Hi.
  by apply (kept_retains _ use i v (inv_kept _ Hi Hu Ha x)).
Qed.

(** An error answers [is_fatal] exactly when the connection is of no further use, and
    from then on every operation is refused without touching nghttp3. *)
Theorem fatal_is_final ro settings hs c (u : C) os s1 o s2 r :
  ConnOps.new (S:=S) ro settings hs = Ok c → Forall op_ok os →
  run_ops os (c, u) = Some s1 → op_ok o → run_op o s1 = Some (s2, r) →
  (∀ e, r = Err e → H3Error.is_fatal e = negb (ConnOps.is_usable s2.1)) ∧
  (ConnOps.is_usable s1.1 = false → o ≠ OTakeCredit → s2 = s1 ∧ r = Err H3Error.refused).
Proof.
  intros Hn Hok Hr Ho Hop.
  pose proof (run_ops_inv _ _ _ Hok (conn_new_inv _ _ _ _ u Hn) Hr) as Hi. split.
  - intros e He. by eapply op_lawful in Hop as [_ Hh]; [apply Hh| |].
  - intros Hu Hne. unfold ConnOps.is_usable in Hu. apply bool_decide_eq_false in Hu.
    destruct (poison s1.1) as [p|] eqn:Ep; [|done]. clear -Hop Ep Hne.
    assert (Hck : ConnOps.check_usable s1 = (s1, Err H3Error.refused))
      by (unfold ConnOps.check_usable; by rewrite Ep).
    destruct o; try done; cbn [run_op] in Hop;
      unfold discard, ConnOps.bind_control_stream, ConnOps.bind_qpack_streams,
        ConnOps.read_stream, ConnOps.submit_request, ConnOps.submit_response,
        ConnOps.submit_trailers, ConnOps.submit_info, ConnOps.close_stream_with,
        ConnOps.add_ack_offset, ConnOps.block_stream, ConnOps.unblock_stream,
        ConnOps.resume_stream, ConnOps.is_stream_writable, ConnOps.submit_shutdown_notice,
        ConnOps.shutdown, ConnOps.is_drained, ConnOps.shutdown_stream_read,
        ConnOps.shutdown_stream_write, ConnOps.set_max_client_streams_bidi,
        ConnOps.set_max_concurrent_streams, ConnOps.writev_stream, ConnOps.bind in Hop;
      rewrite Hck in Hop; by simplify_eq/=.
Qed.
End Guarantees.

(** ** A small nghttp3, to evaluate the model on

    It keeps the streams that were submitted with a body, asks the first of them for data
    when it is asked to write, and reports acknowledgements as they come. *)
Module Toy.

Definition codes : Nghttp3Codes := {|
  NGHTTP3_ERR_INVALID_ARGUMENT := -101;
  NGHTTP3_ERR_INVALID_STATE := -103;
  NGHTTP3_ERR_WOULDBLOCK := -104;
  NGHTTP3_ERR_STREAM_IN_USE := -105;
  NGHTTP3_ERR_MALFORMED_HTTP_HEADER := -107;
  NGHTTP3_ERR_REMOVE_HTTP_HEADER := -108;
  NGHTTP3_ERR_MALFORMED_HTTP_MESSAGING := -109;
  NGHTTP3_ERR_QPACK_FATAL := -110;
  NGHTTP3_ERR_QPACK_HEADER_TOO_LARGE := -111;
  NGHTTP3_ERR_STREAM_NOT_FOUND := -114;
  NGHTTP3_ERR_CONN_CLOSING := -116;
  NGHTTP3_ERR_STREAM_DATA_OVERFLOW := -117;
  NGHTTP3_ERR_QPACK_DECOMPRESSION_FAILED := -401;
  NGHTTP3_ERR_QPACK_ENCODER_STREAM_ERROR := -402;
  NGHTTP3_ERR_QPACK_DECODER_STREAM_ERROR := -403;
  NGHTTP3_ERR_H3_FRAME_UNEXPECTED := -408;
  NGHTTP3_ERR_H3_FRAME_ERROR := -601;
  NGHTTP3_ERR_H3_MISSING_SETTINGS := -602;
  NGHTTP3_ERR_H3_INTERNAL_ERROR := -603;
  NGHTTP3_ERR_H3_CLOSED_CRITICAL_STREAM := -604;
  NGHTTP3_ERR_H3_GENERAL_PROTOCOL_ERROR := -605;
  NGHTTP3_ERR_H3_ID_ERROR := -606;
  NGHTTP3_ERR_H3_SETTINGS_ERROR := -607;
  NGHTTP3_ERR_H3_STREAM_CREATION_ERROR := -608;
  NGHTTP3_ERR_H3_EXCESSIVE_LOAD := -609;
  NGHTTP3_ERR_FATAL := -900;
  NGHTTP3_ERR_NOMEM := -901;
  NGHTTP3_ERR_CALLBACK_FAILURE := -902;
  NGHTTP3_SHUTDOWN_NOTICE_STREAM_ID := 2 ^ 62 - 4;
  NGHTTP3_SHUTDOWN_NOTICE_PUSH_ID := 2 ^ 62 - 1;
  NGHTTP3_STREAM_CLOSE_FLAG_RX_APP_ERROR_CODE_SET := 1;
  NGHTTP3_STREAM_CLOSE_FLAG_TX_APP_ERROR_CODE_SET := 2;
  NGHTTP3_DATA_FLAG_NONE := 0;
  NGHTTP3_DATA_FLAG_EOF := 1;
  NGHTTP3_DATA_FLAG_NO_END_STREAM := 2;
  NGHTTP3_NV_FLAG_NONE := 0;
  NGHTTP3_NV_FLAG_NEVER_INDEX := 1;
  nghttp3_err_is_fatal code := code <=? -900;
  nghttp3_err_infer_quic_app_error_code code := - code
|}.

Definition ok : response := mkResponse 0 (-1) 0 [].

Definition lib : Nghttp3 := {|
  nghttp3_codes := codes;
  nghttp3_settings_rest := unit;
  nghttp3_settings_default := H3Settings.mkSettings 4096 0 0 0 ();
  nghttp3_conn := list Z;
  nghttp3_conn_new _ _ := Ok [];
  nghttp3_call rq B cb n b :=
    match rq with
    | ReqSubmitRequest s _ true => (n ++ [s], b, ok)
    | ReqWritevStream k =>
        match n with
        | [] => (n, b, ok)
        | s :: _ =>
            let '(b, a) := cb b (CbReadData s k) in
            let vs := take k (a_vectors a) in
            (n, b, mkResponse (Z.min (a_rv a) (Z.of_nat k)) s 0 (Some ∘ snd <$> vs))
        end
    | ReqAddAckOffset s m =>
        let '(b, _) := cb b (CbAckedStreamData s m) in (n, b, ok)
    | _ => (n, b, ok)
    end
|}.

#[local] Existing Instance lib.
#[local] Existing Instance logged.
#[local] Existing Instance logged_recorded.

Abbreviation TConn := (H3Conn.Conn (@nghttp3_conn (@logged lib)) FixedBody unit).

Definition start : TConn :=
  H3Conn.mkConn (N:=@nghttp3_conn (@logged lib)) (mkLogged []  []) Client handlers_default
    Registry.initial Deliveries.initial None None None 0 false None 0.

(** A request with a three-byte body, sent whole, two bytes of it acknowledged. *)
Definition ops : list (op FixedBody) :=
  [OBindControl 2; OBindQpack 6 10; OSubmitRequest 0 [] (Some (fixed_new (Bytes.new three_bytes)));
   OSend (λ g, Some (ConnOps.g_total g)); OAddAck 0 2].

Definition run := run_ops (H:=@logged lib) ops (start, ()).

Lemma ops_fine : Forall op_ok ops.
Proof. repeat constructor. simpl. lia. Qed.

Lemma start_new :
  ConnOps.new (H:=@logged lib) Client (@nghttp3_settings_default (@logged lib)) handlers_default
    = Ok start.
Proof. reflexivity. Qed.

(** The state it ends in. *)
Definition final := default (start, ()) run.

Lemma run_final : run_ops (H:=@logged lib) ops (start, ()) = Some final.
Proof. vm_compute. reflexivity. Qed.

Definition body_piece : RetainedBytes := Bytes.new three_bytes.

Lemma final_trace :
  trace_of (log final.1) =
    [(CbReadData 0 16, mkAnswer 1 [(body_piece, three_bytes)] (Some 1));
     (CbAckedStreamData 0 2, code 0)].
Proof. vm_compute. reflexivity. Qed.

Lemma final_acks : acks_within (trace_of (log final.1)).
Proof.
  rewrite final_trace. split; [repeat constructor; simpl; lia|].
  intros tr1 tr2 s E. destruct tr1 as [|e1 [|e2 [|e3 tr1]]]; simplify_eq/=;
    unfold in_use; simpl; [lia| |]; unfold use_step; simpl;
    destruct (decide (0 = s)); simpl; lia.
Qed.

Example calls_permitted_witness :
  log_ok Client (log final.1) ∧
  c_request <$> log final.1 =
    [ReqBindControlStream 2; ReqBindQpackStreams 6 10; ReqSubmitRequest 0 [] true;
     ReqWritevStream 16; ReqAddWriteOffset 0 3; ReqAddAckOffset 0 2].
Proof.
  split; [|vm_compute; reflexivity].
  apply (proj1 (calls_permitted Client (@nghttp3_settings_default (@logged lib))
    handlers_default start () ops start_new ops_fine) final run_final).
Defined.

Example buffers_outlive_use_witness :
  (in_use 0 (trace_of (log final.1))).2 = 2 ∧
  ∃ e : BodyEntry FixedBody, H3Body.bodies (bodies final.1) !! 0 = Some e ∧
    told_length (body_piece, three_bytes) ∈ retained e.
Proof.
  split; [rewrite final_trace; reflexivity|].
  apply (buffers_outlive_use Client (@nghttp3_settings_default (@logged lib))
    handlers_default start () ops final start_new ops_fine run_final) with (i := 0%nat).
  - vm_compute. reflexivity.
  - exact final_acks.
  - rewrite final_trace. reflexivity.
  - rewrite final_trace. vm_compute. reflexivity.
Defined.

(** Acknowledging more than was written. *)
Definition refused_op : op FixedBody := OAddAck 0 2.

Example fatal_is_final_witness :
  ∃ s2 e, run_op (H:=@logged lib) refused_op final = Some (s2, Err e) ∧
    H3Error.is_fatal e = false ∧ ConnOps.is_usable s2.1 = true.
Proof.
  destruct (run_op (H:=@logged lib) refused_op final) as [[s2 [[]|e]]|] eqn:E;
    [vm_compute in E; discriminate| |vm_compute in E; discriminate].
  exists s2, e. split; [done|].
  destruct (fatal_is_final Client (@nghttp3_settings_default (@logged lib))
    handlers_default start () ops final refused_op s2 (Err e) start_new ops_fine run_final)
    as [Hf _]; [simpl; lia|exact E|].
  assert (Hu : ConnOps.is_usable s2.1 = true) by (vm_compute in E; by simplify_eq).
  split; [|exact Hu]. etrans; [exact (Hf e eq_refl)|]. by rewrite Hu.
Defined.
End Toy.
