(* ===== verification/H2Types.v ===== *)
(** * The HTTP/2 value types (crates/ngnet-h2/src: error.rs, stream.rs, header.rs,
    settings.rs, body.rs, handlers.rs)

    Errors and their classification, frames as the caller sees them, header fields and their
    validation, settings, the answers of body sources, and the handlers a caller registers.
    The codes belong to nghttp2's header and are the class [Nghttp2Codes]. *)

From Stdlib Require Import ZArith Lia Strings.Byte.
From stdpp Require Import base list strings.
From S2P Require Import Prelude.

(** ** error.rs *)

Class Nghttp2Codes := {
  NGHTTP2_ERR_INVALID_ARGUMENT : Z;
  NGHTTP2_ERR_UNSUPPORTED_VERSION : Z;
  NGHTTP2_ERR_PROTO : Z;
  NGHTTP2_ERR_INVALID_FRAME : Z;
  NGHTTP2_ERR_DEFERRED : Z;
  NGHTTP2_ERR_STREAM_ID_NOT_AVAILABLE : Z;
  NGHTTP2_ERR_STREAM_CLOSED : Z;
  NGHTTP2_ERR_STREAM_CLOSING : Z;
  NGHTTP2_ERR_STREAM_SHUT_WR : Z;
  NGHTTP2_ERR_INVALID_STREAM_ID : Z;
  NGHTTP2_ERR_INVALID_STREAM_STATE : Z;
  NGHTTP2_ERR_DEFERRED_DATA_EXIST : Z;
  NGHTTP2_ERR_START_STREAM_NOT_ALLOWED : Z;
  NGHTTP2_ERR_GOAWAY_ALREADY_SENT : Z;
  NGHTTP2_ERR_INVALID_HEADER_BLOCK : Z;
  NGHTTP2_ERR_INVALID_STATE : Z;
  NGHTTP2_ERR_TEMPORAL_CALLBACK_FAILURE : Z;
  NGHTTP2_ERR_FRAME_SIZE_ERROR : Z;
  NGHTTP2_ERR_HEADER_COMP : Z;
  NGHTTP2_ERR_FLOW_CONTROL : Z;
  NGHTTP2_ERR_INSUFF_BUFSIZE : Z;
  NGHTTP2_ERR_TOO_MANY_INFLIGHT_SETTINGS : Z;
  NGHTTP2_ERR_PUSH_DISABLED : Z;
  NGHTTP2_ERR_DATA_EXIST : Z;
  NGHTTP2_ERR_SESSION_CLOSING : Z;
  NGHTTP2_ERR_HTTP_HEADER : Z;
  NGHTTP2_ERR_HTTP_MESSAGING : Z;
  NGHTTP2_ERR_REFUSED_STREAM : Z;
  NGHTTP2_ERR_SETTINGS_EXPECTED : Z;
  NGHTTP2_ERR_TOO_MANY_SETTINGS : Z;
  NGHTTP2_ERR_NOMEM : Z;
  NGHTTP2_ERR_CALLBACK_FAILURE : Z;
  NGHTTP2_ERR_BAD_CLIENT_MAGIC : Z;
  NGHTTP2_ERR_FLOODED : Z;
  NGHTTP2_ERR_TOO_MANY_CONTINUATIONS : Z;
  (** Frame types, flags and categories. *)
  NGHTTP2_DATA : Z;
  NGHTTP2_HEADERS : Z;
  NGHTTP2_SETTINGS : Z;
  NGHTTP2_PUSH_PROMISE : Z;
  NGHTTP2_PING : Z;
  NGHTTP2_GOAWAY : Z;
  NGHTTP2_CONTINUATION : Z;
  NGHTTP2_FLAG_END_STREAM : Z;
  NGHTTP2_FLAG_ACK : Z;
  NGHTTP2_FLAG_END_HEADERS : Z;
  NGHTTP2_HCAT_REQUEST : Z;
  NGHTTP2_HCAT_RESPONSE : Z;
  NGHTTP2_HCAT_PUSH_RESPONSE : Z;
  NGHTTP2_HCAT_HEADERS : Z;
  NGHTTP2_DATA_FLAG_EOF : Z;
  NGHTTP2_DATA_FLAG_NO_END_STREAM : Z;
  NGHTTP2_DATA_FLAG_NO_COPY : Z;
  NGHTTP2_NV_FLAG_NONE : Z;
  NGHTTP2_NV_FLAG_NO_INDEX : Z;
  NGHTTP2_SETTINGS_HEADER_TABLE_SIZE : Z;
  NGHTTP2_SETTINGS_ENABLE_PUSH : Z;
  NGHTTP2_SETTINGS_MAX_CONCURRENT_STREAMS : Z;
  NGHTTP2_SETTINGS_INITIAL_WINDOW_SIZE : Z;
  NGHTTP2_SETTINGS_MAX_FRAME_SIZE : Z;
  NGHTTP2_SETTINGS_MAX_HEADER_LIST_SIZE : Z;
  NGHTTP2_SETTINGS_ENABLE_CONNECT_PROTOCOL : Z;
  NGHTTP2_SETTINGS_NO_RFC7540_PRIORITIES : Z
}.

Inductive ErrorKind := Protocol | InvalidInput | Exhausted | Internal.

#[global] Instance ErrorKind_eq_dec : EqDecision ErrorKind.
Proof. solve_decision. Defined.

Record Error := mkError {
  op : string;
  kind : ErrorKind;
  native : option Z;
  detail : option string
}.

Abbreviation Result A := (result A Error).

Module H2Error.
Definition new (op : string) (kind : ErrorKind) (detail : string) : Error :=
  mkError op kind None (Some detail).

Section Codes.
Context `{Nghttp2Codes}.

Definition classify (code : Z) : ErrorKind :=
  if decide (code = NGHTTP2_ERR_NOMEM) then Exhausted
  else if decide (code ∈ [NGHTTP2_ERR_INVALID_FRAME; NGHTTP2_ERR_INVALID_HEADER_BLOCK;
                          NGHTTP2_ERR_FRAME_SIZE_ERROR; NGHTTP2_ERR_HEADER_COMP;
                          NGHTTP2_ERR_FLOW_CONTROL; NGHTTP2_ERR_HTTP_HEADER;
                          NGHTTP2_ERR_HTTP_MESSAGING; NGHTTP2_ERR_REFUSED_STREAM;
                          NGHTTP2_ERR_SETTINGS_EXPECTED; NGHTTP2_ERR_TOO_MANY_SETTINGS;
                          NGHTTP2_ERR_TOO_MANY_CONTINUATIONS; NGHTTP2_ERR_BAD_CLIENT_MAGIC;
                          NGHTTP2_ERR_FLOODED]) then Protocol
  else if decide (code ∈ [NGHTTP2_ERR_INVALID_ARGUMENT; NGHTTP2_ERR_UNSUPPORTED_VERSION;
                          NGHTTP2_ERR_PROTO; NGHTTP2_ERR_STREAM_ID_NOT_AVAILABLE;
                          NGHTTP2_ERR_STREAM_CLOSED; NGHTTP2_ERR_STREAM_CLOSING;
                          NGHTTP2_ERR_STREAM_SHUT_WR; NGHTTP2_ERR_INVALID_STREAM_ID;
                          NGHTTP2_ERR_INVALID_STREAM_STATE; NGHTTP2_ERR_DEFERRED_DATA_EXIST;
                          NGHTTP2_ERR_START_STREAM_NOT_ALLOWED;
                          NGHTTP2_ERR_GOAWAY_ALREADY_SENT; NGHTTP2_ERR_INVALID_STATE;
                          NGHTTP2_ERR_PUSH_DISABLED; NGHTTP2_ERR_DATA_EXIST;
                          NGHTTP2_ERR_SESSION_CLOSING; NGHTTP2_ERR_INSUFF_BUFSIZE;
                          NGHTTP2_ERR_TOO_MANY_INFLIGHT_SETTINGS]) then InvalidInput
  else Internal.

Definition from_native (op : string) (code : Z) : Error :=
  mkError op (classify code) (Some code) None.
End Codes.
End H2Error.

(** ** stream.rs

    A stream id is any [i32]; a frame type and the flags are [u8]s; an error code is a
    [u32]. *)
Abbreviation StreamId := Z (only parsing).

Module H2Stream.
Definition is_connection (s : StreamId) : bool := s =? 0.
End H2Stream.

Inductive HeaderCategory := Request | Response | PushResponse | Trailing.

Record Goaway := mkGoaway { last_stream_id : Z; code : Z }.

Record FrameInfo := mkFrameInfo {
  stream_id : Z;
  frame_kind : Z;
  flags : Z;
  payload_len : nat;
  category : option HeaderCategory;
  goaway : option Goaway
}.

(** [nghttp2_frame]: the common header, and the members of the union this crate reads. *)
Record frame := mkFrame {
  hd_stream_id : Z;
  hd_type : Z;
  hd_flags : Z;
  hd_length : nat;
  headers_cat : Z;
  goaway_last_stream_id : Z;
  goaway_error_code : Z
}.

Module Frame.
Section Codes.
Context `{Nghttp2Codes}.

Definition from_native (cat : Z) : option HeaderCategory :=
  if cat =? NGHTTP2_HCAT_REQUEST then Some Request
  else if cat =? NGHTTP2_HCAT_RESPONSE then Some Response
  else if cat =? NGHTTP2_HCAT_PUSH_RESPONSE then Some PushResponse
  else if cat =? NGHTTP2_HCAT_HEADERS then Some Trailing
  else None.

Definition is_trailers (f : FrameInfo) : bool :=
  match category f with Some Trailing => true | _ => false end.

Definition is_end_stream (f : FrameInfo) : bool :=
  ((frame_kind f =? NGHTTP2_DATA) || (frame_kind f =? NGHTTP2_HEADERS))
  && negb (Z.land (flags f) NGHTTP2_FLAG_END_STREAM =? 0).

Definition is_ack (f : FrameInfo) : bool :=
  ((frame_kind f =? NGHTTP2_SETTINGS) || (frame_kind f =? NGHTTP2_PING))
  && negb (Z.land (flags f) NGHTTP2_FLAG_ACK =? 0).

Definition is_end_headers (f : FrameInfo) : bool :=
  ((frame_kind f =? NGHTTP2_HEADERS) || (frame_kind f =? NGHTTP2_PUSH_PROMISE)
   || (frame_kind f =? NGHTTP2_CONTINUATION))
  && negb (Z.land (flags f) NGHTTP2_FLAG_END_HEADERS =? 0).

(** [callbacks::frame_info]: the union is read as its header says. *)
Definition frame_info (f : frame) : FrameInfo :=
  mkFrameInfo (hd_stream_id f) (hd_type f) (hd_flags f) (hd_length f)
    (if hd_type f =? NGHTTP2_HEADERS then from_native (headers_cat f) else None)
    (if hd_type f =? NGHTTP2_GOAWAY
     then Some (mkGoaway (goaway_last_stream_id f) (goaway_error_code f)) else None).
End Codes.
End Frame.

(** ** header.rs *)
Module Header.

Record Header := mkHeader { name : bytes; value : bytes; is_sensitive : bool }.

(** [nghttp2_nv]. *)
Record nv := mkNv { nv_name : bytes; nv_value : bytes; nv_flags : Z }.

Definition from_bytes (name value : bytes) : Header := mkHeader name value false.
Definition sensitive (h : Header) : Header := mkHeader (name h) (value h) true.

Definition is_token_byte (b : byte) : bool :=
  is_ascii_lowercase b || is_ascii_digit b ||
  bool_decide (b ∈ ascii_bytes "!#$%&'*+-.^_`|~").

Definition invalid (detail : string) : Error :=
  H2Error.new "submit headers" InvalidInput detail.

(** The loop over a name's token. *)
Fixpoint token_loop (token : bytes) : Result unit :=
  match token with
  | [] => Ok ()
  | b :: token =>
      if negb (is_token_byte b) then
        Err (if is_ascii_uppercase b
             then invalid "header names must be lowercase in HTTP/2"
             else invalid "a header name contains a character that is not permitted")
      else token_loop token
  end.

Definition value_byte_ok (b : byte) : bool :=
  let permitted := ((bZ b =? 9) || in_range 0x20 0x7e b) && negb (bZ b =? 0x7f) in
  let obs_text := 0x80 <=? bZ b in
  permitted || obs_text.

Fixpoint value_loop (value : bytes) : Result unit :=
  match value with
  | [] => Ok ()
  | b :: value =>
      if negb (value_byte_ok b) then
        Err (invalid "a header value may only contain visible characters, spaces and tabs")
      else value_loop value
  end.

Definition is_whitespace (b : byte) : bool := (bZ b =? 0x20) || (bZ b =? 9).

(** The body of the loop over the fields: whether a regular field has been seen. *)
Definition validate_one (seen_regular : bool) (h : Header) : Result bool :=
  match name h with
  | [] => Err (invalid "a header name must not be empty")
  | first_ :: tail =>
      let is_pseudo := bool_decide (first_ = Zb 0x3a) in
      if is_pseudo && bool_decide (tail = []) then
        Err (invalid "a pseudo-header name must not be just a colon")
      else
        let? _ := token_loop (if is_pseudo then tail else name h) in
        let? seen :=
          if is_pseudo then
            if seen_regular
            then Err (invalid "pseudo-headers must precede regular header fields")
            else Ok seen_regular
          else Ok true in
        let? _ := value_loop (value h) in
        match head (value h), last (value h) with
        | Some first_, Some last_ =>
            if is_whitespace first_ || is_whitespace last_
            then Err (invalid "a header value must not begin or end with whitespace")
            else Ok seen
        | _, _ => Ok seen
        end
  end.

Fixpoint validate_loop (seen_regular : bool) (headers : list Header) : Result unit :=
  match headers with
  | [] => Ok ()
  | h :: headers => let? seen := validate_one seen_regular h in validate_loop seen headers
  end.

Definition validate (headers : list Header) : Result unit :=
  match headers with
  | [] => Err (invalid "a header set must contain at least one field")
  | _ => validate_loop false headers
  end.

Section Codes.
Context `{Nghttp2Codes}.

Definition as_nv (h : Header) : nv :=
  mkNv (name h) (value h)
    (if is_sensitive h then NGHTTP2_NV_FLAG_NO_INDEX else NGHTTP2_NV_FLAG_NONE).

Definition to_nv_vec (headers : list Header) : Result (list nv) :=
  let? _ := validate headers in Ok (as_nv <$> headers).

Definition is_pseudo_name (name : bytes) : bool := bool_decide (head name = Some (Zb 0x3a)).

Definition to_trailer_nv_vec (headers : list Header) : Result (list nv) :=
  let? _ := validate headers in
  if existsb (λ h, is_pseudo_name (name h)) headers
  then Err (invalid "trailers must not contain pseudo-header fields")
  else Ok (as_nv <$> headers).
End Codes.
End Header.

(** ** settings.rs *)

Inductive Setting :=
| HeaderTableSize (v : Z)
| EnablePush (v : bool)
| MaxConcurrentStreams (v : Z)
| InitialWindowSize (v : Z)
| MaxFrameSize (v : Z)
| MaxHeaderListSize (v : Z)
| EnableConnectProtocol (v : bool)
| NoRfc7540Priorities (v : bool).

Module H2Setting.
Section Codes.
Context `{Nghttp2Codes}.

Definition id (s : Setting) : Z :=
  match s with
  | HeaderTableSize _ => NGHTTP2_SETTINGS_HEADER_TABLE_SIZE
  | EnablePush _ => NGHTTP2_SETTINGS_ENABLE_PUSH
  | MaxConcurrentStreams _ => NGHTTP2_SETTINGS_MAX_CONCURRENT_STREAMS
  | InitialWindowSize _ => NGHTTP2_SETTINGS_INITIAL_WINDOW_SIZE
  | MaxFrameSize _ => NGHTTP2_SETTINGS_MAX_FRAME_SIZE
  | MaxHeaderListSize _ => NGHTTP2_SETTINGS_MAX_HEADER_LIST_SIZE
  | EnableConnectProtocol _ => NGHTTP2_SETTINGS_ENABLE_CONNECT_PROTOCOL
  | NoRfc7540Priorities _ => NGHTTP2_SETTINGS_NO_RFC7540_PRIORITIES
  end.

Definition value (s : Setting) : Z :=
  match s with
  | HeaderTableSize v | MaxConcurrentStreams v | InitialWindowSize v | MaxFrameSize v
  | MaxHeaderListSize v => v
  | EnablePush v | EnableConnectProtocol v | NoRfc7540Priorities v => if v then 1 else 0
  end.

(** [nghttp2_settings_entry]. *)
Definition entry (s : Setting) : Z * Z := (id s, value s).
End Codes.
End H2Setting.

(** ** body.rs *)

(** [Box<dyn Error + Send>], by what it says. *)
Abbreviation BodyError := string.

Inductive BodyOutcome :=
| Wrote (n : nat) | Eof (n : nat) | EofWithTrailers (n : nat) | Defer | Fail (e : BodyError).

(** A [Bytes] is its contents. *)
Inductive SharedOutcome :=
| SWrote (chunk : bytes) | SEof (chunk : bytes) | SEofWithTrailers (chunk : bytes)
| SDefer | SFail (e : BodyError).

(** The two traits a body can have.  [fill] is given the buffer and gives it back as it left
    it; it cannot change its length. *)
Class BodySources := {
  push_source : Type;
  fill : push_source → bytes → push_source * bytes * BodyOutcome;
  fill_length : ∀ s buf, length (fill s buf).1.2 = length buf;
  shared_source : Type;
  take_shared : shared_source → nat → shared_source * SharedOutcome
}.

(** [BytesBody], the crate's own source. *)
Record BytesBody := mkBytesBody { data : bytes; offset : nat; trailers : bool }.

Module Bytes.
Definition new (data : bytes) : BytesBody := mkBytesBody data 0 false.
Definition with_trailers (b : BytesBody) : BytesBody := mkBytesBody (data b) (offset b) true.

Definition fill (b : BytesBody) (buf : bytes) : BytesBody * bytes * BodyOutcome :=
  let remaining := (length (data b) - offset b)%nat in
  let n := Nat.min remaining (length buf) in
  let buf := take n (drop (offset b) (data b)) ++ drop n buf in
  let b := mkBytesBody (data b) (offset b + n)%nat (trailers b) in
  (b, buf,
   if decide (offset b < length (data b))%nat then Wrote n
   else if trailers b then EofWithTrailers n
   else Eof n).
End Bytes.

(** ** handlers.rs *)

Inductive HeaderAction := Continue | CancelStream.

Record Handlers (C : Type) := mkHandlers {
  begin_headers : option (FrameInfo → C → C * HeaderAction);
  header : option (FrameInfo → bytes → bytes → C → C * HeaderAction);
  data_chunk : option (Z → bytes → C → C);
  frame_recv : option (FrameInfo → C → C);
  stream_close : option (Z → Z → option BodyError → C → C)
}.
Arguments mkHandlers {C}.
Arguments begin_headers {C}.
Arguments header {C}.
Arguments data_chunk {C}.
Arguments frame_recv {C}.
Arguments stream_close {C}.

(** ** Header validation, exactly *)

Definition token_chars : bytes :=
  ascii_bytes "abcdefghijklmnopqrstuvwxyz0123456789!#$%&'*+-.^_`|~".

(** A token, behind at most one colon. *)
Definition name_ok (n : bytes) : Prop :=
  ∃ token, (n = token ∨ n = Zb 0x3a :: token) ∧ token ≠ [] ∧ Forall (.∈ token_chars) token.

(** Visible text, tabs and spaces inside it allowed. *)
Definition value_ok (v : bytes) : Prop :=
  Forall (λ b, bZ b = 9 ∨ (32 ≤ bZ b ∧ bZ b ≠ 127)) v ∧
  (∀ b, head v = Some b ∨ last v = Some b → bZ b ≠ 9 ∧ bZ b ≠ 32).

Definition pseudo (h : Header.Header) : Prop := head (Header.name h) = Some (Zb 0x3a).

#[global] Instance pseudo_dec h : Decision (pseudo h).
Proof. unfold pseudo. apply _. Defined.

Lemma token_byte_ok b : Header.is_token_byte b = true ↔ b ∈ token_chars.
Proof.
  assert (Header.is_token_byte b = bool_decide (b ∈ token_chars)) as ->;
    [|apply bool_decide_eq_true]. by destruct b; vm_compute.
Qed.

Lemma colon_no_token : Zb 0x3a ∉ token_chars.
Proof. by apply (bool_decide_eq_false_1 (Zb 0x3a ∈ token_chars)). Qed.

Lemma token_loop_ok t : Header.token_loop t = Ok () ↔ Forall (.∈ token_chars) t.
Proof.
  induction t as [|b t IH]; simpl; [split; [constructor|done]|].
  rewrite Forall_cons, <- IH, <- token_byte_ok.
  destruct (Header.is_token_byte b); simpl; [by split; [|intros []]|].
  split; [by case_match|by intros []].
Qed.

Lemma value_byte_exact b : Header.value_byte_ok b = true ↔ bZ b = 9 ∨ (32 ≤ bZ b ∧ bZ b ≠ 127).
Proof.
  pose proof (bZ_bound b). unfold Header.value_byte_ok, in_range.
  rewrite orb_true_iff, andb_true_iff, orb_true_iff, andb_true_iff, negb_true_iff, Z.eqb_eq,
    Z.eqb_neq, !Z.leb_le. lia.
Qed.

Lemma h2_value_loop_ok v :
  Header.value_loop v = Ok () ↔ Forall (λ b, bZ b = 9 ∨ (32 ≤ bZ b ∧ bZ b ≠ 127)) v.
Proof.
  induction v as [|b v IH]; simpl; [split; [constructor|done]|].
  rewrite Forall_cons, <- IH, <- value_byte_exact.
  destruct (Header.value_byte_ok b); simpl; [by split; [|intros []]|]. by split; [|intros []].
Qed.

Lemma whitespace_exact b : Header.is_whitespace b = false ↔ bZ b ≠ 9 ∧ bZ b ≠ 32.
Proof. unfold Header.is_whitespace. rewrite orb_false_iff, !Z.eqb_neq. lia. Qed.

(** The checks of a field's value. *)
Lemma value_exact v (seen seen' : bool) :
  (let? _ := Header.value_loop v in
   match head v, last v with
   | Some f, Some l =>
       if Header.is_whitespace f || Header.is_whitespace l
       then Err (Header.invalid "a header value must not begin or end with whitespace")
       else Ok seen
   | _, _ => Ok seen
   end) = Ok seen' ↔ value_ok v ∧ seen' = seen.
Proof.
  unfold value_ok. rewrite <- h2_value_loop_ok. destruct (Header.value_loop v) as [[]|];
    [|by split; [|intros [[]]]].
  destruct v as [|f t].
  { split; [intros [= <-]; split_and!; try done; by intros b [|]|by intros [_ ->]]. }
  cbn [head]. destruct (last (f :: t)) as [l|] eqn:Hl; [|by apply last_None in Hl].
  destruct (Header.is_whitespace f || Header.is_whitespace l) eqn:He.
  - split; [done|]. intros [[_ Hb] _]. exfalso. apply orb_true_iff in He.
    destruct He as [He|He]; rewrite (proj2 (whitespace_exact _)) in He; try done; apply Hb; auto.
  - apply orb_false_iff in He as [Hf Hll]. apply whitespace_exact in Hf, Hll.
    split; [intros [= <-]|by intros [_ ->]]. split_and!; try done.
    intros b [[= <-]|[= <-]]; auto.
Qed.

Lemma name_ok_pseudo tl :
  name_ok (Zb 0x3a :: tl) ↔ tl ≠ [] ∧ Forall (.∈ token_chars) tl.
Proof.
  split.
  - intros (token & [E|E] & Hne & Hall); simplify_eq; [|done].
    apply Forall_cons in Hall as [Hc _]. by apply colon_no_token in Hc.
  - intros [Hne Hall]. exists tl. auto.
Qed.

Lemma name_ok_regular f tl :
  f ≠ Zb 0x3a → name_ok (f :: tl) ↔ Forall (.∈ token_chars) (f :: tl).
Proof.
  intros Hf. split.
  - intros (token & [E|E] & Hne & Hall); simplify_eq; done.
  - intros Hall. exists (f :: tl). by auto.
Qed.

(** A chain of checks. *)
Lemma let_ok {A B} (r : Result A) (k : A → Result B) b :
  (let? a := r in k a) = Ok b ↔ ∃ a, r = Ok a ∧ k a = Ok b.
Proof. destruct r; split; [eauto|by intros (? & [= <-] & ?)|done|by intros (? & ? & _)]. Qed.

Lemma unit_ok (r : Result unit) P : (∃ a, r = Ok a ∧ P) ↔ r = Ok () ∧ P.
Proof. split; [intros ([] & ? & ?); auto|intros []; eauto]. Qed.

(** One field, exactly: what follows has seen a regular field if this is one. *)
Lemma validate_one_exact seen h seen' :
  Header.validate_one seen h = Ok seen' ↔
  name_ok (Header.name h) ∧ value_ok (Header.value h) ∧
  (pseudo h → seen = false) ∧ seen' = seen || negb (bool_decide (pseudo h)).
Proof.
  destruct h as [n v sens]. unfold Header.validate_one, pseudo. cbn [Header.name Header.value].
  destruct n as [|f tl].
  { split; [done|]. by intros ((token & [E|E] & Hne & _) & _). }
  cbn [head]. destruct (decide (f = Zb 0x3a)) as [->|Hf].
  - rewrite (bool_decide_eq_true_2 (Zb 0x3a = Zb 0x3a)) by done.
    rewrite (bool_decide_eq_true_2 (Some (Zb 0x3a) = Some (Zb 0x3a))) by done.
    rewrite name_ok_pseudo. cbn [andb negb]. rewrite orb_false_r.
    destruct (bool_decide_reflect (tl = [])) as [->|Hne]; [by split; [|intros ((? & _) & _)]|].
    rewrite let_ok, unit_ok, token_loop_ok. destruct seen.
    + split; [by intros [_ ?]|]. by intros (_ & _ & Hs & _); discriminate (Hs eq_refl).
    + rewrite value_exact. split; [intros (? & ? & ->)|intros ([_ ?] & ? & _ & ->)]; by auto.
  - rewrite (bool_decide_eq_false_2 (f = Zb 0x3a)) by done.
    rewrite (bool_decide_eq_false_2 (Some f = Some (Zb 0x3a))) by congruence.
    rewrite name_ok_regular by done. cbn [andb negb]. rewrite orb_true_r.
    rewrite let_ok, unit_ok, token_loop_ok, value_exact.
    split; [intros (? & ? & ->)|by intros (? & ? & _ & ->)].
    split; [done|]. split; [done|]. split; [congruence|done].
Qed.

Lemma validate_loop_exact seen hs :
  Header.validate_loop seen hs = Ok () ↔
  Forall (λ h, name_ok (Header.name h) ∧ value_ok (Header.value h)) hs ∧
  ∃ ps rs, hs = ps ++ rs ∧ Forall pseudo ps ∧ Forall (λ h, ¬ pseudo h) rs ∧
    (seen = true → ps = []).
Proof.
  revert seen. induction hs as [|h hs IH]; intros seen; cbn.
  - split; [|done]. intros _. split; [constructor|]. by exists [], [].
  - rewrite let_ok. setoid_rewrite validate_one_exact. setoid_rewrite IH. split.
    + intros (seen' & (Hn & Hv & Hp & ->) & Hall & ps & rs & -> & Hps & Hrs & Hs).
      split; [by constructor|]. destruct (decide (pseudo h)) as [Hh|Hh].
      * exists (h :: ps), rs. split_and!; try done; [by constructor|].
        intros Hs'. by rewrite (Hp Hh) in Hs'.
      * rewrite bool_decide_eq_false_2 in Hs by done. rewrite orb_true_r in Hs.
        rewrite (Hs eq_refl). exists [], (h :: rs). split_and!; try done. by constructor.
    + intros [[[Hn Hv] Hall]%Forall_cons (ps & rs & Heq & Hps & Hrs & Hs)].
      exists (seen || negb (bool_decide (pseudo h))). destruct ps as [|p ps].
      * cbn in Heq. subst rs. apply Forall_cons in Hrs as [Hh Hrs].
        rewrite bool_decide_eq_false_2 by done. split_and!; try done. by exists [], hs.
      * injection Heq as -> ->. apply Forall_cons in Hps as [Hh Hps].
        rewrite bool_decide_eq_true_2 by done. rewrite orb_false_r.
        assert (seen = false) as -> by (destruct seen; [by specialize (Hs eq_refl)|done]).
        split_and!; try done. by exists ps, rs.
Qed.

(** A set of header fields is accepted exactly when it is not empty, every name is a
    lower-case token behind at most one colon, every value is visible text without
    whitespace at its ends (so without NUL, CR or LF), and the pseudo-headers all come first;
    a trailer set, when moreover it has no pseudo-header.  What is handed to nghttp2 is then
    the fields as given, in order. *)
Theorem headers_exact `{Nghttp2Codes} hs nva :
  (Header.to_nv_vec hs = Ok nva ↔
     nva = Header.as_nv <$> hs ∧ hs ≠ [] ∧
     Forall (λ h, name_ok (Header.name h) ∧ value_ok (Header.value h)) hs ∧
     ∃ ps rs, hs = ps ++ rs ∧ Forall pseudo ps ∧ Forall (λ h, ¬ pseudo h) rs) ∧
  (Header.to_trailer_nv_vec hs = Ok nva ↔
     Header.to_nv_vec hs = Ok nva ∧ Forall (λ h, ¬ pseudo h) hs).
Proof.
  assert (Header.validate hs = Ok () ↔ hs ≠ [] ∧ Header.validate_loop false hs = Ok ()) as Hval.
  { destruct hs; cbn; [by split; [|intros []]|]. by split; [|intros []]. }
  unfold Header.to_nv_vec, Header.to_trailer_nv_vec. rewrite !let_ok, !unit_ok. split.
  - rewrite Hval, validate_loop_exact. split.
    + intros ((Hne & Hall & ps & rs & -> & Hps & Hrs & _) & [= <-]). split_and!; eauto.
    + intros (-> & Hne & Hall & ps & rs & -> & Hps & Hrs). split; [|done].
      split_and!; try done. exists ps, rs. by split_and!.
  - assert (existsb (λ h, Header.is_pseudo_name (Header.name h)) hs = false
            ↔ Forall (λ h, ¬ pseudo h) hs) as Hex.
    { clear. induction hs as [|h hs IH]; cbn; [split; [constructor|done]|].
      rewrite orb_false_iff, Forall_cons, IH. unfold Header.is_pseudo_name.
      by rewrite bool_decide_eq_false. }
    destruct (existsb _ hs); rewrite <- Hex.
    + split; [by intros [_ ?]|by intros [_ ?]].
    + split; [intros [? [= <-]]|intros [[? [= <-]] _]]; auto.
Qed.
