(* ===== verification/H2State.v ===== *)
(** * The bookkeeping of an HTTP/2 session (crates/ngnet-h2/src/state.rs)

    Body entries and the registry that owns them, errors waiting for their stream to close,
    the guard against answering twice, and the tracker that knows whether the input stopped
    inside a frame. *)

From Stdlib Require Import ZArith Lia Strings.Byte.
From stdpp Require Import base list gmap strings.
From S2P Require Import Prelude H2Types.

#[local] Open Scope nat_scope.

(** ** Bodies

    An entry lives at an address of its own from [prepare] until it is released; nghttp2
    holds addresses.  [Memory] has what is live at each address; using or releasing an
    address with nothing live at it is undefined behaviour, which is remembered. *)

Section Bodies.
Context `{BodySources}.

Inductive Source := Push (s : push_source) | SharedBody (s : shared_source).

Record BodyEntry := mkEntry {
  source : Source;
  trailers_ready : bool;
  staged : option bytes
}.

Definition address : Type := nat.

Record Memory := mkMemory {
  live : gmap address BodyEntry;
  next : address;
  undefined : bool
}.

Record SendRecord := mkRecord { header_octets : bytes; payload : bytes }.
End Bodies.
Arguments mkMemory {_}.
Arguments mkEntry {_}.

Module Memory.
Section Ops.
Context `{BodySources}.

Definition initial : Memory := mkMemory ∅ 0 false.

(** [Box::into_raw(Box::new(entry))]: an address never handed out before. *)
Definition alloc (e : BodyEntry) (m : Memory) : Memory * address :=
  (mkMemory (<[next m := e]> (live m)) (S (next m)) (undefined m), next m).

(** [drop(Box::from_raw(entry))]. *)
Definition free (a : address) (m : Memory) : Memory :=
  match live m !! a with
  | Some _ => mkMemory (delete a (live m)) (next m) (undefined m)
  | None => mkMemory (live m) (next m) true
  end.

Definition write (a : address) (e : BodyEntry) (m : Memory) : Memory :=
  mkMemory (<[a := e]> (live m)) (next m) (undefined m).

Definition undef (m : Memory) : Memory := mkMemory (live m) (next m) true.
End Ops.
End Memory.

Module Entry.
Section Ops.
Context `{BodySources}.
Definition new (s : push_source) : BodyEntry := mkEntry (Push s) false None.
Definition new_shared (s : shared_source) : BodyEntry := mkEntry (SharedBody s) false None.
End Ops.
End Entry.

Module Registry.
Section Ops.
Context `{BodySources}.
Implicit Types (r : gmap Z address) (m : Memory).

Definition prepare (e : BodyEntry) m : Memory * address := Memory.alloc e m.

(** A body already there is left where it is and forgotten. *)
Definition attach (stream : Z) (a : address) r : gmap Z address := <[stream := a]> r.

Definition discard (a : address) m : Memory := Memory.free a m.

Definition detach (stream : Z) r m : gmap Z address * Memory :=
  match r !! stream with
  | Some a => (delete stream r, Memory.free a m)
  | None => (r, m)
  end.

Definition trailers_ready (stream : Z) r m : Memory * bool :=
  match r !! stream with
  | Some a =>
      match live m !! a with
      | Some e => (m, H2State.trailers_ready e)
      | None => (Memory.undef m, false)
      end
  | None => (m, false)
  end.

(** [Drop]: every entry is released. *)
Definition drop r m : Memory := foldr (λ p, Memory.free p.2) m (map_to_list r).
End Ops.
End Registry.

Module Pending.
Definition park (stream : Z) (e : BodyError) (p : gmap Z BodyError) : gmap Z BodyError :=
  <[stream := e]> p.
Definition take (stream : Z) (p : gmap Z BodyError) : gmap Z BodyError * option BodyError :=
  (delete stream p, p !! stream).
End Pending.

Module Guard.
(** [true] for the first claim. *)
Definition claim (stream : Z) (g : gset Z) : gset Z * bool :=
  ({[stream]} ∪ g, negb (bool_decide (stream ∈ g))).
Definition release (stream : Z) (g : gset Z) : gset Z := g ∖ {[stream]}.
End Guard.

(** ** FrameProgress *)

Inductive Framing :=
| Preface (remaining : nat)
| FrameHeader (have : nat)
| Payload (remaining : nat).

Record FrameProgress := mkProgress { state : Framing; pending : bytes }.

Module Progress.
Definition FRAME_HEADER : nat := 9.
Definition CLIENT_PREFACE : nat := 24.

Definition new (expects_preface : bool) : FrameProgress :=
  mkProgress (if expects_preface then Preface CLIENT_PREFACE else FrameHeader 0)
    (replicate FRAME_HEADER x00).

(** [dst[from..from + src.len()].copy_from_slice(src)]; [None] is the panic. *)
Definition copy_into (from : nat) (src dst : bytes) : option bytes :=
  if decide (from + length src ≤ length dst)
  then Some (take from dst ++ src ++ drop (from + length src) dst) else None.

(** [u32::from_be_bytes([0, b[0], b[1], b[2]])]. *)
Definition be24 (b : bytes) : option nat :=
  match b with
  | b0 :: b1 :: b2 :: _ => Some (Z.to_nat (bZ b0 * 65536 + bZ b1 * 256 + bZ b2))
  | _ => None
  end.

(** One pass of the loop: the state and what is left of the input; [true] to return. *)
Definition pass (p : FrameProgress) (input : bytes) : option (FrameProgress * bytes * bool) :=
  match state p with
  | Preface remaining =>
      let taken := Nat.min remaining (length input) in
      Some (mkProgress (if decide (taken = remaining) then FrameHeader 0
                        else Preface (remaining - taken)) (pending p),
            drop taken input, false)
  | FrameHeader have =>
      let want := FRAME_HEADER - have in
      let taken := Nat.min want (length input) in
      let! octets := copy_into have (take taken input) (pending p) in
      if decide (taken < want) then
        Some (mkProgress (FrameHeader (have + taken)) octets, input, true)
      else
        let! length_ := be24 octets in
        Some (mkProgress (if decide (length_ = 0) then FrameHeader 0 else Payload length_) octets,
              drop taken input, false)
  | Payload remaining =>
      let taken := Nat.min remaining (length input) in
      Some (mkProgress (if decide (taken = remaining) then FrameHeader 0
                        else Payload (remaining - taken)) (pending p),
            drop taken input, false)
  end.

(** The loop; every pass takes a byte at least, so the input's length is fuel enough. *)
Fixpoint advance_loop (fuel : nat) (p : FrameProgress) (input : bytes) : option FrameProgress :=
  match input with
  | [] => Some p
  | _ =>
      match fuel with
      | O => None
      | S fuel =>
          let! (p, input, stop) := pass p input in
          if (stop : bool) then Some p else advance_loop fuel p input
      end
  end.

Definition advance (p : FrameProgress) (input : bytes) : option FrameProgress :=
  advance_loop (length input) p input.

Definition in_frame (p : FrameProgress) : bool :=
  match state p with
  | Preface _ => false
  | FrameHeader have => bool_decide (0 < have)
  | Payload _ => true
  end.
End Progress.

(** ** The tracker, exactly

    The specification knows nothing of reads: after the preface, the input is a sequence of
    frames, each nine octets of header, the first three the length of the payload. *)

Inductive Frames : bytes → Prop :=
| frames_nil : Frames []
| frames_cons hdr payload rest :
    length hdr = Progress.FRAME_HEADER → Progress.be24 hdr = Some (length payload) →
    Frames rest → Frames (hdr ++ payload ++ rest).

Definition after_preface (expects_preface : bool) (s : bytes) : bytes :=
  if expects_preface then drop Progress.CLIENT_PREFACE s else s.

Lemma frames_app a b : Frames a → Frames b → Frames (a ++ b).
Proof.
  induction 1 as [|hdr pl rest Hh Hl Hr IH]; [done|]. intros Hb. rewrite <- !(assoc_L (++)).
  constructor; auto.
Qed.

Lemma frames_one hdr payload :
  length hdr = Progress.FRAME_HEADER → Progress.be24 hdr = Some (length payload) →
  Frames (hdr ++ payload).
Proof. intros. rewrite <- (app_nil_r payload). constructor; [done..|]. constructor. Qed.

(** What follows whole frames is whole frames or not, whatever the frames. *)
Lemma frames_cancel a b : Frames a → Frames (a ++ b) → Frames b.
Proof.
  induction 1 as [|hdr pl rest Hh Hl Hr IH]; [done|]. rewrite <- !(assoc_L (++)).
  intros Hf. apply IH. inversion Hf as [Heq|hdr' pl' rest' Hh' Hl' Hr' Heq].
  - by destruct hdr.
  - apply app_inj_1 in Heq as [-> Heq]; [|congruence]. rewrite Hl in Hl'. simplify_eq.
    by apply app_inj_1 in Heq as [-> ->].
Qed.

Lemma frames_short h : 0 < length h < Progress.FRAME_HEADER → ¬ Frames h.
Proof.
  intros Hlen Hf. inversion Hf as [Heq|hdr pl rest Hh Hl Hr Heq]; subst; [simpl in Hlen; lia|].
  rewrite length_app in Hlen. lia.
Qed.

Lemma frames_partial hdr pl len :
  length hdr = Progress.FRAME_HEADER → Progress.be24 hdr = Some len → length pl < len →
  ¬ Frames (hdr ++ pl).
Proof.
  intros Hh Hl Hlt Hf. inversion Hf as [Heq|hdr' pl' rest Hh' Hl' Hr Heq].
  - by destruct hdr.
  - apply app_inj_1 in Heq as [-> <-]; [|congruence]. rewrite Hl in Hl'. simplify_eq.
    rewrite length_app in Hlt. lia.
Qed.

Lemma be24_take b : Progress.be24 (take Progress.FRAME_HEADER b) = Progress.be24 b.
Proof. by destruct b as [|? [|? [|? ?]]]. Qed.

(** What the tracker's state says of the input so far. *)
Definition tracks (expects : bool) (p : FrameProgress) (s : bytes) : Prop :=
  length (pending p) = Progress.FRAME_HEADER ∧
  match state p with
  | Preface r => expects = true ∧ length s + r = Progress.CLIENT_PREFACE ∧ 0 < r
  | FrameHeader have =>
      (expects = true → Progress.CLIENT_PREFACE ≤ length s) ∧ have < Progress.FRAME_HEADER ∧
      ∃ fs h, after_preface expects s = fs ++ h ∧ Frames fs ∧ length h = have ∧
        take have (pending p) = h
  | Payload r =>
      (expects = true → Progress.CLIENT_PREFACE ≤ length s) ∧ 0 < r ∧
      ∃ fs hdr pl, after_preface expects s = fs ++ hdr ++ pl ∧ Frames fs ∧
        length hdr = Progress.FRAME_HEADER ∧ Progress.be24 hdr = Some (length pl + r)
  end.

Lemma tracks_new expects : tracks expects (Progress.new expects) [].
Proof.
  split; [done|]. unfold Progress.new, Progress.CLIENT_PREFACE, Progress.FRAME_HEADER.
  destruct expects; simpl; (split_and!; [done|lia|]); [lia|].
  exists [], []. split_and!; try done. constructor.
Qed.

Lemma tracks_in_frame expects p s :
  tracks expects p s → Progress.in_frame p = false ↔ Frames (after_preface expects s).
Proof.
  intros [_ Ht]. unfold Progress.in_frame. destruct (state p) as [r|have|r].
  - destruct Ht as (-> & Hlen & Hr). split; [intros _|done]. unfold after_preface.
    rewrite drop_ge by lia. constructor.
  - destruct Ht as (_ & Hlt & fs & h & -> & Hfs & Hh & _). split.
    + intros Hz%bool_decide_eq_false. destruct h; [by rewrite app_nil_r|simpl in *; lia].
    + intros Hf%(frames_cancel fs); [|done]. apply bool_decide_eq_false. intros Hp.
      apply (frames_short h); [lia|done].
  - destruct Ht as (_ & Hr & fs & hdr & pl & -> & Hfs & Hh & Hl). split; [done|].
    intros Hf%(frames_cancel fs); [|done]. 
    exfalso. revert Hf. apply (frames_partial hdr pl (length pl + r)); [done..|lia].
Qed.

Lemma after_preface_app expects s x :
  (expects = true → Progress.CLIENT_PREFACE ≤ length s) →
  after_preface expects (s ++ x) = after_preface expects s ++ x.
Proof. unfold after_preface. destruct expects; [|done]. intros Hs. apply drop_app_le. auto. Qed.

(** Whole frames so far. *)
Lemma tracks_boundary expects s fs octets :
  length octets = Progress.FRAME_HEADER →
  (expects = true → Progress.CLIENT_PREFACE ≤ length s) →
  after_preface expects s = fs → Frames fs →
  tracks expects (mkProgress (FrameHeader 0) octets) s.
Proof.
  intros Ho Hs Ha Hf. split; [done|]. simpl. split_and!; [done|unfold Progress.FRAME_HEADER; lia|].
  exists fs, []. by rewrite app_nil_r.
Qed.

Lemma copy_into_spec from src dst :
  from + length src ≤ length dst →
  ∃ out, Progress.copy_into from src dst = Some out ∧ length out = length dst
    ∧ take (from + length src) out = take from dst ++ src.
Proof.
  intros Hle. unfold Progress.copy_into. rewrite decide_True by done. eexists. split; [done|].
  rewrite !length_app, length_take, length_drop. split; [lia|].
  rewrite (assoc_L (++)). apply take_app_exact. rewrite length_app, length_take. lia.
Qed.

Lemma be24_total b : length b = Progress.FRAME_HEADER → ∃ n, Progress.be24 b = Some n.
Proof. destruct b as [|? [|? [|? ?]]]; try done. eauto. Qed.

(** A pass that takes [k] octets and goes on, or takes the rest and returns. *)
Definition pass_tracks expects p s input : Prop :=
  (∃ p', Progress.pass p input = Some (p', input, true) ∧ tracks expects p' (s ++ input)) ∨
  ∃ p' k, 0 < k ∧ Progress.pass p input = Some (p', drop k input, false)
    ∧ tracks expects p' (s ++ take k input).

Lemma pass_preface expects p s input r :
  state p = Preface r → tracks expects p s → 0 < length input → pass_tracks expects p s input.
Proof.
  intros Hst [Ho Ht] Hin. rewrite Hst in Ht. unfold pass_tracks, Progress.pass. rewrite Hst.
  destruct Ht as (-> & Hlen & Hr). right.
  eexists _, (Nat.min r (length input)). split; [lia|]. split; [done|].
  assert (length (take (Nat.min r (length input)) input) = Nat.min r (length input)) as Htk
    by (rewrite length_take; lia).
  case_decide.
  - eapply tracks_boundary; try done; [intros _; rewrite length_app; lia|].
    unfold after_preface. rewrite drop_ge by (rewrite length_app; lia). constructor.
  - split; [done|]. simpl. split_and!; [done|rewrite length_app; lia|lia].
Qed.

Lemma pass_header expects p s input have :
  state p = FrameHeader have → tracks expects p s → 0 < length input → pass_tracks expects p s input.
Proof.
  intros Hst [Ho Ht] Hin. rewrite Hst in Ht. unfold pass_tracks, Progress.pass. rewrite Hst.
  destruct Ht as (Hs & Hlt & fs & h & Ha & Hfs & Hh & Hph).
  unfold Progress.FRAME_HEADER in *.
  set (k := Nat.min (9 - have) (length input)).
  assert (length (take k input) = k) as Htk by (rewrite length_take; lia).
  destruct (copy_into_spec have (take k input) (pending p)) as (octets & -> & Hlo & Hto);
    [lia|].
  rewrite Htk, Hph in Hto. case_decide as Hk.
  - left. eexists. split; [done|]. split; [unfold Progress.FRAME_HEADER; simpl; lia|]. simpl.
    rewrite after_preface_app by done. assert (k = length input) as Hkl by lia.
    split_and!; [rewrite length_app; intros ?%Hs; lia|unfold Progress.FRAME_HEADER; lia|].
    exists fs, (h ++ input). rewrite Ha, <- (assoc_L (++)). split_and!; try done.
    + rewrite length_app. lia.
    + rewrite Hto. by rewrite Hkl, firstn_all.
  - right. destruct (be24_total octets) as [n Hn]; [unfold Progress.FRAME_HEADER; lia|].
    rewrite Hn. eexists _, k. split; [lia|]. split; [done|].
    assert (octets = h ++ take k input) as Hoc.
    { rewrite <- Hto. rewrite take_ge by lia. done. }
    assert (expects = true → Progress.CLIENT_PREFACE ≤ length (s ++ take k input)) as Hs'.
    { rewrite length_app. intros ?%Hs. lia. }
    assert (after_preface expects (s ++ take k input) = fs ++ octets) as Ha'.
    { rewrite after_preface_app by done. by rewrite Ha, Hoc, <- (assoc_L (++)). }
    case_decide as Hz.
    + eapply tracks_boundary; [|done|exact Ha'|]; [unfold Progress.FRAME_HEADER; lia|].
      subst n. apply frames_app; [done|]. rewrite <- (app_nil_r octets).
      apply frames_one; [unfold Progress.FRAME_HEADER; lia|done].
    + split; [simpl; unfold Progress.FRAME_HEADER; lia|]. simpl. split_and!; [done|lia|].
      exists fs, octets, []. rewrite app_nil_r. split_and!; try done.
      unfold Progress.FRAME_HEADER; lia.
Qed.

Lemma pass_payload expects p s input r :
  state p = Payload r → tracks expects p s → 0 < length input → pass_tracks expects p s input.
Proof.
  intros Hst [Ho Ht] Hin. rewrite Hst in Ht. unfold pass_tracks, Progress.pass. rewrite Hst.
  destruct Ht as (Hs & Hr & fs & hdr & pl & Ha & Hfs & Hh & Hl). right.
  set (k := Nat.min r (length input)). exists (mkProgress (if decide (k = r) then FrameHeader 0
    else Payload (r - k)) (pending p)), k. split; [lia|]. split; [done|].
  assert (length (take k input) = k) as Htk by (rewrite length_take; lia).
  assert (expects = true → Progress.CLIENT_PREFACE ≤ length (s ++ take k input)) as Hs'.
  { rewrite length_app. intros ?%Hs. lia. }
  assert (after_preface expects (s ++ take k input) = fs ++ hdr ++ pl ++ take k input) as Ha'.
  { rewrite after_preface_app by done. by rewrite Ha, <- !(assoc_L (++)). }
  case_decide as Hk.
  - eapply tracks_boundary; [done|done|exact Ha'|]. apply frames_app; [done|].
    apply frames_one; [done|]. rewrite Hl, length_app. f_equal. lia.
  - split; [done|]. simpl. split_and!; [done|lia|]. exists fs, hdr, (pl ++ take k input).
    split_and!; try done. rewrite Hl, length_app. f_equal. lia.
Qed.

Lemma pass_ok expects p s input :
  tracks expects p s → input ≠ [] → pass_tracks expects p s input.
Proof.
  intros Ht Hne. assert (0 < length input) as Hin by (destruct input; [done|simpl; lia]).
  destruct (state p) as [r|have|r] eqn:Hst.
  - by apply (pass_preface _ _ _ _ r).
  - by apply (pass_header _ _ _ _ have).
  - by apply (pass_payload _ _ _ _ r).
Qed.

Lemma advance_loop_tracks expects fuel p s input :
  tracks expects p s → length input ≤ fuel →
  ∃ p', Progress.advance_loop fuel p input = Some p' ∧ tracks expects p' (s ++ input).
Proof.
  revert p s input. induction fuel as [|fuel IH]; intros p s input Ht Hf.
  - destruct input; [|simpl in Hf; lia]. exists p. by rewrite app_nil_r.
  - destruct (decide (input = [])) as [->|Hne]; [exists p; by rewrite app_nil_r|].
    assert (Progress.advance_loop (S fuel) p input =
      (let! (p, input, stop) := Progress.pass p input in
       if (stop : bool) then Some p else Progress.advance_loop fuel p input)) as ->
      by by destruct input.
    destruct (pass_ok expects p s input Ht Hne) as [(p' & -> & Ht')|(p' & k & Hk & -> & Ht')];
      [eauto|].
    destruct (IH p' (s ++ take k input) (drop k input) Ht') as (p'' & -> & Ht'').
    { rewrite length_drop. lia. }
    exists p''. split; [done|]. by rewrite <- (assoc_L (++)), take_drop in Ht''.
Qed.

Fixpoint feed (p : FrameProgress) (chunks : list bytes) : option FrameProgress :=
  match chunks with
  | [] => Some p
  | c :: chunks => let! p := Progress.advance p c in feed p chunks
  end.

Lemma feed_tracks expects p s chunks :
  tracks expects p s →
  ∃ p', feed p chunks = Some p' ∧ tracks expects p' (s ++ concat chunks).
Proof.
  revert p s. induction chunks as [|c chunks IH]; intros p s Ht; simpl.
  - exists p. by rewrite app_nil_r.
  - destruct (advance_loop_tracks expects (length c) p s c Ht) as (p1 & Hp1 & Ht1); [done|].
    unfold Progress.advance. rewrite Hp1. destruct (IH p1 (s ++ c) Ht1) as (p2 & Hp2 & Ht2).
    exists p2. split; [done|]. by rewrite (assoc_L (++)).
Qed.

(** However the input is cut into reads, the tracker neither panics nor loops, and it
    says "inside a frame" exactly when the octets after the connection preface do not end
    with a whole frame. *)
Theorem frame_progress_exact expects_preface chunks :
  ∃ p, feed (Progress.new expects_preface) chunks = Some p ∧
    (Progress.in_frame p = false ↔ Frames (after_preface expects_preface (concat chunks))).
Proof.
  destruct (feed_tracks expects_preface _ [] chunks (tracks_new expects_preface))
    as (p & Hp & Ht).
  exists p. split; [done|]. by apply tracks_in_frame.
Qed.
