(* ===== verification/H2Session.v ===== *)
(** * The HTTP/2 session wrapper (crates/ngnet-h2/src/session.rs, callbacks.rs)

    The safe wrapper around nghttp2.  The C library is the class [Nghttp2]: one entry point
    that takes a [request] (one constructor per C function), may call back into Rust any
    number of times, and gives a [response].  A body is handed over as the address of its
    entry, and the library hands that address back. *)

From Stdlib Require Import ZArith Lia Strings.Byte.
From stdpp Require Import base list gmap strings.
From S2P Require Import Prelude H2Types H2State.

(** ** nghttp2 *)

Inductive Role := Client | Server.

#[global] Instance Role_eq_dec : EqDecision Role.
Proof. solve_decision. Defined.

(** The calls nghttp2 makes into Rust. *)
Inductive callback :=
| CbBeginHeaders (f : frame)
| CbHeader (f : frame) (name value : bytes)
| CbDataChunk (stream_id : Z) (data : bytes)
| CbFrameRecv (f : frame)
| CbStreamClose (stream_id error_code : Z)
| CbReadBody (source : address) (stream_id : Z) (length_ : nat)
| CbSendData (source : address) (framehd : bytes) (length_ : nat).

(** What a callback answers: its return value and, for a body, what it left in the buffer
    and the flags it set. *)
Record cb_answer := mkAnswer { a_rv : Z; a_buf : bytes; a_flags : Z }.

Definition code (rv : Z) : cb_answer := mkAnswer rv [] 0.

Inductive request :=
| ReqSubmitSettings (entries : list (Z * Z))
| ReqMemSend
| ReqMemRecv (input : bytes)
| ReqSubmitRequest (nva : list Header.nv) (provider : option address)
| ReqSubmitResponse (stream_id : Z) (nva : list Header.nv) (provider : option address)
| ReqSubmitHeaders (stream_id : Z) (nva : list Header.nv)
| ReqSubmitTrailer (stream_id : Z) (nva : list Header.nv)
| ReqConsume (stream_id : Z) (len : nat)
| ReqSubmitRstStream (stream_id code : Z)
| ReqSubmitGoaway (last_stream_id code : Z)
| ReqGetLastProcStreamId
| ReqGetStreamLocalClose (stream_id : Z)
| ReqResumeData (stream_id : Z)
| ReqWantRead
| ReqWantWrite.

(** The return value and, for a send, the octets the out-parameter points at. *)
Record response := mkResponse { rs_rv : Z; rs_data : bytes }.

Class Nghttp2 := {
  nghttp2_codes : Nghttp2Codes;
  nghttp2_session : Type;
  (** The return values of the two small constructors. *)
  nghttp2_option_new : Z;
  nghttp2_session_callbacks_new : Z;
  (** A session, or a code other than 0; the flag is the no-auto-window-update option. *)
  nghttp2_session_new : Role → bool → result nghttp2_session Z;
  nghttp2_call :
    request → ∀ B : Type, (B → callback → B * cb_answer) → nghttp2_session → B →
    nghttp2_session * B * response
}.
#[global] Existing Instance nghttp2_codes.

(** ** callbacks.rs *)

(** What the callbacks reach through the user data, while a call lends it. *)
Record Bridge (C : Type) := mkBridge {
  b_bodies : gmap Z address;
  b_pending : gmap Z BodyError;
  b_responded : gset Z;
  b_records : list SendRecord;
  b_context : C
}.
Arguments mkBridge {C}.
Arguments b_bodies {C}.
Arguments b_pending {C}.
Arguments b_responded {C}.
Arguments b_records {C}.
Arguments b_context {C}.

Module Callbacks.
Section Trampolines.
Context `{Nghttp2, BodySources} {C : Type}.
Variable handlers : Handlers C.
Abbreviation Bridge := (H2Session.Bridge C).

(** The memory the entries live in, and the bridge if one is installed. *)
Abbreviation World := (Memory * option Bridge)%type.

Definition set_context (c : C) (b : Bridge) : Bridge :=
  mkBridge (b_bodies b) (b_pending b) (b_responded b) (b_records b) c.

Definition header_action_code (a : HeaderAction) : Z :=
  match a with Continue => 0 | CancelStream => NGHTTP2_ERR_TEMPORAL_CALLBACK_FAILURE end.

(** A handler that is there is run, unless the frame is a pushed one. *)
Definition on_frame {F} (h : option F) (f : frame)
    (run : F → FrameInfo → C → C * Z) (w : World) : World * cb_answer :=
  match w.2, h with
  | Some b, Some h =>
      let info := Frame.frame_info f in
      if frame_kind info =? NGHTTP2_PUSH_PROMISE then (w, code 0)
      else
        let '(c, rv) := run h info (b_context b) in
        ((w.1, Some (set_context c b)), code rv)
  | _, _ => (w, code 0)
  end.

Definition on_begin_headers (w : World) (f : frame) : World * cb_answer :=
  on_frame (begin_headers handlers) f (λ h info c,
    let '(c, a) := h info c in (c, header_action_code a)) w.

Definition on_header (w : World) (f : frame) (name value : bytes) : World * cb_answer :=
  on_frame (header handlers) f (λ h info c,
    let '(c, a) := h info name value c in (c, header_action_code a)) w.

Definition on_frame_recv (w : World) (f : frame) : World * cb_answer :=
  on_frame (frame_recv handlers) f (λ h info c, (h info c, 0)) w.

Definition on_data_chunk_recv (w : World) (stream_id : Z) (data : bytes) : World * cb_answer :=
  match w.2, data_chunk handlers with
  | Some b, Some h => ((w.1, Some (set_context (h stream_id data (b_context b)) b)), code 0)
  | _, _ => (w, code 0)
  end.

Definition on_stream_close (w : World) (stream_id error_code : Z) : World * cb_answer :=
  match w.2 with
  | None => (w, code 0)
  | Some b =>
      let responded := Guard.release stream_id (b_responded b) in
      let '(bodies, m) := Registry.detach stream_id (b_bodies b) w.1 in
      let '(pending, body_error) := Pending.take stream_id (b_pending b) in
      let c :=
        match stream_close handlers with
        | Some h => h stream_id error_code body_error (b_context b)
        | None => b_context b
        end in
      ((m, Some (mkBridge bodies pending responded (b_records b) c)), code 0)
  end.

Definition park_body_error (w : World) (stream : Z) (e : BodyError) : World :=
  match w.2 with
  | Some b =>
      (w.1, Some (mkBridge (b_bodies b) (Pending.park stream e (b_pending b)) (b_responded b)
                    (b_records b) (b_context b)))
  | None => w
  end.

Definition body_overrun : BodyError := "body source reported writing more than it was given".
Definition shared_overrun : BodyError := "shared body source handed over too many octets".

Definition failure : cb_answer := code NGHTTP2_ERR_TEMPORAL_CALLBACK_FAILURE.

(** The entry's source and its other fields are updated in place at [a]. *)
Definition read_push_body (w : World) (a : address) (e : BodyEntry) (s : push_source)
    (stream_id : Z) (length_ : nat) : World * cb_answer :=
  let '(s, buf, outcome) := fill s (replicate length_ x00) in
  let put trailers := (Memory.write a (mkEntry (Push s) trailers (staged e)) w.1, w.2) in
  let kept := put (trailers_ready e) in
  let overrun := (park_body_error kept stream_id body_overrun, failure) in
  match outcome with
  | Wrote n =>
      if decide (n ≤ length_)%nat then (kept, mkAnswer (Z.of_nat n) buf 0) else overrun
  | Eof n =>
      if decide (n ≤ length_)%nat
      then (kept, mkAnswer (Z.of_nat n) buf NGHTTP2_DATA_FLAG_EOF) else overrun
  | EofWithTrailers n =>
      if decide (n ≤ length_)%nat
      then (put true, mkAnswer (Z.of_nat n) buf
                        (Z.lor NGHTTP2_DATA_FLAG_EOF NGHTTP2_DATA_FLAG_NO_END_STREAM))
      else overrun
  | Fail e => (park_body_error kept stream_id e, failure)
  | Defer => (kept, code NGHTTP2_ERR_DEFERRED)
  end.

Definition shared_flags (eof trailers : bool) : Z :=
  let flags := NGHTTP2_DATA_FLAG_NO_COPY in
  let flags := if eof then Z.lor flags NGHTTP2_DATA_FLAG_EOF else flags in
  if trailers then Z.lor flags NGHTTP2_DATA_FLAG_NO_END_STREAM else flags.

Definition read_shared_body (w : World) (a : address) (e : BodyEntry) (s : shared_source)
    (stream_id : Z) (length_ : nat) : World * cb_answer :=
  let '(s, outcome) := take_shared s length_ in
  let put trailers staged :=
    (Memory.write a (mkEntry (SharedBody s) trailers staged) w.1, w.2) in
  let kept := put (trailers_ready e) (staged e) in
  let stage chunk eof trailers :=
    if decide (length_ < length chunk)%nat
    then (park_body_error kept stream_id shared_overrun, failure)
    else
      (put ((trailers : bool) || trailers_ready e) (Some chunk),
       mkAnswer (Z.of_nat (length chunk)) [] (shared_flags eof trailers)) in
  match outcome with
  | SWrote chunk => stage chunk false false
  | SEof chunk => stage chunk true false
  | SEofWithTrailers chunk => stage chunk true true
  | SDefer => (kept, code NGHTTP2_ERR_DEFERRED)
  | SFail e => (park_body_error kept stream_id e, failure)
  end.

(** The entry is reached through the data source alone. *)
Definition read_body (w : World) (a : address) (stream_id : Z) (length_ : nat)
  : World * cb_answer :=
  match live w.1 !! a with
  | None => ((Memory.undef w.1, w.2), failure)
  | Some e =>
      match source e with
      | Push s => read_push_body w a e s stream_id length_
      | SharedBody s => read_shared_body w a e s stream_id length_
      end
  end.

Definition send_data (w : World) (a : address) (framehd : bytes) (length_ : nat)
  : World * cb_answer :=
  match w.2 with
  | None => (w, code NGHTTP2_ERR_CALLBACK_FAILURE)
  | Some b =>
      match live w.1 !! a with
      | None => ((Memory.undef w.1, w.2), code NGHTTP2_ERR_CALLBACK_FAILURE)
      | Some e =>
          let m := Memory.write a (mkEntry (source e) (trailers_ready e) None) w.1 in
          match staged e with
          | None => ((m, w.2), code NGHTTP2_ERR_CALLBACK_FAILURE)
          | Some payload =>
              if negb (bool_decide (length payload = length_))
              then ((m, w.2), code NGHTTP2_ERR_CALLBACK_FAILURE)
              else
                ((m, Some (mkBridge (b_bodies b) (b_pending b) (b_responded b)
                             (b_records b ++ [mkRecord framehd payload]) (b_context b))),
                 code 0)
          end
      end
  end.

(** The table [Callbacks::install] fills in; [read_body] comes with each data provider. *)
Definition callbacks (w : World) (c : callback) : World * cb_answer :=
  match c with
  | CbBeginHeaders f => on_begin_headers w f
  | CbHeader f name value => on_header w f name value
  | CbDataChunk s d => on_data_chunk_recv w s d
  | CbFrameRecv f => on_frame_recv w f
  | CbStreamClose s e => on_stream_close w s e
  | CbReadBody a s n => read_body w a s n
  | CbSendData a h n => send_data w a h n
  end.
End Trampolines.
End Callbacks.

(** ** session.rs *)

Record Session (N : Type) `{BodySources} (C : Type) := mkSession {
  raw : N;
  handlers : Handlers C;
  manual_flow_control : bool;
  bodies : gmap Z address;
  pending : gmap Z BodyError;
  responded : gset Z;
  records : list SendRecord;
  frames : FrameProgress;
  (** The memory the entries live in. *)
  memory : Memory
}.
Arguments mkSession {N _ C}.
Arguments raw {N _ C}.
Arguments handlers {N _ C}.
Arguments manual_flow_control {N _ C}.
Arguments bodies {N _ C}.
Arguments pending {N _ C}.
Arguments responded {N _ C}.
Arguments records {N _ C}.
Arguments frames {N _ C}.
Arguments memory {N _ C}.

Module SessionOps.
Section Ops.
Context `{Nghttp2, BodySources} {C : Type}.
Abbreviation Session := (H2Session.Session nghttp2_session C).
Implicit Types (s : Session).

(** *** Updates *)
Definition set_raw v s : Session := mkSession v (handlers s) (manual_flow_control s) (bodies s)
  (pending s) (responded s) (records s) (frames s) (memory s).
Definition set_bodies v s : Session := mkSession (raw s) (handlers s) (manual_flow_control s) v
  (pending s) (responded s) (records s) (frames s) (memory s).
Definition set_responded v s : Session := mkSession (raw s) (handlers s) (manual_flow_control s)
  (bodies s) (pending s) v (records s) (frames s) (memory s).
Definition set_records v s : Session := mkSession (raw s) (handlers s) (manual_flow_control s)
  (bodies s) (pending s) (responded s) v (frames s) (memory s).
Definition set_frames v s : Session := mkSession (raw s) (handlers s) (manual_flow_control s)
  (bodies s) (pending s) (responded s) (records s) v (memory s).
Definition set_memory v s : Session := mkSession (raw s) (handlers s) (manual_flow_control s)
  (bodies s) (pending s) (responded s) (records s) (frames s) v.

(** *** The monad: the session, and the caller's state that is lent to it *)
Definition St : Type := Session * C.
Definition M (A : Type) : Type := St → St * Result A.

Definition ret {A} (a : A) : M A := λ st, (st, Ok a).
Definition throw {A} (e : Error) : M A := λ st, (st, Err e).
Definition lift {A} (r : Result A) : M A := λ st, (st, r).
Definition bind {A B} (m : M A) (k : A → M B) : M B := λ st,
  match m st with
  | (st, Ok a) => k a st
  | (st, Err e) => (st, Err e)
  end.
Definition gets {A} (f : Session → A) : M A := λ st, (st, Ok (f st.1)).
Definition modify (f : Session → Session) : M unit := λ st, ((f st.1, st.2), Ok ()).

Notation "'do' x ':=' m 'in' k" := (bind m (λ x, k))
  (at level 10, x pattern, m at level 100, k at level 200).

Definition invalid {A} (op detail : string) : M A := throw (H2Error.new op InvalidInput detail).

(** A call with the user data null. *)
Definition native_call (rq : request) : M response := λ '(s, c),
  let '(raw', w, r) :=
    nghttp2_call rq _ (Callbacks.callbacks (handlers s)) (raw s) (memory s, None) in
  ((set_memory w.1 (set_raw raw' s), c), Ok r).

(** [with_context]. *)
Definition with_context (rq : request) : M response := λ '(s, c),
  let bridge := mkBridge (bodies s) (pending s) (responded s) (records s) c in
  let '(raw', w, r) :=
    nghttp2_call rq _ (Callbacks.callbacks (handlers s)) (raw s) (memory s, Some bridge) in
  let b := default bridge w.2 in
  ((mkSession raw' (handlers s) (manual_flow_control s) (b_bodies b) (b_pending b)
      (b_responded b) (b_records b) (frames s) w.1, b_context b), Ok r).

(** [if rc != 0 { return Err(Error::from_native(op, rc)) }], and its [rc < 0] variant. *)
Definition checked (op : string) (r : response) : M unit :=
  if rs_rv r =? 0 then ret () else throw (H2Error.from_native op (rs_rv r)).
Definition checked_neg (op : string) (r : response) : M unit :=
  if rs_rv r <? 0 then throw (H2Error.from_native op (rs_rv r)) else ret ().

Definition submit_settings (settings : list Setting) : M unit :=
  do r := native_call (ReqSubmitSettings (H2Setting.entry <$> settings)) in
  checked "nghttp2_submit_settings" r.

(** [send_raw]: the octets, and how many. *)
Definition send_raw : M (bytes * Z) :=
  do r := with_context ReqMemSend in
  do _ := checked_neg "nghttp2_session_mem_send2" r in
  ret (rs_data r, rs_rv r).

Definition sent (p : bytes * Z) : option bytes :=
  let '(data, len) := p in
  if len =? 0 then None else Some (take (Z.to_nat len) data).

Definition send : M (option bytes) := do p := send_raw in ret (sent p).

(** The sink gains the records whether the send succeeds or not. *)
Definition send_into (sink : list SendRecord) (st : St)
  : St * list SendRecord * Result (option bytes) :=
  let '(st, outcome) := send_raw st in
  ((set_records [] st.1, st.2), sink ++ records st.1, let? p := outcome in Ok (sent p)).

(** [None] is a panic: more consumed than was given. *)
Definition recv (input : bytes) (st : St) : St * option (Result nat) :=
  match input with
  | [] => (st, Some (Ok 0%nat))
  | _ =>
      match with_context (ReqMemRecv input) st with
      | (st, Err e) => (st, Some (Err e))
      | (st, Ok r) =>
          if rs_rv r <? 0 then
            (st, Some (Err (H2Error.from_native "nghttp2_session_mem_recv2" (rs_rv r))))
          else
            let consumed := Z.to_nat (rs_rv r) in
            if decide (length input < consumed)%nat then (st, None)
            else
              match Progress.advance (frames st.1) (take consumed input) with
              | Some p => ((set_frames p st.1, st.2), Some (Ok consumed))
              | None => (st, None)
              end
      end
  end.

Definition submit_request (headers : list Header.Header) : M Z :=
  do nva := lift (Header.to_nv_vec headers) in
  do r := native_call (ReqSubmitRequest nva None) in
  do _ := checked_neg "nghttp2_submit_request2" r in
  ret (rs_rv r).

Definition stream_is_open (stream : Z) : M bool :=
  if H2Stream.is_connection stream then ret false
  else
    do r := native_call (ReqGetStreamLocalClose stream) in
    ret (0 <=? rs_rv r).

(** [self.responded.claim(stream)]. *)
Definition claim (stream : Z) : M bool := λ st,
  let '(g, first_) := Guard.claim stream (responded st.1) in
  ((set_responded g st.1, st.2), Ok first_).

Definition unclaim (stream : Z) : M unit :=
  modify (λ s, set_responded (Guard.release stream (responded s)) s).

Definition already : string := "a response has already been submitted for this stream".

Definition submit_response (stream : Z) (headers : list Header.Header) : M unit :=
  do nva := lift (Header.to_nv_vec headers) in
  do track := stream_is_open stream in
  do first_ := if track then claim stream else ret true in
  if negb first_ then invalid "nghttp2_submit_response2" already
  else
    do r := native_call (ReqSubmitResponse stream nva None) in
    if rs_rv r =? 0 then ret ()
    else
      do _ := if track then unclaim stream else ret () in
      throw (H2Error.from_native "nghttp2_submit_response2" (rs_rv r)).

Definition submit_informational (stream : Z) (headers : list Header.Header) : M unit :=
  do nva := lift (Header.to_nv_vec headers) in
  do r := native_call (ReqSubmitHeaders stream nva) in
  checked_neg "nghttp2_submit_headers" r.

(** [bodies.trailers_ready(stream)]. *)
Definition trailers_ready (stream : Z) : M bool := λ st,
  let '(m, b) := Registry.trailers_ready stream (bodies st.1) (memory st.1) in
  ((set_memory m st.1, st.2), Ok b).

Definition submit_trailer (stream : Z) (headers : list Header.Header) : M unit :=
  do nva := lift (Header.to_trailer_nv_vec headers) in
  do ready := trailers_ready stream in
  if negb ready then
    invalid "nghttp2_submit_trailer"
      "this stream has no open trailer window; a body source must first report BodyOutcome::EofWithTrailers"
  else
    do r := native_call (ReqSubmitTrailer stream nva) in
    checked "nghttp2_submit_trailer" r.

(** [BodyRegistry::prepare], [discard] and [attach]. *)
Definition prepare (e : BodyEntry) : M address := λ st,
  let '(m, a) := Registry.prepare e (memory st.1) in ((set_memory m st.1, st.2), Ok a).
Definition discard (a : address) : M unit :=
  modify (λ s, set_memory (Registry.discard a (memory s)) s).
Definition attach (stream : Z) (a : address) : M unit :=
  modify (λ s, set_bodies (Registry.attach stream a (bodies s)) s).

(** [submit_request_with_body] and [submit_request_with_shared_body], by the entry. *)
Definition submit_request_with (headers : list Header.Header) (entry : BodyEntry) : M Z :=
  do nva := lift (Header.to_nv_vec headers) in
  do a := prepare entry in
  do r := native_call (ReqSubmitRequest nva (Some a)) in
  if rs_rv r <? 0 then
    do _ := discard a in
    throw (H2Error.from_native "nghttp2_submit_request2" (rs_rv r))
  else
    do _ := attach (rs_rv r) a in
    ret (rs_rv r).

Definition submit_response_with (stream : Z) (headers : list Header.Header) (entry : BodyEntry)
  : M unit :=
  do nva := lift (Header.to_nv_vec headers) in
  do open := stream_is_open stream in
  if negb open then
    invalid "nghttp2_submit_response2" "cannot attach a body to a stream that is not open"
  else
    do first_ := claim stream in
    if negb first_ then invalid "nghttp2_submit_response2" already
    else
      do a := prepare entry in
      do r := native_call (ReqSubmitResponse stream nva (Some a)) in
      if rs_rv r =? 0 then attach stream a
      else
        do _ := discard a in
        do _ := unclaim stream in
        throw (H2Error.from_native "nghttp2_submit_response2" (rs_rv r)).

Definition submit_request_with_body headers (body : push_source) : M Z :=
  submit_request_with headers (Entry.new body).
Definition submit_request_with_shared_body headers (body : shared_source) : M Z :=
  submit_request_with headers (Entry.new_shared body).
Definition submit_response_with_body stream headers (body : push_source) : M unit :=
  submit_response_with stream headers (Entry.new body).
Definition submit_response_with_shared_body stream headers (body : shared_source) : M unit :=
  submit_response_with stream headers (Entry.new_shared body).

Definition consume (stream : Z) (len : nat) : M unit := λ st,
  (if negb (manual_flow_control st.1) then
     invalid "nghttp2_session_consume"
       "this session replenishes flow-control windows automatically; build it with manual_flow_control(true) to report consumption"
   else if 2 ^ 31 - 1 <? Z.of_nat len then
     invalid "nghttp2_session_consume"
       "consumed length does not fit in the range libnghttp2 accounts in"
   else
     do r := native_call (ReqConsume stream len) in
     checked "nghttp2_session_consume" r) st.

Definition reset_stream (stream code : Z) : M unit :=
  do r := native_call (ReqSubmitRstStream stream code) in
  checked "nghttp2_submit_rst_stream" r.

Definition shutdown (last_stream code : Z) : M unit :=
  do r := native_call (ReqSubmitGoaway last_stream code) in
  checked "nghttp2_submit_goaway" r.

Definition last_processed_stream : M Z :=
  do r := native_call ReqGetLastProcStreamId in ret (rs_rv r).

Definition resume_body (stream : Z) : M unit :=
  do r := native_call (ReqResumeData stream) in
  checked "nghttp2_session_resume_data" r.

Definition mid_frame s : bool := Progress.in_frame (frames s).

Definition want_read : M bool :=
  do r := native_call ReqWantRead in ret (negb (rs_rv r =? 0)).
Definition want_write : M bool :=
  do r := native_call ReqWantWrite in ret (negb (rs_rv r =? 0)).
Definition is_finished : M bool :=
  do read := want_read in
  if read : bool then ret false else do write := want_write in ret (negb write).

(** *** The builder *)
Record SessionBuilder := mkBuilder {
  sb_role : Role;
  sb_settings : list Setting;
  sb_manual_flow_control : bool;
  sb_handlers : Handlers C
}.

Definition with_role (role : Role) : SessionBuilder :=
  mkBuilder role [] false (mkHandlers None None None None None).
Definition setting (v : Setting) (b : SessionBuilder) : SessionBuilder :=
  mkBuilder (sb_role b) (sb_settings b ++ [v]) (sb_manual_flow_control b) (sb_handlers b).
Definition set_manual_flow_control (enabled : bool) (b : SessionBuilder) : SessionBuilder :=
  mkBuilder (sb_role b) (sb_settings b) enabled (sb_handlers b).

Definition set_handlers (h : Handlers C) (b : SessionBuilder) : SessionBuilder :=
  mkBuilder (sb_role b) (sb_settings b) (sb_manual_flow_control b) h.

Definition on_begin_headers h (b : SessionBuilder) : SessionBuilder :=
  let hs := sb_handlers b in
  set_handlers (mkHandlers (Some h) (header hs) (data_chunk hs) (frame_recv hs)
                  (stream_close hs)) b.
Definition on_header h (b : SessionBuilder) : SessionBuilder :=
  let hs := sb_handlers b in
  set_handlers (mkHandlers (begin_headers hs) (Some h) (data_chunk hs) (frame_recv hs)
                  (stream_close hs)) b.
Definition on_data_chunk h (b : SessionBuilder) : SessionBuilder :=
  let hs := sb_handlers b in
  set_handlers (mkHandlers (begin_headers hs) (header hs) (Some h) (frame_recv hs)
                  (stream_close hs)) b.
Definition on_frame h (b : SessionBuilder) : SessionBuilder :=
  let hs := sb_handlers b in
  set_handlers (mkHandlers (begin_headers hs) (header hs) (data_chunk hs) (Some h)
                  (stream_close hs)) b.
Definition on_stream_close h (b : SessionBuilder) : SessionBuilder :=
  let hs := sb_handlers b in
  set_handlers (mkHandlers (begin_headers hs) (header hs) (data_chunk hs) (frame_recv hs)
                  (Some h)) b.

Definition is_push (v : Setting) : bool := match v with EnablePush _ => true | _ => false end.
Definition is_push_true (v : Setting) : bool :=
  match v with EnablePush true => true | _ => false end.

Definition resolve_settings (b : SessionBuilder) : Result (list Setting) :=
  if bool_decide (sb_role b = Server) && existsb is_push_true (sb_settings b) then
    Err (H2Error.new "SessionBuilder::build" InvalidInput
           "a server may not advertise SETTINGS_ENABLE_PUSH = 1")
  else if bool_decide (sb_role b = Client) && negb (existsb is_push (sb_settings b)) then
    Ok (EnablePush false :: sb_settings b)
  else Ok (sb_settings b).

(** [build]; a session that fails its settings is dropped. *)
Definition build (b : SessionBuilder) (c : C) : Result Session :=
  let? settings := resolve_settings b in
  if negb (nghttp2_option_new =? 0)
  then Err (H2Error.from_native "nghttp2_option_new" nghttp2_option_new)
  else if negb (nghttp2_session_callbacks_new =? 0)
  then Err (H2Error.from_native "nghttp2_session_callbacks_new" nghttp2_session_callbacks_new)
  else
    match nghttp2_session_new (sb_role b) (sb_manual_flow_control b) with
    | Err rc => Err (H2Error.from_native "nghttp2_session_new3" rc)
    | Ok raw =>
        let s := mkSession raw (sb_handlers b) (sb_manual_flow_control b) ∅ ∅ ∅ []
                   (Progress.new (bool_decide (sb_role b = Server))) Memory.initial in
        let '(st, r) := submit_settings settings (s, c) in
        let? _ := r in Ok st.1
    end.

(** [Drop]: the native session goes first, then every entry. *)
Definition drop s : Memory := Registry.drop (bodies s) (memory s).
End Ops.
End SessionOps.
