(* ===== verification/H2Safety.v ===== *)
(** * What the HTTP/2 wrapper guarantees about its bodies

    nghttp2 holds raw addresses of body entries that Rust allocates and frees.  Over any
    sequence of public operations, with any library that uses an address only while it holds
    it, no entry is used after it is freed, freed twice or leaked, and dropping the session
    frees what is left ([bodies_memory_safe]).  The frame boundary the write side reports is
    exact for any split of the output into segments ([mid_frame_exact]). *)

From Stdlib Require Import ZArith Lia.
From stdpp Require Import base list gmap strings.
From S2P Require Import Prelude Traces H2Types H2State H2Session.

(** ** Writing down what happens *)

Definition trace : Type := list (callback * cb_answer).

Record call := mkCall { c_request : request; c_trace : trace; c_response : response }.

Section Logged.
Context {N : Nghttp2}.

Record logged_session := mkLogged { inner : nghttp2_session; calls : list call }.

Definition logged_call (rq : request) (B : Type) (cb : B → callback → B * cb_answer)
    (n : logged_session) (b : B) : logged_session * B * response :=
  let '(n', st, r) :=
    nghttp2_call rq (traced cb b) (traced_step cb b) (inner n) (traced_start cb b) in
  (mkLogged n' (calls n ++ [mkCall rq (`st).2 r]), (`st).1, r).

Definition logged : Nghttp2 := {|
  nghttp2_codes := nghttp2_codes;
  nghttp2_session := logged_session;
  nghttp2_option_new := nghttp2_option_new;
  nghttp2_session_callbacks_new := nghttp2_session_callbacks_new;
  nghttp2_session_new role manual :=
    match nghttp2_session_new role manual with
    | Ok n => Ok (mkLogged n [])
    | Err e => Err e
    end;
  nghttp2_call := logged_call
|}.

Lemma h2_logged_call_runs rq B cb n (b : B) n' b' r :
  logged_call rq B cb n b = (n', b', r) →
  ∃ tr, calls n' = calls n ++ [mkCall rq tr r] ∧ runs cb b tr b'.
Proof.
  unfold logged_call.
  destruct (nghttp2_call _ _ _ _ _) as [[n1 [[b1 tr] Hst]] r1]. simpl.
  intros [= <- <- <-]. exists tr. by split.
Qed.
End Logged.

(** A library whose calls can be read back. *)
Class Recorded `{L : Nghttp2} := {
  calls_of : nghttp2_session → list call;
  calls_of_new : ∀ role manual n, nghttp2_session_new role manual = Ok n → calls_of n = [];
  calls_of_call : ∀ rq B cb n (b : B) n' b' r,
    nghttp2_call rq B cb n b = (n', b', r) →
    ∃ tr, calls_of n' = calls_of n ++ [mkCall rq tr r] ∧ runs cb b tr b'
}.

(** Any library can be recorded. *)
Definition logged_recorded {N : Nghttp2} : @Recorded logged.
Proof.
  refine (@Build_Recorded logged (@calls N) _ (@h2_logged_call_runs N)).
  intros role manual n. change (@nghttp2_session_new logged role manual) with
    (match @nghttp2_session_new N role manual with
     | Ok n => Ok (mkLogged n [])
     | Err e => Err e
     end).
  destruct (@nghttp2_session_new N role manual); [|done]. by intros [= <-].
Defined.

(** ** The public operations *)

Section Operations.
Context `{Nghttp2, BodySources} {C : Type}.

Inductive op :=
| OSend
| OSendInto (sink : list SendRecord)
| ORecv (input : bytes)
| ORequest (headers : list Header.Header) (body : option BodyEntry)
| OResponse (stream : Z) (headers : list Header.Header) (body : option BodyEntry)
| OInformational (stream : Z) (headers : list Header.Header)
| OTrailer (stream : Z) (headers : list Header.Header)
| OTrailersReady (stream : Z)
| OConsume (stream : Z) (len : nat)
| OReset (stream code : Z)
| OShutdown (last_stream code : Z)
| OLastProcessed
| OResume (stream : Z)
| OWantRead
| OWantWrite.

Definition forget {A} (p : SessionOps.St * Result A) : SessionOps.St (C:=C) * Result unit :=
  (p.1, let? _ := p.2 in Ok ()).

(** [None] is a panic. *)
Definition run_op (o : op) (st : SessionOps.St (C:=C))
  : SessionOps.St (C:=C) * option (Result unit) :=
  let returns (p : SessionOps.St (C:=C) * Result unit) := (p.1, Some p.2) in
  match o with
  | OSend => returns (forget (SessionOps.send st))
  | OSendInto sink => let '(st, _, r) := SessionOps.send_into sink st in returns (forget (st, r))
  | ORecv input =>
      match SessionOps.recv input st with
      | (st, Some r) => returns (forget (st, r))
      | (st, None) => (st, None)
      end
  | ORequest headers None => returns (forget (SessionOps.submit_request headers st))
  | ORequest headers (Some e) => returns (forget (SessionOps.submit_request_with headers e st))
  | OResponse s headers None => returns (SessionOps.submit_response s headers st)
  | OResponse s headers (Some e) => returns (SessionOps.submit_response_with s headers e st)
  | OInformational s headers => returns (SessionOps.submit_informational s headers st)
  | OTrailer s headers => returns (SessionOps.submit_trailer s headers st)
  | OTrailersReady s => returns (forget (SessionOps.trailers_ready s st))
  | OConsume s n => returns (SessionOps.consume s n st)
  | OReset s c => returns (SessionOps.reset_stream s c st)
  | OShutdown s c => returns (SessionOps.shutdown s c st)
  | OLastProcessed => returns (forget (SessionOps.last_processed_stream st))
  | OResume s => returns (SessionOps.resume_body s st)
  | OWantRead => returns (forget (SessionOps.want_read st))
  | OWantWrite => returns (forget (SessionOps.want_write st))
  end.

(** [false] if an operation panicked; nothing runs after it. *)
Fixpoint run_ops (os : list op) (st : SessionOps.St (C:=C)) : SessionOps.St (C:=C) * bool :=
  match os with
  | [] => (st, true)
  | o :: os =>
      match run_op o st with
      | (st, Some _) => run_ops os st
      | (st, None) => (st, false)
      end
  end.
End Operations.
Arguments op {_}.

(** ** What nghttp2 documents

    [held] is what the library has been told: the address it may use for each stream, from
    the submission it accepted to the close of the stream. *)

Definition hold_event (h : gmap Z address) (ev : callback * cb_answer) : gmap Z address :=
  match ev.1 with CbStreamClose s _ => delete s h | _ => h end.

Definition hold_response (rq : request) (rv : Z) (h : gmap Z address) : gmap Z address :=
  match rq with
  | ReqSubmitRequest _ (Some a) => if rv <? 0 then h else <[rv := a]> h
  | ReqSubmitResponse s _ (Some a) => if rv =? 0 then <[s := a]> h else h
  | _ => h
  end.

Definition hold_call (h : gmap Z address) (c : call) : gmap Z address :=
  hold_response (c_request c) (rs_rv (c_response c)) (foldl hold_event h (c_trace c)).

Definition held (cs : list call) : gmap Z address := foldl hold_call ∅ cs.

(** A callback uses only an address that is held. *)
Definition uses_held (h : gmap Z address) (c : callback) : Prop :=
  match c with
  | CbReadBody a _ _ | CbSendData a _ _ => ∃ s, h !! s = Some a
  | _ => True
  end.

(** The library on one call: callbacks come only from a send or a receive and use what is
    held; no more is accepted than was given; a client is given stream ids that hold nothing, and only a server answers. *)
Definition call_ok (role : Role) (h : gmap Z address) (c : call) : Prop :=
  match c_request c with
  | ReqMemSend =>
      ∀ tr1 ev tr2, c_trace c = tr1 ++ ev :: tr2 → uses_held (foldl hold_event h tr1) ev.1
  | ReqMemRecv input =>
      rs_rv (c_response c) ≤ Z.of_nat (length input) ∧
      ∀ tr1 ev tr2, c_trace c = tr1 ++ ev :: tr2 → uses_held (foldl hold_event h tr1) ev.1
  | ReqSubmitRequest _ _ =>
      c_trace c = [] ∧
      (0 ≤ rs_rv (c_response c) → role = Client ∧ h !! rs_rv (c_response c) = None)
  | ReqSubmitResponse _ _ _ =>
      c_trace c = [] ∧ (rs_rv (c_response c) = 0 → role = Server)
  | _ => c_trace c = []
  end.

(** The octets nghttp2 accepted. *)
Definition taken_in (cs : list call) : bytes :=
  concat ((λ c, match c_request c with
                | ReqMemRecv input => take (Z.to_nat (rs_rv (c_response c))) input
                | _ => []
                end) <$> cs).

Definition library_ok (role : Role) (cs : list call) : Prop :=
  ∀ cs1 c cs2, cs = cs1 ++ c :: cs2 → call_ok role (held cs1) c.

(** ** Who owns an entry *)

Section Owned.
Context `{BodySources}.

(** What is live is what the registry names, each once, and perhaps one entry more. *)
Record owned (m : Memory) (extra : option address) (r : gmap Z address) : Prop := mkOwned {
  owned_defined : undefined m = false;
  owned_live a : is_Some (live m !! a) ↔ extra = Some a ∨ ∃ s, r !! s = Some a;
  owned_inj s1 s2 a : r !! s1 = Some a → r !! s2 = Some a → s1 = s2;
  owned_extra s a : r !! s = Some a → extra ≠ Some a;
  owned_next a : is_Some (live m !! a) → (a < next m)%nat
}.

Lemma owned_initial : owned Memory.initial None ∅.
Proof.
  constructor; cbn; try done.
  - intros a. split; [by intros []|]. intros [?|[s Hs]]; [done|by rewrite lookup_empty in Hs].
  - intros a []. by rewrite lookup_empty in *.
Qed.

Lemma owned_alloc e m r :
  owned m None r → owned (Memory.alloc e m).1 (Some (Memory.alloc e m).2) r.
Proof.
  intros [Hd Hl Hi He Hn]. unfold Memory.alloc. constructor; cbn; try done.
  - intros a. rewrite lookup_insert_is_Some, Hl. split.
    + intros [->|[_ [?|?]]]; auto. done.
    + intros [[= ->]|Hs]; [by left|].
      destruct (decide (next m = a)); [by left|right; auto].
  - intros s a Hs Heq. simplify_eq.
    assert (next m < next m)%nat as Hlt by (apply Hn, Hl; eauto). lia.
  - intros a [<-|[_ Ha%Hn]]%lookup_insert_is_Some; lia.
Qed.

Lemma owned_write a e m x r : is_Some (live m !! a) → owned m x r → owned (Memory.write a e m) x r.
Proof.
  intros Ha [Hd Hl Hi He Hn]. constructor; cbn; try done.
  - intros a'. rewrite lookup_insert_is_Some, <- Hl. split; [intros [<-|[_ ?]]; done|].
    destruct (decide (a = a')); auto.
  - intros a' [<-|[_ ?]]%lookup_insert_is_Some; auto.
Qed.

Lemma owned_discard a m r : owned m (Some a) r → owned (Memory.free a m) None r.
Proof.
  intros [Hd Hl Hi He Hn].
  assert (is_Some (live m !! a)) as [e Ha] by (apply Hl; by left).
  unfold Memory.free. rewrite Ha. constructor; cbn; try done.
  - intros a'. rewrite lookup_delete_is_Some, Hl. split.
    + intros [Hne [[= ->]|?]]; auto. done.
    + intros [?|[s Hs]]; [done|]. split; [|eauto]. intros ->. by apply (He s a').
  - intros a' [_ ?]%lookup_delete_is_Some. auto.
Qed.

Lemma owned_attach s a m r : r !! s = None → owned m (Some a) r → owned m None (<[s := a]> r).
Proof.
  intros Hs [Hd Hl Hi He Hn]. constructor; try done.
  - intros a'. rewrite Hl. split.
    + intros [[= ->]|[s' Hs']]; right; [exists s; apply lookup_insert_eq|].
      exists s'. rewrite lookup_insert_ne; [done|congruence].
    + intros [?|[s' [[-> ->]|[_ Hs']]%lookup_insert_Some]]; [done|by left|eauto].
  - intros s1 s2 a' [[-> ->]|[H1 Hr1]]%lookup_insert_Some
      [[-> E]|[H2 Hr2]]%lookup_insert_Some; try done.
    + by destruct (He s2 a').
    + subst. by destruct (He s1 a').
    + by apply (Hi s1 s2 a').
Qed.

Lemma owned_detach s m r x :
  owned m x r → owned (Registry.detach s r m).2 x (Registry.detach s r m).1.
Proof.
  intros Ho. unfold Registry.detach. destruct (r !! s) as [a|] eqn:Hs; [|done]. cbn.
  destruct Ho as [Hd Hl Hi He Hn].
  assert (is_Some (live m !! a)) as [e Ha] by (apply Hl; eauto).
  unfold Memory.free. rewrite Ha. constructor; cbn; try done.
  - intros a'. rewrite lookup_delete_is_Some, Hl. split.
    + intros [Hne [?|[s' Hs']]]; [by left|right; exists s'].
      rewrite lookup_delete_ne; [done|]. intros ->. congruence.
    + intros [->|[s' [Hne Hs']%lookup_delete_Some]].
      * split; [intros ->; by apply (He s a')|by left].
      * split; [|eauto]. intros ->. by destruct (Hi s s' a').
  - intros s1 s2 a' [_ ?]%lookup_delete_Some [_ ?]%lookup_delete_Some. by apply (Hi s1 s2 a').
  - intros s' a' [_ ?]%lookup_delete_Some. by apply (He s').
  - intros a' [_ ?]%lookup_delete_is_Some. auto.
Qed.

Lemma detach_registry s r m : (Registry.detach s r m).1 = delete s r.
Proof.
  unfold Registry.detach. destruct (r !! s) eqn:Hs; [done|]. by rewrite delete_id.
Qed.

Lemma free_all m (l : list (Z * address)) :
  NoDup l.*2 → (∀ a, a ∈ l.*2 → is_Some (live m !! a)) → undefined m = false →
  let m' := foldr (λ p, Memory.free p.2) m l in
  undefined m' = false ∧ ∀ a, is_Some (live m' !! a) ↔ is_Some (live m !! a) ∧ a ∉ l.*2.
Proof.
  intros Hnd Hl Hm. induction l as [|[s a] l IH]; cbn in *.
  - split; [done|]. intros a. split; [|by intros []]. intros ?. split; [done|].
    apply not_elem_of_nil.
  - apply NoDup_cons in Hnd as [Hna Hnd].
    destruct IH as [Hu Hlive]; [done|intros a' Ha'; apply Hl; by right|].
    set (m1 := foldr (λ p, Memory.free p.2) m l) in *.
    assert (is_Some (live m1 !! a)) as [e He].
    { apply Hlive. split; [apply Hl; by left|done]. }
    unfold Memory.free. rewrite He. cbn. split; [done|]. intros a'.
    rewrite lookup_delete_is_Some, Hlive, not_elem_of_cons.
    split; intros (? & ? & ?); split_and!; auto.
Qed.

(** Dropping the registry frees what is left, each entry once. *)
Lemma owned_drop m r :
  owned m None r → undefined (Registry.drop r m) = false ∧ live (Registry.drop r m) = ∅.
Proof.
  intros [Hd Hl Hi He Hn]. unfold Registry.drop.
  destruct (free_all m (map_to_list r)) as [Hu Hlive]; [| |done|].
  - apply NoDup_fmap_2_strong, NoDup_map_to_list.
    intros [s1 a1] [s2 a2] H1%elem_of_map_to_list H2%elem_of_map_to_list Heq. cbn in Heq.
    subst. by rewrite (Hi s1 s2 a2 H1 H2).
  - intros a ([s a'] & -> & Hs%elem_of_map_to_list)%list_elem_of_fmap. apply Hl. eauto.
  - split; [done|]. apply map_eq. intros a. rewrite lookup_empty.
    destruct (live (foldr _ _ _) !! a) eqn:Hx; [|done]. exfalso.
    destruct (proj1 (Hlive a)) as [[?|[s Hs]]%Hl Hna]; [by rewrite Hx|done|].
    apply Hna, list_elem_of_fmap. exists (s, a). split; [done|]. by apply elem_of_map_to_list.
Qed.
End Owned.

(** ** The callbacks keep it *)

Section Kept.
Context `{Nghttp2, BodySources} {C : Type}.
Variable hs : Handlers C.
Variable role : Role.
Abbreviation cb := (Callbacks.callbacks hs).

(** A server never answers a stream whose body is still registered. *)
Definition guarded (b : gmap Z address) (g : gset Z) : Prop := role = Server → dom b ⊆ g.

(** The bridge, over the registry [h]. *)
Definition bridge_ok (h : gmap Z address) (w : Memory * option (Bridge C)) : Prop :=
  ∃ b, w.2 = Some b ∧ b_bodies b = h ∧ owned w.1 None h ∧ guarded h (b_responded b).

Lemma guarded_delete s h g : guarded h g → guarded (delete s h) (Guard.release s g).
Proof. intros Hg Hr. specialize (Hg Hr). unfold Guard.release. rewrite dom_delete_L.
  intros x [Hx Hn]%elem_of_difference. apply elem_of_difference. split; [by apply Hg|done].
Qed.

Lemma park_ok h w s e : bridge_ok h w → bridge_ok h (Callbacks.park_body_error w s e).
Proof.
  intros (b & Hb & Hh & Ho & Hg). unfold Callbacks.park_body_error. rewrite Hb.
  eexists. split; [done|]. by cbn.
Qed.

Lemma write_ok h m o a e :
  is_Some (live m !! a) → bridge_ok h (m, o) → bridge_ok h (Memory.write a e m, o).
Proof.
  intros Ha (b & Hb & Hh & Ho & Hg). exists b. split_and!; try done. by apply owned_write.
Qed.

Lemma context_ok h w c b :
  w.2 = Some b → bridge_ok h w → bridge_ok h (w.1, Some (Callbacks.set_context c b)).
Proof.
  intros Hb (b' & Hb' & Hh & Ho & Hg). simplify_eq. eexists. split; [done|]. by cbn.
Qed.

Lemma on_frame_ok {F} h (fn : option F) f run w :
  bridge_ok h w → bridge_ok h (Callbacks.on_frame (C:=C) fn f run w).1.
Proof.
  intros Hw. pose proof Hw as (b & Hb & _). unfold Callbacks.on_frame. rewrite Hb.
  destruct fn; [|done]. case_match; [done|]. destruct (run _ _ _). by apply context_ok.
Qed.

Lemma read_body_ok h w a s n :
  (∃ s, h !! s = Some a) → bridge_ok h w → bridge_ok h (Callbacks.read_body (C:=C) w a s n).1.
Proof.
  intros Hs Hw. pose proof Hw as (b & Hb & Hh & Ho & Hg). destruct w as [m o]. cbn in *. subst.
  assert (is_Some (live m !! a)) as Hlive by (apply (owned_live _ _ _ Ho); by right).
  pose proof Hlive as [e He]. unfold Callbacks.read_body. cbn [fst snd]. rewrite He.
  destruct (source e).
  - unfold Callbacks.read_push_body. destruct (fill _ _) as [[s1 buf] out].
    destruct out; try case_decide; cbn [fst snd]; try apply park_ok; by apply write_ok.
  - unfold Callbacks.read_shared_body. destruct (take_shared _ _) as [s1 out].
    destruct out; try case_decide; cbn [fst snd]; try apply park_ok; by apply write_ok.
Qed.

Lemma send_data_ok h w a hd n :
  (∃ s, h !! s = Some a) → bridge_ok h w → bridge_ok h (Callbacks.send_data (C:=C) w a hd n).1.
Proof.
  intros Hs Hw. pose proof Hw as (b & Hb & Hh & Ho & Hg). destruct w as [m o]. cbn in *. subst.
  assert (is_Some (live m !! a)) as Hlive by (apply (owned_live _ _ _ Ho); by right).
  pose proof Hlive as [e He]. unfold Callbacks.send_data. cbn [fst snd]. rewrite He.
  destruct (staged e); [|by apply write_ok]. case_match; [by apply write_ok|].
  eexists. split; [done|]. cbn. split_and!; try done. by apply owned_write.
Qed.

Lemma stream_close_ok h w s e :
  bridge_ok h w → bridge_ok (delete s h) (Callbacks.on_stream_close hs w s e).1.
Proof.
  intros (b & Hb & Hh & Ho & Hg). unfold Callbacks.on_stream_close. rewrite Hb, Hh.
  pose proof (owned_detach s w.1 h None Ho) as Hd. pose proof (detach_registry s h w.1) as Hr.
  destruct (Registry.detach s h w.1) as [h' m']. cbn in *. subst h'.
  eexists. split; [done|]. cbn. split_and!; try done. by apply guarded_delete.
Qed.

Lemma cb_ok h w c w' a :
  uses_held h c → bridge_ok h w → cb w c = (w', a) → bridge_ok (hold_event h (c, a)) w'.
Proof.
  intros Hu Hw Hc. assert (w' = (cb w c).1) as -> by by rewrite Hc.
  destruct c; cbn [Callbacks.callbacks hold_event fst] in *; try (by apply on_frame_ok).
  - unfold Callbacks.on_data_chunk_recv. pose proof Hw as (b & Hb & _). rewrite Hb.
    destruct (data_chunk hs); [|done]. by apply context_ok.
  - by apply stream_close_ok.
  - by apply read_body_ok.
  - by apply send_data_ok.
Qed.

Lemma runs_ok h w tr w' :
  (∀ tr1 ev tr2, tr = tr1 ++ ev :: tr2 → uses_held (foldl hold_event h tr1) ev.1) →
  bridge_ok h w → runs cb w tr w' → bridge_ok (foldl hold_event h tr) w'.
Proof.
  intros Hu Hw Hr. induction Hr as [|tr w1 c w2 a Hr IH Hc]; [done|].
  rewrite foldl_app. cbn. eapply cb_ok; [| |done].
  - apply (Hu tr (c, a) []). done.
  - apply IH. intros tr1 ev tr2 ->. apply (Hu tr1 ev (tr2 ++ [(c, a)])).
    by rewrite <- (assoc_L (++)).
Qed.
End Kept.

(** ** The operations keep it *)

Section Triples.
Context `{R : Recorded, BodySources} {C : Type}.
Variable role : Role.
Abbreviation St := (SessionOps.St (C:=C)).
Implicit Types (st : SessionOps.St (C:=C)).

Definition log st : list call := calls_of (raw st.1).

(** The tracker has seen what the library accepted. *)
Definition framed st : Prop :=
  tracks (bool_decide (role = Server)) (frames st.1) (taken_in (log st)).

(** [extra] is live but not registered; [claimed] has just been claimed for an answer. *)
Definition safe (extra : option address) (claimed : option Z) st : Prop :=
  framed st ∧ bodies st.1 = held (log st) ∧ owned (memory st.1) extra (bodies st.1) ∧
  guarded role (bodies st.1) (responded st.1) ∧
  (∀ s, claimed = Some s → s ∈ responded st.1 ∧ (role = Server → bodies st.1 !! s = None)).

(** [extra] has been handed over for stream [s] and only its registration is missing. *)
Definition accepted (s : Z) (a : address) st : Prop :=
  framed st ∧ bodies st.1 !! s = None ∧ <[s := a]> (bodies st.1) = held (log st) ∧
  owned (memory st.1) (Some a) (bodies st.1) ∧ guarded role (bodies st.1) (responded st.1) ∧
  (role = Server → s ∈ responded st.1).

Lemma library_ok_app cs cs' : library_ok role (cs ++ cs') → library_ok role cs.
Proof.
  intros Hl cs1 c cs2 ->. apply (Hl cs1 c (cs2 ++ cs')). by rewrite <- (assoc_L (++)).
Qed.

(** The log only grows; if what the library did up to the end is as documented, [P] before
    gives [Q] after. *)
Definition triple {A} (P : St → Prop) (m : SessionOps.M A) (Q : Result A → St → Prop) : Prop :=
  log_triple log (library_ok role) P m Q.

Lemma library_ok_last cs c : library_ok role (cs ++ [c]) → call_ok role (held cs) c.
Proof. intros Hl. by apply (Hl cs c []). Qed.

Lemma h2_triple_ret {A} P (a : A) (Q : Result A → St → Prop) :
  (∀ st, P st → Q (Ok a) st) → triple P (SessionOps.ret a) Q.
Proof. intros HQ st st' r [= <- <-]. split; [exists []; by rewrite app_nil_r|auto]. Qed.

Lemma triple_throw {A} P e (Q : Result A → St → Prop) :
  (∀ st, P st → Q (Err e) st) → triple P (SessionOps.throw e) Q.
Proof. intros HQ st st' r [= <- <-]. split; [exists []; by rewrite app_nil_r|auto]. Qed.

Lemma triple_lift {A} P (x : Result A) (Q : Result A → St → Prop) :
  (∀ st, P st → Q x st) → triple P (SessionOps.lift x) Q.
Proof. intros HQ st st' r [= <- <-]. split; [exists []; by rewrite app_nil_r|auto]. Qed.

Lemma h2_triple_bind {A B} P (m : SessionOps.M A) (k : A → SessionOps.M B) M Q :
  triple P m M → (∀ a, triple (M (Ok a)) (k a) Q) → (∀ e st, M (Err e) st → Q (Err e) st) →
  triple P (SessionOps.bind m k) Q.
Proof. exact (log_triple_bind log (library_ok role) library_ok_app P m k M Q). Qed.

Lemma triple_modify P f (Q : Result unit → St → Prop) :
  (∀ s : Session nghttp2_session C, raw (f s) = raw s) → (∀ st, P st → Q (Ok ()) (f st.1, st.2)) →
  triple P (SessionOps.modify f) Q.
Proof.
  intros Hf HQ st st' r [= <- <-]. split; [|auto]. exists []. unfold log. cbn.
  by rewrite Hf, app_nil_r.
Qed.

Lemma triple_weaken {A} (P P' : St → Prop) (m : SessionOps.M A) (Q Q' : Result A → St → Prop) :
  triple P m Q → (∀ st, P' st → P st) → (∀ r st, Q r st → Q' r st) → triple P' m Q'.
Proof. apply log_triple_weaken. Qed.

(** A call made without a bridge. *)
Definition quiet (rq : request) : Prop :=
  match rq with ReqMemSend | ReqMemRecv _ => False | _ => True end.

Lemma native_call_spec rq st st' r :
  quiet rq → SessionOps.native_call rq st = (st', r) →
  ∃ raw' tr rs, r = Ok rs ∧ log st' = log st ++ [mkCall rq tr rs] ∧
    (library_ok role (log st') →
       call_ok role (held (log st)) (mkCall rq [] rs) ∧ held (log st') =
         hold_response rq (rs_rv rs) (held (log st)) ∧
       taken_in (log st') = taken_in (log st) ∧
       st' = (SessionOps.set_raw raw' st.1, st.2)).
Proof.
  intros Hq. destruct st as [s c]. unfold SessionOps.native_call.
  destruct (nghttp2_call _ _ _ _ _) as [[raw' w] rs] eqn:Hcall. intros [= <- <-].
  destruct (calls_of_call _ _ _ _ _ _ _ _ Hcall) as (tr & Hlog & Hruns).
  exists raw', tr, rs. split; [done|]. split; [exact Hlog|]. intros Hlib.
  unfold log in *. cbn in *. rewrite Hlog in *. apply library_ok_last in Hlib.
  assert (tr = []) as ->.
  { unfold call_ok in Hlib. cbn in Hlib. destruct rq; by try destruct Hlib. }
  assert (w = (memory s, None)) as ->.
  { inversion Hruns as [|tr b1 cb b2 a Hr Hc Heq]; [done|]. by destruct tr. }
  split; [done|]. split; [unfold held; by rewrite foldl_app|]. split; [|done].
  unfold taken_in. rewrite fmap_app, concat_app. cbn. destruct rq; try done; by rewrite app_nil_r.
Qed.

(** One whose answer the bodies do not depend on. *)
Definition neutral (rq : request) : Prop :=
  match rq with
  | ReqMemSend | ReqMemRecv _ | ReqSubmitRequest _ (Some _) | ReqSubmitResponse _ _ (Some _) =>
      False
  | _ => True
  end.

Lemma triple_native x cl rq :
  neutral rq →
  triple (safe x cl) (SessionOps.native_call rq) (λ r st, (∃ rs, r = Ok rs) ∧ safe x cl st).
Proof.
  intros Hn st st' r Hr. destruct (native_call_spec rq st st' r) as (raw' & tr & rs & -> & Hl & Hs);
    [by destruct rq|done|].
  split; [eauto|]. intros Hlib Hsafe. destruct (Hs Hlib) as (_ & Hh & Hti & ->).
  split; [eauto|]. destruct Hsafe as (Hf & Hb & Hrest). split; [by unfold framed; rewrite Hti|].
  split; [|exact Hrest]. cbn. rewrite Hb, Hh. destruct rq; try done; by destruct provider.
Qed.

(** *** The simple operations *)

Abbreviation keeps m := (triple (safe None None) m (λ _, safe None None)).

Lemma keeps_then {A B} (m : SessionOps.M A) (k : A → SessionOps.M B) :
  keeps m → (∀ a, keeps (k a)) → keeps (SessionOps.bind m k).
Proof. intros Hm Hk. by eapply h2_triple_bind; [exact Hm|exact Hk|]. Qed.

Lemma h2_keeps_ret {A} (a : A) : keeps (SessionOps.ret a).
Proof. by apply h2_triple_ret. Qed.

Lemma h2_keeps_throw {A} e : keeps (SessionOps.throw (A:=A) e).
Proof. by apply triple_throw. Qed.

Lemma keeps_lift {A} (r : Result A) : keeps (SessionOps.lift r).
Proof. by apply triple_lift. Qed.

Lemma h2_keeps_native rq : neutral rq → keeps (SessionOps.native_call rq).
Proof. intros Hn. eapply triple_weaken; [by apply triple_native|done|]. by intros r st []. Qed.

Lemma keeps_checked what r : keeps (SessionOps.checked what r).
Proof. unfold SessionOps.checked. destruct (_ =? _); [apply h2_keeps_ret|apply h2_keeps_throw]. Qed.

Lemma keeps_checked_neg what r : keeps (SessionOps.checked_neg what r).
Proof. unfold SessionOps.checked_neg. destruct (_ <? _); [apply h2_keeps_throw|apply h2_keeps_ret]. Qed.

Lemma keeps_invalid {A} what why : keeps (SessionOps.invalid (A:=A) what why).
Proof. apply h2_keeps_throw. Qed.

Create HintDb keeps.
#[local] Hint Resolve keeps_invalid keeps_then h2_keeps_ret h2_keeps_throw keeps_lift h2_keeps_native
  keeps_checked keeps_checked_neg : keeps.
#[local] Hint Extern 1 (neutral _) => exact I : keeps.

Ltac keep := repeat first [progress intros | apply keeps_then]; eauto with keeps.

Lemma keeps_submit_request headers : keeps (SessionOps.submit_request headers).
Proof. unfold SessionOps.submit_request. keep. Qed.

Lemma keeps_submit_informational s headers : keeps (SessionOps.submit_informational s headers).
Proof. unfold SessionOps.submit_informational. keep. Qed.

Lemma keeps_reset_stream s c : keeps (SessionOps.reset_stream s c).
Proof. unfold SessionOps.reset_stream. keep. Qed.

Lemma keeps_shutdown s c : keeps (SessionOps.shutdown s c).
Proof. unfold SessionOps.shutdown. keep. Qed.

Lemma keeps_resume_body s : keeps (SessionOps.resume_body s).
Proof. unfold SessionOps.resume_body. keep. Qed.

Lemma keeps_last_processed : keeps SessionOps.last_processed_stream.
Proof. unfold SessionOps.last_processed_stream. keep. Qed.

Lemma keeps_want_read : keeps SessionOps.want_read.
Proof. unfold SessionOps.want_read. keep. Qed.

Lemma keeps_want_write : keeps SessionOps.want_write.
Proof. unfold SessionOps.want_write. keep. Qed.

Lemma keeps_submit_settings l : keeps (SessionOps.submit_settings l).
Proof. unfold SessionOps.submit_settings. keep. Qed.

Lemma keeps_stream_is_open s : keeps (SessionOps.stream_is_open s).
Proof. unfold SessionOps.stream_is_open. destruct (H2Stream.is_connection s); keep. Qed.

Lemma keeps_consume s n : keeps (SessionOps.consume s n).
Proof.
  intros st st' r. unfold SessionOps.consume. destruct (negb _); [by apply h2_keeps_throw|].
  destruct (_ <? _); [by apply h2_keeps_throw|]. apply keeps_then; keep.
Qed.

(** Asking whether trailers may be sent reads a registered entry. *)
Lemma keeps_trailers_ready s : keeps (SessionOps.trailers_ready s).
Proof.
  intros st st' r. unfold SessionOps.trailers_ready, Registry.trailers_ready.
  destruct (bodies st.1 !! s) as [a|] eqn:Hs; cbn; [destruct (live (memory st.1) !! a) eqn:Ha|];
    intros [= <- <-]; (split; [exists []; by rewrite app_nil_r|]); intros _ Hsafe;
    try exact Hsafe.
  destruct Hsafe as (Hf & Hb & Ho & _). exfalso.
  assert (is_Some (live (memory st.1) !! a)) as [? ?]; [|congruence].
  apply (owned_live _ _ _ Ho). eauto.
Qed.

Lemma keeps_submit_trailer s headers : keeps (SessionOps.submit_trailer s headers).
Proof.
  unfold SessionOps.submit_trailer. apply keeps_then; [keep|]. intros nva.
  apply keeps_then; [apply keeps_trailers_ready|]. intros b. destruct (negb b); keep.
Qed.

(** *** Submitting a body *)

Lemma triple_prepare e :
  triple (safe None None) (SessionOps.prepare e) (λ r st, ∃ a, r = Ok a ∧ safe (Some a) None st).
Proof.
  intros st st' r. unfold SessionOps.prepare, Registry.prepare.
  destruct (Memory.alloc e (memory st.1)) as [m a] eqn:Ha. intros [= <- <-].
  split; [exists []; by rewrite app_nil_r|]. intros _ (Hf & Hb & Ho & Hg & Hc).
  exists a. split; [done|]. split_and!; try done. cbn.
  pose proof (owned_alloc e _ _ Ho) as Hal. by rewrite Ha in Hal.
Qed.

Lemma triple_discard a cl :
  triple (safe (Some a) cl) (SessionOps.discard a) (λ _, safe None cl).
Proof.
  apply triple_modify; [done|]. intros st (Hf & Hb & Ho & Hg & Hc). split_and!; try done. cbn.
  by apply owned_discard.
Qed.

Lemma triple_attach s a :
  triple (accepted s a) (SessionOps.attach s a) (λ _, safe None None).
Proof.
  apply triple_modify; [done|]. intros st (Hf & Hn & Hh & Ho & Hg & Hc). split_and!; try done; cbn.
  - by apply owned_attach.
  - intros Hr. unfold Registry.attach. rewrite dom_insert_L. specialize (Hg Hr).
    specialize (Hc Hr). intros x [->%elem_of_singleton|Hx]%elem_of_union; auto.
Qed.

Lemma triple_request a nva :
  triple (safe (Some a) None) (SessionOps.native_call (ReqSubmitRequest nva (Some a)))
    (λ r st, ∃ rs, r = Ok rs ∧
       if rs_rv rs <? 0 then safe (Some a) None st else accepted (rs_rv rs) a st).
Proof.
  intros st st' r Hr.
  destruct (native_call_spec _ st st' r (I : quiet (ReqSubmitRequest nva (Some a))) Hr)
    as (raw' & tr & rs & -> & Hl & Hs).
  split; [eauto|]. intros Hlib (Hf & Hb & Ho & Hg & Hc). destruct (Hs Hlib) as (Hok & Hh & Hti & ->).
  exists rs. split; [done|]. unfold hold_response in Hh.
  destruct (Z.ltb_spec (rs_rv rs) 0) as [Hneg|Hpos].
  - split_and!; try done; [by unfold framed; rewrite Hti|cbn; by rewrite Hb, Hh].
  - destruct Hok as [_ Hok]. destruct (Hok Hpos) as [Hcl Hn]. rewrite <- Hb in Hn.
    split_and!; try done; [by unfold framed; rewrite Hti|cbn; by rewrite Hb, Hh|congruence].
Qed.

Lemma triple_response s a nva :
  triple (safe (Some a) (Some s)) (SessionOps.native_call (ReqSubmitResponse s nva (Some a)))
    (λ r st, ∃ rs, r = Ok rs ∧
       if rs_rv rs =? 0 then accepted s a st else safe (Some a) (Some s) st).
Proof.
  intros st st' r Hr.
  destruct (native_call_spec _ st st' r (I : quiet (ReqSubmitResponse s nva (Some a))) Hr)
    as (raw' & tr & rs & -> & Hl & Hs).
  split; [eauto|]. intros Hlib (Hf & Hb & Ho & Hg & Hc). destruct (Hs Hlib) as (Hok & Hh & Hti & ->).
  exists rs. split; [done|]. unfold hold_response in Hh.
  destruct (Z.eqb_spec (rs_rv rs) 0) as [Hz|Hnz].
  - destruct Hok as [_ Hok]. destruct (Hc s eq_refl) as [Hin Hn].
    split_and!; try done; [by unfold framed; rewrite Hti|by apply Hn, Hok|cbn; by rewrite Hb, Hh].
  - split_and!; try done; [by unfold framed; rewrite Hti|cbn; by rewrite Hb, Hh].
Qed.

Lemma keeps_submit_request_with headers e : keeps (SessionOps.submit_request_with headers e).
Proof.
  unfold SessionOps.submit_request_with. apply keeps_then; [keep|]. intros nva.
  eapply h2_triple_bind; [apply triple_prepare| |]; [|by intros ? ? (? & [=] & _)].
  intros a. eapply h2_triple_bind; [eapply triple_weaken; [apply triple_request| |]| |].
  - intros st (a' & [= <-] & Hs). exact Hs.
  - intros r st Hq. exact Hq.
  - intros rs. destruct (rs_rv rs <? 0) eqn:Hneg.
    + eapply h2_triple_bind; [eapply triple_weaken; [apply (triple_discard a None)| |]| |].
      * intros st (rs' & [= <-] & Hs). by rewrite Hneg in Hs.
      * intros r st Hs. exact Hs.
      * intros ?. by apply triple_throw.
      * done.
    + eapply h2_triple_bind; [eapply triple_weaken; [apply (triple_attach (rs_rv rs) a)| |]| |].
      * intros st (rs' & [= <-] & Hs). by rewrite Hneg in Hs.
      * intros r st Hs. exact Hs.
      * intros ?. by apply h2_triple_ret.
      * done.
  - by intros ? ? (? & [=] & _).
Qed.

Lemma triple_claim s :
  triple (safe None None) (SessionOps.claim s)
    (λ r st, ∃ first_, r = Ok first_ ∧ safe None (if first_ : bool then Some s else None) st).
Proof.
  intros st st' r. unfold SessionOps.claim, Guard.claim. intros [= <- <-].
  split; [exists []; by rewrite app_nil_r|]. intros _ (Hf & Hb & Ho & Hg & Hc).
  eexists. split; [done|]. split_and!; try done; cbn.
  - intros Hr. etrans; [exact (Hg Hr)|apply union_subseteq_r].
  - intros s'. case_bool_decide as Hin; [done|]. intros [= <-].
    split; [by apply elem_of_union_l, elem_of_singleton_2|].
    intros Hr. apply not_elem_of_dom. intros Hx. by apply Hin, (Hg Hr).
Qed.

(** A claim just made can be given back. *)
Lemma triple_unclaim x s :
  triple (safe x (Some s)) (SessionOps.unclaim s) (λ _, safe x None).
Proof.
  apply triple_modify; [done|]. intros st (Hf & Hb & Ho & Hg & Hc). split_and!; try done. cbn.
  intros Hr. specialize (Hg Hr). destruct (Hc s eq_refl) as [_ Hn]. specialize (Hn Hr).
  apply not_elem_of_dom in Hn. unfold Guard.release. intros x' Hx. apply elem_of_difference.
  split; [by apply Hg|]. by intros ->%elem_of_singleton.
Qed.

Lemma safe_unclaimed x cl st : safe x cl st → safe x None st.
Proof. by intros (Hf & Hb & Ho & Hg & _). Qed.

Lemma keeps_submit_response s headers : keeps (SessionOps.submit_response s headers).
Proof.
  unfold SessionOps.submit_response. apply keeps_then; [keep|]. intros nva.
  apply keeps_then; [apply keeps_stream_is_open|]. intros [|].
  - eapply h2_triple_bind; [apply triple_claim| |]; [|by intros ? ? (? & [=] & _)].
    intros [|]; cbn [negb].
    + eapply h2_triple_bind; [eapply triple_weaken; [apply (triple_native None (Some s))|..]| |];
        [done|by intros st (f & [= <-] & Hs)|intros r st Hs; exact Hs| |by intros ? ? [[? [=]] _]].
      intros rs. destruct (rs_rv rs =? 0).
      * apply h2_triple_ret. intros st [_ Hs]. by apply safe_unclaimed in Hs.
      * eapply h2_triple_bind; [eapply triple_weaken; [apply (triple_unclaim None s)|..]| |];
          [by intros st [_ Hs]|intros r st Hs; exact Hs|intros ?; by apply triple_throw|done].
    + unfold SessionOps.invalid. apply triple_throw. by intros st (f & [= <-] & Hs).
  - apply keeps_then; [keep|]. intros [|]; cbn [negb]; [|keep].
    apply keeps_then; [keep|]. intros rs. destruct (_ =? _); keep.
Qed.

Lemma keeps_submit_response_with s headers e : keeps (SessionOps.submit_response_with s headers e).
Proof.
  unfold SessionOps.submit_response_with. apply keeps_then; [keep|]. intros nva.
  apply keeps_then; [apply keeps_stream_is_open|]. intros [|]; cbn [negb]; [|keep].
  eapply h2_triple_bind; [apply triple_claim| |]; [|by intros ? ? (? & [=] & _)].
  intros [|]; cbn [negb];
    [|unfold SessionOps.invalid; apply triple_throw; by intros st (f & [= <-] & Hs)].
  eapply (h2_triple_bind _ _ _ (λ r st, ∃ a, r = Ok a ∧ safe (Some a) (Some s) st)).
  - intros st st' r Hp. destruct (triple_prepare e st st' r Hp) as [Hl Hq]. split; [done|].
    intros Hlib (f & [= <-] & Hs). destruct (Hq Hlib) as (a & -> & Hf & Hb & Ho & Hg & _);
      [by apply safe_unclaimed in Hs|].
    exists a. split; [done|]. split_and!; try done.
    unfold SessionOps.prepare in Hp. destruct (Registry.prepare _ _). simplify_eq.
    by destruct Hs as (_ & _ & _ & _ & Hc).
  - intros a. eapply h2_triple_bind;
      [eapply triple_weaken; [apply (triple_response s a nva)|..]| |];
      [by intros st (a' & [= <-] & Hs)|intros r st Hs; exact Hs| |by intros ? ? (? & [=] & _)].
    intros rs. destruct (rs_rv rs =? 0) eqn:Hz.
    + eapply triple_weaken; [apply (triple_attach s a)| |done].
      intros st (rs' & [= <-] & Hs). by rewrite Hz in Hs.
    + eapply h2_triple_bind; [eapply triple_weaken; [apply (triple_discard a (Some s))|..]| |];
        [intros st (rs' & [= <-] & Hs); by rewrite Hz in Hs|intros r st Hs; exact Hs| |].
      * intros ?. eapply h2_triple_bind; [apply (triple_unclaim None s)| |done].
        intros ?. by apply triple_throw.
      * intros er st Hs. by apply safe_unclaimed in Hs.
  - by intros ? ? (? & [=] & _).
Qed.
End Triples.

(** *** Sending and receiving *)

Section Runs.
Context `{R : Recorded, BodySources} {C : Type}.
Variable role : Role.
Implicit Types (st : SessionOps.St (C:=C)).
Abbreviation keeps m := (triple role (safe role None None) m (λ _, safe role None None)).

(** A call that lends the bridge: all but the tracker is up to date after it. *)
Lemma h2_with_context_spec rq st st' r :
  (quiet rq → False) → SessionOps.with_context rq st = (st', r) →
  ∃ tr rs, r = Ok rs ∧ log st' = log st ++ [mkCall rq tr rs] ∧ frames st'.1 = frames st.1 ∧
    (library_ok role (log st') → safe role None None st →
       call_ok role (held (log st)) (mkCall rq tr rs) ∧
       bodies st'.1 = held (log st') ∧ owned (memory st'.1) None (bodies st'.1) ∧
       guarded role (bodies st'.1) (responded st'.1)).
Proof.
  intros Hq. destruct st as [s c]. unfold SessionOps.with_context.
  set (br := mkBridge _ _ _ _ c).
  destruct (nghttp2_call _ _ _ _ _) as [[raw' w] rs] eqn:Hcall. intros [= <- <-].
  destruct (calls_of_call _ _ _ _ _ _ _ _ Hcall) as (tr & Hlog & Hruns).
  exists tr, rs. split; [done|]. split; [exact Hlog|]. split; [done|].
  unfold log. cbn. rewrite Hlog. intros Hlib (Hf & Hb & Ho & Hg & _).
  apply library_ok_last in Hlib. split; [done|]. unfold call_ok in Hlib. cbn in Hlib.
  unfold log in Hb. cbn in Hb.
  assert (∀ tr1 ev tr2, tr = tr1 ++ ev :: tr2 →
    uses_held (foldl hold_event (held (calls_of (raw s))) tr1) ev.1) as Huse.
  { destruct rq; try (by destruct (Hq I)); apply Hlib. }
  assert (bridge_ok role (held (calls_of (raw s))) (memory s, Some br)) as Hbr.
  { exists br. cbn. by rewrite <- Hb. }
  destruct (runs_ok (handlers s) role _ _ _ _ Huse Hbr Hruns) as (b & Hw & Hbb & Ho' & Hg').
  assert (held (calls_of (raw s) ++ [mkCall rq tr rs])
          = foldl hold_event (held (calls_of (raw s))) tr) as Hh.
  { unfold held. rewrite foldl_app. cbn. unfold hold_call. cbn. destruct rq; try done;
      by destruct (Hq I). }
  rewrite Hw. cbn. by rewrite Hh, Hbb.
Qed.

Lemma keeps_send_raw : keeps (SessionOps.send_raw (C:=C)).
Proof.
  unfold SessionOps.send_raw.
  eapply (h2_triple_bind _ _ _ _ (λ r, safe role None None)); [|intros rs|done].
  - intros st st' r Hr.
    destruct (h2_with_context_spec ReqMemSend st st' r id Hr) as (tr & rs & -> & Hl & Hfr & Hs).
    split; [eauto|]. intros Hlib Hsafe. destruct (Hs Hlib Hsafe) as (_ & Hb & Ho & Hg).
    split_and!; try done. destruct Hsafe as [Hf _]. unfold framed in *. rewrite Hfr, Hl.
    unfold taken_in in *. by rewrite fmap_app, concat_app, app_nil_r.
  - apply keeps_then; [apply keeps_checked_neg|]. intros. apply h2_keeps_ret.
Qed.

Lemma safe_records v st :
  safe role None None st → safe role None None (SessionOps.set_records v st.1, st.2).
Proof. done. Qed.

(** Every operation returns, and keeps what is safe. *)
Definition returns_safe (st st' : SessionOps.St (C:=C)) (returned : bool) : Prop :=
  (∃ more, log st' = log st ++ more) ∧
  (library_ok role (log st') → safe role None None st →
     returned = true ∧ safe role None None st').

Lemma returns_keeps {A} (m : SessionOps.M A) st : keeps m → returns_safe st (m st).1 true.
Proof.
  intros Hm. destruct (m st) as [st' r] eqn:Hr. destruct (Hm _ _ _ Hr) as [Hl Hs].
  split; [done|]. intros. split; [done|]. by apply Hs.
Qed.

Lemma recv_spec input st :
  returns_safe st (SessionOps.recv input st).1
    match (SessionOps.recv input st).2 with Some _ => true | None => false end.
Proof.
  unfold SessionOps.recv.
  destruct input as [|b input']; [split; [exists []; by rewrite app_nil_r|done]|].
  set (input := b :: input').
  destruct (SessionOps.with_context _ st) as [st1 r] eqn:Hr.
  destruct (h2_with_context_spec _ st st1 r (id : quiet (ReqMemRecv input) → False) Hr)
    as (tr & rs & -> & Hl & Hfr & Hs).
  assert (taken_in (log st1) = taken_in (log st) ++ take (Z.to_nat (rs_rv rs)) input) as Hti.
  { rewrite Hl. unfold taken_in. rewrite fmap_app, concat_app. cbn. by rewrite app_nil_r. }
  destruct (Z.ltb_spec (rs_rv rs) 0) as [Hneg|Hpos]; cbn [fst snd].
  { split; [eauto|]. intros Hlib Hsafe. split; [done|].
    destruct (Hs Hlib Hsafe) as (_ & Hb & Ho & Hg). split_and!; try done.
    destruct Hsafe as [Hf _]. unfold framed in *. rewrite Hfr, Hti.
    replace (Z.to_nat (rs_rv rs)) with 0%nat by lia. by rewrite app_nil_r. }
  destruct (decide _) as [Hlt|Hge]; cbn [fst snd].
  { split; [eauto|]. intros Hlib Hsafe. destruct (Hs Hlib Hsafe) as ((Hle & _) & _).
    cbn [c_response] in Hle. lia. }
  assert (safe role None None st → ∃ p,
    Progress.advance (frames st1.1) (take (Z.to_nat (rs_rv rs)) input) = Some p ∧
    tracks (bool_decide (role = Server)) p (taken_in (log st1))) as Hadv.
  { intros [Hf _]. rewrite Hfr, Hti. by apply advance_loop_tracks. }
  destruct (Progress.advance _ _) as [p|] eqn:Hp; cbn [fst snd]; (split; [eauto|]);
    intros Hlib Hsafe; destruct (Hadv Hsafe) as (p' & [= <-] & Ht).
  split; [done|]. by destruct (Hs Hlib Hsafe) as (_ & Hb & Ho & Hg).
Qed.

Lemma returns_records st st' :
  returns_safe st st' true → returns_safe st (SessionOps.set_records [] st'.1, st'.2) true.
Proof. done. Qed.

Lemma run_op_spec o st :
  returns_safe st (run_op o st).1 match (run_op o st).2 with Some _ => true | None => false end.
Proof.
  destruct o as [|sink|input|headers [e|]|s headers [e|]|s h|s h|s|s n|s c|s c| |s| |];
    cbn [run_op fst snd forget]; try (apply returns_keeps).
  - unfold SessionOps.send. apply keeps_then; [apply keeps_send_raw|]. intros. apply h2_keeps_ret.
  - unfold SessionOps.send_into. pose proof (returns_keeps _ st keeps_send_raw) as Hr.
    destruct (SessionOps.send_raw st) as [st' r]. cbn [fst snd] in *. by apply returns_records.
  - pose proof (recv_spec input st) as Hr.
    destruct (SessionOps.recv input st) as [st' [r|]]; exact Hr.
  - apply keeps_submit_request_with.
  - apply keeps_submit_request.
  - apply keeps_submit_response_with.
  - apply keeps_submit_response.
  - apply keeps_submit_informational.
  - apply keeps_submit_trailer.
  - apply keeps_trailers_ready.
  - apply keeps_consume.
  - apply keeps_reset_stream.
  - apply keeps_shutdown.
  - apply keeps_last_processed.
  - apply keeps_resume_body.
  - apply keeps_want_read.
  - apply keeps_want_write.
Qed.

Lemma run_ops_spec os st : returns_safe st (run_ops os st).1 (run_ops os st).2.
Proof.
  revert st. induction os as [|o os IH]; intros st; cbn [run_ops].
  - split; [exists []; by rewrite app_nil_r|done].
  - pose proof (run_op_spec o st) as [[more1 Hl1] H1].
    destruct (run_op o st) as [st1 [r|]]; cbn [fst snd] in *; [|by split; [eauto|]].
    destruct (IH st1) as [[more2 Hl2] H2]. split.
    + exists (more1 ++ more2). by rewrite Hl2, Hl1, (assoc_L (++)).
    + intros Hlib Hsafe. apply H2; [done|]. rewrite Hl2 in Hlib.
      by apply H1; [apply library_ok_app in Hlib|].
Qed.

(** A session as built. *)
Lemma build_safe (b : SessionOps.SessionBuilder (C:=C)) c s :
  SessionOps.build b c = Ok s → role = SessionOps.sb_role b →
  library_ok role (log (s, c)) → safe role None None (s, c).
Proof.
  unfold SessionOps.build. destruct (SessionOps.resolve_settings b) as [l|]; [|done].
  destruct (negb _); [done|]. destruct (negb _); [done|].
  destruct (nghttp2_session_new _ _) as [n|] eqn:Hn; [|done].
  set (s0 := mkSession _ _ _ _ _ _ _ _ _).
  destruct (SessionOps.submit_settings l (s0, c)) as [st [[]|e]] eqn:Hsub; [|done].
  intros [= <-] Hrole Hlib.
  assert (st.2 = c) as Hc.
  { revert Hsub. unfold SessionOps.submit_settings, SessionOps.bind, SessionOps.native_call.
    destruct (nghttp2_call _ _ _ _ _) as [[raw' w] rs]. cbn. unfold SessionOps.checked.
    destruct (_ =? _); by intros [= <-]. }
  destruct st as [s c']. cbn in Hc, Hlib |- *. subst c'.
  apply (keeps_submit_settings role l _ _ _ Hsub); [done|].
  assert (log (s0, c) = []) as Hl by exact (calls_of_new _ _ _ Hn).
  unfold safe, framed. rewrite Hl. cbn. split_and!; try done.
  - rewrite Hrole. apply tracks_new.
  - apply owned_initial.
Qed.
End Runs.

(** ** The guarantees *)

Section Guarantees.
Context `{R : Recorded, BodySources} {C : Type}.

(** C8. Memory safety of outgoing bodies.  Whatever operations are called on a session, as
    long as nghttp2 uses an entry's address only between accepting it and closing its stream:
    no operation panics; no entry is used after being freed, or freed twice; the live entries
    are exactly those the registry names, each under one stream and exactly for as long as
    nghttp2 holds it; and dropping the session frees every one. *)
Theorem bodies_memory_safe (b : SessionOps.SessionBuilder (C:=C)) c s os st' ok :
  SessionOps.build b c = Ok s → run_ops os (s, c) = (st', ok) →
  library_ok (SessionOps.sb_role b) (log st') →
  ok = true ∧ undefined (memory st'.1) = false ∧
  (∀ a, is_Some (live (memory st'.1) !! a) ↔ ∃ x, bodies st'.1 !! x = Some a) ∧
  (∀ x y a, bodies st'.1 !! x = Some a → bodies st'.1 !! y = Some a → x = y) ∧
  bodies st'.1 = held (log st') ∧
  undefined (SessionOps.drop st'.1) = false ∧ live (SessionOps.drop st'.1) = ∅.
Proof.
  intros Hbuild Hrun Hlib. pose proof (run_ops_spec (SessionOps.sb_role b) os (s, c)) as [[more Hl] Hs].
  rewrite Hrun in *. cbn [fst snd] in *.
  destruct Hs as [-> (Hf & Hb & Ho & Hg & _)]; [done| |].
  { eapply build_safe; [done|done|]. rewrite Hl in Hlib. by apply library_ok_app in Hlib. }
  pose proof (owned_drop _ _ Ho) as [Hu Hd]. pose proof Ho as [Hun Hlive Hinj _ _].
  split_and!; try done. intros a. rewrite Hlive. split; [by intros [|]|by right].
Qed.

(** C9. However the peer's octets are cut into reads, and whatever else is done meanwhile,
    [mid_frame] answers false exactly when what nghttp2 accepted, less the client's preface
    on a server, is a sequence of whole frames. *)
Theorem mid_frame_exact (b : SessionOps.SessionBuilder (C:=C)) c s os st' ok :
  SessionOps.build b c = Ok s → run_ops os (s, c) = (st', ok) →
  library_ok (SessionOps.sb_role b) (log st') →
  SessionOps.mid_frame st'.1 = false ↔
    Frames (after_preface (bool_decide (SessionOps.sb_role b = Server)) (taken_in (log st'))).
Proof.
  intros Hbuild Hrun Hlib. pose proof (run_ops_spec (SessionOps.sb_role b) os (s, c)) as [[more Hl] Hs].
  rewrite Hrun in *. cbn [fst snd] in *. destruct Hs as [-> [Hf _]]; [done| |].
  { eapply build_safe; [done|done|]. rewrite Hl in Hlib. by apply library_ok_app in Hlib. }
  by apply tracks_in_frame.
Qed.
End Guarantees.

(** ** A library, concretely *)

(** Checking a log from the front. *)
Fixpoint trace_holds (h : gmap Z address) (tr : trace) : Prop :=
  match tr with
  | [] => True
  | ev :: tr => uses_held h ev.1 ∧ trace_holds (hold_event h ev) tr
  end.

Definition call_holds (role : Role) (h : gmap Z address) (c : call) : Prop :=
  match c_request c with
  | ReqMemSend => trace_holds h (c_trace c)
  | ReqMemRecv input =>
      rs_rv (c_response c) ≤ Z.of_nat (length input) ∧ trace_holds h (c_trace c)
  | _ => call_ok role h c
  end.

Fixpoint log_holds (role : Role) (h : gmap Z address) (cs : list call) : Prop :=
  match cs with
  | [] => True
  | c :: cs => call_holds role h c ∧ log_holds role (hold_call h c) cs
  end.

Lemma trace_holds_uses h tr :
  trace_holds h tr →
  ∀ tr1 ev tr2, tr = tr1 ++ ev :: tr2 → uses_held (foldl hold_event h tr1) ev.1.
Proof.
  intros Ht tr1. revert h tr Ht. induction tr1 as [|e tr1 IH]; intros h tr Ht ev tr2 ->.
  - by destruct Ht.
  - destruct Ht as [_ Ht]. by apply (IH _ _ Ht ev tr2).
Qed.

Lemma log_holds_ok role cs : log_holds role ∅ cs → library_ok role cs.
Proof.
  intros Hc cs1. unfold held. revert Hc. generalize (∅ : gmap Z address).
  revert cs. induction cs1 as [|c1 cs1 IH]; intros cs h Hc c cs2 ->; cbn.
  - destruct Hc as [Hc _]. unfold call_holds, call_ok in *.
    destruct (c_request c); try done; [by apply trace_holds_uses|].
    destruct Hc as [Hle Ht]. split; [done|by apply trace_holds_uses].
  - destruct Hc as [_ Hc]. by apply (IH _ _ Hc c cs2).
Qed.

Module Toy.

(** The documented values are immaterial but for being there. *)
Definition codes : Nghttp2Codes := {|
  NGHTTP2_ERR_INVALID_ARGUMENT := -501; NGHTTP2_ERR_UNSUPPORTED_VERSION := -503;
  NGHTTP2_ERR_PROTO := -505; NGHTTP2_ERR_INVALID_FRAME := -506; NGHTTP2_ERR_DEFERRED := -508;
  NGHTTP2_ERR_STREAM_ID_NOT_AVAILABLE := -509; NGHTTP2_ERR_STREAM_CLOSED := -510;
  NGHTTP2_ERR_STREAM_CLOSING := -511; NGHTTP2_ERR_STREAM_SHUT_WR := -512;
  NGHTTP2_ERR_INVALID_STREAM_ID := -513; NGHTTP2_ERR_INVALID_STREAM_STATE := -514;
  NGHTTP2_ERR_DEFERRED_DATA_EXIST := -515; NGHTTP2_ERR_START_STREAM_NOT_ALLOWED := -516;
  NGHTTP2_ERR_GOAWAY_ALREADY_SENT := -517; NGHTTP2_ERR_INVALID_HEADER_BLOCK := -518;
  NGHTTP2_ERR_INVALID_STATE := -519; NGHTTP2_ERR_TEMPORAL_CALLBACK_FAILURE := -521;
  NGHTTP2_ERR_FRAME_SIZE_ERROR := -522; NGHTTP2_ERR_HEADER_COMP := -523;
  NGHTTP2_ERR_FLOW_CONTROL := -524; NGHTTP2_ERR_INSUFF_BUFSIZE := -525;
  NGHTTP2_ERR_TOO_MANY_INFLIGHT_SETTINGS := -527; NGHTTP2_ERR_PUSH_DISABLED := -528;
  NGHTTP2_ERR_DATA_EXIST := -529; NGHTTP2_ERR_SESSION_CLOSING := -530;
  NGHTTP2_ERR_HTTP_HEADER := -531; NGHTTP2_ERR_HTTP_MESSAGING := -532;
  NGHTTP2_ERR_REFUSED_STREAM := -533; NGHTTP2_ERR_SETTINGS_EXPECTED := -536;
  NGHTTP2_ERR_TOO_MANY_SETTINGS := -537; NGHTTP2_ERR_NOMEM := -901;
  NGHTTP2_ERR_CALLBACK_FAILURE := -902; NGHTTP2_ERR_BAD_CLIENT_MAGIC := -903;
  NGHTTP2_ERR_FLOODED := -904; NGHTTP2_ERR_TOO_MANY_CONTINUATIONS := -905;
  NGHTTP2_DATA := 0; NGHTTP2_HEADERS := 1; NGHTTP2_SETTINGS := 4; NGHTTP2_PUSH_PROMISE := 5;
  NGHTTP2_PING := 6; NGHTTP2_GOAWAY := 7; NGHTTP2_CONTINUATION := 9;
  NGHTTP2_FLAG_END_STREAM := 1; NGHTTP2_FLAG_ACK := 1; NGHTTP2_FLAG_END_HEADERS := 4;
  NGHTTP2_HCAT_REQUEST := 0; NGHTTP2_HCAT_RESPONSE := 1; NGHTTP2_HCAT_PUSH_RESPONSE := 2;
  NGHTTP2_HCAT_HEADERS := 3; NGHTTP2_DATA_FLAG_EOF := 1; NGHTTP2_DATA_FLAG_NO_END_STREAM := 2;
  NGHTTP2_DATA_FLAG_NO_COPY := 4; NGHTTP2_NV_FLAG_NONE := 0; NGHTTP2_NV_FLAG_NO_INDEX := 1;
  NGHTTP2_SETTINGS_HEADER_TABLE_SIZE := 1; NGHTTP2_SETTINGS_ENABLE_PUSH := 2;
  NGHTTP2_SETTINGS_MAX_CONCURRENT_STREAMS := 3; NGHTTP2_SETTINGS_INITIAL_WINDOW_SIZE := 4;
  NGHTTP2_SETTINGS_MAX_FRAME_SIZE := 5; NGHTTP2_SETTINGS_MAX_HEADER_LIST_SIZE := 6;
  NGHTTP2_SETTINGS_ENABLE_CONNECT_PROTOCOL := 8; NGHTTP2_SETTINGS_NO_RFC7540_PRIORITIES := 9
|}.

(** The next stream id, and the bodies to read. *)
Definition session : Type := Z * list (Z * address).

(** A send reads each body once, for ten octets, and closes its stream. *)
Definition serve {B} (cb : B → callback → B * cb_answer) (b : B) (body : Z * address) : B :=
  (cb (cb b (CbReadBody body.2 body.1 10)).1 (CbStreamClose body.1 0)).1.

Definition answer (rq : request) (B : Type) (cb : B → callback → B * cb_answer) (n : session)
    (b : B) : session * B * response :=
  match rq with
  | ReqSubmitRequest _ p =>
      ((n.1 + 2, match p with Some a => (n.1, a) :: n.2 | None => n.2 end), b, mkResponse n.1 [])
  | ReqMemSend => ((n.1, []), foldl (serve cb) b n.2, mkResponse 0 [])
  | ReqMemRecv input => (n, b, mkResponse (Z.of_nat (length input)) [])
  | _ => (n, b, mkResponse 0 [])
  end.

Definition library : Nghttp2 := {|
  nghttp2_codes := codes;
  nghttp2_session := session;
  nghttp2_option_new := 0;
  nghttp2_session_callbacks_new := 0;
  nghttp2_session_new _ _ := Ok (1, []);
  nghttp2_call := answer
|}.

Lemma bytes_fill_length s buf : length (Bytes.fill s buf).1.2 = length buf.
Proof.
  unfold Bytes.fill. cbn. rewrite length_app, length_take, !length_drop. lia.
Qed.

Definition sources : BodySources := {|
  push_source := BytesBody; fill := Bytes.fill; fill_length := bytes_fill_length;
  shared_source := unit; take_shared := λ s _, (s, SDefer)
|}.

#[local] Existing Instance sources.
#[local] Existing Instance logged_recorded.
#[local] Instance toy : Nghttp2 := @logged library.

Definition builder : SessionOps.SessionBuilder (C:=nat) := SessionOps.with_role Client.

Definition get : list Header.Header :=
  [Header.from_bytes (ascii_bytes ":method") (ascii_bytes "GET")].

(** A SETTINGS frame with an empty payload, then most of the next header. *)
Definition settings_then_some : bytes := map Zb [0; 0; 0; 4; 0; 0; 0; 0; 0; 0; 0; 7].

Definition script : list op :=
  [ORequest get (Some (Entry.new (Bytes.new (ascii_bytes "hello"))));
   ORecv settings_then_some; OSend;
   ORequest get (Some (Entry.new (Bytes.new (ascii_bytes "again"))))].

(** The session [builder] builds, and where [script] takes it. *)
Definition built : Session nghttp2_session nat :=
  match SessionOps.build builder 0%nat with
  | Ok s => s
  | Err _ => mkSession (mkLogged (N:=library) (1, []) []) (mkHandlers None None None None None) false
               ∅ ∅ ∅ [] (Progress.new false) Memory.initial
  end.

Definition ended : SessionOps.St (C:=nat) * bool := run_ops script (built, 0%nat).

Lemma ended_eq : run_ops script (built, 0%nat) = (ended.1, ended.2).
Proof. unfold ended. generalize (run_ops script (built, 0%nat)). by intros []. Qed.

Lemma built_ok : SessionOps.build builder 0%nat = Ok built.
Proof. vm_compute. reflexivity. Qed.

Lemma ended_ok : library_ok (SessionOps.sb_role builder) (log ended.1).
Proof.
  apply log_holds_ok. vm_compute. repeat split; try (by intros; discriminate).
  all: by exists 1.
Qed.

Lemma bodies_memory_safe_witness :
  bodies ended.1.1 = held (log ended.1) ∧ bodies ended.1.1 !! 3 = Some 1%nat ∧
  undefined (SessionOps.drop ended.1.1) = false.
Proof.
  destruct (bodies_memory_safe builder 0%nat built script ended.1 ended.2)
    as (_ & _ & _ & _ & Hb & Hu & _).
  - exact built_ok.
  - exact ended_eq.
  - exact ended_ok.
  - split; [exact Hb|]. split; [vm_compute; reflexivity|exact Hu].
Defined.

Lemma mid_frame_exact_witness :
  SessionOps.mid_frame ended.1.1 = true ∧
  (SessionOps.mid_frame ended.1.1 = false ↔
   Frames (after_preface (bool_decide (SessionOps.sb_role builder = Server))
             (taken_in (log ended.1)))).
Proof.
  split; [vm_compute; reflexivity|].
  exact (mid_frame_exact builder 0%nat built script ended.1 ended.2 built_ok ended_eq ended_ok).
Defined.
End Toy.
