(* ===== verification/QuicTypes.v ===== *)
(** * Values of the QUIC crate (crates/ngnet-quic/src/{error,time,stream,cid,rand,validate,settings,params}.rs)

    Errors and their classification, timestamps with their sentinel, stream and connection
    identifiers, the checks that stand in front of ngtcp2's assertions, and the builders that
    run them.  Constants and pure functions of the C library are the fields of the class
    [Ngtcp2Codes]. *)

From Stdlib Require Import ZArith Lia Strings.Byte.
From stdpp Require Import base list gmap strings.
From S2P Require Import Prelude.

Class Ngtcp2Codes := {
  NGTCP2_ERR_NOMEM : Z;
  NGTCP2_ERR_INVALID_ARGUMENT : Z;
  NGTCP2_ERR_INVALID_STATE : Z;
  NGTCP2_ERR_CRYPTO : Z;
  NGTCP2_ERR_REQUIRED_TRANSPORT_PARAM : Z;
  NGTCP2_ERR_MALFORMED_TRANSPORT_PARAM : Z;
  NGTCP2_ERR_TRANSPORT_PARAM : Z;
  NGTCP2_ERR_VERSION_NEGOTIATION_FAILURE : Z;
  NGTCP2_ERR_STREAM_DATA_BLOCKED : Z;
  NGTCP2_ERR_STREAM_ID_BLOCKED : Z;
  NGTCP2_ERR_CONN_ID_BLOCKED : Z;
  NGTCP2_ERR_NOBUF : Z;
  NGTCP2_ERR_STREAM_SHUT_WR : Z;
  NGTCP2_ERR_STREAM_NOT_FOUND : Z;
  NGTCP2_ERR_CLOSING : Z;
  NGTCP2_ERR_DRAINING : Z;
  NGTCP2_ERR_PROTO : Z;
  NGTCP2_ERR_FRAME_ENCODING : Z;
  NGTCP2_ERR_ACK_FRAME : Z;
  NGTCP2_ERR_FINAL_SIZE : Z;
  NGTCP2_ERR_FLOW_CONTROL : Z;
  NGTCP2_ERR_STREAM_LIMIT : Z;
  NGTCP2_ERR_CALLBACK_FAILURE : Z;
  NGTCP2_ERR_INTERNAL : Z;
  NGTCP2_ERR_AEAD_LIMIT_REACHED : Z;
  NGTCP2_ERR_RETRY : Z;
  NGTCP2_ERR_DROP_CONN : Z;
  NGTCP2_ERR_IDLE_CLOSE : Z;
  NGTCP2_ERR_WRITE_MORE : Z;
  NGTCP2_ERR_VERSION_NEGOTIATION : Z;
  NGTCP2_ERR_DECRYPT : Z;
  NGTCP2_ERR_HANDSHAKE_TIMEOUT : Z;
  ngtcp2_err_is_fatal : Z → bool;
  ngtcp2_err_infer_quic_transport_error_code : Z → Z;
  ngtcp2_is_reserved_version : Z → bool;
  NGTCP2_PROTO_VER_V1 : Z;
  NGTCP2_NO_ERROR : Z;
  NGTCP2_MAX_UDP_PAYLOAD_SIZE : Z;
  NGTCP2_MAX_TX_UDP_PAYLOAD_SIZE : Z;
  NGTCP2_DEFAULT_ACTIVE_CONNECTION_ID_LIMIT : Z;
  NGTCP2_MIN_CIDLEN : nat;
  NGTCP2_MAX_CIDLEN : nat;
  NGTCP2_STATELESS_RESET_TOKENLEN : nat;
  NGTCP2_MIN_STATELESS_RESET_RANDLEN : nat;
  NGTCP2_CCERR_TYPE_APPLICATION : Z;
  NGTCP2_CCERR_TYPE_VERSION_NEGOTIATION : Z;
  NGTCP2_CCERR_TYPE_IDLE_CLOSE : Z;
  NGTCP2_CCERR_TYPE_DROP_CONN : Z;
  NGTCP2_CCERR_TYPE_RETRY : Z;
  NGTCP2_WRITE_STREAM_FLAG_NONE : Z;
  NGTCP2_WRITE_STREAM_FLAG_FIN : Z;
  NGTCP2_STREAM_DATA_FLAG_FIN : Z;
  NGTCP2_STREAM_CLOSE2_FLAG_RX_APP_ERROR_CODE_SET : Z;
  NGTCP2_STREAM_CLOSE2_FLAG_TX_APP_ERROR_CODE_SET : Z;
  NGTCP2_TOKEN_TYPE_RETRY : Z;
  NGTCP2_TOKEN_TYPE_NEW_TOKEN : Z;
  NGTCP2_ENCRYPTION_LEVEL_INITIAL : Z;
  NGTCP2_ENCRYPTION_LEVEL_0RTT : Z;
  NGTCP2_ENCRYPTION_LEVEL_HANDSHAKE : Z;
  NGTCP2_ENCRYPTION_LEVEL_1RTT : Z
}.

(** ** error.rs *)

Inductive ErrorKind :=
| Protocol | Exhausted | InvalidInput | Crypto | ConnectionUnusable | Closing | Blocked
| StreamClosed | Internal.

#[global] Instance ErrorKind_eq_dec : EqDecision ErrorKind.
Proof. solve_decision. Defined.

Record Error := mkError {
  kind : ErrorKind;
  native : option Z;
  context : string;
  unusable : bool
}.

Abbreviation Result A := (result A Error).

Inductive CloseReason :=
| Transport (code : Z)
| Application (code : Z)
| VersionNegotiation
| IdleTimeout
| Dropped
| Retry.

Record CloseError := mkCloseError {
  reason : CloseReason;
  frame_type : Z;
  phrase : bytes
}.

(** [ngtcp2_ccerr], the reason phrase resolved through its pointer. *)
Record ccerr := mkCcerr {
  cc_type : Z;
  cc_error_code : Z;
  cc_frame_type : Z;
  cc_reason : option bytes
}.

Module QuicError.
Section Ops.
Context `{Ngtcp2Codes}.

Definition classify (code : Z) : ErrorKind :=
  if decide (code = NGTCP2_ERR_NOMEM) then Exhausted
  else if decide (code ∈ [NGTCP2_ERR_INVALID_ARGUMENT; NGTCP2_ERR_INVALID_STATE])
    then InvalidInput
  else if decide (code ∈ [NGTCP2_ERR_CRYPTO; NGTCP2_ERR_REQUIRED_TRANSPORT_PARAM;
                          NGTCP2_ERR_MALFORMED_TRANSPORT_PARAM; NGTCP2_ERR_TRANSPORT_PARAM;
                          NGTCP2_ERR_VERSION_NEGOTIATION_FAILURE]) then Crypto
  else if decide (code ∈ [NGTCP2_ERR_STREAM_DATA_BLOCKED; NGTCP2_ERR_STREAM_ID_BLOCKED;
                          NGTCP2_ERR_CONN_ID_BLOCKED; NGTCP2_ERR_NOBUF]) then Blocked
  else if decide (code ∈ [NGTCP2_ERR_STREAM_SHUT_WR; NGTCP2_ERR_STREAM_NOT_FOUND])
    then StreamClosed
  else if decide (code ∈ [NGTCP2_ERR_CLOSING; NGTCP2_ERR_DRAINING]) then Closing
  else if decide (code ∈ [NGTCP2_ERR_PROTO; NGTCP2_ERR_FRAME_ENCODING; NGTCP2_ERR_ACK_FRAME;
                          NGTCP2_ERR_FINAL_SIZE; NGTCP2_ERR_FLOW_CONTROL;
                          NGTCP2_ERR_STREAM_LIMIT]) then Protocol
  else if decide (code ∈ [NGTCP2_ERR_CALLBACK_FAILURE; NGTCP2_ERR_INTERNAL;
                          NGTCP2_ERR_AEAD_LIMIT_REACHED]) then ConnectionUnusable
  else Internal.

Definition backend (ctx : string) : Error := mkError Crypto None ctx false.
Definition native (code : Z) (ctx : string) : Error :=
  mkError (classify code) (Some code) ctx false.
Definition into_unusable (e : Error) : Error :=
  mkError (kind e) (QuicTypes.native e) (context e) true.
Definition invalid_input (ctx : string) : Error := mkError InvalidInput None ctx false.
Definition with_kind (k : ErrorKind) (ctx : string) : Error := mkError k None ctx false.
Definition unusable : Error :=
  mkError ConnectionUnusable None
    "the connection encountered an unrecoverable error and cannot be used" true.

Definition is_fatal (e : Error) : bool :=
  QuicTypes.unusable e || bool_decide (kind e = ConnectionUnusable)
  || match QuicTypes.native e with Some c => ngtcp2_err_is_fatal c | None => false end.

Definition infer (code : Z) : Z := ngtcp2_err_infer_quic_transport_error_code code.
Definition transport_error_code (e : Error) : option Z := infer <$> QuicTypes.native e.

(** [CloseError::from_raw]: an unknown type is a transport close. *)
Definition from_raw (raw : ccerr) : CloseError :=
  let t := cc_type raw in
  let r :=
    if decide (t = NGTCP2_CCERR_TYPE_APPLICATION) then Application (cc_error_code raw)
    else if decide (t = NGTCP2_CCERR_TYPE_VERSION_NEGOTIATION) then VersionNegotiation
    else if decide (t = NGTCP2_CCERR_TYPE_IDLE_CLOSE) then IdleTimeout
    else if decide (t = NGTCP2_CCERR_TYPE_DROP_CONN) then Dropped
    else if decide (t = NGTCP2_CCERR_TYPE_RETRY) then Retry
    else Transport (cc_error_code raw) in
  mkCloseError r (cc_frame_type raw) (default [] (cc_reason raw)).
End Ops.
End QuicError.

(** ** time.rs

    A [Timestamp] is any [u64] but the largest, which ngtcp2 reads as the absence of one. *)

Module Timestamp.
Definition from_nanos (nanos : Z) : Result Z :=
  if nanos =? U64_MAX
  then Err (QuicError.invalid_input
    "u64::MAX is reserved by ngtcp2 to mean the absence of a timestamp")
  else Ok nanos.
Definition from_raw (raw : Z) : option Z := if raw =? U64_MAX then None else Some raw.
End Timestamp.

Module Duration.
Definition from_millis (millis : Z) : Result Z :=
  match checked_mul millis 1000000 with
  | Some nanos => Ok nanos
  | None => Err (QuicError.invalid_input
      "duration in milliseconds overflows a nanosecond count")
  end.
End Duration.

(** ** stream.rs *)

Inductive Initiator := InitClient | InitServer.
Inductive Directionality := Bidirectional | Unidirectional.

#[global] Instance Directionality_eq_dec : EqDecision Directionality.
Proof. solve_decision. Defined.

Module StreamId.
Definition MAX : Z := 2 ^ 62 - 1.

Definition new (id : Z) : Result Z :=
  if id <? 0 then Err (QuicError.invalid_input "a stream identifier cannot be negative")
  else if MAX <? id then Err (QuicError.invalid_input "a stream identifier cannot exceed 2^62 - 1")
  else Ok id.

Definition initiator (id : Z) : Initiator :=
  if Z.land id 1 =? 0 then InitClient else InitServer.
Definition directionality (id : Z) : Directionality :=
  if Z.land id 2 =? 0 then Bidirectional else Unidirectional.
Definition is_writable_by (id : Z) (is_server : bool) : bool :=
  match directionality id with
  | Bidirectional => true
  | Unidirectional =>
      match initiator id, is_server with
      | InitServer, true | InitClient, false => true
      | _, _ => false
      end
  end.
End StreamId.

(** ** rand.rs, cid.rs *)

(** An entropy source fills a buffer of the given length, or fails. *)
Class EntropySources := {
  entropy : Type;
  fill : entropy → nat → entropy * Result bytes
}.

(** [ngtcp2_cid]: a length, and an array whose tail means nothing. *)
Record ConnectionId := mkCid { datalen : nat; data : bytes }.

Module Cid.
Section Ops.
Context `{Ngtcp2Codes}.

Definition MAX_LEN : nat := NGTCP2_MAX_CIDLEN.
Definition MIN_LEN : nat := NGTCP2_MIN_CIDLEN.
Definition DEFAULT_LEN : nat := 8.

Definition length_refused : Error := QuicError.invalid_input
  "a connection ID must be between NGTCP2_MIN_CIDLEN and NGTCP2_MAX_CIDLEN bytes".

Definition new (bs : bytes) : Result ConnectionId :=
  if decide (length bs < MIN_LEN ∨ MAX_LEN < length bs)%nat then Err length_refused
  else Ok (mkCid (length bs) (bs ++ replicate (MAX_LEN - length bs) x00)).

Definition generate `{EntropySources} (source : entropy) (len : nat)
  : entropy * Result ConnectionId :=
  if negb (bool_decide (MIN_LEN ≤ len ≤ MAX_LEN)%nat) then (source, Err length_refused)
  else
    match fill source len with
    | (source, Ok bs) => (source, new bs)
    | (source, Err e) => (source, Err e)
    end.

Definition as_bytes (c : ConnectionId) : bytes := take (datalen c) (data c).

(** [PartialEq]: the significant bytes only. *)
Definition eqb (a b : ConnectionId) : bool := bool_decide (as_bytes a = as_bytes b).
End Ops.
End Cid.

(** ** validate.rs *)

Module Validate.
Section Checks.
Context `{Ngtcp2Codes}.

Definition MAX_VARINT : Z := 2 ^ 62 - 1.
Definition MAX_INITIAL_PKT_NUM : Z := 2 ^ 31 - 1.
Definition MAX_ACK_DELAY_LIMIT : Z := 2 ^ 14 * 1000000.
Definition MAX_UNUSED_DCID : Z := 8.

(** One guard: refuse with [ctx] when [bad]. *)
Definition refuse (bad : bool) (ctx : string) (rest : Result unit) : Result unit :=
  if bad then Err (QuicError.invalid_input ctx) else rest.

Definition varint (value : Z) (ctx : string) : Result unit :=
  refuse (MAX_VARINT <? value) ctx (Ok ()).

Definition settings (max_window max_stream_window max_tx_udp_payload_size initial_pkt_num
    initial_rtt : Z) : Result unit :=
  refuse (MAX_VARINT <? max_window)
    "settings.max_window exceeds the maximum QUIC varint" (
  refuse (MAX_VARINT <? max_stream_window)
    "settings.max_stream_window exceeds the maximum QUIC varint" (
  refuse (max_tx_udp_payload_size <? NGTCP2_MAX_UDP_PAYLOAD_SIZE)
    "settings.max_tx_udp_payload_size is below NGTCP2_MAX_UDP_PAYLOAD_SIZE" (
  refuse (NGTCP2_MAX_TX_UDP_PAYLOAD_SIZE <? max_tx_udp_payload_size)
    "settings.max_tx_udp_payload_size exceeds NGTCP2_MAX_TX_UDP_PAYLOAD_SIZE" (
  refuse (MAX_INITIAL_PKT_NUM <? initial_pkt_num)
    "settings.initial_pkt_num exceeds INT32_MAX" (
  refuse (initial_rtt =? 0) "settings.initial_rtt must not be zero" (Ok ())))))).

Definition pmtud_probe (size : Z) : Result unit :=
  refuse (size <=? NGTCP2_MAX_UDP_PAYLOAD_SIZE)
    "a PMTUD probe size must exceed NGTCP2_MAX_UDP_PAYLOAD_SIZE" (
  refuse (NGTCP2_MAX_TX_UDP_PAYLOAD_SIZE <? size)
    "a PMTUD probe size exceeds NGTCP2_MAX_TX_UDP_PAYLOAD_SIZE" (Ok ())).

Definition transport_params_common (active_connection_id_limit initial_max_data
    initial_max_stream_data_bidi_local initial_max_stream_data_bidi_remote
    initial_max_stream_data_uni max_idle_timeout max_ack_delay : Z) : Result unit :=
  refuse (active_connection_id_limit <? NGTCP2_DEFAULT_ACTIVE_CONNECTION_ID_LIMIT)
    "params.active_connection_id_limit is below the QUIC minimum of 2" (
  refuse (MAX_UNUSED_DCID <? active_connection_id_limit)
    "params.active_connection_id_limit exceeds what ngtcp2 can track" (
  refuse (MAX_VARINT <? initial_max_data)
    "params.initial_max_data exceeds the maximum QUIC varint" (
  refuse (MAX_VARINT <? initial_max_stream_data_bidi_local)
    "params.initial_max_stream_data_bidi_local exceeds the maximum QUIC varint" (
  refuse (MAX_VARINT <? initial_max_stream_data_bidi_remote)
    "params.initial_max_stream_data_bidi_remote exceeds the maximum QUIC varint" (
  refuse (MAX_VARINT <? initial_max_stream_data_uni)
    "params.initial_max_stream_data_uni exceeds the maximum QUIC varint" (
  refuse (max_idle_timeout =? U64_MAX)
    "params.max_idle_timeout must not be u64::MAX" (
  refuse (MAX_ACK_DELAY_LIMIT <=? max_ack_delay)
    "params.max_ack_delay must be under 2^14 milliseconds" (Ok ())))))))).

Definition transport_params_role (server original_dcid_present initial_scid_present
    stateless_reset_token_present preferred_addr_present retry_scid_present : bool)
  : Result unit :=
  refuse (server && negb original_dcid_present)
    "a server must set params.original_dcid, taken from the client's Initial packet" (
  refuse (negb server && original_dcid_present)
    "a client must not set params.original_dcid" (
  refuse initial_scid_present
    "params.initial_scid is set by ngtcp2, not by the caller" (
  refuse (negb server && stateless_reset_token_present)
    "a client must not set params.stateless_reset_token" (
  refuse (negb server && preferred_addr_present)
    "a client must not set params.preferred_addr" (
  refuse (negb server && retry_scid_present)
    "a client must not set params.retry_scid" (Ok ())))))).

Definition MIN_IV_LEN : nat := 8.
Definition MAX_IV_LEN : nat := 64.

Definition iv_len (len : nat) : Result unit :=
  refuse (negb (bool_decide (MIN_IV_LEN ≤ len ≤ MAX_IV_LEN)%nat))
    "a TLS backend produced an initialisation vector outside the length the QUIC library can handle"
    (Ok ()).

Definition iv_pair (rx tx : nat) : Result unit :=
  let? _ := iv_len rx in
  let? _ := iv_len tx in
  refuse (negb (bool_decide (rx = tx)))
    "a TLS backend produced initialisation vectors of different lengths for the two directions"
    (Ok ()).

Definition secret_len (len expected : nat) : Result unit :=
  refuse (negb (bool_decide (len = expected)))
    "a TLS backend produced a traffic secret of the wrong length for the negotiated cipher suite"
    (Ok ()).

Definition server_version (server : bool) (client_chosen_version : Z) : Result unit :=
  refuse (server && ngtcp2_is_reserved_version client_chosen_version)
    "a server cannot choose a reserved QUIC version" (Ok ()).
End Checks.
End Validate.

(** ** settings.rs *)

(** The fields of [ngtcp2_settings] the crate writes. *)
Record RawSettings := mkRawSettings {
  initial_ts : Z;
  initial_rtt : Z;
  max_tx_udp_payload_size : Z;
  max_window : Z;
  max_stream_window : Z;
  handshake_timeout : Z;
  initial_pkt_num : Z;
  no_pmtud : Z;
  token_type : Z;
  raw_token : option bytes
}.

(** The fields of [ngtcp2_transport_params] the crate reads or writes. *)
Record RawParams := mkRawParams {
  initial_max_stream_data_bidi_local : Z;
  initial_max_stream_data_bidi_remote : Z;
  initial_max_stream_data_uni : Z;
  initial_max_data : Z;
  initial_max_streams_bidi : Z;
  initial_max_streams_uni : Z;
  max_idle_timeout : Z;
  active_connection_id_limit : Z;
  max_ack_delay : Z;
  retry_scid : option ConnectionId;
  original_dcid : option ConnectionId;
  initial_scid_present : bool;
  stateless_reset_token_present : bool;
  preferred_addr_present : bool
}.

(** What the C library's two initialisers fill in. *)
Class Ngtcp2Defaults := {
  settings_default : RawSettings;
  transport_params_default : RawParams
}.

Record Settings := mkSettings { s_raw : RawSettings; s_token : option bytes }.

Inductive TokenKind := TokenRetry | TokenNewToken.

Module SettingsOps.
Section Ops.
Context `{Ngtcp2Codes, Ngtcp2Defaults}.

Definition set_token (t : option bytes) (r : RawSettings) : RawSettings :=
  mkRawSettings (initial_ts r) (initial_rtt r) (max_tx_udp_payload_size r) (max_window r)
    (max_stream_window r) (handshake_timeout r) (initial_pkt_num r) (no_pmtud r)
    (token_type r) t.

Definition new (ts : Z) : Settings :=
  let r := settings_default in
  mkSettings (mkRawSettings ts (initial_rtt r) (max_tx_udp_payload_size r) (max_window r)
    (max_stream_window r) (handshake_timeout r) (initial_pkt_num r) (no_pmtud r)
    (token_type r) (raw_token r)) None.

Definition with_raw (f : RawSettings → RawSettings) (s : Settings) : Settings :=
  mkSettings (f (s_raw s)) (s_token s).

Definition initial_rtt (v : Z) : Settings → Settings := with_raw (λ r,
  mkRawSettings (initial_ts r) v (max_tx_udp_payload_size r) (max_window r)
    (max_stream_window r) (handshake_timeout r) (initial_pkt_num r) (no_pmtud r)
    (token_type r) (raw_token r)).
Definition max_tx_udp_payload_size (v : Z) : Settings → Settings := with_raw (λ r,
  mkRawSettings (initial_ts r) (QuicTypes.initial_rtt r) v (max_window r)
    (max_stream_window r) (handshake_timeout r) (initial_pkt_num r) (no_pmtud r)
    (token_type r) (raw_token r)).
Definition max_window (v : Z) : Settings → Settings := with_raw (λ r,
  mkRawSettings (initial_ts r) (QuicTypes.initial_rtt r) (QuicTypes.max_tx_udp_payload_size r) v
    (max_stream_window r) (handshake_timeout r) (initial_pkt_num r) (no_pmtud r)
    (token_type r) (raw_token r)).
Definition max_stream_window (v : Z) : Settings → Settings := with_raw (λ r,
  mkRawSettings (initial_ts r) (QuicTypes.initial_rtt r) (QuicTypes.max_tx_udp_payload_size r)
    (QuicTypes.max_window r) v (handshake_timeout r) (initial_pkt_num r) (no_pmtud r)
    (token_type r) (raw_token r)).
Definition handshake_timeout (v : Z) : Settings → Settings := with_raw (λ r,
  mkRawSettings (initial_ts r) (QuicTypes.initial_rtt r) (QuicTypes.max_tx_udp_payload_size r)
    (QuicTypes.max_window r) (QuicTypes.max_stream_window r) v (initial_pkt_num r) (no_pmtud r)
    (token_type r) (raw_token r)).
Definition initial_pkt_num (v : Z) : Settings → Settings := with_raw (λ r,
  mkRawSettings (initial_ts r) (QuicTypes.initial_rtt r) (QuicTypes.max_tx_udp_payload_size r)
    (QuicTypes.max_window r) (QuicTypes.max_stream_window r) (QuicTypes.handshake_timeout r) v
    (no_pmtud r) (token_type r) (raw_token r)).
Definition no_pmtud (v : bool) : Settings → Settings := with_raw (λ r,
  mkRawSettings (initial_ts r) (QuicTypes.initial_rtt r) (QuicTypes.max_tx_udp_payload_size r)
    (QuicTypes.max_window r) (QuicTypes.max_stream_window r) (QuicTypes.handshake_timeout r)
    (QuicTypes.initial_pkt_num r) (if v then 1 else 0) (token_type r) (raw_token r)).

Definition validated_token (token : bytes) (kind : TokenKind) (s : Settings) : Settings :=
  let r := s_raw s in
  mkSettings
    (mkRawSettings (initial_ts r) (QuicTypes.initial_rtt r) (QuicTypes.max_tx_udp_payload_size r)
       (QuicTypes.max_window r) (QuicTypes.max_stream_window r) (QuicTypes.handshake_timeout r)
       (QuicTypes.initial_pkt_num r) (QuicTypes.no_pmtud r)
       match kind with
       | TokenRetry => NGTCP2_TOKEN_TYPE_RETRY
       | TokenNewToken => NGTCP2_TOKEN_TYPE_NEW_TOKEN
       end (raw_token r))
    (Some token).

(** The raw settings, and the storage their token points into. *)
Definition build (s : Settings) : Result (RawSettings * option bytes) :=
  let r := s_raw s in
  let? _ := Validate.settings (QuicTypes.max_window r) (QuicTypes.max_stream_window r)
              (QuicTypes.max_tx_udp_payload_size r) (QuicTypes.initial_pkt_num r)
              (QuicTypes.initial_rtt r) in
  match s_token s with
  | Some (b :: bs) => Ok (set_token (Some (b :: bs)) r, s_token s)
  | _ => Ok (set_token None r, s_token s)
  end.
End Ops.
End SettingsOps.

(** ** params.rs *)

Module ParamsOps.
Section Ops.
Context `{Ngtcp2Codes, Ngtcp2Defaults}.

Definition DEFAULT_STREAM_DATA : Z := 256 * 1024.
Definition DEFAULT_CONNECTION_DATA : Z := 1024 * 1024.
Definition DEFAULT_MAX_STREAMS : Z := 100.
Definition DEFAULT_IDLE_TIMEOUT : Z := 30000000000.

Definition new : RawParams :=
  let r := transport_params_default in
  mkRawParams DEFAULT_STREAM_DATA DEFAULT_STREAM_DATA DEFAULT_STREAM_DATA
    DEFAULT_CONNECTION_DATA DEFAULT_MAX_STREAMS DEFAULT_MAX_STREAMS DEFAULT_IDLE_TIMEOUT
    (active_connection_id_limit r) (max_ack_delay r) (retry_scid r) (original_dcid r)
    (initial_scid_present r) (stateless_reset_token_present r) (preferred_addr_present r).

(** Setting the seven limits, by position. *)
Definition with_limits (f : nat → Z → Z) (r : RawParams) : RawParams :=
  mkRawParams
    (f 0%nat (initial_max_stream_data_bidi_local r))
    (f 1%nat (initial_max_stream_data_bidi_remote r))
    (f 2%nat (initial_max_stream_data_uni r)) (f 3%nat (initial_max_data r))
    (f 4%nat (initial_max_streams_bidi r)) (f 5%nat (initial_max_streams_uni r))
    (f 6%nat (max_idle_timeout r)) (f 7%nat (active_connection_id_limit r))
    (f 8%nat (max_ack_delay r)) (retry_scid r) (original_dcid r)
    (initial_scid_present r) (stateless_reset_token_present r) (preferred_addr_present r).

Definition put (i : nat) (v : Z) : RawParams → RawParams :=
  with_limits (λ j old, if decide (i = j) then v else old).

Definition initial_max_stream_data_bidi_local : Z → RawParams → RawParams := put 0.
Definition initial_max_stream_data_bidi_remote : Z → RawParams → RawParams := put 1.
Definition initial_max_stream_data_uni : Z → RawParams → RawParams := put 2.
Definition initial_max_data : Z → RawParams → RawParams := put 3.
Definition initial_max_streams_bidi : Z → RawParams → RawParams := put 4.
Definition initial_max_streams_uni : Z → RawParams → RawParams := put 5.
Definition max_idle_timeout : Z → RawParams → RawParams := put 6.
Definition active_connection_id_limit : Z → RawParams → RawParams := put 7.
Definition max_ack_delay : Z → RawParams → RawParams := put 8.

Definition with_cids (retry original : option ConnectionId) (r : RawParams) : RawParams :=
  mkRawParams (QuicTypes.initial_max_stream_data_bidi_local r)
    (QuicTypes.initial_max_stream_data_bidi_remote r)
    (QuicTypes.initial_max_stream_data_uni r) (QuicTypes.initial_max_data r)
    (QuicTypes.initial_max_streams_bidi r) (QuicTypes.initial_max_streams_uni r)
    (QuicTypes.max_idle_timeout r) (QuicTypes.active_connection_id_limit r)
    (QuicTypes.max_ack_delay r) retry original
    (initial_scid_present r) (stateless_reset_token_present r) (preferred_addr_present r).

Definition retry_scid (c : ConnectionId) (r : RawParams) : RawParams :=
  with_cids (Some c) (QuicTypes.original_dcid r) r.
Definition original_dcid (c : ConnectionId) (r : RawParams) : RawParams :=
  with_cids (QuicTypes.retry_scid r) (Some c) r.

Definition present {A} (o : option A) : bool := bool_decide (is_Some o).

Definition build (r : RawParams) (server : bool) : Result RawParams :=
  let? _ := Validate.transport_params_common (QuicTypes.active_connection_id_limit r)
              (QuicTypes.initial_max_data r) (QuicTypes.initial_max_stream_data_bidi_local r)
              (QuicTypes.initial_max_stream_data_bidi_remote r)
              (QuicTypes.initial_max_stream_data_uni r) (QuicTypes.max_idle_timeout r)
              (QuicTypes.max_ack_delay r) in
  let? _ := Validate.transport_params_role server (present (QuicTypes.original_dcid r))
              (initial_scid_present r) (stateless_reset_token_present r)
              (preferred_addr_present r) (present (QuicTypes.retry_scid r)) in
  Ok r.
End Ops.
End ParamsOps.

(** ** Lemmas *)

Section Lemmas.
Context `{Ngtcp2Codes}.

Lemma refuse_ok bad ctx rest a :
  Validate.refuse bad ctx rest = Ok a ↔ bad = false ∧ rest = Ok a.
Proof. unfold Validate.refuse. destruct bad; split; [done|by intros [[=] ?]|done|by intros [_ ?]]. Qed.

Lemma refuse_err bad ctx rest e :
  Validate.refuse bad ctx rest = Err e →
  (kind e = InvalidInput ∧ QuicTypes.native e = None ∧ QuicTypes.unusable e = false)
  ∨ rest = Err e.
Proof. unfold Validate.refuse. destruct bad; [|by right]. intros [= <-]. by left. Qed.

(** Every value ngtcp2 asserts on is in range when the settings are accepted, and settings
    whose values are in range are accepted. *)
Lemma settings_exact w sw p n rtt :
  is_ok (Validate.settings w sw p n rtt) = true ↔
  w ≤ 2 ^ 62 - 1 ∧ sw ≤ 2 ^ 62 - 1 ∧
  NGTCP2_MAX_UDP_PAYLOAD_SIZE ≤ p ≤ NGTCP2_MAX_TX_UDP_PAYLOAD_SIZE ∧
  n ≤ 2 ^ 31 - 1 ∧ rtt ≠ 0.
Proof.
  rewrite is_ok_true. unfold Validate.settings, Validate.MAX_VARINT, Validate.MAX_INITIAL_PKT_NUM.
  split.
  - intros [a Ha]. rewrite !refuse_ok in Ha. destruct_and!. zbool. lia.
  - intros Hc. exists (). rewrite !refuse_ok. split_and!; try done; lia.
Qed.

Definition role_ok (server : bool) (r : RawParams) : Prop :=
  initial_scid_present r = false ∧
  (if server then is_Some (original_dcid r)
   else original_dcid r = None ∧ retry_scid r = None ∧
        stateless_reset_token_present r = false ∧ preferred_addr_present r = false).

(** What [TransportParams::build] refuses is exactly what ngtcp2 would abort on -- too few
    or too many connection identifiers, a limit that is not a varint, the reserved timeout, an
    acknowledgement delay of 2^14 milliseconds or more -- or what the role may not send. *)
Lemma params_exact `{Ngtcp2Defaults} r server :
  is_ok (ParamsOps.build r server) = true ↔
  NGTCP2_DEFAULT_ACTIVE_CONNECTION_ID_LIMIT ≤ active_connection_id_limit r ≤ 8 ∧
  initial_max_data r ≤ 2 ^ 62 - 1 ∧
  initial_max_stream_data_bidi_local r ≤ 2 ^ 62 - 1 ∧
  initial_max_stream_data_bidi_remote r ≤ 2 ^ 62 - 1 ∧
  initial_max_stream_data_uni r ≤ 2 ^ 62 - 1 ∧
  max_idle_timeout r ≠ 2 ^ 64 - 1 ∧ max_ack_delay r < 2 ^ 14 * 1000000 ∧
  role_ok server r.
Proof.
  unfold ParamsOps.build, role_ok.
  destruct (Validate.transport_params_common _ _ _ _ _ _ _) as [[]|e] eqn:E.
  - unfold Validate.transport_params_common, Validate.MAX_VARINT, Validate.MAX_UNUSED_DCID,
      Validate.MAX_ACK_DELAY_LIMIT, U64_MAX in E.
    rewrite !refuse_ok in E. destruct_and!. zbool.
    destruct (Validate.transport_params_role _ _ _ _ _ _) as [[]|e] eqn:E'.
    + unfold Validate.transport_params_role, ParamsOps.present in E'.
      rewrite !refuse_ok in E'. destruct_and!. simpl. split; [|done]. intros _.
      split_and!; try done; try lia. destruct server; simpl in *; zbool.
      * by case_bool_decide.
      * repeat case_bool_decide; try done. rewrite <- !eq_None_not_Some in *. done.
    + simpl. split; [done|]. intros (?&?&?&?&?&?&?&?&?). exfalso.
      enough (Validate.transport_params_role server (ParamsOps.present (original_dcid r))
        (initial_scid_present r) (stateless_reset_token_present r)
        (preferred_addr_present r) (ParamsOps.present (retry_scid r)) = Ok ()) by congruence.
      unfold Validate.transport_params_role, ParamsOps.present. rewrite !refuse_ok.
      destruct server; simpl; split_and!; try done.
      * by rewrite bool_decide_eq_true_2.
      * destruct_and!. by rewrite bool_decide_eq_false_2 by (by apply eq_None_not_Some).
      * by destruct_and!.
      * by destruct_and!.
      * destruct_and!. by rewrite bool_decide_eq_false_2 by (by apply eq_None_not_Some).
  - simpl. split; [done|]. intros Hc. exfalso. destruct_and!.
    enough (Validate.transport_params_common (active_connection_id_limit r)
      (initial_max_data r) (initial_max_stream_data_bidi_local r)
      (initial_max_stream_data_bidi_remote r) (initial_max_stream_data_uni r)
      (max_idle_timeout r) (max_ack_delay r) = Ok ()) by congruence.
    unfold Validate.transport_params_common, Validate.MAX_VARINT, Validate.MAX_UNUSED_DCID,
      Validate.MAX_ACK_DELAY_LIMIT, U64_MAX. rewrite !refuse_ok. split_and!; try done; lia.
Qed.

(** A connection identifier reads back as the bytes it was made of, whatever the array holds
    behind them. *)
Lemma cid_new_exact bs :
  match Cid.new bs with
  | Ok c => Cid.as_bytes c = bs ∧ length (data c) = NGTCP2_MAX_CIDLEN ∧
            (NGTCP2_MIN_CIDLEN ≤ length bs ≤ NGTCP2_MAX_CIDLEN)%nat
  | Err e => e = Cid.length_refused ∧ ¬ (NGTCP2_MIN_CIDLEN ≤ length bs ≤ NGTCP2_MAX_CIDLEN)%nat
  end.
Proof.
  unfold Cid.new, Cid.MIN_LEN, Cid.MAX_LEN. case_decide; simpl; [split; [done|lia]|].
  split_and!.
  - unfold Cid.as_bytes. simpl. by rewrite take_app_length.
  - rewrite length_app, length_replicate. lia.
  - lia.
  - lia.
Qed.

Lemma stream_id_exact id :
  is_ok (StreamId.new id) = true ↔ 0 ≤ id ≤ 2 ^ 62 - 1.
Proof.
  unfold StreamId.new, StreamId.MAX.
  destruct (Z.ltb_spec id 0); simpl; [split; [done|lia]|].
  destruct (Z.ltb_spec (2 ^ 62 - 1) id); simpl; split; try done; lia.
Qed.
End Lemmas.

(** ** ngtcp2's values, for the examples *)

Module ToyCodes.
Definition codes : Ngtcp2Codes := {|
  NGTCP2_ERR_INVALID_ARGUMENT := -201; NGTCP2_ERR_NOBUF := -202; NGTCP2_ERR_PROTO := -203;
  NGTCP2_ERR_INVALID_STATE := -204; NGTCP2_ERR_ACK_FRAME := -205;
  NGTCP2_ERR_STREAM_ID_BLOCKED := -206; NGTCP2_ERR_FLOW_CONTROL := -210;
  NGTCP2_ERR_CONN_ID_BLOCKED := -207; NGTCP2_ERR_FINAL_SIZE := -215; NGTCP2_ERR_CRYPTO := -208;
  NGTCP2_ERR_STREAM_LIMIT := -214; NGTCP2_ERR_FRAME_ENCODING := -209;
  NGTCP2_ERR_STREAM_DATA_BLOCKED := -211; NGTCP2_ERR_STREAM_SHUT_WR := -221;
  NGTCP2_ERR_STREAM_NOT_FOUND := -222; NGTCP2_ERR_CLOSING := -223; NGTCP2_ERR_DRAINING := -224;
  NGTCP2_ERR_TRANSPORT_PARAM := -234; NGTCP2_ERR_REQUIRED_TRANSPORT_PARAM := -220;
  NGTCP2_ERR_MALFORMED_TRANSPORT_PARAM := -216; NGTCP2_ERR_DECRYPT := -218;
  NGTCP2_ERR_HANDSHAKE_TIMEOUT := -242;
  NGTCP2_ERR_VERSION_NEGOTIATION_FAILURE := -239; NGTCP2_ERR_VERSION_NEGOTIATION := -240;
  NGTCP2_ERR_CALLBACK_FAILURE := -502; NGTCP2_ERR_INTERNAL := -235; NGTCP2_ERR_NOMEM := -501;
  NGTCP2_ERR_AEAD_LIMIT_REACHED := -238; NGTCP2_ERR_RETRY := -236;
  NGTCP2_ERR_DROP_CONN := -237; NGTCP2_ERR_IDLE_CLOSE := -241; NGTCP2_ERR_WRITE_MORE := -230;
  ngtcp2_err_is_fatal e := e <=? -500;
  ngtcp2_err_infer_quic_transport_error_code _ := 1;
  ngtcp2_is_reserved_version v := Z.land v 0x0f0f0f0f =? 0x0a0a0a0a;
  NGTCP2_PROTO_VER_V1 := 1; NGTCP2_NO_ERROR := 0;
  NGTCP2_MAX_UDP_PAYLOAD_SIZE := 1200; NGTCP2_MAX_TX_UDP_PAYLOAD_SIZE := 65527;
  NGTCP2_DEFAULT_ACTIVE_CONNECTION_ID_LIMIT := 2;
  NGTCP2_MIN_CIDLEN := 1; NGTCP2_MAX_CIDLEN := 20;
  NGTCP2_STATELESS_RESET_TOKENLEN := 16; NGTCP2_MIN_STATELESS_RESET_RANDLEN := 5;
  NGTCP2_CCERR_TYPE_APPLICATION := 1; NGTCP2_CCERR_TYPE_VERSION_NEGOTIATION := 2;
  NGTCP2_CCERR_TYPE_IDLE_CLOSE := 3; NGTCP2_CCERR_TYPE_DROP_CONN := 4;
  NGTCP2_CCERR_TYPE_RETRY := 5;
  NGTCP2_WRITE_STREAM_FLAG_NONE := 0; NGTCP2_WRITE_STREAM_FLAG_FIN := 2;
  NGTCP2_STREAM_DATA_FLAG_FIN := 1;
  NGTCP2_STREAM_CLOSE2_FLAG_RX_APP_ERROR_CODE_SET := 1;
  NGTCP2_STREAM_CLOSE2_FLAG_TX_APP_ERROR_CODE_SET := 2;
  NGTCP2_TOKEN_TYPE_RETRY := 1; NGTCP2_TOKEN_TYPE_NEW_TOKEN := 2;
  NGTCP2_ENCRYPTION_LEVEL_INITIAL := 0; NGTCP2_ENCRYPTION_LEVEL_HANDSHAKE := 1;
  NGTCP2_ENCRYPTION_LEVEL_1RTT := 2; NGTCP2_ENCRYPTION_LEVEL_0RTT := 3
|}.

Definition defaults : Ngtcp2Defaults := {|
  settings_default := mkRawSettings 0 333000000 1200 6291456 6291456 U64_MAX 0 0 0 None;
  transport_params_default := mkRawParams 0 0 0 0 0 0 0 2 25000000 None None false false false
|}.

(** A source that counts what it gave. *)
Definition sources : EntropySources := {|
  entropy := nat;
  fill := λ s n, ((s + n)%nat, Ok (replicate n x2a))
|}.
End ToyCodes.
