(* ===== verification/QuicWire.v ===== *)
(** * Addresses, tokens and first packets of QUIC (crates/ngnet-quic/src/{path,token,accept}.rs)

    The [sockaddr] union addresses are stored in, the stateless tokens a server hands out, and
    the reading of a datagram nothing is known about yet.  The functions of ngtcp2 and of its
    crypto helper are the fields of [Ngtcp2Wire]. *)

From Stdlib Require Import ZArith Lia Strings.Byte.
From stdpp Require Import base list gmap strings.
From S2P Require Import Prelude QuicTypes.

(** ** path.rs *)

(** [core::net::SocketAddr]. *)
Inductive SocketAddr :=
| V4 (ip : bytes) (port : Z)
| V6 (ip : bytes) (port flowinfo scope_id : Z).

#[global] Instance SocketAddr_eq_dec : EqDecision SocketAddr.
Proof. solve_decision. Defined.

Inductive TargetOs := Linux | Bsd | Windows | OtherOs.

(** The target: its operating system, and the order of the bytes of an integer. *)
Record Target := mkTarget { os : TargetOs; big_endian : bool }.

Module Path.
Section Layout.
Variable tgt : Target.

(** The bytes of a [u16] and a [u32] in memory. *)
Definition ne16 (n : Z) : bytes :=
  let lo := Zb n in let hi := Zb (Z.shiftr n 8) in
  if big_endian tgt then [hi; lo] else [lo; hi].
Definition ne32 (n : Z) : bytes :=
  let b i := Zb (Z.shiftr n (8 * i)) in
  if big_endian tgt then [b 3; b 2; b 1; b 0] else [b 0; b 1; b 2; b 3].
Definition of_ne16 (bs : bytes) : Z :=
  match bs with
  | [x; y] => if big_endian tgt then 256 * bZ x + bZ y else bZ x + 256 * bZ y
  | _ => 0
  end.

(** [u16::to_be], and [u16::from_be], which is the same. *)
Definition to_be (n : Z) : Z :=
  if big_endian tgt then n else 256 * (n mod 256) + (n / 256) mod 256.

Definition AF_INET : Z := 2.
Definition AF_INET6 : Z :=
  match os tgt with Linux => 10 | Bsd => 30 | Windows => 23 | OtherOs => 0 end.

Definition size_of_in : nat := 16.
Definition size_of_in6 : nat := 28.

(** The union, as its bytes: [SockaddrIn] leaves the last twelve as they were. *)
Definition write_in (port : Z) (ip old : bytes) : bytes :=
  ne16 AF_INET ++ ne16 (to_be port) ++ ip ++ replicate 8 x00 ++ drop size_of_in old.
Definition write_in6 (port flowinfo : Z) (ip : bytes) (scope_id : Z) : bytes :=
  ne16 AF_INET6 ++ ne16 (to_be port) ++ ne32 flowinfo ++ ip ++ ne32 scope_id.

(** [From<SocketAddr>]. *)
Definition from (a : SocketAddr) : bytes :=
  let storage := replicate size_of_in6 x00 in
  match a with
  | V4 ip port => write_in port ip storage
  | V6 ip port flowinfo scope_id => write_in6 port flowinfo ip scope_id
  end.

Definition family (s : bytes) : Z := of_ne16 (take 2 s).
Definition port_field (s : bytes) : Z := of_ne16 (take 2 (drop 2 s)).

Definition len (s : bytes) : nat :=
  if family s =? AF_INET6 then size_of_in6 else size_of_in.

Definition to_socket_addr (s : bytes) : SocketAddr :=
  if family s =? AF_INET6
  then V6 (take 16 (drop 8 s)) (to_be (port_field s)) 0 0
  else V4 (take 4 (drop 4 s)) (to_be (port_field s)).

Record PathStorage := mkPath { p_local : bytes; p_remote : bytes }.

Definition new (local remote : SocketAddr) : PathStorage := mkPath (from local) (from remote).
Definition local (p : PathStorage) : SocketAddr := to_socket_addr (p_local p).
Definition remote (p : PathStorage) : SocketAddr := to_socket_addr (p_remote p).
(** The bytes behind [remote_sockaddr], as many as [remote_socklen] says. *)
Definition remote_sockaddr (p : PathStorage) : bytes := take (len (p_remote p)) (p_remote p).
End Layout.
End Path.

(** ** The library *)

(** [ngtcp2_version_cid]: the identifiers it points at, if any. *)
Record version_cid := mkVersionCid {
  vc_version : Z;
  vc_dcid : option bytes;
  vc_scid : option bytes
}.

(** The fields of [ngtcp2_pkt_hd] that are read. *)
Record pkt_hd := mkPktHd {
  hd_version : Z;
  hd_dcid : ConnectionId;
  hd_scid : ConnectionId;
  hd_token : option bytes
}.

Class Ngtcp2Wire := {
  (** [ngtcp2_pkt_decode_version_cid]: the code, and what it wrote. *)
  pkt_decode_version_cid : bytes → nat → Z * version_cid;
  (** [ngtcp2_accept]: the code, and the header it wrote. *)
  ngtcp2_accept : bytes → Z * pkt_hd;
  (** The packet writers: the packet, or a negative code. *)
  pkt_write_version_negotiation : nat → Z → bytes → bytes → list Z → result bytes Z;
  crypto_write_retry :
    nat → Z → ConnectionId → ConnectionId → ConnectionId → bytes → result bytes Z;
  pkt_write_stateless_reset : nat → bytes → bytes → result bytes Z;
  (** secret, version, sockaddr, the two identifiers, the time. *)
  crypto_generate_retry_token :
    bytes → Z → bytes → ConnectionId → ConnectionId → Z → result bytes Z;
  (** token, secret, version, sockaddr, destination identifier, lifetime, time. *)
  crypto_verify_retry_token :
    bytes → bytes → Z → bytes → ConnectionId → Z → Z → result ConnectionId Z;
  crypto_generate_stateless_reset_token : bytes → ConnectionId → result bytes Z
}.

(** ** token.rs *)

Module Token.
Section Ops.
Context `{Ngtcp2Codes, Ngtcp2Wire} (tgt : Target).

Definition RESET_TOKEN_LEN : nat := NGTCP2_STATELESS_RESET_TOKENLEN.
Definition MIN_RESET_RANDOM : nat := NGTCP2_MIN_STATELESS_RESET_RANDLEN.

(** [TokenSecret::new]. *)
Definition secret (bs : bytes) : Result bytes :=
  if (length bs <? 16)%nat
  then Err (QuicError.invalid_input "a token secret must be at least 16 bytes")
  else Ok bs.

Definition sockaddr_of (remote : SocketAddr) : bytes :=
  Path.remote_sockaddr tgt (Path.new tgt remote remote).

Definition issue_retry_token (secret : bytes) (version : Z) (remote : SocketAddr)
    (retry_scid original_dcid : ConnectionId) (now : Z) : Result bytes :=
  match crypto_generate_retry_token secret version (sockaddr_of remote) retry_scid
          original_dcid now with
  | Ok token => Ok token
  | Err _ => Err (QuicError.invalid_input "could not mint a Retry token")
  end.

Definition verify_retry_token (secret token : bytes) (version : Z) (remote : SocketAddr)
    (dcid : ConnectionId) (lifetime now : Z) : Result (option ConnectionId) :=
  match token with
  | [] => Ok None
  | _ =>
      match crypto_verify_retry_token token secret version (sockaddr_of remote) dcid
              lifetime now with
      | Ok recovered => Ok (Some recovered)
      | Err _ => Ok None
      end
  end.

(** A packet written at the start of a buffer: the rest of the buffer is as it was. *)
Definition over (dest packet : bytes) : bytes := packet ++ drop (length packet) dest.

(** The writers leave the packet in [dest] and say how long it is. *)
Definition write_retry (dest : bytes) (version : Z) (dcid scid original_dcid : ConnectionId)
    (token : bytes) : bytes * Result nat :=
  match crypto_write_retry (length dest) version dcid scid original_dcid token with
  | Ok packet => (over dest packet, Ok (length packet))
  | Err code => (dest, Err (QuicError.native code "could not write a Retry packet"))
  end.

Definition reset_token (secret : bytes) (cid : ConnectionId) : Result bytes :=
  match crypto_generate_stateless_reset_token secret cid with
  | Ok token => Ok token
  | Err _ => Err (QuicError.invalid_input "could not derive a stateless reset token")
  end.

Definition write_stateless_reset (dest token random : bytes) : bytes * Result nat :=
  match pkt_write_stateless_reset (length dest) token random with
  | Ok packet => (over dest packet, Ok (length packet))
  | Err code => (dest, Err (QuicError.native code "could not write a stateless reset"))
  end.

Definition write_stateless_reset_smaller_than (dest token random : bytes)
    (provoking_len : nat) : bytes * Result (option nat) :=
  if (provoking_len <? RESET_TOKEN_LEN + 1)%nat then (dest, Ok None)
  else
    let budget := (provoking_len - (RESET_TOKEN_LEN + 1))%nat in
    if (budget <? MIN_RESET_RANDOM)%nat then (dest, Ok None)
    else
      let prefix := Nat.min budget (length random) in
      if (prefix <? MIN_RESET_RANDOM)%nat then (dest, Ok None)
      else
        let '(dest, written) := write_stateless_reset dest token (take prefix random) in
        (dest, let? written := written in
               if (provoking_len <=? written)%nat then Ok None else Ok (Some written)).
End Ops.
End Token.

(** ** accept.rs *)

Inductive Inspection :=
| Supported (version : Z) (dcid scid : ConnectionId)
| UnsupportedVersion (version : Z) (dcid scid : ConnectionId)
| ShortHeader (dcid : ConnectionId).

Inductive InitialToken :=
| Absent
| RetryToken (bs : bytes)
| Regular (bs : bytes)
| Unknown (bs : bytes).

Record InitialPacket := mkInitial {
  version : Z;
  dcid : ConnectionId;
  scid : ConnectionId;
  token : InitialToken
}.

Module Accept.
Section Ops.
Context `{Ngtcp2Codes, Ngtcp2Wire}.

Definition copy (p : option bytes) : Result ConnectionId :=
  match p with
  | None | Some [] => Cid.new []
  | Some bs => Cid.new bs
  end.

Definition inspect (datagram : bytes) (short_dcidlen : nat) : Result Inspection :=
  if (Cid.MAX_LEN <? short_dcidlen)%nat
  then Err (QuicError.invalid_input "short_dcidlen exceeds NGTCP2_MAX_CIDLEN")
  else
    let '(rc, vc) := pkt_decode_version_cid datagram short_dcidlen in
    if rc =? 0 then
      let? dcid := copy (vc_dcid vc) in
      if vc_version vc =? 0 then Ok (ShortHeader dcid)
      else
        let? scid := copy (vc_scid vc) in
        Ok (Supported (vc_version vc) dcid scid)
    else if rc =? NGTCP2_ERR_VERSION_NEGOTIATION then
      let? dcid := copy (vc_dcid vc) in
      let? scid := copy (vc_scid vc) in
      Ok (UnsupportedVersion (vc_version vc) dcid scid)
    else Err (QuicError.native rc "could not decode the packet header").

Definition inspected_dcid (i : Inspection) : ConnectionId :=
  match i with
  | Supported _ dcid _ | UnsupportedVersion _ dcid _ | ShortHeader dcid => dcid
  end.

Definition is_acceptable_initial (datagram : bytes) : bool := (ngtcp2_accept datagram).1 =? 0.

Definition TOKEN_MAGIC_RETRY : byte := xb6.
Definition TOKEN_MAGIC_RETRY2 : byte := xb7.
Definition TOKEN_MAGIC_REGULAR : byte := x36.

Definition classify_token (t : option bytes) : InitialToken :=
  match t with
  | None | Some [] => Absent
  | Some (b :: bs) =>
      if decide (b = TOKEN_MAGIC_RETRY ∨ b = TOKEN_MAGIC_RETRY2) then RetryToken (b :: bs)
      else if decide (b = TOKEN_MAGIC_REGULAR) then Regular (b :: bs)
      else Unknown (b :: bs)
  end.

Definition token_bytes (t : InitialToken) : bytes :=
  match t with Absent => [] | RetryToken bs | Regular bs | Unknown bs => bs end.

Definition inspect_initial (datagram : bytes) : Result (option InitialPacket) :=
  let '(rc, hd) := ngtcp2_accept datagram in
  if negb (rc =? 0) then Ok None
  else
    let? dcid := Cid.new (Cid.as_bytes (hd_dcid hd)) in
    let? scid := Cid.new (Cid.as_bytes (hd_scid hd)) in
    Ok (Some (mkInitial (hd_version hd) dcid scid (classify_token (hd_token hd)))).

Definition write_version_negotiation (dest_len : nat) (unused_random : Z)
    (dcid scid : ConnectionId) (supported_versions : list Z) : Result bytes :=
  match pkt_write_version_negotiation dest_len unused_random (Cid.as_bytes dcid)
          (Cid.as_bytes scid) supported_versions with
  | Ok packet => Ok packet
  | Err code => Err (QuicError.native code "could not write a Version Negotiation packet")
  end.
End Ops.
End Accept.

(** ** Lemmas *)

Section Addresses.
Variable tgt : Target.

Definition addr_ok (a : SocketAddr) : Prop :=
  match a with
  | V4 ip port => length ip = 4%nat ∧ 0 ≤ port < 2 ^ 16
  | V6 ip port flowinfo scope_id =>
      length ip = 16%nat ∧ 0 ≤ port < 2 ^ 16 ∧ 0 ≤ flowinfo < 2 ^ 32 ∧ 0 ≤ scope_id < 2 ^ 32
  end.

(** An address without the flow label and the scope the storage does not read back. *)
Definition plain (a : SocketAddr) : SocketAddr :=
  match a with V4 ip port => V4 ip port | V6 ip port _ _ => V6 ip port 0 0 end.

Lemma of_ne16_ne16 n : 0 ≤ n < 2 ^ 16 → Path.of_ne16 tgt (Path.ne16 tgt n) = n.
Proof.
  intros Hn. unfold Path.of_ne16, Path.ne16. rewrite Z.shiftr_div_pow2 by lia.
  change (2 ^ 8) with 256.
  assert (n / 256 < 256) by (apply Z.div_lt_upper_bound; lia).
  pose proof (Z.div_pos n 256).
  destruct (big_endian tgt); rewrite !bZ_Zb, (Z.mod_small (n / 256)) by lia;
    pose proof (Z.div_mod n 256); lia.
Qed.

Lemma to_be_range n : 0 ≤ n < 2 ^ 16 → 0 ≤ Path.to_be tgt n < 2 ^ 16.
Proof.
  intros Hn. unfold Path.to_be. destruct (big_endian tgt); [done|].
  pose proof (Z.mod_pos_bound n 256 ltac:(lia)).
  pose proof (Z.mod_pos_bound (n / 256) 256 ltac:(lia)). lia.
Qed.

Lemma to_be_involutive n : 0 ≤ n < 2 ^ 16 → Path.to_be tgt (Path.to_be tgt n) = n.
Proof.
  intros Hn. unfold Path.to_be. destruct (big_endian tgt); [done|].
  assert (n / 256 < 256) by (apply Z.div_lt_upper_bound; lia).
  pose proof (Z.div_pos n 256). pose proof (Z.mod_pos_bound n 256 ltac:(lia)).
  rewrite (Z.mod_small (n / 256)) by lia.
  replace (256 * (n mod 256) + n / 256) with (n / 256 + n mod 256 * 256) by lia.
  rewrite Z.mod_add, Z.div_add by lia.
  rewrite (Z.mod_small (n / 256)), (Z.div_small (n / 256)) by lia.
  rewrite Z.add_0_l, Z.mod_mod by lia. pose proof (Z.div_mod n 256). lia.
Qed.

Lemma ne16_length n : length (Path.ne16 tgt n) = 2%nat.
Proof. unfold Path.ne16. by destruct (big_endian tgt). Qed.

Lemma ne32_length n : length (Path.ne32 tgt n) = 4%nat.
Proof. unfold Path.ne32. by destruct (big_endian tgt). Qed.

Lemma family_range : 0 ≤ Path.AF_INET6 tgt < 2 ^ 16 ∧ Path.AF_INET6 tgt ≠ Path.AF_INET.
Proof. unfold Path.AF_INET6, Path.AF_INET. destruct (os tgt); lia. Qed.

Lemma fields_of f p rest :
  0 ≤ f < 2 ^ 16 → 0 ≤ p < 2 ^ 16 →
  let s := Path.ne16 tgt f ++ Path.ne16 tgt (Path.to_be tgt p) ++ rest in
  Path.family tgt s = f ∧ Path.to_be tgt (Path.port_field tgt s) = p ∧ drop 4 s = rest.
Proof.
  intros Hf Hp s. unfold Path.family, Path.port_field.
  assert (E2 : drop 2 s = Path.ne16 tgt (Path.to_be tgt p) ++ rest)
    by (apply drop_app_exact; by rewrite ne16_length).
  rewrite E2. unfold s. rewrite !take_app_exact by (by rewrite ne16_length).
  rewrite !of_ne16_ne16 by (try done; by apply to_be_range).
  rewrite to_be_involutive by done. split_and!; try done.
  change 4%nat with (2 + 2)%nat. rewrite <- drop_drop. fold s. rewrite E2.
  apply drop_app_exact. by rewrite ne16_length.
Qed.

(** What is stored reads back, on every target, but for the flow label and the scope. *)
Lemma sockaddr_roundtrip a :
  addr_ok a →
  Path.to_socket_addr tgt (Path.from tgt a) = plain a ∧
  length (Path.from tgt a) = Path.size_of_in6 ∧
  Path.len tgt (Path.from tgt a) =
    match a with V4 _ _ => Path.size_of_in | V6 _ _ _ _ => Path.size_of_in6 end.
Proof.
  destruct family_range as [Hf Hne]. destruct a as [ip p|ip p fl sc]; cbn [addr_ok plain Path.from].
  - intros (Hl & Hp). unfold Path.to_socket_addr, Path.len, Path.write_in.
    destruct (fields_of Path.AF_INET p (ip ++ replicate 8 x00 ++ drop Path.size_of_in
      (replicate Path.size_of_in6 x00)) ltac:(unfold Path.AF_INET; lia) Hp) as (-> & -> & ->).
    rewrite (proj2 (Z.eqb_neq _ _)) by congruence.
    rewrite take_app_exact by done. split_and!; [done| |done].
    rewrite !length_app, !ne16_length, Hl. done.
  - intros (Hl & Hp & _). unfold Path.to_socket_addr, Path.len, Path.write_in6.
    destruct (fields_of (Path.AF_INET6 tgt) p (Path.ne32 tgt fl ++ ip ++ Path.ne32 tgt sc)
      Hf Hp) as (-> & -> & Ed).
    rewrite Z.eqb_refl. change 8%nat with (4 + 4)%nat. rewrite <- drop_drop, Ed.
    rewrite (drop_app_exact (Path.ne32 tgt fl)) by (by rewrite ne32_length).
    rewrite take_app_exact by done. split_and!; [done| |done].
    rewrite !length_app, !ne16_length, !ne32_length, Hl. done.
Qed.

Lemma sockaddr_loses_the_scope :
  Path.to_socket_addr tgt (Path.from tgt (V6 (replicate 16 x00) 443 0 3)) ≠
  V6 (replicate 16 x00) 443 0 3.
Proof.
  destruct (sockaddr_roundtrip (V6 (replicate 16 x00) 443 0 3)) as [-> _];
    [|done]. simpl. lia.
Qed.
End Addresses.

Section Tokens.
Context `{Ngtcp2Codes, Ngtcp2Wire}.

Lemma truncate_over dest packet : take (length packet) (Token.over dest packet) = packet.
Proof. apply take_app_length. Qed.

Lemma write_retry_packet dest version dcid scid odcid token dest' len :
  Token.write_retry dest version dcid scid odcid token = (dest', Ok len) →
  crypto_write_retry (length dest) version dcid scid odcid token = Ok (take len dest').
Proof.
  unfold Token.write_retry. destruct (crypto_write_retry _ _ _ _ _ _); [|done].
  intros [= <- <-]. by rewrite truncate_over.
Qed.

(** What is sent of a stateless reset is what the library wrote, and never as large as what
    provoked it, whatever the library writes. *)
Lemma reset_is_smaller dest token random provoking_len dest' len :
  Token.write_stateless_reset_smaller_than dest token random provoking_len
    = (dest', Ok (Some len)) →
  (length (take len dest') < provoking_len)%nat ∧
  ∃ k, (Token.MIN_RESET_RANDOM ≤ k)%nat ∧
    pkt_write_stateless_reset (length dest) token (take k random) = Ok (take len dest').
Proof.
  unfold Token.write_stateless_reset_smaller_than, Token.write_stateless_reset.
  destruct (_ <? _)%nat; [done|]. destruct (_ <? _)%nat; [done|].
  set (k := Nat.min _ _). destruct (Nat.ltb_spec k Token.MIN_RESET_RANDOM) as [|Hk]; [done|].
  destruct (pkt_write_stateless_reset _ _ (take k random)) as [packet|] eqn:Hp; [|done]. simpl.
  destruct (Nat.leb_spec provoking_len (length packet)); [done|].
  intros [= <- <-]. rewrite truncate_over. by split; [|exists k].
Qed.
End Tokens.
