(* ===== verification/QuicRetain.v ===== *)
(** * Sent bytes held until they are acknowledged (crates/ngnet-quic/src/retain.rs)

    ngtcp2 keeps the pointer it was given.  A write is staged as a chunk whose bytes never
    move, committed to the length the library took, and released by a cumulative
    acknowledgement or with its stream. *)

From Stdlib Require Import ZArith Lia Strings.Byte.
From stdpp Require Import base list gmap strings.
From S2P Require Import Prelude QuicTypes.

#[local] Open Scope nat_scope.

(** ** Buffers

    A buffer is a box this crate made, or an allocation shared with the caller.  A pointer is
    a buffer and an offset into it. *)

Inductive buffer := Boxed (n : nat) | Shared (n : nat).

#[global] Instance buffer_eq_dec : EqDecision buffer.
Proof. solve_decision. Defined.

Definition pointer : Type := buffer * nat.

(** What an owner lends when it is asked: the same bytes every time, which is what
    [OwnedBytes::from_owner] requires of it. *)
Class Owners := { lend : nat → bytes }.

Inductive Store := Owned (n : nat) (bs : bytes) | Erased (n : nat).

Record OwnedBytes := mkOwned { store : Store; start : nat; end_ : nat }.

Inductive Payload := Copied (n : nat) (bs : bytes) | OwnedPayload (b : OwnedBytes).

Record Chunk := mkChunk { c_data : Payload; c_start : Z; c_len : nat }.

Record Stream := mkStream { chunks : list Chunk; next_offset : Z }.

(** [boxes] is the number of boxes made so far, which names the next one. *)
Record Retained := mkRetained { streams : gmap Z Stream; boxes : nat }.

Module Bytes.
Section Ops.
Context `{Owners}.

Definition store_bytes (s : Store) : bytes :=
  match s with Owned _ bs => bs | Erased n => lend n end.
Definition store_buffer (s : Store) : buffer :=
  match s with Owned n _ | Erased n => Shared n end.

Definition new (n : nat) (bs : bytes) : OwnedBytes := mkOwned (Owned n bs) 0 (length bs).
Definition from_owner (n : nat) : OwnedBytes := mkOwned (Erased n) 0 (length (lend n)).

(** Clamped rather than indexed. *)
Definition slice_bounds (b : OwnedBytes) : nat * nat :=
  let all := store_bytes (store b) in
  let e := Nat.min (end_ b) (length all) in
  (Nat.min (start b) e, e).
Definition as_slice (b : OwnedBytes) : bytes :=
  let '(s, e) := slice_bounds b in take (e - s) (drop s (store_bytes (store b))).
Definition len (b : OwnedBytes) : nat := length (as_slice b).
Definition is_empty (b : OwnedBytes) : bool := bool_decide (len b = 0).

(** The head, and what is left. *)
Definition split_to (b : OwnedBytes) (n : nat) : OwnedBytes * OwnedBytes :=
  let n := Nat.min n (len b) in
  (mkOwned (store b) (start b) (start b + n), mkOwned (store b) (start b + n) (end_ b)).
End Ops.
End Bytes.

Module PayloadOps.
Section Ops.
Context `{Owners}.
Definition bytes_of (p : Payload) : bytes :=
  match p with Copied _ bs => bs | OwnedPayload b => Bytes.as_slice b end.
Definition len (p : Payload) : nat := length (bytes_of p).
Definition ptr (p : Payload) : pointer :=
  match p with
  | Copied n _ => (Boxed n, 0)
  | OwnedPayload b => (Bytes.store_buffer (store b), (Bytes.slice_bounds b).1)
  end.
Definition ptr_and_len (p : Payload) : pointer * nat := (ptr p, len p).
End Ops.
End PayloadOps.

(** [Chunk::end]: offsets of a stream are below 2^62, so the sum is exact. *)
Definition chunk_end (c : Chunk) : Z := (c_start c + Z.of_nat (c_len c))%Z.

Module RetainedOps.
Section Ops.
Context `{Owners}.
Implicit Types (r : Retained) (stream : Z).

Definition initial : Retained := mkRetained ∅ 0.
Definition default_stream : Stream := mkStream [] 0.
Definition entry stream r : Stream := default default_stream (streams r !! stream).

Definition put stream (s : Stream) r : Retained :=
  mkRetained (<[stream := s]> (streams r)) (boxes r).

(** The joining loop. *)
Fixpoint copy_prefix (ranges : list bytes) (total : nat) (buffer : bytes) : bytes :=
  match ranges with
  | [] => buffer
  | range :: ranges =>
      let remaining := total - length buffer in
      if decide (remaining = 0) then buffer
      else copy_prefix ranges total (buffer ++ take (Nat.min (length range) remaining) range)
  end.

Definition offered_len (ranges : list bytes) : Z :=
  foldl (λ total range, saturating_add total (Z.of_nat (length range))) 0%Z ranges.

(** What was staged, if anything, and whether all that was offered is. *)
Definition stage_many_bounded stream (ranges : list bytes) (limit : nat) r
  : Retained * (option (pointer * nat) * bool) :=
  let offered := offered_len ranges in
  let total := Z.to_nat (Z.min offered (Z.of_nat limit)) in
  if decide (total = 0) then (r, (None, bool_decide (offered = 0%Z)))
  else
    let buffer := copy_prefix ranges total [] in
    let s := entry stream r in
    let chunk := mkChunk (Copied (boxes r) buffer) (next_offset s) total in
    (mkRetained (<[stream := mkStream (chunks s ++ [chunk]) (next_offset s)]> (streams r))
       (S (boxes r)),
     (Some (PayloadOps.ptr_and_len (c_data chunk)), bool_decide (Z.of_nat total = offered))).

Definition stage_owned stream (b : OwnedBytes) r : Retained * option (pointer * nat) :=
  let total := Bytes.len b in
  if decide (total = 0) then (r, None)
  else
    let s := entry stream r in
    let chunk := mkChunk (OwnedPayload b) (next_offset s) total in
    (put stream (mkStream (chunks s ++ [chunk]) (next_offset s)) r,
     Some (PayloadOps.ptr_and_len (c_data chunk))).

Definition commit stream (accepted : nat) r : Retained :=
  match streams r !! stream with
  | None => r
  | Some s =>
      match reverse (chunks s) with
      | [] => r
      | chunk :: before =>
          if decide (accepted = 0) then put stream (mkStream (reverse before) (next_offset s)) r
          else
            let chunk := mkChunk (c_data chunk) (c_start chunk)
                           (Nat.min accepted (PayloadOps.len (c_data chunk))) in
            put stream (mkStream (reverse before ++ [chunk]) (chunk_end chunk)) r
      end
  end.

(** The releasing loop. *)
Fixpoint pop_acked (acked_to : Z) (cs : list Chunk) : list Chunk :=
  match cs with
  | [] => []
  | front :: rest =>
      if decide (chunk_end front ≤ acked_to)%Z then pop_acked acked_to rest else cs
  end.

(** The entry stays even when nothing is left in it: its offset is the stream's. *)
Definition acknowledge stream (offset len : Z) r : Retained :=
  match streams r !! stream with
  | None => r
  | Some s =>
      put stream (mkStream (pop_acked (saturating_add offset len) (chunks s)) (next_offset s)) r
  end.

Definition forget stream r : Retained := mkRetained (delete stream (streams r)) (boxes r).

Definition bytes_held r : nat :=
  sum_list_with (λ p : Z * Stream, sum_list_with c_len (chunks p.2)) (map_to_list (streams r)).
End Ops.
End RetainedOps.

(** ** Lemmas *)

Section Lemmas.
Context `{Owners}.
Import RetainedOps.

Lemma as_slice_new n bs : Bytes.as_slice (Bytes.new n bs) = bs.
Proof.
  unfold Bytes.as_slice, Bytes.slice_bounds, Bytes.new. simpl.
  rewrite Nat.min_id, Nat.sub_0_r, drop_0. apply firstn_all.
Qed.

Lemma as_slice_from_owner n : Bytes.as_slice (Bytes.from_owner n) = lend n.
Proof.
  unfold Bytes.as_slice, Bytes.slice_bounds, Bytes.from_owner. simpl.
  rewrite Nat.min_id, Nat.sub_0_r, drop_0. apply firstn_all.
Qed.

(** A handle whose bounds are those of its store. *)
Definition handle_ok (b : OwnedBytes) : Prop :=
  start b ≤ end_ b ∧ end_ b ≤ length (Bytes.store_bytes (store b)).

Lemma handle_ok_slice b :
  handle_ok b →
  Bytes.slice_bounds b = (start b, end_ b) ∧
  Bytes.as_slice b = take (end_ b - start b) (drop (start b) (Bytes.store_bytes (store b))) ∧
  Bytes.len b = end_ b - start b.
Proof.
  intros [Hs He].
  assert (E : Bytes.slice_bounds b = (start b, end_ b)).
  { unfold Bytes.slice_bounds. f_equal; lia. }
  unfold Bytes.len, Bytes.as_slice. rewrite E. split_and!; [done|done|].
  rewrite length_take, length_drop. lia.
Qed.

(** Splitting a handle splits its bytes, in the same buffer. *)
Lemma split_to_exact b n :
  handle_ok b →
  let '(head, rest) := Bytes.split_to b n in
  handle_ok head ∧ handle_ok rest ∧
  Bytes.as_slice head = take n (Bytes.as_slice b) ∧
  Bytes.as_slice rest = drop n (Bytes.as_slice b) ∧
  Bytes.store_buffer (store head) = Bytes.store_buffer (store b) ∧
  store rest = store b.
Proof.
  intros Hb. destruct (handle_ok_slice b Hb) as (_ & Hsl & Hl). destruct Hb as [Hs He].
  unfold Bytes.split_to. simpl. rewrite Hl.
  set (m := n `min` (end_ b - start b)).
  assert (Hh : handle_ok (mkOwned (store b) (start b) (start b + m))) by (split; simpl; lia).
  assert (Hr : handle_ok (mkOwned (store b) (start b + m) (end_ b))) by (split; simpl; lia).
  destruct (handle_ok_slice _ Hh) as (_ & -> & _).
  destruct (handle_ok_slice _ Hr) as (_ & -> & _). simpl. rewrite Hsl.
  split_and!; try done.
  - rewrite take_take. f_equal. lia.
  - destruct (decide (n ≤ end_ b - start b)) as [Hn|Hn].
    + rewrite skipn_firstn_comm, drop_drop. f_equal; [lia|]. f_equal. lia.
    + replace (end_ b - (start b + m)) with 0 by lia. simpl. symmetry.
      apply drop_ge. rewrite length_take, length_drop. lia.
Qed.

Lemma copy_prefix_spec ranges : ∀ total buffer,
  length buffer ≤ total →
  copy_prefix ranges total buffer = take total (buffer ++ concat ranges).
Proof.
  induction ranges as [|range ranges IH]; intros total buffer Hb; simpl.
  - rewrite app_nil_r. symmetry. by apply take_ge.
  - case_decide as E.
    + rewrite take_app_le by lia. symmetry. apply take_ge. lia.
    + rewrite IH by (rewrite length_app, length_take; lia).
      rewrite <- app_assoc, !take_app. f_equal.
      rewrite !length_take.
      destruct (decide (length range ≤ total - length buffer)) as [Hle|Hgt].
      * rewrite Nat.min_l by done. rewrite firstn_all. f_equal. f_equal. lia.
      * rewrite Nat.min_r by lia. rewrite take_take, Nat.min_id.
        f_equal. f_equal. lia.
Qed.

Lemma foldl_sat_ge ranges : ∀ acc, is_u64 acc →
  foldl (λ total (range : bytes), saturating_add total (Z.of_nat (length range))) acc ranges =
  Z.min (acc + Z.of_nat (length (concat ranges))) U64_MAX.
Proof.
  induction ranges as [|x xs IH]; intros acc Ha; simpl.
  - unfold is_u64 in Ha. lia.
  - rewrite IH by (unfold is_u64, saturating_add, U64_MAX in *; lia).
    rewrite length_app. unfold saturating_add. lia.
Qed.

Lemma offered_len_spec ranges :
  offered_len ranges = Z.min (Z.of_nat (length (concat ranges))) U64_MAX.
Proof. unfold offered_len. rewrite foldl_sat_ge; [lia|]. unfold is_u64, U64_MAX. lia. Qed.
End Lemmas.
