(* ===== verification/QuicConn.v ===== *)
(** * The QUIC connection wrapper (crates/ngnet-quic/src/{conn,callbacks,handlers,packet,stream_io}.rs,
      and the transport parameters of tls_bridge.rs)

    The safe wrapper around ngtcp2.  The C library is the class [Ngtcp2]: one entry point that
    takes a [request] (one constructor per C function), may call back into Rust any number of
    times, and gives a [response]; and the constructor.  The crypto callbacks are the subject
    of QuicTls; here the library is free to run them.  The diagnostics feature is off. *)

From Stdlib Require Import ZArith Lia Strings.Byte.
From stdpp Require Import base list gmap strings.
From S2P Require Import Prelude QuicTypes QuicWire QuicRetain.

Inductive Role := Client | Server.

#[global] Instance Role_eq_dec : EqDecision Role.
Proof. solve_decision. Defined.

Definition is_server (r : Role) : bool := bool_decide (r = Server).

(** ** ngtcp2 *)

(** The calls ngtcp2 makes into Rust.  A new identifier is written over an array whose tail
    is given. *)
Inductive callback :=
| CbRand (destlen : nat)
| CbGetNewConnectionId (cidlen : nat) (tail : bytes)
| CbRemoveConnectionId (cid : ConnectionId)
| CbRecvStreamData (flags stream_id : Z) (data : bytes)
| CbStreamOpen (stream_id : Z)
| CbStreamClose2 (flags stream_id rx_app_error_code tx_app_error_code : Z)
| CbStreamReset (stream_id app_error_code : Z)
| CbRecvStopSending (stream_id app_error_code : Z)
| CbAckedStreamDataOffset (stream_id offset datalen : Z)
| CbHandshakeCompleted
| CbExtendMaxLocalStreamsBidi (max_streams : Z)
| CbExtendMaxLocalStreamsUni (max_streams : Z)
| CbGetPathChallengeData2 (size : nat).

(** The return value, and the bytes written through the out-parameters. *)
Record cb_answer := mkAnswer { a_rv : Z; a_data : bytes }.

Definition code (rv : Z) : cb_answer := mkAnswer rv [].

(** A buffer handed over: where it is, and what it holds. *)
Record vec := mkVec { v_base : option pointer; v_len : nat; v_bytes : bytes }.

Inductive request :=
| ReqReadPkt (path : Path.PathStorage) (datagram : bytes) (now : Z)
| ReqWritePkt (path : Path.PathStorage) (destlen : nat) (now : Z)
| ReqWritevStream (path : Path.PathStorage) (destlen : nat) (flags stream_id : Z) (v : vec)
    (now : Z)
| ReqWriteConnectionClose (path : Path.PathStorage) (destlen : nat) (e : ccerr) (now : Z)
| ReqHandleExpiry (now : Z)
| ReqUpdatePktTxTime (now : Z)
| ReqGetExpiry
| ReqInClosingPeriod
| ReqInDrainingPeriod
| ReqOpenBidiStream
| ReqOpenUniStream
| ReqGetMaxDataLeft
| ReqShutdownStream (stream_id app_error_code : Z)
| ReqShutdownStreamWrite (stream_id app_error_code : Z)
| ReqShutdownStreamRead (stream_id app_error_code : Z)
| ReqExtendMaxStreamOffset (stream_id datalen : Z)
| ReqExtendMaxOffset (datalen : Z)
| ReqExtendMaxStreamsBidi (n : nat)
| ReqExtendMaxStreamsUni (n : nat)
| ReqGetStreamsBidiLeft
| ReqGetStreamsUniLeft
| ReqGetHandshakeCompleted
| ReqGetScidCount
| ReqGetScids
| ReqGetPathMaxTxUdpPayloadSize
| ReqGetCcerr
| ReqEncodeLocalTransportParams (buflen : nat)
| ReqSetTlsNativeHandle
| ReqDel.

(** The return value, the out-parameter (accepted bytes, or a stream), the bytes written, and
    the path storage as the call leaves it. *)
Record response := mkResponse {
  rs_rv : Z;
  rs_out : Z;
  rs_data : bytes;
  rs_path : Path.PathStorage;
  rs_cids : list ConnectionId;
  rs_ccerr : ccerr
}.

Record new_args := mkNewArgs {
  na_server : bool;
  na_dcid : ConnectionId;
  na_scid : ConnectionId;
  na_path : Path.PathStorage;
  na_version : Z;
  na_settings : RawSettings;
  na_params : RawParams
}.

Class Ngtcp2 := {
  ngtcp2_codes : Ngtcp2Codes;
  ngtcp2_conn : Type;
  (** A connection, or a code other than 0. *)
  ngtcp2_conn_new :
    new_args → ∀ B : Type, (B → callback → B * cb_answer) → B → B * result ngtcp2_conn Z;
  ngtcp2_call :
    request → ∀ B : Type, (B → callback → B * cb_answer) → ngtcp2_conn → B →
    ngtcp2_conn * B * response;
  ngtcp2_ccerr_set_liberr : Z → bytes → ccerr;
  ngtcp2_ccerr_set_application_error : Z → bytes → ccerr
}.
#[global] Existing Instance ngtcp2_codes.

(** The TLS session behind a connection, as far as the connection itself uses it. *)
Class TlsSessions := {
  tls_session : Type;
  set_local_transport_params : tls_session → bytes → tls_session * bool;
  session_negotiated_alpn : tls_session → option bytes
}.

(** ** handlers.rs *)

Record StreamCloseReason := mkReason { receiving : option Z; sending : option Z }.

Definition is_clean (r : StreamCloseReason) : bool :=
  bool_decide (receiving r = None ∧ sending r = None).

(** The application's handlers, over the state they capture. *)
Record Handlers (C : Type) := mkHandlers {
  on_stream_data : option (Z → bytes → bool → C → C);
  on_stream_open : option (Z → C → C);
  on_stream_close : option (Z → StreamCloseReason → C → C);
  on_stream_reset : option (Z → Z → C → C);
  on_stop_sending : option (Z → Z → C → C);
  on_acked_stream_data : option (Z → Z → C → C);
  on_handshake_completed : option (C → C);
  on_new_connection_id : option (ConnectionId → C → C);
  on_remove_connection_id : option (ConnectionId → C → C);
  on_extend_max_local_streams_bidi : option (Z → C → C);
  on_extend_max_local_streams_uni : option (Z → C → C)
}.
Arguments mkHandlers {C}.
Arguments on_stream_data {C}.
Arguments on_stream_open {C}.
Arguments on_stream_close {C}.
Arguments on_stream_reset {C}.
Arguments on_stop_sending {C}.
Arguments on_acked_stream_data {C}.
Arguments on_handshake_completed {C}.
Arguments on_new_connection_id {C}.
Arguments on_remove_connection_id {C}.
Arguments on_extend_max_local_streams_bidi {C}.
Arguments on_extend_max_local_streams_uni {C}.

(** ** callbacks.rs *)

Record RandCtx `{EntropySources} := mkRand { rand_source : entropy; failed : bool }.
Arguments mkRand {_}.
Arguments rand_source {_}.
Arguments failed {_}.

Record Bridge (C : Type) := mkBridge { b_context : C; b_retained : Retained }.
Arguments mkBridge {C}.
Arguments b_context {C}.
Arguments b_retained {C}.

(** What callbacks reach: the bridge if one is installed, the entropy context, and whether
    the thread-local handle to it is set. *)
Record World `{EntropySources} (C : Type) := mkWorld {
  w_bridge : option (Bridge C);
  w_rand : RandCtx;
  w_thread : bool
}.
Arguments mkWorld {_ C}.
Arguments w_bridge {_ C}.
Arguments w_rand {_ C}.
Arguments w_thread {_ C}.

Module Callbacks.
Section Trampolines.
Context `{Ngtcp2, Owners, EntropySources} {C : Type}.
Variable handlers : Handlers C.
Abbreviation World := (QuicConn.World C).

Definition set_bridge (b : Bridge C) (w : World) : World :=
  mkWorld (Some b) (w_rand w) (w_thread w).
Definition set_rand (r : RandCtx) (w : World) : World := mkWorld (w_bridge w) r (w_thread w).

(** A handler that is there is run on the application's state. *)
Definition run {F} (h : option F) (f : F → C → C) (b : Bridge C) : Bridge C :=
  match h with Some h => mkBridge (f h (b_context b)) (b_retained b) | None => b end.

(** A callback does nothing, successfully, without a bridge. *)
Definition with_bridge (w : World) (f : Bridge C → Bridge C) : World * cb_answer :=
  match w_bridge w with
  | None => (w, code 0)
  | Some b => (set_bridge (f b) w, code 0)
  end.

(** Or when the identifier is not one of a stream. *)
Definition on_stream {F} (w : World) (stream_id : Z) (h : option F) (f : F → C → C)
  : World * cb_answer :=
  with_bridge w (λ b, if is_ok (StreamId.new stream_id) then run h f b else b).

(** The buffer is zeroed when there is no randomness to put in it. *)
Definition rand_cb (w : World) (destlen : nat) : World * cb_answer :=
  if decide (destlen = 0%nat) then (w, code 0)
  else
    match fill (rand_source (w_rand w)) destlen with
    | (s, Ok bs) => (set_rand (mkRand s (failed (w_rand w))) w, mkAnswer 0 bs)
    | (s, Err _) => (set_rand (mkRand s true) w, mkAnswer 0 (replicate destlen x00))
    end.

Definition fill_from_conn_rand (w : World) (n : nat) : World * Result bytes :=
  if negb (w_thread w)
  then (w, Err (QuicError.with_kind Internal "no entropy source is installed for this call"))
  else
    let '(s, r) := fill (rand_source (w_rand w)) n in
    (set_rand (mkRand s (failed (w_rand w))) w, r).

Definition get_new_connection_id_cb (w : World) (cidlen : nat) (tail : bytes)
  : World * cb_answer :=
  match fill_from_conn_rand w cidlen with
  | (w, Err _) => (w, code NGTCP2_ERR_CALLBACK_FAILURE)
  | (w, Ok cid) =>
      match fill_from_conn_rand w NGTCP2_STATELESS_RESET_TOKENLEN with
      | (w, Err _) => (w, code NGTCP2_ERR_CALLBACK_FAILURE)
      | (w, Ok token) =>
          let minted := mkCid cidlen (cid ++ tail) in
          let w :=
            match w_bridge w with
            | Some b => set_bridge (run (on_new_connection_id handlers) (λ h, h minted) b) w
            | None => w
            end in
          (w, mkAnswer 0 (cid ++ token))
      end
  end.

Definition remove_connection_id_cb (w : World) (cid : ConnectionId) : World * cb_answer :=
  with_bridge w (run (on_remove_connection_id handlers) (λ h, h cid)).

Definition recv_stream_data_cb (w : World) (flags stream_id : Z) (data : bytes)
  : World * cb_answer :=
  let fin := negb (Z.land flags NGTCP2_STREAM_DATA_FLAG_FIN =? 0) in
  on_stream w stream_id (on_stream_data handlers) (λ h, h stream_id data fin).

Definition stream_open_cb (w : World) (stream_id : Z) : World * cb_answer :=
  on_stream w stream_id (on_stream_open handlers) (λ h, h stream_id).

Definition stream_close2_cb (w : World) (flags stream_id rx_app_error_code tx_app_error_code : Z)
  : World * cb_answer :=
  with_bridge w (λ b,
    if is_ok (StreamId.new stream_id) then
      let b := mkBridge (b_context b) (RetainedOps.forget stream_id (b_retained b)) in
      let set flag v := if Z.land flags flag =? 0 then None else Some v in
      let reason := mkReason
        (set NGTCP2_STREAM_CLOSE2_FLAG_RX_APP_ERROR_CODE_SET rx_app_error_code)
        (set NGTCP2_STREAM_CLOSE2_FLAG_TX_APP_ERROR_CODE_SET tx_app_error_code) in
      run (on_stream_close handlers) (λ h, h stream_id reason) b
    else b).

Definition stream_reset_cb (w : World) (stream_id app_error_code : Z) : World * cb_answer :=
  on_stream w stream_id (on_stream_reset handlers) (λ h, h stream_id app_error_code).

Definition recv_stop_sending_cb (w : World) (stream_id app_error_code : Z)
  : World * cb_answer :=
  on_stream w stream_id (on_stop_sending handlers) (λ h, h stream_id app_error_code).

(** What is retained is released whether or not the application listens. *)
Definition acked_stream_data_offset_cb (w : World) (stream_id offset datalen : Z)
  : World * cb_answer :=
  with_bridge w (λ b,
    if is_ok (StreamId.new stream_id) then
      run (on_acked_stream_data handlers) (λ h, h stream_id datalen)
        (mkBridge (b_context b) (RetainedOps.acknowledge stream_id offset datalen (b_retained b)))
    else b).

Definition handshake_completed_cb (w : World) : World * cb_answer :=
  with_bridge w (run (on_handshake_completed handlers) (λ h, h)).

Definition extend_max_local_streams_bidi_cb (w : World) (max_streams : Z) : World * cb_answer :=
  with_bridge w (run (on_extend_max_local_streams_bidi handlers) (λ h, h max_streams)).
Definition extend_max_local_streams_uni_cb (w : World) (max_streams : Z) : World * cb_answer :=
  with_bridge w (run (on_extend_max_local_streams_uni handlers) (λ h, h max_streams)).

Definition get_path_challenge_data2_cb (w : World) (size : nat) : World * cb_answer :=
  match fill (rand_source (w_rand w)) size with
  | (s, Ok bs) => (set_rand (mkRand s (failed (w_rand w))) w, mkAnswer 0 bs)
  | (s, Err _) => (set_rand (mkRand s true) w, code NGTCP2_ERR_CALLBACK_FAILURE)
  end.

(** The table [ConnBuilder::callbacks] fills in. *)
Definition callbacks (w : World) (c : callback) : World * cb_answer :=
  match c with
  | CbRand n => rand_cb w n
  | CbGetNewConnectionId n tail => get_new_connection_id_cb w n tail
  | CbRemoveConnectionId cid => remove_connection_id_cb w cid
  | CbRecvStreamData f s d => recv_stream_data_cb w f s d
  | CbStreamOpen s => stream_open_cb w s
  | CbStreamClose2 f s rx tx => stream_close2_cb w f s rx tx
  | CbStreamReset s e => stream_reset_cb w s e
  | CbRecvStopSending s e => recv_stop_sending_cb w s e
  | CbAckedStreamDataOffset s o n => acked_stream_data_offset_cb w s o n
  | CbHandshakeCompleted => handshake_completed_cb w
  | CbExtendMaxLocalStreamsBidi n => extend_max_local_streams_bidi_cb w n
  | CbExtendMaxLocalStreamsUni n => extend_max_local_streams_uni_cb w n
  | CbGetPathChallengeData2 n => get_path_challenge_data2_cb w n
  end.
End Trampolines.
End Callbacks.

(** ** conn.rs *)

Record Conn (N : Type) `{Owners, EntropySources, TlsSessions} (C : Type) := mkConn {
  raw : N;
  tls : tls_session;
  handlers : Handlers C;
  rand_ctx : RandCtx;
  path : Path.PathStorage;
  role : Role;
  c_scid : ConnectionId;
  retained : Retained
}.
Arguments mkConn {N _ _ _ C}.
Arguments raw {N _ _ _ C}.
Arguments tls {N _ _ _ C}.
Arguments handlers {N _ _ _ C}.
Arguments rand_ctx {N _ _ _ C}.
Arguments path {N _ _ _ C}.
Arguments role {N _ _ _ C}.
Arguments c_scid {N _ _ _ C}.
Arguments retained {N _ _ _ C}.

Record ConnBuilder `{Ngtcp2Defaults, EntropySources, TlsSessions} := mkBuilder {
  cb_role : Role;
  cb_settings : Settings;
  cb_params : RawParams;
  cb_entropy : entropy;
  cb_tls : tls_session;
  cb_local : SocketAddr;
  cb_remote : SocketAddr;
  cb_dcid : option ConnectionId;
  cb_scid : option ConnectionId;
  cb_version : Z;
  cb_cid_len : nat
}.
Arguments mkBuilder {_ _ _}.
Arguments cb_role {_ _ _}.
Arguments cb_settings {_ _ _}.
Arguments cb_params {_ _ _}.
Arguments cb_entropy {_ _ _}.
Arguments cb_tls {_ _ _}.
Arguments cb_local {_ _ _}.
Arguments cb_remote {_ _ _}.
Arguments cb_dcid {_ _ _}.
Arguments cb_scid {_ _ _}.
Arguments cb_version {_ _ _}.
Arguments cb_cid_len {_ _ _}.

(** packet.rs and stream_io.rs: what calls report. *)
Inductive ReadOutcome := Processed | SendRetry | DropSilently | Draining | ClosingRead.
Inductive WriteOutcome := Datagram (len : nat) | Idle | BlockedWrite.
Inductive ExpiryOutcome := Handled | IdleClose | Terminal.
Inductive StreamWrite :=
| StreamDatagram (len accepted : nat)
| DatagramWithoutStream (len : nat)
| StreamBlocked
| ConnectionBlocked
| WriteBlocked
| WriteIdle.
Record OwnedWrite := mkOwnedWrite { outcome : StreamWrite; unsent : OwnedBytes }.

(** [i32::try_from(n).unwrap_or(..)]. *)
Definition to_i32 (n default : Z) : Z :=
  if (- 2 ^ 31 <=? n) && (n <? 2 ^ 31) then n else default.

Module ConnOps.
Section Ops.
Context `{Ngtcp2, Ngtcp2Defaults, Owners, EntropySources, TlsSessions} {C : Type}.
Abbreviation Conn := (QuicConn.Conn ngtcp2_conn C).
Implicit Types (s : Conn).

Definition set_raw v s : Conn := mkConn v (tls s) (handlers s) (rand_ctx s) (path s) (role s)
  (c_scid s) (retained s).
Definition set_path v s : Conn := mkConn (raw s) (tls s) (handlers s) (rand_ctx s) v (role s)
  (c_scid s) (retained s).
Definition set_retained v s : Conn := mkConn (raw s) (tls s) (handlers s) (rand_ctx s) (path s)
  (role s) (c_scid s) v.
Definition set_rand_ctx v s : Conn := mkConn (raw s) (tls s) (handlers s) v (path s)
  (role s) (c_scid s) (retained s).

(** *** The monad: the connection, and the application's state *)
Definition St : Type := Conn * C.
Definition M (A : Type) : Type := St → St * Result A.

Definition ret {A} (a : A) : M A := λ st, (st, Ok a).
Definition throw {A} (e : Error) : M A := λ st, (st, Err e).
Definition lift {A} (r : Result A) : M A := λ st, (st, r).
Definition bind {A B} (m : M A) (k : A → M B) : M B := λ st,
  match m st with
  | (st, Ok a) => k a st
  | (st, Err e) => (st, Err e)
  end.
Definition gets {A} (f : Conn → A) : M A := λ st, (st, Ok (f st.1)).
Definition modify (f : Conn → Conn) : M unit := λ st, ((f st.1, st.2), Ok ()).

Notation "'do' x ':=' m 'in' k" := (bind m (λ x, k))
  (at level 10, x pattern, m at level 100, k at level 200).

Definition invalid {A} (ctx : string) : M A := throw (QuicError.invalid_input ctx).

(** A call outside [with_bridge]: the slot is empty and the thread has no source. *)
Definition native_call (rq : request) : M response := λ '(s, c),
  let '(raw', w, r) :=
    ngtcp2_call rq _ (Callbacks.callbacks (handlers s)) (raw s)
      (mkWorld None (rand_ctx s) false) in
  ((set_rand_ctx (w_rand w) (set_raw raw' s), c), Ok r).

(** [with_bridge]: the handlers and the retained bytes are lent for the call. *)
Definition with_bridge (rq : request) : M response := λ '(s, c),
  let bridge := mkBridge c (retained s) in
  let '(raw', w, r) :=
    ngtcp2_call rq _ (Callbacks.callbacks (handlers s)) (raw s)
      (mkWorld (Some bridge) (rand_ctx s) true) in
  let b := default bridge (w_bridge w) in
  ((set_retained (b_retained b) (set_rand_ctx (w_rand w) (set_raw raw' s)), b_context b), Ok r).

(** A call whose [path] is an out-parameter too. *)
Definition with_bridge_path (rq : request) : M response :=
  do r := with_bridge rq in
  do _ := modify (set_path (rs_path r)) in
  ret r.

(** *** tls_bridge.rs: the local transport parameters *)

Definition encode_failed : Error :=
  QuicError.backend "the local transport parameters could not be encoded".

(** A second attempt with more room, after the code that says there was not enough. *)
Definition encode_local_params : M bytes :=
  do r := native_call (ReqEncodeLocalTransportParams 256) in
  if 0 <=? rs_rv r then ret (rs_data r)
  else if negb (rs_rv r =? NGTCP2_ERR_NOBUF) then throw encode_failed
  else
    do r := native_call (ReqEncodeLocalTransportParams 4096) in
    if rs_rv r <? 0 then throw encode_failed else ret (rs_data r).

Definition set_client_local_params : M Z := λ st,
  match encode_local_params st with
  | (st, Err _) => (st, Ok NGTCP2_ERR_CALLBACK_FAILURE)
  | ((s, c), Ok params) =>
      let '(t, ok) := set_local_transport_params (tls s) params in
      ((mkConn (raw s) t (handlers s) (rand_ctx s) (path s) (role s) (c_scid s) (retained s), c),
       Ok (if (ok : bool) then 0 else NGTCP2_ERR_CALLBACK_FAILURE))
  end.

Definition bind_tls : M unit :=
  do _ := native_call ReqSetTlsNativeHandle in
  do r := gets role in
  if decide (r = Client) then
    do rv := set_client_local_params in
    if negb (rv =? 0)
    then throw (QuicError.native rv
           "the TLS backend would not take the local transport parameters")
    else ret ()
  else ret ().

(** *** The builder *)
Definition builder_new (r : Role) (settings : Settings) (params : RawParams) (e : entropy)
    (t : tls_session) (local remote : SocketAddr) : ConnBuilder :=
  mkBuilder r settings params e t local remote None None NGTCP2_PROTO_VER_V1 Cid.DEFAULT_LEN.

Definition builder_dcid (v : ConnectionId) (b : ConnBuilder) : ConnBuilder :=
  mkBuilder (cb_role b) (cb_settings b) (cb_params b) (cb_entropy b) (cb_tls b) (cb_local b)
    (cb_remote b) (Some v) (cb_scid b) (cb_version b) (cb_cid_len b).
Definition builder_scid (v : ConnectionId) (b : ConnBuilder) : ConnBuilder :=
  mkBuilder (cb_role b) (cb_settings b) (cb_params b) (cb_entropy b) (cb_tls b) (cb_local b)
    (cb_remote b) (cb_dcid b) (Some v) (cb_version b) (cb_cid_len b).
Definition builder_version (v : Z) (b : ConnBuilder) : ConnBuilder :=
  mkBuilder (cb_role b) (cb_settings b) (cb_params b) (cb_entropy b) (cb_tls b) (cb_local b)
    (cb_remote b) (cb_dcid b) (cb_scid b) v (cb_cid_len b).
Definition builder_cid_len (v : nat) (b : ConnBuilder) : ConnBuilder :=
  mkBuilder (cb_role b) (cb_settings b) (cb_params b) (cb_entropy b) (cb_tls b) (cb_local b)
    (cb_remote b) (cb_dcid b) (cb_scid b) (cb_version b) v.

(** An identifier that was given, or a fresh one. *)
Definition or_generate (given : option ConnectionId) (e : entropy) (len : nat)
  : entropy * Result ConnectionId :=
  match given with Some c => (e, Ok c) | None => Cid.generate e len end.

(** [ConnBuilder::build], on the handlers and the state they capture. *)
Definition build (tgt : Target) (b : ConnBuilder) (h : Handlers C) (c : C)
  : C * Result Conn :=
  let server := is_server (cb_role b) in
  match Validate.server_version server (cb_version b) with
  | Err e => (c, Err e)
  | Ok _ =>
  let '(e, dcid) :=
    if server && bool_decide (cb_dcid b = None)
    then (cb_entropy b, Err (QuicError.invalid_input
      "a server must be given the client's source connection ID as its destination; take it from `Inspection::Supported`"))
    else or_generate (cb_dcid b) (cb_entropy b) (cb_cid_len b) in
  match dcid with
  | Err err => (c, Err err)
  | Ok dcid =>
  let '(e, scid) := or_generate (cb_scid b) e (cb_cid_len b) in
  match scid with
  | Err err => (c, Err err)
  | Ok scid =>
  match SettingsOps.build (cb_settings b) with
  | Err err => (c, Err err)
  | Ok (settings, _) =>
  match ParamsOps.build (cb_params b) server with
  | Err err => (c, Err err)
  | Ok params =>
  let path := Path.new tgt (cb_local b) (cb_remote b) in
  let '(w, made) :=
    ngtcp2_conn_new (mkNewArgs server dcid scid path (cb_version b) settings params) _
      (Callbacks.callbacks h) (mkWorld None (mkRand e false) true) in
  match made with
  | Err rc => (c, Err (QuicError.native rc "could not create the connection"))
  | Ok raw =>
  if failed (w_rand w)
  then (c, Err (QuicError.with_kind Internal
         "the entropy source failed while the connection was being created"))
  else
    let conn := mkConn raw (cb_tls b) h (w_rand w) path (cb_role b) scid RetainedOps.initial in
    match bind_tls (conn, c) with
    | ((conn, c), Ok _) => (c, Ok conn)
    | ((_, c), Err e) => (c, Err e)
    end
  end end end end end end.

(** *** Queries *)
Definition rv_of (rq : request) : M Z := do r := native_call rq in ret (rs_rv r).

Definition is_handshake_completed : M bool :=
  do rv := rv_of ReqGetHandshakeCompleted in ret (negb (rv =? 0)).

Definition scids : M (list ConnectionId) :=
  do count := rv_of ReqGetScidCount in
  if count =? 0 then ret []
  else
    do r := native_call ReqGetScids in
    ret (take (Z.to_nat (rs_rv r)) (rs_cids r)).

Definition max_tx_udp_payload_size : M nat :=
  do rv := rv_of ReqGetPathMaxTxUdpPayloadSize in ret (Z.to_nat rv).

Definition close_error : M CloseError :=
  do r := native_call ReqGetCcerr in ret (QuicError.from_raw (rs_ccerr r)).

Definition retained_bytes (s : Conn) : nat := RetainedOps.bytes_held (retained s).
Definition local_addr (tgt : Target) (s : Conn) : SocketAddr := Path.local tgt (path s).
Definition remote_addr (tgt : Target) (s : Conn) : SocketAddr := Path.remote tgt (path s).
Definition negotiated_alpn (s : Conn) : option bytes := session_negotiated_alpn (tls s).

(** [Drop]: the library's connection first, then what it pointed into. *)
Definition drop : M unit :=
  do _ := native_call ReqDel in modify (set_retained RetainedOps.initial).

(** *** packet.rs *)

Definition no_room : string := "a datagram buffer must have room to write into".

Definition read_pkt (datagram : bytes) (now : Z) : M ReadOutcome :=
  match datagram with
  | [] => invalid "an empty datagram cannot be read"
  | _ =>
      do p := gets path in
      do r := with_bridge (ReqReadPkt p datagram now) in
      let rc := rs_rv r in
      if rc =? 0 then ret Processed
      else if rc =? NGTCP2_ERR_RETRY then ret SendRetry
      else if rc =? NGTCP2_ERR_DROP_CONN then ret DropSilently
      else if rc =? NGTCP2_ERR_DRAINING then ret Draining
      else if rc =? NGTCP2_ERR_CLOSING then ret ClosingRead
      else throw (QuicError.into_unusable (QuicError.native rc "could not read the packet"))
  end.

(** The outcome, and the datagram written into the buffer. *)
Definition write_pkt (dest_len : nat) (now : Z) : M (WriteOutcome * bytes) :=
  if decide (dest_len = 0%nat) then invalid no_room
  else
    do p := gets path in
    do r := with_bridge_path (ReqWritePkt p dest_len now) in
    let written := rs_rv r in
    if 0 <? written then
      do _ := native_call (ReqUpdatePktTxTime now) in
      ret (Datagram (Z.to_nat written), take (Z.to_nat written) (rs_data r))
    else if written =? 0 then ret (BlockedWrite, [])
    else if written =? NGTCP2_ERR_WRITE_MORE then ret (BlockedWrite, [])
    else
      let code := to_i32 written NGTCP2_ERR_INTERNAL in
      if (code =? NGTCP2_ERR_CLOSING) || (code =? NGTCP2_ERR_DRAINING) then ret (Idle, [])
      else throw (QuicError.into_unusable (QuicError.native code "could not write a packet")).

Definition expiry : M (option Z) :=
  do rv := rv_of ReqGetExpiry in ret (Timestamp.from_raw rv).

Definition handle_expiry (now : Z) : M ExpiryOutcome :=
  do r := with_bridge (ReqHandleExpiry now) in
  let rc := rs_rv r in
  if rc =? 0 then ret Handled
  else if rc =? NGTCP2_ERR_IDLE_CLOSE then ret IdleClose
  else if (rc =? NGTCP2_ERR_CLOSING) || (rc =? NGTCP2_ERR_DRAINING) then ret Terminal
  else throw (QuicError.into_unusable (QuicError.native rc "could not handle the expiry")).

Definition in_closing_period : M bool :=
  do rv := rv_of ReqInClosingPeriod in ret (negb (rv =? 0)).
Definition in_draining_period : M bool :=
  do rv := rv_of ReqInDrainingPeriod in ret (negb (rv =? 0)).

(** *** stream_io.rs *)

Definition stream_flags (fin staged_complete : bool) : Z :=
  if fin && staged_complete
  then NGTCP2_WRITE_STREAM_FLAG_FIN else NGTCP2_WRITE_STREAM_FLAG_NONE.

Definition open_stream (rq : request) (ctx : string) : M Z :=
  do r := native_call rq in
  if negb (rs_rv r =? 0) then throw (QuicError.native (rs_rv r) ctx)
  else lift (StreamId.new (rs_out r)).
Definition open_bidi_stream : M Z :=
  open_stream ReqOpenBidiStream "could not open a bidirectional stream".
Definition open_uni_stream : M Z :=
  open_stream ReqOpenUniStream "could not open a unidirectional stream".

(** [submit_one_vec], on what was staged and the bytes it points at.  A count below zero says
    that no STREAM frame was written. *)
Definition submit_one_vec (dest_len : nat) (stream : Z) (staged : option (pointer * nat))
    (contents : bytes) (flags now : Z) : M (StreamWrite * bytes) :=
  let v :=
    match staged with
    | Some (base, len) => mkVec (Some base) len contents
    | None => mkVec None 0 []
    end in
  do p := gets path in
  do r := with_bridge_path (ReqWritevStream p dest_len flags stream v now) in
  let written := rs_rv r in
  let accepted := rs_out r in
  let carried_stream := 0 <=? accepted in
  let taken := if (0 <? written) && carried_stream then Z.to_nat accepted else 0%nat in
  do _ := modify (λ s,
    if bool_decide (is_Some staged)
    then set_retained (RetainedOps.commit stream taken (retained s)) s else s) in
  if 0 <? written then
    do _ := native_call (ReqUpdatePktTxTime now) in
    let len := Z.to_nat written in
    if negb carried_stream then ret (DatagramWithoutStream len, take len (rs_data r))
    else ret (StreamDatagram len taken, take len (rs_data r))
  else
    let code := to_i32 written NGTCP2_ERR_INTERNAL in
    if code =? 0 then
      do credit := rv_of ReqGetMaxDataLeft in
      ret (if credit =? 0 then ConnectionBlocked else WriteBlocked, [])
    else if code =? NGTCP2_ERR_STREAM_DATA_BLOCKED then ret (StreamBlocked, [])
    else if code =? NGTCP2_ERR_STREAM_SHUT_WR then
      throw (QuicError.native code "the write side of this stream is already closed")
    else if (code =? NGTCP2_ERR_CLOSING) || (code =? NGTCP2_ERR_DRAINING) then
      ret (WriteIdle, [])
    else throw (QuicError.native code "could not write stream data").

Definition write_stream_vectored (dest_len : nat) (stream : Z) (ranges : list bytes)
    (fin : bool) (now : Z) : M (StreamWrite * bytes) :=
  if decide (dest_len = 0%nat) then invalid no_room
  else
    do limit := max_tx_udp_payload_size in
    do r := gets retained in
    let '(r, (staged, staged_complete)) :=
      RetainedOps.stage_many_bounded stream ranges limit r in
    do _ := modify (set_retained r) in
    let contents :=
      match staged with
      | Some (_, len) => RetainedOps.copy_prefix ranges len []
      | None => []
      end in
    submit_one_vec dest_len stream staged contents (stream_flags fin staged_complete) now.

Definition write_stream (dest_len : nat) (stream : Z) (data : bytes) (fin : bool) (now : Z)
  : M (StreamWrite * bytes) := write_stream_vectored dest_len stream [data] fin now.

Definition write_stream_owned (dest_len : nat) (stream : Z) (data : OwnedBytes) (fin : bool)
    (now : Z) : M (OwnedWrite * bytes) :=
  if decide (dest_len = 0%nat) then invalid no_room
  else
    let flags :=
      if fin then NGTCP2_WRITE_STREAM_FLAG_FIN else NGTCP2_WRITE_STREAM_FLAG_NONE in
    do r := gets retained in
    let '(r, staged) := RetainedOps.stage_owned stream data r in
    do _ := modify (set_retained r) in
    do o := submit_one_vec dest_len stream staged (Bytes.as_slice data) flags now in
    let taken := match o.1 with StreamDatagram _ accepted => accepted | _ => 0%nat end in
    ret (mkOwnedWrite o.1 (Bytes.split_to data taken).2, o.2).

Definition checked (rq : request) (ctx : string) : M unit :=
  do rv := rv_of rq in
  if negb (rv =? 0) then throw (QuicError.native rv ctx) else ret ().

Definition shutdown_stream (stream code : Z) : M unit :=
  checked (ReqShutdownStream stream code) "could not shut down the stream".
Definition reset_stream (stream code : Z) : M unit :=
  checked (ReqShutdownStreamWrite stream code) "could not reset the stream".
Definition stop_sending (stream code : Z) : M unit :=
  checked (ReqShutdownStreamRead stream code) "could not stop the peer sending".
Definition extend_max_stream_offset (stream n : Z) : M unit :=
  checked (ReqExtendMaxStreamOffset stream n) "could not extend the stream window".

Definition run_native (rq : request) : M unit := do _ := native_call rq in ret ().
Definition extend_max_offset (n : Z) : M unit := run_native (ReqExtendMaxOffset n).
Definition extend_max_streams_bidi (n : nat) : M unit := run_native (ReqExtendMaxStreamsBidi n).
Definition extend_max_streams_uni (n : nat) : M unit := run_native (ReqExtendMaxStreamsUni n).
Definition streams_bidi_left : M Z := rv_of ReqGetStreamsBidiLeft.
Definition streams_uni_left : M Z := rv_of ReqGetStreamsUniLeft.

Definition write_close_with (dest_len : nat) (e : ccerr) (now : Z) : M bytes :=
  do p := gets path in
  do r := with_bridge_path (ReqWriteConnectionClose p dest_len e now) in
  if rs_rv r <? 0
  then throw (QuicError.native (to_i32 (rs_rv r) NGTCP2_ERR_INTERNAL)
         "could not write a connection close")
  else ret (take (Z.to_nat (rs_rv r)) (rs_data r)).

Definition write_transport_close (dest_len : nat) (cause : Error) (reason : bytes) (now : Z)
  : M bytes :=
  if decide (dest_len = 0%nat) then invalid no_room
  else
    let liberr := default NGTCP2_ERR_INTERNAL (native cause) in
    write_close_with dest_len (ngtcp2_ccerr_set_liberr liberr reason) now.

Definition write_connection_close (dest_len : nat) (code : Z) (reason : bytes) (now : Z)
  : M bytes :=
  if decide (dest_len = 0%nat) then invalid no_room
  else write_close_with dest_len (ngtcp2_ccerr_set_application_error code reason) now.
End Ops.
End ConnOps.
