(* ===== verification/QuicSafety.v ===== *)
(** * What the QUIC wrapper guarantees about sent bytes

    ngtcp2 keeps a pointer to every byte it accepted until the byte is acknowledged or its
    stream closes.  Over any sequence of operations, what is retained is exactly what the
    library still holds, at the pointers it was given ([pointers_outlive_use]); and a write
    hands over exactly the bytes it was offered, in order ([owned_write_exact],
    [vectored_write_exact]). *)

From Stdlib Require Import ZArith Lia Strings.Byte.
From stdpp Require Import base list gmap strings.
From S2P Require Import Prelude Traces QuicTypes QuicWire QuicRetain QuicConn.

(** ** Writing down what happens *)

Definition trace : Type := list (callback * cb_answer).

Record call := mkCall { c_request : request; c_trace : trace; c_response : response }.

Section Logged.
Context {N : Ngtcp2}.

Record logged_conn := mkLogged { inner : ngtcp2_conn; calls : list call }.

Definition logged_call (rq : request) (B : Type) (cb : B → callback → B * cb_answer)
    (n : logged_conn) (b : B) : logged_conn * B * response :=
  let '(n', st, r) :=
    ngtcp2_call rq (traced cb b) (traced_step cb b) (inner n) (traced_start cb b) in
  (mkLogged n' (calls n ++ [mkCall rq (`st).2 r]), (`st).1, r).

Definition logged : Ngtcp2 := {|
  ngtcp2_codes := ngtcp2_codes;
  ngtcp2_conn := logged_conn;
  ngtcp2_conn_new args B cb b :=
    match ngtcp2_conn_new args B cb b with
    | (b, Ok n) => (b, Ok (mkLogged n []))
    | (b, Err e) => (b, Err e)
    end;
  ngtcp2_call := logged_call;
  ngtcp2_ccerr_set_liberr := ngtcp2_ccerr_set_liberr;
  ngtcp2_ccerr_set_application_error := ngtcp2_ccerr_set_application_error
|}.

Lemma quic_logged_call_runs rq B cb n (b : B) n' b' r :
  logged_call rq B cb n b = (n', b', r) →
  ∃ tr, calls n' = calls n ++ [mkCall rq tr r] ∧ runs cb b tr b'.
Proof.
  unfold logged_call.
  destruct (ngtcp2_call _ _ _ _ _) as [[n1 [[b1 tr] Hst]] r1]. simpl.
  intros [= <- <- <-]. exists tr. by split.
Qed.
End Logged.

(** A library whose calls can be read back. *)
Class Recorded `{L : Ngtcp2} := {
  calls_of : ngtcp2_conn → list call;
  calls_of_new : ∀ args B cb (b : B) b' n,
    ngtcp2_conn_new args B cb b = (b', Ok n) → calls_of n = [];
  calls_of_call : ∀ rq B cb n (b : B) n' b' r,
    ngtcp2_call rq B cb n b = (n', b', r) →
    ∃ tr, calls_of n' = calls_of n ++ [mkCall rq tr r] ∧ runs cb b tr b'
}.

(** Any library can be recorded. *)
Definition quic_logged_recorded {N : Ngtcp2} : @Recorded logged.
Proof.
  refine (@Build_Recorded logged (@calls N) _ (@quic_logged_call_runs N)).
  intros args B cb b b' n. change (@ngtcp2_conn_new logged args B cb b) with
    (match @ngtcp2_conn_new N args B cb b with
     | (b, Ok n) => (b, Ok (mkLogged n []))
     | (b, Err e) => (b, Err e)
     end).
  destruct (@ngtcp2_conn_new N args B cb b) as [b1 [n1|e]]; [|done]. by intros [= <- <-].
Defined.

(** ** What ngtcp2 documents

    [held] is what the library may still read: for each stream the ranges it accepted, each
    with the pointer it was given, from the call that accepted it to the acknowledgement that
    covers it or the close of the stream. *)

Record range := mkRange { r_start : Z; r_len : nat; r_ptr : pointer; r_bytes : bytes }.

Definition range_end (g : range) : Z := r_start g + Z.of_nat (r_len g).

(** The ranges held on a stream, and how far it has been accepted. *)
Definition holding : Type := list range * Z.

Definition at_stream (h : gmap Z holding) (s : Z) : holding := default ([], 0) (h !! s).

(** An acknowledgement is cumulative. *)
Fixpoint release (upto : Z) (gs : list range) : list range :=
  match gs with
  | [] => []
  | g :: rest => if decide (range_end g ≤ upto) then release upto rest else gs
  end.

Definition hold_event (h : gmap Z holding) (ev : callback * cb_answer) : gmap Z holding :=
  match ev.1 with
  | CbAckedStreamDataOffset s offset len =>
      match h !! s with
      | Some (gs, next) => <[s := (release (offset + len) gs, next)]> h
      | None => h
      end
  | CbStreamClose2 _ s _ _ => delete s h
  | _ => h
  end.

Definition hold_response (rq : request) (rs : response) (h : gmap Z holding)
  : gmap Z holding :=
  match rq with
  | ReqWritevStream _ _ _ s v _ =>
      match v_base v with
      | Some p =>
          if (0 <? rs_rv rs) && (0 <? rs_out rs) then
            let n := Z.to_nat (rs_out rs) in
            let '(gs, next) := at_stream h s in
            <[s := (gs ++ [mkRange next n p (take n (v_bytes v))], next + rs_out rs)]> h
          else h
      | None => h
      end
  | _ => h
  end.

Definition hold_call (h : gmap Z holding) (c : call) : gmap Z holding :=
  hold_response (c_request c) (c_response c) (foldl hold_event h (c_trace c)).

Definition held (cs : list call) : gmap Z holding := foldl hold_call ∅ cs.

(** An acknowledgement covers only what was accepted. *)
Definition event_ok (h : gmap Z holding) (ev : callback * cb_answer) : Prop :=
  match ev.1 with
  | CbAckedStreamDataOffset s offset len =>
      0 ≤ offset ∧ 0 ≤ len ∧ offset + len ≤ U64_MAX ∧ offset + len ≤ (at_stream h s).2
  | _ => True
  end.

Definition trace_ok (h : gmap Z holding) (tr : trace) : Prop :=
  ∀ tr1 ev tr2, tr = tr1 ++ ev :: tr2 → event_ok (foldl hold_event h tr1) ev.

Definition releases (ev : callback * cb_answer) : bool :=
  match ev.1 with CbAckedStreamDataOffset _ _ _ | CbStreamClose2 _ _ _ _ => true | _ => false end.

Definition closes (s : Z) (ev : callback * cb_answer) : bool :=
  match ev.1 with CbStreamClose2 _ s' _ _ => bool_decide (s = s') | _ => false end.

(** The library on one call: only the packet calls acknowledge and close; no more is accepted
    than was offered, and nothing on a stream that closed during the call. *)
Definition call_ok (h : gmap Z holding) (c : call) : Prop :=
  match c_request c with
  | ReqReadPkt _ _ _ | ReqWritePkt _ _ _ | ReqWriteConnectionClose _ _ _ _
  | ReqHandleExpiry _ => trace_ok h (c_trace c)
  | ReqWritevStream _ _ _ s v _ =>
      trace_ok h (c_trace c) ∧
      (0 < rs_rv (c_response c) → 0 < rs_out (c_response c) →
         rs_out (c_response c) ≤ Z.of_nat (v_len v) ∧
         existsb (closes s) (c_trace c) = false)
  | _ => existsb releases (c_trace c) = false
  end.

Definition library_ok (cs : list call) : Prop :=
  ∀ cs1 c cs2, cs = cs1 ++ c :: cs2 → call_ok (held cs1) c.

(** ** The public operations *)

Section Operations.
Context `{Ngtcp2, Ngtcp2Defaults, Owners, EntropySources, TlsSessions} {C : Type}.

Inductive op :=
| OReadPkt (datagram : bytes) (now : Z)
| OWritePkt (dest_len : nat) (now : Z)
| OWriteStream (dest_len : nat) (stream : Z) (ranges : list bytes) (fin : bool) (now : Z)
| OWriteOwned (dest_len : nat) (stream : Z) (data : OwnedBytes) (fin : bool) (now : Z)
| OWriteTransportClose (dest_len : nat) (cause : Error) (reason : bytes) (now : Z)
| OWriteClose (dest_len : nat) (code : Z) (reason : bytes) (now : Z)
| OHandleExpiry (now : Z)
| OOpenBidi
| OOpenUni
| OShutdown (stream code : Z)
| OReset (stream code : Z)
| OStopSending (stream code : Z)
| OExtendStream (stream n : Z)
| OExtend (n : Z)
| OExtendBidi (n : nat)
| OExtendUni (n : nat)
| OExpiry
| OScids
| OCloseError.

Definition unit_of {A} (m : ConnOps.M (C:=C) A) : ConnOps.M (C:=C) unit :=
  ConnOps.bind m (λ _, ConnOps.ret ()).

Definition op_run (o : op) : ConnOps.M (C:=C) unit :=
  match o with
  | OReadPkt d now => unit_of (ConnOps.read_pkt d now)
  | OWritePkt n now => unit_of (ConnOps.write_pkt n now)
  | OWriteStream n s rs fin now => unit_of (ConnOps.write_stream_vectored n s rs fin now)
  | OWriteOwned n s d fin now => unit_of (ConnOps.write_stream_owned n s d fin now)
  | OWriteTransportClose n e r now => unit_of (ConnOps.write_transport_close n e r now)
  | OWriteClose n c r now => unit_of (ConnOps.write_connection_close n c r now)
  | OHandleExpiry now => unit_of (ConnOps.handle_expiry now)
  | OOpenBidi => unit_of ConnOps.open_bidi_stream
  | OOpenUni => unit_of ConnOps.open_uni_stream
  | OShutdown s c => ConnOps.shutdown_stream s c
  | OReset s c => ConnOps.reset_stream s c
  | OStopSending s c => ConnOps.stop_sending s c
  | OExtendStream s n => ConnOps.extend_max_stream_offset s n
  | OExtend n => ConnOps.extend_max_offset n
  | OExtendBidi n => ConnOps.extend_max_streams_bidi n
  | OExtendUni n => ConnOps.extend_max_streams_uni n
  | OExpiry => unit_of ConnOps.expiry
  | OScids => unit_of ConnOps.scids
  | OCloseError => unit_of ConnOps.close_error
  end.

(** Bytes are written to streams, whose identifiers are in range. *)
Definition op_ok (o : op) : Prop :=
  match o with
  | OWriteStream _ s _ _ _ => is_ok (StreamId.new s) = true
  | OWriteOwned _ s _ _ _ => is_ok (StreamId.new s) = true
  | _ => True
  end.

Fixpoint run_ops (os : list op) (st : ConnOps.St (C:=C)) : ConnOps.St (C:=C) :=
  match os with [] => st | o :: os => run_ops os (op_run o st).1 end.
End Operations.

(** ** What is retained, and what is held *)

Section Retaining.
Context `{Owners}.
Import RetainedOps.

(** A chunk as the library knows it. *)
Definition view (k : Chunk) : range :=
  mkRange (c_start k) (c_len k) (PayloadOps.ptr (c_data k))
    (take (c_len k) (PayloadOps.bytes_of (c_data k))).

Definition valid (s : Z) : Prop := is_ok (StreamId.new s) = true.

(** The chunk staged on a stream and not yet committed. *)
Definition extra (x : option (Z * Chunk)) (s : Z) : list Chunk :=
  match x with Some (s', k) => if decide (s = s') then [k] else [] | None => [] end.

Record rel (x : option (Z * Chunk)) (h : gmap Z holding) (r : Retained) : Prop := mkRel {
  rel_view s : valid s →
    view <$> chunks (entry s r) = (at_stream h s).1 ++ (view <$> extra x s);
  rel_next s : valid s → next_offset (entry s r) = (at_stream h s).2;
  rel_len s : valid s →
    Forall (λ k, 0 < c_len k ≤ PayloadOps.len (c_data k))%nat (chunks (entry s r));
  rel_extra s k : x = Some (s, k) →
    valid s ∧ c_start k = (at_stream h s).2 ∧ c_len k = PayloadOps.len (c_data k);
  rel_dom s : is_Some (h !! s) → valid s
}.

Lemma rel_initial : rel None ∅ initial.
Proof.
  constructor.
  - intros s _. done.
  - done.
  - intros s _. constructor.
  - done.
  - intros s [? Hs]. by rewrite lookup_empty in Hs.
Qed.

Lemma entry_insert s s' e (r : Retained) n :
  entry s (mkRetained (<[s' := e]> (streams r)) n) = if decide (s = s') then e else entry s r.
Proof.
  unfold entry. cbn. case_decide as Hs; [subst; by rewrite lookup_insert_eq|].
  by rewrite lookup_insert_ne.
Qed.

Lemma at_stream_insert h s s' v :
  at_stream (<[s' := v]> h) s = if decide (s = s') then v else at_stream h s.
Proof.
  unfold at_stream. case_decide as Hs; [subst; by rewrite lookup_insert_eq|].
  by rewrite lookup_insert_ne.
Qed.

(** Staging. *)
Lemma rel_stage s h r k n :
  valid s → rel None h r → c_start k = next_offset (entry s r) →
  c_len k = PayloadOps.len (c_data k) → (0 < c_len k)%nat →
  rel (Some (s, k)) h
    (mkRetained (<[s := mkStream (chunks (entry s r) ++ [k]) (next_offset (entry s r))]>
                   (streams r)) n).
Proof.
  intros Hs [Hv Hn Hl Hx Hd] Hk Hlen Hpos. constructor.
  - intros s' Hs'. rewrite entry_insert. unfold extra. case_decide; [subst|].
    + cbn. rewrite fmap_app, Hv by done. cbn. by rewrite app_nil_r.
    + by rewrite Hv.
  - intros s' Hs'. rewrite entry_insert. case_decide; subst; by apply Hn.
  - intros s' Hs'. rewrite entry_insert. case_decide; [|by apply Hl]. subst. cbn.
    apply Forall_app. split; [by apply Hl|]. constructor; [lia|constructor].
  - intros s' k' [= <- <-]. split; [done|]. split; [|done]. by rewrite Hk, Hn.
  - done.
Qed.

(** The two loops agree. *)
Lemma release_view upto ks : release upto (view <$> ks) = view <$> pop_acked upto ks.
Proof.
  induction ks as [|k ks IH]; [done|]. cbn [fmap list_fmap release pop_acked].
  unfold range_end, chunk_end. cbn [view r_start r_len]. by case_decide.
Qed.

Lemma release_app upto gs g :
  ¬ range_end g ≤ upto → release upto (gs ++ [g]) = release upto gs ++ [g].
Proof.
  intros Hg. induction gs as [|g' gs IH]; cbn.
  - by rewrite decide_False.
  - case_decide; [done|]. done.
Qed.

Lemma Forall_pop_acked P upto ks : Forall P ks → Forall P (pop_acked upto ks).
Proof. induction 1 as [|k ks Hk Hks IH]; cbn; [done|]. case_decide; [done|by constructor]. Qed.

Lemma entry_acknowledge s s' offset len r :
  entry s (acknowledge s' offset len r) =
  if decide (s = s')
  then mkStream (pop_acked (saturating_add offset len) (chunks (entry s r)))
         (next_offset (entry s r))
  else entry s r.
Proof.
  unfold acknowledge. case_decide as Hs; [subst|].
  - destruct (streams r !! s') as [e|] eqn:He.
    + unfold put. rewrite entry_insert, decide_True by done. unfold entry. by rewrite He.
    + unfold entry. by rewrite He.
  - destruct (streams r !! s') as [e|] eqn:He; [|done].
    unfold put. by rewrite entry_insert, decide_False.
Qed.

Lemma at_stream_acked h s s' offset len :
  at_stream (match h !! s' with
             | Some (gs, next) => <[s' := (release (offset + len) gs, next)]> h
             | None => h
             end) s =
  if decide (s = s') then (release (offset + len) (at_stream h s).1, (at_stream h s).2)
  else at_stream h s.
Proof.
  destruct (h !! s') as [[gs next]|] eqn:Hs.
  - rewrite at_stream_insert. case_decide; [|done]. subst. unfold at_stream. by rewrite Hs.
  - case_decide; [|done]. subst. unfold at_stream. by rewrite Hs.
Qed.

(** An acknowledgement of what was accepted. *)
Lemma rel_acknowledge x h r s offset len :
  rel x h r → valid s → 0 ≤ offset → 0 ≤ len → offset + len ≤ U64_MAX →
  offset + len ≤ (at_stream h s).2 →
  rel x (hold_event h (CbAckedStreamDataOffset s offset len, code 0)) (acknowledge s offset len r).
Proof.
  intros [Hv Hn Hl Hx Hd] Hs Ho Hlen Hu Hle. unfold hold_event. cbn [fst].
  assert (saturating_add offset len = offset + len) as Hsat by (by apply saturating_add_exact).
  constructor.
  - intros s' Hs'. rewrite entry_acknowledge, at_stream_acked. case_decide as Heq; [|by apply Hv].
    subst s'. cbn [chunks fst]. rewrite Hsat, <- release_view, Hv by done.
    unfold extra. destruct x as [[s0 k]|]; [|by rewrite !app_nil_r].
    case_decide as Heq; [|by rewrite !app_nil_r]. subst s0. cbn.
    rewrite release_app; [done|]. destruct (Hx s k eq_refl) as (_ & Hst & Hcl).
    assert (0 < c_len k)%nat.
    { specialize (Hl s Hs). assert (Hin : view k ∈ view <$> chunks (entry s r)).
      { rewrite Hv by done. apply elem_of_app. right. cbn. rewrite decide_True by done.
        apply list_elem_of_singleton. done. }
      apply list_elem_of_fmap in Hin as (k' & Hk' & Hin).
      rewrite Forall_forall in Hl. specialize (Hl k' Hin).
      assert (c_len k = c_len k') by (by injection Hk'). lia. }
    unfold range_end. cbn [view r_start r_len]. rewrite Hst. lia.
  - intros s' Hs'. rewrite entry_acknowledge, at_stream_acked. case_decide; by apply Hn.
  - intros s' Hs'. rewrite entry_acknowledge. case_decide; [|by apply Hl]. cbn.
    apply Forall_pop_acked. by apply Hl.
  - intros s' k Heq. destruct (Hx s' k Heq) as (H1 & H2 & H3). split_and!; try done.
    rewrite at_stream_acked. by case_decide.
  - intros s' Hs'. apply Hd. destruct (h !! s) as [[gs next]|] eqn:Hhs; [|done].
    apply lookup_insert_is_Some in Hs' as [<-|[_ ?]]; [by eapply mk_is_Some|done].
Qed.

Lemma entry_forget s s' r :
  entry s (RetainedOps.forget s' r) = if decide (s = s') then default_stream else entry s r.
Proof.
  unfold entry, RetainedOps.forget. cbn. case_decide; [subst; by rewrite lookup_delete_eq|].
  by rewrite lookup_delete_ne.
Qed.

Lemma at_stream_delete h s s' :
  at_stream (delete s' h) s = if decide (s = s') then ([], 0) else at_stream h s.
Proof.
  unfold at_stream. case_decide; [subst; by rewrite lookup_delete_eq|].
  by rewrite lookup_delete_ne.
Qed.

(** The close of a stream takes what was staged on it along. *)
Definition after_close (s : Z) (x : option (Z * Chunk)) : option (Z * Chunk) :=
  match x with Some (s', _) => if decide (s' = s) then None else x | None => None end.

Lemma rel_forget x h r s : rel x h r → rel (after_close s x) (delete s h) (RetainedOps.forget s r).
Proof.
  intros [Hv Hn Hl Hx Hd]. constructor.
  - intros s' Hs'. rewrite entry_forget, at_stream_delete. unfold extra, after_close.
    destruct x as [[s0 k]|]; repeat case_decide; subst; try done; rewrite Hv by done; cbn;
      repeat case_decide; done.
  - intros s' Hs'. rewrite entry_forget, at_stream_delete. case_decide; [done|by apply Hn].
  - intros s' Hs'. rewrite entry_forget. case_decide; [constructor|by apply Hl].
  - intros s' k Heq. unfold after_close in Heq. destruct x as [[s0 k0]|]; [|done].
    case_decide as Hne; [done|]. injection Heq as -> ->.
    destruct (Hx s' k eq_refl) as (H1 & H2 & H3). split_and!; try done.
    rewrite at_stream_delete. by rewrite decide_False.
  - intros s' [_ ?]%lookup_delete_is_Some. by apply Hd.
Qed.

(** Committing nothing, and committing some of what was staged. *)
Lemma rel_commit_none s k h r : rel (Some (s, k)) h r → rel None h (commit s 0 r).
Proof.
  intros [Hv Hn Hl Hx Hd]. destruct (Hx s k eq_refl) as (Hs & _).
  pose proof (Hv s Hs) as Hvs. cbn in Hvs. rewrite decide_True in Hvs by done.
  unfold commit. destruct (streams r !! s) as [e|] eqn:He.
  2:{ unfold entry in Hvs. rewrite He in Hvs. cbn in Hvs. by destruct (at_stream h s).1. }
  assert (entry s r = e) as Hee by (unfold entry; by rewrite He). rewrite Hee in Hvs.
  destruct (reverse (chunks e)) as [|c before] eqn:Hr.
  { apply (f_equal reverse) in Hr. rewrite reverse_involutive in Hr. rewrite Hr in Hvs. cbn in Hvs.
    by destruct (at_stream h s).1. }
  apply (f_equal reverse) in Hr. rewrite reverse_involutive, reverse_cons in Hr.
  rewrite Hr, fmap_app in Hvs. cbn in Hvs. apply app_inj_tail in Hvs as [Hvs _].
  rewrite decide_True by done. unfold put. constructor.
  - intros s' Hs'. rewrite entry_insert. case_decide; [subst; cbn; by rewrite Hvs, app_nil_r|].
    rewrite Hv by done. cbn. by rewrite decide_False.
  - intros s' Hs'. rewrite entry_insert. case_decide; [subst s'; cbn; rewrite <- Hee|]; by apply Hn.
  - intros s' Hs'. rewrite entry_insert. case_decide; [|by apply Hl]. subst s'. cbn.
    specialize (Hl s Hs). rewrite Hee, Hr in Hl. by apply Forall_app in Hl as [? _].
  - done.
  - done.
Qed.

Lemma rel_commit_some s k h r n p bs :
  rel (Some (s, k)) h r → (0 < n ≤ c_len k)%nat → p = PayloadOps.ptr (c_data k) →
  bs = PayloadOps.bytes_of (c_data k) →
  rel None
    (<[s := ((at_stream h s).1 ++ [mkRange (at_stream h s).2 n p (take n bs)],
             (at_stream h s).2 + Z.of_nat n)]> h)
    (commit s n r).
Proof.
  intros [Hv Hn Hl Hx Hd] Hpos -> ->. destruct (Hx s k eq_refl) as (Hs & Hst & Hlen).
  pose proof (Hv s Hs) as Hvs. cbn in Hvs. rewrite decide_True in Hvs by done.
  unfold commit. destruct (streams r !! s) as [e|] eqn:He.
  2:{ unfold entry in Hvs. rewrite He in Hvs. cbn in Hvs. by destruct (at_stream h s).1. }
  assert (entry s r = e) as Hee by (unfold entry; by rewrite He). rewrite Hee in Hvs.
  destruct (reverse (chunks e)) as [|c before] eqn:Hr.
  { apply (f_equal reverse) in Hr. rewrite reverse_involutive in Hr. rewrite Hr in Hvs. cbn in Hvs.
    by destruct (at_stream h s).1. }
  apply (f_equal reverse) in Hr. rewrite reverse_involutive, reverse_cons in Hr.
  rewrite Hr, fmap_app in Hvs. cbn in Hvs. apply app_inj_tail in Hvs as [Hvs Hc].
  assert (c_start c = c_start k ∧ c_len c = c_len k ∧
    PayloadOps.ptr (c_data c) = PayloadOps.ptr (c_data k)) as (E1 & E2 & E3)
    by (by injection Hc).
  assert (Forall (λ k, 0 < c_len k ≤ PayloadOps.len (c_data k))%nat (reverse before) ∧
    (c_len c ≤ PayloadOps.len (c_data c))%nat) as [Hb Hcl].
  { specialize (Hl s Hs). rewrite Hee, Hr in Hl. apply Forall_app in Hl as [? Hl].
    apply Forall_cons_1 in Hl as [? _]. split; [done|lia]. }
  assert (take n (PayloadOps.bytes_of (c_data c)) = take n (PayloadOps.bytes_of (c_data k))) as E4.
  { assert (take (c_len c) (PayloadOps.bytes_of (c_data c)) =
            take (c_len k) (PayloadOps.bytes_of (c_data k))) as Ht by (by injection Hc).
    apply (f_equal (take n)) in Ht. rewrite !take_take in Ht.
    rewrite !Nat.min_l in Ht by lia. done. }
  rewrite decide_False by lia. rewrite Nat.min_l by lia. unfold put. constructor.
  - intros s' Hs'. rewrite entry_insert, at_stream_insert. case_decide; [|].
    + cbn [chunks]. rewrite fmap_app, Hvs. cbn. unfold view. cbn.
      by rewrite E1, E3, E4, Hst, app_nil_r.
    + rewrite Hv by done. cbn. by rewrite decide_False.
  - intros s' Hs'. rewrite entry_insert, at_stream_insert. case_decide; [|by apply Hn].
    cbn. unfold chunk_end. cbn. by rewrite E1, Hst.
  - intros s' Hs'. rewrite entry_insert. case_decide; [|by apply Hl]. cbn.
    apply Forall_app. split; [done|]. constructor; [cbn; lia|constructor].
  - done.
  - intros s' [<-|[_ ?]]%lookup_insert_is_Some; [done|by apply Hd].
Qed.
End Retaining.

(** ** The callbacks keep it *)

Section Kept.
Context `{Ngtcp2, Owners, EntropySources} {C : Type}.
Variable hs : Handlers C.
Abbreviation cb := (Callbacks.callbacks hs).
Import RetainedOps.

(** With a bridge, over what is held; nothing staged is touched but by a close. *)
Definition bridge_rel (x : option (Z * Chunk)) (h : gmap Z holding) (w : World C) : Prop :=
  ∃ b, w_bridge w = Some b ∧ rel x h (b_retained b).

Lemma retained_run {F} (fn : option F) f (b : Bridge C) :
  b_retained (Callbacks.run fn f b) = b_retained b.
Proof. by destruct fn. Qed.

Lemma bridge_rel_run {F} (fn : option F) f x h w :
  bridge_rel x h w → bridge_rel x h (Callbacks.with_bridge w (Callbacks.run fn f)).1.
Proof.
  intros (b & Hb & Hr). unfold Callbacks.with_bridge. rewrite Hb. eexists. split; [done|].
  by rewrite retained_run.
Qed.

Lemma bridge_rel_on_stream {F} s (fn : option F) f x h w :
  bridge_rel x h w → bridge_rel x h (Callbacks.on_stream w s fn f).1.
Proof.
  intros (b & Hb & Hr). unfold Callbacks.on_stream, Callbacks.with_bridge. rewrite Hb.
  eexists. split; [done|]. case_match; [by rewrite retained_run|done].
Qed.

Lemma bridge_rel_rand x h w r : bridge_rel x h w → bridge_rel x h (Callbacks.set_rand r w).
Proof. intros (b & Hb & Hr). by exists b. Qed.

Lemma bridge_rel_fill x h w n :
  bridge_rel x h w → bridge_rel x h (Callbacks.fill_from_conn_rand w n).1.
Proof.
  intros Hw. unfold Callbacks.fill_from_conn_rand. case_match; [done|].
  destruct (fill _ _). by apply bridge_rel_rand.
Qed.

Lemma bridge_rel_new_cid x h w n tail :
  bridge_rel x h w → bridge_rel x h (Callbacks.get_new_connection_id_cb hs w n tail).1.
Proof.
  intros Hw. unfold Callbacks.get_new_connection_id_cb.
  pose proof (bridge_rel_fill x h w n Hw) as He1.
  destruct (Callbacks.fill_from_conn_rand w n) as [w1 [c|]]; cbn in He1; [|done].
  pose proof (bridge_rel_fill x h w1 NGTCP2_STATELESS_RESET_TOKENLEN He1) as He2.
  destruct (Callbacks.fill_from_conn_rand w1 _) as [w2 [tk|]]; cbn in He2; [|done]. cbn.
  destruct He2 as (b & Hb & Hr). rewrite Hb. eexists. split; [done|]. by rewrite retained_run.
Qed.

(** What is staged after an event. *)
Definition after_event (ev : callback * cb_answer) (x : option (Z * Chunk))
  : option (Z * Chunk) :=
  match ev.1 with CbStreamClose2 _ s _ _ => after_close s x | _ => x end.

Lemma hold_event_answer h c a a' : hold_event h (c, a) = hold_event h (c, a').
Proof. by destruct c. Qed.

Lemma bridge_rel_cb x h w c w' a :
  event_ok h (c, a) → bridge_rel x h w → cb w c = (w', a) →
  bridge_rel (after_event (c, a) x) (hold_event h (c, a)) w'.
Proof.
  intros Hev Hw Hc. assert (w' = (cb w c).1) as -> by by rewrite Hc.
  destruct c; cbn [Callbacks.callbacks after_event fst].
  - unfold hold_event. cbn [fst]. unfold Callbacks.rand_cb. case_decide; [done|].
    destruct (fill _ _) as [? []]; by apply bridge_rel_rand.
  - by apply bridge_rel_new_cid.
  - by apply bridge_rel_run.
  - by apply bridge_rel_on_stream.
  - by apply bridge_rel_on_stream.
  - destruct Hw as (b & Hb & Hr). unfold Callbacks.stream_close2_cb, Callbacks.with_bridge.
    rewrite Hb. cbn [fst]. eexists. split; [done|]. unfold hold_event. cbn [fst].
    destruct (is_ok (StreamId.new stream_id)) eqn:Hs.
    + rewrite retained_run. by apply rel_forget.
    + assert (h !! stream_id = None) as Hn.
      { destruct (h !! stream_id) eqn:E; [|done]. exfalso.
        pose proof (rel_dom _ _ _ Hr stream_id (mk_is_Some _ _ E)) as Hv. unfold valid in Hv.
        congruence. }
      rewrite delete_id by done. unfold after_close. destruct x as [[s0 k]|]; [|done].
      case_decide; [|done]. subst. destruct (rel_extra _ _ _ Hr stream_id k eq_refl) as [Hv _].
      unfold valid in Hv. congruence.
  - by apply bridge_rel_on_stream.
  - by apply bridge_rel_on_stream.
  - destruct Hw as (b & Hb & Hr).
    unfold Callbacks.acked_stream_data_offset_cb, Callbacks.with_bridge.
    rewrite Hb. cbn [fst]. eexists. split; [done|]. rewrite (hold_event_answer _ _ _ (code 0)).
    destruct (is_ok (StreamId.new stream_id)) eqn:Hs.
    + rewrite retained_run. cbn [b_retained]. destruct Hev as (? & ? & ? & ?).
      by apply rel_acknowledge.
    + unfold hold_event. cbn [fst]. destruct (h !! stream_id) eqn:E; [|done]. exfalso.
      pose proof (rel_dom _ _ _ Hr stream_id (mk_is_Some _ _ E)) as Hv. unfold valid in Hv.
      congruence.
  - by apply bridge_rel_run.
  - by apply bridge_rel_run.
  - by apply bridge_rel_run.
  - unfold hold_event. cbn [fst]. unfold Callbacks.get_path_challenge_data2_cb.
    destruct (fill _ _) as [? []]; by apply bridge_rel_rand.
Qed.

Lemma trace_ok_app h tr tr' : trace_ok h (tr ++ tr') → trace_ok h tr.
Proof.
  intros Ht tr1 ev tr2 ->. apply (Ht tr1 ev (tr2 ++ tr')). by rewrite <- (assoc_L (++)).
Qed.

Lemma bridge_rel_runs x h w tr w' :
  trace_ok h tr → bridge_rel x h w → runs cb w tr w' →
  bridge_rel (foldl (λ x ev, after_event ev x) x tr) (foldl hold_event h tr) w'.
Proof.
  intros Ht Hw Hr. induction Hr as [|tr w1 c w2 a Hr IH Hc]; [done|].
  rewrite !foldl_app. cbn. eapply bridge_rel_cb; [| |done].
  - by apply (Ht tr (c, a) []).
  - apply IH. by apply trace_ok_app in Ht.
Qed.

(** A stream that was forgotten stays so. *)
Definition forgotten (s : Z) (w : World C) : Prop :=
  ∀ b, w_bridge w = Some b → streams (b_retained b) !! s = None.

Lemma cb_forgotten s w c w' a : cb w c = (w', a) → forgotten s w → forgotten s w'.
Proof.
  intros Hc Hf b' Hb'. assert (w' = (cb w c).1) as -> by by rewrite Hc. clear Hc.
  assert (Hrun : ∀ F (fn : option F) f, w_bridge (Callbacks.with_bridge w (Callbacks.run fn f)).1
    = Some b' → streams (b_retained b') !! s = None).
  { intros F fn f. unfold Callbacks.with_bridge. destruct (w_bridge w) as [b|] eqn:Hb; cbn.
    - intros [= <-]. rewrite retained_run. by apply Hf.
    - intros [=]. congruence. }
  assert (Hon : ∀ F s0 (fn : option F) f, w_bridge (Callbacks.on_stream w s0 fn f).1
    = Some b' → streams (b_retained b') !! s = None).
  { intros F s0 fn f. unfold Callbacks.on_stream, Callbacks.with_bridge.
    destruct (w_bridge w) as [b|] eqn:Hb; cbn; [|intros [=]; congruence].
    intros [= <-]. case_match; [rewrite retained_run|]; by apply Hf. }
  destruct c; cbn [Callbacks.callbacks] in Hb'; try (by eapply Hrun); try (by eapply Hon).
  - unfold Callbacks.rand_cb in Hb'. case_decide; [by apply Hf|].
    destruct (fill _ _) as [? []]; by apply Hf.
  - unfold Callbacks.get_new_connection_id_cb, Callbacks.fill_from_conn_rand in Hb'.
    destruct (w_thread w) eqn:Ht; cbn in Hb'; [|by apply Hf].
    destruct (fill (rand_source (w_rand w)) _) as [s1 [c1|]]; cbn in Hb'; [|by apply Hf].
    rewrite Ht in Hb'. cbn in Hb'.
    destruct (fill s1 _) as [s2 [c2|]]; cbn in Hb'; [|by apply Hf].
    destruct (w_bridge w) as [b|] eqn:Hb; cbn in Hb'; [|congruence].
    injection Hb' as <-. rewrite retained_run. by apply Hf.
  - unfold Callbacks.stream_close2_cb, Callbacks.with_bridge in Hb'.
    destruct (w_bridge w) as [b|] eqn:Hb; cbn in Hb'; [|congruence]. injection Hb' as <-.
    case_match; [|by apply Hf]. rewrite retained_run. cbn. apply lookup_delete_None. right.
    by apply Hf.
  - unfold Callbacks.acked_stream_data_offset_cb, Callbacks.with_bridge in Hb'.
    destruct (w_bridge w) as [b|] eqn:Hb; cbn in Hb'; [|congruence]. injection Hb' as <-.
    case_match; [|by apply Hf]. rewrite retained_run. cbn [b_retained]. unfold acknowledge.
    destruct (streams (b_retained b) !! stream_id) as [e|] eqn:He; [|by apply Hf].
    unfold put. cbn. rewrite lookup_insert_ne; [by apply Hf|]. intros ->.
    rewrite (Hf b Hb) in He. done.
  - unfold Callbacks.get_path_challenge_data2_cb in Hb'.
    destruct (fill _ _) as [? []]; by apply Hf.
Qed.

(** A stream closed by a callback is forgotten, if its identifier is one. *)
Lemma runs_forgotten s w tr w' :
  valid s → runs cb w tr w' → existsb (closes s) tr = true → forgotten s w'.
Proof.
  intros Hs Hr. induction Hr as [|tr w1 c w2 a Hr IH Hc]; [done|].
  rewrite existsb_app. cbn. rewrite orb_false_r. intros [Hx|Hx]%orb_true_iff.
  - eapply cb_forgotten; [done|auto].
  - destruct c; try done. cbn in Hx. apply bool_decide_eq_true in Hx. subst stream_id.
    cbn [Callbacks.callbacks] in Hc. unfold Callbacks.stream_close2_cb, Callbacks.with_bridge in Hc.
    intros b' Hb'. destruct (w_bridge w1) as [b|] eqn:Hb; injection Hc as <- <-; [|congruence].
    cbn in Hb'. unfold valid in Hs. rewrite Hs in Hb'. injection Hb' as <-.
    rewrite retained_run. cbn. apply lookup_delete_eq.
Qed.

(** What is still staged at the end of a call. *)
Lemma after_events s k tr :
  foldl (λ x ev, after_event ev x) (Some (s, k)) tr =
  if existsb (closes s) tr then None else Some (s, k).
Proof.
  induction tr as [|[c a] tr IH]; [done|]. cbn [foldl existsb].
  assert (Hnone : foldl (λ x ev, after_event ev x) None tr = None).
  { clear IH. induction tr as [|[c' a'] tr IH]; [done|]. cbn. destruct c'; apply IH. }
  destruct c; cbn; try apply IH. unfold after_close. case_decide; subst.
  - by rewrite bool_decide_eq_true_2.
  - by rewrite bool_decide_eq_false_2.
Qed.

Lemma after_events_none tr : foldl (λ x ev, after_event ev x) None tr = None.
Proof. induction tr as [|[c' a'] tr IH]; [done|]. cbn. destruct c'; apply IH. Qed.

(** A bridge stays in place for the length of a call. *)
Lemma cb_bridged w c w' a :
  cb w c = (w', a) → is_Some (w_bridge w) → is_Some (w_bridge w').
Proof.
  intros Hc [b Hb]. assert (w' = (cb w c).1) as -> by by rewrite Hc. clear Hc.
  assert (Hwb : ∀ f, is_Some (w_bridge (Callbacks.with_bridge w f).1))
    by (intros f; unfold Callbacks.with_bridge; rewrite Hb; eauto).
  destruct c; cbn [Callbacks.callbacks]; try apply Hwb.
  - unfold Callbacks.rand_cb. case_decide; [eauto|]. destruct (fill _ _) as [? []]; cbn; eauto.
  - unfold Callbacks.get_new_connection_id_cb, Callbacks.fill_from_conn_rand.
    destruct (w_thread w) eqn:Ht; cbn; [|eauto].
    destruct (fill (rand_source (w_rand w)) _) as [s1 [c1|]]; cbn; [|eauto].
    rewrite Ht. cbn. destruct (fill s1 _) as [s2 [c2|]]; cbn; [|eauto]. rewrite Hb. cbn. eauto.
  - unfold Callbacks.get_path_challenge_data2_cb. destruct (fill _ _) as [? []]; cbn; eauto.
Qed.

Lemma quic_runs_bridged w tr w' : runs cb w tr w' → is_Some (w_bridge w) → is_Some (w_bridge w').
Proof. intros Hr Hw. induction Hr; [done|]. eapply cb_bridged; eauto. Qed.
End Kept.

(** ** The operations keep it *)

Section Triples.
Context `{R : Recorded, Ngtcp2Defaults, Owners, EntropySources, TlsSessions} {C : Type}.
Abbreviation St := (ConnOps.St (C:=C)).
Implicit Types (st : ConnOps.St (C:=C)).

Definition log st : list call := calls_of (raw st.1).

Definition safe st : Prop := rel None (held (log st)) (retained st.1).

Lemma quic_library_ok_app cs cs' : library_ok (cs ++ cs') → library_ok cs.
Proof.
  intros Hl cs1 c cs2 ->. apply (Hl cs1 c (cs2 ++ cs')). by rewrite <- (assoc_L (++)).
Qed.

Definition triple {A} (P : St → Prop) (m : ConnOps.M A) (Q : Result A → St → Prop) : Prop :=
  log_triple log library_ok P m Q.

Abbreviation keeps m := (triple safe m (λ _, safe)).

Lemma quic_triple_bind {A B} P (m : ConnOps.M A) (k : A → ConnOps.M B) M Q :
  triple P m M → (∀ a, triple (M (Ok a)) (k a) Q) → (∀ e st, M (Err e) st → Q (Err e) st) →
  triple P (ConnOps.bind m k) Q.
Proof. exact (log_triple_bind log library_ok quic_library_ok_app P m k M Q). Qed.

Lemma quic_triple_local {A} (P : St → Prop) (f : St → St) (g : St → Result A) Q :
  (∀ st, log (f st) = log st) → (∀ st, P st → Q (g st) (f st)) →
  triple P (λ st, (f st, g st)) Q.
Proof. apply log_triple_local. Qed.

Lemma quic_triple_ret {A} P (a : A) (Q : Result A → St → Prop) :
  (∀ st, P st → Q (Ok a) st) → triple P (ConnOps.ret a) Q.
Proof. intros HQ. by apply (quic_triple_local P (λ st, st) (λ _, Ok a)). Qed.

Lemma quic_keeps_lift {A} (r : Result A) : keeps (ConnOps.lift r).
Proof. by apply (quic_triple_local safe (λ st, st) (λ _, r)). Qed.

Lemma quic_keeps_ret {A} (a : A) : keeps (ConnOps.ret a).
Proof. apply (quic_keeps_lift (Ok a)). Qed.

Lemma quic_keeps_throw {A} e : keeps (ConnOps.throw (A:=A) e).
Proof. apply (quic_keeps_lift (A:=A) (Err e)). Qed.

Lemma quic_triple_gets {A} P (f : Conn ngtcp2_conn C → A) :
  triple P (ConnOps.gets f) (λ r st, P st ∧ r = Ok (f st.1)).
Proof. by apply (quic_triple_local P (λ st, st) (λ st, Ok (f st.1))). Qed.

Lemma quic_triple_modify P f (Q : Result unit → St → Prop) :
  (∀ s : Conn ngtcp2_conn C, raw (f s) = raw s) → (∀ st, P st → Q (Ok ()) (f st.1, st.2)) →
  triple P (ConnOps.modify f) Q.
Proof.
  intros Hf HQ. apply (quic_triple_local P (λ st, (f st.1, st.2)) (λ _, Ok ())); [|done].
  intros st. unfold log. cbn. by rewrite Hf.
Qed.

Lemma quic_keeps_then {A B} (m : ConnOps.M A) (k : A → ConnOps.M B) :
  keeps m → (∀ a, keeps (k a)) → keeps (ConnOps.bind m k).
Proof. intros Hm Hk. eapply quic_triple_bind; [exact Hm|exact Hk|done]. Qed.

(** *** Calls *)

(** A call outside the packet paths. *)
Definition plain_request (rq : request) : Prop :=
  match rq with
  | ReqReadPkt _ _ _ | ReqWritePkt _ _ _ | ReqWritevStream _ _ _ _ _ _
  | ReqWriteConnectionClose _ _ _ _ | ReqHandleExpiry _ => False
  | _ => True
  end.

Lemma hold_quiet h tr : existsb releases tr = false → foldl hold_event h tr = h.
Proof.
  revert h. induction tr as [|[c a] tr IH]; intros h; [done|].
  cbn [existsb]. intros [Hc Ht]%orb_false_iff. cbn [foldl]. rewrite IH by done. by destruct c.
Qed.

Lemma held_last cs c : held (cs ++ [c]) = hold_call (held cs) c.
Proof. unfold held. by rewrite foldl_app. Qed.

Lemma quic_keeps_native rq : plain_request rq → keeps (ConnOps.native_call rq).
Proof.
  intros Hp [s c] st' r. unfold ConnOps.native_call.
  destruct (ngtcp2_call _ _ _ _ _) as [[raw' w] rs] eqn:Hcall. intros [= <- <-].
  destruct (calls_of_call _ _ _ _ _ _ _ _ Hcall) as (tr & Hlog & _).
  unfold log. cbn. split; [eauto|]. intros Hok Hs. unfold safe, log in *. cbn in *.
  rewrite Hlog in Hok |- *. specialize (Hok _ _ _ eq_refl). rewrite held_last.
  unfold hold_call. cbn [c_trace c_request c_response].
  unfold call_ok in Hok. cbn [c_request c_trace] in Hok.
  assert (existsb releases tr = false) as Hq by (by destruct rq).
  rewrite hold_quiet by done. by destruct rq.
Qed.

(** A packet call that writes no stream data. *)
Definition packet_request (rq : request) : Prop :=
  match rq with
  | ReqReadPkt _ _ _ | ReqWritePkt _ _ _ | ReqWriteConnectionClose _ _ _ _
  | ReqHandleExpiry _ => True
  | _ => False
  end.

Lemma with_bridge_runs rq st st' r :
  ConnOps.with_bridge rq st = (st', r) →
  ∃ tr rs w w', r = Ok rs ∧ log st' = log st ++ [mkCall rq tr rs] ∧
    w_bridge w = Some (mkBridge st.2 (retained st.1)) ∧
    runs (Callbacks.callbacks (handlers st.1)) w tr w' ∧
    retained st'.1 = b_retained (default (mkBridge st.2 (retained st.1)) (w_bridge w')).
Proof.
  destruct st as [s c]. unfold ConnOps.with_bridge.
  destruct (ngtcp2_call _ _ _ _ _) as [[raw' w'] rs] eqn:Hcall. intros [= <- <-].
  destruct (calls_of_call _ _ _ _ _ _ _ _ Hcall) as (tr & Hlog & Hruns).
  exists tr, rs, (mkWorld (Some (mkBridge c (retained s))) (rand_ctx s) true), w'. done.
Qed.

(** What is retained after a call whose events are as documented. *)
Lemma with_bridge_rel x rq st st' r :
  ConnOps.with_bridge rq st = (st', r) →
  ∃ tr rs, r = Ok rs ∧ log st' = log st ++ [mkCall rq tr rs] ∧
    (trace_ok (held (log st)) tr → rel x (held (log st)) (retained st.1) →
     rel (foldl (λ x ev, after_event ev x) x tr)
       (foldl hold_event (held (log st)) tr) (retained st'.1)) ∧
    (∀ s, valid s → existsb (closes s) tr = true → streams (retained st'.1) !! s = None).
Proof.
  intros Hb. destruct (with_bridge_runs _ _ _ _ Hb) as (tr & rs & w & w' & -> & Hl & Hw & Hr & He).
  exists tr, rs. split_and!; try done.
  - intros Ht Hrel.
    destruct (bridge_rel_runs _ x _ w tr w' Ht ltac:(by eexists) Hr) as (b & Hb' & Hrel').
    by rewrite He, Hb'.
  - intros s Hs Hc. rewrite He. pose proof (runs_forgotten _ s w tr w' Hs Hr Hc) as Hf.
    destruct (quic_runs_bridged _ _ _ _ Hr ltac:(by eexists)) as [b Hb']. rewrite Hb'. by apply Hf.
Qed.

Lemma quic_keeps_packet rq : packet_request rq → keeps (ConnOps.with_bridge rq).
Proof.
  intros Hp st st' r Hr. destruct (with_bridge_rel None _ _ _ _ Hr) as (tr & rs & -> & Hl & Hrel & _).
  split; [eauto|]. intros Hok Hs. rewrite Hl in Hok. specialize (Hok _ _ _ eq_refl).
  unfold safe in *. rewrite Hl, held_last. unfold hold_call. cbn [c_trace c_request c_response].
  unfold call_ok in Hok. cbn [c_request c_trace] in Hok.
  assert (trace_ok (held (log st)) tr) as Ht by (by destruct rq).
  specialize (Hrel Ht Hs). rewrite after_events_none in Hrel. by destruct rq.
Qed.

Lemma quic_keeps_modify f :
  (∀ s : Conn ngtcp2_conn C, raw (f s) = raw s) →
  (∀ s : Conn ngtcp2_conn C, retained (f s) = retained s) → keeps (ConnOps.modify f).
Proof.
  intros Hf Hr. apply quic_triple_modify; [done|]. intros st Hs. unfold safe, log in *. cbn.
  by rewrite Hf, Hr.
Qed.

Lemma quic_keeps_packet_path rq : packet_request rq → keeps (ConnOps.with_bridge_path rq).
Proof.
  intros Hp. unfold ConnOps.with_bridge_path. apply quic_keeps_then; [by apply quic_keeps_packet|].
  intros rs. apply quic_keeps_then; [by apply quic_keeps_modify|]. intros _. apply quic_keeps_ret.
Qed.

(** *** Writing to a stream *)

(** What was staged is retained, and is what the library is about to be given. *)
Definition staged_at (stream : Z) (staged : option (pointer * nat)) (contents : bytes) st : Prop :=
  match staged with
  | Some (p, len) => ∃ k,
      rel (Some (stream, k)) (held (log st)) (retained st.1) ∧
      p = PayloadOps.ptr (c_data k) ∧ len = c_len k ∧
      contents = PayloadOps.bytes_of (c_data k)
  | None => safe st
  end.

Definition vec_of (staged : option (pointer * nat)) (contents : bytes) : vec :=
  match staged with
  | Some (base, len) => mkVec (Some base) len contents
  | None => mkVec None 0 []
  end.

Definition taken_of (rs : response) : nat :=
  if (0 <? rs_rv rs) && (0 <=? rs_out rs) then Z.to_nat (rs_out rs) else 0%nat.

(** Once the library has answered, committing what it took restores the invariant. *)
Definition to_commit (stream : Z) (staged : option (pointer * nat)) (r : Result response) st
  : Prop :=
  ∃ rs, r = Ok rs ∧
    match staged with
    | Some _ => rel None (held (log st))
                  (RetainedOps.commit stream (taken_of rs) (retained st.1))
    | None => safe st
    end.

Lemma triple_writev path dest_len flags stream staged contents now :
  triple (staged_at stream staged contents)
    (ConnOps.with_bridge
       (ReqWritevStream path dest_len flags stream (vec_of staged contents) now))
    (to_commit stream staged).
Proof.
  intros st st' r Hr. set (rq := ReqWritevStream _ _ _ _ _ _) in *.
  pose proof (λ x, with_bridge_rel x rq st st' r Hr) as Hb.
  destruct (Hb None) as (tr & rs & -> & Hl & _ & _). split; [eauto|]. intros Hok Hst.
  rewrite Hl in Hok. specialize (Hok _ _ _ eq_refl) as [Ht Hacc]. cbn [c_trace c_response] in *.
  exists rs. split; [done|]. rewrite Hl, held_last. unfold hold_call.
  cbn [c_request c_trace c_response rq hold_response].
  destruct staged as [[p len]|]; cbn [vec_of v_base].
  - destruct Hst as (k & Hk & -> & -> & ->).
    destruct (Hb (Some (stream, k))) as (tr' & rs' & [= <-] & Hl' & Hrel & Hclosed).
    assert (tr' = tr) as -> by (rewrite Hl in Hl'; by simplify_list_eq).
    specialize (Hrel Ht Hk). rewrite after_events in Hrel.
    destruct (rel_extra _ _ _ Hk stream k eq_refl) as (Hs & _ & Hlen).
    unfold taken_of. cbn [v_bytes v_len vec_of] in *.
    destruct (Z.ltb_spec 0 (rs_rv rs)) as [Hrv|Hrv]; cbn [andb];
      [destruct (Z.ltb_spec 0 (rs_out rs)) as [Hout|Hout]|].
    + destruct (Hacc Hrv Hout) as [Hle Hnc]. rewrite Hnc in Hrel.
      rewrite (proj2 (Z.leb_le 0 (rs_out rs))) by lia.
      destruct (at_stream _ stream) as [gs next] eqn:Hat.
      replace (next + rs_out rs) with (next + Z.of_nat (Z.to_nat (rs_out rs))) by lia.
      pose proof (rel_commit_some stream k _ _ (Z.to_nat (rs_out rs)) _ _ Hrel ltac:(lia)
        eq_refl eq_refl) as Hc. rewrite Hat in Hc. exact Hc.
    + assert ((if 0 <=? rs_out rs then Z.to_nat (rs_out rs) else 0%nat) = 0%nat) as ->
        by (destruct (0 <=? rs_out rs); [lia|done]).
      destruct (existsb _ tr) eqn:Hc; [|by eapply rel_commit_none].
      unfold RetainedOps.commit. by rewrite Hclosed.
    + destruct (existsb _ tr) eqn:Hc; [|by eapply rel_commit_none].
      unfold RetainedOps.commit. by rewrite Hclosed.
  - destruct (Hb None) as (tr' & rs' & [= <-] & Hl' & Hrel & _).
    assert (tr' = tr) as -> by (rewrite Hl in Hl'; by simplify_list_eq).
    specialize (Hrel Ht Hst). rewrite after_events_none in Hrel.
    unfold safe. rewrite Hl, held_last. exact Hrel.
Qed.

Lemma keeps_rv_of rq : plain_request rq → keeps (ConnOps.rv_of rq).
Proof.
  intros Hp. apply quic_keeps_then; [by apply quic_keeps_native|]. intros. apply quic_keeps_ret.
Qed.

Lemma keeps_ifs_submit {A} (b : bool) (m n : ConnOps.M A) :
  keeps m → keeps n → keeps (if b then m else n).
Proof. by destruct b. Qed.

Lemma triple_submit dest_len stream staged contents flags now :
  triple (staged_at stream staged contents)
    (ConnOps.submit_one_vec dest_len stream staged contents flags now) (λ _, safe).
Proof.
  unfold ConnOps.submit_one_vec. change (match staged with
    | Some (base, len) => mkVec (Some base) len contents
    | None => mkVec None 0 [] end) with (vec_of staged contents).
  eapply quic_triple_bind; [apply quic_triple_gets| |by intros ? ? [_ [=]]]. intros p.
  apply (quic_triple_bind _ _ _ (λ r st,
    match r with Ok _ => to_commit stream staged r st | Err _ => safe st end)); [| |done].
  - unfold ConnOps.with_bridge_path. eapply quic_triple_bind.
    + eapply log_triple_weaken; [apply triple_writev| |intros r st Hx; exact Hx].
      by intros st [? _].
    + intros rs. eapply quic_triple_bind.
      * eapply quic_triple_modify; [done|]. intros st Hst.
        instantiate (1 := λ r st, r = Ok () ∧ to_commit stream staged (Ok rs) st).
        split; [done|]. destruct Hst as (rs' & [= <-] & Hst). exists rs. split; [done|].
        destruct staged; exact Hst.
      * intros []. apply quic_triple_ret. by intros st [_ ?].
      * by intros e st [[=] _].
    + intros e st (? & [=] & _).
  - intros rs. cbn beta iota. eapply quic_triple_bind; [|intros []|].
    + eapply quic_triple_modify; [intros s; cbn; by destruct (bool_decide _)|]. intros st (rs' & [= <-] & Hst).
      instantiate (1 := λ _, safe). unfold safe, log. cbn.
      destruct staged as [[q len]|]; cbn.
      * exact Hst.
      * exact Hst.
    + apply keeps_ifs_submit.
      * apply quic_keeps_then; [by apply quic_keeps_native|]. intros _.
        apply keeps_ifs_submit; apply quic_keeps_ret.
      * apply keeps_ifs_submit.
        { apply quic_keeps_then; [by apply keeps_rv_of|]. intros. apply quic_keeps_ret. }
        repeat (apply keeps_ifs_submit); try apply quic_keeps_ret; apply quic_keeps_throw.
    + done.
Qed.

Lemma stage_many_spec stream ranges limit h r r' staged complete :
  RetainedOps.stage_many_bounded stream ranges limit r = (r', (staged, complete)) →
  valid stream → rel None h r →
  match staged with
  | Some (p, len) => ∃ k,
      rel (Some (stream, k)) h r' ∧ p = PayloadOps.ptr (c_data k) ∧ len = c_len k ∧
      RetainedOps.copy_prefix ranges len [] = PayloadOps.bytes_of (c_data k)
  | None => rel None h r'
  end.
Proof.
  unfold RetainedOps.stage_many_bounded. rewrite offered_len_spec.
  set (total := Z.to_nat _). case_decide as Ht; [by intros [= <- <- <-]|].
  intros [= <- <- <-] Hs Hr.
  assert (length (RetainedOps.copy_prefix ranges total []) = total) as Hlen.
  { rewrite copy_prefix_spec by (cbn; lia). cbn. rewrite length_take.
    unfold total in *. lia. }
  clearbody total. set (k := mkChunk (Copied (boxes r) (RetainedOps.copy_prefix ranges total []))
    (next_offset (RetainedOps.entry stream r)) total).
  exists k. split_and!; cbn; unfold PayloadOps.len; cbn; try done; [|by rewrite Hlen].
  apply rel_stage; cbn; unfold PayloadOps.len; cbn; try done. lia.
Qed.

Lemma stage_owned_spec stream b h r r' staged :
  RetainedOps.stage_owned stream b r = (r', staged) → valid stream → rel None h r →
  match staged with
  | Some (p, len) => ∃ k,
      rel (Some (stream, k)) h r' ∧ p = PayloadOps.ptr (c_data k) ∧ len = c_len k ∧
      Bytes.as_slice b = PayloadOps.bytes_of (c_data k)
  | None => rel None h r'
  end.
Proof.
  unfold RetainedOps.stage_owned. case_decide as Ht; [by intros [= <- <-]|].
  intros [= <- <-] Hs Hr.
  set (k := mkChunk (OwnedPayload b) (next_offset (RetainedOps.entry stream r)) (Bytes.len b)).
  exists k. split_and!; [|done..]. apply rel_stage; try done. change (0 < Bytes.len b)%nat. lia.
Qed.
End Triples.

Section Runs.
Context `{R : Recorded, Ngtcp2Defaults, Owners, EntropySources, TlsSessions} {C : Type}.
Abbreviation St := (ConnOps.St (C:=C)).
Implicit Types (st : ConnOps.St (C:=C)).
Abbreviation keeps m := (triple (C:=C) safe m (λ _, safe)).

Lemma keeps_write_stream_vectored n s ranges fin now :
  valid s → keeps (ConnOps.write_stream_vectored n s ranges fin now).
Proof.
  intros Hs. unfold ConnOps.write_stream_vectored.
  case_decide; [apply quic_keeps_throw|].
  apply quic_keeps_then.
  { apply quic_keeps_then; [by apply keeps_rv_of|]. intros. apply quic_keeps_ret. }
  intros limit. eapply quic_triple_bind; [apply quic_triple_gets| |by intros ? ? [? [=]]].
  intros r. destruct (RetainedOps.stage_many_bounded s ranges limit r) as [r' [staged complete]] eqn:Hst.
  eapply quic_triple_bind.
  - apply quic_triple_modify with (Q := λ x st, x = Ok () ∧ staged_at s staged
      match staged with Some (_, len) => RetainedOps.copy_prefix ranges len [] | None => [] end st);
      [done|].
    intros st [Hsafe [= ->]]. split; [done|].
    pose proof (stage_many_spec _ _ _ _ _ _ _ _ Hst Hs Hsafe) as Hspec.
    unfold staged_at, safe, log. cbn. by destruct staged as [[p len]|].
  - intros []. eapply log_triple_weaken; [apply triple_submit| |done]. by intros st [_ ?].
  - by intros ? ? [[=] _].
Qed.

Lemma keeps_write_stream_owned n s b fin now :
  valid s → keeps (ConnOps.write_stream_owned n s b fin now).
Proof.
  intros Hs. unfold ConnOps.write_stream_owned. case_decide; [apply quic_keeps_throw|].
  eapply quic_triple_bind; [apply quic_triple_gets| |by intros ? ? [? [=]]].
  intros r. destruct (RetainedOps.stage_owned s b r) as [r' staged] eqn:Hst.
  eapply quic_triple_bind.
  - apply quic_triple_modify with
      (Q := λ x st, x = Ok () ∧ staged_at s staged (Bytes.as_slice b) st); [done|].
    intros st [Hsafe [= ->]]. split; [done|].
    pose proof (stage_owned_spec _ _ _ _ _ _ Hst Hs Hsafe) as Hspec.
    unfold staged_at, safe, log. cbn. by destruct staged as [[p len]|].
  - intros []. eapply quic_triple_bind.
    + eapply log_triple_weaken; [apply triple_submit| |intros r0 st Hx; exact Hx].
      by intros st [_ ?].
    + intros o. apply quic_keeps_ret.
    + done.
  - by intros ? ? [[=] _].
Qed.

Lemma keeps_write_pkt n now : keeps (ConnOps.write_pkt n now).
Proof.
  unfold ConnOps.write_pkt. case_decide; [apply quic_keeps_throw|].
  eapply quic_triple_bind; [apply quic_triple_gets| |by intros ? ? [? [=]]]. intros p.
  eapply log_triple_weaken; [|by intros st [? _]|intros ? ? Hx; exact Hx].
  apply quic_keeps_then; [by apply quic_keeps_packet_path|]. intros r. apply keeps_ifs_submit.
  - apply quic_keeps_then; [by apply quic_keeps_native|]. intros. apply quic_keeps_ret.
  - repeat (apply keeps_ifs_submit); try apply quic_keeps_ret; apply quic_keeps_throw.
Qed.

Lemma keeps_read_pkt d now : keeps (ConnOps.read_pkt d now).
Proof.
  unfold ConnOps.read_pkt. destruct d; [apply quic_keeps_throw|].
  eapply quic_triple_bind; [apply quic_triple_gets| |by intros ? ? [? [=]]]. intros p.
  eapply log_triple_weaken; [|by intros st [? _]|intros ? ? Hx; exact Hx].
  apply quic_keeps_then; [by apply quic_keeps_packet|]. intros r.
  repeat (apply keeps_ifs_submit); try apply quic_keeps_ret; apply quic_keeps_throw.
Qed.

Lemma keeps_handle_expiry now : keeps (ConnOps.handle_expiry now).
Proof.
  apply quic_keeps_then; [by apply quic_keeps_packet|]. intros r.
  repeat (apply keeps_ifs_submit); try apply quic_keeps_ret; apply quic_keeps_throw.
Qed.

Lemma keeps_write_close_with n e now : keeps (ConnOps.write_close_with n e now).
Proof.
  unfold ConnOps.write_close_with.
  eapply quic_triple_bind; [apply quic_triple_gets| |by intros ? ? [? [=]]]. intros p.
  eapply log_triple_weaken; [|by intros st [? _]|intros ? ? Hx; exact Hx].
  apply quic_keeps_then; [by apply quic_keeps_packet_path|]. intros r.
  apply keeps_ifs_submit; [apply quic_keeps_throw|apply quic_keeps_ret].
Qed.

Lemma keeps_open_stream rq ctx : plain_request rq → keeps (ConnOps.open_stream rq ctx).
Proof.
  intros Hp. apply quic_keeps_then; [by apply quic_keeps_native|]. intros r.
  apply keeps_ifs_submit; [apply quic_keeps_throw|apply quic_keeps_lift].
Qed.

Lemma quic_keeps_checked rq ctx : plain_request rq → keeps (ConnOps.checked rq ctx).
Proof.
  intros Hp. apply quic_keeps_then; [by apply keeps_rv_of|]. intros rv.
  apply keeps_ifs_submit; [apply quic_keeps_throw|apply quic_keeps_ret].
Qed.

Lemma keeps_run_native rq : plain_request rq → keeps (ConnOps.run_native rq).
Proof. intros Hp. apply quic_keeps_then; [by apply quic_keeps_native|]. intros. apply quic_keeps_ret. Qed.

Lemma keeps_scids : keeps ConnOps.scids.
Proof.
  apply quic_keeps_then; [by apply keeps_rv_of|]. intros n.
  apply keeps_ifs_submit; [apply quic_keeps_ret|].
  apply quic_keeps_then; [by apply quic_keeps_native|]. intros. apply quic_keeps_ret.
Qed.

Lemma keeps_unit_of {A} (m : ConnOps.M A) : keeps m → keeps (unit_of m).
Proof. intros Hm. apply quic_keeps_then; [done|]. intros. apply quic_keeps_ret. Qed.

Lemma op_run_keeps o : op_ok o → keeps (op_run o).
Proof.
  intros Ho. destruct o; cbn [op_run];
    first [by apply quic_keeps_checked|by apply keeps_run_native|apply keeps_unit_of].
  - apply keeps_read_pkt.
  - apply keeps_write_pkt.
  - by apply keeps_write_stream_vectored.
  - by apply keeps_write_stream_owned.
  - unfold ConnOps.write_transport_close. case_decide; [apply quic_keeps_throw|].
    apply keeps_write_close_with.
  - unfold ConnOps.write_connection_close. case_decide; [apply quic_keeps_throw|].
    apply keeps_write_close_with.
  - apply keeps_handle_expiry.
  - by apply keeps_open_stream.
  - by apply keeps_open_stream.
  - apply quic_keeps_then; [by apply keeps_rv_of|]. intros. apply quic_keeps_ret.
  - apply keeps_scids.
  - apply quic_keeps_then; [by apply quic_keeps_native|]. intros. apply quic_keeps_ret.
Qed.

Lemma quic_run_ops os st :
  Forall op_ok os →
  (∃ more, log (run_ops os st) = log st ++ more) ∧
  (library_ok (log (run_ops os st)) → safe st → safe (run_ops os st)).
Proof.
  intros Ho. revert st. induction Ho as [|o os Ho _ IH]; intros st; cbn [run_ops].
  - split; [exists []; by rewrite app_nil_r|done].
  - destruct (op_run o st) as [st1 r] eqn:Hr. cbn [fst].
    destruct (op_run_keeps o Ho _ _ _ Hr) as [[more1 Hl1] H1'].
    destruct (IH st1) as [[more2 Hl2] H2']. split.
    + exists (more1 ++ more2). by rewrite Hl2, Hl1, (assoc_L (++)).
    + intros Hlib Hsafe. apply H2'; [done|]. apply H1'; [|done]. rewrite Hl2 in Hlib.
      by apply quic_library_ok_app in Hlib.
Qed.

Lemma keeps_bind_tls : keeps ConnOps.bind_tls.
Proof.
  apply quic_keeps_then; [by apply quic_keeps_native|]. intros _.
  eapply quic_triple_bind; [apply quic_triple_gets| |by intros ? ? [? [=]]]. intros role.
  eapply log_triple_weaken; [|by intros st [? _]|intros ? ? Hx; exact Hx].
  case_decide; [|apply quic_keeps_ret].
  apply quic_keeps_then; [|intros rv; apply keeps_ifs_submit;
    [apply quic_keeps_throw|apply quic_keeps_ret]].
  assert (Henc : keeps ConnOps.encode_local_params).
  { apply quic_keeps_then; [by apply quic_keeps_native|]. intros r1.
    apply keeps_ifs_submit; [apply quic_keeps_ret|].
    apply keeps_ifs_submit; [apply quic_keeps_throw|].
    apply quic_keeps_then; [by apply quic_keeps_native|]. intros r2.
    apply keeps_ifs_submit; [apply quic_keeps_throw|apply quic_keeps_ret]. }
  intros st st' r. unfold ConnOps.set_client_local_params.
  destruct (ConnOps.encode_local_params st) as [[s c] [params|e]] eqn:He;
    destruct (Henc _ _ _ He) as [Hl Hs].
  - destruct (set_local_transport_params _ _) as [t ok]. by intros [= <- <-].
  - by intros [= <- <-].
Qed.

(** A connection as built. *)
Lemma quic_build_safe tgt b h c c' s :
  ConnOps.build (C:=C) tgt b h c = (c', Ok s) → library_ok (log (s, c')) → safe (s, c').
Proof.
  unfold ConnOps.build. destruct (Validate.server_version _ _); [|done].
  destruct (if is_server (cb_role b) && bool_decide (cb_dcid b = None) then _ else _)
    as [e1 [dcid|]]; [|done].
  destruct (ConnOps.or_generate _ _ _) as [e2 [scid|]]; [|done].
  destruct (SettingsOps.build _) as [[settings ?]|]; [|done].
  destruct (ParamsOps.build _ _) as [params|]; [|done].
  destruct (ngtcp2_conn_new _ _ _ _) as [w [raw|]] eqn:Hnew; [|done].
  case_match; [done|]. set (s0 := mkConn _ _ _ _ _ _ _ _).
  destruct (ConnOps.bind_tls (s0, c)) as [[s1 c1] [[]|err]] eqn:Hb; [|done].
  intros [= <- <-] Hlib. apply (keeps_bind_tls _ _ _ Hb); [done|].
  assert (log (s0, c) = []) as Hl by exact (calls_of_new _ _ _ _ _ _ Hnew).
  unfold safe. rewrite Hl. apply rel_initial.
Qed.
End Runs.

(** ** What a write hands over *)

Section Handed.
Context `{R : Recorded, Ngtcp2Defaults, Owners, EntropySources, TlsSessions} {C : Type}.
Implicit Types (st : ConnOps.St (C:=C)).

Lemma native_call_log rq st st' r :
  ConnOps.native_call rq st = (st', r) →
  ∃ tr rs, r = Ok rs ∧ log st' = log st ++ [mkCall rq tr rs] ∧ retained st'.1 = retained st.1.
Proof.
  destruct st as [s c]. unfold ConnOps.native_call.
  destruct (ngtcp2_call _ _ _ _ _) as [[raw' w] rs] eqn:Hcall. intros [= <- <-].
  destruct (calls_of_call _ _ _ _ _ _ _ _ Hcall) as (tr & Hlog & _). eauto.
Qed.

(** What follows the write in the log. *)
Definition after_write (rq : request) : Prop :=
  match rq with ReqUpdatePktTxTime _ | ReqGetMaxDataLeft => True | _ => False end.

(** How the outcome accounts for what the library took. *)
Definition accounts (rs : response) (r : Result StreamWrite) : Prop :=
  match r with
  | Ok (StreamDatagram len accepted) =>
      accepted = taken_of rs ∧ len = Z.to_nat (rs_rv rs) ∧ 0 < rs_rv rs ∧ 0 <= rs_out rs
  | Ok (DatagramWithoutStream len) =>
      taken_of rs = 0%nat ∧ len = Z.to_nat (rs_rv rs) ∧ 0 < rs_rv rs ∧ rs_out rs < 0
  | _ => taken_of rs = 0%nat ∧ rs_rv rs <= 0
  end.

Definition outcome_of {A} (r : Result (StreamWrite * A)) : Result StreamWrite :=
  match r with Ok (o, _) => Ok o | Err e => Err e end.

Lemma submit_log n s staged contents flags now st st' r :
  ConnOps.submit_one_vec n s staged contents flags now st = (st', r) →
  ∃ p tr rs rest,
    log st' = log st ++ mkCall (ReqWritevStream p n flags s (vec_of staged contents) now) tr rs
                :: rest ∧
    Forall (λ c, after_write (c_request c)) rest ∧ accounts rs (outcome_of r).
Proof.
  unfold ConnOps.submit_one_vec, ConnOps.with_bridge_path, ConnOps.bind, ConnOps.gets.
  destruct (ConnOps.with_bridge _ st) as [st1 r1] eqn:Hw.
  destruct (with_bridge_runs _ _ _ _ Hw) as (tr & rs & w & w' & -> & Hl & _ & _ & _).
  unfold ConnOps.modify, ConnOps.ret. cbn beta iota. set (st2 := (_, st1.2)).
  assert (log st2 = log st1) as Hl2 by done. clearbody st2.
  set (st3 := (_, st2.2)).
  assert (log st3 = log st2) as Hl3 by (unfold log, st3; cbn; by destruct (bool_decide _)).
  clearbody st3.
  assert (Hlog : log st3 = log st ++
    [mkCall (ReqWritevStream (path st.1) n flags s (vec_of staged contents) now) tr rs])
    by (by rewrite Hl3, Hl2, Hl).
  intros Hr. exists (path st.1), tr, rs. revert Hr. unfold accounts, taken_of.
  destruct (Z.ltb_spec 0 (rs_rv rs)) as [Hrv|Hrv]; cbn [andb].
  - destruct (ConnOps.native_call _ st3) as [st4 r4] eqn:Hn.
    destruct (native_call_log _ _ _ _ Hn) as (tr4 & rs4 & -> & Hl4 & _).
    destruct (Z.leb_spec 0 (rs_out rs)) as [Ho|Ho]; cbn [negb]; intros [= <- <-]; cbn;
      (exists [mkCall (ReqUpdatePktTxTime now) tr4 rs4]; split_and!; [by rewrite Hl4, Hlog, <- (assoc_L (++))|by repeat constructor|..]; lia || done).
  - destruct (_ =? 0) eqn:Hz.
    + unfold ConnOps.rv_of, ConnOps.bind.
      destruct (ConnOps.native_call _ st3) as [st4 r4] eqn:Hn.
      destruct (native_call_log _ _ _ _ Hn) as (tr4 & rs4 & -> & Hl4 & _).
      intros [= <- <-]. exists [mkCall ReqGetMaxDataLeft tr4 rs4].
      split; [by rewrite Hl4, Hlog, <- (assoc_L (++))|].
      split; [by repeat constructor|]. cbn. by destruct (rs_rv rs4 =? 0).
    + intros Hr. exists [].
      assert (st' = st3 ∧ (∀ len a, outcome_of r ≠ Ok (StreamDatagram len a)) ∧
        (∀ len, outcome_of r ≠ Ok (DatagramWithoutStream len))) as (-> & Hd & Hw').
      { repeat case_match; injection Hr as <- <-; by cbn. }
      split; [done|]. split; [constructor|].
      destruct (outcome_of r) as [[len a|len| | | |]|]; try (by split);
        [by destruct (Hd len a)|by destruct (Hw' len)].
Qed.
End Handed.

(** ** The guarantees *)

Section Guarantees.
Context `{R : Recorded, Ngtcp2Defaults, Owners, EntropySources, TlsSessions} {C : Type}.

(** C7. Sent bytes outlive their use.  Whatever operations are called on a connection, as long
    as ngtcp2 acknowledges only what it accepted and accepts only what it was offered: what is
    retained for each stream is exactly what ngtcp2 still holds of it, range by range -- the
    same offsets, the same pointers, and behind them the bytes that were offered -- so nothing
    is released too early and nothing is kept after it was acknowledged or its stream closed. *)
Theorem pointers_outlive_use tgt b h c c' s os :
  ConnOps.build (C:=C) tgt b h c = (c', Ok s) → Forall op_ok os →
  library_ok (log (run_ops os (s, c'))) →
  let st := run_ops os (s, c') in
  ∀ stream, is_ok (StreamId.new stream) = true →
    view <$> chunks (RetainedOps.entry stream (retained st.1)) =
      (at_stream (held (log st)) stream).1 ∧
    next_offset (RetainedOps.entry stream (retained st.1)) =
      (at_stream (held (log st)) stream).2 ∧
    Forall (λ k, c_len k ≤ PayloadOps.len (c_data k))%nat
      (chunks (RetainedOps.entry stream (retained st.1))).
Proof.
  intros Hb Ho Hlib st stream Hs.
  destruct (quic_run_ops os (s, c') Ho) as [[more Hl] Hsafe].
  destruct (Hsafe Hlib) as [Hv Hn Hlen _ _].
  { eapply quic_build_safe; [done|]. rewrite Hl in Hlib. by apply quic_library_ok_app in Hlib. }
  split_and!; [|by apply Hn|].
  - rewrite Hv by done. by rewrite app_nil_r.
  - eapply Forall_impl; [by apply Hlen|]. by intros k [].
Qed.
(** An owned write offers its bytes and nothing else, ends the stream exactly when asked,
    and hands back what the library did not take: the bytes taken and the bytes handed back
    are those offered, in order, on every outcome. *)
Theorem owned_write_exact n s d fin now (st st' : ConnOps.St (C:=C)) r :
  n ≠ 0%nat → handle_ok d →
  ConnOps.write_stream_owned n s d fin now st = (st', r) →
  ∃ p v tr rs rest,
    log st' = log st ++ mkCall
      (ReqWritevStream p n
         (if fin then NGTCP2_WRITE_STREAM_FLAG_FIN else NGTCP2_WRITE_STREAM_FLAG_NONE) s v now)
      tr rs :: rest ∧
    Forall (λ c, after_write (c_request c)) rest ∧
    v_bytes v = Bytes.as_slice d ∧ v_len v = length (Bytes.as_slice d) ∧
    match r with
    | Ok (o, _) => accounts rs (Ok (outcome o)) ∧
                   take (taken_of rs) (Bytes.as_slice d) ++ Bytes.as_slice (unsent o)
                     = Bytes.as_slice d
    | Err _ => taken_of rs = 0%nat
    end.
Proof.
  intros Hn Hd. unfold ConnOps.write_stream_owned. rewrite decide_False by done.
  unfold ConnOps.bind, ConnOps.gets, ConnOps.modify.
  destruct (RetainedOps.stage_owned s d _) as [r' staged] eqn:Hst.
  set (st1 := (_, st.2)). assert (log st1 = log st) as Hl1 by done. clearbody st1.
  destruct (ConnOps.submit_one_vec _ _ _ _ _ _ st1) as [st2 r2] eqn:Hs.
  destruct (submit_log _ _ _ _ _ _ _ _ _ Hs) as (p & tr & rs & rest & Hl & Hrest & Hacc).
  rewrite Hl1 in Hl. intros Hr. exists p, (vec_of staged (Bytes.as_slice d)), tr, rs, rest.
  assert (st' = st2) as -> by (by destruct r2; injection Hr as <- <-).
  split_and!; [done|done|..].
  - unfold RetainedOps.stage_owned in Hst. case_decide as He; injection Hst as <- <-; [|done].
    cbn. unfold Bytes.len in He. by apply nil_length_inv in He.
  - unfold RetainedOps.stage_owned in Hst. case_decide as He; injection Hst as <- <-; [|done].
    done.
  - destruct r2 as [[o dg]|e]; injection Hr as <-; cbn [outcome_of outcome fst] in *.
    2:{ by destruct Hacc. }
    split; [done|]. cbn [unsent].
    set (k := match o with StreamDatagram _ accepted => accepted | _ => 0%nat end).
    assert (taken_of rs = k) as -> by (by destruct o, Hacc).
    assert (Bytes.as_slice (Bytes.split_to d k).2 = drop k (Bytes.as_slice d)) as Hsp
      by (pose proof (split_to_exact d k Hd) as Hsp; destruct (Bytes.split_to d k); apply Hsp).
    match goal with |- ?a ++ Bytes.as_slice ?b = _ => change b with (Bytes.split_to d k).2 end.
    rewrite Hsp. apply take_drop.
Qed.

(** A borrowed write offers the longest prefix of its ranges that one packet can carry,
    and ends the stream only with the last byte it was given: the FIN flag is passed exactly
    when it was asked for and nothing was left out. *)
Theorem vectored_write_exact n s ranges fin now (st st' : ConnOps.St (C:=C)) r :
  n ≠ 0%nat → Z.of_nat (length (concat ranges)) ≤ U64_MAX →
  ConnOps.write_stream_vectored n s ranges fin now st = (st', r) →
  ∃ p v tr0 rs0 tr rs rest,
    let limit := Z.to_nat (rs_rv rs0) in
    log st' = log st ++ mkCall ReqGetPathMaxTxUdpPayloadSize tr0 rs0 :: mkCall
      (ReqWritevStream p n
         (if fin && bool_decide (length (concat ranges) ≤ limit)%nat
          then NGTCP2_WRITE_STREAM_FLAG_FIN else NGTCP2_WRITE_STREAM_FLAG_NONE) s v now)
      tr rs :: rest ∧
    Forall (λ c, after_write (c_request c)) rest ∧
    v_bytes v = take limit (concat ranges) ∧ v_len v = length (v_bytes v) ∧
    accounts rs (outcome_of r).
Proof.
  intros Hn Hu. unfold ConnOps.write_stream_vectored. rewrite decide_False by done.
  unfold ConnOps.max_tx_udp_payload_size, ConnOps.rv_of, ConnOps.bind, ConnOps.gets,
    ConnOps.modify.
  destruct (ConnOps.native_call _ st) as [st0 r0] eqn:Hn0.
  destruct (native_call_log _ _ _ _ Hn0) as (tr0 & rs0 & -> & Hl0 & _). cbn [ConnOps.ret].
  set (limit := Z.to_nat (rs_rv rs0)).
  destruct (RetainedOps.stage_many_bounded s ranges limit _) as [r' [staged complete]] eqn:Hst.
  set (st1 := (_, st0.2)). assert (log st1 = log st0) as Hl1 by done. clearbody st1.
  intros Hs. destruct (submit_log _ _ _ _ _ _ _ _ _ Hs) as (p & tr & rs & rest & Hl & Hrest & Hacc).
  set (v := vec_of _ _) in Hl. exists p, v, tr0, rs0, tr, rs, rest.
  unfold RetainedOps.stage_many_bounded in Hst. rewrite offered_len_spec in Hst.
  rewrite (Z.min_l _ U64_MAX) in Hst by exact Hu.
  assert (complete = bool_decide (length (concat ranges) ≤ limit)%nat ∧
    v_bytes v = take limit (concat ranges) ∧ v_len v = length (v_bytes v)) as (Hc & Hv & Hvl).
  { case_decide as Ht; injection Hst as <- <- <-.
    - cbn. split; [apply bool_decide_ext; lia|]. split; [|done].
      destruct (decide (limit = 0%nat)) as [->|]; [done|].
      rewrite (nil_length_inv (concat ranges)) by lia. by rewrite take_nil.
    - cbn [v vec_of PayloadOps.ptr_and_len v_bytes v_len c_data].
      set (total := Z.to_nat (Z.min _ (Z.of_nat limit))) in *.
      assert (RetainedOps.copy_prefix ranges total [] = take total (concat ranges)) as Hcp
        by (by rewrite copy_prefix_spec by (cbn; lia)).
      assert (length (take total (concat ranges)) = total) as Hlen
        by (rewrite length_take; unfold total; lia).
      unfold PayloadOps.len. cbn [PayloadOps.bytes_of]. rewrite Hcp, Hlen, Hcp, Hlen.
      split; [unfold total; apply bool_decide_ext; lia|]. split; [|done].
      destruct (decide (length (concat ranges) ≤ limit)%nat).
      + rewrite !take_ge; [done|lia|unfold total; lia].
      + f_equal. unfold total. lia. }
  split_and!; try done. cbn zeta. rewrite Hl, Hl1, Hl0, <- (assoc_L (++)). cbn.
  unfold ConnOps.stream_flags. by rewrite Hc.
Qed.
End Guarantees.

(** ** A library, concretely *)

(** Checking a log from the front. *)
Fixpoint trace_holds (h : gmap Z holding) (tr : trace) : Prop :=
  match tr with
  | [] => True
  | ev :: tr => event_ok h ev ∧ trace_holds (hold_event h ev) tr
  end.

Definition call_holds (h : gmap Z holding) (c : call) : Prop :=
  match c_request c with
  | ReqReadPkt _ _ _ | ReqWritePkt _ _ _ | ReqWriteConnectionClose _ _ _ _
  | ReqHandleExpiry _ => trace_holds h (c_trace c)
  | ReqWritevStream _ _ _ s v _ =>
      trace_holds h (c_trace c) ∧
      (0 < rs_rv (c_response c) → 0 < rs_out (c_response c) →
         rs_out (c_response c) ≤ Z.of_nat (v_len v) ∧
         existsb (closes s) (c_trace c) = false)
  | _ => call_ok h c
  end.

Fixpoint log_holds (h : gmap Z holding) (cs : list call) : Prop :=
  match cs with
  | [] => True
  | c :: cs => call_holds h c ∧ log_holds (hold_call h c) cs
  end.

Lemma trace_holds_ok h tr : trace_holds h tr → trace_ok h tr.
Proof.
  intros Ht tr1. revert h tr Ht. induction tr1 as [|e tr1 IH]; intros h tr Ht ev tr2 ->.
  - by destruct Ht.
  - destruct Ht as [_ Ht]. by apply (IH _ _ Ht ev tr2).
Qed.

Lemma quic_log_holds_ok cs : log_holds ∅ cs → library_ok cs.
Proof.
  intros Hc cs1. unfold held. revert Hc. generalize (∅ : gmap Z holding).
  revert cs. induction cs1 as [|c1 cs1 IH]; intros cs h Hc c cs2 ->; cbn.
  - destruct Hc as [Hc _]. unfold call_holds, call_ok in *.
    destruct (c_request c); try done; try (by apply trace_holds_ok).
    destruct Hc as [Ht Hle]. split; [by apply trace_holds_ok|done].
  - destruct Hc as [_ Hc]. by apply (IH _ _ Hc c cs2).
Qed.

Module Toy.

(** A server's ngtcp2 that takes at most five octets in a packet, and whose peer acknowledges
    all there is of the first stream whenever a packet is read. *)
Definition conn : Type := Z.

Definition nowhere : ccerr := mkCcerr 0 0 0 None.

Definition answer (rq : request) (B : Type) (cb : B → callback → B * cb_answer) (n : conn)
    (b : B) : conn * B * response :=
  match rq with
  | ReqReadPkt p _ _ =>
      (n, (cb b (CbAckedStreamDataOffset 0 0 n)).1, mkResponse 0 0 [] p [] nowhere)
  | ReqWritevStream p _ _ _ v _ =>
      let taken := Z.min 5 (Z.of_nat (v_len v)) in
      (n + taken, b, mkResponse 30 taken (replicate 30 x00) p [] nowhere)
  | ReqGetPathMaxTxUdpPayloadSize => (n, b, mkResponse 1200 0 [] (Path.mkPath [] []) [] nowhere)
  | _ => (n, b, mkResponse 0 0 [] (Path.mkPath [] []) [] nowhere)
  end.

Definition library : Ngtcp2 := {|
  ngtcp2_codes := ToyCodes.codes;
  ngtcp2_conn := conn;
  ngtcp2_conn_new _ B cb b := (b, Ok 0);
  ngtcp2_call := answer;
  ngtcp2_ccerr_set_liberr rv r := mkCcerr 0 rv 0 (Some r);
  ngtcp2_ccerr_set_application_error c r := mkCcerr 1 c 0 (Some r)
|}.

#[local] Existing Instance ToyCodes.defaults.
#[local] Existing Instance ToyCodes.sources.
#[local] Instance owners : Owners := {| lend := λ n, replicate n x61 |}.
#[local] Instance sessions : TlsSessions := {|
  tls_session := unit;
  set_local_transport_params := λ t _, (t, true);
  session_negotiated_alpn := λ _, None
|}.
#[local] Existing Instance quic_logged_recorded.
#[local] Instance toy : Ngtcp2 := @logged library.

Definition target : Target := mkTarget Linux false.
Definition here : SocketAddr := V4 (map Zb [127; 0; 0; 1]) 4433.
Definition silent : Handlers nat :=
  mkHandlers None None None None None None None None None None None.
Definition builder : ConnBuilder :=
  ConnOps.builder_new Client (SettingsOps.new 0) ParamsOps.new 0%nat () here here.

(** Twelve octets of an owned body: five are taken, and acknowledged, then five more. *)
Definition body : OwnedBytes := Bytes.new 7 (ascii_bytes "hello world!").

Definition script : list op :=
  [OWriteOwned 1200 0 body true 1; OReadPkt (ascii_bytes "ack") 2;
   OWriteOwned 1200 0 (Bytes.split_to body 5).2 true 3;
   OWriteStream 1200 4 [ascii_bytes "abc"; ascii_bytes "defg"] false 4].

Definition built : Conn ngtcp2_conn nat :=
  match ConnOps.build target builder silent 0%nat with
  | (_, Ok s) => s
  | (_, Err _) => mkConn (mkLogged (N:=library) 0 []) () silent (mkRand 0%nat false)
      (Path.mkPath [] []) Client (mkCid 0 []) RetainedOps.initial
  end.

Definition ended : ConnOps.St (C:=nat) := run_ops script (built, 0%nat).

Lemma quic_built_ok : ConnOps.build target builder silent 0%nat = (0%nat, Ok built).
Proof.
  assert ((ConnOps.build target builder silent 0%nat).1 = 0%nat) as H1 by (vm_compute; reflexivity).
  assert (is_ok (ConnOps.build target builder silent 0%nat).2 = true) as H2
    by (vm_compute; reflexivity).
  unfold built. destruct (ConnOps.build _ _ _ _) as [c [s|e]]; [|done]. by cbn in H1; subst.
Qed.

Lemma quic_ended_ok : library_ok (log (run_ops script (built, 0%nat))).
Proof.
  apply quic_log_holds_ok. vm_compute. repeat split; try (by intros; discriminate).
Qed.

Lemma script_ok : Forall (op_ok) script.
Proof. repeat constructor. Qed.

(** The range on the first stream starts where the acknowledged one ended, and points into the
    caller's buffer. *)
Lemma pointers_outlive_use_witness :
  view <$> chunks (RetainedOps.entry 0 (retained ended.1)) = (at_stream (held (log ended)) 0).1 ∧
  (at_stream (held (log ended)) 0).1 =
    [mkRange 5 5 (Bytes.store_buffer (store body), 5%nat) (ascii_bytes " worl")].
Proof.
  split; [|vm_compute; reflexivity].
  exact (proj1 (pointers_outlive_use target builder silent 0%nat 0%nat built script quic_built_ok
                  script_ok quic_ended_ok 0 eq_refl)).
Defined.

Lemma owned_write_exact_witness :
  ∃ o w, (ConnOps.write_stream_owned 1200 0 body true 1 (built, 0%nat)).2 = Ok (o, w) ∧
    outcome o = StreamDatagram 30 5 ∧
    take 5 (Bytes.as_slice body) ++ Bytes.as_slice (unsent o) = Bytes.as_slice body.
Proof.
  destruct (owned_write_exact 1200 0 body true 1 (built, 0%nat)
    (ConnOps.write_stream_owned 1200 0 body true 1 (built, 0%nat)).1
    (ConnOps.write_stream_owned 1200 0 body true 1 (built, 0%nat)).2)
    as (p & v & tr & rs & rest & _ & _ & _ & _ & Hr).
  - done.
  - split; vm_compute; lia.
  - apply surjective_pairing.
  - destruct (_.2) as [[o w]|e] eqn:E; [|vm_compute in E; discriminate].
    exists o, w. destruct Hr as [Ha Hb].
    assert (outcome o = StreamDatagram 30 5) as Ho
      by (vm_compute in E; injection E as <- <-; reflexivity).
    rewrite Ho in Ha. cbn in Ha. destruct Ha as [Ha _]. rewrite <- Ha in Hb.
    split; [reflexivity|split; [exact Ho|exact Hb]].
Defined.

Lemma vectored_write_exact_witness :
  ∃ v, v_bytes v = take 1200 (ascii_bytes "abcdefg") ∧ v_len v = length (v_bytes v).
Proof.
  destruct (vectored_write_exact 1200 4 [ascii_bytes "abc"; ascii_bytes "defg"] true 4
    (built, 0%nat)
    (ConnOps.write_stream_vectored 1200 4 [ascii_bytes "abc"; ascii_bytes "defg"] true 4
       (built, 0%nat)).1
    (ConnOps.write_stream_vectored 1200 4 [ascii_bytes "abc"; ascii_bytes "defg"] true 4
       (built, 0%nat)).2)
    as (p & v & tr0 & rs0 & tr & rs & rest & Hl & _ & Hv & Hn & _).
  - done.
  - vm_compute. discriminate.
  - apply surjective_pairing.
  - exists v. split; [|exact Hn]. rewrite Hv. vm_compute in Hl.
    injection Hl as _ <-. reflexivity.
Defined.
End Toy.
