(* ===== verification/QuicMailbox.v ===== *)
(** * What a QUIC handle and its driver say to each other
      (crates/ngnet-quic/src/endpoint/{error,shared,connection}.rs)

    Connections live in the driver; a handle has a mailbox shared with it.  Mailboxes are
    shared by reference, so they live at addresses in a [World], with the endpoint's own
    shared state and the log of the wakers woken.  Each method that holds the lock throughout
    is one step; a future's [poll] takes what other tasks do between its steps as an argument.
    The diagnostics feature is off, and a poisoned lock is recovered from, so locking cannot
    fail. *)

From Stdlib Require Import ZArith Lia Strings.Byte.
From stdpp Require Import base list gmap strings.
From S2P Require Import Prelude QmuxScheduling QuicTypes QuicWire QuicConn.

(** ** endpoint/error.rs *)

Module EndpointError.

Inductive ErrorKind :=
| HandshakeRejected | HandshakeTimeout | IdleTimeout | PeerClosed | LocallyClosed | Transport
| Socket | DriverGone | Cancelled | Unsupported | InvalidInput | StreamReset | StreamStopped.

#[global] Instance EndpointErrorKind_eq_dec : EqDecision ErrorKind.
Proof. solve_decision. Defined.

Definition is_retriable (k : ErrorKind) : bool :=
  bool_decide (k = HandshakeTimeout ∨ k = IdleTimeout ∨ k = PeerClosed).

(** What caused it: the core's error, or a socket's, of which only the text is kept. *)
Inductive Source := Core (e : QuicTypes.Error) | SocketError (text : string).

Record Error := mkError {
  kind : ErrorKind;
  context : string;
  close : option CloseError;
  stream_code : option Z;
  source : option Source
}.

Definition new (k : ErrorKind) (ctx : string) : Error := mkError k ctx None None None.
Definition with_close (c : CloseError) (e : Error) : Error :=
  mkError (kind e) (context e) (Some c) (stream_code e) (source e).
Definition with_source (s : Source) (e : Error) : Error :=
  mkError (kind e) (context e) (close e) (stream_code e) (Some s).
Definition with_stream_code (c : Z) (e : Error) : Error :=
  mkError (kind e) (context e) (close e) (Some c) (source e).

(** [From<crate::error::Error>]. *)
Definition from (e : QuicTypes.Error) : Error :=
  let k :=
    match QuicTypes.kind e with
    | QuicTypes.InvalidInput => InvalidInput
    | QuicTypes.Closing => LocallyClosed
    | _ => Transport
    end in
  with_source (Core e) (new k "the transport failed").
End EndpointError.

(** ** endpoint/shared.rs *)

Inductive Observed :=
| Data (stream : Z) (bs : bytes) (fin : bool)
| Opened (stream : Z)
| LocallyOpened (stream : Z)
| Closed (stream : Z) (reason : StreamCloseReason)
| Reset (stream code : Z)
| StopSending (stream code : Z)
| Acked (stream len : Z)
| HandshakeCompleted
| StreamsExtended (max : Z).

Inductive RouteUpdate := Minted (cid : ConnectionId) | Retired (cid : ConnectionId).

Inductive Command :=
| OpenStreamCommand (bidi : bool)
| Write (stream : Z) (data : bytes) (fin : bool)
| ResetCommand (stream code : Z)
| StopSendingCommand (stream code : Z)
| Close (code : Z) (reason : bytes)
| ExtendCredit (stream n : Z).

Definition DATAGRAM_QUEUE : nat := 64.
Definition OUTBOUND_DATA_QUEUE : nat := DATAGRAM_QUEUE - 1.

Section Mailboxes.
Context `{Wakers}.

Record ConnectionInner := mkInner {
  observed : list Observed;
  failure : option EndpointError.Error;
  wakers : list Waker;
  capacity_wakers : list Waker;
  commands : list Command;
  inbound : list bytes;
  outbound : list bytes;
  close_outbound : option bytes;
  routes : list RouteUpdate;
  dropped : Z;
  terminal : bool
}.

(** [ConnectionShared]: what the lock protects, and the atomics. *)
Record ConnectionShared := mkShared {
  inner : ConnectionInner;
  closed : bool;
  established : bool;
  retained : Z;
  detach : bool;
  detach_to_acceptor : bool
}.

Record Dial := mkDial {
  d_remote : SocketAddr;
  d_server_name : option string;
  d_shared : nat
}.

(** [EndpointShared], with [EndpointInner]. *)
Record EndpointShared := mkEndpointShared {
  dials : list Dial;
  accepted : list nat;
  e_wakers : list Waker;
  driver_waker : option Waker;
  gone : bool;
  detached_accepts : bool
}.

Record World := mkWorld {
  mailboxes : gmap nat ConnectionShared;
  next_address : nat;
  endpoint : EndpointShared;
  woken : list Waker
}.
End Mailboxes.

(** *** Updates of a field *)

Module Fields.
Section Fields.
Context `{Wakers}.
Implicit Types (i : ConnectionInner) (s : ConnectionShared) (e : EndpointShared) (w : World).

Definition set_observed v i := mkInner v (failure i) (wakers i) (capacity_wakers i) (commands i)
  (inbound i) (outbound i) (close_outbound i) (routes i) (dropped i) (terminal i).
Definition set_failure v i := mkInner (observed i) v (wakers i) (capacity_wakers i) (commands i)
  (inbound i) (outbound i) (close_outbound i) (routes i) (dropped i) (terminal i).
Definition set_wakers v i := mkInner (observed i) (failure i) v (capacity_wakers i) (commands i)
  (inbound i) (outbound i) (close_outbound i) (routes i) (dropped i) (terminal i).
Definition set_capacity_wakers v i := mkInner (observed i) (failure i) (wakers i) v (commands i)
  (inbound i) (outbound i) (close_outbound i) (routes i) (dropped i) (terminal i).
Definition set_commands v i := mkInner (observed i) (failure i) (wakers i) (capacity_wakers i) v
  (inbound i) (outbound i) (close_outbound i) (routes i) (dropped i) (terminal i).
Definition set_inbound v i := mkInner (observed i) (failure i) (wakers i) (capacity_wakers i)
  (commands i) v (outbound i) (close_outbound i) (routes i) (dropped i) (terminal i).
Definition set_outbound v i := mkInner (observed i) (failure i) (wakers i) (capacity_wakers i)
  (commands i) (inbound i) v (close_outbound i) (routes i) (dropped i) (terminal i).
Definition set_close_outbound v i := mkInner (observed i) (failure i) (wakers i)
  (capacity_wakers i) (commands i) (inbound i) (outbound i) v (routes i) (dropped i) (terminal i).
Definition set_routes v i := mkInner (observed i) (failure i) (wakers i) (capacity_wakers i)
  (commands i) (inbound i) (outbound i) (close_outbound i) v (dropped i) (terminal i).
Definition set_dropped v i := mkInner (observed i) (failure i) (wakers i) (capacity_wakers i)
  (commands i) (inbound i) (outbound i) (close_outbound i) (routes i) v (terminal i).
Definition set_terminal v i := mkInner (observed i) (failure i) (wakers i) (capacity_wakers i)
  (commands i) (inbound i) (outbound i) (close_outbound i) (routes i) (dropped i) v.

Definition set_inner v s :=
  mkShared v (closed s) (established s) (retained s) (detach s) (detach_to_acceptor s).
Definition set_closed v s :=
  mkShared (inner s) v (established s) (retained s) (detach s) (detach_to_acceptor s).
Definition set_established v s :=
  mkShared (inner s) (closed s) v (retained s) (detach s) (detach_to_acceptor s).
Definition set_retained v s :=
  mkShared (inner s) (closed s) (established s) v (detach s) (detach_to_acceptor s).
Definition set_detach v s :=
  mkShared (inner s) (closed s) (established s) (retained s) v (detach_to_acceptor s).
Definition set_detach_to_acceptor v s :=
  mkShared (inner s) (closed s) (established s) (retained s) (detach s) v.

Definition set_dials v e := mkEndpointShared v (accepted e) (e_wakers e) (driver_waker e) (gone e)
  (detached_accepts e).
Definition set_accepted v e := mkEndpointShared (dials e) v (e_wakers e) (driver_waker e) (gone e)
  (detached_accepts e).
Definition set_e_wakers v e := mkEndpointShared (dials e) (accepted e) v (driver_waker e) (gone e)
  (detached_accepts e).
Definition set_driver_waker v e := mkEndpointShared (dials e) (accepted e) (e_wakers e) v (gone e)
  (detached_accepts e).
Definition set_gone v e := mkEndpointShared (dials e) (accepted e) (e_wakers e) (driver_waker e) v
  (detached_accepts e).
Definition set_detached_accepts v e := mkEndpointShared (dials e) (accepted e) (e_wakers e)
  (driver_waker e) (gone e) v.

Definition set_mailboxes v w := mkWorld v (next_address w) (endpoint w) (woken w).
Definition set_endpoint v w := mkWorld (mailboxes w) (next_address w) v (woken w).
Definition wake ws w := mkWorld (mailboxes w) (next_address w) (endpoint w) (woken w ++ ws).
End Fields.
End Fields.

(** *** ConnectionShared's methods, on the mailbox at an address *)

Definition default_inner `{Wakers} : ConnectionInner := mkInner [] None [] [] [] [] [] None [] 0 false.
Definition fresh `{Wakers} : ConnectionShared := mkShared default_inner false false 0 false false.

Module Mailbox.
Section Methods.
Context `{Wakers}.
Implicit Types (w : World) (a : nat) (i : ConnectionInner).
Import Fields.

Definition get a w : ConnectionShared := default fresh (mailboxes w !! a).
Definition lock a w : ConnectionInner := inner (get a w).
Definition update a (f : ConnectionShared → ConnectionShared) w : World :=
  set_mailboxes (alter f a (mailboxes w)) w.
Definition locked a (f : ConnectionInner → ConnectionInner) : World → World :=
  update a (λ s, set_inner (f (inner s)) s).

(** [EndpointShared::wake_driver]. *)
Definition wake_driver w : World :=
  wake (option_list (driver_waker (endpoint w)))
    (set_endpoint (set_driver_waker None (endpoint w)) w).

(** [ConnectionShared::new]. *)
Definition new w : World * nat :=
  (mkWorld (<[next_address w := fresh]> (mailboxes w)) (S (next_address w)) (endpoint w) (woken w),
   next_address w).

Definition observe a (ev : Observed) : World → World :=
  locked a (λ i, set_observed (observed i ++ [ev]) i).

Definition request_detach a : World → World := update a (set_detach true).
Definition request_detach_to_acceptor a : World → World :=
  update a (λ s, set_detach_to_acceptor true (set_detach true s)).
Definition wants_detach a w : bool := detach (get a w).
Definition detaches_to_acceptor a w : bool := detach_to_acceptor (get a w).

Definition observe_route a (u : RouteUpdate) w : World :=
  wake_driver (locked a (λ i, set_routes (routes i ++ [u]) i) w).
Definition take_routes a w : World * list RouteUpdate :=
  (locked a (set_routes []) w, routes (lock a w)).

Definition wake_all a w : World :=
  wake (wakers (lock a w)) (locked a (set_wakers []) w).

Definition deliver_inbound a (datagram : bytes) w : World * bool :=
  let i := lock a w in
  if (DATAGRAM_QUEUE <=? length (inbound i))%nat
  then (locked a (λ i, set_dropped (dropped i + 1) i) w, false)
  else
    (wake (wakers i)
       (locked a (λ i, set_wakers [] (set_inbound (inbound i ++ [datagram]) i)) w), true).

Definition take_inbound a w : World * option bytes :=
  match inbound (lock a w) with
  | [] => (w, None)
  | datagram :: rest => (locked a (set_inbound rest) w, Some datagram)
  end.

Definition dropped_inbound a w : Z := dropped (lock a w).

Definition outbound_has_room a w : bool :=
  (length (outbound (lock a w)) <? OUTBOUND_DATA_QUEUE)%nat.

Definition outbound_ready_or_register a (waker : Waker) w : World * bool :=
  let i := lock a w in
  if (length (outbound i) <? OUTBOUND_DATA_QUEUE)%nat then (w, true)
  else if existsb (λ registered, will_wake registered waker) (capacity_wakers i) then (w, false)
  else (locked a (λ i, set_capacity_wakers (capacity_wakers i ++ [waker]) i) w, false).

(** [None] is the failed assertion. *)
Definition queue_outbound a (datagram : bytes) w : option World :=
  if (length (outbound (lock a w)) <? OUTBOUND_DATA_QUEUE)%nat
  then Some (wake_driver (locked a (λ i, set_outbound (outbound i ++ [datagram]) i) w))
  else None.

Definition outbound_depth i : nat :=
  (length (outbound i) + if bool_decide (is_Some (close_outbound i)) then 1 else 0)%nat.

Definition queue_close_outbound a (datagram : bytes) w : option World :=
  match close_outbound (lock a w) with
  | Some _ => Some w
  | None =>
      let w := locked a (set_close_outbound (Some datagram)) w in
      if (outbound_depth (lock a w) <=? DATAGRAM_QUEUE)%nat then Some (wake_driver w) else None
  end.

Definition has_outbound a w : bool :=
  negb (bool_decide (outbound (lock a w) = [])) ||
  bool_decide (is_Some (close_outbound (lock a w))).
Definition outbound_len a w : nat := outbound_depth (lock a w).

Definition take_outbound a w : World * option bytes :=
  let i := lock a w in
  let was_full := (length (outbound i) =? OUTBOUND_DATA_QUEUE)%nat in
  let '(i', datagram) :=
    match outbound i with
    | d :: rest => (set_outbound rest, Some d)
    | [] => (set_close_outbound None, close_outbound i)
    end in
  let w := locked a i' w in
  if was_full && bool_decide (is_Some datagram)
  then (wake (capacity_wakers i) (locked a (set_capacity_wakers []) w), datagram)
  else (w, datagram).

Definition is_terminal a w : bool := terminal (lock a w).
Definition mark_terminal a w : World :=
  wake_driver (locked a (λ i, set_terminal true (set_inbound [] i)) w).

Definition is_closed a w : bool := closed (get a w).
Definition is_established a w : bool := established (get a w).
Definition mark_established a w : World := wake_all a (update a (set_established true) w).
Definition retained_bytes a w : Z := retained (get a w).
Definition set_retained a (n : Z) : World → World := update a (Fields.set_retained n).

(** The first reason wins. *)
Definition fail a (e : EndpointError.Error) w : World :=
  let w := locked a (λ i, match failure i with None => set_failure (Some e) i | Some _ => i end) w in
  wake_all a (update a (set_closed true) w).

Definition fail_with_close a (close : CloseError) : World → World :=
  let k :=
    match reason close with
    | IdleTimeout => EndpointError.IdleTimeout
    | _ => EndpointError.PeerClosed
    end in
  fail a (EndpointError.with_close close (EndpointError.new k "the connection was closed")).

Definition failure a w : EndpointError.Error :=
  match QuicMailbox.failure (lock a w) with
  | Some err =>
      let rebuilt := EndpointError.new (EndpointError.kind err) "the connection ended" in
      match EndpointError.close err with
      | Some c => EndpointError.with_close c rebuilt
      | None => rebuilt
      end
  | None => EndpointError.new EndpointError.LocallyClosed "the connection ended"
  end.

Definition register a (waker : Waker) w : World * bool :=
  if existsb (λ r, will_wake r waker) (wakers (lock a w)) then (w, false)
  else (locked a (λ i, set_wakers (wakers i ++ [waker]) i) w, true).

Definition push a (c : Command) w : World :=
  wake_driver (locked a (λ i, set_commands (commands i ++ [c]) i) w).
Definition take_commands a w : World * list Command :=
  (locked a (set_commands []) w, commands (lock a w)).
Definition take_observed a w : World * list Observed :=
  (locked a (set_observed []) w, observed (lock a w)).

(** The end of the driver's [absorb]: what it took it puts back, behind what is there. *)
Definition put_back a (evs : list Observed) w : World :=
  wake_all a (locked a (λ i, set_observed (observed i ++ evs) i) w).

(** *** EndpointShared's methods *)

Definition on_endpoint (f : EndpointShared → EndpointShared) w : World :=
  set_endpoint (f (endpoint w)) w.

Definition request_detached_accepts : World → World := on_endpoint (set_detached_accepts true).
Definition wake_acceptors w : World :=
  wake (e_wakers (endpoint w)) (on_endpoint (set_e_wakers []) w).
Definition mark_gone w : World := wake_acceptors (on_endpoint (set_gone true) w).
Definition register_driver (waker : Waker) : World → World :=
  on_endpoint (set_driver_waker (Some waker)).
Definition register_endpoint (waker : Waker) w : World :=
  if existsb (λ r, will_wake r waker) (e_wakers (endpoint w)) then w
  else on_endpoint (λ e, set_e_wakers (e_wakers e ++ [waker]) e) w.
End Methods.
End Mailbox.

(** ** endpoint/connection.rs *)

Record Incoming := mkIncoming { i_bytes : bytes; finished : bool; i_reset : option Z }.

Definition default_incoming : Incoming := mkIncoming [] false None.

Record Connection := mkConnection {
  shared : nat;
  incoming : gmap Z Incoming;
  pending_streams : list Z;
  stopped : gmap Z Z;
  acked : gmap Z Z
}.

Record Chunk := mkChunk { ch_bytes : bytes; ch_fin : bool }.

Module Handle.
Section Methods.
Context `{Wakers}.
Implicit Types (w : World) (c : Connection).

Definition new (a : nat) : Connection := mkConnection a ∅ [] ∅ ∅.

Definition set_incoming v c := mkConnection (shared c) v (pending_streams c) (stopped c) (acked c).
Definition set_pending_streams v c := mkConnection (shared c) (incoming c) v (stopped c) (acked c).
Definition set_stopped v c := mkConnection (shared c) (incoming c) (pending_streams c) v (acked c).
Definition set_acked v c := mkConnection (shared c) (incoming c) (pending_streams c) (stopped c) v.

Definition consumed c (stream : Z) (n : nat) w : World :=
  if decide (n = 0%nat) then w
  else Mailbox.push (shared c) (ExtendCredit stream (Z.of_nat n)) w.

(** [incoming.entry(stream).or_default()], and [get_or_insert]. *)
Definition with_slot (stream : Z) (f : Incoming → Incoming) c : Connection :=
  set_incoming
    (<[stream := f (default default_incoming (incoming c !! stream))]> (incoming c)) c.
Definition or_insert (o : option Z) (v : Z) : option Z :=
  match o with Some _ => o | None => Some v end.

(** What was acknowledged on a stream is at most the 2^62 a stream can carry. *)
Definition absorb_one c (ev : Observed) : Connection :=
  match ev with
  | Data stream bs fin =>
      with_slot stream (λ s, mkIncoming (i_bytes s ++ bs) (finished s || fin) (i_reset s)) c
  | Opened stream => set_pending_streams (pending_streams c ++ [stream]) c
  | Closed stream reason =>
      with_slot stream (λ s, mkIncoming (i_bytes s) true
        match receiving reason with Some code => or_insert (i_reset s) code | None => i_reset s end) c
  | Reset stream code =>
      with_slot stream (λ s, mkIncoming (i_bytes s) true (or_insert (i_reset s) code)) c
  | StopSending stream code => set_stopped (<[stream := code]> (stopped c)) c
  | Acked stream len =>
      set_acked (<[stream := default 0 (acked c !! stream) + len]> (acked c)) c
  | LocallyOpened _ | HandshakeCompleted | StreamsExtended _ => c
  end.

Definition absorb c w : Connection * World :=
  let '(w, events) := Mailbox.take_observed (shared c) w in
  (foldl absorb_one c events, w).

Abbreviation Result A := (result A EndpointError.Error).

Definition write (stream : Z) (data : bytes) (fin : bool) c w : Connection * World * Result unit :=
  if Mailbox.is_closed (shared c) w then (c, w, Err (Mailbox.failure (shared c) w))
  else
    let '(c, w) := absorb c w in
    match stopped c !! stream with
    | Some code =>
        (c, w, Err (EndpointError.with_stream_code code (EndpointError.new
           EndpointError.StreamStopped
           "the peer asked this endpoint to stop sending on this stream")))
    | None => (c, Mailbox.push (shared c) (Write stream data fin) w, Ok ())
    end.

Definition reset (stream code : Z) c w : World * Result unit :=
  if Mailbox.is_closed (shared c) w then (w, Err (Mailbox.failure (shared c) w))
  else (Mailbox.push (shared c) (ResetCommand stream code) w, Ok ()).
Definition stop_sending (stream code : Z) c w : World * Result unit :=
  if Mailbox.is_closed (shared c) w then (w, Err (Mailbox.failure (shared c) w))
  else (Mailbox.push (shared c) (StopSendingCommand stream code) w, Ok ()).
Definition close (code : Z) (reason : bytes) c w : World :=
  Mailbox.push (shared c) (Close code reason) w.

Definition acked_bytes (stream : Z) c w : Connection * World * Z :=
  let '(c, w) := absorb c w in (c, w, default 0 (acked c !! stream)).
Definition stop_sending_code (stream : Z) c w : Connection * World * option Z :=
  let '(c, w) := absorb c w in (c, w, stopped c !! stream).
Definition failure c w : option EndpointError.Error :=
  if Mailbox.is_closed (shared c) w then Some (Mailbox.failure (shared c) w) else None.

Definition drop c w : World :=
  if Mailbox.is_closed (shared c) w then w else Mailbox.push (shared c) (Close 0 []) w.

(** *** OpenStream: the mailbox's address and the direction wanted *)

Definition open (bidi : bool) c w : World := Mailbox.push (shared c) (OpenStreamCommand bidi) w.

Definition wanted (bidi : bool) (ev : Observed) : option Z :=
  match ev with
  | LocallyOpened id =>
      if decide (StreamId.directionality id = if bidi then Bidirectional else Unidirectional)
      then Some id else None
  | _ => None
  end.

(** The first that is wanted, taken out. *)
Fixpoint take_first (bidi : bool) (evs : list Observed) : option (Z * list Observed) :=
  match evs with
  | [] => None
  | ev :: evs =>
      match wanted bidi ev with
      | Some id => Some (id, evs)
      | None =>
          match take_first bidi evs with
          | Some (id, rest) => Some (id, ev :: rest)
          | None => None
          end
      end
  end.

Definition open_take (a : nat) (bidi : bool) w : World * option Z :=
  match take_first bidi (observed (Mailbox.lock a w)) with
  | Some (id, rest) => (Mailbox.locked a (Fields.set_observed rest) w, Some id)
  | None => (w, None)
  end.

(** [before] is what other tasks do before the waker is registered, [after] what they do
    between that and the second look. *)
Definition open_poll (a : nat) (bidi : bool) (cx : Waker) (before after : World → World) w
  : World * Poll (Result Z) :=
  let '(w, taken) := open_take a bidi w in
  match taken with
  | Some stream => (w, Ready (Ok stream))
  | None =>
      if Mailbox.is_closed a w then (w, Ready (Err (Mailbox.failure a w)))
      else
        let w := after (Mailbox.register a cx (before w)).1 in
        let '(w, taken) := open_take a bidi w in
        match taken with
        | Some stream => (w, Ready (Ok stream))
        | None =>
            if Mailbox.is_closed a w then (w, Ready (Err (Mailbox.failure a w)))
            else (w, Pending)
        end
  end.

(** *** ReadStream *)

(** A chunk is ready when there are bytes, or there will be no more. *)
Definition readable (stream : Z) c : option Incoming :=
  match incoming c !! stream with
  | Some slot =>
      if negb (bool_decide (i_bytes slot = [])) || finished slot then Some slot else None
  | None => None
  end.

Definition take_chunk (stream : Z) (slot : Incoming) c w : Connection * World * Chunk :=
  let chunk := mkChunk (i_bytes slot) (finished slot) in
  let c := set_incoming (<[stream := mkIncoming [] (finished slot) (i_reset slot)]> (incoming c)) c in
  (c, consumed c stream (length (ch_bytes chunk)) w, chunk).

Definition read_poll (stream : Z) (cx : Waker) (before after : World → World) c w
  : Connection * World * Poll (Result Chunk) :=
  let '(c, w) := absorb c w in
  match readable stream c with
  | Some slot =>
      match i_bytes slot, i_reset slot with
      | [], Some code =>
          (c, w, Ready (Err (EndpointError.with_stream_code code
             (EndpointError.new EndpointError.StreamReset "the peer reset this stream"))))
      | _, _ =>
          let '(c, w, chunk) := take_chunk stream slot c w in (c, w, Ready (Ok chunk))
      end
  | None =>
      if Mailbox.is_closed (shared c) w then (c, w, Ready (Err (Mailbox.failure (shared c) w)))
      else
        let w := after (Mailbox.register (shared c) cx (before w)).1 in
        let '(c, w) := absorb c w in
        match readable stream c with
        | Some slot =>
            let '(c, w, chunk) := take_chunk stream slot c w in (c, w, Ready (Ok chunk))
        | None => (c, w, Pending)
        end
  end.

(** *** AcceptStream *)

Definition accept_poll (cx : Waker) (before after : World → World) c w
  : Connection * World * Poll (Result Z) :=
  let '(c, w) := absorb c w in
  match pending_streams c with
  | stream :: rest => (set_pending_streams rest c, w, Ready (Ok stream))
  | [] =>
      if Mailbox.is_closed (shared c) w then
        (c, w, Ready (Err (EndpointError.new EndpointError.LocallyClosed
           "the connection ended before a stream was accepted")))
      else
        let w := after (Mailbox.register (shared c) cx (before w)).1 in
        let '(c, w) := absorb c w in
        match pending_streams c with
        | stream :: rest => (set_pending_streams rest c, w, Ready (Ok stream))
        | [] => (c, w, Pending)
        end
  end.
End Methods.
End Handle.
