(* ===== verification/QuicMailboxFacts.v ===== *)
(** * What mailboxes guarantee

    Over any interleaving of the mailbox methods, by handles, by the driver and by the owner
    of a detached connection: the datagram queues keep their bounds, and a producer parked on
    a full queue stays parked while it is full and is woken when it is not
    ([parked_producer_owed]); a reader is given the bytes of its stream, all of them and in
    order, whatever arrives while it looks and whatever the driver holds ([reads_in_order]). *)

From Stdlib Require Import ZArith Lia Strings.Byte.
From stdpp Require Import base list gmap strings.
From S2P Require Import Prelude QmuxScheduling QuicTypes QuicWire QuicConn QuicMailbox.

(** ** Every method, as an operation *)

Section Operations.
Context `{Wakers}.

Inductive mailbox_op :=
| MNew
| MObserve (a : nat) (ev : Observed)
| MObserveRoute (a : nat) (u : RouteUpdate)
| MTakeRoutes (a : nat)
| MDeliverInbound (a : nat) (datagram : bytes)
| MTakeInbound (a : nat)
| MReadyOrRegister (a : nat) (cx : Waker)
| MQueueOutbound (a : nat) (datagram : bytes)
| MQueueClose (a : nat) (datagram : bytes)
| MTakeOutbound (a : nat)
| MMarkTerminal (a : nat)
| MMarkEstablished (a : nat)
| MSetRetained (a : nat) (n : Z)
| MFail (a : nat) (e : EndpointError.Error)
| MRegister (a : nat) (cx : Waker)
| MWakeAll (a : nat)
| MPush (a : nat) (c : Command)
| MTakeCommands (a : nat)
| MTakeObserved (a : nat)
| MPutBack (a : nat) (evs : list Observed)
| MRequestDetach (a : nat)
| MRequestDetachToAcceptor (a : nat)
| MEndpoint (f : EndpointShared → EndpointShared)
| MWakeDriver
| MWakeAcceptors.

Definition mailbox_run (o : mailbox_op) (w : World) : option World :=
  match o with
  | MNew => Some (Mailbox.new w).1
  | MObserve a ev => Some (Mailbox.observe a ev w)
  | MObserveRoute a u => Some (Mailbox.observe_route a u w)
  | MTakeRoutes a => Some (Mailbox.take_routes a w).1
  | MDeliverInbound a d => Some (Mailbox.deliver_inbound a d w).1
  | MTakeInbound a => Some (Mailbox.take_inbound a w).1
  | MReadyOrRegister a cx => Some (Mailbox.outbound_ready_or_register a cx w).1
  | MQueueOutbound a d => Mailbox.queue_outbound a d w
  | MQueueClose a d => Mailbox.queue_close_outbound a d w
  | MTakeOutbound a => Some (Mailbox.take_outbound a w).1
  | MMarkTerminal a => Some (Mailbox.mark_terminal a w)
  | MMarkEstablished a => Some (Mailbox.mark_established a w)
  | MSetRetained a n => Some (Mailbox.set_retained a n w)
  | MFail a e => Some (Mailbox.fail a e w)
  | MRegister a cx => Some (Mailbox.register a cx w).1
  | MWakeAll a => Some (Mailbox.wake_all a w)
  | MPush a c => Some (Mailbox.push a c w)
  | MTakeCommands a => Some (Mailbox.take_commands a w).1
  | MTakeObserved a => Some (Mailbox.take_observed a w).1
  | MPutBack a evs =>
      Some (Mailbox.locked a (λ i, Fields.set_observed (observed i ++ evs) i) w)
  | MRequestDetach a => Some (Mailbox.request_detach a w)
  | MRequestDetachToAcceptor a => Some (Mailbox.request_detach_to_acceptor a w)
  | MEndpoint f => Some (Fields.set_endpoint (f (endpoint w)) w)
  | MWakeDriver => Some (Mailbox.wake_driver w)
  | MWakeAcceptors => Some (Mailbox.wake_acceptors w)
  end.

Fixpoint run_mailbox (os : list mailbox_op) (w : World) : option World :=
  match os with
  | [] => Some w
  | o :: os => match mailbox_run o w with Some w => run_mailbox os w | None => None end
  end.

(** ** What an operation does to a mailbox *)

(** The queues of a mailbox, before and after, and those woken. *)
Inductive cell (ws : list Waker) (i i' : ConnectionInner) : Prop :=
| cell_same :
    outbound i' = outbound i → capacity_wakers i' = capacity_wakers i → cell ws i i'
| cell_parked cx :
    (OUTBOUND_DATA_QUEUE ≤ length (outbound i))%nat → outbound i' = outbound i →
    capacity_wakers i' = capacity_wakers i ++ [cx] → cell ws i i'
| cell_queued d :
    (length (outbound i) < OUTBOUND_DATA_QUEUE)%nat → outbound i' = outbound i ++ [d] →
    capacity_wakers i' = capacity_wakers i → cell ws i i'
| cell_taken d :
    outbound i = d :: outbound i' → length (outbound i) ≠ OUTBOUND_DATA_QUEUE →
    capacity_wakers i' = capacity_wakers i → cell ws i i'
| cell_woken d :
    outbound i = d :: outbound i' → length (outbound i) = OUTBOUND_DATA_QUEUE →
    capacity_wakers i' = [] → (∀ cx, cx ∈ capacity_wakers i → cx ∈ ws) → cell ws i i'.

Record change (ws : list Waker) (i i' : ConnectionInner) : Prop := mkChange {
  ch_cell : cell ws i i';
  ch_inbound : (length (inbound i) ≤ DATAGRAM_QUEUE)%nat →
               (length (inbound i') ≤ DATAGRAM_QUEUE)%nat
}.

(** An operation wakes some, makes mailboxes that are empty, and changes those there are. *)
Definition effect (w w' : World) : Prop :=
  ∃ ws, woken w' = woken w ++ ws ∧
    ∀ a,
      match mailboxes w !! a, mailboxes w' !! a with
      | Some s, Some s' => change ws (inner s) (inner s')
      | Some _, None => False
      | None, Some s' => s' = fresh
      | None, None => True
      end.

Lemma change_refl ws i : change ws i i.
Proof. split; [by apply cell_same|done]. Qed.

(** Nothing but other fields. *)
Lemma change_other ws i i' :
  outbound i' = outbound i → capacity_wakers i' = capacity_wakers i → inbound i' = inbound i →
  change ws i i'.
Proof. intros Ho Hc Hi. split; [by apply cell_same|by rewrite Hi]. Qed.

Lemma effect_at a f ws w w' :
  mailboxes w' = alter f a (mailboxes w) → woken w' = woken w ++ ws →
  (∀ s, mailboxes w !! a = Some s → change ws (inner s) (inner (f s))) → effect w w'.
Proof.
  intros Hm Hw Hf. exists ws. split; [done|]. intros b. rewrite Hm.
  destruct (decide (a = b)) as [<-|Hab].
  - rewrite lookup_alter_eq. destruct (mailboxes w !! a) as [s|] eqn:E; cbn; [by apply Hf|done].
  - rewrite lookup_alter_ne by done. destruct (mailboxes w !! b); [apply change_refl|done].
Qed.

Lemma effect_none ws w w' :
  mailboxes w' = mailboxes w → woken w' = woken w ++ ws → effect w w'.
Proof.
  intros Hm Hw. exists ws. split; [done|]. intros b. rewrite Hm.
  destruct (mailboxes w !! b); [apply change_refl|done].
Qed.

Lemma lock_some a w s : mailboxes w !! a = Some s → Mailbox.lock a w = inner s.
Proof. intros Hs. unfold Mailbox.lock, Mailbox.get. by rewrite Hs. Qed.
End Operations.

Section Effects.
Context `{Wakers}.

(** An operation on one mailbox, whose other fields it may change. *)
Ltac effect_here a ws :=
  eapply (effect_at a _ ws);
  [cbn; rewrite ?alter_alter_eq; reflexivity
  |cbn; rewrite ?(right_id_L [] (++)); reflexivity
  |cbn; intros s Hs; try (by apply change_other)].

Lemma mailbox_effect o w w' : mailbox_run o w = Some w' → (∀ b, (next_address w ≤ b)%nat →
  mailboxes w !! b = None) → effect w w'.
Proof.
  intros Hrun Hfree. destruct o; cbn in Hrun.
  - injection Hrun as <-. exists []. cbn. rewrite (right_id_L [] (++)). split; [done|]. intros b.
    destruct (decide (next_address w = b)) as [<-|Hb].
    + rewrite Hfree by lia. by rewrite lookup_insert_eq.
    + rewrite lookup_insert_ne by done. destruct (mailboxes w !! b); [apply change_refl|done].
  - injection Hrun as <-. effect_here a (@nil Waker).
  - injection Hrun as <-. effect_here a (option_list (driver_waker (endpoint w))).
  - injection Hrun as <-. effect_here a (@nil Waker).
  - unfold Mailbox.deliver_inbound in Hrun.
    destruct (Nat.leb_spec DATAGRAM_QUEUE (length (inbound (Mailbox.lock a w)))) as [Hq|Hq];
      injection Hrun as <-.
    + effect_here a (@nil Waker).
    + effect_here a (wakers (Mailbox.lock a w)). rewrite (lock_some _ _ _ Hs) in Hq.
      split; [by apply cell_same|]. cbn. rewrite length_app. cbn. lia.
  - unfold Mailbox.take_inbound in Hrun.
    destruct (inbound (Mailbox.lock a w)) as [|d rest] eqn:E; injection Hrun as <-.
    + by apply (effect_none []); [|rewrite (right_id_L [] (++))].
    + effect_here a (@nil Waker). rewrite (lock_some _ _ _ Hs) in E.
      split; [by apply cell_same|]. cbn. rewrite E. cbn. lia.
  - unfold Mailbox.outbound_ready_or_register in Hrun.
    destruct (Nat.ltb_spec (length (outbound (Mailbox.lock a w))) OUTBOUND_DATA_QUEUE) as [Hq|Hq];
      [injection Hrun as <-; by apply (effect_none []); [|rewrite (right_id_L [] (++))]|].
    destruct (existsb _ _); injection Hrun as <-;
      [by apply (effect_none []); [|rewrite (right_id_L [] (++))]|].
    effect_here a (@nil Waker). rewrite (lock_some _ _ _ Hs) in Hq.
    split; [by eapply cell_parked|done].
  - unfold Mailbox.queue_outbound in Hrun.
    destruct (Nat.ltb_spec (length (outbound (Mailbox.lock a w))) OUTBOUND_DATA_QUEUE) as [Hq|Hq];
      [|done]. injection Hrun as <-.
    effect_here a (option_list (driver_waker (endpoint w))). rewrite (lock_some _ _ _ Hs) in Hq.
    split; [by eapply cell_queued|done].
  - unfold Mailbox.queue_close_outbound in Hrun.
    destruct (close_outbound (Mailbox.lock a w));
      [injection Hrun as <-; by apply (effect_none []); [|rewrite (right_id_L [] (++))]|].
    destruct (_ <=? _)%nat; [|done]. injection Hrun as <-.
    effect_here a (option_list (driver_waker (endpoint w))).
  - unfold Mailbox.take_outbound in Hrun.
    destruct (outbound (Mailbox.lock a w)) as [|d rest] eqn:E; cbv beta iota zeta in Hrun.
    + injection Hrun as <-. effect_here a (@nil Waker).
    + rewrite bool_decide_true, andb_true_r in Hrun by done.
      destruct (Nat.eqb_spec (length (d :: rest)) OUTBOUND_DATA_QUEUE) as [Hq|Hq];
        injection Hrun as <-.
      * effect_here a (capacity_wakers (Mailbox.lock a w)).
        rewrite (lock_some _ _ _ Hs) in *. split; [|done]. by eapply cell_woken; cbn; rewrite ?E.
      * effect_here a (@nil Waker).
        rewrite (lock_some _ _ _ Hs) in *. split; [|done]. by eapply cell_taken; cbn; rewrite ?E.
  - injection Hrun as <-. effect_here a (option_list (driver_waker (endpoint w))).
    split; [by apply cell_same|cbn; lia].
  - injection Hrun as <-.
    effect_here a (wakers (Mailbox.lock a (Mailbox.update a (Fields.set_established true) w))).
  - injection Hrun as <-. effect_here a (@nil Waker).
  - injection Hrun as <-. unfold Mailbox.fail, Mailbox.wake_all.
    match goal with |- effect _ (Fields.wake ?ws _) => effect_here a ws end.
    apply change_other; cbn; by destruct (QuicMailbox.failure (inner s)).
  - unfold Mailbox.register in Hrun. destruct (existsb _ _); injection Hrun as <-;
      [by apply (effect_none []); [|rewrite (right_id_L [] (++))]|effect_here a (@nil Waker)].
  - injection Hrun as <-. effect_here a (wakers (Mailbox.lock a w)).
  - injection Hrun as <-. effect_here a (option_list (driver_waker (endpoint w))).
  - injection Hrun as <-. effect_here a (@nil Waker).
  - injection Hrun as <-. effect_here a (@nil Waker).
  - injection Hrun as <-. effect_here a (@nil Waker).
  - injection Hrun as <-. effect_here a (@nil Waker).
  - injection Hrun as <-. effect_here a (@nil Waker).
  - injection Hrun as <-. by apply (effect_none []); [|cbn; rewrite (right_id_L [] (++))].
  - injection Hrun as <-. by apply (effect_none (option_list (driver_waker (endpoint w)))).
  - injection Hrun as <-. by apply (effect_none (e_wakers (endpoint w))).
Qed.
End Effects.

(** ** The datagram queues *)

Section Queues.
Context `{Wakers}.

Record Bounded (i : ConnectionInner) : Prop := mkBounded {
  b_inbound : (length (inbound i) ≤ DATAGRAM_QUEUE)%nat;
  b_outbound : (length (outbound i) ≤ OUTBOUND_DATA_QUEUE)%nat;
  b_parked : capacity_wakers i ≠ [] → length (outbound i) = OUTBOUND_DATA_QUEUE
}.

Record mailboxes_ok (w : World) : Prop := mkMailboxesOk {
  mo_free b : (next_address w ≤ b)%nat → mailboxes w !! b = None;
  mo_bounded a s : mailboxes w !! a = Some s → Bounded (inner s)
}.

Lemma bounded_change ws i i' : Bounded i → change ws i i' → Bounded i'.
Proof.
  intros [Hi Ho Hp] [Hc Hci]. split; [by apply Hci| |];
    destruct Hc as [Eo Ec|cx Hf Eo Ec|d Hl Eo Ec|d Eo Hne Ec|d Eo Heq Ec Hall];
    rewrite ?Ec, ?Eo in *; rewrite ?length_app in *; cbn [length] in *; try done; try lia.
  all: intros Hcap; try (pose proof (Hp Hcap)); lia.
Qed.

(** Addresses are given out in order. *)
Lemma next_address_run o w w' :
  mailbox_run o w = Some w' → (next_address w ≤ next_address w')%nat ∧
  ∀ b, (next_address w' ≤ b)%nat → mailboxes w !! b = None → mailboxes w' !! b = None.
Proof.
  assert (∀ a f m b, m !! b = None → alter (M:=gmap nat ConnectionShared) f a m !! b = None) as Ha.
  { intros a f m b Hb. destruct (decide (a = b)) as [<-|Hab].
    - by rewrite lookup_alter_eq, Hb.
    - by rewrite lookup_alter_ne. }
  destruct o; cbn; unfold Mailbox.deliver_inbound, Mailbox.take_inbound,
    Mailbox.outbound_ready_or_register, Mailbox.queue_outbound, Mailbox.queue_close_outbound,
    Mailbox.take_outbound, Mailbox.register, Mailbox.mark_established, Mailbox.fail,
    Mailbox.wake_all, Mailbox.new; intros Hr;
    repeat case_match; simplify_eq; cbn; (split; [lia|]); intros b Hb Hm; auto.
  rewrite lookup_insert_ne by lia. done.
Qed.

Lemma mailboxes_ok_run o w w' : mailbox_run o w = Some w' → mailboxes_ok w → mailboxes_ok w'.
Proof.
  intros Hr [Hf Hb]. destruct (next_address_run _ _ _ Hr) as [Hn Hfree].
  destruct (mailbox_effect _ _ _ Hr Hf) as (ws & _ & He). split.
  - intros b Hle. apply Hfree; [done|]. apply Hf. lia.
  - intros a s' Hs'. specialize (He a). rewrite Hs' in He.
    destruct (mailboxes w !! a) as [s|] eqn:Hs; [|subst; split; cbn; done || lia].
    eapply bounded_change; [by apply (Hb a)|done].
Qed.

(** A task is parked for room. *)
Definition parked (t : Task) (a : nat) (w : World) : Prop :=
  ∃ cx, cx ∈ capacity_wakers (Mailbox.lock a w) ∧ task cx = t.

Definition woken_since (t : Task) (w w' : World) : Prop :=
  ∃ ws, woken w' = woken w ++ ws ∧ t ∈ task <$> ws.

Lemma parked_run o w w' t a :
  mailbox_run o w = Some w' → mailboxes_ok w → parked t a w →
  parked t a w' ∨ woken_since t w w'.
Proof.
  intros Hr [Hf _] (cx & Hcx & Ht). destruct (mailbox_effect _ _ _ Hr Hf) as (ws & Hw & He).
  unfold Mailbox.lock, Mailbox.get in Hcx. specialize (He a).
  destruct (mailboxes w !! a) as [s|] eqn:Hs; [|by apply elem_of_nil in Hcx].
  destruct (mailboxes w' !! a) as [s'|] eqn:Hs'; [|done]. cbn in Hcx.
  assert (cx ∈ capacity_wakers (inner s') ∨ cx ∈ ws) as [Hin|Hin].
  { destruct He as [Hc _].
    destruct Hc as [Eo Ec|cx' Hfull Eo Ec|d Hl Eo Ec|d Eo Hne Ec|d Eo Heq Ec Hall]; rewrite ?Ec.
    - by left.
    - left. apply elem_of_app. by left.
    - by left.
    - by left.
    - right. by apply Hall. }
  - left. exists cx. split; [|done]. unfold Mailbox.lock, Mailbox.get. by rewrite Hs'.
  - right. exists ws. split; [done|]. apply list_elem_of_fmap. eauto.
Qed.

Lemma woken_run o w w' : mailbox_run o w = Some w' → mailboxes_ok w →
  ∃ ws, woken w' = woken w ++ ws.
Proof. intros Hr [Hf _]. destruct (mailbox_effect _ _ _ Hr Hf) as (ws & Hw & _). eauto. Qed.

Lemma run_mailbox_ok os : ∀ w w', run_mailbox os w = Some w' → mailboxes_ok w →
  mailboxes_ok w' ∧ (∃ ws, woken w' = woken w ++ ws) ∧
  ∀ t a, parked t a w → parked t a w' ∨ woken_since t w w'.
Proof.
  induction os as [|o os IH]; intros w w'; cbn.
  - intros [= <-] Hok. split_and!; [done| |by left]. exists []. by rewrite (right_id_L [] (++)).
  - destruct (mailbox_run o w) as [w1|] eqn:Hr; [|done]. intros Hrun Hok.
    destruct (woken_run _ _ _ Hr Hok) as [ws1 Hw1].
    destruct (IH _ _ Hrun (mailboxes_ok_run _ _ _ Hr Hok)) as (Hok' & [ws Hw] & Hp).
    split_and!; [done| |].
    + exists (ws1 ++ ws). by rewrite Hw, Hw1, (assoc_L (++)).
    + intros t a Ht. destruct (parked_run _ _ _ _ _ Hr Hok Ht) as [Ht1|(ws' & Hw' & Hin)].
      * destruct (Hp _ _ Ht1) as [|(ws' & Hw' & Hin)]; [by left|right].
        exists (ws1 ++ ws'). split; [by rewrite Hw', Hw1, (assoc_L (++))|].
        rewrite fmap_app. apply elem_of_app. by right.
      * right. exists (ws' ++ ws). split; [by rewrite Hw, Hw', (assoc_L (++))|].
        rewrite fmap_app. apply elem_of_app. by left.
Qed.

(** A refused producer is parked. *)
Lemma refused_is_parked a cx w w' :
  Mailbox.outbound_ready_or_register a cx w = (w', false) → is_Some (mailboxes w !! a) →
  parked (task cx) a w' ∧ mailbox_run (MReadyOrRegister a cx) w = Some w'.
Proof.
  intros Hreg [s Hs]. split; [|cbn; by rewrite Hreg].
  unfold Mailbox.outbound_ready_or_register in Hreg. destruct (_ <? _)%nat; [done|].
  destruct (existsb _ _) eqn:E; injection Hreg as <-.
  - apply existsb_exists in E as (wk & Hin & Hwk). exists wk.
    split; [by apply list_elem_of_In|]. by apply will_wake_task.
  - exists cx. split; [|done]. unfold Mailbox.lock, Mailbox.get, Mailbox.locked, Mailbox.update.
    cbn. rewrite lookup_alter_eq, Hs. cbn. apply elem_of_app. right. by apply list_elem_of_singleton.
Qed.

(** C39. A producer refused for want of room is never forgotten.  Over any interleaving of the
    methods of any mailboxes, from none: a queue holds at most 63 datagrams and a close, or 64
    received, so neither bound is ever asserted in vain -- a close can always be queued, and a
    datagram whenever there is room; and from the moment a producer is refused, either the
    queue is still full and its task is parked, or the task has been woken. *)
Theorem parked_producer_owed os0 os w0 w1 w2 w3 a cx :
  mailboxes w0 = ∅ → run_mailbox os0 w0 = Some w1 → is_Some (mailboxes w1 !! a) →
  Mailbox.outbound_ready_or_register a cx w1 = (w2, false) → run_mailbox os w2 = Some w3 →
  (Mailbox.outbound_has_room a w3 = false ∧ parked (task cx) a w3 ∨
   woken_since (task cx) w2 w3) ∧
  (Mailbox.outbound_len a w3 ≤ DATAGRAM_QUEUE)%nat ∧
  (length (inbound (Mailbox.lock a w3)) ≤ DATAGRAM_QUEUE)%nat ∧
  (∀ d, is_Some (Mailbox.queue_close_outbound a d w3)) ∧
  (∀ d, Mailbox.outbound_has_room a w3 = true → is_Some (Mailbox.queue_outbound a d w3)).
Proof.
  intros H0 Hr0 Ha Hreg Hr.
  assert (mailboxes_ok w0) as Hok0 by (split; intros; rewrite H0, ?lookup_empty in *; done).
  destruct (run_mailbox_ok _ _ _ Hr0 Hok0) as (Hok1 & _ & _).
  destruct (refused_is_parked _ _ _ _ Hreg Ha) as [Hp Hrr].
  pose proof (mailboxes_ok_run _ _ _ Hrr Hok1) as Hok2.
  destruct (run_mailbox_ok _ _ _ Hr Hok2) as ([Hf3 Hb3] & _ & Hpark).
  assert (Bounded (Mailbox.lock a w3)) as [Hbi Hbo Hbp].
  { unfold Mailbox.lock, Mailbox.get. destruct (mailboxes w3 !! a) as [s|] eqn:Hs; cbn;
      [by apply (Hb3 a)|split; cbn; done || lia]. }
  assert (Mailbox.outbound_depth (Mailbox.lock a w3) ≤ DATAGRAM_QUEUE)%nat as Hdepth.
  { unfold Mailbox.outbound_depth, OUTBOUND_DATA_QUEUE, DATAGRAM_QUEUE in *.
    destruct (bool_decide _); lia. }
  split_and!; [|done|done| |].
  - destruct (Hpark _ _ Hp) as [Hp3|]; [left|by right]. split; [|done].
    destruct Hp3 as (wk & Hwk & _). unfold Mailbox.outbound_has_room. apply Nat.ltb_ge.
    rewrite Hbp; [done|]. intros E. rewrite E in Hwk. by apply elem_of_nil in Hwk.
  - intros d. unfold Mailbox.queue_close_outbound.
    destruct (close_outbound _) eqn:Ec; [eauto|].
    rewrite (proj2 (Nat.leb_le _ _)); [eauto|].
    unfold Mailbox.outbound_depth, Mailbox.lock, Mailbox.get, Mailbox.locked, Mailbox.update in *.
    cbn. destruct (mailboxes w3 !! a) as [s|] eqn:Hs.
    + rewrite lookup_alter_eq, Hs. cbn in *.
      unfold OUTBOUND_DATA_QUEUE, DATAGRAM_QUEUE in *. lia.
    + rewrite lookup_alter_eq, Hs. cbn. unfold DATAGRAM_QUEUE. lia.
  - intros d Hroom. unfold Mailbox.queue_outbound. unfold Mailbox.outbound_has_room in Hroom.
    rewrite Hroom. eauto.
Qed.
End Queues.

(** ** Reading a stream *)

Section Reading.
Context `{Wakers}.
Implicit Types (c : Connection) (w : World).

(** The bytes of a stream among what was observed. *)
Fixpoint data_of (s : Z) (evs : list Observed) : bytes :=
  match evs with
  | [] => []
  | Data s' bs _ :: evs => (if decide (s' = s) then bs else []) ++ data_of s evs
  | _ :: evs => data_of s evs
  end.

Definition slot_bytes (s : Z) c : bytes := i_bytes (default default_incoming (incoming c !! s)).

(** What a handle has yet to give its reader: what it absorbed, what is in the mailbox, and
    what the driver has taken from there and not yet put back. *)
Definition unread (s : Z) c w (hands : list Observed) : bytes :=
  slot_bytes s c ++ data_of s (observed (Mailbox.lock (shared c) w)) ++ data_of s hands.

(** *** What happens at the mailbox meanwhile

    The driver of a connection that was not handed over is one task, and the only one that
    runs its handlers: it records an event, or takes what was recorded to look at it, or
    puts that back, and until it has put it back it records nothing.  An opening stream, in
    any task, takes out the event that it is open.  Nothing else touches what is recorded.
    [hands] is what the driver holds, and the trace what it records. *)
Inductive other (a : nat) : World → list Observed → list Observed → World → list Observed → Prop :=
| driver_observes ev w : other a w [] [ev] (Mailbox.observe a ev w) []
| driver_takes w w' evs : Mailbox.take_observed a w = (w', evs) → other a w [] [] w' evs
| driver_puts_back w hands : other a w hands [] (Mailbox.put_back a hands w) []
| opening_takes bidi w w' id hands :
    Handle.open_take a bidi w = (w', id) → other a w hands [] w' hands
| elsewhere w w' hands :
    (is_Some (mailboxes w !! a) → is_Some (mailboxes w' !! a)) →
    observed (Mailbox.lock a w') = observed (Mailbox.lock a w) → other a w hands [] w' hands.

Inductive others (a : nat) : World → list Observed → list Observed → World → list Observed → Prop :=
| others_nil w hands : others a w hands [] w hands
| others_cons w hands e w1 h1 es w2 h2 :
    other a w hands e w1 h1 → others a w1 h1 es w2 h2 → others a w hands (e ++ es) w2 h2.

(** Around a poll that looks at [w], finds nothing, registers and looks again: others act
    before it registers and between that and its second look.  A poll that finds something
    at once does not wait for them. *)
Definition meanwhile (a : nat) (cx : Waker) (before after : World → World) (again : option World)
    (hands evs hands' : list Observed) : Prop :=
  match again with
  | None => evs = [] ∧ hands' = hands
  | Some w =>
      let registered := (Mailbox.register a cx (before w)).1 in
      ∃ e1 h1 e2, others a w hands e1 (before w) h1 ∧
                  others a registered h1 e2 (after registered) hands' ∧ evs = e1 ++ e2
  end.

(** The world a poll saw when it found nothing, if it looks again. *)
Definition looks_again (ready : Connection → bool) c w : option World :=
  let '(c, w) := Handle.absorb c w in
  if negb (ready c) && negb (Mailbox.is_closed (shared c) w) then Some w else None.

Definition opens_again (bidi : bool) c w : option World :=
  let '(w, found) := Handle.open_take (shared c) bidi w in
  match found with
  | Some _ => None
  | None => if Mailbox.is_closed (shared c) w then None else Some w
  end.

Definition chunk_of {E} (r : Poll (result Chunk E)) : bytes :=
  match r with Ready (Ok chunk) => ch_bytes chunk | _ => [] end.

Definition can_read (s : Z) c : bool := bool_decide (is_Some (Handle.readable s c)).
Definition can_accept c : bool := negb (bool_decide (pending_streams c = [])).

(** A handle's operations and those of other tasks, interleaved: what is recorded meanwhile,
    and what the reads of one stream give.  What others do between a look at the mailbox and
    the check after it, of whether the connection has ended, is a look ([reading_look]) and
    then them. *)
Inductive reading (s : Z) : Connection → World → list Observed → list Observed → bytes →
    Connection → World → list Observed → Prop :=
| reading_done c w h : reading s c w h [] [] c w h
| reading_others c w h e w1 h1 evs out c' w' h' :
    others (shared c) w h e w1 h1 → reading s c w1 h1 evs out c' w' h' →
    reading s c w h (e ++ evs) out c' w' h'
| reading_read stream cx before after c w h e h1 c1 w1 r evs out c' w' h' :
    meanwhile (shared c) cx before after (looks_again (can_read stream) c w) h e h1 →
    Handle.read_poll stream cx before after c w = (c1, w1, r) →
    reading s c1 w1 h1 evs out c' w' h' →
    reading s c w h (e ++ evs) ((if decide (stream = s) then chunk_of r else []) ++ out) c' w' h'
| reading_accept cx before after c w h e h1 c1 w1 r evs out c' w' h' :
    meanwhile (shared c) cx before after (looks_again can_accept c w) h e h1 →
    Handle.accept_poll cx before after c w = (c1, w1, r) →
    reading s c1 w1 h1 evs out c' w' h' →
    reading s c w h (e ++ evs) out c' w' h'
| reading_open bidi cx before after c w h e h1 w1 r evs out c' w' h' :
    meanwhile (shared c) cx before after (opens_again bidi c w) h e h1 →
    Handle.open_poll (shared c) bidi cx before after w = (w1, r) →
    reading s c w1 h1 evs out c' w' h' →
    reading s c w h (e ++ evs) out c' w' h'
| reading_write stream data fin c w h r c1 w1 evs out c' w' h' :
    Handle.write stream data fin c w = (c1, w1, r) → reading s c1 w1 h evs out c' w' h' →
    reading s c w h evs out c' w' h'
| reading_look c w h c1 w1 evs out c' w' h' :
    Handle.absorb c w = (c1, w1) → reading s c1 w1 h evs out c' w' h' →
    reading s c w h evs out c' w' h'.

(** The mailbox is there, and while the driver holds events, nothing more is recorded. *)
Definition orderly (a : nat) w (hands : list Observed) : Prop :=
  is_Some (mailboxes w !! a) ∧ (hands = [] ∨ observed (Mailbox.lock a w) = []).

(** The bytes of the stream on their way to the handle. *)
Definition coming (s : Z) (a : nat) w (hands : list Observed) : bytes :=
  data_of s (observed (Mailbox.lock a w)) ++ data_of s hands.

Lemma data_of_app s a b : data_of s (a ++ b) = data_of s a ++ data_of s b.
Proof.
  induction a as [|ev a IH]; [done|]. destruct ev; cbn; rewrite ?IH; try done.
  by rewrite (assoc_L (++)).
Qed.

Lemma locked_there a f w b :
  is_Some (mailboxes (Mailbox.locked a f w) !! b) ↔ is_Some (mailboxes w !! b).
Proof.
  unfold Mailbox.locked, Mailbox.update. cbn. rewrite lookup_alter. case_decide; [|done].
  subst. apply fmap_is_Some.
Qed.

Lemma lock_locked a f w : is_Some (mailboxes w !! a) →
  Mailbox.lock a (Mailbox.locked a f w) = f (Mailbox.lock a w).
Proof.
  intros [x E]. unfold Mailbox.lock, Mailbox.get, Mailbox.locked, Mailbox.update. cbn.
  by rewrite lookup_alter_eq, E.
Qed.

Lemma observed_locked a f w :
  (∀ i, observed (f i) = observed i) →
  observed (Mailbox.lock a (Mailbox.locked a f w)) = observed (Mailbox.lock a w).
Proof.
  intros Hf. unfold Mailbox.lock, Mailbox.get, Mailbox.locked, Mailbox.update. cbn.
  rewrite lookup_alter_eq. destruct (mailboxes w !! a); cbn; [by rewrite Hf|done].
Qed.

Lemma push_observed a x w :
  observed (Mailbox.lock a (Mailbox.push a x w)) = observed (Mailbox.lock a w).
Proof.
  by apply (observed_locked a (λ i, Fields.set_commands (commands i ++ [x]) i) w).
Qed.

Lemma register_observed a cx w :
  observed (Mailbox.lock a (Mailbox.register a cx w).1) = observed (Mailbox.lock a w).
Proof. unfold Mailbox.register. destruct (existsb _ _); [done|]. by apply observed_locked. Qed.

Lemma consumed_observed c s n w :
  observed (Mailbox.lock (shared c) (Handle.consumed c s n w)) =
  observed (Mailbox.lock (shared c) w).
Proof. unfold Handle.consumed. case_decide; [done|]. apply push_observed. Qed.

Lemma with_slot_bytes s s' f c :
  slot_bytes s (Handle.with_slot s' f c) =
  if decide (s' = s) then i_bytes (f (default default_incoming (incoming c !! s)))
  else slot_bytes s c.
Proof.
  unfold slot_bytes, Handle.with_slot. cbn. case_decide; subst;
    [by rewrite lookup_insert_eq|by rewrite lookup_insert_ne].
Qed.

Lemma absorb_one_bytes s c ev :
  slot_bytes s (Handle.absorb_one c ev) = slot_bytes s c ++ data_of s [ev] ∧
  shared (Handle.absorb_one c ev) = shared c.
Proof.
  destruct ev; cbn; rewrite ?(right_id_L [] (++)); try done;
    rewrite with_slot_bytes; case_decide; cbn; subst; by rewrite ?(right_id_L [] (++)).
Qed.

Lemma absorb_all_bytes s evs : ∀ c,
  slot_bytes s (foldl Handle.absorb_one c evs) = slot_bytes s c ++ data_of s evs ∧
  shared (foldl Handle.absorb_one c evs) = shared c.
Proof.
  induction evs as [|ev evs IH]; intros c; [cbn; by rewrite (right_id_L [] (++))|cbn [foldl]].
  destruct (IH (Handle.absorb_one c ev)) as [-> ->].
  destruct (absorb_one_bytes s c ev) as [-> ->]. split; [|done].
  rewrite <- (assoc_L (++)). by rewrite <- data_of_app.
Qed.

Lemma absorb_spec c w c' w' :
  Handle.absorb c w = (c', w') →
  shared c' = shared c ∧ observed (Mailbox.lock (shared c) w') = [] ∧
  ∀ s, slot_bytes s c' = slot_bytes s c ++ data_of s (observed (Mailbox.lock (shared c) w)).
Proof.
  unfold Handle.absorb, Mailbox.take_observed. intros [= <- <-].
  split_and!; [by apply (absorb_all_bytes 0)| |].
  - unfold Mailbox.lock, Mailbox.get, Mailbox.locked, Mailbox.update. cbn.
    rewrite lookup_alter_eq. by destruct (mailboxes w !! shared c).
  - intros s. by destruct (absorb_all_bytes s (observed (Mailbox.lock (shared c) w)) c) as [-> _].
Qed.

Lemma take_first_data s bidi evs id rest :
  Handle.take_first bidi evs = Some (id, rest) → data_of s rest = data_of s evs.
Proof.
  revert id rest. induction evs as [|ev evs IH]; intros id rest; [done|]. cbn [Handle.take_first].
  destruct (Handle.wanted bidi ev) as [id'|] eqn:Hw.
  - intros [= <- <-]. by destruct ev.
  - destruct (Handle.take_first bidi evs) as [[id' rest']|]; [|done]. intros [= <- <-].
    pose proof (IH _ _ eq_refl) as IHr. destruct ev; cbn; by rewrite ?IHr.
Qed.

Lemma put_back_there a evs w :
  is_Some (mailboxes (Mailbox.put_back a evs w) !! a) ↔ is_Some (mailboxes w !! a).
Proof.
  unfold Mailbox.put_back, Mailbox.wake_all, Fields.wake. cbn [mailboxes].
  by rewrite !locked_there.
Qed.

Lemma put_back_observed a evs w : is_Some (mailboxes w !! a) →
  observed (Mailbox.lock a (Mailbox.put_back a evs w)) = observed (Mailbox.lock a w) ++ evs.
Proof.
  intros Hb. unfold Mailbox.put_back, Mailbox.wake_all.
  change (Mailbox.lock a (Fields.wake ?ws ?w')) with (Mailbox.lock a w').
  rewrite !lock_locked by (by rewrite ?locked_there). done.
Qed.

(** A step is orderly: it leaves the bytes on their way as they are, but for those it records. *)
Definition brings (s : Z) a w h (evs : list Observed) w' h' : Prop :=
  orderly a w h → orderly a w' h' ∧ coming s a w' h' = coming s a w h ++ data_of s evs.

Lemma open_take_brings s a bidi w w' id h :
  Handle.open_take a bidi w = (w', id) → brings s a w h [] w' h.
Proof.
  unfold Handle.open_take. intros E [Hb Hh]. cbn [data_of]. rewrite (right_id_L [] (++)).
  destruct (Handle.take_first bidi _) as [[id' rest]|] eqn:Ht; injection E as <- <-; [|done].
  unfold orderly, coming. rewrite locked_there, lock_locked by done. cbn.
  rewrite (take_first_data _ _ _ _ _ Ht). split_and!; try done.
  destruct Hh as [->|Hh]; [by left|]. rewrite Hh in Ht. done.
Qed.

Lemma other_brings s a w h evs w' h' : other a w h evs w' h' → brings s a w h evs w' h'.
Proof.
  destruct 1 as [ev w|w w' evs E|w hands|bidi w w' id hands E|w w' hands Hm Ho]; intros [Hb Hh].
  - unfold orderly, coming, Mailbox.observe. rewrite locked_there, lock_locked by done. cbn [data_of].
    change (observed (Fields.set_observed ?v _)) with v. rewrite data_of_app, !(right_id_L [] (++)).
    split_and!; [done|by left|done].
  - injection E as <- <-. unfold orderly, coming. rewrite locked_there, lock_locked by done.
    cbn. rewrite !(right_id_L [] (++)). split_and!; [done|by right|done].
  - unfold orderly, coming. rewrite put_back_there, put_back_observed by done. cbn [data_of].
    rewrite data_of_app, !(right_id_L [] (++)). split_and!; [done|by left|done].
  - by eapply open_take_brings.
  - unfold orderly, coming. rewrite Ho. cbn. rewrite (right_id_L [] (++)). split_and!; auto.
Qed.

Lemma others_bring s a w h evs w' h' : others a w h evs w' h' → brings s a w h evs w' h'.
Proof.
  induction 1 as [w h|w h e w1 h1 es w2 h2 H1 _ IH]; intros Ho.
  - cbn. by rewrite (right_id_L [] (++)).
  - destruct (other_brings s _ _ _ _ _ _ H1 Ho) as [Ho1 E1]. destruct (IH Ho1) as [Ho2 E2].
    split; [done|]. by rewrite E2, E1, data_of_app, (assoc_L (++)).
Qed.

Lemma register_brings s a cx w h : brings s a w h [] (Mailbox.register a cx w).1 h.
Proof.
  intros [Hb Hh]. unfold orderly, coming. rewrite register_observed. cbn.
  rewrite (right_id_L [] (++)). split_and!; try done.
  unfold Mailbox.register. destruct (existsb _ _); [done|].
  cbn [fst]. by rewrite locked_there.
Qed.

Lemma meanwhile_brings s a cx before after w h evs h' :
  meanwhile a cx before after (Some w) h evs h' →
  brings s a w h evs (after (Mailbox.register a cx (before w)).1) h'.
Proof.
  intros (e1 & h1 & e2 & H1 & H2 & ->) Ho.
  destruct (others_bring s _ _ _ _ _ _ H1 Ho) as [Ho1 E1].
  destruct (register_brings s a cx _ _ Ho1) as [Ho2 E2].
  destruct (others_bring s _ _ _ _ _ _ H2 Ho2) as [Ho3 E3].
  split; [done|]. rewrite E3, E2, E1, data_of_app. cbn.
  by rewrite (right_id_L [] (++)), (assoc_L (++)).
Qed.

(** What a handle's own step does: nothing is lost, and it keeps its mailbox. *)
Definition gives (s : Z) c w h (evs : list Observed) (out : bytes) c' w' h' : Prop :=
  orderly (shared c) w h →
  shared c' = shared c ∧ orderly (shared c') w' h' ∧
  unread s c w h ++ data_of s evs = out ++ unread s c' w' h'.

Lemma absorb_gives s c w c' w' h : Handle.absorb c w = (c', w') → gives s c w h [] [] c' w' h.
Proof.
  intros Ha [Hb Hh]. destruct (absorb_spec _ _ _ _ Ha) as (Hs & Ho & Hu).
  unfold orderly, unread. rewrite Hs, Ho, Hu. cbn. rewrite !(right_id_L [] (++)), !(assoc_L (++)).
  split_and!; [done| |by right|done].
  unfold Handle.absorb, Mailbox.take_observed in Ha. injection Ha as <- <-. by rewrite locked_there.
Qed.

Lemma gives_more s c w h e1 o1 c1 w1 h1 e2 o2 c2 w2 h2 :
  gives s c w h e1 o1 c1 w1 h1 → gives s c1 w1 h1 e2 o2 c2 w2 h2 →
  gives s c w h (e1 ++ e2) (o1 ++ o2) c2 w2 h2.
Proof.
  intros H1 H2 Ho. destruct (H1 Ho) as (Hs1 & Ho1 & E1). destruct (H2 Ho1) as (Hs2 & Ho2 & E2).
  split_and!; [congruence|done|].
  by rewrite data_of_app, (assoc_L (++)), E1, <- !(assoc_L (++)), <- E2.
Qed.

Lemma brings_gives s c w h evs w' h' :
  brings s (shared c) w h evs w' h' → gives s c w h evs [] c w' h'.
Proof.
  intros Hb Ho. destruct (Hb Ho) as [Ho' E]. split_and!; [done|done|].
  cbn. unfold unread. fold (coming s (shared c) w h) (coming s (shared c) w' h').
  by rewrite E, (assoc_L (++)).
Qed.

(** A first look that finds nothing, and what others do before the second. *)
Lemma second_look s c w cx before after c0 w0 h e h' c' w' :
  Handle.absorb c w = (c0, w0) →
  meanwhile (shared c) cx before after (Some w0) h e h' →
  Handle.absorb c0 (after (Mailbox.register (shared c0) cx (before w0)).1) = (c', w') →
  gives s c w h e [] c' w' h'.
Proof.
  intros Ha Hm Ha1. destruct (absorb_spec _ _ _ _ Ha) as (Hs & _). rewrite <- Hs in Hm.
  pose proof (gives_more _ _ _ _ _ _ _ _ _ _ _ _ _ _ (absorb_gives s _ _ _ _ h Ha)
    (brings_gives _ _ _ _ _ _ _ (meanwhile_brings s _ _ _ _ _ _ _ _ Hm))) as Hg.
  pose proof (gives_more _ _ _ _ _ _ _ _ _ _ _ _ _ _ Hg (absorb_gives s _ _ _ _ h' Ha1)) as Hg1.
  cbn in Hg1. by rewrite (right_id_L [] (++)) in Hg1.
Qed.

Lemma take_chunk_gives stream slot c w c' w' chunk s h :
  Handle.readable stream c = Some slot → Handle.take_chunk stream slot c w = (c', w', chunk) →
  gives s c w h [] (if decide (stream = s) then ch_bytes chunk else []) c' w' h.
Proof.
  unfold Handle.readable, Handle.take_chunk. intros Hr [= <- <- <-] [Hb Hh].
  destruct (incoming c !! stream) as [slot'|] eqn:E; [|done].
  destruct (_ || _); [|done]. injection Hr as ->.
  set (c1 := Handle.set_incoming _ c).
  pose proof (consumed_observed c1 stream (length (i_bytes slot)) w) as Ho.
  change (shared c1) with (shared c) in Ho.
  unfold orderly, unread. change (shared c1) with (shared c). cbn [ch_bytes]. rewrite Ho.
  split_and!; [done| |done|].
  - unfold Handle.consumed. case_decide; [done|]. by apply locked_there.
  - cbn [data_of]. rewrite (right_id_L [] (++)).
    assert (slot_bytes s c = (if decide (stream = s) then i_bytes slot else []) ++ slot_bytes s c1)
      as ->; [|by rewrite !(assoc_L (++))].
    unfold slot_bytes, c1, Handle.set_incoming. cbn [incoming].
    case_decide; subst; [rewrite lookup_insert_eq, E; cbn; by rewrite (right_id_L [] (++))
                        |by rewrite lookup_insert_ne].
Qed.

Lemma read_poll_gives stream cx before after e c w c' w' r s h h' :
  meanwhile (shared c) cx before after (looks_again (can_read stream) c w) h e h' →
  Handle.read_poll stream cx before after c w = (c', w', r) →
  gives s c w h e (if decide (stream = s) then chunk_of r else []) c' w' h'.
Proof.
  unfold Handle.read_poll, looks_again. destruct (Handle.absorb c w) as [c0 w0] eqn:Ha.
  pose proof (absorb_gives s _ _ _ _ h Ha) as Hg.
  unfold can_read. destruct (Handle.readable stream c0) as [slot|] eqn:Hr.
  - rewrite bool_decide_true by done. cbn [negb andb]. intros [-> ->].
    destruct (Handle.take_chunk stream slot c0 w0) as [[c1 w1] chunk] eqn:Ht.
    pose proof (gives_more _ _ _ _ _ _ _ _ _ _ _ _ _ _ Hg
      (take_chunk_gives _ _ _ _ _ _ _ s h Hr Ht)) as Hg1. cbn [app] in Hg1.
    destruct (i_bytes slot) as [|b bs]; [destruct (i_reset slot)|];
      intros [= <- <- <-]; try exact Hg1.
    cbn [chunk_of]. by destruct (decide _).
  - rewrite bool_decide_false by (by intros [? ?]).
    destruct (Mailbox.is_closed (shared c0) w0); cbn [negb andb].
    { intros [-> ->] [= <- <- <-]. cbn [chunk_of]. by destruct (decide _). }
    intros Hm. destruct (Handle.absorb c0 _) as [c1 w1] eqn:Ha1.
    pose proof (second_look s _ _ _ _ _ _ _ _ _ _ _ _ Ha Hm Ha1) as Hg1.
    destruct (Handle.readable stream c1) as [slot|] eqn:Hr1.
    + destruct (Handle.take_chunk stream slot c1 w1) as [[c2 w2] chunk] eqn:Ht.
      intros [= <- <- <-]. cbn [chunk_of].
      pose proof (gives_more _ _ _ _ _ _ _ _ _ _ _ _ _ _ Hg1
        (take_chunk_gives _ _ _ _ _ _ _ s h' Hr1 Ht)) as Hg2.
      by rewrite (right_id_L [] (++)) in Hg2.
    + intros [= <- <- <-]. cbn [chunk_of]. by destruct (decide _).
Qed.

Lemma accept_poll_gives cx before after e c w c' w' r s h h' :
  meanwhile (shared c) cx before after (looks_again can_accept c w) h e h' →
  Handle.accept_poll cx before after c w = (c', w', r) → gives s c w h e [] c' w' h'.
Proof.
  unfold Handle.accept_poll, looks_again. destruct (Handle.absorb c w) as [c0 w0] eqn:Ha.
  pose proof (absorb_gives s _ _ _ _ h Ha) as Hg.
  unfold can_accept. destruct (pending_streams c0) as [|stream rest].
  - rewrite bool_decide_true by done.
    destruct (Mailbox.is_closed (shared c0) w0); cbn [negb andb].
    { by intros [-> ->] [= <- <- <-]. }
    intros Hm. destruct (Handle.absorb c0 _) as [c1 w1] eqn:Ha1.
    pose proof (second_look s _ _ _ _ _ _ _ _ _ _ _ _ Ha Hm Ha1) as Hg1.
    by destruct (pending_streams c1); intros [= <- <- <-].
  - rewrite bool_decide_false by done. cbn. by intros [-> ->] [= <- <- <-].
Qed.

Lemma open_poll_gives bidi cx before after e c w w' r s h h' :
  meanwhile (shared c) cx before after (opens_again bidi c w) h e h' →
  Handle.open_poll (shared c) bidi cx before after w = (w', r) → gives s c w h e [] c w' h'.
Proof.
  unfold Handle.open_poll, opens_again.
  destruct (Handle.open_take (shared c) bidi w) as [w0 found] eqn:Ht.
  pose proof (brings_gives s _ _ _ _ _ _ (open_take_brings s _ _ _ _ _ h Ht)) as Hg.
  destruct found as [id|]; [by intros [-> ->] [= <- <-]|].
  destruct (Mailbox.is_closed (shared c) w0); [by intros [-> ->] [= <- <-]|].
  intros Hm. destruct (Handle.open_take (shared c) bidi (after _)) as [w1 found] eqn:Ht1.
  pose proof (gives_more _ _ _ _ _ _ _ _ _ _ _ _ _ _ Hg
    (brings_gives _ _ _ _ _ _ _ (meanwhile_brings s _ _ _ _ _ _ _ _ Hm))) as Hg1.
  pose proof (gives_more _ _ _ _ _ _ _ _ _ _ _ _ _ _ Hg1
    (brings_gives _ _ _ _ _ _ _ (open_take_brings s _ _ _ _ _ h' Ht1))) as Hg2.
  cbn in Hg2. rewrite (right_id_L [] (++)) in Hg2.
  destruct found as [id|]; [by intros [= <- <-]|].
  by destruct (Mailbox.is_closed (shared c) w1); intros [= <- <-].
Qed.

Lemma write_gives stream data fin c w c' w' r s h :
  Handle.write stream data fin c w = (c', w', r) → gives s c w h [] [] c' w' h.
Proof.
  unfold Handle.write. destruct (Mailbox.is_closed _ _).
  { intros [= <- <- <-] Ho. cbn. by rewrite (right_id_L [] (++)). }
  destruct (Handle.absorb c w) as [c0 w0] eqn:Ha.
  pose proof (absorb_gives s _ _ _ _ h Ha) as Hg.
  destruct (stopped c0 !! stream); intros [= <- <- <-]; [done|].
  intros Ho. destruct (Hg Ho) as (Hs & Ho0 & E). unfold orderly, unread in *.
  rewrite push_observed. split_and!; [done| |apply Ho0|done].
  apply locked_there, Ho0.
Qed.

Lemma reading_gives s c w h evs out c' w' h' :
  reading s c w h evs out c' w' h' → gives s c w h evs out c' w' h'.
Proof.
  induction 1 as [c w h|c w h e w1 h1 evs out c' w' h' Ho _ IH
    |stream cx before after c w h e h1 c1 w1 r evs out c' w' h' Hm Hp _ IH
    |cx before after c w h e h1 c1 w1 r evs out c' w' h' Hm Hp _ IH
    |bidi cx before after c w h e h1 w1 r evs out c' w' h' Hm Hp _ IH
    |stream data fin c w h r c1 w1 evs out c' w' h' Hw _ IH
    |c w h c1 w1 evs out c' w' h' Ha _ IH].
  - intros Ho. cbn. by rewrite (right_id_L [] (++)).
  - exact (gives_more _ _ _ _ _ [] _ _ _ _ _ _ _ _
      (brings_gives s _ _ _ _ _ _ (others_bring s _ _ _ _ _ _ Ho)) IH).
  - exact (gives_more _ _ _ _ _ _ _ _ _ _ _ _ _ _ (read_poll_gives _ _ _ _ _ _ _ _ _ _ s _ _ Hm Hp) IH).
  - exact (gives_more _ _ _ _ _ [] _ _ _ _ _ _ _ _ (accept_poll_gives _ _ _ _ _ _ _ _ _ s _ _ Hm Hp) IH).
  - exact (gives_more _ _ _ _ _ [] _ _ _ _ _ _ _ _ (open_poll_gives _ _ _ _ _ _ _ _ _ s _ _ Hm Hp) IH).
  - exact (gives_more _ _ _ _ [] [] _ _ _ _ _ _ _ _ (write_gives _ _ _ _ _ _ _ _ s h Hw) IH).
  - exact (gives_more _ _ _ _ [] [] _ _ _ _ _ _ _ _ (absorb_gives s _ _ _ _ h Ha) IH).
Qed.

(** C40. A reader is given its stream.  On a connection the endpoint drives, however the
    operations of the handle -- its reads, accepts, writes and openings of streams -- and those
    of other tasks interleave, before, between and during its looks at the mailbox, and
    wherever the driver stands between taking what was recorded and putting it back: the
    bytes the reads of a stream give, followed by those not yet read, are the bytes that
    arrived on it, each once and in order. *)
Theorem reads_in_order s a w evs out c' w' h' :
  is_Some (mailboxes w !! a) →
  reading s (Handle.new a) w [] evs out c' w' h' →
  data_of s (observed (Mailbox.lock a w)) ++ data_of s evs = out ++ unread s c' w' h'.
Proof.
  intros Hb Hr. destruct (reading_gives _ _ _ _ _ _ _ _ _ Hr) as (_ & _ & E); [by split; [|left]|].
  rewrite <- E. unfold unread. cbn. by rewrite (right_id_L [] (++)).
Qed.
End Reading.

(** ** Small instances *)

Module MailboxToy.
#[local] Existing Instance nat_wakers.

Definition empty : World := mkWorld ∅ 1 (mkEndpointShared [] [] [] None false false) [].
Definition filled : list mailbox_op := MNew :: replicate 63 (MQueueOutbound 1 [x00]).
Definition full : World := default empty (run_mailbox filled empty).
Definition refused : World := (Mailbox.outbound_ready_or_register 1 7%nat full).1.
Definition drained : World := default empty (run_mailbox [MTakeOutbound 1] refused).

(** One datagram taken, the producer of task 7 has been woken. *)
Lemma parked_producer_owed_witness :
  Mailbox.outbound_has_room 1 drained = true ∧ woken_since 7%nat refused drained.
Proof.
  assert (Mailbox.outbound_has_room 1 drained = true) as Hroom by (vm_compute; reflexivity).
  split; [exact Hroom|].
  destruct (parked_producer_owed filled [MTakeOutbound 1] empty full refused drained 1 7%nat)
    as [[[Hfull _]|Hwoken] _];
    [reflexivity|vm_compute; reflexivity|vm_compute; by eexists|vm_compute; reflexivity
    |vm_compute; reflexivity|congruence|exact Hwoken].
Defined.

(** Two arrivals on one stream and one on another; the driver takes them; the handle reads,
    finds nothing and registers; the driver puts back what it took; the handle finds it. *)
Definition heard : World :=
  Mailbox.observe 1 (Data 0 [x01; x02] false) (Mailbox.observe 1 (Data 4 [x09] true)
    (Mailbox.observe 1 (Data 0 [x00] false) (Mailbox.new empty).1)).
Definition held : World := (Mailbox.take_observed 1 heard).1.
Definition in_hand : list Observed := (Mailbox.take_observed 1 heard).2.
Definition puts : World → World := Mailbox.put_back 1 in_hand.
Definition read := Handle.read_poll 0 7%nat id puts (Handle.new 1) held.

Lemma reads_in_order_witness :
  chunk_of read.2 = [x00; x01; x02] ∧
  chunk_of read.2 ++ unread 0 read.1.1 read.1.2 [] = [x00; x01; x02].
Proof.
  split; [by vm_compute|].
  pose proof (reads_in_order 0 1 heard ([] ++ [] ++ []) (chunk_of read.2 ++ []) read.1.1 read.1.2 []
    ltac:(by eexists)
    (reading_others 0 (Handle.new 1) heard [] [] held in_hand ([] ++ []) (chunk_of read.2 ++ [])
       read.1.1 read.1.2 []
       (others_cons 1 heard [] [] held in_hand [] held in_hand
          (driver_takes 1 heard held in_hand eq_refl) (others_nil 1 held in_hand))
       (reading_read 0 0 7%nat id puts (Handle.new 1) held in_hand [] [] read.1.1 read.1.2 read.2
          [] [] read.1.1 read.1.2 []
          (ex_intro _ [] (ex_intro _ in_hand (ex_intro _ [] (conj (others_nil 1 _ in_hand)
             (conj (others_cons 1 _ in_hand [] _ [] [] _ [] (driver_puts_back 1 _ in_hand)
                      (others_nil 1 _ [])) eq_refl)))))
          ltac:(by vm_compute) (reading_done 0 read.1.1 read.1.2 [])))) as Hr.
  rewrite !app_nil_r in Hr. rewrite <- Hr. by vm_compute.
Defined.
End MailboxToy.
