(* ===== verification/QuicEndpoint.v ===== *)
(** * The QUIC endpoint (crates/ngnet-quic/src/endpoint/{config,validate,driver,handle}.rs)

    One driver owns the socket, every connection on it and the table that routes datagrams to
    them; handles speak to it through mailboxes (QuicMailbox).  The socket, the clock, the
    TLS backend, the source of entropy sources and the order in which a hash map is walked are
    classes.  The driver's operations are a state monad in which [None] is a loop that ran
    past its fuel; a step of the driver is one [poll], between two of which handles and the
    owners of detached connections act.  Scratch buffers are not state, and the diagnostics
    feature is off. *)

From Stdlib Require Import ZArith Lia Strings.Byte.
From stdpp Require Import base list gmap strings countable.
From S2P Require Import Prelude QmuxScheduling QuicTypes QuicWire QuicRetain QuicConn QuicMailbox.

#[global] Instance byte_countable : Countable Byte.byte.
Proof.
  refine (inj_countable Byte.to_N Byte.of_N _). intros b. apply Byte.of_to_N.
Defined.

(** ** What the caller supplies *)

Inductive Sent := Complete | WouldBlock.

(** A datagram received is the part of the buffer the socket says it filled; an error is known
    by its text. *)
Class UdpSockets `{Wakers} := {
  socket : Type;
  poll_recv : Waker → nat → socket → socket * Poll (result (bytes * SocketAddr) string);
  poll_send : Waker → SocketAddr → bytes → socket → socket * Poll (result Sent string);
  socket_local_addr : socket → result SocketAddr string
}.

Class Clocks `{Wakers} := {
  clock : Type;
  now : clock → clock * Z;
  sleep : Type;
  sleep_until : Z → clock → clock * sleep;
  poll_sleep : Waker → sleep → sleep * Poll unit
}.

Class TlsBackends `{TlsSessions} := {
  backend : Type;
  new_session : Role → option string → backend → backend * Result tls_session
}.

Class EntropyFactories `{EntropySources} := {
  factory : Type;
  make : factory → factory * entropy
}.

(** ** endpoint/config.rs *)

Record Config := mkConfig {
  datagrams_per_pass : nat;
  initial_max_stream_data : Z;
  initial_max_data : Z;
  max_streams_bidi : Z;
  max_streams_uni : Z;
  max_idle_timeout : Z;
  initial_rtt : option Z;
  handshake_timeout : option Z
}.

Module ConfigOps.
Section Ops.
Context `{Ngtcp2Codes, Ngtcp2Defaults}.

Definition DEFAULT_DATAGRAMS_PER_PASS : nat := 64.

Definition default : Config :=
  mkConfig DEFAULT_DATAGRAMS_PER_PASS ParamsOps.DEFAULT_STREAM_DATA
    ParamsOps.DEFAULT_CONNECTION_DATA ParamsOps.DEFAULT_MAX_STREAMS ParamsOps.DEFAULT_MAX_STREAMS
    ParamsOps.DEFAULT_IDLE_TIMEOUT None None.

Definition set_initial_max_stream_data (n : Z) (c : Config) : Config :=
  mkConfig (datagrams_per_pass c) n (initial_max_data c) (max_streams_bidi c) (max_streams_uni
    c) (max_idle_timeout c) (initial_rtt c) (handshake_timeout c).
Definition set_initial_max_data (n : Z) (c : Config) : Config :=
  mkConfig (datagrams_per_pass c) (initial_max_stream_data c) n (max_streams_bidi c)
    (max_streams_uni c) (max_idle_timeout c) (initial_rtt c) (handshake_timeout c).
Definition set_max_streams_bidi (n : Z) (c : Config) : Config :=
  mkConfig (datagrams_per_pass c) (initial_max_stream_data c) (initial_max_data c) n
    (max_streams_uni c) (max_idle_timeout c) (initial_rtt c) (handshake_timeout c).
Definition set_max_streams_uni (n : Z) (c : Config) : Config :=
  mkConfig (datagrams_per_pass c) (initial_max_stream_data c) (initial_max_data c)
    (max_streams_bidi c) n (max_idle_timeout c) (initial_rtt c) (handshake_timeout c).
Definition set_max_idle_timeout (n : Z) (c : Config) : Config :=
  mkConfig (datagrams_per_pass c) (initial_max_stream_data c) (initial_max_data c)
    (max_streams_bidi c) (max_streams_uni c) n (initial_rtt c) (handshake_timeout c).
Definition set_initial_rtt (v : Z) (c : Config) : Config :=
  mkConfig (datagrams_per_pass c) (initial_max_stream_data c) (initial_max_data c)
    (max_streams_bidi c) (max_streams_uni c) (max_idle_timeout c) (Some v) (handshake_timeout c).
Definition set_handshake_timeout (v : Z) (c : Config) : Config :=
  mkConfig (datagrams_per_pass c) (initial_max_stream_data c) (initial_max_data c)
    (max_streams_bidi c) (max_streams_uni c) (max_idle_timeout c) (initial_rtt c) (Some v).

Definition datagrams_per_pass (n : nat) (c : Config) : Config :=
  mkConfig (Nat.max n 1) (initial_max_stream_data c) (initial_max_data c) (max_streams_bidi c)
    (max_streams_uni c) (max_idle_timeout c) (initial_rtt c) (handshake_timeout c).

Definition transport_params (c : Config) : RawParams :=
  ParamsOps.max_idle_timeout (max_idle_timeout c)
    (ParamsOps.initial_max_streams_uni (max_streams_uni c)
       (ParamsOps.initial_max_streams_bidi (max_streams_bidi c)
          (ParamsOps.initial_max_data (initial_max_data c)
             (ParamsOps.initial_max_stream_data_uni (initial_max_stream_data c)
                (ParamsOps.initial_max_stream_data_bidi_remote (initial_max_stream_data c)
                   (ParamsOps.initial_max_stream_data_bidi_local (initial_max_stream_data c)
                      ParamsOps.new)))))).

Definition settings (now : Z) (c : Config) : Settings :=
  let s := SettingsOps.new now in
  let s := match initial_rtt c with Some rtt => SettingsOps.initial_rtt rtt s | None => s end in
  match handshake_timeout c with
  | Some timeout => SettingsOps.handshake_timeout timeout s
  | None => s
  end.
End Ops.
End ConfigOps.

(** ** endpoint/validate.rs *)

Record Validation := mkValidation {
  secret : bytes;
  lifetime : Z;
  reset_budget : Z;
  reset_burst : Z;
  refilled_at : option Z
}.

Inductive Decision := AcceptDecision (original : ConnectionId) | RetryDecision (scid : ConnectionId) (token : bytes) | Ignore.

Module ValidationOps.
Section Ops.
Context `{Ngtcp2Codes, Ngtcp2Wire, EntropySources}.
Variable tgt : Target.

Definition DEFAULT_TOKEN_LIFETIME : Z := 10000000000.
Definition DEFAULT_RESET_BURST : Z := 100.

Definition new (secret : bytes) : Validation :=
  mkValidation secret DEFAULT_TOKEN_LIFETIME DEFAULT_RESET_BURST DEFAULT_RESET_BURST None.
Definition set_lifetime (l : Z) (v : Validation) : Validation :=
  mkValidation (secret v) l (reset_budget v) (reset_burst v) (refilled_at v).
Definition set_reset_burst (b : Z) (v : Validation) : Validation :=
  mkValidation (secret v) (lifetime v) b b (refilled_at v).

(** The identifier the packet's token was minted for, if it verifies. *)
Definition verified (v : Validation) (packet : InitialPacket) (remote : SocketAddr) (now : Z)
  : option ConnectionId :=
  match token packet with
  | RetryToken bs =>
      match Token.verify_retry_token tgt (secret v) bs (version packet) remote (dcid packet)
              (lifetime v) now with
      | Ok (Some original) => Some original
      | _ => None
      end
  | _ => None
  end.

Definition decide (v : Validation) (packet : InitialPacket) (remote : SocketAddr) (e : entropy)
    (now : Z) : Decision :=
  match verified v packet remote now with
  | Some original => AcceptDecision original
  | None =>
      match (Cid.generate e Cid.DEFAULT_LEN).2 with
      | Err _ => Ignore
      | Ok scid =>
          match Token.issue_retry_token tgt (secret v) (version packet) remote scid (dcid packet)
                  now with
          | Ok token => RetryDecision scid token
          | Err _ => Ignore
          end
      end
  end.

Definition take_reset_budget (now : Z) (v : Validation) : Validation * bool :=
  let v :=
    match refilled_at v with
    | Some at_ =>
        if 1000000000 <=? saturating_sub now at_
        then mkValidation (secret v) (lifetime v) (reset_burst v) (reset_burst v) (Some now)
        else v
    | None => mkValidation (secret v) (lifetime v) (reset_budget v) (reset_burst v) (Some now)
    end in
  if reset_budget v =? 0 then (v, false)
  else (mkValidation (secret v) (lifetime v) (reset_budget v - 1) (reset_burst v) (refilled_at v),
        true).
End Ops.
End ValidationOps.

(** ** endpoint/driver.rs *)

Definition MAX_DATAGRAM : nat := 1500.

(** The eleven handlers capture the connection's mailbox. *)
Definition handlers_for `{Wakers} (a : nat) : Handlers World :=
  mkHandlers
    (Some (λ id bs fin, Mailbox.observe a (Data id bs fin)))
    (Some (λ id, Mailbox.observe a (Opened id)))
    (Some (λ id reason, Mailbox.observe a (Closed id reason)))
    (Some (λ id code, Mailbox.observe a (Reset id code)))
    (Some (λ id code, Mailbox.observe a (StopSending id code)))
    (Some (λ id len, Mailbox.observe a (Acked id len)))
    (Some (Mailbox.observe a HandshakeCompleted))
    (Some (λ cid, Mailbox.observe_route a (Minted cid)))
    (Some (λ cid, Mailbox.observe_route a (Retired cid)))
    (Some (λ max w, Mailbox.wake_all a (Mailbox.observe a (StreamsExtended max) w)))
    (Some (λ max w, Mailbox.wake_all a (Mailbox.observe a (StreamsExtended max) w))).

Inductive Produced := InBuffer (datagram : bytes) | OwnedDatagram (datagram : bytes).

Definition produced_bytes (p : Produced) : bytes :=
  match p with InBuffer d => d | OwnedDatagram d => d end.

Section Records.
Context `{Ngtcp2, Owners, EntropySources, TlsSessions, Wakers}.

Record Tracked := mkTracked {
  conn : option (Conn ngtcp2_conn World);
  t_shared : nat;
  remote : SocketAddr;
  pending : option bytes;
  t_finished : bool
}.

Record DetachedConnection := mkDetached {
  dt_conn : Conn ngtcp2_conn World;
  dt_shared : nat;
  dt_remote : SocketAddr
}.

(** [DetachQueue]. *)
Record DetachQueue := mkQueue {
  ready : list (nat * DetachedConnection);
  q_wakers : list Waker
}.

(** [EndpointDriver], its [Inner], and what it shares with handles.  Whether a timescale and a
    sleeper were given is all the driver asks of them. *)
Context `{!UdpSockets, !Clocks, !TlsBackends, !EntropyFactories}.
Record Driver := mkDriver {
  socket_ : socket;
  clock_ : clock;
  backend_ : backend;
  config : Config;
  entropy_ : factory;
  connections : gmap Z Tracked;
  table : gmap bytes Z;
  next_index : Z;
  accepts : bool;
  outbox : list (SocketAddr * bytes);
  validation : option Validation;
  detached : DetachQueue;
  timescale : bool;
  sleeper : bool;
  sleeping : option sleep;
  sleeping_until : option Z;
  driver_stopped : bool;
  world : World
}.
End Records.

Module Endpoint.
Section Ops.
Context `{Ngtcp2, !Ngtcp2Wire, Ngtcp2Defaults, Owners, EntropySources, TlsSessions, Wakers}
  `{!UdpSockets, !Clocks, !TlsBackends, !EntropyFactories, !HashOrder}.
Variable tgt : Target.
Implicit Types (d : Driver) (cx : Waker).

Definition set_socket v d : Driver := mkDriver v (clock_ d) (backend_ d) (config d) (entropy_ d)
  (connections d) (table d) (next_index d) (accepts d) (outbox d) (validation d) (detached d)
  (timescale d) (sleeper d) (sleeping d) (sleeping_until d) (driver_stopped d) (world d).
Definition set_clock v d : Driver := mkDriver (socket_ d) v (backend_ d) (config d) (entropy_ d)
  (connections d) (table d) (next_index d) (accepts d) (outbox d) (validation d) (detached d)
  (timescale d) (sleeper d) (sleeping d) (sleeping_until d) (driver_stopped d) (world d).
Definition set_backend v d : Driver := mkDriver (socket_ d) (clock_ d) v (config d) (entropy_ d)
  (connections d) (table d) (next_index d) (accepts d) (outbox d) (validation d) (detached d)
  (timescale d) (sleeper d) (sleeping d) (sleeping_until d) (driver_stopped d) (world d).
Definition set_entropy v d : Driver := mkDriver (socket_ d) (clock_ d) (backend_ d) (config d) v
  (connections d) (table d) (next_index d) (accepts d) (outbox d) (validation d) (detached d)
  (timescale d) (sleeper d) (sleeping d) (sleeping_until d) (driver_stopped d) (world d).
Definition set_connections v d : Driver := mkDriver (socket_ d) (clock_ d) (backend_ d)
  (config d) (entropy_ d) v (table d) (next_index d) (accepts d) (outbox d) (validation d)
  (detached d) (timescale d) (sleeper d) (sleeping d) (sleeping_until d) (driver_stopped d)
  (world d).
Definition set_table v d : Driver := mkDriver (socket_ d) (clock_ d) (backend_ d) (config d)
  (entropy_ d) (connections d) v (next_index d) (accepts d) (outbox d) (validation d)
  (detached d) (timescale d) (sleeper d) (sleeping d) (sleeping_until d) (driver_stopped d)
  (world d).
Definition set_next_index v d : Driver := mkDriver (socket_ d) (clock_ d) (backend_ d) (config d)
  (entropy_ d) (connections d) (table d) v (accepts d) (outbox d) (validation d) (detached d)
  (timescale d) (sleeper d) (sleeping d) (sleeping_until d) (driver_stopped d) (world d).
Definition set_outbox v d : Driver := mkDriver (socket_ d) (clock_ d) (backend_ d) (config d)
  (entropy_ d) (connections d) (table d) (next_index d) (accepts d) v (validation d)
  (detached d) (timescale d) (sleeper d) (sleeping d) (sleeping_until d) (driver_stopped d)
  (world d).
Definition set_validation v d : Driver := mkDriver (socket_ d) (clock_ d) (backend_ d) (config d)
  (entropy_ d) (connections d) (table d) (next_index d) (accepts d) (outbox d) v (detached d)
  (timescale d) (sleeper d) (sleeping d) (sleeping_until d) (driver_stopped d) (world d).
Definition set_detached v d : Driver := mkDriver (socket_ d) (clock_ d) (backend_ d) (config d)
  (entropy_ d) (connections d) (table d) (next_index d) (accepts d) (outbox d) (validation d) v
  (timescale d) (sleeper d) (sleeping d) (sleeping_until d) (driver_stopped d) (world d).
Definition set_sleep s u d : Driver := mkDriver (socket_ d) (clock_ d) (backend_ d) (config d)
  (entropy_ d) (connections d) (table d) (next_index d) (accepts d) (outbox d) (validation d)
  (detached d) (timescale d) (sleeper d) s u (driver_stopped d) (world d).
Definition set_stopped v d : Driver := mkDriver (socket_ d) (clock_ d) (backend_ d) (config d)
  (entropy_ d) (connections d) (table d) (next_index d) (accepts d) (outbox d) (validation d)
  (detached d) (timescale d) (sleeper d) (sleeping d) (sleeping_until d) v (world d).
Definition set_world v d : Driver := mkDriver (socket_ d) (clock_ d) (backend_ d) (config d)
  (entropy_ d) (connections d) (table d) (next_index d) (accepts d) (outbox d) (validation d)
  (detached d) (timescale d) (sleeper d) (sleeping d) (sleeping_until d) (driver_stopped d) v.

(** *** The monad *)

Definition M (A : Type) : Type := Driver → option (Driver * A).
Definition ret {A} (a : A) : M A := λ d, Some (d, a).
Definition bind {A B} (m : M A) (k : A → M B) : M B := λ d,
  match m d with Some (d, a) => k a d | None => None end.
Definition gets {A} (f : Driver → A) : M A := λ d, Some (d, f d).
Definition modify (f : Driver → Driver) : M unit := λ d, Some (f d, ()).
Definition out_of_fuel {A} : M A := λ _, None.

Notation "'do' x ':=' m 'in' k" := (bind m (λ x, k))
  (at level 10, x pattern, m at level 100, k at level 200).

Fixpoint for_each {A} (f : A → M unit) (l : list A) : M unit :=
  match l with [] => ret () | x :: l => do _ := f x in for_each f l end.

(** On the mailboxes. *)
Definition on_world (f : World → World) : M unit := modify (λ d, set_world (f (world d)) d).
Definition with_world {A} (f : World → World * A) : M A := λ d,
  let '(w, a) := f (world d) in Some (set_world w d, a).

Definition read_clock : M Z := λ d,
  let '(c, t) := now (clock_ d) in Some (set_clock c d, t).
Definition new_source : M entropy := λ d,
  let '(f, e) := make (entropy_ d) in Some (set_entropy f d, e).
Definition open_session (r : Role) (name : option string) : M (Result tls_session) := λ d,
  let '(b, s) := new_session r name (backend_ d) in Some (set_backend b d, s).
Definition send cx (to : SocketAddr) (datagram : bytes) : M (Poll (result Sent string)) := λ d,
  let '(s, r) := poll_send cx to datagram (socket_ d) in Some (set_socket s d, r).
Definition recv cx : M (Poll (result (bytes * SocketAddr) string)) := λ d,
  let '(s, r) := poll_recv cx MAX_DATAGRAM (socket_ d) in Some (set_socket s d, r).

Definition tracked (index : Z) : M (option Tracked) := gets (λ d, connections d !! index).
Definition update (index : Z) (f : Tracked → Tracked) : M unit :=
  modify (λ d, set_connections (alter f index (connections d)) d).

Definition set_conn v t : Tracked := mkTracked v (t_shared t) (remote t) (pending t) (t_finished t).
Definition set_pending v t : Tracked := mkTracked (conn t) (t_shared t) (remote t) v (t_finished t).
Definition set_finished t : Tracked := mkTracked (conn t) (t_shared t) (remote t) (pending t) true.

(** An operation of a connection, if the endpoint drives one there. *)
Definition run {A} (index : Z) (m : ConnOps.M (C:=World) A) : M (option (Result A)) := λ d,
  match connections d !! index ≫= conn with
  | None => Some (d, None)
  | Some c =>
      let '((c, w), r) := m (c, world d) in
      Some (set_world w (set_connections (alter (set_conn (Some c)) index (connections d)) d),
            Some r)
  end.

(** One that cannot fail. *)
Definition query {A} (index : Z) (m : ConnOps.M (C:=World) A) (otherwise : A) : M A :=
  do r := run index m in
  ret match r with Some (Ok a) => a | _ => otherwise end.

Definition socket_failed (text : string) : EndpointError.Error :=
  EndpointError.with_source (EndpointError.SocketError text)
    (EndpointError.new EndpointError.Socket "the socket failed").

(** *** Routing *)

Definition install_routes (index : Z) : M unit :=
  do t := tracked index in
  match t ≫= conn with
  | None => ret ()
  | Some c =>
      do scids := query index ConnOps.scids [] in
      modify (λ d, set_table
        (foldl (λ m cid, <[Cid.as_bytes cid := index]> m) (table d) (scids ++ [c_scid c])) d)
  end.

Definition route (datagram : bytes) : M (option Z) := gets (λ d,
  match Accept.inspect datagram Cid.DEFAULT_LEN with
  | Ok i => table d !! Cid.as_bytes (Accept.inspected_dcid i)
  | Err _ => None
  end).

Definition apply_route (index : Z) (u : RouteUpdate) (m : gmap bytes Z) : gmap bytes Z :=
  match u with
  | Minted cid => <[Cid.as_bytes cid := index]> m
  | Retired cid => delete (Cid.as_bytes cid) m
  end.

Definition apply_routes (index : Z) : M unit :=
  do t := tracked index in
  match t with
  | None => ret ()
  | Some t =>
      do updates := with_world (Mailbox.take_routes (t_shared t)) in
      modify (λ d, set_table (foldl (λ m u, apply_route index u m) (table d) updates) d)
  end.

(** *** What was observed *)

Definition queue_deliver (key : nat) (c : DetachedConnection) : M unit := modify (λ d,
  set_world (Fields.wake (q_wakers (detached d)) (world d))
    (set_detached (mkQueue (ready (detached d) ++ [(key, c)]) []) d)).

Definition cannot_detach : EndpointError.Error :=
  EndpointError.new EndpointError.InvalidInput
    "this endpoint cannot detach connections; build it with build_detachable".

Definition hand_over (index : Z) : M unit :=
  do t := tracked index in
  match t with
  | None => ret ()
  | Some t =>
      match conn t with
      | None => ret ()
      | Some c =>
          do _ := update index (set_conn None) in
          let a := t_shared t in
          do key := gets (λ d, if Mailbox.detaches_to_acceptor a (world d) then 0%nat else a) in
          do ts := gets timescale in
          do sl := gets sleeper in
          if negb ts || negb sl then
            do _ := update index (set_conn (Some c)) in
            on_world (Mailbox.fail a cannot_detach)
          else queue_deliver key (mkDetached c a (remote t))
      end
  end.

Definition is_handshake_completed (ev : Observed) : bool :=
  match ev with HandshakeCompleted => true | _ => false end.

Definition absorb (index : Z) : M unit :=
  do t := tracked index in
  match t with
  | None => ret ()
  | Some t =>
      let a := t_shared t in
      do observed_ := with_world (Mailbox.take_observed a) in
      match observed_ with
      | [] => ret ()
      | _ =>
          do _ := match conn t with
                  | Some c => on_world (Mailbox.set_retained a (Z.of_nat (ConnOps.retained_bytes c)))
                  | None => ret ()
                  end in
          do _ := if existsb is_handshake_completed observed_
                  then on_world (Mailbox.mark_established a) else ret () in
          do wanted := gets (λ d, Mailbox.wants_detach a (world d) &&
                                  Mailbox.is_established a (world d)) in
          do _ := if (wanted : bool) then hand_over index else ret () in
          on_world (Mailbox.put_back a observed_)
      end
  end.

(** *** Commands *)

Definition write_stream (index stream : Z) (data : bytes) (fin : bool) cx : M unit :=
  do now := read_clock in
  do t := tracked index in
  match t with
  | None => ret ()
  | Some t =>
      let a := t_shared t in
      let requeue rest := on_world (Mailbox.push a (Write stream rest fin)) in
      match pending t, conn t with
      | Some _, _ => requeue data
      | None, None => ret ()
      | None, Some _ =>
          do limit := query index ConnOps.max_tx_udp_payload_size 0%nat in
          let permitted := Nat.max limit 1 in
          let chunk_len := Nat.min (length data) permitted in
          let last := fin && bool_decide (chunk_len = length data) in
          do outcome := run index (ConnOps.write_stream MAX_DATAGRAM stream (take chunk_len data) last now) in
          let produced datagram accepted (carried_stream : bool) :=
            do held := gets (λ d,
              match connections d !! index ≫= conn with
              | Some c => Z.of_nat (ConnOps.retained_bytes c)
              | None => 0
              end) in
            do disposition := send cx (remote t) datagram in
            do _ := match disposition with
                    | Ready (Ok Complete) => ret ()
                    | _ => update index (set_pending (Some datagram))
                    end in
            do _ := on_world (Mailbox.set_retained a held) in
            if negb carried_stream || (accepted <? length data)%nat
            then requeue (drop accepted data) else ret () in
          match outcome with
          | Some (Ok (StreamDatagram _ accepted, datagram)) => produced datagram accepted true
          | Some (Ok (DatagramWithoutStream _, datagram)) => produced datagram 0%nat false
          | Some (Ok _) => requeue data
          | Some (Err err) => on_world (Mailbox.fail a (EndpointError.from err))
          | None => ret ()
          end
      end
  end.

Definition close_connection (index code : Z) (reason : bytes) : M unit :=
  do now := read_clock in
  do t := tracked index in
  match t with
  | None => ret ()
  | Some t =>
      do written := run index (ConnOps.write_connection_close MAX_DATAGRAM code reason now) in
      do _ := match written with
              | Some (Ok (b :: bs)) =>
                  match pending t with
                  | Some _ => modify (λ d, set_outbox (outbox d ++ [(remote t, b :: bs)]) d)
                  | None => update index (set_pending (Some (b :: bs)))
                  end
              | _ => ret ()
              end in
      do _ := update index set_finished in
      on_world (Mailbox.fail (t_shared t)
        (EndpointError.new EndpointError.LocallyClosed "closed by this endpoint"))
  end.

Definition apply_command (index : Z) (a : nat) (c : Command) cx : M unit :=
  match c with
  | OpenStreamCommand bidi =>
      do opened := run index (if bidi then ConnOps.open_bidi_stream else ConnOps.open_uni_stream) in
      match opened with
      | Some (Ok id) =>
          on_world (λ w, Mailbox.wake_all a (Mailbox.observe a (LocallyOpened id) w))
      | Some (Err err) =>
          if decide (kind err = Blocked)
          then on_world (Mailbox.push a (OpenStreamCommand bidi))
          else on_world (Mailbox.fail a (EndpointError.from err))
      | None => ret ()
      end
  | Write stream data fin => write_stream index stream data fin cx
  | ResetCommand stream code => do _ := run index (ConnOps.reset_stream stream code) in ret ()
  | StopSendingCommand stream code => do _ := run index (ConnOps.stop_sending stream code) in ret ()
  | Close code reason => close_connection index code reason
  | ExtendCredit stream n =>
      do _ := run index (ConnOps.extend_max_stream_offset stream n) in
      do _ := run index (ConnOps.extend_max_offset n) in
      ret ()
  end.

(** A command for a connection that is no longer here, and those behind it, are dropped. *)
Fixpoint commands_loop (index : Z) (a : nat) (cs : list Command) cx : M unit :=
  match cs with
  | [] => ret ()
  | c :: cs =>
      do t := tracked index in
      match t ≫= conn with
      | None => ret ()
      | Some _ => do _ := apply_command index a c cx in commands_loop index a cs cx
      end
  end.

Definition apply_commands (index : Z) cx : M unit :=
  do t := tracked index in
  match t with
  | None => ret ()
  | Some t =>
      match conn t with
      | None => ret ()
      | Some _ =>
          do cs := with_world (Mailbox.take_commands (t_shared t)) in
          commands_loop index (t_shared t) cs cx
      end
  end.

(** *** Datagrams in *)

Definition deliver (index : Z) (datagram : bytes) : M unit :=
  do now := read_clock in
  do t := tracked index in
  match t with
  | None => ret ()
  | Some t =>
      let a := t_shared t in
      match conn t with
      | None => on_world (λ w, (Mailbox.deliver_inbound a datagram w).1)
      | Some _ =>
          do outcome := run index (ConnOps.read_pkt datagram now) in
          do _ := match outcome with
                  | Some (Ok (Draining | ClosingRead)) =>
                      do close := run index ConnOps.close_error in
                      match close with
                      | Some (Ok close) => on_world (Mailbox.fail_with_close a close)
                      | _ => ret ()
                      end
                  | Some (Err err) =>
                      do _ := update index set_finished in
                      on_world (Mailbox.fail a (EndpointError.from err))
                  | _ => ret ()
                  end in
          absorb index
      end
  end.

(** *** Timers *)

Definition handle_expiry (index : Z) : M unit :=
  do now := read_clock in
  do t := tracked index in
  match t with
  | None => ret ()
  | Some t =>
      let a := t_shared t in
      match conn t with
      | None => ret ()
      | Some _ =>
          do at_ := query index ConnOps.expiry None in
          if match at_ with None => true | Some at_ => now <? at_ end then ret ()
          else
            do outcome := run index (ConnOps.handle_expiry now) in
            do _ := match outcome with
                    | Some (Ok IdleClose) =>
                        do close := run index ConnOps.close_error in
                        do _ := update index set_finished in
                        match close with
                        | Some (Ok close) => on_world (Mailbox.fail_with_close a close)
                        | _ => ret ()
                        end
                    | Some (Ok Terminal) =>
                        do _ := update index set_finished in
                        on_world (Mailbox.fail a (EndpointError.new EndpointError.Transport
                          "the connection reached a terminal state"))
                    | Some (Err err) =>
                        on_world (Mailbox.fail a
                          (if bool_decide (native err = Some NGTCP2_ERR_HANDSHAKE_TIMEOUT)
                           then EndpointError.new EndpointError.HandshakeTimeout
                                  "the handshake did not complete in time"
                           else EndpointError.from err))
                    | _ => ret ()
                    end in
            absorb index
      end
  end.

Definition earlier (a b : option Z) : option Z :=
  match a, b with
  | Some a, Some b => Some (Z.min a b)
  | Some a, None => Some a
  | None, b => b
  end.

Fixpoint earliest_of (indices : list Z) : M (option Z) :=
  match indices with
  | [] => ret None
  | index :: rest =>
      do t := tracked index in
      do at_ := if match t with Some t => t_finished t | None => true end
                then ret None else query index ConnOps.expiry None in
      do others := earliest_of rest in
      ret (earlier at_ others)
  end.

Definition earliest_expiry : M (option Z) :=
  do indices := gets (λ d, keys (connections d)) in earliest_of indices.

Definition rearm cx : M (Poll unit) :=
  do deadline := earliest_expiry in
  match deadline with
  | None => do _ := modify (set_sleep None None) in ret Pending
  | Some deadline =>
      do until := gets sleeping_until in
      do _ := if decide (until = Some deadline) then ret ()
              else modify (λ d, set_sleep (Some (sleep_until deadline (clock_ d)).2) (Some deadline)
                     (set_clock (sleep_until deadline (clock_ d)).1 d)) in
      do s := gets sleeping in
      match s with
      | None => ret Pending
      | Some s =>
          match poll_sleep cx s with
          | (_, Ready _) => do _ := modify (set_sleep None None) in ret (Ready ())
          | (s, Pending) => do _ := modify (λ d, set_sleep (Some s) (sleeping_until d) d) in ret Pending
          end
      end
  end.

(** *** Datagrams out *)

Definition next_datagram (index : Z) : M (option Produced) :=
  do now := read_clock in
  do t := tracked index in
  match t with
  | None => ret None
  | Some t =>
      match pending t with
      | Some d =>
          do _ := update index (set_pending None) in
          ret (Some (OwnedDatagram d))
      | None =>
          do queued := with_world (Mailbox.take_outbound (t_shared t)) in
          match queued with
          | Some d => ret (Some (OwnedDatagram d))
          | None =>
              do written := run index (ConnOps.write_pkt MAX_DATAGRAM now) in
              match written with
              | Some (Ok (Datagram _, d)) => ret (Some (InBuffer d))
              | Some (Err err) =>
                  do _ := on_world (Mailbox.fail (t_shared t) (EndpointError.from err)) in ret None
              | _ => ret None
              end
          end
      end
  end.

Abbreviation EResult A := (result A EndpointError.Error).

Fixpoint flush_outbox cx (box : list (SocketAddr * bytes)) : M (EResult unit) :=
  match box with
  | [] => do _ := modify (set_outbox []) in ret (Ok ())
  | (destination, datagram) :: rest =>
      do sent := send cx destination datagram in
      match sent with
      | Ready (Ok Complete) => flush_outbox cx rest
      | Ready (Ok WouldBlock) | Pending => do _ := modify (set_outbox box) in ret (Ok ())
      | Ready (Err text) => do _ := modify (set_outbox rest) in ret (Err (socket_failed text))
      end
  end.

(** All that a connection has to send, until it has no more or the socket will not take it. *)
Fixpoint flush_connection (fuel : nat) cx (index : Z) : M (EResult unit) :=
  match fuel with
  | O => out_of_fuel
  | S fuel =>
      do produced := next_datagram index in
      match produced with
      | None => ret (Ok ())
      | Some p =>
          do t := tracked index in
          match t with
          | None => ret (Ok ())
          | Some t =>
              do sent := send cx (remote t) (produced_bytes p) in
              match sent with
              | Ready (Ok Complete) => flush_connection fuel cx index
              | Ready (Ok WouldBlock) | Pending =>
                  do _ := update index (set_pending (Some (produced_bytes p))) in ret (Ok ())
              | Ready (Err text) => ret (Err (socket_failed text))
              end
          end
      end
  end.

Fixpoint flush_connections (fuel : nat) cx (indices : list Z) : M (EResult unit) :=
  match indices with
  | [] => ret (Ok ())
  | index :: rest =>
      do r := flush_connection fuel cx index in
      match r with
      | Ok _ => flush_connections fuel cx rest
      | Err e => ret (Err e)
      end
  end.

Definition flush (fuel : nat) cx : M (EResult unit) :=
  do box := gets outbox in
  do r := flush_outbox cx box in
  match r with
  | Err e => ret (Err e)
  | Ok _ => do indices := gets (λ d, keys (connections d)) in flush_connections fuel cx indices
  end.

(** *** The connections themselves *)

Definition is_done (index : Z) : M bool :=
  do t := tracked index in
  match t with
  | None => ret false
  | Some t =>
      do w := gets world in
      match conn t with
      | Some _ =>
          if Mailbox.is_closed (t_shared t) w && bool_decide (pending t = None) then
            do draining := query index ConnOps.in_draining_period false in
            ret (draining || t_finished t)
          else ret false
      | None =>
          ret (Mailbox.is_terminal (t_shared t) w && negb (Mailbox.has_outbound (t_shared t) w))
      end
  end.

Fixpoint find_dead (indices : list Z) : M (list Z) :=
  match indices with
  | [] => ret []
  | index :: rest =>
      do dead := is_done index in
      do others := find_dead rest in
      ret (if (dead : bool) then index :: others else others)
  end.

(** Every identifier that routed there goes with it. *)
Definition forget (index : Z) d : Driver :=
  set_table (filter (λ r : bytes * Z, r.2 ≠ index) (table d))
    (set_connections (delete index (connections d)) d).

Definition evict : M unit :=
  do indices := gets (λ d, keys (connections d)) in
  do dead := find_dead indices in
  for_each (λ index, modify (forget index)) dead.

Definition no_address (text : string) : EndpointError.Error :=
  EndpointError.with_source (EndpointError.SocketError text)
    (EndpointError.new EndpointError.Socket "the socket has no address").

(** [ConnBuilder::build], with the handlers of a mailbox. *)
Definition build (b : ConnBuilder) (a : nat) : M (Result (Conn ngtcp2_conn World)) :=
  with_world (ConnOps.build tgt b (handlers_for a)).

Definition track (c : Conn ngtcp2_conn World) (a : nat) (to : SocketAddr) : M Z := λ d,
  let index := next_index d in
  Some (set_connections (<[index := mkTracked (Some c) a to None false]> (connections d))
          (set_next_index (index + 1) d), index).

Definition dial (to : SocketAddr) (server_name : option string) (a : nat) : M (EResult Z) :=
  do local := gets (λ d, socket_local_addr (socket_ d)) in
  match local with
  | Err text => ret (Err (no_address text))
  | Ok local =>
      do session := open_session Client server_name in
      match session with
      | Err e => ret (Err (EndpointError.from e))
      | Ok session =>
          do now := read_clock in
          do cfg := gets config in
          do e := new_source in
          do built := build (ConnOps.builder_new Client (ConfigOps.settings now cfg)
                               (ConfigOps.transport_params cfg) e session local to) a in
          match built with
          | Err e => ret (Err (EndpointError.from e))
          | Ok c =>
              do index := track c a to in
              do _ := install_routes index in
              ret (Ok index)
          end
      end
  end.

Definition accept (from : SocketAddr) (packet : InitialPacket) (original_dcid : ConnectionId)
    (retried : bool) (a : nat) : M (EResult Z) :=
  do local := gets (λ d, socket_local_addr (socket_ d)) in
  match local with
  | Err text => ret (Err (no_address text))
  | Ok local =>
      do session := open_session Server None in
      match session with
      | Err e => ret (Err (EndpointError.from e))
      | Ok session =>
          do now := read_clock in
          do cfg := gets config in
          let params := ParamsOps.original_dcid original_dcid (ConfigOps.transport_params cfg) in
          let settings := ConfigOps.settings now cfg in
          let '(params, settings) :=
            if retried
            then (ParamsOps.retry_scid (dcid packet) params,
                  SettingsOps.validated_token (Accept.token_bytes (token packet)) TokenRetry settings)
            else (params, settings) in
          do e := new_source in
          do built := build (ConnOps.builder_dcid (scid packet)
                               (ConnOps.builder_new Server settings params e session local from)) a in
          match built with
          | Err e => ret (Err (EndpointError.from e))
          | Ok c =>
              do index := track c a from in
              do _ := install_routes index in
              do _ := modify (λ d, set_table (<[Cid.as_bytes (dcid packet) := index]> (table d)) d) in
              ret (Ok index)
          end
      end
  end.

Definition fail_all (e : EndpointError.Error) : M unit :=
  do indices := gets (λ d, keys (connections d)) in
  for_each (λ index,
    do t := tracked index in
    match t with Some t => on_world (Mailbox.fail (t_shared t) e) | None => ret () end) indices.

Definition wake_all : M unit :=
  do indices := gets (λ d, keys (connections d)) in
  for_each (λ index,
    do t := tracked index in
    match t with Some t => on_world (Mailbox.wake_all (t_shared t)) | None => ret () end) indices.

Definition has_pending d : bool :=
  negb (bool_decide (outbox d = [])) ||
  existsb (λ p : Z * Tracked, bool_decide (is_Some (pending p.2))) (map_to_list (connections d)).

(** ** endpoint/handle.rs: the driver *)

Definition on_endpoint (f : EndpointShared → EndpointShared) : M unit :=
  on_world (λ w, Fields.set_endpoint (f (endpoint w)) w).

Definition drain_dials : M unit :=
  do dials := gets (λ d, dials (endpoint (world d))) in
  do _ := on_endpoint (Fields.set_dials []) in
  for_each (λ dl,
    do r := dial (d_remote dl) (d_server_name dl) (d_shared dl) in
    match r with
    | Ok _ => ret ()
    | Err e => on_world (Mailbox.fail (d_shared dl) e)
    end) dials.

Definition begin (datagram : bytes) (packet : InitialPacket) (source : SocketAddr) : M unit :=
  do policy := gets validation in
  do decision :=
    match policy with
    | Some policy =>
        do now := read_clock in
        do e := new_source in
        ret match ValidationOps.decide tgt policy packet source e now with
            | AcceptDecision original => inl (original, true)
            | other => inr other
            end
    | None => ret (inl (dcid packet, false))
    end in
  match decision with
  | inr (RetryDecision scid_ tok) =>
      let buffer := replicate MAX_DATAGRAM x00 in
      match Token.write_retry buffer (version packet) (scid packet) scid_ (dcid packet) tok with
      | (buffer, Ok len) => modify (λ d, set_outbox (outbox d ++ [(source, take len buffer)]) d)
      | (_, Err _) => ret ()
      end
  | inr _ => ret ()
  | inl (original, retried) =>
      do a := with_world Mailbox.new in
      do wanted := gets (λ d, detached_accepts (endpoint (world d))) in
      do _ := if (wanted : bool) then on_world (Mailbox.request_detach_to_acceptor a) else ret () in
      do r := accept source packet original retried a in
      match r with
      | Err _ => ret ()
      | Ok index =>
          do _ := deliver index datagram in
          do w := gets world in
          if Mailbox.detaches_to_acceptor a w then ret ()
          else
            do _ := on_endpoint (λ e, Fields.set_accepted (accepted e ++ [a]) e) in
            on_world Mailbox.wake_acceptors
      end
  end.

Definition answer_unmatched (datagram : bytes) (source : SocketAddr) : M unit :=
  do now := read_clock in
  do policy := gets validation in
  match policy with
  | None => ret ()
  | Some policy =>
      let '(policy, permitted) := ValidationOps.take_reset_budget now policy in
      do _ := modify (set_validation (Some policy)) in
      if negb permitted then ret ()
      else
        match Accept.inspect datagram Cid.DEFAULT_LEN with
        | Err _ => ret ()
        | Ok i =>
            match Token.reset_token (secret policy) (Accept.inspected_dcid i) with
            | Err _ => ret ()
            | Ok tok =>
                do e := new_source in
                match (fill e (length datagram)).2 with
                | Err _ => ret ()
                | Ok random =>
                    let buffer := replicate MAX_DATAGRAM x00 in
                    match Token.write_stateless_reset_smaller_than buffer tok random
                            (length datagram) with
                    | (buffer, Ok (Some len)) =>
                        modify (λ d, set_outbox (outbox d ++ [(source, take len buffer)]) d)
                    | _ => ret ()
                    end
                end
            end
        end
  end.

Definition dispatch (datagram : bytes) (source : SocketAddr) : M unit :=
  do r := route datagram in
  match r with
  | Some index => deliver index datagram
  | None =>
      do accepting := gets accepts in
      if negb accepting then ret ()
      else if (length datagram <? 21)%nat then ret ()
      else
        match Accept.inspect_initial datagram with
        | Ok (Some packet) => begin datagram packet source
        | Ok None | Err _ => answer_unmatched datagram source
        end
  end.

Fixpoint read_loop (n : nat) cx (progressed : bool) : M (EResult bool) :=
  match n with
  | O => ret (Ok progressed)
  | S n =>
      do received := recv cx in
      match received with
      | Ready (Ok (datagram, source)) =>
          do _ := dispatch datagram source in read_loop n cx true
      | Ready (Err text) => ret (Err (socket_failed text))
      | Pending => ret (Ok progressed)
      end
  end.

Definition read_datagrams cx : M (EResult bool) :=
  do cfg := gets config in read_loop (datagrams_per_pass cfg) cx false.

Definition service_one cx (index : Z) : M unit :=
  do _ := apply_routes index in
  do _ := apply_commands index cx in
  handle_expiry index.

Definition service (fuel : nat) cx : M (EResult unit) :=
  do indices := gets (λ d, keys (connections d)) in
  do _ := for_each (service_one cx) indices in
  do r := flush fuel cx in
  match r with
  | Err e => ret (Err e)
  | Ok _ => do _ := evict in ret (Ok ())
  end.

Definition stop_failed (e : EndpointError.Error) : M (Poll (EResult unit)) :=
  do _ := fail_all (EndpointError.new EndpointError.Socket "the socket failed") in
  do _ := modify (set_stopped true) in
  do _ := on_world Mailbox.mark_gone in
  ret (Ready (Err e)).

(** Up to eight passes. *)
Fixpoint passes (n fuel : nat) cx : M (Poll (EResult unit)) :=
  match n with
  | O => ret Pending
  | S n =>
      do _ := drain_dials in
      do r := read_datagrams cx in
      match r with
      | Err e => stop_failed e
      | Ok read =>
          do ready := gets (λ d, existsb
            (λ a, Mailbox.is_established a (world d) || Mailbox.is_closed a (world d))
            (accepted (endpoint (world d)))) in
          do _ := if (ready : bool) then on_world Mailbox.wake_acceptors else ret () in
          do r := service fuel cx in
          match r with
          | Err e => stop_failed e
          | Ok _ =>
              do fired := rearm cx in
              if (read : bool) then
                do _ := on_world (Fields.wake [cx]) in ret Pending
              else
                do p := gets has_pending in
                match fired with
                | Pending => if negb p then ret Pending else passes n fuel cx
                | Ready _ => passes n fuel cx
                end
          end
      end
  end.

Definition poll (fuel : nat) cx : M (Poll (EResult unit)) :=
  do stopped := gets driver_stopped in
  if (stopped : bool) then ret (Ready (Ok ()))
  else
    do _ := on_world (Mailbox.register_driver cx) in
    passes 8 fuel cx.

Definition drop_driver : M unit :=
  do _ := fail_all (EndpointError.new EndpointError.DriverGone "the endpoint driver was dropped") in
  do _ := wake_all in
  do dials := gets (λ d, dials (endpoint (world d))) in
  do _ := on_endpoint (Fields.set_dials []) in
  do _ := for_each (λ dl, on_world (Mailbox.fail (d_shared dl)
    (EndpointError.new EndpointError.DriverGone
       "the endpoint driver was dropped before this connection was opened"))) dials in
  on_world Mailbox.mark_gone.

(** ** endpoint/handle.rs: handles *)

Record EndpointBuilder := mkEndpointBuilder {
  eb_socket : socket;
  eb_clock : clock;
  eb_backend : backend;
  eb_config : Config;
  eb_entropy : option factory;
  eb_accepts : bool;
  eb_validation : option bytes;
  eb_token_lifetime : option Z;
  eb_reset_burst : option Z
}.

Definition builder_new (s : socket) (c : clock) (b : backend) : EndpointBuilder :=
  mkEndpointBuilder s c b ConfigOps.default None false None None None.

Definition builder_config (v : Config) (b : EndpointBuilder) : EndpointBuilder :=
  mkEndpointBuilder (eb_socket b) (eb_clock b) (eb_backend b) v (eb_entropy b) (eb_accepts b)
    (eb_validation b) (eb_token_lifetime b) (eb_reset_burst b).
Definition builder_entropy (v : factory) (b : EndpointBuilder) : EndpointBuilder :=
  mkEndpointBuilder (eb_socket b) (eb_clock b) (eb_backend b) (eb_config b) (Some v)
    (eb_accepts b) (eb_validation b) (eb_token_lifetime b) (eb_reset_burst b).
Definition builder_accepts (v : bool) (b : EndpointBuilder) : EndpointBuilder :=
  mkEndpointBuilder (eb_socket b) (eb_clock b) (eb_backend b) (eb_config b) (eb_entropy b) v
    (eb_validation b) (eb_token_lifetime b) (eb_reset_burst b).
Definition validate_addresses (v : bytes) (b : EndpointBuilder) : EndpointBuilder :=
  mkEndpointBuilder (eb_socket b) (eb_clock b) (eb_backend b) (eb_config b) (eb_entropy b)
    (eb_accepts b) (Some v) (eb_token_lifetime b) (eb_reset_burst b).
Definition token_lifetime (v : Z) (b : EndpointBuilder) : EndpointBuilder :=
  mkEndpointBuilder (eb_socket b) (eb_clock b) (eb_backend b) (eb_config b) (eb_entropy b)
    (eb_accepts b) (eb_validation b) (Some v) (eb_reset_burst b).
Definition stateless_reset_burst (v : Z) (b : EndpointBuilder) : EndpointBuilder :=
  mkEndpointBuilder (eb_socket b) (eb_clock b) (eb_backend b) (eb_config b) (eb_entropy b)
    (eb_accepts b) (eb_validation b) (eb_token_lifetime b) (Some v).

Definition empty_world : World :=
  mkWorld ∅ 1 (mkEndpointShared [] [] [] None false false) [].

(** [build] shares no timescale and no sleeper, [build_detachable] both. *)
Definition assemble (detachable : bool) (b : EndpointBuilder) : EResult Driver :=
  match eb_entropy b with
  | None => Err (EndpointError.new EndpointError.InvalidInput
      "an endpoint needs a source of randomness; see EndpointBuilder::entropy")
  | Some e =>
      let policy :=
        match eb_validation b with
        | None => None
        | Some secret =>
            let v := ValidationOps.new secret in
            let v := match eb_token_lifetime b with
                     | Some l => ValidationOps.set_lifetime l v | None => v end in
            Some match eb_reset_burst b with
                 | Some n => ValidationOps.set_reset_burst n v | None => v end
        end in
      Ok (mkDriver (eb_socket b) (eb_clock b) (eb_backend b) (eb_config b) e ∅ ∅ 0 (eb_accepts b)
            [] policy (mkQueue [] []) detachable detachable None None false empty_world)
  end.

Definition build_endpoint (b : EndpointBuilder) : EResult Driver := assemble false b.
Definition build_detachable (b : EndpointBuilder) : EResult Driver := assemble true b.

Definition driver_gone : EndpointError.Error :=
  EndpointError.new EndpointError.DriverGone "the endpoint driver is not running".

(** The dial, for the mailbox of the connection to come. *)
Definition ask_dial (to : SocketAddr) (server_name : option string) (a : nat) w : World :=
  if gone (endpoint w) then Mailbox.fail a driver_gone w
  else
    let w := Fields.set_endpoint
      (Fields.set_dials (dials (endpoint w) ++ [mkDial to server_name a]) (endpoint w)) w in
    Mailbox.wake_driver w.

Definition connect (to : SocketAddr) (server_name : option string) w : World * nat :=
  let '(w, a) := Mailbox.new w in (ask_dial to server_name a w, a).

Definition connecting_now (a : nat) w : option (EResult Connection) :=
  if Mailbox.is_established a w then Some (Ok (Handle.new a))
  else if Mailbox.is_closed a w then Some (Err (Mailbox.failure a w))
  else None.

Definition connecting_poll (a : nat) cx (before after : World → World) w
  : World * Poll (EResult Connection) :=
  match connecting_now a w with
  | Some r => (w, Ready r)
  | None =>
      let w := after (Mailbox.register a cx (before w)).1 in
      match connecting_now a w with
      | Some r => (w, Ready r)
      | None => (w, Pending)
      end
  end.

(** At most once around the queue: the first that is established; the closed are dropped. *)
Fixpoint take_ready_loop (n : nat) (l : list nat) w : list nat * option nat :=
  match n, l with
  | S n, a :: l =>
      if Mailbox.is_established a w then (l, Some a)
      else if Mailbox.is_closed a w then take_ready_loop n l w
      else take_ready_loop n (l ++ [a]) w
  | _, _ => (l, None)
  end.

Definition take_ready w : World * option nat :=
  let l := accepted (endpoint w) in
  let '(l, r) := take_ready_loop (length l) l w in
  (Fields.set_endpoint (Fields.set_accepted l (endpoint w)) w, r).

Definition accepting_poll cx (before after : World → World) w : World * Poll (EResult Connection) :=
  let '(w, r) := take_ready w in
  match r with
  | Some a => (w, Ready (Ok (Handle.new a)))
  | None =>
      if gone (endpoint w) then (w, Ready (Err driver_gone))
      else
        let w := after (Mailbox.register_endpoint cx (before w)) in
        let '(w, r) := take_ready w in
        match r with
        | Some a => (w, Ready (Ok (Handle.new a)))
        | None => (w, Pending)
        end
  end.

(** *** Detached connections: the mailbox waited for, or none for an accept *)

Definition connect_detached (to : SocketAddr) (server_name : option string) w : World * nat :=
  let '(w, a) := Mailbox.new w in
  (ask_dial to server_name a (Mailbox.request_detach a w), a).

Definition accept_detached w : World := Mailbox.wake_driver (Mailbox.request_detached_accepts w).

(** The first filed under the key, and the others. *)
Fixpoint take_keyed (key : nat) (l : list (nat * DetachedConnection))
  : option (DetachedConnection * list (nat * DetachedConnection)) :=
  match l with
  | [] => None
  | (k, c) :: rest =>
      if decide (k = key) then Some (c, rest)
      else match take_keyed key rest with
           | Some (found, others) => Some (found, (k, c) :: others)
           | None => None
           end
  end.

Definition queue_take (key : nat) (q : DetachQueue) : DetachQueue * option DetachedConnection :=
  match take_keyed key (ready q) with
  | Some (c, rest) => (mkQueue rest (q_wakers q), Some c)
  | None => (q, None)
  end.

(** [abandon]: what was filed is released. *)
Definition queue_abandon (key : nat) (q : DetachQueue) w : DetachQueue * World :=
  match take_keyed key (ready q) with
  | Some (c, rest) => (mkQueue rest (q_wakers q), Mailbox.mark_terminal (dt_shared c) w)
  | None => (q, w)
  end.

Definition queue_register (waker : Waker) (q : DetachQueue) : DetachQueue :=
  if existsb (λ r, will_wake r waker) (q_wakers q) then q
  else mkQueue (ready q) (q_wakers q ++ [waker]).

Definition detaching_key (a : option nat) : nat := default 0%nat a.

(** Settled exactly when it answers. *)
Definition detaching_poll (a : option nat) cx (q : DetachQueue) w
  : DetachQueue * World * Poll (EResult DetachedConnection) :=
  let '(q, found) := queue_take (detaching_key a) q in
  match found with
  | Some c => (q, w, Ready (Ok c))
  | None =>
      match a with
      | Some a =>
          if Mailbox.is_closed a w then (q, w, Ready (Err (Mailbox.failure a w)))
          else if gone (endpoint w) then (q, w, Ready (Err driver_gone))
          else
            (queue_register cx q,
             Mailbox.register_endpoint cx (Mailbox.register a cx w).1, Pending)
      | None =>
          if gone (endpoint w) then (q, w, Ready (Err driver_gone))
          else (queue_register cx q, Mailbox.register_endpoint cx w, Pending)
      end
  end.

Definition detaching_drop (a : option nat) (settled : bool) (q : DetachQueue) w
  : DetachQueue * World :=
  match settled, a with
  | false, Some a =>
      let '(q, w) := queue_abandon a q w in (q, Mailbox.mark_terminal a w)
  | _, _ => (q, w)
  end.

(** What the owner of a detached connection calls.  [None] is a failed assertion. *)
Definition next_inbound (c : DetachedConnection) w : World * option bytes :=
  Mailbox.take_inbound (dt_shared c) w.
Definition take_observed (c : DetachedConnection) w : World * list Observed :=
  Mailbox.take_observed (dt_shared c) w.
Definition outbound_has_room (c : DetachedConnection) w : bool :=
  Mailbox.outbound_has_room (dt_shared c) w.
Definition detached_send (c : DetachedConnection) (datagram : bytes) w : option World :=
  Mailbox.queue_outbound (dt_shared c) datagram w.
Definition send_close (c : DetachedConnection) (datagram : bytes) w : option World :=
  Mailbox.queue_close_outbound (dt_shared c) datagram w.
Definition register (c : DetachedConnection) (waker : Waker) w : World * bool :=
  Mailbox.register (dt_shared c) waker w.
Definition poll_outbound_capacity (c : DetachedConnection) (waker : Waker) w : World * bool :=
  Mailbox.outbound_ready_or_register (dt_shared c) waker w.
Definition dropped_inbound (c : DetachedConnection) w : Z :=
  Mailbox.dropped_inbound (dt_shared c) w.
Definition release (c : DetachedConnection) w : World := Mailbox.mark_terminal (dt_shared c) w.
End Ops.
End Endpoint.
