(* ===== verification/QuicToys.v ===== *)
(** * An endpoint small enough to run

    A library, a socket, a clock and a TLS backend on which an endpoint runs to its end; the
    theorems about it are instantiated with them. *)

From Stdlib Require Import ZArith Lia Strings.Byte.
From stdpp Require Import base list gmap strings countable.
From S2P Require Import Prelude QmuxScheduling QuicTypes QuicWire QuicRetain QuicConn QuicSafety QuicMailbox QuicEndpoint.

Module EndpointToy.

Definition no_path : Path.PathStorage := Path.mkPath [] [].
Definition no_error : ccerr := mkCcerr 0 0 0 None.
Definition scid : ConnectionId := mkCid 8 (replicate 8 x2a).

(** A connection is the number of packets it has to write, which every packet read raises; the
    first packet completes the handshake. *)
Definition answer (rq : request) (B : Type) (cb : B → callback → B * cb_answer) (n : nat)
    (b : B) : nat * B * response :=
  match rq with
  | ReqReadPkt p _ _ => (S n, (cb b CbHandshakeCompleted).1, mkResponse 0 0 [] p [] no_error)
  | ReqWritePkt p _ _ =>
      match n with
      | O => (O, b, mkResponse 0 0 [] p [] no_error)
      | S n => (n, b, mkResponse 30 0 (replicate 30 x55) p [] no_error)
      end
  | ReqGetScidCount => (n, b, mkResponse 1 0 [] no_path [] no_error)
  | ReqGetScids => (n, b, mkResponse 1 0 [] no_path [scid] no_error)
  | ReqGetExpiry => (n, b, mkResponse U64_MAX 0 [] no_path [] no_error)
  | ReqGetPathMaxTxUdpPayloadSize => (n, b, mkResponse 1200 0 [] no_path [] no_error)
  | _ => (n, b, mkResponse 0 0 [] no_path [] no_error)
  end.

Definition library : Ngtcp2 := {|
  ngtcp2_codes := ToyCodes.codes;
  ngtcp2_conn := nat;
  ngtcp2_conn_new _ B cb b := (b, Ok 2%nat);
  ngtcp2_call := answer;
  ngtcp2_ccerr_set_liberr rv r := mkCcerr 0 rv 0 (Some r);
  ngtcp2_ccerr_set_application_error c r := mkCcerr 1 c 0 (Some r)
|}.

(** Datagrams begin with their form: 1 for a first packet, 2 for one with a token, others for
    a short header, whose identifier follows. *)
Definition wire : Ngtcp2Wire := {|
  pkt_decode_version_cid d n := (0, mkVersionCid 0 (Some (take 8 (drop 1 d))) None);
  ngtcp2_accept d :=
    match d with
    | x01 :: _ => (0, mkPktHd 1 scid scid None)
    | x02 :: _ => (0, mkPktHd 1 scid scid (Some [xb6; x01]))
    | _ => (-1, mkPktHd 0 scid scid None)
    end;
  pkt_write_version_negotiation _ _ _ _ _ := Err (-1);
  crypto_write_retry _ _ _ _ _ token := Ok (x03 :: token);
  pkt_write_stateless_reset _ token random := Ok (random ++ token);
  crypto_generate_retry_token _ _ _ _ _ _ := Ok [xb6; x00];
  crypto_verify_retry_token token _ _ _ _ _ _ :=
    match token with [_; x01] => Ok scid | _ => Err (-1) end;
  crypto_generate_stateless_reset_token _ _ := Ok (replicate 16 x77)
|}.

#[export] Instance toy_wire : @Ngtcp2Wire := wire.
#[export] Instance toy_library : Ngtcp2 := @logged library.
#[export] Instance toy_recorded : @Recorded toy_library := @quic_logged_recorded library.
#[export] Instance toy_defaults : Ngtcp2Defaults := ToyCodes.defaults.
#[export] Instance toy_sources : EntropySources := ToyCodes.sources.
#[export] Instance toy_owners : Owners := {| lend := λ n, replicate n x61 |}.
#[export] Instance toy_sessions : TlsSessions := {|
  tls_session := unit;
  set_local_transport_params := λ t _, (t, true);
  session_negotiated_alpn := λ _, None
|}.
#[export] Instance toy_wakers : Wakers := nat_wakers.

(** What it has received, what it has sent, and how many more it takes before it would block. *)
Record socket_state := mkSocket {
  arriving : list (bytes * SocketAddr);
  gone_out : list (SocketAddr * bytes);
  room : nat
}.

Definition here : SocketAddr := V4 (map Zb [127; 0; 0; 1]) 4433.
Definition there : SocketAddr := V4 (map Zb [10; 0; 0; 7]) 9.

#[export] Instance toy_sockets : @UdpSockets toy_wakers := {|
  socket := socket_state;
  poll_recv _ _ s :=
    match arriving s with
    | [] => (s, Pending)
    | p :: rest => (mkSocket rest (gone_out s) (room s), Ready (Ok p))
    end;
  poll_send _ to x s :=
    match room s with
    | O => (s, Ready (Ok WouldBlock))
    | S n => (mkSocket (arriving s) (gone_out s ++ [(to, x)]) n, Ready (Ok Complete))
    end;
  socket_local_addr _ := Ok here
|}.

(** It ticks when it is read. *)
#[export] Instance toy_clocks : @Clocks toy_wakers := {|
  clock := Z; now c := (c + 1, c); sleep := Z;
  sleep_until at_ c := (c, at_); poll_sleep _ s := (s, Pending)
|}.
#[export] Instance toy_backends : @TlsBackends toy_sessions := {|
  backend := unit; new_session _ _ b := (b, Ok tt)
|}.
#[export] Instance toy_factories : @EntropyFactories toy_sources := {|
  factory := nat; make f := (S f, f)
|}.
#[export, refine] Instance toy_order : HashOrder := {|
  keys A m := (map_to_list m).*1
|}.
Proof. done. Defined.

Definition target : Target := mkTarget Linux false.

Definition builder (arriving : list (bytes * SocketAddr)) (room : nat) : Endpoint.EndpointBuilder :=
  Endpoint.mkEndpointBuilder (mkSocket arriving [] room) 0 () ConfigOps.default (Some 0%nat) true
    (Some (replicate 16 x13)) None None.

Definition initial (arriving : list (bytes * SocketAddr)) (room : nat) : Driver :=
  match Endpoint.assemble true (builder arriving room) with
  | Ok d => d
  | Err _ => mkDriver (mkSocket [] [] 0) 0 () ConfigOps.default 0%nat ∅ ∅ 0 false [] None
      (mkQueue [] []) false false None None true Endpoint.empty_world
  end.

Lemma initial_ok arriving room : Endpoint.assemble true (builder arriving room) = Ok (initial arriving room).
Proof. reflexivity. Qed.

(** [None], with nothing to show for it, if it ran out of fuel. *)
Definition after {A} (m : Endpoint.M A) (d : Driver) : Driver :=
  match m d with Some (d, _) => d | None => d end.
Definition runs {A} (m : Endpoint.M A) (d : Driver) : bool :=
  match m d with Some _ => true | None => false end.

Lemma after_ok {A} (m : Endpoint.M A) d : runs m d = true → ∃ a, m d = Some (after m d, a).
Proof. unfold runs, after. destruct (m d) as [[d' a]|]; [|done]. intros _. by exists a. Qed.
End EndpointToy.
