(* ===== verification/QuicEndpointFacts.v ===== *)
(** * What the QUIC endpoint guarantees

    Strangers leave no trace but one answer, a Retry or less than they sent
    ([strangers_cost_nothing]), at a bounded rate ([resets_bounded]); the driver's [absorb] is
    what the theorem about readers takes it for ([absorb_at_mailbox]); every route leads to a
    connection that is there, and no two connections share a mailbox ([routes_live]); what a
    connection has to send leaves in order, none lost ([flush_in_order]). *)

From Stdlib Require Import ZArith Lia Strings.Byte.
From stdpp Require Import base list gmap strings countable.
From S2P Require Import Prelude Traces QmuxScheduling QuicTypes QuicWire QuicRetain QuicConn QuicSafety QuicMailbox QuicMailboxFacts QuicEndpoint QuicToys.

(** ** Strangers *)

Section Strangers.
Context `{Ngtcp2, !Ngtcp2Wire, Ngtcp2Defaults, Owners, EntropySources, TlsSessions, Wakers}
  `{!UdpSockets, !Clocks, !TlsBackends, !EntropyFactories, !HashOrder}.
Variable tgt : Target.

(** One queued answer at most, and nothing else but the budget. *)
Definition only_answered (d d' : Driver) (source : SocketAddr) (v' : Validation)
    (answers : list (SocketAddr * bytes)) : Prop :=
  connections d' = connections d ∧ table d' = table d ∧ next_index d' = next_index d ∧
  world d' = world d ∧ socket_ d' = socket_ d ∧ outbox d' = outbox d ++ answers ∧
  validation d' = Some v' ∧ (length answers ≤ 1)%nat ∧ Forall (λ a, a.1 = source) answers.

Lemma only_answered_none d d' source v :
  connections d' = connections d → table d' = table d → next_index d' = next_index d →
  world d' = world d → socket_ d' = socket_ d → outbox d' = outbox d →
  validation d' = Some v → only_answered d d' source v [].
Proof. intros. unfold only_answered. rewrite (right_id_L [] (++)). split_and!; try done. cbn. lia. Qed.

(** A Retry for a first packet: what the library writes, in a buffer of a datagram's size,
    for the identifiers of the packet, a fresh one of ours and a token minted for the source
    and bound to both. *)
Definition is_retry (v : Validation) (packet : InitialPacket) (source : SocketAddr) (now : Z)
    (e : entropy) (answer : bytes) : Prop :=
  ∃ fresh tok,
    (Cid.generate e Cid.DEFAULT_LEN).2 = Ok fresh ∧
    crypto_generate_retry_token (secret v) (version packet) (Token.sockaddr_of tgt source) fresh
      (dcid packet) now = Ok tok ∧
    crypto_write_retry MAX_DATAGRAM (version packet) (scid packet) fresh (dcid packet) tok
      = Ok answer.

(** A stateless reset: what the library writes for the token of the identifier the datagram
    was addressed to, behind random octets. *)
Definition is_reset (v : Validation) (datagram : bytes) (e : entropy) (answer : bytes) : Prop :=
  ∃ i tok random k,
    Accept.inspect datagram Cid.DEFAULT_LEN = Ok i ∧
    crypto_generate_stateless_reset_token (secret v) (Accept.inspected_dcid i) = Ok tok ∧
    (fill e (length datagram)).2 = Ok random ∧ (Token.MIN_RESET_RANDOM ≤ k)%nat ∧
    pkt_write_stateless_reset MAX_DATAGRAM tok (take k random) = Ok answer.

Lemma issued_retry_token sec ver source fresh odcid t tok :
  Token.issue_retry_token tgt sec ver source fresh odcid t = Ok tok →
  crypto_generate_retry_token sec ver (Token.sockaddr_of tgt source) fresh odcid t = Ok tok.
Proof.
  unfold Token.issue_retry_token.
  destruct (crypto_generate_retry_token _ _ _ _ _ _); [by intros [= ->]|done].
Qed.

Lemma minted_reset_token sec cid tok :
  Token.reset_token sec cid = Ok tok →
  crypto_generate_stateless_reset_token sec cid = Ok tok.
Proof.
  unfold Token.reset_token.
  destruct (crypto_generate_stateless_reset_token _ _); [by intros [= ->]|done].
Qed.

(** Taking from the budget leaves the secret. *)
Lemma reset_secret t v : secret (ValidationOps.take_reset_budget t v).1 = secret v.
Proof. unfold ValidationOps.take_reset_budget. by repeat case_match. Qed.

Lemma begin_unverified d datagram packet source d' u v :
  Endpoint.begin tgt datagram packet source d = Some (d', u) → validation d = Some v →
  ValidationOps.verified tgt v packet source (now (clock_ d)).2 = None →
  ∃ answers, only_answered d d' source v answers ∧
    Forall (λ a, is_retry v packet source (now (clock_ d)).2 (make (entropy_ d)).2 a.2) answers.
Proof.
  intros Hd Hv Hn. unfold Endpoint.begin, Endpoint.bind, Endpoint.gets, Endpoint.read_clock,
    Endpoint.new_source, Endpoint.ret, Endpoint.modify, ValidationOps.decide in Hd.
  rewrite Hv in Hd. destruct (now (clock_ d)) as [c t]. cbn [snd] in Hn |- *.
  cbn [entropy_ Endpoint.set_clock] in Hd.
  destruct (make (entropy_ d)) as [f e]. rewrite Hn in Hd. cbn [snd].
  destruct (Cid.generate e Cid.DEFAULT_LEN).2 as [scid_|] eqn:Hg;
    [destruct (Token.issue_retry_token _ _ _ _ _ _ _) as [tok|] eqn:Ht|];
    [destruct (Token.write_retry _ _ _ _ _ _) as [buffer [len|]] eqn:Hw| |];
    injection Hd as <- <-;
    try (by exists []; split; [apply only_answered_none|]).
  exists [(source, take len buffer)]. split.
  - unfold only_answered. split_and!; try done; by repeat constructor.
  - apply Forall_singleton. exists scid_, tok. split_and!; [done| |].
    + by apply issued_retry_token.
    + apply write_retry_packet in Hw. by rewrite length_replicate in Hw.
Qed.

Lemma unmatched_answer d datagram source d' u v :
  Endpoint.answer_unmatched datagram source d = Some (d', u) → validation d = Some v →
  let '(v', granted) := ValidationOps.take_reset_budget (now (clock_ d)).2 v in
  ∃ answers, only_answered d d' source v' answers ∧
    Forall (λ a, (length a.2 < length datagram)%nat ∧
                 is_reset v datagram (make (entropy_ d)).2 a.2) answers ∧
    (answers ≠ [] → granted = true).
Proof.
  intros Hd Hv. unfold Endpoint.answer_unmatched, Endpoint.bind, Endpoint.gets,
    Endpoint.read_clock, Endpoint.new_source, Endpoint.ret, Endpoint.modify in Hd.
  destruct (now (clock_ d)) as [c t]. cbn [snd]. cbn [validation Endpoint.set_clock] in Hd.
  rewrite Hv in Hd. pose proof (reset_secret t v) as Hsec.
  destruct (ValidationOps.take_reset_budget t v) as [v' granted]. cbn [fst] in Hsec.
  destruct granted; cbn [negb] in Hd;
    [|injection Hd as <- <-; exists []; split_and!; [by apply only_answered_none|done|done]].
  destruct (Accept.inspect _ _) as [i|] eqn:Hi;
    [destruct (Token.reset_token _ _) as [tok|] eqn:Ht|];
    [cbn [entropy_ Endpoint.set_clock Endpoint.set_validation] in Hd;
     destruct (make (entropy_ d)) as [f e]; destruct (fill e _).2 as [random|] eqn:Hr| |];
    [destruct (Token.write_stateless_reset_smaller_than _ _ _ _) as [buffer [[len|]|]] eqn:Hw| | |];
    injection Hd as <- <-;
    try (by exists []; split_and!; [apply only_answered_none|done|done]).
  destruct (reset_is_smaller _ _ _ _ _ _ Hw) as [Hlen (k & Hk & Hp)].
  rewrite length_replicate in Hp.
  exists [(source, take len buffer)]. split_and!; [| |done].
  - unfold only_answered. split_and!; try done; by repeat constructor.
  - apply Forall_singleton. split; [done|]. exists i, tok, random, k. split_and!; try done.
    rewrite Hsec in Ht. by apply minted_reset_token.
Qed.

(** C38. Strangers cost nothing to remember.  When an endpoint validates addresses, a datagram
    from nobody it knows, without a token that verifies, makes no connection and leaves no
    route, mailbox or wakeup behind: all it can do is queue one answer, to where it came from.
    The answer to a first packet is a Retry and nothing else, octet for octet what the library
    wrote for a token minted for that source; the answer to anything else is a stateless reset
    for the identifier the datagram was addressed to, octet for octet what the library wrote,
    smaller than the datagram and paid for from the budget of resets. *)
Theorem strangers_cost_nothing d datagram source d' u v :
  Endpoint.dispatch tgt datagram source d = Some (d', u) →
  Endpoint.route datagram d = Some (d, None) →
  validation d = Some v →
  (∀ packet, Accept.inspect_initial datagram = Ok (Some packet) →
     ValidationOps.verified tgt v packet source (now (clock_ d)).2 = None) →
  let t := (now (clock_ d)).2 in
  let e := (make (entropy_ d)).2 in
  let budget := ValidationOps.take_reset_budget t v in
  ∃ answers,
    only_answered d d' source v answers ∧
      Forall (λ a, ∃ packet, Accept.inspect_initial datagram = Ok (Some packet) ∧
                             is_retry v packet source t e a.2) answers ∨
    only_answered d d' source budget.1 answers ∧
      (∀ packet, Accept.inspect_initial datagram ≠ Ok (Some packet)) ∧
      Forall (λ a, (length a.2 < length datagram)%nat ∧ is_reset v datagram e a.2) answers ∧
      (answers ≠ [] → budget.2 = true).
Proof.
  intros Hd Hr Hv Htok t e budget. unfold Endpoint.dispatch, Endpoint.bind in Hd. rewrite Hr in Hd.
  unfold Endpoint.gets, Endpoint.ret in Hd.
  destruct (accepts d); cbn [negb] in Hd;
    [|injection Hd as <- <-; exists []; left; split; [by apply only_answered_none|done]].
  destruct (length datagram <? 21)%nat;
    [injection Hd as <- <-; exists []; left; split; [by apply only_answered_none|done]|].
  destruct (Accept.inspect_initial datagram) as [[packet|]|] eqn:Hi.
  - destruct (begin_unverified _ _ _ _ _ _ _ Hd Hv (Htok _ eq_refl)) as (answers & Ha & Hf).
    exists answers. left. split; [done|]. rewrite Forall_forall in Hf |- *.
    intros a Hin. exists packet. by split; [|apply Hf].
  - pose proof (unmatched_answer _ _ _ _ _ _ Hd Hv) as Ha. subst budget t.
    destruct (ValidationOps.take_reset_budget _ v). destruct Ha as (answers & Ha & Hf & Hg).
    exists answers. right. by split_and!.
  - pose proof (unmatched_answer _ _ _ _ _ _ Hd Hv) as Ha. subst budget t.
    destruct (ValidationOps.take_reset_budget _ v). destruct Ha as (answers & Ha & Hf & Hg).
    exists answers. right. by split_and!.
Qed.
End Strangers.

(** ** The driver's [absorb], at the mailbox: it takes what was recorded, and puts it back *)

Section Absorbing.
Context `{Ngtcp2, !Ngtcp2Wire, Ngtcp2Defaults, Owners, EntropySources, TlsSessions, Wakers}
  `{!UdpSockets, !Clocks, !TlsBackends, !EntropyFactories, !HashOrder}.

(** What is recorded at a mailbox is not touched. *)
Definition leaves (a : nat) (w w' : World) : Prop :=
  (is_Some (mailboxes w !! a) → is_Some (mailboxes w' !! a)) ∧
  observed (Mailbox.lock a w') = observed (Mailbox.lock a w).

#[local] Instance leaves_preorder a : PreOrder (leaves a).
Proof.
  split; [by intros w; split|]. intros w1 w2 w3 [Hm1 E1] [Hm2 E2].
  split; [auto|congruence].
Qed.

Lemma leaves_update a f w :
  (∀ s, observed (inner (f s)) = observed (inner s)) → leaves a w (Mailbox.update a f w).
Proof.
  intros Hf. unfold leaves, Mailbox.update, Mailbox.lock, Mailbox.get. cbn.
  rewrite lookup_alter_eq. destruct (mailboxes w !! a) as [s|]; cbn; [|done].
  split; [by eexists|apply Hf].
Qed.

Lemma leaves_wake_all a w : leaves a w (Mailbox.wake_all a w).
Proof. by apply (leaves_update a (λ s, Fields.set_inner (Fields.set_wakers [] (inner s)) s)). Qed.

Lemma leaves_established a w : leaves a w (Mailbox.mark_established a w).
Proof.
  unfold Mailbox.mark_established.
  etrans; [by apply (leaves_update a (Fields.set_established true))|apply leaves_wake_all].
Qed.

Lemma leaves_fail a e w : leaves a w (Mailbox.fail a e w).
Proof.
  unfold Mailbox.fail. etrans; [|apply leaves_wake_all].
  etrans; [|by apply (leaves_update a (Fields.set_closed true))].
  apply leaves_update. intros s. cbn. by destruct (failure (inner s)).
Qed.

Lemma hand_over_leaves a index d d' u t :
  connections d !! index = Some t → t_shared t = a →
  Endpoint.hand_over index d = Some (d', u) → leaves a (world d) (world d').
Proof.
  intros Ht <-. unfold Endpoint.hand_over, Endpoint.tracked, Endpoint.bind, Endpoint.gets,
    Endpoint.update, Endpoint.modify, Endpoint.on_world, Endpoint.queue_deliver, Endpoint.ret.
  rewrite Ht. destruct (conn t); [|by intros [= <- <-]].
  destruct (_ || _); intros [= <- <-]; [apply leaves_fail|done].
Qed.

Lemma bind_split {A B} (m : Endpoint.M A) (k : A → Endpoint.M B) d d' b :
  Endpoint.bind m k d = Some (d', b) → ∃ d1 a, m d = Some (d1, a) ∧ k a d1 = Some (d', b).
Proof. unfold Endpoint.bind. destruct (m d) as [[d1 a]|]; [by eauto|done]. Qed.

Lemma absorb_at_mailbox index d d' u t :
  connections d !! index = Some t → Endpoint.absorb index d = Some (d', u) →
  others (t_shared t) (world d) [] [] (world d') [].
Proof.
  intros Ht. unfold Endpoint.absorb. intros (d0 & ? & E & Hd)%bind_split.
  injection E as <- <-. rewrite Ht in Hd. cbn zeta in Hd.
  apply bind_split in Hd as (d1 & evs & E & Hd). unfold Endpoint.with_world in E.
  destruct (Mailbox.take_observed (t_shared t) (world d)) as [w1 evs'] eqn:Hw.
  injection E as <- ->. pose proof (driver_takes _ _ _ _ Hw) as Htake.
  destruct evs as [|ev evs].
  { injection Hd as <- <-. exact (others_cons _ _ _ [] _ _ [] _ _ Htake (others_nil _ _ _)). }
  apply bind_split in Hd as (d2 & ? & E2 & Hd).
  apply bind_split in Hd as (d3 & ? & E3 & Hd).
  apply bind_split in Hd as (d4 & ? & E4 & Hd).
  apply bind_split in Hd as (d5 & ? & E5 & Hd). injection E4 as <- <-. injection Hd as <- <-.
  assert (leaves (t_shared t) w1 (world d2) ∧ connections d2 = connections d) as [L2 Hc2].
  { destruct (conn t); injection E2 as <- <-; (split; [|done]); [by apply leaves_update|done]. }
  assert (leaves (t_shared t) (world d2) (world d3) ∧ connections d3 = connections d2)
    as [L3 Hc3].
  { destruct (existsb _ _); injection E3 as <- <-; (split; [|done]);
      [apply leaves_established|done]. }
  assert (leaves (t_shared t) (world d3) (world d5)) as L5.
  { destruct (_ && _); [|by injection E5 as <- <-].
    eapply hand_over_leaves; [by rewrite Hc3, Hc2|done|exact E5]. }
  assert (leaves (t_shared t) w1 (world d5)) as [Hm Ho] by (etrans; [|exact L5]; by etrans).
  apply (others_cons _ _ _ [] _ _ [] _ _ Htake).
  apply (others_cons _ _ _ [] _ _ [] _ _ (elsewhere _ _ _ _ Hm Ho)).
  exact (others_cons _ _ _ [] _ _ [] _ _ (driver_puts_back _ _ _) (others_nil _ _ _)).
Qed.
End Absorbing.

(** ** The budget of resets *)

Section Budget.

(** How many of the resets asked for at these times are granted. *)
Fixpoint grants (v : Validation) (times : list Z) : Z :=
  match times with
  | [] => 0
  | t :: times =>
      let '(v, granted) := ValidationOps.take_reset_budget t v in
      (if granted then 1 else 0) + grants v times
  end.

Definition budget_ok (v : Validation) : Prop := 0 ≤ reset_budget v ≤ reset_burst v.

(** Refilled within the second, it is not refilled again. *)
Lemma grants_refilled T times : ∀ v r,
  0 ≤ reset_budget v → refilled_at v = Some r → T ≤ r →
  Forall (λ t, T ≤ t < T + 1000000000) times → grants v times ≤ reset_budget v.
Proof.
  induction times as [|t times IH]; intros v r Hb Hr HT Ht; cbn; [done|].
  inversion_clear Ht as [|? ? Ht1 Hts]. unfold ValidationOps.take_reset_budget. rewrite Hr.
  rewrite (proj2 (Z.leb_gt _ _)) by (unfold saturating_sub; lia).
  destruct (Z.eqb_spec (reset_budget v) 0) as [E|E].
  - pose proof (IH v r Hb Hr HT Hts). lia.
  - pose proof (IH (mkValidation (secret v) (lifetime v) (reset_budget v - 1) (reset_burst v)
      (Some r)) r ltac:(cbn; lia) eq_refl HT Hts) as IH'. cbn [reset_budget] in IH'.
    rewrite Hr. lia.
Qed.

(** Resets are rationed.  Of the stateless resets asked for within any one second, whatever
    the clock does within it, no more are granted than the burst allows twice over: what was
    left when it began, and one refill. *)
Theorem resets_bounded T times v :
  budget_ok v → Forall (λ t, T ≤ t < T + 1000000000) times →
  grants v times ≤ 2 * reset_burst v.
Proof.
  intros Hok Ht. cut (grants v times ≤ reset_budget v + reset_burst v);
    [unfold budget_ok in Hok; lia|].
  revert v Hok Ht. induction times as [|t times IH]; intros v [Hb Hle] Ht; [cbn; lia|].
  inversion_clear Ht as [|? ? Ht1 Hts]. cbn [grants]. unfold ValidationOps.take_reset_budget.
  set (v1 := match refilled_at v with Some _ => _ | None => _ end).
  assert (reset_burst v1 = reset_burst v ∧ budget_ok v1 ∧
    (v1 = v ∨ refilled_at v1 = Some t)) as (Hburst & [Hb1 Hle1] & Hv1).
  { unfold v1, budget_ok. destruct (refilled_at v) as [r|]; [destruct (_ <=? _)|]; cbn;
      split_and!; try done; try lia; auto. }
  clearbody v1.
  destruct (Z.eqb_spec (reset_budget v1) 0) as [E|E].
  - destruct Hv1 as [->|Hr]; [pose proof (IH v ltac:(split; lia) Hts); lia|].
    pose proof (grants_refilled T times v1 t Hb1 Hr ltac:(lia) Hts). lia.
  - set (v2 := mkValidation _ _ _ _ _).
    destruct Hv1 as [->|Hr].
    + assert (reset_burst v2 = reset_burst v ∧ reset_budget v2 = reset_budget v - 1) as [E1 E2] by done.
      pose proof (IH v2 ltac:(split; lia) Hts). lia.
    + pose proof (grants_refilled T times v2 t ltac:(cbn; lia) Hr ltac:(lia) Hts) as Hg.
      cbn [v2 reset_budget] in Hg. lia.
Qed.
End Budget.

(** ** What the operations of a connection do to the application's state

    They run its handlers, and nothing else. *)

Section Confined.
Context `{R : Recorded, Ngtcp2Defaults, Owners, EntropySources, TlsSessions} {C : Type}.
Variables (h : Handlers C) (RW : C → C → Prop).
Context `{!PreOrder RW}.

Record handlers_keep : Prop := mkHandlersKeep {
  hk_data f : on_stream_data h = Some f → ∀ s bs fin c, RW c (f s bs fin c);
  hk_open f : on_stream_open h = Some f → ∀ s c, RW c (f s c);
  hk_close f : on_stream_close h = Some f → ∀ s r c, RW c (f s r c);
  hk_reset f : on_stream_reset h = Some f → ∀ s e c, RW c (f s e c);
  hk_stop f : on_stop_sending h = Some f → ∀ s e c, RW c (f s e c);
  hk_acked f : on_acked_stream_data h = Some f → ∀ s n c, RW c (f s n c);
  hk_completed f : on_handshake_completed h = Some f → ∀ c, RW c (f c);
  hk_new f : on_new_connection_id h = Some f → ∀ x c, RW c (f x c);
  hk_remove f : on_remove_connection_id h = Some f → ∀ x c, RW c (f x c);
  hk_bidi f : on_extend_max_local_streams_bidi h = Some f → ∀ n c, RW c (f n c);
  hk_uni f : on_extend_max_local_streams_uni h = Some f → ∀ n c, RW c (f n c)
}.
Hypothesis keep : handlers_keep.

Ltac kept :=
  first [ by apply (hk_data keep) | by apply (hk_open keep) | by apply (hk_close keep)
        | by apply (hk_reset keep) | by apply (hk_stop keep) | by apply (hk_acked keep)
        | by apply (hk_completed keep) | by apply (hk_new keep) | by apply (hk_remove keep)
        | by apply (hk_bidi keep) | by apply (hk_uni keep) ].

Definition bridged (w w' : QuicConn.World C) : Prop :=
  match w_bridge w, w_bridge w' with
  | Some b, Some b' => RW (b_context b) (b_context b')
  | None, None => True
  | _, _ => False
  end.

Lemma bridged_refl w w' : w_bridge w' = w_bridge w → bridged w w'.
Proof. unfold bridged. intros ->. by destruct (w_bridge w). Qed.

Lemma bridged_trans w1 w2 w3 : bridged w1 w2 → bridged w2 w3 → bridged w1 w3.
Proof.
  unfold bridged. destruct (w_bridge w1), (w_bridge w2), (w_bridge w3); try done.
  intros. by etransitivity.
Qed.

Lemma with_bridge_bridged (w : QuicConn.World C) f :
  (∀ b, RW (b_context b) (b_context (f b))) → bridged w (Callbacks.with_bridge w f).1.
Proof.
  intros Hf. unfold bridged, Callbacks.with_bridge. destruct (w_bridge w) as [b|] eqn:Hb; cbn; [done|].
  by rewrite Hb.
Qed.

Lemma run_keeps {F} (o : option F) (f : F → C → C) b :
  (∀ x, o = Some x → ∀ c, RW c (f x c)) → RW (b_context b) (b_context (Callbacks.run o f b)).
Proof. intros Ho. unfold Callbacks.run. destruct o as [x|]; cbn; [by apply Ho|done]. Qed.

Lemma callbacks_bridged w c w' a : Callbacks.callbacks h w c = (w', a) → bridged w w'.
Proof.
  intros E. replace w' with (Callbacks.callbacks h w c).1 by by rewrite E. clear E.
  destruct c; cbn [Callbacks.callbacks];
    try (unfold Callbacks.on_stream; apply with_bridge_bridged; intros b;
         repeat (destruct (is_ok _)); try done; cbn beta zeta;
         first [apply run_keeps|apply (run_keeps _ _ (mkBridge (b_context b) _))];
         intros f Hf c; kept).
  - unfold Callbacks.rand_cb. case_decide; [by apply bridged_refl|].
    destruct (fill _ _) as [? []]; by apply bridged_refl.
  - unfold Callbacks.get_new_connection_id_cb, Callbacks.fill_from_conn_rand.
    destruct (w_thread w); cbn; [|by apply bridged_refl].
    destruct (fill (rand_source (w_rand w)) _) as [s1 [c1|]]; cbn; [|by apply bridged_refl].
    destruct (negb _); [by apply bridged_refl|].
    destruct (fill s1 _) as [s2 [c2|]]; cbn; [|by apply bridged_refl].
    unfold bridged. destruct (w_bridge w) as [b|] eqn:Hb; cbn; [|by rewrite Hb].
    apply run_keeps. intros f Hf c. kept.
  - unfold Callbacks.get_path_challenge_data2_cb.
    destruct (fill _ _) as [? []]; by apply bridged_refl.
Qed.

Lemma runs_bridged_context w tr w' : runs (Callbacks.callbacks h) w tr w' → bridged w w'.
Proof.
  induction 1 as [|tr w1 c w2 a _ IH Hc]; [by apply bridged_refl|].
  eapply bridged_trans; [done|]. by eapply callbacks_bridged.
Qed.

Definition confined {A} (m : ConnOps.M (C:=C) A) : Prop :=
  ∀ st st' r, m st = (st', r) → handlers st.1 = h → handlers st'.1 = h ∧ RW st.2 st'.2.

Lemma confined_id {A} (f : ConnOps.St (C:=C) → Result A) : confined (λ st, (st, f st)).
Proof. by intros st st' r [= <- <-]. Qed.

Lemma confined_bind {A B} (m : ConnOps.M A) (k : A → ConnOps.M B) :
  confined m → (∀ a, confined (k a)) → confined (ConnOps.bind m k).
Proof.
  intros Hm Hk st st' r Hr Hh. unfold ConnOps.bind in Hr.
  destruct (m st) as [st1 [a|e]] eqn:E; destruct (Hm _ _ _ E Hh) as [Hh1 Hw1].
  - destruct (Hk _ _ _ _ Hr Hh1). split; [done|]. by etransitivity.
  - by injection Hr as <- <-.
Qed.

Lemma confined_modify f : (∀ s : Conn ngtcp2_conn C, handlers (f s) = handlers s) →
  confined (ConnOps.modify f).
Proof. intros Hf st st' r [= <- <-] Hh. cbn. rewrite Hf. by split. Qed.

Lemma confined_native rq : confined (ConnOps.native_call rq).
Proof.
  intros [s c] st' r Hr Hh. unfold ConnOps.native_call in Hr.
  destruct (ngtcp2_call _ _ _ _ _) as [[? ?] ?]. by injection Hr as <- <-.
Qed.

Lemma confined_with_bridge rq : confined (ConnOps.with_bridge rq).
Proof.
  intros [s c] st' r Hr Hh. unfold ConnOps.with_bridge in Hr.
  destruct (ngtcp2_call _ _ _ _ _) as [[raw' w] rs] eqn:Hc. injection Hr as <- <-.
  destruct (calls_of_call _ _ _ _ _ _ _ _ Hc) as (tr & _ & Hruns). cbn in Hh. rewrite Hh in Hruns.
  apply runs_bridged_context in Hruns. split; [done|]. cbn. unfold bridged in Hruns. cbn in Hruns.
  destruct (w_bridge w) as [b|]; [done|by destruct Hruns].
Qed.
End Confined.

(** Programs made of calls, queries and updates of the connection's own fields. *)
Ltac confine :=
  repeat first
    [ assumption
    | progress intros
    | apply confined_bind
    | apply confined_native
    | apply confined_with_bridge
    | apply (confined_id _ _ (λ _, Ok _))
    | apply (confined_id _ _ (λ _, Err _))
    | apply (confined_id _ _ (λ st, Ok (_ st.1)))
    | apply confined_id
    | apply confined_modify; by intros
    | case_decide
    | match goal with
      | |- confined _ _ (match ?x with _ => _ end) => destruct x
      end ].

Section Operations.
Context `{R : Recorded, Ngtcp2Defaults, Owners, EntropySources, TlsSessions} {C : Type}.
Variables (h : Handlers C) (RW : C → C → Prop).
Context `{!PreOrder RW}.
Hypothesis keep : handlers_keep h RW.
Abbreviation confined := (confined h RW).

Lemma confined_read_pkt d now : confined (ConnOps.read_pkt d now).
Proof. unfold ConnOps.read_pkt, ConnOps.invalid. confine. Qed.

Lemma confined_with_bridge_path rq : confined (ConnOps.with_bridge_path rq).
Proof. unfold ConnOps.with_bridge_path. confine. Qed.

Lemma confined_write_pkt n now : confined (ConnOps.write_pkt n now).
Proof.
  unfold ConnOps.write_pkt, ConnOps.invalid. case_decide; [confine|].
  apply confined_bind; [done|confine|]. intros p.
  apply confined_bind; [done|apply confined_with_bridge_path|]. confine.
Qed.

Lemma confined_handle_expiry now : confined (ConnOps.handle_expiry now).
Proof. unfold ConnOps.handle_expiry. confine. Qed.

Lemma confined_rv_of rq : confined (ConnOps.rv_of rq).
Proof. unfold ConnOps.rv_of. confine. Qed.

Lemma confined_submit n s staged contents flags now :
  confined (ConnOps.submit_one_vec n s staged contents flags now).
Proof.
  unfold ConnOps.submit_one_vec.
  apply confined_bind; [done|confine|]. intros p.
  apply confined_bind; [done|apply confined_with_bridge_path|]. intros r.
  apply confined_bind; [done|apply confined_modify; [done|intros s0; by case_match]|]. intros [].
  destruct (0 <? rs_rv r); [confine|]. destruct (_ =? 0); [|confine].
  apply confined_bind; [done|apply confined_rv_of|confine].
Qed.

Lemma confined_max_tx : confined ConnOps.max_tx_udp_payload_size.
Proof. unfold ConnOps.max_tx_udp_payload_size. apply confined_bind; [done|apply confined_rv_of|confine]. Qed.

Lemma confined_write_stream n s data fin now : confined (ConnOps.write_stream n s data fin now).
Proof.
  unfold ConnOps.write_stream, ConnOps.write_stream_vectored, ConnOps.invalid.
  case_decide; [confine|].
  apply confined_bind; [done|apply confined_max_tx|]. intros limit.
  apply confined_bind; [done|confine|]. intros r.
  destruct (RetainedOps.stage_many_bounded _ _ _ _) as [r' [staged complete]].
  apply confined_bind; [done|by apply confined_modify|]. intros []. apply confined_submit.
Qed.

Lemma confined_close n code reason now : confined (ConnOps.write_connection_close n code reason now).
Proof.
  unfold ConnOps.write_connection_close, ConnOps.write_close_with, ConnOps.invalid.
  case_decide; [confine|]. apply confined_bind; [done|confine|]. intros p.
  apply confined_bind; [done|apply confined_with_bridge_path|confine].
Qed.

Lemma confined_open rq ctx : confined (ConnOps.open_stream rq ctx).
Proof. unfold ConnOps.open_stream. confine. Qed.

Lemma confined_checked rq ctx : confined (ConnOps.checked rq ctx).
Proof. unfold ConnOps.checked. apply confined_bind; [done|apply confined_rv_of|confine]. Qed.

Lemma confined_run_native rq : confined (ConnOps.run_native rq).
Proof. unfold ConnOps.run_native. confine. Qed.

Lemma confined_expiry : confined ConnOps.expiry.
Proof. unfold ConnOps.expiry. apply confined_bind; [done|apply confined_rv_of|confine]. Qed.

Lemma confined_close_error : confined ConnOps.close_error.
Proof. unfold ConnOps.close_error. confine. Qed.

Lemma confined_draining : confined ConnOps.in_draining_period.
Proof. unfold ConnOps.in_draining_period. apply confined_bind; [done|apply confined_rv_of|confine]. Qed.

Lemma confined_scids : confined ConnOps.scids.
Proof. unfold ConnOps.scids. apply confined_bind; [done|apply confined_rv_of|confine]. Qed.

Lemma confined_set_client_local_params : confined ConnOps.set_client_local_params.
Proof.
  intros st st' r Hr Hh. unfold ConnOps.set_client_local_params in Hr.
  destruct (ConnOps.encode_local_params st) as [[s c] r1] eqn:E.
  assert (confined ConnOps.encode_local_params) as He by (unfold ConnOps.encode_local_params; confine).
  destruct (He _ _ _ E Hh) as [Hh1 Hw]. destruct r1 as [params|]; [|by injection Hr as <- <-].
  destruct (set_local_transport_params _ _). by injection Hr as <- <-.
Qed.

Lemma confined_bind_tls : confined ConnOps.bind_tls.
Proof.
  unfold ConnOps.bind_tls. apply confined_bind; [done|confine|]. intros _.
  apply confined_bind; [done|confine|]. intros r. case_decide; [|confine].
  apply confined_bind; [done|apply confined_set_client_local_params|confine].
Qed.

Lemma build_confined tgt b c c' r :
  ConnOps.build tgt b h c = (c', r) → RW c c' ∧ ∀ s, r = Ok s → handlers s = h.
Proof.
  unfold ConnOps.build. intros Hb.
  repeat lazymatch type of Hb with
  | (match ConnOps.bind_tls _ with _ => _ end) = _ => fail
  | (match ?x with _ => _ end) = _ => destruct x
  | (_, _) = _ => by injection Hb as <- <-
  end.
  destruct (ConnOps.bind_tls (C:=C) _) as [[s c1] r1] eqn:E.
  destruct (confined_bind_tls _ _ _ E eq_refl) as [Hh Hw].
  destruct r1; injection Hb as <- <-; (split; [done|]); [|done]. by intros ? [= <-].
Qed.
End Operations.

(** ** What is left alone *)

Section Agreement.
Context `{Wakers}.

(** Two worlds with the same mailboxes, as far as [g] tells, and the same dials. *)
Definition agree {X} (g : ConnectionShared → X) (w w' : World) : Prop :=
  next_address w' = next_address w ∧ dials (endpoint w') = dials (endpoint w) ∧
  ∀ b, g <$> mailboxes w' !! b = g <$> mailboxes w !! b.

#[global] Instance agree_preorder {X} (g : ConnectionShared → X) : PreOrder (agree g).
Proof.
  split; [done|]. intros w1 w2 w3 (N1 & D1 & M1) (N2 & D2 & M2).
  split_and!; [congruence|congruence|]. intros b. by rewrite M2.
Qed.

Lemma agree_coarser {X Y} (g : ConnectionShared → X) (k : X → Y) w w' :
  agree g w w' → agree (λ s, k (g s)) w w'.
Proof.
  intros (N & D & M). split_and!; [done|done|]. intros b. specialize (M b).
  destruct (mailboxes w !! b), (mailboxes w' !! b); cbn in *; congruence.
Qed.

Lemma agree_update {X} (g : ConnectionShared → X) a f w :
  (∀ s, g (f s) = g s) → agree g w (Mailbox.update a f w).
Proof.
  intros Hf. split_and!; [done|done|]. intros b. cbn.
  destruct (decide (a = b)) as [<-|Hab]; [|by rewrite lookup_alter_ne].
  rewrite lookup_alter_eq. destruct (mailboxes w !! a); cbn; [by rewrite Hf|done].
Qed.

Lemma agree_locked {X} (g : ConnectionShared → X) a f w :
  (∀ s, g (Fields.set_inner (f (inner s)) s) = g s) → agree g w (Mailbox.locked a f w).
Proof. intros Hf. by apply agree_update. Qed.

Lemma agree_wake {X} (g : ConnectionShared → X) ws w : agree g w (Fields.wake ws w).
Proof. done. Qed.

Lemma agree_endpoint {X} (g : ConnectionShared → X) f w :
  dials (f (endpoint w)) = dials (endpoint w) →
  agree g w (Fields.set_endpoint (f (endpoint w)) w).
Proof. done. Qed.

Lemma agree_wake_driver {X} (g : ConnectionShared → X) w : agree g w (Mailbox.wake_driver w).
Proof. done. Qed.

Lemma agree_wake_all {X} (g : ConnectionShared → X) a w :
  (∀ s, g (Fields.set_inner (Fields.set_wakers [] (inner s)) s) = g s) →
  agree g w (Mailbox.wake_all a w).
Proof. intros Hg. unfold Mailbox.wake_all. etransitivity; [by apply agree_locked|done]. Qed.

(** The datagrams a connection has queued. *)
Definition queued (s : ConnectionShared) : list bytes :=
  outbound (inner s) ++ option_list (close_outbound (inner s)).

(** Everything the handlers leave alone. *)
Definition kept (s : ConnectionShared) :=
  (outbound (inner s), close_outbound (inner s), closed s, terminal (inner s)).

Abbreviation quiet := (agree kept).
Abbreviation same_boxes := (agree (λ _, ())).

Lemma quiet_same_boxes w w' : quiet w w' → same_boxes w w'.
Proof. apply (agree_coarser kept (λ _, ())). Qed.

Lemma observe_quiet a ev w : quiet w (Mailbox.observe a ev w).
Proof. by apply agree_locked. Qed.

Lemma observe_route_quiet a u w : quiet w (Mailbox.observe_route a u w).
Proof. unfold Mailbox.observe_route. etransitivity; [|apply agree_wake_driver]. by apply agree_locked. Qed.

Lemma handlers_quiet a : handlers_keep (handlers_for a) quiet.
Proof.
  split; cbn; intros f [= <-]; intros.
  1-7: apply observe_quiet.
  1-2: apply observe_route_quiet.
  all: etransitivity; [apply observe_quiet|by apply agree_wake_all].
Qed.

Lemma push_same a c w : agree kept w (Mailbox.push a c w).
Proof. unfold Mailbox.push. etransitivity; [|apply agree_wake_driver]. by apply agree_locked. Qed.

Lemma fail_same a e w : same_boxes w (Mailbox.fail a e w).
Proof.
  unfold Mailbox.fail. etransitivity; [by apply agree_locked|].
  etransitivity; [by apply agree_update|]. by apply agree_wake_all.
Qed.
End Agreement.

(** ** Steps of the driver *)

Section Frames.
Context `{R : Recorded, !Ngtcp2Wire, Ngtcp2Defaults, Owners, EntropySources, TlsSessions, Wakers}
  `{!UdpSockets, !Clocks, !TlsBackends, !EntropyFactories, !HashOrder}.
Variable tgt : Target.
Implicit Types (d : Driver).

Definition steps (P : Driver → Driver → Prop) {A} (m : Endpoint.M A) : Prop :=
  ∀ d d' a, m d = Some (d', a) → P d d'.

Section Composition.
Context (P : Driver → Driver → Prop) `{!PreOrder P}.

Lemma steps_ret {A} (a : A) : steps P (Endpoint.ret a).
Proof. by intros d d' x [= <- <-]. Qed.
Lemma steps_gets {A} (f : Driver → A) : steps P (Endpoint.gets f).
Proof. by intros d d' x [= <- <-]. Qed.
Lemma steps_out_of_fuel {A} : steps P (Endpoint.out_of_fuel (A:=A)).
Proof. by intros d d' x. Qed.
Lemma steps_modify f : (∀ d, P d (f d)) → steps P (Endpoint.modify f).
Proof. by intros Hf d d' x [= <- <-]. Qed.
Lemma steps_bind {A B} (m : Endpoint.M A) (k : A → Endpoint.M B) :
  steps P m → (∀ a, steps P (k a)) → steps P (Endpoint.bind m k).
Proof.
  intros Hm Hk d d' b Hr. unfold Endpoint.bind in Hr.
  destruct (m d) as [[d1 a]|] eqn:E; [|done]. etransitivity; [by eapply Hm|by eapply Hk].
Qed.
Lemma steps_for_each {A} (f : A → Endpoint.M unit) l :
  (∀ x, steps P (f x)) → steps P (Endpoint.for_each f l).
Proof.
  intros Hf. induction l as [|x l IH]; [apply steps_ret|]. by apply steps_bind.
Qed.
End Composition.

(** Connections run the handlers of their mailbox. *)
Definition wired d : Prop :=
  ∀ i t c, connections d !! i = Some t → conn t = Some c → handlers c = handlers_for (t_shared t).

Definition shape (t : Tracked) := (t_shared t, remote t).

(** The same connections, routes, mailboxes and dials. *)
Record framed d d' : Prop := mkFramed {
  fr_table : table d' = table d;
  fr_index : next_index d' = next_index d;
  fr_shape i : shape <$> connections d' !! i = shape <$> connections d !! i;
  fr_world : agree (λ _, ()) (world d) (world d')
}.

Definition frame d d' : Prop := wired d → wired d' ∧ framed d d'.

#[global] Instance frame_preorder : PreOrder frame.
Proof.
  split; [by intros d Hd|]. intros d1 d2 d3 H12 H23 Hd.
  destruct (H12 Hd) as [Hd2 [T1 I1 S1 W1]]. destruct (H23 Hd2) as [Hd3 [T2 I2 S2 W2]].
  split; [done|]. split; [congruence|congruence| |by etransitivity].
  intros i. by rewrite S2.
Qed.

(** A change of other parts of the driver. *)
Lemma frame_other d d' :
  connections d' = connections d → table d' = table d → next_index d' = next_index d →
  agree (λ _, ()) (world d) (world d') → frame d d'.
Proof.
  intros Hc Ht Hi Hw Hd. split; [unfold wired; by rewrite Hc|]. split; [done|done| |done].
  intros i. by rewrite Hc.
Qed.

Lemma frame_world f : (∀ w, agree (λ _, ()) w (f w)) → steps frame (Endpoint.on_world f).
Proof. intros Hf. apply steps_modify. intros d. by apply frame_other. Qed.

Lemma frame_with_world {A} (f : World → World * A) :
  (∀ w, agree (λ _, ()) w (f w).1) → steps frame (Endpoint.with_world f).
Proof.
  intros Hf d d' a. unfold Endpoint.with_world. pose proof (Hf (world d)) as Hw.
  destruct (f (world d)). intros [= <- <-]. by apply frame_other.
Qed.

Lemma frame_read_clock : steps frame Endpoint.read_clock.
Proof.
  intros d d' a. unfold Endpoint.read_clock. destruct (now _). intros [= <- <-].
  by apply frame_other.
Qed.
Lemma frame_new_source : steps frame Endpoint.new_source.
Proof.
  intros d d' a. unfold Endpoint.new_source. destruct (make _). intros [= <- <-].
  by apply frame_other.
Qed.
Lemma frame_open_session r n : steps frame (Endpoint.open_session r n).
Proof.
  intros d d' a. unfold Endpoint.open_session. destruct (new_session _ _ _). intros [= <- <-].
  by apply frame_other.
Qed.
Lemma frame_send cx to datagram : steps frame (Endpoint.send cx to datagram).
Proof.
  intros d d' a. unfold Endpoint.send. destruct (poll_send _ _ _ _). intros [= <- <-].
  by apply frame_other.
Qed.
Lemma frame_recv cx : steps frame (Endpoint.recv cx).
Proof.
  intros d d' a. unfold Endpoint.recv. destruct (poll_recv _ _ _). intros [= <- <-].
  by apply frame_other.
Qed.

Lemma frame_update i f :
  (∀ t, shape (f t) = shape t) →
  (∀ t c, conn (f t) = Some c → conn t = Some c ∨ handlers c = handlers_for (t_shared t)) →
  steps frame (Endpoint.update i f).
Proof.
  intros Hs Hc. apply steps_modify. intros d Hd.
  assert (∀ j, connections (Endpoint.set_connections (alter f i (connections d)) d) !! j =
    if decide (i = j) then f <$> connections d !! j else connections d !! j) as Hl.
  { intros j. cbn. case_decide; [subst; by rewrite lookup_alter_eq|by rewrite lookup_alter_ne]. }
  split.
  - intros j t c Hj Hcj. rewrite Hl in Hj. case_decide; [|by eapply Hd].
    destruct (connections d !! j) as [t0|] eqn:E; [|done]. injection Hj as <-.
    assert (t_shared (f t0) = t_shared t0) as -> by (pose proof (Hs t0); unfold shape in *; congruence).
    destruct (Hc _ _ Hcj) as [|]; [by eapply Hd|done].
  - split; [done|done| |done]. intros j. rewrite Hl. case_decide; [|done].
    destruct (connections d !! j); cbn; [by rewrite Hs|done].
Qed.


(** Running a connection. *)
Lemma frame_run {A} i (m : ConnOps.M (C:=World) A) :
  (∀ a, confined (handlers_for a) (agree kept) m) → steps frame (Endpoint.run i m).
Proof.
  intros Hm d d' r Hr Hd. unfold Endpoint.run in Hr.
  destruct (connections d !! i ≫= conn) as [c|] eqn:E; [|by injection Hr as <- <-].
  destruct (connections d !! i) as [t|] eqn:Ht; [|done]. cbn in E.
  destruct (m (c, world d)) as [[c' w] r'] eqn:Hmr. injection Hr as <- <-.
  destruct (Hm (t_shared t) _ _ _ Hmr (Hd _ _ _ Ht E)) as [Hh Hw].
  assert (∀ j, alter (Endpoint.set_conn (Some c')) i (connections d) !! j =
    if decide (i = j) then Endpoint.set_conn (Some c') <$> connections d !! j
    else connections d !! j) as Hl.
  { intros j. case_decide; [subst; by rewrite lookup_alter_eq|by rewrite lookup_alter_ne]. }
  split.
  - intros j tj cj. cbn. rewrite Hl. case_decide; [subst|by eapply Hd].
    rewrite Ht. cbn. intros [= <-] [= <-]. done.
  - split; [done|done| |by apply quiet_same_boxes]. intros j. cbn. rewrite Hl.
    case_decide; [subst; by rewrite Ht|done].
Qed.

Lemma frame_query {A} i (m : ConnOps.M (C:=World) A) x :
  (∀ a, confined (handlers_for a) (agree kept) m) → steps frame (Endpoint.query i m x).
Proof.
  intros Hm. apply steps_bind; [apply _|by apply frame_run|]. intros r. apply steps_ret. apply _.
Qed.
End Frames.

(** Steps made of framed steps. *)
Ltac framing :=
  repeat first
    [ assumption
    | match goal with |- ∀ _, _ => intro end
    | apply (steps_ret frame)
    | apply (steps_gets frame)
    | lazymatch goal with
      | |- steps _ (Endpoint.bind _ _) => apply (steps_bind frame)
      | |- steps _ (Endpoint.for_each _ _) => apply (steps_for_each frame)
      end
    | apply frame_preorder
    | apply frame_read_clock | apply frame_new_source | apply frame_open_session
    | apply frame_send | apply frame_recv
    | case_decide
    | match goal with
      | |- steps frame (match ?x with _ => _ end) => destruct x
      end ].

Section Framed.
Context `{R : Recorded, !Ngtcp2Wire, Ngtcp2Defaults, Owners, EntropySources, TlsSessions, Wakers}
  `{!UdpSockets, !Clocks, !TlsBackends, !EntropyFactories, !HashOrder}.
Variable tgt : Target.
Implicit Types (d : Driver).
Import Endpoint.

Ltac confined_op :=
  intros; lazymatch goal with
    | |- confined _ _ (ConnOps.read_pkt _ _) => apply confined_read_pkt
    | |- confined _ _ (ConnOps.write_pkt _ _) => apply confined_write_pkt
    | |- confined _ _ (ConnOps.handle_expiry _) => apply confined_handle_expiry
    | |- confined _ _ (ConnOps.write_stream _ _ _ _ _) => apply confined_write_stream
    | |- confined _ _ (ConnOps.write_connection_close _ _ _ _) => apply confined_close
    | |- confined _ _ ConnOps.open_bidi_stream => apply confined_open
    | |- confined _ _ ConnOps.open_uni_stream => apply confined_open
    | |- confined _ _ ConnOps.expiry => apply confined_expiry
    | |- confined _ _ ConnOps.close_error => apply confined_close_error
    | |- confined _ _ ConnOps.in_draining_period => apply confined_draining
    | |- confined _ _ ConnOps.max_tx_udp_payload_size => apply confined_max_tx
    | _ => first [apply confined_checked | apply confined_run_native]
    end;
  first [apply _ | apply handlers_quiet].

Lemma frame_fail a e : steps frame (on_world (Mailbox.fail a e)).
Proof. apply frame_world. intros w. apply fail_same. Qed.

Lemma frame_push a c : steps frame (on_world (Mailbox.push a c)).
Proof. apply frame_world. intros w. apply quiet_same_boxes, push_same. Qed.

Lemma frame_wake_all a : steps frame (on_world (Mailbox.wake_all a)).
Proof. apply frame_world. intros w. by apply agree_wake_all. Qed.

Lemma frame_set_retained a n : steps frame (on_world (Mailbox.set_retained a n)).
Proof. apply frame_world. intros w. by apply agree_update. Qed.

Lemma frame_set_finished i : steps frame (update i set_finished).
Proof. apply frame_update; [done|by left]. Qed.

Lemma frame_set_pending i p : steps frame (update i (set_pending p)).
Proof. apply frame_update; [done|by left]. Qed.

Lemma frame_set_outbox f : steps frame (modify (λ d, set_outbox (f d) d)).
Proof. apply steps_modify. intros d. by apply frame_other. Qed.

Lemma frame_fail_with_close a close : steps frame (on_world (Mailbox.fail_with_close a close)).
Proof. apply frame_world. intros w. unfold Mailbox.fail_with_close. apply fail_same. Qed.

(** What is taken from a mailbox, or put in it. *)
Lemma frame_locked {A} a (f : ConnectionInner → ConnectionInner) (g : World → A) :
  steps frame (with_world (λ w, (Mailbox.locked a f w, g w))).
Proof. apply frame_with_world. intros w. by apply agree_locked. Qed.

Ltac framed :=
  framing; lazymatch goal with
    | |- steps _ (query _ _ _) => apply frame_query; confined_op
    | |- steps _ (run _ _) => apply frame_run; confined_op
    | |- steps _ (update _ set_finished) => apply frame_set_finished
    | |- steps _ (update _ (set_pending _)) => apply frame_set_pending
    | |- steps _ (on_world (Mailbox.fail _ _)) => apply frame_fail
    | |- steps _ (on_world (Mailbox.push _ _)) => apply frame_push
    | |- steps _ (on_world (Mailbox.wake_all _)) => apply frame_wake_all
    | |- steps _ (on_world (Mailbox.set_retained _ _)) => apply frame_set_retained
    | |- steps _ (on_world (Mailbox.fail_with_close _ _)) => apply frame_fail_with_close
    | |- steps _ (modify _) => first [apply (frame_set_outbox (λ _, _)) | apply frame_set_outbox | idtac]
    | |- steps _ (with_world _) => first [apply frame_locked | idtac]
    | _ => idtac
    end.

Lemma frame_close_connection i code reason : steps frame (close_connection i code reason).
Proof. unfold close_connection. framed. Qed.

Lemma frame_write_stream i s data fin cx : steps frame (write_stream i s data fin cx).
Proof. unfold write_stream. framed. Qed.

Lemma frame_apply_command i a c cx : steps frame (apply_command i a c cx).
Proof.
  destruct c; cbn [apply_command]; try apply frame_write_stream; try apply frame_close_connection;
    try destruct bidi; framed.
  - apply frame_world. intros w. etransitivity; [|by apply agree_wake_all].
    apply quiet_same_boxes, observe_quiet.
  - apply frame_world. intros w. etransitivity; [|by apply agree_wake_all].
    apply quiet_same_boxes, observe_quiet.
Qed.

Lemma frame_commands_loop i a cs cx : steps frame (commands_loop i a cs cx).
Proof.
  induction cs as [|c cs IH]; cbn [commands_loop]; [apply steps_ret, _|].
  framing. apply frame_apply_command.
Qed.

Lemma frame_apply_commands i cx : steps frame (apply_commands i cx).
Proof. unfold apply_commands, Mailbox.take_commands. framed. apply frame_commands_loop. Qed.

Lemma frame_hand_over i : steps frame (hand_over i).
Proof.
  intros d d' u Hr Hd. unfold hand_over, bind, tracked, gets, update, modify, ret, on_world,
    queue_deliver in Hr.
  destruct (connections d !! i) as [t|] eqn:Ht; [|by injection Hr as <- <-].
  destruct (conn t) as [c|] eqn:Hc; [|by injection Hr as <- <-].
  assert (frame d (set_connections (alter (set_conn None) i (connections d)) d)) as Hf1.
  { by eapply (frame_update i (set_conn None)). }
  destruct (Hf1 Hd) as [Hd1 F1].
  cbn [timescale sleeper set_connections connections world] in Hr.
  destruct (negb (timescale d) || negb (sleeper d)); injection Hr as <- <-.
  - eapply (transitivity (R:=frame) (y:=d)); [done| |done].
    intros _. split.
    + intros j tj cj. cbn. rewrite alter_alter_eq.
      destruct (decide (i = j)) as [<-|Hij].
      * rewrite lookup_alter_eq, Ht. intros [= <-] [= <-]. cbn. by eapply Hd.
      * rewrite lookup_alter_ne by done. apply Hd.
    + split; [done|done| |apply fail_same]. intros j. cbn. rewrite alter_alter_eq.
      destruct (decide (i = j)) as [<-|Hij]; [by rewrite lookup_alter_eq, Ht|
        by rewrite lookup_alter_ne].
  - eapply (transitivity (R:=frame) Hf1); [|done]. by apply frame_other.
Qed.

Lemma frame_absorb i : steps frame (absorb i).
Proof.
  unfold absorb, Mailbox.take_observed. framed.
  - apply frame_world. intros w. unfold Mailbox.mark_established.
    etransitivity; [by apply agree_update|by apply agree_wake_all].
  - apply frame_hand_over.
  - apply frame_world. intros w. etransitivity; [by apply agree_locked|by apply agree_wake_all].
Qed.

Lemma frame_deliver i datagram : steps frame (deliver i datagram).
Proof.
  unfold deliver. framed; try apply frame_absorb.
  apply frame_world. intros w. unfold Mailbox.deliver_inbound. destruct (_ <=? _)%nat; cbn.
  - by apply agree_locked.
  - etransitivity; [by apply agree_locked|done].
Qed.

Lemma frame_handle_expiry i : steps frame (handle_expiry i).
Proof. unfold handle_expiry. framed; apply frame_absorb. Qed.

Lemma take_outbound_same a w : agree (λ _, ()) w (Mailbox.take_outbound a w).1.
Proof.
  unfold Mailbox.take_outbound. destruct (outbound _); destruct (_ && _); cbn;
    (etransitivity; [by apply agree_locked|]); done || by apply agree_locked.
Qed.

Lemma frame_next_datagram i : steps frame (next_datagram i).
Proof.
  unfold next_datagram. framed. apply frame_with_world. intros w. apply take_outbound_same.
Qed.

Lemma frame_flush_outbox cx box : steps frame (flush_outbox cx box).
Proof. induction box as [|[to x] box IH]; cbn [flush_outbox]; framed. Qed.

Lemma frame_flush_connection fuel cx i : steps frame (flush_connection fuel cx i).
Proof.
  induction fuel as [|fuel IH]; cbn [flush_connection]; [apply steps_out_of_fuel|].
  framed. apply frame_next_datagram.
Qed.

Lemma frame_flush_connections fuel cx is_ : steps frame (flush_connections fuel cx is_).
Proof.
  induction is_ as [|i is_ IH]; cbn [flush_connections]; framed. apply frame_flush_connection.
Qed.

Lemma frame_flush fuel cx : steps frame (flush fuel cx).
Proof. unfold flush. framed; [apply frame_flush_outbox|apply frame_flush_connections]. Qed.

Lemma frame_is_done i : steps frame (is_done i).
Proof. unfold is_done. framed. Qed.

Lemma frame_find_dead is_ : steps frame (find_dead is_).
Proof. induction is_ as [|i is_ IH]; cbn [find_dead]; framed. apply frame_is_done. Qed.

Lemma frame_earliest is_ : steps frame (earliest_of is_).
Proof. induction is_ as [|i is_ IH]; cbn [earliest_of]; framed. Qed.

Lemma frame_rearm cx : steps frame (rearm cx).
Proof.
  unfold rearm, earliest_expiry. framed; try apply frame_earliest;
    apply steps_modify; intros d; by apply frame_other.
Qed.

Lemma frame_fail_all e : steps frame (fail_all e).
Proof. unfold fail_all. framed. Qed.

Lemma frame_wake_everyone : steps frame wake_all.
Proof. unfold wake_all. framed. Qed.
End Framed.

(** ** A stranger at a small endpoint *)

Module StrangerToy.
Import EndpointToy.

Definition quiet_endpoint : Driver := initial [] 10.
Definition stray : bytes := replicate 40 x09.
Definition answered : Driver := after (Endpoint.dispatch target stray there) quiet_endpoint.
Definition policy : Validation := ValidationOps.new (replicate 16 x13).

(** It is answered with a reset shorter than what it sent, and no connection is made. *)
Lemma strangers_cost_nothing_witness :
  connections answered = connections quiet_endpoint ∧ table answered = table quiet_endpoint ∧
  Forall (λ a, (length a.2 < 40)%nat ∧
               is_reset policy stray (make (entropy_ quiet_endpoint)).2 a.2) (outbox answered) ∧
  length (outbox answered) = 1%nat.
Proof.
  assert (length (outbox answered) = 1%nat) as Hone by (vm_compute; reflexivity).
  destruct (after_ok (Endpoint.dispatch target stray there) quiet_endpoint)
    as [u Hu]; [vm_compute; reflexivity|].
  destruct (strangers_cost_nothing target quiet_endpoint stray there answered u policy Hu)
    as [answers [[(_ & _ & _ & _ & _ & Ho & _) Hi]|[(Hc & Ht & _ & _ & _ & Ho & _) (_ & Hf & _)]]];
    [reflexivity|reflexivity|intros packet E; vm_compute in E; discriminate| |].
  - exfalso. destruct answers as [|a answers]; [by rewrite Ho in Hone|].
    inversion Hi as [|? ? (packet & E & _)]. vm_compute in E. discriminate.
  - split; [exact Hc|]. split; [exact Ht|]. split; [by rewrite Ho|exact Hone].
Defined.

(** Of five asked for at once with a burst of two, two are granted. *)
Lemma resets_bounded_witness :
  let v := ValidationOps.set_reset_burst 2 policy in
  grants v [5; 5; 6; 7; 8] = 2 ∧ grants v [5; 5; 6; 7; 8] ≤ 2 * reset_burst v.
Proof.
  split; [vm_compute; reflexivity|].
  apply (resets_bounded 5); [by vm_compute|].
  repeat (constructor; [lia|]). constructor.
Defined.
End StrangerToy.
