(* ===== verification/QuicRoutes.v ===== *)
(** * Where the endpoint routes datagrams

    Every identifier in the table leads to a connection that is there, every connection runs
    the handlers of a mailbox that is its own, and mailboxes that wait for a dial belong to no
    connection yet; no step of the driver, of a handle or of the owner of a detached connection
    breaks that ([routes_live]). *)

From Stdlib Require Import ZArith Lia Strings.Byte.
From stdpp Require Import base list gmap strings countable.
From S2P Require Import Prelude Traces QmuxScheduling QuicTypes QuicWire QuicRetain QuicConn QuicSafety QuicMailbox QuicMailboxFacts QuicEndpoint QuicToys QuicEndpointFacts.

(** ** The invariant *)

Section Invariant.
Context `{R : Recorded, !Ngtcp2Wire, Ngtcp2Defaults, Owners, EntropySources, TlsSessions, Wakers}
  `{!UdpSockets, !Clocks, !TlsBackends, !EntropyFactories, !HashOrder}.
Implicit Types (d : Driver) (w : World).

Definition asked (w : World) : list nat := d_shared <$> dials (endpoint w).

(** The addresses [rs] are taken, but by no connection yet. *)
Record routed (rs : list nat) d : Prop := mkRouted {
  ro_wired : wired d;
  ro_table k i : table d !! k = Some i → is_Some (connections d !! i);
  ro_index i : is_Some (connections d !! i) → i < next_index d;
  ro_free b : (next_address (world d) ≤ b)%nat → mailboxes (world d) !! b = None;
  ro_live i t : connections d !! i = Some t → is_Some (mailboxes (world d) !! t_shared t);
  ro_one i j ti tj : connections d !! i = Some ti → connections d !! j = Some tj →
    t_shared ti = t_shared tj → i = j;
  ro_asked : NoDup (rs ++ asked (world d));
  ro_waiting a : a ∈ rs ++ asked (world d) → is_Some (mailboxes (world d) !! a) ∧
    ∀ i t, connections d !! i = Some t → t_shared t ≠ a
}.

(** Mailboxes are made, none is lost. *)
Record grows w w' : Prop := mkGrows {
  gr_dials : dials (endpoint w') = dials (endpoint w);
  gr_live a : is_Some (mailboxes w !! a) → is_Some (mailboxes w' !! a);
  gr_free b : (next_address w' ≤ b)%nat →
    (∀ b, (next_address w ≤ b)%nat → mailboxes w !! b = None) → mailboxes w' !! b = None
}.

Lemma agree_grows {X} (g : ConnectionShared → X) w w' : agree g w w' → grows w w'.
Proof.
  intros (Hn & Hd & Hm). split; [done| |].
  - intros a [s Hs]. specialize (Hm a). rewrite Hs in Hm.
    destruct (mailboxes w' !! a); [by eexists|done].
  - intros b Hb Hf. specialize (Hm b). rewrite Hf in Hm by lia.
    by destruct (mailboxes w' !! b).
Qed.

Lemma grows_asked w w' : grows w w' → asked w' = asked w.
Proof. intros Hg. unfold asked. by rewrite (gr_dials _ _ Hg). Qed.

Lemma shape_shared d d' i t' :
  (∀ i, shape <$> connections d' !! i = shape <$> connections d !! i) →
  connections d' !! i = Some t' →
  ∃ t, connections d !! i = Some t ∧ t_shared t = t_shared t'.
Proof.
  intros Hs Ht'. specialize (Hs i). rewrite Ht' in Hs.
  destruct (connections d !! i) as [t|]; [|done]. exists t. split; [done|].
  unfold shape in Hs. cbn in Hs. congruence.
Qed.

Lemma shape_some d d' i :
  (∀ i, shape <$> connections d' !! i = shape <$> connections d !! i) →
  is_Some (connections d' !! i) ↔ is_Some (connections d !! i).
Proof. intros Hs. by rewrite <- (fmap_is_Some shape), Hs, fmap_is_Some. Qed.

Lemma routed_keep rs d d' :
  routed rs d → wired d' →
  (∀ k i, table d' !! k = Some i → is_Some (connections d !! i)) →
  next_index d' = next_index d →
  (∀ i, shape <$> connections d' !! i = shape <$> connections d !! i) →
  grows (world d) (world d') → routed rs d'.
Proof.
  intros [Hw Ht Hi Hf Hl Ho Ha Hwait] Hw' Ht' Hi' Hs Hg. split.
  - done.
  - intros k i Hk. apply (shape_some d d' i Hs). by eapply Ht'.
  - intros i Hin. rewrite Hi'. apply Hi. by apply (shape_some d d' i Hs).
  - intros b Hb. by eapply gr_free.
  - intros i t' Hit. destruct (shape_shared _ _ _ _ Hs Hit) as (t & Hit' & <-).
    eapply gr_live; [done|]. by eapply Hl.
  - intros i j ti tj Hti Htj E. destruct (shape_shared _ _ _ _ Hs Hti) as (ti' & Hti' & E1).
    destruct (shape_shared _ _ _ _ Hs Htj) as (tj' & Htj' & E2).
    eapply Ho; [done|done|congruence].
  - by rewrite (grows_asked _ _ Hg).
  - intros a. rewrite (grows_asked _ _ Hg). intros Hin. destruct (Hwait a Hin) as [Hlive Hno].
    split; [by eapply gr_live|]. intros i t' Hit.
    destruct (shape_shared _ _ _ _ Hs Hit) as (t & Hit' & <-). by eapply Hno.
Qed.

Definition keeping rs d d' : Prop := routed rs d → routed rs d'.

#[global] Instance keeping_preorder rs : PreOrder (keeping rs).
Proof. split; [by intros d Hd|]. intros d1 d2 d3 H12 H23 Hd. by apply H23, H12. Qed.

Lemma frame_keeping rs d d' : frame d d' → keeping rs d d'.
Proof.
  intros Hf Hr. destruct (Hf (ro_wired _ _ Hr)) as [Hw [T I S W]].
  eapply routed_keep; [done|done| |done|done|by eapply agree_grows].
  intros k i. rewrite T. by apply (ro_table _ _ Hr).
Qed.

Lemma keep_frame rs {A} (m : Endpoint.M A) : steps frame m → steps (keeping rs) m.
Proof. intros Hm d d' a Hr. by eapply frame_keeping, Hm. Qed.

Lemma routed_weaken rs a d : routed (a :: rs) d → routed rs d.
Proof.
  intros [Hw Ht Hi Hf Hl Ho Ha Hwait]. split; try done.
  - by apply list.NoDup_cons in Ha as [_ Ha].
  - intros b Hb. apply Hwait. cbn. by right.
Qed.

(** *** Routes *)

Lemma routed_table rs d m :
  routed rs d → (∀ k i, m !! k = Some i → is_Some (connections d !! i)) →
  routed rs (Endpoint.set_table m d).
Proof.
  intros Hr Hm. eapply routed_keep; [done|by apply Hr|done|done|done|]. split; auto.
Qed.

(** A table gains routes to [index] alone. *)
Definition only_to (index : Z) (m m' : gmap bytes Z) : Prop :=
  ∀ k i, m' !! k = Some i → m !! k = Some i ∨ i = index.

Lemma only_to_insert (index : Z) k m : only_to index m (<[k := index]> m).
Proof.
  intros k' i. destruct (decide (k = k')) as [<-|Hk];
    [rewrite lookup_insert_eq; intros [= <-]; by right|rewrite lookup_insert_ne by done; by left].
Qed.

Lemma only_to_foldl {A} (index : Z) (f : gmap bytes Z → A → gmap bytes Z) l :
  (∀ m x, only_to index m (f m x)) → ∀ m, only_to index m (foldl f m l).
Proof.
  intros Hf. induction l as [|x l IH]; intros m; [by left|]. intros k i Hk.
  destruct (IH _ _ _ Hk) as [Hk'|]; [by eapply Hf|by right].
Qed.

Lemma routed_only_to rs d (index : Z) m :
  routed rs d → is_Some (connections d !! index) → only_to index (table d) m →
  routed rs (Endpoint.set_table m d).
Proof.
  intros Hr Hi Hm. apply routed_table; [done|]. intros k i Hk.
  destruct (Hm _ _ Hk) as [Hk'| ->]; [by eapply ro_table|done].
Qed.

Lemma apply_route_only_to (index : Z) m u : only_to index m (Endpoint.apply_route index u m).
Proof.
  destruct u as [cid|cid]; cbn; [apply only_to_insert|]. intros k i.
  rewrite lookup_delete_Some. intros [_ ?]. by left.
Qed.

Lemma apply_routes_keeping rs i : steps (keeping rs) (Endpoint.apply_routes i).
Proof.
  intros d d' u Hr Hd. unfold Endpoint.apply_routes, Endpoint.bind, Endpoint.tracked,
    Endpoint.gets, Endpoint.ret, Endpoint.with_world, Mailbox.take_routes, Endpoint.modify in Hr.
  destruct (connections d !! i) as [t|] eqn:Ht; [|by injection Hr as <- <-]. injection Hr as <- <-.
  eapply (routed_only_to _ _ i); [|by eexists|apply only_to_foldl; intros; apply apply_route_only_to].
  eapply (frame_keeping rs d); [|done]. apply frame_other; try done. by apply agree_locked.
Qed.
End Invariant.

(** ** The operations *)

Ltac keep :=
  repeat first
    [ assumption
    | match goal with |- ∀ _, _ => intro end
    | lazymatch goal with
      | |- steps _ (Endpoint.bind _ _) => apply (steps_bind (keeping _))
      | |- steps _ (Endpoint.for_each _ _) => apply (steps_for_each (keeping _))
      | |- steps _ (Endpoint.ret _) => apply (steps_ret (keeping _))
      | |- steps _ (Endpoint.gets _) => apply (steps_gets (keeping _))
      end
    | apply keeping_preorder
    | apply keep_frame;
      first [ apply frame_read_clock | apply frame_new_source | apply frame_open_session
            | apply frame_send | apply frame_recv ]
    | match goal with
      | |- steps (keeping _) (match ?x with _ => _ end) => destruct x
      end ].

Section Kept.
Context `{R : Recorded, !Ngtcp2Wire, Ngtcp2Defaults, Owners, EntropySources, TlsSessions, Wakers}
  `{!UdpSockets, !Clocks, !TlsBackends, !EntropyFactories, !HashOrder}.
Variable tgt : Target.
Implicit Types (d : Driver) (w : World).
Import Endpoint.

Lemma install_routes_routed rs i d d' u :
  routed rs d → install_routes i d = Some (d', u) →
  routed rs d' ∧ ∀ j, is_Some (connections d !! j) → is_Some (connections d' !! j).
Proof.
  intros Hd. unfold install_routes, bind, tracked, gets, ret, modify.
  destruct (connections d !! i) as [t|] eqn:Ht; cbn; [|intros [= <- <-]; by split].
  destruct (conn t) as [c|]; [|intros [= <- <-]; by split].
  destruct (query i ConnOps.scids [] d) as [[d1 scids]|] eqn:Hq; [|done]. intros [= <- <-].
  assert (frame d d1) as Hf.
  { eapply (frame_query i ConnOps.scids); [|exact Hq]. intros a. apply confined_scids; apply _. }
  pose proof (frame_keeping rs _ _ Hf Hd) as Hd1.
  destruct (Hf (ro_wired _ _ Hd)) as [_ [_ _ S _]].
  assert (∀ j, is_Some (connections d !! j) → is_Some (connections d1 !! j)) as Hin
    by (intros j; apply (shape_some d d1 j S)).
  split; [|done]. eapply (routed_only_to _ _ i); [done|apply Hin; by eexists|].
  apply only_to_foldl. intros. apply only_to_insert.
Qed.

(** The connection at a reserved address. *)
Lemma track_routed rs c a to d d' i :
  routed (a :: rs) d → handlers c = handlers_for a → track c a to d = Some (d', i) →
  routed rs d' ∧ is_Some (connections d' !! i).
Proof.
  intros [Hw Ht Hi Hf Hl Ho Ha Hwait] Hc [= <- <-]. cbn [connections].
  split; [|cbn; rewrite lookup_insert_eq; by eexists].
  apply list.NoDup_cons in Ha as [Hna Ha].
  destruct (Hwait a) as [Hlive Hno]; [by apply list_elem_of_here|].
  split; cbn [connections table next_index world set_connections set_next_index].
  - intros i t c'. cbn. rewrite lookup_insert_Some.
    intros [[<- <-]|[_ Hit]]; cbn; [by intros [= <-]|]. by apply Hw with i.
  - intros k i Hk. rewrite lookup_insert_is_Some'. right. by eapply Ht.
  - intros i. rewrite lookup_insert_is_Some'. intros [<-|Hin]; [lia|]. apply Hi in Hin. lia.
  - done.
  - intros i t. rewrite lookup_insert_Some. intros [[<- <-]|[_ Hit]]; [done|by eapply Hl].
  - intros i j ti tj. rewrite !lookup_insert_Some.
    intros [[<- <-]|[Hi' Hti]] [[<- <-]|[Hj' Htj]]; cbn; [done| | |by eapply Ho].
    + intros E. exfalso. by eapply (Hno j).
    + intros E. exfalso. by eapply (Hno i).
  - done.
  - intros b Hb. destruct (Hwait b) as [Hlb Hnb]; [by apply list_elem_of_further|].
    split; [done|]. intros i t. rewrite lookup_insert_Some. intros [[<- <-]|[_ Hit]]; cbn.
    + intros <-. done.
    + by eapply Hnb.
Qed.

(** What uses up an address that was reserved. *)
Definition uses (a : nat) rs {A} (m : M A) : Prop :=
  ∀ d d' x, routed (a :: rs) d → m d = Some (d', x) → routed rs d'.

Lemma uses_ret a rs {A} (x : A) : uses a rs (ret x).
Proof. intros d d' y Hd [= <- <-]. by eapply routed_weaken. Qed.

Lemma uses_bind a rs {A B} (m : M A) (k : A → M B) :
  steps (keeping (a :: rs)) m → (∀ x, uses a rs (k x)) → uses a rs (bind m k).
Proof.
  intros Hm Hk d d' y Hd. unfold bind. destruct (m d) as [[d1 x]|] eqn:E; [|done].
  apply Hk. by eapply Hm.
Qed.

Lemma uses_build a rs {A} b (k : Result (Conn ngtcp2_conn World) → M A) :
  (∀ e, uses a rs (k (Err e))) → (∀ c, handlers c = handlers_for a → uses a rs (k (Ok c))) →
  uses a rs (bind (build tgt b a) k).
Proof.
  intros He Hc d d' y Hd. unfold bind, build, with_world.
  destruct (ConnOps.build tgt b (handlers_for a) (world d)) as [w r] eqn:Hb.
  destruct (build_confined (handlers_for a) (agree kept) tgt _ _ _ _ Hb)
    as [Hw Hh].
  assert (routed (a :: rs) (set_world w d)) as Hd1.
  { eapply (frame_keeping (a :: rs) d); [|done]. apply frame_other; try done.
    by apply quiet_same_boxes. }
  destruct r as [c|e]; [apply (Hc c (Hh c eq_refl))|apply (He e)]; done.
Qed.

Lemma dial_uses rs to name a : uses a rs (dial tgt to name a).
Proof.
  unfold dial. apply uses_bind; [keep|]. intros [local|]; [|apply uses_ret].
  apply uses_bind; [keep|]. intros [session|]; [|apply uses_ret].
  do 3 (apply uses_bind; [keep|]; intros ?).
  apply uses_build; [intros; apply uses_ret|]. intros c Hc d d' r Hd. unfold bind.
  destruct (track c a to d) as [[d1 i]|] eqn:Ht; [|done].
  destruct (track_routed _ _ _ _ _ _ _ Hd Hc Ht) as [Hd1 _].
  destruct (install_routes i d1) as [[d2 u]|] eqn:Hi; [|done].
  destruct (install_routes_routed _ _ _ _ _ Hd1 Hi) as [Hd2 _]. by intros [= <- <-].
Qed.

Lemma accept_uses rs from packet original retried a :
  uses a rs (accept tgt from packet original retried a).
Proof.
  unfold accept. apply uses_bind; [keep|]. intros [local|]; [|apply uses_ret].
  apply uses_bind; [keep|]. intros [session|]; [|apply uses_ret].
  do 2 (apply uses_bind; [keep|]; intros ?).
  destruct (if retried then _ else _) as [params settings].
  apply uses_bind; [keep|]. intros e.
  apply uses_build; [intros; apply uses_ret|]. intros c Hc d d' r Hd. unfold bind.
  destruct (track c a from d) as [[d1 i]|] eqn:Ht; [|done].
  destruct (track_routed _ _ _ _ _ _ _ Hd Hc Ht) as [Hd1 Hin].
  destruct (install_routes i d1) as [[d2 u]|] eqn:Hi; [|done].
  destruct (install_routes_routed _ _ _ _ _ Hd1 Hi) as [Hd2 Hin2]. intros [= <- <-].
  eapply (routed_only_to _ _ i); [done|by apply Hin2|apply only_to_insert].
Qed.
End Kept.

Section Driven.
Context `{R : Recorded, !Ngtcp2Wire, Ngtcp2Defaults, Owners, EntropySources, TlsSessions, Wakers}
  `{!UdpSockets, !Clocks, !TlsBackends, !EntropyFactories, !HashOrder}.
Variable tgt : Target.
Implicit Types (d : Driver) (w : World).
Import Endpoint.

Lemma uses_then a rs {A B} (m : M A) (k : A → M B) :
  uses a rs m → (∀ x, steps (keeping rs) (k x)) → uses a rs (bind m k).
Proof.
  intros Hm Hk d d' y Hd. unfold bind. destruct (m d) as [[d1 x]|] eqn:E; [|done].
  intros Hy. eapply Hk; [exact Hy|by eapply Hm].
Qed.

Lemma frame_on_endpoint f :
  (∀ e, dials (f e) = dials e) → steps frame (on_endpoint f).
Proof. intros Hf. apply frame_world. intros w. apply agree_endpoint. by rewrite Hf. Qed.

Lemma frame_fail_box a e : steps frame (on_world (Mailbox.fail a e)).
Proof. apply frame_world. intros w. apply fail_same. Qed.

(** Dials taken to be made are reserved. *)
Lemma dials_taken rs d d' u :
  routed rs d → on_endpoint (Fields.set_dials []) d = Some (d', u) →
  routed (asked (world d) ++ rs) d'.
Proof.
  intros [Hw Ht Hi Hf Hl Ho Ha Hwait] [= <- <-]. split; try done; cbn -[elem_of].
  - rewrite (right_id_L [] (++)). by rewrite (comm (++)).
  - intros a Hin. apply Hwait. rewrite (right_id_L [] (++)) in Hin.
    by rewrite (comm (++)).
Qed.

Lemma dials_made rs f l : (∀ dl rs, uses (d_shared dl) rs (f dl)) → ∀ d d' u,
  routed ((d_shared <$> l) ++ rs) d → for_each f l d = Some (d', u) → routed rs d'.
Proof.
  intros Hf. induction l as [|dl l IH]; intros d d' u Hd; [by intros [= <- <-]|].
  cbn [for_each]. unfold bind. destruct (f dl d) as [[d1 []]|] eqn:E; [|done].
  apply IH. eapply Hf; [exact Hd|exact E].
Qed.

Lemma drain_dials_keeping rs : steps (keeping rs) (drain_dials tgt).
Proof.
  intros d d' u. unfold drain_dials. unfold bind at 1 2, gets.
  destruct (on_endpoint (Fields.set_dials []) d) as [[d1 []]|] eqn:E; [|done].
  intros Hr Hd. eapply dials_made; [|by eapply dials_taken|exact Hr].
  intros dl rs'. apply uses_then; [apply dial_uses|]. intros []; keep.
  apply keep_frame, frame_fail_box.
Qed.

(** A mailbox for a connection to come. *)
Lemma new_reserved rs d d' a :
  routed rs d → with_world Mailbox.new d = Some (d', a) → routed (a :: rs) d'.
Proof.
  intros [Hw Ht Hi Hf Hl Ho Ha Hwait] [= <- <-].
  assert (mailboxes (world d) !! next_address (world d) = None) as Hnone by (apply Hf; lia).
  assert (∀ b, is_Some (mailboxes (world d) !! b) → b ≠ next_address (world d)) as Hother
    by (intros b [? Hb] ->; congruence).
  split; cbn [connections table next_index world set_world mailboxes next_address endpoint].
  - done.
  - done.
  - done.
  - intros b Hb. rewrite lookup_insert_ne by (cbn in Hb; lia). apply Hf. cbn in Hb. lia.
  - intros i t Hit. rewrite lookup_insert_is_Some'. right. by eapply Hl.
  - done.
  - cbn. apply list.NoDup_cons. split; [|done]. intros Hin.
    destruct (Hwait _ Hin) as [Hlive _]. by apply Hother in Hlive.
  - intros b. cbn. rewrite list.elem_of_cons. intros [->|Hin].
    + split; [rewrite lookup_insert_eq; by eexists|]. intros i t Hit E.
      apply (Hother (t_shared t)); [by eapply Hl|done].
    + destruct (Hwait b Hin) as [Hlive Hno]. split; [|done].
      rewrite lookup_insert_is_Some'. by right.
Qed.

Lemma new_then rs {A} (k : nat → M A) :
  (∀ a, uses a rs (k a)) → steps (keeping rs) (bind (with_world Mailbox.new) k).
Proof.
  intros Hk d d' x Hr Hd. unfold bind in Hr.
  destruct (with_world Mailbox.new d) as [[d1 a]|] eqn:Hn; [|done].
  eapply Hk; [by eapply new_reserved|exact Hr].
Qed.

Lemma keep_locked rs a f : steps (keeping rs) (on_world (Mailbox.update a f)).
Proof. apply keep_frame, frame_world. intros w. by apply agree_update. Qed.

Lemma begin_keeping rs datagram packet source : steps (keeping rs) (begin tgt datagram packet source).
Proof.
  unfold begin. apply steps_bind; [apply _|keep|]. intros policy.
  apply steps_bind; [apply _|keep|]. intros [[original retried]|[]];
    [|keep..];
    try (apply keep_frame, steps_modify; intros d; by apply frame_other).
  apply new_then. intros a.
  apply uses_bind; [keep|]. intros wanted.
  apply uses_bind; [destruct wanted; [apply keep_locked|keep]|]. intros _.
  apply uses_then; [apply accept_uses|]. intros [index|]; keep.
  - apply keep_frame, frame_deliver.
  - by apply keep_frame, frame_on_endpoint.
  - apply keep_frame, frame_world. intros w. done.
Qed.

Lemma answer_keeping rs datagram source : steps (keeping rs) (answer_unmatched datagram source).
Proof.
  unfold answer_unmatched. keep; apply keep_frame, steps_modify; intros d; by apply frame_other.
Qed.

Lemma dispatch_keeping rs datagram source : steps (keeping rs) (dispatch tgt datagram source).
Proof.
  unfold dispatch, route. keep.
  - apply keep_frame, frame_deliver.
  - apply begin_keeping.
  - apply answer_keeping.
  - apply answer_keeping.
Qed.

Lemma read_loop_keeping rs n cx : ∀ p, steps (keeping rs) (read_loop tgt n cx p).
Proof.
  induction n as [|n IH]; intros p; cbn [read_loop]; keep; [|apply IH]. apply dispatch_keeping.
Qed.

(** *** Connections that are no more *)

Lemma forget_keeping rs i d : keeping rs d (forget i d).
Proof.
  intros [Hw Ht Hi Hf Hl Ho Ha Hwait]. unfold forget.
  assert (∀ j t, delete i (connections d) !! j = Some t → connections d !! j = Some t) as Hdel
    by (intros j t; rewrite lookup_delete_Some; by intros [_ ?]).
  split; cbn [connections table next_index world set_table set_connections]; try done.
  - intros j t c Hj. by apply Hw with j, Hdel.
  - intros k j. rewrite map_lookup_filter_Some. intros [Hk Hne]. cbn in Hne.
    destruct (Ht _ _ Hk) as [t Hj]. exists t. by rewrite lookup_delete_ne.
  - intros j [t Hj]. apply Hi. exists t. by apply Hdel.
  - intros j t Hj. by apply (Hl j), Hdel.
  - intros j k tj tk Hj Hk. by apply Ho; apply Hdel.
  - intros a Hin. destruct (Hwait a Hin) as [Hlive Hno]. split; [done|].
    intros j t Hj. by apply (Hno j), Hdel.
Qed.

Lemma evict_keeping rs : steps (keeping rs) evict.
Proof.
  unfold evict. keep; [apply keep_frame, frame_find_dead|].
  apply steps_modify. intros d. apply forget_keeping.
Qed.

Lemma service_keeping rs fuel cx : steps (keeping rs) (service fuel cx).
Proof.
  unfold service, service_one. keep.
  - apply apply_routes_keeping.
  - apply keep_frame, frame_apply_commands.
  - apply keep_frame, frame_handle_expiry.
  - apply keep_frame, frame_flush.
  - apply evict_keeping.
Qed.

(** *** A poll, and the end *)

Lemma stop_failed_keeping rs e : steps (keeping rs) (stop_failed e).
Proof.
  unfold stop_failed. keep.
  - apply keep_frame, frame_fail_all.
  - apply keep_frame, steps_modify. intros d. by apply frame_other.
  - by apply keep_frame, frame_world.
Qed.

Lemma passes_keeping rs n fuel cx : steps (keeping rs) (passes tgt n fuel cx).
Proof.
  induction n as [|n IH]; cbn [passes]; unfold read_datagrams; keep;
    try apply drain_dials_keeping; try apply read_loop_keeping; try apply service_keeping;
    try apply stop_failed_keeping; try (apply keep_frame, frame_rearm);
    by apply keep_frame, frame_world.
Qed.

Lemma poll_keeping rs fuel cx : steps (keeping rs) (poll tgt fuel cx).
Proof.
  unfold poll. keep; [by apply keep_frame, frame_world|apply passes_keeping].
Qed.

Lemma drop_driver_keeping rs : steps (keeping rs) drop_driver.
Proof.
  unfold drop_driver. apply steps_bind; [apply _|apply keep_frame, frame_fail_all|]. intros _.
  apply steps_bind; [apply _|apply keep_frame, frame_wake_everyone|]. intros _.
  intros d d' u Hr Hd. unfold bind at 1 2, gets in Hr.
  destruct (on_endpoint (Fields.set_dials []) d) as [[d1 []]|] eqn:E; [|done].
  pose proof (dials_taken _ _ _ _ Hd E) as Hd1.
  unfold bind in Hr. destruct (for_each _ _ d1) as [[d2 []]|] eqn:Hl; [|done].
  assert (routed rs d2) as Hd2.
  { eapply dials_made; [|exact Hd1|exact Hl]. intros dl rs' d3 d4 x Hx3 Hx4.
    eapply routed_weaken, (keep_frame (d_shared dl :: rs')); [|exact Hx4|exact Hx3].
    apply frame_fail_box. }
  eapply (keep_frame rs); [|exact Hr|done]. by apply frame_world.
Qed.
End Driven.

(** ** Every step *)

Section Evolution.
Context `{R : Recorded, !Ngtcp2Wire, Ngtcp2Defaults, Owners, EntropySources, TlsSessions, Wakers}
  `{!UdpSockets, !Clocks, !TlsBackends, !EntropyFactories, !HashOrder}.
Variable tgt : Target.
Implicit Types (d : Driver) (w : World).
Import Endpoint.

(** The driver is polled; handles and owners of detached connections use mailboxes, dial, and
    wait for connections; the driver is dropped. *)
Inductive evolves d : Driver → Prop :=
| ev_poll fuel cx d' r : poll tgt fuel cx d = Some (d', r) → evolves d d'
| ev_mailbox o w :
    mailbox_run o (world d) = Some w → dials (endpoint w) = dials (endpoint (world d)) →
    evolves d (set_world w d)
| ev_connect to name : evolves d (set_world (connect to name (world d)).1 d)
| ev_connect_detached to name : evolves d (set_world (connect_detached to name (world d)).1 d)
| ev_detaching_poll a cx q w r :
    detaching_poll a cx (detached d) (world d) = (q, w, r) →
    evolves d (set_world w (set_detached q d))
| ev_detaching_drop a settled q w :
    detaching_drop a settled (detached d) (world d) = (q, w) →
    evolves d (set_world w (set_detached q d))
| ev_drop d' u : drop_driver d = Some (d', u) → evolves d d'.

Lemma routed_world rs d w q :
  routed rs d → grows (world d) w → routed rs (set_world w (set_detached q d)).
Proof.
  intros Hr Hg. eapply routed_keep; [done|apply Hr| |done|done|done].
  intros k i. by apply (ro_table _ _ Hr).
Qed.

Lemma routed_mailboxes rs d w :
  routed rs d → grows (world d) w → routed rs (set_world w d).
Proof.
  intros Hr Hg. eapply routed_keep; [done|apply Hr| |done|done|done].
  intros k i. by apply (ro_table _ _ Hr).
Qed.

Lemma mailbox_grows o w w' :
  mailbox_run o w = Some w' → dials (endpoint w') = dials (endpoint w) →
  (∀ b, (next_address w ≤ b)%nat → mailboxes w !! b = None) → grows w w'.
Proof.
  intros Hr Hd Hf. destruct (next_address_run _ _ _ Hr) as [Hn Hfree].
  destruct (mailbox_effect _ _ _ Hr Hf) as (ws & _ & He). split; [done| |].
  - intros a [s Hs]. specialize (He a). rewrite Hs in He.
    destruct (mailboxes w' !! a); [by eexists|done].
  - intros b Hb _. apply Hfree; [done|]. apply Hf. lia.
Qed.

(** A reserved mailbox is put forward for a dial. *)
Lemma ask_dial_routed rs d to name a :
  routed (a :: rs) d → routed rs (set_world (ask_dial to name a (world d)) d).
Proof.
  intros Hr. unfold ask_dial. destruct (gone (endpoint (world d))).
  - apply routed_weaken with a. apply routed_mailboxes; [done|]. eapply agree_grows, fail_same.
  - destruct Hr as [Hw Ht Hi Hf Hl Ho Ha Hwait].
    assert (∀ ds, rs ++ (d_shared <$> ds ++ [mkDial to name a]) ≡ₚ a :: rs ++ (d_shared <$> ds)) as Hp.
    { intros ds. rewrite fmap_app, (assoc_L (++)), (comm (++) _ (_ <$> [_])). done. }
    split; try done; cbn -[elem_of].
    + unfold asked. cbn. by rewrite Hp.
    + intros b Hb. apply Hwait. unfold asked in Hb. cbn -[elem_of] in Hb. by rewrite Hp in Hb.
Qed.

Lemma new_box rs d : routed rs d →
  routed (next_address (world d) :: rs) (set_world (Mailbox.new (world d)).1 d).
Proof. intros Hr. by eapply new_reserved. Qed.

Lemma evolves_routed rs d d' : evolves d d' → routed rs d → routed rs d'.
Proof.
  intros He Hr. destruct He as [fuel cx d' r Hp|o w Ho Hd|to name|to name|a cx q w r Hp
    |a settled q w Hp|d' u Hp].
  - by eapply (poll_keeping tgt rs).
  - apply routed_mailboxes; [done|]. eapply mailbox_grows; [done|done|apply Hr].
  - apply (ask_dial_routed rs (set_world (Mailbox.new (world d)).1 d) to name).
    by apply new_box.
  - apply (ask_dial_routed rs (set_world (Mailbox.request_detach (next_address (world d))
      (Mailbox.new (world d)).1) d) to name).
    apply (routed_mailboxes (_ :: rs) (set_world (Mailbox.new (world d)).1 d)); [by apply new_box|].
    eapply (agree_grows (λ _, ())). by apply agree_update.
  - apply routed_world; [done|]. unfold detaching_poll in Hp.
    assert (∀ b, agree (λ _, ()) (world d) (Mailbox.register b cx (world d)).1) as Hreg.
    { intros b. unfold Mailbox.register. destruct (existsb _ _); [done|]. by apply agree_locked. }
    assert (∀ w, agree (λ _, ()) w (Mailbox.register_endpoint cx w)) as Hend.
    { intros w0. unfold Mailbox.register_endpoint. by destruct (existsb _ _). }
    eapply (agree_grows (λ _, ())).
    destruct (queue_take _ _) as [q1 [c|]]; [by injection Hp as <- <- <-|].
    destruct a as [a|]; [destruct (Mailbox.is_closed a (world d)); [by injection Hp as <- <- <-|]|];
      (destruct (gone _); injection Hp as <- <- <-; [done|]); [|done].
    etransitivity; [apply Hreg|apply Hend].
  - apply routed_world; [done|]. unfold detaching_drop, queue_abandon in Hp.
    assert (∀ b w, agree (λ _, ()) w (Mailbox.mark_terminal b w)) as Hmark.
    { intros b w0. unfold Mailbox.mark_terminal.
      etransitivity; [|apply agree_wake_driver]. by apply agree_locked. }
    eapply (agree_grows (λ _, ())).
    destruct settled; [by injection Hp as <- <-|]. destruct a as [a|]; [|by injection Hp as <- <-].
    destruct (take_keyed _ _) as [[c rest]|]; injection Hp as <- <-; [|apply Hmark].
    etransitivity; [apply Hmark|apply Hmark].
  - by eapply (drop_driver_keeping rs).
Qed.

Lemma assembled_routed detachable b d : assemble detachable b = Ok d → routed [] d.
Proof.
  unfold assemble. destruct (eb_entropy b) as [e|]; [|done]. intros [= <-].
  assert (∀ i (t : Tracked), (∅ : gmap Z Tracked) !! i ≠ Some t) as Hnone
    by (intros i t; by rewrite lookup_empty).
  split; cbn.
  - intros i t c Ht. by apply Hnone in Ht.
  - intros k i. by rewrite lookup_empty.
  - intros i [t Ht]. by apply Hnone in Ht.
  - done.
  - intros i t Ht. by apply Hnone in Ht.
  - intros i j ti tj Ht. by apply Hnone in Ht.
  - constructor.
  - intros a Ha. by apply elem_of_nil in Ha.
Qed.

(** C37. Routes lead somewhere.  From an endpoint just built, whatever it is sent and asked,
    whatever its connections do, and however polls interleave with handles and the owners of
    detached connections: every identifier in the table leads to a connection that is there,
    whose handlers write to its mailbox, which no other connection has; and each dial not yet
    made has a mailbox of its own, of no connection. *)
Theorem routes_live detachable b d0 d :
  assemble detachable b = Ok d0 → rtc evolves d0 d →
  (∀ datagram d' i, route datagram d = Some (d', Some i) → ∃ t, connections d !! i = Some t) ∧
  (∀ i t, connections d !! i = Some t →
     is_Some (mailboxes (world d) !! t_shared t) ∧
     (∀ c, conn t = Some c → handlers c = handlers_for (t_shared t)) ∧
     ∀ j t', connections d !! j = Some t' → t_shared t' = t_shared t → j = i) ∧
  NoDup (d_shared <$> dials (endpoint (world d))) ∧
  ∀ dl, dl ∈ dials (endpoint (world d)) →
    is_Some (mailboxes (world d) !! d_shared dl) ∧
    ∀ i t, connections d !! i = Some t → t_shared t ≠ d_shared dl.
Proof.
  intros Hb Hd. assert (routed [] d) as [Hw Ht Hi Hf Hl Ho Ha Hwait].
  { apply assembled_routed in Hb. induction Hd as [d|d0 d1 d Hs _ IH]; [done|].
    apply IH. by eapply evolves_routed. }
  split_and!.
  - intros datagram d' i. unfold route, gets. intros [= _ Hk].
    destruct (Accept.inspect _ _); [|done]. by apply Ht in Hk.
  - intros i t Hit. split_and!; [by eapply Hl|intros c Hc; by eapply (Hw i)|]. intros j t' Hjt E. by eapply Ho.
  - done.
  - intros dl Hdl. apply Hwait. by apply list_elem_of_fmap_2.
Qed.
End Evolution.

(** ** A small endpoint that dials *)

Module DialToy.
Import EndpointToy.

Definition asked_to : Driver :=
  Endpoint.set_world (Endpoint.connect there None (world (initial [] 10))).1 (initial [] 10).
Definition dialled : Driver := after (Endpoint.poll target 10 0%nat) asked_to.

Lemma dialled_evolved : rtc (evolves target) (initial [] 10) dialled.
Proof.
  eapply rtc_l; [apply ev_connect|].
  destruct (after_ok (Endpoint.poll target 10 0%nat) asked_to) as [r Hr]; [vm_compute; reflexivity|].
  apply rtc_once. exact (ev_poll target _ 10 0%nat _ r Hr).
Qed.

(** The dial was made: the identifier its peer will use leads to it. *)
Lemma routes_live_witness :
  let short := x00 :: replicate 20 x2a in
  Endpoint.route short dialled = Some (dialled, Some 0) ∧
  ∃ t, connections dialled !! 0 = Some t ∧
    is_Some (mailboxes (world dialled) !! t_shared t).
Proof.
  assert (Endpoint.route (x00 :: replicate 20 x2a) dialled = Some (dialled, Some 0)) as Hroute.
  { unfold Endpoint.route, Endpoint.gets. do 2 f_equal; vm_compute; reflexivity. }
  split; [exact Hroute|].
  destruct (routes_live target true (builder [] 10) (initial [] 10) dialled (initial_ok [] 10)
    dialled_evolved) as (Hr & Hc & _).
  destruct (Hr _ _ _ Hroute) as [t Ht]. exists t. split; [exact Ht|].
  exact (proj1 (Hc _ _ Ht)).
Defined.
End DialToy.
