(* ===== verification/QuicFlush.v ===== *)
(** * What a connection of the QUIC endpoint sends

    A datagram the socket refused goes first, then those its detached owner queued, then its
    close, then what the QUIC machine has to send: they leave in that order, each once, and
    flushing stops ([flush_in_order]). *)

From Stdlib Require Import ZArith Lia Strings.Byte.
From stdpp Require Import base list gmap strings countable.
From S2P Require Import Prelude Traces QmuxScheduling QuicTypes QuicWire QuicRetain QuicConn QuicSafety QuicMailbox QuicMailboxFacts QuicEndpoint QuicToys QuicEndpointFacts QuicRoutes.

(** ** What waits in a mailbox *)

Section Waiting.
Context `{Wakers}.
Implicit Types (w : World).

Lemma agree_get {X} (g : ConnectionShared → X) a w w' :
  agree g w w' → g (Mailbox.get a w') = g (Mailbox.get a w).
Proof.
  intros (_ & _ & Hm). specialize (Hm a). unfold Mailbox.get.
  destruct (mailboxes w !! a), (mailboxes w' !! a); cbn in *; congruence.
Qed.

Lemma quiet_queued a w w' :
  agree kept w w' → queued (Mailbox.get a w') = queued (Mailbox.get a w).
Proof.
  intros Hq. apply (agree_get queued).
  by apply (agree_coarser kept (λ k, k.1.1.1 ++ option_list k.1.1.2)).
Qed.

Lemma fail_queued a b e w :
  queued (Mailbox.get b (Mailbox.fail a e w)) = queued (Mailbox.get b w).
Proof.
  apply (agree_get queued). unfold Mailbox.fail.
  set (w1 := Mailbox.locked a _ w).
  assert (agree queued w w1) as Hw1.
  { apply agree_locked. intros s. by destruct (QuicMailbox.failure (inner s)). }
  etransitivity; [exact Hw1|]. etransitivity; [|by apply (agree_wake_all queued)].
  by apply (agree_update queued).
Qed.

Lemma take_outbound_queued a w w' r :
  Mailbox.take_outbound a w = (w', r) →
  queued (Mailbox.get a w) = option_list r ++ queued (Mailbox.get a w') ∧
  (r = None → queued (Mailbox.get a w) = []).
Proof.
  intros Ht.
  assert (∀ f, Mailbox.get a (Mailbox.locked a f w) =
    match mailboxes w !! a with
    | Some s => Fields.set_inner (f (inner s)) s | None => fresh end) as Hl.
  { intros f. unfold Mailbox.get, Mailbox.locked, Mailbox.update. cbn. rewrite lookup_alter_eq.
    by destruct (mailboxes w !! a). }
  assert (∀ w1 ws, queued (Mailbox.get a (Fields.wake ws (Mailbox.locked a
    (Fields.set_capacity_wakers []) w1))) = queued (Mailbox.get a w1)) as Hc.
  { intros w1 ws. apply (agree_get queued). etransitivity; [|apply agree_wake].
    by apply (agree_locked queued). }
  unfold Mailbox.take_outbound in Ht. unfold Mailbox.lock, queued in *.
  destruct (outbound (inner (Mailbox.get a w))) as [|d rest] eqn:E; cbv beta iota zeta in Ht.
  - cbn [length Nat.eqb OUTBOUND_DATA_QUEUE DATAGRAM_QUEUE Nat.sub andb] in Ht.
    injection Ht as <- <-. rewrite Hl. unfold Mailbox.get in *.
    destruct (mailboxes w !! a) as [s|]; cbn in *; [rewrite E, app_nil_r|]; split; try done;
      by intros ->.
  - destruct (_ && _); injection Ht as <- <-; (split; [|done]); rewrite ?Hc, ?Hl;
      unfold Mailbox.get in *; destruct (mailboxes w !! a) as [s|]; done.
Qed.
End Waiting.

(** ** What the QUIC machine writes *)

Definition packet_of (c : call) : option bytes :=
  match c_request c with
  | ReqWritePkt _ _ _ =>
      let r := c_response c in
      if 0 <? rs_rv r then Some (take (Z.to_nat (rs_rv r)) (rs_data r)) else None
  | _ => None
  end.

Definition packets (cs : list call) : list bytes := omap packet_of cs.

Definition written_of {E} (r : result (WriteOutcome * bytes) E) : list bytes :=
  match r with Ok (Datagram _, x) => [x] | _ => [] end.

Section Writes.
Context `{R : Recorded, Ngtcp2Defaults, Owners, EntropySources, TlsSessions}.

(** However many packets it has to send now, they are finitely many: a bound on them, which
    each one written lowers. *)
Class FiniteBursts := {
  burst : ngtcp2_conn → nat;
  burst_write p n now B cb c (b : B) c' b' r :
    ngtcp2_call (ReqWritePkt p n now) B cb c b = (c', b', r) → 0 < rs_rv r →
    (burst c' < burst c)%nat;
  burst_time now B cb c (b : B) c' b' r :
    ngtcp2_call (ReqUpdatePktTxTime now) B cb c b = (c', b', r) → (burst c' ≤ burst c)%nat
}.

Context `{!FiniteBursts} {C : Type}.

Lemma write_pkt_made n now (st st' : ConnOps.St (C:=C)) r :
  n ≠ 0%nat → ConnOps.write_pkt n now st = (st', r) →
  ∃ cs, log st' = log st ++ cs ∧ packets cs = written_of r ∧
    (written_of r ≠ [] → burst (raw st'.1) < burst (raw st.1))%nat.
Proof.
  intros Hn. destruct st as [s c]. unfold ConnOps.write_pkt, ConnOps.bind, ConnOps.gets.
  rewrite decide_False by done. unfold ConnOps.with_bridge_path, ConnOps.bind,
    ConnOps.with_bridge, ConnOps.modify, ConnOps.ret, ConnOps.throw.
  destruct (ngtcp2_call (ReqWritePkt _ n now) _ _ _ _) as [[raw1 w1] r1] eqn:Hc1.
  destruct (calls_of_call _ _ _ _ _ _ _ _ Hc1) as (tr1 & Hl1 & _). cbn [fst snd].
  destruct (Z.ltb_spec 0 (rs_rv r1)) as [Hpos|Hneg].
  - unfold ConnOps.native_call.
    destruct (ngtcp2_call (ReqUpdatePktTxTime now) _ _ _ _) as [[raw2 w2] r2] eqn:Hc2.
    destruct (calls_of_call _ _ _ _ _ _ _ _ Hc2) as (tr2 & Hl2 & _). intros [= <- <-].
    eexists. split; [unfold log; cbn; rewrite Hl2; cbn; by rewrite Hl1, <- (assoc_L (++))|].
    split; [cbn; unfold packet_of; cbn; by rewrite (proj2 (Z.ltb_lt _ _) Hpos)|]. intros _. cbn.
    eapply Nat.le_lt_trans; [by eapply burst_time|]. cbn. by eapply burst_write.
  - intros Hr. exists [mkCall (ReqWritePkt (path s) n now) tr1 r1].
    assert (packets [mkCall (ReqWritePkt (path s) n now) tr1 r1] = []) as ->
      by (cbn; unfold packet_of; cbn; by rewrite (proj2 (Z.ltb_ge _ _) Hneg)).
    repeat case_match; injection Hr as <- <-; cbn in *; by split_and!.
Qed.
End Writes.

(** ** Flushing *)

Section Flushing.
Context `{R : Recorded, !Ngtcp2Wire, Ngtcp2Defaults, Owners, EntropySources, TlsSessions, Wakers}
  `{!UdpSockets, !Clocks, !TlsBackends, !EntropyFactories, !HashOrder, !FiniteBursts}.
Implicit Types (d : Driver) (w : World).
Import Endpoint.

(** What a socket took: it says [Complete] of those, and of no other. *)
Variable sent : socket → list (SocketAddr * bytes).
Definition takes : Prop := ∀ cx to x s s' r,
  poll_send cx to x s = (s', r) →
  sent s' = sent s ++ match r with Ready (Ok Complete) => [(to, x)] | _ => [] end.
Hypothesis taken : takes.

(** What waits to be sent on a connection, in order. *)
Definition backlog i d : list bytes :=
  match connections d !! i with
  | Some t => option_list (pending t) ++ queued (Mailbox.get (t_shared t) (world d))
  | None => []
  end.

Definition on_conn {A} (f : ngtcp2_conn → A) (otherwise : A) i d : A :=
  match connections d !! i ≫= conn with Some c => f (raw c) | None => otherwise end.
Definition calls_at : Z → Driver → list call := on_conn calls_of [].
Definition burst_at : Z → Driver → nat := on_conn burst 0%nat.

Lemma lookup_alter_conn i f d t :
  connections d !! i = Some t →
  connections (set_connections (alter f i (connections d)) d) !! i = Some (f t).
Proof. intros Ht. cbn. by rewrite lookup_alter_eq, Ht. Qed.

(** One datagram, if there is one. *)
Lemma next_datagram_spec i d t :
  wired d → connections d !! i = Some t →
  ∃ d' o t' cs, next_datagram i d = Some (d', o) ∧ socket_ d' = socket_ d ∧
    connections d' !! i = Some t' ∧ shape t' = shape t ∧ pending t' = None ∧
    calls_at i d' = calls_at i d ++ cs ∧
    backlog i d ++ packets cs = option_list (produced_bytes <$> o) ++ backlog i d' ∧
    match o with
    | Some _ => length (backlog i d') + burst_at i d' < length (backlog i d) + burst_at i d
    | None => backlog i d' = []
    end%nat.
Proof.
  intros Hw Ht. unfold next_datagram, bind at 1 2, read_clock, tracked, gets.
  destruct (now (clock_ d)) as [c now]. cbn [connections set_clock]. rewrite Ht.
  destruct (pending t) as [x|] eqn:Hp.
  { unfold bind, update, modify, ret. eexists _, _, (set_pending None t), [].
    split; [reflexivity|]. split; [done|]. split; [cbn; by rewrite lookup_alter_eq, Ht|].
    split; [done|]. split; [done|].
    unfold calls_at, burst_at, on_conn, backlog. cbn. rewrite lookup_alter_eq, Ht. cbn.
    rewrite !app_nil_r, Hp. cbn. split_and!; [done|done|lia]. }
  unfold bind at 1, with_world. cbn [world set_clock].
  destruct (Mailbox.take_outbound (t_shared t) (world d)) as [w q] eqn:Hq.
  destruct (take_outbound_queued _ _ _ _ Hq) as [Hqueue Hnone].
  destruct q as [x|].
  { unfold ret. eexists _, _, t, []. split; [reflexivity|].
    split; [done|]. split; [done|]. split; [done|]. split; [done|].
    unfold calls_at, burst_at, on_conn, backlog. cbn. rewrite Ht. cbn.
    rewrite !app_nil_r, Hp, Hqueue. cbn. split_and!; [done|done|lia]. }
  specialize (Hnone eq_refl). rewrite Hnone in Hqueue. cbn in Hqueue.
  unfold bind at 1, run. cbn [connections set_world set_clock world]. rewrite Ht. cbn [mbind option_bind].
  destruct (conn t) as [k|] eqn:Hk; cbn.
  - destruct (ConnOps.write_pkt MAX_DATAGRAM now (k, w)) as [[k' w'] r] eqn:Hr.
    destruct (write_pkt_made _ _ _ _ _ (ltac:(done) : MAX_DATAGRAM ≠ 0%nat) Hr)
      as (cs & Hlog & Hpk & Hburst).
    unfold log in Hlog. cbn in Hlog, Hburst.
    assert (confined (handlers_for (t_shared t)) (agree kept)
      (ConnOps.write_pkt MAX_DATAGRAM now)) as Hconf
      by (apply confined_write_pkt; first [apply _|apply handlers_quiet]).
    destruct (Hconf _ _ _ Hr (Hw _ _ _ Ht Hk)) as [_ Hquiet]. cbn in Hquiet.
    pose proof (quiet_queued (t_shared t) _ _ Hquiet) as Hsame. rewrite <- Hqueue in Hsame.
    set (d1 := set_world w' _).
    assert (connections d1 !! i = Some (set_conn (Some k') t)) as Ht1
      by (cbn; by rewrite lookup_alter_eq, Ht).
    assert (∀ d2 o, connections d2 = connections d1 → socket_ d2 = socket_ d →
      queued (Mailbox.get (t_shared t) (world d2)) = [] →
      written_of r = option_list (produced_bytes <$> o) →
      ∃ d' o' t' cs, Some (d2, o) = Some (d', o') ∧ socket_ d' = socket_ d ∧
        connections d' !! i = Some t' ∧ shape t' = shape t ∧ pending t' = None ∧
        calls_at i d' = calls_at i d ++ cs ∧
        backlog i d ++ packets cs = option_list (produced_bytes <$> o') ++ backlog i d' ∧
        match o' with
        | Some _ => length (backlog i d') + burst_at i d' < length (backlog i d) + burst_at i d
        | None => backlog i d' = []
        end%nat) as Hdone.
    { intros d2 o Hd2 Hs2 Hq2 Ho. exists d2, o, (set_conn (Some k') t), cs.
      unfold calls_at, burst_at, on_conn, backlog. rewrite Hd2, Ht1, Ht. cbn.
      rewrite Hk, Hp, Hq2, Hnone, Hpk, Ho. cbn. rewrite ?app_nil_r. split_and!; try done.
      destruct o as [p|]; [|done]. cbn. apply Hburst. by rewrite Ho. }
    assert (queued (Mailbox.get (t_shared t) (world d1)) = []) as Hq1 by exact Hsame.
    destruct r as [[[] x]|e]; unfold bind, on_world, modify, ret; cbn beta iota;
      apply Hdone; try done. rewrite <- Hq1. apply fail_queued.
  - eexists _, _, t, []. split; [reflexivity|].
    split; [done|]. split; [done|]. split; [done|]. split; [done|].
    unfold calls_at, burst_at, on_conn, backlog. cbn. rewrite Ht. cbn.
    rewrite !app_nil_r, Hp, Hnone, <- Hqueue. by split_and!.
Qed.

(** Those a flush sent, the one a broken socket lost, and whether one waits that was refused. *)
Definition flushed i to d d' (r : result unit EndpointError.Error) : Prop :=
  ∃ cs out lost,
    calls_at i d' = calls_at i d ++ cs ∧
    sent (socket_ d') = sent (socket_ d) ++ ((λ x, (to, x)) <$> out) ∧
    backlog i d ++ packets cs = out ++ lost ++ backlog i d' ∧
    match r with
    | Ok _ => lost = [] ∧ (backlog i d' = [] ∨ is_Some (connections d' !! i ≫= pending))
    | Err _ => length lost = 1%nat
    end.

(** A connection's datagrams leave in order.  With a socket that takes what it says it
    takes and a QUIC machine whose bursts are finite, flushing a connection returns; what it
    handed to the socket for the connection's peer, followed by what still waits, is what
    waited before -- the datagram refused last time, then the queue of its detached owner, then
    its close -- followed by what the QUIC machine wrote meanwhile, each once and in order.
    Something still waits only behind a datagram the socket has just refused, and at most one
    datagram is lost, if the socket breaks. *)
Theorem flush_in_order fuel cx i d t :
  wired d → connections d !! i = Some t →
  (length (backlog i d) + burst_at i d < fuel)%nat →
  ∃ d' r, flush_connection fuel cx i d = Some (d', r) ∧ flushed i (remote t) d d' r.
Proof.
  revert d t. induction fuel as [|fuel IH]; intros d t Hw Ht Hfuel; [lia|].
  destruct (next_datagram_spec i d t Hw Ht)
    as (d1 & o & t1 & cs & Hn & Hs & Ht1 & Hshape & Hp1 & Hcs & Hb & Hmore).
  cbn [flush_connection]. unfold bind at 1. rewrite Hn. unfold shape in Hshape.
  destruct o as [p|]; cbn [option_list fmap option_fmap option_map] in Hb.
  2: { exists d1, (Ok ()). split; [done|]. exists cs, [], [].
       csimpl. rewrite Hs, (right_id_L [] (++)). split_and!; [done|done|done|done|by left]. }
  unfold bind at 1, tracked, gets. rewrite Ht1. unfold bind at 1, send.
  destruct (poll_send cx (remote t1) (produced_bytes p) (socket_ d1)) as [s' r] eqn:Hsend.
  pose proof (taken _ _ _ _ _ _ Hsend) as Htaken.
  assert (remote t1 = remote t) as Hto by congruence. rewrite Hto, Hs in Htaken.
  assert (wired d1) as Hw1 by (by apply (frame_next_datagram i _ _ _ Hn)).
  set (d2 := set_socket s' d1).
  assert (∀ p', flushed i (remote t) d (set_connections (alter (set_pending (Some (produced_bytes p))) i
    (connections d2)) d2) (Ok p') ∨ sent s' ≠ sent (socket_ d)) as Hrefused.
  { intros p'. destruct (decide (sent s' = sent (socket_ d))) as [E|]; [left|by right].
    exists cs, [], []. unfold calls_at, on_conn, backlog in *. cbn. rewrite lookup_alter_eq.
    rewrite Ht1 in *. cbn in *. rewrite E, Hp1 in *. csimpl. rewrite (right_id_L [] (++)).
    split_and!; [exact Hcs|done|by rewrite Hb|done|right; by eexists]. }
  destruct r as [|[[]|text]]; rewrite ?(right_id_L [] (++)) in Htaken.
  - eexists _, (Ok ()). split; [reflexivity|]. by destruct (Hrefused ()) as [|[]].
  - destruct (IH d2 t1) as (d3 & r & Hr & cs' & out & lost & Hcs' & Hsent & Hb' & Hl);
      [done|done| |].
    { change (backlog i d2) with (backlog i d1). change (burst_at i d2) with (burst_at i d1). lia. }
    exists d3, r. split; [done|]. exists (cs ++ cs'), (produced_bytes p :: out), lost.
    change (calls_at i d2) with (calls_at i d1) in Hcs'.
    change (backlog i d2) with (backlog i d1) in Hb'. split; [|split; [|split; [|done]]].
    + by rewrite Hcs', Hcs, (assoc_L (++)).
    + rewrite Hsent, Hto. cbn. by rewrite Htaken, <- (assoc_L (++)).
    + unfold packets in *. rewrite omap_app, (assoc_L (++)), Hb. cbn.
      f_equal. by rewrite <- Hb'.
  - eexists _, (Ok ()). split; [reflexivity|]. by destruct (Hrefused ()) as [|[]].
  - exists d2, (Err (socket_failed text)). split; [done|]. exists cs, [], [produced_bytes p].
    split_and!; [done|csimpl; by rewrite (right_id_L [] (++))|done|done].
Qed.
End Flushing.

(** ** A small endpoint with room for three *)

Module FlushToy.
Import EndpointToy.

#[local] Instance bursts : @FiniteBursts toy_library.
Proof.
  refine (@Build_FiniteBursts toy_library (λ n, @QuicSafety.inner library n) _ _).
  - intros p n now B cb c b c' b' r. cbn. unfold logged_call. cbn. destruct (@QuicSafety.inner library c) as [|k];
      cbn; intros [= <- <- <-]; cbn; lia.
  - intros now B cb c b c' b' r. cbn. unfold logged_call. cbn. by intros [= <- <- <-].
Defined.

Definition went_out : socket → list (SocketAddr * bytes) := gone_out.

Lemma toy_takes : takes went_out.
Proof.
  intros cx to x s s' r. cbn. destruct (room s); intros [= <- <-]; cbn; [|done].
  by rewrite (right_id_L [] (++)).
Qed.

(** A connection made, its owner's datagram queued, and a refused one kept from before. *)
Definition asked_to : Driver :=
  Endpoint.set_world (Endpoint.connect there None (world (initial [] 3))).1 (initial [] 3).
Definition made : Driver := after (Endpoint.drain_dials target) asked_to.
Definition waiting : Driver :=
  Endpoint.set_world (default (world made) (Mailbox.queue_outbound 1 [x02] (world made)))
    (after (Endpoint.update 0 (Endpoint.set_pending (Some [x01]))) made).

Lemma waiting_wired : wired waiting.
Proof.
  assert (routed [] asked_to) as H1.
  { apply (evolves_routed target [] (initial [] 3)); [apply ev_connect|].
    by eapply assembled_routed, initial_ok. }
  destruct (after_ok (Endpoint.drain_dials target) asked_to) as [[] Hu]; [vm_compute; reflexivity|].
  pose proof (ro_wired _ _ (drain_dials_keeping target [] _ _ _ Hu H1) : wired made) as Hw.
  revert Hw. unfold waiting. generalize made. clear. intros d Hw i t c Ht.
  change (alter (Endpoint.set_pending (Some [x01])) 0 (connections d) !! i = Some t) in Ht.
  destruct (decide (0 = i)) as [<-|Hi].
  - rewrite lookup_alter_eq in Ht. destruct (connections d !! 0) as [t0|] eqn:E; [|done].
    injection Ht as <-. exact (Hw 0 t0 c E).
  - rewrite lookup_alter_ne in Ht by done. exact (Hw i t c Ht).
Qed.

(** Four wait to be sent, there is room for three. *)
Lemma flush_in_order_witness :
  ∃ d r, Endpoint.flush_connection 10 0%nat 0 waiting = Some (d, r) ∧
    flushed went_out 0 there waiting d r ∧
    (snd <$> went_out (socket_ d)) = [[x01]; [x02]; replicate 30 x55] ∧
    backlog 0 d = [replicate 30 x55].
Proof.
  assert (remote <$> connections waiting !! 0 = Some there) as Hto by (vm_compute; reflexivity).
  destruct (connections waiting !! 0) as [t|] eqn:Ht; [|done]. injection Hto as Hto.
  destruct (flush_in_order went_out toy_takes 10 0%nat 0 waiting t waiting_wired Ht)
    as (d & r & Hr & Hf); [vm_compute; lia|].
  rewrite Hto in Hf. exists d, r. split; [exact Hr|]. split; [exact Hf|].
  assert (d = after (Endpoint.flush_connection 10 0%nat 0) waiting) as ->
    by exact (f_equal (λ x, match x with Some (d, _) => d | None => waiting end) (eq_sym Hr)).
  split; vm_compute; reflexivity.
Defined.
End FlushToy.
