(* ===== verification/UtilPool.v ===== *)
(** * The connection pool (crates/ngnet-util/src/pool.rs, with error.rs and the data of
    origin.rs)

    One connection per origin, shared by concurrent requests.  The code is asynchronous: a
    request is a task that moves from one lock acquisition or await to the next, so a task
    is a program counter [pc], [advance] is what it does up to the next point where another
    task may run, and [step] is any interleaving of tasks, dials finishing or failing,
    requests being dropped, drivers ending, and the shutdown.  Dialling a connection and
    driving it are outside code: a dial ends with any handle and driver or any error, a
    driver ends at any time, and a handle may be found closed or refusing at any time. *)

From Stdlib Require Import ZArith Lia.
From stdpp Require Import base list gmap fin_maps strings countable relations.
From S2P Require Import Prelude.

(** ** error.rs *)

Inductive ErrorKind := Uri | Connect | Closed | Exchange.

#[global] Instance ErrorKind_eq_dec : EqDecision ErrorKind.
Proof. solve_decision. Defined.

(** A cause: a reason given by this crate, another crate's error (its text), or an error
    shared with other requests. *)
Inductive Error := mkError (kind : ErrorKind) (retriable : bool) (source : Source)
with Source := Reason (text : string) | Boxed (text : string) | Shared (e : Error).

Module PoolError.
Definition kind (e : Error) : ErrorKind := match e with mkError k _ _ => k end.
Definition is_retriable (e : Error) : bool := match e with mkError _ r _ => r end.
Definition from_shared (e : Error) : Error := mkError (kind e) (is_retriable e) (Shared e).
Definition uri (s : Source) : Error := mkError Uri false s.
Definition connect (s : Source) : Error := mkError Connect true s.
Definition closed (s : Source) : Error := mkError Closed false s.
Definition exchange (retriable : bool) (s : Source) : Error := mkError Exchange retriable s.
End PoolError.

(** ** origin.rs: the key *)

Record Origin := mkOrigin { host : string; port : Z }.

#[global] Instance Origin_eq_dec : EqDecision Origin.
Proof. solve_decision. Defined.
#[global] Instance Origin_countable : Countable Origin.
Proof.
  refine (inj_countable' (λ o, (host o, port o)) (λ p, mkOrigin p.1 p.2) _). by intros [].
Defined.

(** ** Slots *)

(** A handle ([SendRequest]) and a driver ([JoinHandle]) are known by their identity. *)
Abbreviation handle := nat (only parsing).
Abbreviation driver := nat (only parsing).

Inductive Dial := Idle | Dialing | Ready (h : handle) | Failed (e : Error).
Inductive Decision := DReady (h : handle) | DFailed (e : Error) | DDial | DWait (generation : Z).

Record Slot := mkSlot { state : Dial; settled : Z }.

Module SlotOps.
Definition new : Slot := mkSlot Idle 0.

Definition settle (d : Dial) (s : Slot) : Slot := mkSlot d (wrapping_add (settled s) 1).

(** The block of [acquire] under the slot lock; [alive] is what the handle answers if it is
    asked: neither closed nor refusing. *)
Definition decision (alive waited : bool) (s : Slot) : Slot * Decision :=
  match state s with
  | Ready h =>
      if negb alive then (mkSlot Dialing (settled s), DDial) else (s, DReady h)
  | Failed error => if waited then (s, DFailed error) else (mkSlot Dialing (settled s), DDial)
  | Idle => (mkSlot Dialing (settled s), DDial)
  | Dialing => (s, DWait (settled s))
  end.
End SlotOps.

(** ** The pool *)

(** [Pool] and its [State]; [Arc<Slot>]s are references into [slots].  [done_drivers] are the
    drivers that have ended, [made] those that ever ran, [shut] the handles shut down. *)
Record Pool := mkPool {
  connections : gmap Origin nat;
  drivers : list driver;
  closed : bool;
  acquires : nat;
  finished : bool;
  resolutions : nat;
  slots : gmap nat Slot;
  next_slot : nat;
  done_drivers : gset driver;
  made : gset driver;
  shut : gset handle
}.

Module PoolOps.
Definition new : Pool := mkPool ∅ [] false 0 false 0 ∅ 0 ∅ ∅ ∅.

Definition set_connections v p := mkPool v (drivers p) (closed p) (acquires p) (finished p)
  (resolutions p) (slots p) (next_slot p) (done_drivers p) (made p) (shut p).
Definition set_drivers v p := mkPool (connections p) v (closed p) (acquires p) (finished p)
  (resolutions p) (slots p) (next_slot p) (done_drivers p) (made p) (shut p).
Definition set_closed v p := mkPool (connections p) (drivers p) v (acquires p) (finished p)
  (resolutions p) (slots p) (next_slot p) (done_drivers p) (made p) (shut p).
Definition set_acquires v p := mkPool (connections p) (drivers p) (closed p) v (finished p)
  (resolutions p) (slots p) (next_slot p) (done_drivers p) (made p) (shut p).
Definition set_finished v p := mkPool (connections p) (drivers p) (closed p) (acquires p) v
  (resolutions p) (slots p) (next_slot p) (done_drivers p) (made p) (shut p).
Definition set_resolutions v p := mkPool (connections p) (drivers p) (closed p) (acquires p)
  (finished p) v (slots p) (next_slot p) (done_drivers p) (made p) (shut p).
Definition set_slots v p := mkPool (connections p) (drivers p) (closed p) (acquires p)
  (finished p) (resolutions p) v (next_slot p) (done_drivers p) (made p) (shut p).
Definition set_done v p := mkPool (connections p) (drivers p) (closed p) (acquires p)
  (finished p) (resolutions p) (slots p) (next_slot p) v (made p) (shut p).
Definition set_made v p := mkPool (connections p) (drivers p) (closed p) (acquires p)
  (finished p) (resolutions p) (slots p) (next_slot p) (done_drivers p) v (shut p).
Definition set_shut v p := mkPool (connections p) (drivers p) (closed p) (acquires p)
  (finished p) (resolutions p) (slots p) (next_slot p) (done_drivers p) (made p) v.

Definition is_closed (p : Pool) : bool := closed p.
Definition resolution_count (p : Pool) : nat := resolutions p.

Definition closed_error : Error := PoolError.closed (Reason "the client has been shut down").

(** [AcquireGuard::register] and its [Drop]. *)
Definition register (p : Pool) : Pool * result unit Error :=
  if closed p then (p, Err closed_error) else (set_acquires (S (acquires p)) p, Ok ()).
Definition release (p : Pool) : Pool := set_acquires (pred (acquires p)) p.

Definition add_slot (origin : Origin) (p : Pool) : Pool :=
  mkPool (<[origin := next_slot p]> (connections p)) (drivers p) (closed p) (acquires p)
    (finished p) (resolutions p) (<[next_slot p := SlotOps.new]> (slots p)) (S (next_slot p))
    (done_drivers p) (made p) (shut p).

Definition slot_for (origin : Origin) (p : Pool) : Pool * result nat Error :=
  if closed p then (p, Err closed_error)
  else
    match connections p !! origin with
    | Some slot => (p, Ok slot)
    | None => (add_slot origin p, Ok (next_slot p))
    end.

(** The slot behind a reference; a reference always leads to one ([slot_live]). *)
Definition slot (s : nat) (p : Pool) : Slot := default SlotOps.new (slots p !! s).
Definition settle (s : nat) (d : Dial) (p : Pool) : Pool :=
  set_slots (<[s := SlotOps.settle d (slot s p)]> (slots p)) p.

(** The block of [dial_into] that files a driver: finished ones are reaped first. *)
Definition file_driver (d : driver) (p : Pool) : Pool * bool :=
  (set_drivers (filter (λ d, d ∉ done_drivers p) (drivers p) ++ [d]) p, closed p).

(** The block of [shutdown]: [true] for the leader. *)
Definition close (p : Pool) : Pool * bool := (set_closed true p, negb (closed p)).

(** The block of [drain] that takes the connections and the drivers. *)
Definition take_all (p : Pool) : Pool * (list nat * list driver) :=
  (set_drivers [] (set_connections ∅ p), ((map_to_list (connections p)).*2, drivers p)).

(** [handle.shutdown()]. *)
Definition shutdown_handle (h : handle) (p : Pool) : Pool := set_shut ({[h]} ∪ shut p) p.

(** The body of [drain]'s loop over the slots. *)
Definition empty_slot (s : nat) (p : Pool) : Pool :=
  let old := slot s p in
  let p := set_slots (<[s := mkSlot Idle (settled old)]> (slots p)) p in
  match state old with Ready h => shutdown_handle h p | _ => p end.

(** [has_eligible_connection], the authority already parsed. *)
Definition has_eligible_connection (alive : bool) (origin : Origin) (p : Pool) : bool :=
  match connections p !! origin with
  | None => false
  | Some s => match state (slot s p) with Ready _ => alive | _ => false end
  end.
End PoolOps.

(** ** A request's acquire, from one lock or await to the next *)

Inductive outcome := OHandle (h : handle) | OError (e : Error) | OCancelled.

Inductive pc :=
(** before [AcquireGuard::register] *)
| PStart (o : Origin)
(** before [slot_for] *)
| PSlotFor (o : Origin)
(** at the top of the loop *)
| PLoop (o : Origin) (s : nat) (waited : bool)
(** awaiting a generation other than this one *)
| PWaiting (o : Origin) (s : nat) (generation : Z)
(** awaiting the dial, holding the [DialGuard] *)
| PDialing (o : Origin) (s : nat)
(** the dial succeeded *)
| PDialed (o : Origin) (s : nat) (h : handle) (d : driver)
(** the driver is filed: on a closed pool, and on an open one *)
| PShut (o : Origin) (s : nat) (h : handle)
| PPublish (o : Origin) (s : nat) (h : handle)
(** the dial failed *)
| PDialFailed (o : Origin) (s : nat) (e : Error)
(** the request was dropped while dialling *)
| PUnwound (o : Origin) (s : nat)
(** before [AcquireGuard]'s [Drop] *)
| PReleasing (r : outcome)
| PDone (r : outcome).

Definition advance (alive : bool) (p : Pool) (c : pc) : option (Pool * pc) :=
  match c with
  | PStart o =>
      match PoolOps.register p with
      | (p, Ok _) => Some (p, PSlotFor o)
      | (p, Err e) => Some (p, PDone (OError e))
      end
  | PSlotFor o =>
      match PoolOps.slot_for o p with
      | (p, Ok s) => Some (p, PLoop o s false)
      | (p, Err e) => Some (p, PReleasing (OError e))
      end
  | PLoop o s waited =>
      let '(sl, d) := SlotOps.decision alive waited (PoolOps.slot s p) in
      let p := PoolOps.set_slots (<[s := sl]> (slots p)) p in
      match d with
      | DReady h => Some (p, PReleasing (OHandle h))
      | DFailed e => Some (p, PReleasing (OError (PoolError.from_shared e)))
      | DDial => Some (PoolOps.set_resolutions (S (resolutions p)) p, PDialing o s)
      | DWait g => Some (p, PWaiting o s g)
      end
  | PWaiting o s g =>
      if decide (settled (PoolOps.slot s p) = g) then None else Some (p, PLoop o s true)
  | PDialing _ _ => None
  | PDialed o s h d =>
      let '(p, closed) := PoolOps.file_driver d p in
      Some (p, if closed then PShut o s h else PPublish o s h)
  | PShut o s h =>
      Some (PoolOps.settle s Idle (PoolOps.shutdown_handle h p),
            PReleasing (OError PoolOps.closed_error))
  | PPublish o s h => Some (PoolOps.settle s (Ready h) p, PReleasing (OHandle h))
  | PDialFailed o s e =>
      Some (PoolOps.settle s (Failed e) p, PReleasing (OError (PoolError.from_shared e)))
  | PUnwound o s => Some (PoolOps.settle s Idle p, PReleasing OCancelled)
  | PReleasing r => Some (PoolOps.release p, PDone r)
  | PDone _ => None
  end.

(** A request's future can be dropped before it is polled and at its two awaits. *)
Definition cancel (c : pc) : option pc :=
  match c with
  | PStart _ => Some (PDone OCancelled)
  | PWaiting _ _ _ => Some (PReleasing OCancelled)
  | PDialing o s => Some (PUnwound o s)
  | _ => None
  end.

(** ** [drain] *)

Inductive drain_pc :=
| NotDraining
| DrainWaiting
| DrainTake
| DrainSlots (ss : list nat) (ds : list driver)
| DrainDone.

Definition drain_step (p : Pool) (d : drain_pc) : option (Pool * drain_pc) :=
  match d with
  | NotDraining | DrainDone => None
  | DrainWaiting => if decide (acquires p = 0%nat) then Some (p, DrainTake) else None
  | DrainTake => let '(p, (ss, ds)) := PoolOps.take_all p in Some (p, DrainSlots ss ds)
  | DrainSlots (s :: ss) ds => Some (PoolOps.empty_slot s p, DrainSlots ss ds)
  | DrainSlots [] (d :: ds) =>
      if decide (d ∈ done_drivers p) then Some (p, DrainSlots [] ds) else None
  | DrainSlots [] [] => Some (PoolOps.set_finished true p, DrainDone)
  end.

(** ** Any interleaving *)

Record World := mkWorld { pool : Pool; tasks : gmap nat pc; drain : drain_pc }.

Definition start : World := mkWorld PoolOps.new ∅ NotDraining.

(** What may happen next.  In [Run t alive], [alive] is what the slot's handle answers if
    task [t] comes to ask it. *)
Inductive event :=
| Spawn (t : nat) (o : Origin)
| Run (t : nat) (alive : bool)
| Cancel (t : nat)
| DialOk (t : nat) (h : handle) (d : driver)
| DialErr (t : nat) (e : Error)
| DriverEnds (d : driver)
| Shutdown
| Drain.

Inductive step : event → World → World → Prop :=
| step_spawn w t o :
    tasks w !! t = None →
    step (Spawn t o) w (mkWorld (pool w) (<[t := PStart o]> (tasks w)) (drain w))
| step_run w t c alive p c' :
    tasks w !! t = Some c → advance alive (pool w) c = Some (p, c') →
    step (Run t alive) w (mkWorld p (<[t := c']> (tasks w)) (drain w))
| step_cancel w t c c' :
    tasks w !! t = Some c → cancel c = Some c' →
    step (Cancel t) w (mkWorld (pool w) (<[t := c']> (tasks w)) (drain w))
| step_dialed w t o s h d :
    tasks w !! t = Some (PDialing o s) → d ∉ made (pool w) →
    step (DialOk t h d) w
      (mkWorld (PoolOps.set_made ({[d]} ∪ made (pool w)) (pool w))
         (<[t := PDialed o s h d]> (tasks w)) (drain w))
| step_dial_failed w t o s e :
    tasks w !! t = Some (PDialing o s) →
    step (DialErr t e) w (mkWorld (pool w) (<[t := PDialFailed o s e]> (tasks w)) (drain w))
| step_driver_ends w d :
    d ∈ made (pool w) →
    step (DriverEnds d) w
      (mkWorld (PoolOps.set_done ({[d]} ∪ done_drivers (pool w)) (pool w)) (tasks w) (drain w))
| step_shutdown w :
    step Shutdown w
      (mkWorld (PoolOps.close (pool w)).1 (tasks w)
         (if (PoolOps.close (pool w)).2 then DrainWaiting else drain w))
| step_drain w p d :
    drain_step (pool w) (drain w) = Some (p, d) →
    step Drain w (mkWorld p (tasks w) d).

(** Reached by these events, in order, the last one first. *)
Inductive reached : list event → World → Prop :=
| reached_start : reached [] start
| reached_step es e w w' : reached es w → step e w w' → reached (e :: es) w'.

(** What each point of a request holds: an acquire count, a reference to a slot, the dial
    guard of a slot. *)
Definition registered (c : pc) : bool :=
  match c with PStart _ | PDone _ => false | _ => true end.

Definition at_slot (c : pc) : option (Origin * nat) :=
  match c with
  | PLoop o s _ | PWaiting o s _ | PDialing o s | PDialed o s _ _ | PShut o s _
  | PPublish o s _ | PDialFailed o s _ | PUnwound o s => Some (o, s)
  | _ => None
  end.

Definition holds (c : pc) : option nat :=
  match c with
  | PDialing _ s | PDialed _ s _ _ | PShut _ s _ | PPublish _ s _ | PDialFailed _ s _
  | PUnwound _ s => Some s
  | _ => None
  end.
