(* ===== verification/UtilPoolFacts.v ===== *)
(** * What the connection pool guarantees, in every interleaving

    The invariant of [UtilPool]'s worlds, kept by every event, and what follows: one dial at
    a time per origin, no waiter left behind, and a shutdown that ends with nothing running. *)

From Stdlib Require Import ZArith Lia Wellfounded.
From stdpp Require Import base list gmap fin_maps strings countable.
From S2P Require Import Prelude UtilPool.

#[local] Open Scope nat_scope.

(** ** Sums over the tasks *)

Section Sums.
Context {A : Type} (f : A → nat).

Definition msum (m : gmap nat A) : nat := map_fold (λ _ a n, f a + n) 0 m.

Lemma msum_empty : msum ∅ = 0.
Proof. apply map_fold_empty. Qed.

Lemma msum_new m t a : m !! t = None → msum (<[t := a]> m) = f a + msum m.
Proof. intros Hm. unfold msum. rewrite map_fold_insert_L; [done|lia|done]. Qed.

Lemma msum_replace m t a b : m !! t = Some a → msum (<[t := b]> m) + f a = msum m + f b.
Proof.
  intros Hm. rewrite <- (insert_delete_id m t a Hm) at 2.
  rewrite <- insert_delete_eq, !msum_new by apply lookup_delete_eq. lia.
Qed.

Lemma msum_at_least m t a : m !! t = Some a → f a ≤ msum m.
Proof.
  intros Hm. rewrite <- (insert_delete_id m t a Hm), msum_new by apply lookup_delete_eq. lia.
Qed.
End Sums.

Lemma msum_ext {A} (f g : A → nat) m :
  (∀ t a, m !! t = Some a → f a = g a) → msum f m = msum g m.
Proof.
  induction m as [|t a m Hm _ IH] using map_first_key_ind; intros Heq; [done|].
  rewrite !msum_new by done. rewrite (Heq t a) by apply lookup_insert_eq.
  rewrite IH; [done|]. intros t' b Hb. apply (Heq t'). rewrite lookup_insert_ne; [done|].
  congruence.
Qed.

(** ** Reading a slot after a write *)

Lemma slot_set s s' x p :
  PoolOps.slot s' (PoolOps.set_slots (<[s := x]> (slots p)) p)
  = if decide (s = s') then x else PoolOps.slot s' p.
Proof.
  unfold PoolOps.slot. cbn. destruct (decide (s = s')) as [->|Hne].
  - by rewrite lookup_insert_eq.
  - by rewrite lookup_insert_ne.
Qed.

Lemma slot_settle s s' x p :
  PoolOps.slot s' (PoolOps.settle s x p)
  = if decide (s = s') then SlotOps.settle x (PoolOps.slot s p) else PoolOps.slot s' p.
Proof. apply slot_set. Qed.

Lemma slot_add o s p :
  PoolOps.slot s (PoolOps.add_slot o p)
  = if decide (next_slot p = s) then SlotOps.new else PoolOps.slot s p.
Proof.
  unfold PoolOps.slot. cbn. destruct (decide (next_slot p = s)) as [->|Hne].
  - by rewrite lookup_insert_eq.
  - by rewrite lookup_insert_ne.
Qed.

(** ** What running a task does

    One case for each way [advance] can go, with the pool written out. *)

Inductive moves (alive : bool) (p : Pool) : pc → Pool → pc → Prop :=
| mv_refused o : closed p = true →
    moves alive p (PStart o) p (PDone (OError PoolOps.closed_error))
| mv_registered o : closed p = false →
    moves alive p (PStart o) (PoolOps.set_acquires (S (acquires p)) p) (PSlotFor o)
| mv_late o : closed p = true →
    moves alive p (PSlotFor o) p (PReleasing (OError PoolOps.closed_error))
| mv_found o s : closed p = false → connections p !! o = Some s →
    moves alive p (PSlotFor o) p (PLoop o s false)
| mv_added o : closed p = false → connections p !! o = None →
    moves alive p (PSlotFor o) (PoolOps.add_slot o p) (PLoop o (next_slot p) false)
| mv_took o s waited h : state (PoolOps.slot s p) = Ready h → alive = true →
    moves alive p (PLoop o s waited) p (PReleasing (OHandle h))
| mv_told o s e : state (PoolOps.slot s p) = Failed e →
    moves alive p (PLoop o s true) p (PReleasing (OError (PoolError.from_shared e)))
| mv_dials o s waited : state (PoolOps.slot s p) ≠ Dialing →
    moves alive p (PLoop o s waited)
      (PoolOps.set_resolutions (S (resolutions p))
         (PoolOps.set_slots (<[s := mkSlot Dialing (settled (PoolOps.slot s p))]> (slots p)) p))
      (PDialing o s)
| mv_waits o s waited : state (PoolOps.slot s p) = Dialing →
    moves alive p (PLoop o s waited) p (PWaiting o s (settled (PoolOps.slot s p)))
| mv_wakes o s g : settled (PoolOps.slot s p) ≠ g →
    moves alive p (PWaiting o s g) p (PLoop o s true)
| mv_filed o s h d : closed p = false →
    moves alive p (PDialed o s h d) (PoolOps.file_driver d p).1 (PPublish o s h)
| mv_filed_late o s h d : closed p = true →
    moves alive p (PDialed o s h d) (PoolOps.file_driver d p).1 (PShut o s h)
| mv_shut o s h :
    moves alive p (PShut o s h) (PoolOps.settle s Idle (PoolOps.shutdown_handle h p))
      (PReleasing (OError PoolOps.closed_error))
| mv_published o s h :
    moves alive p (PPublish o s h) (PoolOps.settle s (Ready h) p) (PReleasing (OHandle h))
| mv_failed o s e :
    moves alive p (PDialFailed o s e) (PoolOps.settle s (Failed e) p)
      (PReleasing (OError (PoolError.from_shared e)))
| mv_unwound o s :
    moves alive p (PUnwound o s) (PoolOps.settle s Idle p) (PReleasing OCancelled)
| mv_released r : moves alive p (PReleasing r) (PoolOps.release p) (PDone r).

Lemma set_slots_same s p :
  is_Some (slots p !! s) →
  PoolOps.set_slots (<[s := PoolOps.slot s p]> (slots p)) p = p.
Proof.
  intros [x Hx]. unfold PoolOps.slot. rewrite Hx. cbn. rewrite insert_id by done. by destruct p.
Qed.

(** A request's slot is one of the pool's. *)
Definition live (p : Pool) (c : pc) : Prop :=
  ∀ o s, at_slot c = Some (o, s) → is_Some (slots p !! s).

Lemma advance_moves alive p c p' c' :
  live p c → advance alive p c = Some (p', c') → moves alive p c p' c'.
Proof.
  intros Hlive Hadv. destruct c as [o|o|o s waited|o s g|o s|o s h d|o s h|o s h|o s e|o s|r|r];
    cbn in Hadv.
  - unfold PoolOps.register in Hadv. destruct (closed p) eqn:?; simplify_eq; by constructor.
  - unfold PoolOps.slot_for in Hadv.
    destruct (closed p) eqn:?; [simplify_eq; by constructor|].
    destruct (connections p !! o) eqn:?; simplify_eq; by constructor.
  - unfold SlotOps.decision in Hadv.
    pose proof (set_slots_same s p (Hlive o s eq_refl)) as Hsame.
    destruct (state (PoolOps.slot s p)) eqn:Hst; [| |destruct alive|destruct waited];
      cbn in Hadv; rewrite ?Hsame in Hadv; simplify_eq; constructor; congruence.
  - case_decide; [done|]. simplify_eq. by constructor.
  - done.
  - destruct (closed p) eqn:?; simplify_eq; by constructor.
  - simplify_eq. constructor.
  - simplify_eq. constructor.
  - simplify_eq. constructor.
  - simplify_eq. constructor.
  - simplify_eq. constructor.
  - done.
Qed.

(** Everything that can happen to a task: it runs, it is dropped, its dial ends. *)
Inductive task_moves (p : Pool) : pc → Pool → pc → Prop :=
| tm_run alive c p' c' : moves alive p c p' c' → task_moves p c p' c'
| tm_cancel c c' : cancel c = Some c' → task_moves p c p c'
| tm_dialed o s h d : d ∉ made p →
    task_moves p (PDialing o s) (PoolOps.set_made ({[d]} ∪ made p) p) (PDialed o s h d)
| tm_dial_failed o s e : task_moves p (PDialing o s) p (PDialFailed o s e).

(** ** The invariant *)

Definition count (c : pc) : nat := if registered c then 1 else 0.

(** The drain has got past the acquire count. *)
Definition drained (d : drain_pc) : bool :=
  match d with DrainTake | DrainSlots _ _ | DrainDone => true | _ => false end.

(** What is left to empty and to await. *)
Definition left_slots (d : drain_pc) : list nat :=
  match d with DrainSlots ss _ => ss | _ => [] end.
Definition left_drivers (d : drain_pc) : list nat :=
  match d with DrainSlots _ ds => ds | _ => [] end.
Definition taken (d : drain_pc) : bool :=
  match d with DrainSlots _ _ | DrainDone => true | _ => false end.

Record Inv (w : World) : Prop := mkInv {
  inv_count : acquires (pool w) = msum count (tasks w);
  inv_at t c o s : tasks w !! t = Some c → at_slot c = Some (o, s) →
    connections (pool w) !! o = Some s;
  inv_inj o1 o2 s : connections (pool w) !! o1 = Some s → connections (pool w) !! o2 = Some s →
    o1 = o2;
  inv_conn o s : connections (pool w) !! o = Some s → is_Some (slots (pool w) !! s);
  inv_next s : is_Some (slots (pool w) !! s) → s < next_slot (pool w);
  inv_holder t c s : tasks w !! t = Some c → holds c = Some s →
    state (PoolOps.slot s (pool w)) = Dialing;
  inv_held s : state (PoolOps.slot s (pool w)) = Dialing →
    ∃ t c, tasks w !! t = Some c ∧ holds c = Some s;
  inv_one t1 t2 c1 c2 s : tasks w !! t1 = Some c1 → tasks w !! t2 = Some c2 →
    holds c1 = Some s → holds c2 = Some s → t1 = t2;
  inv_closed : closed (pool w) = false ↔ drain w = NotDraining;
  inv_drained : drained (drain w) = true → acquires (pool w) = 0;
  inv_taken : taken (drain w) = true → connections (pool w) = ∅ ∧ drivers (pool w) = [];
  inv_slots s : state (PoolOps.slot s (pool w)) ≠ Idle →
    (∃ o, connections (pool w) !! o = Some s) ∨ s ∈ left_slots (drain w);
  inv_left s : s ∈ left_slots (drain w) → is_Some (slots (pool w) !! s);
  inv_drivers d : d ∈ made (pool w) →
    d ∈ done_drivers (pool w) ∨ d ∈ drivers (pool w) ∨ d ∈ left_drivers (drain w)
    ∨ ∃ t o s h, tasks w !! t = Some (PDialed o s h d);
  inv_finished : finished (pool w) = true ↔ drain w = DrainDone
}.

Lemma inv_live w t c : Inv w → tasks w !! t = Some c → live (pool w) c.
Proof. intros HI Ht o s Hs. exact (inv_conn w HI o s (inv_at w HI t c o s Ht Hs)). Qed.

(** A registered task keeps the drain waiting. *)
Lemma registered_undrained w t c :
  Inv w → tasks w !! t = Some c → registered c = true → drained (drain w) = false.
Proof.
  intros HI Ht Hc. destruct (drained (drain w)) eqn:Hd; [|done].
  pose proof (inv_drained w HI Hd) as H0. rewrite (inv_count w HI) in H0.
  pose proof (msum_at_least count _ _ _ Ht) as Hle. unfold count in Hle at 1.
  rewrite Hc in Hle. lia.
Qed.

Lemma taken_drained d : taken d = true → drained d = true.
Proof. by destruct d. Qed.

Lemma inv_start : Inv start.
Proof.
  constructor; cbn; intros; rewrite ?lookup_empty in *; simplify_map_eq;
    try done; try set_solver; try (by destruct (is_Some_None H)).
Qed.

(** ** Tasks keep it *)

Ltac moved Hm :=
  destruct Hm as [? c p' c' Hm|c c' Hm|o s h d Hm|o s e];
  [destruct Hm|destruct c; simplify_eq/=| |].

Lemma tm_closed p c p' c' :
  task_moves p c p' c' → closed p' = closed p ∧ finished p' = finished p.
Proof. intros Hm. moved Hm; done. Qed.

Lemma tm_acquires w t c p' c' :
  Inv w → tasks w !! t = Some c → task_moves (pool w) c p' c' → acquires p' + count c = acquires (pool w) + count c'.
Proof.
  intros HI Ht Hm. pose proof (msum_at_least count _ _ _ Ht) as Hle. rewrite <- (inv_count w HI) in Hle.
  moved Hm; cbn in *; lia.
Qed.

Lemma tm_undrained w t c p' c' :
  Inv w → tasks w !! t = Some c → task_moves (pool w) c p' c' → registered c' = true → drained (drain w) = false.
Proof.
  intros HI Ht Hm. intros Hc'. destruct (registered c) eqn:Hc; [exact (registered_undrained w t c HI Ht Hc)|].
  assert (closed (pool w) = false) as Hcl by (moved Hm; cbn in *; congruence).
  apply (inv_closed w HI) in Hcl. by rewrite Hcl.
Qed.

Lemma tm_connections w t c p' c' :
  Inv w → tasks w !! t = Some c → task_moves (pool w) c p' c' →
  (connections p' = connections (pool w)
   ∧ (∀ s, is_Some (slots p' !! s) ↔ is_Some (slots (pool w) !! s))
   ∧ next_slot p' = next_slot (pool w)
   ∧ ∀ os, at_slot c' = Some os → at_slot c = Some os
                               ∨ connections (pool w) !! os.1 = Some os.2)
  ∨ ∃ o, c = PSlotFor o ∧ closed (pool w) = false ∧ connections (pool w) !! o = None
         ∧ p' = PoolOps.add_slot o (pool w) ∧ c' = PLoop o (next_slot (pool w)) false.
Proof.
  intros HI Ht Hm. pose proof (inv_live w t c HI Ht) as Hlive.
  moved Hm; try (right; eexists; split_and!; done); left; split_and!; try done; cbn; try (by eauto);
    try (intros ? [=<-]; by eauto).
  all: intros s'; rewrite lookup_insert_is_Some; split; [|by destruct (decide (s = s')); auto].
  all: intros [<-|[? ?]]; [by apply (Hlive o s)|done].
Qed.

(** What happens to the slots: nothing, a dial begins, or the holder of the guard ends it. *)
Lemma tm_slots w t c p' c' :
  Inv w → tasks w !! t = Some c → task_moves (pool w) c p' c' →
  ((∀ s, PoolOps.slot s p' = PoolOps.slot s (pool w)) ∧ holds c' = holds c)
  ∨ (∃ o s, at_slot c = Some (o, s) ∧ holds c = None ∧ holds c' = Some s
       ∧ state (PoolOps.slot s (pool w)) ≠ Dialing
       ∧ ∀ s', PoolOps.slot s' p' = if decide (s = s')
               then mkSlot Dialing (settled (PoolOps.slot s (pool w)))
               else PoolOps.slot s' (pool w))
  ∨ (∃ o s d, at_slot c = Some (o, s) ∧ holds c = Some s ∧ holds c' = None ∧ d ≠ Dialing
       ∧ registered c' = true
       ∧ ∀ s', PoolOps.slot s' p' = if decide (s = s')
               then SlotOps.settle d (PoolOps.slot s (pool w))
               else PoolOps.slot s' (pool w)).
Proof.
  intros HI Ht Hm. pose proof (inv_next w HI) as Hnext.
  moved Hm; try (by left); try (by left; split; [intros s'|]; try done).
  - left. split; [|done]. intros s'. rewrite slot_add. destruct (decide _) as [<-|]; [|done].
    unfold PoolOps.slot. destruct (slots (pool w) !! next_slot (pool w)) eqn:He; [|done].
    destruct (Nat.lt_irrefl (next_slot (pool w))). by apply Hnext; rewrite He.
  - right; left. eexists _, _. split_and!; try done. intros s'. apply slot_set.
  - right; right. eexists _, _, Idle. split_and!; try done. intros s'.
    exact (slot_settle s s' Idle (PoolOps.shutdown_handle h (pool w))).
  - right; right. eexists _, _, _. split_and!; try done; [|intros s'; apply slot_settle]; done.
  - right; right. eexists _, _, _. split_and!; try done; [|intros s'; apply slot_settle]; done.
  - right; right. eexists _, _, _. split_and!; try done; [|intros s'; apply slot_settle]; done.
Qed.

(** What happens to the drivers. *)
Lemma tm_drivers p c p' c' :
  task_moves p c p' c' →
  done_drivers p' = done_drivers p ∧
  ((drivers p' = drivers p ∧ made p' = made p
    ∧ ∀ d, (∃ o s h, c = PDialed o s h d) ↔ (∃ o s h, c' = PDialed o s h d))
   ∨ (∃ o s h d, c' = PDialed o s h d ∧ (∀ o s h d, c ≠ PDialed o s h d)
        ∧ drivers p' = drivers p ∧ made p' = {[d]} ∪ made p)
   ∨ ∃ o s h d, c = PDialed o s h d ∧ registered c' = true
        ∧ p' = (PoolOps.file_driver d p).1).
Proof.
  intros Hm. moved Hm; (split; [done|]);
    try (left; split_and!; try done; intros ?; split; intros (?&?&?&?); by simplify_eq/=);
    right; [right|right|left]; eauto 10.
Qed.

Lemma tm_at w t c p' c' o s :
  Inv w → tasks w !! t = Some c → task_moves (pool w) c p' c' →
  at_slot c' = Some (o, s) → connections p' !! o = Some s.
Proof.
  intros HI Ht Hm Hat.
  destruct (tm_connections w t c p' c' HI Ht Hm)
    as [(Hc & _ & _ & Hc')|(o' & -> & _ & _ & -> & ->)].
  - rewrite Hc. destruct (Hc' _ Hat) as [Hat'|]; [|done]. by apply (inv_at w HI t c).
  - simplify_eq/=. apply lookup_insert_eq.
Qed.

(** A move that keeps the map, or gives an unknown origin the next slot. *)
Lemma tm_connections_grow w t c p' c' o s :
  Inv w → tasks w !! t = Some c → task_moves (pool w) c p' c' →
  connections (pool w) !! o = Some s → connections p' !! o = Some s.
Proof.
  intros HI Ht Hm Ho.
  destruct (tm_connections w t c p' c' HI Ht Hm) as [(-> & _)|(o' & _ & _ & Hn & -> & _)];
    [done|]. cbn. rewrite lookup_insert_ne; [done|]. congruence.
Qed.

Lemma tm_structure w t c p' c' :
  Inv w → tasks w !! t = Some c → task_moves (pool w) c p' c' →
  (∀ o1 o2 s, connections p' !! o1 = Some s → connections p' !! o2 = Some s → o1 = o2)
  ∧ (∀ o s, connections p' !! o = Some s → is_Some (slots p' !! s))
  ∧ (∀ s, is_Some (slots p' !! s) → s < next_slot p').
Proof.
  intros HI Ht Hm. pose proof (inv_inj w HI) as Hinj. pose proof (inv_conn w HI) as Hconn.
  pose proof (inv_next w HI) as Hnext.
  destruct (tm_connections w t c p' c' HI Ht Hm)
    as [(-> & Hs & -> & _)|(o' & _ & _ & _ & -> & _)].
  - split_and!; [done| |]; intros; [apply Hs|apply Hnext, Hs]; eauto.
  - assert (∀ o, connections (pool w) !! o ≠ Some (next_slot (pool w))) as Hno.
    { intros o Ho. apply Hconn, Hnext in Ho. lia. }
    cbn. split_and!.
    + intros o1 o2 s. rewrite !lookup_insert_Some.
      intros [[<- <-]|[? H1]] [[<- H2]|[? H2]]; subst; try done; [by destruct (Hno o2)|by destruct (Hno o1)|eauto].
    + intros o s [[_ <-]|[_ Ho]]%lookup_insert_Some; apply lookup_insert_is_Some; [by left|].
      destruct (decide (next_slot (pool w) = s)); [by left|right; eauto].
    + intros s [<-|[_ Hs]]%lookup_insert_is_Some; [lia|]. apply Hnext in Hs. lia.
Qed.

(** The dial guards: one holder per slot that is dialling. *)
Lemma tm_holder w t c p' c' t' c1 s :
  Inv w → tasks w !! t = Some c → task_moves (pool w) c p' c' →
  <[t := c']> (tasks w) !! t' = Some c1 → holds c1 = Some s →
  state (PoolOps.slot s p') = Dialing.
Proof.
  intros HI Ht Hm Ht' Hc1. pose proof (inv_holder w HI) as Hh.
  assert (c1 = c' ∧ t' = t ∨ t' ≠ t ∧ tasks w !! t' = Some c1) as Hcase.
  { apply lookup_insert_Some in Ht' as [[-> ->]|[? ?]]; auto. }
  destruct (tm_slots w t c p' c' HI Ht Hm)
    as [[-> Hhc]|[(o & s0 & _ & Hn & Hs0 & Hst & ->)|(o & s0 & d & _ & Hs0 & Hn & Hd & _ & ->)]].
  - destruct Hcase as [[-> ->]|[_ Hw]]; [|by eapply Hh]. eapply Hh; [done|congruence].
  - destruct Hcase as [[-> ->]|[_ Hw]]; case_decide; try done; [congruence|by eapply Hh].
  - destruct Hcase as [[-> ->]|[Hne Hw]]; [congruence|]. case_decide as Hds; [|by eapply Hh].
    subst s0. by destruct (Hne (inv_one w HI t' t c1 c s Hw Ht Hc1 Hs0)).
Qed.

Lemma tm_held w t c p' c' s :
  Inv w → tasks w !! t = Some c → task_moves (pool w) c p' c' →
  state (PoolOps.slot s p') = Dialing →
  ∃ t' c1, <[t := c']> (tasks w) !! t' = Some c1 ∧ holds c1 = Some s.
Proof.
  intros HI Ht Hm Hst. pose proof (inv_held w HI s) as Hh.
  assert (state (PoolOps.slot s (pool w)) = Dialing → holds c ≠ Some s ∨ holds c' = Some s →
          ∃ t' c1, <[t := c']> (tasks w) !! t' = Some c1 ∧ holds c1 = Some s) as Hkeep.
  { intros (t' & c1 & Ht' & Hc1)%Hh Hcc. destruct (decide (t = t')) as [<-|Hne].
    - exists t, c'. rewrite lookup_insert_eq. split; [done|]. destruct Hcc; [congruence|done].
    - exists t', c1. by rewrite lookup_insert_ne. }
  destruct (tm_slots w t c p' c' HI Ht Hm)
    as [[Hs Hhc]|[(o & s0 & _ & Hn & Hs0 & _ & Hs)|(o & s0 & d & _ & Hs0 & Hn & Hd & _ & Hs)]];
    rewrite Hs in Hst; [|case_decide as Hds..].
  - apply Hkeep; [done|]. rewrite Hhc. destruct (decide (holds c = Some s)); auto.
  - exists t, c'. rewrite lookup_insert_eq. by subst.
  - apply Hkeep; [done|]. left. congruence.
  - done.
  - apply Hkeep; [done|]. left. congruence.
Qed.

Lemma tm_one w t c p' c' t1 t2 c1 c2 s :
  Inv w → tasks w !! t = Some c → task_moves (pool w) c p' c' →
  <[t := c']> (tasks w) !! t1 = Some c1 → <[t := c']> (tasks w) !! t2 = Some c2 →
  holds c1 = Some s → holds c2 = Some s → t1 = t2.
Proof.
  intros HI Ht Hm.
  assert (∀ t' c1, t ≠ t' → tasks w !! t' = Some c1 → holds c1 = Some s → holds c' ≠ Some s)
    as Hsole.
  { intros t' c0 Hne Ht' Hc0 Hc'.
    destruct (tm_slots w t c p' c' HI Ht Hm)
      as [[_ Hhc]|[(o & s0 & _ & _ & Hs0 & Hst & _)|(o & s0 & d & _ & _ & Hn & _)]].
    - rewrite Hhc in Hc'. by apply Hne, (inv_one w HI t t' c c0 s).
    - rewrite Hs0 in Hc'. simplify_eq. by apply Hst, (inv_holder w HI t' c0).
    - congruence. }
  intros [[<- <-]|[Hn1 H1]]%lookup_insert_Some [[<- <-]|[Hn2 H2]]%lookup_insert_Some Hc1 Hc2.
  - done.
  - by destruct (Hsole t2 c2).
  - by destruct (Hsole t1 c1).
  - by apply (inv_one w HI t1 t2 c1 c2 s).
Qed.

Lemma tm_drained w t c p' c' :
  Inv w → tasks w !! t = Some c → task_moves (pool w) c p' c' →
  drained (drain w) = true → acquires p' = 0.
Proof.
  intros HI Ht Hm Hd. pose proof (tm_acquires w t c p' c' HI Ht Hm) as Hac.
  rewrite (inv_drained w HI Hd) in Hac. unfold count in Hac at 2.
  destruct (registered c') eqn:Hc'; [|lia].
  by rewrite (tm_undrained w t c p' c' HI Ht Hm Hc') in Hd.
Qed.

Lemma tm_taken w t c p' c' :
  Inv w → tasks w !! t = Some c → task_moves (pool w) c p' c' →
  taken (drain w) = true → connections p' = ∅ ∧ drivers p' = [].
Proof.
  intros HI Ht Hm Hd. pose proof (taken_drained _ Hd) as Hdr.
  destruct (inv_taken w HI Hd) as [Hc Hds].
  assert (registered c' = false) as Hc'.
  { destruct (registered c') eqn:Hc'; [|done].
    by rewrite (tm_undrained w t c p' c' HI Ht Hm Hc') in Hdr. }
  split.
  - destruct (tm_connections w t c p' c' HI Ht Hm) as [(-> & _)|(o' & _ & _ & _ & _ & ->)]; done.
  - destruct (tm_drivers _ _ _ _ Hm)
      as [_ [(-> & _)|[(o & s & h & d & -> & _)|(o & s & h & d & _ & Hr & _)]]];
      [done|done|congruence].
Qed.

Lemma tm_slots_left w t c p' c' s :
  Inv w → tasks w !! t = Some c → task_moves (pool w) c p' c' →
  state (PoolOps.slot s p') ≠ Idle →
  (∃ o, connections p' !! o = Some s) ∨ s ∈ left_slots (drain w).
Proof.
  intros HI Ht Hm Hst.
  assert (∀ o, connections (pool w) !! o = Some s → ∃ o, connections p' !! o = Some s) as Hgrow.
  { intros o Ho. exists o. by apply (tm_connections_grow w t c p' c'). }
  assert (state (PoolOps.slot s (pool w)) ≠ Idle →
          (∃ o, connections p' !! o = Some s) ∨ s ∈ left_slots (drain w)) as Hkeep.
  { intros [[o Ho]|Hl]%(inv_slots w HI s); [left; by eapply Hgrow|by right]. }
  destruct (tm_slots w t c p' c' HI Ht Hm)
    as [[Hs _]|[(o & s0 & Hat & _ & _ & _ & Hs)|(o & s0 & d & Hat & _ & _ & _ & _ & Hs)]];
    rewrite Hs in Hst; [by apply Hkeep|case_decide as Hds; [|by apply Hkeep]..];
    subst s0; left; eapply Hgrow; by apply (inv_at w HI t c).
Qed.

Lemma tm_drivers_left w t c p' c' d :
  Inv w → tasks w !! t = Some c → task_moves (pool w) c p' c' →
  d ∈ made p' →
  d ∈ done_drivers p' ∨ d ∈ drivers p' ∨ d ∈ left_drivers (drain w)
  ∨ ∃ t' o s h, <[t := c']> (tasks w) !! t' = Some (PDialed o s h d).
Proof.
  intros HI Ht Hm Hmade.
  assert ((∀ o s h, c ≠ PDialed o s h d) ∨ (∃ o s h, c' = PDialed o s h d) →
          (∃ t' o s h, tasks w !! t' = Some (PDialed o s h d)) →
          ∃ t' o s h, <[t := c']> (tasks w) !! t' = Some (PDialed o s h d)) as Hkeep.
  { intros Hc (t' & o & s & h & Ht'). destruct (decide (t = t')) as [<-|Hne].
    - destruct Hc as [Hc|(o' & s' & h' & ->)]; [by destruct (Hc o s h); simplify_eq|].
      exists t, o', s', h'. apply lookup_insert_eq.
    - exists t', o, s, h. by rewrite lookup_insert_ne. }
  destruct (tm_drivers _ _ _ _ Hm)
    as [-> [(-> & Hmd & Hc)|[(o & s & h & d' & -> & Hc & -> & Hmd)|(o & s & h & d' & -> & _ & ->)]]].
  - rewrite Hmd in Hmade. destruct (inv_drivers w HI d Hmade) as [|[|[|He]]]; auto.
    do 3 right. apply Hkeep; [|done]. destruct (Hc d) as [Hc1 _].
    destruct c as [| | | | |o s h d'| | | | | |]; try (left; congruence).
    destruct (decide (d = d')) as [<-|]; [right; eauto|left; congruence].
  - rewrite Hmd in Hmade. apply elem_of_union in Hmade as [->%elem_of_singleton|Hmade].
    + do 3 right. exists t, o, s, h. apply lookup_insert_eq.
    + destruct (inv_drivers w HI d Hmade) as [|[|[|He]]]; auto.
      do 3 right. apply Hkeep; [left; auto|done].
  - cbn in Hmade |- *. destruct (decide (d ∈ done_drivers (pool w))); [by left|].
    destruct (decide (d = d')) as [->|Hne]; [right; left; set_solver|].
    destruct (inv_drivers w HI d Hmade) as [|[Hd|[|He]]]; auto.
    + right; left. apply elem_of_app; left. by apply list_elem_of_filter.
    + do 3 right. apply Hkeep; [left; congruence|done].
Qed.

Lemma inv_task w t c p' c' :
  Inv w → tasks w !! t = Some c → task_moves (pool w) c p' c' →
  Inv (mkWorld p' (<[t := c']> (tasks w)) (drain w)).
Proof.
  intros HI Ht Hm. destruct (tm_closed _ _ _ _ Hm) as [Hcl Hfin].
  destruct (tm_structure w t c p' c' HI Ht Hm) as (Hinj & Hconn & Hnext).
  constructor; cbn; try done.
  - pose proof (tm_acquires w t c p' c' HI Ht Hm) as Hac.
    pose proof (msum_replace count _ _ _ c' Ht) as Hrep. rewrite (inv_count w HI) in Hac. lia.
  - intros t' c1 o s [[_ <-]|[_ Ht']]%lookup_insert_Some Hat; [by apply (tm_at w t c p' c')|].
    apply (tm_connections_grow w t c p' c'); try done. by apply (inv_at w HI t' c1).
  - intros t' c1 s. by apply (tm_holder w t c).
  - intros s. by apply (tm_held w t c).
  - intros t1 t2 c1 c2 s. by apply (tm_one w t c p').
  - rewrite Hcl. apply (inv_closed w HI).
  - by apply (tm_drained w t c _ c').
  - by apply (tm_taken w t c _ c').
  - intros s. by apply (tm_slots_left w t c _ c').
  - intros s Hs%(inv_left w HI).
    destruct (tm_connections w t c p' c' HI Ht Hm) as [(_ & Hsl & _)|(o' & _ & _ & _ & -> & _)].
    + by apply Hsl.
    + apply lookup_insert_is_Some. destruct (decide (next_slot (pool w) = s)); auto.
  - intros d. by apply (tm_drivers_left w t c).
  - rewrite Hfin. apply (inv_finished w HI).
Qed.

(** ** The other events keep it *)

Lemma inv_spawn w t o :
  Inv w → tasks w !! t = None → Inv (mkWorld (pool w) (<[t := PStart o]> (tasks w)) (drain w)).
Proof.
  intros HI Ht.
  assert (∀ t' c, <[t := PStart o]> (tasks w) !! t' = Some c →
          c = PStart o ∨ tasks w !! t' = Some c) as Hold.
  { intros t' c [[_ <-]|[_ Hc]]%lookup_insert_Some; auto. }
  constructor; cbn; try apply HI.
  - rewrite msum_new by done. apply (inv_count w HI).
  - intros t' c o' s [->|Hc]%Hold Hat; [done|]. by apply (inv_at w HI t' c).
  - intros t' c s [->|Hc]%Hold Hh; [done|]. by apply (inv_holder w HI t' c).
  - intros s (t' & c & Ht' & Hc)%(inv_held w HI). exists t', c.
    rewrite lookup_insert_ne; [done|congruence].
  - intros t1 t2 c1 c2 s [->|H1]%Hold [->|H2]%Hold Hc1 Hc2; try done.
    by apply (inv_one w HI t1 t2 c1 c2 s).
  - intros d Hd. destruct (inv_drivers w HI d Hd) as [|[|[|(t' & o' & s & h & Ht')]]]; auto.
    do 3 right. exists t', o', s, h. rewrite lookup_insert_ne; [done|congruence].
Qed.

Lemma inv_driver_ends w d :
  Inv w →
  Inv (mkWorld (PoolOps.set_done ({[d]} ∪ done_drivers (pool w)) (pool w)) (tasks w) (drain w)).
Proof.
  intros HI. constructor; cbn; try apply HI.
  intros d' Hd. destruct (inv_drivers w HI d' Hd) as [|[|[|]]]; [left; set_solver|eauto..].
Qed.

Lemma inv_shutdown w :
  Inv w →
  Inv (mkWorld (PoolOps.close (pool w)).1 (tasks w)
         (if (PoolOps.close (pool w)).2 then DrainWaiting else drain w)).
Proof.
  intros HI. pose proof (inv_closed w HI) as Hcl. cbn.
  destruct (closed (pool w)) eqn:Hc; cbn.
  - assert (PoolOps.set_closed true (pool w) = pool w) as ->.
    { destruct (pool w). cbn in *. by subst. }
    destruct w as [p ts d]. exact HI.
  - destruct Hcl as [Hcl _]. specialize (Hcl eq_refl).
    pose proof HI as HI'. constructor; cbn; try apply HI'; try done.
    + intros s Hs. destruct (inv_slots w HI s Hs) as [|Hl]; [by left|]. rewrite Hcl in Hl.
      by apply not_elem_of_nil in Hl.
    + intros s Hs%not_elem_of_nil. done.
    + intros d Hd. destruct (inv_drivers w HI d Hd) as [|[|[Hl|]]]; auto.
      rewrite Hcl in Hl. by apply not_elem_of_nil in Hl.
    + rewrite (inv_finished w HI), Hcl. done.
Qed.

(** Once the count has reached zero no request is between registering and releasing. *)
Lemma undrained_tasks w t c :
  Inv w → acquires (pool w) = 0 → tasks w !! t = Some c → registered c = false.
Proof.
  intros HI H0 Ht. destruct (registered c) eqn:Hc; [|done].
  pose proof (msum_at_least count _ _ _ Ht) as Hle. rewrite <- (inv_count w HI), H0 in Hle.
  unfold count in Hle. rewrite Hc in Hle. lia.
Qed.

Lemma registered_at c os : at_slot c = Some os → registered c = true.
Proof. by destruct c. Qed.

Lemma holds_at c s : holds c = Some s → registered c = true.
Proof. by destruct c. Qed.

(** With the count at zero the drain may change the maps and the slots as it likes, as long
    as what it has not dealt with stays on its lists. *)
Lemma inv_drain_moves w p' d' :
  Inv w → acquires (pool w) = 0 → drain w ≠ NotDraining → d' ≠ NotDraining →
  acquires p' = acquires (pool w) → closed p' = closed (pool w) →
  made p' = made (pool w) → done_drivers p' = done_drivers (pool w) →
  (finished p' = true ↔ d' = DrainDone) →
  (∀ s, is_Some (slots p' !! s) ↔ is_Some (slots (pool w) !! s)) →
  next_slot p' = next_slot (pool w) →
  (connections p' = ∅ ∨ connections p' = connections (pool w)) →
  (∀ s, state (PoolOps.slot s p') ≠ Dialing) →
  (taken d' = true → connections p' = ∅ ∧ drivers p' = []) →
  (∀ s, state (PoolOps.slot s p') ≠ Idle →
    (∃ o, connections p' !! o = Some s) ∨ s ∈ left_slots d') →
  (∀ s, s ∈ left_slots d' → is_Some (slots (pool w) !! s)) →
  (∀ d, d ∈ drivers (pool w) ∨ d ∈ left_drivers (drain w) →
    d ∈ done_drivers p' ∨ d ∈ drivers p' ∨ d ∈ left_drivers d') →
  Inv (mkWorld p' (tasks w) d').
Proof.
  intros HI H0 Hd Hd' Hac Hcl Hmd Hdn Hfin Hsl Hnx Hco Hst Htk Hslots Hlf Hdrv.
  assert (∀ t c, tasks w !! t = Some c → registered c = false) as Hreg.
  { intros t c. by apply undrained_tasks. }
  assert (∀ o s, connections p' !! o = Some s → connections (pool w) !! o = Some s) as Hsub.
  { intros o s. destruct Hco as [-> | ->]; [by rewrite lookup_empty|done]. }
  constructor; cbn; try done.
  - rewrite Hac. apply (inv_count w HI).
  - intros t c o s Ht Hat%registered_at. by rewrite (Hreg t c Ht) in Hat.
  - intros o1 o2 s H1%Hsub H2%Hsub. by apply (inv_inj w HI o1 o2 s).
  - intros o s Ho%Hsub. apply Hsl. by apply (inv_conn w HI o).
  - intros s Hs%Hsl. rewrite Hnx. by apply (inv_next w HI).
  - intros t c s Ht Hh%holds_at. by rewrite (Hreg t c Ht) in Hh.
  - intros s Hs. by destruct (Hst s).
  - intros t1 t2 c1 c2 s Ht _ Hh%holds_at. by rewrite (Hreg t1 c1 Ht) in Hh.
  - rewrite Hcl, (inv_closed w HI). by split.
  - congruence.
  - intros s Hs. by apply Hsl, Hlf.
  - intros d. rewrite Hmd. intros [Hdone|[Hl|[Hl|(t & o & s & h & Ht)]]]%(inv_drivers w HI).
    + left. by rewrite Hdn.
    + destruct (Hdrv d) as [|[|]]; auto.
    + destruct (Hdrv d) as [|[|]]; auto.
    + by apply Hreg in Ht.
Qed.

Lemma state_empty_slot s s' p :
  state (PoolOps.slot s' (PoolOps.empty_slot s p))
  = if decide (s = s') then Idle else state (PoolOps.slot s' p).
Proof.
  assert (PoolOps.slot s' (PoolOps.empty_slot s p)
          = PoolOps.slot s' (PoolOps.set_slots
              (<[s := mkSlot Idle (settled (PoolOps.slot s p))]> (slots p)) p)) as ->.
  { unfold PoolOps.empty_slot. by destruct (state (PoolOps.slot s p)). }
  rewrite slot_set. by destruct (decide (s = s')).
Qed.

(** Emptying a slot changes the slots and the handles shut down, nothing else. *)
Lemma empty_slot_frame s p :
  PoolOps.empty_slot s p
  = PoolOps.set_shut (shut (PoolOps.empty_slot s p))
      (PoolOps.set_slots (<[s := mkSlot Idle (settled (PoolOps.slot s p))]> (slots p)) p).
Proof. unfold PoolOps.empty_slot. by destruct (state (PoolOps.slot s p)). Qed.

Lemma inv_drain w p d :
  Inv w → drain_step (pool w) (drain w) = Some (p, d) → Inv (mkWorld p (tasks w) d).
Proof.
  intros HI Hs. pose proof (inv_drained w HI) as Hdr. pose proof (inv_taken w HI) as Htk.
  assert (∀ s, acquires (pool w) = 0 → state (PoolOps.slot s (pool w)) ≠ Dialing) as Hnd.
  { intros s H0 (t & c & Ht & Hc%holds_at)%(inv_held w HI).
    by rewrite (undrained_tasks w t c HI H0 Ht) in Hc. }
  pose proof (inv_slots w HI) as Hsl. pose proof (inv_finished w HI) as Hfin.
  pose proof (inv_left w HI) as Hlf.
  destruct (drain w) as [| | |[|s ss] ds|] eqn:Hd; cbn in Hs; [done| | | | |done].
  - destruct (decide (acquires (pool w) = 0)) as [H0|]; simplify_eq.
    apply inv_drain_moves; rewrite ?Hd; try done; auto. by rewrite Hfin.
  - specialize (Hdr eq_refl). simplify_eq.
    apply inv_drain_moves; rewrite ?Hd; try done; auto.
    + cbn. by rewrite Hfin.
    + intros s. exact (Hnd s Hdr).
    + intros s [[o Ho]|Hl]%(Hsl s); [|by apply not_elem_of_nil in Hl]. right.
      apply list_elem_of_fmap. exists (o, s). split; [done|]. by apply elem_of_map_to_list.
    + intros s Hl. apply list_elem_of_fmap in Hl as ([o s'] & -> & Ho%elem_of_map_to_list).
      by apply (inv_conn w HI o).
    + intros d [Hl|Hl]; [by right; right|by apply not_elem_of_nil in Hl].
  - specialize (Hdr eq_refl). specialize (Htk eq_refl). destruct ds as [|d0 ds].
    + simplify_eq. apply inv_drain_moves; rewrite ?Hd; try done; auto.
      intros s. exact (Hnd s Hdr).
    + destruct (decide (d0 ∈ done_drivers (pool w))); simplify_eq.
      apply inv_drain_moves; rewrite ?Hd; try done; auto.
      * cbn. by rewrite Hfin.
      * intros d [Hl|Hl]; [by right; left|].
        apply elem_of_cons in Hl as [->|Hl]; [by left|by right; right].
  - specialize (Hdr eq_refl). specialize (Htk eq_refl). simplify_eq.
    pose proof (empty_slot_frame s (pool w)) as Hfr.
    pose proof (λ s', state_empty_slot s s' (pool w)) as Hne.
    revert Hne. rewrite Hfr. generalize (shut (PoolOps.empty_slot s (pool w))) as sh.
    intros sh Hne. apply inv_drain_moves; rewrite ?Hd; try done; auto.
    + cbn. by rewrite Hfin.
    + intros s'. cbn. rewrite lookup_insert_is_Some.
      split; [intros [<-|[_ Hs']]; [apply Hlf, elem_of_cons; by left|done]|].
      destruct (decide (s = s')); auto.
    + intros s'. rewrite Hne. case_decide; [done|]. by apply Hnd.
    + intros s'. rewrite Hne. case_decide as Hss; [done|]. intros Hno. right.
      destruct (Hsl s' Hno) as [[o Ho]|Hl].
      * destruct Htk as [Hc _]. by rewrite Hc, lookup_empty in Ho.
      * by apply elem_of_cons in Hl as [->|Hl].
    + intros s' Hl. apply Hlf. by apply elem_of_cons; right.
Qed.

Lemma inv_step e w w' : Inv w → step e w w' → Inv w'.
Proof.
  intros HI Hs. destruct Hs as [w t o Ht|w t c al p c' Ht Ha|w t c c' Ht Hc|w t o s h d Ht Hd
    |w t o s e Ht|w d Hd|w|w p d Hd].
  - by apply inv_spawn.
  - apply (inv_task w t c); [done..|]. eapply tm_run, advance_moves; [|done].
    by apply (inv_live w t).
  - apply (inv_task w t c); [done..|]. by apply tm_cancel.
  - eapply (inv_task w t); [done..|]. by apply tm_dialed.
  - eapply (inv_task w t); [done..|]. apply tm_dial_failed.
  - by apply inv_driver_ends.
  - by apply inv_shutdown.
  - by apply inv_drain.
Qed.

Lemma inv_reached es w : reached es w → Inv w.
Proof. induction 1; [apply inv_start|by eapply inv_step]. Qed.

(** ** The generation of a slot

    For as long as fewer than 2^64 events have happened the counter has not wrapped. *)

Definition fresh (n : Z) (w : World) : Prop :=
  (∀ s, 0 ≤ settled (PoolOps.slot s (pool w)) ≤ n)%Z
  ∧ ∀ t o s g, tasks w !! t = Some (PWaiting o s g) →
    (g ≤ settled (PoolOps.slot s (pool w)))%Z
    ∧ (g = settled (PoolOps.slot s (pool w)) → state (PoolOps.slot s (pool w)) = Dialing).

Lemma fresh_same n w w' :
  fresh n w →
  (∀ s, settled (PoolOps.slot s (pool w')) = settled (PoolOps.slot s (pool w))) →
  (∀ t o s g, tasks w' !! t = Some (PWaiting o s g) → tasks w !! t = Some (PWaiting o s g)
    ∧ state (PoolOps.slot s (pool w')) = state (PoolOps.slot s (pool w))) →
  fresh (n + 1) w'.
Proof.
  intros [Hb Hg] Hs Ht. split.
  - intros s. rewrite Hs. specialize (Hb s). lia.
  - intros t o s g [Hw Hst]%Ht. rewrite Hs, Hst. by apply (Hg t o).
Qed.

(** A task that comes to wait has just seen the slot dialling. *)
Lemma tm_waits p c p' o s g :
  task_moves p c p' (PWaiting o s g) →
  p' = p ∧ state (PoolOps.slot s p) = Dialing ∧ g = settled (PoolOps.slot s p).
Proof.
  intros Hm. inversion Hm as [al ? ? ? Hmv|? ? Hc| |]; subst.
  - by inversion Hmv.
  - destruct c; simplify_eq/=.
Qed.

Lemma fresh_task n w t c p' c' :
  Inv w → fresh n w → (0 ≤ n < U64_MAX)%Z → tasks w !! t = Some c →
  task_moves (pool w) c p' c' → fresh (n + 1) (mkWorld p' (<[t := c']> (tasks w)) (drain w)).
Proof.
  intros HI [Hb Hg] Hn Ht Hm.
  assert (∀ s d, settled (SlotOps.settle d (PoolOps.slot s (pool w)))
                 = settled (PoolOps.slot s (pool w)) + 1)%Z as Hadd.
  { intros s d. cbn. unfold wrapping_add. specialize (Hb s). rewrite Z.mod_small; [done|].
    unfold U64_MAX in *. lia. }
  destruct (tm_slots w t c p' c' HI Ht Hm)
    as [[Hs Hhc]|[(o & s0 & Hat & Hn0 & Hs0 & Hst & Hs)|(o & s0 & d & Hat & Hs0 & Hn0 & Hd & _ & Hs)]].
  all: split; [intros s; cbn; rewrite Hs; specialize (Hb s); try case_decide; subst;
    rewrite ?Hadd; cbn; lia|].
  all: cbn; intros t' o' s' g [[<- ->]|[_ Ht']]%lookup_insert_Some.
  - destruct (tm_waits _ _ _ _ _ _ Hm) as (_ & Hdl & ->). rewrite Hs. done.
  - rewrite Hs. by apply (Hg t' o').
  - done.
  - rewrite Hs. case_decide; cbn; [subst|by apply (Hg t' o')].
    split; [by apply (Hg t' o' s')|done].
  - destruct (tm_waits _ _ _ _ _ _ Hm) as (-> & _ & _). specialize (Hs s0).
    rewrite decide_True in Hs by done. apply (f_equal settled) in Hs. rewrite Hadd in Hs. lia.
  - rewrite Hs. case_decide; [subst|by apply (Hg t' o')]. rewrite Hadd.
    destruct (Hg t' o' s' g Ht') as [Hle _]. split; [lia|]. intros ->. lia.
Qed.

Lemma drain_settled p d p' d' s :
  drain_step p d = Some (p', d') →
  settled (PoolOps.slot s p') = settled (PoolOps.slot s p).
Proof.
  intros Hs. destruct d as [| | |[|s0 ss] ds|]; cbn in Hs; [done| | | | |done].
  - by case_decide; simplify_eq.
  - by simplify_eq.
  - destruct ds; [by simplify_eq|]. by case_decide; simplify_eq.
  - simplify_eq. rewrite empty_slot_frame. generalize (shut (PoolOps.empty_slot s0 p)) as sh.
    intros sh. pose proof (slot_set s0 s (mkSlot Idle (settled (PoolOps.slot s0 p))) p) as Hsl.
    apply (f_equal settled) in Hsl. etransitivity; [exact Hsl|].
    by destruct (decide (s0 = s)) as [->|].
Qed.

(** Once the drain is past the count, no task is left that a drain step could disturb. *)
Lemma drain_tasks w p d t c :
  Inv w → drain_step (pool w) (drain w) = Some (p, d) → tasks w !! t = Some c →
  registered c = false.
Proof.
  intros HI Hs. apply undrained_tasks; [done|].
  destruct (drain w) eqn:Hd; cbn in Hs; try done; try (by apply (inv_drained w HI); rewrite Hd).
  by case_decide.
Qed.

Lemma fresh_step n e w w' :
  Inv w → fresh n w → (0 ≤ n < U64_MAX)%Z → step e w w' → fresh (n + 1) w'.
Proof.
  intros HI Hf Hn Hs. destruct Hs as [w t o Ht|w t c al p c' Ht Ha|w t c c' Ht Hc|w t o s h d Ht Hd
    |w t o s e Ht|w d Hd|w|w p d Hd].
  - apply (fresh_same n w); [done..|]. cbn. intros t' o' s g [[_ ?]|[_ Ht']]%lookup_insert_Some.
    + done.
    + done.
  - apply (fresh_task n w t c); [done..|]. eapply tm_run, advance_moves; [|done].
    by apply (inv_live w t).
  - apply (fresh_task n w t c); [done..|]. by apply tm_cancel.
  - eapply (fresh_task n w t); [done..|]. by apply tm_dialed.
  - eapply (fresh_task n w t); [done..|]. apply tm_dial_failed.
  - by apply (fresh_same n w).
  - by apply (fresh_same n w).
  - apply (fresh_same n w); [done| |].
    + intros s. by eapply drain_settled.
    + cbn. intros t o s g Ht. by apply (drain_tasks w p d t) in Ht.
Qed.

Lemma fresh_reached es w :
  reached es w → (Z.of_nat (length es) ≤ U64_MAX)%Z → fresh (Z.of_nat (length es)) w.
Proof.
  induction 1 as [|es e w w' Hr IH Hs]; intros Hn.
  - split; cbn; [intros s; unfold PoolOps.slot; cbn; rewrite lookup_empty; cbn; lia|].
    intros t o s g. by rewrite lookup_empty.
  - cbn [length] in *. rewrite Nat2Z.inj_succ in *. apply (fresh_step _ e w); try lia; try done.
    + by eapply inv_reached.
    + apply IH. lia.
Qed.

(** A parked request's slot is being dialled by another. *)
Lemma waiting_held n w t o s g :
  Inv w → fresh n w → tasks w !! t = Some (PWaiting o s g) →
  settled (PoolOps.slot s (pool w)) = g →
  ∃ t' c', t' ≠ t ∧ tasks w !! t' = Some c' ∧ holds c' = Some s.
Proof.
  intros HI [_ Hg] Ht Hs. destruct (Hg t o s g Ht) as [_ Hst].
  destruct (inv_held w HI s (Hst (eq_sym Hs))) as (t' & c' & Ht' & Hc').
  exists t', c'. split; [|done]. intros ->. simplify_eq.
Qed.

(** ** Shutdown: what is left to do *)

(** The requests that have not yet got an answer, and how far each has to go. *)
Definition unanswered (c : pc) : nat :=
  match c with PReleasing _ | PDone _ => 0 | _ => 1 end.

Definition rank (p : Pool) (c : pc) : nat :=
  match c with
  | PDone _ => 0
  | PReleasing _ => 1
  | PShut _ _ _ | PPublish _ _ _ | PDialFailed _ _ _ | PUnwound _ _ => 2
  | PDialed _ _ _ _ => 3
  | PDialing _ _ => 4
  | PLoop _ _ _ => 5
  | PWaiting _ s g => if decide (settled (PoolOps.slot s p) = g) then 2 else 6
  | PSlotFor _ => 6
  | PStart _ => 7
  end.

Definition drain_rank (p : Pool) (d : drain_pc) : nat :=
  match d with
  | NotDraining => 0
  | DrainWaiting => length (map_to_list (connections p)) + length (drivers p) + 3
  | DrainTake => length (map_to_list (connections p)) + length (drivers p) + 2
  | DrainSlots ss ds => length ss + length ds + 1
  | DrainDone => 0
  end.

Definition to_answer (w : World) : nat := msum unanswered (tasks w).
Definition to_run (w : World) : nat := msum (rank (pool w)) (tasks w).
Definition to_drain (w : World) : nat := drain_rank (pool w) (drain w).

Definition less_to_do (w' w : World) : Prop :=
  to_answer w' < to_answer w
  ∨ to_answer w' = to_answer w ∧
    (to_run w' < to_run w ∨ to_run w' = to_run w ∧ to_drain w' < to_drain w).

Lemma lexicographic_wf {A} (f g h : A → nat) :
  well_founded (λ y x, f y < f x ∨ f y = f x ∧ (g y < g x ∨ g y = g x ∧ h y < h x)).
Proof.
  intros x. remember (f x) as a eqn:Ha. remember (g x) as b eqn:Hb.
  remember (h x) as c eqn:Hc. revert b c x Ha Hb Hc.
  induction (lt_wf a) as [a _ IHa]. intros b.
  induction (lt_wf b) as [b _ IHb]. intros c.
  induction (lt_wf c) as [c _ IHc]. intros x Ha Hb Hc. constructor.
  intros y [Hlt|[Hf [Hlt|[Hg Hlt]]]]; subst.
  - by eapply IHa.
  - apply (IHb (g y) Hlt (h y) y); congruence.
  - apply (IHc (h y) Hlt y); congruence.
Qed.

(** What the pool's own side can do once closed: its tasks run, their dials end, their
    requests are dropped, the drain goes on. *)
Definition own (e : event) : bool :=
  match e with Run _ _ | Cancel _ | DialOk _ _ _ | DialErr _ _ | Drain => true | _ => false end.

Definition own_step (w w' : World) : Prop := ∃ e, own e = true ∧ step e w w'.

Lemma rank_other p p' c :
  (∀ s, settled (PoolOps.slot s p') = settled (PoolOps.slot s p)) → rank p' c = rank p c.
Proof. intros Hs. destruct c; try done. cbn. by rewrite Hs. Qed.

(** On a closed pool each move answers a request or, the generations unchanged, brings its
    task nearer to its end. *)
Lemma tm_rank w t c p' c' :
  Inv w → closed (pool w) = true → tasks w !! t = Some c → task_moves (pool w) c p' c' →
  unanswered c' < unanswered c
  ∨ unanswered c' = unanswered c ∧ rank (pool w) c' < rank (pool w) c
    ∧ ∀ s, settled (PoolOps.slot s p') = settled (PoolOps.slot s (pool w)).
Proof.
  intros HI Hcl Ht Hm. moved Hm; try congruence; try (left; cbn; lia); right;
    (split; [done|split; [cbn; try case_decide; lia|]]); try done.
  intros s'. pose proof (slot_set s s' (mkSlot Dialing (settled (PoolOps.slot s (pool w))))
    (pool w)) as Hsl.
  apply (f_equal settled) in Hsl. etransitivity; [exact Hsl|].
  by destruct (decide (s = s')) as [->|].
Qed.

Lemma task_less w t c p' c' :
  Inv w → closed (pool w) = true → tasks w !! t = Some c → task_moves (pool w) c p' c' →
  less_to_do (mkWorld p' (<[t := c']> (tasks w)) (drain w)) w.
Proof.
  intros HI Hcl Ht Hm. unfold less_to_do, to_answer, to_run. cbn [tasks pool].
  pose proof (msum_replace unanswered _ _ _ c' Ht) as Hu.
  pose proof (msum_replace (rank (pool w)) _ _ _ c' Ht) as Hr.
  destruct (tm_rank w t c p' c' HI Hcl Ht Hm) as [Hlt|(Heq & Hlt & Hs)]; [left; lia|].
  right. split; [lia|]. left.
  rewrite (msum_ext (rank p') (rank (pool w))) by (intros; by apply rank_other). lia.
Qed.

Lemma drain_less w p d :
  drain_step (pool w) (drain w) = Some (p, d) → less_to_do (mkWorld p (tasks w) d) w.
Proof.
  intros Hs. right. split; [done|]. right. unfold to_run, to_drain. cbn [tasks pool drain].
  split; [apply msum_ext; intros; apply rank_other; intros; by eapply drain_settled|].
  destruct (drain w) as [| | |[|s ss] [|d0 ds]|]; cbn in Hs; try done;
    try case_decide; simplify_eq; cbn; rewrite ?length_fmap; lia.
Qed.

Lemma own_less w w' : Inv w → closed (pool w) = true → own_step w w' → less_to_do w' w.
Proof.
  intros HI Hcl (e & He & Hs). destruct Hs as [|w t c al p c' Ht Ha|w t c c' Ht Hc
    |w t o s h d Ht Hd|w t o s e Ht| | |w p d Hd]; try done.
  - apply (task_less w t c); [done..|]. eapply tm_run, advance_moves; [|done].
    by apply (inv_live w t).
  - apply (task_less w t c); [done..|]. by apply tm_cancel.
  - eapply (task_less w t); [done..|]. by apply tm_dialed.
  - eapply (task_less w t); [done..|]. apply tm_dial_failed.
  - by apply drain_less.
Qed.

Lemma closed_stays e w w' : step e w w' → Inv w → closed (pool w) = true → closed (pool w') = true.
Proof.
  intros Hs HI Hcl. destruct Hs as [|w t c al p c' Ht Ha| | | | | |w p d Hd]; try done.
  - pose proof (advance_moves _ _ _ _ _ (inv_live w t c HI Ht) Ha) as Hm.
    apply tm_run, tm_closed in Hm as [Hm _]. cbn. congruence.
  - destruct (drain w) as [| | |[|s ss] [|d0 ds]|]; cbn in Hd; try done;
      try case_decide; simplify_eq; try done; cbn; by rewrite empty_slot_frame.
Qed.

(** ** Running a list of events *)

Definition exec (e : event) (w : World) : option World :=
  match e with
  | Spawn t o =>
      match tasks w !! t with
      | Some _ => None
      | None => Some (mkWorld (pool w) (<[t := PStart o]> (tasks w)) (drain w))
      end
  | Run t alive =>
      let! c := tasks w !! t in
      match advance alive (pool w) c with
      | Some (p, c') => Some (mkWorld p (<[t := c']> (tasks w)) (drain w))
      | None => None
      end
  | Cancel t =>
      let! c := tasks w !! t in
      let! c' := cancel c in Some (mkWorld (pool w) (<[t := c']> (tasks w)) (drain w))
  | DialOk t h d =>
      match tasks w !! t with
      | Some (PDialing o s) =>
          if decide (d ∈ made (pool w)) then None
          else Some (mkWorld (PoolOps.set_made ({[d]} ∪ made (pool w)) (pool w))
                       (<[t := PDialed o s h d]> (tasks w)) (drain w))
      | _ => None
      end
  | DialErr t e =>
      match tasks w !! t with
      | Some (PDialing o s) =>
          Some (mkWorld (pool w) (<[t := PDialFailed o s e]> (tasks w)) (drain w))
      | _ => None
      end
  | DriverEnds d =>
      if decide (d ∈ made (pool w))
      then Some (mkWorld (PoolOps.set_done ({[d]} ∪ done_drivers (pool w)) (pool w)) (tasks w)
                   (drain w))
      else None
  | Shutdown =>
      Some (mkWorld (PoolOps.close (pool w)).1 (tasks w)
              (if (PoolOps.close (pool w)).2 then DrainWaiting else drain w))
  | Drain =>
      match drain_step (pool w) (drain w) with
      | Some (p, d) => Some (mkWorld p (tasks w) d)
      | None => None
      end
  end.

(** The events, the last one first. *)
Fixpoint run (es : list event) : option World :=
  match es with
  | [] => Some start
  | e :: es => let! w := run es in exec e w
  end.

Lemma exec_step e w w' : exec e w = Some w' → step e w w'.
Proof.
  intros Hx. destruct e as [t o|t al|t|t h d|t e|d| |]; cbn -[PoolOps.close] in Hx;
    [| | | | | |injection Hx as <-; apply step_shutdown|]; repeat case_match; simplify_eq.
  - by apply step_spawn.
  - by eapply step_run.
  - by eapply step_cancel.
  - by eapply step_dialed.
  - by eapply step_dial_failed.
  - by apply step_driver_ends.
  - by apply step_drain.
Qed.

Lemma run_reached es w : run es = Some w → reached es w.
Proof.
  revert w. induction es as [|e es IH]; intros w Hr; cbn in Hr.
  - simplify_eq. constructor.
  - destruct (run es) as [w0|]; [|done]. apply reached_step with w0; [by apply IH|].
    by apply exec_step.
Qed.

(** ** The guarantees *)

(** The origin a request is dialling for. *)
Definition dialing_for (c : pc) : option Origin :=
  match holds c with Some _ => fst <$> at_slot c | None => None end.

(** C11. One dial at a time per origin: however the requests, the dials, the cancellations
    and a shutdown interleave, at most one request is between claiming the dial of an origin
    and settling its slot. *)
Theorem one_dial_per_origin es w t1 t2 c1 c2 o :
  reached es w →
  tasks w !! t1 = Some c1 → tasks w !! t2 = Some c2 →
  dialing_for c1 = Some o → dialing_for c2 = Some o → t1 = t2.
Proof.
  intros HI%inv_reached H1 H2 Hd1 Hd2.
  assert (∀ t c, tasks w !! t = Some c → dialing_for c = Some o →
          ∃ s, holds c = Some s ∧ connections (pool w) !! o = Some s) as Hown.
  { intros t c Ht Hc. pose proof (inv_at w HI t c) as Hat.
    unfold dialing_for in Hc. destruct c; simplify_eq/=; eexists;
      (split; [done|exact (Hat _ _ Ht eq_refl)]). }
  destruct (Hown t1 c1 H1 Hd1) as (s1 & Hs1 & Ho1).
  destruct (Hown t2 c2 H2 Hd2) as (s2 & Hs2 & Ho2).
  apply (inv_one w HI t1 t2 c1 c2 s1); congruence.
Qed.

(** No lost wakeup: a request parked on a slot whose generation is still the one it saw
    is waiting for another request that holds the slot's dial guard at that moment, and
    cannot give it up without moving the generation.  (2^64 events would wrap the counter.) *)
Theorem parked_request_is_owed_a_wakeup es w t o s g :
  reached es w → (Z.of_nat (length es) ≤ U64_MAX)%Z →
  tasks w !! t = Some (PWaiting o s g) → settled (PoolOps.slot s (pool w)) = g →
  ∃ t' c', t' ≠ t ∧ tasks w !! t' = Some c' ∧ holds c' = Some s.
Proof.
  intros Hr Hn. apply (waiting_held (Z.of_nat (length es))); [by eapply inv_reached|].
  by apply fresh_reached.
Qed.

(** C10. A shutdown that reports itself finished is: the pool is closed, no request is between
    registering and releasing, no slot keeps a connection, and every driver that any dial ever
    made has ended — those of requests dropped or overtaken by the shutdown included. *)
Theorem finished_leaves_nothing es w :
  reached es w → finished (pool w) = true →
  closed (pool w) = true ∧ connections (pool w) = ∅
  ∧ (∀ t c, tasks w !! t = Some c → registered c = false)
  ∧ (∀ s, state (PoolOps.slot s (pool w)) = Idle)
  ∧ made (pool w) ⊆ done_drivers (pool w).
Proof.
  intros HI%inv_reached Hf%(inv_finished w HI).
  assert (drained (drain w) = true) as Hdr by (by rewrite Hf).
  destruct (inv_taken w HI) as [Hco Hds]; [by rewrite Hf|].
  assert (∀ t c, tasks w !! t = Some c → registered c = false) as Hreg.
  { intros t c. by apply undrained_tasks, (inv_drained w HI). }
  split_and!; [|done..| |].
  - destruct (closed (pool w)) eqn:Hcl; [done|]. apply (inv_closed w HI) in Hcl. congruence.
  - intros s. pose proof (inv_slots w HI s) as Hsl. rewrite Hf, Hco in Hsl.
    destruct (state (PoolOps.slot s (pool w))); [done|exfalso..];
      (destruct Hsl as [[o Ho]|Hl]; [done|by rewrite lookup_empty in Ho|]);
      by apply not_elem_of_nil in Hl.
  - intros d Hd. destruct (inv_drivers w HI d Hd) as [|[Hl|[Hl|(t & o & s & h & Ht)]]]; [done| | |].
    + rewrite Hds in Hl. by apply not_elem_of_nil in Hl.
    + rewrite Hf in Hl. by apply not_elem_of_nil in Hl.
    + by apply Hreg in Ht.
Qed.

(** C12. Shutdown terminates: from any point after it is requested, the tasks, the dials'
    outcomes, the cancellations and the drain can go on only finitely often, in whatever order
    they come. *)
Theorem shutdown_terminates es w :
  reached es w → closed (pool w) = true → Acc (λ w2 w1, own_step w1 w2) w.
Proof.
  intros HI%inv_reached. revert HI.
  induction (lexicographic_wf to_answer to_run to_drain w) as [w _ IH].
  intros HI Hcl. constructor. intros w' Hs. apply IH.
  - by apply own_less.
  - destruct Hs as (e & _ & Hs). by eapply inv_step.
  - destruct Hs as (e & _ & Hs). by eapply closed_stays.
Qed.

(** A request that has something left to do, when no request can move. *)
Definition movable (e : event) : bool :=
  match e with Run _ _ | DialErr _ _ | Drain => true | _ => false end.

Lemma task_moves_on w t c n :
  Inv w → fresh n w → tasks w !! t = Some c → (∀ r, c ≠ PDone r) →
  ∃ e w', movable e = true ∧ step e w w'.
Proof.
  intros HI Hf Ht Hc.
  assert (∀ t c, tasks w !! t = Some c →
    is_Some (advance true (pool w) c) ∨ (∃ o s, c = PDialing o s) →
    ∃ e w', movable e = true ∧ step e w w') as Hgo.
  { intros t' c' Ht' [[[p c''] Ha]|(o & s & ->)].
    - eexists (Run t' true), _. split; [done|]. by eapply step_run.
    - eexists (DialErr t' PoolOps.closed_error), _. split; [done|]. by eapply step_dial_failed. }
  assert (∀ c s, holds c = Some s →
    is_Some (advance true (pool w) c) ∨ (∃ o s, c = PDialing o s)) as Hholds.
  { intros c' s Hh. destruct c'; simplify_eq/=; try (by left; eauto); right; eauto. }
  destruct (holds c) as [s|] eqn:Hh; [by apply (Hgo t c), (Hholds c s)|].
  destruct c as [o|o|o s waited|o s g| | | | | | |r|r]; try done.
  - apply (Hgo t _ Ht). left. cbn. destruct (PoolOps.register _) as [? []]; eauto.
  - apply (Hgo t _ Ht). left. cbn. destruct (PoolOps.slot_for _ _) as [? []]; eauto.
  - apply (Hgo t _ Ht). left. cbn. destruct (SlotOps.decision _ _ _) as [? []]; eauto.
  - destruct (decide (settled (PoolOps.slot s (pool w)) = g)) as [Hs|Hs].
    + destruct (waiting_held n w t o s g HI Hf Ht Hs) as (t' & c' & _ & Ht' & Hc').
      by apply (Hgo t' c'), (Hholds c' s).
    + apply (Hgo t _ Ht). left. cbn. rewrite decide_False; eauto.
  - apply (Hgo t _ Ht). left. cbn. eauto.
  - by destruct (Hc r).
Qed.

Lemma msum_zero {A} (f : A → nat) (m : gmap nat A) :
  (∀ t a, m !! t = Some a → f a = 0) → msum f m = 0.
Proof.
  intros Hz. rewrite (msum_ext f (λ _, 0)) by done.
  induction m as [|t a m Hm _ IH] using map_first_key_ind; [done|].
  rewrite msum_new by done. apply IH. intros t' b Hb. apply (Hz t').
  rewrite lookup_insert_ne; [done|congruence].
Qed.

Definition is_done (c : pc) : bool := match c with PDone _ => true | _ => false end.

(** Shutdown never gets stuck: until it has finished, some request or the drain can make
    a step (without anyone having to be dropped), or the drain awaits a driver that has not
    ended. *)
Theorem shutdown_never_stuck es w :
  reached es w → (Z.of_nat (length es) ≤ U64_MAX)%Z →
  closed (pool w) = true → finished (pool w) = false →
  (∃ e w', movable e = true ∧ step e w w')
  ∨ ∃ d, d ∈ left_drivers (drain w) ∧ d ∉ done_drivers (pool w).
Proof.
  intros Hr Hn Hcl Hfin. pose proof (inv_reached _ _ Hr) as HI.
  pose proof (fresh_reached _ _ Hr Hn) as Hf.
  destruct (decide (map_Forall (λ _ c, is_done c = true) (tasks w))) as [Hall|Hex].
  - assert (acquires (pool w) = 0) as H0.
    { rewrite (inv_count w HI). apply msum_zero. intros t c Ht%Hall. by destruct c. }
    assert (drain w ≠ DrainDone) as Hnd.
    { intros Hd%(inv_finished w HI). congruence. }
    assert (drain w ≠ NotDraining) as Hnn.
    { intros Hd%(inv_closed w HI). congruence. }
    assert (is_Some (drain_step (pool w) (drain w)) → ∃ e w', movable e = true ∧ step e w w')
      as Hgo.
    { intros [[p d] Hd]. eexists Drain, _. split; [done|]. by apply step_drain. }
    destruct (drain w) as [| | |[|s ss] [|d ds]|]; try done;
      try (left; apply Hgo; cbn; by eauto).
    + left. apply Hgo. cbn. rewrite decide_True; eauto.
    + destruct (decide (d ∈ done_drivers (pool w))).
      * left. apply Hgo. cbn. rewrite decide_True; eauto.
      * right. exists d. split; [by left|done].
  - left. apply map_not_Forall in Hex as (t & c & Ht & Hc); [|solve_decision].
    apply (task_moves_on w t c (Z.of_nat (length es))); try done. intros r ->. by destruct Hc.
Qed.

(** ** Requests that waited *)

(** No request dropped, no connection evicted, no shutdown. *)
Definition calm (e : event) : bool :=
  match e with Cancel _ | Shutdown => false | Run _ alive => alive | _ => true end.

Definition waited_at (c : pc) : option nat :=
  match c with PWaiting _ s _ | PLoop _ s true => Some s | _ => None end.

Lemma settle_not_idle s s' d p :
  d ≠ Idle → state (PoolOps.slot s' p) ≠ Idle →
  state (PoolOps.slot s' (PoolOps.settle s d p)) ≠ Idle.
Proof. intros Hd Hs. rewrite slot_settle. by destruct (decide (s = s')). Qed.

Definition gives_up (c : pc) : bool :=
  match c with PUnwound _ _ | PShut _ _ _ => true | _ => false end.

Lemma moves_not_idle alive p c p' c' s :
  moves alive p c p' c' → slots p !! next_slot p = None → gives_up c = false →
  state (PoolOps.slot s p) ≠ Idle → state (PoolOps.slot s p') ≠ Idle.
Proof.
  intros Hm Hn Hc Hs. destruct Hm; simplify_eq/=; try done; try (by apply settle_not_idle).
  - rewrite slot_add. case_decide; [subst|done]. unfold PoolOps.slot in Hs. by rewrite Hn in Hs.
  - pose proof (slot_set s0 s (mkSlot Dialing (settled (PoolOps.slot s0 p))) p) as Hset.
    apply (f_equal state) in Hset. intros Hi.
    assert (state (if decide (s0 = s) then mkSlot Dialing (settled (PoolOps.slot s0 p))
                   else PoolOps.slot s p) = Idle) as Hbad by (rewrite <- Hset; exact Hi).
    by case_decide.
Qed.

Lemma moves_calm alive p c p' c' :
  moves alive p c p' c' → closed p = false → gives_up c' = false.
Proof. intros Hm Hc. destruct Hm; try done; congruence. Qed.

Lemma moves_waited alive p c p' c' s :
  moves alive p c p' c' → waited_at c' = Some s →
  p' = p ∧ (waited_at c = Some s ∨ state (PoolOps.slot s p) = Dialing).
Proof. intros Hm Hw. destruct Hm; simplify_eq/=; auto. Qed.

Lemma next_slot_unused w : Inv w → slots (pool w) !! next_slot (pool w) = None.
Proof.
  intros HI. destruct (slots (pool w) !! next_slot (pool w)) eqn:Hs; [|done].
  destruct (Nat.lt_irrefl (next_slot (pool w))). apply (inv_next w HI). by rewrite Hs.
Qed.

(** In a calm run a slot that anyone waited on has been left for a connection or an error. *)
Definition Calm (w : World) : Prop :=
  closed (pool w) = false
  ∧ (∀ t c, tasks w !! t = Some c → gives_up c = false)
  ∧ ∀ t c s, tasks w !! t = Some c → waited_at c = Some s →
      state (PoolOps.slot s (pool w)) ≠ Idle.

(** A task changed to one that has not waited, the pool's states kept. *)
Lemma calm_same w p ts d :
  Calm w → closed p = false →
  (∀ t c, ts !! t = Some c → tasks w !! t = Some c ∨ gives_up c = false ∧ waited_at c = None) →
  (∀ s, state (PoolOps.slot s p) = state (PoolOps.slot s (pool w))) →
  Calm (mkWorld p ts d).
Proof.
  intros (Hcl & Hpc & Hst) Hp Hts Hs. split_and!; [done| |].
  - intros t c [Ht|[? _]]%Hts; [by eapply Hpc|done].
  - intros t c s [Ht|[_ Hw]]%Hts Hc; cbn; [|congruence]. rewrite Hs. by eapply Hst.
Qed.

Lemma calm_step e w w' : Inv w → Calm w → calm e = true → step e w w' → Calm w'.
Proof.
  intros HI HC He Hs. pose proof HC as (Hcl & Hpc & Hst).
  assert (∀ t0 c0 t c, <[t0 := c0]> (tasks w) !! t = Some c → gives_up c0 = false →
          waited_at c0 = None → tasks w !! t = Some c ∨ gives_up c = false ∧ waited_at c = None)
    as Hnew.
  { intros t0 c0 t c [[_ <-]|[_ Ht]]%lookup_insert_Some; auto. }
  destruct Hs as [w t o Ht|w t c al p c' Ht Ha|w t c c' Ht Hc|w t o s h d Ht Hd
    |w t o s e Ht|w d Hd|w|w p d Hd]; try done.
  - apply (calm_same w); try done. intros t' c Hc. by apply (Hnew t (PStart o)).
  - pose proof (advance_moves _ _ _ _ _ (inv_live w t c HI Ht) Ha) as Hm.
    pose proof (tm_closed _ _ _ _ (tm_run _ _ _ _ _ Hm)) as [Hcl' _].
    split_and!; cbn; [congruence| |].
    + intros t' c1 [[_ <-]|[_ Ht']]%lookup_insert_Some; [by eapply moves_calm|by eapply Hpc].
    + intros t' c1 s [[_ <-]|[_ Ht']]%lookup_insert_Some Hw.
      * destruct (moves_waited _ _ _ _ _ _ Hm Hw) as [-> [Hwt|Hdl]]; [by eapply Hst|].
        by rewrite Hdl.
      * eapply moves_not_idle; [done|by apply next_slot_unused|by eapply Hpc|by eapply Hst].
  - apply (calm_same w); try done. intros t' c Hc. by apply (Hnew t (PDialed o s h d)).
  - apply (calm_same w); try done. intros t' c Hc. by apply (Hnew t (PDialFailed o s e)).
  - apply (inv_closed w HI) in Hcl as Hn. by rewrite Hn in Hd.
Qed.

(** Unless a request is dropped, a connection evicted or the pool shut down, a request
    that waited never dials: woken, it takes the connection or the error of the dial it waited
    for, or waits again behind a newcomer's, and the pool's dial count is unchanged. *)
Theorem woken_request_never_dials es w t o s p' c' :
  Forall (λ e, calm e = true) es → reached es w →
  tasks w !! t = Some (PLoop o s true) →
  advance true (pool w) (PLoop o s true) = Some (p', c') →
  p' = pool w ∧
  match state (PoolOps.slot s (pool w)) with
  | Ready h => c' = PReleasing (OHandle h)
  | Failed e => c' = PReleasing (OError (PoolError.from_shared e))
  | Dialing => c' = PWaiting o s (settled (PoolOps.slot s (pool w)))
  | Idle => False
  end.
Proof.
  intros Hes Hr Ht Ha.
  assert (Inv w ∧ Calm w) as [HI (Hcl & Hpc & Hst)].
  { clear Ht Ha. induction Hr as [|es e w w' Hr IH Hs].
    - split; [apply inv_start|]. split_and!; [done| |]; intros ? ? *; cbn;
        by rewrite lookup_empty.
    - apply Forall_cons_1 in Hes as [He Hes]. destruct (IH Hes) as [HI HC].
      split; [by eapply inv_step|by eapply calm_step]. }
  pose proof (Hst t _ s Ht eq_refl) as Hni. pose proof (inv_live w t _ HI Ht) as Hlive.
  pose proof (set_slots_same s (pool w) (Hlive o s eq_refl)) as Hsame.
  cbn in Ha. unfold SlotOps.decision in Ha.
  destruct (state (PoolOps.slot s (pool w))); [done|..]; cbn in Ha; rewrite Hsame in Ha;
    by simplify_eq.
Qed.

(** ** Concrete runs *)

Definition example_org : Origin := mkOrigin "example.org" 443.

(** Two requests for one origin: the first dials, the second parks. *)
Definition two_requests : list event :=
  [Run 1 true; Run 1 true; Run 1 true; Run 0 true; Run 0 true; Run 0 true;
   Spawn 1 example_org; Spawn 0 example_org].

(** The dialling request is dropped; the one that waited wakes to an idle slot and dials. *)
Definition drop_the_dialler : list event := [Run 1 true; Run 0 true; Cancel 0] ++ two_requests.

Lemma woken_request_may_dial :
  ∃ es w o s p, reached es w ∧ tasks w !! 1 = Some (PLoop o s true)
    ∧ advance true (pool w) (PLoop o s true) = Some (p, PDialing o s).
Proof.
  destruct (run drop_the_dialler) as [w|] eqn:Hr; [|by vm_compute in Hr].
  eexists drop_the_dialler, w, example_org, 0, _. split; [by apply run_reached|].
  vm_compute in Hr. injection Hr as <-. split; reflexivity.
Qed.

Definition ran (es : list event) : bool := match run es with Some _ => true | None => false end.
Definition world (es : list event) : World := match run es with Some w => w | None => start end.

Lemma world_reached es : ran es = true → reached es (world es).
Proof. unfold ran, world. destruct (run es) eqn:Hr; [|done]. intros _. by apply run_reached. Qed.

(** The dial ends well and its driver ends; the second request is woken; the pool is shut
    down while both still run, and drains. *)
Definition woken : list event := [Run 1 true; Run 0 true; Run 0 true; DialOk 0 7 9] ++ two_requests.
Definition asked_to_stop : list event :=
  [Run 1 true; Run 1 true; Run 0 true; DriverEnds 9; Shutdown] ++ woken.
Definition stopped : list event := [Drain; Drain; Drain; Drain; Drain] ++ asked_to_stop.

Lemma one_dial_per_origin_witness : 0 = 0.
Proof.
  apply (one_dial_per_origin two_requests (world two_requests) 0 0
    (PDialing example_org 0) (PDialing example_org 0) example_org); try (vm_compute; reflexivity).
  apply world_reached. vm_compute. reflexivity.
Defined.

Lemma parked_request_is_owed_a_wakeup_witness :
  ∃ t' c', t' ≠ 1 ∧ tasks (world two_requests) !! t' = Some c' ∧ holds c' = Some 0.
Proof.
  apply (parked_request_is_owed_a_wakeup two_requests (world two_requests) 1 example_org 0 0%Z).
  - apply world_reached. vm_compute. reflexivity.
  - vm_compute. discriminate.
  - vm_compute. reflexivity.
  - vm_compute. reflexivity.
Defined.

Lemma finished_leaves_nothing_witness : made (pool (world stopped)) ⊆ done_drivers (pool (world stopped)).
Proof.
  apply (finished_leaves_nothing stopped (world stopped)).
  - apply world_reached. vm_compute. reflexivity.
  - vm_compute. reflexivity.
Defined.

Lemma shutdown_terminates_witness : Acc (λ w2 w1, own_step w1 w2) (world asked_to_stop).
Proof.
  apply (shutdown_terminates asked_to_stop (world asked_to_stop)).
  - apply world_reached. vm_compute. reflexivity.
  - vm_compute. reflexivity.
Defined.

Lemma shutdown_never_stuck_witness :
  (∃ e w', movable e = true ∧ step e (world asked_to_stop) w')
  ∨ ∃ d, d ∈ left_drivers (drain (world asked_to_stop))
      ∧ d ∉ done_drivers (pool (world asked_to_stop)).
Proof.
  apply (shutdown_never_stuck asked_to_stop (world asked_to_stop)).
  - apply world_reached. vm_compute. reflexivity.
  - vm_compute. discriminate.
  - vm_compute. reflexivity.
  - vm_compute. reflexivity.
Defined.

Lemma woken_request_never_dials_witness :
  pool (world woken) = pool (world woken) ∧
  match state (PoolOps.slot 0 (pool (world woken))) with
  | Ready h => PReleasing (OHandle 7) = PReleasing (OHandle h)
  | Failed e => PReleasing (OHandle 7) = PReleasing (OError (PoolError.from_shared e))
  | Dialing => PReleasing (OHandle 7)
      = PWaiting example_org 0 (settled (PoolOps.slot 0 (pool (world woken))))
  | Idle => False
  end.
Proof.
  refine (woken_request_never_dials woken (world woken) 1 example_org 0 (pool (world woken))
    (PReleasing (OHandle 7)) _ _ _ _).
  - repeat constructor.
  - apply world_reached. vm_compute. reflexivity.
  - vm_compute. reflexivity.
  - vm_compute. reflexivity.
Defined.
