(* ===== verification/HttpCrate.v ===== *)
(** * The [http] crate, as the HTTP layers use it

    Methods, status codes, URIs, field names and values and header maps belong to a
    third-party crate: they are the class [Http], its documented behaviour the class
    [HttpLaws], and [HttpToy] a concrete instance of both.  What the crates themselves do
    with octets on the way there is modelled in H3Head and H2Head. *)

From Stdlib Require Import ZArith Lia Strings.Byte.
From stdpp Require Import base list strings sorting.
From S2P Require Import Prelude.

(** [eq_ignore_ascii_case] of byte slices. *)
Definition to_ascii_lowercase (b : byte) : byte :=
  if is_ascii_uppercase b then Zb (bZ b + 0x20) else b.

Definition eq_ignore_ascii_case (a b : bytes) : bool :=
  bool_decide (to_ascii_lowercase <$> a = to_ascii_lowercase <$> b).

(** [Box<dyn Error + Send + Sync>]: an error of a transport or of a caller's body. *)
Class BoxedErrors := { BoxedError : Type }.

(** A panic is [None]. *)
Class Http := {
  Method : Type;
  Method_eq_dec :: EqDecision Method;
  CONNECT : Method;
  method_as_str : Method → bytes;
  method_from_bytes : bytes → option Method;
  StatusCode : Type;
  status_as_str : StatusCode → bytes;
  status_from_bytes : bytes → option StatusCode;
  is_informational : StatusCode → bool;
  Authority : Type;
  authority_as_str : Authority → bytes;
  authority_try_from : bytes → option Authority;
  PathAndQuery : Type;
  paq_as_str : PathAndQuery → bytes;
  paq_path : PathAndQuery → bytes;
  paq_try_from : bytes → option PathAndQuery;
  Uri : Type;
  uri_scheme_str : Uri → option bytes;
  uri_authority : Uri → option Authority;
  uri_path_and_query : Uri → option PathAndQuery;
  (** [Uri::builder().scheme(..).authority(..).path_and_query(..).build()]. *)
  uri_build : bytes → Authority → PathAndQuery → option Uri;
  HeaderName : Type;
  HeaderName_eq_dec :: EqDecision HeaderName;
  HOST : HeaderName;
  name_as_str : HeaderName → bytes;
  name_from_bytes : bytes → option HeaderName;
  HeaderValue : Type;
  value_as_bytes : HeaderValue → bytes;
  value_from_bytes : bytes → option HeaderValue;
  HeaderMap : Type;
  map_empty : HeaderMap;
  map_with_capacity : nat → option HeaderMap;
  (** In the map's order: an entry per value, the values of one name in the order they were
      appended. *)
  map_iter : HeaderMap → list (HeaderName * HeaderValue);
  map_get : HeaderMap → HeaderName → option HeaderValue;
  (** [HeaderMap::try_append]; [append] panics where this fails. *)
  map_try_append : HeaderMap → HeaderName → HeaderValue → option HeaderMap;
  (** How many fields are documented to fit. *)
  map_max_fields : nat
}.

Section Parts.
Context `{Http}.

(** [http::request::Parts] and [http::Request<()>]: version and extensions are not read. *)
Record Request := mkRequest { method : Method; uri : Uri; headers : HeaderMap }.

(** [http::response::Parts] and [http::Response<()>]. *)
Record Response := mkResponse { status : StatusCode; resp_headers : HeaderMap }.

(** The values a map has for a name, in order. *)
Definition values (m : HeaderMap) (n : HeaderName) : list HeaderValue :=
  snd <$> filter (λ nv, nv.1 = n) (map_iter m).

(** Appending a list of fields, as a builder does. *)
Definition append_all (m : option HeaderMap) (fs : list (HeaderName * HeaderValue)) :
    option HeaderMap :=
  foldl (λ m nv, let! m := m in map_try_append m nv.1 nv.2) m fs.
End Parts.

Class HttpLaws `{Http} := {
  method_round m : method_from_bytes (method_as_str m) = Some m;
  method_sound b m : method_from_bytes b = Some m → method_as_str m = b;
  status_round s : status_from_bytes (status_as_str s) = Some s;
  authority_round a : ∃ a', authority_try_from (authority_as_str a) = Some a' ∧
    authority_as_str a' = authority_as_str a;
  authority_sound b a : authority_try_from b = Some a → authority_as_str a = b;
  paq_round p : ∃ p', paq_try_from (paq_as_str p) = Some p' ∧
    paq_as_str p' = paq_as_str p ∧ paq_path p' = paq_path p;
  paq_slash : ∃ p, paq_try_from (ascii_bytes "/") = Some p ∧
    paq_as_str p = ascii_bytes "/" ∧ paq_path p = ascii_bytes "/";
  uri_build_ok s a p : s = ascii_bytes "http" ∨ s = ascii_bytes "https" →
    ∃ u, uri_build s a p = Some u ∧ uri_scheme_str u = Some s ∧
      (∃ a', uri_authority u = Some a' ∧ authority_as_str a' = authority_as_str a) ∧
      ∃ p', uri_path_and_query u = Some p' ∧ paq_as_str p' = paq_as_str p ∧
        paq_path p' = paq_path p;
  host_name : name_as_str HOST = ascii_bytes "host";
  name_round n : name_from_bytes (name_as_str n) = Some n;
  name_no_colon n : head (name_as_str n) ≠ Some (Zb 0x3a);
  name_lowercased b n : name_from_bytes b = Some n → name_as_str n = to_ascii_lowercase <$> b;
  value_round v : ∃ v', value_from_bytes (value_as_bytes v) = Some v' ∧
    value_as_bytes v' = value_as_bytes v;
  value_sound b v : value_from_bytes b = Some v → value_as_bytes v = b;
  iter_empty : map_iter map_empty = [];
  iter_with_capacity k m : map_with_capacity k = Some m → map_iter m = [];
  capacity_room k : (k ≤ map_max_fields)%nat → map_with_capacity k ≠ None;
  append_iter m n v m' : map_try_append m n v = Some m' →
    map_iter m' ≡ₚ map_iter m ++ [(n, v)];
  append_values m n v m' n' : map_try_append m n v = Some m' →
    values m' n' = values m n' ++ (if decide (n = n') then [v] else []);
  append_room m n v : (length (map_iter m) < map_max_fields)%nat → map_try_append m n v ≠ None;
  get_first m n : map_get m n = head (values m n)
}.

Section Facts.
Context `{HttpLaws}.

Lemma name_inj n n' : name_as_str n = name_as_str n' → n = n'.
Proof. intros E. pose proof (name_round n) as E'. rewrite E, name_round in E'. by simplify_eq. Qed.

Lemma name_is_host n : name_as_str n = ascii_bytes "host" ↔ n = HOST.
Proof. rewrite <-host_name. split; [apply name_inj | by intros ->]. Qed.

Lemma append_all_snoc m fs n v :
  append_all m (fs ++ [(n, v)]) =
    let! m := append_all m fs in map_try_append m n v.
Proof. unfold append_all. by rewrite foldl_app. Qed.

Lemma append_all_None fs : append_all None fs = None.
Proof. induction fs; [done | apply IHfs]. Qed.

Lemma append_all_cons m n v fs :
  append_all (Some m) ((n, v) :: fs) = append_all (map_try_append m n v) fs.
Proof. done. Qed.

Lemma append_all_iter fs : ∀ m m',
  append_all (Some m) fs = Some m' → map_iter m' ≡ₚ map_iter m ++ fs.
Proof.
  induction fs as [|[n v] fs IH]; intros m m'; rewrite ?append_all_cons.
  { intros [= ->]. by rewrite app_nil_r. }
  destruct (map_try_append m n v) as [m1|] eqn:E.
  - intros ->%IH. rewrite (append_iter _ _ _ _ E). by rewrite <-app_assoc.
  - by rewrite append_all_None.
Qed.

Lemma append_all_values fs : ∀ m m' n,
  append_all (Some m) fs = Some m' →
  values m' n = values m n ++ (snd <$> filter (λ nv, nv.1 = n) fs).
Proof.
  induction fs as [|[k v] fs IH]; intros m m' n; rewrite ?append_all_cons.
  { intros [= ->]. by rewrite app_nil_r. }
  destruct (map_try_append m k v) as [m1|] eqn:E; cbn; [|by rewrite append_all_None].
  intros Em. rewrite (IH _ _ n Em), (append_values _ _ _ _ n E).
  destruct (decide (k = n)); simplify_eq/=; by rewrite ?app_nil_r, <-?app_assoc.
Qed.

Lemma append_all_room fs : ∀ m,
  (length (map_iter m) + length fs ≤ map_max_fields)%nat →
  ∃ m', append_all (Some m) fs = Some m'.
Proof.
  induction fs as [|[n v] fs IH]; intros m Hl; rewrite ?append_all_cons; simpl in Hl; [by eauto|].
  destruct (map_try_append m n v) as [m1|] eqn:E.
  - apply IH. rewrite (append_iter _ _ _ _ E), length_app. simpl. lia.
  - exfalso. eapply (append_room m n v); [lia | done].
Qed.
End Facts.

(** ** An instance

    Octet strings checked by a boolean, maps as lists in order of appending. *)
Module HttpToy.

Definition checked (P : bytes → bool) : Type := {b : bytes | P b = true}.

Definition check (P : bytes → bool) (b : bytes) : option (checked P) :=
  match Bool.bool_dec (P b) true with left e => Some (exist _ b e) | right _ => None end.

#[export] Instance checked_eq_dec P : EqDecision (checked P).
Proof.
  intros [a p] [b q]. destruct (decide (a = b)) as [->|N].
  - left. f_equal. apply Eqdep_dec.UIP_dec, Bool.bool_dec.
  - right. by intros [= ?].
Defined.

Lemma check_round P (c : checked P) : check P (`c) = Some c.
Proof.
  destruct c as [b e]. unfold check; simpl.
  destruct (Bool.bool_dec (P b) true) as [e'|N]; [|done].
  do 2 f_equal. apply Eqdep_dec.UIP_dec, Bool.bool_dec.
Qed.

Lemma check_sound P b c : check P b = Some c → `c = b.
Proof. unfold check. by destruct (Bool.bool_dec (P b) true); intros; simplify_eq. Qed.

Definition is_token (b : byte) : bool :=
  is_ascii_lowercase b || is_ascii_uppercase b || is_ascii_digit b ||
  bool_decide (b ∈ ascii_bytes "!#$%&'*+-.^_`|~").

Definition method_ok (b : bytes) : bool := negb (bool_decide (b = [])) && forallb is_token b.

Definition status_ok (b : bytes) : bool :=
  bool_decide (length b = 3%nat) && forallb is_ascii_digit b &&
  bool_decide (head b ≠ Some (Zb 0x30)).

Definition authority_ok (b : bytes) : bool :=
  negb (bool_decide (b = [])) &&
  forallb (λ c, in_range 0x21 0x7e c && bool_decide (c ∉ ascii_bytes "/?#")) b.

Definition paq_ok (b : bytes) : bool :=
  (bool_decide (head b = Some (Zb 0x2f)) || bool_decide (b = ascii_bytes "*")) &&
  forallb (λ c, in_range 0x21 0x7e c && bool_decide (c ≠ Zb 0x23)) b.

Fixpoint before_query (b : bytes) : bytes :=
  match b with
  | [] => []
  | c :: b => if bool_decide (c = Zb 0x3f) then [] else c :: before_query b
  end.

Definition is_name_byte (b : byte) : bool :=
  is_ascii_lowercase b || is_ascii_digit b || bool_decide (b ∈ ascii_bytes "!#$%&'*+-.^_`|~").

Definition name_ok (b : bytes) : bool := negb (bool_decide (b = [])) && forallb is_name_byte b.

Definition value_ok (b : bytes) : bool :=
  forallb (λ c, (bZ c =? 9) || ((0x20 <=? bZ c) && negb (bZ c =? 0x7f))) b.

Lemma name_byte_lower b : is_name_byte b = true → to_ascii_lowercase b = b.
Proof.
  intros E. unfold to_ascii_lowercase. destruct (is_ascii_uppercase b) eqn:U; [|done].
  by destruct b; vm_compute in E, U.
Qed.

Lemma name_ok_lower b : name_ok b = true → to_ascii_lowercase <$> b = b.
Proof.
  unfold name_ok. intros [_ Hf]%andb_true_iff. induction b as [|c b IH]; [done|].
  simpl in *. apply andb_true_iff in Hf as [Hc Hb].
  f_equal; [by apply name_byte_lower | by apply IH].
Qed.

Definition CAPACITY : nat := 1000.

Record toy_uri := mkUri {
  u_scheme : bytes; u_authority : option (checked authority_ok); u_path : option (checked paq_ok)
}.

Lemma connect_ok : method_ok (ascii_bytes "CONNECT") = true.
Proof. by vm_compute. Qed.

Lemma host_ok : name_ok (ascii_bytes "host") = true.
Proof. by vm_compute. Qed.

#[export] Instance toy_http : Http := {|
  Method := checked method_ok;
  CONNECT := exist _ _ connect_ok;
  method_as_str := proj1_sig;
  method_from_bytes := check method_ok;
  StatusCode := checked status_ok;
  status_as_str := proj1_sig;
  status_from_bytes := check status_ok;
  is_informational s := bool_decide (head (`s) = Some (Zb 0x31));
  Authority := checked authority_ok;
  authority_as_str := proj1_sig;
  authority_try_from := check authority_ok;
  PathAndQuery := checked paq_ok;
  paq_as_str := proj1_sig;
  paq_path p := before_query (`p);
  paq_try_from := check paq_ok;
  Uri := toy_uri;
  uri_scheme_str u := Some (u_scheme u);
  uri_authority := u_authority;
  uri_path_and_query := u_path;
  uri_build s a p := Some (mkUri s (Some a) (Some p));
  HeaderName := checked name_ok;
  HOST := exist _ _ host_ok;
  name_as_str := proj1_sig;
  name_from_bytes b := check name_ok (to_ascii_lowercase <$> b);
  HeaderValue := checked value_ok;
  value_as_bytes := proj1_sig;
  value_from_bytes := check value_ok;
  HeaderMap := list (checked name_ok * checked value_ok);
  map_empty := [];
  map_with_capacity k := if bool_decide (k ≤ CAPACITY)%nat then Some [] else None;
  map_iter m := m;
  map_get m n := head (snd <$> filter (λ nv, nv.1 = n) m);
  map_try_append m n v :=
    if bool_decide (length m < CAPACITY)%nat then Some (m ++ [(n, v)]) else None;
  map_max_fields := CAPACITY
|}.

#[export] Instance toy_http_laws : HttpLaws.
Proof.
  split; simpl; try (intros; by eauto using check_round, check_sound).
  - intros s a p _. eexists. split; [reflexivity|]. simpl. split; [done|].
    split; eexists; (split; [reflexivity|done]).
  - intros n. rewrite (name_ok_lower _ (proj2_sig n)). apply check_round.
  - intros [n e]. simpl. destruct n as [|c n]; [done|]. intros [= ->]. by vm_compute in e.
  - by intros k m; case_bool_decide; intros; simplify_eq.
  - intros k Hk. by rewrite bool_decide_true.
  - by intros m n v m'; case_bool_decide; intros; simplify_eq.
  - intros m n v m' n'; case_bool_decide; intros; simplify_eq. unfold values. simpl.
    rewrite filter_app, fmap_app. f_equal. rewrite filter_cons, filter_nil. simpl.
    by case_decide.
  - intros m n v Hm. by rewrite bool_decide_true.
Qed.
End HttpToy.
