(* ===== verification/H3Head.v ===== *)
(** * Message heads of HTTP/3 (crates/ngnet-h3/src/http/{error,head}.rs)

    The errors of the asynchronous layer, and the translation between the [http] crate's
    heads and HTTP/3 field sections, in both directions. *)

From Stdlib Require Import ZArith Lia Strings.Byte.
From stdpp Require Import base list strings.
From S2P Require Import Prelude HttpCrate H3Types.

(** ** http/error.rs *)

Module H3HttpError.
Inductive ErrorKind := Transport | Connection | Stream | Protocol | Closed | Body | Refused.

#[export] Instance ErrorKind_eq_dec : EqDecision ErrorKind.
Proof. solve_decision. Defined.

Definition describe (k : ErrorKind) : string :=
  match k with
  | Transport => "transport" | Connection => "connection" | Stream => "stream"
  | Protocol => "protocol" | Closed => "closed" | Body => "body" | Refused => "refused"
  end.

Section Errors.
Context `{Boxes : BoxedErrors}.

(** What the box in an error holds: an error of the state machine, or another one. *)
Inductive Source := FromCore (e : H3Types.Error) | FromBox (e : BoxedError).

Record Error := mkError {
  kind : ErrorKind;
  detail : string;
  code : option Z;
  source : option Source
}.

Definition new (kind : ErrorKind) (detail : string) : Error := mkError kind detail None None.

Definition with_source (kind : ErrorKind) (detail : string) (source : Source) : Error :=
  mkError kind detail None (Some source).

Definition with_code (e : Error) (code : Z) : Error :=
  mkError (kind e) (detail e) (Some code) (source e).

Definition is_closed (e : Error) : bool := bool_decide (kind e = Closed).
Definition is_retriable (e : Error) : bool := bool_decide (kind e = Refused).

Definition from_io (e : BoxedError) : Error :=
  with_source Transport "the QUIC backend failed" (FromBox e).

Definition from_core `{Nghttp3Codes} (e : H3Types.Error) : Error :=
  let k := if H3Error.is_fatal e then Connection else Stream in
  let err := with_source k "the HTTP/3 state machine failed" (FromCore e) in
  mkError (kind err) (detail err) (H3Error.app_error_code e) (source err).
End Errors.
End H3HttpError.

(** ** http/head.rs *)

(** A section as it travels: names and values in order. *)
Abbreviation Fields := (list (bytes * bytes)).

Module H3Head.

Definition FORBIDDEN : list bytes :=
  ascii_bytes <$> ["connection"; "keep-alive"; "proxy-connection"; "transfer-encoding"; "upgrade"].

Definition te_is_permitted (value : bytes) : bool :=
  eq_ignore_ascii_case value (ascii_bytes "trailers").

Definition scheme_is_supported (scheme : bytes) : bool :=
  bool_decide (scheme = ascii_bytes "http") || bool_decide (scheme = ascii_bytes "https").

Definition is_pseudo (name : bytes) : bool := bool_decide (head name = Some (Zb 0x3a)).

Section Heads.
Context `{Boxes : BoxedErrors} `{Crate : Http}.

Abbreviation Result A := (result A H3HttpError.Error).

Definition protocol (detail : string) : H3HttpError.Error :=
  H3HttpError.new H3HttpError.Protocol detail.

(** [OwnedFields::views]. *)
Fixpoint views (fields : Fields) : Result (list Header.Header) :=
  match fields with
  | [] => Ok []
  | (name, value) :: fields =>
      let? h := map_err (λ e, H3HttpError.with_source H3HttpError.Protocol
                           "this head is not a valid HTTP/3 field section"
                           (H3HttpError.FromCore e)) (Header.new name value) in
      let? hs := views fields in
      Ok (h :: hs)
  end.

(** The loop of [request_fields] over the header map. *)
Fixpoint request_regular (entries : list (HeaderName * HeaderValue)) : Result Fields :=
  match entries with
  | [] => Ok []
  | (n, v) :: entries =>
      let name := name_as_str n in
      if decide (name = ascii_bytes "host") then request_regular entries
      else
        let? _ :=
          if decide (name = ascii_bytes "te") then
            if te_is_permitted (value_as_bytes v) then Ok ()
            else Err (protocol "HTTP/3 permits `te` only with the value `trailers`")
          else if decide (name ∈ FORBIDDEN) then
            Err (protocol "this field is connection-specific and HTTP/3 forbids it")
          else Ok () in
        let? rest := request_regular entries in
        Ok ((name, value_as_bytes v) :: rest)
  end.

(** The authority a request names: its URI's, or its [host] field. *)
Definition request_authority (parts : Request) : option bytes :=
  match uri_authority (uri parts) with
  | Some authority => Some (authority_as_str authority)
  | None => value_as_bytes <$> map_get (headers parts) HOST
  end.

Definition request_scheme (parts : Request) : bytes :=
  default (ascii_bytes "https") (uri_scheme_str (uri parts)).

Definition request_path (parts : Request) : bytes :=
  match uri_path_and_query (uri parts) with
  | Some p => paq_as_str p
  | None => ascii_bytes "/"
  end.

Definition request_fields (parts : Request) : Result Fields :=
  if decide (method parts = CONNECT) then
    Err (protocol "CONNECT is not supported: this crate speaks HTTP/3 request/response only")
  else if negb (scheme_is_supported (request_scheme parts)) then
    Err (protocol "a request scheme must be http or https: this crate carries no others")
  else
    match request_authority parts with
    | None => Err (protocol "a request needs an authority: set one on the URI, or send a host field")
    | Some authority =>
        let? rest := request_regular (map_iter (headers parts)) in
        let fields :=
          [(ascii_bytes ":method", method_as_str (method parts));
           (ascii_bytes ":scheme", request_scheme parts);
           (ascii_bytes ":authority", authority);
           (ascii_bytes ":path", request_path parts)] ++ rest in
        let? _ := views fields in
        Ok fields
    end.

(** The loop of [response_fields]. *)
Fixpoint response_regular (entries : list (HeaderName * HeaderValue)) : Result Fields :=
  match entries with
  | [] => Ok []
  | (n, v) :: entries =>
      let name := name_as_str n in
      if decide (name = ascii_bytes "te") then
        Err (protocol "HTTP/3 forbids `te` in a response")
      else if decide (name ∈ FORBIDDEN) then
        Err (protocol "this field is connection-specific and HTTP/3 forbids it")
      else
        let? rest := response_regular entries in
        Ok ((name, value_as_bytes v) :: rest)
  end.

Definition response_fields (parts : Response) : Result Fields :=
  let? rest := response_regular (map_iter (resp_headers parts)) in
  let fields := (ascii_bytes ":status", status_as_str (status parts)) :: rest in
  let? _ := views fields in
  Ok fields.

(** What [request_head] has gathered; a builder that failed is [None]. *)
Record Scan := mkScan {
  builder : option HeaderMap;
  s_method : option bytes;
  s_scheme : option bytes;
  s_authority : option bytes;
  s_path : option bytes;
  s_host : option bytes;
  seen_field : bool
}.

Definition scan_new : Scan := mkScan (Some map_empty) None None None None None false.

(** A pseudo-header's slot, and the scan with the slot filled. *)
Definition pseudo_slot (name : bytes) (s : Scan) : Result (option bytes * (bytes → Scan)) :=
  let 'mkScan b m sc a p h seen := s in
  if decide (name = ascii_bytes ":method") then
    Ok (m, λ v, mkScan b (Some v) sc a p h seen)
  else if decide (name = ascii_bytes ":scheme") then
    Ok (sc, λ v, mkScan b m (Some v) a p h seen)
  else if decide (name = ascii_bytes ":authority") then
    Ok (a, λ v, mkScan b m sc (Some v) p h seen)
  else if decide (name = ascii_bytes ":path") then
    Ok (p, λ v, mkScan b m sc a (Some v) h seen)
  else if decide (name = ascii_bytes ":protocol") then
    Err (protocol "extended CONNECT is not supported: this crate speaks HTTP/3 request/response only")
  else Err (protocol "the peer sent a pseudo-header HTTP/3 does not define").

(** [builder.header(name, value)]. *)
Definition builder_header (b : option HeaderMap) (n : HeaderName) (v : HeaderValue) :
    option HeaderMap :=
  let! m := b in map_try_append m n v.

(** One turn of the loop of [request_head]. *)
Definition request_field (s : Scan) (field : bytes * bytes) : Result Scan :=
  let '(name, value) := field in
  if is_pseudo name then
    if seen_field s then
      Err (protocol "a request must send its pseudo-headers before any other field")
    else
      let? (slot, fill) := pseudo_slot name s in
      match slot with
      | Some _ => Err (protocol "a request carries each pseudo-header at most once")
      | None => Ok (fill value)
      end
  else
    let 'mkScan b m sc a p h _ := s in
    if eq_ignore_ascii_case name (ascii_bytes "host") then
      Ok (mkScan b m sc a p (Some value) true)
    else
      match name_from_bytes name with
      | None => Err (protocol "the peer sent a malformed field name")
      | Some n =>
          let? _ :=
            if decide (name_as_str n = ascii_bytes "te") then
              if te_is_permitted value then Ok ()
              else Err (protocol "the peer sent a `te` field with a value HTTP/3 does not permit")
            else if decide (name_as_str n ∈ FORBIDDEN) then
              Err (protocol "the peer sent a connection-specific field HTTP/3 forbids")
            else Ok () in
          match value_from_bytes value with
          | None => Err (protocol "the peer sent a malformed field value")
          | Some v => Ok (mkScan (builder_header b n v) m sc a p h true)
          end
      end.

Fixpoint request_scan (s : Scan) (fields : Fields) : Result Scan :=
  match fields with
  | [] => Ok s
  | f :: fields => let? s := request_field s f in request_scan s fields
  end.

Definition ok_or {A} (o : option A) (detail : string) : Result A :=
  match o with Some a => Ok a | None => Err (protocol detail) end.

(** Which authority a section names. *)
Definition settle_authority (authority host : option bytes) : Result bytes :=
  match authority, host with
  | Some a, Some h =>
      if decide (a ≠ h)
      then Err (protocol "the peer sent a host field that disagrees with :authority")
      else Ok a
  | Some a, None => Ok a
  | None, Some h =>
      if decide (h ≠ []) then Ok h
      else Err (protocol "a request must name its authority, as :authority or as a host field")
  | None, None =>
      Err (protocol "a request must name its authority, as :authority or as a host field")
  end.

Definition request_head (fields : Fields) : Result Request :=
  let? s := request_scan scan_new fields in
  let? m := ok_or (s_method s) "a request must carry :method" in
  let? path := ok_or (s_path s) "a request must carry :path" in
  let? authority := settle_authority (s_authority s) (s_host s) in
  let scheme := default (ascii_bytes "https") (s_scheme s) in
  if negb (scheme_is_supported scheme) then
    Err (protocol "the peer sent a :scheme this crate does not carry")
  else
    let? m := ok_or (method_from_bytes m) "the peer sent a method that is not a token" in
    if decide (m = CONNECT) then
      Err (protocol "CONNECT is not supported: this crate speaks HTTP/3 request/response only")
    else
      let? authority := ok_or (authority_try_from authority)
        "the peer sent an :authority that is not a valid authority" in
      if decide (Zb 0x40 ∈ authority_as_str authority) then
        Err (protocol "userinfo is forbidden in :authority")
      else
        let? p := ok_or (paq_try_from path)
          "the peer sent a :path that is not a valid request target" in
        if decide (paq_path p = ascii_bytes "*") then
          Err (protocol "the asterisk request target is not supported: this crate speaks HTTP/3 request/response only")
        else
          let? u := ok_or (uri_build scheme authority p)
            "the peer sent a request target that is not a URI" in
          let? hs := ok_or (builder s)
            "the peer sent a request head that could not be assembled" in
          Ok (mkRequest m u hs).

(** One turn of the loop of [response_head], on the builder and the status. *)
Definition response_field (s : option HeaderMap * option StatusCode) (field : bytes * bytes) :
    Result (option HeaderMap * option StatusCode) :=
  let '(b, st) := s in
  let '(name, value) := field in
  if is_pseudo name then
    if decide (name ≠ ascii_bytes ":status") then
      Err (protocol "a response carries no pseudo-header but :status")
    else if decide (st ≠ None) then
      Err (protocol "a response carries exactly one :status")
    else
      let? st := ok_or (status_from_bytes value) "the peer sent a malformed :status" in
      Ok (b, Some st)
  else
    match st with
    | None => Err (protocol "a response must send :status before any other field")
    | Some st =>
        let? n := ok_or (name_from_bytes name) "the peer sent a malformed field name" in
        if decide (name_as_str n = ascii_bytes "te") then
          Err (protocol "the peer sent `te` in a response, which HTTP/3 forbids")
        else if decide (name_as_str n ∈ FORBIDDEN) then
          Err (protocol "the peer sent a connection-specific field HTTP/3 forbids")
        else
          let? v := ok_or (value_from_bytes value) "the peer sent a malformed field value" in
          Ok (builder_header b n v, Some st)
    end.

Fixpoint response_scan (s : option HeaderMap * option StatusCode) (fields : Fields) :
    Result (option HeaderMap * option StatusCode) :=
  match fields with
  | [] => Ok s
  | f :: fields => let? s := response_field s f in response_scan s fields
  end.

Definition response_head (fields : Fields) : Result Response :=
  let? (b, st) := response_scan (Some map_empty, None) fields in
  let? st := ok_or st "a response must carry :status" in
  let? hs := ok_or b "the peer sent a response head that could not be assembled" in
  Ok (mkResponse st hs).

Definition is_informational (s : StatusCode) : bool := HttpCrate.is_informational s.

(** The loop of [trailer_fields]. *)
Fixpoint trailer_regular (entries : list (HeaderName * HeaderValue)) : Result Fields :=
  match entries with
  | [] => Ok []
  | (n, v) :: entries =>
      let name := name_as_str n in
      if decide (name ∈ FORBIDDEN) then
        Err (protocol "this field is connection-specific and HTTP/3 forbids it in trailers")
      else
        let? rest := trailer_regular entries in
        Ok ((name, value_as_bytes v) :: rest)
  end.

Definition trailer_fields (trailers : HeaderMap) : Result Fields :=
  let? fields := trailer_regular (map_iter trailers) in
  let? _ := views fields in
  Ok fields.

(** The loop of [trailers]; [None] is the panic of a map that is full. *)
Fixpoint trailers_loop (map : HeaderMap) (fields : Fields) : option (Result HeaderMap) :=
  match fields with
  | [] => Some (Ok map)
  | (name, value) :: fields =>
      if is_pseudo name then
        Some (Err (protocol "a trailing field section carries no pseudo-headers"))
      else
        match name_from_bytes name with
        | None => Some (Err (protocol "the peer sent a malformed trailer name"))
        | Some n =>
            if decide (name_as_str n ∈ FORBIDDEN) then
              Some (Err (protocol "the peer sent a connection-specific field HTTP/3 forbids in trailers"))
            else
              match value_from_bytes value with
              | None => Some (Err (protocol "the peer sent a malformed trailer value"))
              | Some v => let! map := map_try_append map n v in trailers_loop map fields
              end
        end
  end.

Definition trailers (fields : Fields) : option (Result HeaderMap) :=
  let! map := map_with_capacity (length fields) in trailers_loop map fields.
End Heads.
End H3Head.
