(* ===== verification/H2Head.v ===== *)
(** * Message heads of HTTP/2 (crates/ngnet-h2/src/http/{error,head}.rs)

    The errors of the asynchronous layer, and the translation between the [http] crate's
    heads and HTTP/2 header blocks, in both directions. *)

From Stdlib Require Import ZArith Lia Strings.Byte.
From stdpp Require Import base list strings.
From S2P Require Import Prelude HttpCrate H2Types.

(** ** http/error.rs *)

Module H2HttpError.
Inductive ErrorKind := Transport | Connection | Stream | Protocol | Closed | Body | Refused.

#[export] Instance ErrorKind_eq_dec : EqDecision ErrorKind.
Proof. solve_decision. Defined.

Definition describe (k : ErrorKind) : string :=
  match k with
  | Transport => "transport" | Connection => "connection" | Stream => "stream"
  | Protocol => "protocol" | Closed => "closed" | Body => "body" | Refused => "refused"
  end.

Section Errors.
Context `{Boxes : BoxedErrors}.

(** What the box in an error holds: an error of the session, or another one. *)
Inductive Source := FromCore (e : H2Types.Error) | FromBox (e : BoxedError).

Record Error := mkError {
  kind : ErrorKind;
  detail : string;
  reason : option Z;
  source : option Source
}.

Definition new (kind : ErrorKind) (detail : string) : Error := mkError kind detail None None.

Definition with_source (kind : ErrorKind) (detail : string) (source : Source) : Error :=
  mkError kind detail None (Some source).

Definition because (e : Error) (reason : Z) : Error :=
  mkError (kind e) (detail e) (Some reason) (source e).

Definition closed : Error :=
  new Closed "the connection was shut down before this exchange completed".

Definition refused : Error := new Refused "the peer went away before it began this exchange".

Definition is_closed (e : Error) : bool := bool_decide (kind e = Closed).
Definition is_retriable (e : Error) : bool := bool_decide (kind e = Refused).

Definition from_io (e : BoxedError) : Error :=
  with_source Transport "the transport failed" (FromBox e).

Definition from_core (e : H2Types.Error) : Error :=
  with_source Connection "the HTTP/2 session failed" (FromCore e).
End Errors.
End H2HttpError.

(** ** http/head.rs *)

(** A block as it travels: names and values in order. *)
Abbreviation Fields := (list (bytes * bytes)).

Module H2Head.

Definition FORBIDDEN : list bytes :=
  ascii_bytes <$> ["connection"; "keep-alive"; "proxy-connection"; "transfer-encoding"; "upgrade"].

Definition is_pseudo (name : bytes) : bool := bool_decide (head name = Some (Zb 0x3a)).

(** [OwnedHeaders::views]. *)
Definition views (fields : Fields) : list Header.Header :=
  (λ f, Header.from_bytes f.1 f.2) <$> fields.

Section Heads.
Context `{Boxes : BoxedErrors} `{Crate : Http}.

Abbreviation Result A := (result A H2HttpError.Error).

Definition protocol (detail : string) : H2HttpError.Error :=
  H2HttpError.new H2HttpError.Protocol detail.

(** [header::validate] on a head's fields, with the error the head's encoder gives. *)
Definition validated (fields : Fields) (detail : string) : Result unit :=
  map_err (λ e, H2HttpError.with_source H2HttpError.Protocol detail (H2HttpError.FromCore e))
    (Header.validate (views fields)).

(** The loop of [request_headers] over the header map. *)
Fixpoint request_regular (entries : list (HeaderName * HeaderValue)) : Result Fields :=
  match entries with
  | [] => Ok []
  | (n, v) :: entries =>
      let name := name_as_str n in
      if decide (name = ascii_bytes "host") then request_regular entries
      else if decide (name ∈ FORBIDDEN) then
        Err (protocol "this field is connection-specific and HTTP/2 forbids it")
      else
        let? rest := request_regular entries in
        Ok ((name, value_as_bytes v) :: rest)
  end.

(** The authority a request names: its URI's, or its [host] field. *)
Definition request_authority (parts : HttpCrate.Request) : option bytes :=
  match uri_authority (uri parts) with
  | Some authority => Some (authority_as_str authority)
  | None => value_as_bytes <$> map_get (headers parts) HOST
  end.

Definition request_path (parts : HttpCrate.Request) : bytes :=
  match uri_path_and_query (uri parts) with
  | Some p => paq_as_str p
  | None => ascii_bytes "/"
  end.

Definition request_headers (parts : HttpCrate.Request) : Result Fields :=
  if decide (method parts = CONNECT) then
    Err (protocol "CONNECT is not supported: this crate speaks h2c request/response only")
  else
    match request_authority parts with
    | None => Err (protocol "a request needs an authority: set one on the URI, or send a host field")
    | Some authority =>
        let? rest := request_regular (map_iter (headers parts)) in
        let fields :=
          [(ascii_bytes ":method", method_as_str (method parts));
           (ascii_bytes ":scheme", default (ascii_bytes "http") (uri_scheme_str (uri parts)));
           (ascii_bytes ":authority", authority);
           (ascii_bytes ":path", request_path parts)] ++ rest in
        let? _ := validated fields "the request head is not a valid HTTP/2 header set" in
        Ok fields
    end.

(** The loop of [response_headers] and of [trailer_fields], which differ in the refusal. *)
Fixpoint plain_fields (refusal : string) (entries : list (HeaderName * HeaderValue)) :
    Result Fields :=
  match entries with
  | [] => Ok []
  | (n, v) :: entries =>
      let name := name_as_str n in
      if decide (name ∈ FORBIDDEN) then Err (protocol refusal)
      else
        let? rest := plain_fields refusal entries in
        Ok ((name, value_as_bytes v) :: rest)
  end.

Definition response_headers (parts : HttpCrate.Response) : Result Fields :=
  let? rest := plain_fields "this field is connection-specific and HTTP/2 forbids it"
                 (map_iter (resp_headers parts)) in
  let fields := (ascii_bytes ":status", status_as_str (status parts)) :: rest in
  let? _ := validated fields "the response head is not a valid HTTP/2 header set" in
  Ok fields.

Definition trailer_fields (trailers : HeaderMap) : Result Fields :=
  plain_fields "this field is connection-specific and HTTP/2 forbids it in trailers"
    (map_iter trailers).

(** What [request_head] has gathered; a builder that failed is [None]. *)
Record Scan := mkScan {
  builder : option HeaderMap;
  s_method : option bytes;
  s_scheme : option bytes;
  s_authority : option bytes;
  s_path : option bytes;
  s_host : option bytes;
  seen_field : bool
}.

Definition scan_new : Scan := mkScan (Some map_empty) None None None None None false.

(** A pseudo-header's slot, and the scan with the slot filled. *)
Definition pseudo_slot (name : bytes) (s : Scan) : Result (option bytes * (bytes → Scan)) :=
  let 'mkScan b m sc a p h seen := s in
  if decide (name = ascii_bytes ":method") then
    Ok (m, λ v, mkScan b (Some v) sc a p h seen)
  else if decide (name = ascii_bytes ":scheme") then
    Ok (sc, λ v, mkScan b m (Some v) a p h seen)
  else if decide (name = ascii_bytes ":authority") then
    Ok (a, λ v, mkScan b m sc (Some v) p h seen)
  else if decide (name = ascii_bytes ":path") then
    Ok (p, λ v, mkScan b m sc a (Some v) h seen)
  else if decide (name = ascii_bytes ":protocol") then
    Err (protocol "extended CONNECT is not supported: this crate speaks h2c request/response only")
  else Err (protocol "the peer sent a pseudo-header HTTP/2 does not define").

(** [builder.header(name, value)]. *)
Definition builder_header (b : option HeaderMap) (n : HeaderName) (v : HeaderValue) :
    option HeaderMap :=
  let! m := b in map_try_append m n v.

(** One turn of the loop of [request_head]. *)
Definition request_field (s : Scan) (field : bytes * bytes) : Result Scan :=
  let '(name, value) := field in
  if is_pseudo name then
    if seen_field s then
      Err (protocol "a request must send its pseudo-headers before any other field")
    else
      let? (slot, fill) := pseudo_slot name s in
      match slot with
      | Some _ => Err (protocol "a request carries each pseudo-header at most once")
      | None => Ok (fill value)
      end
  else
    let 'mkScan b m sc a p h _ := s in
    if eq_ignore_ascii_case name (ascii_bytes "host") then
      Ok (mkScan b m sc a p (Some value) true)
    else
      match name_from_bytes name with
      | None => Err (protocol "the peer sent a malformed field name")
      | Some n =>
          match value_from_bytes value with
          | None => Err (protocol "the peer sent a malformed field value")
          | Some v => Ok (mkScan (builder_header b n v) m sc a p h true)
          end
      end.

Fixpoint request_scan (s : Scan) (fields : Fields) : Result Scan :=
  match fields with
  | [] => Ok s
  | f :: fields => let? s := request_field s f in request_scan s fields
  end.

Definition ok_or {A} (o : option A) (detail : string) : Result A :=
  match o with Some a => Ok a | None => Err (protocol detail) end.

Definition request_head (fields : Fields) : Result HttpCrate.Request :=
  let? s := request_scan scan_new fields in
  let? m := ok_or (s_method s) "a request must carry :method" in
  let? path := ok_or (s_path s) "a request must carry :path" in
  let? authority := ok_or (s_authority s) "a request must carry :authority" in
  if bool_decide (s_host s ≠ None) && bool_decide (s_host s ≠ Some authority) then
    Err (protocol "the peer sent a host field that disagrees with :authority")
  else
    let scheme := default (ascii_bytes "http") (s_scheme s) in
    if decide (scheme ≠ ascii_bytes "http") then
      Err (protocol "this crate speaks cleartext HTTP/2 only")
    else
      let? m := ok_or (method_from_bytes m) "the peer sent a method that is not a token" in
      if decide (m = CONNECT) then
        Err (protocol "CONNECT is not supported: this crate speaks h2c request/response only")
      else
        let? authority := ok_or (authority_try_from authority)
          "the peer sent an :authority that is not a valid authority" in
        if decide (Zb 0x40 ∈ authority_as_str authority) then
          Err (protocol "RFC 9113 §8.3.1 forbids userinfo in :authority")
        else
          let? p := ok_or (paq_try_from path)
            "the peer sent a :path that is not a valid request target" in
          if decide (paq_path p = ascii_bytes "*") then
            Err (protocol "the asterisk request target is not supported: this crate speaks h2c request/response only")
          else
            let? u := ok_or (uri_build scheme authority p)
              "the peer sent a request target that is not a URI" in
            let? hs := ok_or (builder s)
              "the peer sent a request head that could not be assembled" in
            Ok (mkRequest m u hs).

(** One turn of the loop of [response_head], on the builder and the status. *)
Definition response_field (s : option HeaderMap * option StatusCode) (field : bytes * bytes) :
    Result (option HeaderMap * option StatusCode) :=
  let '(b, st) := s in
  let '(name, value) := field in
  if is_pseudo name then
    if decide (name ≠ ascii_bytes ":status") then
      Err (protocol "a response carries no pseudo-header but :status")
    else if decide (st ≠ None) then
      Err (protocol "a response carries exactly one :status")
    else
      let? st := ok_or (status_from_bytes value) "the peer sent a malformed :status" in
      Ok (b, Some st)
  else
    match st with
    | None => Err (protocol "a response must send :status before any other field")
    | Some st =>
        let? n := ok_or (name_from_bytes name) "the peer sent a malformed field name" in
        let? v := ok_or (value_from_bytes value) "the peer sent a malformed field value" in
        Ok (builder_header b n v, Some st)
    end.

Fixpoint response_scan (s : option HeaderMap * option StatusCode) (fields : Fields) :
    Result (option HeaderMap * option StatusCode) :=
  match fields with
  | [] => Ok s
  | f :: fields => let? s := response_field s f in response_scan s fields
  end.

Definition response_head (fields : Fields) : Result HttpCrate.Response :=
  let? (b, st) := response_scan (Some map_empty, None) fields in
  let? st := ok_or st "a response must carry :status" in
  let? hs := ok_or b "the peer sent a response head that could not be assembled" in
  Ok (mkResponse st hs).

(** The loop of [trailers]; [None] is the panic of a map that is full. *)
Fixpoint trailers_loop (map : HeaderMap) (fields : Fields) : option (Result HeaderMap) :=
  match fields with
  | [] => Some (Ok map)
  | (name, value) :: fields =>
      if is_pseudo name then
        Some (Err (protocol "a trailing header block carries no pseudo-headers"))
      else
        match name_from_bytes name with
        | None => Some (Err (protocol "the peer sent a malformed trailer name"))
        | Some n =>
            match value_from_bytes value with
            | None => Some (Err (protocol "the peer sent a malformed trailer value"))
            | Some v => let! map := map_try_append map n v in trailers_loop map fields
            end
        end
  end.

Definition trailers (fields : Fields) : option (Result HeaderMap) :=
  let! map := map_with_capacity (length fields) in trailers_loop map fields.
End Heads.
End H2Head.
