(* ===== verification/QmuxLower.v ===== *)
(** * The QMux connection, as what is built on it sees it

    The adapters between QMux and HTTP/3 own a [ngnet_qmux::io::Connection] and call its
    operations: [QmuxLower] is that interface and [LowerLaws] is what the adapters rely on,
    both provided by the connection modelled in QmuxIo (see QmuxLowerFacts).  [Recorded] is a
    record of what the connection delivered, credited and wrote, and [recording] keeps that
    record beside any connection. *)

From Stdlib Require Import ZArith Lia Strings.Byte.
From stdpp Require Import base list gmap strings.
From S2P Require Import Prelude Varint CloseCodec QmuxError QmuxTypes QmuxConn QmuxWrite RecordFramer QmuxScheduling QmuxIo.
Import Stream.

(** [None] is a panic of the connection.  [l_woken] are the wakers it has woken, oldest
    first.  [l_application] is [CloseReason::application], which the C library fills in. *)
Class QmuxLower `{Wakers} := {
  lower : Type;
  l_role : lower → Role;
  l_application : Z → bytes → CloseReason;
  l_queued_output : lower → nat;
  l_queued_events : lower → nat;
  l_try_next_event : lower → lower * option Event.Event;
  l_poll_next_event : Waker → lower → option (lower * result (Poll Event.Event) Io.Error);
  l_poll_pump : Waker → lower → option (lower * result (Poll unit) Io.Error);
  l_poll_close : Waker → CloseReason → lower → option (lower * result (Poll unit) Io.Error);
  l_try_open : OpenKind → lower → option (lower * result StreamOpen Io.Error);
  l_shutdown_stream : StreamId → Shutdown → Z → lower → option (lower * result unit Io.Error);
  l_extend_stream_credit : StreamId → Z → lower → option (lower * result unit Io.Error);
  l_extend_connection_credit : Z → lower → option (lower * result unit Io.Error);
  l_try_write_stream : StreamId → bytes → bool → lower →
    option (lower * result StreamWrite Io.Error);
  l_try_write_stream_vectored : StreamId → list bytes → bool → lower →
    option (lower * result StreamWrite Io.Error);
  l_poll_pump_buffered : Waker → lower → option (lower * result (Poll unit) Io.Error);
  l_poll_finish : Waker → lower → option (lower * result (Poll unit) Io.Error);
  (** The clock's reading, in nanoseconds. *)
  l_now : lower → Z;
  l_woken : lower → list Waker
}.

(** ** What is relied on *)

(** What it promises: from a good state no call panics, and the ids it gives out are this
    side's and new. *)
Class LowerLaws `{QmuxLower} := {
  lower_ok : Role → lower → Prop;
  given_out : lower → gset Z;
  stays (r : Role) (l l' : lower) : Prop := lower_ok r l' ∧ given_out l ⊆ given_out l';
  ok_role r l : lower_ok r l → l_role l = r;
  ok_queued l l' e : l_try_next_event l = (l', Some e) → (l_queued_events l' < l_queued_events l)%nat;
  ok_try_next r l : lower_ok r l → stays r l (l_try_next_event l).1;
  ok_poll_next r l cx : lower_ok r l → ∃ l' a, l_poll_next_event cx l = Some (l', a) ∧ stays r l l';
  ok_pump r l cx : lower_ok r l → ∃ l' a, l_poll_pump cx l = Some (l', a) ∧ stays r l l';
  ok_close r l cx reason :
    lower_ok r l → ∃ l' a, l_poll_close cx reason l = Some (l', a) ∧ stays r l l';
  ok_open r l kind :
    lower_ok r l → ∃ l' a, l_try_open kind l = Some (l', a) ∧ stays r l l' ∧
      ∀ s, a = Ok (SOpened s) →
        ¬ (get s ∈ given_out l) ∧ get s ∈ given_out l' ∧
        initiator s =
          match r with QmuxTypes.Client => Stream.Client | QmuxTypes.Server => Stream.Server end;
  ok_shutdown r l s half code :
    lower_ok r l → ∃ l' a, l_shutdown_stream s half code l = Some (l', a) ∧ stays r l l';
  ok_stream_credit r l s n :
    lower_ok r l → ∃ l' a, l_extend_stream_credit s n l = Some (l', a) ∧ stays r l l';
  ok_connection_credit r l n :
    lower_ok r l → ∃ l' a, l_extend_connection_credit n l = Some (l', a) ∧ stays r l l';
  ok_write r l s bs fin :
    lower_ok r l → ∃ l' a, l_try_write_stream s bs fin l = Some (l', a) ∧ stays r l l';
  ok_write_vectored r l s slices fin :
    lower_ok r l →
    ∃ l' a, l_try_write_stream_vectored s slices fin l = Some (l', a) ∧ stays r l l';
  ok_pump_buffered r l cx :
    lower_ok r l → ∃ l' a, l_poll_pump_buffered cx l = Some (l', a) ∧ stays r l l';
  ok_finish r l cx : lower_ok r l → ∃ l' a, l_poll_finish cx l = Some (l', a) ∧ stays r l l'
}.

(** What was delivered, credited, refused credit and written. *)
Inductive LowerCall :=
| Delivered (event : Event.Event)
| Credited (n : Z)
| CreditedStream (s : StreamId) (n : Z)
| RefusedCredit (s : option StreamId) (n : Z)
| Wrote (s : StreamId) (bs : bytes) (fin : bool).

Definition record_event (r : result (Poll Event.Event) Io.Error) : list LowerCall :=
  match r with Ok (Ready e) => [Delivered e] | _ => [] end.
Definition record_queued (r : option Event.Event) : list LowerCall :=
  match r with Some e => [Delivered e] | None => [] end.
Definition record_credit (n : Z) (r : result unit Io.Error) : list LowerCall :=
  match r with Ok _ => [Credited n] | Err _ => [RefusedCredit None n] end.
Definition record_stream_credit (s : StreamId) (n : Z) (r : result unit Io.Error)
  : list LowerCall :=
  match r with Ok _ => [CreditedStream s n] | Err _ => [RefusedCredit (Some s) n] end.
Definition record_write (s : StreamId) (bs : bytes) (fin : bool) (r : result StreamWrite Io.Error)
  : list LowerCall :=
  match r with Ok (WAccepted n) => [Wrote s (take n bs) fin] | _ => [] end.

(** A connection that keeps that record. *)
Class Recorded `{QmuxLower} := {
  calls : lower → list LowerCall;
  rec_try_next l l' e : l_try_next_event l = (l', e) → calls l' = calls l ++ record_queued e;
  rec_poll_next cx l l' a :
    l_poll_next_event cx l = Some (l', a) → calls l' = calls l ++ record_event a;
  rec_pump cx l l' a : l_poll_pump cx l = Some (l', a) → calls l' = calls l;
  rec_close cx reason l l' a : l_poll_close cx reason l = Some (l', a) → calls l' = calls l;
  rec_open kind l l' a : l_try_open kind l = Some (l', a) → calls l' = calls l;
  rec_shutdown s half code l l' a :
    l_shutdown_stream s half code l = Some (l', a) → calls l' = calls l;
  rec_stream_credit s n l l' a :
    l_extend_stream_credit s n l = Some (l', a) →
    calls l' = calls l ++ record_stream_credit s n a;
  rec_connection_credit n l l' a :
    l_extend_connection_credit n l = Some (l', a) → calls l' = calls l ++ record_credit n a;
  rec_write s bs fin l l' a :
    l_try_write_stream s bs fin l = Some (l', a) → calls l' = calls l ++ record_write s bs fin a;
  rec_write_vectored s slices fin l l' a :
    l_try_write_stream_vectored s slices fin l = Some (l', a) →
    calls l' = calls l ++ record_write s (concat slices) fin a;
  rec_pump_buffered cx l l' a : l_poll_pump_buffered cx l = Some (l', a) → calls l' = calls l;
  rec_finish cx l l' a : l_poll_finish cx l = Some (l', a) → calls l' = calls l
}.

(** Any connection, with the record kept beside it. *)
Section Recording.
Context `{Wakers} `{Below : !QmuxLower} `{Laws : !LowerLaws}.

Definition lift {A} (record : A → list LowerCall) (l : lower * list LowerCall)
    (r : option (lower * A)) : option (lower * list LowerCall * A) :=
  let! (below, a) := r in Some ((below, l.2 ++ record a), a).

Definition nothing {A} (_ : A) : list LowerCall := [].

Definition recording : QmuxLower := {|
  lower := lower * list LowerCall;
  l_role l := l_role l.1;
  l_application := l_application;
  l_queued_output l := l_queued_output l.1;
  l_queued_events l := l_queued_events l.1;
  l_try_next_event l :=
    let '(below, e) := l_try_next_event l.1 in ((below, l.2 ++ record_queued e), e);
  l_poll_next_event cx l := lift record_event l (l_poll_next_event cx l.1);
  l_poll_pump cx l := lift nothing l (l_poll_pump cx l.1);
  l_poll_close cx reason l := lift nothing l (l_poll_close cx reason l.1);
  l_try_open kind l := lift nothing l (l_try_open kind l.1);
  l_shutdown_stream s half code l := lift nothing l (l_shutdown_stream s half code l.1);
  l_extend_stream_credit s n l :=
    lift (record_stream_credit s n) l (l_extend_stream_credit s n l.1);
  l_extend_connection_credit n l :=
    lift (record_credit n) l (l_extend_connection_credit n l.1);
  l_try_write_stream s bs fin l :=
    lift (record_write s bs fin) l (l_try_write_stream s bs fin l.1);
  l_try_write_stream_vectored s slices fin l :=
    lift (record_write s (concat slices) fin) l (l_try_write_stream_vectored s slices fin l.1);
  l_poll_pump_buffered cx l := lift nothing l (l_poll_pump_buffered cx l.1);
  l_poll_finish cx l := lift nothing l (l_poll_finish cx l.1);
  l_now l := l_now l.1;
  l_woken l := l_woken l.1
|}.

Lemma lift_calls {A} (record : A → list LowerCall) l r l' (a : A) :
  lift record l r = Some (l', a) → l'.2 = l.2 ++ record a.
Proof. unfold lift. destruct r as [[below a']|]; intros; simplify_eq/=; done. Qed.

Lemma lift_nothing {A} l r l' (a : A) : lift nothing l r = Some (l', a) → l'.2 = l.2.
Proof. intros E%lift_calls. by rewrite E, app_nil_r. Qed.

#[refine] Instance recording_records : Recorded (H0 := recording) := {|
  calls (l : lower (QmuxLower := recording)) := l.2
|}.
Proof.
  all: simpl; intros; eauto using lift_calls, lift_nothing.
  destruct (l_try_next_event _); by simplify_eq/=.
Defined.

#[refine] Instance recording_laws : LowerLaws (H0 := recording) := {|
  lower_ok r (l : lower (QmuxLower := recording)) := lower_ok r l.1;
  given_out (l : lower (QmuxLower := recording)) := given_out l.1
|}.
Proof.
  all: simpl; intros r l.
  - apply ok_role.
  - destruct (l_try_next_event r.1) as [b o] eqn:E. intros e [= <- ->]. by apply (ok_queued _ _ e).
  - intros Hok%ok_try_next. by destruct (l_try_next_event _).
  - intros cx Hok. destruct (ok_poll_next r l.1 cx Hok) as (? & ? & -> & ?). simpl. eauto.
  - intros cx Hok. destruct (ok_pump r l.1 cx Hok) as (? & ? & -> & ?). simpl. eauto.
  - intros cx rs Hok. destruct (ok_close r l.1 cx rs Hok) as (? & ? & -> & ?). simpl. eauto.
  - intros k Hok. destruct (ok_open r l.1 k Hok) as (? & ? & -> & ? & ?). simpl. eauto.
  - intros s h n Hok. destruct (ok_shutdown r l.1 s h n Hok) as (? & ? & -> & ?). simpl. eauto.
  - intros s n Hok. destruct (ok_stream_credit r l.1 s n Hok) as (? & ? & -> & ?). simpl. eauto.
  - intros n Hok. destruct (ok_connection_credit r l.1 n Hok) as (? & ? & -> & ?). simpl. eauto.
  - intros s b f Hok. destruct (ok_write r l.1 s b f Hok) as (? & ? & -> & ?). simpl. eauto.
  - intros s b f Hok. destruct (ok_write_vectored r l.1 s b f Hok) as (? & ? & -> & ?). simpl. eauto.
  - intros cx Hok. destruct (ok_pump_buffered r l.1 cx Hok) as (? & ? & -> & ?). simpl. eauto.
  - intros cx Hok. destruct (ok_finish r l.1 cx Hok) as (? & ? & -> & ?). simpl. eauto.
Defined.
End Recording.

(** The octets an event brings, and what was delivered and not credited. *)
Definition event_octets (e : Event.Event) : Z :=
  match e with Event.StreamData _ _ data _ => Z.of_nat (length data) | _ => 0 end.

Definition call_balance (x : LowerCall) : Z :=
  match x with Delivered e => event_octets e | Credited n => - n
  | CreditedStream _ _ | RefusedCredit _ _ | Wrote _ _ _ => 0 end.

Definition balance (xs : list LowerCall) : Z := foldr (λ x n, call_balance x + n) 0 xs.

Lemma balance_app a b : balance (a ++ b) = balance a + balance b.
Proof. unfold balance. induction a as [|x a IH]; simpl; [done|]. rewrite IH. lia. Qed.
