(* ===== verification/QmuxLowerFacts.v ===== *)
(** * The QMux connection keeps what its clients rely on

    [qmux_total] is the connection of QmuxIo with every operation run to its end, and
    [qmux_laws] shows that it obeys [LowerLaws]: over a state machine and a byte stream that
    behave, what is proved of the adapters is proved of them on this connection. *)

From Stdlib Require Import ZArith Lia Strings.Byte ConstructiveEpsilon.
From stdpp Require Import base list gmap strings relations.
From S2P Require Import Prelude Varint CloseCodec QmuxError QmuxTypes QmuxConn QmuxWrite RecordFramer QmuxScheduling QmuxIo QmuxIoFacts QmuxIoSafety QmuxIoTotal QmuxLower.

(** ** Stream ids *)

(** The side a connection of the library's is. *)
Definition side `{Dwnx} (d : dwnx_conn) : Role :=
  if dwnx_conn_is_server d =? 0 then Client else Server.

(** The low bit of an id says who opened the stream. *)
Definition side_bit (r : Role) : Z := match r with Client => 0 | Server => 1 end.

Definition keeps_streams `{Dwnx} (opened : dwnx_conn → gset Z) {R} (f : native_call dwnx_conn R)
  : Prop :=
  ∀ B cb d (b : B), let d' := (f B cb d b).1.1 in side d' = side d ∧ opened d ⊆ opened d'.

Definition opens_new `{Dwnx} (opened : dwnx_conn → gset Z) (f : native_call dwnx_conn (Z * Z))
  : Prop :=
  ∀ B cb d (b : B), let '(d', _, (rv, sid)) := f B cb d b in
    rv = 0 → ¬ (sid ∈ opened d) ∧ sid ∈ opened d' ∧ Z.land sid 1 = side_bit (side d).

(** A connection of the library's never changes sides, and never gives out an id twice. *)
Class DwnxStreams `{Dwnx} := {
  opened : dwnx_conn → gset Z;
  new_side : ∀ r s p rv d, dwnx_conn_new r s p = (rv, Some d) → side d = r;
  read_streams : ∀ d n, keeps_streams opened (dwnx_conn_read d n);
  writev_streams : ∀ b fl s v n, keeps_streams opened (dwnx_conn_writev_stream b fl s v n);
  write_streams : ∀ b fl s d n, keeps_streams opened (dwnx_conn_write_stream b fl s d n);
  open_bidi_streams : keeps_streams opened dwnx_conn_open_bidi_stream;
  open_uni_streams : keeps_streams opened dwnx_conn_open_uni_stream;
  open_bidi_new : opens_new opened dwnx_conn_open_bidi_stream;
  open_uni_new : opens_new opened dwnx_conn_open_uni_stream;
  shutdown_read_streams : ∀ f i e, keeps_streams opened (dwnx_conn_shutdown_stream_read f i e);
  shutdown_write_streams : ∀ f i e, keeps_streams opened (dwnx_conn_shutdown_stream_write f i e);
  shutdown_streams : ∀ f i e, keeps_streams opened (dwnx_conn_shutdown_stream f i e);
  extend_stream_streams : ∀ i n, keeps_streams opened (dwnx_conn_extend_max_stream_offset i n);
  extend_data_streams : ∀ n, keeps_streams opened (dwnx_conn_extend_max_offset n);
  extend_bidi_streams : ∀ n, keeps_streams opened (dwnx_conn_extend_max_streams_bidi n);
  extend_uni_streams : ∀ n, keeps_streams opened (dwnx_conn_extend_max_streams_uni n)
}.
#[export] Hint Resolve read_streams writev_streams write_streams open_bidi_streams
  open_uni_streams shutdown_read_streams shutdown_write_streams shutdown_streams
  extend_stream_streams extend_data_streams extend_bidi_streams extend_uni_streams : ngnet.

(** ** No operation forgets an id or changes sides *)
Section Kept.
Context `{HD : Dwnx} {HS : DwnxStreams} {U : Type}.
Implicit Type n : Conn dwnx_conn U.

Record kept n n' : Prop := {
  kept_role : role n' = role n;
  kept_side : side (raw n') = side (raw n);
  kept_ids : opened (raw n) ⊆ opened (raw n')
}.

#[global] Instance kept_preorder : PreOrder kept.
Proof.
  split; [by intros n|]. intros n1 n2 n3 [] []. split; [congruence|congruence|set_solver].
Qed.

Lemma kept_same n n' : role n' = role n → raw n' = raw n → kept n n'.
Proof. intros Hr Hn. by split; rewrite ?Hr, ?Hn. Qed.

Lemma bridge_kept {R} (f : native_call dwnx_conn R) n :
  keeps_streams opened f → kept n (ConnOps.with_bridge f n).1.
Proof.
  intros Hf. unfold ConnOps.with_bridge.
  match goal with |- context [f _ ?cb ?d ?b] => specialize (Hf _ cb d b);
    destruct (f _ cb d b) as [[d' b'] r] end.
  destruct Hf. by split.
Qed.

Lemma fail_kept {A} rv context n : kept n (ConnOps.fail_with (A:=A) rv context n).1.
Proof.
  unfold ConnOps.fail_with. pose proof (error_from_conn rv context n) as (? & ? & _).
  destruct (ConnOps.error_from rv context n). by apply kept_same.
Qed.

Lemma unit_kept context (f : native_call dwnx_conn Z) n :
  keeps_streams opened f → kept n (ConnOps.unit_result context (ConnOps.with_bridge f n)).1.
Proof.
  intros Hf. apply (bridge_kept _ n) in Hf. unfold ConnOps.unit_result.
  destruct (ConnOps.with_bridge f n) as [n1 rv]. case_match; [done|].
  etransitivity; [exact Hf|apply fail_kept].
Qed.

Lemma read_kept data t n : kept n (ConnOps.read data t n).1.
Proof.
  unfold ConnOps.read.
  pose proof (bridge_kept (dwnx_conn_read data (Time.ts_as_nanos t)) n ltac:(auto with ngnet)) as Hb.
  destruct (ConnOps.with_bridge _ n) as [n1 rv]. repeat case_match; [done..|].
  etransitivity; [exact Hb|apply fail_kept].
Qed.

Lemma open_kept (open : native_call dwnx_conn (Z * Z)) context n :
  keeps_streams opened open → kept n (ConnOps.open_stream open context n).1.
Proof.
  intros Hf. apply (bridge_kept _ n) in Hf. unfold ConnOps.open_stream.
  destruct (ConnOps.with_bridge open n) as [n1 [rv sid]]. repeat case_match; [done..|].
  etransitivity; [exact Hf|apply fail_kept].
Qed.

Lemma shutdown_kept s half code n : kept n (ConnOps.shutdown_stream s half code n).1.
Proof. apply unit_kept. destruct half; auto with ngnet. Qed.

(** *** The record writer *)

Lemma interpret_kept rv k (w : RecordWriter U) :
  kept (QmuxWrite.conn w) (QmuxWrite.conn (interpret rv k w).1).
Proof.
  unfold interpret.
  match goal with |- context [if ?b then w else ?w2] => set (w1 := if b then w else w2) end.
  replace (QmuxWrite.conn w) with (QmuxWrite.conn w1) by (unfold w1; by case_match).
  clearbody w1. repeat case_match; simplify_eq/=; try done.
  match goal with E : ConnOps.error_from ?rv ?x ?c = _ |- _ =>
    pose proof (error_from_conn rv x c) as (? & ? & _); rewrite E in * end.
  by apply kept_same.
Qed.

Lemma push_kept request (w w' : RecordWriter U) r :
  push_vectored request w = Some (w', r) → kept (QmuxWrite.conn w) (QmuxWrite.conn w').
Proof.
  unfold push_vectored. case_match; [by intros [= <- _]|].
  destruct (gather _ _) as [vs whole]. destruct (buf w) as [b|]; [|done]. cbn [mbind option_bind].
  set (sid := match vw_stream request with Some _ => _ | None => _ end).
  match goal with |- context [dwnx_conn_writev_stream b ?f _ _ _] => set (fl := f) end.
  pose proof (bridge_kept (dwnx_conn_writev_stream b fl sid vs (Time.ts_as_nanos (QmuxWrite.now w)))
    (QmuxWrite.conn w) ltac:(auto with ngnet)) as Hb.
  destruct (ConnOps.with_bridge _ _) as [n1 r1]. intros [= E].
  match type of E with interpret ?rv ?k ?w1 = _ => pose proof (interpret_kept rv k w1) as Hi end.
  rewrite E in Hi. by etransitivity.
Qed.

Lemma drop_kept (w : RecordWriter U) : kept (QmuxWrite.conn w) (drop_writer w).1.
Proof.
  unfold drop_writer. destruct (buf w) as [b|]; [|done]. case_match; [done|].
  pose proof (bridge_kept (dwnx_conn_write_stream b DWNX_WRITE_STREAM_FLAG_NONE (-1) []
    (Time.ts_as_nanos (QmuxWrite.now w))) (QmuxWrite.conn w) ltac:(auto with ngnet)) as Hb.
  by destruct (ConnOps.with_bridge _ _).
Qed.

Lemma dropped_kept (w : RecordWriter U) c b : drop_writer w = (c, b) → kept (QmuxWrite.conn w) c.
Proof. intros E. pose proof (drop_kept w) as Hd. by rewrite E in Hd. Qed.

Lemma finish_kept (w : RecordWriter U) c b r :
  finish w = Some (c, b, r) → kept (QmuxWrite.conn w) c.
Proof.
  unfold finish. destruct (too_small w).
  { destruct (drop_writer w) as [c1 [b1|]] eqn:E; [|done]. intros [= <- _ _].
    by eapply dropped_kept. }
  set (pushed := match len w with None => _ | Some _ => _ end).
  destruct pushed as [[w' r']|] eqn:Ep; [|done].
  assert (kept (QmuxWrite.conn w) (QmuxWrite.conn w')) as Hw.
  { unfold pushed in Ep. destruct (len w); [by injection Ep as <- _|by eapply push_kept]. }
  cbn [mbind option_bind]. destruct r'.
  - destruct (buf w') as [b'|]; [|done]. cbn [mbind option_bind].
    destruct (len w') as [[|k]|]; try (intros [= <- _ _]; done).
    destruct (slice_to _ _); [|done]. by intros [= <- _ _].
  - destruct (drop_writer w') as [c1 [b1|]] eqn:E; [|done]. intros [= <- _ _].
    etransitivity; [exact Hw|]. by eapply dropped_kept.
Qed.

Lemma pack_loop_kept k s fin f c (w w' : RecordWriter U) r :
  pack_loop k s fin f c w = Some (w', r) → kept (QmuxWrite.conn w) (QmuxWrite.conn w').
Proof.
  revert f c w. induction k as [|k IH]; intros f c w; cbn [pack_loop]; [done|].
  destruct (Fragments.chunk f) as [vs whole].
  destruct (push_vectored _ w) as [[w1 pushed]|] eqn:E; [|done].
  apply push_kept in E. cbn [mbind option_bind].
  destruct pushed as [[k'|k'| |]|e]; repeat case_decide || case_match;
    try (intros [= <- _]; done). intros Hl%IH. by etransitivity.
Qed.

Lemma pack_vectored_kept n dest s f fin t n' d r :
  pack_vectored n dest s f fin t = Some (n', d, r) → kept n n'.
Proof.
  unfold pack_vectored.
  destruct (pack_loop _ _ _ _ _ _) as [[w r1]|] eqn:E; [|done]. apply pack_loop_kept in E.
  change (QmuxWrite.conn (QmuxWrite.record dest t n)) with n in E. cbn [mbind option_bind].
  destruct r1 as [[[f' c] v]|e].
  - destruct (finish w) as [[[c1 b1] r2]|] eqn:Ef; [|done]. apply finish_kept in Ef.
    intros [= <- _ _]. by etransitivity.
  - destruct (drop_writer w) as [c1 [b1|]] eqn:Ed; [|done]. apply dropped_kept in Ed.
    intros [= <- _ _]. by etransitivity.
Qed.

Lemma pack_kept n dest request t n' d r : pack n dest request t = Some (n', d, r) → kept n n'.
Proof.
  unfold pack. destruct (pack_vectored _ _ _ _ _ _) as [[[c b] r1]|] eqn:E; [|done].
  intros [= <- _ _]. by eapply pack_vectored_kept.
Qed.
End Kept.
Create HintDb keeping.

Section Keeping.
Context `{HD : Dwnx} {HI : DwnxStreams} {HW : Wakers} {HB : ByteStream} {HC : Clock}.
Implicit Type c : Connection.

Definition keeping {A} (m : M A) : Prop := ∀ c c' r, m c = Some (c', r) → kept (conn c) (conn c').

Lemma keeping_bind {A B} (m : M A) (k : A → M B) :
  keeping m → (∀ a, keeping (k a)) → keeping (bind m k).
Proof.
  intros Hm Hk c c' r. unfold bind. destruct (m c) as [[c1 [a|e]]|] eqn:E; [| |done].
  - intros Ek. etransitivity; [by eapply Hm|by eapply Hk].
  - intros [= <- _]. by eapply Hm.
Qed.

Lemma keeping_modify f : (∀ c, kept (conn c) (conn (f c))) → keeping (modify f).
Proof. intros Hf c c' r [= <- _]. apply Hf. Qed.

Lemma keeping_idle {A} (m : M A) : (∀ c c' r, m c = Some (c', r) → conn c' = conn c) → keeping m.
Proof. intros Hm c c' r E. by rewrite (Hm _ _ _ E). Qed.

Lemma keeping_ret {A} (a : A) : keeping (ret a).
Proof. by apply keeping_idle; intros c c' r [= <- _]. Qed.
Lemma keeping_gets {A} (f : Connection → A) : keeping (gets f).
Proof. by apply keeping_idle; intros c c' r [= <- _]. Qed.
Lemma keeping_throw {A} e : keeping (throw (A:=A) e).
Proof. by apply keeping_idle; intros c c' r [= <- _]. Qed.
Lemma keeping_attempt {A} (m : M A) : keeping m → keeping (attempt m).
Proof.
  intros Hm c c' r. unfold attempt. destruct (m c) as [[c1 r1]|] eqn:E; [|done].
  intros [= <- _]. by eapply Hm.
Qed.

Lemma latch_conn e c : conn (latch_terminal e c) = conn c.
Proof. unfold latch_terminal. by destruct (terminal c). Qed.

Lemma keeping_fail {A} e : keeping (fail (A:=A) e).
Proof. apply keeping_idle. intros c c' r [= <- _]. apply latch_conn. Qed.
Lemma keeping_fail_stream {A} s x : keeping (fail_stream (A:=A) s x).
Proof. apply keeping_fail. Qed.
Lemma keeping_check_terminal : keeping check_terminal.
Proof. apply keeping_idle. intros c c' r. unfold check_terminal. by case_match; intros [= <- _]. Qed.
Lemma keeping_now : keeping now.
Proof. apply keeping_idle. intros c c' r. unfold now. by case_match; intros [= <- _]. Qed.
Lemma keeping_ended {A} : keeping (ended (A:=A)).
Proof. apply keeping_bind; [apply keeping_gets|intros f]. repeat case_match; apply keeping_fail. Qed.
Lemma keeping_peer_closed {A} : keeping (peer_closed (A:=A)).
Proof. apply keeping_bind; [apply keeping_gets|intros f]. apply keeping_fail. Qed.

Lemma shared_kept f c : kept (conn c) (conn (map_shared f c)).
Proof. by apply kept_same. Qed.

Lemma keeping_core {A} (f : Conn dwnx_conn Shared →
    Conn dwnx_conn Shared * result A QmuxError.Conn.Error) :
  (∀ n, kept n (f n).1) → keeping (core f).
Proof.
  intros Hf c c' r. unfold core. specialize (Hf (conn c)). destruct (f (conn c)).
  by intros [= <- _].
Qed.
#[local] Hint Resolve keeping_bind keeping_modify keeping_ret keeping_gets keeping_throw
  keeping_attempt keeping_fail keeping_fail_stream keeping_check_terminal keeping_now
  keeping_ended keeping_peer_closed keeping_core shared_kept : keeping.

Lemma keeping_flush cx : keeping (flush cx).
Proof.
  intros c c' r. unfold flush. generalize (filled c - written c)%nat as k. intros k. revert c.
  induction k as [|k IH]; intros c; cbn [flush_loop]; (case_decide; [|by intros [= <- _]]); [done|].
  destruct (slice_range _ _ _) as [bs|]; [|done]. cbn [mbind option_bind].
  destruct (poll_write cx bs (stream c)) as [s [|[[[|n]|]|e]]]; try (by intros [= <- _]).
  - intros E%IH. exact E.
  - intros E%keeping_fail_stream. exact E.
Qed.

Lemma make_room_conn k c : conn (make_room k c) = conn c.
Proof. unfold make_room. by case_decide. Qed.

Lemma keeping_serialise {F} room (build : Conn dwnx_conn Shared → bytes →
    option (Conn dwnx_conn Shared * bytes * result (F * Produced) QmuxError.Conn.Error)) :
  (∀ n dest n' d r, build n dest = Some (n', d, r) → kept n n') → keeping (serialise room build).
Proof.
  intros Hb c c' r. unfold serialise. rewrite make_room_conn.
  destruct (slice_range _ _ _) as [dest|]; [|done]. cbn [mbind option_bind].
  destruct (build (conn c) dest) as [[[n d] r1]|] eqn:E; [|done]. apply Hb in E.
  cbn [mbind option_bind]. destruct r1 as [[f p]|e]; [by intros [= <- _]|].
  intros Hf%keeping_fail. etransitivity; [exact E|exact Hf].
Qed.

Lemma keeping_produce request : keeping (produce request).
Proof.
  apply keeping_bind; [apply keeping_now|intros t]. apply keeping_bind; [|intros []; apply keeping_ret].
  apply keeping_serialise. intros n dest n' d r.
  destruct (pack n dest request t) as [[[n1 d1] r1]|] eqn:E; [|done]. intros [= <- _ _].
  by eapply pack_kept.
Qed.

Lemma keeping_produce_vectored s f fin room : keeping (produce_vectored_within s f fin room).
Proof.
  apply keeping_bind; [apply keeping_now|intros t]. apply keeping_serialise.
  intros n dest n' d r. apply pack_vectored_kept.
Qed.

Lemma keeping_flush_if cx fl :
  keeping (if decide (fl = Everything) then let* _ := flush cx in ret () else ret ()).
Proof. case_decide; eauto using keeping_flush with keeping. Qed.
#[local] Hint Resolve keeping_flush keeping_produce keeping_produce_vectored keeping_flush_if : keeping.

Lemma keeping_write_side n cx fl : keeping (write_side_loop n cx fl).
Proof.
  induction n as [|n IH]; [done|].
  enough (keeping (let* flushed := ensure_room cx in if negb flushed then ret () else _)) as Hk
    by (intros c c' r; rewrite write_side_unfold; apply Hk).
  apply keeping_bind; [|intros []; simpl; [|auto with keeping]].
  { unfold ensure_room. apply keeping_bind; [auto with keeping|intros []; auto with keeping]. }
  do 2 (apply keeping_bind; [auto with keeping|intros ?]). case_match; [auto with keeping|].
  apply keeping_bind; [auto with keeping|intros p]. case_decide; [|done].
  apply keeping_bind; [|auto with keeping]. by apply keeping_modify.
Qed.

Lemma keeping_taken : keeping taken.
Proof.
  intros c c' r. unfold taken, take_event.
  destruct (Event.pop _) as [[e q]|]; [|by intros [= <- _]].
  destruct e; intros [= <- _]; apply (shared_kept _ c).
Qed.

Lemma keeping_read_once cx : keeping (read_once cx).
Proof.
  intros c c' r. unfold read_once. case_match; [intros [= <- _]; apply shared_kept|].
  destruct (poll_read cx _ _) as [[s b] p].
  set (c1 := set_inbound b (set_stream s c)).
  destruct p as [|[[|k]|e]]; [by intros [= <- _]|apply (keeping_ended c1)|
    |apply (keeping_fail_stream _ _ c1)].
  destruct (consume _ _) as [[f [u|e]]|]; [| |done].
  2: apply (keeping_fail e (set_framer f c1)).
  cbn [mbind option_bind]. destruct (clock_now _) as [k1 t].
  set (data := take _ _).
  pose proof (read_kept data t (conn (set_clock k1 (set_framer f c1)))) as Hr.
  destruct (ConnOps.read _ _ _) as [n2 outcome]. simpl in Hr.
  set (c2 := set_conn n2 _). set (c3 := if _ <? _ then _ else c2).
  assert (kept (conn c) (conn c3)) as H3 by (unfold c3; case_match; [|exact Hr];
    etransitivity; [exact Hr|by apply kept_same]).
  clearbody c3. destruct outcome as [[]|e]; [by intros [= <- _]| |].
  - intros E%keeping_peer_closed. etransitivity; [exact H3|exact E].
  - intros E%keeping_fail. etransitivity; [exact H3|exact E].
Qed.
#[local] Hint Resolve keeping_write_side keeping_taken keeping_read_once : keeping.

(** *** The operations *)

Lemma keeping_write_if k cx fl (b : bool) :
  keeping (if b then write_side k cx fl else ret ()).
Proof. destruct b; unfold write_side; auto with keeping. Qed.
#[local] Hint Resolve keeping_write_if : keeping.

Lemma keeping_pump_bounded k cx fl : keeping (pump_bounded k cx fl).
Proof. unfold pump_bounded, write_side. repeat (apply keeping_bind; [|intros ?]); auto with keeping. Qed.
#[local] Hint Resolve keeping_pump_bounded : keeping.

Lemma keeping_pump k cx : keeping (poll_pump k cx).
Proof. unfold poll_pump, write_side. repeat (apply keeping_bind; [|intros ?]); auto with keeping. Qed.

Lemma keeping_wake_if cx (b : bool) :
  keeping (if b then modify (map_shared (wake_by_ref cx)) else ret ()).
Proof. destruct b; auto with keeping. Qed.
#[local] Hint Resolve keeping_wake_if : keeping.

Lemma keeping_pump_buffered k cx : keeping (poll_pump_buffered k cx).
Proof. unfold poll_pump_buffered. repeat (apply keeping_bind; [|intros ?]); auto with keeping. Qed.

Lemma keeping_next_event k cx : keeping (poll_next_event k cx).
Proof.
  unfold poll_next_event. apply keeping_bind; [auto with keeping|intros [e|]]; [auto with keeping|].
  repeat (apply keeping_bind; [auto with keeping|intros ?]). repeat case_match; auto with keeping.
Qed.

Lemma keeping_set_pending b : keeping (modify (set_produce_pending b)).
Proof. by apply keeping_modify. Qed.
#[local] Hint Resolve keeping_set_pending : keeping.

Lemma keeping_open kind : keeping (try_open kind).
Proof.
  apply keeping_bind; [auto with keeping|intros _]. apply keeping_bind; [|intros []; auto with keeping].
  apply keeping_core. intros n. destruct kind; apply open_kept; auto with ngnet.
Qed.

Lemma keeping_shutdown s half code : keeping (QmuxIo.shutdown_stream s half code).
Proof.
  apply keeping_bind; [auto with keeping|intros _].
  apply keeping_bind; [apply keeping_core, shutdown_kept|auto with keeping].
Qed.

Lemma keeping_stream_credit s k : keeping (extend_stream_credit s k).
Proof.
  apply keeping_bind; [auto with keeping|intros _].
  apply keeping_bind; [|auto with keeping].
  apply keeping_core. intros n. apply unit_kept. auto with ngnet.
Qed.

Lemma keeping_connection_credit k : keeping (extend_connection_credit k).
Proof.
  apply keeping_bind; [auto with keeping|intros _].
  apply keeping_bind; [apply keeping_modify; intros c; apply bridge_kept; auto with ngnet|intros _].
  apply keeping_bind; [by apply keeping_modify|intros _].
  apply keeping_bind; [apply keeping_modify; intros c|auto with keeping].
  case_match; [apply shared_kept|done].
Qed.

Lemma keeping_try_write_loop k s f fin offered taken :
  keeping (try_write_loop k s f fin offered taken).
Proof.
  revert f taken. induction k as [|k IH]; intros f taken; [done|]. cbn [try_write_loop].
  apply keeping_bind; [auto with keeping|intros [room|]]; [|auto with keeping].
  apply keeping_bind; [auto with keeping|intros [f' p]].
  repeat case_match || case_decide; auto with keeping.
Qed.

Lemma keeping_write s slices fin : keeping (try_write_stream_vectored s slices fin).
Proof.
  apply keeping_bind; [auto with keeping|intros _]. cbv zeta. apply keeping_try_write_loop.
Qed.

Lemma keeping_shutdown_stream cx : keeping (shutdown_byte_stream cx).
Proof.
  intros c c' r. unfold shutdown_byte_stream. destruct (poll_shutdown cx _) as [s [|[[]|e]]];
    [by intros [= <- _]..|]. apply (keeping_fail_stream _ _ (set_stream s c)).
Qed.

Lemma keeping_drain k cx : keeping (drain_pending k cx).
Proof. unfold drain_pending, write_side. apply keeping_bind; auto with keeping. Qed.
#[local] Hint Resolve keeping_shutdown_stream keeping_drain : keeping.

Lemma keeping_queue_close k cx reason : keeping (queue_close k cx reason).
Proof.
  apply keeping_bind; [auto with keeping|intros []; cbn [negb]; [|auto with keeping]].
  apply keeping_bind; [apply keeping_modify; intros c|intros _].
  { unfold append. simpl. by rewrite make_room_conn. }
  apply keeping_bind; [by apply keeping_modify|intros _].
  apply keeping_bind; [|auto with keeping]. apply keeping_modify. intros c. by rewrite latch_conn.
Qed.
#[local] Hint Resolve keeping_queue_close : keeping.

Lemma keeping_close k cx reason : keeping (poll_close k cx reason).
Proof.
  apply keeping_bind; [auto with keeping|intros cl]. case_decide; [auto with keeping|].
  apply keeping_bind; [case_decide; auto with keeping|intros []; cbn [negb]; [|auto with keeping]].
  apply keeping_bind; [auto with keeping|intros now_].
  apply keeping_bind; [|intros []; cbn [negb]; auto with keeping]. case_decide; [|auto with keeping].
  apply keeping_bind; [auto with keeping|intros []]; (apply keeping_bind; [|auto with keeping]);
    [by apply keeping_modify|auto with keeping].
Qed.

Lemma keeping_finish k cx : keeping (poll_finish k cx).
Proof.
  apply keeping_bind; [auto with keeping|intros cl]. case_decide; [auto with keeping|].
  apply keeping_bind; [auto with keeping|intros []; cbn [negb]; auto with keeping].
Qed.
End Keeping.

(** ** Operations run to their end *)
Section Total.
Context `{HD : Dwnx} {HL : DwnxWriteLaws} {HI : DwnxIdleLaws} {HP : DwnxProgress} {HN : DwnxStreams}.
Context `{HW : Wakers} {HB : ByteStream} `{HS : !StreamLaws} `{HSP : !StreamProgress}
  {HC : Clock}.
Implicit Type c : Connection.

(** [m'] has every outcome [m] has. *)
Definition below {A} (m m' : M A) : Prop := ∀ c out, m c = Some out → m' c = Some out.

(** More fuel does not change an outcome. *)
Definition steady {A} (m : nat → M A) : Prop := ∀ n n', (n ≤ n')%nat → below (m n) (m n').

Lemma below_refl {A} (m : M A) : below m m.
Proof. by intros c out. Qed.

Lemma below_bind {A B} (m m' : M A) (k k' : A → M B) :
  below m m' → (∀ a, below (k a) (k' a)) → below (bind m k) (bind m' k').
Proof.
  intros Hm Hk c out. unfold bind. destruct (m c) as [[c1 [a|e]]|] eqn:E; [..|done];
    rewrite (Hm _ _ E); [apply Hk|done].
Qed.

Lemma steady_bind {A B} (m : nat → M A) (k : nat → A → M B) :
  steady m → (∀ a, steady (λ n, k n a)) → steady (λ n, bind (m n) (k n)).
Proof. intros Hm Hk n n' Hn. apply below_bind; [by apply Hm|]. intros a. by apply Hk. Qed.

Lemma steady_const {A} (m : M A) : steady (λ _, m).
Proof. intros n n' _. apply below_refl. Qed.

Lemma steady_write_side cx fl : steady (λ n, write_side n cx fl).
Proof.
  unfold write_side. intros n. induction n as [|n IH]; intros n' Hn; [by intros c out|].
  destruct n' as [|n']; [lia|]. intros c out. rewrite !write_side_unfold. revert c out.
  apply below_bind; [apply below_refl|intros []; cbn [negb]; [|apply below_refl]].
  do 2 (apply below_bind; [apply below_refl|intros ?]). case_match; [apply below_refl|].
  apply below_bind; [apply below_refl|intros p]. case_decide; [apply below_refl|]. apply IH. lia.
Qed.

Lemma steady_if cx fl (b : bool) : steady (λ n, if b then write_side n cx fl else ret ()).
Proof. destruct b; [apply steady_write_side|apply steady_const]. Qed.

Lemma steady_pump_bounded cx fl : steady (λ n, pump_bounded n cx fl).
Proof.
  apply steady_bind; [apply steady_const|intros _].
  apply steady_bind; [apply steady_write_side|intros _].
  apply steady_bind; [apply steady_const|intros read].
  apply steady_bind; [apply steady_const|intros b].
  apply steady_bind; [apply steady_if|intros _; apply steady_const].
Qed.

Lemma steady_attempt {A} (m : nat → M A) : steady m → steady (λ n, attempt (m n)).
Proof.
  intros Hm n n' Hn c out. unfold attempt. destruct (m n c) as [[c1 r]|] eqn:E; [|done].
  by rewrite (Hm _ _ Hn _ _ E).
Qed.

Lemma steady_drain cx : steady (λ n, drain_pending n cx).
Proof. apply steady_bind; [apply steady_write_side|intros; apply steady_const]. Qed.

(** An operation run with as much fuel as it takes. *)
Definition complete {A} (m : nat → M A) c (H : ∃ n, is_Some (m n c)) : Connection * result A Io.Error :=
  let '(exist _ n Hn) := constructive_indefinite_ground_description_nat
    (λ n, is_Some (m n c)) (λ n, is_Some_dec (m n c)) H in is_Some_proj Hn.

Lemma complete_fuel {A} (m : nat → M A) c H : ∃ n, m n c = Some (complete m c H).
Proof.
  unfold complete. destruct (constructive_indefinite_ground_description_nat _ _ _) as [n Hn].
  exists n. by destruct (m n c), Hn.
Qed.

Lemma settles_ends {A} (m : nat → M A) c : settles m c → ∃ n, is_Some (m n c).
Proof. intros (n0 & out & E). exists n0. exists out. by apply E. Qed.

(** What makes an operation one of [qmux_total]. *)
Record runs {A} (m : nat → M A) : Prop := {
  runs_end c : wf c → settles m c;
  runs_steady : steady m;
  runs_safe n : safe (m n);
  runs_keep n : keeping (m n)
}.

Definition Sound : Type := { c : Connection | wf c }.

Definition run_total {A} (m : nat → M A) (Hm : runs m) (x : Sound) : Sound * result A Io.Error :=
  let H := settles_ends m (proj1_sig x) (runs_end m Hm _ (proj2_sig x)) in
  let out := complete m (proj1_sig x) H in
  (exist wf out.1
     (let '(ex_intro _ n E) := complete_fuel m (proj1_sig x) H in
      proj1 (proj1 (runs_safe m Hm n _ _ _ (proj2_sig x) (eq_trans E (f_equal Some (surjective_pairing _)))))),
   out.2).

Lemma run_total_outcome {A} (m : nat → M A) (Hm : runs m) (x : Sound) :
  let out := run_total m Hm x in
  ∃ n0, ∀ n, (n0 ≤ n)%nat → m n (proj1_sig x) = Some (proj1_sig out.1, out.2).
Proof.
  unfold run_total. set (H := settles_ends _ _ _). simpl.
  destruct (complete_fuel m (proj1_sig x) H) as [n0 E]. exists n0. intros n Hn.
  rewrite (runs_steady m Hm _ _ Hn _ _ E). f_equal. apply surjective_pairing.
Qed.

Lemma run_total_kept {A} (m : nat → M A) (Hm : runs m) (x : Sound) :
  kept (conn (proj1_sig x)) (conn (proj1_sig (run_total m Hm x).1)).
Proof.
  destruct (run_total_outcome m Hm x) as [n E]. eapply (runs_keep m Hm n), E. done.
Qed.

Lemma safe_unforget {A} (m : M A) : safe (forget m) → safe m.
Proof.
  intros Hm c c' r Hc E. destruct r as [a|e].
  - apply (Hm c c' (Ok ()) Hc). unfold forget, bind. by rewrite E.
  - apply (Hm c c' (Err e) Hc). unfold forget, bind. by rewrite E.
Qed.

Lemma runs_const {A} (m : M A) : (∀ c, wf c → is_Some (m c)) → safe m → keeping m → runs (λ _, m).
Proof.
  intros Ht Hs Hk. split; [|apply steady_const|done|done]. intros c Hc. by apply settles_const, Ht.
Qed.

Lemma next_event_runs cx : runs (λ n, poll_next_event n cx).
Proof.
  split; [apply next_event_settles| |intros n; apply safe_next_event|intros n; apply keeping_next_event].
  apply steady_bind; [apply steady_const|intros [e|]]; [apply steady_const|].
  apply steady_bind; [apply steady_attempt, steady_pump_bounded|intros p].
  apply steady_bind; [apply steady_const|intros e]. apply steady_const.
Qed.

Lemma pump_runs cx : runs (λ n, poll_pump n cx).
Proof.
  split; [apply poll_pump_settles| |intros n; apply safe_unforget, (run_op_safe n (OpPump cx))
    |intros n; apply keeping_pump].
  apply steady_bind; [apply steady_const|intros _].
  apply steady_bind; [apply steady_write_side|intros _]. apply steady_const.
Qed.

Lemma pump_buffered_runs cx : runs (λ n, poll_pump_buffered n cx).
Proof.
  split; [apply pump_buffered_settles|
    |intros n; apply safe_unforget, (run_op_safe n (OpPumpBuffered cx))
    |intros n; apply keeping_pump_buffered].
  apply steady_bind; [apply steady_pump_bounded|intros b]. apply steady_const.
Qed.

Lemma close_runs cx reason : runs (λ n, poll_close n cx reason).
Proof.
  split; [intros c; apply poll_close_settles| |intros n; apply safe_poll_close
    |intros n; apply keeping_close].
  apply steady_bind; [apply steady_const|intros cl]. case_decide; [apply steady_const|].
  apply steady_bind; [|intros go; apply steady_const]. case_decide; [|apply steady_const].
  apply steady_bind; [apply steady_drain|intros d]. apply steady_const.
Qed.

Lemma finish_runs cx : runs (λ n, poll_finish n cx).
Proof.
  split; [apply poll_finish_settles| |intros n; apply safe_poll_finish
    |intros n; apply keeping_finish].
  apply steady_bind; [apply steady_const|intros cl]. case_decide; [apply steady_const|].
  apply steady_bind; [apply steady_drain|intros d]. apply steady_const.
Qed.

Lemma open_runs kind : runs (λ _, try_open kind).
Proof.
  apply runs_const; [intros c _; apply open_total| |apply keeping_open].
  apply safe_unforget, (run_op_safe 0 (OpOpen kind)).
Qed.

Lemma shutdown_runs s half code : runs (λ _, QmuxIo.shutdown_stream s half code).
Proof.
  apply runs_const; [intros c _; apply core_then_total|apply (run_op_safe 0 (OpShutdown s half code))
    |apply keeping_shutdown].
Qed.

Lemma stream_credit_runs s n : runs (λ _, extend_stream_credit s n).
Proof.
  apply runs_const; [intros c _; apply core_then_total|apply (run_op_safe 0 (OpStreamCredit s n))
    |apply keeping_stream_credit].
Qed.

Lemma connection_credit_runs n : runs (λ _, extend_connection_credit n).
Proof.
  apply runs_const; [intros c _; apply connection_credit_total
    |apply (run_op_safe 0 (OpConnectionCredit n))|apply keeping_connection_credit].
Qed.

Lemma write_runs s slices fin : runs (λ _, try_write_stream_vectored s slices fin).
Proof.
  apply runs_const; [intros c; apply try_write_total|apply safe_try_write|apply keeping_write].
Qed.

(** ** The interface *)

Lemma event_taken_sound (x : Sound) : wf (try_next_event (proj1_sig x)).1.
Proof.
  destruct x as [c Hc]. simpl. destruct (try_next_event c) as [c' e] eqn:E.
  eapply (safe_taken c c' (Ok e)); [done|]. unfold taken. change (take_event c) with (try_next_event c).
  by rewrite E.
Qed.

(** The connection with each of its operations run to its end. *)
Definition qmux_total (application : Z → bytes → CloseReason) : QmuxLower := {|
  lower := Sound;
  l_role x := QmuxConn.role (conn (proj1_sig x));
  l_application := application;
  l_queued_output x := queued_output (proj1_sig x);
  l_queued_events x := length (events (shared (proj1_sig x)));
  l_try_next_event x :=
    (exist wf (try_next_event (proj1_sig x)).1 (event_taken_sound x),
     (try_next_event (proj1_sig x)).2);
  l_poll_next_event cx x := Some (run_total _ (next_event_runs cx) x);
  l_poll_pump cx x := Some (run_total _ (pump_runs cx) x);
  l_poll_close cx reason x := Some (run_total _ (close_runs cx reason) x);
  l_try_open kind x := Some (run_total _ (open_runs kind) x);
  l_shutdown_stream s half code x := Some (run_total _ (shutdown_runs s half code) x);
  l_extend_stream_credit s n x := Some (run_total _ (stream_credit_runs s n) x);
  l_extend_connection_credit n x := Some (run_total _ (connection_credit_runs n) x);
  l_try_write_stream s bs fin x := Some (run_total _ (write_runs s [bs] fin) x);
  l_try_write_stream_vectored s slices fin x := Some (run_total _ (write_runs s slices fin) x);
  l_poll_pump_buffered cx x := Some (run_total _ (pump_buffered_runs cx) x);
  l_poll_finish cx x := Some (run_total _ (finish_runs cx) x);
  l_now x := Time.ts_as_nanos (clock_now (clock (proj1_sig x))).2;
  l_woken x := woken (shared (proj1_sig x))
|}.

Lemma try_open_new kind c c' s :
  try_open kind c = Some (c', Ok (SOpened s)) →
  ¬ (Stream.get s ∈ opened (raw (conn c))) ∧ Stream.get s ∈ opened (raw (conn c')) ∧
  Z.land (Stream.get s) 1 = side_bit (side (raw (conn c))).
Proof.
  unfold try_open, bind at 1, check_terminal. destruct (terminal c); [done|].
  set (f := match kind with Bidi => _ | Uni => _ end).
  assert (∃ open context, opens_new opened open ∧ f = ConnOps.open_stream open context)
    as (open & context & Ho & ->).
  { destruct kind; eexists _, _; (split; [|reflexivity]); [apply open_bidi_new|apply open_uni_new]. }
  unfold bind, core, ConnOps.open_stream, ConnOps.with_bridge.
  match goal with |- context [open _ ?cb ?d ?b] => specialize (Ho _ cb d b);
    destruct (open _ cb d b) as [[d' b'] [rv sid]] end.
  destruct (Z.eqb_spec rv 0) as [->|_].
  - destruct (Ho eq_refl) as (H1 & H2 & H3). unfold Stream.new.
    destruct (sid <? 0); [done|]. destruct (Stream.MAX <? sid); [done|].
    simpl. intros [= <- <-]. done.
  - destruct (rv =? _); [done|]. unfold ConnOps.fail_with. by destruct (ConnOps.error_from _ _ _).
Qed.
End Total.

(** ** The laws *)
Section Laws.
Context `{HD : Dwnx} {HL : DwnxWriteLaws} {HI : DwnxIdleLaws} {HP : DwnxProgress} {HN : DwnxStreams}.
Context `{HW : Wakers} {HB : ByteStream} `{HS : !StreamLaws} `{HSP : !StreamProgress}
  {HC : Clock}.
Variable application : Z → bytes → CloseReason.

(** The connection's own role, and the library's. *)
Definition sided (r : Role) (x : Sound) : Prop :=
  QmuxConn.role (conn (proj1_sig x)) = r ∧ side (raw (conn (proj1_sig x))) = r.

Definition opened_by (x : Sound) : gset Z := opened (raw (conn (proj1_sig x))).

Lemma kept_stays r (x y : Sound) :
  sided r x → kept (conn (proj1_sig x)) (conn (proj1_sig y)) →
  sided r y ∧ opened_by x ⊆ opened_by y.
Proof. intros [Hr Hs] [Er Es Ho]. unfold sided. rewrite Er, Es. done. Qed.

Lemma run_total_stays {A} r (m : nat → M A) (Hm : runs m) (x : Sound) :
  sided r x →
  ∃ y a, Some (run_total m Hm x) = Some (y, a) ∧ sided r y ∧ opened_by x ⊆ opened_by y.
Proof.
  intros Hx. pose proof (run_total_kept m Hm x). destruct (run_total m Hm x) as [y a].
  exists y, a. split; [done|]. by apply kept_stays.
Qed.

Lemma side_bit_initiator s r :
  Z.land (Stream.get s) 1 = side_bit r →
  Stream.initiator s = match r with Client => Stream.Client | Server => Stream.Server end.
Proof. unfold Stream.initiator. intros ->. by destruct r. Qed.

Lemma event_taken_fewer c c' e :
  try_next_event c = (c', Some e) → (length (events (shared c')) < length (events (shared c)))%nat.
Proof.
  unfold try_next_event, take_event. destruct (events (shared c)) as [|e' q] eqn:Eq; simpl; [done|].
  destruct e'; intros [= <- _]; simpl; lia.
Qed.

Lemma event_taken_kept c : kept (conn c) (conn (try_next_event c).1).
Proof.
  apply (keeping_taken c _ (Ok (try_next_event c).2)). unfold taken, try_next_event.
  by destruct (take_event c).
Qed.

#[refine] Instance qmux_laws : LowerLaws (H0 := qmux_total application) := {|
  lower_ok r (x : lower (QmuxLower := qmux_total application)) := sided r x;
  given_out (x : lower (QmuxLower := qmux_total application)) := opened_by x
|}.
Proof.
  all: simpl; intros; eauto using run_total_stays.
  - by destruct H.
  - simplify_eq/=. eapply event_taken_fewer. rewrite (surjective_pairing (try_next_event _)).
    by f_equal.
  - apply kept_stays; [done|]. apply event_taken_kept.
  - destruct (run_total_outcome _ (open_runs kind) l) as [n E].
    pose proof (kept_stays r l _ H (run_total_kept _ (open_runs kind) l)) as Hst.
    destruct (run_total _ (open_runs kind) l) as [y a].
    exists y, a. split; [done|]. split; [done|]. intros s ->.
    destruct (try_open_new _ _ _ _ (E n ltac:(done))) as (H1 & H2 & H3).
    split; [done|]. split; [done|]. apply side_bit_initiator. destruct H as [_ Hside].
    by rewrite <-Hside.
Defined.

(** A connection just made is one. *)
Lemma new_sound role s k config c :
  QmuxIo.new role s k config = Ok c → ∃ x : Sound, proj1_sig x = c ∧ sided role x.
Proof.
  intros E. destruct (wf_new _ _ _ _ _ E) as (Hwf & _). exists (exist wf c Hwf). split; [done|].
  revert E. unfold QmuxIo.new. generalize (replicate READ_BUFFER Byte.x00) as inb. intros inb.
  destruct (clock_now k) as [k' t].
  destruct (ConnOps.build _ _ _ _ _) as [n|e] eqn:E; [|done]. simpl. intros [= <-].
  unfold ConnOps.build in E. destruct (Params.validate _); [|done].
  destruct (dwnx_conn_new _ _ _) as [rv [raw|]] eqn:En; destruct (negb _) eqn:Erv; try done.
  injection E as <-. split; [done|]. by eapply new_side.
Qed.
End Laws.

(** ** The C library of QmuxWrite.v gives out each id once *)
Definition toy_ids (n : nat) (bit : Z) : gset Z :=
  list_to_set (seq 0 n ≫= λ k, [4 * Z.of_nat k + bit; 4 * Z.of_nat k + 2 + bit]).

Lemma toy_ids_in n bit z :
  z ∈ toy_ids n bit ↔ ∃ k, (k < n)%nat ∧ (z = 4 * Z.of_nat k + bit ∨ z = 4 * Z.of_nat k + 2 + bit).
Proof.
  unfold toy_ids. rewrite elem_of_list_to_set, list_elem_of_bind. split.
  - intros (k & Hz & Hk%elem_of_seq). exists k. split; [lia|].
    rewrite !elem_of_cons in Hz. destruct Hz as [|[|[]%elem_of_nil]]; auto.
  - intros (k & Hk & Hz). exists k. rewrite !elem_of_cons. split; [tauto|].
    apply elem_of_seq. lia.
Qed.

Definition toy_opened (c : toy) : gset Z := toy_ids (toy_next c) (toy_bit c).

Lemma toy_open_keeps kind :
  keeps_streams (H := toy_dwnx) toy_opened (quiet (toy_open kind)).
Proof.
  intros B cb c b. split; [done|]. intros z (k & Hk & Hz)%toy_ids_in. apply toy_ids_in.
  exists k. split; [simpl; lia|done].
Qed.

Lemma toy_bit_side c : toy_bit c = side_bit (side (H := toy_dwnx) c).
Proof. unfold toy_bit, side. simpl. unfold toy_bit. by destruct (toy_role c). Qed.

Lemma toy_open_new kind :
  kind = 0 ∨ kind = 2 → opens_new (H := toy_dwnx) toy_opened (quiet (toy_open kind)).
Proof.
  intros Hkind B cb c b _. rewrite <-toy_bit_side.
  assert (toy_bit c = 0 ∨ toy_bit c = 1) as Hbit by (unfold toy_bit; case_match; auto).
  split_and!.
  - intros (k & Hk & Hz)%toy_ids_in. lia.
  - apply toy_ids_in. exists (toy_next c). simpl. unfold toy_bit at 2 4. simpl.
    fold (toy_bit c). destruct Hkind as [->| ->]; lia.
  - change 1 with (Z.ones 1). rewrite Z.land_ones by lia. change (2 ^ 1) with 2.
    destruct Hkind as [->| ->]; rewrite <-?Z.add_assoc;
      replace (4 * Z.of_nat (toy_next c)) with (2 * Z.of_nat (toy_next c) * 2) by lia;
      rewrite Z.add_comm, Z.mod_add by lia; by destruct Hbit as [->| ->].
Qed.

Definition toy_streams : @DwnxStreams toy_dwnx.
Proof.
  refine {| opened := toy_opened : @dwnx_conn toy_dwnx → gset Z |};
    try (by intros; intros B cb c b; split).
  - intros r s p rv d [= <- <-]. by destruct r.
  - intros bs fl s v n B cb c b. simpl. unfold quiet, toy_writev, toy_close.
    repeat case_match; simplify_eq/=; by split.
  - intros bs fl s v n B cb c b. by split.
  - exact (toy_open_keeps 0).
  - exact (toy_open_keeps 2).
  - exact (toy_open_new 0 (or_introl eq_refl)).
  - exact (toy_open_new 2 (or_intror eq_refl)).
Defined.
