(* ===== verification/H3Qmux.v ===== *)
(** * HTTP/3 over QMux (crates/h3-ngnet-qmux/src)

    The adapter that gives the [h3] crate its QUIC traits on top of a QMux connection: streams
    with their queues and parked tasks behind one mutex, the waker the connection below is
    given, and the driver.  Every section of the code that holds the mutex is one operation on
    a [World]; the methods of the traits string sections together, and what other tasks do
    between two of them is the argument [meanwhile]. *)

From Stdlib Require Import ZArith Lia Strings.Byte.
From stdpp Require Import base list gmap strings sorting.
From S2P Require Import Prelude Varint CloseCodec QmuxError QmuxTypes QmuxConn QmuxWrite RecordFramer QmuxScheduling QmuxIo QmuxLower.

Import Stream.

(** A buffer to send, of the [bytes] and [h3] crates: what is left of it, and how much. *)
Class SendBufs := {
  sbuf : Type;
  remaining : sbuf → nat;
  chunk : sbuf → bytes;
  advance : nat → sbuf → sbuf
}.

(** ** error.rs

    The text of an error is made from the error below, which stands for it. *)
Inductive AdapterError :=
| ApplicationClose (error_code : Z)
| InternalError (message : string)
| UndefinedError (cause : Io.Error).

Inductive ConnectionTerminal :=
| TermApplication (error_code : Z)
| TermInternal (message : string)
| TermUndefined (error : AdapterError).

Inductive DirectionTerminal := Finished | Stopped (code : Z) | WasReset (code : Z).

#[export] Instance DirectionTerminal_eq_dec : EqDecision DirectionTerminal.
Proof. solve_decision. Defined.

(** The [h3] crate's errors. *)
Inductive ConnectionErrorIncoming :=
| IncomingApplicationClose (error_code : Z)
| IncomingInternalError (message : string)
| IncomingUndefined (error : AdapterError).

Inductive StreamErrorIncoming :=
| ConnectionErrorOf (connection_error : ConnectionErrorIncoming)
| StreamTerminated (error_code : Z).

Module Terminal.

Definition from_lower (error : Io.Error) : ConnectionTerminal :=
  match Io.close_reason error with
  | Some reason =>
      match CloseCodec.kind reason with
      | Application => TermApplication (error_code reason)
      | _ => TermUndefined (UndefinedError error)
      end
  | None => TermUndefined (UndefinedError error)
  end.

Definition connection_error (t : ConnectionTerminal) : ConnectionErrorIncoming :=
  match t with
  | TermApplication code => IncomingApplicationClose code
  | TermInternal message => IncomingInternalError message
  | TermUndefined error => IncomingUndefined error
  end.

Definition stream_error (t : ConnectionTerminal) : StreamErrorIncoming :=
  ConnectionErrorOf (connection_error t).

Definition driver_error (t : ConnectionTerminal) : AdapterError :=
  match t with
  | TermApplication code => ApplicationClose code
  | TermInternal message => InternalError message
  | TermUndefined error => error
  end.
End Terminal.

(** ** state.rs: the state behind the mutex *)

Definition ROUTE_BUDGET : nat := 64.
(** [Code::H3_REQUEST_CANCELLED] and [Code::H3_EXCESSIVE_LOAD], of the [h3] crate. *)
Definition ABANDONED : Z := 0x10c.
Definition EXCESSIVE_LOAD : Z := 0x107.

Inductive AcceptKind := AcceptUni | AcceptBidi.

Record Received := mkReceived { r_data : bytes; r_fin : bool }.

Section State.
Context `{Wakers} `{Below : !QmuxLower} `{Bufs : SendBufs}.

Record OpenerWaiters := mkOpener { o_uni : option Waker; o_bidi : option Waker }.

Record StreamState := mkStream {
  pending_accept : bool;
  lower_closed : bool;
  send_handle : bool;
  recv_handle : bool;
  recv : list Received;
  recv_terminal : option DirectionTerminal;
  send_terminal : option DirectionTerminal;
  recv_shutdown_sent : bool;
  send_shutdown_sent : bool;
  recv_waiter : option Waker;
  send_waiter : option Waker;
  finish_waiter : option Waker;
  send_waiting_output : bool;
  finish_waiting_output : bool;
  writing : option sbuf
}.

(** [openers] and [streams] are ordered maps: they are walked in the order of their keys. *)
Record Core := mkCore {
  below : lower;
  role : Role;
  pending_limit : nat;
  streams : gmap Z StreamState;
  pending_uni : list StreamId;
  pending_bidi : list StreamId;
  accept_uni : option Waker;
  accept_bidi : option Waker;
  openers : gmap Z OpenerWaiters;
  next_opener : Z;
  terminal : option ConnectionTerminal;
  close_as : option CloseReason;
  close_is_failure : bool;
  driver_complete : bool;
  driver_error : option AdapterError
}.

(** What a section leaves to be done once the lock is released. *)
Record Effects := mkEffects { wakes : list Waker; continuation : bool }.
End State.

Module Fields.
Section State.
Context `{Wakers} `{Below : !QmuxLower} `{Bufs : SendBufs}.

Definition set_pending_accept (v : bool) (x : StreamState) : StreamState :=
  mkStream v (lower_closed x) (send_handle x) (recv_handle x) (recv x) (recv_terminal x)
    (send_terminal x) (recv_shutdown_sent x) (send_shutdown_sent x) (recv_waiter x)
    (send_waiter x) (finish_waiter x) (send_waiting_output x) (finish_waiting_output x)
    (writing x).
Definition set_lower_closed (v : bool) (x : StreamState) : StreamState :=
  mkStream (pending_accept x) v (send_handle x) (recv_handle x) (recv x) (recv_terminal x)
    (send_terminal x) (recv_shutdown_sent x) (send_shutdown_sent x) (recv_waiter x)
    (send_waiter x) (finish_waiter x) (send_waiting_output x) (finish_waiting_output x)
    (writing x).
Definition set_send_handle (v : bool) (x : StreamState) : StreamState :=
  mkStream (pending_accept x) (lower_closed x) v (recv_handle x) (recv x) (recv_terminal x)
    (send_terminal x) (recv_shutdown_sent x) (send_shutdown_sent x) (recv_waiter x)
    (send_waiter x) (finish_waiter x) (send_waiting_output x) (finish_waiting_output x)
    (writing x).
Definition set_recv_handle (v : bool) (x : StreamState) : StreamState :=
  mkStream (pending_accept x) (lower_closed x) (send_handle x) v (recv x) (recv_terminal x)
    (send_terminal x) (recv_shutdown_sent x) (send_shutdown_sent x) (recv_waiter x)
    (send_waiter x) (finish_waiter x) (send_waiting_output x) (finish_waiting_output x)
    (writing x).
Definition set_recv (v : list Received) (x : StreamState) : StreamState :=
  mkStream (pending_accept x) (lower_closed x) (send_handle x) (recv_handle x) v
    (recv_terminal x) (send_terminal x) (recv_shutdown_sent x) (send_shutdown_sent x)
    (recv_waiter x) (send_waiter x) (finish_waiter x) (send_waiting_output x)
    (finish_waiting_output x) (writing x).
Definition set_recv_terminal (v : option DirectionTerminal) (x : StreamState) : StreamState :=
  mkStream (pending_accept x) (lower_closed x) (send_handle x) (recv_handle x) (recv x) v
    (send_terminal x) (recv_shutdown_sent x) (send_shutdown_sent x) (recv_waiter x)
    (send_waiter x) (finish_waiter x) (send_waiting_output x) (finish_waiting_output x)
    (writing x).
Definition set_send_terminal (v : option DirectionTerminal) (x : StreamState) : StreamState :=
  mkStream (pending_accept x) (lower_closed x) (send_handle x) (recv_handle x) (recv x)
    (recv_terminal x) v (recv_shutdown_sent x) (send_shutdown_sent x) (recv_waiter x)
    (send_waiter x) (finish_waiter x) (send_waiting_output x) (finish_waiting_output x)
    (writing x).
Definition set_recv_shutdown_sent (v : bool) (x : StreamState) : StreamState :=
  mkStream (pending_accept x) (lower_closed x) (send_handle x) (recv_handle x) (recv x)
    (recv_terminal x) (send_terminal x) v (send_shutdown_sent x) (recv_waiter x) (send_waiter
    x) (finish_waiter x) (send_waiting_output x) (finish_waiting_output x) (writing x).
Definition set_send_shutdown_sent (v : bool) (x : StreamState) : StreamState :=
  mkStream (pending_accept x) (lower_closed x) (send_handle x) (recv_handle x) (recv x)
    (recv_terminal x) (send_terminal x) (recv_shutdown_sent x) v (recv_waiter x) (send_waiter
    x) (finish_waiter x) (send_waiting_output x) (finish_waiting_output x) (writing x).
Definition set_recv_waiter (v : option Waker) (x : StreamState) : StreamState :=
  mkStream (pending_accept x) (lower_closed x) (send_handle x) (recv_handle x) (recv x)
    (recv_terminal x) (send_terminal x) (recv_shutdown_sent x) (send_shutdown_sent x) v
    (send_waiter x) (finish_waiter x) (send_waiting_output x) (finish_waiting_output x)
    (writing x).
Definition set_send_waiter (v : option Waker) (x : StreamState) : StreamState :=
  mkStream (pending_accept x) (lower_closed x) (send_handle x) (recv_handle x) (recv x)
    (recv_terminal x) (send_terminal x) (recv_shutdown_sent x) (send_shutdown_sent x)
    (recv_waiter x) v (finish_waiter x) (send_waiting_output x) (finish_waiting_output x)
    (writing x).
Definition set_finish_waiter (v : option Waker) (x : StreamState) : StreamState :=
  mkStream (pending_accept x) (lower_closed x) (send_handle x) (recv_handle x) (recv x)
    (recv_terminal x) (send_terminal x) (recv_shutdown_sent x) (send_shutdown_sent x)
    (recv_waiter x) (send_waiter x) v (send_waiting_output x) (finish_waiting_output x)
    (writing x).
Definition set_send_waiting_output (v : bool) (x : StreamState) : StreamState :=
  mkStream (pending_accept x) (lower_closed x) (send_handle x) (recv_handle x) (recv x)
    (recv_terminal x) (send_terminal x) (recv_shutdown_sent x) (send_shutdown_sent x)
    (recv_waiter x) (send_waiter x) (finish_waiter x) v (finish_waiting_output x) (writing x).
Definition set_finish_waiting_output (v : bool) (x : StreamState) : StreamState :=
  mkStream (pending_accept x) (lower_closed x) (send_handle x) (recv_handle x) (recv x)
    (recv_terminal x) (send_terminal x) (recv_shutdown_sent x) (send_shutdown_sent x)
    (recv_waiter x) (send_waiter x) (finish_waiter x) (send_waiting_output x) v (writing x).
Definition set_writing (v : option sbuf) (x : StreamState) : StreamState :=
  mkStream (pending_accept x) (lower_closed x) (send_handle x) (recv_handle x) (recv x)
    (recv_terminal x) (send_terminal x) (recv_shutdown_sent x) (send_shutdown_sent x)
    (recv_waiter x) (send_waiter x) (finish_waiter x) (send_waiting_output x)
    (finish_waiting_output x) v.
Definition set_below (v : lower) (x : Core) : Core :=
  mkCore v (role x) (pending_limit x) (streams x) (pending_uni x) (pending_bidi x) (accept_uni
    x) (accept_bidi x) (openers x) (next_opener x) (terminal x) (close_as x) (close_is_failure
    x) (driver_complete x) (driver_error x).
Definition set_streams (v : gmap Z StreamState) (x : Core) : Core :=
  mkCore (below x) (role x) (pending_limit x) v (pending_uni x) (pending_bidi x) (accept_uni
    x) (accept_bidi x) (openers x) (next_opener x) (terminal x) (close_as x) (close_is_failure
    x) (driver_complete x) (driver_error x).
Definition set_pending_uni (v : list StreamId) (x : Core) : Core :=
  mkCore (below x) (role x) (pending_limit x) (streams x) v (pending_bidi x) (accept_uni x)
    (accept_bidi x) (openers x) (next_opener x) (terminal x) (close_as x) (close_is_failure x)
    (driver_complete x) (driver_error x).
Definition set_pending_bidi (v : list StreamId) (x : Core) : Core :=
  mkCore (below x) (role x) (pending_limit x) (streams x) (pending_uni x) v (accept_uni x)
    (accept_bidi x) (openers x) (next_opener x) (terminal x) (close_as x) (close_is_failure x)
    (driver_complete x) (driver_error x).
Definition set_accept_uni (v : option Waker) (x : Core) : Core :=
  mkCore (below x) (role x) (pending_limit x) (streams x) (pending_uni x) (pending_bidi x) v
    (accept_bidi x) (openers x) (next_opener x) (terminal x) (close_as x) (close_is_failure x)
    (driver_complete x) (driver_error x).
Definition set_accept_bidi (v : option Waker) (x : Core) : Core :=
  mkCore (below x) (role x) (pending_limit x) (streams x) (pending_uni x) (pending_bidi x)
    (accept_uni x) v (openers x) (next_opener x) (terminal x) (close_as x) (close_is_failure
    x) (driver_complete x) (driver_error x).
Definition set_openers (v : gmap Z OpenerWaiters) (x : Core) : Core :=
  mkCore (below x) (role x) (pending_limit x) (streams x) (pending_uni x) (pending_bidi x)
    (accept_uni x) (accept_bidi x) v (next_opener x) (terminal x) (close_as x)
    (close_is_failure x) (driver_complete x) (driver_error x).
Definition set_next_opener (v : Z) (x : Core) : Core :=
  mkCore (below x) (role x) (pending_limit x) (streams x) (pending_uni x) (pending_bidi x)
    (accept_uni x) (accept_bidi x) (openers x) v (terminal x) (close_as x) (close_is_failure
    x) (driver_complete x) (driver_error x).
Definition set_terminal (v : option ConnectionTerminal) (x : Core) : Core :=
  mkCore (below x) (role x) (pending_limit x) (streams x) (pending_uni x) (pending_bidi x)
    (accept_uni x) (accept_bidi x) (openers x) (next_opener x) v (close_as x)
    (close_is_failure x) (driver_complete x) (driver_error x).
Definition set_close_as (v : option CloseReason) (x : Core) : Core :=
  mkCore (below x) (role x) (pending_limit x) (streams x) (pending_uni x) (pending_bidi x)
    (accept_uni x) (accept_bidi x) (openers x) (next_opener x) (terminal x) v
    (close_is_failure x) (driver_complete x) (driver_error x).
Definition set_close_is_failure (v : bool) (x : Core) : Core :=
  mkCore (below x) (role x) (pending_limit x) (streams x) (pending_uni x) (pending_bidi x)
    (accept_uni x) (accept_bidi x) (openers x) (next_opener x) (terminal x) (close_as x) v
    (driver_complete x) (driver_error x).
Definition set_driver_complete (v : bool) (x : Core) : Core :=
  mkCore (below x) (role x) (pending_limit x) (streams x) (pending_uni x) (pending_bidi x)
    (accept_uni x) (accept_bidi x) (openers x) (next_opener x) (terminal x) (close_as x)
    (close_is_failure x) v (driver_error x).
Definition set_driver_error (v : option AdapterError) (x : Core) : Core :=
  mkCore (below x) (role x) (pending_limit x) (streams x) (pending_uni x) (pending_bidi x)
    (accept_uni x) (accept_bidi x) (openers x) (next_opener x) (terminal x) (close_as x)
    (close_is_failure x) (driver_complete x) v.
End State.
End Fields.

(** ** state.rs: [Core] *)
Module CoreOps.
Section Ops.
Context `{Wakers} `{Below : !QmuxLower} `{Bufs : SendBufs}.
Import Fields.

Definition no_effects : Effects := mkEffects [] false.

Definition merge (e other : Effects) : Effects :=
  mkEffects (wakes e ++ wakes other) (continuation e || continuation other).

Definition go_on : Effects := mkEffects [] true.

(** [BTreeMap::values_mut]: each value changed on its own, in the order of the keys. *)
Definition ordered {A} (m : gmap Z A) : list Z := merge_sort Z.le (map_to_list m).*1.

Definition values_mut {A} (f : A → A * list Waker) (m : gmap Z A) : gmap Z A * list Waker :=
  ((λ a, (f a).1) <$> m,
   flat_map (λ k, match m !! k with Some a => (f a).2 | None => [] end) (ordered m)).

(** The slots of a stream. *)
Inductive Slot := RecvSlot | SendSlot | FinishSlot.

Definition slot (k : Slot) (st : StreamState) : option Waker :=
  match k with
  | RecvSlot => recv_waiter st | SendSlot => send_waiter st | FinishSlot => finish_waiter st
  end.

Definition set_slot (k : Slot) (v : option Waker) : StreamState → StreamState :=
  match k with
  | RecvSlot => set_recv_waiter v | SendSlot => set_send_waiter v
  | FinishSlot => set_finish_waiter v
  end.

(** [take_waiter] and [replace_waiter]: what is left in the slot, and the wakers taken or
    whether the slot was written. *)
Definition take_waiter (held : option Waker) : option Waker * list Waker :=
  (None, option_list held).

Definition replace_waiter (held : option Waker) (waker : Waker) : option Waker * bool :=
  match held with
  | Some current => if will_wake current waker then (held, false) else (Some waker, true)
  | None => (Some waker, true)
  end.

Definition take_slot (k : Slot) (st : StreamState) : StreamState * list Waker :=
  let '(held, woken) := take_waiter (slot k st) in (set_slot k held st, woken).

(** [take_waiter] on each of some slots. *)
Fixpoint take_slots (ks : list Slot) (st : StreamState) : StreamState * list Waker :=
  match ks with
  | [] => (st, [])
  | k :: ks =>
      let '(st, woken) := take_slot k st in
      let '(st, more) := take_slots ks st in (st, woken ++ more)
  end.

Definition on_stream (s : StreamId) (f : StreamState → StreamState) (c : Core) : Core :=
  set_streams (alter f (get s) (streams c)) c.

(** [if let Some(state) = self.streams.get_mut(..)] with wakers taken. *)
Definition with_stream (s : StreamId) (f : StreamState → StreamState * list Waker) (c : Core)
  : Core * Effects :=
  match streams c !! get s with
  | Some st => let '(st, woken) := f st in
      (set_streams (<[get s := st]> (streams c)) c, mkEffects woken false)
  | None => (c, no_effects)
  end.

Definition stream_default : StreamState :=
  mkStream false false false false [] None None false false None None None false false None.

Definition opener_default : OpenerWaiters := mkOpener None None.

Definition new (l : lower) (limit : nat) : Core :=
  mkCore l (l_role l) limit ∅ [] [] None None {[ 0 := opener_default ]} 1 None None false false
    None.

Definition allocate_opener (c : Core) : Core * Z :=
  let id := next_opener c in
  (set_openers (<[id := opener_default]> (openers c))
     (set_next_opener (wrapping_add id 1) c), id).

Definition remove_opener (id : Z) (c : Core) : Core := set_openers (delete id (openers c)) c.

(** *** Ending the connection *)

Definition take_opener (o : OpenerWaiters) : OpenerWaiters * list Waker :=
  let '(uni, w1) := take_waiter (o_uni o) in
  let '(bidi, w2) := take_waiter (o_bidi o) in (mkOpener uni bidi, w1 ++ w2).

Definition fail (t : ConnectionTerminal) (c : Core) : Core * Effects :=
  match terminal c with
  | Some _ => (c, no_effects)
  | None =>
      let c := set_terminal (Some t) c in
      let '(uni, w1) := take_waiter (accept_uni c) in
      let '(bidi, w2) := take_waiter (accept_bidi c) in
      let c := set_accept_bidi bidi (set_accept_uni uni c) in
      let '(waiting, w3) := values_mut take_opener (openers c) in
      let c := set_openers waiting c in
      let '(live, w4) := values_mut
        (λ st, take_slots [RecvSlot; SendSlot; FinishSlot] (set_writing None st)) (streams c) in
      (set_streams live c, mkEffects (w1 ++ w2 ++ w3 ++ w4) false)
  end.

Definition close (code : Z) (reason : bytes) (c : Core) : Core * Effects :=
  match close_as c with
  | Some _ => (c, no_effects)
  | None => fail (TermApplication code) (set_close_as (Some (l_application code reason)) c)
  end.

(** *** Waking *)

Definition wake_all_senders (c : Core) : Core * Effects :=
  let '(live, woken) := values_mut
    (λ st, let '(st, woken) := take_slots [SendSlot; FinishSlot] st in
           (set_finish_waiting_output false (set_send_waiting_output false st), woken))
    (streams c) in
  (set_streams live c, mkEffects woken false).

(** One stream of [wake_output_senders]. *)
Definition wake_output (st : StreamState) : StreamState * list Waker :=
  let '(st, w1) :=
    if send_waiting_output st then
      let '(st, woken) := take_slot SendSlot st in (set_send_waiting_output false st, woken)
    else (st, []) in
  let '(st, w2) :=
    if finish_waiting_output st then
      let '(st, woken) := take_slot FinishSlot st in (set_finish_waiting_output false st, woken)
    else (st, []) in
  (st, w1 ++ w2).

Definition wake_output_senders (c : Core) : Core * Effects :=
  let '(live, woken) := values_mut wake_output (streams c) in
  (set_streams live c, mkEffects woken false).

Definition wake_openers (kind : OpenKind) (c : Core) : Core * Effects :=
  let '(waiting, woken) := values_mut
    (λ o, match kind with
          | Uni => let '(uni, w) := take_waiter (o_uni o) in (mkOpener uni (o_bidi o), w)
          | Bidi => let '(bidi, w) := take_waiter (o_bidi o) in (mkOpener (o_uni o) bidi, w)
          end) (openers c) in
  (set_openers waiting c, mkEffects woken false).
(** *** Peer streams *)

Definition local_initiator (c : Core) : Initiator :=
  match role c with
  | QmuxTypes.Client => Stream.Client | QmuxTypes.Server => Stream.Server
  end.

Definition initiator_is_local (s : StreamId) (c : Core) : bool :=
  match initiator s, local_initiator c with
  | Stream.Client, Stream.Client | Stream.Server, Stream.Server => true
  | _, _ => false
  end.

Definition receive_direction_valid (s : StreamId) (c : Core) : bool :=
  bool_decide (directionality s = Bidirectional) || negb (initiator_is_local s c).

Definition contains (s : StreamId) (c : Core) : bool :=
  match streams c !! get s with Some _ => true | None => false end.

(** [false] is [Err(())]. *)
Definition discover_peer (s : StreamId) (c : Core) : Core * Effects * bool :=
  if contains s c then (c, no_effects, true)
  else if initiator_is_local s c then
    let '(c, e) := fail (TermInternal "unknown locally initiated stream") c in (c, e, false)
  else
    let pending := (length (pending_uni c) + length (pending_bidi c))%nat in
    if decide (pending_limit c ≤ pending)%nat then
      let code := EXCESSIVE_LOAD in
      let c := match close_as c with
               | Some _ => c
               | None => set_close_as (Some (l_application code
                           (ascii_bytes "pending accept limit exceeded"))) c
               end in
      let c := set_close_is_failure true c in
      let '(c, e) := fail (TermApplication code) c in (c, e, false)
    else
      let st := set_pending_accept true stream_default in
      match directionality s with
      | Unidirectional =>
          let st := set_recv_handle false st in
          let c := set_streams (<[get s := st]> (streams c)) c in
          let c := set_pending_uni (pending_uni c ++ [s]) c in
          let '(held, woken) := take_waiter (accept_uni c) in
          (set_accept_uni held c, mkEffects woken false, true)
      | Bidirectional =>
          let st := set_send_handle false (set_recv_handle false st) in
          let c := set_streams (<[get s := st]> (streams c)) c in
          let c := set_pending_bidi (pending_bidi c ++ [s]) c in
          let '(held, woken) := take_waiter (accept_bidi c) in
          (set_accept_bidi held c, mkEffects woken false, true)
      end.

(** *** Streams that are over *)

Definition removable (st : StreamState) : bool :=
  negb (pending_accept st) && lower_closed st && negb (send_handle st) && negb (recv_handle st)
  && bool_decide (recv st = []).

Definition cleanup (s : StreamId) (c : Core) : Core :=
  match streams c !! get s with
  | Some st => if removable st then set_streams (delete (get s) (streams c)) c else c
  | None => c
  end.

(** *** Events from below *)

(** [get_or_insert], and the two [is_none] tests of a closed stream. *)
Definition or_else (held : option DirectionTerminal) (t : DirectionTerminal)
  : option DirectionTerminal :=
  match held with Some _ => held | None => Some t end.

Definition closed_with (code : option Z) : DirectionTerminal :=
  match code with Some code => WasReset code | None => Finished end.

Definition route_data (s : StreamId) (data : bytes) (fin : bool) (c : Core)
  : option (Core * Effects) :=
  if negb (receive_direction_valid s c) then
    Some (fail (TermInternal "QMux delivered data on an impossible receive direction") c)
  else
    let '(c, e, found) := discover_peer s c in
    if negb found then Some (c, e)
    else
      let! st := streams c !! get s in
      if recv_shutdown_sent st then
        if decide (data = []) then Some (c, e)
        else
          let! (l, credited) := l_extend_connection_credit (Z.of_nat (length data)) (below c) in
          let c := set_below l c in
          match credited with
          | Ok _ => Some (c, e)
          | Err error => Some (fail (Terminal.from_lower error) c)
          end
      else
        let st' := if decide (data = []) then
                     match recv_terminal st with
                     | None => if fin then Some (set_recv_terminal (Some Finished) st) else None
                     | Some _ => None
                     end
                   else Some (set_recv (recv st ++ [mkReceived data fin]) st) in
        match st' with
        | None => Some (c, e)
        | Some st =>
            let '(st, woken) := take_slot RecvSlot st in
            Some (set_streams (<[get s := st]> (streams c)) c,
                  merge e (mkEffects woken false))
        end.

(** [None] is a panic.  The [match] of the source is exhaustive over the events there are. *)
Definition route (event : Event.Event) (c : Core) : option (Core * Effects) :=
  match event with
  | Event.StreamData s _ data fin => route_data s data fin c
  | Event.StreamOpened s =>
      if initiator_is_local s c then
        Some (fail (TermInternal "QMux reported a locally initiated stream as peer-opened") c)
      else Some (discover_peer s c).1
  | Event.StreamClosed s rx tx =>
      let '(c, e) := with_stream s (λ st,
        let st := set_lower_closed true st in
        let st := set_recv_terminal (or_else (recv_terminal st) (closed_with rx)) st in
        let st := set_send_terminal (or_else (send_terminal st) (closed_with tx)) st in
        take_slots [RecvSlot; SendSlot; FinishSlot] st) c in
      Some (cleanup s c, e)
  | Event.StreamReset s _ code =>
      Some (with_stream s (λ st,
        take_slot RecvSlot (set_recv_terminal (or_else (recv_terminal st) (WasReset code)) st)) c)
  | Event.StopSending s code =>
      Some (with_stream s (λ st,
        let st := set_send_terminal (or_else (send_terminal st) (Stopped code)) st in
        take_slots [SendSlot; FinishSlot] (set_writing None st)) c)
  | Event.StreamDataCredit s _ =>
      Some (with_stream s (take_slots [SendSlot; FinishSlot]) c)
  | Event.ConnectionDataCredit _ => Some (wake_all_senders c)
  | Event.StreamLimit kind _ =>
      match kind with
      | LocalBidi => Some (wake_openers Bidi c)
      | LocalUni => Some (wake_openers Uni c)
      | RemoteBidi | RemoteUni => Some (c, no_effects)
      end
  | Event.PeerTransportParams _ =>
      let '(c, e1) := wake_openers Bidi c in
      let '(c, e2) := wake_openers Uni c in
      let '(c, e3) := wake_all_senders c in Some (c, merge e1 (merge e2 e3))
  end.

(** The loops of [drive_turn]: what is left of the budget, with what was done. *)
Fixpoint route_queued (left_ : nat) (c : Core) (e : Effects) : option (Core * Effects * nat) :=
  match left_ with
  | O => Some (c, e, O)
  | S rest =>
      match terminal c with
      | Some _ => Some (c, e, left_)
      | None =>
          let '(l, event) := l_try_next_event (below c) in
          let c := set_below l c in
          match event with
          | None => Some (c, e, left_)
          | Some event =>
              let! (c, more) := route event c in route_queued rest c (merge e more)
          end
      end
  end.

(** The read from below in the middle of [drive_turn]: whether it brought an event. *)
Definition route_polled (lower_waker : Waker) (c : Core) : option (Core * Effects * bool) :=
  let! (l, polled) := l_poll_next_event lower_waker (below c) in
  let c := set_below l c in
  match polled with
  | Ok (Ready event) => let! (c, e) := route event c in Some (c, e, true)
  | Ok Pending => Some (c, no_effects, false)
  | Err error => let '(c, e) := fail (Terminal.from_lower error) c in Some (c, e, false)
  end.

Definition drive_turn (lower_waker : Waker) (c : Core) : option (Core * Effects) :=
  match terminal c with
  | Some _ => Some (c, no_effects)
  | None =>
      let queued_before := l_queued_output (below c) in
      let! (c, e, budget) := route_queued ROUTE_BUDGET c no_effects in
      match terminal c with
      | Some _ => Some (c, e)
      | None =>
          let! (c, e, budget, ready) :=
            if decide (budget = 0)%nat then Some (c, e, budget, false)
            else
              let! (c, more, ready) := route_polled lower_waker c in
              let! (c, e, budget) :=
                route_queued (if ready then Nat.pred budget else budget) c (merge e more) in
              Some (c, e, budget, ready) in
          let '(c, e) :=
            match terminal c with
            | None =>
                if decide (l_queued_output (below c) < queued_before)%nat then
                  let '(c, more) := wake_output_senders c in (c, merge e more)
                else (c, e)
            | Some _ => (c, e)
            end in
          Some (c, if bool_decide (budget = 0)%nat || ready then merge e go_on else e)
      end
  end.
(** *** Accepting and opening *)

Definition accept_queue (kind : AcceptKind) (c : Core) : list StreamId :=
  match kind with AcceptUni => pending_uni c | AcceptBidi => pending_bidi c end.
Definition set_accept_queue (kind : AcceptKind) (q : list StreamId) : Core → Core :=
  match kind with AcceptUni => set_pending_uni q | AcceptBidi => set_pending_bidi q end.
Definition accept_waiter (kind : AcceptKind) (c : Core) : option Waker :=
  match kind with AcceptUni => accept_uni c | AcceptBidi => accept_bidi c end.
Definition set_accept_waiter (kind : AcceptKind) (w : option Waker) : Core → Core :=
  match kind with AcceptUni => set_accept_uni w | AcceptBidi => set_accept_bidi w end.

Definition accept (kind : AcceptKind) (waker : Waker) (c : Core)
  : option (Core * Effects * result (option StreamId) ConnectionTerminal) :=
  match terminal c with
  | Some t => Some (c, no_effects, Err t)
  | None =>
      match accept_queue kind c with
      | s :: queue =>
          let c := set_accept_queue kind queue c in
          let! st := streams c !! get s in
          let st := set_recv_handle true (set_pending_accept false st) in
          let st := match kind with AcceptBidi => set_send_handle true st | AcceptUni => st end in
          Some (set_streams (<[get s := st]> (streams c)) c, no_effects, Ok (Some s))
      | [] =>
          let '(held, written) := replace_waiter (accept_waiter kind c) waker in
          Some (set_accept_waiter kind held c, mkEffects [] written, Ok None)
      end
  end.

Definition opener_waiter (kind : OpenKind) (o : OpenerWaiters) : option Waker :=
  match kind with Uni => o_uni o | Bidi => o_bidi o end.
Definition set_opener_waiter (kind : OpenKind) (w : option Waker) (o : OpenerWaiters)
  : OpenerWaiters :=
  match kind with Uni => mkOpener w (o_bidi o) | Bidi => mkOpener (o_uni o) w end.

Definition open (opener : Z) (kind : OpenKind) (waker : Waker) (c : Core)
  : option (Core * Effects * result (option StreamId) ConnectionTerminal) :=
  match terminal c with
  | Some t => Some (c, no_effects, Err t)
  | None =>
      let! (l, opened) := l_try_open kind (below c) in
      let c := set_below l c in
      match opened with
      | Err error =>
          let t := Terminal.from_lower error in
          let '(c, e) := fail t c in Some (c, e, Err t)
      | Ok (SOpened s) =>
          let st := set_send_handle true
            (set_recv_handle match kind with Bidi => true | Uni => false end stream_default) in
          Some (set_streams (<[get s := st]> (streams c)) c, no_effects, Ok (Some s))
      | Ok SBlocked =>
          let slots := match openers c !! opener with Some o => o | None => opener_default end in
          let '(held, written) := replace_waiter (opener_waiter kind slots) waker in
          Some (set_openers (<[opener := set_opener_waiter kind held slots]> (openers c)) c,
                mkEffects [] written, Ok None)
      end
  end.

(** *** Parking *)

Definition stream_error (s : StreamId) (send : bool) (c : Core) : option DirectionTerminal :=
  let! st := streams c !! get s in if send then send_terminal st else recv_terminal st.

Definition park_slot (s : StreamId) (k : Slot) (mark : StreamState → StreamState)
    (waker : Waker) (c : Core) : Core * Effects :=
  match streams c !! get s with
  | Some st =>
      let st := mark st in
      let '(held, written) := replace_waiter (slot k st) waker in
      (set_streams (<[get s := set_slot k held st]> (streams c)) c, mkEffects [] written)
  | None => (c, no_effects)
  end.

Definition park_send (s : StreamId) (finish waiting_output : bool) (waker : Waker) (c : Core)
  : Core * Effects :=
  if finish then park_slot s FinishSlot (set_finish_waiting_output waiting_output) waker c
  else park_slot s SendSlot (set_send_waiting_output waiting_output) waker c.

Definition park_recv (s : StreamId) (waker : Waker) (c : Core) : Core * Effects :=
  park_slot s RecvSlot id waker c.

(** *** Giving a direction up *)

Definition retained (st : StreamState) : Z :=
  Z.of_nat (sum_list_with (λ item, length (r_data item)) (recv st)).

Definition discard_receive (s : StreamId) (code : Z) (c : Core)
  : option (Core * result unit ConnectionTerminal) :=
  match streams c !! get s with
  | None => Some (c, Ok ())
  | Some st =>
      let! (l, stopped) :=
        if bool_decide (recv_terminal st = None) && negb (recv_shutdown_sent st) then
          l_shutdown_stream s ShutRead code (below c)
        else Some (below c, Ok ()) in
      let asked := bool_decide (recv_terminal st = None) && negb (recv_shutdown_sent st) in
      let c := set_below l c in
      match stopped with
      | Err error => Some (c, Err (Terminal.from_lower error))
      | Ok _ =>
          let st := if asked then set_recv_shutdown_sent true st else st in
          let st := set_recv_terminal (or_else (recv_terminal st) (Stopped code)) st in
          let bytes := retained st in
          let st := set_recv [] st in
          let c := set_streams (<[get s := st]> (streams c)) c in
          if bytes =? 0 then Some (c, Ok ())
          else
            let! (l, credited) := l_extend_connection_credit bytes (below c) in
            Some (set_below l c, map_err Terminal.from_lower credited)
      end
  end.

Definition reset_send (s : StreamId) (code : Z) (c : Core)
  : option (Core * result unit ConnectionTerminal) :=
  match streams c !! get s with
  | None => Some (c, Ok ())
  | Some st =>
      match send_terminal st with
      | Some _ => Some (c, Ok ())
      | None =>
          let! (l, stopped) :=
            if send_shutdown_sent st then Some (below c, Ok ())
            else l_shutdown_stream s ShutWrite code (below c) in
          let c := set_below l c in
          match stopped with
          | Err error => Some (c, Err (Terminal.from_lower error))
          | Ok _ =>
              let st := set_send_terminal (Some (WasReset code)) (set_send_shutdown_sent true st) in
              Some (set_streams (<[get s := st]> (streams c)) c, Ok ())
          end
      end
  end.

Definition drop_direction (s : StreamId) (send : bool) (c : Core) : Core :=
  cleanup s (on_stream s (if send then set_send_handle false else set_recv_handle false) c).

(** A failure of a section ends the connection. *)
Definition failing (done : Core * result unit ConnectionTerminal) : Core * Effects :=
  match done with
  | (c, Ok _) => (c, no_effects)
  | (c, Err t) => fail t c
  end.
End Ops.
End CoreOps.

(** ** stream.rs: the sections of a send stream's methods *)

Inductive Step := StepDone | StepPending | StepProgress | StepError (error : StreamErrorIncoming).

Module SendOps.
Section Ops.
Context `{Wakers} `{Below : !QmuxLower} `{Bufs : SendBufs}.
Import Fields CoreOps.

Definition SEND_PROGRESS_BUDGET : nat := 64.

Definition direction_error (t : DirectionTerminal) : StreamErrorIncoming :=
  match t with
  | Stopped code | WasReset code => StreamTerminated code
  | Finished => Terminal.stream_error
      (TermInternal "operation attempted after the stream direction finished")
  end.

Definition waiting_for_output (c : Core) : bool :=
  bool_decide (OUTBOUND_CARRY ≤ l_queued_output (below c))%nat.

(** [terminal]: the connection's ending, or the direction's. *)
Definition terminal (s : StreamId) (c : Core) : option StreamErrorIncoming :=
  match H3Qmux.terminal c with
  | Some t => Some (Terminal.stream_error t)
  | None => direction_error <$> stream_error s true c
  end.

(** A failure found in a section. *)
Definition failed {A} (t : ConnectionTerminal) (c : Core) (answer : StreamErrorIncoming → A)
  : Core * Effects * A :=
  let '(c, e) := fail t c in (c, e, answer (Terminal.stream_error t)).

(** Putting the data back, and parking. *)
Definition retain (s : StreamId) (data : sbuf) (c : Core) : option Core :=
  let! st := streams c !! get s in
  Some (set_streams (<[get s := set_writing (Some data) st]> (streams c)) c).

Definition retain_and_park (s : StreamId) (data : sbuf) (cx : Waker) (output : bool) (c : Core)
  : option (Core * Effects * Step) :=
  let! c := retain s data c in
  let '(c, e) := park_send s false (output && waiting_for_output c) cx c in
  Some (c, e, StepPending).

(** One turn of [poll_retained], under the lock. *)
Definition retained_turn (s : StreamId) (cx : Waker) (c : Core) : option (Core * Effects * Step) :=
  match terminal s c with
  | Some error => Some (c, no_effects, StepError error)
  | None =>
      let held := let! st := streams c !! get s in writing st in
      match held with
      | None => Some (c, no_effects, StepDone)
      | Some data =>
          let c := on_stream s (set_writing None) c in
          if decide (remaining data = 0)%nat then Some (c, no_effects, StepDone)
          else if decide (chunk data = []) then
            Some (failed (TermInternal "Buf returned an empty chunk with bytes remaining") c
                    StepError)
          else
            let offered := length (chunk data) in
            let! (l, written) := l_try_write_stream s (chunk data) false (below c) in
            let c := set_below l c in
            match written with
            | Ok (WAccepted accepted) =>
                if decide (offered < accepted)%nat then
                  Some (failed (TermInternal "QMux accepted more bytes than were offered") c
                          StepError)
                else if decide (accepted = 0)%nat then retain_and_park s data cx true c
                else
                  let data := advance accepted data in
                  if decide (remaining data = 0)%nat then Some (c, go_on, StepDone)
                  else if decide (accepted < offered)%nat then
                    let! (c, e, step) := retain_and_park s data cx true c in
                    Some (c, merge go_on e, step)
                  else let! c := retain s data c in Some (c, go_on, StepProgress)
            | Ok WBlocked => retain_and_park s data cx true c
            | Ok WClosed => retain_and_park s data cx false c
            | Err error => Some (failed (Terminal.from_lower error) c StepError)
            end
      end
  end.

Definition send_data (s : StreamId) (data : sbuf) (c : Core)
  : Core * result unit StreamErrorIncoming :=
  match terminal s c with
  | Some error => (c, Err error)
  | None =>
      match streams c !! get s with
      | Some st =>
          match writing st with
          | Some _ => (c, Err (Terminal.stream_error (TermInternal
              "send_data called before the previous logical send became ready")))
          | None => (set_streams (<[get s := set_writing (Some data) st]> (streams c)) c, Ok ())
          end
      | None => (c, Err (Terminal.stream_error (TermInternal
              "send_data called after stream state was retired")))
      end
  end.

(** The look [poll_finish] begins with: an answer, if it already has one. *)
Definition finished_already (s : StreamId) (c : Core) : option (result unit StreamErrorIncoming) :=
  match H3Qmux.terminal c with
  | Some t => Some (Err (Terminal.stream_error t))
  | None =>
      if decide (stream_error s true c = Some Finished) then Some (Ok ()) else None
  end.

(** The last section of [poll_finish]. *)
Definition finish_turn (s : StreamId) (cx : Waker) (c : Core)
  : option (Core * Effects * Poll (result unit StreamErrorIncoming)) :=
  match H3Qmux.terminal c with
  | Some t => Some (c, no_effects, Ready (Err (Terminal.stream_error t)))
  | None =>
      match stream_error s true c with
      | Some Finished => Some (c, no_effects, Ready (Ok ()))
      | Some t => Some (c, no_effects, Ready (Err (direction_error t)))
      | None =>
          let! (l, written) := l_try_write_stream s [] true (below c) in
          let c := set_below l c in
          match written with
          | Ok (WAccepted O) =>
              Some (on_stream s (set_send_terminal (Some Finished)) c, go_on, Ready (Ok ()))
          | Ok (WAccepted _) =>
              Some (failed (TermInternal "QMux returned an invalid result for an empty FIN") c
                      (λ error, Ready (Err error)))
          | Ok WBlocked =>
              let '(c, e) := park_send s true (waiting_for_output c) cx c in Some (c, e, Pending)
          | Ok WClosed =>
              let '(c, e) := park_send s true false cx c in Some (c, e, Pending)
          | Err error =>
              Some (failed (Terminal.from_lower error) c (λ error, Ready (Err error)))
          end
      end
  end.

Definition reset_turn (s : StreamId) (code : Z) (c : Core) : option (Core * Effects) :=
  let! done := reset_send s code (on_stream s (set_writing None) c) in Some (failing done).

Definition holds_framed (s : StreamId) (c : Core) : bool :=
  match streams c !! get s with
  | Some st => match writing st with Some _ => true | None => false end
  | None => false
  end.

(** The last section of [poll_send]. *)
Definition unframed_turn (s : StreamId) (offer : bytes) (cx : Waker) (c : Core)
  : option (Core * Effects * Poll (result nat StreamErrorIncoming)) :=
  let! (l, written) := l_try_write_stream s offer false (below c) in
  let c := set_below l c in
  match written with
  | Ok (WAccepted accepted) =>
      if decide (length offer < accepted)%nat then
        Some (failed (TermInternal "QMux accepted more bytes than were offered") c
                (λ error, Ready (Err error)))
      else if decide (accepted = 0)%nat then
        let '(c, e) := park_send s false (waiting_for_output c) cx c in Some (c, e, Pending)
      else Some (c, go_on, Ready (Ok accepted))
  | Ok WBlocked =>
      let '(c, e) := park_send s false (waiting_for_output c) cx c in Some (c, e, Pending)
  | Ok WClosed =>
      let '(c, e) := park_send s false false cx c in Some (c, e, Pending)
  | Err error => Some (failed (Terminal.from_lower error) c (λ error, Ready (Err error)))
  end.

Definition drop_send_turn (s : StreamId) (c : Core) : option (Core * Effects) :=
  let c := on_stream s (set_writing None) c in
  let! done := match stream_error s true c with
               | Some _ => Some (c, Ok ())
               | None => reset_send s ABANDONED c
               end in
  let '(c, e) := failing done in Some (drop_direction s true c, e).
End Ops.
End SendOps.

(** ** stream.rs: the sections of a receive stream's methods *)
Module RecvOps.
Section Ops.
Context `{Wakers} `{Below : !QmuxLower} `{Bufs : SendBufs}.
Import Fields CoreOps.

Definition data_turn (s : StreamId) (cx : Waker) (c : Core)
  : option (Core * Effects * Poll (result (option bytes) StreamErrorIncoming)) :=
  match terminal c with
  | Some t => Some (c, no_effects, Ready (Err (Terminal.stream_error t)))
  | None =>
      match (let! st := streams c !! get s in
             match recv st with item :: rest => Some (st, item, rest) | [] => None end) with
      | Some (st, item, rest) =>
          let c := set_streams (<[get s := set_recv rest st]> (streams c)) c in
          let n := Z.of_nat (length (r_data item)) in
          let! (l, credited) := l_extend_stream_credit s n (below c) in
          let! (l, credited) :=
            match credited with
            | Ok _ => l_extend_connection_credit n l
            | Err error => Some (l, Err error)
            end in
          let c := set_below l c in
          match credited with
          | Err error =>
              Some (SendOps.failed (Terminal.from_lower error) c (λ error, Ready (Err error)))
          | Ok _ =>
              let c := if r_fin item then on_stream s (set_recv_terminal (Some Finished)) c
                       else c in
              Some (c, go_on, Ready (Ok (Some (r_data item))))
          end
      | None =>
          match stream_error s false c with
          | Some (Finished | Stopped _) => Some (c, no_effects, Ready (Ok None))
          | Some (WasReset code) => Some (c, no_effects, Ready (Err (StreamTerminated code)))
          | None => let '(c, e) := park_recv s cx c in Some (c, e, Pending)
          end
      end
  end.

Definition stop_turn (s : StreamId) (code : Z) (c : Core) : option (Core * Effects) :=
  let! done := discard_receive s code c in Some (failing done).

Definition drop_recv_turn (s : StreamId) (c : Core) : option (Core * Effects) :=
  let! (c, e) := stop_turn s ABANDONED c in Some (drop_direction s false c, e).
End Ops.
End RecvOps.

(** ** state.rs: [LowerWake]

    The one waker the connection below is given.  Its fields are atomics: here a call is one
    step; H3QmuxWake takes the calls apart. *)

(** [Waker::from(Arc::clone(lower_wake))], and whether a waker is one of those. *)
Class LowerWakers `{Wakers} := {
  lower_waker : Waker;
  is_lower : Waker → bool;
  lower_waker_is : is_lower lower_waker = true
}.

Section State.
Context `{Wakers}.

Record LowerWake := mkLowerWake {
  ready : bool;
  defer : Z;
  driver : option Waker
}.
End State.

Module Wake.
Section Ops.
Context `{Wakers}.

Definition new : LowerWake := mkLowerWake false 0 None.

(** The wakers woken are the second component. *)
Definition wake_driver (lw : LowerWake) : LowerWake * list Waker :=
  (mkLowerWake (ready lw) (defer lw) None, option_list (driver lw)).

Definition register_driver (waker : Waker) (lw : LowerWake) : LowerWake :=
  let keep := match driver lw with Some current => will_wake current waker | None => false end in
  mkLowerWake (ready lw) (defer lw) (if keep then driver lw else Some waker).

Definition take_ready (lw : LowerWake) : LowerWake * bool :=
  (mkLowerWake false (defer lw) (driver lw), ready lw).

Definition request_driver (lw : LowerWake) : LowerWake * list Waker := wake_driver lw.

Definition begin_defer (lw : LowerWake) : LowerWake :=
  mkLowerWake (ready lw) (wrapping_add (defer lw) 1) (driver lw).

(** The two accesses of [end_defer], and whether it then wakes the driver. *)
Definition subtract (lw : LowerWake) : LowerWake * Z :=
  (mkLowerWake (ready lw) (wrapping_add (defer lw) (-1)) (driver lw), defer lw).
Definition owed_after (previous : Z) (lw : LowerWake) : bool := (previous =? 1) && ready lw.

Definition end_defer (lw : LowerWake) : LowerWake * list Waker :=
  let '(lw, previous) := subtract lw in
  if owed_after previous lw then wake_driver lw else (lw, []).

(** The two accesses of [lower_ready]. *)
Definition store_ready (lw : LowerWake) : LowerWake := mkLowerWake true (defer lw) (driver lw).
Definition not_deferred (lw : LowerWake) : bool := defer lw =? 0.

Definition lower_ready (lw : LowerWake) : LowerWake * list Waker :=
  let lw := store_ready lw in
  if not_deferred lw then wake_driver lw else (lw, []).
End Ops.
End Wake.

(** ** What the handles, the driver and their tasks share *)
Section State.
Context `{Wakers} `{Below : !QmuxLower} `{Bufs : SendBufs}.

(** [log] are the wakers woken, oldest first. *)
Record World := mkWorld {
  core : Core;
  lower_wake : LowerWake;
  log : list Waker
}.
End State.

(** A method is a string of sections: between two of them other tasks may do anything. *)
Inductive Prog (W A : Type) : Type :=
| Ret (a : A)
| Sect (R : Type) (section : W → option (W * R)) (next : R → Prog W A).
Arguments Ret {W A}.
Arguments Sect {W A R}.

Fixpoint bind {W A B} (p : Prog W A) (k : A → Prog W B) : Prog W B :=
  match p with
  | Ret a => k a
  | Sect f next => Sect f (λ r, bind (next r) k)
  end.

Notation "'do' x ':=' p 'in' k" := (bind p (λ x, k))
  (at level 10, x pattern, p at level 100, k at level 200) : rust_scope.

(** A method run while nobody else does anything. *)
Fixpoint alone {W A} (p : Prog W A) (w : W) : option (W * A) :=
  match p with
  | Ret a => Some (w, a)
  | Sect f next => let! (w, r) := f w in alone (next r) w
  end.

Module Adapter.
Section Ops.
Context `{Wakers} `{Below : !QmuxLower} `{Bufs : SendBufs} `{!LowerWakers}.
Import CoreOps.

Definition set_core (c : Core) (w : World) : World := mkWorld c (lower_wake w) (log w).

(** A call of [LowerWake]. *)
Definition on_wake (f : LowerWake → LowerWake * list Waker) (w : World) : World :=
  let '(lw, woken) := f (lower_wake w) in mkWorld (core w) lw (log w ++ woken).

(** A waker is woken: the adapter's own, or some task's. *)
Definition wake_one (w : World) (waker : Waker) : World :=
  if is_lower waker then on_wake Wake.lower_ready w
  else mkWorld (core w) (lower_wake w) (log w ++ [waker]).

(** The wakers the connection below woke while it was used. *)
Definition woken_since (before after : lower) : list Waker :=
  drop (length (l_woken before)) (l_woken after).

(** [core.lock()]: one section under the lock. *)
Definition locked {A} (f : Core → option (Core * A)) (w : World) : option (World * A) :=
  let! (c, a) := f (core w) in
  Some (foldl wake_one (set_core c w) (woken_since (below (core w)) (below c)), a).

(** One step outside the lock. *)
Definition act (f : World → World) : Prog World unit := Sect (λ w, Some (f w, ())) Ret.

Definition begin_defer : Prog World unit := act (on_wake (λ lw, (Wake.begin_defer lw, []))).
Definition end_defer : Prog World unit := act (on_wake Wake.end_defer).
Definition request_driver : Prog World unit := act (on_wake Wake.request_driver).

Definition under_lock {A} (f : Core → option (Core * A)) : Prog World A := Sect (locked f) Ret.

(** [Shared::with_core]. *)
Definition with_core {A} (f : Core → option (Core * A)) : Prog World A :=
  do _ := begin_defer in
  do a := under_lock f in
  do _ := end_defer in
  Ret a.

Fixpoint wake_each (ws : list Waker) : Prog World unit :=
  match ws with
  | [] => Ret ()
  | waker :: ws => do _ := act (λ w, wake_one w waker) in wake_each ws
  end.

Definition apply_effects (e : Effects) : Prog World unit :=
  do _ := wake_each (wakes e) in
  if continuation e then request_driver else Ret ().

(** A section that leaves effects, with the answer kept apart. *)
Definition with_effects {A} (f : Core → option (Core * Effects * A)) (c : Core)
  : option (Core * (Effects * A)) :=
  let! (c, e, a) := f c in Some (c, (e, a)).

Definition effects_only (f : Core → option (Core * Effects)) (c : Core)
  : option (Core * (Effects * unit)) :=
  let! (c, e) := f c in Some (c, (e, ())).

(** *** stream.rs: the send stream *)

Definition look {A} (f : Core → A) : Prog World A := under_lock (λ c, Some (c, f c)).

(** [turns] is what is left of the budget. *)
Fixpoint poll_retained (turns : nat) (s : StreamId) (cx : Waker)
  : Prog World (Poll (result unit StreamErrorIncoming)) :=
  match turns with
  | O => Ret Pending
  | S turns =>
      do (e, step) := with_core (with_effects (SendOps.retained_turn s cx)) in
      do _ := apply_effects e in
      match step with
      | StepDone => Ret (Ready (Ok ()))
      | StepPending => Ret Pending
      | StepProgress =>
          match turns with
          | O => do _ := act (λ w, wake_one w cx) in Ret Pending
          | S _ => poll_retained turns s cx
          end
      | StepError error => Ret (Ready (Err error))
      end
  end.

Definition poll_ready (s : StreamId) (cx : Waker)
  : Prog World (Poll (result unit StreamErrorIncoming)) :=
  do ended := look (SendOps.terminal s) in
  match ended with
  | Some error => Ret (Ready (Err error))
  | None => poll_retained SendOps.SEND_PROGRESS_BUDGET s cx
  end.

Definition send_data (s : StreamId) (data : sbuf) : Prog World (result unit StreamErrorIncoming) :=
  do r := under_lock (λ c, Some (SendOps.send_data s data c)) in
  match r with
  | Ok _ => do _ := request_driver in Ret r
  | Err _ => Ret r
  end.

Definition poll_finish (s : StreamId) (cx : Waker)
  : Prog World (Poll (result unit StreamErrorIncoming)) :=
  do already := look (SendOps.finished_already s) in
  match already with
  | Some answer => Ret (Ready answer)
  | None =>
      do flushed := poll_ready s cx in
      match flushed with
      | Pending => Ret Pending
      | Ready (Err error) => Ret (Ready (Err error))
      | Ready (Ok _) =>
          do (e, answer) := with_core (with_effects (SendOps.finish_turn s cx)) in
          do _ := apply_effects e in
          Ret answer
      end
  end.

Definition reset (s : StreamId) (code : Z) : Prog World unit :=
  do (e, _) := with_core (effects_only (SendOps.reset_turn s code)) in
  do _ := apply_effects e in
  request_driver.

(** The buffer is the caller's: what is left of it is returned. *)
Definition poll_send (s : StreamId) (cx : Waker) (buf : sbuf)
  : Prog World (sbuf * Poll (result nat StreamErrorIncoming)) :=
  do ended := look (SendOps.terminal s) in
  match ended with
  | Some error => Ret (buf, Ready (Err error))
  | None =>
      do framed := with_core (λ c, Some (c, SendOps.holds_framed s c)) in
      if framed : bool then
        Ret (buf, Ready (Err (Terminal.stream_error
          (TermInternal "unframed send attempted while framed data is retained"))))
      else if decide (remaining buf = 0)%nat then Ret (buf, Ready (Ok 0%nat))
      else if decide (chunk buf = []) then
        Ret (buf, Ready (Err (Terminal.stream_error
          (TermInternal "Buf returned an empty chunk with bytes remaining"))))
      else
        do (e, answer) := with_core (with_effects (SendOps.unframed_turn s (chunk buf) cx)) in
        let buf := match answer with Ready (Ok accepted) => advance accepted buf | _ => buf end in
        do _ := apply_effects e in
        Ret (buf, answer)
  end.

(** [impl Drop for SendStream]. *)
Definition drop_send (s : StreamId) : Prog World unit :=
  do (e, _) := with_core (effects_only (SendOps.drop_send_turn s)) in
  do _ := apply_effects e in
  request_driver.

(** [recv_id] and [send_id]; [None] is the panic of an id the [h3] crate has no room for. *)
Definition h3_id (s : StreamId) : option Z :=
  if is_u64_dec (get s) then if get s <? 2 ^ 62 then Some (get s) else None else None.

(** *** stream.rs: the receive stream *)

Definition poll_data (s : StreamId) (cx : Waker)
  : Prog World (Poll (result (option bytes) StreamErrorIncoming)) :=
  do (e, answer) := with_core (with_effects (RecvOps.data_turn s cx)) in
  do _ := apply_effects e in
  Ret answer.

Definition stop_sending (s : StreamId) (code : Z) : Prog World unit :=
  do (e, _) := with_core (effects_only (RecvOps.stop_turn s code)) in
  apply_effects (merge e go_on).

(** [impl Drop for RecvStream]. *)
Definition drop_recv (s : StreamId) : Prog World unit :=
  do (e, _) := with_core (effects_only (RecvOps.drop_recv_turn s)) in
  apply_effects (merge e go_on).

(** *** connection.rs *)

Definition poll_accept (kind : AcceptKind) (cx : Waker)
  : Prog World (Poll (result StreamId ConnectionErrorIncoming)) :=
  do (e, accepted) := under_lock (with_effects (accept kind cx)) in
  do _ := apply_effects e in
  Ret match accepted with
      | Err t => Ready (Err (Terminal.connection_error t))
      | Ok None => Pending
      | Ok (Some s) => Ready (Ok s)
      end.

Definition poll_accept_recv : Waker → Prog World (Poll (result StreamId ConnectionErrorIncoming)) :=
  poll_accept AcceptUni.
Definition poll_accept_bidi : Waker → Prog World (Poll (result StreamId ConnectionErrorIncoming)) :=
  poll_accept AcceptBidi.

(** The [unreachable!] arms are gone: the answer is the stream, of the kind asked for. *)
Definition poll_open_parts (opener : Z) (kind : OpenKind) (cx : Waker)
  : Prog World (Poll (result StreamId StreamErrorIncoming)) :=
  do (e, opened) := with_core (with_effects (open opener kind cx)) in
  do _ := apply_effects e in
  match opened with
  | Err t => Ret (Ready (Err (Terminal.stream_error t)))
  | Ok None => Ret Pending
  | Ok (Some s) => do _ := request_driver in Ret (Ready (Ok s))
  end.

Definition close_parts (code : Z) (reason : bytes) : Prog World unit :=
  do (e, _) := under_lock (effects_only (λ c, Some (close code reason c))) in
  do _ := apply_effects e in
  request_driver.

(** [Connection::opener] and [OpenStreams::clone]. *)
Definition opener : Prog World Z := under_lock (λ c, Some (allocate_opener c)).

(** [impl Drop] for [Connection] and [OpenStreams]. *)
Definition drop_opener (id : Z) : Prog World unit :=
  under_lock (λ c, Some (remove_opener id c, ())).

(** *** driver.rs *)

Definition completed (answer : result unit AdapterError) (c : Core)
  : Core * Poll (result unit AdapterError) :=
  (Fields.set_driver_complete true
     match answer with
     | Err error => Fields.set_driver_error (Some error) c
     | Ok _ => c
     end, Ready answer).

Definition close_turn (reason : CloseReason) (c : Core)
  : option (Core * Effects * Poll (result unit AdapterError)) :=
  let! (l, closed) := l_poll_close lower_waker reason (below c) in
  let c := Fields.set_below l c in
  match closed with
  | Ok (Ready _) =>
      if close_is_failure c then
        let! t := terminal c in
        let '(c, answer) := completed (Err (Terminal.driver_error t)) c in
        Some (c, no_effects, answer)
      else let '(c, answer) := completed (Ok ()) c in Some (c, no_effects, answer)
  | Err error =>
      let '(c, answer) := completed (Err (UndefinedError error)) c in
      Some (c, no_effects, answer)
  | Ok Pending => Some (c, no_effects, Pending)
  end.

Definition pump_turn (e : Effects) (c : Core)
  : option (Core * Effects * Poll (result unit AdapterError)) :=
  let queued_before := l_queued_output (below c) in
  let! (l, pumped) := l_poll_pump lower_waker (below c) in
  let c := Fields.set_below l c in
  let '(c, e) :=
    if decide (l_queued_output (below c) < queued_before)%nat then
      let '(c, more) := wake_output_senders c in (c, merge e more)
    else (c, e) in
  match pumped with
  | Err error =>
      let t := Terminal.from_lower error in
      let '(c, more) := fail t c in
      let '(c, answer) := completed (Err (Terminal.driver_error t)) c in
      Some (c, merge e more, answer)
  | Ok _ => Some (c, e, Pending)
  end.

(** The section of [Driver::poll]. *)
Definition driver_turn (c : Core)
  : option (Core * Effects * Poll (result unit AdapterError)) :=
  if driver_complete c then
    Some (c, no_effects,
          Ready match driver_error c with Some error => Err error | None => Ok () end)
  else
    match close_as c with
    | Some reason => close_turn reason c
    | None =>
        let! (c, e) := drive_turn lower_waker c in
        match terminal c with
        | Some t =>
            if bool_decide (is_Some (close_as c)) && close_is_failure c then
              Some (c, merge e go_on, Pending)
            else
              let '(c, answer) := completed (Err (Terminal.driver_error t)) c in
              Some (c, e, answer)
        | None => if continuation e then Some (c, e, Pending) else pump_turn e c
        end
    end.

Definition poll_driver (cx : Waker) : Prog World (Poll (result unit AdapterError)) :=
  do _ := act (on_wake (λ lw, (Wake.register_driver cx lw, []))) in
  do _ := act (on_wake (λ lw, ((Wake.take_ready lw).1, []))) in
  do (e, answer) := with_core (with_effects driver_turn) in
  do _ := apply_effects e in
  Ret answer.

(** *** lib.rs *)

(** The first opener is 0. *)
Definition from_qmux (l : lower) (pending_accept_limit : nat) : World :=
  mkWorld (new l pending_accept_limit) Wake.new [].

(** What the reactor does when the stream below becomes ready. *)
Definition reactor : Prog World unit := act (λ w, wake_one w lower_waker).
End Ops.
End Adapter.
