(* ===== verification/H3QmuxFacts.v ===== *)
(** * The adapter keeps what it promises, however its sections interleave

    Any number of tasks call methods of the handles and poll the driver; a step of the
    [System] is one section of one of them, or a new call.  The connection below is any that
    obeys [LowerLaws], with what it delivers and is credited written down ([recording]).
    [Fine] is the invariant every section keeps. *)

From Stdlib Require Import ZArith Lia Strings.Byte.
From stdpp Require Import base list gmap strings sorting relations.
From S2P Require Import Prelude Varint CloseCodec QmuxError QmuxTypes QmuxConn QmuxWrite RecordFramer QmuxScheduling QmuxIo QmuxLower H3Qmux.
Import Stream Fields CoreOps.

(** ** Tasks made of sections *)
Section Systems.
Context {W : Type}.
Implicit Type I : W → Prop.

Fixpoint keeps {A} I (p : Prog W A) : Prop :=
  match p with
  | Ret _ => True
  | Sect f next => ∀ w, I w → ∃ w' r, f w = Some (w', r) ∧ I w' ∧ keeps I (next r)
  end.

Lemma sections_bind {A B} I (p : Prog W A) (k : A → Prog W B) :
  keeps I p → (∀ a, keeps I (k a)) → keeps I (bind p k).
Proof.
  intros Hp Hk. induction p as [a|R f next IH]; simpl in *; [apply Hk|].
  intros w HI. destruct (Hp w HI) as (w' & r & Hf & HI' & Hn). eauto 6.
Qed.

Lemma sections_alone {A} I (p : Prog W A) w :
  keeps I p → I w → ∃ w' a, alone p w = Some (w', a) ∧ I w'.
Proof.
  revert w. induction p as [a|R f next IH]; intros w Hp HI; simpl in *; [eauto|].
  destruct (Hp w HI) as (w' & r & -> & HI' & Hn). eauto.
Qed.

Definition System : Type := W * list (Prog W unit).

(** One section of some task, or a new task. *)
Inductive sys_step (calls : Prog W unit → Prop) : System → System → Prop :=
| sys_call w ts p : calls p → sys_step calls (w, ts) (w, ts ++ [p])
| sys_section w ts i R (f : W → option (W * R)) next w' r :
    ts !! i = Some (Sect f next) → f w = Some (w', r) →
    sys_step calls (w, ts) (w', <[i := next r]> ts).

(** No task's next section panics. *)
Definition no_panic (s : System) : Prop :=
  ∀ i R (f : W → option (W * R)) next, s.2 !! i = Some (Sect f next) → is_Some (f s.1).

Lemma system_keeps I calls w s :
  (∀ p, calls p → keeps I p) → I w → rtc (sys_step calls) (w, []) s →
  I s.1 ∧ no_panic s.
Proof.
  intros Hcalls HI Hsteps.
  assert (I s.1 ∧ Forall (keeps I) s.2) as [HI' Hts].
  { revert s Hsteps. apply rtc_ind_r; [by split|].
    intros s1 s2 _ Hstep [HI1 Hts]. destruct Hstep as [w1 ts p Hp|w1 ts i R f next w2 r Hi Hf];
      simpl in *.
    - split; [done|]. apply Forall_app; auto.
    - pose proof (proj1 (Forall_lookup _ _) Hts _ _ Hi w1 HI1) as (w' & r' & Hf' & HI2 & Hn).
      rewrite Hf in Hf'. simplify_eq. split; [done|]. by apply Forall_insert. }
  split; [done|]. intros i R f next Hi.
  pose proof (proj1 (Forall_lookup _ _) Hts _ _ Hi _ HI') as (w' & r' & Hf & _). eauto.
Qed.
End Systems.

(** ** The invariant *)
Section Facts.
Context `{Wk : Wakers} {Low : QmuxLower} {Laws : LowerLaws} {Rec : Recorded} `{Bufs : SendBufs}.
(** Whether [poll_send] is called. *)
Variable unframed : bool.
Implicit Types (c : Core) (s : StreamId) (st : StreamState).

Definition pending c : list StreamId := pending_uni c ++ pending_bidi c.

(** Nobody is parked on a stream; [poll_send] parks without looking at the ending. *)
Definition calm_stream st : Prop :=
  recv_waiter st = None ∧ finish_waiter st = None ∧ (unframed = false → send_waiter st = None).

Definition calm_opener (o : OpenerWaiters) : Prop := o_uni o = None ∧ o_bidi o = None.

Definition calm c : Prop :=
  accept_uni c = None ∧ accept_bidi c = None ∧
  map_Forall (λ _, calm_opener) (openers c) ∧ map_Forall (λ _, calm_stream) (streams c).

Definition retained_all (m : gmap Z StreamState) : Z :=
  map_fold (λ _ st n, retained st + n) 0 m.

(** Streams wait to be accepted once, in the queue of their kind. *)
Record Queued c : Prop := {
  q_nodup : NoDup (pending c);
  q_pending s :
    s ∈ pending c ↔ ∃ st, streams c !! get s = Some st ∧ pending_accept st = true;
  q_uni : Forall (λ s, directionality s = Unidirectional) (pending_uni c);
  q_bidi : Forall (λ s, directionality s = Bidirectional) (pending_bidi c);
  q_room : (length (pending c) ≤ pending_limit c)%nat
}.

(** [slack]: octets a section has taken and not credited yet. *)
Record Fine (slack : Z) c : Prop := {
  f_lower : lower_ok (role c) (below c);
  f_local k st :
    streams c !! k = Some st → initiator_is_local (mkStreamId k) c = true →
    k ∈ given_out (below c);
  f_queued : Queued c;
  f_close : is_Some (close_as c) → is_Some (terminal c);
  f_failure : close_is_failure c = true → is_Some (close_as c);
  f_credit : terminal c = None →
    balance (calls (below c)) = retained_all (streams c) + slack;
  f_calm : is_Some (terminal c) → calm c
}.

Lemma get_inj s s' : get s = get s' → s = s'.
Proof. destruct s, s'. by intros [= ->]. Qed.

Lemma retained_delete m k st :
  m !! k = Some st → retained_all m = retained st + retained_all (delete k m).
Proof. intros. unfold retained_all.
  apply (map_fold_delete_L (λ _ st n, retained st + n) 0 k st m); [intros; lia|done]. Qed.

Lemma retained_insert m k st st' :
  m !! k = Some st → retained_all (<[k := st']> m) = retained_all m - retained st + retained st'.
Proof.
  intros Hk. rewrite (retained_delete (<[k := st']> m) k st') by apply lookup_insert_eq.
  rewrite delete_insert_eq, (retained_delete m k st Hk). lia.
Qed.

Lemma retained_fresh m k st :
  m !! k = None → retained_all (<[k := st]> m) = retained st + retained_all m.
Proof.
  intros. rewrite (retained_delete (<[k := st]> m) k st) by apply lookup_insert_eq.
  by rewrite delete_insert_eq, delete_id.
Qed.

Lemma retained_fmap f m :
  (∀ st, retained (f st) = retained st) → retained_all (f <$> m) = retained_all m.
Proof.
  intros Hf. induction m as [|k st m Hk IH] using map_ind; [by rewrite fmap_empty|].
  rewrite fmap_insert, !retained_fresh by (try rewrite lookup_fmap; by rewrite ?Hk).
  by rewrite Hf, IH.
Qed.

(** *** What the sections are made of *)

(** A stream changes, but not whether it waits to be accepted. *)
Lemma fine_stream slack slack' c k st st' :
  Fine slack c → streams c !! k = Some st → pending_accept st' = pending_accept st →
  (terminal c = None → retained st + slack = retained st' + slack') →
  (is_Some (terminal c) → calm_stream st → calm_stream st') →
  Fine slack' (set_streams (<[k := st']> (streams c)) c).
Proof.
  intros [Hl Ho Hq Hc Hf Hcr Hcalm] Hk Hp Hr Hcs. split; simpl; try done.
  - intros k' st1 [[<- ->]|[Hne Hk']]%lookup_insert_Some Hloc; eauto.
  - destruct Hq as [Hnd Hpe Hu Hb Hroom]. split; try done. intros s. change (pending _) with (pending c).
    rewrite Hpe. simpl. split.
    + intros (st1 & Hst1 & Hp1). destruct (decide (get s = k)) as [<-|Hne].
      * rewrite lookup_insert_eq. exists st'. split; [done|congruence].
      * rewrite lookup_insert_ne by done. eauto.
    + intros (st1 & [[<- ->]|[Hne Hst1]]%lookup_insert_Some & Hp1); [|eauto].
      exists st. split; [done|congruence].
  - intros Ht. rewrite (retained_insert _ _ _ _ Hk). specialize (Hcr Ht). specialize (Hr Ht). lia.
  - intros Ht. destruct (Hcalm Ht) as (? & ? & ? & Hst). unfold calm; simpl; split_and!; try done.
    apply map_Forall_insert_2; [|done]. apply Hcs; [done|]. by apply (Hst k).
Qed.

(** The connection below is used. *)
Lemma fine_below slack slack' c l :
  Fine slack c → stays (role c) (below c) l →
  (terminal c = None →
     balance (calls l) - slack' = balance (calls (below c)) - slack) →
  Fine slack' (set_below l c).
Proof.
  intros [Hl Ho Hq Hc Hf Hcr Hcalm] [Hok Hsub] Hb. split; simpl; try done.
  - intros k st Hk Hloc. apply Hsub. eauto.
  - by destruct Hq.
  - intros Ht. specialize (Hcr Ht). specialize (Hb Ht). lia.
Qed.

(** Every stream changes alike. *)
Lemma fine_streams slack f c :
  Fine slack c → (∀ st, pending_accept (f st) = pending_accept st) →
  (∀ st, retained (f st) = retained st) → (∀ st, calm_stream st → calm_stream (f st)) →
  Fine slack (set_streams (f <$> streams c) c).
Proof.
  intros [Hl Ho Hq Hc Hf Hcr Hcalm] Hp Hr Hcs. split; simpl; try done.
  - intros k st Hk Hloc. rewrite lookup_fmap in Hk. apply fmap_Some in Hk as (st0 & Hk & _). eauto.
  - destruct Hq as [Hnd Hpe Hu Hb Hroom]. split; try done. intros s.
    change (pending _) with (pending c). rewrite Hpe. simpl. rewrite lookup_fmap. split.
    + intros (st & -> & Hst). exists (f st). by rewrite Hp.
    + intros (st & (st0 & Hst0 & ->)%fmap_Some & Hst). rewrite Hp in Hst. eauto.
  - intros Ht. rewrite retained_fmap by done. auto.
  - intros Ht. destruct (Hcalm Ht) as (? & ? & ? & Hst). unfold calm; simpl; split_and!; try done.
    intros k st Hk. simpl in Hk. rewrite lookup_fmap in Hk. apply fmap_Some in Hk as (st0 & Hk & ->).
    apply Hcs. by apply (Hst k).
Qed.

(** Nothing but waiters changes outside the streams. *)
Lemma fine_waiters slack c u b o :
  Fine slack c → (is_Some (terminal c) →
    accept_uni c = None → accept_bidi c = None → map_Forall (λ _, calm_opener) (openers c) →
    u = None ∧ b = None ∧ map_Forall (λ _, calm_opener) o) →
  Fine slack (set_openers o (set_accept_bidi b (set_accept_uni u c))).
Proof.
  intros [Hl Ho Hq Hc Hf Hcr Hcalm] Hw. split; simpl; try done.
  - by destruct Hq.
  - intros Ht. destruct (Hcalm Ht) as (Hu & Hb & Hop & Hst).
    destruct (Hw Ht Hu Hb Hop) as (-> & -> & ?). by unfold calm; simpl; split_and!.
Qed.

(** *** Ending *)
Lemma slots_taken ks st : (take_slots ks st).1 = foldl (λ st k, set_slot k None st) st ks.
Proof.
  revert st. induction ks as [|k ks IH]; intros st; [done|]. simpl.
  specialize (IH (set_slot k None st)). by destruct (take_slots ks _).
Qed.

Lemma fail_ends t c : is_Some (terminal (fail t c).1).
Proof. unfold fail. destruct (terminal c) eqn:E; simpl; rewrite ?E; eauto. Qed.

Lemma fail_close t c :
  close_as (fail t c).1 = close_as c ∧ close_is_failure (fail t c).1 = close_is_failure c.
Proof. unfold fail. by destruct (terminal c). Qed.

(** The connection ends, with or without a close of this side's. *)
Lemma fail_fine slack slack' t failure closing c :
  Fine slack c → (failure = true → is_Some closing) →
  Fine slack' (fail t (set_close_is_failure failure (set_close_as closing c))).1.
Proof.
  intros [Hl Ho Hq Hc Hf Hcr Hcalm] Hfail.
  assert (Hgone : terminal (fail t (set_close_is_failure failure (set_close_as closing c))).1
                  ≠ None) by (intros E; destruct (fail_ends t
    (set_close_is_failure failure (set_close_as closing c))) as [? E']; congruence).
  unfold fail in *. simpl in *. destruct (terminal c) as [t'|] eqn:Ht; simpl in *.
  { split; simpl; rewrite ?Ht; eauto; try done. by destruct Hq. }
  split; simpl; eauto; try done.
  - intros k st Hk Hloc. rewrite lookup_fmap in Hk. apply fmap_Some in Hk as (st0 & Hk & _). eauto.
  - destruct Hq as [Hnd Hpe Hu Hb Hroom]. split; try done. intros s.
    change (pending _) with (pending c). rewrite Hpe. simpl. rewrite lookup_fmap. split.
    + intros (st & -> & Hst). eexists. split; [done|]. by destruct st.
    + intros (st & (st0 & Hst0 & ->)%fmap_Some & Hst). exists st0. split; [done|]. by destruct st0.
  - intros _. unfold calm; simpl; split_and!; try done.
    + intros k o Hk. rewrite lookup_fmap in Hk. by apply fmap_Some in Hk as (? & _ & ->).
    + intros k st Hk. rewrite lookup_fmap in Hk. by apply fmap_Some in Hk as (? & _ & ->).
Qed.

Lemma same_close c : set_close_is_failure (close_is_failure c) (set_close_as (close_as c) c) = c.
Proof. by destruct c. Qed.

Lemma same_failure cl c :
  set_close_is_failure (close_is_failure c) (set_close_as cl c) = set_close_as cl c.
Proof. by destruct c. Qed.

Lemma fine_fail slack slack' t c : Fine slack c → Fine slack' (fail t c).1.
Proof.
  intros Hc. rewrite <-(same_close c). apply (fail_fine slack); [done|]. apply Hc.
Qed.

Lemma fine_close slack code reason c : Fine slack c → Fine slack (close code reason c).1.
Proof.
  intros Hc. unfold close. destruct (close_as c) eqn:E; [done|].
  rewrite <-same_failure. apply (fail_fine slack); [done|]. eauto.
Qed.

(** *** Waking *)
Lemma fine_all_senders slack c : Fine slack c → Fine slack (wake_all_senders c).1.
Proof.
  intros Hc. unfold wake_all_senders. simpl.
  apply fine_streams; [done|by intros []..|]. by intros [] (? & ? & ?).
Qed.

Lemma fine_output_senders slack c : Fine slack c → Fine slack (wake_output_senders c).1.
Proof.
  intros Hc. unfold wake_output_senders. simpl.
  apply fine_streams; [done|..]; intros []; unfold wake_output; simpl;
    repeat case_match; simplify_eq/=; try done; by intros (? & ? & ?).
Qed.

Lemma fine_openers slack kind c : Fine slack c → Fine slack (wake_openers kind c).1.
Proof.
  intros Hc.
  assert (E : (wake_openers kind c).1 =
    set_openers (openers (wake_openers kind c).1)
      (set_accept_bidi (accept_bidi c) (set_accept_uni (accept_uni c) c)))
    by by destruct c.
  rewrite E. apply fine_waiters; [done|]. intros _ -> -> Ho. split_and!; try done.
  intros k o Hk. simpl in Hk. rewrite lookup_fmap in Hk. apply fmap_Some in Hk as (o' & Hk & ->).
  destruct (Ho k o' Hk). by destruct kind.
Qed.

(** *** Peer streams *)
Lemma fine_pending slack c s st :
  Fine slack c → streams c !! get s = Some st → s ∈ pending c → pending_accept st = true.
Proof.
  intros Hc Hs Hin. apply (q_pending _ (f_queued _ _ Hc)) in Hin as (st' & Hst' & Hp).
  congruence.
Qed.

(** A stream appears that does not wait to be accepted. *)
Lemma fine_insert slack c s st :
  Fine slack c → streams c !! get s = None → pending_accept st = false → retained st = 0 →
  terminal c = None → get s ∈ given_out (below c) →
  Fine slack (set_streams (<[get s := st]> (streams c)) c).
Proof.
  intros [Hl Ho Hq Hc Hf Hcr Hcalm] Hs Hp Hr Ht Hg. split; simpl; try done.
  - intros k st1 [[<- ->]|[Hne Hk']]%lookup_insert_Some Hloc; eauto.
  - destruct Hq as [Hnd Hpe Hu Hb Hroom]. split; try done. intros s'.
    change (pending _) with (pending c). rewrite Hpe. simpl. split.
    + intros (st1 & Hst1 & Hp1). exists st1. rewrite lookup_insert_ne; [done|congruence].
    + intros (st1 & [[<- ->]|[Hne Hst1]]%lookup_insert_Some & Hp1); [congruence|eauto].
  - intros _. rewrite retained_fresh by done. rewrite Hr. auto.
  - intros [? ?]. congruence.
Qed.

(** A peer's stream is discovered. *)
Lemma fine_discovered slack c s uni bidi u b :
  Fine slack c → streams c !! get s = None → terminal c = None →
  initiator_is_local s c = false →
  (uni ++ bidi) ≡ₚ s :: pending c →
  Forall (λ s, directionality s = Unidirectional) uni →
  Forall (λ s, directionality s = Bidirectional) bidi →
  (length (pending c) < pending_limit c)%nat →
  Fine slack (set_accept_bidi b (set_accept_uni u (set_pending_bidi bidi (set_pending_uni uni
    (set_streams (<[get s := set_pending_accept true stream_default]> (streams c)) c))))).
Proof.
  intros [Hl Ho Hq Hc Hf Hcr Hcalm] Hs Ht Hloc Hperm Huni Hbidi Hlen. split; simpl; try done.
  - intros k st1 [[<- ->]|[Hne Hk']]%lookup_insert_Some Hk; [|eauto].
    replace (mkStreamId (get s)) with s in Hk by by destruct s.
    unfold initiator_is_local, local_initiator in *. simpl in *. congruence.
  - destruct Hq as [Hnd Hpe Hu Hb Hroom]. split; try done.
    + unfold pending at 1. simpl. rewrite Hperm. constructor; [|done].
      rewrite Hpe, Hs. by intros (? & ? & _).
    + intros s'. unfold pending. simpl. rewrite Hperm, list.elem_of_cons, Hpe. split.
      * intros [->|(st & Hst & Hp)]; [rewrite lookup_insert_eq; eauto|].
        exists st. rewrite lookup_insert_ne; [done|congruence].
      * intros (st & [[E _]|[Hne Hst]]%lookup_insert_Some & Hp);
          [left; symmetry; by apply get_inj|eauto].
    + unfold pending in *. simpl. rewrite Hperm. simpl in *. lia.
  - intros _. rewrite retained_fresh by done. cbn. auto.
  - intros [? ?]. congruence.
Qed.

Lemma contains_lookup s c : contains s c = true → is_Some (streams c !! get s).
Proof. unfold contains. destruct (streams c !! get s); [eauto|done]. Qed.

Lemma discover_fine slack s c :
  Fine slack c → terminal c = None →
  let r := discover_peer s c in
  if r.2 then Fine slack r.1.1 ∧ is_Some (streams r.1.1 !! get s) ∧ terminal r.1.1 = None
  else ∀ slack', Fine slack' r.1.1.
Proof.
  intros Hc Ht. unfold discover_peer, contains.
  destruct (streams c !! get s) as [st|] eqn:Hs; [by split_and!; [| rewrite ?Hs; eauto |]|].
  destruct (initiator_is_local s c) eqn:Hloc.
  { destruct (fail _ c) as [c' e] eqn:E. simpl. intros slack'.
    change c' with (c', e).1. rewrite <-E. by apply (fine_fail slack). }
  case_decide as Hroom.
  { match goal with |- context [fail ?t ?c1] => destruct (fail t c1) as [c' e] eqn:E end.
    simpl. intros slack'. change c' with (c', e).1. rewrite <-E. destruct (close_as c) eqn:Hcl.
    - replace (set_close_is_failure true c) with
        (set_close_is_failure true (set_close_as (close_as c) c)) by by destruct c.
      apply (fail_fine slack); [done|]. rewrite Hcl. eauto.
    - apply (fail_fine slack); [done|]. eauto. }
  assert (Hlen : (length (pending c) < pending_limit c)%nat)
    by (unfold pending; rewrite length_app; lia).
  pose proof (f_queued _ _ Hc) as [_ _ Hu Hb _].
  destruct (directionality s) eqn:Hdir; simpl; rewrite lookup_insert_eq;
    (split; [|split; [eauto|done]]).
  - exact (fine_discovered slack c s (pending_uni c) (pending_bidi c ++ [s]) (accept_uni c) None
      Hc Hs Ht Hloc ltac:(rewrite app_assoc; symmetry; apply Permutation_cons_append)
      Hu ltac:(apply Forall_app; auto) Hlen).
  - exact (fine_discovered slack c s (pending_uni c ++ [s]) (pending_bidi c) None (accept_bidi c)
      Hc Hs Ht Hloc ltac:(rewrite <-app_assoc; symmetry; apply Permutation_middle)
      ltac:(apply Forall_app; auto) Hb Hlen).
Qed.

(** *** Streams that are over *)
Lemma fine_cleanup slack s c : Fine slack c → Fine slack (cleanup s c).
Proof.
  intros Hc. unfold cleanup. destruct (streams c !! get s) as [st|] eqn:Hs; [|done].
  unfold removable. case_match eqn:Hrem; [|done].
  rewrite !andb_true_iff, !negb_true_iff, bool_decide_eq_true in Hrem.
  destruct Hrem as ((((Hp & _) & _) & _) & Hrecv).
  destruct Hc as [Hl Ho Hq Hcl Hf Hcr Hcalm]. split; simpl; try done.
  - intros k st1 [_ Hk]%lookup_delete_Some. eauto.
  - destruct Hq as [Hnd Hpe Hu Hb Hroom]. split; try done. intros s'.
    change (pending _) with (pending c). rewrite Hpe. simpl. split.
    + intros (st1 & Hst1 & Hp1). exists st1. rewrite lookup_delete_ne; [done|congruence].
    + intros (st1 & [_ Hst1]%lookup_delete_Some & Hp1). eauto.
  - intros Ht. rewrite (Hcr Ht), (retained_delete _ _ _ Hs). unfold retained at 1.
    rewrite Hrecv. simpl. lia.
  - intros Ht. destruct (Hcalm Ht) as (? & ? & ? & Hst). unfold calm; simpl; split_and!; try done.
    by apply map_Forall_delete.
Qed.

Lemma with_stream_fine slack s f c :
  Fine slack c → (∀ st, pending_accept (f st).1 = pending_accept st) →
  (∀ st, retained (f st).1 = retained st) → (∀ st, calm_stream st → calm_stream (f st).1) →
  Fine slack (with_stream s f c).1.
Proof.
  intros Hc Hp Hr Hcs. unfold with_stream. destruct (streams c !! get s) as [st|] eqn:Hs; [|done].
  specialize (Hp st). specialize (Hr st). specialize (Hcs st).
  destruct (f st) as [st' w]. simpl in *. apply (fine_stream slack _ c _ st); auto. intros _. lia.
Qed.

(** *** Events from below *)

(** A section that answers, and leaves the adapter as it should be. *)
Definition answers (r : option (Core * Effects)) : Prop :=
  ∃ c' e, r = Some (c', e) ∧ Fine 0 c'.

Lemma answers_some p : Fine 0 p.1 → answers (Some p).
Proof. destruct p as [c e]. unfold answers. eauto. Qed.

Lemma fail_answers slack t c : Fine slack c → answers (Some (fail t c)).
Proof. intros Hc. apply answers_some. by apply (fine_fail slack). Qed.

(** Credit for all that was waiting for it. *)
Lemma fine_credited c n l a :
  Fine n c → l_extend_connection_credit n (below c) = Some (l, a) →
  stays (role c) (below c) l →
  if is_ok a then Fine 0 (set_below l c) else ∀ t, Fine 0 (fail t (set_below l c)).1.
Proof.
  intros Hc E Hst. apply rec_connection_credit in E. destruct a; simpl in *.
  - apply (fine_below n); [done..|]. intros _. rewrite E, balance_app. cbn. lia.
  - intros t. apply (fine_fail n). apply (fine_below n); [done..|]. intros _.
    rewrite E, balance_app. cbn. lia.
Qed.

Lemma retained_push st item :
  retained (set_recv (recv st ++ [item]) st) = retained st + Z.of_nat (length (r_data item)).
Proof. unfold retained. simpl. rewrite sum_list_with_app. simpl. lia. Qed.

Lemma route_data_fine s data fin c :
  Fine (Z.of_nat (length data)) c → terminal c = None → answers (route_data s data fin c).
Proof.
  intros Hc Ht. unfold route_data. destruct (negb _); [by eapply fail_answers|].
  pose proof (discover_fine _ s c Hc Ht) as Hd.
  destruct (discover_peer s c) as [[c1 e] found]. simpl in Hd. destruct found; simpl.
  2: by apply answers_some.
  destruct Hd as (Hc1 & [st Hs] & Ht1). rewrite Hs.
  destruct (recv_shutdown_sent st).
  - case_decide as Hdata; [subst; by apply answers_some|].
    pose proof (ok_connection_credit _ _ (Z.of_nat (length data)) (f_lower _ _ Hc1))
      as (l & a & E & Hst).
    rewrite E. pose proof (fine_credited c1 _ l a Hc1 E Hst) as Hf.
    destruct a; simpl in Hf; by apply answers_some.
  - case_decide as Hdata; [subst data; simpl in *|].
    + destruct (recv_terminal st) eqn:Hrt; [by apply answers_some|].
      destruct fin; simpl; apply answers_some; simpl; [|done].
      apply (fine_stream 0 _ c1 _ st); try done. intros [? ?]. congruence.
    + simpl. apply answers_some. simpl.
      apply (fine_stream (Z.of_nat (length data)) _ c1 _ st); try done.
      * intros _. unfold retained. simpl. rewrite sum_list_with_app. simpl. lia.
      * intros [? ?]. congruence.
Qed.

Lemma route_fine event c :
  Fine (event_octets event) c → terminal c = None → answers (route event c).
Proof.
  intros Hc Ht. destruct event; cbn [route event_octets] in *.
  - by apply route_data_fine.
  - case_match; [by eapply fail_answers|].
    pose proof (discover_fine _ stream_id c Hc Ht) as Hd. apply answers_some.
    destruct (discover_peer stream_id c) as [[c1 e] []]; simpl in *; [apply Hd|auto].
  - match goal with |- context [with_stream ?s ?f c] =>
      pose proof (with_stream_fine 0 s f c Hc) as Hw; destruct (with_stream s f c) as [c1 e] end.
    apply answers_some. simpl in *. apply fine_cleanup, Hw; by intros [].
  - apply answers_some, with_stream_fine; [done|by intros []..|]. by intros [] (? & ? & ?).
  - apply answers_some, with_stream_fine; [done|by intros []..|]. by intros [] (? & ? & ?).
  - apply answers_some, with_stream_fine; [done|by intros []..|]. by intros [] (? & ? & ?).
  - by apply answers_some, fine_all_senders.
  - destruct kind; apply answers_some; try done; by apply fine_openers.
  - pose proof (fine_openers 0 Bidi c Hc) as H1. destruct (wake_openers Bidi c) as [c1 e1].
    pose proof (fine_openers 0 Uni c1 H1) as H2. destruct (wake_openers Uni c1) as [c2 e2].
    pose proof (fine_all_senders 0 c2 H2) as H3. destruct (wake_all_senders c2) as [c3 e3].
    by apply answers_some.
Qed.

Lemma fine_delivered c l event :
  Fine 0 c → stays (role c) (below c) l → calls l = calls (below c) ++ [Delivered event] →
  Fine (event_octets event) (set_below l c).
Proof.
  intros Hc Hst E. apply (fine_below 0); [done..|]. intros _. rewrite E, balance_app. cbn. lia.
Qed.

Lemma fine_untouched slack c l :
  Fine slack c → stays (role c) (below c) l → calls l = calls (below c) →
  Fine slack (set_below l c).
Proof. intros Hc Hst E. apply (fine_below slack); [done..|]. intros _. by rewrite E. Qed.

Lemma route_queued_fine n c e :
  Fine 0 c → ∃ c' e' n', route_queued n c e = Some (c', e', n') ∧ Fine 0 c'.
Proof.
  revert c e. induction n as [|n IH]; intros c e Hc; simpl; [eauto 6|].
  destruct (terminal c) eqn:Ht; [eauto 6|].
  pose proof (ok_try_next _ _ (f_lower _ _ Hc)) as Hst.
  destruct (l_try_next_event (below c)) as [l [event|]] eqn:E; simpl in *;
    pose proof (rec_try_next _ _ _ E) as Hcalls; simpl in Hcalls.
  - pose proof (fine_delivered c l event Hc Hst Hcalls) as Hd.
    destruct (route_fine event _ Hd Ht) as (c1 & e1 & -> & Hc1). by apply IH.
  - rewrite app_nil_r in Hcalls. eauto 6 using fine_untouched.
Qed.

Lemma route_polled_fine cx c :
  Fine 0 c → terminal c = None → ∃ c' e b, route_polled cx c = Some (c', e, b) ∧ Fine 0 c'.
Proof.
  intros Hc Ht. unfold route_polled.
  destruct (ok_poll_next _ _ cx (f_lower _ _ Hc)) as (l & a & E & Hst).
  rewrite E. apply rec_poll_next in E. destruct a as [[|event]|error]; simpl in E.
  - rewrite app_nil_r in E. eauto 6 using fine_untouched.
  - pose proof (fine_delivered c l event Hc Hst E) as Hd.
    destruct (route_fine event _ Hd Ht) as (c1 & e1 & -> & Hc1). eauto 6.
  - rewrite app_nil_r in E.
    pose proof (fine_fail 0 0 (Terminal.from_lower error) (set_below l c)
                  (fine_untouched _ _ _ Hc Hst E)) as Hf.
    destruct (fail _ _) as [c1 e1]. eauto 6.
Qed.

Lemma drive_turn_fine cx c : Fine 0 c → answers (drive_turn cx c).
Proof.
  intros Hc. unfold drive_turn. destruct (terminal c) eqn:Ht; [by apply answers_some|].
  destruct (route_queued_fine ROUTE_BUDGET c no_effects Hc) as (c1 & e1 & n1 & -> & Hc1).
  destruct (terminal c1) eqn:Ht1; [by apply answers_some|].
  assert (Hmid : ∃ c2 e2 n2 b,
    (if decide (n1 = 0%nat) then Some (c1, e1, n1, false)
     else let! (c, more, ready) := route_polled cx c1 in
          let! (c, e, budget) :=
            route_queued (if ready then Nat.pred n1 else n1) c (merge e1 more) in
          Some (c, e, budget, ready)) = Some (c2, e2, n2, b) ∧ Fine 0 c2).
  { case_decide; [eauto 8|].
    destruct (route_polled_fine cx c1 Hc1 Ht1) as (c2 & e2 & b & -> & Hc2).
    destruct (route_queued_fine (if b then Nat.pred n1 else n1) c2 (merge e1 e2) Hc2)
      as (c3 & e3 & n3 & -> & Hc3). eauto 8. }
  destruct Hmid as (c2 & e2 & n2 & b & -> & Hc2).
  destruct (terminal c2); [by apply answers_some|].
  case_decide; [|by apply answers_some].
  pose proof (fine_output_senders 0 c2 Hc2) as Hw.
  destruct (wake_output_senders c2) as [c3 e3]. by apply answers_some.
Qed.

(** *** Accepting, opening and parking *)

(** As [answers], with an answer. *)
Definition answers3 {A} (r : option (Core * Effects * A)) : Prop :=
  ∃ c' e a, r = Some (c', e, a) ∧ Fine 0 c'.

Lemma answers3_some {A} (p : Core * Effects * A) : Fine 0 p.1.1 → answers3 (Some p).
Proof. destruct p as [[c e] a]. unfold answers3. eauto 6. Qed.

Lemma queue_accepted kind s queue c st st' :
  Queued c → accept_queue kind c = s :: queue → streams c !! get s = Some st →
  pending_accept st' = false →
  Queued (set_streams (<[get s := st']> (streams c)) (set_accept_queue kind queue c)).
Proof.
  intros [Hnd Hpe Hu Hb Hroom] Hq Hs Hp.
  set (c' := set_streams _ _).
  assert (Hperm : pending c ≡ₚ s :: pending c').
  { unfold pending. destruct kind; simpl in *; rewrite Hq; [done|]. symmetry.
    apply Permutation_middle. }
  rewrite Hperm in Hnd. apply NoDup_cons in Hnd as [Hnew Hnd].
  split; try done.
  - intros s'. destruct (decide (s' = s)) as [->|Hne].
    + split; [done|]. destruct kind; simpl; rewrite lookup_insert_eq; intros (? & ? & ?); congruence.
    + assert (s' ∈ pending c' ↔ s' ∈ pending c) as ->.
      { rewrite Hperm, list.elem_of_cons. tauto. }
      rewrite Hpe. destruct kind; simpl; rewrite lookup_insert_ne;
        try done; intros E; by apply Hne, get_inj.
  - destruct kind; simpl in *; [|done]. rewrite Hq in Hu. by eapply Forall_cons.
  - destruct kind; simpl in *; [done|]. rewrite Hq in Hb. by eapply Forall_cons.
  - rewrite Hperm in Hroom. simpl in Hroom. destruct kind; simpl; lia.
Qed.

Lemma fine_accepted kind s queue c st st' :
  Fine 0 c → terminal c = None → accept_queue kind c = s :: queue →
  streams c !! get s = Some st → pending_accept st' = false → retained st' = retained st →
  Fine 0 (set_streams (<[get s := st']> (streams c)) (set_accept_queue kind queue c)).
Proof.
  intros [Hl Ho Hque Hcl Hf Hcr Hcalm] Ht Hq Hs Hp Hr.
  pose proof (queue_accepted kind s queue c st st' Hque Hq Hs Hp).
  destruct kind; (split; simpl; try done;
   [intros k st1 [[<- ->]|[Hne Hk]]%lookup_insert_Some Hloc; eauto
   |intros _; rewrite (retained_insert _ _ _ _ Hs), (Hcr Ht); lia
   |intros [? ?]; congruence]).
Qed.

Lemma accept_fine kind waker c : Fine 0 c → answers3 (accept kind waker c).
Proof.
  intros Hc. unfold accept. destruct (terminal c) eqn:Ht; [by apply answers3_some|].
  destruct (accept_queue kind c) as [|s queue] eqn:Hq.
  - destruct (replace_waiter _ _) as [held written]. apply answers3_some. simpl.
    destruct kind; [|]; simpl.
    + replace (set_accept_uni held c) with (set_openers (openers c) (set_accept_bidi
        (accept_bidi c) (set_accept_uni held c))) by by destruct c.
      apply fine_waiters; [done|]. intros [? ?]; congruence.
    + replace (set_accept_bidi held c) with (set_openers (openers c) (set_accept_bidi
        held (set_accept_uni (accept_uni c) c))) by by destruct c.
      apply fine_waiters; [done|]. intros [? ?]; congruence.
  - assert (Hin : s ∈ pending c)
      by (unfold pending; destruct kind; simpl in Hq; rewrite Hq; set_solver).
    apply (q_pending _ (f_queued _ _ Hc)) in Hin as (st & Hs & Hp).
    assert (E : streams (set_accept_queue kind queue c) = streams c) by by destruct kind.
    cbv zeta. rewrite E, Hs. apply answers3_some. simpl.
    apply (fine_accepted kind s queue c st); try done; by destruct kind.
Qed.

Lemma open_fine opener kind waker c : Fine 0 c → answers3 (open opener kind waker c).
Proof.
  intros Hc. unfold open. destruct (terminal c) eqn:Ht; [by apply answers3_some|].
  destruct (ok_open _ _ kind (f_lower _ _ Hc)) as (l & a & E & Hst & Hnew). rewrite E.
  pose proof (fine_untouched 0 c l Hc Hst (rec_open _ _ _ _ E)) as Hc'.
  destruct a as [[s|]|error].
  - destruct (Hnew s eq_refl) as (Hfresh & Hgiven & Hini). apply answers3_some. simpl.
    apply (fine_insert 0 (set_below l c)); try done; [|by destruct kind..].
    simpl. destruct (streams c !! get s) eqn:Hs; [|done]. destruct Hfresh.
    apply (f_local _ _ Hc _ _ Hs). unfold initiator_is_local, local_initiator.
    replace (mkStreamId (get s)) with s by by destruct s. rewrite Hini. by destruct (role c).
  - destruct (replace_waiter _ _) as [held written]. apply answers3_some. simpl.
    match goal with |- Fine _ (set_openers ?o ?c0) =>
      replace (set_openers o c0) with (set_openers o (set_accept_bidi
        (accept_bidi c0) (set_accept_uni (accept_uni c0) c0))) by by destruct c end.
    apply fine_waiters; [done|]. intros [? ?]; simpl in *; congruence.
  - pose proof (fine_fail 0 0 (Terminal.from_lower error) _ Hc') as Hf.
    destruct (fail _ _) as [c1 e1]. by apply answers3_some.
Qed.

Lemma fine_allocated c : Fine 0 c → Fine 0 (allocate_opener c).1.
Proof.
  intros Hc. unfold allocate_opener. simpl.
  match goal with |- Fine _ (set_openers ?o ?c0) =>
    replace (set_openers o c0) with (set_openers o (set_accept_bidi
      (accept_bidi c0) (set_accept_uni (accept_uni c0) c0))) by by destruct c end.
  apply fine_waiters; simpl.
  - destruct Hc as [Hl Ho Hq Hcl Hf Hcr Hcalm]. split; simpl; try done. by destruct Hq.
  - intros _ -> -> Ho. split_and!; try done. by apply map_Forall_insert_2.
Qed.

Lemma fine_opener_removed id c : Fine 0 c → Fine 0 (remove_opener id c).
Proof.
  intros Hc. unfold remove_opener.
  replace (set_openers (delete id (openers c)) c) with (set_openers (delete id (openers c))
    (set_accept_bidi (accept_bidi c) (set_accept_uni (accept_uni c) c))) by by destruct c.
  apply fine_waiters; [done|]. intros _ -> -> Ho. split_and!; try done.
  by apply map_Forall_delete.
Qed.

(** Parking, before the ending or by the one that does not look. *)
Lemma park_fine slack s k mark waker c :
  Fine slack c → terminal c = None ∨ k = SendSlot ∧ unframed = true →
  (∀ st, pending_accept (mark st) = pending_accept st) →
  (∀ st, retained (mark st) = retained st) → (∀ st, calm_stream st → calm_stream (mark st)) →
  Fine slack (park_slot s k mark waker c).1.
Proof.
  intros Hc Hpark Hp Hr Hcs. unfold park_slot.
  destruct (streams c !! get s) as [st|] eqn:Hs; [|done].
  destruct (replace_waiter _ _) as [held written]. simpl.
  apply (fine_stream slack _ c _ st); try done.
  - specialize (Hp st). by destruct k.
  - intros _. specialize (Hr st). unfold retained in *. destruct k; simpl; lia.
  - intros [? Ht] Hcalm%Hcs. destruct Hpark as [?|[-> Hu]]; [congruence|].
    destruct Hcalm as (? & ? & ?). split_and!; simpl; try done. congruence.
Qed.

Lemma park_send_fine slack s finish output waker c :
  Fine slack c → terminal c = None ∨ finish = false ∧ unframed = true →
  Fine slack (park_send s finish output waker c).1.
Proof.
  intros Hc Hpark. unfold park_send.
  destruct finish; apply park_fine; try done; try by intros [].
  - destruct Hpark as [?|[[=] _]]. by left.
  - destruct Hpark as [?|[_ ?]]; [by left|by right].
Qed.

(** *** Giving a direction up *)

(** A step whose failure ends the connection. *)
Definition settles (r : option (Core * result unit ConnectionTerminal)) : Prop :=
  ∃ c' a, r = Some (c', a) ∧ Fine 0 (failing (c', a)).1.

Lemma settles_ok c : Fine 0 c → settles (Some (c, Ok ())).
Proof. intros. eexists _, _. by split. Qed.

Lemma settles_err slack t c : Fine slack c → settles (Some (c, Err t)).
Proof. intros. eexists _, _. split; [done|]. by apply (fine_fail slack). Qed.

Lemma fine_on_stream slack s f c :
  Fine slack c → (∀ st, pending_accept (f st) = pending_accept st) →
  (∀ st, retained (f st) = retained st) → (∀ st, calm_stream st → calm_stream (f st)) →
  Fine slack (on_stream s f c).
Proof.
  intros Hc Hp Hr Hcs. unfold on_stream. destruct (streams c !! get s) as [st|] eqn:Hs.
  - rewrite (alter_alt_Some _ _ _ _ Hs). apply (fine_stream slack _ c _ st); auto.
    intros _. by rewrite Hr.
  - rewrite (alter_id' _ _ _ Hs). by destruct c.
Qed.

Lemma fine_drop slack s send c : Fine slack c → Fine slack (drop_direction s send c).
Proof.
  intros Hc. unfold drop_direction. apply fine_cleanup, fine_on_stream; [done|..];
    destruct send; by intros [].
Qed.

Lemma discard_fine s code c : Fine 0 c → settles (discard_receive s code c).
Proof.
  intros Hc. unfold discard_receive. destruct (streams c !! get s) as [st|] eqn:Hs;
    [|by apply settles_ok].
  set (asked := _ && _).
  assert (∃ l a, (if asked then l_shutdown_stream s ShutRead code (below c)
                  else Some (below c, Ok ())) = Some (l, a) ∧ Fine 0 (set_below l c))
    as (l & a & -> & Hc').
  { destruct asked.
    - destruct (ok_shutdown _ _ s ShutRead code (f_lower _ _ Hc)) as (l & a & E & Hst).
      exists l, a. split; [done|]. apply fine_untouched; [done..|]. by eapply rec_shutdown.
    - eexists _, _. split; [done|]. by destruct c. }
  destruct a as [|error]; [|by eapply settles_err].
  set (st1 := if asked then _ else st).
  set (st2 := set_recv_terminal _ st1).
  assert (Hr : retained st2 = retained st) by (unfold st2, st1; by destruct asked).
  assert (Hf : Fine (retained st2)
    (set_streams (<[get s := set_recv [] st2]> (streams c)) (set_below l c))).
  { apply (fine_stream 0 _ (set_below l c) _ st); try done.
    - unfold st2, st1. by destruct asked.
    - intros _. rewrite Hr. unfold retained at 2. simpl. lia.
    - intros _. unfold st2, st1. by destruct asked. }
  simpl. destruct (Z.eqb_spec (retained st2) 0) as [E0|_].
  - rewrite E0 in Hf. by apply settles_ok.
  - destruct (ok_connection_credit _ _ (retained st2) (f_lower _ _ Hf)) as (l' & b & E & Hst).
    simpl in E. rewrite E. pose proof (fine_credited _ _ l' b Hf E Hst) as Hcr.
    eexists _, _. split; [done|]. destruct b; simpl in Hcr; [done|apply Hcr].
Qed.

Lemma reset_fine s code c : Fine 0 c → settles (reset_send s code c).
Proof.
  intros Hc. unfold reset_send. destruct (streams c !! get s) as [st|] eqn:Hs;
    [|by apply settles_ok].
  destruct (send_terminal st); [by apply settles_ok|].
  assert (∃ l a, (if send_shutdown_sent st then Some (below c, Ok ())
                  else l_shutdown_stream s ShutWrite code (below c)) = Some (l, a) ∧
                 Fine 0 (set_below l c)) as (l & a & -> & Hc').
  { destruct (send_shutdown_sent st).
    - eexists _, _. split; [done|]. by destruct c.
    - destruct (ok_shutdown _ _ s ShutWrite code (f_lower _ _ Hc)) as (l & a & E & Hst).
      exists l, a. split; [done|]. apply fine_untouched; [done..|]. by eapply rec_shutdown. }
  destruct a as [|error]; [|by eapply settles_err].
  apply settles_ok. by apply (fine_stream 0 _ (set_below l c) _ st).
Qed.

(** *** The sections of the streams' methods *)
Import SendOps RecvOps.

Lemma failed_fine {A} slack t c (answer : StreamErrorIncoming → A) :
  Fine slack c → answers3 (Some (failed t c answer)).
Proof.
  intros Hc. unfold failed. pose proof (fine_fail slack 0 t c Hc) as Hf.
  destruct (fail t c) as [c' e]. by apply answers3_some.
Qed.

Lemma settles_answers r :
  settles r → answers (let! done := r in Some (failing done)).
Proof. intros (c & a & -> & Hf). by apply answers_some. Qed.

Lemma ended_not_ended s c :
  SendOps.terminal s c = None → H3Qmux.terminal c = None.
Proof. unfold SendOps.terminal. by destruct (H3Qmux.terminal c). Qed.

(** A write below, wherever its octets came from. *)
Lemma write_fine slack s bs fin c :
  Fine slack c → ∃ l a, l_try_write_stream s bs fin (below c) = Some (l, a) ∧
    Fine slack (set_below l c).
Proof.
  intros Hc. destruct (ok_write _ _ s bs fin (f_lower _ _ Hc)) as (l & a & E & Hst).
  exists l, a. split; [done|]. apply (fine_below slack); [done..|]. intros _.
  rewrite (rec_write _ _ _ _ _ _ E), balance_app. destruct a as [[]|]; cbn; lia.
Qed.

Lemma retain_fine s data cx output c st :
  Fine 0 c → H3Qmux.terminal c = None → streams c !! get s = Some st →
  answers3 (retain_and_park s data cx output c) ∧
  ∃ c', retain s data c = Some c' ∧ Fine 0 c'.
Proof.
  intros Hc Ht Hs. unfold retain_and_park, retain. rewrite Hs.
  assert (Hc' : Fine 0 (set_streams (<[get s := set_writing (Some data) st]> (streams c)) c)).
  { apply (fine_stream 0 _ c _ st); try done. }
  split; [|eauto].
  match goal with |- context [park_send ?a ?b ?d ?e ?c0] =>
    pose proof (park_send_fine 0 a b d e c0 Hc' (or_introl Ht)) as Hp;
    destruct (park_send a b d e c0) as [c1 e1] end.
  by apply answers3_some.
Qed.

Lemma retained_turn_fine s cx c : Fine 0 c → answers3 (retained_turn s cx c).
Proof.
  intros Hc. unfold retained_turn. destruct (SendOps.terminal s c) eqn:Ht; [by apply answers3_some|].
  apply ended_not_ended in Ht.
  destruct (let! x := streams c !! get s in writing x) as [data|] eqn:Hheld;
    [|by apply answers3_some].
  assert (∃ st, streams c !! get s = Some st) as [st Hs]
    by (destruct (streams c !! get s); [eauto|done]).
  assert (Hc1 : Fine 0 (on_stream s (set_writing None) c))
    by (apply fine_on_stream; [done|by intros []..]).
  assert (Hs1 : streams (on_stream s (set_writing None) c) !! get s = Some (set_writing None st)).
  { unfold on_stream. simpl. by rewrite lookup_alter_eq, Hs. }
  case_decide; [by apply answers3_some|]. case_decide; [by eapply failed_fine|].
  destruct (write_fine 0 s (chunk data) false _ Hc1) as (l & a & -> & Hc2).
  pose proof (λ d o, retain_fine s d cx o _ _ Hc2 Ht Hs1) as Hretain.
  destruct a as [[n| |]|error]; [|apply Hretain..|by eapply failed_fine].
  case_decide; [by eapply failed_fine|]. case_decide; [apply Hretain|].
  case_decide; [by apply answers3_some|]. case_decide.
  - destruct (proj1 (Hretain (advance n data) true)) as (c3 & e3 & a3 & -> & Hc3).
    by apply answers3_some.
  - destruct (proj2 (Hretain (advance n data) true)) as (c3 & -> & Hc3). by apply answers3_some.
Qed.

Lemma park_answers {A} s finish output cx c (answer : A) :
  Fine 0 c → H3Qmux.terminal c = None ∨ finish = false ∧ unframed = true →
  answers3 (let '(c, e) := park_send s finish output cx c in Some (c, e, answer)).
Proof.
  intros Hc Hp. pose proof (park_send_fine 0 s finish output cx c Hc Hp) as Hf.
  destruct (park_send s finish output cx c) as [c1 e1]. by apply answers3_some.
Qed.

Lemma send_data_fine s data c : Fine 0 c → Fine 0 (SendOps.send_data s data c).1.
Proof.
  intros Hc. unfold SendOps.send_data. destruct (SendOps.terminal s c) eqn:Ht; [done|].
  apply ended_not_ended in Ht. destruct (streams c !! get s) as [st|] eqn:Hs; [|done].
  destruct (writing st); [done|]. by apply (fine_stream 0 _ c _ st).
Qed.

Lemma finish_turn_fine s cx c : Fine 0 c → answers3 (finish_turn s cx c).
Proof.
  intros Hc. unfold finish_turn. destruct (H3Qmux.terminal c) eqn:Ht; [by apply answers3_some|].
  destruct (stream_error s true c) as [[]|]; try by apply answers3_some.
  destruct (write_fine 0 s [] true _ Hc) as (l & a & -> & Hc1).
  destruct a as [[[|n]| |]|error]; try by eapply failed_fine.
  - apply answers3_some. apply fine_on_stream; [done|by intros []..].
  - apply park_answers; [done|by left].
  - apply park_answers; [done|by left].
Qed.

Lemma reset_turn_fine s code c : Fine 0 c → answers (reset_turn s code c).
Proof.
  intros Hc. apply settles_answers, reset_fine, fine_on_stream; [done|by intros []..].
Qed.

(** The one section that may park once the connection has ended. *)
Lemma unframed_turn_fine s offer cx c :
  unframed = true → Fine 0 c → answers3 (unframed_turn s offer cx c).
Proof.
  intros Hu Hc. unfold unframed_turn.
  destruct (write_fine 0 s offer false _ Hc) as (l & a & -> & Hc1).
  destruct a as [[n| |]|error]; try by eapply failed_fine.
  - case_decide; [by eapply failed_fine|]. case_decide; [|by apply answers3_some].
    apply park_answers; auto.
  - apply park_answers; auto.
  - apply park_answers; auto.
Qed.

Lemma drop_send_fine s c : Fine 0 c → answers (drop_send_turn s c).
Proof.
  intros Hc. unfold drop_send_turn.
  assert (Hc1 : Fine 0 (on_stream s (set_writing None) c))
    by (apply fine_on_stream; [done|by intros []..]).
  set (c1 := on_stream _ _ _) in *.
  assert (settles match stream_error s true c1 with
                  | Some _ => Some (c1, Ok ()) | None => reset_send s ABANDONED c1 end)
    as (c2 & a & -> & Hc2)
    by (destruct (stream_error s true c1); [by apply settles_ok|by apply reset_fine]).
  destruct (failing (c2, a)) as [c3 e]. by apply answers_some, fine_drop.
Qed.

Lemma stop_turn_fine s code c : Fine 0 c → answers (stop_turn s code c).
Proof. intros Hc. by apply settles_answers, discard_fine. Qed.

Lemma drop_recv_fine s c : Fine 0 c → answers (drop_recv_turn s c).
Proof.
  intros Hc. unfold drop_recv_turn.
  destruct (stop_turn_fine s ABANDONED c Hc) as (c1 & e1 & -> & Hc1).
  by apply answers_some, fine_drop.
Qed.

Lemma data_turn_fine s cx c : Fine 0 c → answers3 (data_turn s cx c).
Proof.
  intros Hc. unfold data_turn. destruct (H3Qmux.terminal c) eqn:Ht; [by apply answers3_some|].
  destruct (streams c !! get s) as [st|] eqn:Hs; simpl.
  2: { unfold stream_error. rewrite Hs. unfold park_recv, park_slot. rewrite Hs.
       by apply answers3_some. }
  destruct (recv st) as [|item rest] eqn:Hrecv.
  { destruct (stream_error s false c) as [[]|]; try by apply answers3_some.
    pose proof (park_fine 0 s RecvSlot id cx c Hc (or_introl Ht)
      ltac:(by intros []) ltac:(by intros []) ltac:(by intros [])) as Hp.
    unfold park_recv. destruct (park_slot _ _ _ _ _) as [c1 e1]. by apply answers3_some. }
  set (n := Z.of_nat (length (r_data item))).
  assert (Hc1 : Fine n (set_streams (<[get s := set_recv rest st]> (streams c)) c)).
  { apply (fine_stream 0 _ c _ st); try done. intros _. unfold retained. simpl. rewrite Hrecv.
    simpl. unfold n. lia. }
  set (c1 := set_streams _ c) in *.
  destruct (ok_stream_credit _ _ s n (f_lower _ _ Hc1)) as (l & a & E & Hst).
  change (below c) with (below c1). rewrite E.
  assert (Hc2 : Fine n (set_below l c1)).
  { apply (fine_below n); [done..|]. intros _.
    rewrite (rec_stream_credit _ _ _ _ _ E), balance_app. destruct a; cbn; lia. }
  destruct a as [|error]; [|by eapply failed_fine].
  destruct (ok_connection_credit _ _ n (f_lower _ _ Hc2)) as (l' & b & E' & Hst').
  simpl in E'. rewrite E'. pose proof (fine_credited _ _ l' b Hc2 E' Hst') as Hcr.
  change (set_below l' (set_below l c1)) with (set_below l' c1) in Hcr.
  destruct b as [|error]; simpl in Hcr.
  - apply answers3_some. simpl. destruct (r_fin item); [|done].
    apply fine_on_stream; [done|by intros []..].
  - unfold failed. specialize (Hcr (Terminal.from_lower error)).
    destruct (fail _ _) as [c3 e3]. by apply answers3_some.
Qed.

(** *** The driver's section *)
Import Adapter.
Context `{!LowerWakers}.

Lemma fine_completed answer c : Fine 0 c → Fine 0 (completed answer c).1.
Proof.
  intros [Hl Ho Hq Hcl Hf Hcr Hcalm]. unfold completed.
  destruct answer; (split; simpl; try done; by destruct Hq).
Qed.

Lemma close_turn_fine reason c :
  Fine 0 c → close_as c = Some reason → answers3 (close_turn reason c).
Proof.
  intros Hc Hcl. unfold close_turn.
  destruct (ok_close _ _ lower_waker reason (f_lower _ _ Hc)) as (l & a & E & Hst). rewrite E.
  pose proof (fine_untouched 0 c l Hc Hst (rec_close _ _ _ _ _ E)) as Hc1.
  destruct (f_close _ _ Hc ltac:(by rewrite Hcl)) as [t Ht]. simpl. rewrite Ht.
  destruct a as [[|]|error]; [by apply answers3_some| |].
  - destruct (close_is_failure c); apply answers3_some;
      [by apply (fine_completed (Err _))|by apply (fine_completed (Ok ()))].
  - apply answers3_some. by apply (fine_completed (Err _)).
Qed.

Lemma pump_turn_fine e c : Fine 0 c → answers3 (pump_turn e c).
Proof.
  intros Hc. unfold pump_turn.
  destruct (ok_pump _ _ lower_waker (f_lower _ _ Hc)) as (l & a & E & Hst). rewrite E.
  pose proof (fine_untouched 0 c l Hc Hst (rec_pump _ _ _ _ E)) as Hc1.
  assert (∃ c2 e2, (if decide (l_queued_output (below (set_below l c)) < l_queued_output (below c))%nat
                    then let '(c, more) := wake_output_senders (set_below l c) in (c, merge e more)
                    else (set_below l c, e)) = (c2, e2) ∧ Fine 0 c2) as (c2 & e2 & -> & Hc2).
  { case_decide; [|by eexists _, _].
    pose proof (fine_output_senders 0 _ Hc1) as Hw.
    destruct (wake_output_senders (set_below l c)) as [c2 e2]. eauto. }
  destruct a as [|error]; [by apply answers3_some|].
  pose proof (fine_fail 0 0 (Terminal.from_lower error) c2 Hc2) as Hf.
  destruct (fail (Terminal.from_lower error) c2) as [c3 e3]. apply answers3_some. by apply (fine_completed (Err _)).
Qed.

Lemma driver_turn_fine c : Fine 0 c → answers3 (driver_turn c).
Proof.
  intros Hc. unfold driver_turn. destruct (driver_complete c); [by apply answers3_some|].
  destruct (close_as c) as [reason|] eqn:Hcl; [by apply close_turn_fine|].
  destruct (drive_turn_fine lower_waker c Hc) as (c1 & e1 & -> & Hc1).
  destruct (H3Qmux.terminal c1).
  - case_match; apply answers3_some; [done|]. by apply (fine_completed (Err _)).
  - destruct (continuation e1); [by apply answers3_some|by apply pump_turn_fine].
Qed.

(** ** Methods *)
Implicit Type w : World.

Definition good (w : World) : Prop := Fine 0 (core w).

Lemma core_on_wake f w : core (on_wake f w) = core w.
Proof. unfold on_wake. by destruct (f (lower_wake w)). Qed.

Lemma core_wake_one w waker : core (wake_one w waker) = core w.
Proof. unfold wake_one. destruct (is_lower waker); [apply core_on_wake|done]. Qed.

Lemma core_wakes ws w : core (foldl wake_one w ws) = core w.
Proof.
  revert w. induction ws as [|x ws IH]; intros w; simpl; [done|]. by rewrite IH, core_wake_one.
Qed.

Lemma act_good f : (∀ w, core (f w) = core w) → keeps good (act f).
Proof. intros Hf w Hw. eexists _, _. split; [done|]. unfold good. by rewrite Hf. Qed.

Lemma wake_good f : keeps good (act (on_wake f)).
Proof. apply act_good, core_on_wake. Qed.

Lemma lock_good {A} (f : Core → option (Core * A)) :
  (∀ c, Fine 0 c → ∃ c' a, f c = Some (c', a) ∧ Fine 0 c') → keeps good (under_lock f).
Proof.
  intros Hf w Hw. destruct (Hf _ Hw) as (c' & a & E & Hc'). unfold locked. rewrite E.
  eexists _, _. split; [done|]. split; [|done]. unfold good. by rewrite core_wakes.
Qed.

Lemma with_core_good {A} (f : Core → option (Core * A)) :
  (∀ c, Fine 0 c → ∃ c' a, f c = Some (c', a) ∧ Fine 0 c') → keeps good (with_core f).
Proof.
  intros Hf. unfold with_core. apply sections_bind; [apply wake_good|]. intros _.
  apply sections_bind; [by apply lock_good|]. intros a.
  apply sections_bind; [apply wake_good|done].
Qed.

Lemma with_effects_good {A} (f : Core → option (Core * Effects * A)) :
  (∀ c, Fine 0 c → answers3 (f c)) →
  ∀ c, Fine 0 c → ∃ c' a, with_effects f c = Some (c', a) ∧ Fine 0 c'.
Proof. intros Hf c Hc. destruct (Hf c Hc) as (c' & e & a & E & ?). unfold with_effects. rewrite E. eauto. Qed.

Lemma effects_only_good (f : Core → option (Core * Effects)) :
  (∀ c, Fine 0 c → answers (f c)) →
  ∀ c, Fine 0 c → ∃ c' a, effects_only f c = Some (c', a) ∧ Fine 0 c'.
Proof. intros Hf c Hc. destruct (Hf c Hc) as (c' & e & E & ?). unfold effects_only. rewrite E. eauto. Qed.

Lemma look_good {A} (f : Core → A) : keeps good (look f).
Proof. apply lock_good. eauto. Qed.

Lemma apply_effects_good e : keeps good (apply_effects e).
Proof.
  apply sections_bind; [|intros _; destruct (continuation e); [apply wake_good|done]].
  induction (wakes e) as [|x ws IH]; [done|]. apply sections_bind; [|done].
  apply act_good. intros. apply core_wake_one.
Qed.

(** Every piece a method is made of keeps [good]. *)
Ltac good := repeat first
  [ done
  | apply apply_effects_good | apply look_good | apply wake_good
  | apply with_core_good, with_effects_good | apply with_core_good, effects_only_good
  | apply lock_good, with_effects_good | apply lock_good, effects_only_good
  | apply sections_bind; [|intros ?]
  | case_match ].

Lemma poll_retained_good n s cx : keeps good (poll_retained n s cx).
Proof.
  induction n as [|n IH]; [done|]. cbn [poll_retained]. apply sections_bind.
  { apply with_core_good, with_effects_good, retained_turn_fine. }
  intros [e step]. apply sections_bind; [apply apply_effects_good|]. intros _.
  destruct step; try done. destruct n as [|n]; [|done].
  apply sections_bind; [|done]. apply act_good. intros. apply core_wake_one.
Qed.

Lemma poll_ready_good s cx : keeps good (poll_ready s cx).
Proof.
  apply sections_bind; [apply look_good|]. intros []; [done|]. apply poll_retained_good.
Qed.

(** *** What may be called *)
Inductive Call :=
| CPollReady (s : StreamId) (cx : Waker)
| CSendData (s : StreamId) (data : sbuf)
| CPollFinish (s : StreamId) (cx : Waker)
| CReset (s : StreamId) (code : Z)
| CPollSend (s : StreamId) (cx : Waker) (buf : sbuf)
| CDropSend (s : StreamId)
| CPollData (s : StreamId) (cx : Waker)
| CStopSending (s : StreamId) (code : Z)
| CDropRecv (s : StreamId)
| CAccept (kind : AcceptKind) (cx : Waker)
| COpen (opener : Z) (kind : OpenKind) (cx : Waker)
| CClose (code : Z) (reason : bytes)
| COpener
| CDropOpener (id : Z)
| CDriver (cx : Waker)
| CReactor.

Definition forget {A} (p : Prog World A) : Prog World unit := bind p (λ _, Ret ()).

Definition method (call : Call) : Prog World unit :=
  match call with
  | CPollReady s cx => forget (poll_ready s cx)
  | CSendData s data => forget (Adapter.send_data s data)
  | CPollFinish s cx => forget (poll_finish s cx)
  | CReset s code => reset s code
  | CPollSend s cx buf => forget (poll_send s cx buf)
  | CDropSend s => drop_send s
  | CPollData s cx => forget (poll_data s cx)
  | CStopSending s code => stop_sending s code
  | CDropRecv s => drop_recv s
  | CAccept AcceptUni cx => forget (poll_accept_recv cx)
  | CAccept AcceptBidi cx => forget (poll_accept_bidi cx)
  | COpen opener kind cx => forget (poll_open_parts opener kind cx)
  | CClose code reason => close_parts code reason
  | COpener => forget opener
  | CDropOpener id => drop_opener id
  | CDriver cx => forget (poll_driver cx)
  | CReactor => reactor
  end.

(** The calls of a run; [unframed] says whether [poll_send] is among them. *)
Definition callable (p : Prog World unit) : Prop :=
  ∃ call, p = method call ∧
    match call with CPollSend _ _ _ => unframed = true | _ => True end.

Lemma method_good p : callable p → keeps good p.
Proof.
  intros (call & -> & Hu). destruct call; cbn [method]; unfold forget.
  - apply sections_bind; [apply poll_ready_good|done].
  - unfold Adapter.send_data. apply sections_bind; [|done]. apply sections_bind; [|intros []; good].
    apply lock_good. intros c Hc. pose proof (send_data_fine s data c Hc) as Hf.
    destruct (SendOps.send_data s data c) as [c' a]. eauto.
  - apply sections_bind; [|done]. unfold poll_finish. apply sections_bind; [apply look_good|].
    intros []; [done|]. apply sections_bind; [apply poll_ready_good|]. intros [|[]]; try done.
    good. apply finish_turn_fine; done.
  - unfold reset. good. by apply reset_turn_fine.
  - unfold poll_send. apply sections_bind; [|done]. apply sections_bind; [apply look_good|].
    intros []; [done|]. apply sections_bind; [apply with_core_good; eauto|]. intros []; [done|].
    repeat (case_decide; [done|]). good. intros c Hc. by apply unframed_turn_fine.
  - unfold drop_send. good. by apply drop_send_fine.
  - unfold poll_data. good. by apply data_turn_fine.
  - unfold stop_sending. good. by apply stop_turn_fine.
  - unfold drop_recv. good. by apply drop_recv_fine.
  - destruct kind; unfold poll_accept_recv, poll_accept_bidi, poll_accept; good; by apply accept_fine.
  - unfold poll_open_parts. good. by apply open_fine.
  - unfold close_parts. good. intros c Hc. by apply answers_some, fine_close.
  - unfold opener. apply sections_bind; [|done]. apply lock_good. intros c Hc.
    pose proof (fine_allocated c Hc). destruct (allocate_opener c). eauto.
  - apply lock_good. eauto using fine_opener_removed.
  - unfold poll_driver. good. by apply driver_turn_fine.
  - apply act_good. intros. apply core_wake_one.
Qed.

(** *** Runs *)
Lemma fine_new l limit : lower_ok (l_role l) l → calls l = [] → Fine 0 (new l limit).
Proof.
  intros Hok Hcalls. split; simpl; try done.
  - split; simpl; [constructor| |constructor..|lia]. intros s. unfold pending. simpl. split.
    + by intros Hin%list.not_elem_of_nil.
    + intros (st & Hst & _). by rewrite lookup_empty in Hst.
  - intros _. by rewrite Hcalls.
Qed.

Lemma run_good l limit sys :
  lower_ok (l_role l) l → calls l = [] → rtc (sys_step callable) (from_qmux l limit, []) sys →
  good sys.1 ∧ no_panic sys.
Proof.
  intros Hok Hcalls. apply (system_keeps good callable); [apply method_good|by apply fine_new].
Qed.
End Facts.

(** The octets delivered, and those credited. *)
Definition delivered (xs : list LowerCall) : Z :=
  foldr (λ x n, match x with Delivered e => event_octets e | _ => 0 end + n) 0 xs.
Definition credited (xs : list LowerCall) : Z :=
  foldr (λ x n, match x with Credited m => m | _ => 0 end + n) 0 xs.

Lemma balance_split xs : balance xs = delivered xs - credited xs.
Proof.
  unfold balance, delivered, credited.
  induction xs as [|[] xs IH]; simpl; [done|rewrite IH; unfold call_balance; lia..].
Qed.

Section Theorems.
Context `{Wk : Wakers} {Low : QmuxLower} {Laws : LowerLaws} {Rec : Recorded} `{Bufs : SendBufs}
  `{!LowerWakers}.

(** C31. However the sections of any number of tasks interleave, no section of the adapter
    panics (none of its [expect]s fails) over a connection that does not; and every stream
    that waits to be accepted waits once, in the queue of its kind, no more of them than the
    limit allows.  A failing close has a terminal. *)
Theorem adapter_never_panics l limit sys :
  lower_ok (l_role l) l → calls l = [] →
  rtc (sys_step (callable true)) (Adapter.from_qmux l limit, []) sys →
  no_panic sys ∧ Queued (core sys.1) ∧
  (close_is_failure (core sys.1) = true → is_Some (terminal (core sys.1))).
Proof.
  intros Hok Hcalls Hrun. destruct (run_good true l limit sys Hok Hcalls Hrun) as [Hg Hp].
  split; [done|]. split; [apply Hg|]. intros Hf. apply (f_close _ _ _ Hg), (f_failure _ _ _ Hg), Hf.
Qed.

(** C32. Until the connection ends, every octet the connection below delivered has been
    credited to the peer's connection window exactly once or is retained for a reader: reads,
    abandoned receive directions and data that comes after them never credit twice and never
    forget. *)
Theorem window_conserved l limit sys :
  lower_ok (l_role l) l → calls l = [] →
  rtc (sys_step (callable true)) (Adapter.from_qmux l limit, []) sys →
  terminal (core sys.1) = None →
  delivered (calls (below (core sys.1))) =
  credited (calls (below (core sys.1))) + retained_all (streams (core sys.1)).
Proof.
  intros Hok Hcalls Hrun Ht. destruct (run_good true l limit sys Hok Hcalls Hrun) as [Hg _].
  pose proof (f_credit _ _ _ Hg Ht) as Hb. rewrite balance_split in Hb. lia.
Qed.

(** C35. Once the connection has ended, nobody is left parked: no task to accept a stream, to
    open one, to read or to finish one, nor, unless the unframed [poll_send] is used, to send
    on one. *)
Theorem nobody_parked_at_the_end unframed l limit sys :
  lower_ok (l_role l) l → calls l = [] →
  rtc (sys_step (callable unframed)) (Adapter.from_qmux l limit, []) sys →
  is_Some (terminal (core sys.1)) → calm unframed (core sys.1).
Proof.
  intros Hok Hcalls Hrun. destruct (run_good unframed l limit sys Hok Hcalls Hrun) as [Hg _].
  apply Hg.
Qed.
End Theorems.
