(* ===== verification/H3QmuxSend.v ===== *)
(** * What a send stream is given reaches the connection below whole and in order

    [poll_ready] hands over what [send_data] left, a chunk at a time, over as many sections
    as the budget allows; between two of them other tasks do as they like, short of touching
    this stream's data, which its owner alone can ([others]). *)

From Stdlib Require Import ZArith Lia Strings.Byte.
From stdpp Require Import base list gmap strings sorting relations.
From S2P Require Import Prelude Varint CloseCodec QmuxError QmuxTypes QmuxConn QmuxWrite RecordFramer QmuxScheduling QmuxIo QmuxLower H3Qmux H3QmuxFacts.
Import Stream Fields CoreOps SendOps Adapter.

(** What the [bytes] crate documents of a buffer. *)
Class BufLaws `{SendBufs} := {
  contents : sbuf → bytes;
  remaining_is b : remaining b = length (contents b);
  chunk_is b : chunk b `prefix_of` contents b;
  advance_is n b : (n ≤ remaining b)%nat → contents (advance n b) = drop n (contents b)
}.

(** A method run among other tasks: before each section, and at the end, they do something. *)
Fixpoint among {W A} (others : W → W → Prop) (p : Prog W A) (w w' : W) (a : A) : Prop :=
  match p with
  | Ret a' => others w w' ∧ a = a'
  | Sect f next => ∃ w1 w2 r,
      others w w1 ∧ f w1 = Some (w2, r) ∧ among others (next r) w2 w' a
  end.

Lemma among_bind {W A B} others `{!Reflexive others} (p : Prog W A) (k : A → Prog W B) w w' b :
  among others (bind p k) w w' b →
  ∃ w1 a, among others p w w1 a ∧ among others (k a) w1 w' b.
Proof.
  revert w. induction p as [a|R f next IH]; intros w Hr; simpl in Hr.
  - exists w, a. by repeat split.
  - destruct Hr as (w1 & w2 & r & Ho & Hf & Hn). destruct (IH _ _ Hn) as (w3 & a & Hp & Hk).
    exists w3, a. simpl. eauto 8.
Qed.

Section Send.
Context `{Wk : Wakers} {Low : QmuxLower} {Laws : LowerLaws} {Rec : Recorded} `{Bufs : SendBufs}
  {BLaws : BufLaws} `{!LowerWakers}.
Implicit Types (c : Core) (w : World) (s : StreamId).

(** The octets written on a stream, and those held for it. *)
Definition writes s (xs : list LowerCall) : bytes :=
  concat (omap (λ x, match x with
                     | Wrote s' bs _ => if decide (s' = s) then Some bs else None
                     | _ => None
                     end) xs).

Definition written s c : bytes := writes s (calls (below c)).

Definition held_data s c : option sbuf := let! x := streams c !! get s in writing x.

Definition held s c : bytes :=
  match held_data s c with Some data => contents data | None => [] end.

Lemma writes_app s xs ys : writes s (xs ++ ys) = writes s xs ++ writes s ys.
Proof. unfold writes. by rewrite omap_app, concat_app. Qed.

Definition ended s c : Prop := SendOps.terminal s c ≠ None.

(** Other tasks never write on this stream, and leave its data alone unless it has ended. *)
Definition others s w w' : Prop :=
  written s (core w') = written s (core w) ∧
  (ended s (core w) → ended s (core w')) ∧
  (¬ ended s (core w') → held_data s (core w') = held_data s (core w)).

#[export] Instance others_preorder s : PreOrder (others s).
Proof.
  split; [by repeat split|]. intros x y z (Hw1 & He1 & Hh1) (Hw2 & He2 & Hh2).
  split; [congruence|]. split; [auto|]. intros Hz. rewrite (Hh2 Hz). auto.
Qed.


Lemma write_adds s s' bs fin c l a :
  l_try_write_stream s' bs fin (below c) = Some (l, a) →
  written s (set_below l c) = written s c ++
    match a with Ok (WAccepted n) => if decide (s' = s) then take n bs else [] | _ => [] end.
Proof.
  intros E. unfold written. simpl. rewrite (rec_write _ _ _ _ _ _ E), writes_app. f_equal.
  destruct a as [[]|]; try done. unfold writes. simpl.
  case_decide; simpl; by rewrite ?app_nil_r.
Qed.

Lemma held_at s c x : streams c !! get s = Some x → held_data s c = writing x.
Proof. intros Hx. unfold held_data. by rewrite Hx. Qed.

Lemma park_same s finish output waker c :
  let c' := (park_send s finish output waker c).1 in
  below c' = below c ∧ held_data s c' = held_data s c.
Proof.
  unfold park_send, park_slot, held_data.
  destruct finish; destruct (streams c !! get s) as [x|] eqn:Hx;
    try (destruct (replace_waiter _ _)); simpl; rewrite ?Hx, ?lookup_insert_eq;
    try (by destruct x); done.
Qed.

Lemma retain_exact s data c x :
  streams c !! get s = Some x →
  ∃ c', retain s data c = Some c' ∧ below c' = below c ∧ held_data s c' = Some data.
Proof.
  intros Hx. unfold retain. rewrite Hx. eexists. split; [done|]. split; [done|].
  unfold held_data. simpl. by rewrite lookup_insert_eq.
Qed.

Lemma retain_and_park_exact s data cx output c x :
  streams c !! get s = Some x →
  ∃ c' e, retain_and_park s data cx output c = Some (c', e, StepPending) ∧
    below c' = below c ∧ held_data s c' = Some data.
Proof.
  intros Hx. unfold retain_and_park.
  destruct (retain_exact s data c x Hx) as (c1 & -> & Hb & Hd).
  match goal with |- context [park_send ?a ?b ?d ?e ?c0] =>
    pose proof (park_same a b d e c0) as Hp; destruct (park_send a b d e c0) as [c2 e2] end.
  destruct Hp as [Hb2 Hd2]. exists c2, e2. simpl in *. split_and!; congruence.
Qed.

Lemma failed_same {A} s t c (answer : StreamErrorIncoming → A) c' e a :
  failed t c answer = (c', e, a) → written s c' = written s c.
Proof.
  unfold failed, fail. destruct (H3Qmux.terminal c); intros [= <- <- <-]; done.
Qed.

(** What a turn did with what was held: [sent] of it went out. *)
Definition turn_sent s c c' (sent : bytes) (step : Step) : Prop :=
  written s c' = written s c ++ sent ∧
  match step with
  | StepDone => sent = held s c ∧ held_data s c' = None
  | StepPending | StepProgress => sent ++ held s c' = held s c
  | StepError _ => sent `prefix_of` held s c
  end.

Lemma failed_sent s t c c2 c' e step sent :
  failed t c2 StepError = (c', e, step) → written s c2 = written s c ++ sent →
  sent `prefix_of` held s c → turn_sent s c c' sent step.
Proof.
  intros Hf Hw Hp. split; [by rewrite (failed_same _ _ _ _ _ _ _ Hf)|].
  unfold failed in Hf. destruct (fail t c2). by simplify_eq.
Qed.

Lemma kept_sent s cx o c c2 x c' e step sent rest :
  streams c2 !! get s = Some x → written s c2 = written s c ++ sent →
  contents rest = drop (length sent) (held s c) → sent `prefix_of` held s c →
  retain_and_park s rest cx o c2 = Some (c', e, step) → turn_sent s c c' sent step.
Proof.
  intros Hx Hw Hrest [tl Htl] Hr.
  destruct (retain_and_park_exact s rest cx o c2 x Hx) as (c3 & e3 & Hr' & Hb & Hd).
  rewrite Hr in Hr'. simplify_eq. split; [unfold written in *; congruence|].
  unfold held at 1. rewrite Hd, Hrest, Htl. by rewrite drop_app_length.
Qed.

(** One turn: of what was held a part is written, and the rest is still held unless the
    stream ends. *)
Lemma retained_turn_exact s cx c c' e step :
  retained_turn s cx c = Some (c', e, step) → ∃ sent, turn_sent s c c' sent step.
Proof.
  unfold retained_turn. destruct (SendOps.terminal s c) eqn:Ht.
  { intros [= <- <- <-]. exists []. split; [by rewrite app_nil_r|]. apply prefix_nil. }
  change (let! x := streams c !! get s in writing x) with (held_data s c).
  destruct (held_data s c) as [data|] eqn:Hd.
  2: { intros [= <- <- <-]. exists []. split; [by rewrite app_nil_r|]. unfold held. by rewrite Hd. }
  assert (∃ x, streams c !! get s = Some x) as [x Hx].
  { unfold held_data in Hd. destruct (streams c !! get s); [eauto|done]. }
  assert (Hheld : held s c = contents data) by (unfold held; by rewrite Hd).
  set (c1 := on_stream s (set_writing None) c).
  assert (Hs1 : streams c1 !! get s = Some (set_writing None x)).
  { unfold c1, on_stream. simpl. by rewrite lookup_alter_eq, Hx. }
  case_decide as Hrem.
  { intros [= <- <- <-]. exists []. rewrite remaining_is in Hrem. apply nil_length_inv in Hrem.
    split; [by rewrite app_nil_r|]. by rewrite Hheld, Hrem, (held_at _ _ _ Hs1). }
  case_decide as Hchunk.
  { intros [= Hf]. exists []. eapply failed_sent; [done|by rewrite app_nil_r|apply prefix_nil]. }
  destruct (l_try_write_stream s (chunk data) false (below c1)) as [[l a]|] eqn:E; [|done].
  pose proof (write_adds s _ _ _ _ _ _ E) as Hw. change (written s c1) with (written s c) in Hw.
  replace (match a with Ok (WAccepted n) => if decide (s = s) then take n (chunk data) else []
           | _ => [] end) with
    (match a with Ok (WAccepted n) => take n (chunk data) | _ => [] end) in Hw
    by (destruct a as [[]|]; by rewrite ?decide_True).
  set (c2 := set_below l c1) in *.
  assert (Hs2 : streams c2 !! get s = Some (set_writing None x)) by done.
  pose proof (chunk_is data) as Hpre. rewrite <-Hheld in Hpre.
  destruct a as [[n| |]|error].
  - assert (Htake : take n (chunk data) `prefix_of` held s c)
      by (etransitivity; [apply prefix_take|done]).
    case_decide as Hmany.
    { intros [= Hf]. exists (take n (chunk data)). by eapply failed_sent. }
    assert (Hlen : length (take n (chunk data)) = n) by (rewrite length_take; lia).
    assert (Hn : (n ≤ remaining data)%nat).
    { rewrite remaining_is, <-Hheld. apply prefix_length in Hpre. lia. }
    assert (Hrest : contents (advance n data) = drop (length (take n (chunk data))) (held s c))
      by (rewrite Hlen, Hheld; by apply advance_is).
    case_decide as Hzero.
    { intros Hr. exists []. subst n. rewrite take_0 in *. eapply (kept_sent s _ _ _ c2); [done|done|by rewrite Hheld|apply prefix_nil|done]. }
    case_decide as Hdone.
    { intros [= <- <- <-]. exists (take n (chunk data)). split; [done|].
      split; [|by rewrite (held_at _ _ _ Hs2)]. rewrite remaining_is, Hrest in Hdone.
      destruct Htake as [tl Htl]. rewrite Htl, drop_app_length in Hdone.
      apply nil_length_inv in Hdone. by rewrite Htl, Hdone, app_nil_r. }
    case_decide as Hpart.
    + destruct (retain_and_park s (advance n data) cx true c2) as [[[c3 e3] step3]|] eqn:Hr;
        [|done]. intros [= <- <- <-]. exists (take n (chunk data)). by eapply (kept_sent s _ _ _ c2).
    + destruct (retain_exact s (advance n data) c2 _ Hs2) as (c3 & -> & Hb & Hh).
      intros [= <- <- <-]. exists (take n (chunk data)). split; [unfold written in *; congruence|].
      unfold held at 1. destruct Htake as [tl Htl]. by rewrite Hh, Hrest, Htl, drop_app_length.
  - intros Hr. exists []. eapply (kept_sent s _ _ _ c2); [done|done|by rewrite Hheld|apply prefix_nil|done].
  - intros Hr. exists []. eapply (kept_sent s _ _ _ c2); [done|done|by rewrite Hheld|apply prefix_nil|done].
  - intros [= Hf]. exists []. eapply failed_sent; [done|done|apply prefix_nil].
Qed.

Lemma ended_turn s cx c :
  ended s c → ∃ error, retained_turn s cx c = Some (c, no_effects, StepError error).
Proof.
  unfold ended, retained_turn. destruct (SendOps.terminal s c); [eauto|done].
Qed.

Lemma ended_dec s c : ended s c ∨ ¬ ended s c.
Proof. unfold ended. destruct (SendOps.terminal s c); [by left|right; naive_solver]. Qed.

Lemma same_core s w w' : core w' = core w → others s w w'.
Proof. intros E. unfold others. by rewrite E. Qed.

(** *** The pieces of a method, among other tasks *)
Lemma among_act s f w w' a :
  (∀ w, core (f w) = core w) → among (others s) (act f) w w' a → others s w w'.
Proof.
  intros Hf (w1 & w2 & r & Ho & [= <- _] & Ho' & _). etransitivity; [done|].
  etransitivity; [by apply (same_core s w1), Hf|done].
Qed.

Lemma among_with_core {A} s (f : Core → option (Core * A)) w w' a :
  among (others s) (with_core f) w w' a →
  ∃ w1 w2, others s w w1 ∧ f (core w1) = Some (core w2, a) ∧ others s w2 w'.
Proof.
  intros (w1 & w1' & r1 & Ho1 & [= <- _] & w2 & w3 & a' & Ho2 & Hf &
          w4 & w4' & r4 & Ho4 & [= <- _] & Ho5 & ->).
  unfold locked in Hf. destruct (f (core w2)) as [[c a'']|] eqn:E; [|done].
  injection Hf as <- ->.
  set (w3 := foldl _ _ _) in *.
  assert (Hc : core w3 = c) by (unfold w3; by rewrite core_wakes).
  exists w2, w3. split_and!.
  - etransitivity; [done|]. etransitivity; [|done]. apply same_core, core_on_wake.
  - by rewrite E, Hc.
  - etransitivity; [done|]. etransitivity; [|done]. apply same_core, core_on_wake.
Qed.

Lemma among_apply_effects s e w w' a :
  among (others s) (apply_effects e) w w' a → others s w w'.
Proof.
  intros (w1 & [] & Hw & Hr)%(among_bind _).
  assert (Ho1 : others s w w1).
  { clear Hr. revert w Hw. induction (wakes e) as [|x ws IH]; intros w Hw; [apply Hw|].
    apply (among_bind _) in Hw as (w2 & [] & Hx & Hws).
    etransitivity; [eapply among_act, Hx; intros; apply core_wake_one|by apply IH]. }
  etransitivity; [done|]. destruct (continuation e); [|apply Hr].
  eapply among_act, Hr. intros. apply core_on_wake.
Qed.

(** What a method did with what was held: [sent] of it went out. *)
Definition delivers s w w' (a : Poll (result unit StreamErrorIncoming)) (sent : bytes) : Prop :=
  written s (core w') = written s (core w) ++ sent ∧
  sent `prefix_of` held s (core w) ∧
  match a with
  | Ready (Ok _) => sent = held s (core w) ∧ ¬ ended s (core w)
  | Pending => ended s (core w') ∨
      ¬ ended s (core w) ∧ sent ++ held s (core w') = held s (core w)
  | Ready (Err _) => True
  end ∧
  (ended s (core w) → sent = []).

Lemma held_others s w w1 :
  others s w w1 → ¬ ended s (core w1) →
  held s (core w1) = held s (core w) ∧ ¬ ended s (core w).
Proof.
  intros (_ & He & Hh) Hn. split; [|auto]. unfold held. by rewrite (Hh Hn).
Qed.

(** Part of it went out, and nothing after that touched the rest. *)
Lemma delivers_pending s w w1 w2 w' sent :
  others s w w1 → ¬ ended s (core w1) → written s (core w2) = written s (core w1) ++ sent →
  sent ++ held s (core w2) = held s (core w1) → others s w2 w' →
  delivers s w w' Pending sent.
Proof.
  intros Ho Hn Hw Hs Ho'. destruct (held_others s w w1 Ho Hn) as [Hh Hn0].
  split_and!.
  - destruct Ho as (<- & _), Ho' as (-> & _). done.
  - rewrite <-Hh, <-Hs. by exists (held s (core w2)).
  - destruct (ended_dec s (core w')) as [?|Hn']; [by left|right].
    destruct (held_others s w2 w' Ho' Hn') as [-> _]. split; [done|congruence].
  - done.
Qed.

Lemma poll_retained_delivers n s cx w w' a :
  among (others s) (poll_retained n s cx) w w' a → ∃ sent, delivers s w w' a sent.
Proof.
  revert w. induction n as [|n IH]; intros w Hr.
  { destruct Hr as [Ho ->]. exists []. pose proof Ho as (Hw & He & Hh). unfold delivers.
    rewrite app_nil_r. split_and!; [done|apply prefix_nil| |done].
    destruct (ended_dec s (core w')) as [?|Hn]; [by left|right].
    by destruct (held_others s w w' Ho Hn) as [-> ?]. }
  cbn [poll_retained] in Hr.
  apply (among_bind _) in Hr as (w3 & [e step] & Hcore & Hr).
  apply among_with_core in Hcore as (w1 & w2 & Ho & Hturn & Ho2).
  apply (among_bind _) in Hr as (w4 & [] & Heff%among_apply_effects & Hr).
  unfold with_effects in Hturn.
  destruct (retained_turn s cx (core w1)) as [[[c2 e2] step2]|] eqn:Hstep; [|done].
  injection Hturn as -> -> ->.
  assert (Ho4 : others s w2 w4) by (etransitivity; done). clear Ho2 Heff.
  destruct (ended_dec s (core w1)) as [Hend|Hn].
  - destruct (ended_turn s cx _ Hend) as [error E]. rewrite E in Hstep.
    injection Hstep as Hc <- <-. destruct Hr as [Ho' ->]. exists [].
    unfold delivers. rewrite app_nil_r.
    split_and!; [|apply prefix_nil|done|done].
    destruct Ho as (<- & _), Ho4 as (Hw4 & _), Ho' as (-> & _). by rewrite Hw4, <-Hc.
  - destruct (retained_turn_exact _ _ _ _ _ _ Hstep) as (sent & Hw & Hs).
    destruct (held_others s w w1 Ho Hn) as [Hh Hn0].
    destruct step.
    + destruct Hr as [Ho' ->]. exists sent. destruct Hs as [-> _].
      assert (others s w2 w') as (Hw' & _) by (etransitivity; done).
      unfold delivers. rewrite Hw', Hw, Hh. destruct Ho as (-> & _).
      split_and!; try done. 
    + destruct Hr as [Ho' ->]. exists sent.
      eapply delivers_pending; try done. etransitivity; done.
    + destruct n as [|n].
      * apply (among_bind _) in Hr as (w5 & [] & Hact & [Ho' ->]).
        apply among_act in Hact; [|intros; apply core_wake_one]. exists sent.
        eapply delivers_pending; try done. etransitivity; [done|]. etransitivity; done.
      * destruct (IH _ Hr) as (more & Hw' & Hp & Ha & He). exists (sent ++ more).
        destruct (ended_dec s (core w4)) as [Hend4|Hn4].
        -- specialize (He Hend4). subst more. rewrite app_nil_r in *.
           destruct Ho as (Hw0 & _), Ho4 as (Hw4 & _). unfold delivers. rewrite Hw', Hw4, Hw, Hw0.
           split_and!; [done| | |done].
           { rewrite <-Hh, <-Hs. by eexists. }
           destruct a as [|[]]; [|by destruct Ha|done]. left. by destruct Ha as [?|[? _]].
        -- destruct (held_others s w2 w4 Ho4 Hn4) as [Hh4 _]. rewrite Hh4 in Hp, Ha.
           destruct Ho as (Hw0 & _), Ho4 as (Hw4 & _). unfold delivers.
           rewrite Hw', Hw4, Hw, Hw0, <-Hh, <-Hs, (assoc_L (++)). split_and!; [done| | |done].
           { by apply prefix_app. }
           destruct a as [|[]]; [|by destruct Ha as [-> _]|done].
           destruct Ha as [?|[_ Ha]]; [by left|right]. split; [done|].
           by rewrite <-Ha, (assoc_L (++)).
    + destruct Hr as [Ho' ->]. exists sent. unfold delivers. rewrite <-Hh.
      destruct Ho as (<- & _). split_and!; try done.
      assert (others s w2 w') as (-> & _) by (etransitivity; done). done.
Qed.

Lemma send_data_holds s data c c' :
  SendOps.send_data s data c = (c', Ok ()) →
  held_data s c = None ∧ held_data s c' = Some data ∧ written s c' = written s c.
Proof.
  unfold SendOps.send_data. destruct (SendOps.terminal s c); [done|].
  unfold held_data. destruct (streams c !! get s) as [x|] eqn:Hx; [|done]. simpl.
  destruct (writing x) eqn:Hw; [done|]. intros [= <-]. simpl. by rewrite lookup_insert_eq.
Qed.

(** C33. What [send_data] takes is held whole; [poll_ready], whatever other tasks do between its
    sections short of touching this stream's data, hands it to the connection below in order
    and without gaps or repeats: answering that it is ready, all of it went out; pending, what
    went out and what is still held make it up, unless the stream ended meanwhile; failing, a
    prefix went out. *)
Theorem sent_in_order s cx w w' a :
  among (others s) (poll_ready s cx) w w' a →
  (∃ sent, delivers s w w' a sent) ∧
  ∀ data c, SendOps.send_data s data c = (core w, Ok ()) →
    held s c = [] ∧ held s (core w) = contents data ∧ written s (core w) = written s c.
Proof.
  intros Hrun.
  split; [|intros data c (Hc & Hc' & Hw)%send_data_holds; unfold held; by rewrite Hc, Hc'].
  apply (among_bind _) in Hrun as (w1 & r & (w2 & w3 & r' & Ho2 & Hlook & Ho3 & ->) & Hrun).
  unfold locked in Hlook. injection Hlook as <- <-.
  assert (Ho : others s w w1).
  { etransitivity; [done|]. etransitivity; [|done]. apply same_core. by rewrite core_wakes. }
  destruct (SendOps.terminal s (core w2)) as [error|] eqn:Ht.
  - destruct Hrun as [Ho' ->]. exists []. unfold delivers. rewrite app_nil_r.
    assert (others s w w') as (-> & _) by (etransitivity; done).
    split_and!; try done. apply prefix_nil.
  - apply poll_retained_delivers in Hrun as (sent & Hw1 & Hp & Ha & He). exists sent.
    destruct (ended_dec s (core w1)) as [Hend|Hn].
    + rewrite (He Hend) in *. unfold delivers. destruct Ho as (<- & _).
      split_and!; [done|apply prefix_nil| |done].
      destruct a as [|[]]; [|by destruct Ha|done]. left. by destruct Ha as [?|[? _]].
    + destruct (held_others s w w1 Ho Hn) as [Hh Hn']. unfold delivers.
      destruct Ho as (<- & _). rewrite <-Hh. split_and!; try done.
      destruct a as [|[]]; [|by destruct Ha|done]. destruct Ha as [?|[? ?]]; [by left|by right].
Qed.
End Send.
