(* ===== verification/H3QmuxWake.v ===== *)
(** * No wake is lost between the connection below and the driver

    [LowerWake] is three cells that sections, the reactor and the driver touch at the same
    time.  [Atomics] takes its methods apart into single accesses and interleaves any number of
    calls.  The second part follows the wakers parked with the adapter through a turn of the
    driver. *)

From Stdlib Require Import ZArith Lia.
From stdpp Require Import base list gmap strings sorting relations.
From S2P Require Import Prelude Varint CloseCodec QmuxError QmuxTypes QmuxConn QmuxWrite RecordFramer QmuxScheduling QmuxIo QmuxLower H3Qmux H3QmuxFacts.
Import Stream Fields CoreOps.

Module Atomics.
Section Machine.
Context `{Wakers}.

(** Where a call in progress is. *)
Inductive At :=
| Working (* between [begin_defer] and [end_defer] *)
| Subtracted (previous : Z) (* in [end_defer], before it looks at [ready] *)
| Stored (* in [lower_ready], before it looks at [defer] *)
| Waking (* about to take the driver's waker *)
| Holding (waker : option Waker) (* about to wake it *)
| Registered (* in [Driver::poll], before [take_ready] *)
| Buffered (* in [lower_ready], its store not seen by others yet *)
| Looked (wakes : bool). (* the same, having looked at [defer] *)

Record State := mkState { cells : LowerWake; calls_ : list At; woken_ : list Waker }.

Definition start : State := mkState Wake.new [] [].

(** A call goes on to [next], or is over. *)
Definition goes (i : nat) (next : option At) (l : list At) : list At :=
  match next with Some x => <[i := x]> l | None => delete i l end.

Definition on_cells (f : LowerWake → LowerWake) (st : State) : State :=
  mkState (f (cells st)) (calls_ st) (woken_ st).
Definition on_calls (f : list At → list At) (st : State) : State :=
  mkState (cells st) (f (calls_ st)) (woken_ st).

(** One access.  [weak]: [lower_ready]'s store may be seen by others after the load that
    follows it, which its [Release] and the load's [Acquire] allow, the two being of different
    cells; without it every access is seen at once, as with [SeqCst].  Fewer calls are in progress than the count can hold. *)
Inductive step (weak : bool) : State → State → Prop :=
| begin_ st :
    defer (cells st) + 1 < 2 ^ 64 →
    step weak st (on_calls (λ l, l ++ [Working]) (on_cells Wake.begin_defer st))
| subtract_ st i :
    calls_ st !! i = Some Working →
    step weak st (on_calls (goes i (Some (Subtracted (Wake.subtract (cells st)).2)))
                    (on_cells (λ c, (Wake.subtract c).1) st))
| look_ready st i previous :
    calls_ st !! i = Some (Subtracted previous) →
    step weak st (on_calls (goes i (if Wake.owed_after previous (cells st) then Some Waking
                                    else None)) st)
| store st : step weak st (on_calls (λ l, l ++ [Stored]) (on_cells Wake.store_ready st))
| look_defer st i :
    calls_ st !! i = Some Stored →
    step weak st (on_calls (goes i (if Wake.not_deferred (cells st) then Some Waking
                                    else None)) st)
| request st : step weak st (on_calls (λ l, l ++ [Waking]) st)
| take_ st i :
    calls_ st !! i = Some Waking →
    step weak st (on_calls (goes i (Some (Holding (driver (cells st)))))
                    (on_cells (λ c, (Wake.wake_driver c).1) st))
| wake_ st i waker :
    calls_ st !! i = Some (Holding waker) →
    step weak st (mkState (cells st) (goes i None (calls_ st)) (woken_ st ++ option_list waker))
| register st waker :
    step weak st (on_calls (λ l, l ++ [Registered]) (on_cells (Wake.register_driver waker) st))
| take_ready_ st i :
    calls_ st !! i = Some Registered →
    step weak st (on_calls (goes i None) (on_cells (λ c, (Wake.take_ready c).1) st))
| store_late st : weak = true → step weak st (on_calls (λ l, l ++ [Buffered]) st)
| look_early st i :
    weak = true → calls_ st !! i = Some Buffered →
    step weak st (on_calls (goes i (Some (Looked (Wake.not_deferred (cells st))))) st)
| seen st i wakes :
    weak = true → calls_ st !! i = Some (Looked wakes) →
    step weak st (on_calls (goes i (if wakes then Some Waking else None))
                    (on_cells Wake.store_ready st)).

(** Every access but the driver's own registration. *)
Definition parked_step (weak : bool) (st st' : State) : Prop :=
  step weak st st' ∧
  ¬ ∃ waker, st' = on_calls (λ l, l ++ [Registered]) (on_cells (Wake.register_driver waker) st).

(** The calls that will still look whether the driver must be woken. *)
Definition owes (x : At) : Prop :=
  match x with
  | Working | Stored | Waking | Registered => True
  | Subtracted previous => previous = 1
  | Holding _ | Buffered | Looked _ => False
  end.

Definition is_working (x : At) : bool := match x with Working => true | _ => false end.
Definition working (l : list At) : nat :=
  sum_list_with (λ x, if is_working x then 1 else 0)%nat l.

(** The count is of the sections at work. *)
Record Counted (st : State) : Prop := {
  sound_count : defer (cells st) = Z.of_nat (working (calls_ st));
  sound_bound : defer (cells st) < 2 ^ 64
}.

(** A waker that sleeps while something is ready is owed a look. *)
Definition owed (st : State) : Prop :=
  ready (cells st) = true → is_Some (driver (cells st)) → ∃ x, x ∈ calls_ st ∧ owes x.

(** The store of a [lower_ready] that looked too early becomes visible when nobody in progress
    will look any more. *)
Definition unnoticed (st st' : State) : Prop :=
  (∃ i, calls_ st !! i = Some (Looked false) ∧
        st' = on_calls (goes i None) (on_cells Wake.store_ready st)) ∧
  is_Some (driver (cells st)) ∧ ¬ ∃ x, x ∈ calls_ st ∧ owes x.

#[local] Instance owes_dec x : Decision (owes x).
Proof. destruct x; simpl; apply _. Defined.

#[local] Instance some_owes_dec (l : list At) : Decision (∃ x, x ∈ l ∧ owes x).
Proof.
  refine (cast_if (decide (Exists owes l))); rewrite <-Exists_exists; done.
Defined.

#[local] Instance owed_dec st : Decision (owed st).
Proof. unfold owed. apply _. Defined.

Lemma working_app a b : working (a ++ b) = (working a + working b)%nat.
Proof. apply sum_list_with_app. Qed.

Lemma split_at (l : list At) i x :
  l !! i = Some x → ∃ a b, l = a ++ x :: b ∧ delete i l = a ++ b ∧ ∀ y, <[i := y]> l = a ++ y :: b.
Proof.
  intros Hi. pose proof (take_drop_middle l i x Hi) as Hl.
  assert (length (take i l) = i) as Hlen
    by (apply length_take_le, Nat.lt_le_incl; by eapply lookup_lt_Some).
  exists (take i l), (drop (S i) l). split; [done|]. split.
  - by rewrite delete_take_drop.
  - intros y. rewrite insert_take_drop; [done|]. by eapply lookup_lt_Some.
Qed.

Lemma in_goes (l : list At) i x y : l !! i = Some x → y ∈ l → y = x ∨ ∀ next, y ∈ goes i next l.
Proof.
  intros Hi Hy. destruct (split_at l i x Hi) as (a & b & -> & Hd & Hu).
  apply list.elem_of_app in Hy as [Hy|[->|Hy]%list.elem_of_cons]; [right|by left|right];
    intros []; simpl; rewrite ?Hd, ?Hu; set_solver.
Qed.

Lemma goes_new (l : list At) i x y : l !! i = Some x → y ∈ goes i (Some y) l.
Proof.
  intros Hi. destruct (split_at l i x Hi) as (a & b & -> & _ & Hu). simpl. rewrite Hu. set_solver.
Qed.

Lemma working_goes (l : list At) i x next :
  l !! i = Some x →
  (working (goes i next l) + (if is_working x then 1 else 0))%nat =
  (working l + match next with Some y => if is_working y then 1 else 0 | None => 0 end)%nat.
Proof.
  intros Hi. destruct (split_at l i x Hi) as (a & b & -> & Hd & Hu). unfold goes.
  destruct next as [y|]; rewrite ?Hd, ?Hu, !working_app; simpl; lia.
Qed.

Lemma working_some (l : list At) : (0 < working l)%nat → Working ∈ l.
Proof.
  induction l as [|x l IH]; simpl; [lia|]. destruct x; simpl; intros; [by left|right; auto..].
Qed.

(** What is owed stays owed by a call that does not go on, or by the next step of one that
    does. *)
Lemma owed_goes (l : list At) i x next :
  l !! i = Some x → (∃ y, y ∈ l ∧ owes y) →
  (owes x → (∃ y, next = Some y ∧ owes y) ∨ ∃ y, y ∈ goes i next l ∧ owes y) →
  ∃ y, y ∈ goes i next l ∧ owes y.
Proof.
  intros Hi (y & Hy & Ho) Hx. destruct (in_goes l i x y Hi Hy) as [->|Hin]; [|eauto].
  destruct (Hx Ho) as [(z & -> & Hz)|?]; [|done]. exists z. split; [by eapply goes_new|done].
Qed.

Lemma working_owed (l : list At) : (0 < working l)%nat → ∃ x, x ∈ l ∧ owes x.
Proof. intros. exists Working. split; [by apply working_some|done]. Qed.

(** An access that counts no section. *)
Lemma counted_goes st i x next f :
  Counted st → calls_ st !! i = Some x → is_working x = false →
  match next with Some y => is_working y = false | None => True end →
  defer (f (cells st)) = defer (cells st) →
  Counted (on_calls (goes i next) (on_cells f st)).
Proof.
  intros [Hc Hb] Hi Hx Hn Hd.
  assert (Hw : working (goes i next (calls_ st)) = working (calls_ st)).
  { pose proof (working_goes _ i x next Hi) as E. rewrite Hx in E.
    destruct next; rewrite ?Hn in E; lia. }
  split; cbn [cells calls_ on_calls on_cells]; by rewrite Hd, ?Hw.
Qed.

Lemma counted_added st x f :
  Counted st → is_working x = false → defer (f (cells st)) = defer (cells st) →
  Counted (on_calls (λ l, l ++ [x]) (on_cells f st)).
Proof.
  intros [Hc Hb] Hx Hd. split; simpl; rewrite ?Hd, ?working_app; simpl; rewrite ?Hx; lia.
Qed.

Lemma step_counted weak st st' : Counted st → step weak st st' → Counted st'.
Proof.
  intros Hst Hstep. pose proof Hst as [Hc Hb].
  destruct Hstep as [st Hl|st i Hi|st i p Hi|st|st i Hi|st|st i Hi|st i k Hi|st k|st i Hi|st Hw
    |st i Hw Hi|st i k Hw Hi].
  - split; simpl; unfold Wake.begin_defer; simpl; unfold wrapping_add;
      rewrite ?Z.mod_small, ?working_app by lia; simpl; lia.
  - pose proof (working_goes _ i _ (Some (Subtracted (defer (cells st)))) Hi) as E. simpl in E.
    split; simpl; unfold wrapping_add; rewrite ?Z.mod_small by lia; lia.
  - apply (counted_goes st i _ _ id Hst Hi); try done. by destruct (Wake.owed_after _ _).
  - by apply counted_added.
  - apply (counted_goes st i _ _ id Hst Hi); try done. by destruct (Wake.not_deferred _).
  - by apply (counted_added st Waking id).
  - by apply (counted_goes st i Waking).
  - destruct (counted_goes st i (Holding k) None id Hst Hi) as [Hc' Hb']; by try split.
  - by apply counted_added.
  - by apply (counted_goes st i Registered).
  - by apply (counted_added st Buffered id).
  - by apply (counted_goes st i Buffered _ id).
  - apply (counted_goes st i (Looked k)); try done. by destruct k.
Qed.

(** What is owed stays owed, or the next access of the call that owed it pays. *)
Lemma owed_kept st i x next f :
  owed st → calls_ st !! i = Some x →
  (ready (f (cells st)) = true → is_Some (driver (f (cells st))) →
     (∃ y, next = Some y ∧ owes y) ∨ (0 < working (goes i next (calls_ st)))%nat ∨
     (ready (cells st) = true ∧ is_Some (driver (cells st)) ∧ ¬ owes x)) →
  owed (on_calls (goes i next) (on_cells f st)).
Proof.
  intros Ho Hi Hf Hr Hs. simpl in *. destruct (Hf Hr Hs) as [(y & -> & Hy)|[Hw|(Hr0 & Hs0 & Hx)]].
  - exists y. split; [by eapply goes_new|done].
  - by apply working_owed.
  - apply (owed_goes _ i x next Hi (Ho Hr0 Hs0)). done.
Qed.

Lemma owed_added st x f :
  (owes x ∨ owed st ∧ f (cells st) = cells st) →
  owed (on_calls (λ l, l ++ [x]) (on_cells f st)).
Proof.
  intros [Hx|[Ho E]] Hr Hs; simpl in *; [exists x; split; [set_solver|done]|].
  rewrite E in Hr, Hs. destruct (Ho Hr Hs) as (y & Hy & ?). exists y. split; [set_solver|done].
Qed.

(** Every access keeps what is owed, but a store seen too late. *)
Lemma step_owed weak st st' :
  Counted st → owed st → step weak st st' → owed st' ∨ unnoticed st st'.
Proof.
  intros Hst Ho Hstep. pose proof Hst as [Hc Hb].
  assert (Hkeep : ∀ i x next, calls_ st !! i = Some x → is_working x = false →
    (ready (cells st) = true → owes x →
       (∃ y, next = Some y ∧ owes y) ∨ 0 < defer (cells st)) →
    owed (on_calls (goes i next) st)).
  { intros i x next Hi Hx Hn. apply (owed_kept st i x next id Ho Hi). intros Hr Hs.
    destruct (decide (owes x)) as [Hox|]; [|by right; right].
    destruct (Hn Hr Hox) as [?|Hd]; [by left|]. right. left.
    pose proof (working_goes _ i x next Hi) as E. rewrite Hx in E. lia. }
  destruct Hstep as [st Hl|st i Hi|st i p Hi|st|st i Hi|st|st i Hi|st i k Hi|st k|st i Hi|st Hw
    |st i Hw Hi|st i k Hw Hi].
  - left. apply owed_added. by left.
  - left. apply (owed_kept st i _ _ _ Ho Hi). intros Hr Hs. simpl in *.
    destruct (decide (defer (cells st) = 1)) as [Hone|]; [left; by eexists|right; left].
    pose proof (working_goes _ i _ (Some (Subtracted (defer (cells st)))) Hi) as E. simpl in E.
    pose proof (working_owed (calls_ st)). simpl.
    assert (Hin : (0 < working (calls_ st))%nat).
    { destruct (split_at _ _ _ Hi) as (a & b & -> & _). rewrite working_app. simpl. lia. }
    lia.
  - left. apply (Hkeep i _ _ Hi eq_refl). intros Hr. simpl. intros ->. left.
    unfold Wake.owed_after. rewrite Hr. by exists Waking.
  - left. apply owed_added. by left.
  - left. apply (Hkeep i _ _ Hi eq_refl). intros Hr _. unfold Wake.not_deferred.
    destruct (Z.eqb_spec (defer (cells st)) 0); [left; by exists Waking|right; lia].
  - left. apply (owed_added st Waking id). by left.
  - left. apply (owed_kept st i _ _ _ Ho Hi). by intros _ [].
  - left. intros Hr Hs. simpl in *. exact (Hkeep i _ None Hi eq_refl ltac:(done) Hr Hs).
  - left. apply owed_added. by left.
  - left. by apply (owed_kept st i _ _ _ Ho Hi).
  - left. apply (owed_added st Buffered id). by right.
  - left. by apply (Hkeep i _ _ Hi eq_refl).
  - destruct k; [left|].
    + apply (owed_kept st i _ _ _ Ho Hi). intros _ _. left. by exists Waking.
    + destruct (decide (is_Some (driver (cells st)))) as [Hd|Hd];
        [|left; by intros _ ?].
      destruct (decide (∃ x, x ∈ calls_ st ∧ owes x)) as [(x & Hx & Hox)|Hn].
      * left. intros _ _. exists x. split; [|done].
        destruct (in_goes _ i _ x Hi Hx) as [->|Hin]; [done|]. apply (Hin None).
      * right. split; [by exists i|done].
Qed.

(** A run is sound, or a store was seen too late and nobody has looked since. *)
Definition missed (weak : bool) (st : State) : Prop :=
  ∃ a b, rtc (step weak) start a ∧ step weak a b ∧ unnoticed a b ∧
    rtc (λ s s', step weak s s' ∧ ¬ owed s') b st.

Lemma steps_sound weak st :
  rtc (step weak) start st → Counted st ∧ (owed st ∨ missed weak st).
Proof.
  revert st. apply rtc_ind_r; [by split; [|left]|]. intros s s' Hrun Hstep [Hc Hm].
  split; [by eapply step_counted|]. destruct (decide (owed s')) as [|Hn]; [by left|right].
  destruct Hm as [Ho|(a & b & Ha & Hab & Hu & Hb)].
  - destruct (step_owed _ _ _ Hc Ho Hstep) as [?|Hu]; [done|]. by exists s, s'.
  - exists a, b. split_and!; [done..|]. by eapply rtc_r.
Qed.

(** A waker the driver left is in its slot, in the hand of a call, or woken. *)
Definition accounted (waker : Waker) (st : State) : Prop :=
  driver (cells st) = Some waker ∨ Holding (Some waker) ∈ calls_ st ∨ waker ∈ woken_ st.

Lemma accounted_goes waker st i x next f :
  accounted waker st → calls_ st !! i = Some x → x ≠ Holding (Some waker) →
  driver (f (cells st)) = driver (cells st) →
  accounted waker (on_calls (goes i next) (on_cells f st)).
Proof.
  intros Ha Hi Hx Hd. unfold accounted. simpl. rewrite Hd.
  destruct Ha as [?|[Hh|?]]; [by left| |by right; right].
  destruct (in_goes _ i x _ Hi Hh) as [E|Hin]; [by destruct Hx|right; left; auto].
Qed.

Lemma accounted_added waker st x f :
  accounted waker st → driver (f (cells st)) = driver (cells st) →
  accounted waker (on_calls (λ l, l ++ [x]) (on_cells f st)).
Proof.
  intros Ha Hd. unfold accounted. simpl. rewrite Hd.
  destruct Ha as [?|[?|?]]; [by left|right; left; set_solver|by right; right].
Qed.

Lemma accounted_step weak waker st st' :
  parked_step weak st st' → accounted waker st → accounted waker st'.
Proof.
  intros [Hstep Hnot] Ha. destruct Hstep; try done.
  - by apply accounted_added.
  - by eapply accounted_goes.
  - by eapply (accounted_goes _ _ _ _ _ id).
  - by apply accounted_added.
  - by eapply (accounted_goes _ _ _ _ _ id).
  - by apply (accounted_added _ _ _ id).
  - destruct Ha as [Hd|[Hh|?]]; [|right; left|by right; right].
    + right. left. simpl. rewrite Hd. by eapply goes_new.
    + destruct (in_goes _ i _ _ H0 Hh) as [[=]|Hin]. apply Hin.
  - destruct Ha as [Hd|[Hh|?]]; [by left|right|right; right; set_solver].
    destruct (in_goes _ i _ _ H0 Hh) as [[= <-]|Hin]; [right; set_solver|left; apply (Hin None)].
  - destruct Hnot. by exists waker0.
  - by eapply accounted_goes.
  - by apply (accounted_added _ _ _ id).
  - by eapply (accounted_goes _ _ _ _ _ id).
  - by eapply accounted_goes.
Qed.

(** C30. A wake from below is lost in one way only.  Take any point of any interleaving of
    sections, wakes from below, requests and polls of the driver, access by access, with
    [lower_ready]'s store seen late or not ([weak], what the source's [Release] and [Acquire]
    allow, or not), at which the driver has left its waker.  If it does not register again,
    then whenever something below is ready: when no call is in progress, that waker has been
    woken; and a driver's waker still in its slot is owed a wake by some call in progress.
    Or else, the one exception: some [lower_ready]'s store became visible after its own look
    at the count of sections, when no other call was left to look, and nothing has looked
    since.  With every store seen at once there is no exception ([no_store_missed]); with
    late stores the exception happens ([late_store_loses_a_wake]). *)
Theorem no_wake_lost weak st waker st' :
  rtc (step weak) start st → driver (cells st) = Some waker → rtc (parked_step weak) st st' →
  ready (cells st') = true →
  ((calls_ st' = [] → waker ∈ woken_ st') ∧
   (is_Some (driver (cells st')) → ∃ x, x ∈ calls_ st' ∧ owes x)) ∨
  missed weak st'.
Proof.
  intros Hrun Hd Hparked Hr.
  assert (Hall : rtc (step weak) start st').
  { etransitivity; [done|]. clear -Hparked.
    induction Hparked as [|x y z [Hxy _] _ IH]; [done|by econstructor]. }
  destruct (steps_sound _ _ Hall) as [_ [Ho|?]]; [left|by right].
  assert (Ha : accounted waker st').
  { assert (Ha : accounted waker st) by by left. clear Hrun Hd Ho Hr Hall. revert Ha.
    induction Hparked as [|x y z Hxy _ IH]; [done|]. eauto using accounted_step. }
  split; [|by apply Ho]. intros Hnone.
  destruct Ha as [Hd'|[Hh|?]]; [|rewrite Hnone in Hh; set_solver|done].
  destruct (Ho Hr ltac:(by rewrite Hd')) as (x & Hx & _).
  rewrite Hnone in Hx. set_solver.
Qed.

(** Nobody is left to look after a store that was missed. *)
Lemma missed_not_owed weak st : missed weak st → ¬ owed st.
Proof.
  intros (a & b & _ & _ & [(i & Hi & ->) [Hd Hn]] & Hb) Ho.
  apply rtc_inv_r in Hb as [<-|(s & _ & _ & Hs)]; [|done].
  destruct (Ho eq_refl Hd) as (x & Hx & Hox). apply Hn. exists x. split; [|done].
  eapply elem_of_sublist; [exact Hx|apply sublist_delete].
Qed.

(** With every store seen at once no call ever is between its store and the others' seeing
    it. *)
Definition prompt (x : At) : Prop := match x with Buffered | Looked _ => False | _ => True end.

Lemma prompt_goes (l : list At) i next :
  Forall prompt l → match next with Some x => prompt x | None => True end →
  Forall prompt (goes i next l).
Proof.
  intros Hl Hn. destruct next; simpl; [by apply Forall_insert|].
  rewrite delete_take_drop. apply Forall_app. split; [by apply Forall_take|by apply Forall_drop].
Qed.

Lemma prompt_step st st' : step false st st' → Forall prompt (calls_ st) → Forall prompt (calls_ st').
Proof.
  intros Hstep Hp. destruct Hstep; try done; cbn [calls_ on_calls on_cells].
  all: try (apply Forall_app; split; [done|by apply Forall_singleton]).
  all: apply prompt_goes; try done.
  - by destruct (Wake.owed_after _ _).
  - by destruct (Wake.not_deferred _).
Qed.

Lemma no_store_missed st : ¬ missed false st.
Proof.
  intros (a & b & Ha & _ & [(i & Hi & _) _] & _).
  assert (Hp : Forall prompt (calls_ a)).
  { revert a Ha Hi. assert (∀ a, rtc (step false) start a → Forall prompt (calls_ a)) as H0; [|eauto].
    apply rtc_ind_r; [by constructor|]. eauto using prompt_step. }
  by apply (Forall_lookup_1 _ _ _ _ Hp Hi).
Qed.

(** The orderings of the source are [Release] and [Acquire], which let [lower_ready]'s store be
    seen after its load: then a section that ends in between sees neither the other's mark,
    and the driver sleeps on with something ready. *)
Lemma late_store_loses_a_wake (waker : Waker) :
  ∃ st, rtc (step true) start st ∧ calls_ st = [] ∧ woken_ st = [] ∧
    ready (cells st) = true ∧ driver (cells st) = Some waker.
Proof.
  eexists. split_and!.
  - eapply rtc_l; [apply (register true _ waker)|].
    eapply rtc_l; [by apply (take_ready_ true _ 0)|].
    eapply rtc_l; [by apply begin_|].
    eapply rtc_l; [by apply store_late|].
    eapply rtc_l; [by apply (look_early true _ 1)|].
    eapply rtc_l; [by apply (subtract_ true _ 0)|].
    eapply rtc_l; [by apply (look_ready true _ 0 1)|].
    eapply rtc_l; [by apply (seen true _ 0 false)|]. done.
  - done.
  - done.
  - done.
  - done.
Qed.
End Machine.
End Atomics.

(** ** Wakers parked with the adapter *)
Section Parked.
Context `{Wk : Wakers} {Low : QmuxLower} `{Bufs : SendBufs} `{!LowerWakers}.
Implicit Types (c : Core) (s : StreamId) (st : StreamState) (e : Effects).
Import Adapter.

(** Where a waker may be parked. *)
Inductive Place :=
| AtAccept (kind : AcceptKind)
| AtOpener (kind : OpenKind) (id : Z)
| AtStream (k : Slot) (key : Z).

Definition parked_at (p : Place) c : option Waker :=
  match p with
  | AtAccept kind => accept_waiter kind c
  | AtOpener kind id => let! o := openers c !! id in opener_waiter kind o
  | AtStream k key => let! x := streams c !! key in slot k x
  end.

(** Whoever was parked still is, or is among those to wake. *)
Definition remembers c c' e : Prop :=
  ∀ p waker, parked_at p c = Some waker → parked_at p c' = Some waker ∨ waker ∈ wakes e.

Lemma remembers_same c c' e :
  accept_uni c' = accept_uni c → accept_bidi c' = accept_bidi c → openers c' = openers c →
  streams c' = streams c → remembers c c' e.
Proof.
  intros Hu Hb Ho Hs p waker Hp. left. rewrite <-Hp.
  destruct p as [[]| |]; simpl; by rewrite ?Hu, ?Hb, ?Ho, ?Hs.
Qed.

Lemma remembers_trans c1 c2 c3 e1 e2 :
  remembers c1 c2 e1 → remembers c2 c3 e2 → remembers c1 c3 (merge e1 e2).
Proof.
  intros H12 H23 p waker Hp. simpl. rewrite list.elem_of_app.
  destruct (H12 p waker Hp) as [Hp2|?]; [|auto]. destruct (H23 p waker Hp2); auto.
Qed.

Lemma remembers_more c c' e e' : wakes e ⊆ wakes e' → remembers c c' e → remembers c c' e'.
Proof. intros Hsub Hr p waker Hp. destruct (Hr p waker Hp); [by left|right; auto]. Qed.

Lemma values_mut_at {A} (f : A → A * list Waker) (m : gmap Z A) k a :
  m !! k = Some a →
  (values_mut f m).1 !! k = Some (f a).1 ∧ (f a).2 ⊆ (values_mut f m).2.
Proof.
  intros Hk. unfold values_mut. simpl. split; [by rewrite lookup_fmap, Hk|].
  intros waker Hw. apply list_elem_of_In, in_flat_map. exists k. rewrite Hk.
  split; [|by apply list_elem_of_In]. apply list_elem_of_In. unfold ordered.
  rewrite merge_sort_Permutation. apply list_elem_of_fmap. exists (k, a).
  split; [done|]. by apply elem_of_map_to_list.
Qed.

(** A change of one value that remembers its slots. *)
Definition slots_remembered st (r : StreamState * list Waker) : Prop :=
  ∀ k waker, slot k st = Some waker → slot k r.1 = Some waker ∨ waker ∈ r.2.

Definition opener_remembered (o : OpenerWaiters) (r : OpenerWaiters * list Waker) : Prop :=
  ∀ kind waker, opener_waiter kind o = Some waker →
    opener_waiter kind r.1 = Some waker ∨ waker ∈ r.2.

Lemma remembers_streams f c e :
  (∀ st, slots_remembered st (f st)) → (values_mut f (streams c)).2 ⊆ wakes e →
  remembers c (set_streams (values_mut f (streams c)).1 c) e.
Proof.
  intros Hf Hsub [| |k key] waker Hp; [by left; destruct kind|by left|]. simpl in Hp.
  destruct (streams c !! key) as [st|] eqn:Hst; [|done].
  destruct (values_mut_at f _ _ _ Hst) as [Hk Hw]. cbn [parked_at streams set_streams]. rewrite Hk.
  destruct (Hf st k waker Hp); [by left|right; auto].
Qed.

Lemma remembers_openers f c e :
  (∀ o, opener_remembered o (f o)) → (values_mut f (openers c)).2 ⊆ wakes e →
  remembers c (set_openers (values_mut f (openers c)).1 c) e.
Proof.
  intros Hf Hsub [|kind id|] waker Hp; [by left; destruct kind| |by left]. simpl in Hp.
  destruct (openers c !! id) as [o|] eqn:Ho; [|done].
  destruct (values_mut_at f _ _ _ Ho) as [Hk Hw]. cbn [parked_at openers set_openers]. rewrite Hk.
  destruct (Hf o kind waker Hp); [by left|right; auto].
Qed.

Lemma remembers_insert c c' s st st' e :
  streams c !! get s = Some st → slots_remembered st (st', wakes e) →
  accept_uni c' = accept_uni c → accept_bidi c' = accept_bidi c → openers c' = openers c →
  streams c' = <[get s := st']> (streams c) → remembers c c' e.
Proof.
  intros Hs Hst Hu Hb Ho Hs' p waker Hp.
  destruct p as [[]| |k key]; simpl in *; rewrite ?Hu, ?Hb, ?Ho, ?Hs'; [by left..|].
  destruct (decide (key = get s)) as [->|Hne].
  - rewrite Hs in Hp. rewrite lookup_insert_eq. by apply Hst.
  - left. by rewrite lookup_insert_ne.
Qed.

Lemma take_slots_remembered ks st st0 :
  (∀ k, slot k st = slot k st0) → slots_remembered st (take_slots ks st0).
Proof.
  intros He k waker Hk. rewrite He in Hk. clear He. revert st0 Hk.
  induction ks as [|k' ks IH]; intros st0 Hk; simpl; [by left|].
  destruct (take_slots ks (set_slot k' None st0)) as [st2 more] eqn:E. simpl.
  assert (slot k' st0 = Some waker ∨ slot k (set_slot k' None st0) = Some waker) as [Hw|Hw]
    by (destruct k, k'; auto).
  - right. rewrite Hw. by left.
  - specialize (IH _ Hw). rewrite E in IH. destruct IH; [by left|right; simpl in *; set_solver].
Qed.

Lemma with_stream_remembers s f c :
  (∀ st, slots_remembered st (f st)) → remembers c (with_stream s f c).1 (with_stream s f c).2.
Proof.
  intros Hf. unfold with_stream. destruct (streams c !! get s) as [st|] eqn:Hs.
  - specialize (Hf st). destruct (f st) as [st' woken]. by apply (remembers_insert c _ s st st').
  - by apply remembers_same.
Qed.

Lemma fail_remembers t c : remembers c (fail t c).1 (fail t c).2.
Proof.
  unfold fail. destruct (terminal c); [by apply remembers_same|]. intros p waker Hp. right.
  simpl. rewrite !list.elem_of_app.
  destruct p as [[]|kind id|k key]; simpl in Hp.
  - rewrite Hp. set_solver.
  - rewrite Hp. set_solver.
  - destruct (openers c !! id) as [o|] eqn:Ho; [|done]. right. right. left.
    apply (proj2 (values_mut_at take_opener _ _ _ Ho)). destruct kind; simpl in *; rewrite Hp; set_solver.
  - destruct (streams c !! key) as [st|] eqn:Hs; [|done]. right. right. right.
    apply (proj2 (values_mut_at (λ st, take_slots [RecvSlot; SendSlot; FinishSlot]
      (set_writing None st)) _ _ _ Hs)).
    destruct k; simpl in *; rewrite Hp; set_solver.
Qed.

Lemma all_senders_remembers c : remembers c (wake_all_senders c).1 (wake_all_senders c).2.
Proof.
  apply (remembers_streams (λ st, let '(st, woken) := take_slots [SendSlot; FinishSlot] st in
    (set_finish_waiting_output false (set_send_waiting_output false st), woken))); [|done].
  intros st k waker Hk. destruct k; simpl in *; [by left|right; rewrite Hk; set_solver..].
Qed.

Lemma output_senders_remembers c :
  remembers c (wake_output_senders c).1 (wake_output_senders c).2.
Proof.
  apply (remembers_streams wake_output); [|done]. intros st k waker Hk. unfold wake_output.
  destruct (send_waiting_output st), (finish_waiting_output st) eqn:Hf; simpl; rewrite ?Hf;
    destruct k; simpl in *; try (by left); right; rewrite Hk; set_solver.
Qed.

Lemma openers_remembers kind c : remembers c (wake_openers kind c).1 (wake_openers kind c).2.
Proof.
  apply (remembers_openers (λ o, match kind with
    | Uni => let '(uni, w) := take_waiter (o_uni o) in (mkOpener uni (o_bidi o), w)
    | Bidi => let '(bidi, w) := take_waiter (o_bidi o) in (mkOpener (o_uni o) bidi, w) end));
    [|done].
  intros o k waker Hk. destruct kind, k; simpl in *; try (by left); right; rewrite Hk; set_solver.
Qed.

Lemma cleanup_remembers s c e :
  (∀ st k, streams c !! get s = Some st → slot k st = None) → remembers c (cleanup s c) e.
Proof.
  intros Hnone. unfold cleanup. destruct (streams c !! get s) as [st|] eqn:Hs;
    [|by apply remembers_same].
  destruct (removable st); [|by apply remembers_same]. intros [| |k key] waker Hp; [by left..|].
  left. simpl in *. rewrite lookup_delete_ne; [done|]. intros <-. rewrite Hs in Hp.
  by rewrite Hnone in Hp.
Qed.

Lemma set_below_remembers l c e : remembers c (set_below l c) e.
Proof. by apply remembers_same. Qed.

(** A stream not known before forgets nobody. *)
Lemma remembers_fresh c c' s st e :
  streams c !! get s = None →
  (∀ kind waker, accept_waiter kind c = Some waker →
     accept_waiter kind c' = Some waker ∨ waker ∈ wakes e) →
  openers c' = openers c → streams c' = <[get s := st]> (streams c) → remembers c c' e.
Proof.
  intros Hs Ha Ho Hs' p waker Hp. destruct p as [kind| |k key]; simpl in *; [by apply Ha| |].
  - left. by rewrite Ho.
  - left. rewrite Hs', lookup_insert_ne; [done|]. intros <-. by rewrite Hs in Hp.
Qed.

Lemma discover_remembers s c :
  let r := discover_peer s c in
  remembers c r.1.1 r.1.2 ∧
  (r.2 = true → r.1 = (c, no_effects) ∨
     ∃ st, streams r.1.1 !! get s = Some st ∧ recv_shutdown_sent st = false).
Proof.
  unfold discover_peer, contains. destruct (streams c !! get s) as [st|] eqn:Hs.
  { split; [by apply remembers_same|by left]. }
  destruct (initiator_is_local s c).
  { match goal with |- context [fail ?t ?c0] => pose proof (fail_remembers t c0);
      destruct (fail t c0) end. by split. }
  case_decide.
  { match goal with |- context [fail ?t ?c0] => pose proof (fail_remembers t c0) as Hf;
      assert (remembers c c0 no_effects) as Hclose by (apply remembers_same; by destruct (close_as c));
      destruct (fail t c0) end.
    split; [|done]. eapply remembers_more; [|by eapply remembers_trans]. done. }
  destruct (directionality s); simpl; (split; [|right; rewrite lookup_insert_eq; eauto]).
  - eapply (remembers_fresh _ _ s); try done. intros [] waker Hw; simpl in *; [by left|right].
    rewrite Hw. set_solver.
  - eapply (remembers_fresh _ _ s); try done. intros [] waker Hw; simpl in *; [right|by left].
    rewrite Hw. set_solver.
Qed.

Lemma route_data_remembers s data fin c c' e :
  route_data s data fin c = Some (c', e) → remembers c c' e.
Proof.
  unfold route_data. destruct (negb _).
  { intros [= Hf]. pose proof (fail_remembers (TermInternal
      "QMux delivered data on an impossible receive direction") c) as Hr. by rewrite Hf in Hr. }
  destruct (discover_remembers s c) as [Hd Hfresh].
  destruct (discover_peer s c) as [[c1 e1] found]. simpl in *. destruct found; simpl;
    [|by intros [= <- <-]].
  destruct (streams c1 !! get s) as [st|] eqn:Hs; [|done].
  destruct (recv_shutdown_sent st) eqn:Hsent.
  - assert (c1 = c ∧ e1 = no_effects) as [-> ->].
    { destruct (Hfresh eq_refl) as [[= -> ->]|(st' & Hs' & ?)]; [done|congruence]. }
    case_decide; [by intros [= <- <-]|].
    destruct (l_extend_connection_credit _ _) as [[l [|error]]|]; [|intros [= Hf]|done].
    + intros [= <- <-]. apply set_below_remembers.
    + pose proof (fail_remembers (Terminal.from_lower error) (set_below l c)) as Hr.
      rewrite Hf in Hr. eapply remembers_more;
        [|eapply remembers_trans; [by apply (set_below_remembers l c no_effects)|done]]. done.
  - match goal with |- context [match ?x with Some _ => _ | None => _ end] =>
      destruct x as [st'|] eqn:Hst' end; [|by intros [= <- <-]].
    assert (He : ∀ k, slot k st = slot k st').
    { intros k. repeat case_match; simplify_eq; by destruct k. }
    intros [= <- <-]. eapply remembers_trans; [done|].
    eapply (remembers_insert c1 _ s st); try done.
    intros k waker Hk. rewrite He in Hk. destruct k; simpl in *; [right; rewrite Hk; set_solver|by left..].
Qed.

Lemma route_remembers event c c' e : route event c = Some (c', e) → remembers c c' e.
Proof.
  destruct event; cbn [route].
  - apply route_data_remembers.
  - pose proof (fail_remembers
      (TermInternal "QMux reported a locally initiated stream as peer-opened") c).
    destruct (discover_remembers stream_id c) as [Hd _].
    destruct (fail _ c), (discover_peer stream_id c) as [[] ?].
    case_match; by intros [= <- <-].
  - match goal with |- context [with_stream ?s ?f c] =>
      pose proof (with_stream_remembers s f c) as Hw;
      assert (∀ st k, streams (with_stream s f c).1 !! get s = Some st → slot k st = None) as Hn
    end.
    { intros st k. unfold with_stream. destruct (streams c !! get stream_id) as [x|] eqn:Hx;
        simpl; rewrite ?Hx, ?lookup_insert_eq; [|done]. intros [= <-]. by destruct k. }
    destruct (with_stream _ _ _) as [c1 e1]. intros [= <- <-].
    assert (Hr : remembers c c1 e1).
    { apply Hw. intros st. apply (take_slots_remembered _ st). by intros []. }
    eapply remembers_more; [|eapply remembers_trans;
      [exact Hr|by apply (cleanup_remembers _ _ no_effects)]]. simpl. by rewrite app_nil_r.
  - match goal with |- context [with_stream ?s ?f c] =>
      pose proof (with_stream_remembers s f c) as Hw; destruct (with_stream s f c) end.
    intros [= <- <-].
    apply Hw. intros st k waker Hk.
    destruct k; simpl in *; [right; rewrite Hk; set_solver|by left..].
  - match goal with |- context [with_stream ?s ?f c] =>
      pose proof (with_stream_remembers s f c) as Hw; destruct (with_stream s f c) end.
    intros [= <- <-].
    apply Hw. intros st. apply (take_slots_remembered [SendSlot; FinishSlot] st). by intros [].
  - match goal with |- context [with_stream ?s ?f c] =>
      pose proof (with_stream_remembers s f c) as Hw; destruct (with_stream s f c) end.
    intros [= <- <-].
    apply Hw. intros st. by apply (take_slots_remembered [SendSlot; FinishSlot] st).
  - pose proof (all_senders_remembers c). destruct (wake_all_senders c). by intros [= <- <-].
  - pose proof (openers_remembers Bidi c). pose proof (openers_remembers Uni c).
    destruct (wake_openers Bidi c), (wake_openers Uni c).
    destruct kind; intros [= <- <-]; try done; by apply remembers_same.
  - pose proof (openers_remembers Bidi c) as H1. destruct (wake_openers Bidi c) as [c1 e1].
    pose proof (openers_remembers Uni c1) as H2. destruct (wake_openers Uni c1) as [c2 e2].
    pose proof (all_senders_remembers c2) as H3. destruct (wake_all_senders c2) as [c3 e3].
    intros [= <- <-]. simpl in *. eauto using remembers_trans.
Qed.

Lemma remembers_refl c e : remembers c c e.
Proof. by apply remembers_same. Qed.

Lemma remembers_below c0 c l e : remembers c0 c e → remembers c0 (set_below l c) e.
Proof. intros Hr p waker Hp. destruct (Hr p waker Hp); [left|by right]. by destruct p as [[]| |]. Qed.

Lemma route_queued_remembers n c0 c e c' e' n' :
  route_queued n c e = Some (c', e', n') → remembers c0 c e → remembers c0 c' e'.
Proof.
  revert c e. induction n as [|n IH]; intros c e; simpl; [by intros [= <- <- <-]|].
  destruct (terminal c); [by intros [= <- <- <-]|].
  destruct (l_try_next_event (below c)) as [l [event|]].
  - destruct (route event (set_below l c)) as [[c1 e1]|] eqn:Hr; [|done]. intros Hq H0.
    apply (IH _ _ Hq). eapply remembers_trans; [by apply remembers_below|].
    by apply (route_remembers event).
  - intros [= <- <- <-] H0. by apply remembers_below.
Qed.

Lemma route_polled_remembers cx c c' e b :
  route_polled cx c = Some (c', e, b) → remembers c c' e.
Proof.
  unfold route_polled. destruct (l_poll_next_event cx (below c)) as [[l a]|]; [|done].
  assert (H0 : ∀ e, remembers c (set_below l c) e) by (intros; apply set_below_remembers).
  destruct a as [[|event]|error]; simpl.
  - by intros [= <- <- <-].
  - destruct (route event (set_below l c)) as [[c1 e1]|] eqn:Hr; [|done].
    intros [= <- <- <-]. apply route_remembers in Hr.
    eapply remembers_more; [|eapply remembers_trans; [apply (H0 no_effects)|exact Hr]]. done.
  - pose proof (fail_remembers (Terminal.from_lower error) (set_below l c)) as Hf.
    destruct (fail _ _) as [c1 e1]. intros [= <- <- <-].
    eapply remembers_more; [|eapply remembers_trans; [apply (H0 no_effects)|exact Hf]]. done.
Qed.

Lemma drive_turn_remembers cx c c' e : drive_turn cx c = Some (c', e) → remembers c c' e.
Proof.
  unfold drive_turn. destruct (terminal c); [intros [= <- <-]; apply remembers_refl|].
  destruct (route_queued ROUTE_BUDGET c no_effects) as [[[c1 e1] n1]|] eqn:Hq; [|done].
  pose proof (route_queued_remembers _ c _ _ _ _ _ Hq (remembers_refl c _)) as Hr1.
  destruct (terminal c1); [by intros [= <- <-]|].
  match goal with |- (let! _ := ?mid in _) = _ → _ =>
    destruct mid as [[[[c2 e2] n2] b]|] eqn:Hmid end; [|done].
  assert (Hr2 : remembers c c2 e2).
  { case_decide; [by simplify_eq|].
    destruct (route_polled cx c1) as [[[c3 e3] b3]|] eqn:Hp; [|done].
    destruct (route_queued _ c3 _) as [[[c4 e4] n4]|] eqn:Hq2; [|done]. simplify_eq.
    apply (route_queued_remembers _ c _ _ _ _ _ Hq2).
    eapply remembers_trans; [done|]. by eapply route_polled_remembers. }
  clear Hmid. cbv beta iota.
  match goal with |- (let '(_, _) := ?x in _) = _ → _ =>
    assert (Hr3 : remembers c x.1 x.2); [|destruct x as [c3 e3]] end.
  { destruct (terminal c2); [done|]. case_decide; [|done].
    pose proof (output_senders_remembers c2) as Hw. destruct (wake_output_senders c2).
    by eapply remembers_trans. }
  simpl in Hr3. intros [= <- <-]. case_match; [|done].
  eapply remembers_more; [|exact Hr3]. simpl. by rewrite app_nil_r.
Qed.

Lemma pump_turn_remembers c0 e c c' e' a :
  remembers c0 c e → pump_turn e c = Some (c', e', a) → remembers c0 c' e'.
Proof.
  intros H0. unfold pump_turn.
  destruct (l_poll_pump lower_waker (below c)) as [[l pumped]|]; [|done].
  apply (remembers_below _ _ l) in H0.
  match goal with |- (let '(_, _) := ?x in _) = _ → _ =>
    assert (Hr : remembers c0 x.1 x.2); [|destruct x as [c2 e2]] end.
  { case_decide; [|done].
    pose proof (output_senders_remembers (set_below l c)) as Hw.
    destruct (wake_output_senders _). by eapply remembers_trans. }
  simpl in Hr. destruct pumped as [|error]; [by intros [= <- <- <-]|].
  pose proof (fail_remembers (Terminal.from_lower error) c2) as Hf.
  destruct (fail _ c2) as [c3 e3]. intros [= <- <- <-].
  pose proof (remembers_trans _ _ _ _ _ Hr Hf) as Hr3.
  intros p waker Hp. destruct (Hr3 p waker Hp); [left|by right]. by destruct p as [[]| |].
Qed.

Lemma completed_remembers c answer e : remembers c (completed answer c).1 e.
Proof. unfold completed. destruct answer; by apply remembers_same. Qed.

(** C34. A turn of the driver forgets nobody: every task parked with the adapter (to accept, to
    open, to read, to write or to finish) is afterwards still parked where it was, or its
    waker is among those the turn wakes. *)
Theorem driver_forgets_nobody c c' e a p waker :
  driver_turn c = Some (c', e, a) → parked_at p c = Some waker →
  parked_at p c' = Some waker ∨ waker ∈ wakes e.
Proof.
  intros Hturn. revert p waker. change (remembers c c' e). revert Hturn. unfold driver_turn.
  destruct (driver_complete c); [intros [= <- <- <-]; apply remembers_refl|].
  destruct (close_as c) as [reason|].
  - unfold close_turn. destruct (l_poll_close _ _ _) as [[l [[|]|error]]|]; [..|done].
    + intros [= <- <- <-]. apply set_below_remembers.
    + destruct (close_is_failure _); [destruct (terminal _); [|done]|];
        intros [= <- <- <-]; by apply remembers_same.
    + intros [= <- <- <-]. by apply remembers_same.
  - destruct (drive_turn lower_waker c) as [[c1 e1]|] eqn:Hd; [|done].
    apply drive_turn_remembers in Hd. destruct (terminal c1) as [t|].
    + case_match; intros [= <- <- <-].
      * eapply remembers_more; [|exact Hd]. simpl. by rewrite app_nil_r.
      * intros p waker Hp. destruct (Hd p waker Hp); [left|by right]. by destruct p as [[]| |].
    + destruct (continuation e1); [by intros [= <- <- <-]|]. by apply pump_turn_remembers.
Qed.
End Parked.
