(* ===== verification/H3QmuxToy.v ===== *)
(** * A small connection, to run the adapter on

    [Net] hands out the events it has, takes what there is room for and opens as many streams
    as are asked for; a buffer is its octets, two to a chunk. *)

From Stdlib Require Import ZArith Lia Strings.Byte.
From stdpp Require Import base list gmap strings sorting relations.
From S2P Require Import Prelude Varint CloseCodec QmuxError QmuxTypes QmuxConn QmuxWrite RecordFramer QmuxScheduling QmuxIo QmuxLower H3Qmux H3QmuxFacts H3QmuxSend H3QmuxWake.
Import Stream Fields CoreOps.

Module AdapterToy.

#[local] Instance toy_wakers : Wakers := nat_wakers.

(** Waker 0 is the adapter's own. *)
#[local, refine] Instance toy_lower_wakers : LowerWakers := {|
  lower_waker := 0%nat : Waker;
  is_lower := Nat.eqb 0
|}.
Proof. done. Defined.

Record Net := mkNet { n_events : list Event.Event; n_room : nat; n_opened : nat }.

Definition opened_id (n : nat) : Z := 4 * Z.of_nat n.

Definition done_ {A} (n : Net) (a : A) : option (Net * result A Io.Error) := Some (n, Ok a).

Definition net : QmuxLower := {|
  lower := Net;
  l_role _ := QmuxTypes.Client;
  l_application code reason := mkCloseReason Application code 0 reason;
  l_queued_output _ := 0%nat;
  l_queued_events n := length (n_events n);
  l_try_next_event n :=
    match n_events n with
    | [] => (n, None)
    | e :: es => (mkNet es (n_room n) (n_opened n), Some e)
    end;
  l_poll_next_event _ n :=
    match n_events n with
    | [] => done_ n Pending
    | e :: es => done_ (mkNet es (n_room n) (n_opened n)) (Ready e)
    end;
  l_poll_pump _ n := done_ n Pending;
  l_poll_close _ _ n := done_ n (Ready ());
  l_try_open _ n :=
    done_ (mkNet (n_events n) (n_room n) (S (n_opened n))) (SOpened (mkStreamId (opened_id (n_opened n))));
  l_shutdown_stream _ _ _ n := done_ n ();
  l_extend_stream_credit _ _ n := done_ n ();
  l_extend_connection_credit _ n := done_ n ();
  l_try_write_stream _ bs _ n :=
    if decide (n_room n = 0%nat) then done_ n WBlocked
    else
      let taken := Nat.min (length bs) (n_room n) in
      done_ (mkNet (n_events n) (n_room n - taken) (n_opened n)) (WAccepted taken);
  l_try_write_stream_vectored _ slices _ n :=
    done_ (mkNet (n_events n) (n_room n - length (concat slices)) (n_opened n))
      (WAccepted (Nat.min (length (concat slices)) (n_room n)));
  l_poll_pump_buffered _ n := done_ n (Ready ());
  l_poll_finish _ n := done_ n (Ready ());
  l_now _ := 0;
  l_woken _ := []
|}.

Definition ids (n : nat) : gset Z := list_to_set (opened_id <$> seq 0 n).

Lemma ids_S n : ids n ⊆ ids (S n).
Proof. unfold ids. rewrite seq_S, fmap_app, list_to_set_app_L. apply union_subseteq_l. Qed.

Lemma ids_in n z : z ∈ ids n ↔ ∃ m, z = opened_id m ∧ (m < n)%nat.
Proof.
  unfold ids. rewrite elem_of_list_to_set, list_elem_of_fmap. split.
  - intros (m & -> & Hm%elem_of_seq). exists m. split; [done|lia].
  - intros (m & -> & Hm). exists m. split; [done|]. apply elem_of_seq. lia.
Qed.

Lemma opened_client n : initiator (mkStreamId (opened_id n)) = Stream.Client.
Proof.
  unfold initiator, opened_id. cbn [get].
  assert (Z.land (4 * Z.of_nat n) 1 = 0) as ->; [|done].
  change 1 with (Z.ones 1). rewrite Z.land_ones by lia.
  change (2 ^ 1) with 2. replace (4 * Z.of_nat n) with (2 * Z.of_nat n * 2) by lia.
  apply Z.mod_mul. lia.
Qed.

#[local, refine] Instance net_laws : LowerLaws (H0 := net) := {|
  lower_ok r (_ : lower (QmuxLower := net)) := r = QmuxTypes.Client;
  given_out (n : lower (QmuxLower := net)) := ids (n_opened n)
|}.
Proof.
  all: simpl; unfold done_; try (by intros; subst).
  all: intros; subst; repeat case_match; simplify_eq/=; try (eexists _, _; by split); try by split.
  { lia. }
  eexists _, _. split; [done|]. split; [split; [done|apply ids_S]|].
  intros s [= <-]. split_and!.
  - intros (m & Hm & Hin)%ids_in. unfold opened_id in Hm. simpl in Hm. lia.
  - apply ids_in. exists (n_opened l). split; [done|]. simpl. lia.
  - apply opened_client.
Defined.

#[local] Instance low : QmuxLower := recording (Below := net).
#[local] Instance low_laws : LowerLaws := recording_laws (Laws := net_laws).
#[local] Instance low_records : Recorded := recording_records.

#[local] Instance bufs : SendBufs := {|
  sbuf := bytes;
  remaining := length;
  chunk := take 2;
  advance := drop
|}.

#[local, refine] Instance buf_laws : BufLaws := {| contents (b : sbuf) := b : bytes |}.
Proof. all: simpl; try done. intros b. apply prefix_take. Defined.

(** ** Running methods one after another *)
Lemma alone_steps {W} calls (p : Prog W unit) w ts w' :
  alone p w = Some (w', ()) → rtc (sys_step calls) (w, ts ++ [p]) (w', ts ++ [Ret ()]).
Proof.
  revert w. induction p as [[]|R f next IH]; intros w Hr; simpl in Hr; [by simplify_eq|].
  destruct (f w) as [[w1 r]|] eqn:Hf; [|done]. eapply rtc_l; [|by apply (IH r w1)].
  replace (ts ++ [next r]) with (<[length ts := next r]> (ts ++ [Sect f next]))
    by (by rewrite insert_app_r_alt, Nat.sub_diag).
  apply (sys_section _ _ _ _ _ f next _ r); [|done]. by apply list_lookup_middle.
Qed.

Lemma alone_among {W A} (others : W → W → Prop) `{!Reflexive others} (p : Prog W A) w w' a :
  alone p w = Some (w', a) → among others p w w' a.
Proof.
  revert w. induction p as [a0|R f next IH]; intros w Hr; simpl in *; [by simplify_eq|].
  destruct (f w) as [[w1 r]|] eqn:Hf; [|done]. eauto 8.
Qed.

Fixpoint run_all (cs : list Call) (w : World) : option World :=
  match cs with
  | [] => Some w
  | c :: cs => let! (w, _) := alone (method c) w in run_all cs w
  end.

(** None of the calls is [poll_send]. *)
Definition framed (c : Call) : bool := match c with CPollSend _ _ _ => false | _ => true end.

Lemma run_all_steps unframed cs w ts w' :
  run_all cs w = Some w' → forallb framed cs = true ∨ unframed = true →
  ∃ ts', rtc (sys_step (callable unframed)) (w, ts) (w', ts').
Proof.
  revert w ts. induction cs as [|c cs IH]; intros w ts Hr Hf; simpl in *.
  { simplify_eq. exists ts. apply rtc_refl. }
  destruct (alone (method c) w) as [[w1 []]|] eqn:Ha; [|done].
  destruct (IH w1 (ts ++ [Ret ()]) Hr) as [ts' Hts'].
  { destruct Hf as [[_ ?]%andb_true_iff|?]; [by left|by right]. }
  exists ts'. eapply rtc_l; [apply (sys_call _ _ _ (method c))|].
  - exists c. split; [done|]. destruct c; try done. by destruct Hf as [?|?].
  - etransitivity; [by apply alone_steps|done].
Qed.

(** The world a run ends in. *)
Definition final (cs : list Call) (w : World) : World :=
  match run_all cs w with Some w' => w' | None => w end.

Lemma final_steps unframed cs w :
  match run_all cs w with Some _ => true | None => false end = true →
  forallb framed cs = true ∨ unframed = true →
  ∃ ts', rtc (sys_step (callable unframed)) (w, []) (final cs w, ts').
Proof.
  intros Hr Hf. unfold final. destruct (run_all cs w) eqn:E; [|done]. by apply (run_all_steps _ cs).
Qed.

(** ** The theorems at work *)
Definition sid (n : Z) : StreamId := mkStreamId n.

(** A peer's stream brings three octets and two more; a unidirectional one is opened. *)
Definition arrivals : list Event.Event :=
  [Event.StreamData (sid 1) 0 (ascii_bytes "abc") false;
   Event.StreamData (sid 1) 3 (ascii_bytes "de") true;
   Event.StreamOpened (sid 3)].

Definition first : lower (QmuxLower := low) := (mkNet arrivals 3 0, []).
Lemma first_ok : lower_ok (l_role first) first.
Proof. reflexivity. Qed.

Lemma first_calls : calls first = [].
Proof. reflexivity. Qed.

Definition begun : World := Adapter.from_qmux first 2.

(** The driver is polled, the stream accepted, and one piece of it read. *)
Definition reading : list Call :=
  [CAccept AcceptBidi 6%nat; CDriver 5%nat; CAccept AcceptBidi 6%nat; CPollData (sid 1) 6%nat].

Lemma adapter_never_panics_witness :
  pending_uni (core (final reading begun)) = [sid 3] ∧
  pending_bidi (core (final reading begun)) = [] ∧
  log (final reading begun) = [6; 5]%nat ∧
  ∃ ts, no_panic (final reading begun, ts) ∧ Queued (core (final reading begun)).
Proof.
  split_and!; [vm_compute; reflexivity..|].
  destruct (final_steps true reading begun) as [ts Hts]; [vm_compute; reflexivity|by right|].
  exists ts.
  destruct (adapter_never_panics first 2 (final reading begun, ts) first_ok first_calls Hts)
    as (Hp & Hq & _).
  by split.
Defined.

Lemma window_conserved_witness :
  delivered (calls (below (core (final reading begun)))) = 5 ∧
  credited (calls (below (core (final reading begun)))) = 3 ∧
  delivered (calls (below (core (final reading begun)))) =
  credited (calls (below (core (final reading begun)))) +
    retained_all (streams (core (final reading begun))).
Proof.
  split_and!; [vm_compute; reflexivity..|].
  destruct (final_steps true reading begun) as [ts Hts]; [vm_compute; reflexivity|by right|].
  apply (window_conserved first 2 (final reading begun, ts) first_ok first_calls Hts).
  vm_compute. reflexivity.
Defined.

(** Tasks park to accept, to open is not needed, to read and to send; then the connection is
    closed. *)
Definition closing : list Call :=
  reading ++ [CAccept AcceptBidi 7%nat; CPollData (sid 1) 6%nat; COpen 0 Bidi 8%nat;
              CSendData (sid 0) (ascii_bytes "hello"); CPollReady (sid 0) 8%nat;
              CClose 0x100 []].

Lemma nobody_parked_at_the_end_witness :
  is_Some (terminal (core (final closing begun))) ∧
  calm false (core (final closing begun)) ∧
  7%nat ∈ log (final closing begun) ∧ 8%nat ∈ log (final closing begun).
Proof.
  assert (Ht : is_Some (terminal (core (final closing begun))))
    by (exists (TermApplication 0x100); vm_compute; reflexivity).
  split; [exact Ht|]. split.
  - destruct (final_steps false closing begun) as [ts Hts]; [vm_compute; reflexivity|by left|].
    apply (nobody_parked_at_the_end false first 2 (final closing begun, ts) first_ok first_calls Hts Ht).
  - split; apply (bool_decide_eq_true_1 _); vm_compute; reflexivity.
Defined.

(** Five octets to send on a stream, and room for three. *)
Definition loaded : World := final [COpen 0 Bidi 8%nat; CSendData (sid 0) (ascii_bytes "hello")] begun.

Definition polled : World * Poll (result unit StreamErrorIncoming) :=
  match alone (Adapter.poll_ready (sid 0) 8%nat) loaded with
  | Some r => r | None => (loaded, Ready (Ok ()))
  end.

Lemma sent_in_order_witness :
  written (sid 0) (core polled.1) = ascii_bytes "hel" ∧
  held (sid 0) (core polled.1) = ascii_bytes "lo" ∧
  send_waiter <$> streams (core polled.1) !! 0 = Some (Some 8%nat) ∧
  ∃ sent, delivers (sid 0) loaded polled.1 Pending sent.
Proof.
  split_and!; [vm_compute; reflexivity..|].
  apply (sent_in_order (sid 0) 8%nat). apply (alone_among (others (sid 0))).
  assert (Hr : match alone (Adapter.poll_ready (sid 0) 8%nat) loaded with
               | Some (_, Pending) => true | _ => false end = true) by (vm_compute; reflexivity).
  unfold polled. revert Hr. by destruct (alone (Adapter.poll_ready (sid 0) 8%nat) loaded) as [[? []]|].
Defined.

(** A task waits to accept a stream; the turn that brings one wakes it. *)
Definition waiting : Core := core (final [CAccept AcceptBidi 6%nat] begun).

Definition turned : Core * Effects * Poll (result unit AdapterError) :=
  match Adapter.driver_turn waiting with
  | Some r => r | None => (waiting, no_effects, Pending)
  end.

Lemma driver_forgets_nobody_witness :
  parked_at (AtAccept AcceptBidi) turned.1.1 = None ∧ 6%nat ∈ wakes turned.1.2.
Proof.
  assert (Hn : parked_at (AtAccept AcceptBidi) turned.1.1 = None) by (vm_compute; reflexivity).
  split; [exact Hn|].
  destruct (driver_forgets_nobody waiting turned.1.1 turned.1.2 turned.2 (AtAccept AcceptBidi)
    6%nat) as [Hp|Hw].
  - assert (Hr : match Adapter.driver_turn waiting with Some _ => true | None => false end = true)
      by (vm_compute; reflexivity).
    unfold turned. revert Hr. by destruct (Adapter.driver_turn waiting) as [[[? ?] ?]|].
  - vm_compute. reflexivity.
  - rewrite Hn in Hp. discriminate.
  - exact Hw.
Defined.

(** The driver registers and finds nothing; a section begins, something below becomes ready
    while it works, and the section's end wakes the driver. *)
Definition asleep : Atomics.State :=
  Atomics.mkState (mkLowerWake false 0 (Some 5%nat)) [] [].

Definition woken_up : Atomics.State :=
  Atomics.mkState (mkLowerWake true 0 None) [] [5%nat].

(** The orderings of the source, and a run with no store missed. *)
Lemma no_wake_lost_witness :
  driver (Atomics.cells asleep) = Some 5%nat ∧ 5%nat ∈ Atomics.woken_ woken_up.
Proof.
  split; [reflexivity|].
  destruct (Atomics.no_wake_lost true asleep 5%nat woken_up) as [[Hw _]|Hm];
    [..|by apply Hw|by destruct (Atomics.missed_not_owed _ _ Hm); intros _ [? [=]]].
  - eapply rtc_l; [apply (Atomics.register true _ 5%nat)|].
    eapply rtc_l; [by apply (Atomics.take_ready_ true _ 0)|]. apply rtc_refl.
  - reflexivity.
  - eapply rtc_l; [split; [by apply Atomics.begin_|by intros [? [=]]]|].
    eapply rtc_l; [split; [by apply Atomics.store|by intros [? [=]]]|].
    eapply rtc_l; [split; [by apply (Atomics.look_defer true _ 1)|by intros [? [=]]]|].
    eapply rtc_l; [split; [by apply (Atomics.subtract_ true _ 0)|by intros [? [=]]]|].
    eapply rtc_l; [split; [by apply (Atomics.look_ready true _ 0 1)|by intros [? [=]]]|].
    eapply rtc_l; [split; [by apply (Atomics.take_ true _ 0)|by intros [? [=]]]|].
    eapply rtc_l; [split; [by apply (Atomics.wake_ true _ 0 (Some 5%nat))|by intros [? [=]]]|].
    apply rtc_refl.
  - reflexivity.
Defined.

(** ** The one that does not look

    Between the look [poll_send] begins with and its last section another task closes the
    connection: the sender parks on a connection that has ended, and nothing will wake it. *)
Definition two_sections {A} (p : Prog World A) (between : Prog World unit) (w : World)
  : option (World * A) :=
  match p with
  | Sect f next =>
      let! (w, r) := f w in
      let! (w, _) := alone between w in
      alone (next r) w
  | Ret a => Some (w, a)
  end.

Definition stranded : option (World * _) :=
  two_sections (Adapter.poll_send (sid 0) 9%nat (ascii_bytes "late")) (method (CClose 0x100 []))
    (final [COpen 0 Bidi 8%nat; CSendData (sid 0) (ascii_bytes "abc"); CPollReady (sid 0) 8%nat]
       begun).

Lemma poll_send_parks_after_the_end :
  match stranded with
  | Some (w, (_, Pending)) =>
      bool_decide (is_Some (terminal (core w))) &&
      bool_decide (send_waiter <$> streams (core w) !! 0 = Some (Some 9%nat)) &&
      negb (bool_decide (9%nat ∈ log w))
  | _ => false
  end = true.
Proof. vm_compute. reflexivity. Qed.
End AdapterToy.
