(* ===== verification/H2Drain.v ===== *)
(** * Draining a pass (crates/ngnet-h2/src/http/{driver,transport/mod}.rs)

    A pass asks the session for octets until it has none, and puts them on the transport in
    one of four ways: the transport borrows its buffers or takes them over, and gathers or is
    given everything in one piece.  The session is whatever [Sends]; while a write is awaited
    other tasks run, so a write may also change the session's surroundings. *)

From Stdlib Require Import ZArith Lia Strings.Byte.
From stdpp Require Import base list strings.
From S2P Require Import Prelude HttpCrate H2Types H2State H2Session H2Head.

(** ** transport/mod.rs *)

Inductive WriteModel := Readiness | Completion.

(** What the driver drains: [Session::send_into], the records going into a sink. *)
Class Sends (S : Type) := {
  send_into : list SendRecord → S → S * list SendRecord * result (option bytes) H2Types.Error
}.

(** A writer of either model.  Only the operations of its own model are used; a gathering
    operation left to the provided body is [None]. *)
Class TransportWrites `{BoxedErrors} (S : Type) := {
  writer : Type;
  model : WriteModel;
  is_write_vectored : writer → bool;
  commit : S * writer → S * writer * result unit BoxedError;
  write_borrowed : bytes → S * writer → S * writer * result nat BoxedError;
  own_vectored : option (list bytes → S * writer → S * writer * result nat BoxedError);
  write_owned : bytes → S * writer → S * writer * (result nat BoxedError * bytes);
  own_regions :
    option (list bytes → S * writer → S * writer * (result nat BoxedError * list bytes))
}.

(** The capacity of a descriptor list, and the least block worth a descriptor. *)
Definition MAX_REGIONS : nat := 64.
Definition VECTORED_THRESHOLD : nat := 256.

Module Transport.
Section Emulation.
Context `{BoxedErrors} {S : Type} `{!TransportWrites S}.
Abbreviation St := (S * writer)%type.

Fixpoint emulate_gathering (regions : list bytes) (total : nat) (st : St) :
    St * result nat BoxedError :=
  match regions with
  | [] => (st, Ok total)
  | region :: rest =>
      if decide (region = []) then emulate_gathering rest total st
      else
        match write_borrowed region st with
        | (st, Err e) => (st, Err e)
        | (st, Ok written) =>
            if decide (written < length region)%nat then (st, Ok (total + written)%nat)
            else emulate_gathering rest (total + written) st
        end
  end.

(** Each region goes out by value and is put back where it came from. *)
Fixpoint emulate_region_gathering (regions : list bytes) (total : nat) (st : St) :
    St * (result nat BoxedError * list bytes) :=
  match regions with
  | [] => (st, (Ok total, []))
  | region :: rest =>
      if decide (region = []) then
        let '(st, (r, rest)) := emulate_region_gathering rest total st in
        (st, (r, region :: rest))
      else
        match write_owned region st with
        | (st, (Err e, back)) => (st, (Err e, back :: rest))
        | (st, (Ok written, back)) =>
            if decide (written < length region)%nat then
              (st, (Ok (total + written)%nat, back :: rest))
            else
              let '(st, (r, rest)) := emulate_region_gathering rest (total + written) st in
              (st, (r, back :: rest))
        end
  end.

Definition write_vectored (regions : list bytes) (st : St) : St * result nat BoxedError :=
  match own_vectored with
  | Some f => f regions st
  | None => emulate_gathering regions 0 st
  end.

Definition write_regions (regions : list bytes) (st : St) :
    St * (result nat BoxedError * list bytes) :=
  match own_regions with
  | Some f => f regions st
  | None => emulate_region_gathering regions 0 st
  end.
End Emulation.
End Transport.

(** ** driver.rs, the drains *)

Inductive Region := Gathered (start end_ : nat) | HeaderOf (index : nat) | PayloadOf (index : nat).

Record WriteBuffers := mkBuffers {
  gathered : bytes;
  coalesced : bytes;
  send_records : list SendRecord;
  regions : list Region;
  minted : bytes;
  owned : list bytes
}.

Record Gather := mkGather {
  g_gathered : bytes;
  g_records : list SendRecord;
  g_regions : list Region;
  run_start : nat;
  regioned : nat
}.

(** A list being built: the open run, the regions, the records and how many of them the list
    names. *)
Record Owning := mkOwning {
  o_minted : bytes;
  o_owned : list bytes;
  o_records : list SendRecord;
  o_regioned : nat
}.

Module Drain.
Section Drain.
Context `{BoxedErrors} {S : Type} `{!Sends S} `{!TransportWrites S}.
Abbreviation St := (S * writer)%type.
Abbreviation Result := (result unit H2HttpError.Error).

Definition nothing_accepted : H2HttpError.Error :=
  H2HttpError.new H2HttpError.Transport "the transport accepted no octets and reported no error".

Definition buffers_new : WriteBuffers := mkBuffers [] [] [] [] [] [].

(** *** Coalescing *)

Fixpoint accumulate_loop (fuel : nat) (records : list SendRecord) (out : bytes) (s : S) :
    option (S * list SendRecord * bytes * Result) :=
  match fuel with
  | O => None
  | Datatypes.S fuel =>
      match send_into records s with
      | (s, _, Err e) => Some (s, [], out, Err (H2HttpError.from_core e))
      | (s, records, Ok block) =>
          let out := out ++ concat ((λ r, header_octets r ++ payload r) <$> records) in
          match block with
          | None => Some (s, [], out, Ok ())
          | Some block => accumulate_loop fuel [] (out ++ block) s
          end
      end
  end.

Definition accumulate_coalesced (fuel : nat) (records : list SendRecord) (s : S) :
    option (S * list SendRecord * bytes * Result) :=
  accumulate_loop fuel records [] s.

(** [None]: an offset past the end, which slicing refuses. *)
Fixpoint borrowed_loop (fuel : nat) (out : bytes) (offset : nat) (st : St) :
    option (St * Result) :=
  if decide (offset < length out)%nat then
    match fuel with
    | O => None
    | Datatypes.S fuel =>
        match write_borrowed (drop offset out) st with
        | (st, Err e) => Some (st, Err (H2HttpError.from_io e))
        | (st, Ok written) =>
            if decide (written = 0%nat) then Some (st, Err nothing_accepted)
            else borrowed_loop fuel out (offset + written) st
        end
    end
  else Some (st, Ok ()).

Definition flush_coalesced_borrowed (fuel : nat) (b : WriteBuffers) (st : St) :
    option (St * WriteBuffers * Result) :=
  let! (s, records, out, r) := accumulate_coalesced fuel (send_records b) st.1 in
  let b := mkBuffers (gathered b) out records (regions b) (minted b) (owned b) in
  match r with
  | Err e => Some ((s, st.2), b, Err e)
  | Ok _ =>
      let! (st, r) := borrowed_loop (length out) out 0 (s, st.2) in
      Some (st, b, r)
  end.

(** [None]: a count past the end of the buffer that came back. *)
Fixpoint pending_loop (fuel : nat) (pending : bytes) (st : St) : option (St * Result) :=
  match pending with
  | [] => Some (st, Ok ())
  | _ =>
      match fuel with
      | O => None
      | Datatypes.S fuel =>
          let '(st, (r, returned)) := write_owned pending st in
          match r with
          | Err e => Some (st, Err (H2HttpError.from_io e))
          | Ok written =>
              if decide (written = 0%nat) then Some (st, Err nothing_accepted)
              else if decide (length returned < written)%nat then None
              else pending_loop fuel (drop written returned) st
          end
      end
  end.

Definition flush_coalesced_owned (fuel : nat) (b : WriteBuffers) (st : St) :
    option (St * WriteBuffers * Result) :=
  let! (s, records, out, r) := accumulate_coalesced fuel (send_records b) st.1 in
  match r with
  | Err e =>
      Some ((s, st.2), mkBuffers (gathered b) out records (regions b) (minted b) (owned b), Err e)
  | Ok _ =>
      let! (st, r) := pending_loop (length out) out (s, st.2) in
      Some (st, mkBuffers (gathered b) [] records (regions b) (minted b) (owned b), r)
  end.

(** *** Gathering borrowed regions *)

Definition region_octets (run : bytes) (records : list SendRecord) (r : Region) : option bytes :=
  match r with
  | Gathered start end_ =>
      if decide (start ≤ end_ ∧ end_ ≤ length run)%nat then
        Some (take (end_ - start) (drop start run))
      else None
  | HeaderOf i => header_octets <$> records !! i
  | PayloadOf i => payload <$> records !! i
  end.

(** The array of slices, one longer than the list may be; [None] past either end. *)
Definition materialise (run : bytes) (records : list SendRecord) (rs : list Region)
    (tail : bytes) : option (list bytes) :=
  let! slices := mapM (region_octets run records) rs in
  let slots := filter (λ s, s ≠ []) (slices ++ [tail]) in
  if decide (length slots ≤ MAX_REGIONS + 1)%nat then Some slots else None.

(** The octets still outstanding, after the first [skip]. *)
Fixpoint offer (skip : nat) (slices : list bytes) : list bytes :=
  match slices with
  | [] => []
  | slice :: rest =>
      if decide (length slice ≤ skip)%nat then offer (skip - length slice) rest
      else drop skip slice :: offer 0 rest
  end.

Fixpoint gathering_loop (fuel : nat) (slices : list bytes) (done : nat) (st : St) :
    option (St * Result) :=
  if decide (done < length (concat slices))%nat then
    match fuel with
    | O => None
    | Datatypes.S fuel =>
        let slots := offer done slices in
        if decide (MAX_REGIONS + 1 < length slots)%nat then None
        else
          match Transport.write_vectored slots st with
          | (st, Err e) => Some (st, Err (H2HttpError.from_io e))
          | (st, Ok written) =>
              if decide (written = 0%nat) then Some (st, Err nothing_accepted)
              else gathering_loop fuel slices (done + written) st
          end
    end
  else Some (st, Ok ()).

Definition write_gathering (slices : list bytes) (st : St) : option (St * Result) :=
  gathering_loop (length (concat slices)) slices 0 st.

Definition close_run (g : Gather) : Gather :=
  if decide (run_start g < length (g_gathered g))%nat then
    mkGather (g_gathered g) (g_records g)
      (g_regions g ++ [Gathered (run_start g) (length (g_gathered g))]) (run_start g) (regioned g)
  else g.

(** The same when the run is left behind rather than written at once. *)
Definition cut_run (g : Gather) : Gather :=
  if decide (run_start g < length (g_gathered g))%nat then
    mkGather (g_gathered g) (g_records g)
      (g_regions g ++ [Gathered (run_start g) (length (g_gathered g))])
      (length (g_gathered g)) (regioned g)
  else g.

Definition flush_regions (g : Gather) (tail : bytes) (st : St) : option (St * Gather * Result) :=
  let g := close_run g in
  let! slots := materialise (g_gathered g) (g_records g) (g_regions g) tail in
  let! (st, outcome) := write_gathering slots st in
  match outcome with
  | Err e => Some (st, mkGather [] [] [] 0 0, Err e)
  | Ok _ =>
      if decide (length (g_records g) < regioned g)%nat then None
      else Some (st, mkGather [] (drop (regioned g) (g_records g)) [] 0 0, Ok ())
  end.

(** A flush that goes before something else, when there is no room for it. *)
Definition flush_if (full : bool) (g : Gather) (st : St) : option (St * Gather * Result) :=
  if full then flush_regions g [] st else Some (st, g, Ok ()).

Fixpoint region_records (fuel : nat) (g : Gather) (st : St) : option (St * Gather * Result) :=
  if decide (regioned g < length (g_records g))%nat then
    match fuel with
    | O => None
    | Datatypes.S fuel =>
        let! (st, g, r) :=
          flush_if (bool_decide (MAX_REGIONS < length (g_regions g) + 2)%nat) g st in
        match r with
        | Err e => Some (st, g, Err e)
        | Ok _ =>
            region_records fuel
              (mkGather (g_gathered g) (g_records g)
                 (g_regions g ++ [HeaderOf (regioned g); PayloadOf (regioned g)]) (run_start g)
                 (Datatypes.S (regioned g))) st
        end
    end
  else Some (st, g, Ok ()).

(** The records of one call go behind the open run and before the block. *)
Definition take_records (g : Gather) (st : St) : option (St * Gather * Result) :=
  if decide (regioned g < length (g_records g))%nat then
    let! (st, g, r) :=
      flush_if (bool_decide (run_start g < length (g_gathered g))%nat &&
                bool_decide (MAX_REGIONS ≤ length (g_regions g))%nat) g st in
    match r with
    | Err e => Some (st, g, Err e)
    | Ok _ =>
        let g := cut_run g in
        region_records (length (g_records g)) g st
    end
  else Some (st, g, Ok ()).

Definition take_block (block : bytes) (g : Gather) (st : St) : option (St * Gather * Result) :=
  if decide (length block < VECTORED_THRESHOLD)%nat then
    let! (st, g, r) :=
      flush_if (bool_decide (length (g_gathered g) = run_start g) &&
                bool_decide (MAX_REGIONS ≤ length (g_regions g))%nat) g st in
    match r with
    | Err e => Some (st, g, Err e)
    | Ok _ =>
        Some (st, mkGather (g_gathered g ++ block) (g_records g) (g_regions g) (run_start g)
                    (regioned g), Ok ())
    end
  else flush_regions g block st.

Fixpoint readiness_loop (fuel : nat) (g : Gather) (st : St) : option (St * Gather * Result) :=
  match fuel with
  | O => None
  | Datatypes.S fuel =>
      let '(s, records, r) := send_into (g_records g) st.1 in
      let st := (s, st.2) in
      let g := mkGather (g_gathered g) records (g_regions g) (run_start g) (regioned g) in
      match r with
      | Err e =>
          Some (st, mkGather (g_gathered g) [] [] (run_start g) (regioned g),
                Err (H2HttpError.from_core e))
      | Ok block =>
          let! (st, g, r) := take_records g st in
          match r, block with
          | Err e, _ => Some (st, g, Err e)
          | Ok _, None => Some (st, g, Ok ())
          | Ok _, Some block =>
              let! (st, g, r) := take_block block g st in
              match r with
              | Err e => Some (st, g, Err e)
              | Ok _ => readiness_loop fuel g st
              end
          end
      end
  end.

Definition flush_readiness (fuel : nat) (b : WriteBuffers) (st : St) :
    option (St * WriteBuffers * Result) :=
  let! (st, g, r) := readiness_loop fuel (mkGather [] (send_records b) [] 0 0) st in
  let! (st, g, r) :=
    match r with
    | Err e => Some (st, g, Err e)
    | Ok _ =>
        flush_if (negb (bool_decide (g_regions g = [])) ||
                  bool_decide (run_start g < length (g_gathered g))%nat) g st
    end in
  Some (st, mkBuffers (g_gathered g) (coalesced b) (g_records g) (g_regions g) (minted b)
              (owned b), r).

(** *** Gathering owned regions *)

(** The list after a write that took [consumed] octets of it. *)
Fixpoint advance_regions (consumed : nat) (rs : list bytes) : list bytes :=
  match rs with
  | [] => []
  | region :: rest =>
      if decide (length region ≤ consumed)%nat then advance_regions (consumed - length region) rest
      else drop consumed region :: rest
  end.

Fixpoint owned_loop (fuel : nat) (rs : list bytes) (o : Owning) (st : St) :
    option (St * Owning * Result) :=
  match fuel with
  | O => None
  | Datatypes.S fuel =>
      let total := length (concat rs) in
      let '(st, (r, rs)) := Transport.write_regions rs st in
      match r with
      | Err e => Some (st, mkOwning (o_minted o) [] [] 0, Err (H2HttpError.from_io e))
      | Ok written =>
          if decide (written = 0%nat) then
            Some (st, mkOwning (o_minted o) [] [] 0, Err nothing_accepted)
          else if decide (total ≤ written)%nat then
            if decide (length (o_records o) < o_regioned o)%nat then None
            else Some (st, mkOwning (o_minted o) [] (drop (o_regioned o) (o_records o)) 0, Ok ())
          else owned_loop fuel (advance_regions written rs) o st
      end
  end.

(** [write_owned]: every round takes an octet at least. *)
Definition write_owned_regions (o : Owning) (st : St) : option (St * Owning * Result) :=
  owned_loop (Datatypes.S (length (concat (o_owned o)))) (o_owned o) o st.

Definition write_if (full : bool) (o : Owning) (st : St) : option (St * Owning * Result) :=
  if full then write_owned_regions o st else Some (st, o, Ok ()).

(** Closing the open run into a region of its own, when there is one. *)
Definition mint_run (o : Owning) (st : St) : option (St * Owning * Result) :=
  if decide (o_minted o = []) then Some (st, o, Ok ())
  else
    let! (st, o, r) := write_if (bool_decide (MAX_REGIONS ≤ length (o_owned o))%nat) o st in
    match r with
    | Err e => Some (st, o, Err e)
    | Ok _ =>
        Some (st, mkOwning [] (o_owned o ++ [o_minted o]) (o_records o) (o_regioned o), Ok ())
    end.

(** The header and the payload, which an empty one has not. *)
Definition record_regions (minted : bytes) (r : SendRecord) : list bytes :=
  (minted ++ header_octets r) :: (if decide (payload r = []) then [] else [payload r]).

Fixpoint owned_records (fuel : nat) (o : Owning) (st : St) : option (St * Owning * Result) :=
  if decide (o_regioned o < length (o_records o))%nat then
    match fuel with
    | O => None
    | Datatypes.S fuel =>
        let! (st, o, r) :=
          write_if (bool_decide (MAX_REGIONS < length (o_owned o) + 2)%nat) o st in
        match r with
        | Err e => Some (st, o, Err e)
        | Ok _ =>
            let! record := o_records o !! o_regioned o in
            owned_records fuel
              (mkOwning [] (o_owned o ++ record_regions (o_minted o) record) (o_records o)
                 (Datatypes.S (o_regioned o))) st
        end
    end
  else Some (st, o, Ok ()).

Definition own_records (o : Owning) (st : St) : option (St * Owning * Result) :=
  if decide (o_regioned o < length (o_records o))%nat then
    let! (st, o, r) := mint_run o st in
    match r with
    | Err e => Some (st, o, Err e)
    | Ok _ => owned_records (length (o_records o)) o st
    end
  else Some (st, o, Ok ()).

Definition own_block (block : bytes) (o : Owning) (st : St) : option (St * Owning * Result) :=
  let! (st, o, r) :=
    write_if (bool_decide (o_minted o = []) &&
              bool_decide (MAX_REGIONS ≤ length (o_owned o))%nat) o st in
  match r with
  | Err e => Some (st, o, Err e)
  | Ok _ =>
      Some (st, mkOwning (o_minted o ++ block) (o_owned o) (o_records o) (o_regioned o), Ok ())
  end.

Fixpoint owning_loop (fuel : nat) (o : Owning) (st : St) : option (St * Owning * Result) :=
  match fuel with
  | O => None
  | Datatypes.S fuel =>
      let '(s, records, r) := send_into (o_records o) st.1 in
      let st := (s, st.2) in
      match r with
      | Err e =>
          Some (st, mkOwning (o_minted o) [] [] (o_regioned o), Err (H2HttpError.from_core e))
      | Ok block =>
          let! (st, o, r) :=
            own_records (mkOwning (o_minted o) (o_owned o) records (o_regioned o)) st in
          match r, block with
          | Err e, _ => Some (st, o, Err e)
          | Ok _, None => Some (st, o, Ok ())
          | Ok _, Some block =>
              let! (st, o, r) := own_block block o st in
              match r with
              | Err e => Some (st, o, Err e)
              | Ok _ => owning_loop fuel o st
              end
          end
      end
  end.

Definition flush_owned (fuel : nat) (b : WriteBuffers) (st : St) :
    option (St * WriteBuffers * Result) :=
  let kept o := mkBuffers (gathered b) (coalesced b) (o_records o) (regions b) (o_minted o)
    (o_owned o) in
  let! (st, o, r) := owning_loop fuel (mkOwning [] [] (send_records b) 0) st in
  match r with
  | Err e => Some (st, kept o, Err e)
  | Ok _ =>
      let! (st, o, r) := mint_run o st in
      match r with
      | Err e => Some (st, kept o, Err e)
      | Ok _ =>
          let! (st, o, r) := write_if (negb (bool_decide (o_owned o = []))) o st in
          Some (st, kept o, r)
      end
  end.

(** *** The choice, [Drains::drain]; [vectored] is what the writer said at the start *)
Definition flush (vectored : bool) : nat → WriteBuffers → St → option (St * WriteBuffers * Result) :=
  match model, vectored with
  | Readiness, true => flush_readiness
  | Readiness, false => flush_coalesced_borrowed
  | Completion, true => flush_owned
  | Completion, false => flush_coalesced_owned
  end.
End Drain.
End Drain.
