(* ===== verification/H2DrainFacts.v ===== *)
(** * What a pass puts on the transport

    Whichever of the four ways a pass is drained, the transport accepts exactly the octets the
    session produced, in the order it produced them. *)

From Stdlib Require Import ZArith Lia Strings.Byte.
From stdpp Require Import base list strings.
From S2P Require Import Prelude HttpCrate H2Types H2State H2Session H2Head H2Drain.

(** ** What the session and the transport promise

    A record goes ahead of the block of the call that left it; [remaining] bounds the calls
    that still give a block. *)
Definition record_octets (rs : list SendRecord) : bytes :=
  concat ((λ r, header_octets r ++ payload r) <$> rs).

Class SendLaws (S : Type) `{!Sends S} := {
  produced : S → bytes;
  remaining : S → nat;
  send_produces sink s :
    let '(s', sink', r) := send_into sink s in
    ∃ new, sink' = sink ++ new ∧ Forall (λ r, header_octets r ≠ []) new ∧
      produced s' = produced s ++ record_octets new ++
        match r with Ok (Some block) => block | _ => [] end ∧
      match r with
      | Ok (Some _) => (remaining s' < remaining s)%nat
      | _ => (remaining s' ≤ remaining s)%nat
      end
}.

Section Promises.
Context `{BoxedErrors} {S : Type} `{!Sends S, !SendLaws S, !TransportWrites S}.
Context (accepted : writer → bytes).
Abbreviation St := (S * writer)%type.

(** What was offered is accepted up to the count reported, and before a failure up to
    anywhere; nothing is taken from the session meanwhile. *)
Definition took (data : bytes) (st st' : St) (r : result nat BoxedError) : Prop :=
  produced st'.1 = produced st.1 ∧ (remaining st'.1 ≤ remaining st.1)%nat ∧
  match r with
  | Ok n => (n ≤ length data)%nat ∧ accepted st'.2 = accepted st.2 ++ take n data
  | Err _ => ∃ p, p `prefix_of` data ∧ accepted st'.2 = accepted st.2 ++ p
  end.

(** What the transport is promised: regions none of which is empty, and not too many. *)
Definition offerable (most : nat) (rs : list bytes) : Prop :=
  rs ≠ [] ∧ Forall (λ r, r ≠ []) rs ∧ (length rs ≤ most)%nat.
End Promises.

Class WriteLaws `{BoxedErrors} (S : Type) `{!Sends S, !SendLaws S, !TransportWrites S} := {
  accepted : writer → bytes;
  borrowed_takes data st : data ≠ [] →
    let '(st', r) := write_borrowed data st in took accepted data st st' r;
  vectored_takes f rs st : own_vectored = Some f → offerable (MAX_REGIONS + 1) rs →
    let '(st', r) := f rs st in took accepted (concat rs) st st' r;
  owned_takes data st : data ≠ [] →
    let '(st', (r, back)) := write_owned data st in took accepted data st st' r ∧ back = data;
  regions_take f rs st : own_regions = Some f → offerable MAX_REGIONS rs →
    let '(st', (r, back)) := f rs st in took accepted (concat rs) st st' r ∧ back = rs
}.

Lemma regions_room : (2 ≤ MAX_REGIONS)%nat.
Proof. unfold MAX_REGIONS. lia. Qed.

#[local] Opaque MAX_REGIONS VECTORED_THRESHOLD.

Section Facts.
Context `{BoxedErrors} {S : Type} `{!Sends S, !SendLaws S, !TransportWrites S, !WriteLaws S}.
Abbreviation St := (S * writer)%type.
Implicit Types (st : St).
Abbreviation Result := (result unit H2HttpError.Error).

(** ** Progress of a drain

    Before, [pend] waits to be written; what the session produces meanwhile joins its end.
    What is written is a beginning of that, and unless there was a failure [left] is the
    rest. *)
Definition drained (pend : bytes) st st' (left_ : bytes) (r : Result) : Prop :=
  ∃ out w rest,
    produced st'.1 = produced st.1 ++ out ∧ accepted st'.2 = accepted st.2 ++ w ∧
    w ++ rest = pend ++ out ∧ (is_ok r = true → rest = left_) ∧
    (remaining st'.1 ≤ remaining st.1)%nat.

(** Writing alone: of [pend] all but [left_] is written, and nothing is produced. *)
Definition emitted (pend : bytes) st st' (left_ : bytes) (r : Result) : Prop :=
  ∃ w rest, produced st'.1 = produced st.1 ∧ accepted st'.2 = accepted st.2 ++ w ∧
    w ++ rest = pend ∧ (is_ok r = true → rest = left_) ∧ (remaining st'.1 ≤ remaining st.1)%nat.

Definition wrote (data : bytes) st st' (r : Result) : Prop := emitted data st st' [] r.

Lemma emitted_trans p st st1 l st2 l' r :
  emitted p st st1 l (Ok ()) → emitted l st1 st2 l' r → emitted p st st2 l' r.
Proof.
  intros (w1 & r1 & Hp1 & Ha1 & E1 & K1 & M1) (w2 & r2 & Hp2 & Ha2 & E2 & K2 & M2).
  rewrite (K1 eq_refl) in E1. exists (w1 ++ w2), r2.
  rewrite Hp2, Hp1, Ha2, Ha1, <-!app_assoc, E2. split_and!; [done..|lia].
Qed.

Lemma emitted_refl p st : emitted p st st p (Ok ()).
Proof. exists [], p. by rewrite app_nil_r. Qed.

Lemma emitted_err p st st' l l' e : emitted p st st' l (Err e) → emitted p st st' l' (Err e).
Proof. intros (w & r & ? & ? & ? & _ & ?). by exists w, r. Qed.

Lemma emitted_more x p st st' l r : emitted p st st' l r → emitted (p ++ x) st st' (l ++ x) r.
Proof.
  intros (w & rest & ? & ? & E & K & ?). exists w, (rest ++ x). rewrite app_assoc, E.
  split_and!; [done..| |done]. intros Hr. by rewrite (K Hr).
Qed.

Lemma emitted_drained p st st' l r : emitted p st st' l r → drained p st st' l r.
Proof. intros (w & rest & ? & ? & E & K & ?). exists [], w, rest. by rewrite !app_nil_r. Qed.

Lemma drained_trans p st st1 l st2 l' r :
  drained p st st1 l (Ok ()) → drained l st1 st2 l' r → drained p st st2 l' r.
Proof.
  intros (o1 & w1 & r1 & Hp1 & Ha1 & E1 & K1 & M1) (o2 & w2 & r2 & Hp2 & Ha2 & E2 & K2 & M2).
  rewrite (K1 eq_refl) in E1.
  exists (o1 ++ o2), (w1 ++ w2), r2. rewrite Hp2, Hp1, Ha2, Ha1, <-!app_assoc.
  split_and!; [done..| |done|lia]. rewrite E2, !app_assoc, E1. done.
Qed.

Lemma drained_err p st st' l l' e : drained p st st' l (Err e) → drained p st st' l' (Err e).
Proof. intros (o & w & r & ? & ? & ? & _ & ?). by exists o, w, r. Qed.

Lemma drained_refl p st : drained p st st p (Ok ()).
Proof. exists [], [], p. by rewrite !app_nil_r. Qed.

Lemma wrote_nil st : wrote [] st st (Ok ()).
Proof. exists [], []. by rewrite !app_nil_r. Qed.

Lemma wrote_emitted data x st st' r : wrote data st st' r → emitted (data ++ x) st st' x r.
Proof. apply (emitted_more x data st st' []). Qed.

Lemma wrote_drained data x st st' r : wrote data st st' r → drained (data ++ x) st st' x r.
Proof. intros Hw. by apply emitted_drained, wrote_emitted. Qed.

Lemma wrote_more d st st1 st2 r n :
  took accepted d st st1 (Ok n) → wrote (drop n d) st1 st2 r → wrote d st st2 r.
Proof.
  intros (Hp & Hm & _ & Ha) (w & rest & Hp2 & Ha2 & E & K & M).
  exists (take n d ++ w), rest. rewrite Hp2, Hp, Ha2, Ha, <-!app_assoc, E, take_drop.
  split_and!; [done..|lia].
Qed.

Lemma took_err d st st' e e' : took accepted d st st' (Err e) → wrote d st st' (Err e').
Proof. intros (? & ? & p & [rest ->] & ?). by exists p, rest. Qed.

Lemma took_nothing d st st' e : took accepted d st st' (Ok 0%nat) → wrote d st st' (Err e).
Proof. intros (? & ? & _ & Ha). exists [], d. by rewrite Ha. Qed.

(** ** The transport's operations, provided bodies included *)
Lemma took_next d rest st st1 st2 r n :
  (length d ≤ n)%nat → took accepted d st st1 (Ok n) →
  (∀ m, r = Ok m → (n ≤ m)%nat) →
  took accepted rest st1 st2 (match r with Ok m => Ok (m - n)%nat | Err e => Err e end) →
  took accepted (d ++ rest) st st2 r.
Proof.
  intros Hn (Hp & Hm & Hl & Ha) Hr (Hp2 & Hm2 & K). assert (n = length d) as -> by lia.
  rewrite firstn_all in Ha. split; [congruence|]. split; [lia|].
  destruct r as [m|e].
  - specialize (Hr m eq_refl). destruct K as [K1 K2]. rewrite length_app. split; [lia|].
    rewrite K2, Ha, <- app_assoc, take_app. by rewrite (take_ge d m) by lia.
  - destruct K as (p & [y ->] & K). exists (d ++ p). split; [by exists y; rewrite app_assoc|].
    by rewrite K, Ha, app_assoc.
Qed.

Definition less (total : nat) (r : result nat BoxedError) : result nat BoxedError :=
  match r with Ok m => Ok (m - total)%nat | Err e => Err e end.

Definition at_least (total : nat) (r : result nat BoxedError) : Prop :=
  match r with Ok m => (total ≤ m)%nat | Err _ => True end.

Lemma took_zero d st : took accepted d st st (Ok 0%nat).
Proof. repeat split; [lia|lia|]. by rewrite app_nil_r. Qed.

Lemma took_short d rest st st' n :
  took accepted d st st' (Ok n) → took accepted (d ++ rest) st st' (Ok n).
Proof.
  intros (? & ? & ? & Ha). split; [done|]. split; [done|]. rewrite length_app. split; [lia|].
  rewrite take_app_le by done. done.
Qed.

Lemma took_failed d rest st st' e :
  took accepted d st st' (Err e) → took accepted (d ++ rest) st st' (Err e).
Proof.
  intros (? & ? & p & [x ->] & Ha). split; [done|]. split; [done|]. exists p. split; [|done].
  exists (x ++ rest). by rewrite app_assoc.
Qed.

(** A region taken whole, and then what the rest of the list reports on top of it. *)
Lemma took_whole region rest total written st st1 st2 r :
  took accepted region st st1 (Ok written) → (length region ≤ written)%nat →
  at_least (total + written) r →
  took accepted (concat rest) st1 st2 (less (total + written) r) →
  at_least total r ∧ took accepted (region ++ concat rest) st st2 (less total r).
Proof.
  intros Hw Hl Ht Hr. pose proof Hw as (_ & _ & Hle & _). split.
  - destruct r; simpl in *; [lia|done].
  - apply (took_next _ _ _ _ _ _ _ Hl Hw).
    + destruct r; simpl in *; [|done]. intros ? [= <-]. lia.
    + destruct r as [m|]; simpl in *; [|done].
      by replace (m - total - written)%nat with (m - (total + written))%nat by lia.
Qed.

Lemma emulate_gathering_takes rs : ∀ total st,
  let '(st', r) := Transport.emulate_gathering rs total st in
  at_least total r ∧ took accepted (concat rs) st st' (less total r).
Proof.
  induction rs as [|region rest IH]; intros total st; simpl.
  { rewrite Nat.sub_diag. split; [lia|apply took_zero]. }
  case_decide as E; [subst; apply IH|].
  pose proof (borrowed_takes region st E) as Hw.
  destruct (write_borrowed region st) as [st1 [written|e]]; [|by split; [|apply took_failed]].
  pose proof Hw as (_ & _ & Hle & _). case_decide as Hlt.
  - split; [simpl; lia|]. simpl. replace (total + written - total)%nat with written by lia.
    by apply took_short.
  - specialize (IH (total + written)%nat st1).
    destruct (Transport.emulate_gathering rest (total + written) st1) as [st2 r].
    destruct IH as [Ht Hr]. eapply took_whole; [done|lia|done..].
Qed.

Lemma emulate_region_takes rs : ∀ total st,
  let '(st', (r, back)) := Transport.emulate_region_gathering rs total st in
  at_least total r ∧ took accepted (concat rs) st st' (less total r) ∧ back = rs.
Proof.
  induction rs as [|region rest IH]; intros total st; simpl.
  { rewrite Nat.sub_diag. split_and!; [lia|apply took_zero|done]. }
  case_decide as E.
  { subst. specialize (IH total st).
    destruct (Transport.emulate_region_gathering rest total st) as [st2 [r back]].
    destruct IH as (? & ? & ->). done. }
  pose proof (owned_takes region st E) as Hw.
  destruct (write_owned region st) as [st1 [[written|e] back]]; destruct Hw as [Hw ->];
    [|by split_and!; [|apply took_failed|]].
  pose proof Hw as (_ & _ & Hle & _). case_decide as Hlt.
  - split; [simpl; lia|]. simpl. replace (total + written - total)%nat with written by lia.
    split; [by apply took_short|done].
  - specialize (IH (total + written)%nat st1).
    destruct (Transport.emulate_region_gathering rest (total + written) st1) as [st2 [r back]].
    destruct IH as (Ht & Hr & ->). split_and!; [| |done]; eapply took_whole; try done; lia.
Qed.

Lemma less_0 r : less 0 r = r.
Proof. destruct r; simpl; [by rewrite Nat.sub_0_r|done]. Qed.

Lemma write_vectored_takes rs st :
  offerable (MAX_REGIONS + 1) rs →
  let '(st', r) := Transport.write_vectored rs st in took accepted (concat rs) st st' r.
Proof.
  intros Ho. unfold Transport.write_vectored. destruct own_vectored as [f|] eqn:Ef.
  - exact (vectored_takes f rs st Ef Ho).
  - pose proof (emulate_gathering_takes rs 0 st) as Hr.
    destruct (Transport.emulate_gathering rs 0 st) as [st' r]. rewrite less_0 in Hr. apply Hr.
Qed.

Lemma write_regions_takes rs st :
  offerable MAX_REGIONS rs →
  let '(st', (r, back)) := Transport.write_regions rs st in
  took accepted (concat rs) st st' r ∧ back = rs.
Proof.
  intros Ho. unfold Transport.write_regions. destruct own_regions as [f|] eqn:Ef.
  - exact (regions_take f rs st Ef Ho).
  - pose proof (emulate_region_takes rs 0 st) as Hr.
    destruct (Transport.emulate_region_gathering rs 0 st) as [st' [r back]].
    rewrite less_0 in Hr. apply Hr.
Qed.

(** ** Coalescing *)
Lemma borrowed_loop_writes fuel out offset st :
  (length out - offset ≤ fuel)%nat →
  ∃ st' r, Drain.borrowed_loop fuel out offset st = Some (st', r) ∧
    wrote (drop offset out) st st' r.
Proof.
  revert offset st. induction fuel as [|fuel IH]; intros offset st Hf; simpl.
  { case_decide; [lia|]. exists st, (Ok ()). rewrite drop_ge by lia. split; [done|apply wrote_nil]. }
  case_decide as Hlt; [|].
  2: { exists st, (Ok ()). rewrite drop_ge by lia. split; [done|apply wrote_nil]. }
  assert (Hne : drop offset out ≠ []).
  { intros E%(f_equal length). rewrite length_drop in E. simpl in E. lia. }
  pose proof (borrowed_takes _ st Hne) as Hw.
  destruct (write_borrowed (drop offset out) st) as [st1 [n|e]].
  - case_decide as En.
    + subst. eexists _, _. split; [done|]. by apply took_nothing.
    + destruct (IH (offset + n)%nat st1) as (st2 & r & -> & Hr); [lia|].
      exists st2, r. split; [done|]. eapply wrote_more; [done|]. by rewrite drop_drop.
  - eexists _, _. split; [done|]. by eapply took_err.
Qed.

Lemma pending_loop_writes fuel pending st :
  (length pending ≤ fuel)%nat →
  ∃ st' r, Drain.pending_loop fuel pending st = Some (st', r) ∧ wrote pending st st' r.
Proof.
  revert pending st. induction fuel as [|fuel IH]; intros pending st Hf.
  { destruct pending; [|simpl in Hf; lia]. eexists _, _. split; [done|apply wrote_nil]. }
  destruct (decide (pending = [])) as [->|Hne]; [eexists _, _; split; [done|apply wrote_nil]|].
  assert (Drain.pending_loop (Datatypes.S fuel) pending st =
    (let '(st, (r, returned)) := write_owned pending st in
     match r with
     | Err e => Some (st, Err (H2HttpError.from_io e))
     | Ok written =>
         if decide (written = 0%nat) then Some (st, Err Drain.nothing_accepted)
         else if decide (length returned < written)%nat then None
         else Drain.pending_loop fuel (drop written returned) st
     end)) as -> by (by destruct pending).
  pose proof (owned_takes _ st Hne) as Hw.
  destruct (write_owned pending st) as [st1 [[n|e] back]]; destruct Hw as [Hw ->].
  - case_decide as En.
    + subst. eexists _, _. split; [done|]. by apply took_nothing.
    + pose proof Hw as (_ & _ & Hle & _). rewrite decide_False by lia.
      destruct (IH (drop n pending) st1) as (st2 & r & -> & Hr); [rewrite length_drop; lia|].
      exists st2, r. split; [done|]. by eapply wrote_more.
  - eexists _, _. split; [done|]. by eapply took_err.
Qed.

Lemma accumulate_spec fuel out s :
  (remaining s < fuel)%nat →
  ∃ s' out' r, Drain.accumulate_loop fuel [] out s = Some (s', [], out', r) ∧
    (remaining s' ≤ remaining s)%nat ∧
    ∃ o, produced s' = produced s ++ o ∧ (is_ok r = true → out' = out ++ o).
Proof.
  revert out s. induction fuel as [|fuel IH]; intros out s Hf; [lia|]. simpl.
  pose proof (send_produces [] s) as Hs. destruct (send_into [] s) as [[s1 records] r].
  destruct Hs as (new & Hn & _ & Hp & Hm). simpl in Hn. subst records.
  destruct r as [block|e].
  2: { exists s1, out, (Err (H2HttpError.from_core e)). split; [done|]. split; [done|].
       by eexists. }
  fold (record_octets new). destruct block as [block|]; simpl in Hm, Hp.
  - destruct (IH ((out ++ record_octets new) ++ block) s1) as (s2 & out' & r & -> & Hm2 & o & Hp2 & K);
      [lia|].
    exists s2, out', r. split; [done|]. split; [lia|].
    exists ((record_octets new ++ block) ++ o). split; [by rewrite Hp2, Hp, <-!app_assoc|].
    intros Hr. by rewrite (K Hr), <-!app_assoc.
  - exists s1, (out ++ record_octets new), (Ok ()). split; [done|]. split; [lia|].
    exists (record_octets new). by rewrite Hp, app_nil_r.
Qed.

(** What every drain does, from an empty sink. *)
Definition drains (b : WriteBuffers) st (o : option (St * WriteBuffers * Result)) : Prop :=
  ∃ st' b' r, o = Some (st', b', r) ∧ send_records b' = [] ∧ drained [] st st' [] r.

Lemma drained_nothing st s o e :
  produced s = produced st.1 ++ o → (remaining s ≤ remaining st.1)%nat →
  drained [] st (s, st.2) [] (Err e).
Proof. intros Hp Hm. exists o, [], o. by rewrite app_nil_r. Qed.

Lemma drained_produced_err p st s o e l :
  produced s = produced st.1 ++ o → (remaining s ≤ remaining st.1)%nat →
  drained p st (s, st.2) l (Err e).
Proof. intros Hp Hm. exists o, [], (p ++ o). by rewrite app_nil_r. Qed.

Lemma drained_produced p st s o :
  produced s = produced st.1 ++ o → (remaining s ≤ remaining st.1)%nat →
  drained p st (s, st.2) (p ++ o) (Ok ()).
Proof. intros Hp Hm. exists o, [], (p ++ o). by rewrite app_nil_r. Qed.

Lemma coalesced_borrowed_drains fuel b st :
  send_records b = [] → (remaining st.1 < fuel)%nat →
  drains b st (Drain.flush_coalesced_borrowed fuel b st).
Proof.
  intros Hb Hf. unfold drains, Drain.flush_coalesced_borrowed, Drain.accumulate_coalesced.
  rewrite Hb. destruct (accumulate_spec fuel [] st.1 Hf) as (s & out & r & -> & Hm & o & Hp & K).
  destruct r as [[]|e].
  - destruct (borrowed_loop_writes (length out) out 0 (s, st.2)) as (st' & r & -> & Hw); [lia|].
    eexists _, _, _. split; [done|]. split; [done|].
    eapply drained_trans; [by apply drained_produced|]. rewrite (K eq_refl) in Hw. simpl in *.
    rewrite <-(app_nil_r o). by apply wrote_drained.
  - eexists _, _, _. split; [done|]. split; [done|]. by eapply drained_nothing.
Qed.

Lemma coalesced_owned_drains fuel b st :
  send_records b = [] → (remaining st.1 < fuel)%nat →
  drains b st (Drain.flush_coalesced_owned fuel b st).
Proof.
  intros Hb Hf. unfold drains, Drain.flush_coalesced_owned, Drain.accumulate_coalesced.
  rewrite Hb. destruct (accumulate_spec fuel [] st.1 Hf) as (s & out & r & -> & Hm & o & Hp & K).
  destruct r as [[]|e].
  - destruct (pending_loop_writes (length out) out (s, st.2)) as (st' & r & -> & Hw); [lia|].
    eexists _, _, _. split; [done|]. split; [done|].
    eapply drained_trans; [by apply drained_produced|]. rewrite (K eq_refl) in Hw. simpl in *.
    rewrite <-(app_nil_r o). by apply wrote_drained.
  - eexists _, _, _. split; [done|]. split; [done|]. by eapply drained_nothing.
Qed.

(** ** Gathering borrowed regions *)
Lemma offer_concat skip slices : concat (Drain.offer skip slices) = drop skip (concat slices).
Proof.
  revert skip. induction slices as [|x rest IH]; intros skip; simpl; [by rewrite drop_nil|].
  case_decide.
  - rewrite IH, drop_app_ge by lia. done.
  - simpl. rewrite IH, drop_0, drop_app_le by lia. done.
Qed.

Lemma offer_nonempty skip slices : Forall (λ r, r ≠ []) (Drain.offer skip slices).
Proof.
  revert skip. induction slices as [|x rest IH]; intros skip; simpl; [done|].
  case_decide; [apply IH|]. constructor; [|apply IH].
  intros E%(f_equal length). rewrite length_drop in E. simpl in E. lia.
Qed.

Lemma offer_length skip slices : (length (Drain.offer skip slices) ≤ length slices)%nat.
Proof.
  revert skip. induction slices as [|x rest IH]; intros skip; simpl; [lia|].
  case_decide; simpl; [specialize (IH (skip - length x)%nat)|specialize (IH 0%nat)]; lia.
Qed.

Lemma gathering_loop_writes fuel slices done_ st :
  (length slices ≤ MAX_REGIONS + 1)%nat → (length (concat slices) - done_ ≤ fuel)%nat →
  ∃ st' r, Drain.gathering_loop fuel slices done_ st = Some (st', r) ∧
    wrote (drop done_ (concat slices)) st st' r.
Proof.
  intros Hl. revert done_ st. induction fuel as [|fuel IH]; intros done_ st Hf; simpl;
    (destruct (decide (done_ < length (concat slices))%nat) as [Hlt|];
     [try lia|exists st, (Ok ()); rewrite drop_ge by lia; split; [done|apply wrote_nil]]).
  pose proof (offer_length done_ slices). rewrite decide_False by lia.
  assert (Ho : offerable (MAX_REGIONS + 1) (Drain.offer done_ slices)).
  { split_and!; [|apply offer_nonempty|lia]. intros E. apply (f_equal (concat (A:=byte))) in E.
    rewrite offer_concat in E. apply (f_equal length) in E. rewrite length_drop in E.
    simpl in E. lia. }
  pose proof (write_vectored_takes _ st Ho) as Hw. rewrite offer_concat in Hw.
  destruct (Transport.write_vectored (Drain.offer done_ slices) st) as [st1 [n|e]].
  - case_decide as En.
    + subst. eexists _, _. split; [done|]. by apply took_nothing.
    + destruct (IH (done_ + n)%nat st1) as (st2 & r & -> & Hr); [lia|].
      exists st2, r. split; [done|]. eapply wrote_more; [done|]. by rewrite drop_drop.
  - eexists _, _. split; [done|]. by eapply took_err.
Qed.

(** *** The octets a gather stands for: those its list names, the open run, and the records
    not named yet *)
Definition octets_of (run : bytes) (records : list SendRecord) (x : Region) : bytes :=
  default [] (Drain.region_octets run records x).
Definition named (g : Gather) : bytes :=
  concat (octets_of (g_gathered g) (g_records g) <$> g_regions g).
Definition run (g : Gather) : bytes := drop (run_start g) (g_gathered g).
Definition waiting (g : Gather) : list SendRecord := drop (regioned g) (g_records g).
Definition unnamed (g : Gather) : bytes := record_octets (waiting g).
Definition opened (g : Gather) : nat := if decide (run_start g < length (g_gathered g))%nat then 1 else 0.

Record gather_ok (g : Gather) : Prop := {
  go_run : (run_start g ≤ length (g_gathered g))%nat;
  go_regions :
    Forall (λ x, is_Some (Drain.region_octets (g_gathered g) (g_records g) x)) (g_regions g);
  go_named : (regioned g ≤ length (g_records g))%nat;
  go_room : (length (g_regions g) + opened g ≤ MAX_REGIONS)%nat;
  go_zero : g_regions g = [] → regioned g = 0%nat
}.

Lemma region_octets_grow run_ records more moar x o :
  Drain.region_octets run_ records x = Some o →
  Drain.region_octets (run_ ++ more) (records ++ moar) x = Some o.
Proof.
  destruct x as [a b|i|i]; simpl.
  - case_decide as Hab; [|done]. intros [= <-]. rewrite decide_True by (rewrite length_app; lia).
    f_equal. rewrite drop_app_le by lia. apply take_app_le. rewrite length_drop. lia.
  - destruct (records !! i) as [x|] eqn:E; [|done].
    by rewrite (lookup_app_l_Some records moar i x E).
  - destruct (records !! i) as [x|] eqn:E; [|done].
    by rewrite (lookup_app_l_Some records moar i x E).
Qed.

Lemma regions_grow run_ records more moar xs :
  Forall (λ x, is_Some (Drain.region_octets run_ records x)) xs →
  Forall (λ x, is_Some (Drain.region_octets (run_ ++ more) (records ++ moar) x)) xs ∧
  octets_of (run_ ++ more) (records ++ moar) <$> xs = octets_of run_ records <$> xs.
Proof.
  induction 1 as [|x xs [o Ho] _ [IH1 IH2]]; [done|].
  pose proof (region_octets_grow _ _ more moar _ _ Ho) as E. split; [by constructor|].
  rewrite !fmap_cons, IH2. f_equal. unfold octets_of. by rewrite E, Ho.
Qed.

Lemma mapM_octets run_ records xs :
  Forall (λ x, is_Some (Drain.region_octets run_ records x)) xs →
  mapM (Drain.region_octets run_ records) xs = Some (octets_of run_ records <$> xs).
Proof.
  induction 1 as [|x xs [o Ho] _ IH]; [done|]. simpl. unfold octets_of at 1.
  rewrite IH, Ho. done.
Qed.

Lemma concat_nonempty (l : list bytes) : concat (filter (λ s, s ≠ []) l) = concat l.
Proof.
  induction l as [|x l IH]; [done|]. rewrite filter_cons. case_decide as E; simpl.
  - by rewrite IH.
  - destruct (decide (x = [])) as [->|]; [done|tauto].
Qed.

Lemma named_close g :
  gather_ok g → named (Drain.close_run g) = named g ++ run g ∧
  Forall (λ x, is_Some (Drain.region_octets (g_gathered g) (g_records g) x))
    (g_regions (Drain.close_run g)) ∧
  (length (g_regions (Drain.close_run g)) ≤ MAX_REGIONS)%nat.
Proof.
  intros [Hr Hs Hn Hm _]. unfold Drain.close_run, named, run, opened in *.
  revert Hm. destruct (decide (run_start g < length (g_gathered g))%nat) as [Ho|Ho]; simpl; intros Hm.
  - rewrite fmap_app, concat_app, length_app. simpl. rewrite app_nil_r. split_and!; [|apply Forall_app|lia].
    + f_equal. unfold octets_of. simpl. rewrite decide_True by lia. simpl.
      apply take_ge. rewrite length_drop. lia.
    + split; [done|]. constructor; [|done]. simpl. rewrite decide_True by lia. done.
  - rewrite drop_ge, app_nil_r by lia. split_and!; [done..|lia].
Qed.

Definition emptied (g : Gather) (r : Result) : Gather :=
  mkGather [] (if is_ok r then drop (regioned g) (g_records g) else []) [] 0 0.

Lemma flush_regions_writes g tail st :
  gather_ok g →
  ∃ st' r, Drain.flush_regions g tail st = Some (st', emptied g r, r) ∧
    wrote (named g ++ run g ++ tail) st st' r.
Proof.
  intros Hg. destruct (named_close g Hg) as (En & Hs & Hl).
  assert (Er : g_gathered (Drain.close_run g) = g_gathered g ∧
    g_records (Drain.close_run g) = g_records g ∧ regioned (Drain.close_run g) = regioned g)
    by (unfold Drain.close_run; by case_decide).
  destruct Er as (E1 & E2 & E3). unfold Drain.flush_regions, Drain.materialise.
  rewrite E1, E2, E3, mapM_octets by done.
  set (slots := filter _ _).
  assert (Ec : concat slots = named g ++ run g ++ tail).
  { unfold slots. rewrite concat_nonempty, concat_app. simpl. rewrite app_nil_r, app_assoc, <-En.
    unfold named. by rewrite E1, E2. }
  assert (Hlen : (length slots ≤ MAX_REGIONS + 1)%nat).
  { unfold slots. etransitivity; [apply length_filter|]. rewrite length_app, length_fmap. simpl. lia. }
  rewrite decide_True by done. unfold Drain.write_gathering.
  destruct (gathering_loop_writes (length (concat slots)) slots 0 st) as (st' & r & -> & Hw);
    [done|lia|]. rewrite drop_0, Ec in Hw. exists st', r. split; [|done].
  destruct r as [[]|e]; [|done]. rewrite decide_False by (destruct Hg; lia). done.
Qed.

(** *** Steps of a drain over a state of its own

    [pend x] is what a state stands for; a step writes some of it, and after a failure the
    state is discarded. *)
Section Steps.
Context {T : Type} (pend : T → bytes) (ok failed : T → Prop).

Definition steps (x : T) st (post : T → Prop) (o : option (St * T * Result)) : Prop :=
  ∃ st' x' r, o = Some (st', x', r) ∧ emitted (pend x) st st' (pend x') r ∧
    (is_ok r = true → ok x' ∧ post x') ∧ (is_ok r = false → failed x').

Lemma steps_ok x st (post : T → Prop) : ok x → post x → steps x st post (Some (st, x, Ok ())).
Proof. intros Hx Hp. exists st, x, (Ok ()). split; [done|]. split; [apply emitted_refl|done]. Qed.

Lemma steps_alike y x st post o : pend x = pend y → steps y st post o → steps x st post o.
Proof. intros E (st' & g' & r & ? & Hd & ?). exists st', g', r. rewrite E. done. Qed.

(** One step and then another, unless the first failed. *)
Lemma steps_then x st mid post o k :
  steps x st mid o → (∀ st x, ok x → mid x → steps x st post (k st x)) →
  steps x st post
    (match o with
     | Some (st, x, Ok _) => k st x
     | Some (st, x, Err e) => Some (st, x, Err e)
     | None => None
     end).
Proof.
  intros (st1 & g1 & [[]|e] & -> & Hd & Hok & Herr) Hk.
  - destruct (Hok eq_refl) as [Hg Hm]. destruct (Hk st1 g1 Hg Hm) as (st2 & g2 & r & -> & Hd2 & ?).
    exists st2, g2, r. split; [done|]. split; [|done]. by eapply emitted_trans.
  - exists st1, g1, (Err e). split; [done|]. split; [done|]. split; [done|]. auto.
Qed.
End Steps.

Definition pend (g : Gather) : bytes := named g ++ run g ++ unnamed g.
Definition failed (g : Gather) : Prop := g_records g = [].

Abbreviation gathers := (steps pend gather_ok failed).

Lemma emptied_ok g r : gather_ok (emptied g r).
Proof. constructor; simpl; [lia|done|lia| |done]. unfold opened. simpl. lia. Qed.

Lemma pend_emptied g : pend (emptied g (Ok ())) = unnamed g.
Proof. done. Qed.

(** Nothing written yet, the records behind [regioned] waiting. *)
Definition fresh (g : Gather) : Prop :=
  g_regions g = [] ∧ g_gathered g = [] ∧ run_start g = 0%nat ∧ regioned g = 0%nat.

Lemma flush_gathers g tail st :
  gather_ok g → (tail ≠ [] → waiting g = []) →
  ∃ st' g' r, Drain.flush_regions g tail st = Some (st', g', r) ∧
    emitted (pend g ++ tail) st st' (pend g') r ∧
    (is_ok r = true → gather_ok g' ∧ fresh g' ∧ waiting g' = waiting g) ∧
    (is_ok r = false → g_records g' = []).
Proof.
  intros Hg Ht. destruct (flush_regions_writes g tail st Hg) as (st' & r & -> & Hw).
  exists st', (emptied g r), r. split; [done|].
  assert (E : pend g ++ tail = (named g ++ run g ++ tail) ++ unnamed g).
  { unfold pend. rewrite <-!app_assoc. do 2 f_equal. destruct (decide (tail = [])) as [->|N].
    - by rewrite app_nil_r.
    - unfold unnamed. rewrite (Ht N). simpl. by rewrite app_nil_r. }
  rewrite E. destruct r as [[]|e].
  - split; [exact (wrote_emitted _ _ _ _ _ Hw)|]. split; [|done]. intros _.
    split; [apply emptied_ok|done].
  - split; [eapply emitted_err, wrote_emitted, Hw|done].
Qed.

Lemma flush_if_gathers full g st :
  gather_ok g →
  gathers g st (λ g', waiting g' = waiting g ∧ (if (full : bool) then fresh g' else g' = g))
    (Drain.flush_if full g st).
Proof.
  intros Hg. unfold Drain.flush_if. destruct full; [|by apply steps_ok].
  destruct (flush_gathers g [] st Hg) as (st' & g' & r & -> & Hd & Hok & Herr); [done|].
  exists st', g', r. rewrite app_nil_r in Hd. split; [done|]. split; [done|].
  split; [|done]. intros Hr. destruct (Hok Hr) as (? & ? & ?). done.
Qed.

Lemma record_octets_cons r rs : record_octets (r :: rs) = (header_octets r ++ payload r) ++ record_octets rs.
Proof. done. Qed.

(** Naming the next record, behind a list whose run is closed. *)
Lemma name_next g :
  gather_ok g → (regioned g < length (g_records g))%nat → run g = [] →
  (length (g_regions g) + 2 ≤ MAX_REGIONS)%nat →
  let g' := mkGather (g_gathered g) (g_records g)
    (g_regions g ++ [HeaderOf (regioned g); PayloadOf (regioned g)]) (run_start g)
    (Datatypes.S (regioned g)) in
  gather_ok g' ∧ run g' = [] ∧ pend g' = pend g.
Proof.
  intros [Hr Hs Hn Hm _] Hlt Hrun Hroom g'. unfold run in Hrun.
  assert (Hstart : run_start g = length (g_gathered g)).
  { apply (f_equal length) in Hrun. rewrite length_drop in Hrun. simpl in Hrun. lia. }
  destruct (lookup_lt_is_Some_2 _ _ Hlt) as [r Er].
  split_and!; [|done|].
  - constructor; simpl; [done| |lia| |by intros []%app_nil].
    + apply Forall_app. split; [done|]. by repeat constructor; simpl; rewrite Er.
    + unfold opened. simpl. rewrite decide_False by lia. rewrite length_app. simpl. lia.
  - unfold pend, named, unnamed, run. simpl. rewrite Hrun. simpl.
    rewrite fmap_app, concat_app. simpl. rewrite app_nil_r, <-!app_assoc. f_equal.
    unfold octets_of. simpl. rewrite Er. simpl.
    unfold waiting. simpl. rewrite (drop_S _ _ _ Er). by rewrite record_octets_cons, <-app_assoc.
Qed.

Lemma region_records_gathers fuel g st :
  gather_ok g → run g = [] → (length (waiting g) ≤ fuel)%nat →
  gathers g st (λ g', waiting g' = []) (Drain.region_records fuel g st).
Proof.
  revert g st. induction fuel as [|fuel IH]; intros g st Hg Hrun Hf; simpl;
    destruct (decide (regioned g < length (g_records g))%nat) as [Hlt|Hge].
  2, 4: apply steps_ok; [done|]; apply drop_ge; lia.
  { unfold waiting in Hf. rewrite length_drop in Hf. lia. }
  apply (steps_then _ _ _ _ _ _ _ _ _ (flush_if_gathers _ g st Hg)).
  clear st. intros st g1 Hg1 [Hw Hif].
  assert (Hlt1 : (regioned g1 < length (g_records g1))%nat).
  { apply (f_equal length) in Hw. unfold waiting in Hw. rewrite !length_drop in Hw. lia. }
  assert (H1 : run g1 = [] ∧ (length (g_regions g1) + 2 ≤ MAX_REGIONS)%nat).
  { case_bool_decide as Hfull.
    - destruct Hif as (E1 & E2 & _). unfold run. rewrite E1, E2, drop_nil.
      split; [done|]. simpl. apply regions_room.
    - subst g1. split; [done|lia]. }
  destruct H1 as [Hrun1 Hroom].
  destruct (name_next g1 Hg1 Hlt1 Hrun1 Hroom) as (Hg2 & Hrun2 & Ep).
  eapply steps_alike; [symmetry; exact Ep|]. apply IH; [done..|].
  unfold waiting in *. simpl. rewrite length_drop.
  apply (f_equal length) in Hw. rewrite !length_drop in Hw. rewrite length_drop in Hf. lia.
Qed.

Lemma cut_ok g :
  gather_ok g → (length (g_regions g) < MAX_REGIONS)%nat ∨ run g = [] →
  gather_ok (Drain.cut_run g) ∧ run (Drain.cut_run g) = [] ∧ pend (Drain.cut_run g) = pend g ∧
  g_records (Drain.cut_run g) = g_records g ∧ waiting (Drain.cut_run g) = waiting g.
Proof.
  intros Hg Hroom. destruct (named_close g Hg) as (En & Hs & Hl). destruct Hg as [Hr Hs' Hn Hm Hz].
  unfold Drain.close_run, Drain.cut_run, pend, run, named, opened in *.
  revert En Hs Hl Hm. destruct (decide _) as [Ho|Ho]; simpl; intros En Hs Hl Hm.
  - rewrite drop_all. split_and!; try done.
    + constructor; simpl; [lia|done|done| |by intros []%app_nil].
      unfold opened. simpl. rewrite decide_False by lia. lia.
    + unfold named. simpl. rewrite En, <-app_assoc. done.
  - rewrite drop_ge by lia. split_and!; try done. constructor; simpl; [lia|done|done| |done].
    unfold opened. rewrite decide_False by done. lia.
Qed.

Lemma take_records_gathers g st :
  gather_ok g → gathers g st (λ g', waiting g' = []) (Drain.take_records g st).
Proof.
  intros Hg. unfold Drain.take_records. case_decide as Hlt.
  2: { apply steps_ok; [done|]. apply drop_ge. lia. }
  apply (steps_then _ _ _ _ _ _ _ _ _ (flush_if_gathers _ g st Hg)).
  clear st. intros st g1 Hg1 [Hw Hif].
  assert (Hroom : (length (g_regions g1) < MAX_REGIONS)%nat ∨ run g1 = []).
  { destruct (_ && _) eqn:Eb.
    - destruct Hif as (_ & E2 & _). right. unfold run. by rewrite E2, drop_nil.
    - subst g1. apply andb_false_iff in Eb as [Eb|Eb]; apply bool_decide_eq_false in Eb; [|left; lia].
      right. apply drop_ge. lia. }
  destruct (cut_ok g1 Hg1 Hroom) as (Hg2 & Hrun & Ep & Er & Ew).
  eapply steps_alike; [symmetry; exact Ep|]. apply region_records_gathers; [done..|].
  rewrite Ew, Er. unfold waiting. rewrite length_drop. lia.
Qed.

Definition with_block (block : bytes) (g : Gather) : Gather :=
  mkGather (g_gathered g ++ block) (g_records g) (g_regions g) (run_start g) (regioned g).

Lemma block_ok block g :
  gather_ok g → waiting g = [] →
  (run_start g < length (g_gathered g))%nat ∨ (length (g_regions g) < MAX_REGIONS)%nat →
  gather_ok (with_block block g) ∧ pend (with_block block g) = pend g ++ block.
Proof.
  intros [Hr Hs Hn Hm Hz] Hw Hroom. destruct (regions_grow _ _ block [] _ Hs) as [Hs2 E].
  rewrite app_nil_r in Hs2, E. split.
  - constructor; simpl; [rewrite length_app; lia|done|done| |done].
    unfold opened in *. simpl. destruct (decide (run_start g < length (g_gathered g))%nat).
    + case_decide; lia.
    + destruct Hroom; case_decide; lia.
  - unfold pend, named, run, unnamed. change (waiting (with_block block g)) with (waiting g).
    rewrite Hw. simpl. rewrite E, !app_nil_r, drop_app_le by done. by rewrite app_assoc.
Qed.

Lemma take_block_gathers block g st :
  gather_ok g → waiting g = [] →
  ∃ st' g' r, Drain.take_block block g st = Some (st', g', r) ∧
    emitted (pend g ++ block) st st' (pend g') r ∧
    (is_ok r = true → gather_ok g' ∧ waiting g' = []) ∧ (is_ok r = false → g_records g' = []).
Proof.
  intros Hg Hw. unfold Drain.take_block. case_decide as Hs.
  2: { destruct (flush_gathers g block st Hg (λ _, Hw)) as (st' & g' & r & -> & Hd & Hok & He).
       exists st', g', r. split; [done|]. split; [done|]. split; [|done].
       intros Hr. destruct (Hok Hr) as (? & _ & ->). done. }
  destruct (flush_if_gathers (bool_decide (length (g_gathered g) = run_start g) &&
    bool_decide (MAX_REGIONS ≤ length (g_regions g))%nat) g st Hg) as (st1 & g1 & r & -> & Hd & Hok & He).
  apply (emitted_more block) in Hd. destruct r as [[]|e].
  2: { exists st1, g1, (Err e). split; [done|]. split; [|done]. by eapply emitted_err. }
  destruct (Hok eq_refl) as (Hg1 & Hw1 & Hif). rewrite Hw in Hw1.
  assert (Hroom : (run_start g1 < length (g_gathered g1))%nat ∨
    (length (g_regions g1) < MAX_REGIONS)%nat).
  { pose proof regions_room. destruct (_ && _) eqn:Eb.
    - destruct Hif as (-> & _). simpl. lia.
    - subst g1. destruct Hg1. apply andb_false_iff in Eb as [Eb|Eb];
        apply bool_decide_eq_false in Eb; lia. }
  eexists _, _, _. split; [done|]. split; [|split; [|done]].
  - eapply emitted_trans; [exact Hd|]. fold (with_block block g1).
    rewrite (proj2 (block_ok block g1 Hg1 Hw1 Hroom)). apply emitted_refl.
  - intros _. split; [|done]. exact (proj1 (block_ok block g1 Hg1 Hw1 Hroom)).
Qed.

(** The records a call left join the gather. *)
Definition with_records (records : list SendRecord) (g : Gather) : Gather :=
  mkGather (g_gathered g) records (g_regions g) (run_start g) (regioned g).

Lemma records_ok new g :
  gather_ok g → waiting g = [] →
  gather_ok (with_records (g_records g ++ new) g) ∧
  pend (with_records (g_records g ++ new) g) = pend g ++ record_octets new.
Proof.
  intros [Hr Hs Hn Hm Hz] Hw. destruct (regions_grow _ _ [] new _ Hs) as [Hs2 E].
  rewrite app_nil_r in Hs2, E. split.
  - constructor; simpl; [done|done|rewrite length_app; lia|done|done].
  - unfold pend, named, run, unnamed. rewrite Hw. unfold waiting in *. simpl.
    rewrite E, drop_app_le, Hw, app_nil_r by lia. simpl. by rewrite app_assoc.
Qed.

Lemma readiness_loop_drains fuel g st :
  gather_ok g → waiting g = [] → (remaining st.1 < fuel)%nat →
  ∃ st' g' r, Drain.readiness_loop fuel g st = Some (st', g', r) ∧
    drained (pend g) st st' (pend g') r ∧
    (is_ok r = true → gather_ok g' ∧ waiting g' = []) ∧ (is_ok r = false → g_records g' = []).
Proof.
  revert g st. induction fuel as [|fuel IH]; intros g st Hg Hw Hf; [lia|]. simpl.
  pose proof (send_produces (g_records g) st.1) as Hs.
  destruct (send_into (g_records g) st.1) as [[s1 records] r].
  destruct Hs as (new & -> & _ & Hp & Hm).
  destruct r as [block|e].
  2: { exists (s1, st.2). eexists _, _. split; [done|]. split; [|done].
       by eapply drained_produced_err. }
  fold (with_records (g_records g ++ new) g).
  destruct (records_ok new g Hg Hw) as [Hg1 Ep].
  destruct (take_records_gathers _ (s1, st.2) Hg1) as (st2 & g2 & r & -> & Hd & Hok & He).
  pose proof (drained_produced (pend g) st s1 _ Hp) as Hprod.
  destruct r as [[]|e].
  - destruct (Hok eq_refl) as [Hg2 Hw2]. destruct block as [block|]; simpl in Hm, Hprod.
    + rewrite app_assoc, <-Ep in Hprod.
      apply (emitted_more block) in Hd.
      destruct (take_block_gathers block g2 st2 Hg2 Hw2) as (st3 & g3 & r & -> & Hd3 & Hok3 & He3).
      pose proof (drained_trans _ _ _ _ _ _ _ (Hprod ltac:(lia)) (emitted_drained _ _ _ _ _ Hd)) as H2.
      pose proof (drained_trans _ _ _ _ _ _ _ H2 (emitted_drained _ _ _ _ _ Hd3)) as H3.
      destruct r as [[]|e]; [|by eexists _, _, _].
      destruct (Hok3 eq_refl) as [Hg3 Hw3].
      assert (Hlt : (remaining st3.1 < fuel)%nat).
      { destruct Hd as (? & ? & _ & _ & _ & _ & ?), Hd3 as (? & ? & _ & _ & _ & _ & ?).
        simpl in *. lia. }
      destruct (IH g3 st3 Hg3 Hw3 Hlt) as (st4 & g4 & r & -> & Hd4 & ?).
      exists st4, g4, r. split; [done|]. split; [|done]. by eapply drained_trans.
    + rewrite app_nil_r, <-Ep in Hprod. exists st2, g2, (Ok ()). split; [done|].
      split; [|done]. eapply drained_trans; [by apply Hprod|]. by apply emitted_drained.
  - exists st2, g2, (Err e). split; [done|]. split; [|done].
    assert (Hle : (remaining s1 ≤ remaining st.1)%nat) by (destruct block; simpl in Hm; lia).
    specialize (Hprod Hle). rewrite app_assoc, <-Ep in Hprod.
    eapply drained_trans; [exact Hprod|]. eapply drained_err, emitted_drained.
    apply (emitted_more _ _ _ _ _ _ Hd).
Qed.

Lemma readiness_drains fuel b st :
  send_records b = [] → (remaining st.1 < fuel)%nat →
  drains b st (Drain.flush_readiness fuel b st).
Proof.
  intros Hb Hf. unfold drains, Drain.flush_readiness. rewrite Hb.
  destruct (readiness_loop_drains fuel (mkGather [] [] [] 0 0) st) as (st1 & g & r & -> & Hd & Hok & He);
    [exact (emptied_ok (mkGather [] [] [] 0 0) (Ok ()))|done..|].
  destruct r as [[]|e].
  2: { eexists _, _, _. split; [done|]. split; [by apply He|]. by eapply drained_err. }
  destruct (Hok eq_refl) as [Hg Hw]. set (full := _ || _).
  destruct (flush_if_gathers full g st1 Hg) as (st2 & g2 & r & -> & Hd2 & Hok2 & He2).
  eexists _, _, _. split; [done|].
  assert (Hend : is_ok r = true → g_records g2 = [] ∧ pend g2 = []).
  { intros Hr. destruct (Hok2 Hr) as (Hg2 & Hw2 & Hif). rewrite Hw in Hw2.
    assert (Hz : g_regions g2 = [] ∧ run g2 = [] ∧ regioned g2 = 0%nat).
    { destruct full eqn:Eb; unfold full in Eb.
      - destruct Hif as (E1 & E2 & _ & E4). unfold run. by rewrite E2, drop_nil.
      - subst g2. apply orb_false_iff in Eb as [Eb1 Eb2].
        apply negb_false_iff, bool_decide_eq_true in Eb1. apply bool_decide_eq_false in Eb2.
        split_and!; [done|apply drop_ge; lia|by apply go_zero]. }
    destruct Hz as (E1 & E2 & E3). unfold pend, named, unnamed. rewrite E1, E2, Hw2.
    split; [|done]. unfold waiting in Hw2. by rewrite E3, drop_0 in Hw2. }
  simpl. destruct r as [[]|e].
  - destruct (Hend eq_refl) as [Hrec Ep]. split; [done|]. rewrite Ep in Hd2.
    eapply drained_trans; [exact Hd|]. by apply emitted_drained.
  - split; [by apply He2|]. eapply drained_trans; [exact Hd|].
    eapply drained_err, emitted_drained, Hd2.
Qed.

(** ** Gathering owned regions *)
Lemma advance_concat n rs : concat (Drain.advance_regions n rs) = drop n (concat rs).
Proof.
  revert n. induction rs as [|x rest IH]; intros n; simpl; [by rewrite drop_nil|].
  case_decide.
  - rewrite IH, drop_app_ge by lia. done.
  - simpl. rewrite drop_app_le by lia. done.
Qed.

Lemma advance_nonempty n rs :
  Forall (λ r, r ≠ []) rs → Forall (λ r, r ≠ []) (Drain.advance_regions n rs).
Proof.
  intros Hrs. revert n. induction Hrs as [|x rest Hx Hrest IH]; intros n; simpl; [done|].
  case_decide; [apply IH|]. constructor; [|done].
  intros E%(f_equal length). rewrite length_drop in E. simpl in E. lia.
Qed.

Lemma advance_length n rs : (length (Drain.advance_regions n rs) ≤ length rs)%nat.
Proof.
  revert n. induction rs as [|x rest IH]; intros n; simpl; [lia|].
  case_decide; simpl; [specialize (IH (n - length x)%nat)|]; lia.
Qed.

Definition o_waiting (o : Owning) : list SendRecord := drop (o_regioned o) (o_records o).

(** What the list says of the records it names is its own copy. *)
Definition o_pend (o : Owning) : bytes :=
  concat (o_owned o) ++ o_minted o ++ record_octets (o_waiting o).

Record owning_ok (o : Owning) : Prop := {
  oo_regions : Forall (λ r, r ≠ []) (o_owned o);
  oo_named : (o_regioned o ≤ length (o_records o))%nat;
  oo_room : (length (o_owned o) ≤ MAX_REGIONS)%nat;
  oo_headers : Forall (λ r, header_octets r ≠ []) (o_records o);
  oo_zero : o_owned o = [] → o_regioned o = 0%nat
}.

Definition o_failed (o : Owning) : Prop := o_records o = [].

Abbreviation owns := (steps o_pend owning_ok o_failed).

Definition o_emptied (o : Owning) (r : Result) : Owning :=
  mkOwning (o_minted o) [] (if is_ok r then drop (o_regioned o) (o_records o) else []) 0.

Lemma concat_nil_offer rs : Forall (λ r : bytes, r ≠ []) rs → concat rs = [] → rs = [].
Proof. by destruct 1 as [|x rs Hx _]; [|intros [? _]%app_nil]. Qed.

Lemma owned_loop_writes fuel rs o st :
  (length (concat rs) < fuel)%nat → offerable MAX_REGIONS rs → owning_ok o →
  ∃ st' r, Drain.owned_loop fuel rs o st = Some (st', o_emptied o r, r) ∧ wrote (concat rs) st st' r.
Proof.
  revert rs st. induction fuel as [|fuel IH]; intros rs st Hf Ho Hok; [lia|]. simpl.
  pose proof (write_regions_takes rs st Ho) as Hw.
  destruct (Transport.write_regions rs st) as [st1 [[n|e] back]]; destruct Hw as [Hw ->].
  2: { eexists _, (Err _). split; [done|]. by eapply took_err. }
  case_decide as En.
  { subst. eexists _, (Err _). split; [done|]. by apply took_nothing. }
  pose proof Hw as (_ & _ & Hle & _). case_decide as Hall.
  - rewrite decide_False by (destruct Hok; lia). eexists _, (Ok ()). split; [done|].
    eapply wrote_more; [done|]. rewrite drop_ge by lia. apply emitted_refl.
  - destruct Ho as (Hne & Hrs & Hl).
    destruct (IH (Drain.advance_regions n rs) st1) as (st2 & r & -> & Hr); [| |done|].
    + rewrite advance_concat, length_drop. lia.
    + split_and!; [|by apply advance_nonempty|pose proof (advance_length n rs); lia].
      intros E%(f_equal (concat (A:=byte))). rewrite advance_concat in E.
      apply (f_equal length) in E. rewrite length_drop in E. simpl in E. lia.
    + exists st2, r. split; [done|]. eapply wrote_more; [done|]. by rewrite advance_concat in Hr.
Qed.

(** Only an open run and records not named are left by a write. *)
Definition rewritten (o o' : Owning) : Prop :=
  o_owned o' = [] ∧ o_regioned o' = 0%nat ∧ o_minted o' = o_minted o ∧ o_waiting o' = o_waiting o.

Lemma write_if_owns full o st :
  owning_ok o → ((full : bool) = true → o_owned o ≠ []) →
  owns o st (λ o', if full then rewritten o o' else o' = o) (Drain.write_if full o st).
Proof.
  intros Ho Hne. unfold Drain.write_if. destruct full; [|by apply steps_ok].
  unfold Drain.write_owned_regions.
  destruct (owned_loop_writes (Datatypes.S (length (concat (o_owned o)))) (o_owned o) o st)
    as (st' & r & -> & Hw); [lia| |done|].
  { destruct Ho. split_and!; auto. }
  exists st', (o_emptied o r), r. split; [done|].
  pose proof (wrote_emitted _ (o_minted o ++ record_octets (o_waiting o)) _ _ _ Hw) as He.
  split; [destruct r as [[]|e]; [exact He|by eapply emitted_err]|]. split.
  - intros Hr. destruct r as [[]|e]; [|done]. split; [|done].
    destruct Ho. constructor; simpl; [done|lia|lia| |done].
    by apply Forall_drop.
  - intros Hr. by destruct r.
Qed.

Lemma mint_run_owns o st :
  owning_ok o →
  owns o st (λ o', o_minted o' = [] ∧ o_waiting o' = o_waiting o ∧
    (o_minted o = [] → o' = o)) (Drain.mint_run o st).
Proof.
  intros Ho. unfold Drain.mint_run. case_decide as Em; [by apply steps_ok|].
  set (full := bool_decide _).
  assert (Hne : full = true → o_owned o ≠ []).
  { unfold full. intros Hb%bool_decide_eq_true E. rewrite E in Hb. simpl in Hb.
    pose proof regions_room. lia. }
  apply (steps_then _ _ _ _ _ _ _ _ _ (write_if_owns full o st Ho Hne)).
  clear st. intros st o1 Ho1 Hif. pose proof regions_room.
  assert (H1 : (length (o_owned o1) < MAX_REGIONS)%nat ∧ o_minted o1 = o_minted o ∧
    o_waiting o1 = o_waiting o).
  { unfold full in Hif. case_bool_decide.
    - destruct Hif as (-> & _ & -> & ->). simpl. split_and!; [lia|done..].
    - subst o1. split_and!; [lia|done..]. }
  destruct H1 as (Hl & E1 & E2). destruct Ho1 as [H1 H2 H3 H4 H5].
  eapply steps_alike; [|apply steps_ok].
  - unfold o_pend. simpl. rewrite concat_app. simpl. by rewrite app_nil_r, <-!app_assoc.
  - constructor; simpl; [| |rewrite length_app; simpl; lia|done|by intros []%app_nil].
    + apply Forall_app. split; [done|]. constructor; [congruence|done].
    + done.
  - split; [done|]. split; [exact E2|done].
Qed.

Lemma owned_records_owns fuel o st :
  owning_ok o → o_minted o = [] → (length (o_waiting o) ≤ fuel)%nat →
  owns o st (λ o', o_waiting o' = [] ∧ o_minted o' = []) (Drain.owned_records fuel o st).
Proof.
  revert o st. induction fuel as [|fuel IH]; intros o st Ho Em Hf; simpl;
    destruct (decide (o_regioned o < length (o_records o))%nat) as [Hlt|Hge].
  2, 4: apply steps_ok; [done|]; split; [apply drop_ge; lia|done].
  { unfold o_waiting in Hf. rewrite length_drop in Hf. lia. }
  set (full := bool_decide _).
  assert (Hne : full = true → o_owned o ≠ []).
  { unfold full. intros Hb%bool_decide_eq_true E. rewrite E in Hb. simpl in Hb.
    pose proof regions_room. lia. }
  apply (steps_then _ _ _ _ _ _ _ _ _ (write_if_owns full o st Ho Hne)).
  clear st. intros st o1 Ho1 Hif. pose proof regions_room.
  assert (H1 : (length (o_owned o1) + 2 ≤ MAX_REGIONS)%nat ∧ o_minted o1 = [] ∧
    o_waiting o1 = o_waiting o).
  { unfold full in Hif. case_bool_decide.
    - destruct Hif as (-> & _ & -> & ->). simpl. split_and!; [lia|done..].
    - subst o1. split_and!; [lia|done..]. }
  destruct H1 as (Hl & E1 & E2). destruct Ho1 as [H1 H2 H3 H4 H5].
  assert (Hlt1 : (o_regioned o1 < length (o_records o1))%nat).
  { apply (f_equal length) in E2. unfold o_waiting in E2. rewrite !length_drop in E2. lia. }
  destruct (lookup_lt_is_Some_2 _ _ Hlt1) as [r Er]. rewrite Er.
  pose proof (drop_S _ _ _ Er) as Ed. fold (o_waiting o1) in Ed.
  assert (Hh : header_octets r ≠ []).
  { rewrite Forall_lookup in H4. by eapply H4. }
  assert (Hc : concat (Drain.record_regions (o_minted o1) r) = header_octets r ++ payload r).
  { unfold Drain.record_regions. rewrite E1. simpl. case_decide as Ep; simpl; [|by rewrite app_nil_r].
    by rewrite Ep. }
  eapply steps_alike; [|apply IH].
  - unfold o_pend. simpl. rewrite concat_app, Hc, E1, Ed, record_octets_cons. simpl.
    unfold o_waiting. simpl. by rewrite <-!app_assoc.
  - constructor; simpl; [|lia| |done|by intros []%app_nil].
    + apply Forall_app. split; [done|]. unfold Drain.record_regions. rewrite E1. simpl.
      constructor; [done|]. case_decide; [done|by constructor].
    + rewrite length_app. unfold Drain.record_regions. simpl. case_decide; simpl; lia.
  - done.
  - unfold o_waiting. simpl. apply (f_equal length) in E2. rewrite Ed in E2. simpl in E2. lia.
Qed.

Lemma own_records_owns o st :
  owning_ok o → owns o st (λ o', o_waiting o' = []) (Drain.own_records o st).
Proof.
  intros Ho. unfold Drain.own_records. case_decide as Hlt.
  2: { apply steps_ok; [done|]. apply drop_ge. lia. }
  apply (steps_then _ _ _ _ _ _ _ _ _ (mint_run_owns o st Ho)).
  clear st. intros st o1 Ho1 (Em & Ew & _).
  destruct (owned_records_owns (length (o_records o1)) o1 st Ho1 Em) as (st' & o' & r & E & Hd & Hok & He).
  { unfold o_waiting. rewrite length_drop. lia. }
  exists st', o', r. split; [exact E|]. split; [done|]. split; [|done].
  intros Hr. destruct (Hok Hr) as (? & ? & _). done.
Qed.

Lemma own_block_owns block o st :
  owning_ok o → o_waiting o = [] →
  ∃ st' o' r, Drain.own_block block o st = Some (st', o', r) ∧
    emitted (o_pend o ++ block) st st' (o_pend o') r ∧
    (is_ok r = true → owning_ok o' ∧ o_waiting o' = []) ∧ (is_ok r = false → o_failed o').
Proof.
  intros Ho Hw. unfold Drain.own_block. set (full := _ && _).
  assert (Hne : full = true → o_owned o ≠ []).
  { unfold full. intros [_ Hb%bool_decide_eq_true]%andb_true_iff E. rewrite E in Hb. simpl in Hb.
    pose proof regions_room. lia. }
  destruct (write_if_owns full o st Ho Hne) as (st1 & o1 & r & -> & Hd & Hok & He).
  apply (emitted_more block) in Hd. destruct r as [[]|e].
  2: { exists st1, o1, (Err e). split; [done|]. split; [by eapply emitted_err|done]. }
  destruct (Hok eq_refl) as [Ho1 Hif].
  assert (Hw1 : o_waiting o1 = []) by (destruct full; [by destruct Hif as (_ & _ & _ & ->)|by subst]).
  eexists _, _, _. split; [done|]. split; [|split; [|done]].
  - eapply emitted_trans; [exact Hd|]. unfold o_pend, o_waiting in *. simpl.
    rewrite Hw1. simpl. rewrite !app_nil_r, app_assoc. apply emitted_refl.
  - intros _. split; [|done]. by destruct Ho1.
Qed.

Lemma owning_loop_drains fuel o st :
  owning_ok o → o_waiting o = [] → (remaining st.1 < fuel)%nat →
  ∃ st' o' r, Drain.owning_loop fuel o st = Some (st', o', r) ∧
    drained (o_pend o) st st' (o_pend o') r ∧
    (is_ok r = true → owning_ok o' ∧ o_waiting o' = []) ∧ (is_ok r = false → o_failed o').
Proof.
  revert o st. induction fuel as [|fuel IH]; intros o st Ho Hw Hf; [lia|]. simpl.
  pose proof (send_produces (o_records o) st.1) as Hs.
  destruct (send_into (o_records o) st.1) as [[s1 records] r].
  destruct Hs as (new & -> & Hnew & Hp & Hm).
  destruct r as [block|e].
  2: { exists (s1, st.2). eexists _, _. split; [done|]. split; [|done]. by eapply drained_produced_err. }
  set (o1 := mkOwning _ _ (o_records o ++ new) _).
  assert (Ho1 : owning_ok o1).
  { destruct Ho. constructor; simpl; try done; [rewrite length_app; lia|].
    by apply Forall_app. }
  assert (Ep : o_pend o1 = o_pend o ++ record_octets new).
  { destruct Ho. unfold o_pend, o_waiting in *. simpl.
    rewrite drop_app_le, Hw by done. simpl. by rewrite app_nil_r, <-!app_assoc. }
  destruct (own_records_owns o1 (s1, st.2) Ho1) as (st2 & o2 & r & -> & Hd & Hok & He).
  pose proof (drained_produced (o_pend o) st s1 _ Hp) as Hprod.
  destruct r as [[]|e].
  - destruct (Hok eq_refl) as [Ho2 Hw2]. destruct block as [block|]; simpl in Hm, Hprod.
    + rewrite app_assoc, <-Ep in Hprod. apply (emitted_more block) in Hd.
      destruct (own_block_owns block o2 st2 Ho2 Hw2) as (st3 & o3 & r & -> & Hd3 & Hok3 & He3).
      pose proof (drained_trans _ _ _ _ _ _ _ (Hprod ltac:(lia)) (emitted_drained _ _ _ _ _ Hd)) as H2.
      pose proof (drained_trans _ _ _ _ _ _ _ H2 (emitted_drained _ _ _ _ _ Hd3)) as H3.
      destruct r as [[]|e]; [|by eexists _, _, _].
      destruct (Hok3 eq_refl) as [Ho3 Hw3].
      assert (Hlt : (remaining st3.1 < fuel)%nat).
      { destruct Hd as (? & ? & _ & _ & _ & _ & ?), Hd3 as (? & ? & _ & _ & _ & _ & ?).
        simpl in *. lia. }
      destruct (IH o3 st3 Ho3 Hw3 Hlt) as (st4 & o4 & r & -> & Hd4 & ?).
      exists st4, o4, r. split; [done|]. split; [|done]. by eapply drained_trans.
    + rewrite app_nil_r, <-Ep in Hprod. exists st2, o2, (Ok ()). split; [done|].
      split; [|done]. eapply drained_trans; [by apply Hprod|]. by apply emitted_drained.
  - exists st2, o2, (Err e). split; [done|]. split; [|done].
    assert (Hle : (remaining s1 ≤ remaining st.1)%nat) by (destruct block; simpl in Hm; lia).
    specialize (Hprod Hle). rewrite app_assoc, <-Ep in Hprod.
    eapply drained_trans; [exact Hprod|]. eapply drained_err, emitted_drained.
    apply (emitted_more _ _ _ _ _ _ Hd).
Qed.

Lemma owned_drains fuel b st :
  send_records b = [] → (remaining st.1 < fuel)%nat →
  drains b st (Drain.flush_owned fuel b st).
Proof.
  intros Hb Hf. unfold drains, Drain.flush_owned. rewrite Hb.
  destruct (owning_loop_drains fuel (mkOwning [] [] [] 0) st) as (st1 & o & r & -> & Hd & Hok & He);
    [constructor; simpl; [done|lia|lia|done|done]|done|done|].
  destruct r as [[]|e].
  2: { eexists _, _, _. split; [done|]. split; [by apply He|]. by eapply drained_err. }
  destruct (Hok eq_refl) as [Ho Hw].
  destruct (mint_run_owns o st1 Ho) as (st2 & o2 & r & -> & Hd2 & Hok2 & He2).
  pose proof (drained_trans _ _ _ _ _ _ _ Hd (emitted_drained _ _ _ _ _ Hd2)) as H12.
  destruct r as [[]|e].
  2: { eexists _, _, _. split; [done|]. split; [by apply He2|]. by eapply drained_err. }
  destruct (Hok2 eq_refl) as (Ho2 & Em & Ew & _). rewrite Hw in Ew.
  set (full := negb _).
  assert (Hne : full = true → o_owned o2 ≠ []).
  { unfold full. by intros Hb2%negb_true_iff%bool_decide_eq_false. }
  destruct (write_if_owns full o2 st2 Ho2 Hne) as (st3 & o3 & r & -> & Hd3 & Hok3 & He3).
  eexists _, _, _. split; [done|].
  assert (Hend : is_ok r = true → o_records o3 = [] ∧ o_pend o3 = []).
  { intros Hr. destruct (Hok3 Hr) as [Ho3 Hif].
    assert (Hz : o_owned o3 = [] ∧ o_minted o3 = [] ∧ o_regioned o3 = 0%nat ∧ o_waiting o3 = []).
    { destruct full eqn:Eb; unfold full in Eb.
      - destruct Hif as (-> & -> & -> & ->). done.
      - subst o3. apply negb_false_iff, bool_decide_eq_true in Eb.
        split_and!; [done..|by apply oo_zero|done]. }
    destruct Hz as (E1 & E2 & E3 & E4). unfold o_pend. rewrite E1, E2, E4.
    split; [|done]. unfold o_waiting in E4. by rewrite E3, drop_0 in E4. }
  simpl. destruct r as [[]|e].
  - destruct (Hend eq_refl) as [Hrec Ep]. split; [done|]. rewrite Ep in Hd3.
    eapply drained_trans; [exact H12|]. by apply emitted_drained.
  - split; [by apply He3|]. eapply drained_trans; [exact H12|].
    eapply drained_err, emitted_drained, Hd3.
Qed.

(** C36. The four ways to drain a pass are one: whichever the transport's model and its answer
    about gathering select, and however short its writes fall, the drain returns; on success
    the transport accepted exactly what the session produced in the pass, records and blocks
    in the order they came, and after a failure a beginning of it; nothing stays in the sink;
    no slice is out of range, and no transport is offered an empty region or more regions
    than it is promised. *)
Theorem drains_exact vectored fuel b st :
  send_records b = [] → (remaining st.1 < fuel)%nat →
  ∃ st' b' r out w, Drain.flush vectored fuel b st = Some (st', b', r) ∧
    send_records b' = [] ∧ produced st'.1 = produced st.1 ++ out ∧
    accepted st'.2 = accepted st.2 ++ w ∧ w `prefix_of` out ∧ (is_ok r = true → w = out).
Proof.
  intros Hb Hf.
  assert (Hd : drains b st (Drain.flush vectored fuel b st)).
  { unfold Drain.flush. destruct model, vectored.
    - by apply readiness_drains.
    - by apply coalesced_borrowed_drains.
    - by apply owned_drains.
    - by apply coalesced_owned_drains. }
  destruct Hd as (st' & b' & r & E & Hs & out & w & rest & Hp & Ha & Ew & K & _).
  exists st', b', r, out, w. split_and!; try done.
  - by exists rest.
  - intros Hr. by rewrite (K Hr), app_nil_r in Ew.
Qed.
End Facts.

(** ** A small session and a small transport *)
Module DrainToy.

#[local] Instance boxes : BoxedErrors := { BoxedError := unit }.

(** What each call still gives -- the payloads of its records, and its block -- and what was
    given so far. *)
Definition session : Type := list (list bytes * bytes) * bytes.

Definition record_of (p : bytes) : SendRecord := mkRecord (ascii_bytes "<header->") p.

#[local] Instance session_sends : Sends session := {|
  send_into sink s :=
    match s with
    | ([], p) => (s, sink, Ok None)
    | ((payloads, block) :: l, p) =>
        ((l, p ++ record_octets (record_of <$> payloads) ++ block),
         sink ++ (record_of <$> payloads), Ok (Some block))
    end
|}.

#[local, refine] Instance session_laws : SendLaws session := {|
  produced := snd;
  remaining s := length s.1
|}.
Proof.
  intros sink [[|[payloads block] l] p]; simpl.
  - exists []. by rewrite !app_nil_r.
  - eexists. split; [done|]. split; [|split; [done|apply le_n]].
    apply Forall_fmap, Forall_true. by intros.
Defined.

(** It takes up to seven octets at a time, and keeps them; it borrows and gathers itself, or
    owns and leaves gathering to the provided body. *)
Definition taking (data : bytes) (st : session * bytes) : session * bytes * result nat unit :=
  ((st.1, st.2 ++ take 7 data), Ok (Nat.min 7 (length data))).

Lemma taking_takes data st :
  let '(st', r) := taking data st in
  st'.1 = st.1 ∧ ∃ n, r = Ok n ∧ (n ≤ length data)%nat ∧ st'.2 = st.2 ++ take n data.
Proof.
  unfold taking. cbn [fst snd]. split; [done|]. eexists. split; [done|]. split; [lia|]. f_equal.
  destruct (decide (7 ≤ length data)%nat).
  - by rewrite Nat.min_l by done.
  - rewrite Nat.min_r by lia. by rewrite !take_ge by lia.
Qed.

Section Model.
Context (m : WriteModel).

#[local] Instance toy_writes : TransportWrites session := {|
  writer := bytes;
  model := m;
  is_write_vectored _ := true;
  commit st := (st, Ok ());
  write_borrowed := taking;
  own_vectored := Some (λ rs, taking (concat rs));
  write_owned data st := let '(st, r) := taking data st in (st, (r, data));
  own_regions := None
|}.

Lemma taking_took data (st : session * bytes) :
  let '(st', r) := taking data st in took (id : writer → bytes) data st st' r.
Proof.
  pose proof (taking_takes data st) as Ht. destruct (taking data st) as [st' r].
  destruct Ht as [E (n & -> & Hn & Ha)]. destruct st as [s w], st' as [s' w'].
  simpl in E. subst s'. by split_and!.
Qed.

#[local, refine] Instance toy_laws : WriteLaws session := {| accepted := id |}.
Proof.
  - intros data st _. apply taking_took.
  - intros f rs st [= <-] _. apply taking_took.
  - intros data st _. split; [apply (taking_took data)|done].
  - by intros f rs st [=].
Defined.
End Model.

(** A block alone, then two payloads with a large block behind them, then a small block. *)
Definition pass : session :=
  ([([], ascii_bytes "settings"); ([ascii_bytes "one"; []], replicate 300 (Zb 0x78));
    ([], ascii_bytes "end")], []).

Definition outcome (m : WriteModel) (vectored : bool) : option (nat * bool) :=
  match @Drain.flush boxes session _ (toy_writes m) vectored 4 Drain.buffers_new (pass, []) with
  | Some (st, b, r) => Some (length st.2, is_ok r && bool_decide (st.2 = st.1.2))
  | None => None
  end.

Lemma drains_exact_witness :
  Forall (λ mv : WriteModel * bool, ∃ st' b' out,
    @Drain.flush boxes session _ (toy_writes mv.1) mv.2 4 Drain.buffers_new (pass, []) =
      Some (st', b', Ok ()) ∧ st'.1.2 = out ∧ st'.2 = out ∧ length out = 332%nat)
    [(Readiness, true); (Readiness, false); (Completion, true); (Completion, false)].
Proof.
  apply Forall_forall. intros [m v] Hmv. cbn [fst snd].
  assert (Hr : outcome m v = Some (332%nat, true)).
  { repeat (apply list.elem_of_cons in Hmv as [[= -> ->]|Hmv]; [vm_compute; reflexivity|]).
    by apply elem_of_nil in Hmv. }
  destruct (@drains_exact boxes session _ _ (toy_writes m) (toy_laws m) v 4 Drain.buffers_new
    (pass, []) eq_refl (le_n 4)) as (st' & b' & r & out & w & E & _ & Hp & Ha & _ & K).
  unfold outcome in Hr. rewrite E in Hr. injection Hr as Hl Hr. apply andb_true_iff in Hr as [Hr _].
  rewrite (K Hr) in Ha. destruct r as [[]|]; [|done].
  exists st', b', out. split; [exact E|]. split; [exact Hp|]. split; [exact Ha|].
  change (st'.2 = out) in Ha. by rewrite <-Ha.
Defined.
End DrainToy.
