(* ===== verification/HeadFacts.v ===== *)
(** * What a message head keeps on its way (theorems about H3Head and H2Head)

    The decoders run one loop over the fields, with slots and flags.  The reference here says
    what a section means by looking at it as a whole, and the decoders agree with it but for
    one thing they overlook ([request_head_exact]); the HTTP/2 and HTTP/3 decoders agree wherever both rule sets admit
    a section ([decoders_agree]); and a head that is encoded and decoded comes back
    ([request_survives], [response_survives]). *)

From Stdlib Require Import ZArith Lia Strings.Byte.
From stdpp Require Import base list sets strings.
From S2P Require Import Prelude HttpCrate H2Types H2Head H3Types H3Head.

(** ** The reference *)
Module Reference.

(** Where the two protocols differ. *)
Record Policy := mkPolicy {
  carries : bytes → bytes → bool;
  default_scheme : bytes;
  supported : bytes → bool;
  (** Whether [host] may stand in for [:authority]. *)
  host_suffices : bool
}.

(** The fields that speak of one HTTP/1 connection (RFC 9114, 4.2), [te] aside. *)
Definition connection_specific : list bytes :=
  ascii_bytes <$> ["connection"; "keep-alive"; "proxy-connection"; "transfer-encoding"; "upgrade"].

(** All [te] may ask for. *)
Definition only_trailers (value : bytes) : bool :=
  eq_ignore_ascii_case value (ascii_bytes "trailers").

Definition http_or_https (scheme : bytes) : bool :=
  bool_decide (scheme = ascii_bytes "http") || bool_decide (scheme = ascii_bytes "https").

Definition h3_policy : Policy := mkPolicy
  (λ name value,
     if decide (name = ascii_bytes "te") then only_trailers value
     else bool_decide (name ∉ connection_specific))
  (ascii_bytes "https") http_or_https true.

Definition h2_policy : Policy := mkPolicy
  (λ _ _, true) (ascii_bytes "http") (λ s, bool_decide (s = ascii_bytes "http")) false.

Definition pseudo_names : list bytes :=
  ascii_bytes <$> [":method"; ":scheme"; ":authority"; ":path"].

Definition is_pseudo (f : bytes * bytes) : Prop := head f.1 = Some (Zb 0x3a).
Definition is_host (f : bytes * bytes) : Prop :=
  eq_ignore_ascii_case f.1 (ascii_bytes "host") = true.

#[export] Instance is_pseudo_dec f : Decision (is_pseudo f).
Proof. unfold is_pseudo. apply _. Defined.
#[export] Instance is_host_dec f : Decision (is_host f).
Proof. unfold is_host. apply _. Defined.

Definition pseudos (fs : list (bytes * bytes)) := filter is_pseudo fs.
Definition regulars (fs : list (bytes * bytes)) := filter (λ f, ¬ is_pseudo f) fs.
Definition hosts (fs : list (bytes * bytes)) : list bytes := snd <$> filter is_host (regulars fs).
Definition others (fs : list (bytes * bytes)) := filter (λ f, ¬ is_host f) (regulars fs).

(** The value of a pseudo-header. *)
Definition the (name : bytes) (fs : list (bytes * bytes)) : option bytes :=
  head (snd <$> filter (λ f, f.1 = name) fs).

Section Reference.
Context `{Crate : Http} (pol : Policy).

(** A field as the [http] crate has it, when the protocol carries it. *)
Definition decode (f : bytes * bytes) : option (HeaderName * HeaderValue) :=
  let! n := name_from_bytes f.1 in
  let! v := value_from_bytes f.2 in
  if carries pol (name_as_str n) f.2 then Some (n, v) else None.

Record well_formed (fs : list (bytes * bytes)) : Prop := {
  wf_order : fs = pseudos fs ++ regulars fs;
  wf_known : Forall (λ f, f.1 ∈ pseudo_names) (pseudos fs);
  wf_once : NoDup (pseudos fs).*1;
  wf_fields : Forall (λ f, is_Some (decode f)) (others fs)
}.

(** [r] is the request of the section [fs], when [who] is the authority it names. *)
Definition says_as (who : option bytes) (fs : list (bytes * bytes)) (r : HttpCrate.Request)
  : Prop :=
  well_formed fs ∧
  ∃ m a path p,
    the (ascii_bytes ":method") fs = Some m ∧
    method_from_bytes m = Some (method r) ∧ method r ≠ CONNECT ∧
    (who ≫= authority_try_from) = Some a ∧ ¬ (Zb 0x40 ∈ authority_as_str a) ∧
    the (ascii_bytes ":path") fs = Some path ∧
    paq_try_from path = Some p ∧ paq_path p ≠ ascii_bytes "*" ∧
    let scheme := default (default_scheme pol) (the (ascii_bytes ":scheme") fs) in
    supported pol scheme = true ∧ uri_build scheme a p = Some (uri r) ∧
    append_all (Some map_empty) (omap decode (others fs)) = Some (headers r).

(** Every name a section gives its authority: [:authority], then its [host] fields.  They
    must be one and the same. *)
Definition named (fs : list (bytes * bytes)) : list bytes :=
  option_list (the (ascii_bytes ":authority") fs) ++ hosts fs.
Definition consistent (fs : list (bytes * bytes)) : Prop :=
  ∀ a b, a ∈ named fs → b ∈ named fs → a = b.

(** The authority of a section, none when two of its names disagree.  A [host] field alone
    may name it where the protocol lets it, and then not with nothing. *)
Definition authority_of (fs : list (bytes * bytes)) : option bytes :=
  let! a := head (named fs) in
  if decide (Forall (eq a) (named fs)) then
    match the (ascii_bytes ":authority") fs with
    | Some _ => Some a
    | None => if host_suffices pol && bool_decide (a ≠ []) then Some a else None
    end
  else None.

(** [r] is what the section [fs] says. *)
Definition says (fs : list (bytes * bytes)) (r : HttpCrate.Request) : Prop :=
  says_as (authority_of fs) fs r.

(** *** The reading of the decoders

    They keep one [host] field, the last. *)
Definition settle (authority host : option bytes) : option bytes :=
  match authority, host with
  | Some a, Some h => if decide (a = h) then Some a else None
  | Some a, None => Some a
  | None, Some h => if host_suffices pol && bool_decide (h ≠ []) then Some h else None
  | None, None => None
  end.

Definition last_authority (fs : list (bytes * bytes)) : option bytes :=
  settle (the (ascii_bytes ":authority") fs) (last (hosts fs)).

Definition reads (fs : list (bytes * bytes)) (r : HttpCrate.Request) : Prop :=
  says_as (last_authority fs) fs r.

(** A section whose names disagree, but not in [:authority] and the last [host] field, and
    [r] is what it says without the earlier [host] fields. *)
Definition overlooked (fs : list (bytes * bytes)) (r : HttpCrate.Request) : Prop :=
  ¬ consistent fs ∧ reads fs r.

Lemma consistent_head fs a :
  head (named fs) = Some a → consistent fs ↔ Forall (eq a) (named fs).
Proof.
  intros Ha. rewrite Forall_forall. split.
  - intros Hc x Hx. apply Hc; [|done]. destruct (named fs); simplify_eq/=. by left.
  - intros Hf x y Hx Hy. by rewrite <-(Hf x Hx), <-(Hf y Hy).
Qed.

Lemma consistent_authority fs : consistent fs → authority_of fs = last_authority fs.
Proof.
  intros Hc. unfold authority_of.
  destruct (head (named fs)) as [a|] eqn:Ha.
  - apply (consistent_head fs a Ha) in Hc as Hf. simpl. rewrite decide_True by done.
    unfold last_authority, settle, named in *.
    assert (Hl : ∀ h, last (hosts fs) = Some h → a = h).
    { intros h Hh. rewrite Forall_app in Hf. destruct Hf as [_ Hf].
      rewrite Forall_forall in Hf. apply Hf. apply last_Some in Hh as [l ->]. set_solver. }
    destruct (the _ fs) as [a'|]; simpl in Ha.
    + injection Ha as ->. destruct (last (hosts fs)) as [h|]; [|done].
      by rewrite decide_True by (by apply Hl).
    + destruct (last (hosts fs)) as [h|] eqn:Hh; [by rewrite (Hl h)|].
      apply last_None in Hh. by rewrite Hh in Ha.
  - unfold last_authority, named in *. destruct (the _ fs); [done|].
    simpl in Ha. by destruct (hosts fs).
Qed.

Lemma inconsistent_authority fs : ¬ consistent fs → authority_of fs = None.
Proof.
  intros Hc. unfold authority_of. destruct (head (named fs)) as [a|] eqn:Ha; [|done].
  simpl. rewrite decide_False; [done|]. by rewrite <-(consistent_head fs a Ha).
Qed.

#[export] Instance consistent_dec fs : Decision (consistent fs).
Proof.
  refine (match head (named fs) as h return head (named fs) = h → _ with
          | Some a => λ E, cast_if (decide (Forall (eq a) (named fs)))
          | None => λ E, left _
          end eq_refl).
  - by rewrite (consistent_head fs a E).
  - by rewrite (consistent_head fs a E).
  - intros a b Ha. destruct (named fs); [by apply elem_of_nil in Ha|done].
Defined.

(** The decoders read what a section says, or overlook a disagreement. *)
Lemma reads_says fs r : reads fs r ↔ says fs r ∨ overlooked fs r.
Proof.
  unfold overlooked, says. destruct (decide (consistent fs)) as [Hc|Hc].
  - rewrite consistent_authority by done. unfold reads. tauto.
  - rewrite inconsistent_authority by done. split; [by auto|].
    intros [(_ & m & a & path & p & _ & _ & _ & Ha & _)|[_ H]]; done.
Qed.

(** ** The loop both decoders run *)

Record Scan := mkScan {
  builder : option HeaderMap;
  s_method : option bytes;
  s_scheme : option bytes;
  s_authority : option bytes;
  s_path : option bytes;
  s_host : option bytes;
  seen_field : bool
}.

Definition scan_new : Scan := mkScan (Some map_empty) None None None None None false.

Definition pseudo_slot (name : bytes) (s : Scan) : option (option bytes * (bytes → Scan)) :=
  let 'mkScan b m sc a p h seen := s in
  if decide (name = ascii_bytes ":method") then
    Some (m, λ v, mkScan b (Some v) sc a p h seen)
  else if decide (name = ascii_bytes ":scheme") then
    Some (sc, λ v, mkScan b m (Some v) a p h seen)
  else if decide (name = ascii_bytes ":authority") then
    Some (a, λ v, mkScan b m sc (Some v) p h seen)
  else if decide (name = ascii_bytes ":path") then
    Some (p, λ v, mkScan b m sc a (Some v) h seen)
  else None.

Definition step (s : Scan) (f : bytes * bytes) : option Scan :=
  if decide (is_pseudo f) then
    if seen_field s then None
    else
      let! (slot, fill) := pseudo_slot f.1 s in
      match slot with Some _ => None | None => Some (fill f.2) end
  else
    let 'mkScan b m sc a p h _ := s in
    if decide (is_host f) then Some (mkScan b m sc a p (Some f.2) true)
    else
      let! (n, v) := decode f in
      Some (mkScan (let! m := b in map_try_append m n v) m sc a p h true).

Fixpoint scan (s : Scan) (fs : list (bytes * bytes)) : option Scan :=
  match fs with
  | [] => Some s
  | f :: fs => let! s := step s f in scan s fs
  end.

(** What the loop has gathered after a whole section. *)
Definition gathered (fs : list (bytes * bytes)) : Scan :=
  mkScan (append_all (Some map_empty) (omap decode (others fs)))
    (the (ascii_bytes ":method") fs) (the (ascii_bytes ":scheme") fs)
    (the (ascii_bytes ":authority") fs) (the (ascii_bytes ":path") fs)
    (last (hosts fs)) (negb (bool_decide (regulars fs = []))).

Lemma scan_snoc s fs f : scan s (fs ++ [f]) = let! s := scan s fs in step s f.
Proof.
  revert s. induction fs as [|g fs IH]; intros s; simpl.
  - by destruct (step s f).
  - by destruct (step s g).
Qed.

Lemma pseudos_snoc fs f :
  pseudos (fs ++ [f]) = pseudos fs ++ (if decide (is_pseudo f) then [f] else []).
Proof. unfold pseudos. by rewrite filter_app, filter_cons, filter_nil. Qed.

Lemma regulars_snoc fs f :
  regulars (fs ++ [f]) = regulars fs ++ (if decide (is_pseudo f) then [] else [f]).
Proof.
  unfold regulars. rewrite filter_app, filter_cons, filter_nil.
  by repeat case_decide.
Qed.

Lemma the_snoc name fs f :
  the name (fs ++ [f]) =
    match the name fs with
    | Some v => Some v
    | None => if decide (f.1 = name) then Some f.2 else None
    end.
Proof.
  unfold the. rewrite filter_app, fmap_app, filter_cons, filter_nil.
  by destruct (filter _ fs); simpl; repeat case_decide.
Qed.

Lemma order_snoc fs f :
  fs ++ [f] = pseudos (fs ++ [f]) ++ regulars (fs ++ [f]) ↔
  fs = pseudos fs ++ regulars fs ∧ (is_pseudo f → regulars fs = []).
Proof.
  rewrite pseudos_snoc, regulars_snoc. destruct (decide (is_pseudo f)) as [Hp|Hp].
  - rewrite app_nil_r. split.
    2: { intros [E Hr]. specialize (Hr Hp). rewrite Hr, app_nil_r in *. by rewrite <-E. }
    intros E. assert (regulars fs = []) as Hr.
    { destruct (regulars fs) as [|g l _] eqn:Er using rev_ind; [done|].
      rewrite <-app_assoc in E. simpl in E. exfalso.
      rewrite app_comm_cons, app_assoc in E. apply app_inj_tail in E as [_ ->].
      assert (g ∈ regulars fs) as Hg by (rewrite Er; apply elem_of_app; right; constructor).
      by apply list_elem_of_filter in Hg as [? _]. }
    rewrite Hr, app_nil_r in E. apply app_inj_tail in E as [E _].
    rewrite Hr, app_nil_r. done.
  - rewrite app_nil_r, app_assoc. split.
    + by intros [E _]%app_inj_tail.
    + by intros [<- _].
Qed.

Lemma hosts_snoc fs f :
  hosts (fs ++ [f]) =
    hosts fs ++ (if decide (¬ is_pseudo f ∧ is_host f) then [f.2] else []).
Proof.
  unfold hosts. rewrite regulars_snoc, filter_app, fmap_app. f_equal.
  destruct (decide (is_pseudo f)), (decide (is_host f)) as [Hh|Hh]; simpl;
    rewrite ?filter_cons, ?filter_nil; repeat case_decide; tauto || done.
Qed.

Lemma others_snoc fs f :
  others (fs ++ [f]) =
    others fs ++ (if decide (¬ is_pseudo f ∧ ¬ is_host f) then [f] else []).
Proof.
  unfold others. rewrite regulars_snoc, filter_app. f_equal.
  destruct (decide (is_pseudo f)), (decide (is_host f)) as [Hh|Hh]; simpl;
    rewrite ?filter_cons, ?filter_nil; repeat case_decide; tauto || done.
Qed.

(** A pseudo-header's slot is empty exactly when the name has not been seen. *)
Lemma the_None name fs :
  head name = Some (Zb 0x3a) → the name fs = None ↔ name ∉ (pseudos fs).*1.
Proof.
  intros Hn. unfold the, pseudos. induction fs as [|[n v] fs IH]; [simpl; split; [|done]|].
  - intros _ Hin. by apply elem_of_nil in Hin.
  - rewrite !filter_cons. simpl. destruct (decide (n = name)) as [->|N]; simpl.
    + rewrite decide_True by done. simpl. split; [done|].
      intros Hin. exfalso. apply Hin. constructor.
    + case_decide; simpl; [|apply IH].
      rewrite IH, list.elem_of_cons. simpl. split; [intros ? [?|?]; [congruence|done] | tauto].
Qed.

Lemma pseudo_names_spec name :
  name ∈ pseudo_names ↔
  name = ascii_bytes ":method" ∨ name = ascii_bytes ":scheme" ∨
  name = ascii_bytes ":authority" ∨ name = ascii_bytes ":path".
Proof.
  unfold pseudo_names. rewrite !fmap_cons, fmap_nil, !list.elem_of_cons, elem_of_nil. tauto.
Qed.

Lemma pseudo_slot_spec name fs s :
  s = gathered fs →
  match pseudo_slot name s with
  | Some (slot, fill) => name ∈ pseudo_names ∧ slot = the name fs ∧
      ∀ f, f.1 = name → is_pseudo f → the name fs = None → fill f.2 = gathered (fs ++ [f])
  | None => name ∉ pseudo_names
  end.
Proof.
  intros ->. unfold gathered, pseudo_slot.
  repeat case_decide; rewrite pseudo_names_spec; try (split; [tauto|]).
  5: tauto.
  all: split; [by subst|]; intros f Hf Hp Hn; unfold gathered;
    rewrite others_snoc, hosts_snoc, regulars_snoc, !the_snoc;
    rewrite (decide_False (P := ¬ is_pseudo f ∧ ¬ is_host f)) by tauto;
    rewrite (decide_False (P := ¬ is_pseudo f ∧ is_host f)) by tauto;
    rewrite (decide_True (P := is_pseudo f)) by done; rewrite !app_nil_r; subst;
    rewrite Hn, Hf; decide_const; f_equal; by repeat case_match.
Qed.

Lemma well_formed_snoc fs f :
  well_formed (fs ++ [f]) ↔
  well_formed fs ∧
  (is_pseudo f → regulars fs = [] ∧ f.1 ∈ pseudo_names ∧ f.1 ∉ (pseudos fs).*1) ∧
  (¬ is_pseudo f → ¬ is_host f → is_Some (decode f)).
Proof.
  split.
  - intros [Ho Hk Hn Hf]. apply order_snoc in Ho as [Ho Hr].
    rewrite pseudos_snoc, Forall_app in Hk. rewrite pseudos_snoc, fmap_app in Hn.
    rewrite others_snoc, Forall_app in Hf. destruct Hk as [Hk Hk'], Hf as [Hf Hf'].
    apply NoDup_app in Hn as (Hn & Hd & _). split_and!; [done| |].
    + intros Hp. rewrite decide_True in Hk', Hd by done. rewrite Forall_singleton in Hk'.
      split_and!; [by apply Hr|exact Hk'|]. intros Hin. apply (Hd _ Hin). constructor.
    + intros Hp Hh. rewrite decide_True in Hf' by done. rewrite Forall_singleton in Hf'; exact Hf'.
  - intros ([Ho Hk Hn Hf] & Hp & Hd). split.
    + apply order_snoc. split; [done|]. intros. by apply Hp.
    + rewrite pseudos_snoc, Forall_app. split; [done|]. case_decide; [|constructor].
      apply Forall_singleton. by apply Hp.
    + rewrite pseudos_snoc, fmap_app, NoDup_app. case_decide as Hf'; [|by split_and!; [done|set_solver|constructor]].
      destruct (Hp Hf') as (_ & _ & Hni). split_and!; [done| |apply NoDup_singleton].
      intros x Hx Hx'. apply (proj1 (list_elem_of_singleton _ _)) in Hx'. by subst.
    + rewrite others_snoc, Forall_app. split; [done|]. case_decide as Hc; [|constructor].
      apply Forall_singleton. apply Hd; tauto.
Qed.

Lemma gathered_regular fs f :
  ¬ is_pseudo f →
  gathered (fs ++ [f]) =
    mkScan (append_all (Some map_empty)
              (omap decode (others fs ++ if decide (is_host f) then [] else [f])))
      (the (ascii_bytes ":method") fs) (the (ascii_bytes ":scheme") fs)
      (the (ascii_bytes ":authority") fs) (the (ascii_bytes ":path") fs)
      (last (hosts fs ++ if decide (is_host f) then [f.2] else [])) true.
Proof.
  intros Hp. unfold gathered. rewrite others_snoc, hosts_snoc, regulars_snoc, !the_snoc.
  assert (∀ name, head name = Some (Zb 0x3a) → f.1 ≠ name) as Hne.
  { intros name Hn E. apply Hp. unfold is_pseudo. by rewrite E. }
  rewrite (decide_False (P := is_pseudo f)) by done.
  rewrite !(decide_False (P := f.1 = _)) by (apply Hne; by vm_compute).
  rewrite bool_decide_false by (by destruct (regulars fs)).
  by destruct (decide (is_host f)); repeat case_decide; try tauto; repeat case_match.
Qed.

Lemma step_spec fs f s' :
  well_formed fs →
  step (gathered fs) f = Some s' ↔ well_formed (fs ++ [f]) ∧ s' = gathered (fs ++ [f]).
Proof.
  intros W. rewrite well_formed_snoc. unfold step. case_decide as Hp.
  - change (seen_field (gathered fs)) with (negb (bool_decide (regulars fs = []))).
    case_bool_decide as Hr; cbn [negb].
    2: { split; [done|]. intros [(_ & Hx & _) _]. by destruct (Hx Hp). }
    pose proof (pseudo_slot_spec f.1 fs _ eq_refl) as Hs.
    destruct (pseudo_slot f.1 (gathered fs)) as [[slot fill]|].
    2: { split; [done|]. intros [(_ & Hx & _) _]. by destruct (Hx Hp) as (_ & ? & _). }
    destruct Hs as (Hin & -> & Hfill). pose proof (the_None f.1 fs Hp) as Ht.
    destruct (the f.1 fs) as [v|] eqn:E.
    + split; [done|]. intros [(_ & Hx & _) _]. exfalso.
      destruct (Hx Hp) as (_ & _ & Hni). by apply Ht in Hni.
    + rewrite (Hfill f eq_refl Hp eq_refl). split; [|by intros [_ ->]].
      intros [= <-]. split; [|done]. split_and!; [done| |done].
      intros _. split_and!; [done|done|by apply Ht].
  - rewrite gathered_regular by done. unfold gathered at 1. case_decide as Hh.
    + rewrite last_snoc. simpl. rewrite app_nil_r. split; [|by intros [_ ->]].
      intros [= <-]. split; [|done]. by split_and!.
    + rewrite app_nil_r. rewrite omap_app. simpl. destruct (decode f) as [[n v]|] eqn:E.
      * rewrite append_all_snoc. split; [|by intros [_ ->]].
        intros [= <-]. split; [|done]. split_and!; [done..|]. by eexists.
      * split; [done|]. intros [(_ & _ & Hd) _]. by destruct (Hd Hp Hh).
Qed.

Lemma scan_spec fs s : scan scan_new fs = Some s ↔ well_formed fs ∧ s = gathered fs.
Proof.
  revert s. induction fs as [|f fs IH] using rev_ind; intros s.
  - split; [|by intros [_ ->]]. intros [= <-]. split; [|done]. by split; constructor.
  - rewrite scan_snoc. destruct (scan scan_new fs) as [s1|] eqn:E.
    + destruct (IH s1) as [[W ->] _]; [done|]. by apply step_spec.
    + split; [done|]. intros [(W & _)%well_formed_snoc _].
      pose proof (proj2 (IH (gathered fs)) (conj W eq_refl)). congruence.
Qed.
End Reference.
End Reference.

(** ** The decoders against the reference *)

#[local] Arguments ascii_bytes : simpl never.

(** [Result::ok]. *)
Definition ok {A E} (r : result A E) : option A :=
  match r with Ok a => Some a | Err _ => None end.

Lemma ok_Some {A E} (r : result A E) a : ok r = Some a ↔ r = Ok a.
Proof. destruct r; simpl; split; congruence. Qed.

Section Decoders.
Context `{Boxes : BoxedErrors} `{Crate : Http}.

Definition h3_scan (s : H3Head.Scan) : Reference.Scan :=
  let 'H3Head.mkScan b m sc a p h seen := s in Reference.mkScan b m sc a p h seen.
Definition h2_scan (s : H2Head.Scan) : Reference.Scan :=
  let 'H2Head.mkScan b m sc a p h seen := s in Reference.mkScan b m sc a p h seen.

Lemma h3_field s f :
  h3_scan <$> ok (H3Head.request_field s f) =
  Reference.step Reference.h3_policy (h3_scan s) f.
Proof.
  destruct f as [n v], s as [b m sc a p h seen].
  unfold Reference.step, H3Head.request_field, H3Head.is_pseudo.
  case_bool_decide as Hp;
    [rewrite (decide_True (P := Reference.is_pseudo (n, v))) by exact Hp
    |rewrite (decide_False (P := Reference.is_pseudo (n, v))) by exact Hp]; simpl.
  - destruct seen; [done|]. repeat case_decide; simpl; by repeat case_match.
  - destruct (eq_ignore_ascii_case n (ascii_bytes "host")) eqn:Eh;
      [rewrite (decide_True (P := Reference.is_host (n, v))) by exact Eh
      |rewrite (decide_False (P := Reference.is_host (n, v))) by (unfold Reference.is_host; simpl; congruence)]; [done|].
    + unfold Reference.decode. simpl.
      destruct (name_from_bytes n) as [k|]; [|done].
      change Reference.only_trailers with H3Head.te_is_permitted.
      change Reference.connection_specific with H3Head.FORBIDDEN.
      destruct (decide (name_as_str k = ascii_bytes "te")) as [E|N].
      * destruct (H3Head.te_is_permitted v), (value_from_bytes v); simpl; done.
      * rewrite (bool_decide_not (name_as_str k ∈ H3Head.FORBIDDEN)).
        case_decide as Hf; case_bool_decide; try done; by destruct (value_from_bytes v).
Qed.

Lemma h2_field s f :
  h2_scan <$> ok (H2Head.request_field s f) =
  Reference.step Reference.h2_policy (h2_scan s) f.
Proof.
  destruct f as [n v], s as [b m sc a p h seen].
  unfold Reference.step, H2Head.request_field, H2Head.is_pseudo.
  case_bool_decide as Hp;
    [rewrite (decide_True (P := Reference.is_pseudo (n, v))) by exact Hp
    |rewrite (decide_False (P := Reference.is_pseudo (n, v))) by exact Hp]; simpl.
  - destruct seen; [done|]. repeat case_decide; simpl; by repeat case_match.
  - destruct (eq_ignore_ascii_case n (ascii_bytes "host")) eqn:Eh;
      [rewrite (decide_True (P := Reference.is_host (n, v))) by exact Eh
      |rewrite (decide_False (P := Reference.is_host (n, v))) by (unfold Reference.is_host; simpl; congruence)]; [done|].
    + unfold Reference.decode. simpl.
      destruct (name_from_bytes n) as [k|]; [|done]. by destruct (value_from_bytes v).
Qed.

Lemma h3_scans fs : ∀ s,
  h3_scan <$> ok (H3Head.request_scan s fs) =
  Reference.scan Reference.h3_policy (h3_scan s) fs.
Proof.
  induction fs as [|f fs IH]; intros s; simpl; [done|].
  rewrite <-h3_field. by destruct (H3Head.request_field s f).
Qed.

Lemma h2_scans fs : ∀ s,
  h2_scan <$> ok (H2Head.request_scan s fs) =
  Reference.scan Reference.h2_policy (h2_scan s) fs.
Proof.
  induction fs as [|f fs IH]; intros s; simpl; [done|].
  rewrite <-h2_field. by destruct (H2Head.request_field s f).
Qed.
End Decoders.

Section Finish.
Context `{Boxes : BoxedErrors} `{Crate : Http}.

(** What both decoders do with what the loop gathered. *)
Definition finish (pol : Reference.Policy) (s : Reference.Scan) : option HttpCrate.Request :=
  let! m := Reference.s_method s in
  let! path := Reference.s_path s in
  let! a := Reference.settle pol (Reference.s_authority s) (Reference.s_host s) in
  let scheme := default (Reference.default_scheme pol) (Reference.s_scheme s) in
  if negb (Reference.supported pol scheme) then None
  else
    let! m := method_from_bytes m in
    if decide (m = CONNECT) then None
    else
      let! a := authority_try_from a in
      if decide (Zb 0x40 ∈ authority_as_str a) then None
      else
        let! p := paq_try_from path in
        if decide (paq_path p = ascii_bytes "*") then None
        else
          let! u := uri_build scheme a p in
          let! hs := Reference.builder s in
          Some (mkRequest m u hs).

Ltac nothing := by intros (? & ? & ? & ? & ? & ? & ? & ? & ? & ? & ?); simplify_eq/=.

Lemma finish_reads pol fs r :
  Reference.reads pol fs r ↔
  Reference.well_formed pol fs ∧ finish pol (Reference.gathered pol fs) = Some r.
Proof.
  unfold Reference.reads, Reference.says_as, finish, Reference.last_authority, Reference.gathered.
  cbn [Reference.s_method Reference.s_path Reference.s_authority Reference.s_host
       Reference.s_scheme Reference.builder].
  apply and_iff_compat_l.
  destruct (Reference.the (ascii_bytes ":method") fs) as [m|]; [|split; [nothing|done]].
  destruct (Reference.the (ascii_bytes ":path") fs) as [path|]; [|split; [nothing|done]].
  destruct (Reference.settle pol _ _) as [a|]; simpl; [|split; [nothing|done]].
  split.
  - intros (m0 & a0 & path0 & p & [= <-] & Hm & Hc & Ha & Hat & [= <-] & Hp & Hs & Hsup & Hu & Hb).
    rewrite Hsup, Hm, Ha, Hp; simpl. rewrite decide_False by done.
    rewrite decide_False by done. rewrite decide_False by done. rewrite Hu, Hb.
    by destruct r.
  - destruct (Reference.supported pol _) eqn:Hsup; [|done]. simpl.
    destruct (method_from_bytes m) as [m'|] eqn:Hm; [|done]. case_decide; [done|].
    destruct (authority_try_from a) as [a'|] eqn:Ha; [|done]. case_decide; [done|].
    destruct (paq_try_from path) as [p|] eqn:Hp; [|done]. case_decide; [done|].
    destruct (uri_build _ a' p) as [u|] eqn:Hu; [|done].
    destruct (append_all _ _) as [hs|] eqn:Hb; [|done].
    intros [= <-]. by exists m, a', path, p.
Qed.

(** Both decoders end alike. *)
Ltac rest_of_head path b :=
  destruct (method_from_bytes _); [|done]; simpl; case_decide; [done|];
  destruct (authority_try_from _); [|done]; simpl; case_decide; [done|];
  destruct (paq_try_from path); [|done]; simpl; case_decide; [done|];
  destruct (uri_build _ _ _); [|done]; simpl; by destruct b.

Lemma h3_head_finish fs :
  ok (H3Head.request_head fs) =
  let! s := Reference.scan Reference.h3_policy Reference.scan_new fs in
  finish Reference.h3_policy s.
Proof.
  change Reference.scan_new with (h3_scan H3Head.scan_new). rewrite <-h3_scans.
  unfold H3Head.request_head. destruct (H3Head.request_scan _ fs) as [[b m sc a p h seen]|e]; [|done].
  unfold finish. simpl. destruct m as [m|]; [|done]. destruct p as [path|]; [|done]. simpl.
  assert (∀ a0, Some a0 = Reference.settle Reference.h3_policy a h ↔
    H3Head.settle_authority a h = Ok a0) as Hset.
  { intros a0. unfold H3Head.settle_authority, Reference.settle. simpl.
    destruct a as [a|], h as [h|]; simpl; repeat case_decide; repeat case_bool_decide;
      split; try done; try (intros; exfalso; congruence); by intros [= ->]. }
  destruct (Reference.settle _ _ _) as [a0|].
  2: { destruct (H3Head.settle_authority a h) as [a0|]; [|done]. by pose proof (proj2 (Hset a0) eq_refl). }
  rewrite (proj1 (Hset a0) eq_refl). clear Hset. simpl.
  change Reference.http_or_https with H3Head.scheme_is_supported.
  destruct (H3Head.scheme_is_supported _); [|done]; simpl.
  rest_of_head path b.
Qed.

Lemma h2_head_finish fs :
  ok (H2Head.request_head fs) =
  let! s := Reference.scan Reference.h2_policy Reference.scan_new fs in
  finish Reference.h2_policy s.
Proof.
  change Reference.scan_new with (h2_scan H2Head.scan_new). rewrite <-h2_scans.
  unfold H2Head.request_head. destruct (H2Head.request_scan _ fs) as [[b m sc a p h seen]|e]; [|done].
  unfold finish. simpl. destruct m as [m|]; [|done]. destruct p as [path|]; [|done]. simpl.
  assert (∀ a0, Some a0 = Reference.settle Reference.h2_policy a h ↔
    a = Some a0 ∧ bool_decide (h ≠ None) && bool_decide (h ≠ Some a0) = false) as Hset.
  { intros a0. unfold Reference.settle. simpl.
    destruct a as [a|], h as [h|]; simpl; repeat case_decide; repeat case_bool_decide; simpl;
      (split; [intros ?; simplify_eq; done | intros [??]; simplify_eq; done]). }
  destruct (Reference.settle _ _ _) as [a0|].
  - destruct (proj1 (Hset a0) eq_refl) as [-> E]. simpl. rewrite E. clear Hset E.
    rewrite bool_decide_decide.
    destruct (decide (default _ sc = ascii_bytes "http")) as [Es|Es]; simpl;
      [rewrite decide_False by tauto | by rewrite decide_True].
    rest_of_head path b.
  - destruct a as [a|]; [|done]. simpl. destruct (_ && _) eqn:E; [done|].
    by pose proof (proj2 (Hset a) (conj eq_refl E)).
Qed.

Lemma h3_reads fs r :
  H3Head.request_head fs = Ok r ↔ Reference.reads Reference.h3_policy fs r.
Proof.
  rewrite finish_reads, <-ok_Some, h3_head_finish. split.
  - destruct (Reference.scan _ _ fs) as [s|] eqn:E; [|done]. by apply Reference.scan_spec in E as [? ->].
  - intros [W F]. by rewrite (proj2 (Reference.scan_spec _ fs _) (conj W eq_refl)).
Qed.

Lemma h2_reads fs r :
  H2Head.request_head fs = Ok r ↔ Reference.reads Reference.h2_policy fs r.
Proof.
  rewrite finish_reads, <-ok_Some, h2_head_finish. split.
  - destruct (Reference.scan _ _ fs) as [s|] eqn:E; [|done]. by apply Reference.scan_spec in E as [? ->].
  - intros [W F]. by rewrite (proj2 (Reference.scan_spec _ fs _) (conj W eq_refl)).
Qed.
End Finish.

(** ** What the decoders deliver *)

Section Exact.
Context `{Boxes : BoxedErrors} `{Crate : Http}.

(** C19. The HTTP/3 and the HTTP/2 decoder accept a request section exactly when the section,
    looked at as a whole, is well formed, with one exception.  Well formed: pseudo-headers
    first, known, each once; every other field decodable and, in HTTP/3, not
    connection-specific; a method that is not CONNECT; a path that is not the asterisk; an
    authority without userinfo, which no [host] field contradicts (and which in HTTP/3 a
    [host] field may name); a supported scheme.  What they deliver is the reference's request:
    the fields that are not [host], in order.  The exception, which a comment in the source
    denies: the decoders keep only the last [host] field, so a section whose names for its
    authority disagree is still accepted, as if its earlier [host] fields were not there,
    exactly when what is left of it is well formed; any other disagreement is refused. *)
Theorem request_head_exact fs r :
  (H3Head.request_head fs = Ok r ↔
     Reference.says Reference.h3_policy fs r ∨ Reference.overlooked Reference.h3_policy fs r) ∧
  (H2Head.request_head fs = Ok r ↔
     Reference.says Reference.h2_policy fs r ∨ Reference.overlooked Reference.h2_policy fs r).
Proof. by rewrite <-!Reference.reads_says, h3_reads, h2_reads. Qed.

Lemma decode_h2 f :
  (∀ n, name_from_bytes f.1 = Some n →
    Reference.carries Reference.h3_policy (name_as_str n) f.2 = true) →
  Reference.decode Reference.h3_policy f = Reference.decode Reference.h2_policy f.
Proof.
  intros Hc. unfold Reference.decode. destruct (name_from_bytes f.1) as [n|]; [|done].
  destruct (value_from_bytes f.2); [|done]. by rewrite Hc.
Qed.

Lemma reads_agree fs r :
  Reference.the (ascii_bytes ":authority") fs ≠ None →
  Reference.the (ascii_bytes ":scheme") fs = Some (ascii_bytes "http") →
  (∀ f n, f ∈ Reference.others fs → name_from_bytes f.1 = Some n →
    Reference.carries Reference.h3_policy (name_as_str n) f.2 = true) →
  Reference.reads Reference.h3_policy fs r ↔ Reference.reads Reference.h2_policy fs r.
Proof.
  intros Ha Hs Hc.
  assert (Hd : ∀ f, f ∈ Reference.others fs →
    Reference.decode Reference.h3_policy f = Reference.decode Reference.h2_policy f).
  { intros f Hf. apply decode_h2. intros n. by apply Hc. }
  assert (Ho : omap (Reference.decode Reference.h3_policy) (Reference.others fs) =
               omap (Reference.decode Reference.h2_policy) (Reference.others fs)).
  { clear -Hd. induction (Reference.others fs) as [|f l IH]; [done|]. simpl.
    rewrite (Hd f) by constructor.
    destruct (Reference.decode _ f); [f_equal|]; apply IH; intros; apply Hd; by constructor. }
  assert (Hw : Reference.well_formed Reference.h3_policy fs ↔
               Reference.well_formed Reference.h2_policy fs).
  { split; intros [W1 W2 W3 W4]; split; try done;
      (apply Forall_forall; intros f Hf; rewrite Forall_forall in W4; specialize (W4 f Hf);
       by rewrite (Hd f Hf) in W4 || by rewrite (Hd f Hf)). }
  unfold Reference.reads, Reference.says_as. rewrite Hw, Ho, Hs. unfold Reference.last_authority, Reference.settle.
  destruct (Reference.the (ascii_bytes ":authority") fs) as [a|]; [|done].
  assert (Reference.supported Reference.h3_policy (ascii_bytes "http") =
          Reference.supported Reference.h2_policy (ascii_bytes "http")) as Hsup by done.
  cbv zeta. cbn [from_option]. unfold id. by rewrite Hsup.
Qed.

(** Wherever both rule sets admit a request section, the two decoders deliver the same
    request or both refuse: the section names its authority and the scheme [http], and none
    of its fields is one HTTP/3 calls connection-specific. *)
Theorem decoders_agree fs r :
  Reference.the (ascii_bytes ":authority") fs ≠ None →
  Reference.the (ascii_bytes ":scheme") fs = Some (ascii_bytes "http") →
  (∀ f n, f ∈ Reference.others fs → name_from_bytes f.1 = Some n →
    Reference.carries Reference.h3_policy (name_as_str n) f.2 = true) →
  H3Head.request_head fs = Ok r ↔ H2Head.request_head fs = Ok r.
Proof. intros. by rewrite h3_reads, h2_reads, reads_agree. Qed.
End Exact.

(** ** What a head keeps on its way *)

Section Survives.
Context `{Boxes : BoxedErrors} `{Laws : HttpLaws}.

Definition encode (nv : HeaderName * HeaderValue) : bytes * bytes :=
  (name_as_str nv.1, value_as_bytes nv.2).

Lemma name_lower n : to_ascii_lowercase <$> name_as_str n = name_as_str n.
Proof. symmetry. apply name_lowercased, name_round. Qed.

Lemma encode_regular nv : ¬ Reference.is_pseudo (encode nv).
Proof. apply name_no_colon. Qed.

Lemma encode_host nv : Reference.is_host (encode nv) ↔ nv.1 = HOST.
Proof.
  unfold Reference.is_host, eq_ignore_ascii_case, encode. cbn [fst].
  assert (to_ascii_lowercase <$> ascii_bytes "host" = ascii_bytes "host") as El by by vm_compute.
  rewrite name_lower, El, bool_decide_eq_true.
  apply name_is_host.
Qed.

Lemma filter_none {A} (P : A → Prop) `{!∀ x, Decision (P x)} l :
  Forall (λ x, ¬ P x) l → filter P l = [].
Proof. induction 1; [done|]. by rewrite filter_cons_False. Qed.

Lemma filter_all {A} (P : A → Prop) `{!∀ x, Decision (P x)} l : Forall P l → filter P l = l.
Proof. induction 1; [done|]. rewrite filter_cons_True by done. by f_equal. Qed.

(** The fields a request head is sent as. *)
Definition section (m sc au path : bytes) (es : list (HeaderName * HeaderValue)) :=
  [(ascii_bytes ":method", m); (ascii_bytes ":scheme", sc);
   (ascii_bytes ":authority", au); (ascii_bytes ":path", path)] ++ (encode <$> es).

Lemma encoded_regular es : Forall (λ f, ¬ Reference.is_pseudo f) (encode <$> es).
Proof. apply Forall_fmap, Forall_forall. intros nv _. apply encode_regular. Qed.

Lemma section_parts m sc au path es :
  Reference.pseudos (section m sc au path es) =
    [(ascii_bytes ":method", m); (ascii_bytes ":scheme", sc);
     (ascii_bytes ":authority", au); (ascii_bytes ":path", path)] ∧
  Reference.regulars (section m sc au path es) = encode <$> es.
Proof.
  unfold section, Reference.pseudos, Reference.regulars. rewrite !filter_app. split.
  - rewrite (filter_none _ (encode <$> es)) by apply encoded_regular.
    rewrite app_nil_r. by apply filter_all; repeat constructor.
  - rewrite (filter_all _ (encode <$> es)) by apply encoded_regular.
    by rewrite filter_none; [|repeat constructor; intros Hn; apply Hn].
Qed.

Lemma section_the name m sc au path es :
  head name = Some (Zb 0x3a) →
  Reference.the name (section m sc au path es) =
  Reference.the name [(ascii_bytes ":method", m); (ascii_bytes ":scheme", sc);
     (ascii_bytes ":authority", au); (ascii_bytes ":path", path)].
Proof.
  intros Hn. unfold section, Reference.the. rewrite filter_app.
  rewrite (filter_none _ (encode <$> es)); [by rewrite app_nil_r|].
  apply Forall_fmap, Forall_forall. intros nv _ E. apply (encode_regular nv).
  simpl in E. unfold Reference.is_pseudo. simpl. by rewrite E.
Qed.

Lemma section_others m sc au path es :
  Forall (λ nv, nv.1 ≠ HOST) es →
  Reference.hosts (section m sc au path es) = [] ∧
  Reference.others (section m sc au path es) = encode <$> es.
Proof.
  intros Hh. unfold Reference.hosts, Reference.others.
  rewrite (proj2 (section_parts m sc au path es)).
  assert (Forall (λ f, ¬ Reference.is_host f) (encode <$> es)).
  { apply Forall_fmap. eapply Forall_impl; [apply Hh|]. intros nv Hnv. simpl.
    by rewrite encode_host. }
  split; [by rewrite filter_none | by rewrite filter_all].
Qed.

Lemma decode_encode pol nv :
  Reference.carries pol (name_as_str nv.1) (value_as_bytes nv.2) = true →
  ∃ v, Reference.decode pol (encode nv) = Some (nv.1, v) ∧
    value_as_bytes v = value_as_bytes nv.2.
Proof.
  intros Hc. unfold Reference.decode, encode. simpl. rewrite name_round, Hc.
  destruct (value_round nv.2) as (v & -> & Ev). by exists v.
Qed.

(** Decoding gives back the names, and values with the same octets. *)
Lemma decode_encode_all pol es :
  Forall (λ nv, Reference.carries pol (name_as_str nv.1) (value_as_bytes nv.2) = true) es →
  encode <$> omap (Reference.decode pol) (encode <$> es) = encode <$> es.
Proof.
  induction 1 as [|nv es Hc _ IH]; [done|]. simpl.
  destruct (decode_encode pol nv Hc) as (v & -> & Ev). simpl. f_equal; [|apply IH].
  unfold encode. simpl. by rewrite Ev.
Qed.

Lemma values_encoded (l l' : list (HeaderName * HeaderValue)) n :
  encode <$> l = encode <$> l' →
  value_as_bytes <$> (snd <$> filter (λ nv, nv.1 = n) l) =
  value_as_bytes <$> (snd <$> filter (λ nv, nv.1 = n) l').
Proof.
  revert l'. induction l as [|[k v] l IH]; intros [|[k' v'] l']; try done.
  intros E. simpl in E. injection E as Ek Ev El. apply name_inj in Ek as ->.
  rewrite !filter_cons. simpl. case_decide; simpl; [f_equal; [done|]|]; by apply IH.
Qed.

(** What is expected of a head's way: method, scheme, authority and path as sent, and the
    octets of every field but [host], the values of one name in order. *)
Definition same_request (scheme authority : bytes) (sent got : HttpCrate.Request) : Prop :=
  method got = method sent ∧
  uri_scheme_str (uri got) = Some scheme ∧
  (authority_as_str <$> uri_authority (uri got)) = Some authority ∧
  (paq_as_str <$> uri_path_and_query (uri got)) = Some (H3Head.request_path sent) ∧
  ∀ n, value_as_bytes <$> values (headers got) n =
    if decide (n = HOST) then [] else value_as_bytes <$> values (headers sent) n.

Lemma section_reads pol m sc au path es a p :
  m ≠ CONNECT →
  (sc = ascii_bytes "http" ∨ sc = ascii_bytes "https") → Reference.supported pol sc = true →
  authority_try_from au = Some a → ¬ (Zb 0x40 ∈ authority_as_str a) →
  paq_try_from path = Some p → paq_path p ≠ ascii_bytes "*" →
  Forall (λ nv, nv.1 ≠ HOST ∧
    Reference.carries pol (name_as_str nv.1) (value_as_bytes nv.2) = true) es →
  (length es ≤ map_max_fields)%nat →
  ∃ r, Reference.reads pol (section (method_as_str m) sc au path es) r ∧
    method r = m ∧ uri_scheme_str (uri r) = Some sc ∧
    (authority_as_str <$> uri_authority (uri r)) = Some (authority_as_str a) ∧
    (paq_as_str <$> uri_path_and_query (uri r)) = Some (paq_as_str p) ∧
    ∀ n, value_as_bytes <$> values (headers r) n =
      value_as_bytes <$> (snd <$> filter (λ nv, nv.1 = n) es).
Proof.
  intros Hm Hsc Hsup Ha Hat Hp Hst Hes Hlen.
  apply Forall_and in Hes as [Hh Hc].
  destruct (section_parts (method_as_str m) sc au path es) as [Eps Ers].
  destruct (section_others (method_as_str m) sc au path es Hh) as [Eho Eot].
  destruct (uri_build_ok sc a p Hsc) as (u & Hu & Us & (a' & Ua & Ea) & p' & Up & Ep & _).
  set (got := omap (Reference.decode pol) (encode <$> es)).
  assert (Hgot : length got = length es).
  { rewrite <-(length_fmap encode got), <-(length_fmap encode es).
    unfold got. by rewrite decode_encode_all. }
  destruct (append_all_room got map_empty) as (hs & Hhs).
  { rewrite iter_empty, Hgot. simpl. lia. }
  exists (mkRequest m u hs). cbn [method uri headers]. rewrite Us, Ua, Up. split_and!; try done.
  - split.
    + split.
      * by rewrite Eps, Ers.
      * rewrite Eps. rewrite Forall_forall. intros f. rewrite !list.elem_of_cons, elem_of_nil.
        rewrite Reference.pseudo_names_spec. by intros [->|[->|[->|[->|[]]]]]; tauto.
      * rewrite Eps. by apply (bool_decide_eq_true_1 (NoDup _)); vm_compute.
      * rewrite Eot. apply Forall_fmap. eapply Forall_impl; [apply Hc|]. intros nv Hnv. simpl.
        destruct (decode_encode pol nv Hnv) as (v & E & _). by rewrite E.
    + exists (method_as_str m), a, path, p. unfold Reference.last_authority.
      rewrite !section_the by by vm_compute. rewrite Eho, Eot. split_and!; try done.
      apply method_round.
  - simpl. by rewrite Ea.
  - simpl. by rewrite Ep.
  - intros n. rewrite (append_all_values _ _ _ n Hhs). unfold values at 1.
    rewrite iter_empty. simpl. apply values_encoded. by apply decode_encode_all.
Qed.
End Survives.

Section RoundTrips.
Context `{Boxes : BoxedErrors} `{Laws : HttpLaws}.

(** The fields of a map that travel beside the pseudo-headers. *)
Definition travelling (m : HeaderMap) : list (HeaderName * HeaderValue) :=
  filter (λ nv, nv.1 ≠ HOST) (map_iter m).

Lemma h3_regular_ok es fs :
  H3Head.request_regular es = Ok fs →
  fs = encode <$> filter (λ nv, nv.1 ≠ HOST) es ∧
  Forall (λ nv, nv.1 ≠ HOST ∧ Reference.carries Reference.h3_policy
    (name_as_str nv.1) (value_as_bytes nv.2) = true) (filter (λ nv, nv.1 ≠ HOST) es).
Proof.
  revert fs. induction es as [|[n v] es IH]; intros fs.
  { intros [= <-]. by split; constructor. }
  cbn [H3Head.request_regular]. rewrite filter_cons. cbn [fst].
  destruct (decide (name_as_str n = ascii_bytes "host")) as [En|En].
  { apply name_is_host in En. rewrite (decide_False (P := n ≠ HOST)) by tauto. apply IH. }
  rewrite name_is_host in En. rewrite (decide_True (P := n ≠ HOST)) by done.
  assert (Hc : ∀ e : H3HttpError.Error, Reference.carries Reference.h3_policy (name_as_str n) (value_as_bytes v) = true ∨
    (if decide (name_as_str n = ascii_bytes "te") then
       if H3Head.te_is_permitted (value_as_bytes v) then Ok ()
       else Err (H3Head.protocol "HTTP/3 permits `te` only with the value `trailers`")
     else if decide (name_as_str n ∈ H3Head.FORBIDDEN) then
       Err (H3Head.protocol "this field is connection-specific and HTTP/3 forbids it")
     else Ok ()) ≠ Ok ()).
  { intros _. unfold Reference.carries, Reference.h3_policy.
    change Reference.only_trailers with H3Head.te_is_permitted.
    change Reference.connection_specific with H3Head.FORBIDDEN. case_decide.
    - by destruct (H3Head.te_is_permitted _); auto.
    - case_decide; [by right | left; by rewrite bool_decide_true]. }
  destruct (if decide (name_as_str n = ascii_bytes "te") then _ else _) as [[]|e]; [|done].
  destruct (Hc (H3Head.protocol "")) as [Hc'|]; [|done].
  destruct (H3Head.request_regular es) as [rest|e]; [|done]. intros [= <-].
  destruct (IH rest eq_refl) as [-> Hf]. split; [done|]. by constructor.
Qed.

Lemma h2_regular_ok es fs :
  H2Head.request_regular es = Ok fs →
  fs = encode <$> filter (λ nv, nv.1 ≠ HOST) es.
Proof.
  revert fs. induction es as [|[n v] es IH]; intros fs; [by intros [= <-]|].
  cbn [H2Head.request_regular]. rewrite filter_cons. cbn [fst].
  destruct (decide (name_as_str n = ascii_bytes "host")) as [En|En].
  { apply name_is_host in En. rewrite (decide_False (P := n ≠ HOST)) by tauto. apply IH. }
  rewrite name_is_host in En. rewrite (decide_True (P := n ≠ HOST)) by done.
  case_decide; [done|].
  destruct (H2Head.request_regular es) as [rest|e]; [|done]. intros [= <-].
  by rewrite (IH rest eq_refl).
Qed.

Lemma travelling_values m n :
  value_as_bytes <$> (snd <$> filter (λ nv, nv.1 = n) (travelling m)) =
  if decide (n = HOST) then [] else value_as_bytes <$> values m n.
Proof.
  unfold travelling, values. rewrite list_filter_filter. case_decide as Hn.
  - rewrite filter_none; [done|]. apply Forall_forall. intros nv _ [-> ?]. done.
  - do 2 f_equal. apply list_filter_iff. intros nv. split; [tauto | intros ?; split; congruence].
Qed.

Lemma travelling_length m : (length (travelling m) ≤ length (map_iter m))%nat.
Proof. apply length_filter. Qed.

(** What the decoders want of an authority and a path that were encoded. *)
Definition decodable (parts : HttpCrate.Request) : Prop :=
  (∀ au, H3Head.request_authority parts = Some au →
    ∃ a, authority_try_from au = Some a ∧ ¬ (Zb 0x40 ∈ au)) ∧
  (∀ p, uri_path_and_query (uri parts) = Some p → paq_path p ≠ ascii_bytes "*") ∧
  (length (map_iter (headers parts)) ≤ map_max_fields)%nat.

Lemma path_parses parts :
  decodable parts →
  ∃ p, paq_try_from (H3Head.request_path parts) = Some p ∧
    paq_as_str p = H3Head.request_path parts ∧ paq_path p ≠ ascii_bytes "*".
Proof.
  intros (_ & Hp & _). unfold H3Head.request_path.
  destruct (uri_path_and_query (uri parts)) as [p|].
  - destruct (paq_round p) as (p' & E & Es & Ep). exists p'. split_and!; [done..|].
    rewrite Ep. by apply Hp.
  - destruct paq_slash as (p & E & Es & Ep). exists p. split_and!; [done..|]. by rewrite Ep.
Qed.

(** Whatever is sent as a section of these fields decodes to the request it was made of. *)
Lemma sent_reads pol parts sc au :
  method parts ≠ CONNECT →
  (sc = ascii_bytes "http" ∨ sc = ascii_bytes "https") → Reference.supported pol sc = true →
  H3Head.request_authority parts = Some au → decodable parts →
  Forall (λ nv, nv.1 ≠ HOST ∧ Reference.carries pol
    (name_as_str nv.1) (value_as_bytes nv.2) = true) (travelling (headers parts)) →
  ∃ r, Reference.reads pol
      (section (method_as_str (method parts)) sc au (H3Head.request_path parts)
         (travelling (headers parts))) r ∧ same_request sc au parts r.
Proof.
  intros Hm Hsc Hsup Hau Hdec Hf. destruct (path_parses _ Hdec) as (p & Hp & Eps & Hst).
  destruct Hdec as (Ha & _ & Hlen). destruct (Ha au Hau) as (a & Ea & Hat).
  pose proof (authority_sound _ _ Ea) as Es.
  destruct (section_reads pol (method parts) sc au (H3Head.request_path parts)
    (travelling (headers parts)) a p) as (r & Hs & Hm' & Hsc' & Hau' & Hp' & Hv); try done.
  { by rewrite Es. }
  { etrans; [apply travelling_length | done]. }
  exists r. split; [done|]. rewrite Es in Hau'. rewrite Eps in Hp'.
  split_and!; try done. intros n. rewrite Hv. apply travelling_values.
Qed.

(** C20. A request head that HTTP/3 encodes decodes to the same request: method, authority,
    path, the scheme or its default, and every field but [host], the values of one name in
    order.  Asked of the head: its authority parses and names no user, its path is not the
    asterisk, and it has no more fields than a header map holds. *)
Theorem request_survives parts fs au :
  H3Head.request_fields parts = Ok fs →
  H3Head.request_authority parts = Some au → decodable parts →
  ∃ r, H3Head.request_head fs = Ok r ∧ same_request (H3Head.request_scheme parts) au parts r.
Proof.
  unfold H3Head.request_fields. intros E Hau Hdec. case_decide as Hm; [done|].
  destruct (H3Head.scheme_is_supported (H3Head.request_scheme parts)) eqn:Hsc; [|done].
  rewrite Hau in E. cbn [negb] in E.
  destruct (H3Head.request_regular (map_iter (headers parts))) as [rest|e] eqn:Er; [|done].
  apply h3_regular_ok in Er as [-> Hf].
  case_match; [|done]. injection E as <-.
  destruct (sent_reads Reference.h3_policy parts (H3Head.request_scheme parts) au)
    as (r & Hs & Hr); try done.
  { unfold H3Head.scheme_is_supported in Hsc.
    apply orb_true_iff in Hsc as [Hsc|Hsc]; apply bool_decide_eq_true in Hsc; tauto. }
  exists r. split; [|done]. by apply h3_reads.
Qed.

(** HTTP/2 decodes what it encodes, when the scheme is the one it decodes. *)
Lemma h2_request_survives parts fs au :
  H2Head.request_headers parts = Ok fs →
  H2Head.request_authority parts = Some au → decodable parts →
  default (ascii_bytes "http") (uri_scheme_str (uri parts)) = ascii_bytes "http" →
  ∃ r, H2Head.request_head fs = Ok r ∧ same_request (ascii_bytes "http") au parts r.
Proof.
  unfold H2Head.request_headers. intros E Hau Hdec Hsc. case_decide as Hm; [done|].
  rewrite Hau, Hsc in E.
  destruct (H2Head.request_regular (map_iter (headers parts))) as [rest|e] eqn:Er; [|done].
  apply h2_regular_ok in Er as ->.
  destruct (H2Head.validated _ _); [|done]. injection E as <-.
  destruct (sent_reads Reference.h2_policy parts (ascii_bytes "http") au) as (r & Hs & Hr); try done.
  { by left. }
  { apply Forall_forall. intros nv Hnv. split; [|done].
    apply list_elem_of_filter in Hnv. tauto. }
  exists r. split; [|done]. by apply h2_reads.
Qed.
End RoundTrips.

Section Responses.
Context `{Boxes : BoxedErrors} `{Laws : HttpLaws}.

(** What travels of a field whose value's octets parse again. *)
Definition reparsed (es got : list (HeaderName * HeaderValue)) : Prop :=
  encode <$> got = encode <$> es.

Lemma encode_not_pseudo n : H3Head.is_pseudo (name_as_str n) = false.
Proof. apply bool_decide_eq_false, name_no_colon. Qed.

Lemma response_regular_ok (es : list (HeaderName * HeaderValue)) fs :
  H3Head.response_regular es = Ok fs →
  fs = encode <$> es ∧
  Forall (λ nv, name_as_str nv.1 ≠ ascii_bytes "te" ∧ name_as_str nv.1 ∉ H3Head.FORBIDDEN) es.
Proof.
  revert fs. induction es as [|[n v] es IH]; intros fs; cbn [H3Head.response_regular].
  { intros [= <-]. by split. }
  case_decide as Ht; [done|]. case_decide as Hf; [done|].
  destruct (H3Head.response_regular es) as [rest|e]; [|done]. intros [= <-].
  destruct (IH rest eq_refl) as [-> Hr]. split; [done|]. by constructor.
Qed.

Lemma response_scan_encoded (es : list (HeaderName * HeaderValue)) : ∀ b st,
  Forall (λ nv, name_as_str nv.1 ≠ ascii_bytes "te" ∧ name_as_str nv.1 ∉ H3Head.FORBIDDEN) es →
  ∃ got, reparsed es got ∧
    H3Head.response_scan (b, Some st) (encode <$> es) = Ok (append_all b got, Some st).
Proof.
  induction es as [|[n v] es IH]; intros b st Hf.
  { by exists []. }
  apply Forall_cons in Hf as [[Ht Hn] Hf]. simpl in Ht, Hn.
  destruct (value_round v) as (v' & Ev & Eb).
  destruct (IH (H3Head.builder_header b n v') st Hf) as (got & Hg & Es).
  exists ((n, v') :: got). split.
  { unfold reparsed in *. cbn. unfold encode at 1 3. cbn. rewrite Eb. by f_equal. }
  rewrite fmap_cons. cbn [H3Head.response_scan]. unfold H3Head.response_field at 1, encode at 1.
  cbn [fst snd]. rewrite encode_not_pseudo, name_round. cbn [H3Head.ok_or].
  rewrite decide_False by done. rewrite decide_False by done. rewrite Ev. cbn [H3Head.ok_or].
  by destruct b.
Qed.

Lemma trailer_regular_ok (es : list (HeaderName * HeaderValue)) fs :
  H3Head.trailer_regular es = Ok fs →
  fs = encode <$> es ∧ Forall (λ nv, name_as_str nv.1 ∉ H3Head.FORBIDDEN) es.
Proof.
  revert fs. induction es as [|[n v] es IH]; intros fs; cbn [H3Head.trailer_regular].
  { intros [= <-]. by split. }
  case_decide as Hf; [done|].
  destruct (H3Head.trailer_regular es) as [rest|e]; [|done]. intros [= <-].
  destruct (IH rest eq_refl) as [-> Hr]. split; [done|]. by constructor.
Qed.

Lemma trailers_loop_encoded (es : list (HeaderName * HeaderValue)) : ∀ m,
  Forall (λ nv, name_as_str nv.1 ∉ H3Head.FORBIDDEN) es →
  ∃ got, reparsed es got ∧
    H3Head.trailers_loop m (encode <$> es) =
      let! m := append_all (Some m) got in Some (Ok m).
Proof.
  induction es as [|[n v] es IH]; intros m Hf.
  { by exists []. }
  apply Forall_cons in Hf as [Hn Hf]. simpl in Hn.
  destruct (value_round v) as (v' & Ev & Eb).
  rewrite fmap_cons. cbn [H3Head.trailers_loop]. unfold encode at 1. cbn [fst snd].
  rewrite encode_not_pseudo, name_round. rewrite decide_False by done. rewrite Ev.
  destruct (map_try_append m n v') as [m1|] eqn:Em.
  - destruct (IH m1 Hf) as (got & Hg & ->). exists ((n, v') :: got). split.
    + unfold reparsed in *. cbn. unfold encode at 1 3. cbn. rewrite Eb. by f_equal.
    + by rewrite append_all_cons, Em.
  - exists ((n, v') :: es). split.
    + unfold reparsed. cbn. unfold encode at 1 3. cbn. by rewrite Eb.
    + by rewrite append_all_cons, Em, append_all_None.
Qed.

Lemma reparsed_length es got : reparsed es got → length got = length es.
Proof. intros E. by rewrite <-(length_fmap encode got), E, length_fmap. Qed.

(** A map that receives what another sent has the same values. *)
Lemma reparsed_map m0 (es got : list (HeaderName * HeaderValue)) :
  map_iter m0 = [] → reparsed es got → (length es ≤ map_max_fields)%nat →
  ∃ m, append_all (Some m0) got = Some m ∧
    ∀ n, value_as_bytes <$> values m n = value_as_bytes <$> (snd <$> filter (λ nv, nv.1 = n) es).
Proof.
  intros E0 Hg Hlen. destruct (append_all_room got m0) as (m' & Em).
  { rewrite E0, (reparsed_length es got Hg). simpl. lia. }
  exists m'. split; [done|]. intros n. rewrite (append_all_values _ _ _ n Em).
  unfold values at 1. rewrite E0. simpl. by apply values_encoded.
Qed.

(** What HTTP/3 encodes of a response or of trailers decodes to the same status and the
    same fields, the values of one name in order, when there are no more of them than a header
    map holds; a section of trailers that fits does not make the decoder panic. *)
Theorem response_survives parts trailers :
  (length (map_iter (resp_headers parts)) ≤ map_max_fields)%nat →
  (length (map_iter trailers) ≤ map_max_fields)%nat →
  (∀ fs, H3Head.response_fields parts = Ok fs →
    ∃ r, H3Head.response_head fs = Ok r ∧ status r = status parts ∧
      ∀ n, value_as_bytes <$> values (resp_headers r) n =
           value_as_bytes <$> values (resp_headers parts) n) ∧
  (∀ fs, H3Head.trailer_fields trailers = Ok fs →
    ∃ m, H3Head.trailers fs = Some (Ok m) ∧
      ∀ n, value_as_bytes <$> values m n = value_as_bytes <$> values trailers n).
Proof.
  intros Hl Hl'. split.
  - intros fs. unfold H3Head.response_fields.
    destruct (H3Head.response_regular (map_iter (resp_headers parts))) as [rest|e] eqn:Er; [|done].
    apply response_regular_ok in Er as [-> Hf]. case_match; [|done]. intros [= <-].
    destruct (response_scan_encoded _ (Some map_empty) (status parts) Hf) as (got & Hg & Es).
    destruct (reparsed_map map_empty _ _ iter_empty Hg Hl) as (m & Em & Hv).
    exists (mkResponse (status parts) m). split; [|done].
    unfold H3Head.response_head. cbn [H3Head.response_scan]. unfold H3Head.response_field at 1.
    change (H3Head.is_pseudo (ascii_bytes ":status")) with true. cbn match.
    rewrite decide_False by tauto. rewrite decide_False by tauto.
    rewrite status_round. cbn [H3Head.ok_or]. by rewrite Es, Em.
  - intros fs. unfold H3Head.trailer_fields.
    destruct (H3Head.trailer_regular (map_iter trailers)) as [rest|e] eqn:Er; [|done].
    apply trailer_regular_ok in Er as [-> Hf]. case_match; [|done]. intros [= <-].
    unfold H3Head.trailers. rewrite length_fmap.
    destruct (map_with_capacity (length (map_iter trailers))) as [m0|] eqn:E0.
    2: { by destruct (capacity_room _ Hl'). }
    destruct (trailers_loop_encoded _ m0 Hf) as (got & Hg & ->).
    destruct (reparsed_map m0 _ _ (iter_with_capacity _ _ E0) Hg Hl') as (m & Em & Hv).
    rewrite Em. by exists m.
Qed.
End Responses.

Lemma NoDup_fmap_fst_inj {A B} (l : list (A * B)) a b c :
  NoDup l.*1 → (a, b) ∈ l → (a, c) ∈ l → b = c.
Proof.
  induction l as [|[k v] l IH]; simpl; [intros _ Hb; by apply elem_of_nil in Hb|].
  intros [Hk Hn]%list.NoDup_cons [Hb|Hb]%list.elem_of_cons [Hc|Hc]%list.elem_of_cons;
    simplify_eq; try done.
  - by destruct Hk; apply (list_elem_of_fmap_2 fst) in Hc.
  - by destruct Hk; apply (list_elem_of_fmap_2 fst) in Hb.
  - by apply IH.
Qed.


(** A pseudo-header that comes once is the one that is there. *)
Lemma the_once name fs x :
  NoDup (Reference.pseudos fs).*1 → head name = Some (Zb 0x3a) → (name, x) ∈ fs →
  Reference.the name fs = Some x.
Proof.
  intros Hn Hname Hx. unfold Reference.the.
  assert (∀ y, (name, y) ∈ fs → y = x) as Huniq.
  { intros y Hy. eapply (NoDup_fmap_fst_inj (Reference.pseudos fs)); [done|..];
      apply list_elem_of_filter; eauto. }
  assert (∀ f, f ∈ filter (λ f, f.1 = name) fs → f.2 = x) as Hall.
  { intros [n y] [? Hf]%list_elem_of_filter. simpl in *. subst. by apply Huniq. }
  assert ((name, x) ∈ filter (λ f, f.1 = name) fs) as Hin by (by apply list_elem_of_filter).
  destruct (filter _ fs) as [|f l]; [by apply elem_of_nil in Hin|].
  simpl. f_equal. apply Hall. constructor.
Qed.


Section Delivered.
Context `{Boxes : BoxedErrors} `{Laws : HttpLaws}.

Lemma decode_carried pol f n v :
  Reference.decode pol f = Some (n, v) →
  Reference.carries pol (name_as_str n) (value_as_bytes v) = true ∧
  name_as_str n = to_ascii_lowercase <$> f.1.
Proof.
  unfold Reference.decode. destruct (name_from_bytes f.1) as [n'|] eqn:En; [|done].
  destruct (value_from_bytes f.2) as [v'|] eqn:Ev; [|done].
  destruct (Reference.carries pol (name_as_str n') f.2) eqn:Ec; [|done]. intros [= -> ->].
  rewrite (value_sound _ _ Ev). split; [done|]. by apply name_lowercased.
Qed.

Lemma others_not_host f fs n v pol :
  f ∈ Reference.others fs → Reference.decode pol f = Some (n, v) → n ≠ HOST.
Proof.
  intros Hf Hd ->. apply list_elem_of_filter in Hf as [Hh _]. apply Hh.
  apply decode_carried in Hd as [_ E]. rewrite host_name in E.
  unfold Reference.is_host, eq_ignore_ascii_case. rewrite <-E. by vm_compute.
Qed.

(** C21. No request HTTP/3 delivers carries a [host] field, a connection-specific field, or a
    [te] field that asks for more than trailers; the authority it names is free of userinfo,
    and is the section's [:authority] whenever there is one. *)
Theorem no_smuggling fs r :
  H3Head.request_head fs = Ok r →
  (∀ n v, (n, v) ∈ map_iter (headers r) →
    n ≠ HOST ∧ ¬ (name_as_str n ∈ Reference.connection_specific) ∧
    (name_as_str n = ascii_bytes "te" → Reference.only_trailers (value_as_bytes v) = true)) ∧
  ∃ a, uri_authority (uri r) = Some a ∧ ¬ (Zb 0x40 ∈ authority_as_str a) ∧
    ∀ x, (ascii_bytes ":authority", x) ∈ fs → authority_as_str a = x.
Proof.
  intros [W (m & a & path & p & Hm & Hm' & Hc & Ha & Hat & _ & Hp & _ & Hsup & Hu & Hb)]%h3_reads.
  split.
  - intros n v Hnv. rewrite (append_all_iter _ _ _ Hb), iter_empty in Hnv. simpl in Hnv.
    apply list_elem_of_omap in Hnv as (f & Hf & Hd).
    split; [by eapply others_not_host|].
    apply decode_carried in Hd as [Hcar _]. unfold Reference.carries in Hcar. simpl in Hcar.
    destruct (decide (name_as_str n = ascii_bytes "te")) as [E|E].
    + split; [|done]. rewrite E. by apply (bool_decide_eq_true_1 (_ ∉ _)); vm_compute.
    + apply bool_decide_eq_true in Hcar. by split.
  - assert (Hs : default (Reference.default_scheme Reference.h3_policy)
                   (Reference.the (ascii_bytes ":scheme") fs) = ascii_bytes "http" ∨
                 default (Reference.default_scheme Reference.h3_policy)
                   (Reference.the (ascii_bytes ":scheme") fs) = ascii_bytes "https").
    { apply orb_true_iff in Hsup as [Hs|Hs]; apply bool_decide_eq_true in Hs; tauto. }
    destruct (uri_build_ok _ a p Hs) as (u & Hu' & _ & (a' & Hua & Ea) & _).
    rewrite Hu in Hu'. injection Hu' as <-. exists a'. rewrite Ea. split_and!; [done..|].
    intros x Hx. assert (Ht : Reference.the (ascii_bytes ":authority") fs = Some x).
    { apply the_once; [by eapply Reference.wf_once|by vm_compute|done]. }
    unfold Reference.last_authority, Reference.settle in Ha. rewrite Ht in Ha.
    assert (authority_try_from x = Some a) as Hx'.
    { destruct (last (Reference.hosts fs)); [case_decide; [done|done]|done]. }
    by apply authority_sound.
Qed.
End Delivered.

(** ** At concrete heads *)
Module HeadToy.
Import HttpToy.

#[export] Instance toy_boxes : BoxedErrors := { BoxedError := unit }.

(** Octets that pass their check by computation. *)
Abbreviation lit P s := (exist _ (ascii_bytes s) (eq_refl true) : checked P).

Definition GET : Method := lit method_ok "GET".
Definition example_test : Authority := lit authority_ok "example.test".
Definition things : PathAndQuery := lit paq_ok "/things?q=1".
Definition accept : HeaderName := lit name_ok "accept".
Definition plain : HeaderValue := lit value_ok "text/plain".
Definition named : HeaderValue := lit value_ok "example.test".
Definition ok_status : StatusCode := lit status_ok "200".

(** A request with a [host] field beside its URI. *)
Definition request : HttpCrate.Request :=
  mkRequest GET (mkUri (ascii_bytes "http") (Some example_test) (Some things))
    [(HOST, named); (accept, plain)].

Definition sent : list (bytes * bytes) :=
  [(ascii_bytes ":method", ascii_bytes "GET"); (ascii_bytes ":scheme", ascii_bytes "http");
   (ascii_bytes ":authority", ascii_bytes "example.test");
   (ascii_bytes ":path", ascii_bytes "/things?q=1");
   (ascii_bytes "accept", ascii_bytes "text/plain")].

(** The same with the [host] field an HTTP/1.1 proxy leaves. *)
Definition received : list (bytes * bytes) :=
  sent ++ [(ascii_bytes "Host", ascii_bytes "example.test")].

Definition delivered : HttpCrate.Request :=
  mkRequest GET (mkUri (ascii_bytes "http") (Some example_test) (Some things)) [(accept, plain)].

Lemma sent_ok : H3Head.request_fields request = Ok sent.
Proof. vm_compute. reflexivity. Qed.

Lemma received_ok : H3Head.request_head received = Ok delivered.
Proof. vm_cast_no_check (eq_refl (@Ok HttpCrate.Request H3HttpError.Error delivered)). Qed.

(** A section whose first [host] field contradicts its [:authority]: the second hides it. *)
Definition contradicted : list (bytes * bytes) :=
  sent ++ [(ascii_bytes "host", ascii_bytes "evil.test");
           (ascii_bytes "host", ascii_bytes "example.test")].

Example earlier_host_overlooked :
  H3Head.request_head contradicted = Ok delivered ∧
  H2Head.request_head contradicted = Ok delivered ∧
  ∀ r, ¬ Reference.says Reference.h3_policy contradicted r ∧
       ¬ Reference.says Reference.h2_policy contradicted r.
Proof.
  split; [vm_cast_no_check (eq_refl (@Ok HttpCrate.Request H3HttpError.Error delivered))|].
  split; [vm_cast_no_check (eq_refl (@Ok HttpCrate.Request H2HttpError.Error delivered))|].
  assert (Hc : ¬ Reference.consistent contradicted)
    by (apply (@bool_decide_eq_false_1 _ (Reference.consistent_dec contradicted)); vm_compute; reflexivity).
  intros r. unfold Reference.says.
  rewrite !(Reference.inconsistent_authority _ contradicted Hc).
  split; by intros (_ & m & a & path & p & _ & _ & _ & Ha & _).
Qed.

Lemma decodable_request : decodable request.
Proof.
  split_and!.
  - intros au [= <-]. exists example_test. split; [apply (check_round authority_ok example_test)|].
    apply (bool_decide_eq_false_1 (_ ∈ _)). vm_compute. reflexivity.
  - intros p [= <-]. apply (bool_decide_eq_true_1 (_ ≠ _)). vm_compute. reflexivity.
  - by apply Nat.leb_le; vm_compute.
Qed.

Lemma decoders_agree_witness :
  H3Head.request_head received = Ok delivered ↔ H2Head.request_head received = Ok delivered.
Proof.
  apply decoders_agree.
  - by vm_compute.
  - by vm_compute.
  - intros f n Hf. apply list.elem_of_cons in Hf as [->|Hf].
    + intros [= <-]. by vm_compute.
    + by apply elem_of_nil in Hf.
Defined.

Lemma request_survives_witness :
  ∃ r, H3Head.request_head sent = Ok r ∧
    same_request (H3Head.request_scheme request) (ascii_bytes "example.test") request r.
Proof. apply request_survives; [apply sent_ok | by vm_compute | apply decodable_request]. Defined.

Definition response : HttpCrate.Response := mkResponse ok_status [(accept, plain)].

Lemma response_survives_witness :
  ∃ r, H3Head.response_head
         [(ascii_bytes ":status", ascii_bytes "200");
          (ascii_bytes "accept", ascii_bytes "text/plain")] = Ok r ∧
    status r = ok_status ∧
    ∀ n, value_as_bytes <$> values (resp_headers r) n =
         value_as_bytes <$> values [(accept, plain)] n.
Proof.
  apply (response_survives response [(accept, plain)]);
    [by apply Nat.leb_le; vm_compute .. | by vm_compute].
Defined.

Lemma no_smuggling_witness :
  Forall (λ f, f.1 ≠ HOST) (map_iter (headers delivered)).
Proof.
  apply Forall_forall. intros [n v] Hnv.
  exact (proj1 (proj1 (no_smuggling received delivered received_ok) n v Hnv)).
Defined.
End HeadToy.
