(* ===== verification/H3Shared.v ===== *)
(** * What an HTTP/3 connection's handles and its driver share
      (crates/ngnet-h3/src/http/{events,shared,tasks}.rs, body/, and the handles of client.rs
      and server.rs)

    The driver owns the connection; a request's future, a body and a handle reach it through
    cells they share with it.  Cells are shared by reference, so they live at addresses in a
    [World], with the queues of work, the registry of exchanges and the log of the wakers
    woken.  Every method holds its lock throughout, so each is one step; a call of
    [send_request] is several, and is found in [sends] between them.  A poisoned lock is
    recovered from, so locking cannot fail.  That a chunk shares memory with the datagram
    it came in ([view_of]) is not modelled: only its octets are. *)

From Stdlib Require Import ZArith Lia Strings.Byte.
From stdpp Require Import base list gmap strings sorting.
From S2P Require Import Prelude HttpCrate QmuxScheduling H3Types H3Head.

(** ** events.rs *)

Inductive Observation :=
| Head (stream : StreamId) (section : FieldSection) (fields : Fields)
| Data (stream : StreamId) (bs : bytes)
| End (stream : StreamId)
| Closed (stream : StreamId) (closed : StreamClosed)
| ShutdownSeen (shutdown : Shutdown)
| SettingsSeen (settings : PeerSettings).

Record Partial := mkPartial { p_section : option FieldSection; p_fields : Fields }.

Record Events := mkEvents {
  partial : list (StreamId * Partial);
  observed : list Observation;
  inbound : option bytes
}.

Module EventsOps.

Definition default : Events := mkEvents [] [] None.

Definition set_inbound (bs : option bytes) (e : Events) : Events :=
  mkEvents (partial e) (observed e) bs.

(** [self.partial.iter().position(..)]. *)
Definition position (stream : StreamId) (e : Events) : option nat :=
  fst <$> list_find (λ p, p.1 = stream) (partial e).

(** [slot]: the stream's entry, made if there is none, changed by [f]. *)
Definition slot (stream : StreamId) (f : Partial → Partial) (e : Events) : Events :=
  match position stream e with
  | Some i => mkEvents (alter (λ p, (p.1, f p.2)) i (partial e)) (observed e) (inbound e)
  | None =>
      mkEvents (partial e ++ [(stream, f (mkPartial None []))]) (observed e) (inbound e)
  end.

Definition begin_section (stream : StreamId) (section : FieldSection) : Events → Events :=
  slot stream (λ _, mkPartial (Some section) []).

Definition push_field (stream : StreamId) (name value : bytes) : Events → Events :=
  slot stream (λ p, mkPartial (p_section p) (p_fields p ++ [(name, value)])).

Definition push (o : Observation) (e : Events) : Events :=
  mkEvents (partial e) (observed e ++ [o]) (inbound e).

Definition end_section (stream : StreamId) (section : FieldSection) (e : Events) : Events :=
  match position stream e with
  | None => e
  | Some i =>
      match partial e !! i with
      | None => e
      | Some (_, p) =>
          push (Head stream section (p_fields p))
            (mkEvents (delete i (partial e)) (observed e) (inbound e))
      end
  end.

(** A view of the buffer lent, or a copy: the same octets. *)
Definition push_data (stream : StreamId) (chunk : bytes) : Events → Events :=
  push (Data stream chunk).
Definition push_end (stream : StreamId) : Events → Events := push (End stream).

Definition push_closed (stream : StreamId) (closed : StreamClosed) (e : Events) : Events :=
  push (Closed stream closed)
    (mkEvents (filter (λ p, p.1 ≠ stream) (partial e)) (observed e) (inbound e)).

Definition is_closed_of (stream : StreamId) (o : Observation) : Prop :=
  match o with Closed s _ => s = stream | _ => False end.

#[export] Instance is_closed_of_dec stream o : Decision (is_closed_of stream o).
Proof. destruct o; simpl; apply _. Defined.

(** The loop removes them one by one. *)
Definition discard_closed_since (checkpoint : nat) (stream : StreamId) (e : Events) : Events :=
  mkEvents (partial e)
    (take checkpoint (observed e) ++
     filter (λ o, ¬ is_closed_of stream o) (drop checkpoint (observed e)))
    (inbound e).

Definition push_shutdown (s : Shutdown) : Events → Events := push (ShutdownSeen s).
Definition push_settings (s : PeerSettings) : Events → Events := push (SettingsSeen s).

Definition drain (e : Events) : Events * list Observation :=
  (mkEvents (partial e) [] (inbound e), observed e).

Definition is_empty (e : Events) : bool := bool_decide (observed e = []).
End EventsOps.

(** ** shared.rs *)

Inductive TransportAction :=
| ResetAction (stream : StreamId) (code : Z)
| StopSendingAction (stream : StreamId) (code : Z).

Record SharedWork := mkWork {
  w_ready : list StreamId;
  w_resets : list (StreamId * Z);
  w_credit : list (StreamId * Z);
  w_actions : list TransportAction;
  w_shutdown : bool
}.
Definition work_new : SharedWork := mkWork [] [] [] [] false.

Definition UNBOUND : Z := -1.

Section Cells.
Context `{Wakers} `{Crate : Http} `{Boxes : BoxedErrors} {B : Type}.

(** [SlotState] and the stream beside it. *)
Record Slot := mkSlot {
  outcome : option (result Response H3HttpError.Error);
  s_waker : option Waker;
  settled : bool;
  s_stream : Z
}.

(** [IncomingState]. *)
Record Incoming := mkIncoming {
  chunks : list bytes;
  i_trailers : option HeaderMap;
  finished : bool;
  failure : option H3HttpError.Error;
  i_waker : option Waker;
  abandoned : bool
}.

Inductive Received :=
| RData (chunk : bytes)
| RTrailers (m : HeaderMap)
| RFinished
| RFailed (e : H3HttpError.Error)
| RNothing.

(** body/outgoing.rs *)
Inductive Ending := Clean | EndTrailers (m : HeaderMap) | EndFailed.

(** Cells are named by their address. *)
Record Entry := mkEntry { e_slot : option nat; e_incoming : nat }.

Record Command := mkCommand {
  c_request : Request;
  c_body : B;
  c_slot : nat;
  c_incoming : nat
}.

(** A call of [send_request] that found the connection up: about to look whether it refuses
    requests, about to push its command, or about to wake the driver. *)
Inductive SendAt :=
| SendAdmitting (c : Command)
| SendPushing (c : Command)
| SendWaking.

(** server.rs, [CancelState]. *)
Record CancelState := mkCancel { cancelled : bool; cancel_waker : option Waker }.

(** [Shared] with its [Inner]. *)
Record Shared := mkShared {
  driver : option Waker;
  ready : list StreamId;
  resets : list (StreamId * Z);
  credit : gmap Z Z;
  shutdown_wanted : bool;
  actions : list TransportAction;
  gone : bool;
  refusing : bool
}.

Record World := mkWorld {
  shared : Shared;
  slots : gmap nat Slot;
  incomings : gmap nat Incoming;
  endings : gmap nat (option Ending);
  cancels : gmap nat CancelState;
  next_address : nat;
  entries : gmap Z Entry;
  queue : list Command;
  (** The calls of [send_request] under way. *)
  sends : list SendAt;
  (** How many handles are alive. *)
  handles : nat;
  (** tasks.rs, [Ready]: the streams whose handlers want a poll; and the handlers a waker may
      still speak for. *)
  handlers_woken : list StreamId;
  alive : gmap nat StreamId;
  woken : list Waker
}.

Definition slot_new : Slot := mkSlot None None false UNBOUND.
Definition incoming_new : Incoming := mkIncoming [] None false None None false.
Definition cancel_new : CancelState := mkCancel false None.
Definition shared_new : Shared := mkShared None [] [] ∅ false [] false false.
Definition world_new : World := mkWorld shared_new ∅ ∅ ∅ ∅ 0 ∅ [] [] 1 [] ∅ [].
End Cells.
Arguments Command {_} B.
Arguments SendAt {_} B.
Arguments World {_ _ _} B.

(** *** Updates of a field *)
Module Fields.
Section Fields.
Context `{Wakers} `{Crate : Http} `{Boxes : BoxedErrors} {B : Type}.
Implicit Types (s : Shared) (w : World B).

Definition set_driver v s := mkShared v (ready s) (resets s) (credit s) (shutdown_wanted s)
  (actions s) (gone s) (refusing s).
Definition set_ready v s := mkShared (driver s) v (resets s) (credit s) (shutdown_wanted s)
  (actions s) (gone s) (refusing s).
Definition set_resets v s := mkShared (driver s) (ready s) v (credit s) (shutdown_wanted s)
  (actions s) (gone s) (refusing s).
Definition set_credit v s := mkShared (driver s) (ready s) (resets s) v (shutdown_wanted s)
  (actions s) (gone s) (refusing s).
Definition set_shutdown_wanted v s := mkShared (driver s) (ready s) (resets s) (credit s) v
  (actions s) (gone s) (refusing s).
Definition set_actions v s := mkShared (driver s) (ready s) (resets s) (credit s)
  (shutdown_wanted s) v (gone s) (refusing s).
Definition set_gone v s := mkShared (driver s) (ready s) (resets s) (credit s)
  (shutdown_wanted s) (actions s) v (refusing s).
Definition set_refusing v s := mkShared (driver s) (ready s) (resets s) (credit s)
  (shutdown_wanted s) (actions s) (gone s) v.

Definition set_shared v w : World B := mkWorld v (slots w) (incomings w) (endings w) (cancels w)
  (next_address w) (entries w) (queue w) (sends w) (handles w) (handlers_woken w) (alive w) (woken w).
Definition set_slots v w : World B := mkWorld (shared w) v (incomings w) (endings w) (cancels w)
  (next_address w) (entries w) (queue w) (sends w) (handles w) (handlers_woken w) (alive w) (woken w).
Definition set_incomings v w : World B := mkWorld (shared w) (slots w) v (endings w) (cancels w)
  (next_address w) (entries w) (queue w) (sends w) (handles w) (handlers_woken w) (alive w) (woken w).
Definition set_endings v w : World B := mkWorld (shared w) (slots w) (incomings w) v (cancels w)
  (next_address w) (entries w) (queue w) (sends w) (handles w) (handlers_woken w) (alive w) (woken w).
Definition set_cancels v w : World B := mkWorld (shared w) (slots w) (incomings w) (endings w) v
  (next_address w) (entries w) (queue w) (sends w) (handles w) (handlers_woken w) (alive w) (woken w).
Definition set_next v w : World B := mkWorld (shared w) (slots w) (incomings w) (endings w) (cancels w)
  v (entries w) (queue w) (sends w) (handles w) (handlers_woken w) (alive w) (woken w).
Definition set_entries v w : World B := mkWorld (shared w) (slots w) (incomings w) (endings w) (cancels w)
  (next_address w) v (queue w) (sends w) (handles w) (handlers_woken w) (alive w) (woken w).
Definition set_queue v w : World B := mkWorld (shared w) (slots w) (incomings w) (endings w) (cancels w)
  (next_address w) (entries w) v (sends w) (handles w) (handlers_woken w) (alive w) (woken w).
Definition set_sends v w : World B := mkWorld (shared w) (slots w) (incomings w) (endings w) (cancels w)
  (next_address w) (entries w) (queue w) v (handles w) (handlers_woken w) (alive w) (woken w).
Definition set_handles v w : World B := mkWorld (shared w) (slots w) (incomings w) (endings w) (cancels w)
  (next_address w) (entries w) (queue w) (sends w) v (handlers_woken w) (alive w) (woken w).
Definition set_handlers_woken v w : World B := mkWorld (shared w) (slots w) (incomings w) (endings w)
  (cancels w) (next_address w) (entries w) (queue w) (sends w) (handles w) v (alive w) (woken w).
Definition set_alive v w : World B := mkWorld (shared w) (slots w) (incomings w) (endings w)
  (cancels w) (next_address w) (entries w) (queue w) (sends w) (handles w) (handlers_woken w) v (woken w).
Definition wake (ws : option Waker) w : World B := mkWorld (shared w) (slots w) (incomings w) (endings w)
  (cancels w) (next_address w) (entries w) (queue w) (sends w) (handles w) (handlers_woken w)
  (alive w) (woken w ++ option_list ws).

Definition on_shared (f : Shared → Shared) w := set_shared (f (shared w)) w.
End Fields.
End Fields.

(** *** [Shared]'s methods *)
Module SharedOps.
Section Methods.
Context `{Wakers} `{Crate : Http} `{Boxes : BoxedErrors} {B : Type}.
Implicit Types (s : Shared) (w : World B).
Import Fields.

Definition has_work s : bool :=
  negb (bool_decide (ready s = [])) || negb (bool_decide (resets s = [])) ||
  negb (bool_decide (credit s = ∅)) || negb (bool_decide (length (actions s) = 0%nat)) ||
  shutdown_wanted s.

Definition refresh_driver_and_work_pending (waker : Waker) w : World B * bool :=
  let s := shared w in
  let s :=
    match driver s with
    | Some existing => if will_wake existing waker then s else set_driver (Some waker) s
    | None => set_driver (Some waker) s
    end in
  (set_shared s w, has_work s).

Definition wake_driver w : World B := wake (driver (shared w)) w.

Definition mark_ready (stream : StreamId) w : World B * bool :=
  if decide (stream ∈ ready (shared w)) then (w, false)
  else (on_shared (λ s, set_ready (ready s ++ [stream]) s) w, true).

Definition reset (stream : StreamId) (code : Z) : World B → World B := on_shared (λ s,
  if existsb (λ r, bool_decide (r.1 = stream)) (resets s) then s
  else set_resets (resets s ++ [(stream, code)]) s).

(** [+=] on a [u64]. *)
Definition add_credit (stream : StreamId) (bytes : Z) : World B → World B := on_shared (λ s,
  set_credit (<[stream := wrapping_add (default 0 (credit s !! stream)) bytes]> (credit s)) s).

Definition push_action (a : TransportAction) : World B → World B :=
  on_shared (λ s, set_actions (actions s ++ [a]) s).

Definition request_shutdown : World B → World B :=
  on_shared (λ s, set_refusing true (set_shutdown_wanted true s)).

(** The whole of what is queued; the hash map is drained in any order. *)
Definition drain_work `{HashOrder} (into : SharedWork) w : World B * SharedWork :=
  let s := shared w in
  (set_shared (set_shutdown_wanted false (set_actions [] (set_credit ∅ (set_resets []
     (set_ready [] s))))) w,
   mkWork (w_ready into ++ ready s) (w_resets into ++ resets s)
     (w_credit into ++ ((λ k, (k, default 0 (credit s !! k))) <$> keys (credit s)))
     (w_actions into ++ actions s) (shutdown_wanted s)).

Definition work_pending w : bool := has_work (shared w).

Definition set_refusing : World B → World B := on_shared (Fields.set_refusing true).
Definition is_refusing w : bool := refusing (shared w).
Definition set_gone : World B → World B :=
  on_shared (λ s, Fields.set_refusing true (Fields.set_gone true s)).
Definition is_gone w : bool := gone (shared w).
End Methods.
End SharedOps.

(** *** [Slot], [Incoming], [Registry] and [Queue] *)
Module Cell.
Section Methods.
Context `{Wakers} `{Crate : Http} `{Boxes : BoxedErrors} {B : Type}.
Implicit Types (w : World B) (a : nat).
Import Fields.

(** A fresh address. *)
Definition alloc w : World B * nat := (set_next (S (next_address w)) w, next_address w).

Definition slot_alloc w : World B * nat :=
  let '(w, a) := alloc w in (set_slots (<[a := slot_new]> (slots w)) w, a).
Definition incoming_alloc w : World B * nat :=
  let '(w, a) := alloc w in (set_incomings (<[a := incoming_new]> (incomings w)) w, a).
Definition ending_alloc w : World B * nat :=
  let '(w, a) := alloc w in (set_endings (<[a := None]> (endings w)) w, a).
Definition cancel_alloc w : World B * nat :=
  let '(w, a) := alloc w in (set_cancels (<[a := cancel_new]> (cancels w)) w, a).

Definition slot a w : Slot := default slot_new (slots w !! a).
Definition on_slot a (f : Slot → Slot) w : World B := set_slots (alter f a (slots w)) w.
Definition incoming a w : Incoming := default incoming_new (incomings w !! a).
Definition on_incoming a (f : Incoming → Incoming) w : World B :=
  set_incomings (alter f a (incomings w)) w.

Definition bind a (stream : StreamId) : World B → World B :=
  on_slot a (λ s, mkSlot (outcome s) (s_waker s) (settled s) (H3Stream.get stream)).

Definition stream_of a w : option StreamId :=
  let raw := s_stream (slot a w) in
  if decide (raw = UNBOUND) then None
  else match H3Stream.new raw with Ok s => Some s | Err _ => None end.

(** [complete] and [fail]: the first outcome stays. *)
Definition settle a (r : result Response H3HttpError.Error) w : World B :=
  let s := slot a w in
  if settled s then w
  else wake (s_waker s) (on_slot a (λ s, mkSlot (Some r) None true (s_stream s)) w).

Definition complete a (r : Response) : World B → World B := settle a (Ok r).
Definition fail a (e : H3HttpError.Error) : World B → World B := settle a (Err e).
Definition is_settled a w : bool := settled (slot a w).

Definition slot_poll a (waker : Waker) w : World B * option (result Response H3HttpError.Error) :=
  match outcome (slot a w) with
  | Some r => (on_slot a (λ s, mkSlot None (s_waker s) (settled s) (s_stream s)) w, Some r)
  | None =>
      (on_slot a (λ s, mkSlot (outcome s) (Some waker) (settled s) (s_stream s)) w, None)
  end.

(** A change of an incoming body that wakes its reader. *)
Definition and_wake a (f : Incoming → Incoming) w : World B :=
  wake (i_waker (incoming a w))
    (on_incoming a (λ i,
       let i := f i in
       mkIncoming (chunks i) (i_trailers i) (finished i) (failure i) None (abandoned i)) w).

Definition push a (chunk : bytes) w : World B :=
  if abandoned (incoming a w) || bool_decide (chunk = []) then w
  else and_wake a (λ i, mkIncoming (chunks i ++ [chunk]) (i_trailers i) (finished i) (failure i)
                          (i_waker i) (abandoned i)) w.

Definition set_trailers a (m : HeaderMap) w : World B :=
  if abandoned (incoming a w) then w
  else and_wake a (λ i, mkIncoming (chunks i) (Some m) (finished i) (failure i) (i_waker i)
                          (abandoned i)) w.

Definition finish a : World B → World B :=
  and_wake a (λ i, mkIncoming (chunks i) (i_trailers i) true (failure i) (i_waker i)
                     (abandoned i)).

Definition fail_incoming a (e : H3HttpError.Error) : World B → World B :=
  and_wake a (λ i,
    match failure i with
    | None =>
        if finished i then i
        else mkIncoming (chunks i) (i_trailers i) (finished i) (Some e) (i_waker i) (abandoned i)
    | Some _ => i
    end).

Definition is_finished a w : bool := finished (incoming a w).

Definition poll a (waker : Waker) w : World B * Received :=
  let i := incoming a w in
  match chunks i with
  | chunk :: rest =>
      (on_incoming a (λ i, mkIncoming rest (i_trailers i) (finished i) (failure i) (i_waker i)
                             (abandoned i)) w, RData chunk)
  | [] =>
      match i_trailers i with
      | Some m =>
          (on_incoming a (λ i, mkIncoming (chunks i) None (finished i) (failure i) (i_waker i)
                                 (abandoned i)) w, RTrailers m)
      | None =>
          match failure i with
          | Some e =>
              (on_incoming a (λ i, mkIncoming (chunks i) (i_trailers i) (finished i) None
                                     (i_waker i) (abandoned i)) w, RFailed e)
          | None =>
              if finished i then (w, RFinished)
              else
                (on_incoming a (λ i, mkIncoming (chunks i) (i_trailers i) (finished i)
                                       (failure i) (Some waker) (abandoned i)) w, RNothing)
          end
      end
  end.

Definition abandon a w : World B * Z :=
  let unread := Z.of_nat (length (concat (chunks (incoming a w)))) in
  (on_incoming a (λ i, mkIncoming [] (i_trailers i) (finished i) (failure i) (i_waker i) true) w,
   unread).

(** [Registry]: a [BTreeMap], walked in the order of its keys. *)
Definition insert (stream : StreamId) (e : Entry) w : World B :=
  set_entries (<[stream := e]> (entries w)) w.
Definition entry_slot (stream : StreamId) w : option nat := entries w !! stream ≫= e_slot.
Definition entry_incoming (stream : StreamId) w : option nat := e_incoming <$> entries w !! stream.
Definition contains (stream : StreamId) w : bool :=
  bool_decide (is_Some (entries w !! stream)).
Definition streams w : list StreamId := merge_sort Z.le (map_to_list (entries w)).*1.
Definition remove (stream : StreamId) w : World B * option Entry :=
  (set_entries (delete stream (entries w)) w, entries w !! stream).
Definition is_empty w : bool := bool_decide (dom (entries w) = ∅).
Definition take_all w : World B * list Entry :=
  (set_entries ∅ w, omap (λ k, entries w !! k) (streams w)).

(** [Queue]. *)
Definition push_command (c : Command B) w : World B := set_queue (queue w ++ [c]) w.
Definition pop w : World B * option (Command B) :=
  match queue w with
  | [] => (w, None)
  | c :: rest => (set_queue rest w, Some c)
  end.
Definition queue_is_empty w : bool := bool_decide (length (queue w) = 0%nat).
Definition abandon_queue w : World B :=
  foldl (λ w c, fail (c_slot c)
      (H3HttpError.new H3HttpError.Closed "the connection went away before this request was sent") w)
    (set_queue [] w) (queue w).
End Methods.
End Cell.

(** ** What a caller holds *)

Definition REQUEST_CANCELLED : Z := 0x10c.
Definition NO_ERROR : Z := 0x100.

(** [IncomingBody]: the liveness token it also holds is only kept, never asked. *)
Record IncomingBody := mkIncomingBody {
  ib_stream : StreamId;
  abandon_on_drop : bool;
  ib_incoming : nat
}.

(** [ResponseFuture]. *)
Record ResponseFuture := mkFuture { f_slot : nat; f_incoming : nat; f_settled : bool }.

Module Handle.
Section Methods.
Context `{Wakers} `{Crate : Http} `{Boxes : BoxedErrors} {B : Type}.
Implicit Types (w : World B).
Import Fields.

(** body/incoming.rs *)
Definition body_credit (b : IncomingBody) (bytes : Z) w : World B :=
  if bytes =? 0 then w
  else SharedOps.wake_driver (SharedOps.add_credit (ib_stream b) bytes w).

Inductive FrameOf := FData (bs : bytes) | FTrailers (m : HeaderMap).

Definition poll_frame (b : IncomingBody) (waker : Waker) w :
    World B * Poll (option (result FrameOf H3HttpError.Error)) :=
  let '(w, received) := Cell.poll (ib_incoming b) waker w in
  match received with
  | RData chunk =>
      (body_credit b (Z.of_nat (length chunk)) w, Ready (Some (Ok (FData chunk))))
  | RTrailers m => (w, Ready (Some (Ok (FTrailers m))))
  | RFinished => (w, Ready None)
  | RFailed e => (w, Ready (Some (Err e)))
  | RNothing => (w, Pending)
  end.

Definition is_end_stream (b : IncomingBody) w : bool := Cell.is_finished (ib_incoming b) w.

Definition drop_body (b : IncomingBody) w : World B :=
  let complete := Cell.is_finished (ib_incoming b) w in
  let '(w, unread) := Cell.abandon (ib_incoming b) w in
  let w := body_credit b unread w in
  if abandon_on_drop b && negb complete
  then SharedOps.wake_driver (SharedOps.reset (ib_stream b) 0x10c w)
  else w.

(** client.rs, [SendRequest].  Each look at the connection, the push and the wake take the
    lock by themselves, so other tasks may act, and the driver end, in between: the call
    starts here, and goes on step by step. *)
Definition send_request (request : Request) (body : B) w : World B * ResponseFuture :=
  let '(w, slot) := Cell.slot_alloc w in
  let '(w, incoming) := Cell.incoming_alloc w in
  let w :=
    if SharedOps.is_gone w then
      Cell.fail slot (H3HttpError.new H3HttpError.Closed "the connection is gone") w
    else set_sends (sends w ++ [SendAdmitting (mkCommand request body slot incoming)]) w in
  (w, mkFuture slot incoming false).

(** The next step of the [i]th of the calls under way. *)
Definition send_step (i : nat) w : World B :=
  match sends w !! i with
  | None => w
  | Some (SendAdmitting c) =>
      if SharedOps.is_refusing w then
        Cell.fail (c_slot c)
          (H3HttpError.new H3HttpError.Refused "the peer went away before this exchange began")
          (set_sends (delete i (sends w)) w)
      else set_sends (<[i := SendPushing c]> (sends w)) w
  | Some (SendPushing c) =>
      Cell.push_command c (set_sends (<[i := SendWaking]> (sends w)) w)
  | Some SendWaking => SharedOps.wake_driver (set_sends (delete i (sends w)) w)
  end.

Definition is_closed w : bool := SharedOps.is_gone w.
Definition is_refusing w : bool := SharedOps.is_refusing w.
Definition shutdown w : World B := SharedOps.wake_driver (SharedOps.request_shutdown w).

(** Cloning a handle, which takes one, and dropping one. *)
Definition clone w : World B :=
  if decide (handles w = 0%nat) then w else set_handles (S (handles w)) w.
Definition drop_handle w : World B := set_handles (pred (handles w)) w.

(** [None] is the failed expectation that an answered slot is bound. *)
Definition future_poll (f : ResponseFuture) (waker : Waker) w :
    option (World B * ResponseFuture *
            Poll (result (Response * IncomingBody) H3HttpError.Error)) :=
  let '(w, r) := Cell.slot_poll (f_slot f) waker w in
  let done := mkFuture (f_slot f) (f_incoming f) true in
  match r with
  | None => Some (w, f, Pending)
  | Some (Err e) => Some (w, done, Ready (Err e))
  | Some (Ok head) =>
      let! stream := Cell.stream_of (f_slot f) w in
      Some (w, done, Ready (Ok (head, mkIncomingBody stream true (f_incoming f))))
  end.

Definition drop_future (f : ResponseFuture) w : World B :=
  if f_settled f then w
  else
    let w := Cell.fail (f_slot f)
      (H3HttpError.new H3HttpError.Stream "the caller abandoned this exchange") w in
    match Cell.stream_of (f_slot f) w with
    | Some stream => SharedOps.wake_driver (SharedOps.reset stream REQUEST_CANCELLED w)
    | None => w
    end.

(** server.rs, [Cancelled]. *)
Definition trip (a : nat) w : World B :=
  let c := default cancel_new (cancels w !! a) in
  wake (cancel_waker c) (set_cancels (alter (λ _, mkCancel true None) a (cancels w)) w).

Definition is_cancelled (a : nat) w : bool := cancelled (default cancel_new (cancels w !! a)).

Definition cancelled_poll (meanwhile : World B → World B) (a : nat) (waker : Waker) w :
    World B * Poll unit :=
  if is_cancelled a w then (w, Ready ())
  else
    let w := meanwhile (set_cancels
      (alter (λ c, mkCancel (cancelled c) (Some waker)) a (cancels w)) w) in
    if is_cancelled a w then (w, Ready ()) else (w, Pending).

(** body/outgoing.rs, [BodyWaker]. *)
Definition wake_body (stream : StreamId) w : World B :=
  let '(w, marked) := SharedOps.mark_ready stream w in
  if marked then SharedOps.wake_driver w else w.

(** tasks.rs, [Ready::mark] and [HandlerWaker]. *)
Definition mark (stream : StreamId) w : World B :=
  if decide (stream ∈ handlers_woken w) then w
  else set_handlers_woken (handlers_woken w ++ [stream]) w.

Definition wake_handler (a : nat) w : World B :=
  match alive w !! a with
  | None => w
  | Some stream => SharedOps.wake_driver (mark stream w)
  end.

(** *** Everything a caller's code may do to the connection it holds handles of *)
Inductive Act :=
| ASend (request : Request) (body : B)
| ASendStep (i : nat)
| APollFuture (f : ResponseFuture) (waker : Waker)
| ADropFuture (f : ResponseFuture)
| APollBody (b : IncomingBody) (waker : Waker)
| ADropBody (b : IncomingBody)
| AShutdown
| AClone
| ADropHandle
| ACancelled (a : nat) (waker : Waker)
| AWakeBody (stream : StreamId)
| AWakeHandler (a : nat).

Definition act (a : Act) w : World B :=
  match a with
  | ASend request body => (send_request request body w).1
  | ASendStep i => send_step i w
  | APollFuture f waker =>
      match future_poll f waker w with Some (w, _, _) => w | None => w end
  | ADropFuture f => drop_future f w
  | APollBody b waker => (poll_frame b waker w).1
  | ADropBody b => drop_body b w
  | AShutdown => shutdown w
  | AClone => clone w
  | ADropHandle => drop_handle w
  | ACancelled a waker => (cancelled_poll id a waker w).1
  | AWakeBody stream => wake_body stream w
  | AWakeHandler a => wake_handler a w
  end.

Definition acts (l : list Act) w : World B := foldl (flip act) w l.
End Methods.
Arguments Act {_ _} B.
End Handle.

(** ** Caller-supplied code

    A message body: a poll looks at the connections it forwards from, may act on them, and
    answers; [burst] bounds the frames it has ready, so a poll that gives one brings it
    down. *)
Inductive FramePoll `{Http} `{BoxedErrors} :=
| FramePending
| FrameEnd
| FrameFailed (e : BoxedError)
| FrameData (bs : bytes)
| FrameTrailers (m : HeaderMap)
| FrameOther.

Class Bodies `{Wakers} `{Http} `{BoxedErrors} (B : Type) := {
  body_is_end_stream : B → bool;
  body_poll_frame : World B → StreamId → B → B * list (Handle.Act B) * FramePoll;
  body_burst : World B → B → nat;
  body_burst_falls w s b b' l f :
    body_poll_frame w s b = (b', l, f) →
    (∃ bs, f = FrameData bs) ∨ f = FrameOther →
    (body_burst (Handle.acts l w) b' < body_burst w b)%nat
}.
