(* ===== verification/H3Driver.v ===== *)
(** * The HTTP/3 driver (crates/ngnet-h3/src/http/{driver,config,quic,connection}.rs and
      body/outgoing.rs)

    One driver owns the QUIC backend and the state machine, and moves what happens on one to
    the other and to the exchanges waiting in the registry.  The backend is the class
    [QuicBackends]; a role (client or server) is the class [Roles].  The source is one async
    loop: here it is a program counter [Pc], one [segment] from a point where it may wait to
    the next, and [poll] runs segments until one waits.  [None] is a panic. *)

From Stdlib Require Import ZArith Lia Strings.Byte.
From stdpp Require Import base list gmap strings.
From S2P Require Import Prelude HttpCrate QmuxScheduling H3Types H3Body H3Conn H3Head H3Shared.

(** ** config.rs *)
Module H3Config.

Record Config := mkConfig {
  c_max_concurrent_streams : Z;
  c_max_field_section_size : Z;
  c_qpack_max_dtable_capacity : Z;
  c_qpack_blocked_streams : Z;
  c_events_per_pass : nat
}.

Definition default : Config := mkConfig 128 (64 * 1024) 4096 16 64.

Definition max_concurrent_streams (n : Z) (c : Config) : Config :=
  mkConfig n (c_max_field_section_size c) (c_qpack_max_dtable_capacity c)
    (c_qpack_blocked_streams c) (c_events_per_pass c).
Definition max_field_section_size (n : Z) (c : Config) : Config :=
  mkConfig (c_max_concurrent_streams c) n (c_qpack_max_dtable_capacity c)
    (c_qpack_blocked_streams c) (c_events_per_pass c).
Definition qpack_max_dtable_capacity (n : Z) (c : Config) : Config :=
  mkConfig (c_max_concurrent_streams c) (c_max_field_section_size c) n
    (c_qpack_blocked_streams c) (c_events_per_pass c).
Definition qpack_blocked_streams (n : Z) (c : Config) : Config :=
  mkConfig (c_max_concurrent_streams c) (c_max_field_section_size c)
    (c_qpack_max_dtable_capacity c) n (c_events_per_pass c).
Definition events_per_pass (n : nat) (c : Config) : Config :=
  mkConfig (c_max_concurrent_streams c) (c_max_field_section_size c)
    (c_qpack_max_dtable_capacity c) (c_qpack_blocked_streams c) (Nat.max n 1).
End H3Config.

(** ** quic.rs *)

Inductive QuicEvent :=
| QData (stream : StreamId) (bs : bytes) (fin : bool)
| QAccepted (stream : StreamId)
| QReleased (stream : StreamId) (bytes : Z) (delivered : bool)
| QStopSending (stream : StreamId) (code : Z)
| QReset (stream : StreamId) (code : Z)
| QStreamClosed (stream : StreamId) (rx_code tx_code : option Z)
| QClosed (code : option Z).

Inductive WriteOutcome := Accepted (n : nat) | Blocked | Gone.

(** The trait [QuicConnection].  [poll_transmit] is lent a source whose state is [W]: a
    function that, lent a writer over any state [X], offers one stream to it. *)
Class QuicBackends `{Wakers} `{BoxedErrors} := {
  backend : Type;
  poll_event : Waker → backend → backend * Poll (result QuicEvent BoxedError);
  poll_transmit :
    Waker → backend → ∀ W : Type,
    (∀ X : Type, (X → StreamId → list bytes → bool → X * WriteOutcome) → X → W → X * W * bool) →
    W → backend * W * Poll (result unit BoxedError);
  poll_flush : Waker → backend → backend * Poll (result unit BoxedError);
  poll_open_uni : Waker → backend → backend * Poll (result StreamId BoxedError);
  poll_open_bi : Waker → backend → backend * Poll (result StreamId BoxedError);
  b_reset : StreamId → Z → backend → backend * result unit BoxedError;
  b_stop_sending : StreamId → Z → backend → backend * result unit BoxedError;
  b_extend_credit : option StreamId → Z → backend → backend * result unit BoxedError;
  b_close : Z → bytes → backend → backend * result unit BoxedError;
  b_now : backend → Z
}.

(** ** body/outgoing.rs *)

Inductive Stopped := Ended | Abandoned.

Record Outgoing (B : Type) := mkOutgoing {
  o_body : B;
  (** The stream its waker names. *)
  o_stream : StreamId;
  o_ending : nat;
  o_stopped : option Stopped
}.
Arguments mkOutgoing {B}.
Arguments o_body {B}.
Arguments o_stream {B}.
Arguments o_ending {B}.
Arguments o_stopped {B}.

(** What handlers are lent, and what they capture. *)
Record Ctx `{Wakers} `{Http} `{BoxedErrors} (B : Type) := mkCtx {
  events : Events;
  world : World B
}.
Arguments mkCtx {_ _ _ B}.
Arguments events {_ _ _ B}.
Arguments world {_ _ _ B}.

Module OutgoingOps.
Section Body.
Context `{Wakers} `{Crate : Http} `{Boxes : BoxedErrors} {B : Type} `{!Bodies B}.
Import Fields.

Definition new (body : B) (stream : StreamId) (ending : nat) : Outgoing B :=
  mkOutgoing body stream ending None.

Definition set_body (b : B) (o : Outgoing B) : Outgoing B :=
  mkOutgoing b (o_stream o) (o_ending o) (o_stopped o).

Definition finish (e : Ending) (o : Outgoing B) (w : World B) : Outgoing B * World B :=
  (mkOutgoing (o_body o) (o_stream o) (o_ending o)
     (Some match e with EndFailed => Abandoned | _ => Ended end),
   set_endings (alter (λ _, Some e) (o_ending o) (endings w)) w).

(** The loop of [next].  Every turn but the last takes a frame, so the burst is fuel enough
    ([pull_never_short]). *)
Fixpoint pull (fuel : nat) (t : nat) (pieces : list RetainedBytes) (o : Outgoing B)
    (w : World B) : nat * World B * Outgoing B * BodyOutcome :=
  match fuel with
  | O => (t, w, o, Defer)
  | S fuel =>
      let '(b, l, polled) := body_poll_frame w (o_stream o) (o_body o) in
      let o := set_body b o in
      let w := Handle.acts l w in
      match polled with
      | FramePending => (t, w, o, match pieces with [] => Defer | _ => Wrote pieces end)
      | FrameEnd => let '(o, w) := finish Clean o w in (t, w, o, Eof pieces)
      | FrameFailed _ => let '(o, w) := finish EndFailed o w in (t, w, o, Defer)
      | FrameData bs =>
          if decide (bs = []) then pull fuel t pieces o w
          else pull fuel (S t) (pieces ++ [Bytes.from_owner t (λ _, bs)]) o w
      | FrameTrailers m =>
          let '(o, w) := finish (H3Shared.EndTrailers m) o w in (t, w, o, EofWithTrailers pieces)
      | FrameOther => pull fuel t pieces o w
      end
  end.

#[global] Instance next : BodySource (Outgoing B) (Ctx B) := λ '(t, c) o,
  match o_stopped o with
  | Some Ended => ((t, c), o, Eof [])
  | Some Abandoned => ((t, c), o, Defer)
  | None =>
      let '(t, w, o, out) := pull (S (body_burst (world c) (o_body o))) t [] o (world c) in
      ((t, mkCtx (events c) w), o, out)
  end.

(** [ending_pending]. *)
Definition ending_pending (ends : list (StreamId * nat)) (w : World B) : bool :=
  existsb (λ e, match endings w !! e.2 with Some (Some _) => true | _ => false end) ends.
End Body.
End OutgoingOps.

(** ** driver.rs *)

Module ClosedStreams.

Definition CLOSED_TOMBSTONES : nat := 1024.

Record ClosedStreams := mkClosed { members : gset Z; order : list StreamId }.

Definition new : ClosedStreams := mkClosed ∅ [].

Definition contains (stream : StreamId) (c : ClosedStreams) : bool :=
  bool_decide (stream ∈ members c).

(** The loop that makes room: one turn per stream over the bound. *)
Fixpoint trim (fuel : nat) (c : ClosedStreams) : ClosedStreams :=
  match fuel with
  | O => c
  | S fuel =>
      if decide (CLOSED_TOMBSTONES < length (order c))%nat then
        match order c with
        | [] => c
        | oldest :: rest => trim fuel (mkClosed (members c ∖ {[oldest]}) rest)
        end
      else c
  end.

Definition insert (stream : StreamId) (c : ClosedStreams) : ClosedStreams * bool :=
  if decide (stream ∈ members c) then (c, false)
  else
    let o := order c ++ [stream] in
    (trim (length o) (mkClosed ({[stream]} ∪ members c) o), true).
End ClosedStreams.

(** The state machine and what it is lent. *)
Abbreviation Machine B := (Conn nghttp3_conn (Outgoing B) (Ctx B) * Ctx B)%type (only parsing).

(** [trait Role], over the world, with the state machine lent to it. *)
Class Roles `{Wakers} `{Http} `{BoxedErrors} `{Nghttp3} (B R : Type) := {
  needs_stream : R → World B → bool;
  give_stream : StreamId → R → R;
  ACCEPTS_STREAMS : bool;
  advance : R * Machine B → R * Machine B * result unit H3HttpError.Error;
  settle : R * Machine B → R * Machine B * result unit H3HttpError.Error;
  on_head : StreamId → Fields → R * Machine B → R * Machine B * result unit H3HttpError.Error;
  on_closed : StreamId → R → World B → R * World B;
  busy : R → World B → bool;
  done : R → World B → bool;
  abandon_role : R → World B → R * World B
}.

(** What [write_next] works on: the machine, the streams blocked this pass, and the failure
    stashed for the driver; a panic inside the state machine is kept as a flag. *)
Record Offers `{Wakers} `{Http} `{BoxedErrors} `{Nghttp3} (B : Type) := mkOffers {
  of_machine : Machine B;
  of_blocked : list StreamId;
  of_failure : option H3HttpError.Error;
  of_retried : bool;
  of_panicked : bool
}.
Arguments mkOffers {_ _ _ _ B}.
Arguments of_machine {_ _ _ _ B}.
Arguments of_blocked {_ _ _ _ B}.
Arguments of_failure {_ _ _ _ B}.
Arguments of_retried {_ _ _ _ B}.
Arguments of_panicked {_ _ _ _ B}.

Module OffersOps.
Section Offers.
Context `{Wakers} `{Crate : Http} `{Boxes : BoxedErrors} `{Lib : Nghttp3} {B : Type} `{!Bodies B}.
Abbreviation Offers := (H3Driver.Offers B).

Definition on_machine (m : Machine B) (o : Offers) : Offers :=
  mkOffers m (of_blocked o) (of_failure o) (of_retried o) (of_panicked o).
Definition push_blocked (s : StreamId) (o : Offers) : Offers :=
  mkOffers (of_machine o) (of_blocked o ++ [s]) (of_failure o) (of_retried o) (of_panicked o).
Definition fail (e : H3Types.Error) (o : Offers) : Offers :=
  mkOffers (of_machine o) (of_blocked o) (Some (H3HttpError.from_core e)) (of_retried o)
    (of_panicked o).
Definition panic (o : Offers) : Offers :=
  mkOffers (of_machine o) (of_blocked o) (of_failure o) (of_retried o) true.

(** A call of the state machine whose error ends the offers. *)
Definition call {A} (m : Machine B → Machine B * result A H3Types.Error) (o : Offers) :
    Offers * option A :=
  let '(s, r) := m (of_machine o) in
  match r with
  | Ok a => (on_machine s o, Some a)
  | Err e => (fail e (on_machine s o), None)
  end.

(** Putting back every stream that was blocked. *)
Fixpoint unblock_all (l : list StreamId) (o : Offers) : Offers * bool :=
  match l with
  | [] => (o, true)
  | s :: l =>
      match call (ConnOps.unblock_stream s) o with
      | (o, Some _) => unblock_all l o
      | (o, None) => (o, false)
      end
  end.

(** What becomes of an offer: the guard is committed or abandoned, exactly once; the flags
    say whether the stream is to be blocked, and whether it is gone. *)
Definition dispose (g : ConnOps.SendGuard) (outcome : WriteOutcome) (o : Offers) :
    Offers * option (bool * bool) :=
  let stream := ConnOps.g_stream g in
  let offered := ConnOps.g_total g in
  match outcome with
  | Blocked => (push_blocked stream o, Some (true, false))
  | Accepted n =>
      if bool_decide (n = 0%nat) && bool_decide (0 < offered)%nat
      then (push_blocked stream o, Some (true, false))
      else
        let taken := Nat.min n offered in
        let short := bool_decide (taken < offered)%nat in
        let '(o, r) := call (ConnOps.commit g taken) o in
        (if short then push_blocked stream o else o,
         match r with Some _ => Some (short, false) | None => None end)
  | Gone => (o, Some (false, true))
  end.

(** [write_next].  Its loop is taken again only once, after everything blocked has been put
    back: two turns are enough. *)
Fixpoint write_loop {X : Type} (write : X → StreamId → list bytes → bool → X * WriteOutcome)
    (fuel : nat) (x : X) (o : Offers) : X * Offers * bool :=
  match fuel with
  | O => (x, o, false)
  | S fuel =>
      match of_failure o with
      | Some _ => (x, o, false)
      | None =>
          match ConnOps.writev_stream (of_machine o) with
          | None => (x, panic o, false)
          | Some (s, Err e) => (x, fail e (on_machine s o), false)
          | Some (s, Ok None) =>
              let o := on_machine s o in
              if of_retried o || bool_decide (of_blocked o = []) then (x, o, false)
              else
                let '(o, go) :=
                  unblock_all (of_blocked o)
                    (mkOffers (of_machine o) [] (of_failure o) true (of_panicked o)) in
                if go then write_loop write fuel x o else (x, o, false)
          | Some (s, Ok (Some g)) =>
              let o := on_machine s o in
              let stream := ConnOps.g_stream g in
              let '(x, outcome) := write x stream (ConnOps.g_slices g) (ConnOps.g_fin g) in
              match dispose g outcome o with
              | (o, None) => (x, o, false)
              | (o, Some (block, gone)) =>
                  let '(o, r) :=
                    if (block : bool) then call (ConnOps.block_stream stream) o
                    else (o, Some ()) in
                  match r with
                  | None => (x, o, false)
                  | Some _ =>
                      let '(o, r) :=
                        if (gone : bool) then call (ConnOps.shutdown_stream_write stream) o
                        else (o, Some ()) in
                      (x, o, bool_decide (is_Some r))
                  end
              end
          end
      end
  end.

Definition write_next (X : Type) (write : X → StreamId → list bytes → bool → X * WriteOutcome)
    (x : X) (o : Offers) : X * Offers * bool :=
  if of_panicked o then (x, o, false) else write_loop write 2 x o.
End Offers.
End OffersOps.

(** [build_conn]. *)
Section Build.
Context `{Wakers} `{Crate : Http} `{Boxes : BoxedErrors} `{Lib : Nghttp3} {B : Type} `{!Bodies B}.

Definition with_events (f : Events → Events) (c : Ctx B) : Ctx B := mkCtx (f (events c)) (world c).
Definition with_world (f : World B → World B) (c : Ctx B) : Ctx B := mkCtx (events c) (f (world c)).

Definition build_conn (role : Role) (config : H3Config.Config) :
    result (Conn nghttp3_conn (Outgoing B) (Ctx B)) H3HttpError.Error :=
  let settings :=
    H3Settings.qpack_blocked_streams (H3Config.c_qpack_blocked_streams config)
      (H3Settings.qpack_max_dtable_capacity (H3Config.c_qpack_max_dtable_capacity config)
        (H3Settings.max_field_section_size (H3Config.c_max_field_section_size config)
          nghttp3_settings_default)) in
  let b := ConnBuilder.settings settings (ConnBuilder.new role) in
  let b := ConnBuilder.on_section_begin
    (λ s k, with_events (EventsOps.begin_section s k)) b in
  let b := ConnBuilder.on_field
    (λ s k _ n v c, (with_events (EventsOps.push_field s n v) c, Continue)) b in
  let b := ConnBuilder.on_section_end (λ s k, with_events (EventsOps.end_section s k)) b in
  let b := ConnBuilder.on_data (λ s d, with_events (EventsOps.push_data s d)) b in
  let b := ConnBuilder.on_end_stream (λ s, with_events (EventsOps.push_end s)) b in
  let b := ConnBuilder.on_stream_close (λ s c, with_events (EventsOps.push_closed s c)) b in
  let b := ConnBuilder.on_stop_sending
    (λ s c, with_world (SharedOps.push_action (StopSendingAction s c))) b in
  let b := ConnBuilder.on_reset_stream
    (λ s c, with_world (SharedOps.push_action (ResetAction s c))) b in
  let b := ConnBuilder.on_shutdown (λ s, with_events (EventsOps.push_shutdown s)) b in
  let b := ConnBuilder.on_peer_settings (λ s, with_events (EventsOps.push_settings s)) b in
  map_err H3HttpError.from_core (ConnBuilder.build b).
End Build.

Record Driver `{Wakers} `{Http} `{BoxedErrors} `{Nghttp3} `{!QuicBackends} (B R : Type) := mkDriver {
  d_backend : backend;
  d_machine : Machine B;
  d_config : H3Config.Config;
  d_closed : ClosedStreams.ClosedStreams;
  d_blocked : list StreamId;
  d_opened : list StreamId;
  d_pushback : option QuicEvent;
  d_pushback_error : option H3HttpError.Error;
  d_bound : bool;
  d_peer_gone : bool;
  d_peer_settings : option PeerSettings;
  d_work : SharedWork;
  (** The guard's. *)
  d_role : R
}.
Arguments mkDriver {_ _ _ _ _ B R}.
Arguments d_backend {_ _ _ _ _ B R}.
Arguments d_machine {_ _ _ _ _ B R}.
Arguments d_config {_ _ _ _ _ B R}.
Arguments d_closed {_ _ _ _ _ B R}.
Arguments d_blocked {_ _ _ _ _ B R}.
Arguments d_opened {_ _ _ _ _ B R}.
Arguments d_pushback {_ _ _ _ _ B R}.
Arguments d_pushback_error {_ _ _ _ _ B R}.
Arguments d_bound {_ _ _ _ _ B R}.
Arguments d_peer_gone {_ _ _ _ _ B R}.
Arguments d_peer_settings {_ _ _ _ _ B R}.
Arguments d_work {_ _ _ _ _ B R}.
Arguments d_role {_ _ _ _ _ B R}.

Module Drive.
Section Drive.
Context `{Wakers} `{Crate : Http} `{Boxes : BoxedErrors} `{Lib : Nghttp3} `{!QuicBackends}.
Context {B R : Type} `{!Bodies B} `{!Roles B R} `{HashOrder}.
Abbreviation Driver := (H3Driver.Driver B R).
Implicit Types (d : Driver).

Definition set_backend v d : Driver := mkDriver v (d_machine d) (d_config d) (d_closed d)
  (d_blocked d) (d_opened d) (d_pushback d) (d_pushback_error d) (d_bound d) (d_peer_gone d)
  (d_peer_settings d) (d_work d) (d_role d).
Definition set_machine v d : Driver := mkDriver (d_backend d) v (d_config d) (d_closed d)
  (d_blocked d) (d_opened d) (d_pushback d) (d_pushback_error d) (d_bound d) (d_peer_gone d)
  (d_peer_settings d) (d_work d) (d_role d).
Definition set_closed v d : Driver := mkDriver (d_backend d) (d_machine d) (d_config d) v
  (d_blocked d) (d_opened d) (d_pushback d) (d_pushback_error d) (d_bound d) (d_peer_gone d)
  (d_peer_settings d) (d_work d) (d_role d).
Definition set_blocked v d : Driver := mkDriver (d_backend d) (d_machine d) (d_config d)
  (d_closed d) v (d_opened d) (d_pushback d) (d_pushback_error d) (d_bound d) (d_peer_gone d)
  (d_peer_settings d) (d_work d) (d_role d).
Definition set_opened v d : Driver := mkDriver (d_backend d) (d_machine d) (d_config d)
  (d_closed d) (d_blocked d) v (d_pushback d) (d_pushback_error d) (d_bound d) (d_peer_gone d)
  (d_peer_settings d) (d_work d) (d_role d).
Definition set_pushback v e d : Driver := mkDriver (d_backend d) (d_machine d) (d_config d)
  (d_closed d) (d_blocked d) (d_opened d) v e (d_bound d) (d_peer_gone d)
  (d_peer_settings d) (d_work d) (d_role d).
Definition set_bound v d : Driver := mkDriver (d_backend d) (d_machine d) (d_config d)
  (d_closed d) (d_blocked d) (d_opened d) (d_pushback d) (d_pushback_error d) v (d_peer_gone d)
  (d_peer_settings d) (d_work d) (d_role d).
Definition set_peer_gone v d : Driver := mkDriver (d_backend d) (d_machine d) (d_config d)
  (d_closed d) (d_blocked d) (d_opened d) (d_pushback d) (d_pushback_error d) (d_bound d) v
  (d_peer_settings d) (d_work d) (d_role d).
Definition set_peer_settings v d : Driver := mkDriver (d_backend d) (d_machine d) (d_config d)
  (d_closed d) (d_blocked d) (d_opened d) (d_pushback d) (d_pushback_error d) (d_bound d)
  (d_peer_gone d) v (d_work d) (d_role d).
Definition set_work v d : Driver := mkDriver (d_backend d) (d_machine d) (d_config d)
  (d_closed d) (d_blocked d) (d_opened d) (d_pushback d) (d_pushback_error d) (d_bound d)
  (d_peer_gone d) (d_peer_settings d) v (d_role d).
Definition set_role v d : Driver := mkDriver (d_backend d) (d_machine d) (d_config d)
  (d_closed d) (d_blocked d) (d_opened d) (d_pushback d) (d_pushback_error d) (d_bound d)
  (d_peer_gone d) (d_peer_settings d) (d_work d) v.

(** The shared world and the events, which the machine is lent. *)
Definition d_world d : World B := world (d_machine d).2.
Definition d_events d : Events := events (d_machine d).2.
Definition on_world (f : World B → World B) d : Driver :=
  set_machine ((d_machine d).1, with_world f (d_machine d).2) d.
Definition on_events (f : Events → Events) d : Driver :=
  set_machine ((d_machine d).1, with_events f (d_machine d).2) d.

(** *** The monad: a panic, or the driver afterwards and a result *)
Definition M (A : Type) : Type := Driver → option (Driver * result A H3HttpError.Error).

Definition ret {A} (a : A) : M A := λ d, Some (d, Ok a).
Definition throw {A} (e : H3HttpError.Error) : M A := λ d, Some (d, Err e).
Definition bind {A A'} (m : M A) (k : A → M A') : M A' := λ d,
  match m d with
  | None => None
  | Some (d, Ok a) => k a d
  | Some (d, Err e) => Some (d, Err e)
  end.
Definition modify (f : Driver → Driver) : M unit := λ d, Some (f d, Ok ()).
Definition gets {A} (f : Driver → A) : M A := λ d, Some (d, Ok (f d)).

Notation "'do' x ':=' m 'in' k" := (bind m (λ x, k))
  (at level 10, x pattern, m at level 100, k at level 200).

(** A loop over a list, ended by the first error. *)
Fixpoint each {A} (f : A → M unit) (l : list A) : M unit :=
  match l with
  | [] => ret ()
  | a :: l => do _ := f a in each f l
  end.

Definition transport (e : BoxedError) : H3HttpError.Error :=
  H3HttpError.with_source H3HttpError.Transport "the QUIC backend failed" (H3HttpError.FromBox e).

(** A call of the backend, its error wrapped. *)
Definition backend_call {A} (f : backend → backend * result A BoxedError) : M A := λ d,
  let '(b, r) := f (d_backend d) in Some (set_backend b d, map_err transport r).

(** A call of the state machine: its error propagated, or dropped ([.ok()]). *)
Definition conn_call {A} (m : Machine B → Machine B * result A H3Types.Error) : M A := λ d,
  let '(s, r) := m (d_machine d) in
  Some (set_machine s d, map_err H3HttpError.from_core r).
Definition conn_ok {A} (m : Machine B → Machine B * result A H3Types.Error) : M unit := λ d,
  let '(s, _) := m (d_machine d) in Some (set_machine s d, Ok ()).

(** A call of the role on the machine lent to it. *)
Definition role_call (f : R * Machine B → R * Machine B * result unit H3HttpError.Error) :
    M unit := λ d,
  let '((r, s), res) := f (d_role d, d_machine d) in
  Some (set_role r (set_machine s d), res).

Definition role_closed (stream : StreamId) : M unit := modify (λ d,
  let '(r, w) := on_closed stream (d_role d) (d_world d) in
  set_role r (on_world (λ _, w) d)).

(** [flush_before_pending]. *)
Definition flush_before_pending {A} (cx : Waker) : M (Poll A) := λ d,
  let '(b, polled) := poll_flush cx (d_backend d) in
  let d := set_backend b d in
  match polled with
  | Ready (Err e) => Some (d, Err (transport e))
  | Ready (Ok _) | Pending => Some (d, Ok Pending)
  end.

(** The loop of [poll_bind] that opens what is missing of the three streams. *)
Fixpoint open_uni (missing : nat) (cx : Waker) : M (Poll unit) :=
  match missing with
  | O => ret (Ready ())
  | S missing => λ d,
      let '(b, polled) := poll_open_uni cx (d_backend d) in
      let d := set_backend b d in
      match polled with
      | Pending => Some (d, Ok Pending)
      | Ready (Err e) => Some (d, Err (transport e))
      | Ready (Ok stream) => open_uni missing cx (set_opened (d_opened d ++ [stream]) d)
      end
  end.

Definition poll_bind (cx : Waker) : M (Poll unit) :=
  do bound := gets d_bound in
  if bound then ret (Ready ())
  else
    do opened := gets d_opened in
    do polled := open_uni (3 - length opened) cx in
    match polled with
    | Pending => ret Pending
    | Ready _ =>
        do ids := gets d_opened in
        match ids with
        | control :: encoder :: decoder :: _ =>
            do _ := conn_call (ConnOps.bind_control_stream control) in
            do _ := conn_call (ConnOps.bind_qpack_streams encoder decoder) in
            do _ := modify (set_bound true) in
            ret (Ready ())
        | _ => λ _, None
        end
    end.

(** [take_events]: the loop over what is left of the pass. *)
Fixpoint more_events (room : nat) (cx : Waker) (taken : list QuicEvent) : M (list QuicEvent) :=
  match room with
  | O => ret taken
  | S room => λ d,
      let '(b, polled) := poll_event cx (d_backend d) in
      let d := set_backend b d in
      match polled with
      | Pending => Some (d, Ok taken)
      | Ready (Err e) => Some (d, Err (transport e))
      | Ready (Ok (QClosed code)) => Some (d, Ok (taken ++ [QClosed code]))
      | Ready (Ok ev) => more_events room cx (taken ++ [ev]) d
      end
  end.

Definition take_events (cx : Waker) : M (list QuicEvent) := λ d,
  match d_pushback_error d with
  | Some e => Some (set_pushback (d_pushback d) None d, Err e)
  | None =>
      let taken := option_list (d_pushback d) in
      more_events (H3Config.c_events_per_pass (d_config d) - length taken) cx taken
        (set_pushback None None d)
  end.

Definition extend (stream : option StreamId) (bytes : Z) : M unit :=
  if bytes =? 0 then ret ()
  else
    do _ := match stream with
            | Some s => backend_call (b_extend_credit (Some s) bytes)
            | None => ret ()
            end in
    backend_call (b_extend_credit None bytes).

Definition read (stream : StreamId) (bs : bytes) (fin : bool) : M unit :=
  do now := gets (λ d, b_now (d_backend d)) in
  do _ := modify (on_events (EventsOps.set_inbound (Some bs))) in
  λ d,
    let '(s, r) := ConnOps.read_stream stream bs fin now (d_machine d) in
    let d := on_events (EventsOps.set_inbound None) (set_machine s d) in
    match r with
    | Err e => Some (d, Err (H3HttpError.from_core e))
    | Ok credit => extend (Some stream) credit d
    end.

Definition apply_release (stream : StreamId) (bytes : Z) (delivered : bool) : M unit :=
  if bytes =? 0 then ret ()
  else
    do closed := gets d_closed in
    if ClosedStreams.contains stream closed then ret ()
    else if negb delivered then ret ()
    else conn_call (ConnOps.add_ack_offset stream bytes).

(** Ending one exchange, if there is one: its future and its body are told [slot_error] and
    [body_error]. *)
Definition fail_entry (stream : StreamId) (slot_error body_error : H3HttpError.Error)
    (w : World B) : World B * bool :=
  let '(w, entry) := Cell.remove stream w in
  match entry with
  | None => (w, false)
  | Some e =>
      let w := match e_slot e with Some a => Cell.fail a slot_error w | None => w end in
      (Cell.fail_incoming (e_incoming e) body_error w, true)
  end.

Definition fail_stream (stream : StreamId) (code : Z) : M bool :=
  do known := (λ d,
    let error := H3HttpError.new H3HttpError.Stream "the peer reset this exchange" in
    let '(w, known) := fail_entry stream error (H3HttpError.with_code error code) (d_world d) in
    Some (on_world (λ _, w) d, Ok known)) in
  do _ := role_closed stream in
  ret known.

Definition refuse_from (cutoff : StreamId) : M unit :=
  do streams := gets (λ d, Cell.streams (d_world d)) in
  let error := H3HttpError.new H3HttpError.Refused
    "the peer went away before it looked at this exchange" in
  each (λ stream,
    do _ := modify (on_world (λ w, (fail_entry stream error error w).1)) in
    role_closed stream)
    (filter (λ s, H3Stream.get cutoff ≤ H3Stream.get s) streams).

Definition close_stream (stream : StreamId) (how : StreamClosed) : M unit :=
  do fresh := (λ d,
    let '(c, fresh) := ClosedStreams.insert stream (d_closed d) in
    Some (set_closed c d, Ok fresh)) in
  if negb fresh then ret ()
  else
    do checkpoint := gets (λ d, length (observed (d_events d))) in
    do _ := conn_ok (ConnOps.close_stream_with stream how) in
    do _ := modify (on_events (EventsOps.discard_closed_since checkpoint stream)) in
    do _ := modify (on_world (λ w,
      let '(w, entry) := Cell.remove stream w in
      match entry with
      | None => w
      | Some e =>
          let w := Cell.finish (e_incoming e) w in
          match e_slot e with
          | Some a =>
              if Cell.is_settled a w then w
              else Cell.fail a (H3HttpError.new H3HttpError.Stream
                     "the exchange ended before a response arrived") w
          | None => w
          end
      end)) in
    role_closed stream.

(** The sweep of the control plane: what is left to read, and the resets that named a stream
    nobody knew of. *)
Fixpoint control_plane (events : list QuicEvent) (data : list (StreamId * bytes * bool))
    (unheard : list (StreamId * Z)) :
    M (list (StreamId * bytes * bool) * list (StreamId * Z)) :=
  match events with
  | [] => ret (data, unheard)
  | ev :: events =>
      match ev with
      | QData s bs fin => control_plane events (data ++ [(s, bs, fin)]) unheard
      | QAccepted _ => control_plane events data unheard
      | QReleased s n delivered =>
          do _ := apply_release s n delivered in control_plane events data unheard
      | QStopSending s _ =>
          do _ := conn_ok (ConnOps.shutdown_stream_write s) in control_plane events data unheard
      | QReset s code =>
          do _ := conn_ok (ConnOps.shutdown_stream_read s) in
          do known := fail_stream s code in
          control_plane events data
            (if negb known && ACCEPTS_STREAMS then unheard ++ [(s, code)] else unheard)
      | QStreamClosed s rx tx =>
          do _ := close_stream s (mkStreamClosed rx tx) in control_plane events data unheard
      | QClosed _ =>
          do _ := modify (set_peer_gone true) in control_plane events data unheard
      end
  end.

Definition apply_events (events : list QuicEvent) : M (list (StreamId * Z)) :=
  do (data, unheard) := control_plane events [] [] in
  do _ := each (λ '(s, bs, fin), read s bs fin) data in
  ret unheard.

(** The trailers of a section, a full map's panic included. *)
Definition decode_trailers (fields : Fields) : M HeaderMap := λ d,
  match H3Head.trailers fields with
  | None => None
  | Some r => Some (d, r)
  end.

Definition dispatch_one (o : Observation) : M unit :=
  match o with
  | Head s Headers fields => role_call (on_head s fields)
  | Head s Trailers fields =>
      do m := decode_trailers fields in
      modify (on_world (λ w,
        match Cell.entry_incoming s w with Some a => Cell.set_trailers a m w | None => w end))
  | Data s bs =>
      modify (on_world (λ w,
        match Cell.entry_incoming s w with Some a => Cell.push a bs w | None => w end))
  | End s =>
      modify (on_world (λ w,
        match Cell.entry_incoming s w with Some a => Cell.finish a w | None => w end))
  | H3Shared.Closed s how => close_stream s how
  | ShutdownSeen how =>
      do _ := modify (on_world SharedOps.set_refusing) in
      match how with
      | NoStreamsFrom cutoff => refuse_from cutoff
      | _ => ret ()
      end
  | SettingsSeen settings => modify (set_peer_settings (Some settings))
  end.

Definition dispatch (observed : list Observation) : M unit := each dispatch_one observed.

Definition drain_events : M (list Observation) := λ d,
  let '(e, o) := EventsOps.drain (d_events d) in Some (on_events (λ _, e) d, Ok o).

(** *** [run], from one await to the next *)

(** From the top of a pass to the opening of request streams. *)
Definition begin_pass (cx : Waker) : M (bool * list (StreamId * Z)) :=
  do events := take_events cx in
  let had_events := negb (bool_decide (length events = 0%nat)) in
  do unheard := apply_events events in
  do _ := role_call settle in
  do _ := modify (λ d,
    let '(w, work) := SharedOps.drain_work (d_work d) (d_world d) in
    set_work work (on_world (λ _, w) d)) in
  do deferred := conn_call ConnOps.take_deferred_credit in
  do _ := each (λ '(s, n), extend (Some s) n) deferred in
  do work := gets d_work in
  do _ := each (λ '(s, n), extend (Some s) n) (w_credit work) in
  do _ := each (λ a,
    match a with
    | ResetAction s code => backend_call (b_reset s code)
    | StopSendingAction s code => backend_call (b_stop_sending s code)
    end) (w_actions work) in
  do _ := each (λ '(s, code),
    do _ := conn_ok (ConnOps.shutdown_stream_read s) in
    do _ := conn_ok (ConnOps.shutdown_stream_write s) in
    do _ := backend_call (b_reset s code) in
    backend_call (b_stop_sending s code)) (w_resets work) in
  do _ := each (λ s, conn_ok (ConnOps.resume_stream s)) (w_ready work) in
  do _ := (if w_shutdown work then conn_ok ConnOps.shutdown else ret ()) in
  do _ := modify (set_work work_new) in
  ret (had_events, unheard).

(** From there to the transmission. *)
Definition submit (unheard : list (StreamId * Z)) : M unit :=
  do _ := role_call advance in
  do observed := drain_events in
  do _ := dispatch observed in
  each (λ '(s, code), do _ := fail_stream s code in ret ()) unheard.

Inductive Pc :=
| PcTop
| PcOpening (had_events : bool) (unheard : list (StreamId * Z))
| PcTransmit (had_events : bool) (blocked : list StreamId)
    (failure : option H3HttpError.Error) (retried : bool)
| PcPark (parked : bool)
| PcDone (r : result unit H3HttpError.Error).

(** What the end of a pass decides. *)
Definition end_pass (had_events : bool) : M Pc :=
  do observed := drain_events in
  do _ := dispatch observed in
  do gone := gets d_peer_gone in
  if gone then ret (PcDone (Ok ()))
  else
    do finished := gets (λ d, done (d_role d) (d_world d) && Cell.is_empty (d_world d)) in
    if finished then
      do pending := gets (λ d, SharedOps.work_pending (d_world d)) in
      if pending then ret PcTop
      else do _ := backend_call (b_close NO_ERROR []) in ret (PcDone (Ok ()))
    else
      do idle := gets (λ d,
        negb had_events && negb (busy (d_role d) (d_world d)) &&
        EventsOps.is_empty (d_events d) &&
        negb (done (d_role d) (d_world d) && Cell.is_empty (d_world d)) &&
        negb (SharedOps.work_pending (d_world d))) in
      ret (if idle then PcPark false else PcTop).

(** A wait: the next point, and whether the task waits there. *)
Definition at_transmit (cx : Waker) (had_events : bool) (blocked : list StreamId)
    (failure : option H3HttpError.Error) (retried : bool) : M (Pc * bool) := λ d,
  let offers := mkOffers (d_machine d) blocked failure retried false in
  let '(b, offers, polled) :=
    poll_transmit cx (d_backend d) (Offers B) (OffersOps.write_next (B := B)) offers in
  if of_panicked offers then None
  else
    let d := set_machine (of_machine offers) (set_backend b d) in
    let outcome : M (Poll unit) :=
      match polled with
      | Pending => flush_before_pending cx
      | Ready (Ok _) => ret (Ready ())
      | Ready (Err e) => throw (transport e)
      end in
    match outcome d with
    | None => None
    | Some (d, Ok Pending) =>
        Some (d, Ok (PcTransmit had_events (of_blocked offers) (of_failure offers)
                       (of_retried offers), true))
    | Some (d, r) =>
        let d := set_blocked (of_blocked offers) d in
        match r, of_failure offers with
        | Err e, _ => Some (d, Err e)
        | Ok _, Some e => Some (d, Err e)
        | Ok _, None => (do pc := end_pass had_events in ret (pc, false)) d
        end
    end.

Definition at_park (cx : Waker) (parked : bool) : M (Pc * bool) :=
  do blocked := gets d_blocked in
  if parked && negb (bool_decide (blocked = [])) then ret (PcTop, false)
  else
    do pending := (λ d,
      let '(w, pending) := SharedOps.refresh_driver_and_work_pending cx (d_world d) in
      Some (on_world (λ _, w) d, Ok pending)) in
    do is_busy := gets (λ d, busy (d_role d) (d_world d)) in
    if pending || is_busy then ret (PcTop, false)
    else λ d,
      let '(b, polled) := poll_event cx (d_backend d) in
      let d := set_backend b d in
      match polled with
      | Ready (Ok ev) => Some (set_pushback (Some ev) (d_pushback_error d) d, Ok (PcTop, false))
      | Ready (Err e) =>
          Some (set_pushback (d_pushback d) (Some (transport e)) d, Ok (PcTop, false))
      | Pending =>
          let '(b, flushed) := poll_flush cx (d_backend d) in
          let d := set_backend b d in
          match flushed with
          | Ready (Err e) =>
              Some (set_pushback (d_pushback d) (Some (transport e)) d, Ok (PcTop, false))
          | _ => Some (d, Ok (PcPark true, true))
          end
      end.

Definition segment (cx : Waker) (pc : Pc) : M (Pc * bool) :=
  match pc with
  | PcTop =>
      do bound := (
        do bound := poll_bind cx in
        match bound with Pending => flush_before_pending cx | Ready u => ret (Ready u) end) in
      match bound with
      | Pending => ret (PcTop, true)
      | Ready _ =>
          do (had_events, unheard) := begin_pass cx in
          ret (PcOpening had_events unheard, false)
      end
  | PcOpening had_events unheard =>
      do needed := gets (λ d, needs_stream (d_role d) (d_world d)) in
      if (needed : bool) then λ d,
        let '(b, polled) := poll_open_bi cx (d_backend d) in
        let d := set_backend b d in
        match polled with
        | Pending =>
            (do _ := flush_before_pending (A := unit) cx in ret (PcOpening had_events unheard, true)) d
        | Ready (Ok stream) =>
            Some (set_role (give_stream stream (d_role d)) d, Ok (PcOpening had_events unheard, false))
        | Ready (Err e) => Some (d, Err (transport e))
        end
      else
        do _ := submit unheard in
        do blocked := gets d_blocked in
        do _ := modify (set_blocked []) in
        ret (PcTransmit had_events blocked None false, false)
  | PcTransmit had_events blocked failure retried =>
      at_transmit cx had_events blocked failure retried
  | PcPark parked => at_park cx parked
  | PcDone _ => ret (pc, true)
  end.

(** Dropping the guard: when the loop ends, or with the connection. *)
Definition drop_guard (d : Driver) : Driver :=
  let w := SharedOps.set_gone (d_world d) in
  let '(w, all) := Cell.take_all w in
  let error := H3HttpError.new H3HttpError.Closed "the connection went away" in
  let w := foldl (λ w e,
    let w := match e_slot e with Some a => Cell.fail a error w | None => w end in
    Cell.fail_incoming (e_incoming e) error w) w all in
  let '(r, w) := abandon_role (d_role d) w in
  set_role r (on_world (λ _, w) d).

(** One turn of the loop: an error ends it, and its end drops the guard. *)
Definition turn (cx : Waker) (s : Driver * Pc) : option (Driver * Pc * bool) :=
  match s.2 with
  | PcDone _ => Some (s, true)
  | pc =>
      match segment cx pc s.1 with
      | None => None
      | Some (d, Err e) => Some (drop_guard d, PcDone (Err e), true)
      | Some (d, Ok (PcDone r, _)) => Some (drop_guard d, PcDone r, true)
      | Some (d, Ok (pc, waits)) => Some (d, pc, waits)
      end
  end.

(** connection.rs, [Connection::poll]: turns until one waits; [None] also when the fuel is
    short. *)
Fixpoint poll (fuel : nat) (cx : Waker) (s : Driver * Pc) :
    option (Driver * Pc * Poll (result unit H3HttpError.Error)) :=
  match fuel with
  | O => None
  | S fuel =>
      let! (s, waits) := turn cx s in
      if (waits : bool) then
        Some (s, match s.2 with PcDone r => Ready r | _ => Pending end)
      else poll fuel cx s
  end.

(** A driver over a machine just built. *)
Definition driver_new (b : backend) (conn : Conn nghttp3_conn (Outgoing B) (Ctx B))
    (w : World B) (config : H3Config.Config) (r : R) : Driver :=
  mkDriver b (conn, mkCtx EventsOps.default w) config ClosedStreams.new [] [] None None false
    false None work_new r.
End Drive.
End Drive.
