(* ===== verification/H3Roles.v ===== *)
(** * The HTTP/3 client and server (crates/ngnet-h3/src/http/{client,server,tasks}.rs)

    The two roles a driver is run with: the client submits queued requests and settles their
    futures, the server hands requests to a service and submits what its futures answer. *)

From Stdlib Require Import ZArith Lia Strings.Byte.
From stdpp Require Import base list gmap strings.
From S2P Require Import Prelude HttpCrate QmuxScheduling H3Types H3Body H3Conn H3Head H3Shared H3Driver.

(** [Vec::swap_remove]. *)
Definition swap_remove {A} (i : nat) (l : list A) : list A :=
  match last l with
  | Some x => take (length l - 1) (<[i := x]> l)
  | None => l
  end.

(** ** What both roles do *)
Module RoleOps.
Section Both.
Context `{Wakers} `{Crate : Http} `{Boxes : BoxedErrors} `{Lib : Nghttp3} {B : Type} `{!Bodies B}.
Abbreviation Machine := (H3Driver.Machine B).

Definition on_world (f : World B → World B) (m : Machine) : Machine := (m.1, with_world f m.2).
Definition m_world (m : Machine) : World B := world m.2.

(** Whether the state machine still holds the body that would fill an ending: the ending's
    reference count is then more than the list's own. *)
Definition body_held (a : nat) (m : Machine) : bool :=
  existsb (λ e, bool_decide (o_ending (source e.2) = a)) (map_to_list (H3Body.bodies (H3Conn.bodies m.1))).

(** [submit_trailers] as the roles call it: the fields, their views, the state machine. *)
Definition submit_trailers (stream : StreamId) (trailers : HeaderMap) (m : Machine) :
    Machine * result unit H3HttpError.Error :=
  match H3Head.trailer_fields trailers with
  | Err e => (m, Err e)
  | Ok fields =>
      match H3Head.views fields with
      | Err e => (m, Err e)
      | Ok views =>
          let '(m, r) := ConnOps.submit_trailers stream views m in
          (m, map_err H3HttpError.from_core r)
      end
  end.

(** The loop of [finish_bodies]: every ending reported is taken, and acted on with [on_failed]
    or by submitting its trailers; the indices of those taken, in order. *)
Fixpoint finish_loop (on_failed : StreamId → World B → World B) (index : nat)
    (endings_ : list (StreamId * nat)) (m : Machine) :
    Machine * result (list nat) H3HttpError.Error :=
  match endings_ with
  | [] => (m, Ok [])
  | (stream, a) :: rest =>
      match endings (m_world m) !! a with
      | Some (Some ending) =>
          let m := on_world (λ w, Fields.set_endings (<[a := None]> (endings w)) w) m in
          let '(m, r) :=
            match ending with
            | Clean => (m, Ok ())
            | H3Shared.EndTrailers t => submit_trailers stream t m
            | EndFailed => (on_world (on_failed stream) m, Ok ())
            end in
          match r with
          | Err e => (m, Err e)
          | Ok _ =>
              let '(m, r) := finish_loop on_failed (S index) rest m in
              (m, let? taken := r in Ok (index :: taken))
          end
      | _ => finish_loop on_failed (S index) rest m
      end
  end.

(** [finish_bodies], on the list of endings a role keeps. *)
Definition finish_bodies (on_failed : StreamId → World B → World B)
    (endings_ : list (StreamId * nat)) (m : Machine) :
    list (StreamId * nat) * Machine * result unit H3HttpError.Error :=
  let '(m, r) := finish_loop on_failed 0 endings_ m in
  match r with
  | Err e => (endings_, m, Err e)
  | Ok taken =>
      let endings_ := foldl (λ l i, swap_remove i l) endings_ (reverse taken) in
      (filter (λ e, body_held e.2 m = true) endings_, m, Ok ())
  end.

(** A body made ready for the state machine, when the message has one. *)
Definition attach (body : B) (stream : StreamId) (ending : nat) : option (Outgoing B) :=
  if body_is_end_stream body then None else Some (OutgoingOps.new body stream ending).
End Both.
End RoleOps.

(** ** client.rs *)
Record ClientRole := mkClient { spare : list StreamId; c_endings : list (StreamId * nat) }.

Module Client.
Section Client.
Context `{Wakers} `{Crate : Http} `{Boxes : BoxedErrors} `{Lib : Nghttp3} {B : Type} `{!Bodies B}.
Abbreviation Machine := (H3Driver.Machine B).
Import RoleOps.

Definition new : ClientRole := mkClient [] [].

(** A body that failed takes its exchange with it. *)
Definition on_failed (stream : StreamId) (w : World B) : World B :=
  let error := H3HttpError.new H3HttpError.Body "the caller's message body reported an error" in
  SharedOps.reset stream REQUEST_CANCELLED (Drive.fail_entry stream error error w).1.

Definition finish (s : ClientRole * Machine) : ClientRole * Machine * result unit H3HttpError.Error :=
  let '(l, m, r) := finish_bodies on_failed (c_endings s.1) s.2 in
  (mkClient (spare s.1) l, m, r).

(** One turn of the loop of [advance], on a command just popped. *)
Definition submit_one (c : Command B) (s : ClientRole * Machine) :
    ClientRole * Machine * result unit H3HttpError.Error :=
  let '(r, m) := s in
  if Cell.is_settled (c_slot c) (m_world m) then (r, m, Ok ())
  else
    match spare r with
    | [] => (r, m, Ok ())
    | stream :: rest =>
        let r := mkClient rest (c_endings r) in
        match H3Head.request_fields (c_request c) with
        | Err e => (r, on_world (Cell.fail (c_slot c) e) m, Ok ())
        | Ok fields =>
            match H3Head.views fields with
            | Err e => (r, m, Err e)
            | Ok views =>
                let '(w, ending) := Cell.ending_alloc (m_world m) in
                let m := on_world (λ _, w) m in
                let source := attach (c_body c) stream ending in
                let '(m, res) := ConnOps.submit_request stream views source m in
                match res with
                | Err e =>
                    if H3Error.is_fatal e then
                      (r, on_world (Cell.fail (c_slot c) (H3HttpError.from_core e)) m,
                       Err (H3HttpError.new H3HttpError.Connection
                         "the connection became unusable while submitting a request"))
                    else
                      (r, on_world (Cell.fail (c_slot c) (H3HttpError.new H3HttpError.Refused
                         "the connection stopped accepting new exchanges before this one began")) m,
                       Ok ())
                | Ok _ =>
                    let m := on_world (Cell.bind (c_slot c) stream) m in
                    let r :=
                      mkClient (spare r)
                        (c_endings r ++ (if source is Some _ then [(stream, ending)] else [])) in
                    (r, on_world (Cell.insert stream
                          (H3Shared.mkEntry (Some (c_slot c)) (c_incoming c))) m, Ok ())
                end
            end
        end
    end.

(** The loop: as long as there is a stream to spare and a command queued; every turn pops one,
    so their number is fuel enough. *)
Fixpoint submit_loop (fuel : nat) (s : ClientRole * Machine) :
    ClientRole * Machine * result unit H3HttpError.Error :=
  match fuel with
  | O => (s, Ok ())
  | S fuel =>
      match spare s.1 with
      | [] => (s, Ok ())
      | _ =>
          let '(w, popped) := Cell.pop (m_world s.2) in
          match popped with
          | None => (s, Ok ())
          | Some c =>
              match submit_one c (s.1, on_world (λ _, w) s.2) with
              | (s, Err e) => (s, Err e)
              | (s, Ok _) => submit_loop fuel s
              end
          end
      end
  end.

Definition client_advance (s : ClientRole * Machine) :
    ClientRole * Machine * result unit H3HttpError.Error :=
  match finish s with
  | (s, Err e) => (s, Err e)
  | (s, Ok _) => submit_loop (length (queue (m_world s.2))) s
  end.

Definition client_head (stream : StreamId) (fields : Fields) (s : ClientRole * Machine) :
    ClientRole * Machine * result unit H3HttpError.Error :=
  match H3Head.response_head fields with
  | Err e => (s, Err e)
  | Ok head =>
      if H3Head.is_informational (status head) then (s, Ok ())
      else
        (s.1, on_world (λ w,
           match Cell.entry_slot stream w with
           | Some a => Cell.complete a head w
           | None => w
           end) s.2, Ok ())
  end.

#[global] Instance client_role : Roles B ClientRole := {|
  needs_stream r w := bool_decide (spare r = []) && negb (Cell.queue_is_empty w);
  give_stream stream r := mkClient (spare r ++ [stream]) (c_endings r);
  ACCEPTS_STREAMS := false;
  advance := client_advance;
  settle := finish;
  on_head := client_head;
  on_closed _ r w := (r, w);
  busy r w := negb (Cell.queue_is_empty w) || OutgoingOps.ending_pending (c_endings r) w;
  done r w := bool_decide (handles w = 0%nat) && Cell.queue_is_empty w;
  abandon_role r w := (r, Cell.abandon_queue w)
|}.

(** [handshake_with]: a driver, its handle counted in the world. *)
Definition handshake_with `{!QuicBackends} (b : backend) (config : H3Config.Config) :
    result (H3Driver.Driver B ClientRole) H3HttpError.Error :=
  let? conn := build_conn H3Types.Client config in
  Ok (Drive.driver_new b conn world_new config new).

Definition handshake `{!QuicBackends} (b : backend) := handshake_with b H3Config.default.
End Client.
End Client.

(** ** server.rs and tasks.rs

    A service answers a request with a future.  Calling it, or polling the future, may act on
    the connection through what it was given; a future answers with a response and a body. *)
Class Services `{Wakers} `{Http} `{BoxedErrors} (B : Type) := {
  Service : Type;
  Fut : Type;
  call_service :
    Service → Request → IncomingBody → nat → Service * Fut * list (Handle.Act B);
  poll_future : World B → nat → Fut → Fut * list (Handle.Act B) * Poll (Response * B)
}.

Section ServerRole.
Context `{Services}.

(** [Tasks] is the map of futures, with the address that stands for each one's liveness;
    [Ready] is shared with the wakers and is in the world. *)
Record ServerRole := mkServer {
  service : Service;
  running : gmap Z (nat * Fut);
  s_cancels : list (StreamId * nat);
  s_endings : list (StreamId * nat);
  max_concurrent : Z
}.
End ServerRole.
Arguments ServerRole {_ _ _} B {_}.

Module Tasks.
Section Tasks.
Context `{Wakers} `{Crate : Http} `{Boxes : BoxedErrors} {B : Type} `{!Services B}.
Implicit Types (r : ServerRole B) (w : World B).
Import Fields.

Definition set_running v r : ServerRole B :=
  mkServer (service r) v (s_cancels r) (s_endings r) (max_concurrent r).
Definition set_cancels v r : ServerRole B :=
  mkServer (service r) (running r) v (s_endings r) (max_concurrent r).
Definition set_endings v r : ServerRole B :=
  mkServer (service r) (running r) (s_cancels r) v (max_concurrent r).

Definition len r : nat := size (running r).

(** A handler's liveness ends when it is dropped. *)
Definition drop_handler (h : option (nat * Fut)) w : World B :=
  match h with Some (a, _) => set_alive (delete a (alive w)) w | None => w end.

Definition start (stream : StreamId) (f : Fut) (s : ServerRole B * World B) :
    ServerRole B * World B :=
  let '(r, w) := s in
  let '(w, a) := Cell.alloc w in
  let w := set_alive (<[a := stream]> (alive w)) w in
  let w := drop_handler (running r !! stream) w in
  (set_running (<[stream := (a, f)]> (running r)) r, Handle.mark stream w).

Definition take_woken w : World B * list StreamId := (set_handlers_woken [] w, handlers_woken w).
Definition any_woken w : bool := negb (bool_decide (handlers_woken w = [])).

Definition forget (stream : StreamId) (s : ServerRole B * World B) : ServerRole B * World B :=
  let '(r, w) := s in
  let w := drop_handler (running r !! stream) w in
  (set_running (delete stream (running r)) r,
   set_handlers_woken (filter (λ s, s ≠ stream) (handlers_woken w)) w).

Definition poll (stream : StreamId) (s : ServerRole B * World B) :
    ServerRole B * World B * option (Response * B) :=
  let '(r, w) := s in
  match running r !! stream with
  | None => (r, w, None)
  | Some (a, f) =>
      let '(f, l, polled) := poll_future w a f in
      let r := set_running (<[stream := (a, f)]> (running r)) r in
      let w := Handle.acts l w in
      match polled with
      | Pending => (r, w, None)
      | Ready answer => (forget stream (r, w), Some answer)
      end
  end.

Definition abandon_all (s : ServerRole B * World B) : ServerRole B * World B :=
  let '(r, w) := s in
  (set_running ∅ r,
   set_alive (foldr (λ h, delete h.2.1) (alive w) (map_to_list (running r))) w).
End Tasks.
End Tasks.

Module Server.
Section Server.
Context `{Wakers} `{Crate : Http} `{Boxes : BoxedErrors} `{Lib : Nghttp3} {B : Type}.
Context `{!Bodies B} `{!Services B}.
Abbreviation Machine := (H3Driver.Machine B).
Implicit Types (r : ServerRole B).
Import RoleOps.

Definition new (s : Service) (config : H3Config.Config) : ServerRole B :=
  mkServer s ∅ [] [] (H3Config.c_max_concurrent_streams config).

(** A change of the role and of the world lent to it. *)
Definition lift (f : ServerRole B * World B → ServerRole B * World B)
    (s : ServerRole B * Machine) : ServerRole B * Machine :=
  let '(r, w) := f (s.1, m_world s.2) in (r, on_world (λ _, w) s.2).

(** [ServerRole::forget]. *)
Definition forget (stream : StreamId) (s : ServerRole B * World B) : ServerRole B * World B :=
  let '(r, w) := Tasks.forget stream s in
  (Tasks.set_cancels (filter (λ c, c.1 ≠ stream) (s_cancels r)) r, w).

Definition finish (s : ServerRole B * Machine) : ServerRole B * Machine * result unit H3HttpError.Error :=
  let '(l, m, r) :=
    finish_bodies (λ stream, SharedOps.reset stream REQUEST_CANCELLED) (s_endings s.1) s.2 in
  (Tasks.set_endings l s.1, m, r).

(** One turn of the loop of [advance], on a response that is ready. *)
Definition answer_one (stream : StreamId) (answer : Response * B) (s : ServerRole B * Machine) :
    ServerRole B * Machine * result unit H3HttpError.Error :=
  let '(response, body) := answer in
  if negb (Cell.contains stream (m_world s.2)) then (lift (forget stream) s, Ok ())
  else
    match H3Head.response_fields response with
    | Err _ =>
        (lift (λ s, forget stream (s.1, SharedOps.reset stream REQUEST_CANCELLED s.2)) s, Ok ())
    | Ok fields =>
        match H3Head.views fields with
        | Err e => (s, Err e)
        | Ok views =>
            let '(r, m) := s in
            let '(w, ending) := Cell.ending_alloc (m_world m) in
            let source := attach body stream ending in
            let '(m, res) := ConnOps.submit_response stream views source (on_world (λ _, w) m) in
            match res with
            | Err e => (r, m, Err (H3HttpError.from_core e))
            | Ok _ =>
                (Tasks.set_endings
                   (s_endings r ++ (if source is Some _ then [(stream, ending)] else [])) r, m, Ok ())
            end
        end
    end.

Fixpoint answer_loop (woken : list StreamId) (s : ServerRole B * Machine) :
    ServerRole B * Machine * result unit H3HttpError.Error :=
  match woken with
  | [] => (s, Ok ())
  | stream :: woken =>
      let '(r, w, polled) := Tasks.poll stream (s.1, m_world s.2) in
      let s := (r, on_world (λ _, w) s.2) in
      match polled with
      | None => answer_loop woken s
      | Some answer =>
          match answer_one stream answer s with
          | (s, Err e) => (s, Err e)
          | (s, Ok _) => answer_loop woken s
          end
      end
  end.

Definition server_advance (s : ServerRole B * Machine) :
    ServerRole B * Machine * result unit H3HttpError.Error :=
  match finish s with
  | (s, Err e) => (s, Err e)
  | ((r, m), Ok _) =>
      let '(w, woken) := Tasks.take_woken (m_world m) in
      answer_loop woken (r, on_world (λ _, w) m)
  end.

(** Refusing an exchange. *)
Definition refuse (stream : StreamId) (m : Machine) : Machine :=
  let '(m, _) := ConnOps.shutdown_stream_read stream m in
  on_world (SharedOps.reset stream REQUEST_CANCELLED) m.

Definition server_head (stream : StreamId) (fields : Fields) (s : ServerRole B * Machine) :
    ServerRole B * Machine * result unit H3HttpError.Error :=
  let '(r, m) := s in
  if max_concurrent r <=? Z.of_nat (Tasks.len r) then (r, refuse stream m, Ok ())
  else
    match H3Head.request_head fields with
    | Err _ => (r, refuse stream m, Ok ())
    | Ok head =>
        let '(w, incoming) := Cell.incoming_alloc (m_world m) in
        let w := Cell.insert stream (H3Shared.mkEntry None incoming) w in
        let body := mkIncomingBody stream false incoming in
        let '(w, cancelled) := Cell.cancel_alloc w in
        let r := Tasks.set_cancels (s_cancels r ++ [(stream, cancelled)]) r in
        let '(service, future, l) := call_service (service r) head body cancelled in
        let r := mkServer service (running r) (s_cancels r) (s_endings r) (max_concurrent r) in
        let '(r, w) := Tasks.start stream future (r, Handle.acts l w) in
        (r, on_world (λ _, w) m, Ok ())
    end.

Definition server_closed (stream : StreamId) (r : ServerRole B) (w : World B) :
    ServerRole B * World B :=
  match list_find (λ c, c.1 = stream) (s_cancels r) with
  | Some (i, (_, a)) => (Tasks.set_cancels (swap_remove i (s_cancels r)) r, Handle.trip a w)
  | None => (r, w)
  end.

Definition server_abandon (r : ServerRole B) (w : World B) : ServerRole B * World B :=
  Tasks.abandon_all (r, foldl (λ w c, Handle.trip c.2 w) w (s_cancels r)).

#[global] Instance server_role : Roles B (ServerRole B) := {|
  needs_stream _ _ := false;
  give_stream _ r := r;
  ACCEPTS_STREAMS := true;
  advance := server_advance;
  settle := finish;
  on_head := server_head;
  on_closed := server_closed;
  busy r w := Tasks.any_woken w || OutgoingOps.ending_pending (s_endings r) w;
  done _ _ := false;
  abandon_role := server_abandon
|}.

(** [serve_with]. *)
Definition serve_with `{!QuicBackends} (b : backend) (s : Service) (config : H3Config.Config) :
    result (H3Driver.Driver B (ServerRole B)) H3HttpError.Error :=
  let? conn := build_conn H3Types.Server config in
  Ok (Drive.driver_new b conn world_new config (new s config)).

Definition serve `{!QuicBackends} (b : backend) (s : Service) := serve_with b s H3Config.default.
End Server.
End Server.
