(* ===== verification/H3Keeps.v ===== *)
(** * What a call of the HTTP/3 state machine may do to what it is lent

    Every public operation of the wrapper leaves the handlers as they are, and changes the
    caller's state only through them and through the bodies it pulls: what those keep, every
    operation keeps ([kept_op]). *)

From Stdlib Require Import ZArith Lia.
From stdpp Require Import base list gmap strings.
From S2P Require Import Prelude Traces H3Types H3Body H3Conn H3Safety.

Section Machine.
Context `{Recorded} {S C : Type} `{!BodySource S C}.
Variable (hs : Handlers C) (I : C → Prop).
Abbreviation Conn := (H3Conn.Conn nghttp3_conn S C).
Abbreviation St := (ConnOps.St (S:=S) (C:=C)).
Implicit Types (c : C) (s : St).

(** What the handlers must keep, one clause per handler. *)
Record handlers_keep : Prop := {
  hk_consume f st n c : deferred_consume hs = Some f → I c → I (f st n c);
  hk_begin f st k c : section_begin hs = Some f → I c → I (f st k c);
  hk_field f st k t n v c : field hs = Some f → I c → I (f st k t n v c).1;
  hk_section_end f st k c : section_end hs = Some f → I c → I (f st k c);
  hk_data f st d c : data hs = Some f → I c → I (f st d c);
  hk_end f st c : end_stream hs = Some f → I c → I (f st c);
  hk_close f st cl c : stream_close hs = Some f → I c → I (f st cl c);
  hk_stop f st n c : stop_sending hs = Some f → I c → I (f st n c);
  hk_reset f st n c : reset_stream hs = Some f → I c → I (f st n c);
  hk_shutdown f sh c : shutdown hs = Some f → I c → I (f sh c);
  hk_settings f ps c : peer_settings hs = Some f → I c → I (f ps c)
}.

Definition source_keeps : Prop := ∀ t c (b : S), I c → I (source_next (t, c) b).1.1.2.

Hypothesis Hh : handlers_keep.
Hypothesis Hs : source_keeps.

Lemma kept_reading t c veccnt (e : BodyEntry S) : I c → I (Entry.read_data (t, c) veccnt e).1.1.2.
Proof.
  intros Hc. unfold Entry.read_data, Entry.begin_round.
  pose proof (Hs t c (source e) Hc) as Hn.
  repeat (case_match; simplify_eq/=; try done).
Qed.

(** A callback that answers for a stream. *)
Lemma kept_on_stream z f (br : Bridge S C) :
  (∀ st, I (b_context br) → I (b_context (f st br))) → I (b_context br) →
  ∃ br', (Callbacks.on_stream (Some br) z f).1 = Some br' ∧ I (b_context br').
Proof using.
  clear Hh Hs. intros Hf Hb. unfold Callbacks.on_stream. destruct (H3Stream.new z); eauto.
Qed.

Lemma kept_handler {F} (h : option F) f (br : Bridge S C) :
  (∀ g, h = Some g → I (b_context br) → I (f g (b_context br))) → I (b_context br) →
  I (b_context (Callbacks.with_handler h f br)).
Proof using. clear Hh Hs. destruct h; simpl; eauto. Qed.

Lemma kept_callback ro (br : Bridge S C) cb :
  I (b_context br) →
  ∃ br', (Callbacks.callbacks hs ro (Some br) cb).1 = Some br' ∧ I (b_context br').
Proof.
  intros Hb. destruct Hh. destruct cb; cbn [Callbacks.callbacks];
    unfold Callbacks.deferred_consume_cb, Callbacks.section_boundary_cb, Callbacks.section_end_cb,
      Callbacks.field_cb, Callbacks.recv_data_cb, Callbacks.acked_stream_data_cb,
      Callbacks.end_stream_cb, Callbacks.stream_close_cb, Callbacks.stop_sending_cb,
      Callbacks.reset_stream_cb.
  all: try (apply kept_on_stream; [|done]; intros st _).
  - destruct (deferred_consume hs) eqn:E; simpl; eauto.
  - apply kept_handler; eauto.
  - case_match; [done|]. destruct (field hs) as [f|] eqn:E; [|done].
    pose proof (hk_field0 f st Headers (token_from_raw token) (Callbacks.rcbuf_bytes name)
      (Callbacks.rcbuf_bytes value) _ eq_refl Hb) as Hf.
    destruct (f _ _ _ _ _ _) as [c' a]. by case_decide.
  - apply kept_handler; eauto.
  - apply kept_handler; eauto.
  - case_match; [done|]. destruct (field hs) as [f|] eqn:E; [|done].
    pose proof (hk_field0 f st Trailers (token_from_raw token) (Callbacks.rcbuf_bytes name)
      (Callbacks.rcbuf_bytes value) _ eq_refl Hb) as Hf.
    destruct (f _ _ _ _ _ _) as [c' a]. by case_decide.
  - apply kept_handler; eauto.
  - apply kept_handler; eauto.
  - by case_match.
  - apply kept_handler; eauto.
  - apply kept_handler; eauto.
  - apply kept_handler; eauto.
  - apply kept_handler; eauto.
  - unfold Callbacks.shutdown_cb. simpl. eexists. split; [done|]. apply kept_handler; eauto.
  - unfold Callbacks.recv_settings_cb. destruct settings; simpl; eexists; (split; [done|]);
      [apply kept_handler; eauto | done].
  - unfold Callbacks.read_data_cb. destruct (H3Stream.new stream_id) as [st|]; [|eauto].
    destruct (Registry.entry_mut st _) as [e|]; [|eauto].
    pose proof (kept_reading (b_time br) (b_context br) veccnt e Hb) as Hr.
    destruct (Entry.read_data _ _ _) as [[[t c'] e'] a]. simpl. eauto.
Qed.

Lemma kept_runs ro (br : Bridge S C) tr b' :
  I (b_context br) → runs (Callbacks.callbacks hs ro) (Some br) tr b' →
  ∃ br', b' = Some br' ∧ I (b_context br').
Proof.
  intros Hb. induction 1 as [|tr b1 cb b2 a Hr (br1 & -> & Hb1) Hcb]; [eauto|].
  destruct (kept_callback ro br1 cb Hb1) as (br2 & E & ?). rewrite Hcb in E. simpl in E. eauto.
Qed.

(** *** The operations *)
Definition J s : Prop := handlers s.1 = hs ∧ I s.2.
Definition kept {A} (m : ConnOps.M (S:=S) (C:=C) A) : Prop := ∀ s, J s → J (m s).1.

Lemma kept_bind {A A'} (m : ConnOps.M A) (k : A → ConnOps.M A') :
  kept m → (∀ a, kept (k a)) → kept (ConnOps.bind m k).
Proof using.
  clear Hh Hs. intros Hm Hk s Hj. unfold ConnOps.bind. specialize (Hm s Hj).
  destruct (m s) as [s1 [a|e]]; simpl in *; [by apply Hk | done].
Qed.

Lemma kept_plain {A} (m : ConnOps.M A) :
  (∀ s, handlers (m s).1.1 = handlers s.1 ∧ (m s).1.2 = s.2) → kept m.
Proof using. clear Hh Hs. intros Hm s [H1 H2]. destruct (Hm s) as [E1 E2]. split; congruence. Qed.

Lemma kept_ret {A} (a : A) : kept (ConnOps.ret a).
Proof using. clear Hh Hs. by intros s. Qed.
Lemma kept_throw {A} e : kept (ConnOps.throw (A:=A) e).
Proof using. clear Hh Hs. by intros s. Qed.
Lemma kept_gets {A} (f : Conn → A) : kept (ConnOps.gets f).
Proof using. clear Hh Hs. by intros s. Qed.
Lemma kept_modify f : (∀ c : Conn, handlers (f c) = handlers c) → kept (ConnOps.modify f).
Proof using. clear Hh Hs. intros Hf. apply kept_plain. intros s. split; [apply Hf | done]. Qed.
Lemma kept_require cond ctx : kept (ConnOps.require cond ctx).
Proof using. clear Hh Hs. apply kept_plain. intros s. unfold ConnOps.require. by case_match. Qed.
Lemma kept_check_usable : kept ConnOps.check_usable.
Proof using. clear Hh Hs. apply kept_plain. intros s. unfold ConnOps.check_usable. by case_match. Qed.
Lemma kept_record {A} rv ctx path : kept (ConnOps.record (A:=A) rv ctx path).
Proof using.
  clear Hh Hs. apply kept_plain. intros [c u]. unfold ConnOps.record. by case_match.
Qed.
Lemma kept_attach x body : kept (ConnOps.attach_body x body).
Proof using.
  clear Hh Hs. apply kept_plain. intros s. unfold ConnOps.attach_body. destruct body; [|done].
  by destruct (Registry.attach _ _ _).
Qed.
Lemma kept_acked x n :
  kept (λ s : St, let '(r, res) := Registry.record_acked x n (bodies s.1) in
                  ((ConnOps.set_bodies r s.1, s.2), res)).
Proof using. clear Hh Hs. apply kept_plain. intros s. by destruct (Registry.record_acked _ _ _). Qed.
Lemma kept_take : kept ConnOps.take_deferred_credit.
Proof using.
  clear Hh Hs. apply kept_plain. intros s. unfold ConnOps.take_deferred_credit.
  by destruct (Deliveries.take_credit _).
Qed.
Lemma kept_native rq : kept (ConnOps.native rq).
Proof using.
  clear Hh Hs. apply kept_plain. intros [c u]. unfold ConnOps.native.
  by destruct (nghttp3_call _ _ _ _ _) as [[? ?] ?].
Qed.
Lemma kept_with_context rq : kept (ConnOps.with_context rq).
Proof.
  intros [c u] [E Hu]. simpl in *. unfold ConnOps.with_context.
  destruct (nghttp3_call _ _ _ _ _) as [[n b] r] eqn:Ec.
  destruct (calls_of_call _ _ _ _ _ _ _ _ Ec) as (tr & _ & Hr). rewrite E in Hr.
  eapply kept_runs in Hr as (br & -> & Hb); [|done]. by split.
Qed.

Lemma kept_acquire s s' r : J s → ConnOps.acquire s = Some (s', r) → J s'.
Proof.
  intros Hj. unfold ConnOps.acquire.
  assert (Hb : kept ConnOps.require_bound).
  { apply kept_bind; [apply kept_require | intros ?; apply kept_require]. }
  specialize (Hb s Hj). destruct (ConnOps.require_bound s) as [s1 [[]|e]]; simpl in Hb;
    [|by intros [= <- <-]].
  pose proof (kept_with_context (ReqWritevStream ConnOps.MAX_VECTORS) s1 Hb) as Hc.
  destruct (ConnOps.with_context _ s1) as [s2 [rs|e]]; simpl in Hc; [|by intros [= <- <-]].
  destruct (rs_rv rs <? 0).
  { intros [= E]. pose proof (kept_record (A:=option ConnOps.SendGuard)
      (ConnOps.narrow (rs_rv rs)) "could not collect data to send" true s2 Hc) as Hr.
    by rewrite E in Hr. }
  repeat case_match; intros; simplify_eq; done.
Qed.

Lemma kept_writev s s' r : J s → ConnOps.writev_stream s = Some (s', r) → J s'.
Proof.
  intros Hj. unfold ConnOps.writev_stream. pose proof (kept_check_usable s Hj) as Hu.
  destruct (ConnOps.check_usable s) as [s1 [[]|e]]; simpl in Hu; [|by intros [= <- <-]].
  by apply kept_acquire.
Qed.
End Machine.

(** An operation of the connection, from the combinators it is written with. *)
Create HintDb kept.
#[export] Hint Resolve kept_ret kept_throw kept_gets kept_require kept_check_usable
  kept_native kept_with_context kept_record kept_attach kept_acked kept_take : kept.

Ltac kept :=
  repeat first
    [ solve [eauto with kept]
    | apply kept_bind; [|intros ?]
    | apply kept_modify; by intros []
    | progress unfold ConnOps.require_bound, ConnOps.require_control_bound,
        ConnOps.require_local_unidirectional, ConnOps.require_unused, ConnOps.checked,
        ConnOps.invalid, ConnOps.detach_attached
    | case_match ].

Section Operations.
Context `{Recorded} {S C : Type} `{!BodySource S C}.
Variable (hs : Handlers C) (I : C → Prop).
Hypothesis Hh : handlers_keep hs I.
Hypothesis Hs : source_keeps (S:=S) I.
Abbreviation kept := (H3Keeps.kept (S:=S) hs I).

Lemma kept_bind_control x : kept (ConnOps.bind_control_stream x).
Proof. unfold ConnOps.bind_control_stream. by kept. Qed.
Lemma kept_bind_qpack e d : kept (ConnOps.bind_qpack_streams e d).
Proof. unfold ConnOps.bind_qpack_streams. by kept. Qed.
Lemma kept_read_stream x src fin now : kept (ConnOps.read_stream x src fin now).
Proof. unfold ConnOps.read_stream. by kept. Qed.
Lemma kept_submit_request x fs b : kept (ConnOps.submit_request x fs b).
Proof. unfold ConnOps.submit_request. by kept. Qed.
Lemma kept_submit_response x fs b : kept (ConnOps.submit_response x fs b).
Proof. unfold ConnOps.submit_response. by kept. Qed.
Lemma kept_submit_trailers x fs : kept (ConnOps.submit_trailers x fs).
Proof. unfold ConnOps.submit_trailers. by kept. Qed.
Lemma kept_close_stream x how : kept (ConnOps.close_stream_with x how).
Proof. unfold ConnOps.close_stream_with. by kept. Qed.
Lemma kept_add_ack x n : kept (ConnOps.add_ack_offset x n).
Proof. unfold ConnOps.add_ack_offset. by kept. Qed.
Lemma kept_block x : kept (ConnOps.block_stream x).
Proof. unfold ConnOps.block_stream. by kept. Qed.
Lemma kept_unblock x : kept (ConnOps.unblock_stream x).
Proof. unfold ConnOps.unblock_stream. by kept. Qed.
Lemma kept_resume x : kept (ConnOps.resume_stream x).
Proof. unfold ConnOps.resume_stream. by kept. Qed.
Lemma kept_shutdown : kept ConnOps.shutdown.
Proof. unfold ConnOps.shutdown. by kept. Qed.
Lemma kept_shutdown_read x : kept (ConnOps.shutdown_stream_read x).
Proof. unfold ConnOps.shutdown_stream_read. by kept. Qed.
Lemma kept_shutdown_write x : kept (ConnOps.shutdown_stream_write x).
Proof. unfold ConnOps.shutdown_stream_write. by kept. Qed.
Lemma kept_commit g n : kept (ConnOps.commit g n).
Proof. unfold ConnOps.commit. by kept. Qed.
End Operations.

#[export] Hint Resolve kept_bind_control kept_bind_qpack kept_read_stream kept_submit_request
  kept_submit_response kept_submit_trailers kept_close_stream kept_add_ack kept_block
  kept_unblock kept_resume kept_shutdown kept_shutdown_read kept_shutdown_write
  kept_commit : kept.
