(* ===== verification/H3Worlds.v ===== *)
(** * The cells of an HTTP/3 connection, over any use of its handles

    What a caller's step may do to the exchanges the driver answers for: a slot that is not
    settled is [held] by a queued request or by an exchange under way, and every change of
    the world is one of three kinds, [calm], [released] or a request submitted. *)

From Stdlib Require Import ZArith Lia Strings.Byte.
From stdpp Require Import base list gmap strings sorting.
From S2P Require Import Prelude HttpCrate QmuxScheduling H3Types H3Head H3Shared.

Section Accounts.
Context `{Wakers} `{Crate : Http} `{Boxes : BoxedErrors} {B : Type}.
Implicit Types (w : World B) (a : nat).
Import Fields.

(** A slot whose future has not been answered. *)
Definition unsettled w a : Prop := ∃ s, slots w !! a = Some s ∧ settled s = false.

(** The command a call of [send_request] under way has still to push. *)
Definition to_push (x : SendAt B) : option (Command B) :=
  match x with SendAdmitting c | SendPushing c => Some c | SendWaking => None end.

Definition sending w a : Prop := ∃ x c, x ∈ sends w ∧ to_push x = Some c ∧ c_slot c = a.

(** Something will answer it: a request in the queue, a call of [send_request] under way, or
    an exchange in the registry. *)
Definition held w a : Prop :=
  (∃ c, c ∈ queue w ∧ c_slot c = a) ∨ sending w a ∨
  ∃ stream e, entries w !! stream = Some e ∧ e_slot e = Some a.

Definition accounted_but (X : nat → Prop) w : Prop := ∀ a, unsettled w a → X a ∨ held w a.
Definition accounted w : Prop := ∀ a, unsettled w a → held w a.

Lemma accounted_none w : accounted w ↔ accounted_but (λ _, False) w.
Proof. split; intros Ha a Hu; [right | destruct (Ha a Hu) as [[]|]]; eauto. Qed.

(** No exchange begins or ends, and no future is forgotten. *)
Record calm w w' : Prop := {
  calm_slots a : unsettled w' a → unsettled w a;
  calm_entries : entries w' = entries w;
  calm_queue : queue w' = queue w;
  calm_sends : sends w' = sends w
}.

(** One exchange, if there is one on the stream, is let go of, its future answered. *)
Record released (stream : StreamId) w w' : Prop := {
  rel_slots a : unsettled w' a → unsettled w a;
  rel_entries : entries w' = delete stream (entries w);
  rel_queue : queue w' = queue w;
  rel_sends : sends w' = sends w;
  rel_settled e a : entries w !! stream = Some e → e_slot e = Some a → ¬ unsettled w' a
}.

Lemma calm_refl w : calm w w.
Proof. by split. Qed.

Lemma calm_trans w1 w2 w3 : calm w1 w2 → calm w2 w3 → calm w1 w3.
Proof.
  intros [S1 E1 Q1 N1] [S2 E2 Q2 N2]. split; [by eauto | congruence..].
Qed.

Lemma released_calm stream w1 w2 w3 : released stream w1 w2 → calm w2 w3 → released stream w1 w3.
Proof.
  intros [S1 E1 Q1 N1 X1] [S2 E2 Q2 N2]. split; [by eauto | congruence.. |].
  intros e a He Ha Hu. by eapply X1; [.. | apply S2].
Qed.

(** The fields an account reads. *)
Lemma calm_stays w w' :
  slots w' = slots w → entries w' = entries w → queue w' = queue w → sends w' = sends w →
  calm w w'.
Proof. intros E ? ? ?. split; [|done..]. intros a (s & Hs & ?). exists s. by rewrite <-E. Qed.

Lemma calm_held w w' a : calm w w' → held w a → held w' a.
Proof. intros [_ E1 Q1 N1]. unfold held, sending. by rewrite E1, Q1, N1. Qed.

Lemma calm_accounted X w w' : calm w w' → accounted_but X w → accounted_but X w'.
Proof.
  intros Hc Ha a Hu. destruct (Ha a (calm_slots _ _ Hc a Hu)) as [?|?]; [by left | right].
  by eapply calm_held.
Qed.

Lemma released_accounted X stream w w' :
  released stream w w' → accounted_but X w → accounted_but X w'.
Proof.
  intros [S1 E1 Q1 N1 X1] Ha a Hu. unfold held, sending. rewrite Q1, N1.
  destruct (Ha a (S1 a Hu)) as [?|[?|[?|(k & e & He & Hs)]]]; [tauto..|].
  right. right. right. exists k, e. rewrite E1. split; [|done].
  rewrite lookup_delete_ne; [done|]. intros ->. by eapply X1.
Qed.

(** *** Slots *)
Lemma unsettled_alter w a f b :
  (∀ s, settled (f s) = false → settled s = false) →
  unsettled (Cell.on_slot a f w) b → unsettled w b.
Proof.
  intros Hf (s & Hs & Hu). unfold Cell.on_slot in Hs. simpl in Hs.
  destruct (decide (a = b)) as [->|Hn].
  - rewrite lookup_alter in Hs. rewrite decide_True in Hs by done.
    destruct (slots w !! b) as [s0|] eqn:E; simplify_eq/=. exists s0. eauto.
  - rewrite lookup_alter_ne in Hs by done. by exists s.
Qed.

Lemma calm_on_slot w a f :
  (∀ s, settled (f s) = false → settled s = false) → calm w (Cell.on_slot a f w).
Proof. intros Hf. split; [|done..]. intros b. by apply unsettled_alter. Qed.

Lemma calm_wake w ws : calm w (wake ws w).
Proof. by apply calm_stays. Qed.

Lemma calm_settle a r w : calm w (Cell.settle a r w).
Proof.
  unfold Cell.settle. destruct (settled _); [apply calm_refl|].
  eapply calm_trans; [|apply calm_wake]. by apply calm_on_slot.
Qed.

Lemma settle_settles a r w : ¬ unsettled (Cell.settle a r w) a.
Proof.
  unfold Cell.settle, Cell.slot. intros (s & Hs & Hu).
  destruct (slots w !! a) as [s0|] eqn:E; simpl in Hs.
  - destruct (settled s0) eqn:E0; simpl in Hs; [congruence|].
    rewrite lookup_alter, decide_True, E in Hs by done. by simplify_eq/=.
  - by rewrite lookup_alter, decide_True, E in Hs by done.
Qed.

Lemma calm_on_incoming a f w : calm w (Cell.on_incoming a f w).
Proof. by apply calm_stays. Qed.

Lemma calm_and_wake a f w : calm w (Cell.and_wake a f w).
Proof. by apply calm_stays. Qed.

Lemma calm_fail_incoming a e w : calm w (Cell.fail_incoming a e w).
Proof. apply calm_and_wake. Qed.
Lemma calm_finish a w : calm w (Cell.finish a w).
Proof. apply calm_and_wake. Qed.
Lemma calm_push a chunk w : calm w (Cell.push a chunk w).
Proof. unfold Cell.push. case_match; [apply calm_refl | apply calm_and_wake]. Qed.
Lemma calm_set_trailers a m w : calm w (Cell.set_trailers a m w).
Proof. unfold Cell.set_trailers. case_match; [apply calm_refl | apply calm_and_wake]. Qed.

Lemma calm_poll a waker w : calm w (Cell.poll a waker w).1.
Proof. unfold Cell.poll. repeat case_match; by apply calm_stays. Qed.

Lemma calm_abandon a w : calm w (Cell.abandon a w).1.
Proof. by apply calm_stays. Qed.

Lemma calm_on_shared f w : calm w (on_shared f w).
Proof. by apply calm_stays. Qed.

Lemma calm_mark_ready stream w : calm w (SharedOps.mark_ready stream w).1.
Proof. unfold SharedOps.mark_ready. case_decide; [apply calm_refl | apply calm_on_shared]. Qed.

Lemma calm_wake_driver w : calm w (SharedOps.wake_driver w).
Proof. apply calm_wake. Qed.

Lemma calm_reset stream code w : calm w (SharedOps.reset stream code w).
Proof. apply calm_on_shared. Qed.

Lemma calm_body_credit b n w : calm w (Handle.body_credit b n w).
Proof.
  unfold Handle.body_credit. case_match; [apply calm_refl|].
  eapply calm_trans; [apply calm_on_shared | apply calm_wake].
Qed.

Lemma calm_slot_poll a waker w : calm w (Cell.slot_poll a waker w).1.
Proof. unfold Cell.slot_poll. by case_match; apply calm_on_slot. Qed.

Lemma calm_trip a w : calm w (Handle.trip a w).
Proof. by apply calm_stays. Qed.

Lemma calm_mark stream w : calm w (Handle.mark stream w).
Proof. unfold Handle.mark. case_decide; by apply calm_stays. Qed.

(** *** Entries *)
Lemma released_remove stream w w' :
  calm (Cell.remove stream w).1 w' →
  (∀ e a, entries w !! stream = Some e → e_slot e = Some a → ¬ unsettled w' a) →
  released stream w w'.
Proof. intros [S1 E1 Q1 N1] Hx. by split. Qed.

(** *** The steps of a caller *)

(** An act other than a step of [send_request]. *)
Definition not_sending (x : Handle.Act B) : Prop :=
  match x with Handle.ASend _ _ | Handle.ASendStep _ => False | _ => True end.

(** Submitting a request is the one thing that is not calm. *)
Lemma act_calm (x : Handle.Act B) w : not_sending x → calm w (Handle.act x w).
Proof.
  intros Hx. destruct x; simpl; try done; try (by apply calm_stays).
  - unfold Handle.future_poll. pose proof (calm_slot_poll (f_slot f) waker w) as Hc.
    destruct (Cell.slot_poll _ _ _) as [w1 [[head|e]|]]; simpl in *; try done.
    destruct (Cell.stream_of _ _); [done | apply calm_refl].
  - unfold Handle.drop_future. destruct (f_settled f); [apply calm_refl|].
    eapply calm_trans; [apply calm_settle|]. case_match; [|apply calm_refl].
    eapply calm_trans; [apply calm_reset | apply calm_wake_driver].
  - unfold Handle.poll_frame. pose proof (calm_poll (ib_incoming b) waker w) as Hc.
    destruct (Cell.poll _ _ _) as [w1 []]; simpl in *; try done.
    eapply calm_trans; [done | apply calm_body_credit].
  - unfold Handle.drop_body. simpl.
    eapply calm_trans; [apply (calm_abandon (ib_incoming b))|]. simpl.
    eapply calm_trans; [apply calm_body_credit|]. case_match; [|apply calm_refl].
    eapply calm_trans; [apply calm_reset | apply calm_wake_driver].
  - unfold Handle.clone. case_decide; by apply calm_stays.
  - unfold Handle.cancelled_poll. repeat case_match; by apply calm_stays.
  - unfold Handle.wake_body.
    pose proof (calm_mark_ready stream w) as Hc. destruct (SharedOps.mark_ready _ _) as [w1 []];
      simpl in *; [|done]. by eapply calm_trans, calm_wake_driver.
  - unfold Handle.wake_handler. case_match; [|apply calm_refl].
    eapply calm_trans; [apply calm_mark | apply calm_wake_driver].
Qed.

Lemma sending_act (x : Handle.Act B) :
  not_sending x ∨ (∃ request body, x = Handle.ASend request body) ∨ ∃ i, x = Handle.ASendStep i.
Proof. destruct x; simpl; eauto. Qed.

(** The cells a request starts with. *)
Lemma begin_unsettled w :
  let w0 := (Cell.incoming_alloc (Cell.slot_alloc w).1).1 in
  ∀ b, unsettled w0 b → b = next_address w ∨ unsettled w b.
Proof.
  intros w0 b (s & Hs & Hu). simpl in Hs. destruct (decide (next_address w = b)) as [->|Hn];
    [by left|]. right. exists s. by rewrite lookup_insert_ne in Hs.
Qed.

Lemma accounted_send X request body w :
  accounted_but X w → accounted_but X (Handle.send_request request body w).1.
Proof.
  intros Ha. unfold Handle.send_request. pose proof (begin_unsettled w) as Hsub. simpl in *.
  set (w0 := set_incomings _ _) in *. set (slot := next_address w) in *.
  assert (Hq : ∀ b, unsettled w b → X b ∨ held w0 b) by (intros b Hb; by apply Ha in Hb).
  destruct (SharedOps.is_gone w0); intros b Hb.
  - pose proof (calm_settle slot (Err (H3HttpError.new H3HttpError.Closed
      "the connection is gone")) w0) as Hc.
    destruct (Hsub b (calm_slots _ _ Hc b Hb)) as [->|Hu].
    + by destruct (settle_settles slot (Err (H3HttpError.new H3HttpError.Closed
        "the connection is gone")) w0).
    + destruct (Hq b Hu) as [?|?]; [by left | right]. by eapply calm_held.
  - set (x := SendAdmitting (mkCommand request body slot (S slot))) in *.
    assert (Hin : ∀ y, y ∈ sends w0 → y ∈ sends w0 ++ [x]) by (intros; by apply elem_of_app; left).
    destruct (Hsub b Hb) as [->|Hu].
    + right. right. left. eexists x, _. split; [|done].
      apply elem_of_app. right. by apply list_elem_of_singleton.
    + destruct (Hq b Hu) as [?|[?|[(y & c & ? & ?)|?]]];
        [by left | by right; left | right; right; left | by right; right; right].
      exists y, c. split; [by apply Hin | done].
Qed.

(** A call that moves on, or is over. *)
Lemma sends_insert (l : list (SendAt B)) i x y z :
  l !! i = Some x → z ∈ l → z = x ∨ z ∈ <[i:=y]> l.
Proof.
  intros Hi [j Hj]%list_elem_of_lookup. destruct (decide (i = j)) as [->|Hn]; [left; congruence|].
  right. apply list_elem_of_lookup. exists j. by rewrite list_lookup_insert_ne.
Qed.

Lemma sends_delete (l : list (SendAt B)) i x z :
  l !! i = Some x → z ∈ l → z = x ∨ z ∈ delete i l.
Proof.
  intros Hi Hz. rewrite (delete_take_drop l i), elem_of_app.
  rewrite <-(take_drop_middle l i x Hi), elem_of_app, list.elem_of_cons in Hz. tauto.
Qed.

Lemma sends_insert_in (l : list (SendAt B)) i x y : l !! i = Some x → y ∈ <[i:=y]> l.
Proof.
  intros Hi. apply list_elem_of_lookup. exists i. apply list_lookup_insert_eq.
  by eapply lookup_lt_Some.
Qed.

Lemma accounted_send_step X i w :
  accounted_but X w → accounted_but X (Handle.send_step i w).
Proof.
  intros Ha. unfold Handle.send_step. destruct (sends w !! i) as [[c|c|]|] eqn:Ei; [..|done].
  - destruct (SharedOps.is_refusing w); intros b Hb.
    + set (w1 := set_sends _ w) in *. unfold Cell.fail in *.
      match goal with |- context [Cell.settle ?a ?r w1] =>
        pose proof (calm_settle a r w1) as Hc; pose proof (settle_settles a r w1) as Hs end.
      assert (Hu : unsettled w b) by exact (calm_slots _ _ Hc b Hb).
      destruct (Ha b Hu) as [?|Hh]; [by left | right]. eapply calm_held; [exact Hc|].
      destruct Hh as [?|[(x & c' & Hx & Hp & E)|?]]; [by left | | by right; right].
      right. left. destruct (sends_delete _ _ _ x Ei Hx) as [->|Hd]; [|by exists x, c'].
      simplify_eq/=. by destruct (Hs Hb).
    + destruct (Ha b Hb) as [?|[?|[(x & c' & Hx & Hp & E)|?]]];
        [by left | by right; left | right; right; left | by right; right; right].
      destruct (sends_insert _ _ _ (SendPushing c) x Ei Hx) as [->|Hd]; [|by exists x, c'].
      exists (SendPushing c), c'. split; [by eapply sends_insert_in | done].
  - intros b Hb. destruct (Ha b Hb) as [?|[(c' & Hc & E)|[(x & c' & Hx & Hp & E)|?]]];
      [by left | right; left | | by right; right; right].
    + exists c'. split; [by apply elem_of_app; left | done].
    + right. destruct (sends_insert _ _ _ SendWaking x Ei Hx) as [->|Hd]; [|right; left; by exists x, c'].
      simplify_eq/=. left. exists c'. split; [|done].
      apply elem_of_app. right. by apply list_elem_of_singleton.
  - intros b Hb. destruct (Ha b Hb) as [?|[?|[(x & c' & Hx & Hp & E)|?]]];
      [by left | by right; left | right; right; left | by right; right; right].
    destruct (sends_delete _ _ _ x Ei Hx) as [->|Hd]; [done | by exists x, c'].
Qed.

Lemma accounted_act X (x : Handle.Act B) w :
  accounted_but X w → accounted_but X (Handle.act x w).
Proof.
  intros Ha. destruct (sending_act x) as [Hx|[(request & body & ->)|[i ->]]].
  - by eapply calm_accounted; [apply act_calm|].
  - by apply accounted_send.
  - by apply accounted_send_step.
Qed.

(** No act touches the registry. *)
Lemma act_entries (x : Handle.Act B) w : entries (Handle.act x w) = entries w.
Proof.
  destruct (sending_act x) as [Hx|[(request & body & ->)|[i ->]]]; [by apply act_calm|..]; simpl.
  - unfold Handle.send_request. simpl. case_match; [|done]. unfold Cell.fail.
    match goal with |- entries (Cell.settle ?a ?r ?v) = _ =>
      rewrite (calm_entries _ _ (calm_settle a r v)) end. done.
  - unfold Handle.send_step. repeat case_match; try done. unfold Cell.fail.
    match goal with |- entries (Cell.settle ?a ?r ?v) = _ =>
      rewrite (calm_entries _ _ (calm_settle a r v)) end. done.
Qed.

Lemma settle_shared a r w : shared (Cell.settle a r w) = shared w.
Proof. unfold Cell.settle. by case_match. Qed.

(** An ended connection stays ended, and takes no more requests. *)
Lemma act_gone (x : Handle.Act B) w :
  SharedOps.is_gone w = true → SharedOps.is_gone (Handle.act x w) = true.
Proof.
  unfold SharedOps.is_gone. intros Hg. destruct x; simpl; try done.
  - unfold Handle.send_request. simpl.
    repeat case_match; simpl; try done; unfold Cell.fail; by rewrite settle_shared.
  - unfold Handle.send_step.
    repeat case_match; simpl; try done; unfold Cell.fail; by rewrite settle_shared.
  - unfold Handle.future_poll, Cell.slot_poll.
    repeat (case_match; simplify_eq/=; try done).
  - unfold Handle.drop_future, Cell.fail. case_match; [done|].
    unfold SharedOps.reset, Fields.on_shared.
    case_match; simpl; [case_match; simpl|]; by rewrite settle_shared.
  - unfold Handle.poll_frame, Cell.poll, Handle.body_credit.
    repeat (case_match; simplify_eq/=; try done).
  - unfold Handle.drop_body, Cell.abandon, Handle.body_credit, SharedOps.reset, Fields.on_shared.
    repeat (case_match; simplify_eq/=; try done).
  - unfold Handle.clone. by case_decide.
  - unfold Handle.cancelled_poll. repeat (case_match; simplify_eq/=; try done).
  - unfold Handle.wake_body, SharedOps.mark_ready. repeat (case_match; simplify_eq/=; try done).
  - unfold Handle.wake_handler, Handle.mark. repeat (case_match; simplify_eq/=; try done).
Qed.

(** Once the connection has ended no future begins to wait: a request submitted then is
    answered at once. *)
Lemma act_unsettled_gone (x : Handle.Act B) w a :
  SharedOps.is_gone w = true → unsettled (Handle.act x w) a → unsettled w a.
Proof.
  intros Hg. destruct (sending_act x) as [Hx|[(request & body & ->)|[i ->]]].
  - by apply act_calm.
  - simpl. unfold Handle.send_request. pose proof (begin_unsettled w a) as Hsub. simpl in *.
    set (w0 := set_incomings _ _) in *.
    change (SharedOps.is_gone w0) with (SharedOps.is_gone w). rewrite Hg.
    intros Hu. destruct (Hsub (calm_slots _ _ (calm_settle _ _ _) _ Hu)) as [->|?]; [|done].
    by destruct (settle_settles _ _ _ Hu).
  - simpl. unfold Handle.send_step. repeat case_match; try done.
    intros Hu. exact (calm_slots _ _ (calm_settle _ _ _) _ Hu).
Qed.
End Accounts.

(** ** Wakeups *)
Section Wakeups.
Context `{Wakers} `{Crate : Http} `{Boxes : BoxedErrors} {B : Type}.
Implicit Types (w : World B).
Import Fields.

(** What may be asked of the driver. *)
Definition errands w :=
  (ready (shared w), resets (shared w), credit (shared w), actions (shared w),
   shutdown_wanted (shared w), (queue w, handlers_woken w, endings w, driver (shared w))).

(** All the driver looks at when it decides whether there is anything to do: what is asked of
    it, and whether any handle is left to ask for more, without which it ends. *)
Definition business w := (errands w, bool_decide (handles w = 0%nat)).

(** A call of [send_request] that has pushed its command and is about to wake the driver. *)
Definition about_to_wake w : Prop := SendWaking ∈ sends w.

(** The wakers woken since. *)
Definition since (n : nat) w : list Waker := drop n (woken w).

Definition grows w w' : Prop := ∃ l, woken w' = woken w ++ l.

#[local] Instance grows_preorder : PreOrder grows.
Proof.
  split; [by exists []; rewrite app_nil_r|].
  intros w1 w2 w3 [l1 E1] [l2 E2]. exists (l1 ++ l2). by rewrite E2, E1, (assoc_L (++)).
Qed.

(** What a step does, seen from a parked driver: nothing is asked of it, or its waker is
    woken, or is about to be; and a handle is never made from none. *)
Record noticed (k : Waker) w w' : Prop := {
  no_grows : grows w w';
  no_errands :
    errands w' = errands w ∨ k ∈ since (length (woken w)) w' ∨ about_to_wake w';
  no_waking : about_to_wake w → k ∈ since (length (woken w)) w' ∨ about_to_wake w';
  no_handles : handles w = 0%nat → handles w' = 0%nat
}.

Lemma noticed_same k w w' :
  grows w w' → errands w' = errands w → sends w' = sends w → handles w' = handles w →
  noticed k w w'.
Proof.
  intros Hg He Hs Hh. split; [done | by left | | congruence].
  intros Hw. right. unfold about_to_wake. by rewrite Hs.
Qed.

Lemma noticed_woken k w w' :
  grows w w' → k ∈ since (length (woken w)) w' → handles w' = handles w → noticed k w w'.
Proof. intros. split; [done | tauto | tauto | congruence]. Qed.

Lemma grows_wake ws w : grows w (wake ws w).
Proof. by exists (option_list ws). Qed.

Lemma grows_same w w' : woken w' = woken w → grows w w'.
Proof. exists []. by rewrite app_nil_r. Qed.

(** The driver woken at the end of a step. *)
Lemma noticed_wake k w w' :
  driver (shared w') = Some k → grows w w' → handles w' = handles w →
  noticed k w (SharedOps.wake_driver w').
Proof.
  intros Hd [l E] Hh. unfold SharedOps.wake_driver. rewrite Hd. apply noticed_woken; [| |done].
  - exists (l ++ [k]). simpl. by rewrite E, (assoc_L (++)).
  - unfold since. simpl. rewrite E, <-(assoc_L (++)), drop_app_length.
    apply elem_of_app. right. by apply list_elem_of_singleton.
Qed.

Lemma settle_grows a r w : grows w (Cell.settle a r w).
Proof. unfold Cell.settle. case_match; [done|]. apply (grows_wake _ (Cell.on_slot _ _ w)). Qed.

Lemma settle_errands a r w :
  errands (Cell.settle a r w) = errands w ∧ sends (Cell.settle a r w) = sends w ∧
  handles (Cell.settle a r w) = handles w.
Proof. unfold Cell.settle. by case_match. Qed.

Lemma settle_noticed k a r w : noticed k w (Cell.settle a r w).
Proof. apply noticed_same; [apply settle_grows | apply settle_errands..]. Qed.

Lemma poll_same a waker w :
  let w' := (Cell.poll a waker w).1 in
  errands w' = errands w ∧ sends w' = sends w ∧ handles w' = handles w ∧ woken w' = woken w.
Proof. unfold Cell.poll. repeat case_match; done. Qed.

Lemma noticed_trans k w1 w2 w3 : noticed k w1 w2 → noticed k w2 w3 → noticed k w1 w3.
Proof.
  intros [[l1 E1] N1 W1 H1] [[l2 E2] N2 W2 H2].
  assert (Hg : woken w3 = woken w1 ++ l1 ++ l2) by (by rewrite E2, E1, (assoc_L (++))).
  unfold since in *. rewrite E1, drop_app_length in N1, W1. rewrite E2, drop_app_length in N2, W2.
  split; [by exists (l1 ++ l2)|..|tauto]; unfold since; rewrite Hg, drop_app_length, elem_of_app.
  - destruct N1 as [N1|[N1|N1]]; [|tauto..].
    destruct N2 as [N2|[N2|N2]]; [left; congruence | tauto..].
  - tauto.
Qed.

(** Returning credit. *)
Lemma credit_noticed k b n w :
  driver (shared w) = Some k → noticed k w (Handle.body_credit b n w).
Proof.
  intros Hd. unfold Handle.body_credit. case_match; [by apply noticed_same|].
  apply noticed_wake; [done | by apply grows_same | done].
Qed.

(** A call of [send_request] wakes the driver after its push, whatever comes between. *)
Lemma send_step_noticed k i w :
  driver (shared w) = Some k → noticed k w (Handle.send_step i w).
Proof.
  intros Hd. unfold Handle.send_step. destruct (sends w !! i) as [[c|c|]|] eqn:Ei.
  - case_match.
    + eapply noticed_trans; [|apply settle_noticed]. split; [by apply grows_same | by left | | done].
      intros Hw. right. by destruct (sends_delete _ _ _ SendWaking Ei Hw).
    + split; [by apply grows_same | by left | | done].
      intros Hw. right. by destruct (sends_insert _ _ _ (SendPushing c) SendWaking Ei Hw).
  - assert (about_to_wake (Cell.push_command c (set_sends (<[i:=SendWaking]> (sends w)) w)))
      by by eapply sends_insert_in.
    split; [by apply grows_same | tauto | tauto | done].
  - apply noticed_wake; [done | by apply grows_same | done].
  - by apply noticed_same.
Qed.

Lemma act_noticed (x : Handle.Act B) k w :
  driver (shared w) = Some k → noticed k w (Handle.act x w).
Proof.
  intros Hd. destruct x; simpl; try (by apply noticed_same; [apply grows_same|..]).
  - unfold Handle.send_request. simpl. set (w0 := set_incomings _ _).
    assert (H0 : noticed k w w0) by (apply noticed_same; by try apply grows_same).
    case_match; [eapply noticed_trans; [done | apply settle_noticed]|].
    split; [by apply grows_same | by left | | done].
    intros Hw. right. by apply elem_of_app; left.
  - by apply send_step_noticed.
  - unfold Handle.future_poll, Cell.slot_poll.
    repeat (case_match; simplify_eq/=); apply noticed_same; by try apply grows_same.
  - unfold Handle.drop_future. case_match; [by apply noticed_same|].
    unfold Cell.fail. set (w1 := Cell.settle _ _ w).
    case_match; [|apply settle_noticed].
    eapply noticed_trans; [apply settle_noticed|].
    apply noticed_wake; [|by apply grows_same|done].
    unfold SharedOps.reset, on_shared. simpl. case_match; simpl; unfold w1; by rewrite settle_shared.
  - unfold Handle.poll_frame. destruct (poll_same (ib_incoming b) waker w) as (He & Hs & Hh & Hg).
    destruct (Cell.poll _ _ _) as [w1 r]. simpl in *.
    assert (Hn : noticed k w w1) by (apply noticed_same; by try apply grows_same).
    destruct r; simpl; try done.
    eapply noticed_trans; [done|]. apply credit_noticed. unfold errands in He. congruence.
  - unfold Handle.drop_body. simpl.
    set (w1 := Cell.on_incoming _ _ w).
    pose proof (credit_noticed k b (Z.of_nat (length (concat (chunks (Cell.incoming (ib_incoming b) w)))))
      w1 Hd) as Hn.
    set (w2 := Handle.body_credit b _ w1) in *.
    assert (Hn2 : noticed k w w2)
      by (eapply noticed_trans; [|done]; apply noticed_same; by try apply grows_same).
    assert (Hd2 : driver (shared w2) = Some k).
    { unfold w2, Handle.body_credit. by case_match. }
    case_match; [|done]. eapply noticed_trans; [done|].
    apply noticed_wake; [|by apply grows_same|done].
    unfold SharedOps.reset, on_shared. simpl. by case_match.
  - apply noticed_wake; [done | by apply grows_same | done].
  - unfold Handle.clone. case_decide; [by apply noticed_same|].
    split; [by apply grows_same | by left | by right | done].
  - split; [by apply grows_same | by left | by right |]. simpl. lia.
  - unfold Handle.cancelled_poll. repeat case_match; apply noticed_same; by try apply grows_same.
  - unfold Handle.wake_body, SharedOps.mark_ready. case_decide; simpl; [by apply noticed_same|].
    apply noticed_wake; [done | by apply grows_same | done].
  - unfold Handle.wake_handler. case_match; [|by apply noticed_same].
    apply noticed_wake; unfold Handle.mark; case_decide; try done; by apply grows_same.
Qed.

(** No step of a caller replaces the driver's waker. *)
Lemma act_driver (x : Handle.Act B) w : driver (shared (Handle.act x w)) = driver (shared w).
Proof.
  destruct x; simpl; try done.
  - unfold Handle.send_request. simpl.
    repeat case_match; simpl; try done; unfold Cell.fail; by rewrite settle_shared.
  - unfold Handle.send_step.
    repeat case_match; simpl; try done; unfold Cell.fail; by rewrite settle_shared.
  - unfold Handle.future_poll, Cell.slot_poll. repeat (case_match; simplify_eq/=; try done).
  - unfold Handle.drop_future, Cell.fail. case_match; [done|].
    unfold SharedOps.reset, on_shared.
    case_match; simpl; [case_match; simpl|]; by rewrite settle_shared.
  - unfold Handle.poll_frame, Cell.poll, Handle.body_credit.
    repeat (case_match; simplify_eq/=; try done).
  - unfold Handle.drop_body, Cell.abandon, Handle.body_credit, SharedOps.reset, on_shared.
    repeat (case_match; simplify_eq/=; try done).
  - unfold Handle.clone. by case_decide.
  - unfold Handle.cancelled_poll. repeat (case_match; simplify_eq/=; try done).
  - unfold Handle.wake_body, SharedOps.mark_ready. repeat (case_match; simplify_eq/=; try done).
  - unfold Handle.wake_handler, Handle.mark. repeat (case_match; simplify_eq/=; try done).
Qed.

(** However many steps are taken. *)
Lemma acts_noticed k l : ∀ w, driver (shared w) = Some k → noticed k w (Handle.acts l w).
Proof.
  induction l as [|x l IH]; intros w Hd; [by apply noticed_same|].
  eapply noticed_trans; [by apply act_noticed|]. apply IH. unfold flip. by rewrite act_driver.
Qed.
End Wakeups.
