(* ===== verification/H3Runs.v ===== *)
(** * Invariants of the HTTP/3 driver, over any interleaving with its handles

    A run interleaves turns of the driver with whatever the holders of its handles do.
    [role_keeps] says what a role must keep for an invariant of the exchanges to survive a
    turn ([turn_keeps]) and so a whole run ([runs_keep]); the backend is any transport that
    obeys [BackendLaws]. *)

From Stdlib Require Import ZArith Lia Strings.Byte.
From stdpp Require Import base list gmap strings sorting.
From S2P Require Import Prelude Traces HttpCrate QmuxScheduling H3Types H3Body H3Conn H3Safety H3Head H3Shared H3Driver H3Keeps H3Worlds.

(** What the driver relies on of a transport: it never opens one stream twice, and does no
    more with the source it is lent than ask it for writes. *)
Class BackendLaws `{QuicBackends} := {
  opened : backend → gset Z;
  event_opened cx b : opened b ⊆ opened (poll_event cx b).1;
  transmit_opened cx b W src (o : W) : opened b ⊆ opened ((poll_transmit cx b W src o).1.1);
  flush_opened cx b : opened b ⊆ opened (poll_flush cx b).1;
  uni_opened cx b : opened b ⊆ opened (poll_open_uni cx b).1;
  bi_opened cx b : opened b ⊆ opened (poll_open_bi cx b).1;
  reset_opened s n b : opened b ⊆ opened (b_reset s n b).1;
  stop_opened s n b : opened b ⊆ opened (b_stop_sending s n b).1;
  credit_opened s n b : opened b ⊆ opened (b_extend_credit s n b).1;
  close_opened n r b : opened b ⊆ opened (b_close n r b).1;
  bi_fresh cx b b' s :
    poll_open_bi cx b = (b', Ready (Ok s)) → ¬ (s ∈ opened b) ∧ s ∈ opened b';
  transmit_lends cx b W src (o : W) (Q : W → Prop) :
    (∀ X write x o, Q o → Q (src X write x o).1.2) →
    Q o → Q (poll_transmit cx b W src o).1.2
}.

Section Machine.
Context `{Wakers} `{Crate : Http} `{Boxes : BoxedErrors} `{Lib : Recorded} {B : Type} `{!Bodies B}.
Abbreviation Machine := (H3Driver.Machine B).
Import Fields.

(** The handlers [build_conn] installs. *)
Definition driver_handlers : Handlers (Ctx B) := mkHandlers None
  (Some (λ s k, with_events (EventsOps.begin_section s k)))
  (Some (λ s k _ n v c, (with_events (EventsOps.push_field s n v) c, Continue)))
  (Some (λ s k, with_events (EventsOps.end_section s k)))
  (Some (λ s d, with_events (EventsOps.push_data s d)))
  (Some (λ s, with_events (EventsOps.push_end s)))
  (Some (λ s c, with_events (EventsOps.push_closed s c)))
  (Some (λ s c, with_world (SharedOps.push_action (StopSendingAction s c))))
  (Some (λ s c, with_world (SharedOps.push_action (ResetAction s c))))
  (Some (λ s, with_events (EventsOps.push_shutdown s)))
  (Some (λ s, with_events (EventsOps.push_settings s))).

Lemma build_conn_handlers role config c :
  build_conn (B:=B) role config = Ok c → handlers c = driver_handlers.
Proof.
  unfold build_conn, ConnBuilder.build, ConnOps.new. simpl.
  by destruct (nghttp3_conn_new _ _); intros [= <-].
Qed.

(** Kept by whatever may happen to the world while the state machine runs. *)
Definition closed (Q : World B → Prop) : Prop :=
  (∀ w w', calm w w' → Q w → Q w') ∧ ∀ x w, Q w → Q (Handle.act x w).

Definition lent (Q : World B → Prop) (c : Ctx B) : Prop := Q (world c).

Lemma closed_acts Q l w : closed Q → Q w → Q (Handle.acts l w).
Proof.
  intros [_ Hx]. unfold Handle.acts. revert w. induction l as [|x l IH]; intros w; simpl; eauto.
Qed.

Lemma handlers_closed Q : closed Q → handlers_keep driver_handlers (lent Q).
Proof.
  intros [Hc _]. split; simpl; intros; simplify_eq/=; try done;
    unfold lent in *; simpl; (eapply Hc; [|done]); apply calm_on_shared.
Qed.

Lemma pull_closed Q fuel t pieces (o : Outgoing B) w :
  closed Q → Q w → Q (OutgoingOps.pull fuel t pieces o w).1.1.2.
Proof.
  intros Hc. revert t pieces o w. induction fuel as [|fuel IH]; intros t pieces o w Hq; [done|].
  simpl. destruct (body_poll_frame _ _ _) as [[b l] polled].
  pose proof (closed_acts Q l w Hc Hq) as Hl.
  destruct polled; simpl; try done; try (eapply (proj1 Hc); [|done]; by apply calm_stays).
  - case_decide; by apply IH.
  - by apply IH.
Qed.

Lemma sources_closed Q : closed Q → source_keeps (S:=Outgoing B) (lent Q).
Proof.
  intros Hc t c b Hq. unfold source_next, OutgoingOps.next. destruct (o_stopped b) as [[]|];
    try done.
  pose proof (pull_closed Q (S (body_burst (world c) (o_body b))) t [] b (world c) Hc Hq) as Hp.
  by destruct (OutgoingOps.pull _ _ _ _ _) as [[[? ?] ?] ?].
Qed.

(** A machine lent a world where [Q] holds. *)
Definition fine (Q : World B → Prop) (m : Machine) : Prop :=
  handlers m.1 = driver_handlers ∧ Q (world m.2).

(** A call of the state machine that keeps any such [Q]. *)
Definition harmless {A} (call : Machine → Machine * result A H3Types.Error) : Prop :=
  ∀ Q m, closed Q → fine Q m → fine Q (call m).1.

Lemma kept_harmless {A} (call : Machine → Machine * result A H3Types.Error) :
  (∀ Q, closed Q → kept driver_handlers (lent Q) call) → harmless call.
Proof. intros Hk Q m Hc. apply (Hk Q Hc). Qed.

(** Every operation the driver and the roles use. *)
Ltac harmless := apply kept_harmless; intros Q Hc; eauto using handlers_closed, sources_closed with kept.

Lemma harmless_bind_control x : harmless (ConnOps.bind_control_stream x).
Proof. harmless. Qed.
Lemma harmless_bind_qpack e d : harmless (ConnOps.bind_qpack_streams e d).
Proof. harmless. Qed.
Lemma harmless_read x src fin now : harmless (ConnOps.read_stream x src fin now).
Proof. harmless. Qed.
Lemma harmless_submit_request x fs b : harmless (ConnOps.submit_request x fs b).
Proof. harmless. Qed.
Lemma harmless_submit_response x fs b : harmless (ConnOps.submit_response x fs b).
Proof. harmless. Qed.
Lemma harmless_submit_trailers x fs : harmless (ConnOps.submit_trailers x fs).
Proof. harmless. Qed.
Lemma harmless_close x how : harmless (ConnOps.close_stream_with x how).
Proof. harmless. Qed.
Lemma harmless_ack x n : harmless (ConnOps.add_ack_offset x n).
Proof. harmless. Qed.
Lemma harmless_block x : harmless (ConnOps.block_stream x).
Proof. harmless. Qed.
Lemma harmless_unblock x : harmless (ConnOps.unblock_stream x).
Proof. harmless. Qed.
Lemma harmless_resume x : harmless (ConnOps.resume_stream x).
Proof. harmless. Qed.
Lemma harmless_shutdown : harmless ConnOps.shutdown.
Proof. harmless. Qed.
Lemma harmless_shutdown_read x : harmless (ConnOps.shutdown_stream_read x).
Proof. harmless. Qed.
Lemma harmless_shutdown_write x : harmless (ConnOps.shutdown_stream_write x).
Proof. harmless. Qed.
Lemma harmless_commit g n : harmless (ConnOps.commit g n).
Proof. harmless. Qed.
Lemma harmless_take : harmless ConnOps.take_deferred_credit.
Proof. harmless. Qed.

(** *** The offers lent to a transport *)
Definition offers_fine (Q : World B → Prop) (o : Offers B) : Prop := fine Q (of_machine o).

Lemma offers_call {A} Q (call : Machine → Machine * result A H3Types.Error) o :
  closed Q → harmless call → offers_fine Q o → offers_fine Q (OffersOps.call call o).1.
Proof.
  intros Hc Hk Ho. unfold OffersOps.call. specialize (Hk Q (of_machine o) Hc Ho).
  by destruct (call (of_machine o)) as [s [a|e]].
Qed.

Lemma unblock_all_fine Q l o :
  closed Q → offers_fine Q o → offers_fine Q (OffersOps.unblock_all l o).1.
Proof.
  intros Hc. revert o. induction l as [|s l IH]; intros o Ho; simpl; [done|].
  pose proof (offers_call Q _ o Hc (harmless_unblock s) Ho) as Hu.
  destruct (OffersOps.call _ o) as [o1 [[]|]]; simpl in *; [by apply IH | done].
Qed.

Lemma dispose_fine Q g oc o :
  closed Q → offers_fine Q o → offers_fine Q (OffersOps.dispose g oc o).1.
Proof.
  intros Hc Ho. unfold OffersOps.dispose. destruct oc as [n| |]; try done.
  case_match; [done|].
  pose proof (offers_call Q _ o Hc
    (harmless_commit g (Nat.min n (ConnOps.g_total g))) Ho) as Hu.
  destruct (OffersOps.call _ o) as [o1 r]; simpl in *. by case_match.
Qed.

Lemma write_loop_fine {X} Q write fuel (x : X) o :
  closed Q → offers_fine Q o → offers_fine Q (OffersOps.write_loop write fuel x o).1.2.
Proof.
  intros Hc. revert x o. induction fuel as [|fuel IH]; intros x o Ho; simpl; [done|].
  destruct (of_failure o); [done|].
  destruct (ConnOps.writev_stream (of_machine o)) as [[s r]|] eqn:Ew; [|done].
  assert (Hs : fine Q s).
  { by eapply (kept_writev driver_handlers (lent Q)); [by apply handlers_closed
      | by apply sources_closed | apply Ho | apply Ew]. }
  destruct r as [[g|]|e]; [|..|done].
  - destruct (write x _ _ _) as [x' oc].
    pose proof (dispose_fine Q g oc (OffersOps.on_machine s o) Hc Hs) as Hd.
    destruct (OffersOps.dispose _ _ _) as [o1 [[block gone]|]]; simpl in *; [|done].
    assert (Hb : offers_fine Q
      (if (block : bool) then OffersOps.call (ConnOps.block_stream (ConnOps.g_stream g)) o1
       else (o1, Some ())).1).
    { destruct block; [|done]. apply offers_call; [done|apply harmless_block|done]. }
    destruct (if (block : bool) then _ else _) as [o2 [[]|]]; simpl in *; [|done].
    assert (Hg : offers_fine Q
      (if (gone : bool) then OffersOps.call (ConnOps.shutdown_stream_write (ConnOps.g_stream g)) o2
       else (o2, Some ())).1).
    { destruct gone; [|done]. apply offers_call; [done|apply harmless_shutdown_write|done]. }
    by destruct (if (gone : bool) then _ else _) as [o3 ?].
  - case_match; [done|].
    match goal with |- context [OffersOps.unblock_all ?l ?o'] =>
      pose proof (unblock_all_fine Q l o' Hc Hs) as Hu;
      destruct (OffersOps.unblock_all l o') as [o1 []]
    end; simpl in *; [by apply IH | done].
Qed.

Lemma write_next_fine Q X write (x : X) o :
  closed Q → offers_fine Q o → offers_fine Q (OffersOps.write_next X write x o).1.2.
Proof.
  intros Hc Ho. unfold OffersOps.write_next. case_match; [done|]. by apply write_loop_fine.
Qed.
End Machine.

#[export] Hint Resolve harmless_bind_control harmless_bind_qpack harmless_read
  harmless_submit_request harmless_submit_response harmless_submit_trailers harmless_close
  harmless_ack harmless_block harmless_unblock harmless_resume harmless_shutdown
  harmless_shutdown_read harmless_shutdown_write harmless_commit harmless_take : kept.

Section Entries.
Context `{Wakers} `{Crate : Http} `{Boxes : BoxedErrors} {B : Type}.
Import Drive.

(** Failing an exchange lets go of it. *)
Lemma fail_entry_released stream e1 e2 (w : World B) :
  released stream w (fail_entry stream e1 e2 w).1.
Proof.
  unfold fail_entry. simpl. destruct (entries w !! stream) as [e|] eqn:E.
  - apply released_remove.
    + simpl. destruct (e_slot e) as [a|].
      * eapply calm_trans; [apply (calm_settle a (Err e1)) | apply calm_fail_incoming].
      * apply calm_fail_incoming.
    + intros e' a He Ha. simplify_eq. simpl. rewrite Ha.
      intros Hu. eapply calm_slots in Hu; [|apply calm_fail_incoming].
      by eapply settle_settles.
  - apply released_remove; [apply calm_refl | congruence].
Qed.


(** What a stream that closes does to its exchange. *)
Definition end_entry (stream : StreamId) (w : World B) : World B :=
  let '(w, entry) := Cell.remove stream w in
  match entry with
  | None => w
  | Some e =>
      let w := Cell.finish (e_incoming e) w in
      match e_slot e with
      | Some a =>
          if Cell.is_settled a w then w
          else Cell.fail a (H3HttpError.new H3HttpError.Stream
                 "the exchange ended before a response arrived") w
      | None => w
      end
  end.

Lemma settled_not_unsettled a (w : World B) : Cell.is_settled a w = true → ¬ unsettled w a.
Proof.
  unfold Cell.is_settled, Cell.slot. intros E (s & Hs & Hu). rewrite Hs in E. simpl in E. congruence.
Qed.

Lemma end_entry_released stream (w : World B) : released stream w (end_entry stream w).
Proof.
  unfold end_entry. simpl. destruct (entries w !! stream) as [e|] eqn:E.
  - destruct (e_slot e) as [a|] eqn:Ea.
    + apply released_remove.
      * case_match; [apply calm_finish|]. eapply calm_trans; [apply calm_finish | apply calm_settle].
      * intros e' b He Hb. simplify_eq. case_match; [by apply settled_not_unsettled|].
        apply settle_settles.
    + apply released_remove; [apply calm_finish | congruence].
  - apply released_remove; [apply calm_refl | congruence].
Qed.
End Entries.

(** ** The driver *)

Section Driver.
Context `{Wakers} `{Crate : Http} `{Boxes : BoxedErrors} `{Lib : Recorded} `{!QuicBackends}.
Context `{!BackendLaws} {B R : Type} `{!Bodies B} `{!Roles B R} `{HashOrder}.
Abbreviation Driver := (H3Driver.Driver B R).
Abbreviation Machine := (H3Driver.Machine B).
Implicit Types (d : Driver).
Import Drive.

(** An invariant of the role and the exchanges, given the streams opened so far, that holds
    until the driver ends; and what holds from then on. *)
Variable P : gset Z → R → World B → Prop.
Variable D : World B → Prop.

(** What the role must keep.  It is called with the machine lent to it, and told of streams
    opened, exchanges let go of and exchanges over. *)
Definition role_call_keeps (f : R * Machine → R * Machine * result unit H3HttpError.Error) : Prop :=
  ∀ O r m, fine (P O r) m → fine (P O (f (r, m)).1.1) (f (r, m)).1.2.

Record role_keeps : Prop := {
  rk_more O O' r w : O ⊆ O' → P O r w → P O' r w;
  rk_calm O r w w' : calm w w' → P O r w → P O r w';
  rk_act O r w x : P O r w → P O r (Handle.act x w);
  rk_released O r w w' stream : released stream w w' → P O r w → P O r w';
  rk_closed O r w stream :
    P O r w → P O (on_closed stream r w).1 (on_closed stream r w).2;
  rk_give O r w stream :
    stream ∉ O → P O r w → P ({[stream]} ∪ O) (give_stream stream r) w;
  rk_settle : role_call_keeps settle;
  rk_advance : role_call_keeps advance;
  rk_head stream fields : role_call_keeps (on_head stream fields);
  rk_drop O d : P O (d_role d) (d_world d) → D (d_world (drop_guard d));
  rk_dead x w : D w → D (Handle.act x w)
}.

Hypothesis Hrole : role_keeps.

Lemma closed_P O r : closed (P O r).
Proof. destruct Hrole. split; eauto. Qed.

Definition Inv d : Prop :=
  handlers (d_machine d).1 = driver_handlers ∧ P (opened (d_backend d)) (d_role d) (d_world d).

Definition keeps {A} (m : M A) : Prop :=
  ∀ d d' r, Inv d → m d = Some (d', r) → Inv d'.

Lemma drive_ret {A} (a : A) : keeps (ret a).
Proof. by intros d d' r Hd [= <- <-]. Qed.
Lemma drive_throw {A} e : keeps (throw (A:=A) e).
Proof. by intros d d' r Hd [= <- <-]. Qed.
Lemma keeps_panic {A} : keeps (λ _, None : option (Driver * result A H3HttpError.Error)).
Proof. by intros d d' r Hd [=]. Qed.

Lemma drive_bind {A A'} (m : M A) (k : A → M A') :
  keeps m → (∀ a, keeps (k a)) → keeps (bind m k).
Proof. intros Hm Hk d d' r Hd. unfold bind. destruct (m d) as [[d1 [a|e]]|] eqn:E; [|..|done].
  - apply Hk. by eapply Hm.
  - intros [= <- <-]. by eapply Hm.
Qed.

Lemma drive_gets {A} (f : Driver → A) : keeps (gets f).
Proof. by intros d d' r Hd [= <- <-]. Qed.
Lemma drive_modify f : (∀ d, Inv d → Inv (f d)) → keeps (modify f).
Proof. intros Hf d d' r Hd [= <- <-]. eauto. Qed.

Lemma keeps_each {A} (f : A → M unit) l : (∀ a, keeps (f a)) → keeps (each f l).
Proof. intros Hf. induction l as [|a l IH]; simpl; [apply drive_ret|]. by apply drive_bind.
Qed.

(** Changes of fields the invariant does not read. *)
Lemma keeps_field f :
  (∀ d, d_machine (f d) = d_machine d ∧ d_backend (f d) = d_backend d ∧ d_role (f d) = d_role d) →
  keeps (modify f).
Proof. intros Hf. apply drive_modify. intros d [Hm HP].
  destruct (Hf d) as (E1 & E2 & E3). unfold Inv, d_world. by rewrite E1, E2, E3.
Qed.

Lemma Inv_backend b d : Inv d → opened (d_backend d) ⊆ opened b → Inv (set_backend b d).
Proof. intros [Hm HP] Hb. split; [done|]. by eapply rk_more. Qed.

Lemma keeps_backend {A} (f : backend → backend * result A BoxedError) :
  (∀ b, opened b ⊆ opened (f b).1) → keeps (backend_call f).
Proof.
  intros Hf d d' r Hd. unfold backend_call. specialize (Hf (d_backend d)).
  destruct (f (d_backend d)) as [b res]. intros [= <- <-]. by apply Inv_backend.
Qed.

Lemma fine_Inv d : Inv d ↔ fine (P (opened (d_backend d)) (d_role d)) (d_machine d).
Proof. done. Qed.

Lemma Inv_called {A} (m : Machine → Machine * result A H3Types.Error) d :
  harmless m → Inv d → Inv (set_machine (m (d_machine d)).1 d).
Proof. intros Hm Hd. by apply (Hm _ _ (closed_P _ _) Hd). Qed.

Lemma keeps_conn {A} (m : Machine → Machine * result A H3Types.Error) :
  harmless m → keeps (conn_call m).
Proof.
  intros Hm d d' r Hd. unfold conn_call. pose proof (Inv_called m d Hm Hd) as Hi.
  destruct (m (d_machine d)) as [s res]. by intros [= <- <-].
Qed.

Lemma keeps_conn_ok {A} (m : Machine → Machine * result A H3Types.Error) :
  harmless m → keeps (conn_ok m).
Proof.
  intros Hm d d' r Hd. unfold conn_ok. pose proof (Inv_called m d Hm Hd) as Hi.
  destruct (m (d_machine d)) as [s res]. by intros [= <- <-].
Qed.

Lemma Inv_world f d :
  (∀ O r w, P O r w → P O r (f w)) → Inv d → Inv (Drive.on_world f d).
Proof. intros Hf [Hm HP]. split; [done|]. by apply Hf. Qed.

Lemma keeps_world f : (∀ O r w, P O r w → P O r (f w)) → keeps (modify (Drive.on_world f)).
Proof. intros Hf. apply drive_modify. intros d. by apply Inv_world. Qed.

Lemma keeps_calm f : (∀ w, calm w (f w)) → keeps (modify (Drive.on_world f)).
Proof. intros Hf. apply keeps_world. intros O r w. by apply rk_calm. Qed.

Lemma keeps_events f : keeps (modify (on_events f)).
Proof. by apply drive_modify. Qed.

Lemma keeps_role_call f : role_call_keeps f → keeps (role_call f).
Proof. intros Hf d d' r Hd. unfold role_call. specialize (Hf _ _ _ Hd).
  destruct (f (d_role d, d_machine d)) as [[r1 s] res]. by intros [= <- <-].
Qed.

Lemma keeps_role_closed stream : keeps (role_closed stream).
Proof.
  apply drive_modify. intros d [Hm HP].
  pose proof (rk_closed Hrole _ _ _ stream HP) as Hc.
  destruct (on_closed stream (d_role d) (d_world d)) as [r1 w1]. by split.
Qed.

(** *** Every step of a pass *)
Create HintDb keeps.
#[local] Hint Resolve drive_ret drive_throw keeps_panic drive_gets keeps_role_closed
  keeps_events : keeps.
#[local] Hint Extern 2 (keeps (modify _)) => by apply keeps_field : keeps.
#[local] Hint Extern 2 (keeps (conn_call _)) => apply keeps_conn; eauto with kept : keeps.
#[local] Hint Extern 2 (keeps (conn_ok _)) => apply keeps_conn_ok; eauto with kept : keeps.

Ltac keeps := repeat first
  [ solve [eauto with keeps]
  | match goal with |- ∀ x, @?K x => intros ? end
  | apply drive_bind; [|intros ?]
  | apply keeps_each; intros ?
  | case_match ].

Lemma keeps_backend_call :
  (∀ s n, keeps (backend_call (b_reset s n))) ∧ (∀ s n, keeps (backend_call (b_stop_sending s n))) ∧
  (∀ s n, keeps (backend_call (b_extend_credit s n))) ∧ ∀ n r, keeps (backend_call (b_close n r)).
Proof.
  split_and!; intros; apply keeps_backend; intros b;
    eauto using reset_opened, stop_opened, credit_opened, close_opened.
Qed.
#[local] Hint Extern 2 (keeps (backend_call _)) => by apply keeps_backend_call : keeps.

Lemma keeps_flush {A} cx : keeps (flush_before_pending (A:=A) cx).
Proof.
  intros d d' r Hd. unfold flush_before_pending. pose proof (flush_opened cx (d_backend d)) as Ho.
  destruct (poll_flush cx _) as [b p]. simpl in Ho.
  pose proof (Inv_backend b d Hd Ho). by repeat case_match; intros; simplify_eq.
Qed.

Lemma keeps_open_uni n cx : keeps (open_uni n cx).
Proof.
  induction n as [|n IH]; [apply drive_ret|]. intros d d' r Hd. simpl.
  pose proof (uni_opened cx (d_backend d)) as Ho. destruct (poll_open_uni cx _) as [b p].
  pose proof (Inv_backend b d Hd Ho). repeat case_match; try (intros; by simplify_eq).
  by apply IH.
Qed.

Lemma keeps_bind_streams cx : keeps (poll_bind cx).
Proof. unfold poll_bind. pose proof (λ n, keeps_open_uni n cx). by keeps. Qed.

Lemma keeps_more_events n cx taken : keeps (more_events n cx taken).
Proof.
  revert taken. induction n as [|n IH]; intros taken; [apply drive_ret|]. intros d d' r Hd. simpl.
  pose proof (event_opened cx (d_backend d)) as Ho. destruct (poll_event cx _) as [b p].
  pose proof (Inv_backend b d Hd Ho). repeat case_match; try (intros; by simplify_eq);
    by apply IH.
Qed.

Lemma keeps_take_events cx : keeps (take_events cx).
Proof.
  intros d d' r Hd. unfold take_events. case_match; [by intros; simplify_eq|].
  by apply keeps_more_events.
Qed.

Lemma keeps_extend stream n : keeps (extend stream n).
Proof. unfold extend. by keeps. Qed.

Lemma keeps_read stream bs fin : keeps (read stream bs fin).
Proof.
  unfold read. apply drive_bind; [by keeps|]. intros now. apply drive_bind; [by keeps|].
  intros _ d d' r Hd.
  pose proof (Inv_called _ d (harmless_read stream bs fin now) Hd) as Hi.
  destruct (ConnOps.read_stream _ _ _ _ _) as [s [credit|e]].
  - by apply keeps_extend.
  - by intros [= <- <-].
Qed.

Lemma keeps_release stream n delivered : keeps (apply_release stream n delivered).
Proof. unfold apply_release. by keeps. Qed.

Lemma P_fail_entry O r w stream e1 e2 : P O r w → P O r (fail_entry stream e1 e2 w).1.
Proof. by eapply rk_released, fail_entry_released. Qed.

Lemma Inv_const w d :
  Inv d → P (opened (d_backend d)) (d_role d) w → Inv (Drive.on_world (λ _, w) d).
Proof. by intros [Hm _] HP. Qed.

Lemma keeps_fail_stream stream code : keeps (fail_stream stream code).
Proof.
  unfold fail_stream. apply drive_bind; [|by keeps]. intros d d' r Hd.
  pose proof (P_fail_entry _ _ _ stream
    (H3HttpError.new H3HttpError.Stream "the peer reset this exchange")
    (H3HttpError.with_code
       (H3HttpError.new H3HttpError.Stream "the peer reset this exchange") code) (proj2 Hd)) as Hp.
  destruct (fail_entry _ _ _ _) as [w known]. intros [= <- <-]. by apply Inv_const.
Qed.

Lemma keeps_refuse_from cutoff : keeps (refuse_from cutoff).
Proof.
  unfold refuse_from. apply drive_bind; [by keeps|]. intros streams. apply keeps_each. intros s.
  apply drive_bind; [|by keeps]. apply keeps_world. intros. by apply P_fail_entry.
Qed.

Lemma keeps_close_stream stream how : keeps (close_stream stream how).
Proof.
  unfold close_stream. apply drive_bind.
  { intros d d' r Hd. destruct (ClosedStreams.insert _ _) as [c fresh]. by intros [= <- <-]. }
  intros fresh. case_match; [by keeps|]. apply drive_bind; [by keeps|]. intros n.
  apply drive_bind; [by keeps|]. intros _. apply drive_bind; [by keeps|]. intros _.
  apply drive_bind; [|by keeps]. apply keeps_world. intros O r w HP.
  exact (rk_released Hrole _ _ _ _ stream (end_entry_released stream w) HP).
Qed.

#[local] Hint Resolve keeps_flush keeps_bind_streams keeps_take_events keeps_extend keeps_read
  keeps_release keeps_fail_stream keeps_refuse_from keeps_close_stream : keeps.

Lemma keeps_control_plane events data unheard : keeps (control_plane events data unheard).
Proof.
  revert data unheard. induction events as [|ev events IH]; intros data unheard; simpl; [by keeps|].
  destruct ev; try (apply drive_bind; [by keeps|]; intros ?); try apply IH.
  apply drive_bind; [by keeps|]. intros known. apply IH.
Qed.

Lemma keeps_apply_events events : keeps (apply_events events).
Proof.
  unfold apply_events. apply drive_bind; [apply keeps_control_plane|]. intros [data unheard].
  apply drive_bind; [|by keeps]. apply keeps_each. by intros [[s bs] fin]; keeps.
Qed.

Lemma keeps_entry_incoming (f : nat → World B → World B) stream :
  (∀ a w, calm w (f a w)) →
  keeps (modify (Drive.on_world (λ w,
    match Cell.entry_incoming stream w with Some a => f a w | None => w end))).
Proof. intros Hf. apply keeps_calm. intros w. case_match; [apply Hf | apply calm_refl]. Qed.

Lemma keeps_dispatch_one o : keeps (dispatch_one o).
Proof.
  destruct o; simpl; try (by keeps).
  - destruct section.
    + apply keeps_role_call, Hrole.
    + apply drive_bind.
      { intros d d' r Hd. unfold decode_trailers. case_match; [|done]. by intros [= <- <-]. }
      intros m. apply keeps_entry_incoming. intros a w. apply calm_set_trailers.
  - apply keeps_entry_incoming. intros a w. apply calm_push.
  - apply keeps_entry_incoming. intros a w. apply calm_finish.
  - apply drive_bind; [apply keeps_calm; intros w; apply calm_on_shared|]. intros _. by keeps.
Qed.

Lemma keeps_dispatch os : keeps (dispatch os).
Proof. apply keeps_each, keeps_dispatch_one. Qed.

Lemma keeps_drain_events : keeps drain_events.
Proof.
  intros d d' r Hd. unfold drain_events. destruct (EventsOps.drain _). by intros [= <- <-].
Qed.
#[local] Hint Resolve keeps_apply_events keeps_dispatch keeps_drain_events : keeps.

Lemma keeps_settle : keeps (role_call settle).
Proof. apply keeps_role_call, Hrole. Qed.
Lemma keeps_advance : keeps (role_call advance).
Proof. apply keeps_role_call, Hrole. Qed.
#[local] Hint Resolve keeps_settle keeps_advance : keeps.

Lemma calm_drain into (w : World B) : calm w (SharedOps.drain_work into w).1.
Proof. by apply calm_stays. Qed.

Lemma keeps_begin_pass cx : keeps (begin_pass cx).
Proof.
  unfold begin_pass. apply drive_bind; [by keeps|]. intros events.
  apply drive_bind; [by keeps|]. intros unheard. apply drive_bind; [by keeps|]. intros _.
  apply drive_bind.
  { apply drive_modify. intros d Hd.
    pose proof (rk_calm Hrole _ _ _ _ (calm_drain (d_work d) (d_world d)) (proj2 Hd)) as HP.
    destruct (SharedOps.drain_work _ _) as [w work]. by apply Inv_const. }
  intros _. repeat (apply drive_bind; [|intros ?]); try (by keeps);
    apply keeps_each; intros []; by keeps.
Qed.

Lemma keeps_submit unheard : keeps (submit unheard).
Proof.
  unfold submit. repeat (apply drive_bind; [by keeps|intros ?]).
  apply keeps_each. intros [s code]. by keeps.
Qed.

Lemma keeps_end_pass had_events : keeps (end_pass had_events).
Proof. unfold end_pass. by keeps. Qed.
#[local] Hint Resolve keeps_begin_pass keeps_submit keeps_end_pass : keeps.

Lemma keeps_at_transmit cx had_events blocked failure retried :
  keeps (at_transmit cx had_events blocked failure retried).
Proof.
  intros d d' r Hd. unfold at_transmit.
  set (o := mkOffers _ _ _ _ _).
  pose proof (transmit_opened cx (d_backend d) _ (OffersOps.write_next (B:=B)) o) as Ho.
  pose proof (transmit_lends cx (d_backend d) _ (OffersOps.write_next (B:=B)) o
    (offers_fine (P (opened (d_backend d)) (d_role d)))
    (λ X write x o, write_next_fine _ X write x o (closed_P _ _)) Hd) as Hl.
  destruct (poll_transmit _ _ _ _ _) as [[b offers] polled]. simpl in Ho, Hl.
  destruct (of_panicked offers); [done|].
  set (d1 := set_machine _ _). assert (Hd1 : Inv d1).
  { destruct Hl as [Hm HP]. split; [done|]. by eapply rk_more. }
  set (outcome := match polled with Pending => _ | Ready _ => _ end).
  assert (Hk : keeps outcome) by (unfold outcome; repeat case_match; by keeps).
  destruct (outcome d1) as [[d2 res]|] eqn:E; [|done].
  pose proof (Hk _ _ _ Hd1 E) as Hd2.
  assert (Hd3 : Inv (set_blocked (of_blocked offers) d2)) by done.
  destruct res as [[|[]]|e]; [by intros [= <- <-] | | by intros [= <- <-]].
  destruct (of_failure offers); [by intros [= <- <-]|].
  apply (drive_bind (end_pass had_events) (λ pc, ret (pc, false))
    (keeps_end_pass had_events) (λ pc, drive_ret _) _ _ _ Hd3).
Qed.

Lemma keeps_at_park cx parked : keeps (at_park cx parked).
Proof.
  unfold at_park. apply drive_bind; [by keeps|]. intros blocked. case_match; [by keeps|].
  apply drive_bind.
  { intros d d' r Hd.
    pose proof (rk_calm Hrole _ (d_role d) (d_world d)
      (SharedOps.refresh_driver_and_work_pending cx (d_world d)).1
      ltac:(by apply calm_stays) (proj2 Hd)) as HP.
    destruct (SharedOps.refresh_driver_and_work_pending _ _) as [w p]. intros [= <- <-].
    by apply Inv_const. }
  intros pending. apply drive_bind; [by keeps|]. intros is_busy. case_match; [by keeps|].
  intros d d' r Hd.
  pose proof (event_opened cx (d_backend d)) as Ho. destruct (poll_event cx _) as [b p].
  assert (Hb : Inv (set_backend b d)) by by apply Inv_backend.
  destruct p as [|[ev|e]]; [|by intros [= <- <-]..].
  pose proof (flush_opened cx b) as Hf.
  change (d_backend (set_backend b d)) with b. destruct (poll_flush cx b) as [b' p].
  assert (Hb' : Inv (set_backend b' (set_backend b d))) by by apply Inv_backend.
  destruct p as [|[[]|e]]; by intros [= <- <-].
Qed.

Lemma keeps_segment cx pc : keeps (segment cx pc).
Proof.
  destruct pc; simpl.
  - apply drive_bind.
    { apply drive_bind; [by keeps|]. intros []; by keeps. }
    intros []; [by keeps|]. apply drive_bind; [by keeps|]. intros []. by keeps.
  - apply drive_bind; [by keeps|]. intros [].
    + intros d d' r Hd.
      pose proof (bi_opened cx (d_backend d)) as Ho.
      pose proof (bi_fresh cx (d_backend d)) as Hf.
      destruct (poll_open_bi cx (d_backend d)) as [b p]. simpl in Ho.
      assert (Hb : Inv (set_backend b d)) by by apply Inv_backend.
      destruct p as [|[s|e]].
      * apply (drive_bind (flush_before_pending (A:=unit) cx) _ (keeps_flush cx)
          (λ _, drive_ret _) _ _ _ Hb).
      * intros [= <- <-]. destruct Hd as [Hm HP], (Hf _ _ eq_refl) as [Hn Hi].
        split; [done|]. simpl. eapply (rk_more Hrole ({[s]} ∪ opened (d_backend d)));
          
          [apply union_subseteq; split; [by apply singleton_subseteq_l | done] |].
        by apply rk_give.
      * by intros [= <- <-].
    + repeat (apply drive_bind; [by keeps|intros ?]). by keeps.
  - apply keeps_at_transmit.
  - apply keeps_at_park.
  - by keeps.
Qed.

(** *** Runs *)

(** The driver between two steps. *)
Definition State : Type := H3Driver.Driver B R * Pc.

Definition SInv (s : State) : Prop :=
  match s.2 with PcDone _ => D (d_world s.1) | _ => Inv s.1 end.

Lemma turn_eq cx d pc :
  (∀ r, pc ≠ PcDone r) →
  turn cx (d, pc) =
    match segment cx pc d with
    | None => None
    | Some (d, Err e) => Some (drop_guard d, PcDone (Err e), true)
    | Some (d, Ok (PcDone r, _)) => Some (drop_guard d, PcDone r, true)
    | Some (d, Ok (pc, waits)) => Some (d, pc, waits)
    end.
Proof. intros Hn. destruct pc; try done. by destruct (Hn r). Qed.

Lemma turn_keeps cx s s' waits : turn cx s = Some (s', waits) → SInv s → SInv s'.
Proof.
  destruct s as [d pc]. intros Ht Hs.
  assert (Hdone : (∃ r, pc = PcDone r) ∨ ∀ r, pc ≠ PcDone r) by (destruct pc; eauto).
  destruct Hdone as [[r ->]|Hn]; [by unfold turn in Ht; simplify_eq/=|]. rewrite turn_eq in Ht by done.
  assert (Hd : Inv d) by (destruct pc; try done; by destruct (Hn r)).
  destruct (segment cx pc d) as [[d' res]|] eqn:E; [|done].
  pose proof (keeps_segment cx pc d d' res Hd E) as Hd'.
  pose proof (rk_drop Hrole _ d' (proj2 Hd')) as Hx.
  destruct res as [[[] ?]|e]; by simplify_eq/=.
Qed.

(** A turn, a step of whoever holds a handle, or the connection dropped. *)
Inductive step (s : State) : State → Prop :=
| step_turn cx s' waits : turn cx s = Some (s', waits) → step s s'
| step_act x : step s (Drive.on_world (Handle.act x) s.1, s.2)
| step_drop : (∀ r, s.2 ≠ PcDone r) → step s (drop_guard s.1, PcDone (Ok ())).

Lemma step_keeps s s' : step s s' → SInv s → SInv s'.
Proof.
  intros Hstep Hs. destruct Hstep as [cx s' waits Ht|x|Hn].
  - by eapply turn_keeps.
  - destruct s as [d pc]. unfold SInv in *. simpl in *.
    assert (Inv d → Inv (Drive.on_world (Handle.act x) d)).
    { apply Inv_world. intros O r w. by apply rk_act. }
    destruct pc; eauto. by apply rk_dead.
  - destruct s as [d pc]. unfold SInv in *. simpl in *.
    assert (Hd : Inv d) by (destruct pc; try done; by destruct (Hn r)).
    by eapply rk_drop, (proj2 Hd).
Qed.

Definition reachable : State → State → Prop := rtc step.

Lemma runs_keep s s' : reachable s s' → SInv s → SInv s'.
Proof. induction 1; eauto using step_keeps. Qed.
End Driver.
