(* ===== verification/H3HttpToys.v ===== *)
(** * A small HTTP/3 world, to evaluate the driver on

    A transport that takes whatever it is offered and answers once something was sent, an
    nghttp3 that frames nothing, bodies of one piece, and the http crate of [HttpToy]. *)

From Stdlib Require Import ZArith Lia Strings.Byte.
From stdpp Require Import base list gmap strings sorting.
From S2P Require Import Prelude Traces HttpCrate QmuxScheduling H3Types H3Body H3Conn H3Safety H3Head HeadFacts H3Shared H3Driver H3Roles H3Keeps H3Worlds H3Runs.
Import HttpToy HeadToy.

Module Toys.

#[export] Instance toy_wakers : Wakers := nat_wakers.

#[export, refine] Instance toy_order : HashOrder := {|
  keys A m := (map_to_list m).*1
|}.
Proof. done. Defined.

(** The head a stream brings: a request to a server, a response to a client. *)
Definition incoming_head (server : bool) : list (bytes * bytes) :=
  if server then HeadToy.sent else [(ascii_bytes ":status", ascii_bytes "200")].

(** Which side it is, and the streams with something to write; what arrives on a stream is a
    head, the octets and perhaps the end. *)
Definition small : Nghttp3 := {|
  nghttp3_codes := Toy.codes;
  nghttp3_settings_rest := unit;
  nghttp3_settings_default := H3Settings.mkSettings 4096 0 0 0 ();
  nghttp3_conn := bool * list Z;
  nghttp3_conn_new role _ := Ok (bool_decide (role = Server), []);
  nghttp3_call rq B cb n b :=
    match rq with
    | ReqSubmitRequest s _ _ | ReqSubmitResponse s _ _ | ReqUnblockStream s =>
        ((n.1, n.2 ++ [s]), b, Toy.ok)
    | ReqWritevStream k =>
        match n.2 with
        | [] => (n, b, Toy.ok)
        | s :: _ => (n, b, mkResponse 1 s 1 [Some (ascii_bytes "head")])
        end
    | ReqAddWriteOffset s _ | ReqBlockStream s => ((n.1, filter (λ x, x ≠ s) n.2), b, Toy.ok)
    | ReqReadStream s src fin _ =>
        let '(b, _) := cb b (CbBeginHeaders s) in
        let b :=
          foldl (λ b f, (cb b (CbRecvHeader s 0 (Some f.1) (Some f.2))).1) b (incoming_head n.1) in
        let '(b, _) := cb b (CbEndHeaders s) in
        let '(b, _) := cb b (CbRecvData s (Some src)) in
        let b := if (fin : bool) then (cb b (CbEndStream s)).1 else b in
        (n, b, mkResponse 0 0 0 [])
    | _ => (n, b, Toy.ok)
    end
|}.

#[export] Instance toy_nghttp3 : Nghttp3 := @logged small.
#[export] Instance toy_recorded : @Recorded toy_nghttp3 := @logged_recorded small.

(** A transport: how many streams of each kind it opened, what comes, whether that waits
    until something was sent, what was sent, and how many bytes of an offer it takes. *)
Record transport := mkTransport {
  server : bool;
  unis : nat;
  bis : nat;
  coming : list QuicEvent;
  sent : list (StreamId * list bytes * bool);
  takes : WriteOutcome
}.

Definition quiet (b : transport) : transport * result unit BoxedError := (b, Ok ()).

Definition given (n : nat) : gset Z := list_to_set (Z.mul 4 <$> seqZ 0 (Z.of_nat n)).

Lemma given_more n : given n ⊆ given (S n) ∧ ¬ (4 * Z.of_nat n ∈ given n) ∧
  4 * Z.of_nat n ∈ given (S n).
Proof.
  unfold given. split_and!.
  - intros x [y [-> Hy]]%elem_of_list_to_set%list_elem_of_fmap.
    apply elem_of_list_to_set, list_elem_of_fmap. exists y. split; [done|].
    apply elem_of_seqZ in Hy. apply elem_of_seqZ. lia.
  - intros [y [E Hy]]%elem_of_list_to_set%list_elem_of_fmap. apply elem_of_seqZ in Hy. lia.
  - apply elem_of_list_to_set, list_elem_of_fmap. exists (Z.of_nat n). split; [done|].
    apply elem_of_seqZ. lia.
Qed.

#[export] Instance toy_backends : QuicBackends := {|
  backend := transport;
  poll_event _ b :=
    match coming b with
    | ev :: rest =>
        if negb (server b) && bool_decide (length (sent b) = 0%nat) then (b, Pending)
        else (mkTransport (server b) (unis b) (bis b) rest (sent b) (takes b), Ready (Ok ev))
    | [] => (b, Pending)
    end;
  poll_transmit _ b W src o :=
    let '(log, o, _) :=
      src _ (λ x s slices fin, (x ++ [(s, slices, fin)], takes b)) (sent b) o in
    (mkTransport (server b) (unis b) (bis b) (coming b) log (takes b), o, Ready (Ok ()));
  poll_flush _ b := (b, Ready (Ok ()));
  poll_open_uni _ b :=
    (mkTransport (server b) (S (unis b)) (bis b) (coming b) (sent b) (takes b),
     Ready (Ok (4 * Z.of_nat (unis b) + if server b then 3 else 2)));
  poll_open_bi _ b :=
    (mkTransport (server b) (unis b) (S (bis b)) (coming b) (sent b) (takes b),
     Ready (Ok (4 * Z.of_nat (bis b))));
  b_reset _ _ := quiet;
  b_stop_sending _ _ := quiet;
  b_extend_credit _ _ := quiet;
  b_close _ _ := quiet;
  b_now _ := 0
|}.

#[export] Instance toy_backend_laws : BackendLaws.
Proof.
  refine (@Build_BackendLaws _ _ toy_backends (λ b : transport, given (bis b)) _ _ _ _ _ _ _ _ _ _ _);
    simpl; try done.
  - intros _ b. by repeat case_match.
  - intros _ b W src o. by destruct (src _ _ _ _) as [[? ?] ?].
  - intros _ b. apply given_more.
  - intros _ b b' s [= <- <-]. simpl. split; apply given_more.
  - intros _ b W src o Q Hsrc Ho.
    pose proof (Hsrc _ (λ x s slices fin, (x ++ [(s, slices, fin)], takes b)) (sent b) o Ho) as Hq.
    by destruct (src _ _ _ _) as [[? ?] ?].
Qed.

(** A body of at most one piece. *)
#[export, refine] Instance toy_bodies : Bodies (option bytes) := {|
  body_is_end_stream b := bool_decide (b = None);
  body_poll_frame _ _ b :=
    match b with Some bs => (None, [], FrameData bs) | None => (None, [], FrameEnd) end;
  body_burst _ b := match b with Some _ => 1%nat | None => 0%nat end
|}.
Proof.
  intros w s [bs|] b' l f Hp Hf; simplify_eq/=; [lia|]. by destruct Hf as [[??]|?].
Defined.

(** A service whose futures answer when they are polled a second time. *)
#[export] Instance toy_services : Services (option bytes) := {|
  Service := unit;
  Fut := bool;
  call_service s _ _ _ := (s, false, []);
  poll_future _ _ asked :=
    (true, [], if (asked : bool) then Ready (HttpCrate.mkResponse HeadToy.ok_status [], Some (ascii_bytes "x"))
               else Pending)
|}.

Abbreviation TDriver := (H3Driver.Driver (option bytes) ClientRole).
Abbreviation TState := (TDriver * Drive.Pc)%type.
Abbreviation TWorld := (World (option bytes)).

Definition carrier (takes : WriteOutcome) (coming : list QuicEvent) : transport :=
  mkTransport false 0 0 coming [] takes.

Definition connection (b : transport) : TDriver :=
  match Client.handshake_with b H3Config.default with
  | Ok d => d
  | Err _ => Drive.driver_new b (H3Conn.mkConn (mkLogged (N:=small) (false, []) []) H3Types.Client driver_handlers
               Registry.initial Deliveries.initial None None None 0 false None 0)
               world_new H3Config.default Client.new
  end.

Lemma connection_ok b : Client.handshake_with b H3Config.default = Ok (connection b).
Proof. reflexivity. Qed.

(** A server to which a peer opens two exchanges. *)
Definition called : transport :=
  mkTransport true 0 0 [QData 0 (ascii_bytes "a") true; QData 4 (ascii_bytes "b") true] [] Blocked.

Definition serving (limit : Z) : H3Driver.Driver (option bytes) (ServerRole (option bytes)) :=
  match Server.serve_with called () (H3Config.max_concurrent_streams limit H3Config.default) with
  | Ok d => d
  | Err _ => Drive.driver_new called (H3Conn.mkConn (mkLogged (N:=small) (true, []) [])
               H3Types.Server driver_handlers Registry.initial Deliveries.initial None None None 0
               false None 0) world_new H3Config.default (Server.new () H3Config.default)
  end.

Lemma serving_ok limit :
  Server.serve_with called () (H3Config.max_concurrent_streams limit H3Config.default) =
    Ok (serving limit).
Proof. reflexivity. Qed.

(** A step of a holder of a handle, and a turn of the driver, when it does not panic. *)
Definition doing (x : Handle.Act (option bytes)) (s : TState) : TState :=
  (Drive.on_world (Handle.act x) s.1, s.2).

Section Turns.
Context {R : Type} `{!Roles (option bytes) R}.

Definition turn_of (cx : nat) (s : H3Driver.Driver (option bytes) R * Drive.Pc) :=
  match Drive.turn cx s with Some (s, _) => s | None => s end.

Fixpoint turns (n : nat) (cx : nat) (s : H3Driver.Driver (option bytes) R * Drive.Pc) :=
  match n with O => s | S n => turns n cx (turn_of cx s) end.

Lemma turns_reachable n cx s : reachable s (turns n cx s).
Proof.
  revert s. induction n as [|n IH]; intros s; simpl; [apply rtc_refl|].
  unfold turn_of. destruct (Drive.turn cx s) as [[s1 waits]|] eqn:E; [|apply IH].
  eapply rtc_l; [by eapply step_turn | apply IH].
Qed.
End Turns.

Lemma doing_reachable x s : reachable s (doing x s).
Proof. apply rtc_once, step_act. Qed.
End Toys.
