(* ===== verification/H3ClientFacts.v ===== *)
(** * No request is forgotten

    The client's side of an HTTP/3 connection: whatever the transport, the peer, the bodies
    and the holders of the handles do, a request that was submitted is answered, or waits in
    the queue, in the registry or in a call of [send_request] under way; and once the driver has
    ended every one is answered but those whose sending its end cut in two. *)

From Stdlib Require Import ZArith Lia Strings.Byte.
From stdpp Require Import base list gmap strings sorting.
From S2P Require Import Prelude Traces HttpCrate QmuxScheduling H3Types H3Body H3Conn H3Safety H3Head H3Shared H3Driver H3Roles H3Keeps H3Worlds H3Runs HeadFacts H3HttpToys.

(** What the two roles share: acting on the endings reported. *)
Section Endings.
Context `{Wakers} `{Crate : Http} `{Boxes : BoxedErrors} `{Lib : Recorded} {B : Type} `{!Bodies B}.
Abbreviation Machine := (H3Driver.Machine B).
Variable (Q : World B → Prop) (on_failed : StreamId → World B → World B).
Hypothesis Hc : closed Q.
Hypothesis Hf : ∀ stream w, Q w → Q (on_failed stream w).

Lemma fine_world (f : World B → World B) m :
  (∀ w, Q w → Q (f w)) → fine Q m → fine Q (RoleOps.on_world f m).
Proof. intros Hw [Hm Hq]. split; [done | by apply Hw]. Qed.

Lemma submit_trailers_fine stream t m : fine Q m → fine Q (RoleOps.submit_trailers stream t m).1.
Proof.
  intros Hm. unfold RoleOps.submit_trailers. destruct (H3Head.trailer_fields t) as [fs|]; [|done].
  destruct (H3Head.views fs) as [views|]; [|done].
  pose proof (harmless_submit_trailers stream views Q m Hc Hm) as Hs.
  by destruct (ConnOps.submit_trailers _ _ _).
Qed.

Lemma finish_loop_fine l : ∀ i m, fine Q m → fine Q (RoleOps.finish_loop on_failed i l m).1.
Proof.
  induction l as [|[stream a] l IH]; intros i m Hm; simpl; [done|].
  destruct (endings _ !! a) as [[ending|]|]; try by apply IH.
  assert (Hm1 : fine Q (RoleOps.on_world (λ w, Fields.set_endings (<[a := None]> (endings w)) w) m)).
  { apply fine_world; [|done]. intros w. apply Hc. by apply calm_stays. }
  revert Hm1. generalize (RoleOps.on_world
    (λ w, Fields.set_endings (<[a := None]> (endings w)) w) m) as m1. intros m1 Hm1.
  set (call := match ending with Clean => _ | _ => _ end).
  assert (Hcall : fine Q call.1).
  { unfold call. destruct ending; [done | by apply submit_trailers_fine|].
    apply fine_world; [by apply Hf | done]. }
  destruct call as [m2 [[]|e]]; simpl in *; [|done].
  pose proof (IH (S i) m2 Hcall) as Hl. by destruct (RoleOps.finish_loop _ _ _ _) as [? [?|?]].
Qed.

Lemma finish_bodies_fine l m : fine Q m → fine Q (RoleOps.finish_bodies on_failed l m).1.2.
Proof.
  intros Hm. unfold RoleOps.finish_bodies. pose proof (finish_loop_fine l 0 m Hm) as Hl.
  by destruct (RoleOps.finish_loop _ _ _ _) as [m1 [?|?]].
Qed.
End Endings.

Section Client.
Context `{Wakers} `{Crate : Http} `{Boxes : BoxedErrors} `{Lib : Recorded} `{!QuicBackends}.
Context `{!BackendLaws} {B : Type} `{!Bodies B} `{HashOrder}.
Abbreviation Driver := (H3Driver.Driver B ClientRole).
Abbreviation Machine := (H3Driver.Machine B).
Implicit Types (r : ClientRole) (w : World B).
Import Client.

(** The streams given to the role and those it answers for are the transport's, each given
    once. *)
Record streams_ok (O : gset Z) (spares : list StreamId) w : Prop := {
  so_spare s : s ∈ spares → s ∈ O;
  so_entries s : is_Some (entries w !! s) → s ∈ O;
  so_distinct : NoDup spares;
  so_unused s : s ∈ spares → entries w !! s = None
}.

Definition ClientInv O r w : Prop := accounted w ∧ streams_ok O (spare r) w.

(** An ended connection: no exchange is under way, and none will be. *)
Definition Ended w : Prop := SharedOps.is_gone w = true ∧ entries w = ∅ ∧ accounted w.

Lemma streams_ok_sub O O' l w w' :
  O ⊆ O' → (∀ s, is_Some (entries w' !! s) → is_Some (entries w !! s)) →
  streams_ok O l w → streams_ok O' l w'.
Proof.
  intros HO He [S1 S2 S3 S4]. split; [by eauto | by eauto | done|].
  intros s Hs. apply eq_None_not_Some. intros Hx. apply He in Hx. rewrite S4 in Hx by done.
  by destruct Hx.
Qed.

Lemma streams_ok_same O l w w' : entries w' = entries w → streams_ok O l w → streams_ok O l w'.
Proof. intros E. apply streams_ok_sub; [done | by rewrite E]. Qed.

Lemma closed_but X O l : closed (λ w, accounted_but X w ∧ streams_ok O l w).
Proof.
  split.
  - intros w w' Hc [Ha Hs]. split; [by eapply calm_accounted|].
    eapply streams_ok_same; [apply Hc | done].
  - intros x w [Ha Hs]. split; [by apply accounted_act|].
    eapply streams_ok_same; [apply act_entries | done].
Qed.

Lemma ClientInv_but O r w :
  ClientInv O r w ↔ accounted_but (λ _, False) w ∧ streams_ok O (spare r) w.
Proof. unfold ClientInv. by rewrite accounted_none. Qed.

Lemma released_client X O l w w' stream :
  released stream w w' → accounted_but X w ∧ streams_ok O l w → accounted_but X w' ∧ streams_ok O l w'.
Proof.
  intros Hr [Ha Hs]. split; [by eapply released_accounted|].
  eapply streams_ok_sub; [done | | done]. intros s. rewrite (rel_entries _ _ _ Hr).
  rewrite lookup_delete_is_Some. by intros [].
Qed.

Lemma fine_weaken (Q Q' : World B → Prop) m : (∀ w, Q w → Q' w) → fine Q m → fine Q' m.
Proof. intros Hq [Hm Hw]. split; [done | by apply Hq]. Qed.

Lemma on_failed_keeps X O l stream w :
  accounted_but X w ∧ streams_ok O l w →
  accounted_but X (on_failed stream w) ∧ streams_ok O l (on_failed stream w).
Proof.
  intros Hw. unfold on_failed. eapply closed_but; [apply calm_reset|].
  by eapply released_client; [apply fail_entry_released|].
Qed.

Lemma client_finish : role_call_keeps ClientInv finish.
Proof.
  intros O r m Hm. unfold finish. simpl.
  assert (Hq : fine (λ w, accounted_but (λ _, False) w ∧ streams_ok O (spare r) w) m)
    by (eapply fine_weaken; [|done]; intros w; apply ClientInv_but).
  pose proof (finish_bodies_fine _ on_failed (closed_but _ O (spare r))
    (on_failed_keeps _ O (spare r)) (c_endings r) m Hq) as Hf.
  destruct (RoleOps.finish_bodies _ _ _) as [[l m1] res]. simpl in *.
  eapply fine_weaken; [|done]. intros w. by rewrite ClientInv_but.
Qed.

(** A head that could be written can be viewed. *)
Lemma viewed fields fs :
  (let? _ := H3Head.views fields in Ok fields) = Ok fs → ∃ views, H3Head.views fs = Ok views.
Proof. destruct (H3Head.views fields) eqn:E; [|done]. intros [= <-]. eauto. Qed.

Lemma request_fields_views parts fs :
  H3Head.request_fields parts = Ok fs → ∃ views, H3Head.views fs = Ok views.
Proof.
  unfold H3Head.request_fields. case_decide; [done|]. destruct (negb _); [done|].
  destruct (H3Head.request_authority parts); [|done].
  destruct (H3Head.request_regular _) as [rest|]; [apply viewed | done].
Qed.

(** Settling the slot that was not accounted for. *)
Lemma settle_accounts w a res :
  accounted_but (eq a) w → accounted (Cell.settle a res w).
Proof.
  intros Ha b Hb. pose proof (calm_settle a res w) as Hc.
  destruct (Ha b (calm_slots _ _ Hc b Hb)) as [->|?]; [|by eapply calm_held].
  by destruct (settle_settles b res w).
Qed.

Lemma settle_client O l w a res :
  accounted_but (eq a) w ∧ streams_ok O l w →
  accounted_but (λ _, False) (Cell.settle a res w) ∧ streams_ok O l (Cell.settle a res w).
Proof.
  intros [Ha Hs]. rewrite <-accounted_none. split; [by apply settle_accounts|].
  eapply streams_ok_same; [apply calm_settle | done].
Qed.

Lemma streams_ok_tail O s l w : streams_ok O (s :: l) w → streams_ok O l w.
Proof.
  intros [S1 S2 S3 S4]. apply list.NoDup_cons in S3 as [? ?].
  split; try done; intros; [apply S1 | apply S4]; by apply list.elem_of_cons; right.
Qed.

(** Registering an exchange on the stream just taken. *)
Lemma insert_client O s l w a i :
  accounted_but (eq a) w ∧ streams_ok O (s :: l) w →
  accounted_but (λ _, False) (Cell.insert s (mkEntry (Some a) i) w) ∧
  streams_ok O l (Cell.insert s (mkEntry (Some a) i) w).
Proof.
  intros [Ha [S1 S2 S3 S4]]. split.
  - intros b Hb. right. unfold held. simpl. destruct (Ha b Hb) as [->|[Hq|[Hq|(k & e & Hk & He)]]].
    + right. right. exists s, (mkEntry (Some b) i). by rewrite lookup_insert, decide_True.
    + by left.
    + right. by left.
    + right. right. exists k, e. rewrite lookup_insert_ne; [done|]. intros ->.
      rewrite S4 in Hk; [done|]. by apply list.elem_of_cons; left.
  - apply list.NoDup_cons in S3 as [Hn Hd]. split; [| |done|].
    + intros k Hk. apply S1. by apply list.elem_of_cons; right.
    + intros k Hk. simpl in Hk. destruct (decide (s = k)) as [->|Hne].
      * apply S1. by apply list.elem_of_cons; left.
      * rewrite lookup_insert_ne in Hk by done. by apply S2.
    + intros k Hk. simpl. rewrite lookup_insert_ne by (by intros ->).
      apply S4. by apply list.elem_of_cons; right.
Qed.

Lemma calm_bind a stream w : calm w (Cell.bind a stream w).
Proof. by apply calm_on_slot. Qed.

(** One command, popped from the queue: whatever becomes of it, its slot is accounted for. *)
Lemma submit_one_keeps O c r m :
  spare r ≠ [] →
  fine (λ w, accounted_but (eq (c_slot c)) w ∧ streams_ok O (spare r) w) m →
  fine (ClientInv O (submit_one c (r, m)).1.1) (submit_one c (r, m)).1.2.
Proof.
  intros Hspare Hm. unfold submit_one.
  assert (Hto : ∀ r' m', fine (λ w, accounted_but (λ _, False) w ∧ streams_ok O (spare r') w) m' →
    fine (ClientInv O r') m').
  { intros r' m'. apply fine_weaken. intros w. by rewrite ClientInv_but. }
  destruct (Cell.is_settled _ _) eqn:Es.
  { apply Hto. destruct Hm as [Hh [Ha Hs]]. split; [done|]. split; [|done].
    intros a Hu. destruct (Ha a Hu) as [<-|?]; [|by right].
    by destruct (settled_not_unsettled _ _ Es). }
  destruct (spare r) as [|stream rest] eqn:Esp; [done|].
  assert (Hsettle : ∀ m' res, fine (λ w, accounted_but (eq (c_slot c)) w ∧
      streams_ok O (stream :: rest) w) m' →
    fine (ClientInv O (mkClient rest (c_endings r)))
      (RoleOps.on_world (Cell.settle (c_slot c) res) m')).
  { intros m' res [Hh Hw]. apply Hto. split; [done|].
    destruct (settle_client O _ _ _ res Hw) as [Ha Hs]. split; [done|].
    by eapply streams_ok_tail. }
  destruct (H3Head.request_fields (c_request c)) as [fs|e] eqn:Ef; [|by apply Hsettle].
  destruct (request_fields_views _ _ Ef) as [views ->]. simpl.
  set (m1 := RoleOps.on_world _ m).
  assert (Hm1 : fine (λ w, accounted_but (eq (c_slot c)) w ∧ streams_ok O (stream :: rest) w) m1).
  { destruct Hm as [Hh Hw]. split; [done|]. eapply closed_but; [|exact Hw]. by apply calm_stays. }
  set (source := RoleOps.attach _ _ _).
  pose proof (harmless_submit_request stream views source _ m1 (closed_but _ _ _) Hm1) as Hs.
  destruct (ConnOps.submit_request stream views source m1) as [m2 [[]|e]]; simpl in *.
  - apply Hto. destruct Hs as [Hh Hw]. split; [done|]. simpl. apply insert_client.
    eapply closed_but; [apply calm_bind | exact Hw].
  - destruct (H3Error.is_fatal e); by apply Hsettle.
Qed.

#[local] Arguments submit_one : simpl never.

Lemma submit_loop_keeps O fuel : ∀ s,
  fine (ClientInv O s.1) s.2 →
  fine (ClientInv O (submit_loop fuel s).1.1) (submit_loop fuel s).1.2.
Proof.
  induction fuel as [|fuel IH]; intros [r m] Hm; simpl; [done|].
  destruct (spare r) as [|stream rest] eqn:Esp; [done|].
  unfold Cell.pop. destruct (queue (RoleOps.m_world m)) as [|c q] eqn:Eq; [done|].
  set (m1 := RoleOps.on_world _ m).
  assert (Hm1 : fine (λ w, accounted_but (eq (c_slot c)) w ∧ streams_ok O (spare r) w) m1).
  { destruct Hm as [Hh [Ha Hs]]. simpl in Hs. split; [done|]. split.
    - intros a Hu. destruct (Ha a) as [(c' & Hc & <-)|?]; [done | | right; by right].
      simpl in Hc. unfold RoleOps.m_world in Eq. rewrite Eq in Hc. apply list.elem_of_cons in Hc as [->|Hc];
        [by left|].
      right. left. by exists c'.
    - eapply streams_ok_same; [|done]. done. }
  pose proof (submit_one_keeps O c r m1 ltac:(by rewrite Esp) Hm1) as Ho.
  destruct (submit_one c (r, m1)) as [[r2 m2] [[]|e]]; [|done]. by apply IH.
Qed.

Lemma client_advance_keeps : role_call_keeps ClientInv client_advance.
Proof.
  intros O r m Hm. unfold client_advance. pose proof (client_finish O r m Hm) as Hf.
  destruct (finish (r, m)) as [[r1 m1] [[]|e]]; [|done]. by apply submit_loop_keeps.
Qed.

Lemma ClientInv_calm O r w w' : calm w w' → ClientInv O r w → ClientInv O r w'.
Proof. rewrite !ClientInv_but. apply closed_but. Qed.

Lemma client_head_keeps stream fields : role_call_keeps ClientInv (client_head stream fields).
Proof.
  intros O r m Hm. unfold client_head. destruct (H3Head.response_head fields) as [head|]; [|done].
  case_match; [done|]. simpl. destruct Hm as [Hh Hw]. split; [done|]. simpl.
  case_match; [|done]. eapply ClientInv_calm; [apply calm_settle | done].
Qed.

(** *** The end *)

(** Failing what the registry held. *)
Lemma fail_all_slots error (l : list Entry) : ∀ w a,
  let w' := foldl (λ w e,
    let w := match e_slot e with Some a => Cell.fail a error w | None => w end in
    Cell.fail_incoming (e_incoming e) error w) w l in
  unsettled w' a → unsettled w a ∧ ∀ e, e ∈ l → e_slot e ≠ Some a.
Proof.
  induction l as [|e l IH]; intros w a; simpl; [intros Hu; split; [done | set_solver]|].
  intros Hu. apply IH in Hu as [Hu Hl].
  eapply calm_slots in Hu; [|apply calm_fail_incoming].
  split.
  - destruct (e_slot e); [|done]. by eapply calm_slots, Hu; apply calm_settle.
  - intros e' [->|He]%list.elem_of_cons; [|by apply Hl]. intros Ha. rewrite Ha in Hu.
    by eapply settle_settles.
Qed.

Lemma fail_all_same error (l : list Entry) : ∀ w,
  let w' := foldl (λ w e,
    let w := match e_slot e with Some a => Cell.fail a error w | None => w end in
    Cell.fail_incoming (e_incoming e) error w) w l in
  calm w w' ∧ shared w' = shared w.
Proof.
  induction l as [|e l IH]; intros w; simpl; [split; [apply calm_refl | done]|].
  set (w1 := Cell.fail_incoming _ _ _). destruct (IH w1) as [Hc E]. split.
  - eapply calm_trans; [|apply Hc]. unfold w1. destruct (e_slot e); [|apply calm_fail_incoming].
    eapply calm_trans; [apply calm_settle | apply calm_fail_incoming].
  - etrans; [exact E|]. unfold w1. destruct (e_slot e); [|done]. apply settle_shared.
Qed.

Lemma abandon_queue_slots error (l : list (Command B)) : ∀ w a,
  unsettled (foldl (λ w c, Cell.fail (c_slot c) error w) w l) a →
  unsettled w a ∧ ∀ c, c ∈ l → c_slot c ≠ a.
Proof.
  induction l as [|c l IH]; intros w a; simpl; [intros Hu; split; [done | set_solver]|].
  intros Hu. apply IH in Hu as [Hu Hl]. split.
  - by eapply calm_slots, Hu; apply calm_settle.
  - intros c' [->|Hc]%list.elem_of_cons; [|by apply Hl]. intros <-. by eapply settle_settles.
Qed.

Lemma abandon_queue_same error (l : list (Command B)) : ∀ w,
  let w' := foldl (λ w c, Cell.fail (c_slot c) error w) w l in
  calm w w' ∧ shared w' = shared w.
Proof.
  induction l as [|c l IH]; intros w; simpl; [split; [apply calm_refl | done]|].
  destruct (IH (Cell.fail (c_slot c) error w)) as [Hc E]. split.
  - eapply calm_trans; [apply calm_settle | done].
  - rewrite E. apply settle_shared.
Qed.

(** The registry drained: every entry is among those taken. *)
Lemma take_all_complete w stream e :
  entries w !! stream = Some e → e ∈ (Cell.take_all w).2.
Proof.
  intros He. simpl. apply list_elem_of_omap. exists stream. split; [|done].
  unfold Cell.streams. rewrite merge_sort_Permutation.
  apply list_elem_of_fmap. exists (stream, e). split; [done|]. by apply elem_of_map_to_list.
Qed.

(** The driver's last act empties the queue and the registry: the futures it leaves
    unanswered are those of the calls of [send_request] under way. *)
Lemma drop_leaves (d : Driver) :
  accounted (Drive.d_world d) →
  let w := Drive.d_world (Drive.drop_guard d) in
  SharedOps.is_gone w = true ∧ entries w = ∅ ∧ ∀ a, unsettled w a → sending w a.
Proof.
  intros Ha. unfold Drive.drop_guard. simpl. unfold Drive.d_world. simpl.
  set (w0 := Drive.d_world d) in *. unfold Cell.abandon_queue.
  set (taken := omap _ _). set (w1 := SharedOps.set_gone w0).
  set (w2 := Fields.set_entries ∅ w1).
  set (error := H3HttpError.new H3HttpError.Closed "the connection went away").
  destruct (fail_all_same error taken w2) as [Hc3 Eg3].
  pose proof (fail_all_slots error taken w2) as Hs3. simpl in Hs3.
  set (w3 := foldl _ w2 taken) in *.
  assert (Hq3 : queue w3 = queue w0) by (by rewrite (calm_queue _ _ Hc3)).
  set (error' := H3HttpError.new H3HttpError.Closed _).
  pose proof (abandon_queue_slots error' (queue w3) (Fields.set_queue [] w3)) as Hs4.
  destruct (abandon_queue_same error' (queue w3) (Fields.set_queue [] w3)) as [Hc4 Eg4].
  set (w4 := foldl _ _ (queue w3)) in *.
  assert (Hn4 : sends w4 = sends w0)
    by (rewrite (calm_sends _ _ Hc4); simpl; by rewrite (calm_sends _ _ Hc3)).
  assert (He4 : entries w4 = ∅)
    by (rewrite (calm_entries _ _ Hc4); simpl; by rewrite (calm_entries _ _ Hc3)).
  split_and!; [|done|].
  - assert (E : shared w4 = shared w1) by (etrans; [exact Eg4 | exact Eg3]).
    exact (f_equal gone E).
  - intros a Hu. destruct (Hs4 a Hu) as [Hu3 Hx4]. destruct (Hs3 a Hu3) as [Hu0 Hx3].
    destruct (Ha a Hu0) as [(c & Hc & Hs)|[?|(stream & e & He & Hs)]].
    + destruct (Hx4 c); [by rewrite Hq3 | done].
    + change (sending w4 a). unfold sending. by rewrite Hn4.
    + destruct (Hx3 e); [|done]. by apply (take_all_complete w1 stream).
Qed.

Lemma client_drop O (d : Driver) :
  ClientInv O (d_role d) (Drive.d_world d) → Ended (Drive.d_world (Drive.drop_guard d)).
Proof.
  intros [Ha _]. destruct (drop_leaves d Ha) as (Hg & He & Hs).
  split_and!; [done|done|]. intros a Hu. right. left. by apply Hs.
Qed.

Lemma ended_act x w : Ended w → Ended (Handle.act x w).
Proof.
  intros (Hg & He & Ha). split_and!.
  - by apply act_gone.
  - by rewrite act_entries.
  - rewrite accounted_none in *. by apply accounted_act.
Qed.

Lemma client_keeps : role_keeps (B:=B) ClientInv Ended.
Proof.
  split.
  - intros O O' r w HO [Ha Hs]. split; [done|]. by eapply streams_ok_sub.
  - intros O r w w' Hc. by apply ClientInv_calm.
  - intros O r w x. rewrite !ClientInv_but. apply closed_but.
  - intros O r w w' stream Hr. rewrite !ClientInv_but. by apply released_client with stream.
  - done.
  - intros O r w stream Hn [Ha [S1 S2 S3 S4]]. split; [done|]. simpl. split.
    + intros s Hs. apply elem_of_union. apply elem_of_app in Hs as [?|Hs%list_elem_of_singleton];
        [by right; apply S1 | left]. by apply elem_of_singleton.
    + intros s Hs. apply elem_of_union. right. by apply S2.
    + apply NoDup_app. split_and!; [done | | by apply list.NoDup_singleton].
      intros s Hs ->%list_elem_of_singleton. by apply Hn, S1.
    + intros s Hs. apply elem_of_app in Hs as [?| ->%list_elem_of_singleton]; [by apply S4|].
      apply eq_None_not_Some. intros Hx. by apply Hn, S2.
  - apply client_finish.
  - apply client_advance_keeps.
  - apply client_head_keeps.
  - intros O d. apply client_drop.
  - intros x w. apply ended_act.
Qed.

(** A connection just made. *)
Definition started (b : backend) (config : H3Config.Config) (d : Driver) : Prop :=
  handshake_with b config = Ok d.

Lemma started_inv b config d : started b config d → SInv ClientInv Ended (d, Drive.PcTop).
Proof.
  unfold started, handshake_with. destruct (build_conn H3Types.Client config) as [c|] eqn:E; [|done].
  intros [= <-]. split; [by eapply build_conn_handlers|].
  unfold Drive.driver_new, Drive.d_world. simpl. split.
  - intros a (s & Hs & _). simpl in Hs. by rewrite lookup_empty in Hs.
  - split; simpl; try (by intros s []%elem_of_nil).
    + intros s [e He]. by rewrite lookup_empty in He.
    + apply base.NoDup_nil_2.
Qed.

Definition over (pc : Drive.Pc) : Prop := ∃ res, pc = Drive.PcDone res.

#[local] Instance over_dec pc : Decision (over pc).
Proof. destruct pc; [right; by intros [? ?].. | left; by eexists]. Defined.

(** The step that ends the driver is its last act. *)
Lemma ends_with_drop (s s' : State (B:=B) (R:=ClientRole)) :
  step s s' → ¬ over s.2 → over s'.2 → SInv ClientInv Ended s →
  ∃ d, accounted (Drive.d_world d) ∧ s'.1 = Drive.drop_guard d.
Proof.
  intros Hstep Hn Ho Hs. destruct s as [d pc]. simpl in Hn.
  assert (Hne : ∀ res, pc ≠ Drive.PcDone res) by (intros res ->; apply Hn; by eexists).
  assert (Hd : Inv ClientInv d) by (destruct pc; try done; by destruct (Hne r)).
  destruct Hstep as [cx s' waits Ht|x|_]; [| |].
  - rewrite turn_eq in Ht by done.
    destruct (Drive.segment cx pc d) as [[d' res]|] eqn:E; [|done].
    pose proof (keeps_segment _ Ended client_keeps cx pc d d' res Hd E) as Hd'.
    destruct Ho as [end_ Ho]. exists d'. split; [apply Hd'|].
    destruct res as [[[] ?]|e]; by simplify_eq/=.
  - simpl in Ho. by destruct Hn.
  - exists d. split; [apply Hd | done].
Qed.

(** After the end every future still waiting was waiting already. *)
Lemma over_unsettled (s s' : State (B:=B) (R:=ClientRole)) :
  reachable s s' → over s.2 → SharedOps.is_gone (Drive.d_world s.1) = true →
  ∀ a, unsettled (Drive.d_world s'.1) a → unsettled (Drive.d_world s.1) a.
Proof.
  intros Hrun. induction Hrun as [|s s1 s' Hstep Hrun IH]; [done|]. intros Ho Hg a Hu.
  destruct s as [d pc]. destruct Ho as [end_ Ho]. simpl in Ho. subst pc.
  destruct Hstep as [cx s1 waits Ht|x|Hn]; [..|by destruct (Hn end_)].
  - unfold Drive.turn in Ht. injection Ht as <- _. apply IH; [by eexists | done..].
  - eapply act_unsettled_gone; [exact Hg|]. apply IH; [by eexists | by apply act_gone | done].
Qed.

(** The moment the driver ended. *)
Lemma the_end (s s' : State (B:=B) (R:=ClientRole)) :
  reachable s s' → ¬ over s.2 → over s'.2 →
  ∃ s0 s1, reachable s s0 ∧ ¬ over s0.2 ∧ step s0 s1 ∧ over s1.2 ∧ reachable s1 s'.
Proof.
  intros Hrun. induction Hrun as [s|s s1 s' Hstep Hrun IH]; [done|]. intros Hn Ho.
  destruct (decide (over s1.2)) as [Ho1|Ho1].
  - exists s, s1. by split_and!.
  - destruct (IH Ho1 Ho) as (t0 & t1 & Hr & ?). exists t0, t1. split; [|done].
    by eapply rtc_l.
Qed.

(** C22. No request is forgotten: over any interleaving of the driver's turns with anything the
    holders of the handles do, each step of a call of [send_request] by itself, whatever the
    transport, the peer and the bodies answer, a request whose future is not yet answered is
    still in the queue, in the registry, or in a call of [send_request] that has found the
    connection up and not pushed it yet.  When the driver ends, or is dropped, it answers
    every future it has heard of: from then on no future waits but those of the calls that
    were under way at that moment, past their look at whether the connection is gone, and no
    call begun later adds one.  Those futures may wait for ever:
    [ClientToy.sent_across_the_end]. *)
Theorem no_request_forgotten b config d s :
  started b config d → reachable (d, Drive.PcTop) s →
  (∀ a, unsettled (Drive.d_world s.1) a → held (Drive.d_world s.1) a) ∧
  (over s.2 →
   ∃ s0 s1, reachable (d, Drive.PcTop) s0 ∧ ¬ over s0.2 ∧ step s0 s1 ∧ over s1.2 ∧
     reachable s1 s ∧
     ∀ a, unsettled (Drive.d_world s.1) a → sending (Drive.d_world s1.1) a).
Proof.
  intros Hd Hs. assert (Hinv : ∀ s, reachable (d, Drive.PcTop) s → SInv ClientInv Ended s).
  { intros s' Hs'. apply (runs_keep _ _ client_keeps) in Hs'; [done|by eapply started_inv]. }
  split.
  - pose proof (Hinv s Hs) as Hi. unfold SInv in Hi. destruct s as [d' pc]. simpl in *.
    destruct pc; apply Hi.
  - intros Ho. destruct (the_end _ _ Hs ltac:(by intros [? [=]]) Ho)
      as (s0 & s1 & Hs0 & Hn & Hstep & Ho1 & Hrun).
    exists s0, s1. do 5 (split; [done|]). intros a Hu.
    destruct (ends_with_drop s0 s1 Hstep Hn Ho1 (Hinv s0 Hs0)) as (d0 & Ha & E).
    destruct (drop_leaves d0 Ha) as (Hg & _ & Hx). rewrite <-E in Hg, Hx.
    apply Hx. by eapply over_unsettled.
Qed.
End Client.

(** *** At a small connection *)
Module ClientToy.
Import HttpToy HeadToy Toys.

Definition waiting (a : nat) (w : TWorld) : bool :=
  match slots w !! a with Some s => negb (settled s) | None => false end.

Lemma waiting_unsettled a w : waiting a w = true → unsettled w a.
Proof.
  unfold waiting. destruct (slots w !! a) as [s|] eqn:E; [|done].
  intros Hs%negb_true_iff. by exists s.
Qed.

(** A request submitted and sent, its response not come yet. *)
Definition fresh : TDriver := connection (carrier (Accepted 10) []).
Definition all_of (l : list (Handle.Act (option bytes))) (s : TState) : TState :=
  foldl (flip doing) s l.
Definition begun : TState :=
  all_of [Handle.ASend HeadToy.request (Some (ascii_bytes "body"));
          Handle.ASendStep 0; Handle.ASendStep 0; Handle.ASendStep 0] (fresh, Drive.PcTop).
Definition asked : TState := turns 4 7%nat begun.

Lemma all_of_reachable l : ∀ s, reachable s (all_of l s).
Proof.
  induction l as [|x l IH]; intros s; [apply rtc_refl|].
  transitivity (doing x s); [apply doing_reachable | apply IH].
Qed.

Lemma asked_reachable : reachable (fresh, Drive.PcTop) asked.
Proof. transitivity begun; [apply all_of_reachable | apply turns_reachable]. Qed.

(** The connection dropped under it. *)
Definition lost : TState := (Drive.drop_guard asked.1, Drive.PcDone (Ok ())).

Lemma lost_reachable : reachable (fresh, Drive.PcTop) lost.
Proof.
  transitivity asked; [apply asked_reachable | apply rtc_once, step_drop].
  intros r E. enough (Hb : match asked.2 with Drive.PcDone _ => true | _ => false end = false)
    by (rewrite E in Hb; done).
  vm_compute. reflexivity.
Qed.

(** A driver dropped after a call of [send_request] has looked, at whether the connection is
    gone and whether it refuses, and before the call pushes: the future is left without an
    answer, in the queue of a connection nobody drives. *)
Definition looked : TState :=
  all_of [Handle.ASend HeadToy.request None; Handle.ASendStep 0] (fresh, Drive.PcTop).
Definition ended_late : TState := (Drive.drop_guard looked.1, Drive.PcDone (Ok ())).
Definition pushed_late : TState :=
  all_of [Handle.ASendStep 0; Handle.ASendStep 0] ended_late.

Example sent_across_the_end :
  reachable (fresh, Drive.PcTop) pushed_late ∧ over pushed_late.2 ∧
  waiting 0 (Drive.d_world pushed_late.1) = true ∧
  length (queue (Drive.d_world pushed_late.1)) = 1%nat ∧
  length (sends (Drive.d_world pushed_late.1)) = 0%nat.
Proof.
  split_and!; [|by eexists|vm_compute; reflexivity..].
  transitivity looked; [apply all_of_reachable|].
  transitivity ended_late; [by apply rtc_once, step_drop|].
  apply all_of_reachable.
Qed.

Lemma no_request_forgotten_witness :
  unsettled (Drive.d_world asked.1) 0 ∧ held (Drive.d_world asked.1) 0 ∧
  ∃ s0 s1, reachable (fresh, Drive.PcTop) s0 ∧ ¬ over s0.2 ∧ step s0 s1 ∧ over s1.2 ∧
    reachable s1 lost ∧ ∀ a, unsettled (Drive.d_world lost.1) a → sending (Drive.d_world s1.1) a.
Proof.
  assert (Hu : unsettled (Drive.d_world asked.1) 0)
    by (apply waiting_unsettled; vm_compute; reflexivity).
  split; [done|]. split.
  - exact (proj1 (no_request_forgotten _ _ _ _ (connection_ok _) asked_reachable) 0%nat Hu).
  - apply (proj2 (no_request_forgotten _ _ _ _ (connection_ok _) lost_reachable)). by eexists.
Defined.
End ClientToy.
