(* ===== verification/H3ServerFacts.v ===== *)
(** * The server's handlers are bounded

    However many exchanges a peer opens, no more handlers run at once than the configuration
    allows: an exchange over the limit is refused, never queued. *)

From Stdlib Require Import ZArith Lia Strings.Byte.
From stdpp Require Import base list gmap strings sorting.
From S2P Require Import Prelude Traces HttpCrate QmuxScheduling H3Types H3Body H3Conn H3Safety H3Head HeadFacts H3Shared H3Driver H3Roles H3Keeps H3Worlds H3Runs H3HttpToys H3ClientFacts.

Section Server.
Context `{Wakers} `{Crate : Http} `{Boxes : BoxedErrors} `{Lib : Recorded} `{!QuicBackends}.
Context `{!BackendLaws} {B : Type} `{!Bodies B} `{!Services B} `{HashOrder}.
Abbreviation Driver := (H3Driver.Driver B (ServerRole B)).
Abbreviation Machine := (H3Driver.Machine B).
Implicit Types (r : ServerRole B) (w : World B).
Import Server.

Variable M : Z.

Definition bounded r : Prop := max_concurrent r = M ∧ Z.of_nat (Tasks.len r) ≤ Z.max 0 M.

Definition ServerInv (O : gset Z) r w : Prop := bounded r.

Definition anything w : Prop := True.

Lemma closed_any O r : closed (ServerInv O r).
Proof. split; intros; done. Qed.

Lemma forget_bounded stream r w : bounded r → bounded (Tasks.forget stream (r, w)).1.
Proof.
  intros [Hm Hl]. split; [done|]. unfold Tasks.len in *. simpl.
  enough (size (delete stream (running r)) ≤ size (running r))%nat by lia.
  rewrite map_size_delete. case_match; simpl; lia.
Qed.

Lemma role_forget_bounded stream r w : bounded r → bounded (forget stream (r, w)).1.
Proof. intros Hr. exact (forget_bounded stream r w Hr). Qed.

Lemma poll_bounded stream r w : bounded r → bounded (Tasks.poll stream (r, w)).1.1.
Proof.
  intros [Hm Hl]. unfold Tasks.poll. destruct (running r !! stream) as [[a f]|] eqn:E; [|done].
  destruct (poll_future w a f) as [[f' l] polled].
  assert (Hb : bounded (Tasks.set_running (<[stream := (a, f')]> (running r)) r)).
  { split; [done|]. unfold Tasks.len in *. simpl. rewrite map_size_insert, E. simpl. lia. }
  destruct polled as [|answer]; [done|]. exact (forget_bounded stream _ (Handle.acts l w) Hb).
Qed.

Lemma start_bounded stream f r w :
  Z.of_nat (Tasks.len r) < M → max_concurrent r = M → bounded (Tasks.start stream f (r, w)).1.
Proof.
  intros Hl Hm. unfold Tasks.start. simpl. split; [done|]. unfold Tasks.len in *. simpl.
  rewrite map_size_insert. case_match; simpl; lia.
Qed.

(** A step of the loop, on the machine lent to it. *)
Definition good (s : ServerRole B * Machine) : Prop :=
  bounded s.1 ∧ handlers s.2.1 = driver_handlers.

Lemma good_call {A} (call : Machine → Machine * result A H3Types.Error) r m :
  harmless call → good (r, m) → good (r, (call m).1).
Proof.
  intros Hc [Hr Hm]. split; [done|].
  apply (Hc anything m); [by split | by split].
Qed.

Lemma server_finish_good s : good s → good (finish s).1.
Proof.
  intros [Hr Hm]. unfold finish.
  pose proof (finish_bodies_fine anything (λ stream, SharedOps.reset stream REQUEST_CANCELLED)
    ltac:(by split) ltac:(done) (s_endings s.1) s.2 (conj Hm I)) as Hf.
  destruct (RoleOps.finish_bodies _ _ _) as [[l m1] res]. split; [apply Hr | apply Hf].
Qed.

Lemma answer_one_good stream answer s : good s → good (answer_one stream answer s).1.
Proof.
  intros [Hr Hm]. destruct s as [r m]. unfold answer_one. destruct answer as [response body].
  case_match; [split; [exact (role_forget_bounded stream r (RoleOps.m_world m) Hr) | done]|].
  destruct (H3Head.response_fields response) as [fs|];
    [|split; [exact (role_forget_bounded stream r (SharedOps.reset stream REQUEST_CANCELLED
        (RoleOps.m_world m)) Hr) | done]].
  destruct (H3Head.views fs) as [views|]; [|done].
  destruct (Cell.ending_alloc _) as [w ending]. cbn iota.
  match goal with |- context [ConnOps.submit_response ?st ?vs ?src ?m1] =>
    assert (Hg : good (r, m1)) by done;
    pose proof (good_call _ r m1 (harmless_submit_response st vs src) Hg) as Hs;
    destruct (ConnOps.submit_response st vs src m1) as [m2 [[]|e]] end; [|done].
  destruct Hs as [Hb Hh]. by split.
Qed.

#[local] Arguments Tasks.poll : simpl never.
#[local] Arguments answer_one : simpl never.

Lemma answer_loop_good woken s : good s → good (answer_loop woken s).1.
Proof.
  revert s. induction woken as [|stream woken IH]; intros [r m] Hs; simpl; [done|].
  pose proof (poll_bounded stream r (RoleOps.m_world m) (proj1 Hs)) as Hp.
  destruct (Tasks.poll _ _) as [[r1 w1] [answer|]]; simpl in *.
  - pose proof (answer_one_good stream answer (r1, RoleOps.on_world (λ _, w1) m)
      (conj Hp (proj2 Hs))) as Ho.
    destruct (answer_one _ _ _) as [s2 [[]|e]]; [by apply IH | done].
  - apply IH. by split; [|apply Hs].
Qed.

Lemma good_fine O s : good s → fine (ServerInv O s.1) s.2.
Proof. intros [Hr Hm]. by split. Qed.

Lemma fine_good O r m : fine (ServerInv O r) m → good (r, m).
Proof. intros [Hm Hr]. by split. Qed.

Lemma server_advance_good s : good s → good (server_advance s).1.
Proof.
  intros Hs. unfold server_advance. pose proof (server_finish_good s Hs) as Hf.
  destruct (finish s) as [[r1 m1] [[]|e]]; [|done].
  simpl. apply answer_loop_good. split; apply Hf.
Qed.

Lemma server_head_good stream fields s : good s → good (server_head stream fields s).1.
Proof.
  intros Hs. destruct s as [r m]. unfold server_head.
  assert (Hrefuse : good (r, refuse stream m)).
  { unfold refuse. pose proof (good_call _ r m (harmless_shutdown_read stream) Hs) as Hc.
    destruct (ConnOps.shutdown_stream_read stream m) as [m1 res]. apply Hc. }
  destruct (_ <=? _) eqn:E; [done|]. apply Z.leb_gt in E.
  destruct (H3Head.request_head fields) as [hd|]; [|done].
  destruct (Cell.incoming_alloc _) as [w1 incoming].
  destruct (Cell.cancel_alloc _) as [w2 cancelled].
  destruct (call_service _ _ _ _) as [[sv future] l].
  destruct Hs as [[Hm Hl] Hh].
  match goal with |- context [Tasks.start ?st ?f (?r1, ?w3)] =>
    assert (Hb : bounded (Tasks.start st f (r1, w3)).1)
      by (apply start_bounded; [unfold Tasks.len in *; simpl in *; lia | done]);
    destruct (Tasks.start st f (r1, w3)) as [r2 w4] end.
  by split.
Qed.

Lemma server_keeps : role_keeps (B:=B) ServerInv anything.
Proof.
  split; try done.
  - intros O r w stream [Hm Hl]. simpl. unfold server_closed.
    destruct (list_find _ _) as [[i [? a]]|]; by split.
  - intros O r m Hm%fine_good. apply good_fine. by apply server_finish_good.
  - intros O r m Hm%fine_good. apply good_fine. by apply server_advance_good.
  - intros stream fields O r m Hm%fine_good. apply good_fine. by apply server_head_good.
Qed.
End Server.

Section Bound.
Context `{Wakers} `{Crate : Http} `{Boxes : BoxedErrors} `{Lib : Recorded} `{!QuicBackends}.
Context `{!BackendLaws} {B : Type} `{!Bodies B} `{!Services B} `{HashOrder}.

(** C25. However the peer, the transport, the service and the holders of bodies behave, a server
    runs at most as many handlers at once as its configuration allows. *)
Theorem handlers_bounded (b : backend) (s : Service) config d st :
  0 ≤ H3Config.c_max_concurrent_streams config →
  Server.serve_with b s config = Ok d → reachable (B:=B) (d, Drive.PcTop) st →
  (∀ res, st.2 ≠ Drive.PcDone res) →
  Z.of_nat (Tasks.len (d_role st.1)) ≤ H3Config.c_max_concurrent_streams config.
Proof.
  intros Hpos Hd Hs Hn.
  apply (runs_keep _ _ (server_keeps (H3Config.c_max_concurrent_streams config))) in Hs.
  - unfold SInv in Hs. destruct st as [d' pc]. simpl in *.
    assert (Hi : Inv (ServerInv (H3Config.c_max_concurrent_streams config)) d')
      by (destruct pc; try done; by destruct (Hn r)).
    destruct Hi as [_ [_ Hl]]. lia.
  - unfold Server.serve_with in Hd. destruct (build_conn H3Types.Server config) as [c|] eqn:E; [|done].
    injection Hd as <-. split; [by eapply build_conn_handlers|].
    split; [done|]. unfold Tasks.len. simpl. rewrite map_size_empty. lia.
Qed.
End Bound.

(** *** At a small server *)
Module ServerToy.
Import HttpToy HeadToy Toys.

(** One handler allowed, two exchanges opened. *)
Definition limit : Z := 1.
Definition busy_server := turns 3 7%nat (serving limit, Drive.PcTop).

Definition running_handlers : Z := Z.of_nat (Tasks.len (d_role busy_server.1)).

Lemma handlers_bounded_witness : running_handlers = 1 ∧ running_handlers ≤ limit.
Proof.
  split; [vm_compute; reflexivity|].
  apply (handlers_bounded (H0:=toy_backends) (Services0:=toy_services) called () (H3Config.max_concurrent_streams limit H3Config.default)
    (serving limit) busy_server).
  - by vm_compute.
  - apply serving_ok.
  - apply turns_reachable.
  - intros r E.
    enough (Hb : match busy_server.2 with Drive.PcDone _ => true | _ => false end = false)
      by (rewrite E in Hb; done).
    vm_compute. reflexivity.
Defined.
End ServerToy.
