(* ===== verification/H3DriverFacts.v ===== *)
(** * What the pieces of the HTTP/3 driver do

    The record of closed streams against its specification, the loop that pulls a body, and
    what a GOAWAY does to the exchanges under way. *)

From Stdlib Require Import ZArith Lia Strings.Byte.
From stdpp Require Import base list gmap strings sorting.
From S2P Require Import Prelude Traces HttpCrate QmuxScheduling H3Types H3Body H3Conn H3Safety H3Head HeadFacts H3Shared H3Driver H3Roles H3Keeps H3Worlds H3Runs H3HttpToys H3ClientFacts.

(** ** Closed streams *)
Section Closed.
Import ClosedStreams.
#[local] Arguments Nat.sub : simpl never.
#[local] Arguments CLOSED_TOMBSTONES : simpl never.

(** The specification: the last of the distinct streams that closed, oldest first. *)
Definition remember (l : list StreamId) (stream : StreamId) : list StreamId :=
  if decide (stream ∈ l) then l else drop (S (length l) - CLOSED_TOMBSTONES) (l ++ [stream]).

Record coherent (c : ClosedStreams) : Prop := {
  co_members : members c = list_to_set (order c);
  co_distinct : NoDup (order c);
  co_bounded : (length (order c) ≤ CLOSED_TOMBSTONES)%nat
}.

(** Making room drops from the front, member and all. *)
Lemma trim_spec fuel : ∀ c,
  members c = list_to_set (order c) → NoDup (order c) →
  (length (order c) ≤ fuel)%nat →
  let c' := trim fuel c in
  order c' = drop (length (order c) - CLOSED_TOMBSTONES) (order c) ∧
  members c' = list_to_set (order c') ∧ NoDup (order c').
Proof.
  induction fuel as [|fuel IH]; intros [m o] Hm Hd Hl; simpl in *.
  - destruct o; simpl in *; [done|lia].
  - case_decide as Hlt; [|simpl; by replace (length o - CLOSED_TOMBSTONES)%nat with 0%nat by lia].
    destruct o as [|x o]; simpl in *; [done|].
    apply list.NoDup_cons in Hd as [Hx Hd].
    destruct (IH (mkClosed (m ∖ {[x]}) o)) as (Ho & Hm' & Hd'); simpl; [|done|lia|].
    + rewrite Hm. apply set_eq. intros y.
      rewrite elem_of_difference, elem_of_union, !elem_of_singleton, !elem_of_list_to_set.
      split; [tauto|]. intros Hy. split; [by right|]. by intros ->.
    + split_and!; [|done|done]. rewrite Ho. simpl.
      by replace (S (length o) - CLOSED_TOMBSTONES)%nat
        with (S (length o - CLOSED_TOMBSTONES))%nat by lia.
Qed.

Lemma insert_spec c stream :
  coherent c →
  coherent (insert stream c).1 ∧ order (insert stream c).1 = remember (order c) stream ∧
  (insert stream c).2 = bool_decide (¬ (stream ∈ order c)).
Proof.
  intros [Hm Hd Hb]. unfold insert, remember.
  assert (Hin : stream ∈ members c ↔ stream ∈ order c) by (by rewrite Hm, elem_of_list_to_set).
  destruct (decide (stream ∈ members c)) as [Hi|Hn]; simpl.
  - rewrite (decide_True (P := stream ∈ order c)) by tauto.
    rewrite bool_decide_false by tauto. by split_and!.
  - rewrite (decide_False (P := stream ∈ order c)) by tauto.
    rewrite bool_decide_true by tauto.
    destruct (trim_spec (length (order c ++ [stream]))
      (mkClosed ({[stream]} ∪ members c) (order c ++ [stream]))) as (Ho & Hm' & Hd'); simpl.
    + rewrite Hm, list_to_set_app_L. simpl. rewrite union_empty_r_L. apply union_comm_L.
    + apply NoDup_app. split_and!; [done| |apply list.NoDup_singleton].
      intros x Hx ->%list_elem_of_singleton. tauto.
    + done.
    + simpl in Ho. set (c' := trim _ _) in *.
      assert (E : (length (order c ++ [stream]) - CLOSED_TOMBSTONES =
                   S (length (order c)) - CLOSED_TOMBSTONES)%nat)
        by (rewrite length_app; simpl; lia).
      rewrite E in Ho. split_and!; [split; [done|done|]|exact Ho|done].
      rewrite Ho, length_drop, length_app. simpl. lia.
Qed.

Definition closing (l : list StreamId) : ClosedStreams :=
  foldl (λ c stream, (insert stream c).1) new l.

(** The record of closed streams is exactly its specification: the last 1024 of the distinct
    streams that closed, oldest first, the set and the queue never apart; and inserting one
    says whether it was there. *)
Theorem closed_streams_exact l stream :
  order (closing l) = foldl remember [] l ∧ coherent (closing l) ∧
  (contains stream (closing l) = true ↔ stream ∈ foldl remember [] l) ∧
  ((insert stream (closing l)).2 = true ↔ ¬ (stream ∈ foldl remember [] l)).
Proof.
  assert (Hl : order (closing l) = foldl remember [] l ∧ coherent (closing l)).
  { unfold closing. induction l as [|x l [IHo IHc]] using rev_ind.
    - split; [done|]. split; [done | apply base.NoDup_nil_2 | simpl; lia].
    - rewrite !foldl_app. simpl. destruct (insert_spec _ x IHc) as (? & Ho & _).
      rewrite Ho, IHo. by split. }
  destruct Hl as [Ho Hc]. destruct (insert_spec _ stream Hc) as (_ & _ & Hi).
  split_and!; [done|done| |].
  - unfold contains. rewrite bool_decide_eq_true, (co_members _ Hc), elem_of_list_to_set.
    by rewrite Ho.
  - by rewrite Hi, bool_decide_eq_true, Ho.
Qed.
End Closed.

(** ** Pulling a body *)
Section Pull.
Context `{Wakers} `{Crate : Http} `{Boxes : BoxedErrors} {B : Type} `{!Bodies B}.

(** The burst is fuel enough: more changes nothing, so the loop ends by itself. *)
Lemma pull_never_short k : ∀ fuel t pieces (o : Outgoing B) w,
  (body_burst w (o_body o) < fuel)%nat →
  OutgoingOps.pull (fuel + k) t pieces o w = OutgoingOps.pull fuel t pieces o w.
Proof.
  intros fuel. induction fuel as [|fuel IH]; intros t pieces o w Hf; [lia|].
  simpl. destruct (body_poll_frame w (o_stream o) (o_body o)) as [[b l] polled] eqn:E.
  pose proof (body_burst_falls _ _ _ _ _ _ E) as Hfall.
  destruct polled; try done.
  - assert (Hb : (body_burst (Handle.acts l w) b < fuel)%nat) by (pose proof (Hfall ltac:(eauto)); lia).
    case_decide; by apply IH.
  - assert (Hb : (body_burst (Handle.acts l w) b < fuel)%nat) by (pose proof (Hfall ltac:(eauto)); lia).
    by apply IH.
Qed.
End Pull.

(** ** GOAWAY *)
Section Goaway.
Context `{Wakers} `{Crate : Http} `{Boxes : BoxedErrors} `{Lib : Recorded} `{!QuicBackends}.
Context {B : Type} `{!Bodies B} `{HashOrder}.
Abbreviation Driver := (H3Driver.Driver B ClientRole).
Implicit Types (w : World B) (d : Driver).
Import Drive.

Definition refused : H3HttpError.Error :=
  H3HttpError.new H3HttpError.Refused "the peer went away before it looked at this exchange".

(** A slot answered, unless it was. *)
Definition answered (e : H3HttpError.Error) (s : Slot) : Slot :=
  if settled s then s else mkSlot (Some (Err e)) None true (s_stream s).

Lemma answered_twice e s : answered e (answered e s) = answered e s.
Proof. unfold answered. destruct (settled s) eqn:E; simpl; by rewrite ?E. Qed.

Lemma fail_slots a b e w :
  slots (Cell.fail a e w) !! b =
    if decide (a = b) then answered e <$> slots w !! b else slots w !! b.
Proof.
  unfold Cell.fail, Cell.settle, Cell.slot, answered. case_decide as Hab; [subst b|].
  - destruct (slots w !! a) as [s|] eqn:E; simpl.
    + destruct (settled s) eqn:Es; simpl; [done|]. by rewrite lookup_alter, decide_True, E.
    + by rewrite lookup_alter, decide_True, E.
  - destruct (settled _); [done|]. simpl. by rewrite lookup_alter_ne.
Qed.

(** One exchange refused. *)
Definition refuse_one w stream : World B := (fail_entry stream refused refused w).1.

Lemma refuse_one_entries w stream : entries (refuse_one w stream) = delete stream (entries w).
Proof. apply (fail_entry_released stream refused refused w). Qed.

Definition speaks_for w stream a : Prop := Cell.entry_slot stream w = Some a.

#[local] Instance speaks_for_dec w stream a : Decision (speaks_for w stream a).
Proof. unfold speaks_for. apply _. Defined.

#[local] Instance some_speaks_dec w (l : list StreamId) a : Decision (∃ stream, stream ∈ l ∧ speaks_for w stream a).
Proof.
  refine (cast_if (decide (Exists (λ stream, speaks_for w stream a) l)));
    rewrite <-Exists_exists; done.
Defined.

Lemma refuse_one_slots w stream a :
  (speaks_for w stream a → slots (refuse_one w stream) !! a = answered refused <$> slots w !! a) ∧
  (¬ speaks_for w stream a → slots (refuse_one w stream) !! a = slots w !! a).
Proof.
  unfold speaks_for, Cell.entry_slot, refuse_one, fail_entry. simpl.
  destruct (entries w !! stream) as [e|]; simpl; [|done].
  destruct (e_slot e) as [b|]; simpl; [|done]. rewrite fail_slots. simpl.
  split; [intros [= ->]; by rewrite decide_True|].
  intros Hn. rewrite decide_False; [done | congruence].
Qed.

Lemma refuse_all_entries l : ∀ w,
  entries (foldl refuse_one w l) = foldr delete (entries w) (reverse l).
Proof.
  induction l as [|s l IH]; intros w; simpl; [done|].
  rewrite IH, refuse_one_entries, reverse_cons, foldr_app. done.
Qed.

Lemma refuse_all_slots l a : ∀ w,
  ((∃ stream, stream ∈ l ∧ speaks_for w stream a) →
     slots (foldl refuse_one w l) !! a = answered refused <$> slots w !! a) ∧
  (¬ (∃ stream, stream ∈ l ∧ speaks_for w stream a) →
     slots (foldl refuse_one w l) !! a = slots w !! a).
Proof.
  induction l as [|s l IH]; intros w; simpl.
  { split; [by intros (? & []%elem_of_nil & _) | done]. }
  destruct (IH (refuse_one w s)) as [IH1 IH2], (refuse_one_slots w s a) as [Ho1 Ho2].
  assert (Hlater : ∀ x, speaks_for (refuse_one w s) x a ↔ x ≠ s ∧ speaks_for w x a).
  { intros x. unfold speaks_for, Cell.entry_slot. rewrite refuse_one_entries.
    rewrite lookup_delete. case_decide as Hsx; simpl; [by split; [|intros [? _]]|].
    split; [by split; [intros ->|] | by intros [_ ?]]. }
  destruct (decide (∃ x, x ∈ l ∧ speaks_for (refuse_one w s) x a)) as [Hd'|Hd'];
    destruct (decide (speaks_for w s a)) as [Hd|Hd].
  - split; [|by intros []; exists s; split; [apply list.elem_of_cons; left|]].
    intros _. rewrite (IH1 Hd'), (Ho1 Hd). destruct (slots w !! a); simpl; [|done].
    by rewrite answered_twice.
  - rewrite (IH1 Hd'), (Ho2 Hd). split; [done|]. intros []. destruct Hd' as (x & Hx & [_ Hs]%Hlater).
    exists x. by split; [apply list.elem_of_cons; right|].
  - rewrite (IH2 Hd'), (Ho1 Hd). split; [done|]. intros []. exists s.
    by split; [apply list.elem_of_cons; left|].
  - rewrite (IH2 Hd'), (Ho2 Hd). split; [|done]. intros (x & Hx & Hs). exfalso.
    apply list.elem_of_cons in Hx as [->|Hx]; [done|].
    destruct (decide (x = s)) as [->|Hne]; [done|]. apply Hd'. exists x. by rewrite Hlater.
Qed.

(** The loop of [refuse_from] is the world's. *)
Lemma refuse_loop l : ∀ d,
  ∃ d', each (λ stream,
      bind (modify (on_world (λ w, (fail_entry stream refused refused w).1)))
        (λ _, role_closed stream)) l d = Some (d', Ok ()) ∧
    d_world d' = foldl refuse_one (d_world d) l.
Proof.
  induction l as [|s l IH]; intros d; simpl; [by exists d|].
  unfold bind at 1. unfold bind at 1. unfold modify at 1, role_closed, modify. simpl.
  match goal with |- context [each _ l ?d1] => destruct (IH d1) as (d' & E & Ew) end.
  exists d'. split; [exact E|]. rewrite Ew. done.
Qed.

Lemma delete_list_lookup {A} (m : gmap Z A) (l : list Z) k :
  foldr delete m l !! k = if decide (k ∈ l) then None else m !! k.
Proof.
  induction l as [|x l IH]; [case_decide as H2; [by apply elem_of_nil in H2 | done]|].
  cbn [foldr]. rewrite lookup_delete, IH. destruct (decide (x = k)) as [->|Hx]; case_decide as H2;
    try case_decide as H3; try done.
  - destruct H3. by apply list.elem_of_cons; left.
  - destruct H3. by apply list.elem_of_cons; left.
  - destruct H3. by apply list.elem_of_cons; right.
  - by apply list.elem_of_cons in H3 as [->|?].
Qed.

(** When the peer says it will look at nothing from some stream on, exactly the exchanges
    from there on end: their futures get an error that says a retry is safe, unless they
    were answered; every exchange below, and every other future, is as it was. *)
Theorem goaway_exact cutoff d :
  ∃ d', refuse_from cutoff d = Some (d', Ok ()) ∧ H3HttpError.is_retriable refused = true ∧
    (∀ stream, entries (d_world d') !! stream =
       if decide (cutoff ≤ stream) then None else entries (d_world d) !! stream) ∧
    ∀ a,
      ((∃ stream, cutoff ≤ stream ∧ speaks_for (d_world d) stream a) →
         slots (d_world d') !! a = answered refused <$> slots (d_world d) !! a) ∧
      (¬ (∃ stream, cutoff ≤ stream ∧ speaks_for (d_world d) stream a) →
         slots (d_world d') !! a = slots (d_world d) !! a).
Proof.
  unfold refuse_from. unfold bind at 1. simpl.
  set (l := filter _ _).
  destruct (refuse_loop l d) as (d' & E & Ew). exists d'. split; [exact E|]. split; [done|].
  assert (Hl : ∀ s, s ∈ l ↔ cutoff ≤ s ∧ is_Some (entries (d_world d) !! s)).
  { intros s. unfold l. rewrite list_elem_of_filter. unfold H3Stream.get.
    apply and_iff_compat_l. unfold Cell.streams. rewrite merge_sort_Permutation.
    rewrite list_elem_of_fmap. split.
    - intros ([k e] & -> & He%elem_of_map_to_list). by exists e.
    - intros [e He]. exists (s, e). split; [done|]. by apply elem_of_map_to_list. }
  rewrite Ew. split.
  - intros s. rewrite refuse_all_entries, delete_list_lookup.
    case_decide as H1'; rewrite elem_of_reverse, Hl in H1'; case_decide as H2'; try done; try tauto.
    destruct (entries (d_world d) !! s) eqn:Es; [|done]. destruct H1'. split; [done | by eexists].
  - intros a. destruct (refuse_all_slots l a (d_world d)) as [Ha1 Ha2]. split.
    + intros (s & Hs & Hx). apply Ha1. exists s. split; [|done]. apply Hl. split; [done|].
      unfold speaks_for, Cell.entry_slot in Hx.
      destruct (entries (d_world d) !! s); [by eexists | done].
    + intros Hn. apply Ha2. intros (s & [Hs _]%Hl & Hx). apply Hn. by exists s.
Qed.
End Goaway.

(** ** Parking *)
Section Parking.
Context `{Wakers} `{Crate : Http} `{Boxes : BoxedErrors} `{Lib : Recorded} `{!QuicBackends}.
Context {B R : Type} `{!Bodies B} `{!Roles B R} `{HashOrder}.
Abbreviation Driver := (H3Driver.Driver B R).
Implicit Types (d : Driver).
Import Drive.

(** What a driver that parks has seen and left. *)
Record parked_well (cx : Waker) d : Prop := {
  pw_idle : SharedOps.has_work (shared (d_world d)) = false;
  pw_calm : busy (d_role d) (d_world d) = false;
  pw_waker : ∃ k, driver (shared (d_world d)) = Some k ∧ (k = cx ∨ will_wake k cx = true);
  pw_asked : ∃ b b', poll_event cx b = (b', Pending) ∧ d_backend d = (poll_flush cx b').1
}.

Lemma parks cx parked d d' :
  at_park cx parked d = Some (d', Ok (PcPark true, true)) → parked_well cx d'.
Proof.
  unfold at_park, bind, gets, ret, SharedOps.refresh_driver_and_work_pending. simpl.
  destruct (_ && _); [done|].
  set (sh := match driver _ with Some _ => _ | None => _ end).
  destruct (_ || _) eqn:E; [done|]. apply orb_false_iff in E as [Hw Eb].
  set (w := Fields.set_shared sh (d_world d)) in *.
  change (d_backend (on_world (λ _, w) d)) with (d_backend d).
  destruct (poll_event cx (d_backend d)) as [b p] eqn:Ep. destruct p as [|[ev|e]]; [|done..].
  destruct (poll_flush cx b) as [b' p] eqn:Ef. intros Hp.
  assert (Ed : d' = set_backend b' (set_backend b (on_world (λ _, w) d))).
  { destruct p as [|[[]|e]]; by simplify_eq. }
  subst d'. split.
  - exact Hw.
  - exact Eb.
  - change (∃ k, driver sh = Some k ∧ (k = cx ∨ will_wake k cx = true)). unfold sh.
    destruct (driver (shared (d_world d))) as [k|] eqn:Ek; simpl; [|by eauto].
    destruct (will_wake k cx) eqn:Ew; simpl; eauto.
  - exists (d_backend d), b. by rewrite Ef.
Qed.

(** The last handle dropped, and nothing asked of the driver: the one thing that changes what
    a parked driver would do and wakes nobody. *)
Definition only_unhandled (w w' : World B) : Prop :=
  errands w' = errands w ∧ handles w ≠ 0%nat ∧ handles w' = 0%nat.

(** C24. A parked driver is owed a wakeup, but for one thing.  It has nothing to do, its waker is
    registered with the connection and with the transport, and after any number of steps by
    the holders of its handles, one of these holds: nothing it would look at has changed,
    what is asked of it and whether any handle is left; its waker was woken; a call of
    [send_request] has pushed its command and is about to wake it; or all that has changed is
    that the last handle is gone, which would end a client's driver and of which, against
    what the source's comment expects, nothing tells it ([ParkToy.last_handle_unheard]). *)
Theorem parked_driver_owed cx parked d d' l :
  turn cx (d, PcPark parked) = Some (d', PcPark true, true) →
  parked_well cx d' ∧
  let w := d_world d' in
  let w' := Handle.acts l w in
  ∃ k, driver (shared w) = Some k ∧ (k = cx ∨ will_wake k cx = true) ∧
    (business w' = business w ∨ k ∈ since (length (woken w)) w' ∨ about_to_wake w' ∨
     only_unhandled w w').
Proof.
  rewrite turn_eq by done. cbn [segment]. intros Ht.
  assert (Hp : at_park cx parked d = Some (d', Ok (PcPark true, true))).
  { destruct (at_park cx parked d) as [[d1 [[[] wt]|e]]|]; by simplify_eq/=. }
  apply parks in Hp. split; [done|]. destruct (pw_waker _ _ Hp) as (k & Hk & Hw).
  exists k. split_and!; [done|done|].
  destruct (acts_noticed k l _ Hk) as [_ [He|?] _ Hh]; [|tauto].
  unfold business, only_unhandled. rewrite He.
  destruct (decide (handles (d_world d') = 0%nat)) as [E|E].
  - left. by rewrite Hh, E.
  - case_bool_decide as E'; [right; right; right; by split_and!|left].
    by rewrite bool_decide_eq_false_2.
Qed.
End Parking.

Module ParkToy.
Import HttpToy HeadToy Toys.

(** Whether a turn parked, and the driver it left. *)
Definition parks_now (o : option (TState * bool)) : bool :=
  match o with Some (_, Drive.PcPark true, true) => true | _ => false end.
Definition left_by (o : option (TState * bool)) : TDriver :=
  match o with Some (s, _) => s.1 | None => ClientToy.asked.1 end.

Abbreviation parking := (Drive.turn 7%nat (ClientToy.asked.1, Drive.PcPark false)).
Abbreviation parked := (left_by parking).

Lemma parks_shape o : parks_now o = true → o = Some (left_by o, Drive.PcPark true, true).
Proof. by destruct o as [[[d' [| | |[]|]] []]|]. Qed.

Lemma parked_turn : parking = Some (parked, Drive.PcPark true, true).
Proof. apply parks_shape. vm_compute. reflexivity. Qed.

(** Parked for want of a response, whose future its holder then gives up. *)
Definition given_up : list (Handle.Act (option bytes)) :=
  [Handle.APollFuture (mkFuture 0 1 false) 9%nat; Handle.ADropFuture (mkFuture 0 1 false)].

Definition heard (l : list (Handle.Act (option bytes))) : list nat :=
  since (length (woken (Drive.d_world parked))) (Handle.acts l (Drive.d_world parked)).

(** Another request, its caller between the push and the wake, and then past it. *)
Definition asking_more : list (Handle.Act (option bytes)) :=
  [Handle.ASend HeadToy.request None; Handle.ASendStep 0; Handle.ASendStep 0].

Example asked_more_heard :
  heard asking_more = [] ∧ heard (asking_more ++ [Handle.ASendStep 0]) = [7%nat].
Proof. by vm_compute. Qed.

(** The one handle dropped: nobody is woken, though the driver would now do otherwise. *)
Example last_handle_unheard :
  heard [Handle.ADropHandle] = [] ∧
  business (Handle.acts [Handle.ADropHandle] (Drive.d_world parked)) ≠ business (Drive.d_world parked).
Proof. split; [by vm_compute|]. intros E. apply (f_equal snd) in E. by vm_compute in E. Qed.

Lemma parked_driver_owed_witness :
  heard given_up = [9; 7]%nat ∧ parked_well 7%nat parked ∧
  ∃ k, driver (shared (Drive.d_world parked)) = Some k ∧ (k = 7%nat ∨ will_wake k 7%nat = true) ∧
    (business (Handle.acts given_up (Drive.d_world parked)) = business (Drive.d_world parked) ∨
     k ∈ heard given_up ∨ about_to_wake (Handle.acts given_up (Drive.d_world parked)) ∨
     only_unhandled (Drive.d_world parked) (Handle.acts given_up (Drive.d_world parked))).
Proof.
  split; [vm_compute; reflexivity|].
  exact (parked_driver_owed 7%nat false ClientToy.asked.1 parked given_up parked_turn).
Defined.
End ParkToy.
