(* ===== verification/H3ReadFacts.v ===== *)
(** * Reading a body returns exactly its credit

    A body's cell between the driver that fills it and the reader that empties it or drops
    it: the octets come out in the order they went in, and the peer is given back the window
    of those read, and of those dropped unread, and of no others. *)

From Stdlib Require Import ZArith Lia Strings.Byte.
From stdpp Require Import base list gmap strings sorting.
From S2P Require Import Prelude HttpCrate QmuxScheduling H3Types H3Head HeadFacts H3Shared H3HttpToys.

Section Reading.
Context `{Wakers} `{Crate : Http} `{Boxes : BoxedErrors} {B : Type} `{HashOrder}.
Implicit Types (w : World B).
Variable body : IncomingBody.

(** What may happen to it: the driver's side, the last of them its taking of all the credit
    queued; and the reader's. *)
Inductive event :=
| Arrive (chunk : bytes)
| ArriveTrailers (m : HeaderMap)
| Finish
| Fail (e : H3HttpError.Error)
| Drain
| Read (waker : Waker)
| Drop.

(** The world; what arrived while there was somebody to read it, and what the reader was
    given; whether it dropped the body, which it then neither reads nor drops again; and the
    credit the driver took. *)
Record reading := mkReading {
  r_world : World B;
  r_arrived : bytes;
  r_given : bytes;
  r_dropped : bool;
  r_taken : Z
}.

Definition data_of (p : Poll (option (result Handle.FrameOf H3HttpError.Error))) : bytes :=
  match p with Ready (Some (Ok (Handle.FData bs))) => bs | _ => [] end.

(** The credit of one stream in a batch of work. *)
Definition credit_in (l : list (Z * Z)) : Z :=
  foldr (λ p n, if decide (p.1 = ib_stream body) then p.2 + n else n) 0 l.

Definition happens (s : reading) (e : event) : reading :=
  let a := ib_incoming body in
  let 'mkReading w arrived given dropped taken := s in
  match e with
  | Arrive chunk =>
      mkReading (Cell.push a chunk w) (if dropped then arrived else arrived ++ chunk) given
        dropped taken
  | ArriveTrailers m => mkReading (Cell.set_trailers a m w) arrived given dropped taken
  | Finish => mkReading (Cell.finish a w) arrived given dropped taken
  | Fail e => mkReading (Cell.fail_incoming a e w) arrived given dropped taken
  | Drain =>
      let '(w, work) := SharedOps.drain_work work_new w in
      mkReading w arrived given dropped (taken + credit_in (w_credit work))
  | Read k =>
      if dropped then s
      else
        let '(w, p) := Handle.poll_frame body k w in
        mkReading w arrived (given ++ data_of p) false taken
  | Drop =>
      if dropped then s else mkReading (Handle.drop_body body w) arrived given true taken
  end.

Definition reads (l : list event) w : reading := foldl happens (mkReading w [] [] false 0) l.

(** The credit of the stream still queued, and the octets retained for it. *)
Definition credited w : Z := default 0 (credit (shared w) !! ib_stream body).
Definition unread w : bytes := concat (chunks (Cell.incoming (ib_incoming body) w)).

(** The octets the peer may send again. *)
Definition returned (s : reading) : bytes := if r_dropped s then r_arrived s else r_given s.

Record reading_fine (start : Z) (s : reading) : Prop := {
  rf_cell : is_Some (incomings (r_world s) !! ib_incoming body);
  rf_abandoned : abandoned (Cell.incoming (ib_incoming body) (r_world s)) = r_dropped s;
  rf_bytes : if r_dropped s then unread (r_world s) = [] ∧ r_given s `prefix_of` r_arrived s
             else r_given s ++ unread (r_world s) = r_arrived s;
  rf_credit : (r_taken s + credited (r_world s)) mod 2 ^ 64 =
              (start + Z.of_nat (length (returned s))) mod 2 ^ 64
}.

(** *** What each change does to the cell *)
Lemma incoming_changed f w :
  is_Some (incomings w !! ib_incoming body) →
  Cell.incoming (ib_incoming body) (Cell.on_incoming (ib_incoming body) f w) =
  f (Cell.incoming (ib_incoming body) w).
Proof.
  intros [i E]. unfold Cell.incoming, Cell.on_incoming, Fields.set_incomings. simpl.
  rewrite lookup_alter. case_decide; [|done]. by rewrite E.
Qed.

Lemma incoming_stays f w :
  is_Some (incomings w !! ib_incoming body) →
  is_Some (incomings (Cell.on_incoming (ib_incoming body) f w) !! ib_incoming body).
Proof.
  intros [i E]. unfold Cell.on_incoming, Fields.set_incomings. simpl.
  rewrite lookup_alter. case_decide; [|done]. by rewrite E.
Qed.

(** Changes that keep the abandonment, the octets and the credit keep the invariant. *)
Lemma fine_same start s w :
  reading_fine start s →
  is_Some (incomings w !! ib_incoming body) →
  abandoned (Cell.incoming (ib_incoming body) w) =
    abandoned (Cell.incoming (ib_incoming body) (r_world s)) →
  unread w = unread (r_world s) → credited w = credited (r_world s) →
  reading_fine start (mkReading w (r_arrived s) (r_given s) (r_dropped s) (r_taken s)).
Proof.
  intros [Hi Ha Hb Hc] Hw Ea Eu Ec. constructor; simpl; [done| | |].
  - by rewrite Ea.
  - by rewrite Eu.
  - rewrite Ec. exact Hc.
Qed.
(** *** Taking all the credit *)
Lemma credit_in_cons p l :
  credit_in (p :: l) =
  if decide (p.1 = ib_stream body) then p.2 + credit_in l else credit_in l.
Proof. done. Qed.

Lemma credit_in_keys (m : gmap Z Z) (ks : list Z) :
  base.NoDup ks →
  credit_in ((λ k, (k, default 0 (m !! k))) <$> ks) =
  if decide (ib_stream body ∈ ks) then default 0 (m !! ib_stream body) else 0.
Proof.
  induction ks as [|k ks IH]; intros D.
  - destruct (decide (ib_stream body ∈ @nil Z)) as [E|]; [by inversion E|done].
  - apply list.NoDup_cons in D as [N D]. specialize (IH D). rewrite fmap_cons, credit_in_cons.
    simpl fst; simpl snd. rewrite IH. destruct (decide (k = ib_stream body)) as [Ek|Nk].
    + subst k. rewrite (decide_False (P := ib_stream body ∈ ks)) by done.
      rewrite decide_True by apply list.elem_of_cons, or_introl, eq_refl. lia.
    + destruct (decide (ib_stream body ∈ ks)) as [E|E].
      * rewrite decide_True; [done|]. apply list.elem_of_cons. auto.
      * rewrite decide_False; [done|]. intros [Ek|]%list.elem_of_cons; [by apply Nk|done].
Qed.

Lemma drain_takes w :
  credit_in (w_credit (SharedOps.drain_work work_new w).2) = credited w ∧
  credited (SharedOps.drain_work work_new w).1 = 0.
Proof.
  split.
  - unfold SharedOps.drain_work. simpl. rewrite credit_in_keys.
    + unfold credited. destruct (decide (ib_stream body ∈ keys (credit (shared w)))) as [|E]; [done|].
      destruct (credit (shared w) !! ib_stream body) as [v|] eqn:Ev; [|done].
      destruct E. rewrite keys_perm. apply list_elem_of_fmap. exists (ib_stream body, v).
      split; [done|]. by apply elem_of_map_to_list.
    + rewrite keys_perm. apply NoDup_fst_map_to_list.
  - unfold credited, SharedOps.drain_work. simpl. by rewrite lookup_empty.
Qed.

(** *** Each event *)
Lemma credit_more start s n w :
  (r_taken s + credited (r_world s)) mod 2 ^ 64 =
    (start + Z.of_nat (length (returned s))) mod 2 ^ 64 →
  credited w = wrapping_add (credited (r_world s)) (Z.of_nat n) →
  (r_taken s + credited w) mod 2 ^ 64 =
    (start + Z.of_nat (length (returned s) + n)) mod 2 ^ 64.
Proof.
  intros E ->. unfold wrapping_add. rewrite Zplus_mod_idemp_r, Z.add_assoc.
  rewrite <- Zplus_mod_idemp_l, E, Zplus_mod_idemp_l. f_equal. lia.
Qed.

Lemma body_credit_adds n w :
  credited (Handle.body_credit body (Z.of_nat n) w) =
    (if decide (n = 0%nat) then credited w else wrapping_add (credited w) (Z.of_nat n)) ∧
  incomings (Handle.body_credit body (Z.of_nat n) w) = incomings w.
Proof.
  unfold Handle.body_credit. destruct (Z.eqb_spec (Z.of_nat n) 0) as [E|E].
  - rewrite decide_True by lia. done.
  - rewrite decide_False by lia. split; [|done].
    unfold credited, SharedOps.wake_driver, SharedOps.add_credit, Fields.wake, Fields.on_shared,
      Fields.set_shared, Fields.set_credit. simpl.
    rewrite lookup_insert. by rewrite decide_True.
Qed.

(** A stored credit counts modulo the width, so adding nothing to it changes nothing. *)
Lemma body_credit_more start s n w w' :
  (r_taken s + credited (r_world s)) mod 2 ^ 64 =
    (start + Z.of_nat (length (returned s))) mod 2 ^ 64 →
  credited w = credited (r_world s) →
  w' = Handle.body_credit body (Z.of_nat n) w →
  (r_taken s + credited w') mod 2 ^ 64 =
    (start + Z.of_nat (length (returned s) + n)) mod 2 ^ 64.
Proof.
  intros E Ew ->. destruct (body_credit_adds n w) as [Ec _].
  destruct (decide (n = 0%nat)) as [->|].
  - rewrite Ec, Ew, Nat.add_0_r. exact E.
  - apply credit_more; [done|]. by rewrite Ec, Ew.
Qed.

Lemma and_wake_fine start s f :
  reading_fine start s →
  (∀ i, abandoned (f i) = abandoned i) → (∀ i, chunks (f i) = chunks i) →
  reading_fine start
    (mkReading (Cell.and_wake (ib_incoming body) f (r_world s)) (r_arrived s) (r_given s)
       (r_dropped s) (r_taken s)).
Proof.
  intros F Ha Hc. pose proof (rf_cell _ _ F) as C. apply fine_same; [done| | | |done].
  - exact (incoming_stays _ _ C).
  - change (abandoned (Cell.incoming (ib_incoming body)
      (Cell.on_incoming (ib_incoming body) (λ i, mkIncoming (chunks (f i)) (i_trailers (f i))
        (finished (f i)) (failure (f i)) None (abandoned (f i))) (r_world s))) =
      abandoned (Cell.incoming (ib_incoming body) (r_world s))).
    rewrite incoming_changed by done. apply Ha.
  - unfold unread. change (concat (chunks (Cell.incoming (ib_incoming body)
      (Cell.on_incoming (ib_incoming body) (λ i, mkIncoming (chunks (f i)) (i_trailers (f i))
        (finished (f i)) (failure (f i)) None (abandoned (f i))) (r_world s)))) =
      concat (chunks (Cell.incoming (ib_incoming body) (r_world s)))).
    rewrite incoming_changed by done. simpl. by rewrite Hc.
Qed.

Lemma push_fine start s chunk :
  reading_fine start s →
  reading_fine start
    (mkReading (Cell.push (ib_incoming body) chunk (r_world s))
       (if r_dropped s then r_arrived s else r_arrived s ++ chunk) (r_given s) (r_dropped s)
       (r_taken s)).
Proof.
  intros F. destruct F as [C Ha Hb Hc]. unfold Cell.push. rewrite Ha.
  destruct (r_dropped s) eqn:Ed; simpl.
  { constructor; simpl; [done..|]. unfold returned in *. by rewrite Ed in Hc. }
  destruct (bool_decide_reflect (chunk = [])) as [->|_].
  { rewrite app_nil_r. constructor; simpl; try done. unfold returned in *. by rewrite Ed in Hc. }
  set (f := λ i, mkIncoming (chunks i ++ [chunk]) (i_trailers i) (finished i) (failure i) None
                   (abandoned i)).
  set (w' := Cell.and_wake _ _ _).
  assert (Cell.incoming (ib_incoming body) w' = f (Cell.incoming (ib_incoming body) (r_world s)))
    as E by exact (incoming_changed f (r_world s) C).
  constructor; simpl.
  - exact (incoming_stays f (r_world s) C).
  - rewrite E. exact Ha.
  - unfold unread. rewrite E. simpl. rewrite concat_app. simpl. rewrite app_nil_r, app_assoc.
    f_equal. exact Hb.
  - change (credited w') with (credited (r_world s)). unfold returned in *. by rewrite Ed in Hc.
Qed.

(** The octets a reader is handed are the first still unread. *)
Lemma poll_frame_takes k w :
  is_Some (incomings w !! ib_incoming body) →
  let '(w', p) := Handle.poll_frame body k w in
  is_Some (incomings w' !! ib_incoming body) ∧
  abandoned (Cell.incoming (ib_incoming body) w') =
    abandoned (Cell.incoming (ib_incoming body) w) ∧
  data_of p ++ unread w' = unread w ∧
  ∃ u, credited u = credited w ∧
    w' = Handle.body_credit body (Z.of_nat (length (data_of p))) u.
Proof.
  intros C. unfold Handle.poll_frame, Cell.poll.
  assert (∀ f, (∀ i, abandoned (f i) = abandoned i) → (∀ i, chunks (f i) = chunks i) →
    let w' := Cell.on_incoming (ib_incoming body) f w in
    is_Some (incomings w' !! ib_incoming body) ∧
    abandoned (Cell.incoming (ib_incoming body) w') =
      abandoned (Cell.incoming (ib_incoming body) w) ∧ unread w' = unread w ∧
    ∃ u, credited u = credited w ∧ w' = Handle.body_credit body 0 u) as Same.
  { intros f Ha Hc. unfold unread. cbv zeta. rewrite (incoming_changed f w C).
    rewrite Ha, Hc. split_and!; [exact (incoming_stays f w C)|done..|].
    by exists (Cell.on_incoming (ib_incoming body) f w). }
  destruct (chunks (Cell.incoming (ib_incoming body) w)) as [|chunk rest] eqn:Ec.
  - destruct (i_trailers _); [by apply Same|]. destruct (failure _); [by apply Same|].
    destruct (finished _); [|by apply Same]. simpl. split_and!; [done..|]. by exists w.
  - set (f := λ i, mkIncoming rest (i_trailers i) (finished i) (failure i) (i_waker i)
                     (abandoned i)).
    set (u := Cell.on_incoming (ib_incoming body) f w). simpl.
    assert (Cell.incoming (ib_incoming body) (Handle.body_credit body (Z.of_nat (length chunk)) u)
      = f (Cell.incoming (ib_incoming body) w)) as E.
    { unfold Cell.incoming at 1.
      rewrite (proj2 (body_credit_adds (length chunk) u)).
      exact (incoming_changed f w C). }
    rewrite (proj2 (body_credit_adds (length chunk) u)).
    split_and!; [exact (incoming_stays f w C)| | |by exists u].
    + by rewrite E.
    + unfold unread. rewrite E, Ec. done.
Qed.

Lemma drop_body_takes w :
  is_Some (incomings w !! ib_incoming body) →
  let w' := Handle.drop_body body w in
  is_Some (incomings w' !! ib_incoming body) ∧
  abandoned (Cell.incoming (ib_incoming body) w') = true ∧ unread w' = [] ∧
  ∃ u, credited u = credited w ∧
    credited w' = credited (Handle.body_credit body (Z.of_nat (length (unread w))) u).
Proof.
  intros C. unfold Handle.drop_body, Cell.abandon. cbv zeta.
  set (f := λ i, mkIncoming [] (i_trailers i) (finished i) (failure i) (i_waker i) true).
  set (u := Cell.on_incoming (ib_incoming body) f w).
  change (Z.of_nat (length (concat (chunks (Cell.incoming (ib_incoming body) w)))))
    with (Z.of_nat (length (unread w))).
  set (v := Handle.body_credit body (Z.of_nat (length (unread w))) u).
  set (w' := if (_ : bool) then _ else _).
  assert (incomings w' = incomings u) as Ei.
  { subst w'. destruct (_ && _); [|apply body_credit_adds].
    change (incomings v = incomings u). apply body_credit_adds. }
  assert (Cell.incoming (ib_incoming body) w' = f (Cell.incoming (ib_incoming body) w)) as E.
  { unfold Cell.incoming at 1. rewrite Ei. exact (incoming_changed f w C). }
  unfold unread at 1. rewrite E, Ei. split_and!; [exact (incoming_stays f w C)|done..|].
  exists u. split; [done|]. subst w'. destruct (_ && _); [|done].
  unfold credited, SharedOps.wake_driver, SharedOps.reset, Fields.wake, Fields.on_shared,
    Fields.set_shared, v. simpl. by destruct (existsb _ _).
Qed.

Lemma happens_fine start s e : reading_fine start s → reading_fine start (happens s e).
Proof.
  intros F. destruct e as [chunk|m| |e| |k|]; destruct s as [w arr giv dr tk]; simpl.
  - exact (push_fine _ _ chunk F).
  - unfold Cell.set_trailers. destruct (abandoned _); [done|].
    by apply (and_wake_fine start _ _ F).
  - by apply (and_wake_fine start _ _ F).
  - apply (and_wake_fine start _ _ F); intros i; destruct (failure i); try done;
      by destruct (finished i).
  - destruct (drain_takes w) as [Et Ez]. destruct F as [C Ha Hb Hc]; simpl in *.
    unfold SharedOps.drain_work in *. simpl in *. constructor; simpl; try done.
    rewrite Et, Ez, Z.add_0_r. exact Hc.
  - destruct dr; [done|]. destruct F as [C Ha Hb Hc]; simpl in *.
    pose proof (poll_frame_takes k w C) as P.
    destruct (Handle.poll_frame body k w) as [w' p]. destruct P as (C' & Ea & Eu & u & Ew & ->).
    constructor; simpl; [done|by rewrite Ea| |].
    + by rewrite <- app_assoc, Eu.
    + unfold returned in *; simpl in *. rewrite length_app.
      exact (body_credit_more start (mkReading w arr giv false tk) _ u _ Hc Ew eq_refl).
  - destruct dr; [done|]. destruct F as [C Ha Hb Hc]; simpl in *.
    destruct (drop_body_takes w C) as (C' & Ea & Eu & u & Ew & Ec). cbv zeta in *.
    constructor; simpl; [done..| |].
    + split; [done|]. rewrite <- Hb. by exists (unread w).
    + unfold returned in *; simpl in *. rewrite <- Hb, length_app, Ec.
      exact (body_credit_more start (mkReading w arr giv false tk) _ u _ Hc Ew eq_refl).
Qed.

Lemma reads_fine l w :
  incomings w !! ib_incoming body = Some incoming_new →
  reading_fine (credited w) (reads l w).
Proof.
  intros E. unfold reads.
  assert (reading_fine (credited w) (mkReading w [] [] false 0)) as F.
  { constructor; simpl.
    - by rewrite E.
    - unfold Cell.incoming. by rewrite E.
    - unfold unread, Cell.incoming. by rewrite E.
    - by rewrite Z.add_0_r. }
  revert F. generalize (mkReading w [] [] false 0).
  induction l as [|e l IH]; intros s F; [done|]. apply IH, happens_fine, F.
Qed.

(** C23. Reading a body loses nothing and returns exactly its window: whatever the order in which
    the driver adds octets, trailers, an end or a failure and takes the credit queued, and
    the reader reads and at last drops the body, what the reader was given and what is still
    retained for it make up what arrived, in order; a reader that is handed trailers, an end
    or a failure was given everything first; a dropped body retains nothing; and the credit
    the driver took for the stream and what is still queued make up, at the width of the
    counter, the octets given out and, once it is dropped, those dropped unread. *)
Theorem reading_conserves l w :
  incomings w !! ib_incoming body = Some incoming_new →
  let s := reads l w in
  (if r_dropped s then unread (r_world s) = [] ∧ r_given s `prefix_of` r_arrived s
   else r_given s ++ unread (r_world s) = r_arrived s) ∧
  (∀ k p, r_dropped s = false → (Handle.poll_frame body k (r_world s)).2 = Ready p →
     (∀ bs, p ≠ Some (Ok (Handle.FData bs))) → r_given s = r_arrived s) ∧
  (r_taken s + credited (r_world s)) mod 2 ^ 64 =
    (credited w + Z.of_nat (length (if r_dropped s then r_arrived s else r_given s))) mod 2 ^ 64.
Proof.
  intros E s. destruct (reads_fine l w E) as [C Ha Hb Hc]. fold s in C, Ha, Hb, Hc.
  split_and!; [done| |exact Hc].
  intros k p Ed Hp Hn. rewrite Ed in Hb. rewrite <- Hb.
  enough (unread (r_world s) = []) as -> by by rewrite app_nil_r.
  revert Hp. unfold Handle.poll_frame, Cell.poll, unread.
  destruct (chunks _) as [|chunk rest]; [done|]. simpl. intros [= <-]. by destruct (Hn chunk).
Qed.
End Reading.

Module ReadToy.
Import HttpToy HeadToy Toys.

Definition body : IncomingBody := mkIncomingBody 0 true 0.
Definition start : World (option bytes) :=
  (Cell.incoming_alloc world_new).1.

(** Five octets arrive, two are read, the driver runs, and the rest is dropped. *)
Definition story : list (@event toy_wakers toy_http toy_boxes) :=
  [Arrive (ascii_bytes "ab"); Read 7%nat; Drain; Arrive (ascii_bytes "cde"); Drop;
   Arrive (ascii_bytes "f")].

Lemma reading_conserves_witness :
  incomings start !! 0%nat = Some incoming_new ∧
  let s := reads body story start in
  unread body (r_world s) = [] ∧ r_given s = ascii_bytes "ab" ∧
  r_arrived s = ascii_bytes "abcde" ∧ r_taken s = 2 ∧ credited body (r_world s) = 3 ∧
  (r_taken s + credited body (r_world s)) mod 2 ^ 64 = 5.
Proof.
  split; [reflexivity|].
  destruct (reading_conserves body story start eq_refl) as (A & _ & C).
  split; [exact (proj1 A)|]. do 4 (split; [reflexivity|]).
  etransitivity; [exact C|reflexivity].
Defined.
End ReadToy.
