(* ===== verification/QmuxH3.v ===== *)
(** * HTTP/3 over QMux (crates/ngnet-qmux-h3/src)

    The transport this workspace's own HTTP/3 driver runs over, when the connection below is a
    QMux one: what the connection reports is turned into the driver's events, streams are
    opened and written, and the window extensions the driver reports one at a time are summed
    before they are applied.  Everything is behind one mutex, which the transport and the tail
    of the connection share: the state is one [Inner], and a method is one section of it.
    [None] is a panic, here or of the connection below. *)

From Stdlib Require Import ZArith Lia Strings.Byte.
From stdpp Require Import base list gmap strings.
From S2P Require Import Prelude HttpCrate QmuxScheduling H3Types H3Body H3Conn H3Head H3Shared H3Driver H3Roles Varint CloseCodec QmuxError QmuxTypes QmuxIo QmuxLower.

(** ** error.rs

    The cause is the text of the error it was made from, which stands for it. *)
Module AdapterError.

Inductive ErrorKind :=
| ByteStream | EndOfStream | TruncatedRecord | Protocol | Closed | Internal | Http3.

#[export] Instance ErrorKind_eq_dec : EqDecision ErrorKind.
Proof. solve_decision. Defined.

Section Errors.
Context `{Boxes : BoxedErrors}.

Inductive Cause := OfLayer (e : Io.Error) | OfHttp3 (e : H3HttpError.Error).

Record Error := mkError { kind : ErrorKind; context : string; cause : option Cause }.

Definition new (kind : ErrorKind) (context : string) : Error := mkError kind context None.

Definition kind_of (kind : Io.ErrorKind) : ErrorKind :=
  match kind with
  | Io.ByteStream => ByteStream
  | Io.EndOfStream => EndOfStream
  | Io.TruncatedRecord => TruncatedRecord
  | Io.Protocol => Protocol
  | Io.PeerClosed | Io.LocallyClosed => Closed
  | _ => Internal
  end.

Definition context_of (kind : Io.ErrorKind) : string :=
  match kind with
  | Io.ByteStream => "the byte stream failed"
  | Io.EndOfStream => "the peer stopped sending"
  | Io.TruncatedRecord => "the byte stream ended inside a record"
  | Io.Protocol => "the peer violated the QMux protocol"
  | Io.PeerClosed => "the peer closed the connection"
  | Io.LocallyClosed => "the connection was closed"
  | _ => "the QMux layer refused the operation"
  end.

Definition layer (source : Io.Error) : Error :=
  mkError (kind_of (Io.kind source)) (context_of (Io.kind source)) (Some (OfLayer source)).

Definition http3 (source : H3HttpError.Error) : Error :=
  mkError Http3 "the HTTP/3 layer refused the connection" (Some (OfHttp3 source)).
End Errors.
End AdapterError.

(** An error of this crate in a box, and back: [From<E> for Box<dyn Error>] and
    [downcast_ref], of the standard library. *)
Class Boxing `{BoxedErrors} := {
  box : AdapterError.Error → BoxedError;
  downcast_ref : BoxedError → option AdapterError.Error;
  downcast_box e : downcast_ref (box e) = Some e
}.

(** ** event.rs *)
Module Translate.

(** The [expect]s of both conversions test the bound the other crate's [new] has tested
    ([expects_hold]). *)
Definition stream_id (id : Stream.StreamId) : H3Types.StreamId := Stream.get id.
Definition qmux_stream (id : H3Types.StreamId) : Stream.StreamId := Stream.mkStreamId (H3Stream.get id).

Definition announces (id : Stream.StreamId) (local : Stream.Initiator) : bool :=
  match Stream.directionality id, Stream.initiator id, local with
  | Stream.Bidirectional, Stream.Client, Stream.Server => true
  | Stream.Bidirectional, Stream.Server, Stream.Client => true
  | _, _, _ => false
  end.

Definition ends_a_stream (event : QuicEvent) : bool :=
  match event with QStreamClosed _ _ _ | QClosed _ => true | _ => false end.

Definition translate (event : Event.Event) (local : Stream.Initiator) : option QuicEvent :=
  match event with
  | Event.StreamData id _ data fin => Some (QData (stream_id id) data fin)
  | Event.StreamOpened id =>
      if negb (announces id local) then None else Some (QAccepted (stream_id id))
  | Event.StreamClosed id rx tx => Some (QStreamClosed (stream_id id) rx tx)
  | Event.StreamReset id _ code => Some (QReset (stream_id id) code)
  | Event.StopSending id code => Some (QStopSending (stream_id id) code)
  | _ => None
  end.
End Translate.

(** ** connection.rs: the state behind the mutex *)
Section State.
Context `{Wakers} `{Boxes : BoxedErrors} `{Below : !QmuxLower}.

Record Ending := mkEnding {
  e_error : AdapterError.Error;
  e_orderly : bool;
  e_code : option Z
}.

Definition ending_new (error : Io.Error) : Ending :=
  mkEnding (AdapterError.layer error) (Io.is_orderly (Io.kind error))
    (match Io.close_reason error with
     | Some reason =>
         match CloseCodec.kind reason with Application => Some (error_code reason) | _ => None end
     | None => None
     end).

(** The sums are [u64]s. *)
Record PendingCredit := mkPending {
  p_streams : list (Stream.StreamId * Z);
  p_connection : Z
}.

Definition credit_default : PendingCredit := mkPending [] 0.

Definition credit_is_empty (p : PendingCredit) : bool :=
  bool_decide (p_streams p = []) && (p_connection p =? 0).

Definition MAX_PENDING_STREAMS : nat := 64.

(** [i_woken] are the wakers woken here, oldest first; the two counters only count. *)
Record Inner := mkInner {
  i_conn : lower;
  i_ending : option Ending;
  i_local : Stream.Initiator;
  i_releases : list QuicEvent;
  i_next : option QuicEvent;
  i_emitted : bool;
  i_reported : bool;
  i_close : option CloseReason;
  i_finished : bool;
  i_credit : PendingCredit;
  i_applications : nat;
  i_connection_applications : nat;
  i_uni_waiter : option Waker;
  i_bidi_waiter : option Waker;
  i_deferred : list Waker;
  i_woken : list Waker
}.

(** One field replaced. *)
Definition set_conn (v : lower) (x : Inner) : Inner :=
  mkInner v (i_ending x) (i_local x) (i_releases x) (i_next x) (i_emitted x) (i_reported x)
    (i_close x) (i_finished x) (i_credit x) (i_applications x) (i_connection_applications x)
    (i_uni_waiter x) (i_bidi_waiter x) (i_deferred x) (i_woken x).
Definition set_ending (v : option Ending) (x : Inner) : Inner :=
  mkInner (i_conn x) v (i_local x) (i_releases x) (i_next x) (i_emitted x) (i_reported x)
    (i_close x) (i_finished x) (i_credit x) (i_applications x) (i_connection_applications x)
    (i_uni_waiter x) (i_bidi_waiter x) (i_deferred x) (i_woken x).
Definition set_releases (v : list QuicEvent) (x : Inner) : Inner :=
  mkInner (i_conn x) (i_ending x) (i_local x) v (i_next x) (i_emitted x) (i_reported x)
    (i_close x) (i_finished x) (i_credit x) (i_applications x) (i_connection_applications x)
    (i_uni_waiter x) (i_bidi_waiter x) (i_deferred x) (i_woken x).
Definition set_next (v : option QuicEvent) (x : Inner) : Inner :=
  mkInner (i_conn x) (i_ending x) (i_local x) (i_releases x) v (i_emitted x) (i_reported x)
    (i_close x) (i_finished x) (i_credit x) (i_applications x) (i_connection_applications x)
    (i_uni_waiter x) (i_bidi_waiter x) (i_deferred x) (i_woken x).
Definition set_emitted (v : bool) (x : Inner) : Inner :=
  mkInner (i_conn x) (i_ending x) (i_local x) (i_releases x) (i_next x) v (i_reported x)
    (i_close x) (i_finished x) (i_credit x) (i_applications x) (i_connection_applications x)
    (i_uni_waiter x) (i_bidi_waiter x) (i_deferred x) (i_woken x).
Definition set_reported (v : bool) (x : Inner) : Inner :=
  mkInner (i_conn x) (i_ending x) (i_local x) (i_releases x) (i_next x) (i_emitted x) v
    (i_close x) (i_finished x) (i_credit x) (i_applications x) (i_connection_applications x)
    (i_uni_waiter x) (i_bidi_waiter x) (i_deferred x) (i_woken x).
Definition set_close (v : option CloseReason) (x : Inner) : Inner :=
  mkInner (i_conn x) (i_ending x) (i_local x) (i_releases x) (i_next x) (i_emitted x)
    (i_reported x) v (i_finished x) (i_credit x) (i_applications x) (i_connection_applications x)
    (i_uni_waiter x) (i_bidi_waiter x) (i_deferred x) (i_woken x).
Definition set_finished (v : bool) (x : Inner) : Inner :=
  mkInner (i_conn x) (i_ending x) (i_local x) (i_releases x) (i_next x) (i_emitted x)
    (i_reported x) (i_close x) v (i_credit x) (i_applications x) (i_connection_applications x)
    (i_uni_waiter x) (i_bidi_waiter x) (i_deferred x) (i_woken x).
Definition set_credit (v : PendingCredit) (x : Inner) : Inner :=
  mkInner (i_conn x) (i_ending x) (i_local x) (i_releases x) (i_next x) (i_emitted x)
    (i_reported x) (i_close x) (i_finished x) v (i_applications x) (i_connection_applications x)
    (i_uni_waiter x) (i_bidi_waiter x) (i_deferred x) (i_woken x).
Definition set_uni_waiter (v : option Waker) (x : Inner) : Inner :=
  mkInner (i_conn x) (i_ending x) (i_local x) (i_releases x) (i_next x) (i_emitted x)
    (i_reported x) (i_close x) (i_finished x) (i_credit x) (i_applications x)
    (i_connection_applications x) v (i_bidi_waiter x) (i_deferred x) (i_woken x).
Definition set_bidi_waiter (v : option Waker) (x : Inner) : Inner :=
  mkInner (i_conn x) (i_ending x) (i_local x) (i_releases x) (i_next x) (i_emitted x)
    (i_reported x) (i_close x) (i_finished x) (i_credit x) (i_applications x)
    (i_connection_applications x) (i_uni_waiter x) v (i_deferred x) (i_woken x).
Definition set_deferred (v : list Waker) (x : Inner) : Inner :=
  mkInner (i_conn x) (i_ending x) (i_local x) (i_releases x) (i_next x) (i_emitted x)
    (i_reported x) (i_close x) (i_finished x) (i_credit x) (i_applications x)
    (i_connection_applications x) (i_uni_waiter x) (i_bidi_waiter x) v (i_woken x).
Definition set_woken (v : list Waker) (x : Inner) : Inner :=
  mkInner (i_conn x) (i_ending x) (i_local x) (i_releases x) (i_next x) (i_emitted x)
    (i_reported x) (i_close x) (i_finished x) (i_credit x) (i_applications x)
    (i_connection_applications x) (i_uni_waiter x) (i_bidi_waiter x) (i_deferred x) v.
Definition count_application (x : Inner) : Inner :=
  mkInner (i_conn x) (i_ending x) (i_local x) (i_releases x) (i_next x) (i_emitted x)
    (i_reported x) (i_close x) (i_finished x) (i_credit x) (S (i_applications x))
    (i_connection_applications x) (i_uni_waiter x) (i_bidi_waiter x) (i_deferred x) (i_woken x).
Definition count_connection_application (x : Inner) : Inner :=
  mkInner (i_conn x) (i_ending x) (i_local x) (i_releases x) (i_next x) (i_emitted x)
    (i_reported x) (i_close x) (i_finished x) (i_credit x) (i_applications x)
    (S (i_connection_applications x)) (i_uni_waiter x) (i_bidi_waiter x) (i_deferred x)
    (i_woken x).

(** [QmuxConnection::build]'s state over a connection just made. *)
Definition inner_new (conn : lower) : Inner :=
  mkInner conn None
    (match l_role conn with QmuxTypes.Client => Stream.Client | QmuxTypes.Server => Stream.Server end)
    [] None false false None false credit_default 0 0 None None [] [].
End State.

Module InnerOps.
Section Inner.
Context `{Wakers} `{Boxes : BoxedErrors} `{Below : !QmuxLower}.
Import Translate.

(** A call of the connection below. *)
Definition on_conn {A} (call : lower → option (lower * A)) (i : Inner) : option (Inner * A) :=
  let! (l, a) := call (i_conn i) in Some (set_conn l i, a).

(** [cx.waker().wake_by_ref()]. *)
Definition wake_by_ref (cx : Waker) (i : Inner) : Inner := set_woken (i_woken i ++ [cx]) i.

Definition has_ended (i : Inner) : bool := bool_decide (is_Some (i_ending i)).

Definition end_ (error : Io.Error) (i : Inner) : Inner :=
  match i_ending i with None => set_ending (Some (ending_new error)) i | Some _ => i end.

Definition record_released (stream : H3Types.StreamId) (bytes : Z) (i : Inner) : Inner :=
  set_releases (i_releases i ++ [QReleased stream bytes true]) i.

Definition ended (i : Inner) : AdapterError.Error :=
  match i_ending i with
  | None => AdapterError.new AdapterError.Closed "the connection has ended"
  | Some ending => e_error ending
  end.

(** *** Credit *)

(** The entry of a stream is the first that names it. *)
Fixpoint add_stream (stream : Stream.StreamId) (bytes : Z) (streams : list (Stream.StreamId * Z))
    : list (Stream.StreamId * Z) :=
  match streams with
  | [] => [(stream, bytes)]
  | (id, held) :: rest =>
      if bool_decide (id = stream) then (id, saturating_add held bytes) :: rest
      else (id, held) :: add_stream stream bytes rest
  end.

(** The loop of [flush_credit]; a refusal is absorbed. *)
Fixpoint extend_streams (streams : list (Stream.StreamId * Z)) (i : Inner) : option Inner :=
  match streams with
  | [] => Some i
  | (stream, bytes) :: rest =>
      let! (i, _) := on_conn (l_extend_stream_credit stream bytes) i in
      extend_streams rest (count_application i)
  end.

Definition flush_credit (i : Inner) : option Inner :=
  if credit_is_empty (i_credit i) then Some i
  else if has_ended i then Some (set_credit credit_default i)
  else
    let held := i_credit i in
    let! i := extend_streams (p_streams held) (set_credit (mkPending [] (p_connection held)) i) in
    let i := set_credit credit_default i in
    if 0 <? p_connection held then
      let! (i, _) := on_conn (l_extend_connection_credit (p_connection held)) i in
      Some (count_connection_application (count_application i))
    else Some i.

Definition defer_credit (stream : option Stream.StreamId) (bytes : Z) (i : Inner) : option Inner :=
  if bytes =? 0 then Some i
  else
    let held := i_credit i in
    let i := set_credit
      match stream with
      | Some stream => mkPending (add_stream stream bytes (p_streams held)) (p_connection held)
      | None => mkPending (p_streams held) (saturating_add (p_connection held) bytes)
      end i in
    if decide (MAX_PENDING_STREAMS ≤ length (p_streams (i_credit i)))%nat then flush_credit i
    else Some i.

(** *** pump.rs *)
Definition pumped (i : Inner) (polled : result (Poll unit) Io.Error) : Inner * bool :=
  match polled with
  | Ok (Ready _) => (i, true)
  | Ok Pending => (i, false)
  | Err error => (end_ error i, false)
  end.

Definition pump (cx : Waker) (i : Inner) : option (Inner * bool) :=
  if has_ended i then Some (i, false)
  else let! (i, polled) := on_conn (l_poll_pump cx) i in Some (pumped i polled).

Definition pump_buffered (cx : Waker) (i : Inner) : option (Inner * bool) :=
  if has_ended i then Some (i, false)
  else let! (i, polled) := on_conn (l_poll_pump_buffered cx) i in Some (pumped i polled).

(** *** Events *)
Definition wake_open (bidi : bool) (i : Inner) : Inner :=
  let waiter := if bidi then i_bidi_waiter i else i_uni_waiter i in
  let i := if bidi then set_bidi_waiter None i else set_uni_waiter None i in
  set_deferred (i_deferred i ++ option_list waiter) i.

Definition route_adapter_event (event : Event.Event) (i : Inner) : Inner * option Event.Event :=
  match event with
  | Event.StreamLimit kind _ =>
      (match kind with
       | LocalBidi => wake_open true i
       | LocalUni => wake_open false i
       | RemoteBidi | RemoteUni => i
       end, None)
  | Event.PeerTransportParams _ => (wake_open false (wake_open true i), None)
  | Event.ConnectionDataCredit _ | Event.StreamDataCredit _ _ => (i, None)
  | event => (i, Some event)
  end.

(** What the loop of [fill] does with an event. *)
Definition take_in (event : Event.Event) (i : Inner) : Inner :=
  match route_adapter_event event i with
  | (i, Some event) => set_next (translate event (i_local i)) i
  | (i, None) => i
  end.

(** The loop of [fill] while the connection has events queued, which are fuel enough
    ([queue_exhausts]). *)
Fixpoint take_queued (fuel : nat) (i : Inner) : Inner :=
  match i_next i, fuel with
  | Some _, _ | None, O => i
  | None, S fuel =>
      match l_try_next_event (i_conn i) with
      | (l, Some event) => take_queued fuel (take_in event (set_conn l i))
      | (l, None) => set_conn l i
      end
  end.

Definition queue (i : Inner) : Inner := take_queued (S (l_queued_events (i_conn i))) i.

(** The loop polls the connection once, when its queue is empty: it is [queue], that poll,
    and [queue] again. *)
Definition fill (cx : Waker) (i : Inner) : option Inner :=
  let i := queue i in
  match i_next i with
  | Some _ => Some i
  | None =>
      let! (i, polled) := on_conn (l_poll_next_event cx) i in
      match polled with
      | Ok Pending => Some i
      | Err error => Some (end_ error i)
      | Ok (Ready event) =>
          let i := queue (take_in event i) in
          Some (match i_next i, i_ending i with None, None => wake_by_ref cx i | _, _ => i end)
      end
  end.
End Inner.
End InnerOps.

(** ** connection.rs and transmit.rs: what the transport answers *)
Module TransportOps.
Section Transport.
Context `{Wakers} `{Boxes : BoxedErrors} `{Below : !QmuxLower}.
Import Translate InnerOps.

(** What [poll_event] hands over, once the connection has had its turn. *)
Definition next_event (cx : Waker) (i : Inner) : Inner * Poll (result QuicEvent AdapterError.Error) :=
  match i_next i with
  | Some event =>
      if ends_a_stream event && i_emitted i then
        (wake_by_ref cx (set_emitted false i), Pending)
      else (set_emitted true (set_next None i), Ready (Ok event))
  | None =>
      match i_ending i, i_reported i with
      | Some ending, false =>
          if i_emitted i then (wake_by_ref cx (set_emitted false i), Pending)
          else
            (set_emitted true (set_reported true i),
             Ready (if e_orderly ending then Ok (QClosed (e_code ending)) else Err (e_error ending)))
      | _, _ => (set_emitted false i, Pending)
      end
  end.

(** Its two conditional steps. *)
Definition pump_queued (cx : Waker) (i : Inner) : option (Inner * bool) :=
  if negb (bool_decide (i_releases i = [])) || bool_decide (is_Some (i_next i))
  then pump_buffered cx i else Some (i, false).
Definition fill_empty (cx : Waker) (i : Inner) : option Inner :=
  match i_next i with None => fill cx i | Some _ => Some i end.

Definition poll_event (cx : Waker) (i : Inner)
    : option (Inner * Poll (result QuicEvent AdapterError.Error)) :=
  let! i := flush_credit i in
  let! (i, _) := pump_queued cx i in
  match i_releases i with
  | event :: rest => Some (set_emitted true (set_releases rest i), Ready (Ok event))
  | [] => let! i := fill_empty cx i in Some (next_event cx i)
  end.

(** The slot of [poll_open]. *)
Definition park_open (cx : Waker) (bidi : bool) (i : Inner) : Inner :=
  let waiter := if bidi then i_bidi_waiter i else i_uni_waiter i in
  if match waiter with Some current => will_wake current cx | None => false end then i
  else if bidi then set_bidi_waiter (Some cx) i else set_uni_waiter (Some cx) i.

Definition poll_open (cx : Waker) (bidi : bool) (i : Inner)
    : option (Inner * Poll (result H3Types.StreamId AdapterError.Error)) :=
  let! i := flush_credit i in
  let! (i, _) := pump_buffered cx i in
  if has_ended i then Some (i, Ready (Err (ended i)))
  else
    let! (i, opened) := on_conn (l_try_open (if bidi then Bidi else Uni)) i in
    match opened with
    | Ok (SOpened id) =>
        let! (i, _) := pump_buffered cx i in Some (i, Ready (Ok (stream_id id)))
    | Err error => let i := end_ error i in Some (i, Ready (Err (ended i)))
    | Ok SBlocked => Some (park_open cx bidi i, Pending)
    end.

Definition is_ready {A E} (polled : result (Poll A) E) : bool :=
  match polled with Ok Pending => false | _ => true end.

(** [done], in [poll_finish]. *)
Definition tail_done (cx : Waker) (i : Inner) : option (Inner * bool) :=
  match i_close i with
  | Some reason =>
      let! (i, polled) := on_conn (l_poll_close cx reason) i in Some (i, is_ready polled)
  | None =>
      let! (i, polled) := on_conn (l_poll_pump cx) i in
      if is_ready polled then
        let! (i, polled) := on_conn (l_poll_finish cx) i in Some (i, is_ready polled)
      else Some (i, false)
  end.

Definition poll_finish (cx : Waker) (i : Inner) : option (Inner * Poll unit) :=
  if i_finished i then Some (i, Ready ())
  else
    let! i := flush_credit i in
    let! (i, done) := tail_done cx i in
    if done : bool then Some (set_finished true i, Ready ()) else Some (i, Pending).

(** *** transmit.rs *)
Definition MAX_OFFERS : nat := 64.

(** What the closure of [drain] works on: the connection, and the two locals it sets; [None]
    once the connection has panicked. *)
Definition Lent : Type := option (lower * option (H3Types.StreamId * Z) * option Io.Error).

Definition offer (x : Lent) (stream : H3Types.StreamId) (slices : list bytes) (fin : bool)
    : Lent * WriteOutcome :=
  match x with
  | None => (None, H3Driver.Blocked)
  | Some (l, released, failure) =>
      if negb fin && forallb (λ slice, bool_decide (slice = [])) slices
      then (x, H3Driver.Accepted 0)
      else
        match l_try_write_stream_vectored (qmux_stream stream) slices fin l with
        | None => (None, H3Driver.Blocked)
        | Some (l, Ok (WAccepted taken)) =>
            (Some (l,
               if decide (0 < taken)%nat then Some (stream, Z.of_nat taken) else released,
               failure), H3Driver.Accepted taken)
        | Some (l, Ok WBlocked) => (Some (l, released, failure), H3Driver.Blocked)
        | Some (l, Ok WClosed) => (Some (l, released, failure), H3Driver.Gone)
        | Some (l, Err error) => (Some (l, released, Some error), H3Driver.Blocked)
        end
  end.

(** The closure captures the connection: whoever is lent it can only call it. *)
Inductive captured (l : lower) : Lent → Prop :=
| at_start : captured l (Some (l, None, None))
| after_offer x stream slices fin : captured l x → captured l (offer x stream slices fin).1.

Definition Closure (l : lower) : Type := { x : Lent | captured l x }.

Definition closure (l : lower) : Closure l := exist _ _ (at_start l).
Definition call_closure {l} (x : Closure l) (stream : H3Types.StreamId) (slices : list bytes)
    (fin : bool) : Closure l * WriteOutcome :=
  (exist _ _ (after_offer l (proj1_sig x) stream slices fin (proj2_sig x)),
   (offer (proj1_sig x) stream slices fin).2).

Section Drain.
Context {W : Type}.
(** The source: lent a writer, it offers one stream to it. *)
Variable source : ∀ X : Type,
  (X → H3Types.StreamId → list bytes → bool → X * WriteOutcome) → X → W → X * W * bool.

(** The loop of [drain]. *)
Fixpoint offers (n : nat) (cx : Waker) (o : W) (i : Inner) : option (Inner * W) :=
  match n with
  | O => Some (i, o)
  | S n =>
      let! (i, room) := pump_buffered cx i in
      if negb room then Some (i, o)
      else
        let '(x, o, offered) := source _ call_closure (closure (i_conn i)) o in
        let! (l, released, failure) := proj1_sig x in
        let i := set_conn l i in
        let i := match released with
                 | Some (stream, bytes) => record_released stream bytes i
                 | None => i
                 end in
        match failure with
        | Some error => Some (end_ error i, o)
        | None => if (offered : bool) then offers n cx o i else Some (i, o)
        end
  end.

Definition drain (cx : Waker) (o : W) (i : Inner) : option (Inner * W) :=
  let! (i, o) := offers MAX_OFFERS cx o i in
  let! (i, _) := pump_buffered cx i in Some (i, o).
End Drain.

(** *** [impl QuicConnection]: each method inside [with] *)

(** The lock, and after it the wakes that were left for then. *)
Definition with_ {A} (act : Inner → option (Inner * A)) (i : Inner) : option (Inner * A) :=
  let! (i, r) := act i in
  Some (set_deferred [] (set_woken (i_woken i ++ i_deferred i) i), r).

Definition poll_transmit {W} (cx : Waker) source (o : W) : Inner →
    option (Inner * (W * Poll (result unit AdapterError.Error))) :=
  with_ (λ i,
    let! i := flush_credit i in
    let! (i, o) := drain source cx o i in Some (i, (o, Ready (Ok ())))).

Definition poll_flush (cx : Waker) : Inner → option (Inner * Poll (result unit AdapterError.Error)) :=
  with_ (λ i,
    let! i := flush_credit i in
    let ended_before := has_ended i in
    let! (i, written) := pump cx i in
    if written : bool then Some (i, Ready (Ok ()))
    else if has_ended i then
      Some (if negb ended_before then wake_by_ref cx i else i, Ready (Ok ()))
    else Some (i, Pending)).

Definition shutdown (stream : H3Types.StreamId) (half : QmuxTypes.Shutdown) (code : Z)
    : Inner → option (Inner * result unit AdapterError.Error) :=
  with_ (λ i,
    let! i := flush_credit i in
    if has_ended i then Some (i, Ok ())
    else
      let! (i, r) := on_conn (l_shutdown_stream (qmux_stream stream) half code) i in
      match r with
      | Ok _ => Some (i, Ok ())
      | Err error =>
          if bool_decide (Io.kind error = Io.Internal) then Some (i, Ok ())
          else let i := end_ error i in Some (i, Err (ended i))
      end).

Definition reset stream code := shutdown stream ShutWrite code.
Definition stop_sending stream code := shutdown stream ShutRead code.

Definition extend_credit (stream : option H3Types.StreamId) (bytes : Z)
    : Inner → option (Inner * result unit AdapterError.Error) :=
  with_ (λ i,
    if has_ended i then Some (i, Ok ())
    else let! i := defer_credit (qmux_stream <$> stream) bytes i in Some (i, Ok ())).

Definition close (code : Z) (reason : bytes)
    : Inner → option (Inner * result unit AdapterError.Error) :=
  with_ (λ i,
    let! i := flush_credit i in
    Some (match i_close i with
          | None => set_close (Some (l_application code reason)) i
          | Some _ => i
          end, Ok ())).

Definition now (i : Inner) : Z := l_now (i_conn i).
End Transport.
End TransportOps.
