(* ===== verification/QmuxH3Laws.v ===== *)
(** * HTTP/3 over QMux: a transport the driver can run over

    Over a connection that obeys [LowerLaws] no method of the transport panics, and the
    streams it opens are new: it is a [QuicBackends] that obeys [BackendLaws], so what is
    proved of the HTTP/3 driver over any such transport holds over QMux. *)

From Stdlib Require Import ZArith Lia Strings.Byte.
From stdpp Require Import base list gmap strings.
From S2P Require Import Prelude HttpCrate QmuxScheduling H3Types H3Body H3Conn H3Safety H3Head H3Shared H3Driver H3Roles H3Keeps H3Worlds H3Runs Varint CloseCodec QmuxError QmuxTypes QmuxIo QmuxLower QmuxH3.

Section Laws.
Context `{Wakers} `{Boxes : BoxedErrors} `{Below : !QmuxLower} `{Laws : !LowerLaws}.
Import Translate InnerOps TransportOps.

(** Over a good connection; and what was given out stays so. *)
Definition good (i : Inner) : Prop := lower_ok (l_role (i_conn i)) (i_conn i).

Definition onward (i i' : Inner) : Prop := good i' ∧ given_out (i_conn i) ⊆ given_out (i_conn i').

#[export] Instance onward_trans : Transitive onward.
Proof. intros i1 i2 i3 [_ ?] [? ?]. split; [done|]. by etransitivity. Qed.

Lemma onward_same i i' : good i → i_conn i' = i_conn i → onward i i'.
Proof. unfold onward, good. by intros Hg ->. Qed.

Lemma onward_refl i : good i → onward i i.
Proof. intros. by apply onward_same. Qed.

Lemma onward_good i i' : onward i i' → good i'.
Proof. by intros [? _]. Qed.

(** A method that always answers, and goes on. *)
Definition moves {A} (act : Inner → option (Inner * A)) : Prop :=
  ∀ i, good i → ∃ i' a, act i = Some (i', a) ∧ onward i i'.
Definition goes (act : Inner → option Inner) : Prop :=
  ∀ i, good i → ∃ i', act i = Some i' ∧ onward i i'.

Lemma moves_onward {A} (act : Inner → option (Inner * A)) i i' a :
  moves act → good i → act i = Some (i', a) → onward i i'.
Proof. intros Hm Hg E. destruct (Hm i Hg) as (? & ? & ? & ?). by simplify_eq. Qed.

Lemma good_set_conn i l : good i → stays (l_role (i_conn i)) (i_conn i) l → onward i (set_conn l i).
Proof.
  intros Hg [Hl Hs]. split; [|done]. unfold good. simpl. by rewrite (ok_role _ _ Hl).
Qed.

Lemma on_conn_moves {A} (call : lower → option (lower * A)) :
  (∀ r l, lower_ok r l → ∃ l' a, call l = Some (l', a) ∧ stays r l l') → moves (on_conn call).
Proof.
  intros Hc i Hg. unfold on_conn. destruct (Hc _ _ Hg) as (l & a & -> & Hs).
  eexists _, _. split; [done|]. by apply good_set_conn.
Qed.

Lemma conn_end e i : i_conn (end_ e i) = i_conn i.
Proof. unfold end_. by case_match. Qed.

Lemma conn_take_in e i : i_conn (take_in e i) = i_conn i.
Proof. by destruct e as [| | | | | | |[]|]. Qed.

(** The conversions of stream ids test the bound the other crate's constructor has tested. *)
Lemma expects_hold z :
  (∀ id, Stream.new z = Ok id → H3Stream.new (Stream.get id) = Ok (stream_id id)) ∧
  (∀ s, H3Stream.new z = Ok s → Stream.new (H3Stream.get s) = Ok (qmux_stream s)).
Proof.
  unfold Stream.new, H3Stream.new, stream_id, qmux_stream, H3Stream.get.
  assert (Stream.MAX = H3Stream.MAX_VARINT) as E by (vm_compute; reflexivity).
  split; intros id; rewrite ?E; destruct (z <? 0) eqn:E1; try done;
    destruct (H3Stream.MAX_VARINT <? z) eqn:E2; try done; intros [= <-]; simpl; by rewrite ?E, E1, E2.
Qed.

(** The loop over what is queued goes on until there is an event to hand over, or nothing. *)
Lemma queue_exhausts (i : Inner) :
  i_next (queue i) = None → ∃ l, l_try_next_event l = (i_conn (queue i), None).
Proof.
  unfold queue. assert (∀ n, (l_queued_events (i_conn i) < n)%nat →
    i_next (take_queued n i) = None → ∃ l, l_try_next_event l = (i_conn (take_queued n i), None))
    as Hn; [|by apply Hn; lia].
  intros n. revert i. induction n as [|n IH]; intros i Hn; [lia|]. cbn [take_queued].
  destruct (i_next i) eqn:E; [by rewrite E|].
  destruct (l_try_next_event (i_conn i)) as [l [e|]] eqn:El; [|intros _; by exists (i_conn i)].
  apply IH. rewrite conn_take_in. apply ok_queued in El. simpl. lia.
Qed.

(** Goes through one call, leaving the rest to show. *)
Lemma moves_then {A A'} (act : Inner → option (Inner * A)) (k : Inner → A → option (Inner * A')) i :
  moves act → good i →
  (∀ i1 a, act i = Some (i1, a) → onward i i1 → good i1 →
     ∃ i' a', k i1 a = Some (i', a') ∧ onward i1 i') →
  ∃ i' a', (let! (i1, a) := act i in k i1 a) = Some (i', a') ∧ onward i i'.
Proof.
  intros Hm Hg Hk. destruct (Hm i Hg) as (i1 & a & E & Ho). rewrite E.
  destruct (Hk i1 a E Ho (onward_good _ _ Ho)) as (i' & a' & -> & Ho').
  exists i', a'. split; [done|]. by etransitivity.
Qed.

Lemma goes_then {A'} (act : Inner → option Inner) (k : Inner → option (Inner * A')) i :
  goes act → good i →
  (∀ i1, act i = Some i1 → onward i i1 → good i1 → ∃ i' a', k i1 = Some (i', a') ∧ onward i1 i') →
  ∃ i' a', (let! i1 := act i in k i1) = Some (i', a') ∧ onward i i'.
Proof.
  intros Hm Hg Hk. destruct (Hm i Hg) as (i1 & E & Ho). rewrite E.
  destruct (Hk i1 E Ho (onward_good _ _ Ho)) as (i' & a' & -> & Ho').
  exists i', a'. split; [done|]. by etransitivity.
Qed.

Lemma moves_some {A} i i' (a : A) :
  good i → i_conn i' = i_conn i → ∃ i1 a1, Some (i', a) = Some (i1, a1) ∧ onward i i1.
Proof. intros. eexists _, _. split; [done|]. by apply onward_same. Qed.

Lemma extend_streams_goes l : goes (extend_streams l).
Proof.
  induction l as [|[s n] l IH]; intros i Hg; simpl; [eexists; split; [done|by apply onward_refl]|].
  destruct (on_conn_moves (l_extend_stream_credit s n) (λ r b, ok_stream_credit r b s n) i Hg)
    as (i1 & a & -> & Ho).
  destruct (IH (count_application i1)) as (i2 & -> & Ho2); [by destruct Ho|].
  exists i2. split; [done|]. etransitivity; [done|]. exact Ho2.
Qed.

Lemma flush_credit_goes : goes flush_credit.
Proof.
  intros i Hg. unfold flush_credit. case_match; [eexists; split; [done|by apply onward_refl]|].
  case_match; [eexists; split; [done|by apply onward_same]|].
  destruct (extend_streams_goes (p_streams (i_credit i))
    (set_credit (mkPending [] (p_connection (i_credit i))) i) Hg) as (i1 & -> & Ho).
  case_match; [|eexists; split; [done|exact Ho]].
  destruct (on_conn_moves (l_extend_connection_credit (p_connection (i_credit i)))
    (λ r b, ok_connection_credit r b _) (set_credit credit_default i1)) as (i2 & a & -> & Ho2);
    [by destruct Ho|].
  eexists. split; [done|]. etransitivity; [exact Ho|]. exact Ho2.
Qed.

Lemma defer_credit_goes s n : goes (defer_credit s n).
Proof.
  intros i Hg. unfold defer_credit. case_match; [eexists; split; [done|by apply onward_refl]|].
  case_decide; [|eexists; split; [done|by apply onward_same]].
  destruct (flush_credit_goes (set_credit (match s with
      | Some stream => mkPending (add_stream stream n (p_streams (i_credit i))) (p_connection (i_credit i))
      | None => mkPending (p_streams (i_credit i)) (saturating_add (p_connection (i_credit i)) n)
      end) i) Hg) as (i1 & E & Ho).
  exists i1. split; [exact E|]. exact Ho.
Qed.

Lemma pump_moves cx : moves (pump cx).
Proof.
  intros i Hg. unfold pump. case_match; [by apply moves_some|].
  apply moves_then; [by apply on_conn_moves; intros; apply ok_pump|done|].
  intros i1 [[]|e] _ _ Hg1; apply moves_some; try done. apply conn_end.
Qed.

Lemma pump_buffered_moves cx : moves (pump_buffered cx).
Proof.
  intros i Hg. unfold pump_buffered. case_match; [by apply moves_some|].
  apply moves_then; [by apply on_conn_moves; intros; apply ok_pump_buffered|done|].
  intros i1 [[]|e] _ _ Hg1; apply moves_some; try done. apply conn_end.
Qed.

Lemma take_queued_onward n i : good i → onward i (take_queued n i).
Proof.
  revert i. induction n as [|n IH]; intros i Hg; cbn [take_queued].
  { case_match; by apply onward_refl. }
  destruct (i_next i); [by apply onward_refl|].
  pose proof (ok_try_next _ _ Hg) as Hs. destruct (l_try_next_event (i_conn i)) as [l [e|]]; simpl in Hs.
  - pose proof (good_set_conn _ _ Hg Hs) as Ho. etransitivity; [exact Ho|].
    assert (onward (set_conn l i) (take_in e (set_conn l i))) as Ht
      by (apply onward_same; [by eapply onward_good|by rewrite conn_take_in]).
    etransitivity; [exact Ht|]. apply IH. by eapply onward_good.
  - by apply good_set_conn.
Qed.

Lemma fill_goes cx : goes (fill cx).
Proof.
  intros i Hg. unfold fill. pose proof (take_queued_onward _ _ Hg : onward i (queue i)) as Ho.
  case_match; [by exists (queue i)|].
  destruct (on_conn_moves (l_poll_next_event cx) (λ r b, ok_poll_next r b cx) (queue i)
    (onward_good _ _ Ho)) as (i1 & a & -> & Ho1).
  assert (onward i i1) as Ho2 by (by etransitivity). destruct a as [[|e]|e]; simpl.
  - by exists i1.
  - assert (onward i (queue (take_in e i1))) as Ho3.
    { etransitivity; [|apply take_queued_onward].
      - etransitivity; [done|]. apply onward_same; [by eapply onward_good|by rewrite conn_take_in].
      - apply onward_good in Ho2. unfold good in *. by rewrite conn_take_in. }
    eexists. split; [done|]. by repeat case_match.
  - exists (end_ e i1). split; [done|]. unfold onward, good. by rewrite conn_end.
Qed.

Lemma conn_next_event cx i : i_conn (next_event cx i).1 = i_conn i.
Proof. unfold next_event. by repeat case_match. Qed.

Lemma pump_queued_moves cx : moves (pump_queued cx).
Proof.
  intros i Hg. unfold pump_queued. case_match; [by apply pump_buffered_moves|by apply moves_some].
Qed.

Lemma fill_empty_goes cx : goes (fill_empty cx).
Proof.
  intros i Hg. unfold fill_empty. case_match; [|by apply fill_goes].
  exists i. split; [done|by apply onward_refl].
Qed.

Lemma poll_event_moves cx : moves (poll_event cx).
Proof.
  intros i Hg. unfold poll_event. apply goes_then; [apply flush_credit_goes|done|].
  intros i1 _ _ Hg1. apply moves_then; [apply pump_queued_moves|done|].
  intros i2 _ _ _ Hg2. destruct (i_releases i2); [|by apply moves_some].
  apply goes_then; [apply fill_empty_goes|done|]. intros i3 _ _ Hg3.
  pose proof (conn_next_event cx i3) as Hc. destruct (next_event cx i3). by apply moves_some.
Qed.

Lemma poll_open_moves cx bidi : moves (poll_open cx bidi).
Proof.
  intros i Hg. unfold poll_open. apply goes_then; [apply flush_credit_goes|done|].
  intros i1 _ _ Hg1. apply moves_then; [apply pump_buffered_moves|done|].
  intros i2 _ _ _ Hg2. case_match; [by apply moves_some|].
  apply moves_then; [|done|].
  { apply on_conn_moves. intros r b Hok. destruct (ok_open r b (if bidi then Bidi else Uni) Hok)
      as (? & ? & ? & ? & _). eauto. }
  intros i3 a _ _ Hg3. destruct a as [[id|]|e].
  - apply moves_then; [apply pump_buffered_moves|done|]. intros i4 _ _ _ Hg4. by apply moves_some.
  - apply moves_some; [done|]. unfold park_open. by repeat case_match.
  - apply moves_some; [done|]. apply conn_end.
Qed.

(** A stream it opens had not been given out. *)
Lemma poll_open_new cx bidi i i' s :
  good i → poll_open cx bidi i = Some (i', Ready (Ok s)) →
  ¬ (s ∈ given_out (i_conn i)) ∧ s ∈ given_out (i_conn i').
Proof.
  intros Hg. unfold poll_open. destruct (flush_credit_goes i Hg) as (i1 & -> & [Hg1 Hs1]).
  destruct (pump_buffered_moves cx i1 Hg1) as (i2 & r2 & -> & [Hg2 Hs2]).
  case_match; [done|]. unfold on_conn at 1.
  destruct (ok_open _ _ (if bidi then Bidi else Uni) Hg2) as (l & a & -> & Hl & Hnew).
  destruct a as [[id|]|e]; [|done..].
  destruct (pump_buffered_moves cx (set_conn l i2)) as (i4 & r4 & -> & [Hg4 Hs4]).
  { by eapply onward_good, good_set_conn. }
  specialize (Hnew id eq_refl) as (Hout & Hin & _). intros E. injection E as <- <-. simpl in Hs4.
  split; [set_solver|]. apply Hs4, Hin.
Qed.

Lemma tail_done_moves cx : moves (tail_done cx).
Proof.
  intros i Hg. unfold tail_done. case_match.
  - apply moves_then; [by apply on_conn_moves; intros; apply ok_close|done|].
    intros. by apply moves_some.
  - apply moves_then; [by apply on_conn_moves; intros; apply ok_pump|done|].
    intros i1 a _ _ Hg1. case_match; [|by apply moves_some].
    apply moves_then; [by apply on_conn_moves; intros; apply ok_finish|done|].
    intros. by apply moves_some.
Qed.

Lemma poll_finish_moves cx : moves (poll_finish cx).
Proof.
  intros i Hg. unfold poll_finish. case_match; [by apply moves_some|].
  apply goes_then; [apply flush_credit_goes|done|]. intros i1 _ _ Hg1.
  apply moves_then; [apply tail_done_moves|done|].
  intros i2 done _ _ Hg2. case_match; by apply moves_some.
Qed.

Lemma with_moves {A} (act : Inner → option (Inner * A)) : moves act → moves (with_ act).
Proof.
  intros Hm i Hg. unfold with_. apply moves_then; [done..|]. intros. by apply moves_some.
Qed.

Lemma poll_flush_moves cx : moves (poll_flush cx).
Proof.
  apply with_moves. intros i Hg. apply goes_then; [apply flush_credit_goes|done|].
  intros i1 _ _ Hg1. apply moves_then; [apply pump_moves|done|].
  intros i2 written _ _ Hg2. repeat case_match; by apply moves_some.
Qed.

Lemma shutdown_moves s half code : moves (shutdown s half code).
Proof.
  apply with_moves. intros i Hg. apply goes_then; [apply flush_credit_goes|done|].
  intros i1 _ _ Hg1. case_match; [by apply moves_some|].
  apply moves_then; [by apply on_conn_moves; intros; apply ok_shutdown|done|].
  intros i2 [] _ _ Hg2; [by apply moves_some|]. case_match; apply moves_some; try done. apply conn_end.
Qed.

Lemma extend_credit_moves s n : moves (extend_credit s n).
Proof.
  apply with_moves. intros i Hg. case_match; [by apply moves_some|].
  apply goes_then; [apply defer_credit_goes|done|]. intros. by apply moves_some.
Qed.

Lemma close_moves code reason : moves (close code reason).
Proof.
  apply with_moves. intros i Hg. apply goes_then; [apply flush_credit_goes|done|].
  intros i1 _ _ Hg1. case_match; by apply moves_some.
Qed.

(** *** The transmit pass *)
Lemma captured_good r l x :
  lower_ok r l → captured l x → ∃ l' released failure, x = Some (l', released, failure) ∧ stays r l l'.
Proof.
  intros Hok. induction 1 as [|x stream slices fin Hx IH].
  { eexists _, _, _. split; [done|]. by split. }
  destruct IH as (l1 & released & failure & -> & Hl1 & Hs1). cbn [offer].
  case_match; [simpl; eexists _, _, _; split; [done|]; by split|].
  destruct (ok_write_vectored r l1 (qmux_stream stream) slices fin Hl1) as (l2 & a & -> & Hl2 & Hs2).
  assert (stays r l l2) as Hst by (split; [done|by etransitivity]).
  destruct a as [[n| |]|e]; eexists _, _, _; (split; [reflexivity|exact Hst]).
Qed.

Section Source.
Context {W : Type}.
Variable source : ∀ X : Type,
  (X → H3Types.StreamId → list bytes → bool → X * WriteOutcome) → X → W → X * W * bool.

Lemma offers_moves n cx o : moves (offers source n cx o).
Proof.
  revert o. induction n as [|n IH]; intros o i Hg; cbn [offers]; [by apply moves_some|].
  apply moves_then; [apply pump_buffered_moves|done|]. intros i1 room _ _ Hg1.
  destruct room; cbn [negb]; [|by apply moves_some].
  destruct (source _ _ _ o) as [[[x Hx] o'] offered].
  destruct (captured_good _ _ _ Hg1 Hx) as (l & released & failure & -> & Hst). simpl.
  pose proof (good_set_conn _ _ Hg1 Hst) as Ho.
  set (i2 := match released with Some _ => _ | None => _ end).
  assert (i_conn i2 = l) as Hl by (unfold i2; by destruct released as [[]|]).
  assert (onward i1 i2) as Ho2.
  { etransitivity; [exact Ho|]. apply onward_same; [by eapply onward_good|done]. }
  assert (good i2) as Hg2 by (by eapply onward_good).
  destruct failure as [e|].
  { exists (end_ e i2), o'. split; [done|]. etransitivity; [exact Ho2|].
    apply onward_same; [done|apply conn_end]. }
  destruct offered; [|by exists i2, o'].
  destruct (IH o' i2 Hg2) as (i3 & o3 & -> & Ho3). exists i3, o3. split; [done|]. by etransitivity.
Qed.

Lemma offers_lends n cx o i i' o' (Q : W → Prop) :
  (∀ X write x o, Q o → Q (source X write x o).1.2) → Q o →
  offers source n cx o i = Some (i', o') → Q o'.
Proof.
  intros Hs. revert o i. induction n as [|n IH]; intros o i Ho; cbn [offers]; [by intros [= _ <-]|].
  destruct (pump_buffered cx i) as [[i1 []]|]; cbn [negb]; [|by intros [= _ <-]|done].
  specialize (Hs _ call_closure (closure (i_conn i1)) o Ho) as Hq.
  destruct (source _ _ _ o) as [[[x Hx] o1] offered]. simpl in *.
  destruct x as [[[l released] failure]|]; [|done].
  destruct failure; [by intros [= _ <-]|]. destruct offered; [by apply IH|by intros [= _ <-]].
Qed.

Lemma poll_transmit_moves cx o : moves (poll_transmit cx source o).
Proof.
  apply with_moves. intros i Hg. apply goes_then; [apply flush_credit_goes|done|].
  intros i1 _ _ Hg1. unfold drain.
  destruct (offers_moves MAX_OFFERS cx o i1 Hg1) as (i2 & o2 & -> & Ho2).
  destruct (pump_buffered_moves cx i2 (onward_good _ _ Ho2)) as (i3 & r & -> & Ho3).
  eexists _, _. split; [done|]. by etransitivity.
Qed.

Lemma poll_transmit_lends cx o i i' o' polled (Q : W → Prop) :
  (∀ X write x o, Q o → Q (source X write x o).1.2) → Q o →
  poll_transmit cx source o i = Some (i', (o', polled)) → Q o'.
Proof.
  intros Hs Ho. unfold poll_transmit, with_, drain.
  destruct (flush_credit i) as [i1|]; [|done].
  destruct (offers source MAX_OFFERS cx o i1) as [[i2 o2]|] eqn:E; [|done].
  destruct (pump_buffered cx i2) as [[i3 r]|]; [|done]. intros [= _ <- _].
  by eapply offers_lends.
Qed.
End Source.

(** *** The transport *)

(** A method, over a good connection: it answers. *)
Definition good_backend : Type := { i : Inner | good i }.

Definition answered {A} (i : Inner) (r : option (Inner * A))
  : (∃ i' a, r = Some (i', a) ∧ onward i i') → good_backend * A :=
  match r with
  | Some (i', a) => λ E, (exist _ i' (let 'ex_intro _ _ (ex_intro _ _ (conj e Ho)) := E in
      eq_ind_r good (onward_good _ _ Ho) (f_equal (default i ∘ fmap fst) e)), a)
  | None => λ E, False_rect _ (let 'ex_intro _ _ (ex_intro _ _ (conj e _)) := E in
      eq_ind None (λ r, match r with None => True | Some _ => False end) I _ e)
  end.

Definition run {A} (act : Inner → option (Inner * A)) (Hm : moves act) (b : good_backend)
  : good_backend * A := answered (proj1_sig b) (act (proj1_sig b)) (Hm _ (proj2_sig b)).

Lemma run_is {A} (act : Inner → option (Inner * A)) Hm b :
  act (proj1_sig b) = Some (proj1_sig (run act Hm b).1, (run act Hm b).2).
Proof.
  unfold run. generalize (Hm _ (proj2_sig b)). by destruct (act (proj1_sig b)) as [[i' a]|]; intros (? & ? & ? & ?).
Qed.

Context `{!Boxing}.

Definition boxed {A} (r : result A AdapterError.Error) : result A BoxedError := map_err box r.
Definition poll_boxed {A} (p : Poll (result A AdapterError.Error)) : Poll (result A BoxedError) :=
  match p with Ready r => Ready (boxed r) | Pending => Pending end.

Definition over {A A'} (f : A → A') (r : good_backend * A) : good_backend * A' := (r.1, f r.2).

(** [impl QuicConnection for QmuxConnection]. *)
#[export] Instance qmux_backends : QuicBackends := {|
  backend := good_backend;
  H3Driver.poll_event cx b :=
    over poll_boxed (run (with_ (poll_event cx)) (with_moves _ (poll_event_moves cx)) b);
  H3Driver.poll_transmit cx b W source o :=
    let r := run (poll_transmit cx source o) (poll_transmit_moves source cx o) b in
    (r.1, r.2.1, poll_boxed r.2.2);
  H3Driver.poll_flush cx b := over poll_boxed (run (poll_flush cx) (poll_flush_moves cx) b);
  poll_open_uni cx b :=
    over poll_boxed (run (with_ (poll_open cx false)) (with_moves _ (poll_open_moves cx false)) b);
  poll_open_bi cx b :=
    over poll_boxed (run (with_ (poll_open cx true)) (with_moves _ (poll_open_moves cx true)) b);
  b_reset s code b := over boxed (run (reset s code) (shutdown_moves s _ code) b);
  b_stop_sending s code b := over boxed (run (stop_sending s code) (shutdown_moves s _ code) b);
  b_extend_credit s n b := over boxed (run (extend_credit s n) (extend_credit_moves s n) b);
  b_close code reason b := over boxed (run (close code reason) (close_moves code reason) b);
  b_now b := now (proj1_sig b)
|}.

Definition given (b : backend) : gset Z := given_out (i_conn (proj1_sig b)).

Lemma run_given {A} (act : Inner → option (Inner * A)) Hm b : given b ⊆ given (run act Hm b).1.
Proof.
  pose proof (run_is act Hm b) as E. by apply (moves_onward _ _ _ _ Hm (proj2_sig b)) in E as [_ ?].
Qed.

#[export] Instance qmux_backend_laws : BackendLaws.
Proof.
  refine (Build_BackendLaws _ _ _ given _ _ _ _ _ _ _ _ _ _ _);
    try (intros; apply run_given).
  - intros cx b b' s E. pose proof (run_is (with_ (poll_open cx true)) (with_moves _ (poll_open_moves cx true)) b) as Er.
    simpl in E. unfold over in E. destruct (run _ _ _) as [b1 [|[]]]; simplify_eq/=.
    unfold with_ in Er. destruct (poll_open cx true _) as [[i1 a]|] eqn:Eo; [|done].
    unfold given. injection Er as Ei ->.
    apply poll_open_new in Eo as Hn; [|apply proj2_sig]. by rewrite <-Ei.
  - intros cx b W src o Q Hs Ho. simpl.
    pose proof (run_is (poll_transmit cx src o) (poll_transmit_moves src cx o) b) as E.
    destruct (run _ _ _) as [b1 [o1 r]]. simpl in *. by eapply poll_transmit_lends.
Qed.

(** ** The connection's future *)
Section Future.
Context `{Crate : Http} `{Lib : Nghttp3} {B R : Type} `{!Bodies B} `{!Roles B R} `{HashOrder}.

(** [orderly_backend_ending]. *)
Definition orderly_backend_ending (error : H3HttpError.Error) : bool :=
  match H3HttpError.source error with
  | Some (H3HttpError.FromBox e) =>
      match downcast_ref e with
      | Some source =>
          match AdapterError.kind source with
          | AdapterError.EndOfStream | AdapterError.Closed => true
          | _ => false
          end
      | None => false
      end
  | _ => false
  end.

(** The driver, with where it is, until it is done; what it resolved with; and the tail.  The
    tail shares its state with the driver's transport: while there is a driver, [c_tail] is
    not looked at, and it is left what the driver leaves. *)
Record Connection := mkConnection {
  c_driving : option (Driver B R * Drive.Pc);
  c_outcome : option (result unit H3HttpError.Error);
  c_tail : good_backend
}.

Definition connection_new (driving : Driver B R) (tail : good_backend) : Connection :=
  mkConnection (Some (driving, Drive.PcTop)) None tail.

(** What the outcome of the driver becomes. *)
Definition resolved (outcome : result unit H3HttpError.Error) : result unit H3HttpError.Error :=
  match outcome with
  | Err error => if orderly_backend_ending error then Ok () else outcome
  | Ok _ => outcome
  end.

(** [QmuxConnection::poll_finish]. *)
Definition finish_tail (cx : Waker) (b : good_backend) : good_backend * Poll unit :=
  run (with_ (poll_finish cx)) (with_moves _ (poll_finish_moves cx)) b.

Definition poll_tail (cx : Waker) (c : Connection)
    : Connection * Poll (result unit H3HttpError.Error) :=
  let '(b, polled) := finish_tail cx (c_tail c) in
  match polled with
  | Pending => (mkConnection (c_driving c) (c_outcome c) b, Pending)
  | Ready _ => (mkConnection (c_driving c) None b, Ready (default (Ok ()) (c_outcome c)))
  end.

Definition poll_connection (fuel : nat) (cx : Waker) (c : Connection)
    : option (Connection * Poll (result unit H3HttpError.Error)) :=
  match c_driving c with
  | Some driving =>
      let! (driving, polled) := Drive.poll fuel cx driving in
      match polled with
      | Pending =>
          Some (mkConnection (Some driving) (c_outcome c) (d_backend driving.1), Pending)
      | Ready outcome =>
          Some (poll_tail cx
            (mkConnection None (Some (resolved outcome)) (d_backend driving.1)))
      end
  | None => Some (poll_tail cx c)
  end.

(** It resolves only once the tail is done: the close is out, or what was queued, and the byte
    stream is shut down, or there is nobody left to write to. *)
Lemma tail_resolves_last cx c c' r :
  poll_tail cx c = (c', Ready r) →
  i_finished (proj1_sig (c_tail c')) = true ∧ r = default (Ok ()) (c_outcome c) ∧
  (i_finished (proj1_sig (c_tail c)) = true ∨
   ∃ i1 i2, flush_credit (proj1_sig (c_tail c)) = Some i1 ∧ tail_done cx i1 = Some (i2, true)).
Proof.
  unfold poll_tail, finish_tail.
  pose proof (run_is (with_ (poll_finish cx)) (with_moves _ (poll_finish_moves cx)) (c_tail c)) as E.
  destruct (run _ _ (c_tail c)) as [b [|u]]; [done|]. intros [= <- <-]. simpl in *.
  unfold with_ in E. destruct (poll_finish cx (proj1_sig (c_tail c))) as [[i a]|] eqn:Ef; [|done].
  injection E as Ei Ea. subst a. rewrite <-Ei. simpl. unfold poll_finish in Ef.
  destruct (i_finished (proj1_sig (c_tail c))) eqn:Hfin.
  { injection Ef as <- _. split_and!; [done..|by left]. }
  destruct (flush_credit _) as [i1|]; [|done].
  destruct (tail_done cx i1) as [[i2 []]|] eqn:Et; [|done..]. injection Ef as <- _.
  split_and!; [done..|]. right. by exists i1, i2.
Qed.
End Future.

(** *** Starting one: [connect_with] and [serve_with] *)
Section Start.
Context `{Crate : Http} `{Lib : Nghttp3} {B : Type} `{!Bodies B}.

(** [QmuxConnection::build], over what the layer below built. *)
Definition build (built : result { l : lower | lower_ok (l_role l) l } Io.Error)
    : result good_backend AdapterError.Error :=
  match built with
  | Ok l => Ok (exist good (inner_new (proj1_sig l)) (proj2_sig l))
  | Err error => Err (AdapterError.layer error)
  end.

Definition connect_with (built : result { l : lower | lower_ok (l_role l) l } Io.Error)
    (http : H3Config.Config) : result (@Connection _ _ B ClientRole) AdapterError.Error :=
  let? backend := build built in
  let? driving := map_err AdapterError.http3 (Client.handshake_with backend http) in
  Ok (connection_new driving backend).

Definition serve_with `{!Services B} (built : result { l : lower | lower_ok (l_role l) l } Io.Error)
    (handler : Service) (http : H3Config.Config)
    : result (@Connection _ _ B (ServerRole B)) AdapterError.Error :=
  let? backend := build built in
  let? driving := map_err AdapterError.http3 (Server.serve_with backend handler http) in
  Ok (connection_new driving backend).
End Start.
End Laws.
