(* ===== verification/QmuxH3Facts.v ===== *)
(** * HTTP/3 over QMux: what the transport guarantees

    Every method is a flush of the credit held and then a sequence of primitive moves
    ([prim]): calls of the connection, events taken in, and changes beside them.  From that:
    credit is neither lost nor invented, and what ends a stream starts a batch of the driver's. *)

From Stdlib Require Import ZArith Lia Strings.Byte.
From stdpp Require Import base list gmap strings.
From S2P Require Import Prelude HttpCrate QmuxScheduling H3Types H3Body H3Conn H3Safety H3Head H3Shared H3Driver H3Roles Varint CloseCodec QmuxError QmuxTypes QmuxIo QmuxLower QmuxH3.

Section Moves.
Context `{Wakers} `{Boxes : BoxedErrors} `{Below : !QmuxLower}.
Import Translate InnerOps TransportOps.

(** [Closed] and the failure come of the ending only, and the releases are releases. *)
Definition sane (i : Inner) : Prop :=
  (∀ code, i_next i ≠ Some (QClosed code)) ∧
  Forall (λ event, match event with QReleased _ _ _ => True | _ => False end) (i_releases i).

(** What a method is called for, and answers. *)
Inductive Action :=
| Polled (p : Poll (result QuicEvent AdapterError.Error))
| Extended (stream : option Stream.StreamId) (n : Z)
| Opened (cx : Waker) (bidi : bool)
| Called.

Definition is_polled (a : Action) : bool := match a with Polled _ => true | _ => false end.

(** The two flags about what was handed over. *)
Definition still (i i' : Inner) : Prop :=
  i_emitted i' = i_emitted i ∧ i_reported i' = i_reported i.

Section Prims.
(** What is done on the way of a method: the flags change when an event is handed over only,
    and only an open parks. *)
Variable doing : Action.

(** What is beside the connection, the credit and those who wait. *)
Definition beside (i i' : Inner) : Prop :=
  (is_polled doing = false → still i i') ∧ (sane i → sane i') ∧
  i_conn i' = i_conn i ∧ i_credit i' = i_credit i ∧ i_applications i' = i_applications i ∧
  i_uni_waiter i' = i_uni_waiter i ∧ i_bidi_waiter i' = i_bidi_waiter i ∧
  i_deferred i' = i_deferred i ∧ i_woken i `prefix_of` i_woken i' ∧
  (i_ending i' = None → i_ending i = None).

Inductive prim (i : Inner) : Inner → Prop :=
| p_pump cx l a : l_poll_pump cx (i_conn i) = Some (l, a) → prim i (set_conn l i)
| p_pump_buffered cx l a : l_poll_pump_buffered cx (i_conn i) = Some (l, a) → prim i (set_conn l i)
| p_close cx reason l a : l_poll_close cx reason (i_conn i) = Some (l, a) → prim i (set_conn l i)
| p_finish cx l a : l_poll_finish cx (i_conn i) = Some (l, a) → prim i (set_conn l i)
| p_open kind l a : l_try_open kind (i_conn i) = Some (l, a) → prim i (set_conn l i)
| p_shutdown s half code l a :
    l_shutdown_stream s half code (i_conn i) = Some (l, a) → prim i (set_conn l i)
| p_write s slices fin l a :
    l_try_write_stream_vectored s slices fin (i_conn i) = Some (l, a) → prim i (set_conn l i)
| p_none l : l_try_next_event (i_conn i) = (l, None) → prim i (set_conn l i)
| p_try l e : l_try_next_event (i_conn i) = (l, Some e) → prim i (take_in e (set_conn l i))
| p_poll cx l e :
    l_poll_next_event cx (i_conn i) = Some (l, Ok (Ready e)) → prim i (take_in e (set_conn l i))
| p_poll_nothing cx l a :
    l_poll_next_event cx (i_conn i) = Some (l, a) → (∀ e, a ≠ Ok (Ready e)) → prim i (set_conn l i)
| p_park cx bidi : doing = Opened cx bidi → prim i (park_open cx bidi i)
| p_beside i' : beside i i' → prim i i'.

#[local] Abbreviation prims := (rtc prim).

Lemma prims_once i i' : prim i i' → prims i i'.
Proof. apply rtc_once. Qed.

(** Nothing but what is neither. *)
Lemma beside_only i i' :
  still i i' → i_next i' = i_next i → i_releases i' = i_releases i →
  i_conn i' = i_conn i ∧ i_credit i' = i_credit i ∧ i_applications i' = i_applications i ∧
  i_uni_waiter i' = i_uni_waiter i ∧ i_bidi_waiter i' = i_bidi_waiter i ∧
  i_deferred i' = i_deferred i ∧ i_woken i `prefix_of` i_woken i' ∧
  (i_ending i' = None → i_ending i = None) → beside i i'.
Proof. intros Hs En Er Hb. split; [done|]. split; [|done]. unfold sane. by rewrite En, Er. Qed.

Lemma beside_refl i : beside i i.
Proof. by split_and!. Qed.

Lemma prims_beside i i' : beside i i' → prims i i'.
Proof. intros. by apply prims_once, p_beside. Qed.

Lemma beside_end e i : beside i (end_ e i).
Proof. unfold end_. destruct (i_ending i) eqn:E; [apply beside_refl|]. by apply beside_only. Qed.

Lemma beside_wake cx i : beside i (wake_by_ref cx i).
Proof. apply beside_only; [done..|]. split_and!; try done. by eexists. Qed.

Lemma beside_released s n i : beside i (record_released s n i).
Proof.
  split; [done|]. split; [|by split_and!]. intros [Hn Hr]. split; [done|]. simpl.
  apply Forall_app. split; [done|]. by apply Forall_singleton.
Qed.

Lemma pump_prims cx i i' a : pump cx i = Some (i', a) → prims i i'.
Proof.
  unfold pump, on_conn. case_match; [by intros [= <- _]|].
  destruct (l_poll_pump cx (i_conn i)) as [[l r]|] eqn:E; [|done]. cbn [pumped].
  intros Hi. eapply rtc_l; [by eapply p_pump|].
  destruct r as [[]|]; injection Hi as <- _; try done. apply prims_beside, beside_end.
Qed.

Lemma pump_buffered_prims cx i i' a : pump_buffered cx i = Some (i', a) → prims i i'.
Proof.
  unfold pump_buffered, on_conn. case_match; [by intros [= <- _]|].
  destruct (l_poll_pump_buffered cx (i_conn i)) as [[l r]|] eqn:E; [|done]. cbn [pumped].
  intros Hi. eapply rtc_l; [by eapply p_pump_buffered|].
  destruct r as [[]|]; injection Hi as <- _; try done. apply prims_beside, beside_end.
Qed.

Lemma take_queued_prims n i : prims i (take_queued n i).
Proof.
  revert i. induction n as [|n IH]; intros i; cbn [take_queued].
  { by case_match. }
  destruct (i_next i); [done|]. destruct (l_try_next_event (i_conn i)) as [l [e|]] eqn:E.
  - eapply rtc_l; [by eapply p_try|]. apply IH.
  - by eapply prims_once, p_none.
Qed.

Lemma queue_prims i : prims i (queue i).
Proof. apply take_queued_prims. Qed.

Lemma fill_prims cx i i' : fill cx i = Some i' → prims i i'.
Proof.
  unfold fill, on_conn. pose proof (queue_prims i) as Hq.
  case_match; [by intros [= <-]|].
  destruct (l_poll_next_event cx _) as [[l a]|] eqn:E; [|done]. simpl.
  intros Hi. etransitivity; [exact Hq|]. destruct a as [[|e]|e]; injection Hi as <-.
  - by eapply prims_once, p_poll_nothing.
  - eapply rtc_l; [by eapply p_poll|]. etransitivity; [apply queue_prims|].
    repeat case_match; try done; apply prims_beside, beside_wake.
  - eapply rtc_l; [by eapply p_poll_nothing|]. apply prims_beside, beside_end.
Qed.

Lemma tail_done_prims cx i i' a : tail_done cx i = Some (i', a) → prims i i'.
Proof.
  unfold tail_done, on_conn. case_match.
  - destruct (l_poll_close _ _ _) as [[l r]|] eqn:E; [|done]. intros [= <- _].
    by eapply prims_once, p_close.
  - destruct (l_poll_pump _ _) as [[l r]|] eqn:E; [|done]. simpl. case_match.
    + destruct (l_poll_finish _ _) as [[l' r']|] eqn:E'; [|done]. simpl. intros [= <- _].
      eapply rtc_l; [by eapply p_pump|]. by eapply prims_once, p_finish.
    + intros [= <- _]. by eapply prims_once, p_pump.
Qed.

(** What offers through the closure have done to the connection. *)
Lemma captured_prims i x l released failure :
  captured (i_conn i) x → x = Some (l, released, failure) → prims i (set_conn l i).
Proof.
  intros Hc. revert l released failure. induction Hc as [|x stream slices fin Hx IH].
  { intros l ? ? [= <- _ _]. by apply prims_beside, beside_only. }
  intros l released failure. destruct x as [[[l1 r1] f1]|]; [|done].
  specialize (IH l1 r1 f1 eq_refl). cbn [offer]. case_match; [by intros [= <- _ _]|].
  destruct (l_try_write_stream_vectored _ _ _ l1) as [[l2 a]|] eqn:E; [|done].
  assert (prims i (set_conn l2 i)) as Hp.
  { etransitivity; [exact IH|]. eapply prims_once.
    change (set_conn l2 i) with (set_conn l2 (set_conn l1 i)). by eapply p_write. }
  destruct a as [[]|]; by intros [= <- _ _].
Qed.

Lemma offers_prims {W} source n cx (o o' : W) i i' :
  offers source n cx o i = Some (i', o') → prims i i'.
Proof.
  revert o i. induction n as [|n IH]; intros o i; cbn [offers]; [by intros [= <- _]|].
  destruct (pump_buffered cx i) as [[i1 room]|] eqn:E; [|done].
  apply pump_buffered_prims in E. destruct room; cbn [negb]; [|by intros [= <- _]].
  destruct (source _ _ _ o) as [[[x Hx] o1] offered]. cbn [proj1_sig].
  destruct x as [[[l released] failure]|] eqn:Ex; [|done].
  pose proof (captured_prims i1 _ _ _ _ Hx eq_refl) as Hl.
  set (i2 := match released with Some _ => _ | None => _ end).
  assert (prims i i2) as Hp.
  { etransitivity; [exact E|]. etransitivity; [exact Hl|]. unfold i2. destruct released as [[]|]; [|done].
    apply prims_beside, beside_released. }
  destruct failure; [|destruct offered].
  - intros [= <- _]. etransitivity; [exact Hp|]. apply prims_beside, beside_end.
  - intros Ho%IH. by etransitivity.
  - by intros [= <- _].
Qed.

End Prims.

Abbreviation prims doing := (rtc (prim doing)).

(** ** Methods *)

Lemma next_event_prims cx p i : beside (Polled p) i (next_event cx i).1.
Proof.
  split; [done|]. split.
  - unfold sane, next_event. intros [Hn Hr]. repeat case_match; simpl; split; try done; by rewrite ?H1, ?H0.
  - unfold next_event. repeat case_match; split_and!; try done;
      first [by eexists|simpl in *; congruence].
Qed.

(** One method of the transport, or of the tail, and what it answers. *)
Inductive method (i : Inner) : Action → Inner → Prop :=
| m_event cx i' p : with_ (poll_event cx) i = Some (i', p) → method i (Polled p) i'
| m_transmit (W : Type) source cx (o : W) i' r :
    poll_transmit cx source o i = Some (i', r) → method i Called i'
| m_flush cx i' r : poll_flush cx i = Some (i', r) → method i Called i'
| m_open cx bidi i' r : with_ (poll_open cx bidi) i = Some (i', r) → method i (Opened cx bidi) i'
| m_shutdown s half code i' r : shutdown s half code i = Some (i', r) → method i Called i'
| m_credit s n i' r : extend_credit s n i = Some (i', r) → method i (Extended (qmux_stream <$> s) n) i'
| m_close code reason i' r : close code reason i = Some (i', r) → method i Called i'
| m_finish cx i' r : with_ (poll_finish cx) i = Some (i', r) → method i Called i'.

Definition unlock (i : Inner) : Inner := set_deferred [] (set_woken (i_woken i ++ i_deferred i) i).

Lemma with_is {A} (act : Inner → option (Inner * A)) i i' a :
  with_ act i = Some (i', a) → ∃ i1, act i = Some (i1, a) ∧ i' = unlock i1.
Proof. unfold with_. destruct (act i) as [[i1 b]|]; [|done]. intros [= <- <-]. eauto. Qed.

(** The flush, and what follows it; when the tail is finished, nothing. *)
Definition flushes (doing : Action) (i i' : Inner) : Prop :=
  (∃ i1, flush_credit i = Some i1 ∧ prims doing i1 i') ∨ i' = i ∧ i_finished i = true.

(** Before [poll_event] hands anything over the flags are as they were. *)
Lemma poll_event_parts cx i i' p :
  poll_event cx i = Some (i', p) →
  ∃ i1 i2, flush_credit i = Some i1 ∧ prims Called i1 i2 ∧
    ((∃ event rest, i_releases i2 = event :: rest ∧ p = Ready (Ok event) ∧
        i' = set_emitted true (set_releases rest i2)) ∨ (i', p) = next_event cx i2).
Proof.
  unfold poll_event. destruct (flush_credit i) as [i1|] eqn:E; [|done]. intros Hp.
  destruct (pump_queued cx i1) as [[i2 a]|] eqn:E2; [|done].
  assert (prims Called i1 i2) as H2.
  { unfold pump_queued in E2. destruct (_ || _); [by eapply pump_buffered_prims|].
    by injection E2 as <- _. }
  clear E2. destruct (i_releases i2) as [|event rest] eqn:Er; simpl in Hp.
  2: { injection Hp as <- <-. exists i1, i2. split_and!; [done..|]. left. by exists event, rest. }
  destruct (fill_empty cx i2) as [i3|] eqn:E3; [|done].
  assert (prims Called i2 i3) as H3.
  { unfold fill_empty in E3. destruct (i_next i2); [by injection E3 as <-|by eapply fill_prims]. }
  injection Hp as Hp. exists i1, i3. split_and!; [done|by etransitivity|by right].
Qed.

Lemma prim_hands p i i' : prim Called i i' → prim (Polled p) i i'.
Proof.
  destruct 1; try by econstructor. apply p_beside. by destruct H0 as (_ & Hs & Hb); split.
Qed.

Lemma poll_event_flushes cx i i' p : poll_event cx i = Some (i', p) → flushes (Polled p) i i'.
Proof.
  intros (i1 & i2 & E & Hp & Hn)%poll_event_parts. left. exists i1. split; [done|].
  etransitivity; [eapply rtc_subrel; [|exact Hp]; apply prim_hands|].
  apply prims_beside. destruct Hn as [(event & rest & Er & _ & ->)|Hn].
  - split; [done|]. split; [|by split_and!].
    intros [Hs Hr]. split; [done|]. rewrite Er in Hr. by apply Forall_cons in Hr as [_ ?].
  - pose proof (next_event_prims cx p i2) as Hb. by rewrite <-Hn in Hb.
Qed.

Lemma poll_open_flushes cx bidi i i' r : poll_open cx bidi i = Some (i', r) → flushes (Opened cx bidi) i i'.
Proof.
  unfold poll_open, on_conn. destruct (flush_credit i) as [i1|] eqn:E; [|done]. intros Hp.
  left. exists i1. split; [done|].
  destruct (pump_buffered cx i1) as [[i2 a]|] eqn:E2; [|done]. apply (pump_buffered_prims (Opened cx bidi)) in E2.
  etransitivity; [exact E2|]. case_match; [by simplify_eq|].
  destruct (l_try_open _ _) as [[l b]|] eqn:E3; [|done]. simpl in Hp. apply (p_open (Opened cx bidi)) in E3.
  eapply rtc_l; [exact E3|]. destruct b as [[id|]|e].
  - destruct (pump_buffered cx (set_conn l i2)) as [[i4 c]|] eqn:E4; [|done].
    apply (pump_buffered_prims (Opened cx bidi)) in E4. by simplify_eq.
  - injection Hp as <- _. by apply prims_once, p_park.
  - injection Hp as <- _. apply prims_beside, beside_end.
Qed.

Lemma poll_finish_flushes cx i i' r : poll_finish cx i = Some (i', r) → flushes Called i i'.
Proof.
  unfold poll_finish. destruct (i_finished i) eqn:Hf.
  { intros [= <- _]. by right. }
  destruct (flush_credit i) as [i1|] eqn:E; [|done]. intros Hp. left. exists i1. split; [done|].
  destruct (tail_done cx i1) as [[i2 a]|] eqn:E2; [|done]. apply (tail_done_prims Called) in E2.
  etransitivity; [exact E2|]. destruct a; injection Hp as <- _; [|done].
  by apply prims_beside, beside_only.
Qed.

Lemma method_flushes i a i' :
  method i a i' → (∀ s n, a ≠ Extended s n) → ∃ i2, flushes a i i2 ∧ i' = unlock i2.
Proof.
  intros Hm Ha. destruct Hm as [cx i' p Hm|W source cx o i' r Hm|cx i' r Hm|cx bidi i' r Hm
    |s half code i' r Hm|s n i' r _|code reason i' r Hm|cx i' r Hm]; [..|by edestruct Ha| |];
    unfold poll_transmit, poll_flush, shutdown, close in Hm;
    apply with_is in Hm as (i1 & Hm & ->); exists i1; (split; [|done]); clear Ha.
  - by eapply poll_event_flushes.
  - destruct (flush_credit i) as [i2|] eqn:E; [|done]. left. exists i2. split; [done|].
    unfold drain in Hm. destruct (offers _ _ _ _ i2) as [[i3 o']|] eqn:E2; [|done].
    destruct (pump_buffered cx i3) as [[i4 b]|] eqn:E3; [|done]. injection Hm as <- _.
    etransitivity; [by eapply offers_prims|by eapply pump_buffered_prims].
  - destruct (flush_credit i) as [i2|] eqn:E; [|done]. left. exists i2. split; [done|].
    destruct (pump cx i2) as [[i3 b]|] eqn:E2; [|done]. apply (pump_prims Called) in E2.
    etransitivity; [exact E2|]. repeat case_match; simplify_eq; try done.
    apply prims_beside, beside_wake.
  - by eapply poll_open_flushes.
  - destruct (flush_credit i) as [i2|] eqn:E; [|done]. left. exists i2. split; [done|].
    case_match; [by simplify_eq|]. unfold on_conn in Hm.
    destruct (l_shutdown_stream _ _ _ _) as [[l b]|] eqn:E2; [|done]. simpl in Hm.
    apply (p_shutdown Called) in E2. eapply rtc_l; [exact E2|]. repeat case_match; simplify_eq; try done.
    apply prims_beside, beside_end.
  - destruct (flush_credit i) as [i2|] eqn:E; [|done]. left. exists i2. split; [done|].
    injection Hm as <- _. apply prims_beside. case_match; [apply beside_refl|by apply beside_only].
  - by eapply poll_finish_flushes.
Qed.

End Moves.

(** ** Credit *)
Section Credit.
Context `{Wakers} `{Boxes : BoxedErrors} `{Below : !QmuxLower} `{Rec : !Recorded}.
Import Translate InnerOps TransportOps.

(** What the connection was asked for on a window, the connection's own when it names no
    stream: granted or refused. *)
Definition asked_by (who : option Stream.StreamId) (x : LowerCall) : Z :=
  match x with
  | CreditedStream s n => if decide (who = Some s) then n else 0
  | RefusedCredit s n => if decide (who = s) then n else 0
  | Credited n => if decide (who = None) then n else 0
  | _ => 0
  end.
Definition asked who (xs : list LowerCall) : Z := foldr (λ x n, asked_by who x + n) 0 xs.

(** In how many calls. *)
Definition is_credit (x : LowerCall) : nat :=
  match x with CreditedStream _ _ | RefusedCredit _ _ | Credited _ => 1 | _ => 0 end%nat.
Definition asks (xs : list LowerCall) : nat := foldr (λ x n, is_credit x + n)%nat 0%nat xs.

Lemma asked_calls_app who a b : asked who (a ++ b) = asked who a + asked who b.
Proof. unfold asked. induction a as [|x a IH]; simpl; [done|]. rewrite IH. lia. Qed.
Lemma asks_app a b : asks (a ++ b) = (asks a + asks b)%nat.
Proof. unfold asks. induction a as [|x a IH]; simpl; [done|]. rewrite IH. lia. Qed.

(** What is held for a window, and in how many sums. *)
Definition held_in (s : Stream.StreamId) (streams : list (Stream.StreamId * Z)) : Z :=
  foldr (λ '(id, n) z, (if decide (id = s) then n else 0) + z) 0 streams.
Definition held (who : option Stream.StreamId) (p : PendingCredit) : Z :=
  match who with Some s => held_in s (p_streams p) | None => p_connection p end.
Definition sums (p : PendingCredit) : nat :=
  (length (p_streams p) + if decide (0 < p_connection p)%Z then 1 else 0)%nat.

(** No stream has two entries, none is empty, and they are few. *)
Definition positive (p : PendingCredit) : Prop :=
  Forall (λ x, 0 < x.2) (p_streams p) ∧ 0 ≤ p_connection p.
Definition tidy (p : PendingCredit) : Prop :=
  positive p ∧ NoDup (p_streams p).*1 ∧ (length (p_streams p) < MAX_PENDING_STREAMS)%nat.

(** The ledger of what the connection was asked for. *)
Definition ledger (i : Inner) : list LowerCall := calls (i_conn i).

(** A step that grants nothing, and holds nothing back. *)
Definition quiet (i i' : Inner) : Prop :=
  (∀ who, asked who (ledger i') = asked who (ledger i)) ∧ asks (ledger i') = asks (ledger i) ∧
  i_credit i' = i_credit i ∧ i_applications i' = i_applications i ∧
  (i_ending i' = None → i_ending i = None).

#[local] Instance quiet_trans : Transitive quiet.
Proof.
  intros i1 i2 i3 (A1 & B1 & C1 & D1 & E1) (A2 & B2 & C2 & D2 & E2).
  split_and!; intros; try congruence; eauto.
Qed.

Lemma quiet_conn l i more :
  calls l = ledger i ++ more → (∀ who, asked who more = 0) → asks more = 0%nat →
  quiet i (set_conn l i).
Proof.
  intros E Ha Hs. unfold quiet, ledger in *. simpl. rewrite E. split_and!; try done.
  - intros who. rewrite asked_calls_app, Ha. lia.
  - rewrite asks_app. lia.
Qed.

Lemma quiet_nothing l i : calls l = ledger i → quiet i (set_conn l i).
Proof. intros E. apply (quiet_conn _ _ []); [by rewrite app_nil_r|done..]. Qed.

Lemma take_in_keeps e i :
  i_conn (take_in e i) = i_conn i ∧ i_credit (take_in e i) = i_credit i ∧
  i_applications (take_in e i) = i_applications i ∧ i_ending (take_in e i) = i_ending i.
Proof. by destruct e as [| | | | | | |[]|]. Qed.

Lemma quiet_take_in e i : quiet i (take_in e i).
Proof.
  destruct (take_in_keeps e i) as (E1 & E2 & E3 & E4). unfold quiet, ledger.
  by rewrite E1, E2, E3, E4.
Qed.

Lemma prim_quiet doing i i' : prim doing i i' → quiet i i'.
Proof.
  destruct 1 as [cx l a E|cx l a E|cx r l a E|cx l a E|k l a E|s h c l a E|s ss f l a E|l E|l e E
    |cx l e E|cx l a E Ha|cx b _|i' (_ & _ & E1 & E2 & E3 & _ & _ & _ & _ & E4)].
  - by apply quiet_nothing, (rec_pump _ _ _ _ E).
  - by apply quiet_nothing, (rec_pump_buffered _ _ _ _ E).
  - by apply quiet_nothing, (rec_close _ _ _ _ _ E).
  - by apply quiet_nothing, (rec_finish _ _ _ _ E).
  - by apply quiet_nothing, (rec_open _ _ _ _ E).
  - by apply quiet_nothing, (rec_shutdown _ _ _ _ _ _ E).
  - eapply quiet_conn; [apply (rec_write_vectored _ _ _ _ _ _ E)|..]; by destruct a as [[]|].
  - eapply quiet_conn; [apply (rec_try_next _ _ _ E)|done..].
  - etransitivity; [|apply quiet_take_in].
    eapply quiet_conn; [apply (rec_try_next _ _ _ E)|done..].
  - etransitivity; [|apply quiet_take_in].
    eapply quiet_conn; [apply (rec_poll_next _ _ _ _ E)|done..].
  - eapply quiet_conn; [apply (rec_poll_next _ _ _ _ E)|..]; by destruct a as [[]|].
  - unfold park_open. by repeat case_match.
  - unfold quiet, ledger. by rewrite E1, E2, E3.
Qed.

Lemma prims_quiet doing i i' : rtc (prim doing) i i' → quiet i i'.
Proof.
  induction 1 as [|i1 i2 i3 Hp _ IH]; [by split_and!|]. etransitivity; [by eapply prim_quiet|done].
Qed.

(** *** The flush *)
Lemma extend_streams_asks l i i' :
  extend_streams l i = Some i' →
  (∀ who, asked who (ledger i') = asked who (ledger i) +
     match who with Some s => held_in s l | None => 0 end) ∧
  asks (ledger i') = (asks (ledger i) + length l)%nat ∧
  i_applications i' = (i_applications i + length l)%nat ∧ i_ending i' = i_ending i.
Proof.
  revert i. induction l as [|[s n] l IH]; intros i; simpl.
  { intros [= <-]. split_and!; try lia; [|done]. intros []; lia. }
  unfold on_conn. destruct (l_extend_stream_credit s n (i_conn i)) as [[l' a]|] eqn:E; [|done].
  apply rec_stream_credit in E. simpl. intros (H1 & H2 & H3 & H4)%IH. unfold ledger in *. simpl in *.
  rewrite E in H1, H2. rewrite asks_app in H2. split_and!; [|destruct a; simpl in *; lia..|done].
  intros who. rewrite H1, asked_calls_app. destruct a; simpl; destruct who; repeat case_decide; simplify_eq; lia.
Qed.

Lemma flush_asks i i' :
  flush_credit i = Some i' → i_ending i = None → 0 ≤ p_connection (i_credit i) →
  (∀ who, asked who (ledger i') = asked who (ledger i) + held who (i_credit i)) ∧
  asks (ledger i') = (asks (ledger i) + sums (i_credit i))%nat ∧
  i_applications i' = (i_applications i + sums (i_credit i))%nat ∧
  i_credit i' = credit_default.
Proof.
  unfold flush_credit. intros Hf He Hc. unfold credit_is_empty, sums in *.
  destruct (i_credit i) as [streams conn] eqn:Ecr; cbn [p_streams p_connection] in *.
  destruct (bool_decide (streams = []) && (conn =? 0)) eqn:Hemp.
  { apply andb_true_iff in Hemp as [->%bool_decide_eq_true ->%Z.eqb_eq]. simplify_eq.
    rewrite Ecr. split_and!; try done; simpl; try lia. intros []; simpl; lia. }
  unfold has_ended in Hf. rewrite He in Hf. cbn in Hf.
  destruct (extend_streams streams _) as [i1|] eqn:E; [|done].
  apply extend_streams_asks in E as (H1 & H2 & H3 & _). simpl in *.
  destruct (Z.ltb_spec 0 conn); [rewrite decide_True by done|rewrite decide_False by lia].
  - unfold on_conn in Hf. simpl in Hf.
    destruct (l_extend_connection_credit conn (i_conn i1)) as [[l a]|] eqn:E; [|done].
    apply rec_connection_credit in E. injection Hf as <-. unfold ledger in *. simpl in *.
    rewrite E, asks_app, H2. split_and!; [|destruct a; simpl; lia|lia|done].
    intros who. rewrite asked_calls_app, H1. destruct a, who; simpl; repeat case_decide; simplify_eq; lia.
  - injection Hf as <-. unfold ledger in *. simpl in *. split_and!; [|lia..|done].
    intros who. rewrite H1. destruct who; simpl; lia.
Qed.

Lemma extend_streams_ending l i i' : extend_streams l i = Some i' → i_ending i' = i_ending i.
Proof. by intros (_ & _ & _ & ?)%extend_streams_asks. Qed.

Lemma flush_ending i i' : flush_credit i = Some i' → i_ending i' = i_ending i.
Proof.
  unfold flush_credit. case_match; [by intros [= <-]|]. case_match; [by intros [= <-]|].
  destruct (extend_streams _ _) as [i1|] eqn:E; [|done]. apply extend_streams_ending in E.
  case_match; [|by intros [= <-]]. unfold on_conn.
  destruct (l_extend_connection_credit _ _) as [[l a]|]; [|done]. by intros [= <-].
Qed.

(** *** Reports *)
Lemma held_in_nonneg s l : Forall (λ x : Stream.StreamId * Z, 0 < x.2) l → 0 ≤ held_in s l.
Proof. induction 1 as [|[id h] l Hx _ IH]; simpl in *; [done|]. case_decide; lia. Qed.

Lemma add_stream_exact s n l :
  Forall (λ x, 0 < x.2) l → 0 < n → held_in s l + n ≤ U64_MAX →
  (∀ t, held_in t (add_stream s n l) = held_in t l + if decide (s = t) then n else 0) ∧
  Forall (λ x, 0 < x.2) (add_stream s n l).
Proof.
  intros Hl Hn. induction Hl as [|[id h] l Hx Hl IH]; simpl in *.
  { intros _. split; [intros t; case_decide; lia|by repeat constructor]. }
  pose proof (held_in_nonneg s l Hl) as H0. case_bool_decide as Hid.
  - subst id. rewrite decide_True by done. intros Hb. rewrite saturating_add_exact by lia.
    split; [intros t; simpl; case_decide; lia|]. constructor; [simpl; lia|done].
  - rewrite decide_False by done. intros Hb. destruct IH as [IH1 IH2]; [lia|].
    split; [intros t; simpl; rewrite IH1; lia|by constructor].
Qed.

Lemma add_stream_ids s n l :
  (add_stream s n l).*1 = l.*1 ∧ s ∈ l.*1 ∨ (add_stream s n l).*1 = l.*1 ++ [s] ∧ s ∉ l.*1.
Proof.
  induction l as [|[id h] l IH]; cbn [add_stream]; [right; split; [done|set_solver]|].
  case_bool_decide as Hid; rewrite !fmap_cons; simpl.
  { subst. left. split; [done|]. apply list_elem_of_here. }
  rewrite elem_of_cons.
  destruct IH as [[E Hin]|[E Hin]]; [left|right]; rewrite E; (split; [done|]); [by right|naive_solver].
Qed.

(** [defer_credit] before its bound is looked at. *)
Definition add_credit (who : option Stream.StreamId) (n : Z) (p : PendingCredit) : PendingCredit :=
  match who with
  | Some s => mkPending (add_stream s n (p_streams p)) (p_connection p)
  | None => mkPending (p_streams p) (saturating_add (p_connection p) n)
  end.

Lemma add_credit_exact who n p :
  tidy p → 0 < n → held who p + n ≤ U64_MAX →
  (∀ t, held t (add_credit who n p) = held t p + if decide (who = t) then n else 0) ∧
  (sums (add_credit who n p) ≤ S (sums p))%nat ∧ positive (add_credit who n p) ∧
  ((length (p_streams (add_credit who n p)) < MAX_PENDING_STREAMS)%nat → tidy (add_credit who n p)).
Proof.
  intros ([Hpos Hc] & Hnd & Hlen) Hn Hb. unfold tidy, positive, sums. destruct who as [s|]; simpl in *.
  - destruct (add_stream_exact s n (p_streams p) Hpos Hn Hb) as [H1 H2].
    assert (NoDup (add_stream s n (p_streams p)).*1 ∧
            length (add_stream s n (p_streams p)) ≤ S (length (p_streams p)))%nat as [Hnd' Hl].
    { rewrite <-(length_fmap fst), <-(length_fmap fst (p_streams p)).
      destruct (add_stream_ids s n (p_streams p)) as [[-> _]|[-> Hs]]; [split; [done|lia]|].
      rewrite length_app. simpl. split; [|lia]. apply NoDup_app. split_and!; [done|set_solver|].
      apply NoDup_singleton. }
    split_and!; [|lia|done..]. intros [t|]; simpl; [rewrite H1|]; repeat case_decide; simplify_eq; lia.
  - rewrite saturating_add_exact by done. split_and!; [|repeat case_decide; lia|done|lia|].
    + intros [t|]; simpl; repeat case_decide; simplify_eq; lia.
    + intros _. simpl. split_and!; assumption || lia.
Qed.

Lemma tidy_default : tidy credit_default.
Proof.
  unfold tidy, positive, MAX_PENDING_STREAMS. simpl.
  split; [by split; [constructor|]|]. split; [constructor|lia].
Qed.

Lemma held_nonneg who p : positive p → 0 ≤ held who p.
Proof. intros [Hp Hc]. destruct who; [by apply held_in_nonneg|done]. Qed.

(** What the transport was told along a run. *)
Definition report (who : option Stream.StreamId) (a : Action) : Z :=
  match a with Extended w n => if decide (w = who) then n else 0 | _ => 0 end.
Definition reported who (as_ : list Action) : Z := foldr (λ a n, report who a + n) 0 as_.
Definition is_report (a : Action) : nat :=
  match a with Extended _ n => if decide (n = 0)%Z then 0 else 1 | _ => 0 end%nat.
Definition reports (as_ : list Action) : nat := foldr (λ a n, is_report a + n)%nat 0%nat as_.

Lemma reported_snoc who as_ a : reported who (as_ ++ [a]) = reported who as_ + report who a.
Proof. unfold reported. induction as_ as [|b as_ IH]; simpl; lia. Qed.
Lemma reports_snoc as_ a : reports (as_ ++ [a]) = (reports as_ + is_report a)%nat.
Proof. unfold reports. induction as_ as [|b as_ IH]; simpl; lia. Qed.

(** The balance: what was asked for and what is held is what there was and [told]. *)
Definition balanced (i i' : Inner) (told : option Stream.StreamId → Z) (count : nat) : Prop :=
  (∀ who, asked who (ledger i') + held who (i_credit i') =
          asked who (ledger i) + held who (i_credit i) + told who) ∧
  (asks (ledger i') + sums (i_credit i') ≤ asks (ledger i) + sums (i_credit i) + count)%nat ∧
  (i_applications i' + asks (ledger i) = i_applications i + asks (ledger i'))%nat ∧
  tidy (i_credit i') ∧ ∀ who, asked who (ledger i) ≤ asked who (ledger i').

Lemma flush_balanced i i' :
  flush_credit i = Some i' → i_ending i = None → positive (i_credit i) →
  balanced i i' (λ _, 0) 0 ∧ i_credit i' = credit_default.
Proof.
  intros Hf He Hc. destruct (flush_asks i i' Hf He (proj2 Hc)) as (H1 & H2 & H3 & H4).
  split; [|done]. unfold balanced. rewrite H4. change (sums credit_default) with 0%nat.
  split_and!; [|lia..|apply tidy_default|].
  - intros who. rewrite H1. destruct who; simpl; lia.
  - intros who. rewrite H1. pose proof (held_nonneg who _ Hc). lia.
Qed.

Lemma balanced_quiet i1 i2 i3 told count :
  balanced i1 i2 told count → quiet i2 i3 → balanced i1 i3 told count.
Proof.
  intros (A & B & C & D & F) (E1 & E2 & E3 & E4 & _). unfold balanced. rewrite E2, E3, E4.
  split_and!; try done; intros who; by rewrite E1.
Qed.

Lemma defer_balanced who n i i' :
  defer_credit who n i = Some i' → i_ending i = None → tidy (i_credit i) → 0 ≤ n →
  held who (i_credit i) + n ≤ U64_MAX →
  balanced i i' (λ w, if decide (who = w) then n else 0) (if decide (n = 0)%Z then 0 else 1)%nat ∧
  i_ending i' = None.
Proof.
  intros Hd He Ht Hn Hb. unfold defer_credit in Hd. destruct (Z.eqb_spec n 0) as [->|Hz].
  { injection Hd as <-. split; [|done]. split_and!; try done; try lia.
    intros w. case_decide; lia. }
  rewrite decide_False by done.
  destruct (add_credit_exact who n _ Ht ltac:(lia) Hb) as (H1 & H2 & H3 & H4).
  change (match who with Some stream => _ | None => _ end) with (add_credit who n (i_credit i)) in Hd.
  set (i1 := set_credit (add_credit who n (i_credit i)) i) in *.
  assert (ledger i1 = ledger i) as El by done.
  assert (i_credit i1 = add_credit who n (i_credit i)) as Ec by done.
  assert (i_applications i1 = i_applications i) as Ea by done.
  case_decide as Hfull.
  - destruct (flush_balanced i1 i' Hd He H3) as [(F1 & F2 & F3 & F4 & F5) Fc].
    rewrite El, Ec, Ea in *. split; [|by rewrite (flush_ending _ _ Hd)].
    split_and!; [|lia|lia|done..]. intros w. rewrite F1, H1. lia.
  - injection Hd as <-. split; [|done]. unfold balanced. rewrite El, Ec, Ea.
    split_and!; [|lia|done|apply H4; simpl in Hfull; lia|done]. intros w. rewrite H1. lia.
Qed.


(** Methods, one after another. *)
Inductive history (i : Inner) : list Action → Inner → Prop :=
| history_nil : history i [] i
| history_snoc as_ i1 a i2 : history i as_ i1 → method i1 a i2 → history i (as_ ++ [a]) i2.

Lemma quiet_unlock i : quiet i (unlock i).
Proof. by split_and!. Qed.

Lemma quiet_refl i : quiet i i.
Proof. by split_and!. Qed.

Lemma extended_or a : (∃ who n, a = Extended who n) ∨ ∀ s n, a ≠ Extended s n.
Proof. destruct a; naive_solver. Qed.

(** A connection that has not ended had not ended. *)
Lemma defer_ending who n i i' : defer_credit who n i = Some i' → i_ending i' = i_ending i.
Proof.
  unfold defer_credit. case_match; [by intros [= <-]|]. case_decide; [|by intros [= <-]].
  by intros ->%flush_ending.
Qed.

Lemma method_ending i a i' : method i a i' → i_ending i' = None → i_ending i = None.
Proof.
  intros Hm He. destruct (extended_or a) as [(who & n & ->)|Hx].
  - inversion Hm as [| | | | |s n' i2 r Hc E1 E2| |]; subst.
    unfold extend_credit in Hc. apply with_is in Hc as (i1 & Hc & ->).
    case_match; [by simplify_eq|]. destruct (defer_credit _ n i) as [i2|] eqn:Hd; [|done].
    injection Hc as <- _. by rewrite <-(defer_ending _ _ _ _ Hd).
  - destruct (method_flushes _ _ _ Hm Hx) as (i2 & [(i1 & Hf & Hp)|[-> Hfin]] & ->); [|done].
    rewrite <-(flush_ending _ _ Hf). by apply (prims_quiet _ _ _ Hp).
Qed.

(** What a method does to the books, when the connection has not ended after it. *)
Lemma method_balanced i a i' :
  method i a i' → i_ending i' = None → tidy (i_credit i) →
  (∀ who n, a = Extended who n → 0 ≤ n ∧ held who (i_credit i) + n ≤ U64_MAX) →
  i_ending i = None ∧ balanced i i' (λ who, report who a) (is_report a).
Proof.
  intros Hm He Ht Hb.
  destruct (extended_or a) as [(who & n & ->)|Hx].
  - inversion Hm as [| | | | |s n' i2 r Hc E1 E2| |]; subst. destruct (Hb _ _ eq_refl) as [Hn Hs].
    unfold extend_credit in Hc. apply with_is in Hc as (i1 & Hc & ->).
    unfold has_ended in Hc. case_bool_decide as Hen.
    { injection Hc as <- _. simpl in He. rewrite He in Hen. by destruct Hen. }
    apply eq_None_not_Some in Hen. destruct (defer_credit _ n i) as [i2|] eqn:Hd; [|done].
    injection Hc as <- _. destruct (defer_balanced _ _ _ _ Hd Hen Ht Hn Hs) as [Hbal _].
    split; [done|]. eapply balanced_quiet; [exact Hbal|apply quiet_unlock].
  - destruct (method_flushes _ _ _ Hm Hx) as (i2 & [(i1 & Hf & Hp)|[-> Hfin]] & ->); [|].
    + apply prims_quiet in Hp as Hq. assert (i_ending i1 = None) as He1 by (by apply Hq).
      rewrite (flush_ending _ _ Hf) in He1. split; [done|].
      destruct (flush_balanced i i1 Hf He1 (proj1 Ht)) as [Hbal _].
      assert (balanced i i1 (λ who, report who a) (is_report a)) as Hbal'.
      { destruct a as [| | |]; try done. naive_solver. }
      eapply balanced_quiet; [exact Hbal'|]. etransitivity; [exact Hq|apply quiet_unlock].
    + split; [done|].
      assert (balanced i i (λ who, report who a) (is_report a)) as Hbal.
      { destruct a as [|who n| |]; [|naive_solver|..]; split_and!; try done; intros; simpl; lia. }
      eapply balanced_quiet; [exact Hbal|apply quiet_unlock].
Qed.

(** The books, kept along a run. *)
Definition books (i : Inner) (as_ : list Action) (i' : Inner) : Prop :=
  (∀ who, asked who (ledger i') + held who (i_credit i') = asked who (ledger i) + reported who as_) ∧
  (asks (ledger i') + sums (i_credit i') ≤ asks (ledger i) + reports as_)%nat ∧
  (i_applications i' + asks (ledger i) = i_applications i + asks (ledger i'))%nat ∧
  tidy (i_credit i') ∧ ∀ who, asked who (ledger i) ≤ asked who (ledger i').

Lemma report_nonneg who as_ : (∀ w n, Extended w n ∈ as_ → 0 ≤ n) → 0 ≤ reported who as_.
Proof.
  unfold reported. induction as_ as [|a as_ IH]; intros Hn; simpl; [done|].
  assert (0 ≤ report who a).
  { destruct a as [|w n| |]; simpl; try done. case_decide; [|done]. eapply Hn, list_elem_of_here. }
  enough (0 ≤ foldr (λ a n, report who a + n) 0 as_) by lia.
  apply IH. intros w n Hin. eapply Hn. by apply list_elem_of_further.
Qed.

Lemma books_kept i as_ i' :
  history i as_ i' → i_credit i = credit_default → i_ending i' = None →
  (∀ who n, Extended who n ∈ as_ → 0 ≤ n) → (∀ who, reported who as_ ≤ U64_MAX) →
  i_ending i = None ∧ books i as_ i'.
Proof.
  intros Hh Hc. induction Hh as [|as_ i1 a i2 Hh IH Hm]; intros He Hn Hb.
  { split; [done|]. unfold books. rewrite Hc. change (sums credit_default) with 0%nat.
    split_and!; try apply tidy_default; intros; simpl; try done; try lia.
    destruct who; simpl; lia. }
  assert (Hn1 : ∀ who n, Extended who n ∈ as_ → 0 ≤ n) by (intros w n Hin; eapply Hn, elem_of_app; eauto).
  assert (Hb1 : ∀ who, reported who as_ + report who a ≤ U64_MAX ∧ 0 ≤ report who a).
  { intros who. specialize (Hb who). rewrite reported_snoc in Hb. split; [done|].
    destruct a as [|w n| |]; simpl; try done. case_decide; [|done].
    eapply Hn, elem_of_app. right. apply list_elem_of_here. }
  assert (Hpre : i_ending i1 = None → i_ending i = None ∧ books i as_ i1).
  { intros. apply IH; [done..|]. intros who. specialize (Hb1 who). lia. }
  assert (He1 : i_ending i1 = None) by (eapply method_ending; eauto).
  destruct (Hpre He1) as [He0 (A & B & C & D & F)].
  destruct (method_balanced _ _ _ Hm He D) as [_ (A' & B' & C' & D' & F')].
  { intros who n ->. specialize (A who). specialize (F who). specialize (Hb1 who). simpl in Hb1.
    rewrite decide_True in Hb1 by done. lia. }
  split; [done|]. split_and!; [| | |done|].
  - intros who. rewrite A', reported_snoc. specialize (A who). lia.
  - rewrite reports_snoc. lia.
  - lia.
  - intros who. specialize (F who). specialize (F' who). lia.
Qed.

Lemma called_holds_nothing i a i' :
  method i a i' → (∀ who n, a ≠ Extended who n) → i_ending i' = None → i_finished i' = false →
  positive (i_credit i) → i_credit i' = credit_default.
Proof.
  intros Hm Hx He Hfin Hp.
  destruct (method_flushes _ _ _ Hm Hx) as (i2 & [(i1 & Hf & Hps)|[-> Hf]] & ->); [|by simpl in *; congruence].
  apply prims_quiet in Hps as Hq. destruct Hq as (_ & _ & Hc & _ & Hend). simpl. rewrite Hc.
  simpl in He. apply Hend in He. pose proof (flush_ending _ _ Hf) as E. rewrite E in He.
  by apply (flush_balanced i i1).
Qed.

(** C26.  No credit is lost or invented.  Whatever methods are called, with whatever outcomes,
    as long as the connection has not ended: on every stream's window, and on the
    connection's, what the connection below has been asked for and what is held add up to what
    the HTTP/3 layer reported; it is asked in at most as many calls as there were reports, each
    counted; fewer than [MAX_PENDING_STREAMS] streams are held, each in one sum; and nothing
    is held after any other method than a report, until the tail has finished. *)
Theorem credit_balanced i as_ i' :
  history i as_ i' → i_credit i = credit_default → i_ending i' = None →
  (∀ who n, Extended who n ∈ as_ → 0 ≤ n) → (∀ who, reported who as_ ≤ U64_MAX) →
  (∀ who, asked who (ledger i') + held who (i_credit i') = asked who (ledger i) + reported who as_) ∧
  (asks (ledger i') ≤ asks (ledger i) + reports as_)%nat ∧
  (i_applications i' + asks (ledger i) = i_applications i + asks (ledger i'))%nat ∧
  NoDup (p_streams (i_credit i')).*1 ∧
  (length (p_streams (i_credit i')) < MAX_PENDING_STREAMS)%nat ∧
  (∀ before a, as_ = before ++ [a] → (∀ who n, a ≠ Extended who n) → i_finished i' = false →
     i_credit i' = credit_default).
Proof.
  intros Hh Hc He Hn Hb. destruct (books_kept i as_ i' Hh Hc He Hn Hb) as [_ (A & B & C & D & F)].
  split_and!; [done|lia|done|apply D|apply D|].
  intros before a -> Hx Hfin. inversion Hh as [Enil|before' i1 a' i2 Hh1 Hm Eapp]; subst.
  { by destruct before. }
  apply app_inj_tail in Eapp as [-> ->].
  eapply called_holds_nothing; [exact Hm|done..|].
  pose proof (method_ending _ _ _ Hm He) as He1.
  destruct (books_kept i before i1 Hh1 Hc He1) as [_ (_ & _ & _ & [Hp _] & _)]; [| |done].
  - intros who n Hin. eapply Hn, elem_of_app. by left.
  - intros who. specialize (Hb who). rewrite reported_snoc in Hb.
    enough (0 ≤ report who a) by lia. by destruct a as [|w n| |]; [|edestruct Hx|..].
Qed.
End Credit.

(** ** Batches *)
Section Batches.
Context `{Wakers} `{Boxes : BoxedErrors} `{Below : !QmuxLower}.
Import Translate InnerOps TransportOps.
#[local] Abbreviation prims doing := (rtc (prim doing)).

Lemma take_in_still e i : still i (take_in e i) ∧ i_releases (take_in e i) = i_releases i.
Proof. by destruct e as [| | | | | | |[]|]. Qed.

Lemma translate_sane e local code : translate e local ≠ Some (QClosed code).
Proof. by destruct e; simpl; repeat case_match. Qed.

Lemma take_in_sane e i : sane i → sane (take_in e i).
Proof.
  intros [Hn Hr]. unfold sane. rewrite (proj2 (take_in_still e i)). split; [|done].
  unfold take_in. destruct (route_adapter_event e i) as [i1 [e1|]] eqn:E.
  - intros code. simpl. apply translate_sane.
  - by destruct e as [| | | | | | |[]|]; simplify_eq/=.
Qed.

Lemma prim_still a i i' : prim a i i' → is_polled a = false → still i i'.
Proof.
  destruct 1 as [| | | | | | | |l e|cx l e| |cx b|i' (Hs & _)]; intros Ha; try done.
  - apply (take_in_still e (set_conn l i)).
  - apply (take_in_still e (set_conn l i)).
  - unfold park_open. by repeat case_match.
  - by apply Hs.
Qed.

Lemma prims_still a i i' : is_polled a = false → prims a i i' → still i i'.
Proof.
  intros Ha. induction 1 as [|i1 i2 i3 Hp _ [E3 E4]]; [done|].
  destruct (prim_still _ _ _ Hp Ha) as [E1 E2]. split; congruence.
Qed.

Lemma prims_sane a i i' : prims a i i' → sane i → sane i'.
Proof.
  induction 1 as [|i1 i2 i3 Hp _ IH]; [done|]. intros Hs. apply IH. clear IH.
  destruct Hp as [| | | | | | | |l e|cx l e| |cx b|i' (_ & Hb & _)]; try done; eauto.
  - by apply take_in_sane.
  - by apply take_in_sane.
  - unfold park_open. by repeat case_match.
Qed.

Lemma extend_streams_still l i i' :
  extend_streams l i = Some i' → still i i' ∧ i_next i' = i_next i ∧ i_releases i' = i_releases i.
Proof.
  revert i. induction l as [|[s n] l IH]; intros i; simpl; [by intros [= <-]|].
  unfold on_conn. destruct (l_extend_stream_credit s n (i_conn i)) as [[l' a]|]; [|done]. simpl.
  by intros (? & ? & ?)%IH.
Qed.

Lemma flush_still i i' :
  flush_credit i = Some i' → still i i' ∧ i_next i' = i_next i ∧ i_releases i' = i_releases i.
Proof.
  unfold flush_credit. case_match; [by intros [= <-]|]. case_match; [by intros [= <-]|].
  destruct (extend_streams _ _) as [i1|] eqn:E; [|done]. apply extend_streams_still in E.
  case_match; [|by intros [= <-]]. unfold on_conn.
  destruct (l_extend_connection_credit _ _) as [[l a]|]; [|done]. by intros [= <-].
Qed.

Lemma defer_still who n i i' :
  defer_credit who n i = Some i' →
  still i i' ∧ i_next i' = i_next i ∧ i_releases i' = i_releases i.
Proof.
  unfold defer_credit. case_match; [by intros [= <-]|]. case_decide; [|by intros [= <-]].
  by intros ?%flush_still.
Qed.

(** Whether anything has been handed over since [poll_event] last waited. *)
Definition after (a : Action) (open : bool) : bool :=
  match a with Polled Pending => false | Polled (Ready _) => true | _ => open end.
Definition batch_open (as_ : list Action) : bool := foldl (λ open a, after a open) false as_.

(** What ends a stream, or every stream. *)
Definition ends (a : Action) : bool :=
  match a with
  | Polled (Ready (Ok event)) => ends_a_stream event
  | Polled (Ready (Err _)) => true
  | _ => false
  end.
Definition ends_all (a : Action) : bool :=
  match a with Polled (Ready (Ok (QClosed _))) | Polled (Ready (Err _)) => true | _ => false end.

(** What a method does to the flags. *)
Definition marks (i : Inner) (a : Action) (i' : Inner) : Prop :=
  i_emitted i' = after a (i_emitted i) ∧ (ends a = true → i_emitted i = false) ∧
  i_reported i' = i_reported i || ends_all a ∧ (ends_all a = true → i_reported i = false).

Lemma next_event_marks cx i i' p :
  (i', p) = next_event cx i → sane i → marks i (Polled p) i'.
Proof.
  intros E [Hn _]. unfold next_event in E. unfold marks.
  destruct (i_next i) as [ev|] eqn:En.
  - destruct (ends_a_stream ev && i_emitted i) eqn:Ee; injection E as -> ->.
    + simpl. by rewrite orb_false_r.
    + assert (ends_all (Polled (Ready (Ok ev))) = false) as Hall.
      { destruct ev; try done. by edestruct Hn. }
      rewrite Hall, orb_false_r. split_and!; [done| |done..]. cbn [ends]. intros Hev. rewrite Hev in Ee.
      by destruct (i_emitted i).
  - destruct (i_ending i) as [ending|]; [destruct (i_reported i) eqn:Er|]; simplify_eq/=.
    + by rewrite Er.
    + destruct (i_emitted i) eqn:Ee; simplify_eq/=; [by rewrite Er|].
      by destruct (e_orderly ending).
    + by rewrite orb_false_r.
Qed.

Lemma other_marks i a i' :
  method i a i' → (∀ who n, a ≠ Extended who n) → is_polled a = false → sane i →
  still i i' ∧ sane i'.
Proof.
  intros Hm Hx Ha Hs. destruct (method_flushes _ _ _ Hm Hx) as (i2 & [(i1 & Hf & Hp)|[-> _]] & ->);
    [|done].
  apply flush_still in Hf as ([E1 E2] & En & Er).
  assert (sane i2) as Hs2.
  { eapply prims_sane; [exact Hp|]. unfold sane in *. by rewrite En, Er. }
  apply prims_still in Hp as [E3 E4]; [|done]. split; [|done]. split; simpl; congruence.
Qed.

Lemma method_marks i a i' : method i a i' → sane i → marks i a i' ∧ sane i'.
Proof.
  intros Hm Hs. destruct (extended_or a) as [(who & n & ->)|Hx].
  { inversion Hm as [| | | | |s n' i2 r Hc E1 E2| |]; subst.
    unfold extend_credit in Hc. apply with_is in Hc as (i1 & Hc & ->).
    assert (still i i1 ∧ i_next i1 = i_next i ∧ i_releases i1 = i_releases i) as ([E1 E2] & En & Er).
    { case_match; [by simplify_eq|]. destruct (defer_credit _ n i) as [i2|] eqn:Hd; [|done].
      injection Hc as <- _. by eapply defer_still. }
    unfold marks, sane in *. simpl. rewrite E1, E2, En, Er. by rewrite orb_false_r. }
  destruct (is_polled a) eqn:Ha.
  2: { destruct (other_marks _ _ _ Hm Hx Ha Hs) as [[E1 E2] Hs2]. split; [|done].
    unfold marks. rewrite E1, E2. destruct a; try done; simpl; by rewrite orb_false_r. }
  destruct a as [p|who n|cx bidi|]; try done.
  - inversion Hm as [cx i2 p' Hp E1 E2| | | | | | |]; subst.
    apply with_is in Hp as (i3 & Hp & ->).
    apply poll_event_parts in Hp as (i1 & i2 & Hf & Hps & Hn).
    apply flush_still in Hf as ([E1 E2] & En & Er).
    assert (sane i2) as Hs2.
    { eapply prims_sane; [exact Hps|]. unfold sane in *. by rewrite En, Er. }
    apply prims_still in Hps as [E3 E4]; [|done].
    assert (i_emitted i2 = i_emitted i ∧ i_reported i2 = i_reported i) as [Ee Erp] by (split; congruence).
    destruct Hn as [(ev & rest & Erl & -> & ->)|Hn].
    + destruct Hs2 as [Hn2 Hr2]. rewrite Erl in Hr2. apply Forall_cons in Hr2 as [Hev Hrest].
      split; [|by split]. unfold marks. destruct ev; try done. simpl. by rewrite Erp, orb_false_r.
    + pose proof (next_event_marks _ _ _ _ Hn Hs2) as Hmk. split.
      * unfold marks in *. rewrite <-Ee, <-Erp. exact Hmk.
      * pose proof (next_event_prims cx p i2) as Hb. rewrite <-Hn in Hb. by apply Hb.
Qed.

Lemma history_marks i as_ i' :
  history i as_ i' → sane i → i_emitted i = false → i_reported i = false →
  sane i' ∧ i_emitted i' = batch_open as_ ∧
  (length (filter (λ a, ends_all a = true) as_) = if i_reported i' then 1 else 0)%nat.
Proof.
  intros Hh Hs He Hr. induction Hh as [|as_ i1 a i2 Hh IH Hm]; [by rewrite Hr|].
  destruct IH as (Hs1 & E1 & E2). destruct (method_marks _ _ _ Hm Hs1) as [(M1 & _ & M2 & M3) Hs2].
  split; [done|]. unfold batch_open in *. rewrite foldl_app, <-E1. split; [done|].
  rewrite filter_app, length_app, E2, M2. destruct (ends_all a) eqn:Ea.
  - by rewrite M3, filter_cons_True.
  - rewrite filter_cons_False by (by rewrite Ea). rewrite filter_nil, orb_false_r. simpl. lia.
Qed.

(** What ends a stream starts a batch of its own, and the ending is reported once.
    Whatever methods are called on a transport just built, [poll_event] hands over a closed
    stream, the closed connection or its failure only when nothing has been handed over since
    it last waited, so that a driver that takes events until it is told to wait never has one
    behind the stream's last octets; and it hands over the end of the connection, as an event
    or as a failure, at most once. *)
Theorem endings_alone conn as_ i' :
  history (inner_new conn) as_ i' →
  (∀ before a rest, as_ = before ++ a :: rest → ends a = true → batch_open before = false) ∧
  (length (filter (λ a, ends_all a = true) as_) ≤ 1)%nat.
Proof.
  intros Hh. assert (sane (inner_new conn)) as Hs by (by split).
  split.
  - intros before a rest -> Ha. revert Hh. generalize i'. induction rest as [|b rest IH] using rev_ind; intros i2 Hh.
    + inversion Hh as [E|before' i1 a' i3 Hh1 Hm E]; subst; [by destruct before|].
      apply app_inj_tail in E as [-> ->].
      destruct (history_marks _ _ _ Hh1 Hs eq_refl eq_refl) as (Hs1 & <- & _).
      by apply (method_marks _ _ _ Hm Hs1).
    + inversion Hh as [E|before' i1 a' i3 Hh1 Hm E]; subst.
      { apply (f_equal length) in E. rewrite length_app in E. simpl in E. lia. }
      rewrite app_comm_cons, app_assoc in E. apply app_inj_tail in E as [-> _]. by eapply IH.
  - destruct (history_marks _ _ _ Hh Hs eq_refl eq_refl) as (_ & _ & ->). case_match; lia.
Qed.
End Batches.
