(* ===== verification/QmuxH3Waits.v ===== *)
(** * HTTP/3 over QMux: who waits, and what is released

    The driver told to wait is owed a wakeup, a task parked to open a stream is woken when
    there may be room, and every octet the connection accepts of the driver's offers is
    released, once. *)

From Stdlib Require Import ZArith Lia Strings.Byte.
From stdpp Require Import base list gmap strings.
From S2P Require Import Prelude HttpCrate QmuxScheduling H3Types H3Body H3Conn H3Safety H3Head H3Shared H3Driver H3Roles Varint CloseCodec QmuxError QmuxTypes QmuxIo QmuxLower QmuxH3 QmuxH3Facts.

(** ** Waiting *)
Section Waiting.
Context `{Wakers} `{Boxes : BoxedErrors} `{Below : !QmuxLower} `{Rec : !Recorded}.
Import Translate InnerOps TransportOps.

Lemma take_in_woken e i : i_woken (take_in e i) = i_woken i.
Proof. by destruct e as [| | | | | | |[]|]. Qed.

Lemma prims_woken a i i' : rtc (prim a) i i' → i_woken i `prefix_of` i_woken i'.
Proof.
  induction 1 as [|i1 i2 i3 Hp _ IH]; [done|]. etransitivity; [|exact IH].
  destruct Hp as [| | | | | | | |l e|cx l e| |cx b|i' (_ & _ & _ & _ & _ & _ & _ & _ & Hw & _)]; try done.
  - by rewrite take_in_woken.
  - by rewrite take_in_woken.
  - unfold park_open. by repeat case_match.
Qed.

Lemma extend_streams_woken l i i' :
  extend_streams l i = Some i' →
  i_woken i' = i_woken i ∧ i_deferred i' = i_deferred i ∧
  i_uni_waiter i' = i_uni_waiter i ∧ i_bidi_waiter i' = i_bidi_waiter i.
Proof.
  revert i. induction l as [|[s n] l IH]; intros i; simpl; [by intros [= <-]|].
  unfold on_conn. destruct (l_extend_stream_credit s n (i_conn i)) as [[l' a]|]; [|done]. simpl.
  by intros (? & ? & ? & ?)%IH.
Qed.

Lemma flush_waiters i i' :
  flush_credit i = Some i' →
  i_woken i' = i_woken i ∧ i_deferred i' = i_deferred i ∧
  i_uni_waiter i' = i_uni_waiter i ∧ i_bidi_waiter i' = i_bidi_waiter i.
Proof.
  unfold flush_credit. case_match; [by intros [= <-]|]. case_match; [by intros [= <-]|].
  destruct (extend_streams _ _) as [i1|] eqn:E; [|done]. apply extend_streams_woken in E.
  case_match; [|by intros [= <-]]. unfold on_conn.
  destruct (l_extend_connection_credit _ _) as [[l a]|]; [|done]. by intros [= <-].
Qed.

Lemma flush_woken i i' : flush_credit i = Some i' → i_woken i `prefix_of` i_woken i'.
Proof. by intros (-> & _)%flush_waiters. Qed.

(** A driver told to wait for an event is owed a wakeup: it has been woken already, or
    the last thing done to the connection was to poll it with this waker and be told to wait,
    or the end of the connection has been handed over and nothing more will come. *)
Theorem waiting_driver_owed cx i i' :
  with_ (poll_event cx) i = Some (i', Pending) →
  (∃ before rest, i_woken i' = before ++ cx :: rest ∧ i_woken i `prefix_of` before) ∨
  (∃ l, l_poll_next_event cx l = Some (i_conn i', Ok Pending)) ∨
  (is_Some (i_ending i') ∧ i_reported i' = true).
Proof.
  intros (i4 & Hp & ->)%with_is. unfold poll_event in Hp.
  destruct (flush_credit i) as [i1|] eqn:E1; [|done].
  destruct (pump_queued cx i1) as [[i2 b]|] eqn:E2; [|done].
  assert (Hw2 : i_woken i `prefix_of` i_woken i2).
  { etransitivity; [eapply flush_woken; exact E1|]. unfold pump_queued in E2.
    destruct (_ || _); [|by injection E2 as <- _].
    eapply prims_woken. by eapply (pump_buffered_prims Called). }
  destruct (i_releases i2); [|done].
  destruct (fill_empty cx i2) as [i3|] eqn:E3; [|done].
  assert (Hw3 : i_woken i `prefix_of` i_woken i3).
  { etransitivity; [exact Hw2|]. unfold fill_empty in E3. destruct (i_next i2); [by injection E3 as <-|].
    eapply prims_woken. by eapply (fill_prims Called). }
  assert (Hwoke : ∀ i5, i5 = wake_by_ref cx (set_emitted false i3) →
    ∃ before rest, i_woken (unlock i5) = before ++ cx :: rest ∧ i_woken i `prefix_of` before).
  { intros i5 ->. exists (i_woken i3), (i_deferred i3). split; [|done]. simpl. by rewrite <-app_assoc. }
  injection Hp as Hn. unfold next_event in Hn.
  destruct (i_next i3) as [ev|] eqn:En3.
  { destruct (_ && _); injection Hn; intros; [|done]. left. by apply Hwoke. }
  destruct (i_ending i3) as [ending|] eqn:Ee3.
  { destruct (i_reported i3) eqn:Er3; [|destruct (i_emitted i3)]; injection Hn; intros; subst i4; try done.
    - right. right. simpl. rewrite Ee3. by split.
    - left. by apply Hwoke. }
  injection Hn as <-. unfold fill_empty in E3.
  destruct (i_next i2) eqn:En2; [injection E3 as <-; congruence|]. unfold fill, on_conn in E3.
  destruct (i_next (queue i2)) eqn:Enq; [injection E3 as <-; congruence|].
  destruct (l_poll_next_event cx _) as [[l [[|e]|e]]|] eqn:El; [..|done]; simpl in E3; injection E3 as <-.
  - right. left. by exists (i_conn (queue i2)).
  - set (i5 := queue (take_in e (set_conn l (queue i2)))) in *. revert En3 Ee3. destruct (i_next i5) eqn:En5; [intros; simpl in *; congruence|].
    destruct (i_ending i5) eqn:Ee5; [intros; simpl in *; congruence|]. intros _ _. left.
    exists (i_woken i5), (i_deferred i5). split; [simpl; by rewrite <-app_assoc|].
    etransitivity; [exact Hw2|]. eapply prims_woken. etransitivity; [eapply (queue_prims Called)|].
    eapply rtc_l; [by eapply p_poll|]. apply queue_prims.
  - unfold end_ in Ee3. simpl in Ee3. by destruct (i_ending (queue i2)) eqn:Eq; simpl in *; congruence.
Qed.

(** *** Parked opens *)
Section Opens.
Variable bidi : bool.

(** The slot of a direction, and the events that may mean room for a stream there. *)
Definition slot (i : Inner) : option Waker := if bidi then i_bidi_waiter i else i_uni_waiter i.

Definition grants (x : LowerCall) : bool :=
  match x with
  | Delivered (Event.StreamLimit LocalBidi _) => bidi
  | Delivered (Event.StreamLimit LocalUni _) => negb bidi
  | Delivered (Event.PeerTransportParams _) => true
  | _ => false
  end.

(** Woken already, or to be woken when the lock is let go of. *)
Definition owed (i : Inner) : list Waker := i_woken i ++ i_deferred i.

(** Who is parked stays parked until room may have come, and is owed a wakeup from then on. *)
Definition follows (w : Waker) (i i' : Inner) : Prop :=
  ∃ more new, ledger i' = ledger i ++ more ∧ owed i' ≡ₚ owed i ++ new ∧
    (slot i = Some w → w ∈ new ∨ slot i' = Some w ∧ Forall (λ x, grants x = false) more).

Lemma follows_trans w i1 i2 i3 : follows w i1 i2 → follows w i2 i3 → follows w i1 i3.
Proof.
  intros (m1 & n1 & E1 & P1 & F1) (m2 & n2 & E2 & P2 & F2). exists (m1 ++ m2), (n1 ++ n2).
  split; [by rewrite E2, E1, app_assoc|]. split; [by rewrite P2, P1, app_assoc|].
  intros [Hw|[Hs Hm]]%F1; [left; apply elem_of_app; by left|].
  destruct (F2 Hs) as [Hw|[Hs2 Hm2]]; [left; apply elem_of_app; by right|right].
  split; [done|]. by apply Forall_app.
Qed.

(** Nobody is taken out of a slot. *)
Lemma follows_call w i i' more :
  ledger i' = ledger i ++ more → Forall (λ x, grants x = false) more →
  slot i' = slot i → i_deferred i' = i_deferred i → i_woken i `prefix_of` i_woken i' →
  follows w i i'.
Proof.
  intros E Hm Hs Hd [k Hk]. exists more, k. split_and!; [done| |rewrite Hs; by right].
  unfold owed. rewrite Hd, Hk, <-!app_assoc. apply Permutation_app_head, Permutation_app_comm.
Qed.

Lemma follows_beside w i i' :
  i_conn i' = i_conn i → slot i' = slot i → i_deferred i' = i_deferred i →
  i_woken i `prefix_of` i_woken i' → follows w i i'.
Proof.
  intros E. apply follows_call with (more := []); [|done]. unfold ledger. by rewrite E, app_nil_r.
Qed.

Lemma follows_set_conn w l i more :
  calls l = ledger i ++ more → Forall (λ x, grants x = false) more → follows w i (set_conn l i).
Proof. intros E Hm. by apply (follows_call w i (set_conn l i) more). Qed.

Lemma follows_nothing w l i : calls l = ledger i → follows w i (set_conn l i).
Proof. intros E. apply (follows_set_conn w l i []); [by rewrite app_nil_r|done]. Qed.

(** An event taken in. *)
Lemma follows_take_in w e l i :
  calls l = ledger i ++ [Delivered e] → follows w i (take_in e (set_conn l i)).
Proof.
  intros E. unfold follows.
  destruct (grants (Delivered e)) eqn:Hg; pose proof Hg as Hg'; unfold grants in Hg'.
  2: { exists [Delivered e], (match e with
         | Event.StreamLimit LocalBidi _ => option_list (i_bidi_waiter i)
         | Event.StreamLimit LocalUni _ => option_list (i_uni_waiter i) | _ => [] end).
    unfold ledger, owed, slot. split_and!.
    - by destruct e as [| | | | | | |[]|].
    - destruct e as [| | | | | | |[]|]; simpl; by rewrite ?app_nil_r, ?app_assoc.
    - intros Hs. right. split; [|by repeat constructor].
      destruct e as [| | | | | | |[]|]; simpl in *; destruct bidi; done. }
  exists [Delivered e], (match e with
    | Event.StreamLimit LocalBidi _ => option_list (i_bidi_waiter i)
    | Event.StreamLimit LocalUni _ => option_list (i_uni_waiter i)
    | _ => option_list (i_bidi_waiter i) ++ option_list (i_uni_waiter i) end).
  unfold ledger, owed, slot. split_and!.
  - by destruct e as [| | | | | | |[]|].
  - destruct e as [| | | | | | |[]|]; try discriminate Hg'; simpl; by rewrite <-?app_assoc.
  - intros Hs. left. destruct e as [| | | | | | |[]|]; simpl in *; destruct bidi; try discriminate;
      rewrite Hs; simpl; set_solver.
Qed.

Lemma follows_park w cx b i :
  (b = bidi → will_wake w cx = true) → follows w i (park_open cx b i).
Proof.
  intros Hw. exists [], []. unfold park_open, ledger, owed, slot. rewrite app_nil_r.
  split_and!; [by repeat case_match|by rewrite app_nil_r; repeat case_match|].
  intros Hs. right. split; [|done]. destruct b, bidi; rewrite ?Hs, ?Hw by done; try done;
    by repeat case_match.
Qed.

Lemma prim_follows w a i i' :
  prim a i i' → (∀ cx, a = Opened cx bidi → will_wake w cx = true) → follows w i i'.
Proof.
  intros Hp Ha.
  destruct Hp as [cx l r E|cx l r E|cx rs l r E|cx l r E|k l r E|s h c l r E|s ss f l r E|l E|l e E
    |cx l e E|cx l r E Hr|cx b Eb|i' (_ & _ & E1 & _ & _ & Eu & Eb & Ed & Hw & _)].
  - by apply follows_nothing, (rec_pump _ _ _ _ E).
  - by apply follows_nothing, (rec_pump_buffered _ _ _ _ E).
  - by apply follows_nothing, (rec_close _ _ _ _ _ E).
  - by apply follows_nothing, (rec_finish _ _ _ _ E).
  - by apply follows_nothing, (rec_open _ _ _ _ E).
  - by apply follows_nothing, (rec_shutdown _ _ _ _ _ _ E).
  - eapply follows_set_conn; [apply (rec_write_vectored _ _ _ _ _ _ E)|].
    destruct r as [[]|]; by repeat constructor.
  - eapply follows_set_conn; [apply (rec_try_next _ _ _ E)|done].
  - apply follows_take_in. apply (rec_try_next _ _ _ E).
  - apply follows_take_in. apply (rec_poll_next _ _ _ _ E).
  - eapply follows_set_conn; [apply (rec_poll_next _ _ _ _ E)|].
    destruct r as [[|e]|]; [constructor|by edestruct Hr|constructor].
  - apply follows_park. intros ->. eauto.
  - apply follows_beside; [done| |done..]. unfold slot. by rewrite Eu, Eb.
Qed.

Lemma prims_follow w a i i' :
  rtc (prim a) i i' → (∀ cx, a = Opened cx bidi → will_wake w cx = true) → follows w i i'.
Proof.
  intros Hp Ha. induction Hp as [|i1 i2 i3 H1 _ IH]; [by apply follows_beside|].
  eapply follows_trans; [by eapply prim_follows|done].
Qed.

Lemma extend_streams_grants l i i' :
  extend_streams l i = Some i' →
  ∃ more, ledger i' = ledger i ++ more ∧ Forall (λ x, grants x = false) more.
Proof.
  revert i. induction l as [|[s n] l IH]; intros i; simpl.
  { intros [= <-]. exists []. by rewrite app_nil_r. }
  unfold on_conn. destruct (l_extend_stream_credit s n (i_conn i)) as [[l' a]|] eqn:E; [|done].
  apply rec_stream_credit in E. simpl. intros (more & Em & Hm)%IH. unfold ledger in *. simpl in Em.
  rewrite E, <-app_assoc in Em. eexists. split; [exact Em|]. apply Forall_app. split; [|done].
  destruct a; by repeat constructor.
Qed.

Lemma flush_follows w i i' : flush_credit i = Some i' → follows w i i'.
Proof.
  intros Hf. destruct (flush_waiters _ _ Hf) as (Ew & Ed & Eu & Eb).
  assert (∃ more, ledger i' = ledger i ++ more ∧ Forall (λ x, grants x = false) more)
    as (more & Em & Hm).
  { unfold flush_credit in Hf. revert Hf. clear.
    case_match; [intros [= <-]; exists []; by rewrite app_nil_r|].
    case_match; [intros [= <-]; exists []; by rewrite app_nil_r|].
    destruct (extend_streams _ _) as [i1|] eqn:E; [|done].
    apply extend_streams_grants in E as (more & Em & Hm). change (ledger (set_credit _ i)) with (ledger i) in Em.
    case_match; [|intros [= <-]; by exists more]. unfold on_conn.
    destruct (l_extend_connection_credit _ _) as [[l a]|] eqn:E; [|done].
    apply rec_connection_credit in E. intros [= <-]. unfold ledger in *. simpl in *.
    rewrite E, Em, <-app_assoc. eexists. split; [done|]. apply Forall_app. split; [done|].
    destruct a; by repeat constructor. }
  apply (follows_call w i i' more); [done..| |done|by rewrite Ew]. unfold slot. by rewrite Eu, Eb.
Qed.

Lemma follows_unlock w i : follows w i (unlock i).
Proof.
  exists [], []. unfold ledger, owed, slot, unlock. simpl. rewrite !app_nil_r.
  split_and!; [done..|by right].
Qed.

Lemma method_follows w a i i' :
  method i a i' → (∀ cx, a = Opened cx bidi → will_wake w cx = true) → follows w i i'.
Proof.
  intros Hm Ha. destruct (extended_or a) as [(who & n & ->)|Hx].
  - inversion Hm as [| | | | |s n' i2 r Hc E1 E2| |]; subst.
    unfold extend_credit in Hc. apply with_is in Hc as (i1 & Hc & ->).
    eapply follows_trans; [|apply follows_unlock].
    case_match; [simplify_eq; by apply follows_beside|].
    destruct (defer_credit _ n i) as [i2|] eqn:Hd; [|done]. injection Hc as <- _.
    unfold defer_credit in Hd. case_match; [simplify_eq; by apply follows_beside|].
    case_decide; [|injection Hd as <-; by apply follows_beside].
    eapply follows_trans; [|by apply flush_follows]. by apply follows_beside.
  - destruct (method_flushes _ _ _ Hm Hx) as (i2 & [(i1 & Hf & Hp)|[-> _]] & ->); [|apply follows_unlock].
    eapply follows_trans; [by apply flush_follows|].
    eapply follows_trans; [by eapply prims_follow|apply follows_unlock].
Qed.

(** C28.  A task parked to open a stream is not forgotten.  Whatever methods follow, if no
    other task opens in its direction: it stays parked while QMux delivers nothing that could
    mean room for a stream in that direction, and once QMux has, the task has been woken. *)
Theorem parked_open_owed w i as_ i' :
  history i as_ i' → slot i = Some w → i_deferred i = [] →
  (∀ cx, Opened cx bidi ∈ as_ → will_wake w cx = true) →
  ∃ more new, ledger i' = ledger i ++ more ∧ i_woken i' ≡ₚ i_woken i ++ new ∧
    (w ∈ new ∨ slot i' = Some w ∧ Forall (λ x, grants x = false) more).
Proof.
  intros Hh Hs Hd Ha.
  assert (follows w i i' ∧ i_deferred i' = []) as [(more & new & E & Ho & Hw) Hd'].
  { induction Hh as [|as_ i1 a i2 Hh IH Hm]; [by split; [apply follows_beside|]|].
    destruct IH as [IH _]. { intros cx Hin. apply Ha, elem_of_app. by left. }
    split.
    - eapply follows_trans; [exact IH|]. eapply method_follows; [exact Hm|].
      intros cx ->. apply Ha, elem_of_app. right. apply list_elem_of_here.
    - destruct Hm; match goal with Hc : _ = Some _ |- _ =>
        unfold poll_transmit, poll_flush, shutdown, extend_credit, close in Hc;
        by apply with_is in Hc as (? & _ & ->) end. }
  exists more, new. unfold owed in Ho. rewrite Hd, Hd', !app_nil_r in Ho. eauto.
Qed.
End Opens.
End Waiting.

(** ** Releases *)
Section Releases.
Context `{Wakers} `{Boxes : BoxedErrors} `{Below : !QmuxLower}.
Import Translate InnerOps TransportOps.

(** A source, as the transport is lent one. *)
Definition Source (W : Type) : Type := ∀ X : Type,
  (X → H3Types.StreamId → list bytes → bool → X * WriteOutcome) → X → W → X * W * bool.

(** It offers one stream at most, and goes on with the answer. *)
Definition offers_one {W} (source : Source W) : Prop := ∀ o,
  (∃ o' b, ∀ X write x, source X write x o = (x, o', b)) ∨
  (∃ s slices fin k, ∀ X write x,
     source X write x o = ((write x s slices fin).1, (k (write x s slices fin).2).1,
                           (k (write x s slices fin).2).2)).

(** The same source, with what it is told written down. *)
Abbreviation Told := (list (H3Types.StreamId * WriteOutcome)).

Definition logged {W} (source : Source W) : Source (W * Told) := λ X write x o,
  let '((x, told), o, b) :=
    source (X * Told)%type
      (λ x s slices fin,
         ((((write x.1 s slices fin).1, x.2 ++ [(s, (write x.1 s slices fin).2)])),
          (write x.1 s slices fin).2)) (x, o.2) o.1 in
  (x, (o, told), b).

(** What is to be released of it. *)
Definition releases_of (told : Told) : list QuicEvent :=
  x ← told; match x with
            | (s, H3Driver.Accepted n) => if decide (0 < n)%nat then [QReleased s (Z.of_nat n) true] else []
            | _ => []
            end.

Lemma offer_answer l s slices fin x out :
  offer (Some (l, None, None)) s slices fin = (x, out) →
  x = None ∨ ∃ l' failure,
    x = Some (l', match out with
                  | H3Driver.Accepted n => if decide (0 < n)%nat then Some (s, Z.of_nat n) else None
                  | _ => None end, failure).
Proof.
  cbn [offer]. destruct (_ && _); [intros [= <- <-]; right; by eexists _, _|].
  destruct (l_try_write_stream_vectored _ _ _ l) as [[l' a]|]; [|intros [= <- <-]; by left].
  destruct a as [[n| |]|e]; intros [= <- <-]; right; by eexists _, _.
Qed.

Lemma pump_buffered_releases cx i i' a :
  pump_buffered cx i = Some (i', a) → i_releases i' = i_releases i.
Proof.
  unfold pump_buffered, on_conn. case_match; [by intros [= <- _]|].
  destruct (l_poll_pump_buffered cx (i_conn i)) as [[l [[]|e]]|]; simpl; try done; intros [= <- _];
    [done..|]. unfold end_. by case_match.
Qed.

Section One.
Context {W : Type} (source : Source W) (Hone : offers_one source).

Lemma offers_told n cx o told i i' o' :
  offers source n cx o i = Some (i', o') →
  ∃ more, offers (logged source) n cx (o, told) i = Some (i', (o', told ++ more)) ∧
    i_releases i' = i_releases i ++ releases_of more ∧ (length more ≤ n)%nat.
Proof.
  revert o told i. induction n as [|n IH]; intros o told i; cbn [offers].
  { intros [= <- <-]. exists []. rewrite !app_nil_r. split_and!; [done..|simpl; lia]. }
  destruct (pump_buffered cx i) as [[i1 room]|] eqn:Ep; [|done].
  apply pump_buffered_releases in Ep as Er. destruct room; cbn [negb].
  2: { intros [= <- <-]. exists []. rewrite !app_nil_r. split_and!; [done..|simpl; lia]. }
  unfold logged at 1. destruct (Hone o) as [(o1 & b & Hs)|(s & slices & fin & k & Hs)].
  - rewrite !Hs. simpl. destruct b.
    + intros (more & -> & Hr & Hl)%(IH _ told). exists more. rewrite Hr. simpl.
      split_and!; [done|by rewrite Er|lia].
    + intros [= <- <-]. exists []. simpl. rewrite !app_nil_r. split_and!; [done..|lia].
  - rewrite !Hs. cbn [fst snd]. unfold call_closure. cbn [fst snd proj1_sig].
    destruct (offer (proj1_sig (closure (i_conn i1))) s slices fin) as [x out] eqn:Eo.
    change (proj1_sig (closure (i_conn i1))) with (Some (i_conn i1, None : option (H3Types.StreamId * Z), None : option Io.Error)) in *.
    destruct (offer_answer _ _ _ _ _ _ Eo) as [->|(l & failure & ->)]; [done|]. cbn [fst snd].
    set (released := match out with H3Driver.Accepted m => _ | _ => _ end).
    set (i2 := match released with Some _ => _ | None => _ end).
    assert (Hr2 : i_releases i2 = i_releases i ++ releases_of [(s, out)]).
    { unfold i2, released, releases_of. rewrite <-Er. simpl. rewrite app_nil_r.
      destruct out as [m| |]; [case_decide|..]; simpl; by rewrite ?app_nil_r. }
    destruct failure as [e|]; [|destruct (k out).2].
    + intros [= <- <-]. exists [(s, out)]. split_and!; [done| |simpl; lia].
      rewrite <-Hr2. unfold end_. by destruct (i_ending i2).
    + intros (more & -> & Hr & Hl)%(IH _ (told ++ [(s, out)])). exists ((s, out) :: more).
      rewrite <-app_assoc. split_and!; [done| |simpl; lia]. rewrite Hr, Hr2, <-app_assoc.
      unfold releases_of. simpl. by rewrite app_nil_r.
    + intros [= <- <-]. exists [(s, out)]. split_and!; [done..|simpl; lia].
Qed.

(** One transmit pass of the transport. *)
Lemma transmit_told cx o i i' o' polled :
  poll_transmit cx source o i = Some (i', (o', polled)) →
  ∃ told, poll_transmit cx (logged source) (o, []) i = Some (i', ((o', told), polled)) ∧
    i_releases i' = i_releases i ++ releases_of told ∧ (length told ≤ MAX_OFFERS)%nat.
Proof.
  unfold poll_transmit, with_, drain. destruct (flush_credit i) as [i1|] eqn:Ef; [|done].
  apply flush_still in Ef as (_ & _ & Er).
  destruct (offers source MAX_OFFERS cx o i1) as [[i2 o2]|] eqn:E; [|done].
  apply (offers_told _ _ _ []) in E as (told & Ho & Hr & Hl).
  destruct (pump_buffered cx i2) as [[i3 a]|] eqn:Ep; [|done]. intros [= <- <- <-].
  exists told. cbv beta iota.  rewrite Ho. cbv beta iota. rewrite Ep. apply pump_buffered_releases in Ep. split_and!; [done| |done].
  simpl. by rewrite Ep, Hr, Er.
Qed.
End One.

(** The HTTP/3 driver's source is such a source. *)
Section DriverSource.
Context `{Crate : Http} `{Lib : Nghttp3} {B : Type} `{!Bodies B}.
Import OffersOps.

(** What [write_loop] does with the answer to the offer it makes. *)
Definition go_on (g : ConnOps.SendGuard) (o : Offers B) (outcome : WriteOutcome) : Offers B * bool :=
  match dispose g outcome o with
  | (o, None) => (o, false)
  | (o, Some (block, gone)) =>
      let '(o, r) :=
        if (block : bool) then call (ConnOps.block_stream (ConnOps.g_stream g)) o else (o, Some ()) in
      match r with
      | None => (o, false)
      | Some _ =>
          let '(o, r) :=
            if (gone : bool) then call (ConnOps.shutdown_stream_write (ConnOps.g_stream g)) o
            else (o, Some ()) in
          (o, bool_decide (is_Some r))
      end
  end.

Definition write_loops (fuel : nat) : Source (Offers B) := λ X write x o, write_loop write fuel x o.

Lemma write_loops_one fuel : offers_one (write_loops fuel).
Proof.
  unfold write_loops. induction fuel as [|fuel IH]; intros o; cbn [write_loop].
  { left. by exists o, false. }
  destruct (of_failure o); [left; by eexists _, _|].
  destruct (ConnOps.writev_stream (of_machine o)) as [[s [[g|]|e]]|]; [| |left; by eexists _, _..].
  - right. exists (ConnOps.g_stream g), (ConnOps.g_slices g), (ConnOps.g_fin g), (go_on g (on_machine s o)).
    intros X write x. unfold go_on. destruct (write x _ _ _) as [x' outcome]. cbn [fst snd].
    destruct (dispose g outcome _) as [o1 [[block gone]|]]; [|done].
    destruct (if block then _ else _) as [o2 [|]]; [|done].
    by destruct (if gone then _ else _) as [o3 r].
  - destruct (_ || _); [left; by eexists _, _|].
    destruct (unblock_all _ _) as [o1 go]. destruct go; [|left; by eexists _, _].
    destruct (IH o1) as [(o2 & b & Hs)|(s' & slices & fin & k & Hs)]; [left|right].
    + by exists o2, b.
    + by exists s', slices, fin, k.
Qed.

Lemma write_next_one : offers_one (write_next (B := B)).
Proof.
  intros o. unfold write_next. destruct (of_panicked o); [left; by exists o, false|].
  apply (write_loops_one 2 o).
Qed.

(** C29.  What is accepted is released.  In one transmit pass over the HTTP/3 driver's own
    source, with what the source is told written down: for every offer that is answered with
    a count, one release of that stream and count is queued, in the order of the offers, and
    nothing else is; an offer refused or answered with nothing releases nothing; and at most
    [MAX_OFFERS] offers are made. *)
Theorem releases_exact cx o i i' o' polled :
  poll_transmit cx (write_next (B := B)) o i = Some (i', (o', polled)) →
  ∃ told, poll_transmit cx (logged (write_next (B := B))) (o, []) i = Some (i', ((o', told), polled)) ∧
    i_releases i' = i_releases i ++ releases_of told ∧ (length told ≤ MAX_OFFERS)%nat.
Proof. apply transmit_told, write_next_one. Qed.
End DriverSource.
End Releases.
