(* ===== verification/QmuxH3Driver.v ===== *)
(** * HTTP/3 over QMux: the driver over the transport

    The HTTP/3 driver takes events in batches and applies what ends a stream before what
    brings it octets: over this transport no batch has an ending behind anything, from any
    driver that started on a connection just built. *)

From Stdlib Require Import ZArith Lia Strings.Byte.
From stdpp Require Import base list gmap strings.
From S2P Require Import Prelude HttpCrate QmuxScheduling H3Types H3Body H3Conn H3Safety H3Head H3Shared H3Driver H3Roles H3Keeps H3Worlds H3Runs Varint CloseCodec QmuxError QmuxTypes QmuxIo QmuxLower QmuxH3 QmuxH3Laws QmuxH3Facts.

Section Driver.
Context `{Wakers} `{Boxes : BoxedErrors} `{Below : !QmuxLower} `{LL : !LowerLaws} `{Bx : !Boxing}.
Context `{Crate : Http} `{Lib : Nghttp3} {B R : Type} `{!Bodies B} `{!Roles B R} `{HashOrder}.
Import Drive.
Abbreviation Driver := (H3Driver.Driver B R).

(** The state of the transport a driver has. *)
Definition transport_of (d : Driver) : Inner := proj1_sig (d_backend d).

(** What every method but [poll_event] does to it. *)
Definition calm_inner (i i' : Inner) : Prop := sane i → still i i' ∧ sane i'.

Lemma calm_inner_refl i : calm_inner i i.
Proof. by intros. Qed.

Lemma calm_inner_trans i1 i2 i3 : calm_inner i1 i2 → calm_inner i2 i3 → calm_inner i1 i3.
Proof.
  intros H1 H2 Hs. destruct (H1 Hs) as [[E1 E2] Hs2]. destruct (H2 Hs2) as [[E3 E4] Hs3].
  split; [|done]. split; congruence.
Qed.

Lemma method_calm i a i' : method i a i' → is_polled a = false → calm_inner i i'.
Proof.
  intros Hm Ha Hs. destruct (method_marks _ _ _ Hm Hs) as [(M1 & _ & M2 & _) Hs']. split; [|done].
  split; [rewrite M1|rewrite M2]; destruct a; try done; simpl; by rewrite orb_false_r.
Qed.

(** *** Every step of a pass but the taking of events *)

(** It leaves what was pushed back alone, and the transport calm. *)
Definition framed {A} (m : M A) : Prop := ∀ d d' r,
  m d = Some (d', r) →
  d_pushback d' = d_pushback d ∧ calm_inner (transport_of d) (transport_of d').

Lemma framed_const {A} (f : Driver → Driver) (g : Driver → result A H3HttpError.Error) :
  (∀ d, d_pushback (f d) = d_pushback d ∧ d_backend (f d) = d_backend d) →
  framed (λ d, Some (f d, g d)).
Proof.
  intros Hf d d' r [= <- _]. destruct (Hf d) as [-> E]. split; [done|]. unfold transport_of.
  rewrite E. apply calm_inner_refl.
Qed.

Lemma framed_bind {A A'} (m : M A) (k : A → M A') :
  framed m → (∀ a, framed (k a)) → framed (bind m k).
Proof.
  intros Hm Hk d d' r. unfold bind. destruct (m d) as [[d1 [a|e]]|] eqn:E; [| |done].
  - intros Hk1. destruct (Hm _ _ _ E) as [E1 C1]. destruct (Hk a _ _ _ Hk1) as [E2 C2].
    split; [congruence|by eapply calm_inner_trans].
  - intros [= <- _]. by eapply Hm.
Qed.

Lemma framed_ret {A} (a : A) : framed (ret a).
Proof. by apply (framed_const (λ d, d) (λ _, Ok a)). Qed.
Lemma framed_throw {A} e : framed (throw (A:=A) e).
Proof. by apply (framed_const (λ d, d) (λ _, Err e)). Qed.
Lemma framed_gets {A} (f : Driver → A) : framed (gets f).
Proof. by apply (framed_const (λ d, d) (λ d, Ok (f d))). Qed.
Lemma framed_modify f :
  (∀ d, d_pushback (f d) = d_pushback d ∧ d_backend (f d) = d_backend d) → framed (modify f).
Proof. apply (framed_const f (λ _, Ok ())). Qed.
Lemma framed_panic {A} : framed (λ _, None : option (Driver * result A H3HttpError.Error)).
Proof. by intros d d' r [=]. Qed.

Lemma framed_each {A} (f : A → M unit) l : (∀ a, framed (f a)) → framed (each f l).
Proof. intros Hf. induction l as [|a l IH]; simpl; [apply framed_ret|]. by apply framed_bind. Qed.

Lemma framed_conn {A} (m : Machine B → Machine B * result A H3Types.Error) :
  framed (conn_call m) ∧ framed (conn_ok m).
Proof.
  split; intros d d' r; unfold conn_call, conn_ok; destruct (m (d_machine d)) as [s a];
    intros [= <- _]; (split; [done|apply calm_inner_refl]).
Qed.

Lemma framed_role_call f : framed (role_call f).
Proof.
  intros d d' r. unfold role_call. destruct (f (d_role d, d_machine d)) as [[r1 s] res].
  intros [= <- _]. split; [done|apply calm_inner_refl].
Qed.

Lemma framed_role_closed s : framed (role_closed s).
Proof.
  apply framed_modify. intros d. by destruct (on_closed s (d_role d) (d_world d)).
Qed.

(** The methods of the transport. *)
Lemma run_calm {A} (act : Inner → option (Inner * A)) Hm a b :
  (∀ i' r, act (proj1_sig b) = Some (i', r) → method (proj1_sig b) a i') → is_polled a = false →
  calm_inner (proj1_sig b) (proj1_sig (run act Hm b).1).
Proof. intros Hact Ha. eapply method_calm; [eapply Hact, run_is|done]. Qed.

Lemma uni_calm cx (b : good_backend) : calm_inner (proj1_sig b) (proj1_sig (poll_open_uni cx b).1).
Proof. apply (run_calm _ _ (Opened cx false)); [by econstructor|done]. Qed.
Lemma bi_calm cx (b : good_backend) : calm_inner (proj1_sig b) (proj1_sig (poll_open_bi cx b).1).
Proof. apply (run_calm _ _ (Opened cx true)); [by econstructor|done]. Qed.
Lemma flush_calm cx (b : good_backend) :
  calm_inner (proj1_sig b) (proj1_sig (H3Driver.poll_flush cx b).1).
Proof. apply (run_calm _ _ Called); [by econstructor|done]. Qed.
Lemma transmit_calm cx (b : good_backend) W src (o : W) :
  calm_inner (proj1_sig b) (proj1_sig (H3Driver.poll_transmit cx b W src o).1.1).
Proof. apply (run_calm _ _ Called); [by econstructor|done]. Qed.
Lemma reset_calm s n (b : good_backend) : calm_inner (proj1_sig b) (proj1_sig (b_reset s n b).1).
Proof. apply (run_calm _ _ Called); [by econstructor|done]. Qed.
Lemma stop_calm s n (b : good_backend) :
  calm_inner (proj1_sig b) (proj1_sig (b_stop_sending s n b).1).
Proof. apply (run_calm _ _ Called); [by econstructor|done]. Qed.
Lemma credit_calm s n (b : good_backend) :
  calm_inner (proj1_sig b) (proj1_sig (b_extend_credit s n b).1).
Proof. apply (run_calm _ _ (Extended (Translate.qmux_stream <$> s) n)); [by econstructor|done]. Qed.
Lemma close_calm n r (b : good_backend) : calm_inner (proj1_sig b) (proj1_sig (b_close n r b).1).
Proof. apply (run_calm _ _ Called); [by econstructor|done]. Qed.

Lemma framed_backend {A} (f : backend → backend * result A BoxedError) :
  (∀ b : good_backend, calm_inner (proj1_sig b) (proj1_sig (f b).1)) → framed (backend_call f).
Proof.
  intros Hf d d' r. unfold backend_call. specialize (Hf (d_backend d)).
  destruct (f (d_backend d)) as [b res]. intros [= <- _]. by split.
Qed.

Lemma framed_flush {A} cx : framed (flush_before_pending (A := A) cx).
Proof.
  intros d d' r. unfold flush_before_pending. pose proof (flush_calm cx (d_backend d)) as Hc.
  destruct (H3Driver.poll_flush cx (d_backend d)) as [b [|[]]]; intros [= <- _]; by split.
Qed.

Lemma framed_open_uni n cx : framed (open_uni n cx).
Proof.
  induction n as [|n IH]; cbn [open_uni]; [apply framed_ret|]. intros d d' r.
  pose proof (uni_calm cx (d_backend d)) as Hc.
  destruct (poll_open_uni cx (d_backend d)) as [b [|[s|e]]]; try (intros [= <- _]; by split).
  intros E. destruct (IH _ _ _ E) as [E1 C1]. split; [done|]. by eapply calm_inner_trans.
Qed.

(** Nothing of the machine, the role or the exchanges matters here. *)
Create HintDb framed.
#[local] Hint Resolve framed_ret framed_throw framed_gets framed_panic framed_role_call
  framed_role_closed framed_flush framed_open_uni reset_calm stop_calm credit_calm close_calm : framed.
#[local] Hint Extern 1 (framed (conn_call _)) => apply framed_conn : framed.
#[local] Hint Extern 1 (framed (conn_ok _)) => apply framed_conn : framed.
#[local] Hint Extern 2 (framed (modify _)) => by apply framed_modify : framed.
#[local] Hint Extern 1 (framed (backend_call _)) => apply framed_backend : framed.

Ltac framed := repeat first
  [ solve [eauto with framed]
  | match goal with |- ∀ x, @?K x => intros ? end
  | apply framed_bind; [|intros ?]
  | apply framed_each; intros ?
  | case_match ].

Lemma framed_poll_bind cx : framed (poll_bind cx).
Proof. unfold poll_bind. framed. Qed.
Lemma framed_extend s n : framed (extend s n).
Proof. unfold extend. framed. Qed.
#[local] Hint Resolve framed_poll_bind framed_extend : framed.

Lemma framed_read s bs fin : framed (read s bs fin).
Proof.
  unfold read. apply framed_bind; [framed|intros now]. apply framed_bind; [framed|intros _].
  intros d d' r. destruct (ConnOps.read_stream s bs fin now (d_machine d)) as [m [n|e]].
  - intros E. destruct (framed_extend _ _ _ _ _ E) as [E1 C1]. by split.
  - intros [= <- _]. split; [done|apply calm_inner_refl].
Qed.

Lemma framed_fail_stream s code : framed (fail_stream s code).
Proof.
  unfold fail_stream. apply framed_bind; [|intros known; framed].
  intros d d' r. destruct (fail_entry s _ _ (d_world d)) as [w known]. intros [= <- _].
  split; [done|apply calm_inner_refl].
Qed.

Lemma framed_close_stream s how : framed (close_stream s how).
Proof.
  unfold close_stream. apply framed_bind.
  - intros d d' r. destruct (ClosedStreams.insert s (d_closed d)) as [c fresh]. intros [= <- _].
    split; [done|apply calm_inner_refl].
  - intros fresh. framed.
Qed.

Lemma framed_refuse_from s : framed (refuse_from s).
Proof. unfold refuse_from. framed. Qed.
#[local] Hint Resolve framed_read framed_fail_stream framed_close_stream framed_refuse_from : framed.

Lemma framed_apply_release s n b : framed (apply_release s n b).
Proof. unfold apply_release. framed. Qed.
#[local] Hint Resolve framed_apply_release : framed.

Lemma framed_control_plane evs : ∀ data unheard, framed (control_plane evs data unheard).
Proof.
  induction evs as [|ev evs IH]; intros data unheard; cbn [control_plane]; [framed|].
  destruct ev; framed.
Qed.

Lemma framed_apply_events evs : framed (apply_events evs).
Proof.
  unfold apply_events. apply framed_bind; [apply framed_control_plane|]. intros [data unheard].
  apply framed_bind; [|framed]. apply framed_each. intros [[s bs] fin]. framed.
Qed.

Lemma framed_trailers fields : framed (decode_trailers fields).
Proof.
  intros d d' r. unfold decode_trailers. destruct (H3Head.trailers fields); [|done].
  intros [= <- _]. split; [done|apply calm_inner_refl].
Qed.
#[local] Hint Resolve framed_trailers : framed.

Lemma framed_dispatch obs : framed (dispatch obs).
Proof. apply framed_each. intros o. unfold dispatch_one. framed. Qed.

Lemma framed_drain_events : framed drain_events.
Proof.
  intros d d' r. unfold drain_events. destruct (EventsOps.drain (d_events d)). intros [= <- _].
  split; [done|apply calm_inner_refl].
Qed.
#[local] Hint Resolve framed_apply_events framed_dispatch framed_drain_events : framed.

(** *** The taking of events *)
Lemma event_marks cx (b b' : good_backend) p :
  H3Driver.poll_event cx b = (b', p) → sane (proj1_sig b) →
  sane (proj1_sig b') ∧
  match p with
  | Ready (Ok ev) =>
      i_emitted (proj1_sig b') = true ∧
      (Translate.ends_a_stream ev = true → i_emitted (proj1_sig b) = false)
  | _ => True
  end.
Proof.
  intros E Hs. simpl in E. unfold over in E.
  pose proof (run_is (TransportOps.with_ (TransportOps.poll_event cx))
    (with_moves _ (poll_event_moves cx)) b) as Er.
  destruct (run _ _ b) as [b1 q]. injection E as <- <-. simpl in Er.
  apply m_event in Er. destruct (method_marks _ _ _ Er Hs) as [(M1 & M2 & _) Hs']. split; [done|].
  by destruct q as [|[ev|e]].
Qed.

Definition no_end (ev : QuicEvent) : Prop := Translate.ends_a_stream ev = false.

Lemma more_events_batch room cx taken d d' evs :
  more_events room cx taken d = Some (d', Ok evs) → sane (transport_of d) →
  (taken ≠ [] → i_emitted (transport_of d) = true) → Forall no_end (tail taken) →
  d_pushback d' = d_pushback d ∧ sane (transport_of d') ∧ Forall no_end (tail evs).
Proof.
  revert taken d. induction room as [|room IH]; intros taken d; cbn [more_events].
  { by intros [= <- <-]. }
  destruct (H3Driver.poll_event cx (d_backend d)) as [b p] eqn:Ep. intros Hm Hs Ht Hf.
  destruct (event_marks _ _ _ _ Ep Hs) as [Hs' Hp].
  destruct p as [|[ev|e]]; [by injection Hm as <- <-| |done].
  assert (Hend : Forall no_end (tail (taken ++ [ev]))).
  { destruct taken as [|ev0 taken]; [done|]. simpl in *. apply Forall_app. split; [done|].
    apply Forall_singleton. unfold no_end. destruct (Translate.ends_a_stream ev) eqn:Ee; [|done].
    destruct Hp as [_ Hp]. unfold transport_of in Ht. rewrite Hp in Ht by done. by specialize (Ht ltac:(done)). }
  assert (Hgo : ∀ d1, d1 = set_backend b d →
    d_pushback d1 = d_pushback d ∧ sane (transport_of d1) ∧
    i_emitted (transport_of d1) = true) by (intros d1 ->; by split_and!; [|exact Hs'|apply Hp]).
  destruct (Hgo _ eq_refl) as (G1 & G2 & G3).
  destruct ev; try (apply (IH (taken ++ [_]) _) in Hm as (E1 & E2 & E3); [by rewrite E1|done..|done]).
  by injection Hm as <- <-.
Qed.

(** What holds of a driver between its points of waiting: nothing is pushed back but just after
    it was handed over. *)
Definition unmixed (s : Driver * Pc) : Prop :=
  match s.2 with
  | PcTop =>
      sane (transport_of s.1) ∧ (is_Some (d_pushback s.1) → i_emitted (transport_of s.1) = true)
  | PcDone _ => True
  | _ => sane (transport_of s.1) ∧ d_pushback s.1 = None
  end.

Lemma take_events_batch cx d d' evs :
  unmixed (d, PcTop) → take_events cx d = Some (d', Ok evs) →
  d_pushback d' = None ∧ sane (transport_of d') ∧ Forall no_end (tail evs).
Proof.
  intros [Hs Hp]. unfold take_events. destruct (d_pushback_error d); [done|].
  intros Hm. apply more_events_batch in Hm; [done|done| |].
  - simpl in Hp. destruct (d_pushback d) as [ev|]; [|done]. intros _. apply Hp. eauto.
  - by destruct (d_pushback d).
Qed.

(** A framed step from a calm point. *)
Definition calm_at (d : Driver) : Prop := sane (transport_of d) ∧ d_pushback d = None.

Lemma framed_calm {A} (m : M A) d d' r : framed m → m d = Some (d', r) → calm_at d → calm_at d'.
Proof.
  intros Hm E [Hs Hp]. destruct (Hm _ _ _ E) as [E1 C1]. split; [by apply C1|congruence].
Qed.

(** What begins a pass, after its events are taken. *)
Lemma begin_pass_calm cx d d' r :
  unmixed (d, PcTop) → begin_pass cx d = Some (d', Ok r) → calm_at d'.
Proof.
  intros Hu. unfold begin_pass, bind at 1.
  destruct (take_events cx d) as [[d1 [evs|e]]|] eqn:E; [|done..].
  destruct (take_events_batch _ _ _ _ Hu E) as (H1 & H2 & _). intros Hb.
  eapply framed_calm; [|exact Hb|by split].
  apply framed_bind; [framed|intros unheard]. apply framed_bind; [framed|intros _].
  apply framed_bind; [|intros _].
  { apply framed_modify. intros d2. by destruct (SharedOps.drain_work _ _). }
  apply framed_bind; [framed|intros deferred].
  apply framed_bind; [apply framed_each; intros []; framed|intros _].
  apply framed_bind; [framed|intros work].
  apply framed_bind; [apply framed_each; intros []; framed|intros _].
  apply framed_bind; [apply framed_each; intros []; framed|intros _].
  apply framed_bind; [apply framed_each; intros []; framed|intros _].
  framed.
Qed.

Lemma framed_end_pass had : framed (end_pass had).
Proof. unfold end_pass. framed. Qed.

Lemma framed_submit unheard : framed (submit unheard).
Proof.
  unfold submit. apply framed_bind; [framed|intros _]. apply framed_bind; [framed|intros obs].
  apply framed_bind; [framed|intros _]. apply framed_each. intros [s code]. framed.
Qed.
#[local] Hint Resolve framed_end_pass framed_submit : framed.

Lemma end_pass_points had d d' pc :
  end_pass had d = Some (d', Ok pc) → (∃ r, pc = PcDone r) ∨ pc = PcTop ∨ ∃ p, pc = PcPark p.
Proof.
  unfold end_pass, bind. destruct (drain_events d) as [[d1 [o|]]|]; [|done..].
  destruct (dispatch o d1) as [[d2 [u|]]|]; [|done..]. unfold gets at 1.
  destruct (d_peer_gone d2); [intros [= _ <-]; eauto|]. unfold gets at 1.
  destruct (done (d_role d2) (d_world d2) && _).
  - unfold gets. destruct (SharedOps.work_pending _); [intros [= _ <-]; eauto|].
    destruct (backend_call _ d2) as [[d3 [v|]]|]; [|done..]. intros [= _ <-]. eauto.
  - unfold gets. case_match; intros [= _ <-]; eauto.
Qed.

#[local] Notation "'do' x ':=' m 'in' k" := (bind m (λ x, k))
  (at level 10, x pattern, m at level 100, k at level 200).

Lemma framed_top {A} (m : M A) d d' r :
  framed m → m d = Some (d', r) → unmixed (d, PcTop) → unmixed (d', PcTop).
Proof.
  intros Hm E [Hs Hp]. destruct (Hm _ _ _ E) as [E1 C1]. destruct (C1 Hs) as [[E2 _] Hs'].
  split; [done|]. simpl in *. rewrite E1, E2. done.
Qed.

Lemma calm_top d : calm_at d → unmixed (d, PcTop).
Proof. intros [Hs Hp]. split; [done|]. simpl. rewrite Hp. by intros []. Qed.

(** Where a segment leads, from a point that is unmixed. *)
Lemma top_segment cx d d' pc w :
  unmixed (d, PcTop) → segment cx PcTop d = Some (d', Ok (pc, w)) → unmixed (d', pc).
Proof.
  intros Hu Hseg. unfold segment, bind at 1 in Hseg.
  destruct ((do bound := poll_bind cx in
    match bound with Pending => flush_before_pending cx | Ready u => ret (Ready u) end) d)
    as [[d1 [bound|e]]|] eqn:E; [|done..].
  assert (unmixed (d1, PcTop)) as Hu1 by (eapply framed_top; [|exact E|exact Hu]; framed).
  destruct bound as [|u]; [by injection Hseg as <- <- _|]. unfold bind in Hseg.
  destruct (begin_pass cx d1) as [[d2 [[had unheard]|e]]|] eqn:E2; [|done..].
  injection Hseg as <- <- _. by apply (begin_pass_calm cx d1 d2 (had, unheard)).
Qed.

Lemma opening_segment cx had unheard d d' pc w :
  calm_at d → segment cx (PcOpening had unheard) d = Some (d', Ok (pc, w)) → unmixed (d', pc).
Proof.
  intros Hc Hseg. unfold segment, bind at 1 in Hseg. unfold gets at 1 in Hseg.
  destruct (needs_stream (d_role d) (d_world d)).
  - pose proof (bi_calm cx (d_backend d)) as Hb.
    destruct (poll_open_bi cx (d_backend d)) as [b [|[s|e]]]; [| |done].
    + assert (calm_at (set_backend b d)) as Hc1 by (destruct Hc; split; [by apply Hb|done]).
      unfold bind in Hseg. destruct (flush_before_pending cx _) as [[d1 [u|]]|] eqn:E; [|done..].
      injection Hseg as <- <- _. by eapply framed_calm; [apply (framed_flush (A := unit))|exact E|].
    + injection Hseg as <- <- _. destruct Hc. split; [by apply Hb|done].
  - assert (framed (do _ := submit unheard in do blocked := gets d_blocked in
      do _ := modify (set_blocked []) in ret (PcTransmit had blocked None false, false))) as Hf
      by framed.
    assert (∃ bl, pc = PcTransmit had bl None false) as [bl ->].
    { revert Hseg. unfold bind, gets, modify, ret. destruct (submit unheard d) as [[d1 [u|]]|]; [|done..].
      intros [= _ <- _]. eauto. }
    by eapply framed_calm; [exact Hf|exact Hseg|].
Qed.

Lemma transmit_segment cx had bl f re d d' pc w :
  calm_at d → at_transmit cx had bl f re d = Some (d', Ok (pc, w)) → unmixed (d', pc).
Proof.
  intros Hc. unfold at_transmit.
  pose proof (transmit_calm cx (d_backend d) _ (OffersOps.write_next (B := B))
    (mkOffers (d_machine d) bl f re false)) as Hb.
  destruct (H3Driver.poll_transmit cx (d_backend d) _ _ _) as [[b o] polled]. simpl in Hb.
  destruct (of_panicked o); [done|].
  set (d1 := set_machine _ _). assert (calm_at d1) as Hc1 by (destruct Hc; split; [by apply Hb|done]).
  match goal with |- context [match ?m d1 with _ => _ end] => set (out := m) end.
  assert (framed out) as Hout by (unfold out; destruct polled as [|[]]; framed).
  destruct (out d1) as [[d2 r]|] eqn:E; [|done].
  assert (calm_at d2) as Hc2 by (by eapply framed_calm).
  assert (Hend : ∀ d3, calm_at d3 →
    (do pc := end_pass had in ret (pc, false)) d3 = Some (d', Ok (pc, w)) → unmixed (d', pc)).
  { intros d3 Hc3. unfold bind. destruct (end_pass had d3) as [[d4 [pc'|]]|] eqn:Ee; [|done..].
    intros [= <- <- _]. assert (calm_at d4) as Hc4 by (by eapply framed_calm; [apply framed_end_pass|..]).
    destruct (end_pass_points _ _ _ _ Ee) as [[r' ->]|[->|[p ->]]]; [done|by apply calm_top|done]. }
  destruct r as [[|u]|e]; [by intros [= <- <- _]| |].
  - destruct (of_failure o); [done|]. by apply Hend.
  - done.
Qed.

Lemma park_segment cx parked d d' pc w :
  calm_at d → at_park cx parked d = Some (d', Ok (pc, w)) → unmixed (d', pc).
Proof.
  intros Hc. unfold at_park, bind, gets at 1.
  destruct (parked && _); [intros [= <- <- _]; by apply calm_top|].
  destruct (SharedOps.refresh_driver_and_work_pending cx (d_world d)) as [w0 pending].
  cbn [gets]. set (d1 := on_world (λ _, w0) d). assert (calm_at d1) as Hc1 by exact Hc.
  unfold gets. destruct (pending || _); [intros [= <- <- _]; by apply calm_top|].
  destruct (H3Driver.poll_event cx (d_backend d1)) as [b p] eqn:Ep.
  destruct (event_marks _ _ _ _ Ep (proj1 Hc1)) as [Hs Hp].
  assert (calm_at (set_backend b d1)) as Hc2 by (destruct Hc1; by split).
  destruct p as [|[ev|e]].
  - pose proof (flush_calm cx b) as Hfl. simpl d_backend.
    destruct (H3Driver.poll_flush cx b) as [b2 fl].
    assert (calm_at (set_backend b2 (set_backend b d1))) as Hc3.
    { destruct Hc2 as [Hs2 Hp2]. split; [by apply Hfl|done]. }
    destruct fl as [|[u|e]]; intros [= <- <- _]; [done..|].
    destruct Hc3 as [Hs3 Hp3]. apply calm_top. by split.
  - intros [= <- <- _]. split; [done|]. intros _. apply Hp.
  - intros [= <- <- _]. apply calm_top. destruct Hc2. by split.
Qed.

Lemma turn_unmixed cx s s' w : turn cx s = Some (s', w) → unmixed s → unmixed s'.
Proof.
  destruct s as [d pc]. unfold turn. cbn [fst snd]. intros Ht Hu.
  assert (Hgo : ∀ d1 r, segment cx pc d = Some (d1, r) →
    match r with Ok (pc1, _) => unmixed (d1, pc1) | Err _ => True end).
  { intros d1 [[pc1 w1]|e] Hseg; [|done]. destruct pc as [|had unheard|had bl f re|p|r].
    - by eapply top_segment.
    - eapply opening_segment; [exact Hu|exact Hseg].
    - eapply transmit_segment; [exact Hu|exact Hseg].
    - eapply park_segment; [exact Hu|exact Hseg].
    - by injection Hseg as <- <- _. }
  destruct pc; try (by injection Ht as <- <-);
    (destruct (segment cx _ d) as [[d1 [[pc1 w1]|e]]|]; [|by injection Ht as <- <-|done]);
    specialize (Hgo _ _ eq_refl); simpl in Hgo;
    destruct pc1; by injection Ht as <- <-.
Qed.

(** The driver's turns, and whatever the holders of its handles do in between, which leaves
    the transport and what was pushed back alone. *)
Inductive goes_on : Driver * Pc → Driver * Pc → Prop :=
| a_turn cx s s' w : turn cx s = Some (s', w) → goes_on s s'
| others d d' pc :
    d_backend d' = d_backend d → d_pushback d' = d_pushback d → goes_on (d, pc) (d', pc).

Lemma goes_on_unmixed s s' : goes_on s s' → unmixed s → unmixed s'.
Proof.
  destruct 1 as [cx s s' w Ht|d d' pc Eb Ep]; [by eapply turn_unmixed|].
  unfold unmixed, transport_of. simpl. by rewrite Eb, Ep.
Qed.

(** C27.  No batch mixes an ending with anything before it.  From a driver started over a
    transport just built, however its turns and the holders of its handles interleave, and
    wherever the bound on a batch cuts: in every batch of events it takes, a closed stream or a
    closed connection can only be the first, so that the octets of a stream are applied in an
    earlier batch than its end. *)
Theorem batches_never_mix conn (Hl : lower_ok (l_role conn) conn) core w config r d cx d' batch :
  rtc goes_on (driver_new (exist good (inner_new conn) Hl) core w config r, PcTop) (d, PcTop) →
  take_events cx d = Some (d', Ok batch) →
  Forall no_end (tail batch).
Proof.
  intros Hrun Ht. eapply take_events_batch; [|exact Ht].
  clear Ht.
  assert (Hinv : ∀ s1 s2, rtc goes_on s1 s2 → unmixed s1 → unmixed s2).
  { induction 1; eauto using goes_on_unmixed. }
  eapply Hinv; [exact Hrun|]. split; [by split|]. by intros [].
Qed.
End Driver.
