(* ===== verification/QmuxH3Toy.v ===== *)
(** * HTTP/3 over QMux: a small connection to run the transport on

    The connection of H3QmuxToy.v, with what it is asked and what it delivers written down,
    boxes that hold this crate's errors, and bodies of one piece. *)

From Stdlib Require Import ZArith Lia Strings.Byte.
From stdpp Require Import base list gmap strings.
From S2P Require Import Prelude Traces HttpCrate QmuxScheduling H3Types H3Body H3Conn H3Safety H3Head H3Shared H3Driver H3Roles H3Keeps H3Worlds H3Runs HeadFacts H3HttpToys Varint CloseCodec QmuxError QmuxTypes QmuxIo QmuxLower QmuxH3 QmuxH3Laws QmuxH3Facts QmuxH3Waits QmuxH3Driver H3QmuxToy.
Import HttpToy Translate InnerOps TransportOps.

Module TransportToy.

#[local] Existing Instance Toys.toy_wakers.
#[local] Existing Instance Toys.toy_order.
#[local] Existing Instance Toys.toy_nghttp3.

(** A box holds an error of this crate. *)
Inductive Box := Boxed (e : @AdapterError.Error (Build_BoxedErrors Box)).
#[local] Instance boxes : BoxedErrors := { BoxedError := Box }.
#[local, refine] Instance boxing : Boxing := {
  box e := Boxed e;
  downcast_ref b := match b with Boxed e => Some e end
}.
Proof. done. Defined.

#[local] Instance low : QmuxLower := AdapterToy.low.
#[local] Instance low_laws : LowerLaws := AdapterToy.low_laws.
#[local] Instance low_records : QmuxLower.Recorded := AdapterToy.low_records.

(** A body of at most one piece. *)
#[local, refine] Instance bodies : Bodies (option bytes) := {|
  body_is_end_stream b := bool_decide (b = None);
  body_poll_frame _ _ b :=
    match b with Some bs => (None, [], FrameData bs) | None => (None, [], FrameEnd) end;
  body_burst _ b := match b with Some _ => 1%nat | None => 0%nat end
|}.
Proof.
  intros w s [bs|] b' l f Hp Hf; simplify_eq/=; [lia|]. by destruct Hf as [[??]|?].
Defined.

(** A transport over a connection with events to deliver and room for so many octets. *)
Definition over (events : list Event.Event) (room : nat) : lower :=
  (AdapterToy.mkNet events room 0, []).
Definition fresh (events : list Event.Event) (room : nat) : Inner := inner_new (over events room).

Definition s0 : Stream.StreamId := Stream.mkStreamId 0.
Definition a_byte : bytes := [Byte.x61].

(** What a method leaves; when it panics, what there was. *)
Definition left {A} (i : Inner) (r : option (Inner * A)) : Inner :=
  match r with Some (i', _) => i' | None => i end.

Lemma credit_balanced_witness :
  let i := fresh [] 0 in
  let told := [Extended (Some s0) 5; Extended (Some s0) 7; Extended None 12] in
  ∃ i', history i (told ++ [Called]) i' ∧
    (∀ who, asked who (ledger i') + held who (i_credit i') =
            asked who (ledger i) + reported who (told ++ [Called])) ∧
    i_credit i' = credit_default ∧ asked (Some s0) (ledger i') = 12 ∧ asks (ledger i') = 2%nat.
Proof.
  set (i := fresh [] 0).
  set (i1 := left i (extend_credit (Some 0) 5 i)).
  set (i2 := left i1 (extend_credit (Some 0) 7 i1)).
  set (i3 := left i2 (extend_credit None 12 i2)).
  set (i4 := left i3 (TransportOps.poll_flush 0%nat i3)).
  assert (Hh : history i [Extended (Some s0) 5; Extended (Some s0) 7; Extended None 12; Called] i4).
  { refine (history_snoc i [_; _; _] i3 _ i4 (history_snoc i [_; _] i2 _ i3
      (history_snoc i [_] i1 _ i2 (history_snoc i [] i _ i1 (history_nil i) _) _) _) _).
    - apply (m_credit i (Some 0) 5 i1 (Ok ())). vm_compute. reflexivity.
    - apply (m_credit i1 (Some 0) 7 i2 (Ok ())). vm_compute. reflexivity.
    - apply (m_credit i2 None 12 i3 (Ok ())). vm_compute. reflexivity.
    - apply (m_flush i3 0%nat i4 Pending). vm_compute. reflexivity. }
  exists i4. split; [exact Hh|].
  destruct (credit_balanced i _ i4 Hh) as (H1 & _ & _ & _ & _ & H6); [reflexivity..| | |].
  - intros who n. rewrite !elem_of_cons. intros [E|[E|[E|[E|E]]]]; simplify_eq; try lia.
    by apply not_elem_of_nil in E.
  - intros [[z]|]; unfold reported, U64_MAX; simpl; repeat case_decide; lia.
  - split; [exact H1|]. split; [by apply (H6 [Extended (Some s0) 5; Extended (Some s0) 7; Extended None 12] Called)|].
    split; vm_compute; reflexivity.
Defined.

(** Octets and the end of their stream, polled for three times. *)
Lemma endings_alone_witness :
  let conn := over [Event.StreamData s0 0 a_byte false; Event.StreamClosed s0 None None] 0 in
  let data := Polled (Ready (Ok (QData 0 a_byte false))) in
  let closed := Polled (Ready (Ok (QStreamClosed 0 None None))) in
  ∃ i', history (inner_new conn) [data; Polled Pending; closed] i' ∧
    batch_open [data; Polled Pending] = false.
Proof.
  intros conn data closed.
  set (i := inner_new conn).
  set (i1 := left i (with_ (TransportOps.poll_event 0%nat) i)).
  set (i2 := left i1 (with_ (TransportOps.poll_event 0%nat) i1)).
  set (i3 := left i2 (with_ (TransportOps.poll_event 0%nat) i2)).
  assert (Hh : history i [data; Polled Pending; closed] i3).
  { refine (history_snoc i [_; _] i2 _ i3 (history_snoc i [_] i1 _ i2
      (history_snoc i [] i _ i1 (history_nil i) _) _) _);
      apply (m_event _ 0%nat); vm_compute; reflexivity. }
  exists i3. split; [exact Hh|].
  apply (proj1 (endings_alone conn _ i3 Hh) [data; Polled Pending] closed []); reflexivity.
Defined.

Lemma waiting_driver_owed_witness :
  let i := fresh [] 0 in
  let i' := left i (with_ (TransportOps.poll_event 3%nat) i) in
  with_ (TransportOps.poll_event 3%nat) i = Some (i', Pending) ∧
  ((∃ before rest, i_woken i' = before ++ 3%nat :: rest ∧ i_woken i `prefix_of` before) ∨
   (∃ l, l_poll_next_event 3%nat l = Some (i_conn i', Ok Pending)) ∨
   (is_Some (i_ending i') ∧ i_reported i' = true)).
Proof.
  intros i i'. assert (E : with_ (TransportOps.poll_event 3%nat) i = Some (i', Pending))
    by (vm_compute; reflexivity).
  split; [exact E|]. exact (waiting_driver_owed 3%nat i i' E).
Defined.

(** Task 5 is parked to open a request stream when the peer raises the limit. *)
Lemma parked_open_owed_witness :
  let i := park_open 5%nat true (fresh [Event.StreamLimit LocalBidi 1] 0) in
  ∃ i' more new, history i [Polled Pending] i' ∧ ledger i' = ledger i ++ more ∧
    i_woken i' ≡ₚ i_woken i ++ new ∧
    (5%nat ∈ new ∨ slot true i' = Some 5%nat ∧ Forall (λ x, grants true x = false) more).
Proof.
  intros i. set (i1 := left i (with_ (TransportOps.poll_event 3%nat) i)).
  assert (Hh : history i [Polled Pending] i1).
  { refine (history_snoc i [] i _ i1 (history_nil i) _).
    apply (m_event _ 3%nat); vm_compute; reflexivity. }
  destruct (parked_open_owed true 5%nat i _ i1 Hh) as (more & new & H1 & H2 & H3);
    [reflexivity|reflexivity| |by exists i1, more, new].
  intros cx Hin. exfalso. by apply list_elem_of_singleton in Hin.
Defined.

(** A machine with something to write on stream 0 once it is put back. *)
Definition machine : Machine (option bytes) :=
  (H3Conn.mkConn (mkLogged (N:=Toys.small) (false, []) []) H3Types.Client driver_handlers
     Registry.initial Deliveries.initial (Some 2) (Some (6, 10)) None 0 false None 0,
   mkCtx EventsOps.default world_new).
Definition offering : Offers (option bytes) := mkOffers machine [0] None false false.

Lemma releases_exact_witness :
  let i := fresh [] 100 in
  let source := OffersOps.write_next (B := option bytes) in
  ∃ i' o' polled told,
    TransportOps.poll_transmit 0%nat source offering i = Some (i', (o', polled)) ∧
    TransportOps.poll_transmit 0%nat (QmuxH3Waits.logged source) (offering, []) i =
      Some (i', ((o', told), polled)) ∧
    i_releases i' = i_releases i ++ releases_of told ∧ (length told ≤ MAX_OFFERS)%nat ∧
    i_releases i' = [QReleased 0 4 true].
Proof.
  intros i source.
  assert (Hr : (i_releases ∘ fst <$> TransportOps.poll_transmit 0%nat source offering i) =
    Some [QReleased 0 4 true]) by (vm_compute; reflexivity).
  destruct (TransportOps.poll_transmit 0%nat source offering i) as [[i' [o' polled]]|] eqn:E;
    [|done]. injection Hr as Hr.
  destruct (releases_exact 0%nat offering i i' o' polled E) as (told & H1 & H2 & H3).
  exists i', o', polled, told. split; [first [exact E|reflexivity]|].
  split; [exact H1|]. split; [exact H2|]. split; [exact H3|]. exact Hr.
Defined.

(** Two deliveries and the end of their stream: the batch stops before the end. *)
Definition delivering : lower :=
  over [Event.StreamData s0 0 a_byte false; Event.StreamData s0 1 a_byte true;
        Event.StreamClosed s0 None None] 0.
Definition driving : H3Driver.Driver (option bytes) ClientRole :=
  Drive.driver_new (exist good (inner_new delivering) eq_refl) machine.1 world_new
    H3Config.default Client.new.

Lemma batches_never_mix_witness :
  ∃ d' batch,
    Drive.take_events 0%nat driving = Some (d', Ok batch) ∧
    batch = [QData 0 a_byte false; QData 0 a_byte true] ∧ Forall no_end (tail batch).
Proof.
  assert (Hb : snd <$> Drive.take_events 0%nat driving =
    Some (Ok [QData 0 a_byte false; QData 0 a_byte true])) by (vm_compute; reflexivity).
  destruct (Drive.take_events 0%nat driving) as [[d' r]|] eqn:E; [|done].
  injection Hb as ->. exists d', [QData 0 a_byte false; QData 0 a_byte true].
  split; [reflexivity|]. split; [reflexivity|].
  exact (batches_never_mix delivering eq_refl machine.1 world_new H3Config.default Client.new
    driving 0%nat d' _ (rtc_refl _ _) E).
Defined.

End TransportToy.
