(* ===== verification/QmuxStack.v ===== *)
(** * HTTP/3 over QMux, down to the C library and the byte stream

    The two adapters proved over any connection that obeys [LowerLaws], put on the connection
    of QmuxIo: what remains assumed is the behaviour of the C library and of the byte stream. *)

From Stdlib Require Import ZArith Lia Strings.Byte.
From stdpp Require Import base list gmap strings relations.
From S2P Require Import Prelude HttpCrate H3Types H3Body H3Conn H3Head H3Shared H3Driver Varint CloseCodec QmuxError QmuxTypes QmuxConn QmuxWrite QmuxScheduling QmuxIo QmuxIoFacts QmuxIoSafety QmuxIoTotal QmuxLower QmuxLowerFacts H3Qmux H3QmuxFacts QmuxH3 QmuxH3Laws QmuxH3Facts.

Section Stack.
Context `{HD : Dwnx} {HL : DwnxWriteLaws} {HI : DwnxIdleLaws} {HP : DwnxProgress} {HN : DwnxStreams}.
Context `{HW : Wakers} {HB : ByteStream} `{HS : !StreamLaws} `{HSP : !StreamProgress}
  {HC : Clock}.
Context `{Boxes : BoxedErrors} `{Bufs : SendBufs} `{!LowerWakers}.
Variable application : Z → bytes → CloseReason.

Import InnerOps TransportOps.

#[local] Instance stack : QmuxLower := qmux_total application.
#[local] Instance stack_laws : LowerLaws := qmux_laws application.

(** Every method of the HTTP/3 transport returns. *)
Record answers (i : Inner) : Prop := {
  an_event cx : is_Some (with_ (poll_event cx) i);
  an_transmit W source cx (o : W) : is_Some (poll_transmit cx source o i);
  an_flush cx : is_Some (poll_flush cx i);
  an_open cx bidi : is_Some (with_ (poll_open cx bidi) i);
  an_shutdown s half code : is_Some (shutdown s half code i);
  an_credit s n : is_Some (extend_credit s n i);
  an_close code reason : is_Some (close code reason i);
  an_finish cx : is_Some (with_ (poll_finish cx) i)
}.

Lemma moves_answer {A} (act : Inner → option (Inner * A)) i : moves act → good i → is_Some (act i).
Proof. intros Hm Hg. destruct (Hm i Hg) as (i' & a & -> & _). by eexists. Qed.

Lemma good_answers i : good i → answers i.
Proof.
  intros Hg. split; intros; apply moves_answer; auto using with_moves, poll_event_moves,
    poll_transmit_moves, poll_flush_moves, poll_open_moves, shutdown_moves, extend_credit_moves,
    close_moves, poll_finish_moves.
Qed.

Lemma moves_keep {A} (act : Inner → option (Inner * A)) i i' a :
  moves act → good i → act i = Some (i', a) → good i'.
Proof. intros Hm Hg E. destruct (Hm i Hg) as (i1 & a1 & E1 & H1). simplify_eq. by eapply onward_good. Qed.

Lemma transport_method_good i a i' : method i a i' → good i → good i'.
Proof.
  intros Hm Hg. destruct Hm;
    (eapply moves_keep; [|exact Hg|eassumption]); auto using with_moves, poll_event_moves,
    poll_transmit_moves, poll_flush_moves, poll_open_moves, shutdown_moves, extend_credit_moves,
    close_moves, poll_finish_moves.
Qed.

Lemma history_good i as_ i' : good i → history i as_ i' → good i'.
Proof. intros Hg Hh. induction Hh; [done|]. by eapply transport_method_good. Qed.

(** C14. From a QMux connection just made, over a C library and a byte stream that keep what
    they document, nothing above it panics or loops: whatever methods of the HTTP/3 transport
    have been called with whatever outcomes, every method returns; and however the sections of
    any number of tasks of the h3 adapter interleave, the next section of each returns. *)
Theorem stack_never_panics role s k config c :
  QmuxIo.new role s k config = Ok c →
  ∃ x : Sound, proj1_sig x = c ∧
    (∀ as_ i, history (inner_new x) as_ i → answers i) ∧
    (∀ limit sys,
       rtc (sys_step (callable (Low := recording (Below := stack)) true))
         (Adapter.from_qmux (Below := recording (Below := stack)) (x, []) limit, []) sys →
       no_panic sys).
Proof.
  intros (x & Hx & Hs)%new_sound. exists x. split; [done|]. split.
  - intros as_ i Hh. apply good_answers. eapply history_good, Hh.
    unfold good. simpl. by rewrite (proj1 Hs).
  - intros limit sys Hr. eapply (run_good (Low := recording (Below := stack)) (Laws := recording_laws (Below := stack))
      (Rec := recording_records (Below := stack)) true
      (x, []) limit), Hr; [|done].
    simpl. by rewrite (proj1 Hs).
Qed.
End Stack.

(** ** The stack over the C library of QmuxWrite.v and the byte stream of QmuxIoSafety.v *)
Module StackToy.

#[local] Existing Instance toy_dwnx.
#[local] Existing Instance toy_write_laws.
#[local] Existing Instance toy_idle_laws.
#[local] Existing Instance toy_progress.
#[local] Existing Instance toy_streams.
#[local] Existing Instance nat_wakers.
#[local] Existing Instance toy_stream.
#[local] Existing Instance toy_stream_laws.
#[local] Existing Instance toy_stream_progress.
#[local] Existing Instance toy_clock.
#[local] Instance boxes : BoxedErrors := { BoxedError := unit }.
#[local] Instance bufs : SendBufs := {|
  sbuf := bytes; H3Qmux.remaining := length; chunk := take 2; advance := drop
|}.
#[local, refine] Instance lower_wakers : LowerWakers := {|
  lower_waker := 0%nat : Waker; is_lower := Nat.eqb 0
|}.
Proof. done. Defined.

Definition app (code : Z) (reason : bytes) : CloseReason := mkCloseReason Application code 0 reason.

(** A connection just made; a task that asks for a stream has only to be called. *)
Lemma stack_never_panics_witness :
  ∃ c (x : Sound), toy_connection = Ok c ∧ proj1_sig x = c ∧
    answers app (inner_new (Below := qmux_total app) x) ∧
    no_panic (Adapter.from_qmux (Below := recording (Below := qmux_total app)) (x, []) 4%nat,
      [H3QmuxFacts.method (Low := recording (Below := qmux_total app)) (COpen 0 Bidi 7%nat)]).
Proof.
  destruct toy_connection as [c|e] eqn:E; [|vm_compute in E; discriminate].
  destruct (stack_never_panics app QmuxTypes.Client _ _ _ c E) as (x & Hx & Ha & Hp).
  exists c, x. split; [done|]. split; [exact Hx|]. split; [apply (Ha []), history_nil|].
  apply (Hp 4%nat). apply rtc_once, (sys_call _ _ []). by exists (COpen 0 Bidi 7%nat).
Defined.
End StackToy.
